(* ===== verification/_CoqProject ===== *)
-Q . S2P
Prelude.v
Wire.v
Integrity.v
WalFrame.v
WalScan.v
WalLog.v
WalRecovery.v
Decimal.v
DecimalArith.v
DecimalOrder.v
DecimalText.v
Text.v
Float64.v
Ordering.v
RelationalValue.v
OrderedKey.v
BTreeMap.v
Pages.v
IndexRange.v
RelationalIndex.v
RelationalIndexSpec.v
RelationalIndexScan.v
CowMap.v
CowMapSpec.v
HistoryBudget.v
LockModel.v
LockTable.v
LockQueue.v
WaitForGraph.v
LockManager.v
Values.v
Numeric.v
RelationalSchema.v
NumericExpression.v
PrimaryKeyRange.v
ResidentRows.v
ResidentRowsSpec.v
MutationRows.v
IndexMaintenance.v
ForeignKeys.v
DeleteCascade.v
TransactionDeletes.v
TemporalText.v
DurationText.v
ValueOrder.v
Version.v
VersionCredit.v
VersionSpec.v
WalValue.v
TextCodec.v
TextWellFormed.v
ProjectionPredicates.v
WalOps.v
WalRecord.v
WalCursor.v
