(* ===== verification/Prelude.v ===== *)
(** * HawDB: a verification library for the storage core

    HawDB is an embedded graph and relational database.  This library models the
    part of it that decides what is durable, what is visible and in which order:
    the write-ahead log and its codecs, the exact values the log carries, the
    ordered keys of the indexes, the copy-on-write maps of the snapshots, the
    rows, secondary indexes, schemas and predicates of relational tables, the
    version index that validates optimistic transactions, and the lock manager.

    ** How the parts fit together

    A transaction takes locks from the lock manager, collects a write set, is
    validated against the version index at commit, and is written to the log as
    one record of operations; committed state is held in copy-on-write maps, in
    pages of rows and in indexes that sort by ordered keys.  An UPDATE or DELETE
    finds its rows by the key range its predicate implies, evaluates the
    predicate and numeric expressions on them, and refreshes the indexes for the
    keys it changed.  Opening a database replays the log:
    bytes, fragments, records, operations, values.  The library follows that
    path in both directions.

    ** Files, in dependency order

    - [Prelude]: results and errors, machine integers, byte sequences, UTF-8, the
      tactics [zlen_lia], [case_bool] and [case_any], and the hint databases.
    - [Wire] (crates/storage/src/wire.rs): varints, zigzag, tags, length-delimited
      fields, skipping of unknown fields.
    - [Integrity] (crates/integrity/src/lib.rs): SHA-256 digests as text, CRC32C.
    - [WalFrame], [WalScan], [WalLog], [WalRecovery]
      (crates/storage/src/wal/frame.rs): the file header, the fragmenting writer
      and the block reader; the reader on one fragment; on a written log; on a
      log cut at any byte.  The reader state [BinaryWalReader] is the struct of
      the source; [next_event] is its step.
    - [Decimal], [DecimalArith], [DecimalOrder], [DecimalText]
      (crates/core/src/decimal.rs): 38-digit decimals, their arithmetic, byte
      encodings, order and text.
    - [Text]: the string methods of the language that the text codecs call.
    - [Float64]: IEEE 754 doubles by their bits, with their display and parsing.
    - [Ordering]: [OrdLaws], what a client of [Ord] relies on, with pull-backs.
    - [RelationalValue] (crates/storage/src/relational.rs): relational scalars,
      keys and their order.
    - [OrderedKey] (relational/ordered_key.rs, ordered_key/encode.rs): the key
      bytes that sort as the keys do.
    - [BTreeMap]: the standard library's ordered map as its sorted entries.
      [Pages]: directories of sorted pages, and the page a key belongs to.
    - [IndexRange] (relational/index_range.rs): index scans, their tests on keys
      and their encoded ranges.  [RelationalIndex], [RelationalIndexSpec],
      [RelationalIndexScan] (relational.rs): posting lists and index pages with
      their changes, plain or under a checkpoint work context; their refinement
      of an ordered multimap; their scans.
    - [CowMap], [CowMapSpec] (crates/storage/src/cow.rs, cow/page.rs): the
      segmented copy-on-write map, and its refinement of [BTreeMap].
    - [HistoryBudget] (version/history_budget.rs): leases of history memory.
    - [LockModel], [LockTable], [LockQueue]
      (crates/storage/src/transaction_locks.rs): lock requests and their
      conflicts, the table of granted locks, the wait queue with its deadlock
      search; [WaitForGraph]: its wait-for graph.  [LockManager] (src/api/concurrent/coordinator.rs): the critical
      sections of the manager and the step relation [step] that interleaves them.
    - [Values] (crates/core/src/value.rs, vector.rs, temporal/codec.rs): graph
      values and their binary temporal payloads; [ValueOrder]: their total order.
    - [Numeric] (crates/core/src/numeric.rs): SQL arithmetic, casts and
      comparison of integers, decimals and doubles.
    - [RelationalSchema] (relational.rs): schemas, predicates, validation and the
      required indexes.  [NumericExpression] (relational/numeric_expression.rs):
      evaluation by recursion and by compiled instructions.  [PrimaryKeyRange]
      (relational/primary_key_range.rs): key intervals of predicates.
    - [ResidentRows], [ResidentRowsSpec] (relational/resident_rows.rs): the rows
      of a table in copy-on-write pages, and their refinement of an ordered map.
      [MutationRows] (relational.rs): three-valued predicates and the candidate
      rows of an UPDATE or DELETE.  [IndexMaintenance] (relational.rs):
      rebuilding the indexes of a table and refreshing them for changed keys.
      [ForeignKeys] (relational.rs): validation of foreign keys, of a whole state
      and of the changes of a transaction.  [DeleteCascade],
      [TransactionDeletes] (relational.rs): the deletions of a transaction and
      the cascade after them, and what they delete together.
    - [TemporalText], [DurationText] (crates/core/src/temporal/format.rs,
      parse.rs, construct.rs): ISO 8601 text of temporal values.
    - [Version], [VersionCredit], [VersionSpec] (crates/storage/src/version.rs,
      cow/version_pages.rs): version keys, write sets, the stamp index with the
      history leases of its pages, pruning and snapshot pins; what is reserved for
      the leases is enough; and the commit history the index stands for.
    - [WalValue] (crates/storage/src/wal/binary.rs): values in the log.
    - [TextCodec], [TextWellFormed] (crates/storage/src/text.rs,
      text/value_decode.rs): the text form of values and properties.
    - [ProjectionPredicates] (crates/storage/src/projection.rs,
      projection/predicate_decode.rs): predicates of projected graphs as text,
      which the operation that projects a graph carries.
    - [WalOps], [WalRecord] (crates/storage/src/wal/binary.rs, wal/binary/*.rs,
      wal.rs): operations and records in the log.
    - [WalCursor] (crates/storage/src/wal.rs): opening and replaying a log file.

    ** What the theorems show

    - Log: a written log reads back record by record ([wal_log_roundtrip],
      [wal_replay_roundtrip]); cut at any byte it yields a prefix of its records
      and a torn tail, never corruption ([wal_torn_tail], [wal_replay_crash]);
      truncated to its valid prefix it can be appended to ([wal_repair_append]);
      the reader makes progress on every file ([wal_reader_total]).  Records,
      batches, operations and values round trip and decoding terminates
      ([wal_record_roundtrip], [wal_value_roundtrip], [wal_value_total],
      [wal_prepared_batch_equiv]).
    - Text: values and predicates round trip, up to what the decoders refuse
      ([text_value_roundtrip], [projection_predicates_exact]); whatever decodes
      is well formed and can be written again ([text_decode_type]); which
      property lists survive their text ([properties_text_exact]); one temporal
      value has one text ([temporal_text_canonical]).
    - Keys and numbers: the byte order of encoded keys is the order of the keys,
      the encoding is canonical and decodes ([ordered_key_order],
      [ordered_key_canonical], [ordered_key_roundtrip]); decimal operations are
      exact or correctly rounded and ordered bytes sort numerically
      ([decimal_order_numeric], [decimal_div_rounded], [decimal_parse_exact]);
      numbers of different types compare by their exact values
      ([numeric_compare_exact]).
    - Tables: the resident rows refine an ordered map with exact totals
      ([resident_rows_refine]); a secondary index refines a multimap
      ([relational_index_refines]), its scans visit exactly the keys of the scan,
      in order ([index_range_scan_exact]), and the encoded range of a scan
      contains exactly the encodings of those keys ([index_range_exact]); the
      interval of a predicate is exact ([key_interval_exact]), so that a mutation
      finds the rows a full scan would ([mutation_candidates_exact]); refreshing
      indexes does what a rebuild would, uniqueness included
      ([index_refresh_exact]); checking the changes of a transaction decides the
      foreign keys of the whole state ([foreign_keys_incremental_exact]); the
      deletions of a transaction delete exactly the rows they name and those that
      cascade from them ([transaction_deletes_exact]), and the cascade ends within
      as many rounds as there are rows ([delete_cascade_exact]); compiled
      expressions evaluate as their trees and have the inferred type
      ([numeric_expression_compiled]).
    - Maps: the copy-on-write map keeps its invariant and acts as an ordered map
      ([cow_map_refines], [cow_map_invariant], [cow_map_reads]).
    - Versions: conflict detection is exact for every reader that is not older
      than the reclaimed history, pruning removes just what it says, and memory
      stays within its bounds ([version_conflict_exact],
      [version_read_invalidation], [version_prune_exact], [version_index_bounds],
      [version_write_set], [history_budget_conserved]).
    - Locks: along every interleaving no two transactions hold conflicting
      locks, waiters never form a cycle, and an admitted request overtakes no
      earlier conflicting waiter ([lock_manager_exclusion],
      [lock_manager_deadlock_free], [lock_no_overtaking], [lock_acquire_covers],
      [lock_deadlock_exact], [lock_conflict_sound], [lock_grant_budget]); the
      wait-for graph refuses exactly the edges that close a cycle
      ([wait_for_graph_exact]).

    ** Modelling choices

    A w-bit integer is a [Z] with its width written out; the host is 64-bit.
    Bytes are a list of [Z]; a string is its UTF-8 bytes.  [Result] carries
    [HawDBError] with the format string of a message and what is formatted into
    it.  A [BTreeMap] is its entries in key order.  A panic of an arithmetic or
    slicing operation is [None] or an error constructor of its own, so that no
    theorem hides one.  Doubles are the Standard Library's IEEE 754 binary64
    ([Float64]).  Operations under a checkpoint work context take the answers of
    the context (scheduler, cancellation, memory) as an argument, one per
    question ([work], [Answers]); what they return on refusal is the message of
    an answer.

    Loops that are not structural take fuel.  It is the number of bytes left for
    the readers of the log, the number of transactions for the deadlock search,
    the number of rows for the cascade, a length for the loops of the codecs and
    log2(length + 1) + 1 for the recursion of the text decoder; each has a lemma that more fuel changes
    nothing or that it is never used up.

    Code outside the repository is a class parameter with the laws its
    documentation states: the digest crates ([Integrity]), chrono ([Chrono],
    [ChronoFields] and their law classes), uuid ([UuidText]), file reading and
    seeking ([WalFrame]), the memory layout of values and rows ([CowMap],
    [RowLayout]), the range of timestamps ([TimestampRange]).  Every law class has
    an instance, which the witnesses use.  [partition_point] and the operations of [BTreeMap] are the contracts of the standard library.

    ** Not modelled

    - Threads and condition variables of the group-commit coordinator, time: a
      wait of the lock manager may end by a wake-up or by expiry at any point
      ([Wake], [expired]).  A mutex poisoned by a panic is not entered.
    - The savepoint stack of a transaction is ghost state of [LockManager]'s
      configurations.
    - Memory admission and cancellation inside the decoders of checkpoints, which
      share the grammar of the ordinary ones; the variants of key ranges,
      predicates and index maintenance under a work context, which build the same
      values in admitted memory.  The pages left by an append under a work
      context that is refused half way ([push_sorted_with_work]).  Allocation
      leases and capacity caches of the copy-on-write pages; closures that panic
      inside [retain].  Which history pages are shared with other snapshots, and
      the budget at the start of an operation, are inputs ([history_env]): any
      sharing, and any budget that includes the leases of the index.  Two
      operations that reserve on snapshots of one index at the same time are not
      interleaved.
    - Updates, upserts and overflow values of relational transactions, and
      materialized views beyond the refusal of deletions from them; manifests, checkpoints and backups of the storage engine, the
      query layer, search, analytics and the host bindings: file I/O, planning and
      third-party indexes around the formats above. *)
From stdpp Require Export base tactics list numbers strings gmap.
From Stdlib Require Export ZArith Lia.
#[global] Open Scope Z_scope.

(** ** Errors and results *)

(** [HawDBError] (crates/core/src/error.rs): the variants the modelled code
    raises.  A formatted message is kept as its format string and the list of
    the integers the code formats into it.  [Panic] is no variant of it: it stands
    for a panic that unwinds through code that returns this error. *)
Inductive HawDBError :=
  | Storage (message : string) (args : list Z)
  | StorageIntegrity (message : string)
  | Execution (message : string) (args : list Z)
  | TransactionDeadlock (transaction_id : Z) (wait_cycle : list Z)
  | Io (code : Z)
  | Panic (message : string).

Inductive result (A E : Type) :=
  | Ok (a : A)
  | Err (e : E).
Arguments Ok {A E} a.
Arguments Err {A E} e.

Abbreviation Result A := (result A HawDBError).

Definition result_bind {A B E} (m : result A E) (k : A → result B E) : result B E :=
  match m with Ok a => k a | Err e => Err e end.

Definition map_err {A E F} (f : E → F) (m : result A E) : result A F :=
  match m with Ok a => Ok a | Err e => Err (f e) end.

Definition ok_or {A E} (o : option A) (e : E) : result A E :=
  match o with Some a => Ok a | None => Err e end.

Definition is_ok {A E} (m : result A E) : bool :=
  match m with Ok _ => true | Err _ => false end.

Declare Scope hawdb_scope.
Delimit Scope hawdb_scope with hawdb.
Notation "'let?' p := m 'in' k" := (result_bind m (λ p, k))
  (at level 10, p pattern, m at level 100, k at level 200) : hawdb_scope.
#[global] Open Scope hawdb_scope.

Lemma result_bind_ok {A B E} (m : result A E) (k : A → result B E) b :
  result_bind m k = Ok b ↔ ∃ a, m = Ok a ∧ k a = Ok b.
Proof. destruct m; naive_solver. Qed.

(** ** Machine integers *)

Definition u8_max : Z := 2 ^ 8 - 1.
Definition u16_max : Z := 2 ^ 16 - 1.
Definition u32_max : Z := 2 ^ 32 - 1.
Definition u64_max : Z := 2 ^ 64 - 1.
Definition i64_min : Z := - 2 ^ 63.
Definition i64_max : Z := 2 ^ 63 - 1.
(** The target of the model is a 64-bit host. *)
Definition usize_max : Z := u64_max.

Definition is_byte (z : Z) : Prop := 0 ≤ z < 256.
Definition is_u64 (z : Z) : Prop := 0 ≤ z < 2 ^ 64.
Definition is_u32 (z : Z) : Prop := 0 ≤ z < 2 ^ 32.
Definition is_i64 (z : Z) : Prop := - 2 ^ 63 ≤ z < 2 ^ 63.

(** [saturating_add], [saturating_sub], [checked_add], [checked_sub] of a
    w-bit unsigned integer whose largest value is [m]. *)
Definition saturating_add (m a b : Z) : Z := Z.min m (a + b).
Definition saturating_sub (a b : Z) : Z := Z.max 0 (a - b).
Definition saturating_mul (m a b : Z) : Z := Z.min m (a * b).
Definition checked_add (m a b : Z) : option Z := if a + b <=? m then Some (a + b) else None.
Definition checked_sub (a b : Z) : option Z := if b <=? a then Some (a - b) else None.

(** Reading a 64-bit pattern as a signed integer, and back. *)
Definition as_i64 (z : Z) : Z := let w := z mod 2 ^ 64 in if w <? 2 ^ 63 then w else w - 2 ^ 64.
Definition as_u64 (z : Z) : Z := z mod 2 ^ 64.

(** ** Byte sequences with [Z] indices *)

Abbreviation bytes := (list Z).

Definition zlen {A} (l : list A) : Z := Z.of_nat (length l).
Definition zget {A} (l : list A) (i : Z) : option A :=
  if i <? 0 then None else l !! Z.to_nat i.
Definition zslice {A} (l : list A) (a b : Z) : list A :=
  take (Z.to_nat (b - a)) (drop (Z.to_nat a) l).
Definition zeros (n : Z) : bytes := replicate (Z.to_nat n) 0.

Lemma zlen_nonneg {A} (l : list A) : 0 ≤ zlen l.
Proof. unfold zlen; lia. Qed.
Lemma zlen_nil {A} : zlen (@nil A) = 0.
Proof. done. Qed.
Lemma zlen_cons {A} (x : A) l : zlen (x :: l) = 1 + zlen l.
Proof. unfold zlen; simpl; lia. Qed.
Lemma zlen_app {A} (l k : list A) : zlen (l ++ k) = zlen l + zlen k.
Proof. unfold zlen. rewrite length_app. lia. Qed.
Lemma zlen_zero_inv {A} (l : list A) : zlen l = 0 → l = [].
Proof. unfold zlen. destruct l; simpl; [done|lia]. Qed.
Lemma zlen_zeros n : 0 ≤ n → zlen (zeros n) = n.
Proof. intros. unfold zlen, zeros. rewrite length_replicate. lia. Qed.
Lemma zlen_take {A} n (l : list A) : 0 ≤ n → zlen (take (Z.to_nat n) l) = Z.min n (zlen l).
Proof. intros. unfold zlen. rewrite length_take. lia. Qed.
Lemma zlen_drop {A} n (l : list A) : 0 ≤ n → zlen (drop (Z.to_nat n) l) = Z.max 0 (zlen l - n).
Proof. intros. unfold zlen. rewrite length_drop. lia. Qed.
Lemma zlen_zslice {A} (l : list A) a b :
  0 ≤ a ≤ b → b ≤ zlen l → zlen (zslice l a b) = b - a.
Proof. intros. unfold zslice, zlen in *. rewrite length_take, length_drop. lia. Qed.

Lemma zslice_app_l {A} (l k : list A) a b :
  0 ≤ a ≤ b → b ≤ zlen l → zslice (l ++ k) a b = zslice l a b.
Proof.
  intros. unfold zslice, zlen in *. rewrite drop_app_le by lia.
  apply take_app_le. rewrite length_drop. lia.
Qed.
Lemma zslice_app_r {A} (l k : list A) a b :
  zlen l ≤ a ≤ b → zslice (l ++ k) a b = zslice k (a - zlen l) (b - zlen l).
Proof.
  intros. unfold zslice, zlen in *. rewrite drop_app_ge by lia. f_equal; [lia|]. f_equal. lia.
Qed.
Lemma zslice_0 {A} (l : list A) b : zslice l 0 b = take (Z.to_nat b) l.
Proof. unfold zslice. rewrite Z.sub_0_r. done. Qed.
Lemma zslice_full {A} (l : list A) b : zlen l ≤ b → zslice l 0 b = l.
Proof. intros. rewrite zslice_0. apply take_ge. unfold zlen in *. lia. Qed.

Lemma take_drop_z {A} (l : list A) n : take (Z.to_nat n) l ++ drop (Z.to_nat n) l = l.
Proof. apply take_drop. Qed.
Lemma take_zlen_app {A} (l k : list A) n : n = zlen l → take (Z.to_nat n) (l ++ k) = l.
Proof. intros ->. unfold zlen. rewrite Nat2Z.id. apply take_app_length. Qed.
Lemma drop_zlen_app {A} (l k : list A) n : n = zlen l → drop (Z.to_nat n) (l ++ k) = k.
Proof. intros ->. unfold zlen. rewrite Nat2Z.id. apply drop_app_length. Qed.
Lemma take_app_le_z {A} (l k : list A) n :
  0 ≤ n ≤ zlen l → take (Z.to_nat n) (l ++ k) = take (Z.to_nat n) l.
Proof. intros. apply take_app_le. unfold zlen in *. lia. Qed.
Lemma drop_app_le_z {A} (l k : list A) n :
  0 ≤ n ≤ zlen l → drop (Z.to_nat n) (l ++ k) = drop (Z.to_nat n) l ++ k.
Proof. intros. apply drop_app_le. unfold zlen in *. lia. Qed.
Lemma take_ge_z {A} (l : list A) n : zlen l ≤ n → take (Z.to_nat n) l = l.
Proof. intros. apply take_ge. unfold zlen in *. lia. Qed.
Lemma drop_ge_z {A} (l : list A) n : zlen l ≤ n → drop (Z.to_nat n) l = [].
Proof. intros. apply drop_ge. unfold zlen in *. lia. Qed.

Lemma zslice_drop {A} (l : list A) a x y :
  0 ≤ a → 0 ≤ x → zslice (drop (Z.to_nat a) l) x y = zslice l (a + x) (a + y).
Proof.
  intros. unfold zslice. rewrite drop_drop. f_equal; [lia|]. f_equal. lia.
Qed.
Lemma zslice_zslice {A} (l : list A) a b x y :
  0 ≤ a → 0 ≤ x ≤ y → y ≤ b - a → zslice (zslice l a b) x y = zslice l (a + x) (a + y).
Proof.
  intros. unfold zslice. rewrite skipn_firstn_comm, take_take, drop_drop.
  f_equal; [lia|]. f_equal. lia.
Qed.
Lemma zslice_to_end {A} (l : list A) a b :
  0 ≤ a → zlen l ≤ b → zslice l a b = drop (Z.to_nat a) l.
Proof. intros. unfold zslice. apply take_ge. rewrite length_drop. unfold zlen in *. lia. Qed.

(** Slices and gets at the front of a concatenation: the shape every decoder
    proof meets. *)
Lemma zget_app_r {A} (l k : list A) i :
  zlen l ≤ i → zget (l ++ k) i = zget k (i - zlen l).
Proof.
  intros. pose proof (zlen_nonneg l). unfold zget.
  destruct (Z.ltb_spec i 0); [lia|]. destruct (Z.ltb_spec (i - zlen l) 0); [lia|].
  rewrite lookup_app_r by (unfold zlen in *; lia). f_equal. unfold zlen in *. lia.
Qed.
Lemma zget_app_mid {A} (l k : list A) x : zget (l ++ x :: k) (zlen l) = Some x.
Proof. rewrite zget_app_r by lia. rewrite Z.sub_diag. done. Qed.
Lemma zslice_app_front {A} (m k : list A) b : b = zlen m → zslice (m ++ k) 0 b = m.
Proof. intros ->. rewrite zslice_0. by apply take_zlen_app. Qed.
Lemma zslice_app_mid {A} (l m k : list A) a b :
  a = zlen l → b = zlen l + zlen m → zslice (l ++ m ++ k) a b = m.
Proof.
  intros -> ->. pose proof (zlen_nonneg m). rewrite zslice_app_r by lia.
  rewrite Z.sub_diag, zslice_0. apply take_zlen_app. lia.
Qed.

Lemma filter_none {A} (P : A → Prop) `{∀ x, Decision (P x)} (l : list A) :
  (∀ x, x ∈ l → ¬ P x) → filter P l = [].
Proof.
  induction l as [|x l IH]; intros Hl; [done|].
  rewrite filter_cons_False; [apply IH|apply Hl]; set_solver.
Qed.

(** ** Sums *)

Fixpoint zsum (l : list Z) : Z := match l with [] => 0 | z :: l => z + zsum l end.
Lemma zsum_app l k : zsum (l ++ k) = zsum l + zsum k.
Proof. induction l; cbn; lia. Qed.
Lemma zsum_nonneg l : Forall (λ z, 0 ≤ z) l → 0 ≤ zsum l.
Proof. induction 1; cbn; lia. Qed.

(** ** Little-endian encodings *)

(** [to_le_bytes] of an [n]-byte integer. *)
Fixpoint le_bytes (n : nat) (z : Z) : bytes :=
  match n with
  | O => []
  | S n => z mod 256 :: le_bytes n (z / 256)
  end.

(** [from_le_bytes]. *)
Fixpoint le_val (bs : bytes) : Z :=
  match bs with
  | [] => 0
  | b :: bs => b + 256 * le_val bs
  end.

Lemma length_le_bytes n z : length (le_bytes n z) = n.
Proof. revert z; induction n; intros; simpl; auto. Qed.
Lemma zlen_le_bytes n z : zlen (le_bytes n z) = Z.of_nat n.
Proof. unfold zlen. by rewrite length_le_bytes. Qed.

Lemma le_val_bytes n z : le_val (le_bytes n z) = z mod 256 ^ Z.of_nat n.
Proof.
  revert z; induction n as [|n IH]; intros z; cbn [le_bytes le_val].
  { by rewrite Z.mod_1_r. }
  rewrite IH, Nat2Z.inj_succ, Z.pow_succ_r by lia.
  rewrite Z.rem_mul_r by (try apply Z.pow_pos_nonneg; lia). lia.
Qed.

Lemma le_val_bytes_small n z : 0 ≤ z < 256 ^ Z.of_nat n → le_val (le_bytes n z) = z.
Proof. intros. rewrite le_val_bytes. by apply Z.mod_small. Qed.

Lemma is_byte_le_bytes n z : Forall is_byte (le_bytes n z).
Proof.
  revert z; induction n; intros z; simpl; constructor; auto.
  unfold is_byte. apply Z.mod_pos_bound. lia.
Qed.

Lemma is_byte_app xs ys : Forall is_byte (xs ++ ys) ↔ Forall is_byte xs ∧ Forall is_byte ys.
Proof. apply Forall_app. Qed.
Lemma is_byte_zslice bs a b : Forall is_byte bs → Forall is_byte (zslice bs a b).
Proof. intros. apply Forall_take, Forall_drop. done. Qed.
Lemma is_byte_zeros n : Forall is_byte (zeros n).
Proof. apply Forall_replicate. unfold is_byte. lia. Qed.
Lemma le_val_bound bs : Forall is_byte bs → 0 ≤ le_val bs < 256 ^ zlen bs.
Proof.
  induction 1 as [|b bs Hb _ IH]; [done|]. unfold is_byte in Hb.
  rewrite zlen_cons. cbn [le_val]. rewrite Z.pow_add_r by (try apply zlen_nonneg; lia). lia.
Qed.

Lemma le_bytes_val bs : Forall is_byte bs → le_bytes (length bs) (le_val bs) = bs.
Proof.
  induction 1 as [|b bs Hb _ IH]; [done|]. unfold is_byte in Hb.
  cbn [length le_bytes le_val].
  replace (b + 256 * le_val bs) with (b + le_val bs * 256) by lia.
  rewrite Z.mod_add, Z.div_add, (Z.mod_small b), (Z.div_small b), Z.add_0_l by lia. by rewrite IH.
Qed.

(** ** Strings

    A Rust [String] is a byte vector that is valid UTF-8; [String::from_utf8]
    is the check below (the well-formed byte sequences of the Unicode
    standard, table 3-7). *)

Definition utf8_cont (b : Z) : bool := (128 <=? b) && (b <=? 191).

Fixpoint utf8_valid (l : bytes) : bool :=
  match l with
  | [] => true
  | b0 :: t =>
      if (0 <=? b0) && (b0 <=? 127) then utf8_valid t
      else if (194 <=? b0) && (b0 <=? 223) then
        match t with
        | b1 :: t => utf8_cont b1 && utf8_valid t
        | _ => false
        end
      else if (224 <=? b0) && (b0 <=? 239) then
        match t with
        | b1 :: b2 :: t =>
            ((if b0 =? 224 then 160 else 128) <=? b1)
            && (b1 <=? (if b0 =? 237 then 159 else 191))
            && utf8_cont b2 && utf8_valid t
        | _ => false
        end
      else if (240 <=? b0) && (b0 <=? 244) then
        match t with
        | b1 :: b2 :: b3 :: t =>
            ((if b0 =? 240 then 144 else 128) <=? b1)
            && (b1 <=? (if b0 =? 244 then 143 else 191))
            && utf8_cont b2 && utf8_cont b3 && utf8_valid t
        | _ => false
        end
      else false
  end.

(** ** Automation *)

Create HintDb hawdb.
Create Rewrite HintDb zlen.
#[export] Hint Resolve zlen_nonneg is_byte_le_bytes is_byte_zslice is_byte_zeros : hawdb.
#[export] Hint Rewrite @zlen_cons @zlen_app @zlen_nil zlen_le_bytes : zlen.

(** Normalise lengths and finish with linear arithmetic. *)
Ltac zlen_lia :=
  autorewrite with zlen in *;
  repeat match goal with
  | |- context [zlen ?l] =>
      lazymatch goal with H : 0 ≤ zlen l |- _ => fail | _ => pose proof (zlen_nonneg l) end
  | _ : context [zlen ?l] |- _ =>
      lazymatch goal with H : 0 ≤ zlen l |- _ => fail | _ => pose proof (zlen_nonneg l) end
  end;
  lia.

(** Turn the boolean comparison an [if] branches on into the proposition it decides. *)
Ltac case_bool :=
  match goal with
  | |- context [?a =? ?b] => destruct (Z.eqb_spec a b)
  | |- context [?a <=? ?b] => destruct (Z.leb_spec a b)
  | |- context [?a <? ?b] => destruct (Z.ltb_spec a b)
  | H : context [?a =? ?b] |- _ => destruct (Z.eqb_spec a b)
  | H : context [?a <=? ?b] |- _ => destruct (Z.leb_spec a b)
  | H : context [?a <? ?b] |- _ => destruct (Z.ltb_spec a b)
  end.

(** Split the scrutinee of a [match] in the goal or a hypothesis. *)
Ltac case_any :=
  match goal with
  | H : context [match ?x with _ => _ end] |- _ => destruct x eqn:?
  | |- context [match ?x with _ => _ end] => destruct x eqn:?
  end.

(** ** Bit operations as arithmetic *)

Lemma lor_shiftl_add v l s : 0 ≤ s → 0 ≤ v < 2 ^ s → Z.lor v (Z.shiftl l s) = v + l * 2 ^ s.
Proof.
  intros Hs Hv. rewrite <- Z.shiftl_mul_pow2 by done. symmetry. apply Z.add_nocarry_lor.
  apply Z.bits_inj'. intros n Hn. rewrite Z.land_spec, Z.bits_0.
  destruct (Z.ltb_spec n s).
  - rewrite Z.shiftl_spec_low by done. apply andb_false_r.
  - rewrite (proj1 (Z.bounded_iff_bits_nonneg s v Hs ltac:(lia)) ltac:(lia) n) by done. done.
Qed.
Lemma land_mask z n : 0 ≤ n → Z.land z (2 ^ n - 1) = z mod 2 ^ n.
Proof. intros. rewrite <- Z.land_ones by done. f_equal. rewrite Z.ones_equiv. lia. Qed.
Lemma land_7f z : Z.land z 0x7f = z mod 128.
Proof. exact (land_mask z 7 ltac:(done)). Qed.
Lemma land_7 z : Z.land z 0x7 = z mod 8.
Proof. exact (land_mask z 3 ltac:(done)). Qed.
Lemma land_1 z : Z.land z 1 = z mod 2.
Proof. exact (land_mask z 1 ltac:(done)). Qed.
Lemma shiftr_div z n : 0 ≤ n → Z.shiftr z n = z / 2 ^ n.
Proof. apply Z.shiftr_div_pow2. Qed.
(** A boolean fact about every byte holds once evaluation has checked all 256. *)
Lemma byte_forall (P : Z → bool) :
  forallb P (Z.of_nat <$> seq 0 256) = true → ∀ z, is_byte z → P z = true.
Proof.
  intros H z Hz. rewrite forallb_forall in H. apply H. apply list_elem_of_In, list_elem_of_fmap.
  exists (Z.to_nat z). unfold is_byte in Hz. split; [lia|]. apply elem_of_seq. lia.
Qed.

(** The top bit of a byte. *)
Lemma land_80 z : is_byte z → (Z.land z 0x80 =? 0) = (z <? 128).
Proof.
  intros Hz. apply eqb_prop.
  apply (byte_forall (λ z, eqb (Z.land z 0x80 =? 0) (z <? 128))); [vm_compute; done|done].
Qed.
