(* ===== verification/Wire.v ===== *)
(** Field-tagged varint wire primitives: crates/storage/src/wire.rs.

    An encoder that appends to [out: &mut Vec<u8>] is a function to the bytes
    it appends; a decoder that advances [pos: &mut usize] takes the position
    and returns the next one beside its result (an error abandons the
    position, as every caller does with [?]). *)
From S2P Require Import Prelude.

Definition WIRE_TYPE_VARINT : Z := 0.
Definition WIRE_TYPE_FIXED64 : Z := 1.
Definition WIRE_TYPE_LEN : Z := 2.
Definition MAX_VARINT_BYTES : nat := 10.

(** ** Encoders *)

(** The loop of [encode_varint_u64]; a [u64] needs at most ten rounds
    of seven bits, which [decode_encode_varint] shows to be enough. *)
Fixpoint encode_varint_loop (fuel : nat) (value : Z) : bytes :=
  match fuel with
  | O => []
  | S fuel =>
      let byte := Z.land value 0x7f in
      let value := Z.shiftr value 7 in
      if value =? 0 then [byte] else Z.lor byte 0x80 :: encode_varint_loop fuel value
  end.
Definition encode_varint_u64 (value : Z) : bytes := encode_varint_loop MAX_VARINT_BYTES value.

Definition zigzag_encode_i64 (value : Z) : Z :=
  as_u64 (Z.lxor (as_i64 (Z.shiftl value 1)) (Z.shiftr value 63)).
Definition zigzag_decode_i64 (value : Z) : Z :=
  Z.lxor (as_i64 (Z.shiftr value 1)) (- Z.land value 1).

Definition encode_tag (field_id wire_type : Z) : bytes :=
  encode_varint_u64 (Z.lor (Z.shiftl field_id 3) wire_type).
Definition encode_varint_field (field_id value : Z) : bytes :=
  encode_tag field_id WIRE_TYPE_VARINT ++ encode_varint_u64 value.
Definition encode_fixed64_field (field_id value : Z) : bytes :=
  encode_tag field_id WIRE_TYPE_FIXED64 ++ le_bytes 8 value.
Definition encode_len_field (field_id : Z) (body : bytes) : bytes :=
  encode_tag field_id WIRE_TYPE_LEN ++ encode_varint_u64 (zlen body) ++ body.
Definition encode_string_field (field_id : Z) (value : bytes) : bytes :=
  encode_len_field field_id value.

(** ** Decoders *)

Fixpoint decode_varint_loop (fuel : nat) (bs : bytes) (pos value shift : Z) : Result (Z * Z) :=
  match fuel with
  | O => Err (Storage "wire varint exceeds ten bytes" [])
  | S fuel =>
      let? byte := ok_or (zget bs pos) (Storage "wire varint is truncated" []) in
      let pos := pos + 1 in
      let low := Z.land byte 0x7f in
      if (shift =? 63) && (1 <? low) then Err (Storage "wire varint overflows u64" [])
      else
        let value := Z.lor value (as_u64 (Z.shiftl low shift)) in
        if Z.land byte 0x80 =? 0 then Ok (value, pos)
        else decode_varint_loop fuel bs pos value (shift + 7)
  end.
Definition decode_varint_u64 (bs : bytes) (pos : Z) : Result (Z * Z) :=
  decode_varint_loop MAX_VARINT_BYTES bs pos 0 0.

Definition decode_tag (bs : bytes) (pos : Z) : Result (Z * Z * Z) :=
  let? (tag, pos) := decode_varint_u64 bs pos in
  let wire_type := Z.land tag 0x7 in
  let field_id := Z.shiftr tag 3 in
  if field_id <=? u32_max then Ok (field_id, wire_type, pos)
  else Err (Storage "wire field id overflows u32" []).

(** [pos.checked_add(len).filter(|end| *end <= bytes.len())]. *)
Definition checked_end (bs : bytes) (pos len : Z) : option Z :=
  match checked_add usize_max pos len with
  | Some end_ => if end_ <=? zlen bs then Some end_ else None
  | None => None
  end.

Definition decode_fixed64 (bs : bytes) (pos : Z) : Result (Z * Z) :=
  let? end_ := ok_or (checked_end bs pos 8) (Storage "wire fixed64 body is truncated" []) in
  Ok (le_val (zslice bs pos end_), end_).

Definition decode_len_body (bs : bytes) (pos : Z) : Result (bytes * Z) :=
  let? (len, pos) := decode_varint_u64 bs pos in
  let? end_ := ok_or (checked_end bs pos len)
                 (Storage "wire length-delimited body is truncated" []) in
  Ok (zslice bs pos end_, end_).

Definition decode_string_body (bs : bytes) (pos : Z) : Result (bytes * Z) :=
  let? (body, pos) := decode_len_body bs pos in
  if utf8_valid body then Ok (body, pos)
  else Err (Storage "wire string is not valid UTF-8: {error}" []).

Definition skip_field (bs : bytes) (pos wire_type : Z) : Result Z :=
  if wire_type =? WIRE_TYPE_VARINT then let? (_, pos) := decode_varint_u64 bs pos in Ok pos
  else if wire_type =? WIRE_TYPE_FIXED64 then let? (_, pos) := decode_fixed64 bs pos in Ok pos
  else if wire_type =? WIRE_TYPE_LEN then let? (_, pos) := decode_len_body bs pos in Ok pos
  else Err (Storage "wire type {wire_type} is not skippable" [wire_type]).

(** ** Varints *)

Lemma varint_step v : 0 ≤ v →
  Z.land v 0x7f = v mod 128 ∧ Z.shiftr v 7 = v / 128 ∧ Z.lor (v mod 128) 0x80 = v mod 128 + 128.
Proof.
  intros Hv. split_and!.
  - apply land_7f.
  - by rewrite shiftr_div.
  - change 0x80 with (Z.shiftl 1 7). rewrite lor_shiftl_add; [done|done|].
    apply Z.mod_pos_bound. lia.
Qed.

Lemma encode_varint_loop_unfold fuel v : 0 ≤ v →
  encode_varint_loop (S fuel) v =
  if v <? 128 then [v] else (v mod 128 + 128) :: encode_varint_loop fuel (v / 128).
Proof.
  intros Hv. cbn [encode_varint_loop]. destruct (varint_step v Hv) as (-> & -> & ->).
  destruct (Z.ltb_spec v 128).
  - by rewrite Z.div_small, Z.eqb_refl, Z.mod_small by lia.
  - rewrite (proj2 (Z.eqb_neq _ 0)); [done|]. pose proof (Z.div_str_pos v 128). lia.
Qed.

Lemma encode_varint_bytes fuel v : 0 ≤ v → Forall is_byte (encode_varint_loop fuel v).
Proof.
  revert v; induction fuel as [|fuel IH]; intros v Hv; [constructor|].
  rewrite encode_varint_loop_unfold by done. unfold is_byte at 1.
  pose proof (Z.mod_pos_bound v 128). case_bool; repeat constructor; try lia.
  apply IH. by apply Z.div_pos.
Qed.

(** One byte of the decoding loop. *)
Lemma decode_varint_step fuel bs pos value shift b :
  zget bs pos = Some b → is_byte b → 0 ≤ shift → 0 ≤ value < 2 ^ shift →
  (b mod 128) * 2 ^ shift < 2 ^ 64 → (shift = 63 → b mod 128 ≤ 1) →
  decode_varint_loop (S fuel) bs pos value shift =
  if b <? 128 then Ok (value + b mod 128 * 2 ^ shift, pos + 1)
  else decode_varint_loop fuel bs (pos + 1) (value + b mod 128 * 2 ^ shift) (shift + 7).
Proof.
  intros Hget Hb Hs Hv Hfit H63. cbn [decode_varint_loop]. rewrite Hget. cbn [ok_or result_bind].
  rewrite land_7f, land_80 by done.
  destruct (Z.eqb_spec shift 63) as [E|E]; cbn [andb].
  all: rewrite ?(proj2 (Z.ltb_ge 1 (b mod 128))) by auto.
  all: assert (as_u64 (Z.shiftl (b mod 128) shift) = Z.shiftl (b mod 128) shift) as ->
    by (unfold as_u64; rewrite Z.shiftl_mul_pow2 by done; apply Z.mod_small;
        pose proof (Z.mod_pos_bound b 128); pose proof (Z.pow_pos_nonneg 2 shift); nia).
  all: by rewrite lor_shiftl_add.
Qed.

Lemma decode_encode_varint_loop fuel pre rest v value shift :
  (fuel ≤ 10)%nat → shift = 7 * (10 - Z.of_nat fuel) →
  0 ≤ v < 2 ^ (64 - shift) → 0 ≤ value < 2 ^ shift →
  decode_varint_loop fuel (pre ++ encode_varint_loop fuel v ++ rest) (zlen pre) value shift =
  Ok (value + v * 2 ^ shift, zlen pre + zlen (encode_varint_loop fuel v)).
Proof.
  revert pre v value shift; induction fuel as [|fuel IH]; intros pre v value shift Hf Hs Hv Hval.
  { exfalso. subst. change (2 ^ (64 - 7 * (10 - Z.of_nat 0))) with 0 in Hv. lia. }
  assert (0 ≤ shift ≤ 63) by lia.
  assert (2 ^ (64 - shift) * 2 ^ shift = 2 ^ 64) as Hpow
    by (rewrite <- Z.pow_add_r by lia; f_equal; lia).
  pose proof (Z.pow_pos_nonneg 2 shift).
  pose proof (Z.mod_pos_bound v 128). pose proof (Z.mod_le v 128).
  rewrite encode_varint_loop_unfold by lia.
  destruct (Z.ltb_spec v 128) as [Hlt|Hge].
  - assert (v mod 128 = v) as Hmod by (apply Z.mod_small; lia).
    rewrite (decode_varint_step _ _ _ _ _ v);
      [|apply zget_app_mid|unfold is_byte; lia|lia|done|rewrite Hmod; nia
       |intros ->; change (2 ^ (64 - 63)) with 2 in Hv; lia].
    rewrite (proj2 (Z.ltb_lt v 128)), Hmod by done. done.
  - assert (shift ≠ 63) by (intros ->; change (2 ^ (64 - 63)) with 2 in Hv; lia).
    assert ((v mod 128 + 128) mod 128 = v mod 128) as Hmod.
    { rewrite <- (Z.mul_1_l 128) at 2. by rewrite Z.mod_add, Z.mod_mod by lia. }
    rewrite (decode_varint_step _ _ _ _ _ (v mod 128 + 128));
      [|apply zget_app_mid|unfold is_byte; lia|lia|done|rewrite Hmod; nia|lia].
    rewrite (proj2 (Z.ltb_ge (v mod 128 + 128) 128)), Hmod by lia.
    assert (v = 128 * (v / 128) + v mod 128) as Hdiv by (apply Z.div_mod; lia).
    assert (0 ≤ v / 128) by (apply Z.div_pos; lia).
    replace (pre ++ (v mod 128 + 128 :: encode_varint_loop fuel (v / 128)) ++ rest)
      with ((pre ++ [v mod 128 + 128]) ++ encode_varint_loop fuel (v / 128) ++ rest)
      by (by rewrite <- app_assoc).
    replace (zlen pre + 1) with (zlen (pre ++ [v mod 128 + 128])) by zlen_lia.
    assert (2 ^ (shift + 7) = 2 ^ shift * 128) as Hp7 by (rewrite Z.pow_add_r; lia).
    rewrite IH; [|lia|lia| |].
    + rewrite Hp7. f_equal. f_equal; [nia|zlen_lia].
    + split; [done|]. apply Z.div_lt_upper_bound; [lia|].
      replace (64 - shift) with (7 + (64 - (shift + 7))) in Hv by lia.
      rewrite Z.pow_add_r in Hv by lia. lia.
    + rewrite Hp7. nia.
Qed.

Lemma decode_encode_varint pre rest v :
  is_u64 v →
  decode_varint_u64 (pre ++ encode_varint_u64 v ++ rest) (zlen pre) =
  Ok (v, zlen pre + zlen (encode_varint_u64 v)).
Proof.
  intros Hv. unfold decode_varint_u64, encode_varint_u64, MAX_VARINT_BYTES.
  rewrite (decode_encode_varint_loop 10 pre rest v 0 0);
    [|lia|done|unfold is_u64 in Hv; rewrite Z.sub_0_r; done|done].
  rewrite Z.mul_1_r. done.
Qed.

Lemma zget_Some {A} (l : list A) i x : zget l i = Some x → 0 ≤ i < zlen l.
Proof.
  unfold zget, zlen. case_bool; [done|]. intros Hl%lookup_lt_Some. lia.
Qed.

Lemma zget_byte bs i b : Forall is_byte bs → zget bs i = Some b → is_byte b.
Proof.
  intros HF. unfold zget. case_bool; [done|]. intros Hl. by eapply Forall_lookup_1 in Hl.
Qed.

(** Whatever the bytes, a decoded varint is a [u64] and the position moves
    inside the buffer, by at most one byte per round. *)
Lemma decode_varint_loop_bounds fuel bs pos value shift v pos' :
  Forall is_byte bs → (fuel ≤ 10)%nat → shift = 7 * (10 - Z.of_nat fuel) →
  0 ≤ value < 2 ^ Z.min shift 64 →
  decode_varint_loop fuel bs pos value shift = Ok (v, pos') →
  is_u64 v ∧ pos < pos' ≤ pos + Z.of_nat fuel ∧ pos' ≤ zlen bs.
Proof.
  intros HF. revert pos value shift; induction fuel as [|fuel IH];
    intros pos value shift Hf Hs Hv Hdec; [done|].
  assert (0 ≤ shift ≤ 63) as Hsh by lia. rewrite Z.min_l in Hv by lia.
  destruct (zget bs pos) as [b|] eqn:Hget.
  2: { cbn [decode_varint_loop] in Hdec. by rewrite Hget in Hdec. }
  pose proof (zget_byte _ _ _ HF Hget) as Hb. pose proof (zget_Some _ _ _ Hget).
  pose proof (Z.mod_pos_bound b 128 ltac:(lia)) as Hm.
  assert (¬ (shift = 63 ∧ 1 < b mod 128)) as Hno.
  { intros [-> Hlow]. cbn [decode_varint_loop] in Hdec. rewrite Hget in Hdec.
    cbn [ok_or result_bind] in Hdec. rewrite land_7f in Hdec.
    by rewrite (proj2 (Z.ltb_lt 1 _) Hlow) in Hdec. }
  assert (shift = 63 → b mod 128 ≤ 1) as H63 by lia. clear Hno.
  pose proof (Z.pow_pos_nonneg 2 shift ltac:(lia) ltac:(lia)).
  assert ((b mod 128) * 2 ^ shift < 2 ^ 64 ∧ value + b mod 128 * 2 ^ shift < 2 ^ Z.min (shift + 7) 64)
    as [Hfit Hnext].
  { destruct (decide (shift = 63)) as [->|].
    - specialize (H63 eq_refl). change (Z.min (63 + 7) 64) with 64. lia.
    - assert (2 ^ (shift + 7) = 2 ^ shift * 128) as Hp7 by (rewrite Z.pow_add_r; lia).
      assert (2 ^ (shift + 7) ≤ 2 ^ 64) by (apply Z.pow_le_mono_r; lia).
      rewrite Z.min_l by lia. nia. }
  rewrite (decode_varint_step _ _ _ _ _ b) in Hdec by first [done | lia].
  destruct (Z.ltb_spec b 128).
  - injection Hdec as <- <-. split; [|lia]. unfold is_u64. split; [nia|].
    eapply Z.lt_le_trans; [done|]. apply Z.pow_le_mono_r; lia.
  - apply IH in Hdec; [|lia|lia|split; [nia|done]]. destruct Hdec as (? & ? & ?).
    split_and!; [done|lia..].
Qed.

(** C-bounds of the public decoder. *)
Lemma decode_varint_bounds bs pos v pos' :
  Forall is_byte bs → decode_varint_u64 bs pos = Ok (v, pos') →
  is_u64 v ∧ pos < pos' ≤ pos + 10 ∧ pos' ≤ zlen bs.
Proof.
  intros HF Hdec. eapply (decode_varint_loop_bounds 10 bs pos 0 0) in Hdec; [|done..]. done.
Qed.

Lemma encode_varint_loop_nonempty fuel v : 0 ≤ v → encode_varint_loop (S fuel) v ≠ [].
Proof. intros. rewrite encode_varint_loop_unfold by done. by case_bool. Qed.

Lemma zlen_encode_varint_loop fuel v : zlen (encode_varint_loop fuel v) ≤ Z.of_nat fuel.
Proof.
  revert v; induction fuel as [|fuel IH]; intros v; [done|].
  cbn [encode_varint_loop]. destruct (_ =? 0); [zlen_lia|].
  specialize (IH (Z.shiftr v 7)). rewrite zlen_cons. lia.
Qed.

Lemma encode_varint_zlen v : 0 ≤ v → 1 ≤ zlen (encode_varint_u64 v) ≤ 10.
Proof.
  intros Hv. unfold encode_varint_u64, MAX_VARINT_BYTES.
  pose proof (zlen_encode_varint_loop 10 v).
  pose proof (encode_varint_loop_nonempty 9 v Hv).
  destruct (encode_varint_loop 10 v); [done|zlen_lia].
Qed.

(** ** Zigzag *)

Lemma as_i64_small z : is_i64 z → as_i64 z = z.
Proof.
  unfold is_i64, as_i64. intros H. destruct (decide (0 ≤ z)).
  - rewrite Z.mod_small by lia. case_bool; lia.
  - assert (z mod 2 ^ 64 = z + 2 ^ 64) as ->.
    { rewrite <- (Z.mod_add z 1) by lia. rewrite Z.mod_small; lia. }
    case_bool; lia.
Qed.

Lemma zigzag_encode_arith v :
  is_i64 v → zigzag_encode_i64 v = if v <? 0 then - 2 * v - 1 else 2 * v.
Proof.
  unfold is_i64, zigzag_encode_i64. intros H. rewrite shiftr_div by done.
  rewrite Z.shiftl_mul_pow2 by done. change (2 ^ 1) with 2.
  destruct (Z.ltb_spec v 0) as [Hneg|Hpos].
  - assert (v / 2 ^ 63 = -1) as ->.
    { symmetry. apply (Z.div_unique _ _ _ (v + 2 ^ 63)); lia. }
    rewrite Z.lxor_m1_r. unfold Z.lnot. unfold as_u64.
    destruct (decide (- 2 ^ 62 ≤ v)).
    + rewrite as_i64_small by (unfold is_i64; lia). rewrite Z.mod_small; lia.
    + assert (as_i64 (v * 2) = v * 2 + 2 ^ 64) as ->.
      { unfold as_i64. rewrite <- (Z.mod_add (v * 2) 1) by lia.
        rewrite Z.mod_small by lia. case_bool; lia. }
      rewrite <- (Z.mod_add _ 1) by lia. rewrite Z.mod_small; lia.
  - rewrite (Z.div_small v) by lia. rewrite Z.lxor_0_r. unfold as_u64, as_i64.
    rewrite (Z.mod_small (v * 2)) by lia. case_bool; [rewrite Z.mod_small; lia|].
    rewrite <- (Z.mod_add _ 1) by lia. rewrite Z.mod_small; lia.
Qed.

Lemma zigzag_decode_arith w :
  is_u64 w → zigzag_decode_i64 w = if w mod 2 =? 0 then w / 2 else - (w / 2) - 1.
Proof.
  unfold is_u64, zigzag_decode_i64. intros H. rewrite shiftr_div, land_1 by done.
  change (2 ^ 1) with 2. pose proof (Z.mod_pos_bound w 2).
  rewrite as_i64_small
    by (unfold is_i64; pose proof (Z.div_pos w 2); pose proof (Z.div_lt_upper_bound w 2 (2 ^ 63)); lia).
  destruct (Z.eqb_spec (w mod 2) 0) as [->|].
  - apply Z.lxor_0_r.
  - assert (w mod 2 = 1) as -> by lia. change (- (1)) with (-1).
    rewrite Z.lxor_m1_r. unfold Z.lnot. lia.
Qed.

Lemma zigzag_encode_range v : is_i64 v → is_u64 (zigzag_encode_i64 v).
Proof.
  intros H. rewrite zigzag_encode_arith by done. unfold is_i64, is_u64 in *. case_bool; lia.
Qed.

Lemma zigzag_roundtrip v : is_i64 v → zigzag_decode_i64 (zigzag_encode_i64 v) = v.
Proof.
  intros H. rewrite zigzag_decode_arith by by apply zigzag_encode_range.
  rewrite zigzag_encode_arith by done. destruct (Z.ltb_spec v 0).
  - replace (-2 * v - 1) with (1 + (- v - 1) * 2) by lia.
    rewrite Z.mod_add, Z.div_add by lia. change (1 mod 2 =? 0) with false.
    change (1 / 2) with 0. cbv iota. lia.
  - replace (2 * v) with (0 + v * 2) by lia. rewrite Z.mod_add, Z.div_add by lia. done.
Qed.

Lemma zigzag_decode_range w : is_u64 w → is_i64 (zigzag_decode_i64 w).
Proof.
  intros H. rewrite zigzag_decode_arith by done. unfold is_i64, is_u64 in *.
  pose proof (Z.div_pos w 2). pose proof (Z.div_lt_upper_bound w 2 (2 ^ 63)). case_bool; lia.
Qed.

Lemma zigzag_roundtrip_unsigned w : is_u64 w → zigzag_encode_i64 (zigzag_decode_i64 w) = w.
Proof.
  intros H. rewrite zigzag_encode_arith by by apply zigzag_decode_range.
  rewrite zigzag_decode_arith by done. unfold is_u64 in H.
  pose proof (Z.div_mod w 2 ltac:(lia)). pose proof (Z.mod_pos_bound w 2 ltac:(lia)).
  pose proof (Z.div_pos w 2). destruct (Z.eqb_spec (w mod 2) 0); case_bool; lia.
Qed.

(** ** Tags and bodies *)

Lemma tag_arith f w : 0 ≤ w < 8 → Z.lor (Z.shiftl f 3) w = f * 8 + w.
Proof.
  intros Hw. rewrite Z.lor_comm, lor_shiftl_add by done. change (2 ^ 3) with 8. lia.
Qed.

Lemma decode_encode_tag pre rest f w :
  is_u32 f → 0 ≤ w < 8 →
  decode_tag (pre ++ encode_tag f w ++ rest) (zlen pre) =
  Ok (f, w, zlen pre + zlen (encode_tag f w)).
Proof.
  unfold is_u32. intros Hf Hw. unfold decode_tag, encode_tag. rewrite tag_arith by done.
  rewrite decode_encode_varint by (unfold is_u64; lia). cbn [result_bind].
  rewrite land_7, shiftr_div by done. change (2 ^ 3) with 8. rewrite Z.add_comm, Z.mod_add, Z.div_add, Z.mod_small, Z.div_small by lia.
  rewrite (proj2 (Z.leb_le _ u32_max)) by (unfold u32_max; lia). done.
Qed.

Lemma checked_end_ok bs pos len :
  zlen bs ≤ usize_max → pos + len ≤ zlen bs → checked_end bs pos len = Some (pos + len).
Proof.
  intros. unfold checked_end, checked_add.
  by rewrite (proj2 (Z.leb_le _ usize_max)), (proj2 (Z.leb_le _ (zlen bs))) by lia.
Qed.

Lemma checked_end_Some bs pos len e :
  checked_end bs pos len = Some e → e = pos + len ∧ e ≤ zlen bs.
Proof. unfold checked_end, checked_add. repeat case_bool; naive_solver. Qed.

Lemma decode_encode_fixed64 pre rest v :
  is_u64 v → zlen (pre ++ le_bytes 8 v ++ rest) ≤ usize_max →
  decode_fixed64 (pre ++ le_bytes 8 v ++ rest) (zlen pre) = Ok (v, zlen pre + 8).
Proof.
  intros Hv Hlen. unfold decode_fixed64. rewrite checked_end_ok by (try done; zlen_lia).
  cbn [ok_or result_bind]. rewrite zslice_app_mid by (try done; zlen_lia).
  rewrite le_val_bytes_small by exact Hv. done.
Qed.

Lemma decode_encode_len_body pre rest body :
  zlen (pre ++ (encode_varint_u64 (zlen body) ++ body) ++ rest) ≤ usize_max →
  decode_len_body (pre ++ (encode_varint_u64 (zlen body) ++ body) ++ rest) (zlen pre) =
  Ok (body, zlen pre + zlen (encode_varint_u64 (zlen body)) + zlen body).
Proof.
  intros Hlen. unfold decode_len_body. pose proof (zlen_nonneg body).
  assert (is_u64 (zlen body)) by (unfold is_u64, usize_max, u64_max in *; zlen_lia).
  rewrite <- app_assoc. rewrite decode_encode_varint by done. cbn [result_bind].
  rewrite checked_end_ok by (rewrite <- app_assoc in Hlen; try done; zlen_lia).
  cbn [ok_or result_bind]. rewrite (app_assoc pre).
  rewrite zslice_app_mid by zlen_lia. done.
Qed.

(** ** Whole fields: what the tag and the body of one encoded field decode to *)

(** An encoded field is its tag followed by a body in the shape its wire type
    announces, so a reader that does not know the field id can skip it. *)
Inductive field_body (w : Z) : bytes → Prop :=
  | body_varint v : w = WIRE_TYPE_VARINT → is_u64 v → field_body w (encode_varint_u64 v)
  | body_fixed64 v : w = WIRE_TYPE_FIXED64 → is_u64 v → field_body w (le_bytes 8 v)
  | body_len body :
      w = WIRE_TYPE_LEN → field_body w (encode_varint_u64 (zlen body) ++ body).

Lemma skip_field_body pre rest w body :
  field_body w body → zlen (pre ++ body ++ rest) ≤ usize_max →
  skip_field (pre ++ body ++ rest) (zlen pre) w = Ok (zlen pre + zlen body).
Proof.
  intros [v -> Hv|v -> Hv|b ->] Hlen; unfold skip_field; cbn [Z.eqb Pos.eqb].
  - by rewrite decode_encode_varint.
  - rewrite decode_encode_fixed64 by done. by rewrite zlen_le_bytes.
  - change (WIRE_TYPE_LEN =? WIRE_TYPE_VARINT) with false.
    change (WIRE_TYPE_LEN =? WIRE_TYPE_FIXED64) with false.
    change (WIRE_TYPE_LEN =? WIRE_TYPE_LEN) with true. cbv iota.
    rewrite decode_encode_len_body by done. cbn [result_bind]. f_equal. zlen_lia.
Qed.

(** ** Theorems *)

(** Varints round trip and stay in bounds.  A varint written anywhere in a
    buffer reads back with the position just past it and takes one to ten
    bytes; and whatever the bytes are, a varint that decodes is a [u64] and
    moves the position forward inside the buffer. *)
Theorem wire_varint_roundtrip :
  (∀ pre rest v, is_u64 v →
     decode_varint_u64 (pre ++ encode_varint_u64 v ++ rest) (zlen pre) =
       Ok (v, zlen pre + zlen (encode_varint_u64 v)) ∧
     1 ≤ zlen (encode_varint_u64 v) ≤ 10) ∧
  (∀ bs pos v pos', Forall is_byte bs → decode_varint_u64 bs pos = Ok (v, pos') →
     is_u64 v ∧ pos < pos' ≤ pos + 10 ∧ pos' ≤ zlen bs).
Proof.
  split; [|apply decode_varint_bounds]. intros pre rest v Hv. split; [by apply decode_encode_varint|].
  apply encode_varint_zlen. apply Hv.
Qed.

(** Zigzag is a bijection between [i64] and [u64], in both directions. *)
Theorem wire_zigzag_bijection :
  (∀ v, is_i64 v → is_u64 (zigzag_encode_i64 v) ∧ zigzag_decode_i64 (zigzag_encode_i64 v) = v) ∧
  (∀ w, is_u64 w → is_i64 (zigzag_decode_i64 w) ∧ zigzag_encode_i64 (zigzag_decode_i64 w) = w).
Proof.
  split; intros; split; auto using zigzag_encode_range, zigzag_roundtrip, zigzag_decode_range,
    zigzag_roundtrip_unsigned.
Qed.

(** Unknown fields are skipped.  The tag of an encoded field reads back its
    field id and wire type, and skipping the body by its wire type lands on the
    first byte after the field. *)
Theorem wire_unknown_field_skip pre rest f w body :
  is_u32 f → field_body w body →
  let field := encode_tag f w ++ body in
  let buffer := pre ++ field ++ rest in
  zlen buffer ≤ usize_max →
  ∃ pos, decode_tag buffer (zlen pre) = Ok (f, w, pos) ∧
         skip_field buffer pos w = Ok (zlen pre + zlen field).
Proof.
  intros Hf Hbody field buffer Hlen. subst field buffer.
  assert (0 ≤ w < 8) as Hw by (by destruct Hbody as [? -> _|? -> _|? ->]).
  exists (zlen pre + zlen (encode_tag f w)). rewrite <- app_assoc in *. split.
  - by apply decode_encode_tag.
  - rewrite <- zlen_app, app_assoc. rewrite skip_field_body; [f_equal; zlen_lia|done|].
    by rewrite <- app_assoc.
Qed.

Lemma wire_unknown_field_skip_witness :
  let buffer := [7; 7] ++ (encode_tag 300 WIRE_TYPE_LEN ++ encode_varint_u64 (zlen [1; 2]) ++ [1; 2]) ++ [9] in
  ∃ pos, decode_tag buffer 2 = Ok (300, WIRE_TYPE_LEN, pos) ∧
         skip_field buffer pos WIRE_TYPE_LEN = Ok 7.
Proof.
  apply (wire_unknown_field_skip [7; 7] [9] 300 WIRE_TYPE_LEN (encode_varint_u64 (zlen [1; 2]) ++ [1; 2]));
    [done|by apply body_len|by vm_compute].
Defined.

(** ** Reading at a position

    [suffix_at bs pos rest]: what is left of the buffer at [pos] is [rest]. *)

Definition suffix_at (bs : bytes) (pos : Z) (rest : bytes) : Prop :=
  ∃ pre, bs = pre ++ rest ∧ pos = zlen pre ∧ zlen bs ≤ usize_max.

Lemma suffix_at_start bs : zlen bs ≤ usize_max → suffix_at bs 0 bs.
Proof. intros. by exists []. Qed.
Lemma suffix_at_done bs pos : suffix_at bs pos [] → (zlen bs <=? pos) = true.
Proof. intros (pre & -> & -> & _). apply Z.leb_le. rewrite app_nil_r. lia. Qed.
Lemma suffix_at_more bs pos rest : suffix_at bs pos rest → rest ≠ [] → (zlen bs <=? pos) = false.
Proof.
  intros (pre & -> & -> & _) Hne. apply Z.leb_gt. rewrite zlen_app.
  destruct rest; [done|]. rewrite zlen_cons. zlen_lia.
Qed.
Lemma suffix_at_app bs pos l rest : suffix_at bs pos (l ++ rest) → suffix_at bs (pos + zlen l) rest.
Proof. intros (pre & -> & -> & H). exists (pre ++ l). by rewrite <- app_assoc, zlen_app. Qed.

Lemma varint_at bs pos v rest :
  is_u64 v → suffix_at bs pos (encode_varint_u64 v ++ rest) →
  ∃ pos', decode_varint_u64 bs pos = Ok (v, pos') ∧ suffix_at bs pos' rest.
Proof.
  intros Hv Hs. exists (pos + zlen (encode_varint_u64 v)). split; [|by apply suffix_at_app].
  destruct Hs as (pre & -> & -> & _). by apply decode_encode_varint.
Qed.
Lemma tag_at bs pos f w rest :
  is_u32 f → 0 ≤ w < 8 → suffix_at bs pos (encode_tag f w ++ rest) →
  ∃ pos', decode_tag bs pos = Ok (f, w, pos') ∧ suffix_at bs pos' rest.
Proof.
  intros Hf Hw Hs. exists (pos + zlen (encode_tag f w)). split; [|by apply suffix_at_app].
  destruct Hs as (pre & -> & -> & _). by apply decode_encode_tag.
Qed.
Lemma fixed64_at bs pos v rest :
  is_u64 v → suffix_at bs pos (le_bytes 8 v ++ rest) →
  ∃ pos', decode_fixed64 bs pos = Ok (v, pos') ∧ suffix_at bs pos' rest.
Proof.
  intros Hv Hs. exists (pos + zlen (le_bytes 8 v)). split; [|by apply suffix_at_app].
  destruct Hs as (pre & -> & -> & Hl). by apply decode_encode_fixed64.
Qed.
Lemma len_body_at bs pos body rest :
  suffix_at bs pos (encode_varint_u64 (zlen body) ++ body ++ rest) →
  ∃ pos', decode_len_body bs pos = Ok (body, pos') ∧ suffix_at bs pos' rest.
Proof.
  rewrite app_assoc. intros Hs. exists (pos + zlen (encode_varint_u64 (zlen body) ++ body)).
  split; [|by apply suffix_at_app]. destruct Hs as (pre & -> & -> & Hl).
  rewrite decode_encode_len_body by done. by rewrite zlen_app, Z.add_assoc.
Qed.
Lemma string_body_at bs pos body rest :
  utf8_valid body = true → suffix_at bs pos (encode_varint_u64 (zlen body) ++ body ++ rest) →
  ∃ pos', decode_string_body bs pos = Ok (body, pos') ∧ suffix_at bs pos' rest.
Proof.
  intros Hu (pos' & E & Hs)%len_body_at. exists pos'. unfold decode_string_body. rewrite E. cbn. by rewrite Hu.
Qed.

Lemma encode_tag_nonempty f w : 0 ≤ f → 0 ≤ w < 8 → encode_tag f w ≠ [].
Proof. intros Hf Hw. unfold encode_tag. rewrite tag_arith by done. apply encode_varint_loop_nonempty. lia. Qed.
Lemma encode_tag_zlen f w : 0 ≤ f → 0 ≤ w < 8 → 1 ≤ zlen (encode_tag f w).
Proof.
  intros Hf Hw. pose proof (encode_tag_nonempty f w Hf Hw). destruct (encode_tag f w); [done|].
  rewrite zlen_cons. zlen_lia.
Qed.
