(* ===== verification/Integrity.v ===== *)
(** Integrity digests: crates/integrity/src/lib.rs.

    The CRC-32C and SHA-256 kernels are third-party crates; they enter as two
    classes, [Crc32cCrate] and [Sha256Crate], whose laws are the documented
    streaming behaviour of those crates.  [Castagnoli] is an executable
    CRC-32C that satisfies the first interface; [BufferSha] satisfies the
    second one. *)
From S2P Require Import Prelude.

(** ** The interfaces of the two crates *)

(** [crc32c::crc32c_append(crc, data)] extends the checksum [crc] of some data
    by [data]; [crc32c::crc32c(data)] starts from 0. *)
Class Crc32cCrate := { crc32c_append : Z → bytes → Z }.
Class Crc32cLaws (C : Crc32cCrate) := {
  crc32c_append_u32 c bs : is_u32 (crc32c_append c bs);
  crc32c_append_app c xs ys :
    crc32c_append (crc32c_append c xs) ys = crc32c_append c (xs ++ ys);
  crc32c_append_nil c : is_u32 c → crc32c_append c [] = c;
}.

(** [sha2::Sha256]: an incremental hasher with a 32-byte output. *)
Class Sha256Crate := {
  Sha256 : Type;
  sha256_new : Sha256;
  sha256_update : Sha256 → bytes → Sha256;
  sha256_finalize : Sha256 → bytes;
}.
Class Sha256Laws (S : Sha256Crate) := {
  sha256_update_app s xs ys :
    sha256_update (sha256_update s xs) ys = sha256_update s (xs ++ ys);
  sha256_update_nil s : sha256_update s [] = s;
  sha256_finalize_length s : length (sha256_finalize s) = 32%nat;
  sha256_finalize_bytes s : Forall is_byte (sha256_finalize s);
}.

(** ** Digests and their hexadecimal form *)

Definition SHA256_BYTES : Z := 32.
Definition SHA256_HEX_BYTES : Z := SHA256_BYTES * 2.

(** [Sha256Digest([u8; 32])]. *)
Record Sha256Digest := { digest_bytes : bytes }.
Definition digest_wf (d : Sha256Digest) : Prop :=
  length (digest_bytes d) = 32%nat ∧ Forall is_byte (digest_bytes d).

Inductive ParseSha256DigestError :=
  | InvalidLength (actual : Z)
  | InvalidHex (offset : Z).

(** One lower-case hexadecimal digit of [{byte:02x}]. *)
Definition hex_digit (n : Z) : Z := if n <? 10 then 48 + n else 87 + n.

(** [write!(formatter, "{byte:02x}")]. *)
Definition hex_byte (b : Z) : bytes := [hex_digit (b / 16); hex_digit (b mod 16)].

(** [impl Display for Sha256Digest]. *)
Definition digest_to_string (d : Sha256Digest) : bytes :=
  flat_map hex_byte (digest_bytes d).

Definition parse_hex_nibble (byte offset : Z) : result Z ParseSha256DigestError :=
  if (48 <=? byte) && (byte <=? 57) then Ok (byte - 48)
  else if (97 <=? byte) && (byte <=? 102) then Ok (byte - 97 + 10)
  else if (65 <=? byte) && (byte <=? 70) then Ok (byte - 65 + 10)
  else Err (InvalidHex offset).

(** The loop of [from_str] over the pairs that start at [offset]. *)
Fixpoint parse_hex_pairs (value : bytes) (offset : Z) : result bytes ParseSha256DigestError :=
  match value with
  | h :: l :: rest =>
      let? high := parse_hex_nibble h offset in
      let? low := parse_hex_nibble l (offset + 1) in
      let? bs := parse_hex_pairs rest (offset + 2) in
      Ok (Z.lor (Z.shiftl high 4) low :: bs)
  | _ => Ok []
  end.

(** [impl FromStr for Sha256Digest]. *)
Definition digest_from_str (value : bytes) : result Sha256Digest ParseSha256DigestError :=
  if negb (zlen value =? SHA256_HEX_BYTES) then Err (InvalidLength (zlen value))
  else let? bs := parse_hex_pairs value 0 in Ok {| digest_bytes := bs |}.

(** ** Hashers *)

Section Hashers.
Context `{Crc : Crc32cCrate}.

(** [Crc32cHasher(u32)]. *)
Definition Crc32cHasher_new : Z := 0.
Definition Crc32cHasher_update (h : Z) (bs : bytes) : Z := crc32c_append h bs.
Definition crc32c (bs : bytes) : Z := crc32c_append 0 bs.
Definition checksum_u64 (bs : bytes) : Z := crc32c bs.

Context `{Sha : Sha256Crate}.

Record IntegrityDigest := { id_crc32c : Z; id_sha256 : Sha256Digest }.
Record IntegrityHasher := { ih_crc32c : Z; ih_sha256 : Sha256 }.

Definition IntegrityHasher_new : IntegrityHasher :=
  {| ih_crc32c := 0; ih_sha256 := sha256_new |}.
Definition IntegrityHasher_update (h : IntegrityHasher) (bs : bytes) : IntegrityHasher :=
  {| ih_crc32c := crc32c_append (ih_crc32c h) bs;
     ih_sha256 := sha256_update (ih_sha256 h) bs |}.
Definition IntegrityHasher_finish (h : IntegrityHasher) : IntegrityDigest :=
  {| id_crc32c := ih_crc32c h;
     id_sha256 := {| digest_bytes := sha256_finalize (ih_sha256 h) |} |}.
Definition sha256 (bs : bytes) : Sha256Digest :=
  {| digest_bytes := sha256_finalize (sha256_update sha256_new bs) |}.
Definition integrity_digest (bs : bytes) : IntegrityDigest :=
  IntegrityHasher_finish (IntegrityHasher_update IntegrityHasher_new bs).

Context `{!Crc32cLaws Crc, !Sha256Laws Sha}.

Lemma Crc32cHasher_chunks h (chunks : list bytes) :
  is_u32 h →
  foldl Crc32cHasher_update h chunks = crc32c_append h (mjoin chunks).
Proof.
  revert h; induction chunks as [|c cs IH]; intros h Hh; simpl.
  - by rewrite crc32c_append_nil.
  - rewrite IH by apply crc32c_append_u32. apply crc32c_append_app.
Qed.

Lemma IntegrityHasher_chunks h (chunks : list bytes) :
  is_u32 (ih_crc32c h) →
  foldl IntegrityHasher_update h chunks = IntegrityHasher_update h (mjoin chunks).
Proof.
  revert h; induction chunks as [|c cs IH]; intros [hc hs] Hh; simpl in *.
  - unfold IntegrityHasher_update; simpl. by rewrite crc32c_append_nil, sha256_update_nil.
  - rewrite IH by apply crc32c_append_u32. unfold IntegrityHasher_update; simpl.
    by rewrite crc32c_append_app, sha256_update_app.
Qed.

(** Hashing a stream chunk by chunk, however it is cut, gives the digests of
    the whole: the CRC and the SHA-256 of the concatenation. *)
Lemma IntegrityHasher_streaming (chunks : list bytes) :
  IntegrityHasher_finish (foldl IntegrityHasher_update IntegrityHasher_new chunks) =
    {| id_crc32c := crc32c (mjoin chunks); id_sha256 := sha256 (mjoin chunks) |}.
Proof. rewrite IntegrityHasher_chunks by done. done. Qed.
End Hashers.

(** ** Hexadecimal round trip *)

Lemma parse_hex_digit n offset : 0 ≤ n < 16 → parse_hex_nibble (hex_digit n) offset = Ok n.
Proof.
  intros Hn. unfold hex_digit, parse_hex_nibble.
  repeat (case_bool; cbn [andb]; try lia); f_equal; lia.
Qed.

Lemma parse_hex_pairs_print bs offset :
  Forall is_byte bs →
  parse_hex_pairs (flat_map hex_byte bs) offset
  = Ok bs.
Proof.
  intros HF. revert offset; induction HF as [|b bs Hb _ IH]; intros offset; [done|].
  unfold is_byte in Hb. cbn [flat_map hex_byte app parse_hex_pairs].
  pose proof (Z.mod_pos_bound b 16). pose proof (Z.div_pos b 16).
  pose proof (Z.div_lt_upper_bound b 16 16).
  rewrite !parse_hex_digit by lia. cbn [result_bind]. rewrite IH. cbn [result_bind].
  f_equal. f_equal. rewrite Z.lor_comm, lor_shiftl_add by lia.
  rewrite (Z.div_mod b 16) at 3 by lia. change (2 ^ 4) with 16. lia.
Qed.

Lemma zlen_hex bs :
  zlen (flat_map hex_byte bs) = 2 * zlen bs.
Proof. induction bs as [|b bs IH]; [done|]. cbn [flat_map hex_byte app]. rewrite !zlen_cons. lia. Qed.

Lemma digest_roundtrip_wf d : digest_wf d → digest_from_str (digest_to_string d) = Ok d.
Proof.
  intros [Hlen HF]. unfold digest_from_str, digest_to_string. rewrite zlen_hex.
  unfold zlen at 1. rewrite Hlen. change (negb _) with false. cbv iota.
  rewrite parse_hex_pairs_print by done. by destruct d.
Qed.

Lemma parse_hex_nibble_range byte offset n :
  parse_hex_nibble byte offset = Ok n → 0 ≤ n < 16.
Proof.
  unfold parse_hex_nibble. repeat case_bool; cbn [andb]; intros Heq; try done;
    injection Heq as <-; lia.
Qed.

Lemma parse_hex_pairs_wf value offset bs :
  parse_hex_pairs value offset = Ok bs →
  Forall is_byte bs ∧ (2 * length bs ≤ length value ≤ 2 * length bs + 1)%nat.
Proof.
  revert offset bs. induction value as [value IH] using (induction_ltof1 _ length);
    unfold ltof in IH; intros offset bs.
  destruct value as [|h [|l rest]]; cbn [parse_hex_pairs];
    [intros [= <-]; split; [constructor|simpl; lia]..|].
  intros (hi & Hhi & (lo & Hlo & (tl & Htl & [= <-])%result_bind_ok)%result_bind_ok)%result_bind_ok.
  apply parse_hex_nibble_range in Hhi, Hlo.
  apply IH in Htl as [HF Hl]; [|simpl; lia]. split; [|simpl in *; lia].
  constructor; [|done]. unfold is_byte. rewrite Z.lor_comm, lor_shiftl_add by lia.
  change (2 ^ 4) with 16. lia.
Qed.

(** ** A CRC-32C and a SHA-256 that satisfy the interfaces *)

Module Castagnoli.
Definition poly : Z := 0x82F63B78.
Definition step_bit (c : Z) : Z :=
  if Z.odd c then Z.lxor (Z.shiftr c 1) poly else Z.shiftr c 1.
Definition step_byte (c b : Z) : Z :=
  Nat.iter 8 step_bit (Z.lxor c (b mod 256)).
Definition complement (c : Z) : Z := 2 ^ 32 - 1 - c mod 2 ^ 32.
Definition append (c : Z) (bs : bytes) : Z :=
  complement (foldl step_byte (complement c) bs mod 2 ^ 32).

#[export] Instance crate : Crc32cCrate := { crc32c_append := append }.

(** The check value of CRC-32C: the checksum of the nine ASCII digits. *)
Example check_value : append 0 [49;50;51;52;53;54;55;56;57] = 0xe3069283.
Proof. vm_compute. reflexivity. Qed.

Lemma shiftr1_bound c : is_u32 c → 0 ≤ Z.shiftr c 1 < 2 ^ 31.
Proof.
  unfold is_u32. intros. rewrite shiftr_div by done. split; [apply Z.div_pos; lia|].
  apply Z.div_lt_upper_bound; lia.
Qed.
Lemma lxor_u32 a b : is_u32 a → is_u32 b → is_u32 (Z.lxor a b).
Proof.
  unfold is_u32. intros Ha Hb. assert (0 ≤ Z.lxor a b) as Hp by (apply Z.lxor_nonneg; lia).
  split; [done|]. apply (Z.bounded_iff_bits_nonneg 32); [done..|]. intros l Hl.
  rewrite Z.lxor_spec.
  rewrite (proj1 (Z.bounded_iff_bits_nonneg 32 a ltac:(done) ltac:(lia)) ltac:(lia) l Hl).
  rewrite (proj1 (Z.bounded_iff_bits_nonneg 32 b ltac:(done) ltac:(lia)) ltac:(lia) l Hl). done.
Qed.
Lemma step_bit_u32 c : is_u32 c → is_u32 (step_bit c).
Proof.
  intros Hc. pose proof (shiftr1_bound c Hc). unfold step_bit.
  destruct (Z.odd c); [apply lxor_u32|]; unfold is_u32; [lia|done|lia].
Qed.
Lemma step_byte_u32 c b : is_u32 c → is_u32 (step_byte c b).
Proof.
  intros Hc. unfold step_byte. pose proof (Z.mod_pos_bound b 256).
  assert (is_u32 (Z.lxor c (b mod 256))) as H0 by (apply lxor_u32; [done|unfold is_u32; lia]).
  generalize dependent (Z.lxor c (b mod 256)). intros z Hz.
  generalize 8%nat. intros n. induction n; cbn [Nat.iter nat_rect]; [done|by apply step_bit_u32].
Qed.
Lemma complement_u32 c : is_u32 (complement c).
Proof. unfold complement, is_u32. pose proof (Z.mod_pos_bound c (2 ^ 32)). lia. Qed.
Lemma complement_involutive c : is_u32 c → complement (complement c) = c.
Proof.
  unfold complement, is_u32. intros. rewrite (Z.mod_small c) by lia. rewrite Z.mod_small; lia.
Qed.
Lemma foldl_u32 c bs : is_u32 c → is_u32 (foldl step_byte c bs).
Proof.
  revert c; induction bs; intros c Hc; [done|]. apply IHbs. by apply step_byte_u32.
Qed.
Lemma foldl_mod c bs : is_u32 c → foldl step_byte c bs mod 2 ^ 32 = foldl step_byte c bs.
Proof. intros Hc. apply Z.mod_small. by apply foldl_u32. Qed.

#[export] Instance laws : Crc32cLaws crate.
Proof.
  constructor; cbn [crc32c_append crate]; unfold append.
  - intros. apply complement_u32.
  - intros c xs ys. rewrite !foldl_mod by apply complement_u32.
    rewrite complement_involutive by apply foldl_u32, complement_u32.
    by rewrite foldl_app.
  - intros c Hc. simpl. rewrite Z.mod_small by apply complement_u32.
    by apply complement_involutive.
Qed.
End Castagnoli.

Module BufferSha.
(** A hasher that buffers its input and folds it into 32 bytes. *)
#[export] Instance crate : Sha256Crate := {
  Sha256 := bytes; sha256_new := []; sha256_update := app;
  sha256_finalize := λ bs, le_bytes 32 (foldl (λ h b, h * 31 + b) 7 bs);
}.
#[export] Instance laws : Sha256Laws crate.
Proof.
  constructor; cbn [crate Sha256 sha256_update sha256_finalize]; intros.
  - by rewrite app_assoc.
  - apply app_nil_r.
  - apply length_le_bytes.
  - apply is_byte_le_bytes.
Qed.
End BufferSha.

(** ** Theorems *)

(** Digests and their text.  Printing a 32-byte digest and parsing it back
    is the identity; a text that parses has 64 characters and gives a 32-byte
    digest. *)
Theorem digest_hex_roundtrip :
  (∀ d, digest_wf d → digest_from_str (digest_to_string d) = Ok d) ∧
  (∀ value d, digest_from_str value = Ok d → digest_wf d ∧ zlen value = SHA256_HEX_BYTES).
Proof.
  split; [apply digest_roundtrip_wf|]. intros value d. unfold digest_from_str.
  destruct (Z.eqb_spec (zlen value) SHA256_HEX_BYTES) as [E|]; cbn [negb]; [|done].
  intros (bs & [HF Hl]%parse_hex_pairs_wf & [= <-])%result_bind_ok. split; [|done].
  split; [|done]. cbn. unfold zlen, SHA256_HEX_BYTES, SHA256_BYTES in E. lia.
Qed.

Section Streaming.
Context {Crc : Crc32cCrate} {Sha : Sha256Crate} `{!Crc32cLaws Crc, !Sha256Laws Sha}.

(** Streaming is chunk independent.  Hashing a stream piece by piece,
    however it is cut, gives the CRC-32C and the SHA-256 of the whole, with a
    well-formed digest. *)
Theorem integrity_streaming (chunks : list bytes) :
  let d := IntegrityHasher_finish (foldl IntegrityHasher_update IntegrityHasher_new chunks) in
  id_crc32c d = crc32c (mjoin chunks) ∧ id_sha256 d = sha256 (mjoin chunks) ∧
  d = integrity_digest (mjoin chunks) ∧ digest_wf (id_sha256 d).
Proof.
  cbn zeta. rewrite IntegrityHasher_streaming. split_and!; [done..|].
  split; cbn; [apply sha256_finalize_length|apply sha256_finalize_bytes].
Qed.
End Streaming.

Module StreamingDemo.
Import Castagnoli BufferSha.

Lemma integrity_streaming_witness :
  let d := IntegrityHasher_finish (foldl IntegrityHasher_update IntegrityHasher_new [[1]; [2; 3]]) in
  id_crc32c d = crc32c [1; 2; 3] ∧ id_sha256 d = sha256 [1; 2; 3] ∧
  d = integrity_digest [1; 2; 3] ∧ digest_wf (id_sha256 d).
Proof. apply (integrity_streaming [[1]; [2; 3]]). Defined.
End StreamingDemo.
