(* ===== verification/WalFrame.v ===== *)
(** Block-oriented fragment framing of the binary WAL:
    crates/storage/src/wal/frame.rs (definitions).

    [Read] and [Seek] are the interfaces of [std::io]; [BinaryWalReader] is
    generic over them, as in the source, so that every theorem about it holds
    for readers that return short reads. *)
From S2P Require Import Prelude Integrity.

(** ** std::io readers *)

Class Read (R : Type) := { read : R → Z → Result (bytes * R) }.
Class Seek (R : Type) := { seek_start : R → Z → Result R }.

(** A reader over a byte stream without I/O failures: a read returns a prefix
    of what is left, at most as long as the buffer, and returns nothing only
    at the end of the stream. *)
Class ReadLaws (R : Type) `{Read R} := {
  unread : R → bytes;
  read_spec r n : 0 < n →
    ∃ bs r', read r n = Ok (bs, r') ∧ unread r = bs ++ unread r' ∧ zlen bs ≤ n ∧
      (bs = [] → unread r = []);
}.
Class SeekLaws (R : Type) `{Seek R, ReadLaws R} := {
  contents : R → bytes;
  seek_spec r n : 0 ≤ n →
    ∃ r', seek_start r n = Ok r' ∧ unread r' = drop (Z.to_nat n) (contents r);
}.

(** ** File layout *)

Definition WAL_BINARY_MAGIC : bytes := [83; 75; 87; 65; 76; 66; 48; 49]. (* SKWALB01 *)
Definition WAL_BLOCK_BYTES : Z := 32 * 1024.
Definition WAL_FRAGMENT_HEADER_BYTES : Z := 15.
Definition WAL_BINARY_FILE_HEADER_BYTES : Z := 28.
Definition FRAGMENT_FULL : Z := 1.
Definition FRAGMENT_FIRST : Z := 2.
Definition FRAGMENT_MIDDLE : Z := 3.
Definition FRAGMENT_LAST : Z := 4.
Definition CRC_MASK_DELTA : Z := 0xa282ead8.

(** [u32::rotate_right]. *)
Definition rotate_right_u32 (x n : Z) : Z :=
  Z.lor (Z.shiftr x n) (Z.shiftl x (32 - n) mod 2 ^ 32).

(** A formatted message: its format string and the integers in it. *)
Definition reason : Type := string * list Z.

(** One event of the reader; offsets are absolute file offsets. *)
Inductive BinaryWalReadEvent :=
  | Record_ (payload : bytes) (start_offset end_offset : Z)
  | TornTail (valid_prefix_len : Z) (why : reason)
  | Corrupt (offset : Z) (why : reason)
  | Eof.

Record PendingChain := { chain_start_offset : Z; chain_payload : bytes }.

Inductive FragmentParse :=
  | Fragment (fragment_type payload_end : Z)
  | EndOfLog (why : reason)
  | FragmentCorrupt (why : reason)
  | Torn (why : reason)
  | NeedNextBlock
  | EndOfStream.

(** [block] holds the loaded bytes of the current block: the source keeps a
    32 KiB buffer and a length [block_len], and never looks past it. *)
Record BinaryWalReader (R : Type) := {
  reader : R;
  generation : Z;
  max_record_bytes : option Z;
  block : bytes;
  block_pos : Z;
  block_offset : Z;
  stream_ended : bool;
  block_loaded : bool;
  chain : option PendingChain;
  finished : bool;
  end_offset : option Z;
}.
Arguments reader {R}.
Arguments generation {R}.
Arguments max_record_bytes {R}.
Arguments block {R}.
Arguments block_pos {R}.
Arguments block_offset {R}.
Arguments stream_ended {R}.
Arguments block_loaded {R}.
Arguments chain {R}.
Arguments finished {R}.
Arguments end_offset {R}.

Section Update.
Context {R : Type}.
Implicit Types s : BinaryWalReader R.

Definition set_block_pos s p : BinaryWalReader R :=
  {| reader := reader s; generation := generation s; max_record_bytes := max_record_bytes s;
     block := block s; block_pos := p; block_offset := block_offset s;
     stream_ended := stream_ended s; block_loaded := block_loaded s; chain := chain s;
     finished := finished s; end_offset := end_offset s |}.
Definition set_chain s c : BinaryWalReader R :=
  {| reader := reader s; generation := generation s; max_record_bytes := max_record_bytes s;
     block := block s; block_pos := block_pos s; block_offset := block_offset s;
     stream_ended := stream_ended s; block_loaded := block_loaded s; chain := c;
     finished := finished s; end_offset := end_offset s |}.
Definition set_finished s : BinaryWalReader R :=
  {| reader := reader s; generation := generation s; max_record_bytes := max_record_bytes s;
     block := block s; block_pos := block_pos s; block_offset := block_offset s;
     stream_ended := stream_ended s; block_loaded := block_loaded s; chain := chain s;
     finished := true; end_offset := end_offset s |}.
Definition block_len s : Z := zlen (block s).
End Update.

(** ** Writing *)

Section Writer.
Context `{Crc : Crc32cCrate}.

Definition masked_fragment_crc (fragment_type gen : Z) (payload : bytes) : Z :=
  let h := Crc32cHasher_update Crc32cHasher_new [fragment_type] in
  let h := Crc32cHasher_update h (le_bytes 8 gen) in
  let h := Crc32cHasher_update h payload in
  (rotate_right_u32 h 15 + CRC_MASK_DELTA) mod 2 ^ 32.

Definition encode_binary_wal_header (gen start_lsn : Z) : bytes :=
  let header := WAL_BINARY_MAGIC ++ le_bytes 8 gen ++ le_bytes 8 start_lsn in
  header ++ le_bytes 4 (crc32c header).

Definition decode_binary_wal_header (bs : bytes) : Result (Z * Z) :=
  if zlen bs <? WAL_BINARY_FILE_HEADER_BYTES
  then Err (Storage "binary WAL file header is truncated" [])
  else
    let header := zslice bs 0 WAL_BINARY_FILE_HEADER_BYTES in
    if negb (bool_decide (zslice header 0 8 = WAL_BINARY_MAGIC))
    then Err (Storage "WAL is missing a supported generation header" [])
    else
      let expected := le_val (zslice header 24 28) in
      let actual := crc32c (zslice header 0 24) in
      if negb (expected =? actual)
      then Err (Storage "WAL header checksum mismatch: expected {}, got {}" [expected; actual])
      else Ok (le_val (zslice header 8 16), le_val (zslice header 16 24)).

Definition fragment_type_of (first last : bool) : Z :=
  match first, last with
  | true, true => FRAGMENT_FULL
  | true, false => FRAGMENT_FIRST
  | false, true => FRAGMENT_LAST
  | false, false => FRAGMENT_MIDDLE
  end.

(** The bytes one round of the framing loop appends. *)
Definition encode_fragment (fragment_type gen : Z) (chunk : bytes) : bytes :=
  le_bytes 4 (masked_fragment_crc fragment_type gen chunk)
  ++ le_bytes 2 (zlen chunk) ++ [fragment_type] ++ le_bytes 8 gen ++ chunk.

(** The loop of [frame_binary_wal_record]: every round but the first takes at
    least one byte, so [length payload + 2] rounds are enough
    ([frame_loop_framed]). *)
Fixpoint frame_loop (fuel : nat) (gen : Z) (remaining : bytes) (first : bool)
    (block_pos : Z) : bytes :=
  match fuel with
  | O => []
  | S fuel =>
      let available := WAL_BLOCK_BYTES - block_pos - WAL_FRAGMENT_HEADER_BYTES in
      let take_ := Z.min available (zlen remaining) in
      let chunk := take (Z.to_nat take_) remaining in
      let rest := drop (Z.to_nat take_) remaining in
      let is_last := match rest with [] => true | _ => false end in
      encode_fragment (fragment_type_of first is_last) gen chunk
      ++ (if is_last then [] else frame_loop fuel gen rest false 0)
  end.

Definition frame_binary_wal_record (gen : Z) (payload : bytes) (position : Z) : bytes :=
  let block_pos := position mod WAL_BLOCK_BYTES in
  let fuel := S (S (length payload)) in
  if WAL_BLOCK_BYTES - block_pos <? WAL_FRAGMENT_HEADER_BYTES
  then zeros (WAL_BLOCK_BYTES - block_pos) ++ frame_loop fuel gen payload true 0
  else frame_loop fuel gen payload true block_pos.
End Writer.

(** ** Reading *)

Section Reader.
Context `{Crc : Crc32cCrate} {R : Type} `{RD : Read R}.
Implicit Types s : BinaryWalReader R.

Definition BinaryWalReader_new (r : R) (gen : Z) (limit : option Z) : BinaryWalReader R :=
  {| reader := r; generation := gen; max_record_bytes := limit; block := [];
     block_pos := 0; block_offset := WAL_BINARY_FILE_HEADER_BYTES; stream_ended := false;
     block_loaded := false; chain := None; finished := false; end_offset := None |}.

(** The loop of [load_next_block]: fills the block, at most up to
    [end_offset]; the flag says that the stream ended. *)
Fixpoint load_loop (fuel : nat) (end_ : option Z) (offset : Z) (r : R) (blk : bytes)
    : Result (R * bytes * bool) :=
  match fuel with
  | O => Ok (r, blk, false)
  | S fuel =>
      if zlen blk <? WAL_BLOCK_BYTES then
        let remaining :=
          match end_ with
          | None => WAL_BLOCK_BYTES - zlen blk
          | Some e => Z.min (saturating_sub e (offset + zlen blk)) (WAL_BLOCK_BYTES - zlen blk)
          end in
        if remaining =? 0 then Ok (r, blk, true)
        else
          let? (bs, r) := read r remaining in
          match bs with
          | [] => Ok (r, blk, true)
          | _ => load_loop fuel end_ offset r (blk ++ bs)
          end
      else Ok (r, blk, false)
  end.

Definition load_next_block s : Result (BinaryWalReader R) :=
  let offset := block_offset s + block_len s in
  let? (r, blk, ended) :=
    load_loop (S (Z.to_nat WAL_BLOCK_BYTES)) (end_offset s) offset (reader s) [] in
  Ok {| reader := r; generation := generation s; max_record_bytes := max_record_bytes s;
        block := blk; block_pos := 0; block_offset := offset;
        stream_ended := stream_ended s || ended; block_loaded := true; chain := chain s;
        finished := finished s; end_offset := end_offset s |}.

(** [BinaryWalReader::range]. *)
Definition BinaryWalReader_range `{SK : Seek R} (r : R) (gen : Z) (limit : option Z)
    (from_offset to_offset : Z) : Result (BinaryWalReader R) :=
  let header_bytes := WAL_BINARY_FILE_HEADER_BYTES in
  if (from_offset <? header_bytes) || (to_offset <? from_offset)
  then Err (Storage "invalid captured WAL byte interval" [])
  else
    let data_offset := from_offset - header_bytes in
    let block_start := header_bytes + data_offset / WAL_BLOCK_BYTES * WAL_BLOCK_BYTES in
    let? r := seek_start r block_start in
    let cursor :=
      {| reader := r; generation := gen; max_record_bytes := limit; block := [];
         block_pos := 0; block_offset := block_start; stream_ended := false;
         block_loaded := false; chain := None; finished := false;
         end_offset := Some to_offset |} in
    if from_offset =? to_offset then Ok (set_finished cursor)
    else
      let? cursor := load_next_block cursor in
      let skip := from_offset - block_start in
      if block_len cursor <? skip
      then Err (Storage "captured WAL interval starts beyond the available bytes" [])
      else Ok (set_block_pos cursor skip).

Definition fragment_type_valid (t : Z) : bool := (FRAGMENT_FULL <=? t) && (t <=? FRAGMENT_LAST).

Definition parse_fragment_at_cursor s : Result (FragmentParse * BinaryWalReader R) :=
  let? s := if negb (block_loaded s) || ((block_pos s =? block_len s) && negb (stream_ended s))
            then load_next_block s else Ok s in
  let remaining := block_len s - block_pos s in
  if remaining =? 0 then Ok (if stream_ended s then EndOfStream else NeedNextBlock, s)
  else if WAL_BLOCK_BYTES - block_pos s <? WAL_FRAGMENT_HEADER_BYTES then
    let trailer := zslice (block s) (block_pos s) (block_len s) in
    if existsb (λ byte, negb (byte =? 0)) trailer
    then Ok (FragmentCorrupt ("block trailer is not zero-filled", []), s)
    else if block_len s <? WAL_BLOCK_BYTES
    then Ok (Torn ("block trailer is cut short at end of file", []), s)
    else Ok (NeedNextBlock, set_block_pos s (block_len s))
  else if remaining <? WAL_FRAGMENT_HEADER_BYTES
  then Ok (Torn ("fragment header is cut short at end of file", []), s)
  else
    let header_start := block_pos s in
    let header := zslice (block s) header_start (header_start + WAL_FRAGMENT_HEADER_BYTES) in
    let stored_crc := le_val (zslice header 0 4) in
    let declared_len := le_val (zslice header 4 6) in
    let fragment_type := le_val (zslice header 6 7) in
    let fragment_generation := le_val (zslice header 7 15) in
    if (stored_crc =? 0) && (declared_len =? 0) && (fragment_type =? 0)
       && (fragment_generation =? 0)
    then Ok (EndOfLog ("unwritten (all-zero) fragment header", []), s)
    else
      let payload_start := header_start + WAL_FRAGMENT_HEADER_BYTES in
      let payload_end := payload_start + declared_len in
      if WAL_BLOCK_BYTES <? payload_end
      then Ok (FragmentCorrupt ("fragment length {} overflows its 32 KiB block", [declared_len]), s)
      else if block_len s <? payload_end then
        if stream_ended s
        then Ok (Torn ("fragment payload of {} bytes is cut short at end of file",
                       [declared_len]), s)
        else Ok (FragmentCorrupt ("fragment payload crosses a block boundary", []), s)
      else
        let payload := zslice (block s) payload_start payload_end in
        let expected_crc := masked_fragment_crc fragment_type fragment_generation payload in
        if negb (stored_crc =? expected_crc)
        then Ok (FragmentCorrupt ("fragment checksum mismatch: expected {}, got {}",
                                  [expected_crc; stored_crc]), s)
        else if negb (fragment_type_valid fragment_type)
        then Ok (FragmentCorrupt ("invalid fragment type {}", [fragment_type]), s)
        else if negb (fragment_generation =? generation s)
        then Ok (EndOfLog ("fragment carries stale WAL generation {}, expected {}",
                           [fragment_generation; generation s]), s)
        else Ok (Fragment fragment_type payload_end, s).

(** The loop of [live_fragment_after]: every round but the last loads a full
    block. *)
Fixpoint live_fragment_after (fuel : nat) s : option (Result (bool * BinaryWalReader R)) :=
  match fuel with
  | O => None
  | S fuel =>
      match load_next_block s with
      | Err e => Some (Err e)
      | Ok s =>
          if block_len s =? 0 then Some (Ok (false, s))
          else
            let header := zslice (block s) 0 WAL_FRAGMENT_HEADER_BYTES in
            let stored_crc := le_val (zslice header 0 4) in
            let declared_len := le_val (zslice header 4 6) in
            let fragment_type := le_val (zslice header 6 7) in
            let fragment_generation := le_val (zslice header 7 15) in
            let payload_end := WAL_FRAGMENT_HEADER_BYTES + declared_len in
            if (WAL_FRAGMENT_HEADER_BYTES <=? block_len s)
               && (fragment_type_valid fragment_type
                   && (fragment_generation =? generation s)
                   && (payload_end <=? block_len s)
                   && (stored_crc =?
                         masked_fragment_crc fragment_type fragment_generation
                           (zslice (block s) WAL_FRAGMENT_HEADER_BYTES payload_end)))
            then Some (Ok (true, s))
            else if stream_ended s then Some (Ok (false, s))
            else live_fragment_after fuel s
      end
  end.

Definition end_of_log (fuel : nat) s (offset : Z) (marker : reason)
    : option (Result (BinaryWalReadEvent * BinaryWalReader R)) :=
  let s := set_finished s in
  match live_fragment_after fuel s with
  | None => None
  | Some (Err e) => Some (Err e)
  | Some (Ok (true, s)) =>
      Some (Ok (Corrupt offset ("valid fragments follow an end-of-log marker (" +:+ marker.1
                                +:+ ")", marker.2), s))
  | Some (Ok (false, s)) =>
      let offset := match chain s with Some c => chain_start_offset c | None => offset end in
      Some (Ok (Corrupt offset ("unwritten or stale WAL suffix (" +:+ marker.1 +:+ ")",
                                marker.2), set_chain s None))
  end.

Definition chain_violation s (offset : Z) (why : reason)
    : Result (BinaryWalReadEvent * BinaryWalReader R) :=
  Ok (Corrupt offset why, set_finished s).

Definition enforce_record_limit s (payload_len : Z) : Result unit :=
  match max_record_bytes s with
  | Some limit =>
      if limit <? payload_len
      then Err (Storage "WAL record byte limit exceeded: max_wal_record_bytes={}" [limit])
      else Ok ()
  | None => Ok ()
  end.

(** The arm of [next_event] for a valid fragment: either an event, or the
    loop goes on. *)
Definition on_fragment s (fragment_offset fragment_type payload_end : Z)
    : Result (BinaryWalReadEvent * BinaryWalReader R + BinaryWalReader R) :=
  let payload_start := block_pos s + WAL_FRAGMENT_HEADER_BYTES in
  let payload := zslice (block s) payload_start payload_end in
  let s := set_block_pos s payload_end in
  if fragment_type =? FRAGMENT_FULL then
    match chain s with
    | Some _ =>
        let? ev := chain_violation
                     (set_block_pos s (payload_start - WAL_FRAGMENT_HEADER_BYTES))
                     fragment_offset ("FULL fragment interrupts an open fragment chain", []) in
        Ok (inl ev)
    | None =>
        let? _ := enforce_record_limit s (zlen payload) in
        Ok (inl (Record_ payload fragment_offset (block_offset s + block_pos s), s))
    end
  else if fragment_type =? FRAGMENT_FIRST then
    match chain s with
    | Some _ =>
        let? ev := chain_violation
                     (set_block_pos s (payload_start - WAL_FRAGMENT_HEADER_BYTES))
                     fragment_offset ("FIRST fragment interrupts an open fragment chain", []) in
        Ok (inl ev)
    | None =>
        let? _ := enforce_record_limit s (zlen payload) in
        Ok (inr (set_chain s (Some {| chain_start_offset := fragment_offset;
                                      chain_payload := payload |})))
    end
  else
    match chain s with
    | None =>
        Ok (inl (Corrupt fragment_offset
                   ("continuation fragment without a FIRST fragment", []), set_finished s))
    | Some c =>
        let c := {| chain_start_offset := chain_start_offset c;
                    chain_payload := chain_payload c ++ payload |} in
        let? _ := enforce_record_limit s (zlen (chain_payload c)) in
        if fragment_type =? FRAGMENT_LAST
        then Ok (inl (Record_ (chain_payload c) (chain_start_offset c)
                        (block_offset s + block_pos s), set_chain s None))
        else Ok (inr (set_chain s (Some c)))
    end.

(** The loop of [next_event].  [None] is an exhausted fuel: every round
    consumes at least one byte, so a fuel above the number of unread bytes
    is enough ([next_event_refines]). *)
Fixpoint next_event_loop (fuel : nat) s
    : option (Result (BinaryWalReadEvent * BinaryWalReader R)) :=
  match fuel with
  | O => None
  | S fuel =>
      let fragment_offset := block_offset s + block_pos s in
      match parse_fragment_at_cursor s with
      | Err e => Some (Err e)
      | Ok (NeedNextBlock, s) => next_event_loop fuel s
      | Ok (EndOfStream, s) =>
          let s := set_finished s in
          match chain s with
          | Some c => Some (Ok (TornTail (chain_start_offset c)
                                  ("fragment chain is incomplete at end of file", []),
                                set_chain s None))
          | None => Some (Ok (Eof, s))
          end
      | Ok (Torn why, s) =>
          let s := set_finished s in
          let valid := match chain s with
                       | Some c => chain_start_offset c
                       | None => fragment_offset
                       end in
          Some (Ok (TornTail valid why, set_chain s None))
      | Ok (FragmentCorrupt why, s) =>
          Some (Ok (Corrupt fragment_offset why, set_finished s))
      | Ok (EndOfLog why, s) => end_of_log fuel s fragment_offset why
      | Ok (Fragment fragment_type payload_end, s) =>
          match on_fragment s fragment_offset fragment_type payload_end with
          | Err e => Some (Err e)
          | Ok (inl ev) => Some (Ok ev)
          | Ok (inr s) => next_event_loop fuel s
          end
      end
  end.

Definition next_event (fuel : nat) s : option (Result (BinaryWalReadEvent * BinaryWalReader R)) :=
  if finished s then Some (Ok (Eof, s)) else next_event_loop fuel s.
End Reader.

(** ** The file header *)

Section HeaderTheorem.
Context `{CL : Crc32cLaws}.

Lemma header_body_fields gen start_lsn :
  is_u64 gen → is_u64 start_lsn →
  let body := WAL_BINARY_MAGIC ++ le_bytes 8 gen ++ le_bytes 8 start_lsn in
  zlen body = 24 ∧ zslice body 0 8 = WAL_BINARY_MAGIC ∧
  le_val (zslice body 8 16) = gen ∧ le_val (zslice body 16 24) = start_lsn.
Proof.
  intros Hg Hs body. unfold body. split_and!.
  - by rewrite !zlen_app, !zlen_le_bytes.
  - by apply zslice_app_front.
  - rewrite zslice_app_mid by (by rewrite ?zlen_le_bytes). by apply le_val_bytes_small.
  - rewrite app_assoc, zslice_app_r, zslice_full by (by rewrite ?zlen_app, ?zlen_le_bytes).
    by apply le_val_bytes_small.
Qed.

Lemma decode_header_body body crc rest :
  zlen body = 24 → zslice body 0 8 = WAL_BINARY_MAGIC → is_u32 crc →
  decode_binary_wal_header (body ++ le_bytes 4 crc ++ rest) =
    if negb (crc =? crc32c body)
    then Err (Storage "WAL header checksum mismatch: expected {}, got {}" [crc; crc32c body])
    else Ok (le_val (zslice body 8 16), le_val (zslice body 16 24)).
Proof.
  intros Hlen Hm Hcrc. unfold decode_binary_wal_header, WAL_BINARY_FILE_HEADER_BYTES.
  pose proof (zlen_nonneg rest).
  rewrite (proj2 (Z.ltb_ge _ _)) by (rewrite !zlen_app, zlen_le_bytes; lia).
  rewrite app_assoc, zslice_app_front by (rewrite zlen_app, zlen_le_bytes; lia).
  rewrite (zslice_app_l body _ 0 8), (zslice_app_l body _ 0 24), (zslice_app_l body _ 8 16),
    (zslice_app_l body _ 16 24) by lia. rewrite Hm, bool_decide_true by done.
  rewrite (zslice_full body), zslice_app_r, Hlen, zslice_full by (rewrite ?zlen_le_bytes; lia).
  by rewrite le_val_bytes_small.
Qed.

(** The file header reads back, whatever follows it, and a header whose
    stored checksum differs from the checksum of its fields is refused. *)
Theorem wal_header_roundtrip gen start_lsn rest :
  is_u64 gen → is_u64 start_lsn →
  let h := encode_binary_wal_header gen start_lsn in
  decode_binary_wal_header (h ++ rest) = Ok (gen, start_lsn) ∧
  ∀ crc, is_u32 crc → crc ≠ crc32c (zslice h 0 24) →
    decode_binary_wal_header (zslice h 0 24 ++ le_bytes 4 crc ++ rest) =
      Err (Storage "WAL header checksum mismatch: expected {}, got {}" [crc; crc32c (zslice h 0 24)]).
Proof.
  intros Hg Hs h. unfold h, encode_binary_wal_header. cbn zeta.
  destruct (header_body_fields gen start_lsn Hg Hs) as (Hlen & Hm & Hgen & Hlsn).
  set (body := WAL_BINARY_MAGIC ++ _) in *. clearbody body.
  rewrite (zslice_app_front body _ 24), <- app_assoc by done. split.
  - rewrite decode_header_body by (done || apply crc32c_append_u32).
    by rewrite Z.eqb_refl, Hgen, Hlsn.
  - intros crc Hcrc Hne. rewrite decode_header_body by done.
    by rewrite (proj2 (Z.eqb_neq _ _) Hne).
Qed.
End HeaderTheorem.

Module HeaderDemo.
Import Castagnoli.
Lemma wal_header_roundtrip_witness :
  decode_binary_wal_header (encode_binary_wal_header 7 42 ++ [0]) = Ok (7, 42).
Proof. apply (wal_header_roundtrip 7 42 [0]); done. Defined.
End HeaderDemo.
