(* ===== verification/WalScan.v ===== *)
(** A scanner over byte lists that the fragment reader of [WalFrame] refines.

    The reader buffers 32 KiB blocks filled by short reads; the scanner sees
    only the position in the data stream and the bytes not yet consumed.  The
    refinement ([next_event_refines]) holds for every reader that satisfies
    [ReadLaws], and gives the fuel that makes [next_event] total. *)
From S2P Require Import Prelude Integrity WalFrame.

(** ** The scanner *)

Inductive scan_parse_result :=
  | SFragment (fragment_type : Z) (payload : bytes)
  | SEndOfLog
  | SCorrupt
  | STorn
  | SSkip (n : Z)
  | SEnd.

Inductive scan_result :=
  | ScRecord (payload : bytes) (start_offset end_offset : Z) (rest : bytes)
  | ScTorn (valid_prefix_len : Z)
  | ScCorrupt
  | ScLimit
  | ScEof.

Definition WAL_HDR : Z := WAL_BINARY_FILE_HEADER_BYTES.

Section Scan.
Context `{Crc : Crc32cCrate}.

(** What the bytes at block position [q] hold, when [u] is the rest of the
    stream. *)
Definition scan_parse (gen q : Z) (u : bytes) : scan_parse_result :=
  let cap := WAL_BLOCK_BYTES - q in
  let w := take (Z.to_nat cap) u in
  if zlen u =? 0 then SEnd
  else if cap <? WAL_FRAGMENT_HEADER_BYTES then
    if existsb (λ byte, negb (byte =? 0)) w then SCorrupt
    else if zlen w <? cap then STorn else SSkip cap
  else if zlen w <? WAL_FRAGMENT_HEADER_BYTES then STorn
  else
    let stored_crc := le_val (zslice w 0 4) in
    let declared_len := le_val (zslice w 4 6) in
    let fragment_type := le_val (zslice w 6 7) in
    let fragment_generation := le_val (zslice w 7 15) in
    let payload := zslice w 15 (15 + declared_len) in
    if (stored_crc =? 0) && (declared_len =? 0) && (fragment_type =? 0)
       && (fragment_generation =? 0) then SEndOfLog
    else if cap <? 15 + declared_len then SCorrupt
    else if zlen w <? 15 + declared_len then STorn
    else if negb (stored_crc =? masked_fragment_crc fragment_type fragment_generation payload)
    then SCorrupt
    else if negb (fragment_type_valid fragment_type) then SCorrupt
    else if negb (fragment_generation =? gen) then SEndOfLog
    else SFragment fragment_type payload.

Definition has_chain (c : option PendingChain) : bool :=
  match c with Some _ => true | None => false end.

Definition over_limit (limit : option Z) (len : Z) : bool :=
  match limit with Some m => m <? len | None => false end.

(** A valid fragment of type [t] after the open chain [c]: either an event,
    or the chain to go on with. *)
Definition scan_fragment (limit : option Z) (p : Z) (u : bytes) (c : option PendingChain)
    (t : Z) (payload : bytes) : scan_result + PendingChain :=
  let n := WAL_FRAGMENT_HEADER_BYTES + zlen payload in
  let start := match c with Some c => chain_start_offset c | None => WAL_HDR + p end in
  let acc := match c with Some c => chain_payload c | None => [] end ++ payload in
  let opens := (t =? FRAGMENT_FULL) || (t =? FRAGMENT_FIRST) in
  let closes := (t =? FRAGMENT_FULL) || (t =? FRAGMENT_LAST) in
  if has_chain c && opens || negb (has_chain c || opens)
  then inl ScCorrupt
  else if over_limit limit (zlen acc) then inl ScLimit
  else if closes then inl (ScRecord acc start (WAL_HDR + (p + n)) (drop (Z.to_nat n) u))
  else inr {| chain_start_offset := start; chain_payload := acc |}.

(** The next event at data position [p], with the bytes [u] left and the
    open fragment chain [c]. *)
Fixpoint scan_event (fuel : nat) (gen : Z) (limit : option Z) (p : Z) (u : bytes)
    (c : option PendingChain) : option scan_result :=
  match fuel with
  | O => None
  | S fuel =>
      let start := match c with Some c => chain_start_offset c | None => WAL_HDR + p end in
      match scan_parse gen (p mod WAL_BLOCK_BYTES) u with
      | SEnd => Some (match c with Some _ => ScTorn start | None => ScEof end)
      | STorn => Some (ScTorn start)
      | SCorrupt | SEndOfLog => Some ScCorrupt
      | SSkip n => scan_event fuel gen limit (p + n) (drop (Z.to_nat n) u) c
      | SFragment t payload =>
          match scan_fragment limit p u c t payload with
          | inl r => Some r
          | inr c =>
              let n := WAL_FRAGMENT_HEADER_BYTES + zlen payload in
              scan_event fuel gen limit (p + n) (drop (Z.to_nat n) u) (Some c)
          end
      end
  end.
End Scan.

(** ** Loading a block *)

Lemma block_bytes_value : WAL_BLOCK_BYTES = 32768.
Proof. reflexivity. Qed.
Lemma block_bytes_pos : 0 < WAL_BLOCK_BYTES.
Proof. reflexivity. Qed.
#[global] Opaque WAL_BLOCK_BYTES.

(** The bytes of the stream a reader may still see: the captured interval ends
    at [end_], an absolute offset. *)
Definition clip (end_ : option Z) (offset : Z) (bs : bytes) : bytes :=
  match end_ with
  | None => bs
  | Some e => take (Z.to_nat (saturating_sub e offset)) bs
  end.

Lemma clip_app end_ offset xs ys :
  zlen xs ≤ match end_ with Some e => saturating_sub e offset | None => zlen xs end →
  clip end_ offset (xs ++ ys) = xs ++ clip end_ (offset + zlen xs) ys.
Proof.
  destruct end_ as [e|]; cbn [clip]; [|done]. unfold saturating_sub. intros H.
  rewrite take_app. f_equal; [apply take_ge_z; lia|].
  f_equal. unfold zlen in *. lia.
Qed.

Lemma clip_nil end_ offset : clip end_ offset [] = [].
Proof. destruct end_; [apply take_nil|done]. Qed.

Section Load.
Context {R : Type} `{RL : ReadLaws R}.

(** The buffer holds the next bytes of the stream, up to a block, and the
    stream has ended exactly when the block is not full. *)
Lemma load_loop_spec fuel end_ offset r blk :
  zlen blk ≤ WAL_BLOCK_BYTES → WAL_BLOCK_BYTES - zlen blk < Z.of_nat fuel →
  let av := clip end_ (offset + zlen blk) (unread r) in
  let room := Z.to_nat (WAL_BLOCK_BYTES - zlen blk) in
  ∃ r', load_loop fuel end_ offset r blk =
          Ok (r', blk ++ take room av, zlen (blk ++ take room av) <? WAL_BLOCK_BYTES) ∧
        clip end_ (offset + zlen (blk ++ take room av)) (unread r') = drop room av.
Proof.
  revert r blk; induction fuel as [|fuel IH]; intros r blk Hlen Hfuel; [lia|].
  cbn zeta. cbn [load_loop]. destruct (Z.ltb_spec (zlen blk) WAL_BLOCK_BYTES) as [Hlt|Hge].
  2: { exists r. assert (WAL_BLOCK_BYTES - zlen blk = 0) as -> by lia.
       change (Z.to_nat 0) with 0%nat. cbn [take drop].
       rewrite app_nil_r.
       rewrite (proj2 (Z.ltb_ge _ _) Hge). done. }
  set (remaining := match end_ with None => _ | Some _ => _ end).
  assert (0 ≤ remaining ≤ WAL_BLOCK_BYTES - zlen blk) as Hrem.
  { subst remaining. destruct end_; unfold saturating_sub; lia. }
  destruct (Z.eqb_spec remaining 0) as [E|E].
  { destruct end_ as [e|]; [|subst remaining; lia]. cbn [clip].
    assert (saturating_sub e (offset + zlen blk) = 0) as -> by (subst remaining; lia).
    exists r. change (Z.to_nat 0) with 0%nat. rewrite take_0, take_nil, drop_nil, app_nil_r.
    rewrite (proj2 (Z.ltb_lt _ _) Hlt). split; [done|].
    assert (saturating_sub e (offset + zlen blk) = 0) as -> by (subst remaining; lia). done. }
  destruct (read_spec r remaining) as (bs & r' & Hread & Hun & Hbs & Hnil); [lia|].
  rewrite Hread. cbn [result_bind].
  destruct bs as [|b bs'] eqn:Ebs.
  { rewrite Hnil by done. rewrite clip_nil, take_nil, drop_nil, app_nil_r.
    exists r'. rewrite (proj2 (Z.ltb_lt _ _) Hlt). split; [done|].
    rewrite Hnil in Hun by done. symmetry in Hun. simpl in Hun.
    by rewrite Hun, clip_nil. }
  rewrite <- Ebs in *. clear Hnil. rewrite Hun.
  assert (1 ≤ zlen bs) by (subst bs; zlen_lia). clear Ebs b bs'.
  rewrite clip_app by (subst remaining; destruct end_; lia).
  destruct (IH r' (blk ++ bs)) as (r'' & Hload & Hrest); [zlen_lia..|].
  cbn zeta in Hload, Hrest. rewrite <- Z.add_assoc, <- zlen_app.
  set (av' := clip end_ (offset + zlen (blk ++ bs)) (unread r')) in *.
  assert (take (Z.to_nat (WAL_BLOCK_BYTES - zlen blk)) (bs ++ av') =
          bs ++ take (Z.to_nat (WAL_BLOCK_BYTES - zlen (blk ++ bs))) av') as ->.
  { rewrite take_app. f_equal; [apply take_ge_z; lia|].
    f_equal. rewrite zlen_app. unfold zlen in *. lia. }
  assert (drop (Z.to_nat (WAL_BLOCK_BYTES - zlen blk)) (bs ++ av') =
          drop (Z.to_nat (WAL_BLOCK_BYTES - zlen (blk ++ bs))) av') as ->.
  { rewrite drop_app_ge by (unfold zlen in *; lia).
    f_equal. rewrite zlen_app. unfold zlen in *. lia. }
  exists r''. rewrite app_assoc. done.
Qed.
End Load.

(** ** The simulation relation *)

Section Refine.
Context `{Crc : Crc32cCrate} {R : Type} `{RL : ReadLaws R}.
Implicit Types s : BinaryWalReader R.

(** What the reader has not buffered yet. *)
Definition ahead s : bytes :=
  clip (end_offset s) (block_offset s + block_len s) (unread (reader s)).

(** The reader [s] stands at data position [p] with the bytes [u] left. *)
Record rel s (p : Z) (u : bytes) : Prop := {
  rel_offset : block_offset s + block_pos s = WAL_HDR + p;
  rel_aligned : (block_offset s - WAL_HDR) mod WAL_BLOCK_BYTES = 0;
  rel_pos : 0 ≤ block_pos s ≤ block_len s;
  rel_len : block_len s ≤ WAL_BLOCK_BYTES;
  rel_unread : u = drop (Z.to_nat (block_pos s)) (block s) ++ ahead s;
  rel_loaded : block_loaded s = true → stream_ended s = (block_len s <? WAL_BLOCK_BYTES);
  rel_ended : stream_ended s = true → ahead s = [];
  rel_fresh : block_loaded s = false → block s = [] ∧ stream_ended s = false;
  rel_bytes : Forall is_byte u;
}.

Lemma rel_zlen s p u : rel s p u → block_len s - block_pos s ≤ zlen u.
Proof.
  intros Hr. pose proof (rel_pos _ _ _ Hr). rewrite (rel_unread _ _ _ Hr), zlen_app, zlen_drop by lia.
  pose proof (zlen_nonneg (ahead s)). unfold block_len in *. lia.
Qed.

(** The fields parsing leaves alone. *)
Definition same s s' : Prop :=
  generation s' = generation s ∧ max_record_bytes s' = max_record_bytes s ∧
  chain s' = chain s ∧ finished s' = finished s.

Lemma same_refl s : same s s.
Proof. done. Qed.
Lemma same_trans s1 s2 s3 : same s1 s2 → same s2 s3 → same s1 s3.
Proof. unfold same. intuition congruence. Qed.


Lemma load_next_block_spec s :
  ∃ s', load_next_block s = Ok s' ∧ same s s' ∧ block_loaded s' = true ∧ block_pos s' = 0 ∧
    block_offset s' = block_offset s + block_len s ∧
    block s' = take (Z.to_nat WAL_BLOCK_BYTES) (ahead s) ∧
    ahead s' = drop (Z.to_nat WAL_BLOCK_BYTES) (ahead s) ∧
    stream_ended s' = stream_ended s || (block_len s' <? WAL_BLOCK_BYTES).
Proof.
  unfold load_next_block.
  destruct (load_loop_spec (S (Z.to_nat WAL_BLOCK_BYTES)) (end_offset s)
              (block_offset s + block_len s) (reader s) []) as (r' & Hload & Hrest);
    [rewrite zlen_nil; pose proof block_bytes_pos; lia..|].
  cbn zeta in Hload, Hrest. cbn [app] in Hload, Hrest.
  rewrite zlen_nil, Z.sub_0_r, Z.add_0_r in Hload, Hrest.
  rewrite Hload. cbn [result_bind]. eexists. split; [reflexivity|].
  unfold same, ahead, block_len. cbn. split_and!; try done.
Qed.

(** Loading when the block is consumed keeps the position. *)
Lemma load_next_block_rel s p u :
  rel s p u → block_pos s = block_len s → stream_ended s = false →
  ∃ s', load_next_block s = Ok s' ∧ same s s' ∧ rel s' p u ∧ block_loaded s' = true ∧
    block_pos s' = 0 ∧ stream_ended s' = (block_len s' <? WAL_BLOCK_BYTES).
Proof.
  intros Hr Hend Hst. destruct (load_next_block_spec s)
    as (s' & Hload & Hsame & Hl & Hp & Hoff & Hblk & Hah & Hse).
  assert (u = ahead s) as Hu.
  { rewrite (rel_unread _ _ _ Hr), drop_ge_z; [done|]. unfold block_len in Hend. lia. }
  assert (block_len s' = Z.min WAL_BLOCK_BYTES (zlen u)) as Hlen.
  { unfold block_len. rewrite Hblk, zlen_take, Hu; [done|]. pose proof block_bytes_pos. lia. }
  assert (stream_ended s' = (block_len s' <? WAL_BLOCK_BYTES)) as Hse'.
  { rewrite Hse, Hst. done. }
  exists s'. split_and!; try done.
  pose proof (rel_offset _ _ _ Hr). pose proof (rel_aligned _ _ _ Hr) as Hal.
  pose proof (zlen_nonneg u). pose proof block_bytes_pos.
  constructor.
  - lia.
  - rewrite Hoff. destruct (block_loaded s) eqn:El.
    + pose proof (rel_loaded _ _ _ Hr El) as Hfull. rewrite Hst in Hfull. symmetry in Hfull.
      apply Z.ltb_ge in Hfull. pose proof (rel_len _ _ _ Hr).
      assert (block_len s = 1 * WAL_BLOCK_BYTES) as -> by lia.
      replace (block_offset s + 1 * WAL_BLOCK_BYTES - WAL_HDR)
        with (block_offset s - WAL_HDR + 1 * WAL_BLOCK_BYTES) by lia.
      rewrite Z.mod_add by lia. done.
    + destruct (rel_fresh _ _ _ Hr El) as [Hb _]. unfold block_len. rewrite Hb.
      rewrite zlen_nil, Z.add_0_r. done.
  - lia.
  - lia.
  - rewrite Hp, Hblk, Hah, Hu. by rewrite drop_0, take_drop.
  - done.
  - rewrite Hse'. intros Hlt%Z.ltb_lt. rewrite Hah, <- Hu. apply drop_ge_z. lia.
  - intros Hf. congruence.
  - apply (rel_bytes _ _ _ Hr).
Qed.

(** The reader after the load that precedes every parse: a block is present
    and, unless the stream is over, it has bytes left. *)
Record settled s (p : Z) (u : bytes) : Prop := {
  set_rel : rel s p u;
  set_loaded : block_loaded s = true;
  set_mod : p mod WAL_BLOCK_BYTES = block_pos s;
  set_over : block_pos s = block_len s → stream_ended s = true;
  set_window : take (Z.to_nat (WAL_BLOCK_BYTES - block_pos s)) u =
               drop (Z.to_nat (block_pos s)) (block s);
}.

Lemma settled_intro s p u :
  rel s p u → block_loaded s = true → (block_pos s = block_len s → stream_ended s = true) →
  settled s p u.
Proof.
  intros Hr Hl Hover. pose proof (rel_pos _ _ _ Hr). pose proof (rel_len _ _ _ Hr).
  pose proof (rel_loaded _ _ _ Hr Hl) as Hst. pose proof block_bytes_pos.
  assert (block_pos s < WAL_BLOCK_BYTES) as Hlt.
  { destruct (decide (block_pos s = block_len s)) as [E|]; [|lia].
    rewrite (Hover E) in Hst. symmetry in Hst. apply Z.ltb_lt in Hst. lia. }
  constructor; try done.
  - pose proof (rel_offset _ _ _ Hr). pose proof (rel_aligned _ _ _ Hr) as Hal.
    replace p with (block_pos s + (block_offset s - WAL_HDR)) by lia.
    rewrite <- Z.add_mod_idemp_r, Hal, Z.add_0_r by lia. apply Z.mod_small. lia.
  - rewrite (rel_unread _ _ _ Hr).
    assert (zlen (drop (Z.to_nat (block_pos s)) (block s)) = block_len s - block_pos s) as Hw.
    { rewrite zlen_drop by lia. unfold block_len in *. lia. }
    destruct (Z.ltb_spec (block_len s) WAL_BLOCK_BYTES).
    + rewrite (rel_ended _ _ _ Hr Hst), app_nil_r. apply take_ge_z. lia.
    + apply take_zlen_app. lia.
Qed.

Lemma settle s p u :
  rel s p u →
  ∃ s', (if negb (block_loaded s) || ((block_pos s =? block_len s) && negb (stream_ended s))
         then load_next_block s else Ok s) = Ok s' ∧ same s s' ∧ settled s' p u.
Proof.
  intros Hr.
  assert (∀ s', rel s' p u → block_loaded s' = true → block_pos s' = 0 →
            stream_ended s' = (block_len s' <? WAL_BLOCK_BYTES) → settled s' p u) as Hs'.
  { intros s' Hr' Hl' Hp' Hst'. apply settled_intro; [done..|]. intros E. rewrite Hst'.
    apply Z.ltb_lt. pose proof block_bytes_pos. lia. }
  destruct (block_loaded s) eqn:El; cbn [negb orb].
  - destruct (Z.eqb_spec (block_pos s) (block_len s)) as [E|E]; cbn [andb].
    + destruct (stream_ended s) eqn:Es; cbn [negb].
      * exists s. split_and!; [done|apply same_refl|]. by apply settled_intro.
      * destruct (load_next_block_rel s p u) as (s' & ? & ? & ? & ? & ? & ?); [done..|].
        exists s'. eauto.
    + exists s. split_and!; [done|apply same_refl|]. by apply settled_intro.
  - destruct (rel_fresh _ _ _ Hr El) as [Hb Hst]. pose proof (rel_pos _ _ _ Hr) as Hp.
    assert (block_len s = 0) by (unfold block_len; by rewrite Hb).
    destruct (load_next_block_rel s p u) as (s' & ? & ? & ? & ? & ? & ?); [done|lia|done|].
    exists s'. eauto.
Qed.

(** Advancing inside the block. *)
Lemma rel_advance s p u n :
  rel s p u → block_loaded s = true → 0 ≤ n → block_pos s + n ≤ block_len s →
  rel (set_block_pos s (block_pos s + n)) (p + n) (drop (Z.to_nat n) u).
Proof.
  intros Hr Hl Hn Hle. pose proof (rel_pos _ _ _ Hr).
  constructor; cbn [set_block_pos block_offset block_pos block stream_ended block_loaded].
  - pose proof (rel_offset _ _ _ Hr). lia.
  - apply (rel_aligned _ _ _ Hr).
  - change (block_len (set_block_pos _ _)) with (block_len s). lia.
  - apply (rel_len _ _ _ Hr).
  - rewrite (rel_unread _ _ _ Hr), drop_app_le_z.
    + rewrite drop_drop. change (ahead (set_block_pos _ _)) with (ahead s).
      f_equal. f_equal. lia.
    + rewrite zlen_drop by lia. unfold block_len in *. lia.
  - apply (rel_loaded _ _ _ Hr).
  - apply (rel_ended _ _ _ Hr).
  - intros ?. congruence.
  - apply Forall_drop, (rel_bytes _ _ _ Hr).
Qed.

Definition parse_matches s p u (fp : FragmentParse) s' : Prop :=
  match scan_parse (generation s) (p mod WAL_BLOCK_BYTES) u with
  | SEnd => fp = EndOfStream
  | STorn => ∃ why, fp = Torn why
  | SCorrupt => ∃ why, fp = FragmentCorrupt why
  | SEndOfLog => (∃ why, fp = EndOfLog why) ∧ zlen (ahead s') < zlen u
  | SSkip n => fp = NeedNextBlock ∧ rel s' (p + n) (drop (Z.to_nat n) u) ∧ 0 < n ≤ zlen u
  | SFragment t payload =>
      let payload_start := block_pos s' + WAL_FRAGMENT_HEADER_BYTES in
      fp = Fragment t (payload_start + zlen payload) ∧ rel s' p u ∧ block_loaded s' = true ∧
      zslice (block s') payload_start (payload_start + zlen payload) = payload ∧
      payload_start + zlen payload ≤ block_len s' ∧ fragment_type_valid t = true
  end.

Lemma parse_refines s p u :
  rel s p u →
  ∃ fp s', parse_fragment_at_cursor s = Ok (fp, s') ∧ same s s' ∧ parse_matches s p u fp s'.
Proof.
  intros Hr. destruct (settle s p u Hr) as (s1 & Hset & Hsame & [Hr1 Hl1 Hmod Hover Hwin]).
  unfold parse_fragment_at_cursor. rewrite Hset. cbn [result_bind].
  unfold parse_matches. rewrite Hmod. unfold scan_parse. rewrite Hwin.
  set (w := drop (Z.to_nat (block_pos s1)) (block s1)).
  pose proof (rel_pos _ _ _ Hr1) as Hpos. pose proof (rel_len _ _ _ Hr1) as Hlen.
  assert (zlen w = block_len s1 - block_pos s1) as Hw.
  { unfold w. rewrite zlen_drop by lia. unfold block_len in *. lia. }
  pose proof (rel_unread _ _ _ Hr1) as Hu. fold w in Hu.
  assert (zslice (block s1) (block_pos s1) (block_len s1) = w) as Htrail.
  { apply zslice_to_end; [lia|]. unfold block_len. lia. }
  assert (zlen u = zlen w + zlen (ahead s1)) as Hulen by (rewrite Hu; zlen_lia).
  pose proof (zlen_nonneg (ahead s1)).
  assert (0 < block_len s1 - block_pos s1 → zlen (ahead s1) < zlen u) as Hless by lia.
  destruct (Z.eqb_spec (block_len s1 - block_pos s1) 0) as [E|E].
  { rewrite (Hover ltac:(lia)).
    rewrite (rel_ended _ _ _ Hr1 (Hover ltac:(lia))), zlen_nil in Hulen.
    rewrite (proj2 (Z.eqb_eq (zlen u) 0)) by lia. eauto. }
  rewrite (proj2 (Z.eqb_neq (zlen u) 0)) by lia.
  destruct (Z.ltb_spec (WAL_BLOCK_BYTES - block_pos s1) WAL_FRAGMENT_HEADER_BYTES) as [Hcap|Hcap].
  { rewrite Htrail. destruct (existsb _ w); [eauto 10|].
    destruct (Z.ltb_spec (block_len s1) WAL_BLOCK_BYTES) as [Hb|Hb].
    - rewrite (proj2 (Z.ltb_lt (zlen w) _)) by lia. eauto 10.
    - rewrite (proj2 (Z.ltb_ge (zlen w) _)) by lia.
      eexists _, _. split; [reflexivity|]. split; [exact Hsame|]. split; [done|].
      assert (WAL_BLOCK_BYTES - block_pos s1 = block_len s1 - block_pos s1) as -> by lia.
      split; [|lia].
      replace (set_block_pos s1 (block_len s1))
        with (set_block_pos s1 (block_pos s1 + (block_len s1 - block_pos s1))) by (f_equal; lia).
      apply rel_advance; [done..|lia|lia]. }
  rewrite Hw. destruct (Z.ltb_spec (block_len s1 - block_pos s1) WAL_FRAGMENT_HEADER_BYTES)
    as [Hh|Hh]; [eauto 10|].
  unfold WAL_FRAGMENT_HEADER_BYTES in *.
  assert (∀ x y, 0 ≤ x ≤ y → y ≤ 15 →
    zslice (zslice (block s1) (block_pos s1) (block_pos s1 + 15)) x y = zslice w x y) as Hfield.
  { intros x y Hxy Hy. rewrite zslice_zslice by lia. unfold w. by rewrite zslice_drop by lia. }
  rewrite !Hfield by lia.
  set (dl := le_val (zslice w 4 6)). set (ft := le_val (zslice w 6 7)).
  set (fg := le_val (zslice w 7 15)). set (sc := le_val (zslice w 0 4)).
  destruct ((sc =? 0) && (dl =? 0) && (ft =? 0) && (fg =? 0)); [eauto 10 with lia|].
  destruct (Z.ltb_spec WAL_BLOCK_BYTES (block_pos s1 + 15 + dl)) as [Hov|Hov].
  { rewrite (proj2 (Z.ltb_lt (WAL_BLOCK_BYTES - block_pos s1) _)) by lia. eauto 10. }
  rewrite (proj2 (Z.ltb_ge (WAL_BLOCK_BYTES - block_pos s1) _)) by lia.
  pose proof (rel_loaded _ _ _ Hr1 Hl1) as Hst.
  destruct (Z.ltb_spec (block_len s1) (block_pos s1 + 15 + dl)) as [Hsh|Hsh].
  { rewrite (proj2 (Z.ltb_lt (block_len s1 - block_pos s1) _)) by lia.
    rewrite Hst, (proj2 (Z.ltb_lt _ _)) by lia. eauto 10. }
  rewrite (proj2 (Z.ltb_ge (block_len s1 - block_pos s1) _)) by lia.
  assert (0 ≤ dl) as Hdl.
  { apply le_val_bound, is_byte_zslice. pose proof (rel_bytes _ _ _ Hr1) as HF.
    rewrite Hu, is_byte_app in HF. apply HF. }
  assert (zlen (zslice w 15 (15 + dl)) = dl) as Hpl by (rewrite zlen_zslice by lia; lia).
  assert (zslice (block s1) (block_pos s1 + 15) (block_pos s1 + 15 + dl) =
          zslice w 15 (15 + dl)) as Hpay.
  { unfold w. rewrite zslice_drop by lia. f_equal. lia. }
  rewrite Hpay. destruct (negb (sc =? _)); [eauto 10|].
  destruct (fragment_type_valid ft) eqn:Hft; cbn [negb]; [|eauto 10].
  rewrite (proj1 Hsame).
  destruct (negb (fg =? generation s)); [eauto 10 with lia|].
  eexists _, _. split; [reflexivity|]. split; [done|].
  cbn zeta. unfold WAL_FRAGMENT_HEADER_BYTES. rewrite Hpl, Hpay. split_and!; done || lia.
Qed.

(** Resynchronisation stops: every round that goes on consumes a block. *)
Lemma live_fragment_after_total fuel s :
  zlen (ahead s) < Z.of_nat fuel →
  ∃ b s', live_fragment_after fuel s = Some (Ok (b, s')) ∧ same s s'.
Proof.
  revert s; induction fuel as [|fuel IH]; intros s Hfuel;
    [pose proof (zlen_nonneg (ahead s)); lia|].
  cbn [live_fragment_after].
  destruct (load_next_block_spec s) as (s' & -> & Hsame & _ & _ & _ & Hblk & Hah & _).
  pose proof block_bytes_pos. pose proof (zlen_nonneg (ahead s)).
  assert (block_len s' = Z.min WAL_BLOCK_BYTES (zlen (ahead s))) as Hlen.
  { unfold block_len. rewrite Hblk. apply zlen_take. lia. }
  destruct (Z.eqb_spec (block_len s') 0); [eauto|].
  destruct (_ && _); [eauto|]. destruct (stream_ended s'); [eauto|].
  destruct (IH s') as (b & s'' & Hlive & Hsame').
  { rewrite Hah, zlen_drop by lia. lia. }
  exists b, s''. split; [done|]. by eapply same_trans.
Qed.

Definition event_matches s (r : scan_result)
    (out : Result (BinaryWalReadEvent * BinaryWalReader R)) : Prop :=
  match r with
  | ScRecord payload start_ end_ rest =>
      ∃ s', out = Ok (Record_ payload start_ end_, s') ∧ rel s' (end_ - WAL_HDR) rest ∧
        chain s' = None ∧ finished s' = false ∧ generation s' = generation s ∧
        max_record_bytes s' = max_record_bytes s
  | ScTorn v => ∃ why s', out = Ok (TornTail v why, s') ∧ finished s' = true
  | ScCorrupt => ∃ offset why s', out = Ok (Corrupt offset why, s') ∧ finished s' = true
  | ScLimit => ∃ m args, out = Err (Storage m args)
  | ScEof => ∃ s', out = Ok (Eof, s') ∧ finished s' = true
  end.

Lemma event_matches_same s s' r out :
  generation s' = generation s → max_record_bytes s' = max_record_bytes s →
  event_matches s' r out → event_matches s r out.
Proof. destruct r; cbn; intros Hg Hm; rewrite ?Hg, ?Hm; done. Qed.

Lemma enforce_limit_scan s len :
  (over_limit (max_record_bytes s) len = false ∧ enforce_record_limit s len = Ok ()) ∨
  (over_limit (max_record_bytes s) len = true ∧
   ∃ m args, enforce_record_limit s len = Err (Storage m args)).
Proof.
  unfold over_limit, enforce_record_limit. destruct (max_record_bytes s) as [m|]; [|by left].
  case_bool; [right; eauto|by left].
Qed.

Lemma fragment_type_cases t :
  fragment_type_valid t = true →
  t = FRAGMENT_FULL ∨ t = FRAGMENT_FIRST ∨ t = FRAGMENT_MIDDLE ∨ t = FRAGMENT_LAST.
Proof.
  unfold fragment_type_valid, FRAGMENT_FULL, FRAGMENT_FIRST, FRAGMENT_MIDDLE, FRAGMENT_LAST.
  intros [?%Z.leb_le ?%Z.leb_le]%andb_true_iff. lia.
Qed.

(** The fragment arm of the loop, against the scanner's: either both produce
    an event, or both go on, in related states. *)
Definition fragment_matches s p u (payload : bytes) (r : scan_result + PendingChain)
    (out : Result (BinaryWalReadEvent * BinaryWalReader R + BinaryWalReader R)) : Prop :=
  let n := WAL_FRAGMENT_HEADER_BYTES + zlen payload in
  match r, out with
  | inl r, Ok (inl ev) => event_matches s r (Ok ev)
  | inl r, Err e => event_matches s r (Err e)
  | inr c, Ok (inr s') =>
      rel s' (p + n) (drop (Z.to_nat n) u) ∧ chain s' = Some c ∧ finished s' = false ∧
      generation s' = generation s ∧ max_record_bytes s' = max_record_bytes s
  | _, _ => False
  end.

Lemma on_fragment_refines s p u t payload payload_end :
  rel s p u → block_loaded s = true → finished s = false →
  payload_end = block_pos s + WAL_FRAGMENT_HEADER_BYTES + zlen payload →
  zslice (block s) (block_pos s + WAL_FRAGMENT_HEADER_BYTES) payload_end = payload →
  payload_end ≤ block_len s → fragment_type_valid t = true →
  fragment_matches s p u payload (scan_fragment (max_record_bytes s) p u (chain s) t payload)
    (on_fragment s (WAL_HDR + p) t payload_end).
Proof.
  intros Hr Hl Hfin He Hpay Hle Ht. unfold on_fragment. rewrite Hpay.
  set (n := WAL_FRAGMENT_HEADER_BYTES + zlen payload).
  assert (rel (set_block_pos s payload_end) (p + n) (drop (Z.to_nat n) u)) as Hr'.
  { replace payload_end with (block_pos s + n) by (unfold n; lia).
    pose proof (zlen_nonneg payload).
    apply rel_advance; [done..|unfold n, WAL_FRAGMENT_HEADER_BYTES; lia|unfold n; lia]. }
  assert (block_offset (set_block_pos s payload_end) + payload_end = WAL_HDR + (p + n)) as Hend
    by apply (rel_offset _ _ _ Hr').
  assert (∀ c, rel (set_chain (set_block_pos s payload_end) c) (p + n) (drop (Z.to_nat n) u))
    as Hrc by (intros c; destruct Hr'; by constructor).
  assert (∀ c s0, rel (set_chain s0 c) (p + n) (drop (Z.to_nat n) u) →
    rel (set_chain s0 c) (WAL_HDR + (p + n) - WAL_HDR) (drop (Z.to_nat n) u)) as Hshift.
  { intros c s0. by replace (WAL_HDR + (p + n) - WAL_HDR) with (p + n) by lia. }
  assert (rel (set_block_pos s payload_end) (WAL_HDR + (p + n) - WAL_HDR) (drop (Z.to_nat n) u))
    as Hr'' by (by replace (WAL_HDR + (p + n) - WAL_HDR) with (p + n) by lia).
  cbn [set_block_pos chain block_pos].
  unfold scan_fragment, fragment_matches. fold n. rewrite <- Hend.
  destruct (fragment_type_cases t Ht) as [-> | [-> | [-> | ->]]];
    unfold FRAGMENT_FULL, FRAGMENT_FIRST, FRAGMENT_MIDDLE, FRAGMENT_LAST;
    cbn [Z.eqb Pos.eqb orb]; destruct (chain s) as [c|] eqn:Hc;
    cbn [has_chain negb andb orb result_bind chain_violation chain_payload chain_start_offset];
    try (cbn; by eauto 10).
  all: match goal with
       | |- context [enforce_record_limit ?s0 ?len] =>
           destruct (enforce_limit_scan s0 len) as [[Ho He']|[Ho (m & args & He')]];
           change (max_record_bytes s0) with (max_record_bytes s) in Ho;
           change (zlen ([] ++ payload)) with (zlen payload);
           rewrite Ho, He'; cbn [result_bind fragment_matches]
       end; try (cbn; by eauto 10).
  all: rewrite Hend; cbn [event_matches]; try (eexists; split; [done|]); split_and!; auto.
Qed.

(** The scanner's parse never claims more bytes than there are. *)
Lemma end_of_log_refines fuel s p why :
  zlen (ahead s) < Z.of_nat fuel →
  ∃ out, end_of_log fuel s p why = Some out ∧ event_matches s ScCorrupt out.
Proof.
  intros Hfuel. unfold end_of_log.
  destruct (live_fragment_after_total fuel (set_finished s) Hfuel)
    as (b & s' & -> & _ & _ & _ & Hf).
  destruct b; eexists; (split; [done|]); cbn; eauto 10.
Qed.

(** The reader implements the scanner: with more fuel than unread bytes both
    produce an event, and the same one. *)
Lemma next_event_loop_refines fuel s p u :
  rel s p u → finished s = false → zlen u < Z.of_nat fuel →
  ∃ r out, scan_event fuel (generation s) (max_record_bytes s) p u (chain s) = Some r ∧
    next_event_loop fuel s = Some out ∧ event_matches s r out.
Proof.
  revert s p u; induction fuel as [|fuel IH]; intros s p u Hr Hfin Hfuel;
    [pose proof (zlen_nonneg u); lia|].
  cbn [scan_event next_event_loop]. rewrite (rel_offset _ _ _ Hr).
  destruct (parse_refines s p u Hr) as (fp & s1 & -> & (Hg & Hm & Hc & Hf) & Hmatch).
  unfold parse_matches in Hmatch.
  destruct (scan_parse (generation s) (p mod WAL_BLOCK_BYTES) u) as [t payload| | | |n| ].
  - destruct Hmatch as (-> & Hr1 & Hl1 & Hpay & Hle & Ht).
    pose proof (on_fragment_refines s1 p u t payload _ Hr1 Hl1 ltac:(congruence) eq_refl
                  Hpay Hle Ht) as HF.
    rewrite Hm, Hc in HF. unfold fragment_matches in HF.
    destruct (scan_fragment _ p u (chain s) t payload) as [r|c];
      destruct (on_fragment s1 _ _ _) as [[ev|s2]|e]; try done.
    + exists r. eexists. split_and!; [done..|]. by eapply event_matches_same.
    + exists r. eexists. split_and!; [done..|]. by eapply event_matches_same.
    + destruct HF as (Hr2 & Hc2 & Hf2 & Hg2 & Hm2).
      destruct (IH s2 _ _ Hr2 Hf2) as (r & out & Hscan & Hnext & Hev).
      { pose proof (zlen_nonneg payload). pose proof (rel_zlen _ _ _ Hr1).
        rewrite zlen_drop by (unfold WAL_FRAGMENT_HEADER_BYTES; lia).
        unfold WAL_FRAGMENT_HEADER_BYTES in *. lia. }
      exists r, out. rewrite <- Hc2, <- Hg, <- Hg2, <- Hm, <- Hm2. split_and!; [done..|].
      eapply event_matches_same; [..|exact Hev]; congruence.
  - destruct Hmatch as [[why ->] Hah].
    destruct (end_of_log_refines fuel s1 (WAL_HDR + p) why) as (out & -> & Hev); [lia|].
    eauto using event_matches_same.
  - destruct Hmatch as [why ->]. eexists _, _. split_and!; [done..|]. cbn. eauto 10.
  - destruct Hmatch as [why ->]. eexists _, _. split_and!; [done..|].
    cbn [set_finished chain]. rewrite Hc. cbn. eauto 10.
  - destruct Hmatch as (-> & Hr1 & Hn).
    destruct (IH s1 _ _ Hr1) as (r & out & Hscan & Hnext & Hev);
      [congruence|rewrite zlen_drop by lia; lia|].
    exists r, out. rewrite Hg, Hm, Hc in Hscan. split_and!; [done..|].
    by eapply event_matches_same.
  - subst fp. cbn [set_finished chain]. rewrite Hc.
    destruct (chain s); eexists _, _; (split_and!; [done..|]); cbn; eauto 10.
Qed.

Lemma next_event_refines fuel s p u :
  rel s p u → finished s = false → zlen u < Z.of_nat fuel →
  ∃ r out, scan_event fuel (generation s) (max_record_bytes s) p u (chain s) = Some r ∧
    next_event fuel s = Some out ∧ event_matches s r out.
Proof.
  intros Hr Hf Hfuel. unfold next_event. rewrite Hf. by apply next_event_loop_refines.
Qed.

(** A fresh reader stands at position 0 of the data after the file header. *)
Lemma rel_new r gen limit :
  Forall is_byte (unread r) → rel (BinaryWalReader_new r gen limit) 0 (unread r).
Proof.
  intros HF. constructor; try done; cbn.
  all: unfold block_len, WAL_HDR; cbn [block block_offset]; rewrite ?zlen_nil;
    pose proof block_bytes_pos; try lia.
Qed.
End Refine.
