(* ===== verification/WalLog.v ===== *)
(** The WAL as a log: what a reader recovers from the bytes the writer framed,
    whole or cut at any point (crates/storage/src/wal/frame.rs). *)
From S2P Require Import Prelude Integrity WalFrame WalScan.

(** ** Logs *)

Section Log.
Context `{Crc : Crc32cCrate}.

(** The data bytes after the file header, when the records [payloads] are
    appended one after the other from position [p]: each is framed at the
    current end of the file. *)
Fixpoint log_from (gen p : Z) (payloads : list bytes) : bytes :=
  match payloads with
  | [] => []
  | x :: xs =>
      let f := frame_binary_wal_record gen x p in
      f ++ log_from gen (p + zlen f) xs
  end.

(** Where the fragments of a record appended at [p] start: after the zero
    trailer of a block with no room for a header. *)
Definition record_start (p : Z) : Z :=
  if WAL_BLOCK_BYTES - p mod WAL_BLOCK_BYTES <? WAL_FRAGMENT_HEADER_BYTES
  then p + (WAL_BLOCK_BYTES - p mod WAL_BLOCK_BYTES) else p.

(** The records with the absolute offsets of their first and past-the-last byte. *)
Fixpoint spans_from (gen p : Z) (payloads : list bytes) : list (bytes * Z * Z) :=
  match payloads with
  | [] => []
  | x :: xs =>
      let e := p + zlen (frame_binary_wal_record gen x p) in
      (x, WAL_HDR + record_start p, WAL_HDR + e) :: spans_from gen e xs
  end.
End Log.

(** The events a caller sees that drains the reader: the records, then the
    first event (or error) that is not a record. *)
Section Drain.
Context `{Crc : Crc32cCrate} {R : Type} `{RD : Read R}.

Fixpoint drain (rounds fuel : nat) (s : BinaryWalReader R)
    : option (list (bytes * Z * Z) * Result BinaryWalReadEvent) :=
  match rounds with
  | O => None
  | S rounds =>
      match next_event fuel s with
      | Some (Ok (Record_ payload a b, s')) =>
          match drain rounds fuel s' with
          | Some (rs, ev) => Some ((payload, a, b) :: rs, ev)
          | None => None
          end
      | Some (Ok (ev, _)) => Some ([], Ok ev)
      | Some (Err e) => Some ([], Err e)
      | None => None
      end
  end.
End Drain.

(** ** Fragments *)

Section Fragments.
Context `{Crc : Crc32cCrate}.

Lemma zlen_encode_fragment t gen chunk :
  zlen (encode_fragment t gen chunk) = WAL_FRAGMENT_HEADER_BYTES + zlen chunk.
Proof. unfold encode_fragment, WAL_FRAGMENT_HEADER_BYTES. zlen_lia. Qed.

Lemma masked_crc_u32 t gen chunk : is_u32 (masked_fragment_crc t gen chunk).
Proof. apply Z.mod_pos_bound. lia. Qed.

(** The header fields of a fragment whose payload may be cut short: [tl] is
    any prefix of the payload followed by anything. *)
Lemma header_fields t gen chunk tl :
  is_u64 gen → is_byte t → zlen chunk ≤ u16_max →
  let w := le_bytes 4 (masked_fragment_crc t gen chunk) ++ le_bytes 2 (zlen chunk) ++ [t]
           ++ le_bytes 8 gen ++ tl in
  le_val (zslice w 0 4) = masked_fragment_crc t gen chunk ∧ le_val (zslice w 4 6) = zlen chunk ∧
  le_val (zslice w 6 7) = t ∧ le_val (zslice w 7 15) = gen ∧
  drop (Z.to_nat 15) w = tl ∧ zlen w = 15 + zlen tl.
Proof.
  intros Hg Ht Hl w. pose proof (masked_crc_u32 t gen chunk). pose proof (zlen_nonneg chunk).
  unfold is_u64, is_byte, is_u32, u16_max in *. subst w. split_and!.
  - rewrite zslice_app_front by (by rewrite zlen_le_bytes). by apply le_val_bytes_small.
  - rewrite zslice_app_mid by (rewrite ?zlen_le_bytes; done). apply le_val_bytes_small.
    change (256 ^ Z.of_nat 2) with 65536. lia.
  - rewrite (app_assoc (le_bytes 4 _)), zslice_app_mid by (by rewrite ?zlen_app, ?zlen_le_bytes).
    simpl. lia.
  - rewrite !(app_assoc (le_bytes 4 _)), (app_assoc _ [t]).
    rewrite zslice_app_mid by (by rewrite ?zlen_app, ?zlen_le_bytes).
    by apply le_val_bytes_small.
  - rewrite !(app_assoc (le_bytes 4 _)), (app_assoc _ [t]), (app_assoc _ (le_bytes 8 _)).
    apply drop_zlen_app. by rewrite ?zlen_app, ?zlen_le_bytes.
  - zlen_lia.
Qed.

Lemma fragment_type_valid_byte t : fragment_type_valid t = true → is_byte t ∧ t ≠ 0.
Proof.
  unfold fragment_type_valid, FRAGMENT_FULL, FRAGMENT_LAST, is_byte.
  intros [?%Z.leb_le ?%Z.leb_le]%andb_true_iff. lia.
Qed.

Lemma not_all_zero t a b c : t ≠ 0 → (a =? 0) && (b =? 0) && (t =? 0) && (c =? 0) = false.
Proof.
  intros Ht. rewrite (proj2 (Z.eqb_neq t 0) Ht), andb_false_r. done.
Qed.

(** The window of a block over a fragment and what follows it. *)
Lemma window_fragment q t gen chunk rest :
  q + WAL_FRAGMENT_HEADER_BYTES + zlen chunk ≤ WAL_BLOCK_BYTES →
  ∃ tl, take (Z.to_nat (WAL_BLOCK_BYTES - q)) (encode_fragment t gen chunk ++ rest) =
        encode_fragment t gen chunk ++ tl.
Proof.
  intros Hq. exists (take (Z.to_nat (WAL_BLOCK_BYTES - q) - length (encode_fragment t gen chunk)) rest).
  rewrite take_app. f_equal. apply take_ge_z. rewrite zlen_encode_fragment. lia.
Qed.

(** A whole fragment: read back under its own generation, the end of the log
    under any other. *)
Lemma scan_parse_encoded want gen q t chunk rest :
  is_u64 gen → fragment_type_valid t = true → 0 ≤ q →
  q + WAL_FRAGMENT_HEADER_BYTES + zlen chunk ≤ WAL_BLOCK_BYTES →
  scan_parse want q (encode_fragment t gen chunk ++ rest) =
    if gen =? want then SFragment t chunk else SEndOfLog.
Proof.
  intros Hg Ht Hq Hfit. destruct (fragment_type_valid_byte t Ht) as [Htb Ht0].
  pose proof (zlen_nonneg chunk). pose proof (zlen_nonneg rest).
  pose proof block_bytes_value. unfold scan_parse.
  destruct (window_fragment q t gen chunk rest Hfit) as (tl & ->).
  unfold WAL_FRAGMENT_HEADER_BYTES in *. pose proof (zlen_nonneg tl).
  destruct (header_fields t gen chunk (chunk ++ tl)) as (Hcrc & Hdl & Hft & Hfg & Hdrop & Hw);
    [done..|unfold u16_max; lia|].
  rewrite (proj2 (Z.eqb_neq (zlen (_ ++ rest)) 0))
    by (rewrite zlen_app, zlen_encode_fragment; unfold WAL_FRAGMENT_HEADER_BYTES; lia).
  rewrite (proj2 (Z.ltb_ge _ 15)) by lia.
  assert (encode_fragment t gen chunk ++ tl =
    le_bytes 4 (masked_fragment_crc t gen chunk) ++ le_bytes 2 (zlen chunk) ++ [t]
    ++ le_bytes 8 gen ++ chunk ++ tl) as ->
    by (unfold encode_fragment; by rewrite <- !app_assoc).
  rewrite Hw, Hcrc, Hdl, Hft, Hfg. rewrite zlen_app.
  rewrite (proj2 (Z.ltb_ge _ 15)) by lia. rewrite not_all_zero by done.
  rewrite (proj2 (Z.ltb_ge _ (15 + zlen chunk))) by lia.
  rewrite (proj2 (Z.ltb_ge _ (15 + zlen chunk))) by lia.
  assert (∀ w, drop (Z.to_nat 15) w = chunk ++ tl → zslice w 15 (15 + zlen chunk) = chunk) as Hsl.
  { intros w Hdw. unfold zslice. rewrite Hdw. apply take_zlen_app. lia. }
  rewrite (Hsl _ Hdrop), Z.eqb_refl, Ht. by destruct (gen =? want).
Qed.

Lemma scan_parse_fragment gen q t chunk rest :
  is_u64 gen → fragment_type_valid t = true → 0 ≤ q →
  q + WAL_FRAGMENT_HEADER_BYTES + zlen chunk ≤ WAL_BLOCK_BYTES →
  scan_parse gen q (encode_fragment t gen chunk ++ rest) = SFragment t chunk.
Proof. intros. by rewrite scan_parse_encoded, Z.eqb_refl. Qed.

Lemma scan_parse_torn gen q t chunk k :
  is_u64 gen → fragment_type_valid t = true → 0 ≤ q →
  q + WAL_FRAGMENT_HEADER_BYTES + zlen chunk ≤ WAL_BLOCK_BYTES →
  0 < k < WAL_FRAGMENT_HEADER_BYTES + zlen chunk →
  scan_parse gen q (take (Z.to_nat k) (encode_fragment t gen chunk)) = STorn.
Proof.
  intros Hg Ht Hq Hfit Hk. destruct (fragment_type_valid_byte t Ht) as [Htb Ht0].
  pose proof (zlen_nonneg chunk). pose proof block_bytes_value.
  unfold scan_parse, WAL_FRAGMENT_HEADER_BYTES in *.
  assert (zlen (take (Z.to_nat k) (encode_fragment t gen chunk)) = k) as Hklen.
  { rewrite zlen_take, zlen_encode_fragment by lia. unfold WAL_FRAGMENT_HEADER_BYTES. lia. }
  rewrite (take_ge_z _ (WAL_BLOCK_BYTES - q)) by lia. rewrite Hklen.
  rewrite (proj2 (Z.eqb_neq k 0)), (proj2 (Z.ltb_ge _ 15)) by lia.
  destruct (Z.ltb_spec k 15); [done|].
  destruct (header_fields t gen chunk (take (Z.to_nat (k - 15)) chunk))
    as (Hcrc & Hdl & Hft & Hfg & _ & _); [done..|unfold u16_max; lia|].
  assert (take (Z.to_nat k) (encode_fragment t gen chunk) =
    le_bytes 4 (masked_fragment_crc t gen chunk) ++ le_bytes 2 (zlen chunk) ++ [t]
    ++ le_bytes 8 gen ++ take (Z.to_nat (k - 15)) chunk) as ->.
  { unfold encode_fragment. rewrite !(app_assoc (le_bytes 4 _)), !(app_assoc _ [t]).
    rewrite !(app_assoc _ (le_bytes 8 gen)). rewrite take_app. f_equal.
    - apply take_ge. rewrite !length_app, !length_le_bytes. simpl. lia.
    - f_equal. rewrite !length_app, !length_le_bytes. simpl. lia. }
  rewrite Hcrc, Hdl, Hft, Hfg, not_all_zero by done.
  rewrite (proj2 (Z.ltb_ge (WAL_BLOCK_BYTES - q) _)) by lia.
  rewrite (proj2 (Z.ltb_lt k _)) by lia. done.
Qed.

Lemma existsb_zeros n : existsb (λ byte, negb (byte =? 0)) (zeros n) = false.
Proof. unfold zeros. induction (Z.to_nat n); simpl; done. Qed.

(** The zero trailer of a block. *)
Lemma scan_parse_trailer gen q rest :
  0 ≤ q < WAL_BLOCK_BYTES → WAL_BLOCK_BYTES - q < WAL_FRAGMENT_HEADER_BYTES →
  scan_parse gen q (zeros (WAL_BLOCK_BYTES - q) ++ rest) = SSkip (WAL_BLOCK_BYTES - q).
Proof.
  intros Hq Hcap. unfold scan_parse. pose proof (zlen_nonneg rest).
  rewrite take_zlen_app by (rewrite zlen_zeros; lia).
  rewrite zlen_app, zlen_zeros, (proj2 (Z.eqb_neq _ 0)), (proj2 (Z.ltb_lt _ _)) by lia.
  by rewrite existsb_zeros, Z.ltb_irrefl.
Qed.

Lemma take_zeros n k : 0 ≤ k ≤ n → take (Z.to_nat k) (zeros n) = zeros k.
Proof. intros. unfold zeros. rewrite take_replicate. f_equal. lia. Qed.

Lemma scan_parse_trailer_torn gen q k :
  0 ≤ q < WAL_BLOCK_BYTES → WAL_BLOCK_BYTES - q < WAL_FRAGMENT_HEADER_BYTES →
  0 < k < WAL_BLOCK_BYTES - q → scan_parse gen q (zeros k) = STorn.
Proof.
  intros Hq Hcap Hk. unfold scan_parse.
  rewrite take_ge_z by (rewrite zlen_zeros; lia).
  rewrite zlen_zeros, (proj2 (Z.eqb_neq _ 0)), (proj2 (Z.ltb_lt _ _)), existsb_zeros by lia.
  by rewrite (proj2 (Z.ltb_lt k _)) by lia.
Qed.

Lemma scan_parse_end gen q : scan_parse gen q [] = SEnd.
Proof. done. Qed.
End Fragments.

(** ** Records *)

Section Records.
Context `{Crc : Crc32cCrate}.

(** The shape of a framed payload: every fragment but the last fills its block. *)
Inductive framed (gen : Z) : bytes → bool → Z → bytes → Prop :=
  | framed_last rem first bp :
      zlen rem ≤ WAL_BLOCK_BYTES - bp - WAL_FRAGMENT_HEADER_BYTES →
      framed gen rem first bp (encode_fragment (fragment_type_of first true) gen rem)
  | framed_more chunk rest first bp out :
      zlen chunk = WAL_BLOCK_BYTES - bp - WAL_FRAGMENT_HEADER_BYTES → rest ≠ [] →
      framed gen rest false 0 out →
      framed gen (chunk ++ rest) first bp
        (encode_fragment (fragment_type_of first false) gen chunk ++ out).

Lemma frame_loop_framed fuel gen rem first bp :
  0 ≤ bp ≤ WAL_BLOCK_BYTES - WAL_FRAGMENT_HEADER_BYTES → (first = false → bp = 0) →
  (length rem + (if first then 2 else 1) ≤ fuel)%nat →
  framed gen rem first bp (frame_loop fuel gen rem first bp).
Proof.
  revert rem first bp; induction fuel as [|fuel IH]; intros rem first bp Hbp Hfirst Hfuel;
    [destruct first; lia|].
  cbn [frame_loop]. pose proof (zlen_nonneg rem). pose proof block_bytes_value.
  set (avail := WAL_BLOCK_BYTES - bp - WAL_FRAGMENT_HEADER_BYTES).
  destruct (Z.le_gt_cases (zlen rem) avail) as [Hle|Hgt].
  - rewrite Z.min_r, take_ge_z, drop_ge_z, app_nil_r by lia. by apply framed_last.
  - rewrite Z.min_l by lia.
    assert (zlen (take (Z.to_nat avail) rem) = avail) as Ht
      by (rewrite zlen_take by (unfold avail; lia); lia).
    assert (zlen (drop (Z.to_nat avail) rem) = zlen rem - avail) as Hd
      by (rewrite zlen_drop by (unfold avail; lia); lia).
    destruct (drop (Z.to_nat avail) rem) as [|b rest] eqn:Edrop; [rewrite zlen_nil in Hd; lia|].
    rewrite <- Edrop in *. rewrite <- (take_drop_z rem avail) at 1.
    apply framed_more; [done|by rewrite Edrop|]. apply IH; [lia|done|].
    rewrite length_drop. unfold zlen, avail, WAL_FRAGMENT_HEADER_BYTES in *.
    destruct first; [|specialize (Hfirst eq_refl)]; lia.
Qed.

Definition chain_acc (c : option PendingChain) : bytes :=
  match c with Some c => chain_payload c | None => [] end.
Definition chain_start (c : option PendingChain) (p : Z) : Z :=
  match c with Some c => chain_start_offset c | None => WAL_HDR + p end.

Lemma over_limit_mono limit a b : a ≤ b → over_limit limit b = false → over_limit limit a = false.
Proof. destruct limit; cbn; [|done]. intros ? ?%Z.ltb_ge. apply Z.ltb_ge. lia. Qed.

Lemma fragment_type_of_valid first last : fragment_type_valid (fragment_type_of first last) = true.
Proof. by destruct first, last. Qed.

(** A fragment of a chain that the writer produced fits the chain the reader
    has open. *)
Lemma scan_fragment_of limit p u c last payload :
  over_limit limit (zlen (chain_acc c ++ payload)) = false →
  scan_fragment limit p u c (fragment_type_of (negb (has_chain c)) last) payload =
  let n := WAL_FRAGMENT_HEADER_BYTES + zlen payload in
  if last
  then inl (ScRecord (chain_acc c ++ payload) (chain_start c p) (WAL_HDR + (p + n))
              (drop (Z.to_nat n) u))
  else inr {| chain_start_offset := chain_start c p; chain_payload := chain_acc c ++ payload |}.
Proof.
  intros Hlim. unfold scan_fragment, chain_acc, chain_start in *.
  destruct c as [c|], last; cbn in *; rewrite Hlim; done.
Qed.

Lemma block_end_mod p bp :
  p mod WAL_BLOCK_BYTES = bp → (p + (WAL_BLOCK_BYTES - bp)) mod WAL_BLOCK_BYTES = 0.
Proof.
  intros <-. pose proof block_bytes_pos.
  rewrite Z.add_sub_assoc, Zminus_mod_idemp_r. replace (p + WAL_BLOCK_BYTES - p) with (1 * WAL_BLOCK_BYTES) by lia.
  apply Z.mod_mul. lia.
Qed.

(** Reading back a framed payload, in the middle of a chain or not. *)
Lemma scan_framed gen limit rem first bp out :
  framed gen rem first bp out → is_u64 gen →
  ∀ p c rest fuel,
    p mod WAL_BLOCK_BYTES = bp → bp + WAL_FRAGMENT_HEADER_BYTES ≤ WAL_BLOCK_BYTES →
    first = negb (has_chain c) → over_limit limit (zlen (chain_acc c ++ rem)) = false →
    zlen (out ++ rest) < Z.of_nat fuel →
    scan_event fuel gen limit p (out ++ rest) c =
      Some (ScRecord (chain_acc c ++ rem) (chain_start c p) (WAL_HDR + (p + zlen out)) rest).
Proof.
  intros HF Hg. pose proof block_bytes_value as Hblk.
  induction HF as [rem first bp Hle | chunk rem first bp out Hlen Hne HF IH];
    intros p c rest fuel Hp Hbp Hfirst Hlim Hfuel;
    (assert (0 ≤ bp) by (rewrite <- Hp; apply Z.mod_pos_bound; lia));
    (destruct fuel as [|fuel];
      [exfalso; revert Hfuel; match goal with |- zlen ?l < _ → _ => pose proof (zlen_nonneg l) end; lia|]);
    cbn [scan_event]; rewrite Hp, <- ?app_assoc.
  - rewrite scan_parse_fragment by (done || apply fragment_type_of_valid || lia).
    rewrite Hfirst, scan_fragment_of by done. cbn zeta iota.
    rewrite drop_zlen_app by (by rewrite zlen_encode_fragment).
    by rewrite zlen_encode_fragment.
  - rewrite scan_parse_fragment by (done || apply fragment_type_of_valid || lia).
    rewrite Hfirst, scan_fragment_of.
    2: { eapply over_limit_mono; [|exact Hlim]. zlen_lia. }
    cbn zeta iota. rewrite drop_zlen_app by (by rewrite zlen_encode_fragment).
    rewrite IH; cbn [chain_acc chain_start chain_payload chain_start_offset has_chain].
    + rewrite <- app_assoc, !zlen_app, zlen_encode_fragment. do 2 f_equal. lia.
    + replace (p + (WAL_FRAGMENT_HEADER_BYTES + zlen chunk)) with (p + (WAL_BLOCK_BYTES - bp)) by lia.
      by apply block_end_mod.
    + unfold WAL_FRAGMENT_HEADER_BYTES. lia.
    + done.
    + by rewrite <- app_assoc.
    + rewrite <- app_assoc, zlen_app, zlen_encode_fragment in Hfuel.
      pose proof (zlen_nonneg chunk). unfold WAL_FRAGMENT_HEADER_BYTES in Hfuel. lia.
Qed.

(** A framed payload cut before its end is a torn tail at the start of its
    chain; nothing of it is the end of the file when no chain is open. *)
Lemma scan_framed_torn gen limit rem first bp out :
  framed gen rem first bp out → is_u64 gen →
  ∀ p c k fuel,
    p mod WAL_BLOCK_BYTES = bp → bp + WAL_FRAGMENT_HEADER_BYTES ≤ WAL_BLOCK_BYTES →
    first = negb (has_chain c) → over_limit limit (zlen (chain_acc c ++ rem)) = false →
    0 ≤ k < zlen out → k < Z.of_nat fuel →
    scan_event fuel gen limit p (take (Z.to_nat k) out) c =
      Some (if (k =? 0) && first then ScEof else ScTorn (chain_start c p)).
Proof.
  intros HF Hg. pose proof block_bytes_value as Hblk.
  induction HF as [rem first bp Hle | chunk rem first bp out Hlen Hne HF IH];
    intros p c k fuel Hp Hbp Hfirst Hlim Hk Hfuel;
    (assert (0 ≤ bp) by (rewrite <- Hp; apply Z.mod_pos_bound; lia));
    (destruct fuel as [|fuel]; [lia|]); cbn [scan_event]; rewrite Hp.
  all: rewrite ?zlen_app, zlen_encode_fragment in Hk.
  all: destruct (Z.eqb_spec k 0) as [-> | Hk0];
    [change (Z.to_nat 0) with 0%nat; rewrite take_0, scan_parse_end; subst first;
     by destruct c|]; cbn [andb].
  - by rewrite scan_parse_torn by (done || apply fragment_type_of_valid || lia).
  - destruct (Z.lt_ge_cases k (WAL_FRAGMENT_HEADER_BYTES + zlen chunk)) as [Hlt|Hge].
    { rewrite take_app_le_z by (rewrite zlen_encode_fragment; lia).
      by rewrite scan_parse_torn by (done || apply fragment_type_of_valid || lia). }
    rewrite take_app, take_ge_z by (rewrite zlen_encode_fragment; lia).
    rewrite scan_parse_fragment by (done || apply fragment_type_of_valid || lia).
    rewrite Hfirst, scan_fragment_of.
    2: { eapply over_limit_mono; [|exact Hlim]. zlen_lia. }
    cbn zeta iota. rewrite drop_zlen_app by (by rewrite zlen_encode_fragment).
    set (n := WAL_FRAGMENT_HEADER_BYTES + zlen chunk) in *.
    assert ((Z.to_nat k - length (encode_fragment (fragment_type_of (negb (has_chain c)) false) gen chunk))%nat = Z.to_nat (k - n)) as ->.
    { pose proof (zlen_encode_fragment (fragment_type_of (negb (has_chain c)) false) gen chunk).
      unfold zlen in *. lia. }
    pose proof (zlen_nonneg chunk).
    rewrite IH; cbn [chain_acc chain_start chain_payload chain_start_offset has_chain].
    + by rewrite andb_false_r.
    + replace (p + n) with (p + (WAL_BLOCK_BYTES - bp)) by lia. by apply block_end_mod.
    + unfold WAL_FRAGMENT_HEADER_BYTES. lia.
    + done.
    + by rewrite <- app_assoc.
    + lia.
    + unfold n, WAL_FRAGMENT_HEADER_BYTES in *. lia.
Qed.

Lemma framed_bytes gen rem first bp out :
  framed gen rem first bp out → Forall is_byte rem → Forall is_byte out.
Proof.
  assert (∀ f l chunk, Forall is_byte chunk →
            Forall is_byte (encode_fragment (fragment_type_of f l) gen chunk)) as Henc.
  { intros f l chunk Hc. unfold encode_fragment. rewrite !is_byte_app.
    split_and!; auto using is_byte_le_bytes.
    constructor; [|done]. apply (fragment_type_valid_byte _ (fragment_type_of_valid f l)). }
  induction 1; rewrite ?is_byte_app; intuition.
Qed.

Lemma framed_zlen gen rem first bp out :
  framed gen rem first bp out → WAL_FRAGMENT_HEADER_BYTES + zlen rem ≤ zlen out.
Proof.
  induction 1; rewrite ?zlen_app, ?zlen_encode_fragment in *;
    unfold WAL_FRAGMENT_HEADER_BYTES in *; lia.
Qed.

(** The trailer the writer skips at position [p]. *)
Lemma record_start_spec p :
  let pad := record_start p - p in
  0 ≤ pad < WAL_FRAGMENT_HEADER_BYTES ∧
  record_start p mod WAL_BLOCK_BYTES + WAL_FRAGMENT_HEADER_BYTES ≤ WAL_BLOCK_BYTES ∧
  (pad = 0 ∨ pad = WAL_BLOCK_BYTES - p mod WAL_BLOCK_BYTES).
Proof.
  cbn zeta. unfold record_start. pose proof block_bytes_value. pose proof block_bytes_pos.
  pose proof (Z.mod_pos_bound p WAL_BLOCK_BYTES ltac:(lia)).
  destruct (Z.ltb_spec (WAL_BLOCK_BYTES - p mod WAL_BLOCK_BYTES) WAL_FRAGMENT_HEADER_BYTES).
  - rewrite block_end_mod by done. unfold WAL_FRAGMENT_HEADER_BYTES in *. lia.
  - unfold WAL_FRAGMENT_HEADER_BYTES in *. lia.
Qed.

Lemma record_start_idem p : record_start (record_start p) = record_start p.
Proof.
  destruct (record_start_spec p) as (_ & Hroom & _). unfold record_start at 1.
  by rewrite (proj2 (Z.ltb_ge _ _)) by lia.
Qed.

Lemma frame_record_shape gen x p :
  ∃ out, framed gen x true (record_start p mod WAL_BLOCK_BYTES) out ∧
    frame_binary_wal_record gen x p = zeros (record_start p - p) ++ out ∧
    frame_binary_wal_record gen x (record_start p) = out.
Proof.
  pose proof block_bytes_pos. pose proof (record_start_spec p) as (Hpad & Hroom & _).
  pose proof (Z.mod_pos_bound (record_start p) WAL_BLOCK_BYTES ltac:(lia)).
  exists (frame_loop (S (S (length x))) gen x true (record_start p mod WAL_BLOCK_BYTES)).
  split_and!.
  - apply frame_loop_framed; [lia|done|lia].
  - unfold frame_binary_wal_record, record_start. case_bool.
    + rewrite block_end_mod by done. f_equal. f_equal. lia.
    + by rewrite Z.sub_diag.
  - unfold frame_binary_wal_record. by rewrite (proj2 (Z.ltb_ge _ _)) by lia.
Qed.
End Records.

(** ** Scanning a log, whole or cut *)

Section ScanLog.
Context `{Crc : Crc32cCrate} (gen : Z) (limit : option Z) (Hgen : is_u64 gen).

(** The skip of a block trailer by the scanner. *)
Lemma scan_skip p pad rest fuel :
  record_start p = p + pad → 0 < pad → (0 < fuel)%nat →
  scan_event fuel gen limit p (zeros pad ++ rest) None =
  scan_event (pred fuel) gen limit (p + pad) rest None.
Proof.
  intros Hpad Hpos Hfuel. destruct (record_start_spec p) as (Hb & _ & Hor).
  destruct fuel as [|fuel]; [lia|]. cbn [scan_event pred].
  pose proof (Z.mod_pos_bound p WAL_BLOCK_BYTES block_bytes_pos).
  assert (pad = WAL_BLOCK_BYTES - p mod WAL_BLOCK_BYTES) as -> by lia.
  rewrite scan_parse_trailer by lia.
  rewrite drop_zlen_app by (rewrite zlen_zeros; lia). done.
Qed.

Lemma scan_record p x rest fuel :
  over_limit limit (zlen x) = false →
  zlen (frame_binary_wal_record gen x p ++ rest) < Z.of_nat fuel →
  scan_event fuel gen limit p (frame_binary_wal_record gen x p ++ rest) None =
    Some (ScRecord x (WAL_HDR + record_start p)
            (WAL_HDR + (p + zlen (frame_binary_wal_record gen x p))) rest).
Proof.
  intros Hlim. destruct (frame_record_shape gen x p) as (out & HF & -> & _).
  destruct (record_start_spec p) as (Hpad & Hroom & _).
  rewrite <- app_assoc, !zlen_app, zlen_zeros by lia. intros Hfuel.
  pose proof (zlen_nonneg out). pose proof (zlen_nonneg rest).
  assert (∀ fuel, zlen (out ++ rest) < Z.of_nat fuel →
    scan_event fuel gen limit (record_start p) (out ++ rest) None =
    Some (ScRecord x (WAL_HDR + record_start p) (WAL_HDR + (record_start p + zlen out)) rest)) as Hev.
  { intros f Hf. by apply (scan_framed gen limit x true _ out HF Hgen _ None). }
  rewrite zlen_app in Hev.
  destruct (decide (record_start p = p)) as [E|E].
  - rewrite E, Z.sub_diag in *. cbn [zeros app replicate]. rewrite Hev by lia. done.
  - rewrite scan_skip by lia. rewrite Z.add_sub_assoc, Z.add_comm, Z.add_simpl_r.
    rewrite Hev by lia. do 3 f_equal. lia.
Qed.

(** What a cut inside a record leaves: the end of the file at a record
    boundary (before or after the trailer), or a torn tail to cut away. *)
Lemma scan_record_torn p x k fuel :
  over_limit limit (zlen x) = false →
  0 ≤ k < zlen (frame_binary_wal_record gen x p) → k < Z.of_nat fuel →
  let v := if k <? record_start p - p then p else record_start p in
  scan_event fuel gen limit p (take (Z.to_nat k) (frame_binary_wal_record gen x p)) None =
    Some (if (k =? 0) || (k =? record_start p - p) then ScEof else ScTorn (WAL_HDR + v)).
Proof.
  intros Hlim. destruct (frame_record_shape gen x p) as (out & HF & -> & _).
  destruct (record_start_spec p) as (Hpad & Hroom & Hor). cbn zeta.
  set (pad := record_start p - p) in *. rewrite zlen_app, zlen_zeros by lia. intros Hk Hfuel.
  pose proof (Z.mod_pos_bound p WAL_BLOCK_BYTES block_bytes_pos).
  assert (∀ k fuel, 0 ≤ k < zlen out → k < Z.of_nat fuel →
    scan_event fuel gen limit (record_start p) (take (Z.to_nat k) out) None =
    Some (if (k =? 0) && true then ScEof else ScTorn (WAL_HDR + record_start p))) as Hev.
  { intros k' f Hk' Hf. by apply (scan_framed_torn gen limit x true _ out HF Hgen _ None). }
  setoid_rewrite andb_true_r in Hev.
  destruct (decide (pad = 0)) as [E|E].
  { assert (record_start p = p) as Hrs by lia. clear HF. rewrite E, Hrs in *.
    change (zeros 0 ++ out) with out.
    rewrite Hev by lia. rewrite orb_diag. by destruct (k <? 0). }
  destruct (Z.lt_ge_cases k pad) as [Hlt|Hge].
  - rewrite take_app_le_z, take_zeros by (rewrite ?zlen_zeros; lia).
    rewrite (proj2 (Z.eqb_neq k pad)), orb_false_r, (proj2 (Z.ltb_lt k pad)) by lia.
    destruct fuel as [|fuel]; [lia|]. cbn [scan_event].
    destruct (Z.eqb_spec k 0) as [-> | ]; [done|].
    by rewrite scan_parse_trailer_torn by lia.
  - rewrite take_app, take_ge_z by (rewrite zlen_zeros; lia).
    rewrite scan_skip by lia. replace (p + pad) with (record_start p) by lia.
    unfold zeros at 1. rewrite length_replicate, <- Z2Nat.inj_sub by lia.
    rewrite Hev by lia. rewrite (proj2 (Z.eqb_neq k 0)), (proj2 (Z.ltb_ge k pad)) by lia.
    cbn [orb]. repeat case_bool; done || lia.
Qed.

Lemma frame_record_zlen x p :
  record_start p - p + WAL_FRAGMENT_HEADER_BYTES + zlen x ≤
  zlen (frame_binary_wal_record gen x p).
Proof.
  destruct (frame_record_shape gen x p) as (out & HF & -> & _).
  destruct (record_start_spec p) as (Hpad & _). pose proof (framed_zlen _ _ _ _ _ HF).
  rewrite zlen_app, zlen_zeros by lia. lia.
Qed.

Lemma frame_record_bytes x p :
  Forall is_byte x → Forall is_byte (frame_binary_wal_record gen x p).
Proof.
  intros Hx. destruct (frame_record_shape gen x p) as (out & HF & -> & _).
  apply is_byte_app. eauto using framed_bytes, is_byte_zeros.
Qed.

Lemma log_from_bytes payloads p :
  Forall (Forall is_byte) payloads → Forall is_byte (log_from gen p payloads).
Proof.
  intros HF. revert p. induction HF; intros p; cbn; [done|].
  apply is_byte_app. auto using frame_record_bytes.
Qed.

Lemma log_from_app xs ys p :
  log_from gen p (xs ++ ys) = log_from gen p xs ++ log_from gen (p + zlen (log_from gen p xs)) ys.
Proof.
  revert p; induction xs as [|x xs IH]; intros p; cbn; [by rewrite zlen_nil, Z.add_0_r|].
  rewrite IH, zlen_app, <- app_assoc. do 3 f_equal. lia.
Qed.

Lemma spans_from_ends payloads p r :
  r ∈ spans_from gen p payloads → WAL_HDR + p + WAL_FRAGMENT_HEADER_BYTES ≤ r.2.
Proof.
  revert p; induction payloads as [|x xs IH]; intros p; cbn; [intros []%elem_of_nil|].
  pose proof (frame_record_zlen x p). pose proof (zlen_nonneg x).
  destruct (record_start_spec p) as (Hpad & _). unfold WAL_FRAGMENT_HEADER_BYTES in *.
  intros [-> | Hin]%elem_of_cons; cbn; [lia|].
  specialize (IH _ Hin). lia.
Qed.
End ScanLog.

(** ** Draining a reader over a cut log *)

(** The data position where a writer resumes after recovery: a torn tail is
    cut at [valid_prefix_len], a clean end at the [len] bytes of data. *)
Definition resume_position (ev : BinaryWalReadEvent) (len : Z) : Z :=
  match ev with TornTail v _ => v - WAL_HDR | _ => len end.

Definition clean_or_torn (ev : BinaryWalReadEvent) : Prop :=
  ev = Eof ∨ ∃ v why, ev = TornTail v why.

(** The records that end within the first [len] bytes of data. *)
Definition spans_within (len : Z) (spans : list (bytes * Z * Z)) : list (bytes * Z * Z) :=
  filter (λ r, r.2 ≤ WAL_HDR + len) spans.

Section DrainLog.
Context `{Crc : Crc32cCrate} {R : Type} `{RL : ReadLaws R}.
Context (gen : Z) (limit : option Z) (Hgen : is_u64 gen).
Implicit Types s : BinaryWalReader R.

Record at_record s (p : Z) (u : bytes) : Prop := {
  ar_rel : rel s p u;
  ar_finished : finished s = false;
  ar_chain : chain s = None;
  ar_generation : generation s = gen;
  ar_limit : max_record_bytes s = limit;
}.

Lemma drain_record s p x rest rounds fuel :
  at_record s p (frame_binary_wal_record gen x p ++ rest) →
  over_limit limit (zlen x) = false →
  zlen (frame_binary_wal_record gen x p ++ rest) < Z.of_nat fuel →
  let e := p + zlen (frame_binary_wal_record gen x p) in
  ∃ s', at_record s' e rest ∧
    drain (S rounds) fuel s =
      match drain rounds fuel s' with
      | Some (rs, ev) => Some ((x, WAL_HDR + record_start p, WAL_HDR + e) :: rs, ev)
      | None => None
      end.
Proof.
  intros [Hr Hf Hc Hg Hm] Hlim Hfuel. cbn zeta. cbn [drain].
  destruct (next_event_refines fuel s _ _ Hr Hf Hfuel) as (r & out & Hscan & -> & Hev).
  rewrite Hg, Hm, Hc, (scan_record gen limit Hgen) in Hscan by done. simplify_eq.
  destruct Hev as (s' & -> & Hr' & Hc' & Hf' & Hg' & Hm').
  rewrite Z.add_simpl_l in Hr'.
  exists s'. split; [|done]. by constructor; try congruence.
Qed.

(** A reader that stops without a record. *)
Lemma drain_stop s p u r rounds fuel :
  at_record s p u → zlen u < Z.of_nat fuel → scan_event fuel gen limit p u None = Some r →
  (r = ScEof → drain (S rounds) fuel s = Some ([], Ok Eof)) ∧
  (∀ v, r = ScTorn v → ∃ why, drain (S rounds) fuel s = Some ([], Ok (TornTail v why))).
Proof.
  intros [Hr Hf Hc Hg Hm] Hfuel Hr'. cbn [drain].
  destruct (next_event_refines fuel s _ _ Hr Hf Hfuel) as (r'' & out & Hscan & -> & Hev).
  rewrite Hg, Hm, Hc, Hr' in Hscan. simplify_eq. split.
  - intros ->. destruct Hev as (s' & -> & _). done.
  - intros v ->. destruct Hev as (why & s' & -> & _). eauto.
Qed.

(** The tail of a drained log: recovery ends cleanly or torn, and a record
    appended at the resume position gives the log of the recovered records
    and the new one. *)
Definition tail_ok (p k : Z) (payloads : list bytes) (rs : list (bytes * Z * Z))
    (ev : BinaryWalReadEvent) : Prop :=
  let n := resume_position ev (p + k) in
  clean_or_torn ev ∧ p ≤ n ≤ p + k ∧
  (k = zlen (log_from gen p payloads) → ev = Eof) ∧
  (∀ x, take (Z.to_nat (n - p)) (log_from gen p payloads) ++ frame_binary_wal_record gen x n =
        log_from gen p (rs.*1.*1 ++ [x])).

Lemma spans_within_cut p k x xs :
  k < zlen (frame_binary_wal_record gen x p) →
  spans_within (p + k) (spans_from gen p (x :: xs)) = [].
Proof.
  intros Hk. cbn [spans_from]. unfold spans_within.
  rewrite filter_cons_False by (cbn; lia).
  apply filter_none. intros r Hr%spans_from_ends.
  unfold WAL_FRAGMENT_HEADER_BYTES in *. lia.
Qed.

Lemma spans_within_cons len r rs :
  r.2 ≤ WAL_HDR + len → spans_within len (r :: rs) = r :: spans_within len rs.
Proof. intros. unfold spans_within. by rewrite filter_cons_True. Qed.

(** The bytes of a cut record up to its resume position, and any record
    framed there. *)
Lemma frame_resume x y p n :
  n = p ∨ n = record_start p →
  take (Z.to_nat (n - p)) (frame_binary_wal_record gen y p) ++ frame_binary_wal_record gen x n =
  frame_binary_wal_record gen x p.
Proof.
  intros [-> | ->].
  - by rewrite Z.sub_diag.
  - destruct (frame_record_shape gen x p) as (out & _ & -> & ->).
    destruct (frame_record_shape gen y p) as (out' & _ & -> & _).
    destruct (record_start_spec p) as [Hpad _].
    by rewrite take_zlen_app by (rewrite zlen_zeros; lia).
Qed.

Lemma drain_cut_record s p k x xs rounds fuel :
  let f := frame_binary_wal_record gen x p in
  at_record s p (take (Z.to_nat k) (f ++ log_from gen (p + zlen f) xs)) →
  over_limit limit (zlen x) = false → 0 ≤ k < zlen f → k < Z.of_nat fuel →
  ∃ ev, drain (S rounds) fuel s = Some ([], Ok ev) ∧ tail_ok p k (x :: xs) [] ev.
Proof.
  cbn zeta. intros Hat Hlim Hk Hfuel. rewrite take_app_le_z in Hat by lia.
  pose proof (scan_record_torn gen limit Hgen p x k fuel Hlim Hk Hfuel) as Hscan.
  destruct (drain_stop _ _ _ _ rounds fuel Hat ltac:(rewrite zlen_take by lia; lia) Hscan)
    as [Heof Htorn].
  destruct (record_start_spec p) as [Hpad _].
  assert (∀ ev n, n = resume_position ev (p + k) → n = p ∨ n = record_start p → n ≤ p + k →
            clean_or_torn ev → tail_ok p k (x :: xs) [] ev) as Hok.
  { intros ev n En Hn Hle Hct. unfold tail_ok. rewrite <- En. split_and!; [done|lia|lia| |].
    - cbn [log_from]. rewrite zlen_app. intros ->. pose proof (zlen_nonneg (log_from gen (p + zlen (frame_binary_wal_record gen x p)) xs)). lia.
    - intros y. cbn [log_from fmap list_fmap app]. rewrite take_app_le_z by lia.
      rewrite frame_resume, app_nil_r by done. done. }
  destruct ((k =? 0) || (k =? record_start p - p)) eqn:E.
  - exists Eof. split; [by apply Heof|]. apply (Hok _ _ eq_refl); cbn; [|lia|by left].
    apply orb_true_iff in E as [?%Z.eqb_eq|?%Z.eqb_eq]; lia.
  - apply orb_false_iff in E as [?%Z.eqb_neq ?%Z.eqb_neq].
    destruct (Htorn _ eq_refl) as [why Hd]. eexists. split; [exact Hd|].
    apply (Hok _ _ eq_refl); unfold resume_position; rewrite ?Z.add_simpl_l;
      [case_bool; auto|case_bool; lia|right; eauto].
Qed.

Lemma tail_ok_cons p k x xs rs r ev :
  let l := zlen (frame_binary_wal_record gen x p) in
  l ≤ k → r.1.1 = x →
  tail_ok (p + l) (k - l) xs rs ev → tail_ok p k (x :: xs) (r :: rs) ev.
Proof.
  cbn zeta. intros Hk Hr (Hct & Hn & Hfull & Happ). unfold tail_ok.
  set (f := frame_binary_wal_record gen x p) in *. pose proof (zlen_nonneg f).
  assert (p + zlen f + (k - zlen f) = p + k) as E by lia. rewrite E in *.
  split_and!; [done|lia|lia|..].
  - cbn [log_from]. fold f. rewrite zlen_app. intros Hk'. apply Hfull. lia.
  - intros y. rewrite !fmap_cons, Hr. cbn [app log_from]. fold f. rewrite <- Happ.
    rewrite take_app, take_ge_z, <- app_assoc by lia. do 3 f_equal. unfold zlen in *. lia.
Qed.

Lemma drain_log payloads : Forall (λ x, over_limit limit (zlen x) = false) payloads →
  ∀ p k s rounds fuel,
    at_record s p (take (Z.to_nat k) (log_from gen p payloads)) →
    0 ≤ k ≤ zlen (log_from gen p payloads) → k < Z.of_nat fuel → (length payloads < rounds)%nat →
    let rs := spans_within (p + k) (spans_from gen p payloads) in
    ∃ ev, drain rounds fuel s = Some (rs, Ok ev) ∧ tail_ok p k payloads rs ev.
Proof.
  induction 1 as [|x xs Hx Hxs IH]; cbn zeta; intros p k s rounds fuel Hat Hk Hfuel Hrounds;
    (destruct rounds as [|rounds]; [cbn in *; lia|]).
  { change (zlen (log_from gen p [])) with 0 in Hk. assert (k = 0) as -> by lia.
    destruct fuel as [|fuel]; [lia|].
    destruct (drain_stop _ _ _ _ rounds (S fuel) Hat Hfuel eq_refl) as [Heof _].
    exists Eof. split; [by apply Heof|]. unfold tail_ok. cbn.
    split_and!; [by left|lia..|done|]. intros y. by rewrite Z.add_0_r, app_nil_r, take_nil. }
  cbn [log_from] in Hat, Hk. set (f := frame_binary_wal_record gen x p) in *.
  destruct (Z.lt_ge_cases k (zlen f)) as [Hlt|Hge].
  { rewrite spans_within_cut by done. apply drain_cut_record; cbn zeta; fold f; done || lia. }
  assert (take (Z.to_nat k) (f ++ log_from gen (p + zlen f) xs) =
          f ++ take (Z.to_nat (k - zlen f)) (log_from gen (p + zlen f) xs)) as E.
  { rewrite take_app, take_ge_z by lia. do 2 f_equal. unfold zlen. lia. }
  rewrite E in Hat. rewrite zlen_app in Hk. pose proof (zlen_nonneg f).
  destruct (drain_record s p x _ rounds fuel Hat Hx) as (s' & Hat' & ->).
  { fold f. rewrite zlen_app, zlen_take by lia. lia. }
  fold f in Hat' |- *.
  destruct (IH (p + zlen f) (k - zlen f) s' rounds fuel Hat') as (ev & Hd & Hok);
    [lia..|cbn in Hrounds; lia|].
  assert (p + zlen f + (k - zlen f) = p + k) as Ek by lia. rewrite Ek in Hd, Hok.
  cbn [spans_from]. fold f. rewrite spans_within_cons by (cbn; lia).
  exists ev. rewrite Hd. split; [done|]. by apply tail_ok_cons.
Qed.

Lemma at_record_new r :
  Forall is_byte (unread r) → at_record (BinaryWalReader_new r gen limit) 0 (unread r).
Proof. intros. constructor; [by apply rel_new|done..]. Qed.

Lemma spans_within_all payloads p k :
  zlen (log_from gen p payloads) ≤ k →
  spans_within (p + k) (spans_from gen p payloads) = spans_from gen p payloads.
Proof.
  revert p k; induction payloads as [|x xs IH]; intros p k Hk; [done|].
  cbn [spans_from log_from] in *. set (f := frame_binary_wal_record gen x p) in *.
  rewrite zlen_app in Hk. pose proof (zlen_nonneg (log_from gen (p + zlen f) xs)).
  rewrite spans_within_cons by (cbn; lia). f_equal.
  replace (p + k) with (p + zlen f + (k - zlen f)) by lia. apply IH. lia.
Qed.
End DrainLog.

(** ** Any bytes *)

Section AnyBytes.
Context `{Crc : Crc32cCrate}.

Lemma scan_parse_fragment_bound gen q u t payload :
  Forall is_byte u → scan_parse gen q u = SFragment t payload →
  WAL_FRAGMENT_HEADER_BYTES + zlen payload ≤ zlen u.
Proof.
  intros Hu. unfold scan_parse. set (w := take _ u).
  assert (zlen w ≤ zlen u) as Hw by (unfold w, zlen; rewrite length_take; lia).
  assert (Forall is_byte w) as Hwb by (by apply Forall_take).
  repeat (case_match; try done). intros [= <- <-].
  pose proof (le_val_bound (zslice w 4 6) (is_byte_zslice _ _ _ Hwb)).
  repeat match goal with H : (_ <? _) = false |- _ => apply Z.ltb_ge in H end.
  unfold WAL_FRAGMENT_HEADER_BYTES in *. rewrite zlen_zslice by lia. lia.
Qed.

Lemma scan_parse_skip_bound gen q u n :
  0 ≤ q < WAL_BLOCK_BYTES → scan_parse gen q u = SSkip n → 0 < n ≤ zlen u.
Proof.
  intros Hq. unfold scan_parse. set (w := take _ u).
  assert (zlen w ≤ zlen u) as Hw by (unfold w, zlen; rewrite length_take; lia).
  repeat (case_match; try done). intros [= <-].
  repeat match goal with H : (_ <? _) = false |- _ => apply Z.ltb_ge in H end. lia.
Qed.

(** What a record event says of its record. *)
Lemma scan_event_record fuel gen limit p u c x a b rest :
  Forall is_byte u →
  scan_event fuel gen limit p u c = Some (ScRecord x a b rest) →
  over_limit limit (zlen x) = false ∧ b - WAL_HDR + zlen rest = p + zlen u ∧
  WAL_HDR + p < b ∧ Forall is_byte rest ∧
  match c with Some c => a = chain_start_offset c | None => WAL_HDR + p ≤ a < b end.
Proof.
  revert p u c; induction fuel as [|fuel IH]; intros p u c Hu; [done|]. cbn [scan_event].
  pose proof (Z.mod_pos_bound p WAL_BLOCK_BYTES block_bytes_pos) as Hq.
  destruct (scan_parse gen _ u) as [t payload| | | |n| ] eqn:Hp; try done; [| |by destruct c].
  - apply scan_parse_fragment_bound in Hp; [|done].
    unfold scan_fragment. set (n := WAL_FRAGMENT_HEADER_BYTES + zlen payload) in *.
    assert (0 < n) by (pose proof (zlen_nonneg payload); unfold n, WAL_FRAGMENT_HEADER_BYTES; lia).
    assert (zlen (drop (Z.to_nat n) u) = zlen u - n) as Hd by (rewrite zlen_drop by lia; lia).
    match goal with |- context [if ?b then inl ScCorrupt else _] => destruct b end; [done|].
    match goal with |- context [if ?b then inl ScLimit else _] => destruct b eqn:Hlim end; [done|].
    destruct (_ || _).
    + intros [= <- <- <- <-]. rewrite Hd.
      split_and!; try lia; try (by apply Forall_drop); try done. destruct c; done || lia.
    + intros Hs%IH; [|by apply Forall_drop]. rewrite Hd in Hs.
      destruct Hs as (? & ? & ? & ? & Ha). cbn in Ha. split_and!; try done; try lia.
      destruct c; done || lia.
  - apply scan_parse_skip_bound in Hp; [|done]. intros Hs%IH; [|by apply Forall_drop].
    rewrite zlen_drop in Hs by lia. destruct Hs as (? & ? & ? & ? & Ha).
    split_and!; try done; try lia. destruct c; done || lia.
Qed.

Lemma scan_event_limit fuel gen limit p u c :
  scan_event fuel gen limit p u c = Some ScLimit → is_Some limit.
Proof.
  destruct limit as [m|]; [done|]. revert p u c; induction fuel as [|fuel IH]; intros p u c; [done|].
  cbn [scan_event]. destruct (scan_parse _ _ u); try done; [|apply IH|by destruct c].
  unfold scan_fragment. cbn [over_limit]. repeat (case_match; simplify_eq; try done); apply IH.
Qed.
End AnyBytes.
