(* ===== verification/WalRecovery.v ===== *)
(** What a WAL reader recovers: the theorems on the fragment framing of
    crates/storage/src/wal/frame.rs, for every lawful [Read], with two readers
    that show the laws can hold. *)
From S2P Require Import Prelude Integrity WalFrame WalScan WalLog.

(** ** Readers *)

(** [std::io::Cursor] over a byte vector. *)
Record Cursor := { cursor_data : bytes; cursor_pos : Z }.

#[export] Instance Cursor_Read : Read Cursor := {
  read c n :=
    let bs := take (Z.to_nat n) (drop (Z.to_nat (cursor_pos c)) (cursor_data c)) in
    Ok (bs, {| cursor_data := cursor_data c; cursor_pos := Z.max 0 (cursor_pos c) + zlen bs |})
}.
#[export] Instance Cursor_Seek : Seek Cursor := {
  seek_start c n := Ok {| cursor_data := cursor_data c; cursor_pos := n |}
}.

(** A reader that returns one byte per call, the shortest reads there are. *)
Definition ByteByByte : Type := bytes.
#[export] Instance ByteByByte_Read : Read ByteByByte := {
  read r _ := Ok (take 1 r, drop 1 r)
}.

#[export, refine] Instance Cursor_ReadLaws : ReadLaws Cursor := {
  unread c := drop (Z.to_nat (cursor_pos c)) (cursor_data c)
}.
Proof.
  intros [d p] n Hn. cbn. set (u := drop (Z.to_nat p) d).
  exists (take (Z.to_nat n) u). eexists. split; [done|]. cbn. split_and!.
  - rewrite <- (take_drop_z u n) at 1. f_equal. unfold u. rewrite drop_drop.
    destruct (Z.le_gt_cases (zlen (drop (Z.to_nat p) d)) n).
    + rewrite take_ge_z by done. unfold zlen in *. rewrite length_drop in *.
      rewrite !drop_ge; [done|lia..].
    + rewrite zlen_take, Z.min_l by lia. f_equal. lia.
  - rewrite zlen_take by lia. lia.
  - destruct u; [done|]. destruct (Z.to_nat n) eqn:E; [lia|]. done.
Defined.
#[export, refine] Instance Cursor_SeekLaws : SeekLaws Cursor := { contents := cursor_data }.
Proof. intros c n Hn. by eexists. Defined.
#[export, refine] Instance ByteByByte_ReadLaws : ReadLaws ByteByByte := { unread r := r }.
Proof.
  intros r n Hn. exists (take 1 r), (drop 1 r). split_and!; [done|by rewrite take_drop| |].
  - unfold zlen. rewrite length_take. lia.
  - by destruct r.
Defined.

(** ** Any bytes *)

(** Adjacent spans: every record starts where an earlier one ended, or later,
    and the last ends within the data. *)
Fixpoint spans_ordered (from len : Z) (rs : list (bytes * Z * Z)) : Prop :=
  match rs with
  | [] => True
  | (_, a, b) :: rs => from ≤ a ∧ a < b ≤ len ∧ spans_ordered b len rs
  end.

Section Total.
Context `{Crc : Crc32cCrate} {R : Type} `{RL : ReadLaws R}.
Context (gen : Z) (limit : option Z).

Lemma drain_any rounds fuel (s : BinaryWalReader R) p u :
  at_record gen limit s p u → zlen u < Z.of_nat rounds → zlen u < Z.of_nat fuel →
  ∃ rs ev, drain rounds fuel s = Some (rs, ev) ∧
    spans_ordered (WAL_HDR + p) (WAL_HDR + p + zlen u) rs ∧
    Forall (λ r, over_limit limit (zlen r.1.1) = false) rs ∧
    (∀ e, ev = Err e → is_Some limit).
Proof.
  revert s p u; induction rounds as [|rounds IH]; intros s p u Hat Hrounds Hfuel;
    [pose proof (zlen_nonneg u); lia|].
  destruct Hat as [Hr Hf Hc Hg Hm]. cbn [drain].
  destruct (next_event_refines fuel s _ _ Hr Hf Hfuel) as (r & out & Hscan & -> & Hev).
  rewrite Hg, Hm, Hc in Hscan. pose proof (rel_bytes _ _ _ Hr) as Hbytes.
  destruct r as [x a b rest|v| | | ]; cbn [event_matches] in Hev.
  - apply scan_event_record in Hscan as (Hlim & Hlen & Hb & Hrest & Ha); [|done].
    destruct Hev as (s' & -> & Hr' & Hc' & Hf' & Hg' & Hm').
    destruct (IH s' (b - WAL_HDR) rest) as (rs & ev & Hd & Hord & Hl & He); [|lia..|].
    { constructor; congruence || done. }
    exists ((x, a, b) :: rs), ev. rewrite Hd. split_and!; [done| |by constructor|done].
    cbn. pose proof (zlen_nonneg rest).
    replace (WAL_HDR + (b - WAL_HDR)) with b in Hord by lia.
    replace (WAL_HDR + p + zlen u) with (b + zlen rest) by lia. split_and!; done || lia.
  - destruct Hev as (why & s' & -> & _). by eexists [], _; split_and!.
  - destruct Hev as (off & why & s' & -> & _). by eexists [], _; split_and!.
  - destruct Hev as (m & args & ->). eexists [], _. split_and!; [done..|].
    intros _ _. by eapply scan_event_limit.
  - destruct Hev as (s' & -> & _). by eexists [], _; split_and!.
Qed.
End Total.

(** ** Captured intervals *)

Section Range.
Context `{Crc : Crc32cCrate} {R : Type} `{SL : SeekLaws R}.
Context (gen : Z) (limit : option Z).

(** The bytes [p .. p + n) of the data, seen through a range reader. *)
Lemma range_at_record (r : R) hdr data p n :
  contents r = hdr ++ data → zlen hdr = WAL_HDR → Forall is_byte data →
  0 ≤ p → 0 < n → p + n ≤ zlen data →
  ∃ s, BinaryWalReader_range r gen limit (WAL_HDR + p) (WAL_HDR + (p + n)) = Ok s ∧
    at_record gen limit s p (zslice data p (p + n)).
Proof.
  intros Hc Hh Hb Hp Hn Hend. unfold BinaryWalReader_range. change WAL_BINARY_FILE_HEADER_BYTES with WAL_HDR.
  rewrite (proj2 (Z.ltb_ge _ WAL_HDR)), (proj2 (Z.ltb_ge (WAL_HDR + (p + n)) _)) by lia.
  cbn [orb]. rewrite Z.add_simpl_l. set (q := p / WAL_BLOCK_BYTES * WAL_BLOCK_BYTES).
  pose proof block_bytes_pos as Hpos.
  assert (0 ≤ q ≤ p ∧ p - q < WAL_BLOCK_BYTES) as [Hq Hskip].
  { pose proof (Z.div_mod p WAL_BLOCK_BYTES ltac:(lia)).
    pose proof (Z.mod_pos_bound p WAL_BLOCK_BYTES Hpos).
    pose proof (Z.div_pos p WAL_BLOCK_BYTES Hp Hpos). subst q. nia. }
  destruct (seek_spec r (WAL_HDR + q)) as (r' & -> & Hun); [unfold WAL_HDR, WAL_BINARY_FILE_HEADER_BYTES; lia|].
  cbn [result_bind]. rewrite (proj2 (Z.eqb_neq (WAL_HDR + p) _)) by lia.
  match goal with |- context [load_next_block ?s] => set (s0 := s) end.
  assert (unread r' = drop (Z.to_nat q) data) as Hun'.
  { rewrite Hun, Hc. rewrite drop_app_ge by (unfold zlen in *; lia). f_equal. unfold zlen in *. lia. }
  assert (rel s0 q (zslice data q (p + n))) as Hr0.
  { constructor; try done; subst s0; cbn;
      unfold block_len; cbn [block block_offset end_offset reader]; rewrite ?zlen_nil; try lia.
    - rewrite Z.add_simpl_l. by apply Z.mod_mul; lia.
    - unfold ahead, block_len; cbn. rewrite Hun'. unfold saturating_sub, zslice. rewrite drop_nil. cbn [app].
      f_equal. unfold zlen; cbn [length]. lia.
    - by apply is_byte_zslice. }
  destruct (load_next_block_rel s0 _ _ Hr0 eq_refl eq_refl)
    as (s & -> & (Hg & Hm & Hch & Hf) & Hr & Hl & Hbp & Hst).
  cbn [result_bind]. rewrite Z.add_add_simpl_l_l.
  assert (p - q ≤ block_len s) as Hle.
  { destruct (Z.ltb_spec (block_len s) WAL_BLOCK_BYTES); [|lia].
    pose proof (rel_unread _ _ _ Hr) as Hu. rewrite (rel_ended _ _ _ Hr Hst), Hbp in Hu.
    change (Z.to_nat 0) with 0%nat in Hu. rewrite drop_0, app_nil_r in Hu.
    unfold block_len. rewrite <- Hu, zlen_zslice by lia. lia. }
  rewrite (proj2 (Z.ltb_ge (block_len s) _)) by lia. eexists. split; [done|].
  constructor; cbn; [|by rewrite Hf|by rewrite Hch|by rewrite Hg|by rewrite Hm].
  pose proof (rel_advance s _ _ (p - q) Hr Hl ltac:(lia) ltac:(lia)) as Hr'.
  rewrite Hbp, Z.add_0_l in Hr'. replace (q + (p - q)) with p in Hr' by lia.
  replace (zslice data p (p + n)) with (drop (Z.to_nat (p - q)) (zslice data q (p + n))); [done|].
  unfold zslice. rewrite skipn_firstn_comm, drop_drop. f_equal; [lia|]. f_equal. lia.
Qed.
End Range.

(** ** The theorems *)

Section Theorems.
Context `{Crc : Crc32cCrate} {R : Type} `{RL : ReadLaws R}.
Context (gen : Z) (limit : option Z).

(** The payloads a writer of generation [gen] may have logged. *)
Definition loggable (payloads : list bytes) : Prop :=
  is_u64 gen ∧ Forall (Forall is_byte) payloads ∧
  Forall (λ x, over_limit limit (zlen x) = false) payloads.

(** A reader over the first [k] bytes of a log. *)
Lemma drain_cut_log (r : R) payloads k rounds fuel :
  loggable payloads → unread r = take (Z.to_nat k) (log_from gen 0 payloads) →
  0 ≤ k ≤ zlen (log_from gen 0 payloads) → k < Z.of_nat fuel → (length payloads < rounds)%nat →
  let rs := spans_within k (spans_from gen 0 payloads) in
  ∃ ev, drain rounds fuel (BinaryWalReader_new r gen limit) = Some (rs, Ok ev) ∧
    tail_ok gen 0 k payloads rs ev.
Proof.
  intros (Hgen & Hbytes & Hlim) Hun Hk Hfuel Hrounds.
  apply (drain_log gen limit Hgen payloads Hlim 0 k); [|done..]. rewrite <- Hun.
  apply at_record_new. rewrite Hun. by apply Forall_take, log_from_bytes.
Qed.

(** a log reads back.  Whatever payloads were framed one after the
    other, a reader of the same generation over those bytes returns exactly
    them, in order, with the offsets they were written at, and then the end
    of the file; this holds for every lawful reader, short reads included,
    and every payload size (one or many fragments). *)
Theorem wal_log_roundtrip (r : R) payloads rounds fuel :
  loggable payloads → unread r = log_from gen 0 payloads →
  zlen (unread r) < Z.of_nat fuel → (length payloads < rounds)%nat →
  drain rounds fuel (BinaryWalReader_new r gen limit) =
    Some (spans_from gen 0 payloads, Ok Eof).
Proof.
  intros Hl Hun Hfuel Hrounds. set (k := zlen (log_from gen 0 payloads)).
  destruct (drain_cut_log r payloads k rounds fuel Hl) as (ev & -> & _ & _ & Hfull & _);
    [by rewrite take_ge_z|pose proof (zlen_nonneg (log_from gen 0 payloads)); lia|
     by rewrite Hun in Hfuel|done|].
  rewrite Hfull by done. do 2 f_equal. exact (spans_within_all gen payloads 0 k (Z.le_refl _)).
Qed.

(** C23: a cut log loses only its last records.  Over any prefix of a log the
    reader returns exactly the records that lie wholly within the prefix, then
    the end of the file or a torn tail, never a corruption, and the reported
    valid prefix does not exceed the file. *)
Theorem wal_torn_tail (r : R) payloads k rounds fuel :
  loggable payloads → unread r = take (Z.to_nat k) (log_from gen 0 payloads) →
  0 ≤ k ≤ zlen (log_from gen 0 payloads) → k < Z.of_nat fuel → (length payloads < rounds)%nat →
  ∃ ev, drain rounds fuel (BinaryWalReader_new r gen limit) =
          Some (spans_within k (spans_from gen 0 payloads), Ok ev) ∧
        clean_or_torn ev ∧ 0 ≤ resume_position ev k ≤ k.
Proof.
  intros Hl Hun Hk Hfuel Hrounds.
  destruct (drain_cut_log r payloads k rounds fuel Hl Hun Hk Hfuel Hrounds)
    as (ev & Hd & Hct & Hn & _). by exists ev.
Qed.

(** C24: repair and append.  Cutting a torn file at the reported valid prefix
    (or keeping a file that ended cleanly) and framing one more record there
    gives byte for byte the log of the recovered records and the new one. *)
Theorem wal_repair_append (r : R) payloads k rounds fuel :
  loggable payloads → unread r = take (Z.to_nat k) (log_from gen 0 payloads) →
  0 ≤ k ≤ zlen (log_from gen 0 payloads) → k < Z.of_nat fuel → (length payloads < rounds)%nat →
  ∃ rs ev, drain rounds fuel (BinaryWalReader_new r gen limit) = Some (rs, Ok ev) ∧
    let n := resume_position ev k in
    ∀ x, take (Z.to_nat n) (unread r) ++ frame_binary_wal_record gen x n =
         log_from gen 0 (rs.*1.*1 ++ [x]).
Proof.
  intros Hl Hun Hk Hfuel Hrounds.
  destruct (drain_cut_log r payloads k rounds fuel Hl Hun Hk Hfuel Hrounds)
    as (ev & Hd & _ & Hn & _ & Happ). eexists _, ev. split; [exact Hd|]. cbn zeta. intros x.
  rewrite Z.add_0_l in Happ, Hn. rewrite <- Happ, Z.sub_0_r, Hun, take_take. do 2 f_equal. lia.
Qed.

(** C40: the reader is total.  On any bytes whatsoever, with as many rounds
    and as much fuel as bytes, draining the reader ends; the records it
    returned lie one after the other inside the file and none is over the
    record limit; and it fails only when a limit was set. *)
Theorem wal_reader_total (r : R) :
  Forall is_byte (unread r) →
  let n := S (length (unread r)) in
  ∃ rs ev, drain n n (BinaryWalReader_new r gen limit) = Some (rs, ev) ∧
    spans_ordered WAL_HDR (WAL_HDR + zlen (unread r)) rs ∧
    Forall (λ r, over_limit limit (zlen r.1.1) = false) rs ∧
    (∀ e, ev = Err e → is_Some limit).
Proof.
  intros Hb n. destruct (drain_any gen limit n n _ _ _ (at_record_new gen limit r Hb))
    as (rs & ev & Hd & Hord & Hl & He); [unfold n, zlen; lia..|].
  rewrite Z.add_0_r in Hord. by exists rs, ev.
Qed.

(** A recycled file is not replayed.  A reader of generation [gen] over a
    log another generation wrote returns no record: it reports the stale
    suffix at the first fragment. *)
Theorem wal_stale_generation (r : R) old x payloads fuel rounds :
  is_u64 old → old ≠ gen → Forall (Forall is_byte) (x :: payloads) →
  unread r = log_from old 0 (x :: payloads) → zlen (unread r) < Z.of_nat fuel →
  ∃ offset why, drain (S rounds) fuel (BinaryWalReader_new r gen limit) =
                  Some ([], Ok (Corrupt offset why)).
Proof.
  intros Hold Hne Hb Hun Hfuel.
  assert (Forall is_byte (unread r)) as Hbytes by (rewrite Hun; by apply log_from_bytes).
  destruct (at_record_new gen limit r Hbytes) as [Hr Hf Hc Hg Hm]. cbn [drain].
  destruct (next_event_refines fuel _ _ _ Hr Hf Hfuel) as (res & out & Hscan & -> & Hev).
  rewrite Hg, Hm, Hc, Hun in Hscan. cbn [log_from] in Hscan.
  destruct fuel as [|fuel]; [pose proof (zlen_nonneg (unread r)); lia|].
  destruct (frame_record_shape old x 0) as (out' & HF & Hframe & _).
  pose proof block_bytes_value. pose proof (Z.mod_0_l WAL_BLOCK_BYTES ltac:(lia)) as Hm0.
  assert (record_start 0 = 0) as Hrs
    by (unfold record_start; rewrite Hm0, (proj2 (Z.ltb_ge _ _)); unfold WAL_FRAGMENT_HEADER_BYTES; lia).
  rewrite Hrs, Hm0 in HF. rewrite Hframe, Hrs in Hscan. cbn [zeros replicate app] in Hscan.
  cbn [scan_event] in Hscan. rewrite Hm0 in Hscan. change (zeros (0 - 0)) with (@nil Z) in Hscan.
  cbn [app] in Hscan.
  assert (∀ t chunk rest, zlen chunk ≤ WAL_BLOCK_BYTES - 0 - WAL_FRAGMENT_HEADER_BYTES →
    fragment_type_valid t = true →
    scan_parse gen 0 ((encode_fragment t old chunk) ++ rest) = SEndOfLog) as Hstale.
  { intros t chunk rest Hlen Ht. rewrite scan_parse_encoded by done || lia.
    by rewrite (proj2 (Z.eqb_neq old gen)). }
  inversion HF; subst; rewrite <- ?app_assoc in Hscan;
    rewrite Hstale in Hscan by (lia || apply fragment_type_of_valid); simplify_eq;
    destruct Hev as (off & why & s' & -> & _); eauto.
Qed.
End Theorems.

Section RangeTheorem.
Context `{Crc : Crc32cCrate} {R : Type} `{SL : SeekLaws R}.
Context (gen : Z) (limit : option Z).

(** Captured intervals.  A range reader over the interval between two
    record boundaries returns exactly the records appended in between,
    although it seeks to a block boundary and the file goes on after the
    interval. *)
Theorem wal_range_roundtrip (r : R) hdr xs ys zs rounds fuel :
  loggable gen limit (xs ++ ys ++ zs) →
  contents r = hdr ++ log_from gen 0 (xs ++ ys ++ zs) → zlen hdr = WAL_HDR →
  let from := zlen (log_from gen 0 xs) in
  let to := zlen (log_from gen 0 (xs ++ ys)) in
  to < Z.of_nat fuel → (length ys < rounds)%nat →
  ∃ s, BinaryWalReader_range r gen limit (WAL_HDR + from) (WAL_HDR + to) = Ok s ∧
    drain rounds fuel s = Some (spans_from gen from ys, Ok Eof).
Proof.
  intros (Hgen & Hb & Hlim) Hc Hh from to Hfuel Hrounds.
  pose proof (log_from_bytes gen _ 0 Hb) as Hbytes.
  apply Forall_app in Hlim as [_ [Hlim _]%Forall_app].
  set (n := zlen (log_from gen from ys)).
  assert (to = from + n) as Eto by (unfold to, from, n; rewrite log_from_app, zlen_app; done).
  pose proof (zlen_nonneg (log_from gen 0 xs)). pose proof (zlen_nonneg (log_from gen from ys)).
  destruct (decide (ys = [])) as [-> | Hys].
  { clear Hlim. unfold BinaryWalReader_range. change (zlen (log_from gen from [])) with 0 in *.
    assert (to = from) as -> by (subst n; lia). change WAL_BINARY_FILE_HEADER_BYTES with WAL_HDR.
    rewrite (proj2 (Z.ltb_ge _ WAL_HDR)), Z.ltb_irrefl, Z.eqb_refl by (unfold from; lia).
    destruct (seek_spec r (WAL_HDR + (WAL_HDR + from - WAL_HDR) / WAL_BLOCK_BYTES * WAL_BLOCK_BYTES))
      as (r' & -> & _).
    { rewrite Z.add_simpl_l. pose proof block_bytes_pos.
      pose proof (Z.div_pos from WAL_BLOCK_BYTES ltac:(lia) ltac:(lia)).
      unfold WAL_HDR, WAL_BINARY_FILE_HEADER_BYTES. nia. }
    eexists. split; [done|]. destruct rounds; [cbn in Hrounds; lia|]. done. }
  assert (0 < n) as Hn.
  { destruct ys as [|y ys]; [done|]. unfold n. cbn [log_from]. rewrite zlen_app.
    pose proof (frame_record_zlen gen y from). pose proof (zlen_nonneg y).
    pose proof (zlen_nonneg (log_from gen (from + zlen (frame_binary_wal_record gen y from)) ys)).
    destruct (record_start_spec from) as [Hp _]. unfold WAL_FRAGMENT_HEADER_BYTES in *. lia. }
  rewrite !log_from_app, Z.add_0_l in Hc, Hbytes. fold from in Hc, Hbytes. fold n in Hc, Hbytes.
  destruct (range_at_record gen limit r hdr _ from n Hc Hh Hbytes) as (s & Hs & Hat);
    [unfold from; lia|done|rewrite !zlen_app; fold n from;
     pose proof (zlen_nonneg (log_from gen (from + n) zs)); lia|].
  rewrite zslice_app_mid in Hat by done.
  destruct (drain_log gen limit Hgen ys Hlim from n s rounds fuel) as (ev & Hd & _ & _ & Hfull & _);
    [by rewrite take_ge_z|unfold n; lia|lia|done|].
  exists s. rewrite Eto. split; [done|]. rewrite Hd, Hfull by done.
  do 2 f_equal. exact (spans_within_all gen ys from n (Z.le_refl _)).
Qed.
End RangeTheorem.

(** ** Witnesses: a small log, read one byte at a time *)

Module Demo.
Import Castagnoli.

Definition payloads : list bytes := [[1; 2; 3]; []; [9]].
Definition log : bytes := log_from 7 0 payloads.
Definition reader_of (bs : bytes) : BinaryWalReader ByteByByte :=
  BinaryWalReader_new (bs : ByteByByte) 7 (Some 100).

Lemma payloads_loggable : loggable 7 (Some 100) payloads.
Proof.
  split_and!; [done| |by repeat constructor].
  repeat constructor; unfold is_byte; lia.
Qed.

Lemma wal_log_roundtrip_witness :
  drain 4 60 (reader_of log) = Some (spans_from 7 0 payloads, Ok Eof).
Proof.
  apply (wal_log_roundtrip 7 (Some 100) (log : ByteByByte));
    [apply payloads_loggable|done|vm_compute; done|cbn; lia].
Defined.

Lemma wal_torn_tail_witness :
  ∃ ev, drain 4 60 (reader_of (take 40 log)) = Some (spans_within 40 (spans_from 7 0 payloads), Ok ev) ∧
        clean_or_torn ev ∧ 0 ≤ resume_position ev 40 ≤ 40.
Proof.
  apply (wal_torn_tail 7 (Some 100) (take 40 log : ByteByByte));
    [apply payloads_loggable|done|vm_compute; done|done|cbn; lia].
Defined.

Lemma wal_repair_append_witness :
  ∃ rs ev, drain 4 60 (reader_of (take 40 log)) = Some (rs, Ok ev) ∧
    let n := resume_position ev 40 in
    ∀ x, take (Z.to_nat n) (unread (take 40 log : ByteByByte)) ++ frame_binary_wal_record 7 x n =
         log_from 7 0 (rs.*1.*1 ++ [x]).
Proof.
  apply (wal_repair_append 7 (Some 100) (take 40 log : ByteByByte) payloads 40 4 60);
    [apply payloads_loggable|done|vm_compute; done|done|cbn; lia].
Defined.

Lemma wal_reader_total_witness :
  ∃ rs ev, drain 4 4 (reader_of [1; 2; 255]) = Some (rs, ev) ∧
    spans_ordered WAL_HDR (WAL_HDR + 3) rs ∧
    Forall (λ r, over_limit (Some 100) (zlen r.1.1) = false) rs ∧
    (∀ e, ev = Err e → is_Some (Some 100)).
Proof.
  pose proof (wal_reader_total 7 (Some 100) ([1; 2; 255] : ByteByByte)) as Htotal. apply Htotal.
  repeat constructor; unfold is_byte; lia.
Defined.

Lemma wal_stale_generation_witness :
  ∃ offset why, drain 1 60 (reader_of (log_from 6 0 payloads)) = Some ([], Ok (Corrupt offset why)).
Proof.
  apply (wal_stale_generation 7 (Some 100) (log_from 6 0 payloads : ByteByByte) 6
           [1; 2; 3] [[]; [9]]); [done|done|apply payloads_loggable|done|vm_compute; done].
Defined.

Lemma wal_range_roundtrip_witness :
  let c := {| cursor_data := encode_binary_wal_header 7 0 ++ log; cursor_pos := 0 |} in
  ∃ s, BinaryWalReader_range c 7 (Some 100) (WAL_HDR + 18) (WAL_HDR + 33) = Ok s ∧
    drain 2 60 s = Some (spans_from 7 18 [[]], Ok Eof).
Proof.
  apply (wal_range_roundtrip 7 (Some 100)
           {| cursor_data := encode_binary_wal_header 7 0 ++ log; cursor_pos := 0 |}
           (encode_binary_wal_header 7 0) [[1; 2; 3]] [[]] [[9]]);
    [apply payloads_loggable|done|vm_compute; done|vm_compute; done|cbn; lia].
Defined.
End Demo.
