(* ===== verification/Decimal.v ===== *)
(** Bounded exact decimals: crates/core/src/decimal.rs.

    A [Decimal] is a coefficient of at most 38 digits and a scale in 0..38.
    [value] is its numeric value in units of 10^-38, an integer, so that the
    numeric claims are claims on [Z]. *)
From S2P Require Import Prelude.

(** ** Errors, types and values *)

Inductive DecimalError :=
  | InvalidLiteral
  | InvalidType
  | InvalidEncoding
  | Overflow
  | DivisionByZero
  | Fractional
  | IntegerOutOfRange.

Definition MAX_PRECISION : Z := 38.
Definition MAX_COEFFICIENT : Z := 10 ^ 38 - 1.
Definition ENCODED_LEN : Z := 17.
Definition ORDERED_LEN : Z := 40.
Definition MAX_LITERAL_BYTES : Z := 256.

(** The source stores the coefficient as the 16 little-endian bytes of an
    [i128]; the model stores the integer they encode. *)
Record Decimal := { coefficient : Z; scale : Z }.
Record DecimalType := { dt_precision : Z; dt_scale : Z }.

Definition DecimalType_DEFAULT : DecimalType := {| dt_precision := 38; dt_scale := 0 |}.
Definition Decimal_ZERO : Decimal := {| coefficient := 0; scale := 0 |}.

(** [BigInt::to_i128], [u8::try_from] and [i64::try_from]. *)
Definition to_i128 (z : Z) : option Z := if (- 2 ^ 127 <=? z) && (z <? 2 ^ 127) then Some z else None.
Definition to_u8 (z : Z) : option Z := if (0 <=? z) && (z <=? u8_max) then Some z else None.
Definition i64_try_from (z : Z) : option Z :=
  if (i64_min <=? z) && (z <=? i64_max) then Some z else None.

Definition ten (power : Z) : Z := 10 ^ power.

Definition DecimalType_new (precision scale : Z) : result DecimalType DecimalError :=
  if (precision =? 0) || (MAX_PRECISION <? precision) || (precision <? scale)
  then Err InvalidType
  else Ok {| dt_precision := precision; dt_scale := scale |}.

Definition Decimal_new (coefficient scale : Z) : result Decimal DecimalError :=
  if (MAX_COEFFICIENT <? Z.abs coefficient) || (38 <? scale)
  then Err Overflow
  else Ok {| coefficient := coefficient; scale := scale |}.

(** The loop of [precision]: a [u128] has at most 39 digits. *)
Fixpoint precision_loop (fuel : nat) (value digits : Z) : Z :=
  match fuel with
  | O => digits
  | S fuel => if 10 <=? value then precision_loop fuel (value / 10) (digits + 1) else digits
  end.
Definition precision (d : Decimal) : Z := precision_loop 39 (Z.abs (coefficient d)) 1.

Definition decimal_type (d : Decimal) : DecimalType :=
  {| dt_precision := if scale d <? precision d then precision d else scale d;
     dt_scale := scale d |}.

Definition checked_neg (d : Decimal) : Decimal :=
  {| coefficient := - coefficient d; scale := scale d |}.

(** The loop of [exact]: it stops at scale 0, so [scale] rounds are enough. *)
Fixpoint exact_loop (fuel : nat) (c s : Z) : result (Z * Z) DecimalError :=
  match fuel with
  | O => Ok (c, s)
  | S fuel =>
      if ((38 <? s) || (MAX_COEFFICIENT <? Z.abs c)) && (0 <? s) then
        if negb (Z.rem c 10 =? 0) then Err Overflow
        else exact_loop fuel (Z.quot c 10) (s - 1)
      else Ok (c, s)
  end.
Definition exact (c s : Z) : result Decimal DecimalError :=
  let? (c, s) := exact_loop (Z.to_nat s) c s in
  let? c := ok_or (to_i128 c) Overflow in
  let? s := ok_or (to_u8 s) Overflow in
  Decimal_new c s.

Definition aligned (a b : Decimal) : Z * Z * Z :=
  let s := Z.max (scale a) (scale b) in
  (coefficient a * ten (s - scale a), coefficient b * ten (s - scale b), s).

Definition checked_add (a b : Decimal) : result Decimal DecimalError :=
  let '(left_, right_, s) := aligned a b in exact (left_ + right_) s.
Definition checked_sub (a b : Decimal) : result Decimal DecimalError :=
  checked_add a (checked_neg b).
Definition checked_mul (a b : Decimal) : result Decimal DecimalError :=
  exact (coefficient a * coefficient b) (scale a + scale b).
Definition checked_rem (a b : Decimal) : result Decimal DecimalError :=
  if coefficient b =? 0 then Err DivisionByZero
  else let '(left_, right_, s) := aligned a b in exact (Z.rem left_ right_) s.

(** [integral.to_string().len()] of a positive integer: its decimal digits. *)
Fixpoint digits_loop (fuel : nat) (value : Z) (acc : bytes) : bytes :=
  match fuel with
  | O => acc
  | S fuel => if value =? 0 then acc else digits_loop fuel (value / 10) (value mod 10 :: acc)
  end.
(** The decimal digits of [value], most significant first, none for 0.  An
    integer has at most as many decimal digits as bits. *)
Definition digits (value : Z) : bytes := digits_loop (S (Z.to_nat (Z.log2 value))) value [].

(** One round of the division loop: the quotient at scale [s], rounded to the
    nearest integer with ties away from zero. *)
Definition div_rounded (numerator denominator s : Z) : Z :=
  let scaled := numerator * ten s in
  let quotient := Z.quot scaled denominator in
  let remainder := Z.rem scaled denominator in
  if Z.abs denominator <=? Z.abs remainder * 2
  then quotient + (if Z.sgn scaled =? Z.sgn denominator then 1 else -1)
  else quotient.
Fixpoint div_loop (fuel : nat) (numerator denominator s : Z) : result Decimal DecimalError :=
  match fuel with
  | O => Err Overflow
  | S fuel =>
      let quotient := div_rounded numerator denominator s in
      if Z.abs quotient <=? MAX_COEFFICIENT then
        let? q := ok_or (to_i128 quotient) Overflow in Decimal_new q s
      else if s =? 0 then Err Overflow
      else div_loop fuel numerator denominator (s - 1)
  end.
Definition checked_div (a b : Decimal) : result Decimal DecimalError :=
  if coefficient b =? 0 then Err DivisionByZero
  else
    let numerator := coefficient a * ten (scale b) in
    let denominator := coefficient b * ten (scale a) in
    let integral := Z.abs (Z.quot numerator denominator) in
    let digits := if integral =? 0 then 0 else zlen (digits integral) in
    if 38 <? digits then Err Overflow
    else div_loop (S (Z.to_nat (38 - digits))) numerator denominator (38 - digits).

Definition rescale (d : Decimal) (s : Z) : result Decimal DecimalError :=
  if 38 <? s then Err Overflow
  else if scale d <=? s then
    let? c := ok_or (to_i128 (coefficient d * ten (s - scale d))) Overflow in Decimal_new c s
  else
    let divisor := 10 ^ (scale d - s) in
    let quotient := Z.quot (coefficient d) divisor in
    let quotient :=
      if Z.quot divisor 2 <=? Z.abs (Z.rem (coefficient d) divisor)
      then quotient + Z.sgn (coefficient d) else quotient in
    Decimal_new quotient s.

Definition DecimalType_coerce (t : DecimalType) (d : Decimal) : result Decimal DecimalError :=
  let? d := rescale d (dt_scale t) in
  if dt_precision t <? precision d then Err Overflow else Ok d.
Definition DecimalType_accepts (t : DecimalType) (d : Decimal) : bool :=
  (scale d =? dt_scale t) && (precision d <=? dt_precision t).

Definition to_i64 (d : Decimal) : result Z DecimalError :=
  let divisor := 10 ^ scale d in
  if negb (Z.rem (coefficient d) divisor =? 0) then Err Fractional
  else ok_or (i64_try_from (Z.quot (coefficient d) divisor)) IntegerOutOfRange.

(** The value of a digit sequence: the accumulation loops of
    [from_ordered_bytes] and [from_str]. *)
Definition from_digits (ds : bytes) : Z := foldl (λ c digit, c * 10 + digit) 0 ds.

(** ** Well-formedness and numeric value *)

Definition wf (d : Decimal) : Prop := Z.abs (coefficient d) ≤ MAX_COEFFICIENT ∧ 0 ≤ scale d ≤ 38.

(** The numeric value in units of 10^-38. *)
Definition value (d : Decimal) : Z := coefficient d * 10 ^ (38 - scale d).

(** The rational [c / 10^s] is the value of some decimal. *)
Definition representable (c s : Z) : Prop :=
  ∃ d, wf d ∧ coefficient d * 10 ^ s = c * 10 ^ scale d.

Lemma pow10_pos n : 0 ≤ n → 0 < 10 ^ n.
Proof. intros. apply Z.pow_pos_nonneg; lia. Qed.
Lemma pow10_add a b : 0 ≤ a → 0 ≤ b → 10 ^ (a + b) = 10 ^ a * 10 ^ b.
Proof. intros. by apply Z.pow_add_r. Qed.
Lemma pow10_split s t : 0 ≤ t ≤ s → 10 ^ s = 10 ^ t * 10 ^ (s - t).
Proof. intros. rewrite <- pow10_add by lia. f_equal. lia. Qed.
Lemma pow10_succ s : 0 < s → 10 ^ s = 10 * 10 ^ (s - 1).
Proof. intros. rewrite (pow10_split s 1) by lia. lia. Qed.
Lemma max_coefficient_i128 c : Z.abs c ≤ MAX_COEFFICIENT → to_i128 c = Some c.
Proof.
  unfold MAX_COEFFICIENT, to_i128. intros. rewrite (proj2 (Z.leb_le _ _)), (proj2 (Z.ltb_lt _ _)); [done|lia..].
Qed.
Lemma Decimal_new_ok c s :
  Z.abs c ≤ MAX_COEFFICIENT → s ≤ 38 → Decimal_new c s = Ok {| coefficient := c; scale := s |}.
Proof.
  intros. unfold Decimal_new.
  by rewrite (proj2 (Z.ltb_ge _ (Z.abs c))), (proj2 (Z.ltb_ge _ s)) by lia.
Qed.
Lemma Decimal_new_err c s :
  MAX_COEFFICIENT < Z.abs c → Decimal_new c s = Err Overflow.
Proof. intros. unfold Decimal_new. by rewrite (proj2 (Z.ltb_lt _ (Z.abs c))) by lia. Qed.
