(* ===== verification/DecimalArith.v ===== *)
(** Decimal arithmetic: exact addition, subtraction, multiplication and
    remainder, correctly rounded division and rescaling, and BIGINT conversion
    (crates/core/src/decimal.rs). *)
From S2P Require Import Prelude Decimal.

(** ** Exactness *)

Lemma exact_loop_spec fuel c s :
  fuel = Z.to_nat s → 0 ≤ s →
  match exact_loop fuel c s with
  | Ok (c', s') => 0 ≤ s' ≤ s ∧ c = c' * 10 ^ (s - s') ∧
                   (s' ≤ 38 ∧ Z.abs c' ≤ MAX_COEFFICIENT ∨ s' = 0)
  | Err e => e = Overflow ∧ ∃ c' s', 0 < s' ≤ s ∧ c = c' * 10 ^ (s - s') ∧
               Z.rem c' 10 ≠ 0 ∧ (38 < s' ∨ MAX_COEFFICIENT < Z.abs c')
  end.
Proof.
  revert c s; induction fuel as [|fuel IH]; intros c s Hf Hs; cbn [exact_loop].
  { rewrite Z.sub_diag, Z.mul_1_r. split_and!; [lia..|done|]. right. lia. }
  assert (0 < s) as Hpos by lia. rewrite (proj2 (Z.ltb_lt 0 s) Hpos), andb_true_r.
  destruct ((38 <? s) || (MAX_COEFFICIENT <? Z.abs c)) eqn:Eb.
  - apply orb_true_iff in Eb as Hb. rewrite !Z.ltb_lt in Hb.
    destruct (Z.eqb_spec (Z.rem c 10) 0) as [E|E]; cbn [negb].
    + specialize (IH (Z.quot c 10) (s - 1) ltac:(lia) ltac:(lia)).
      assert (c = 10 * Z.quot c 10) as Hc by (pose proof (Z.quot_rem' c 10); lia).
      destruct (exact_loop fuel _ _) as [[c' s']|e]; (destruct IH as [IH1 IH2]; split; [lia || done|]).
      * destruct IH2 as [IH2 IH3]. split; [|done]. rewrite Hc, IH2.
        rewrite (pow10_succ (s - s')) by lia. replace (s - s' - 1) with (s - 1 - s') by lia. ring.
      * destruct IH2 as (c' & s' & Hs' & Hc' & Hrest). exists c', s'. split_and!; [lia|lia| |apply Hrest|apply Hrest].
        rewrite Hc, Hc', (pow10_succ (s - s')) by lia. replace (s - s' - 1) with (s - 1 - s') by lia. ring.
    + split; [done|]. exists c, s. rewrite Z.sub_diag, Z.mul_1_r. split_and!; lia || done.
  - apply orb_false_iff in Eb as [?%Z.ltb_ge ?%Z.ltb_ge].
    rewrite Z.sub_diag, Z.mul_1_r. split_and!; lia.
Qed.

Lemma rem10_mul c n : 0 < n → Z.rem (c * 10 ^ n) 10 = 0.
Proof.
  intros. rewrite pow10_succ by done.
  replace (c * (10 * 10 ^ (n - 1))) with (c * 10 ^ (n - 1) * 10) by ring. apply Z.rem_mul. lia.
Qed.

(** A coefficient that cannot lose a digit, and is too long or too fine, is the
    coefficient of no decimal. *)
Lemma not_representable c s c' s' :
  0 ≤ s' ≤ s → c = c' * 10 ^ (s - s') →
  (s' = 0 ∨ Z.rem c' 10 ≠ 0) → (38 < s' ∨ MAX_COEFFICIENT < Z.abs c') → ¬ representable c s.
Proof.
  intros Hs -> Hrem Hbig ([k t] & [Hk Ht] & E). cbn in *.
  rewrite (pow10_split s s') in E by lia.
  assert (k * 10 ^ s' = c' * 10 ^ t) as E'.
  { apply (Z.mul_reg_r _ _ (10 ^ (s - s'))); [pose proof (pow10_pos (s - s') ltac:(lia)); lia|].
    rewrite <- Z.mul_assoc, E. ring. }
  destruct (Z.lt_ge_cases t s') as [Hlt|Hge].
  - rewrite (pow10_split s' t) in E' by lia. destruct Hrem as [?|Hrem]; [lia|]. apply Hrem.
    assert (c' = k * 10 ^ (s' - t)) as ->; [|apply rem10_mul; lia].
    apply (Z.mul_reg_r _ _ (10 ^ t)); [pose proof (pow10_pos t ltac:(lia)); lia|].
    rewrite <- E'. ring.
  - rewrite (pow10_split t s') in E' by lia.
    assert (k = c' * 10 ^ (t - s')) as ->.
    { apply (Z.mul_reg_r _ _ (10 ^ s')); [pose proof (pow10_pos s' ltac:(lia)); lia|].
      rewrite E'. ring. }
    pose proof (pow10_pos (t - s') ltac:(lia)). rewrite Z.abs_mul in Hk. nia.
Qed.

(** [exact] is exact: it returns a decimal of the same value, or fails because
    there is none. *)
Lemma exact_spec c s :
  0 ≤ s ≤ 255 →
  match exact c s with
  | Ok d => wf d ∧ coefficient d * 10 ^ s = c * 10 ^ scale d
  | Err e => e = Overflow ∧ ¬ representable c s
  end.
Proof.
  intros Hs. unfold exact. pose proof (exact_loop_spec _ c s eq_refl ltac:(lia)) as H.
  destruct (exact_loop _ _ _) as [[c' s']|e]; cbn [result_bind].
  2: { destruct H as (-> & c' & s' & Hs' & Hc & Hr & Hb). split; [done|].
       eapply not_representable; [|exact Hc|..]; [lia|by right|done]. }
  destruct H as (Hs' & -> & Hor).
  destruct (Z.le_gt_cases (Z.abs c') MAX_COEFFICIENT) as [Hle|Hgt].
  - assert (s' ≤ 38) by lia. rewrite max_coefficient_i128 by done. unfold to_u8, u8_max.
    rewrite (proj2 (Z.leb_le 0 s')), (proj2 (Z.leb_le s' _)) by lia. cbn [andb ok_or result_bind].
    rewrite Decimal_new_ok by done. split; [split; cbn; lia|]. cbn.
    rewrite (pow10_split s s') by lia. ring.
  - assert (s' = 0) as -> by lia.
    assert (¬ representable (c' * 10 ^ (s - 0)) s) as Hno
      by (eapply (not_representable _ _ c' 0); auto).
    unfold to_i128. destruct (_ && _); cbn [ok_or result_bind]; [|done].
    change (to_u8 0) with (Some 0). cbn [ok_or result_bind]. by rewrite Decimal_new_err.
Qed.

(** An operation that returns a decimal of the specified value, or overflows
    because no decimal has it. *)
Definition exactly (o : result Decimal DecimalError) (is_value : Z → Prop) : Prop :=
  match o with
  | Ok r => wf r ∧ is_value (value r)
  | Err e => e = Overflow ∧ ∀ r, wf r → ¬ is_value (value r)
  end.

Lemma value_scaled d c s :
  wf d → 0 ≤ s → coefficient d * 10 ^ s = c * 10 ^ scale d ↔ value d * 10 ^ s = c * 10 ^ 38.
Proof.
  intros [_ Hd] Hs. unfold value. rewrite (pow10_split 38 (scale d)) by lia.
  pose proof (pow10_pos (38 - scale d) ltac:(lia)). split; intros E.
  - transitivity (coefficient d * 10 ^ s * 10 ^ (38 - scale d)); [ring|]. rewrite E. ring.
  - apply (Z.mul_reg_r _ _ (10 ^ (38 - scale d))); [lia|].
    transitivity (coefficient d * 10 ^ (38 - scale d) * 10 ^ s); [ring|]. rewrite E. ring.
Qed.

Lemma exact_exactly c s :
  0 ≤ s ≤ 255 → exactly (exact c s) (λ v, v * 10 ^ s = c * 10 ^ 38).
Proof.
  intros Hs. pose proof (exact_spec c s Hs) as H. unfold exactly. destruct (exact c s) as [d|e].
  - destruct H as [Hwf E]. split; [done|]. by apply value_scaled; [|lia|].
  - destruct H as [-> Hno]. split; [done|]. intros d Hd E. apply Hno. exists d.
    split; [done|]. by apply value_scaled; [|lia|].
Qed.

Lemma exactly_ext o P Q : (∀ v, P v ↔ Q v) → exactly o P → exactly o Q.
Proof. unfold exactly. destruct o; naive_solver. Qed.

Lemma aligned_spec a b left_ right_ s :
  wf a → wf b → aligned a b = (left_, right_, s) →
  0 ≤ s ≤ 38 ∧ left_ * 10 ^ (38 - s) = value a ∧ right_ * 10 ^ (38 - s) = value b.
Proof.
  intros [_ Ha] [_ Hb]. unfold aligned, ten. intros [= <- <- <-].
  assert (∀ d t, 0 ≤ scale d ≤ t → t ≤ 38 →
    coefficient d * 10 ^ (t - scale d) * 10 ^ (38 - t) = value d) as Hd.
  { intros d t Ht Ht'. unfold value. rewrite <- Z.mul_assoc, <- pow10_add by lia. do 2 f_equal. lia. }
  rewrite !Hd by lia. lia.
Qed.

(** Values at scale [s] against values in units of 10^-38. *)
Lemma at_scale v x s : 0 ≤ s ≤ 38 → v * 10 ^ s = x * 10 ^ 38 ↔ v = x * 10 ^ (38 - s).
Proof.
  intros Hs. rewrite (pow10_split 38 s) by lia. pose proof (pow10_pos s ltac:(lia)). split.
  - intros E. apply (Z.mul_reg_r _ _ (10 ^ s)); [lia|]. rewrite E. ring.
  - intros ->. ring.
Qed.

Lemma wf_checked_neg d : wf d → wf (checked_neg d) ∧ value (checked_neg d) = - value d.
Proof. unfold wf, value, checked_neg; cbn. intros [? ?]. rewrite Z.abs_opp. split; [done|]. ring. Qed.

Lemma checked_add_exactly a b :
  wf a → wf b → exactly (checked_add a b) (λ v, v = value a + value b).
Proof.
  intros Ha Hb. unfold checked_add. destruct (aligned a b) as [[l r] s] eqn:E.
  destruct (aligned_spec a b l r s Ha Hb E) as (Hs & <- & <-).
  eapply exactly_ext; [|apply exact_exactly; lia].
  intros v. cbn. rewrite at_scale by lia. by rewrite Z.mul_add_distr_r.
Qed.

(** Addition and subtraction are exact or fail.  The result has exactly the
    sum or difference as its value; an overflow is reported only when no
    decimal of 38 digits and scale 38 has that value. *)
Theorem decimal_add_sub_exact a b :
  wf a → wf b →
  exactly (checked_add a b) (λ v, v = value a + value b) ∧
  exactly (checked_sub a b) (λ v, v = value a - value b).
Proof.
  intros Ha Hb. split; [by apply checked_add_exactly|].
  unfold checked_sub. destruct (wf_checked_neg b Hb) as [Hn Hv].
  eapply exactly_ext; [|by apply checked_add_exactly]. intros v. cbn. rewrite Hv. done.
Qed.

Lemma decimal_add_sub_exact_witness :
  let a := {| coefficient := 10; scale := 1 |} in
  let b := {| coefficient := 5; scale := 3 |} in
  exactly (checked_add a b) (λ v, v = value a + value b) ∧
  exactly (checked_sub a b) (λ v, v = value a - value b).
Proof. apply decimal_add_sub_exact; by vm_compute. Defined.

(** Multiplication and remainder are exact or fail: the product of the
    values, and the remainder of the truncated division of the values, which
    is refused for a zero divisor only. *)
Theorem decimal_mul_rem_exact a b :
  wf a → wf b →
  exactly (checked_mul a b) (λ v, v * 10 ^ 38 = value a * value b) ∧
  (if coefficient b =? 0 then checked_rem a b = Err DivisionByZero
   else exactly (checked_rem a b) (λ v, v = Z.rem (value a) (value b))).
Proof.
  intros Ha Hb. split.
  - unfold checked_mul. destruct Ha as [_ Ha], Hb as [_ Hb].
    eapply exactly_ext; [|apply exact_exactly; lia]. intros v. cbn. unfold value.
    transitivity (v * 10 ^ 38 * 10 ^ (scale a + scale b)
                  = coefficient a * coefficient b * 10 ^ 38 * 10 ^ 38).
    { rewrite <- (Z.mul_cancel_r (v * 10 ^ (scale a + scale b)) _ (10 ^ 38)) by lia.
      by replace (v * 10 ^ 38 * 10 ^ (scale a + scale b)) with (v * 10 ^ (scale a + scale b) * 10 ^ 38) by ring. }
    rewrite (pow10_split 38 (scale a)) at 2 by lia. rewrite (pow10_split 38 (scale b)) at 2 by lia.
    rewrite pow10_add by lia.
    rewrite <- (Z.mul_cancel_r (v * 10 ^ 38) _ (10 ^ scale a * 10 ^ scale b))
      by (pose proof (pow10_pos (scale a)); pose proof (pow10_pos (scale b)); nia).
    by replace (coefficient a * coefficient b * (10 ^ scale a * 10 ^ (38 - scale a))
                * (10 ^ scale b * 10 ^ (38 - scale b)))
      with (coefficient a * 10 ^ (38 - scale a) * (coefficient b * 10 ^ (38 - scale b))
            * (10 ^ scale a * 10 ^ scale b)) by ring.
  - unfold checked_rem. destruct (Z.eqb_spec (coefficient b) 0) as [E|E]; [done|].
    destruct (aligned a b) as [[l r] s] eqn:Eal.
    destruct (aligned_spec a b l r s Ha Hb Eal) as (Hs & <- & Hr).
    eapply exactly_ext; [|apply exact_exactly; lia].
    intros v. cbn. rewrite at_scale by lia. rewrite <- Hr.
    pose proof (pow10_pos (38 - s) ltac:(lia)).
    rewrite Z.mul_rem_distr_r; [done| |lia].
    intros ->. unfold value in Hr. pose proof (pow10_pos (38 - scale b) ltac:(destruct Hb; lia)). nia.
Qed.

Lemma decimal_mul_rem_exact_witness :
  let a := {| coefficient := -75; scale := 1 |} in
  let b := {| coefficient := 2; scale := 0 |} in
  exactly (checked_mul a b) (λ v, v * 10 ^ 38 = value a * value b) ∧
  exactly (checked_rem a b) (λ v, v = Z.rem (value a) (value b)).
Proof. apply (decimal_mul_rem_exact _ {| coefficient := 2; scale := 0 |}); by vm_compute. Defined.

(** ** Rounding *)

(** [q] is the integer nearest to [x / y], the one away from zero on a tie. *)
Definition nearest_away (q x y : Z) : Prop :=
  2 * Z.abs (q * y - x) ≤ Z.abs y ∧ (2 * Z.abs (q * y - x) = Z.abs y → Z.abs x < Z.abs (q * y)).

Lemma nearest_away_le q q' x y :
  y ≠ 0 → nearest_away q x y → nearest_away q' x y → q' ≤ q.
Proof.
  unfold nearest_away. intros Hy [H1 H2] [H3 H4].
  destruct (Z.le_gt_cases q' q) as [|Hlt]; [done|exfalso].
  assert (Z.abs (q' * y - q * y) ≤ Z.abs y) by lia.
  assert (q' = q + 1) as -> by (rewrite <- Z.mul_sub_distr_r, Z.abs_mul in *; nia).
  assert ((q + 1) * y = q * y + y) as E by ring. rewrite E in *.
  assert (0 ≤ q * y * y ∨ (q * y + y) * y ≤ 0) by (destruct (Z.le_gt_cases 0 q); [left|right]; nia).
  assert ((0 < y ∧ (0 ≤ q * y ∨ q * y + y ≤ 0)) ∨ (y < 0 ∧ (q * y ≤ 0 ∨ 0 ≤ q * y + y))) by nia.
  lia.
Qed.
Lemma nearest_away_unique q q' x y :
  y ≠ 0 → nearest_away q x y → nearest_away q' x y → q = q'.
Proof. intros. apply Z.le_antisymm; by eapply nearest_away_le. Qed.

Lemma nearest_away_scale q x y k : 0 < k → nearest_away q (x * k) (y * k) ↔ nearest_away q x y.
Proof.
  intros Hk. unfold nearest_away.
  replace (q * (y * k) - x * k) with ((q * y - x) * k) by ring.
  replace (q * (y * k)) with (q * y * k) by ring.
  rewrite !Z.abs_mul, (Z.abs_eq k) by lia. split; intros [H1 H2]; (split; [nia|]); nia.
Qed.

Lemma nearest_away_bound q x y n : y ≠ 0 → nearest_away q x y → n * Z.abs y ≤ Z.abs x → n ≤ Z.abs q.
Proof. unfold nearest_away. intros Hy [H1 H2] Hn. nia. Qed.

Lemma div_rounded_spec n d s : d ≠ 0 → nearest_away (div_rounded n d s) (n * 10 ^ s) d.
Proof.
  intros Hd. unfold div_rounded, ten. set (x := n * 10 ^ s).
  pose proof (Z.quot_rem' x d) as Hx. pose proof (Z.rem_bound_abs x d Hd) as Hb.
  pose proof (Z.rem_sign_nz x d Hd) as Hsg.
  set (q := Z.quot x d) in *. set (r := Z.rem x d) in *. unfold nearest_away.
  destruct (Z.leb_spec (Z.abs d) (Z.abs r * 2)).
  - assert (r ≠ 0) as Hr by lia. specialize (Hsg Hr).
    assert ((q + (if Z.sgn x =? Z.sgn d then 1 else -1)) * d
            = q * d + (if Z.sgn x =? Z.sgn d then d else - d)) as -> by (case_bool; ring).
    assert (x = q * d + r) as Hx' by lia. clear Hx.
    destruct (Z.eqb_spec (Z.sgn x) (Z.sgn d)); lia.
  - replace (q * d - x) with (- r) by lia. rewrite Z.abs_opp. lia.
Qed.

(** ** Digits *)

Definition digit (d : Z) : Prop := 0 ≤ d < 10.

Lemma from_digits_snoc ds d : from_digits (ds ++ [d]) = from_digits ds * 10 + d.
Proof. unfold from_digits. by rewrite foldl_app. Qed.

Lemma from_digits_app ds es : from_digits (ds ++ es) = from_digits ds * 10 ^ zlen es + from_digits es.
Proof.
  induction es as [|e es IH] using rev_ind; [rewrite app_nil_r, zlen_nil; cbn; lia|].
  rewrite app_assoc, !from_digits_snoc, IH, zlen_app, pow10_add by (pose proof (zlen_nonneg es); lia || done).
  change (10 ^ zlen [e]) with 10. ring.
Qed.

Lemma from_digits_bound ds : Forall digit ds → 0 ≤ from_digits ds < 10 ^ zlen ds.
Proof.
  induction ds as [|d ds IH] using rev_ind; [done|]. intros [H1 H2]%Forall_app.
  apply Forall_cons in H2 as [H2 _]. unfold digit in H2. specialize (IH H1).
  rewrite from_digits_snoc, zlen_app, pow10_add by (pose proof (zlen_nonneg ds); lia || done).
  change (10 ^ zlen [d]) with 10. lia.
Qed.

Lemma from_digits_cons d ds : from_digits (d :: ds) = d * 10 ^ zlen ds + from_digits ds.
Proof. change (d :: ds) with ([d] ++ ds). rewrite from_digits_app. cbn. lia. Qed.

Lemma from_digits_replicate ds n : 0 ≤ n → from_digits (ds ++ zeros n) = from_digits ds * 10 ^ n.
Proof.
  intros. rewrite from_digits_app, zlen_zeros by done.
  enough (from_digits (zeros n) = 0) by lia. unfold zeros.
  generalize (Z.to_nat n). intros m. induction m as [|m IH]; [done|].
  cbn [replicate]. rewrite from_digits_cons, IH. lia.
Qed.

(** What [digits] returns: the digits of the number, without a leading zero. *)
Definition digits_of (v : Z) (ds : bytes) : Prop :=
  from_digits ds = v ∧ Forall digit ds ∧ match ds with [] => v = 0 | h :: _ => h ≠ 0 end.

Lemma digits_loop_spec fuel v acc :
  0 ≤ v < 2 ^ Z.of_nat fuel → ∃ ds, digits_loop fuel v acc = ds ++ acc ∧ digits_of v ds.
Proof.
  revert v acc; induction fuel as [|fuel IH]; intros v acc Hv; cbn [digits_loop].
  { exists []. split; [done|]. split_and!; [cbn in *; lia|done|]. cbn in Hv. lia. }
  destruct (Z.eqb_spec v 0) as [-> | Hne]; [exists []; by split|].
  assert (2 ^ Z.of_nat (S fuel) = 2 * 2 ^ Z.of_nat fuel) as E
    by (rewrite Nat2Z.inj_succ, Z.pow_succ_r by lia; done).
  pose proof (Z.div_mod v 10 ltac:(lia)). pose proof (Z.mod_pos_bound v 10 ltac:(lia)).
  destruct (IH (v / 10) (v mod 10 :: acc)) as (ds & Hds & Hfrom & Hdig & Hhd).
  { split; [apply Z.div_pos; lia|]. apply Z.div_lt_upper_bound; lia. }
  exists (ds ++ [v mod 10]). rewrite Hds, <- app_assoc. split; [done|]. unfold digits_of.
  rewrite from_digits_snoc, Hfrom. split_and!; [lia| |].
  - apply Forall_app. split; [done|]. by apply Forall_singleton.
  - destruct ds; cbn; [lia|done].
Qed.

Lemma digits_spec v : 0 ≤ v → digits_of v (digits v).
Proof.
  intros Hv. unfold digits. destruct (digits_loop_spec (S (Z.to_nat (Z.log2 v))) v []) as (ds & -> & H).
  - split; [done|]. pose proof (Z.log2_nonneg v). rewrite Nat2Z.inj_succ, Z2Nat.id by done.
    destruct (decide (v = 0)) as [-> | ]; [done|]. apply Z.log2_spec. lia.
  - by rewrite app_nil_r.
Qed.

Lemma digits_of_bounds v ds : digits_of v ds → 0 ≤ v < 10 ^ zlen ds ∧ (v ≠ 0 → 1 ≤ zlen ds ∧ 10 ^ (zlen ds - 1) ≤ v).
Proof.
  intros (<- & Hd & Hhd). split; [by apply from_digits_bound|]. intros Hne.
  destruct ds as [|h t]; [done|]. apply Forall_cons in Hd as [Hh Ht].
  pose proof (from_digits_bound t Ht). pose proof (zlen_nonneg t). rewrite from_digits_cons, zlen_cons.
  unfold digit in Hh. replace (1 + zlen t - 1) with (zlen t) by lia. nia.
Qed.


(** ** Division and rescaling *)

(** No decimal at scale [s] is the rounded quotient [x / y]: it needs more than
    38 digits. *)
Definition too_long (x y s : Z) : Prop :=
  ∀ q, nearest_away q (x * 10 ^ s) y → MAX_COEFFICIENT < Z.abs q.

(** The correctly rounded quotient of [x] by [y]: nearest at its scale, with as
    many fractional digits as fit; an overflow means that not even the rounded
    integer quotient fits. *)
Definition rounded_quotient (o : result Decimal DecimalError) (x y : Z) : Prop :=
  match o with
  | Ok r => wf r ∧ nearest_away (coefficient r) (x * 10 ^ scale r) y ∧
            ∀ t, scale r < t ≤ 38 → too_long x y t
  | Err e => e = Overflow ∧ too_long x y 0
  end.

Lemma too_long_scale x y s k : 0 < k → too_long (x * k) (y * k) s ↔ too_long x y s.
Proof.
  intros Hk. unfold too_long. replace (x * k * 10 ^ s) with (x * 10 ^ s * k) by ring.
  by setoid_rewrite nearest_away_scale.
Qed.

Lemma rounded_quotient_scale o x y k :
  0 < k → rounded_quotient o (x * k) (y * k) ↔ rounded_quotient o x y.
Proof.
  intros Hk. assert (∀ t, too_long (x * k) (y * k) t ↔ too_long x y t) as Hl
    by (intros t; by apply too_long_scale).
  unfold rounded_quotient. destruct o as [r|e]; [|by rewrite Hl].
  replace (x * k * 10 ^ scale r) with (x * 10 ^ scale r * k) by ring.
  rewrite nearest_away_scale by done. by setoid_rewrite Hl.
Qed.

Lemma div_loop_spec fuel n d s :
  fuel = S (Z.to_nat s) → 0 ≤ s ≤ 38 → d ≠ 0 → (∀ t, s < t ≤ 38 → too_long n d t) →
  rounded_quotient (div_loop fuel n d s) n d.
Proof.
  revert s; induction fuel as [|fuel IH]; intros s Hf Hs Hd Hinv; [done|]. cbn [div_loop].
  pose proof (div_rounded_spec n d s Hd) as Hq. set (q := div_rounded n d s) in *.
  destruct (Z.leb_spec (Z.abs q) MAX_COEFFICIENT) as [Hle|Hgt].
  { rewrite max_coefficient_i128 by done. cbn [ok_or result_bind].
    rewrite Decimal_new_ok by lia. cbn. split_and!; try done. }
  assert (too_long n d s) as Hlong.
  { intros q' Hq'. by rewrite (nearest_away_unique q' q _ _ Hd Hq' Hq). }
  destruct (Z.eqb_spec s 0) as [-> | Hne]; [by split|].
  apply IH; [lia..|done|]. intros t Ht. destruct (decide (t = s)) as [-> | ]; [done|]. apply Hinv. lia.
Qed.

(** A quotient of at least 10^k is too long from scale [38 - k] on. *)
Lemma too_long_digits n d k s :
  d ≠ 0 → 10 ^ k * Z.abs d ≤ Z.abs n → 0 ≤ k → 38 ≤ k + s → 0 ≤ s → too_long n d s.
Proof.
  intros Hd Hk Hk0 Hks Hs q Hq. apply nearest_away_bound with (n := 10 ^ 38) in Hq; [|done|].
  - unfold MAX_COEFFICIENT. lia.
  - assert (10 ^ 38 ≤ 10 ^ (k + s)) by (apply Z.pow_le_mono_r; lia). rewrite pow10_add in * by lia.
    rewrite Z.abs_mul, (Z.abs_eq (10 ^ s)) by (pose proof (pow10_pos s); lia).
    pose proof (pow10_pos s ltac:(lia)). pose proof (pow10_pos k ltac:(lia)). nia.
Qed.

Lemma quot_abs_le n d m : d ≠ 0 → m ≤ Z.abs (Z.quot n d) → m * Z.abs d ≤ Z.abs n.
Proof.
  intros Hd Hm. rewrite <- Z.quot_abs in Hm by done.
  pose proof (Z.mul_quot_le (Z.abs n) (Z.abs d) ltac:(lia) ltac:(lia)). nia.
Qed.

Lemma div_spec n d :
  d ≠ 0 →
  let integral := Z.abs (Z.quot n d) in
  let count := if integral =? 0 then 0 else zlen (digits integral) in
  rounded_quotient
    (if 38 <? count then Err Overflow else div_loop (S (Z.to_nat (38 - count))) n d (38 - count)) n d.
Proof.
  intros Hd integral count. destruct (digits_of_bounds _ _ (digits_spec integral ltac:(lia))) as [_ Hlow].
  assert (0 ≤ count ∧ (count ≠ 0 → 1 ≤ count ∧ 10 ^ (count - 1) * Z.abs d ≤ Z.abs n)) as [Hc0 Hc].
  { unfold count in *. destruct (Z.eqb_spec integral 0); [lia|]. destruct Hlow as [H1 H2]; [done|].
    split; [lia|]. intros _. split; [lia|]. by apply quot_abs_le. }
  destruct (Z.ltb_spec 38 count) as [Hgt|Hle].
  - split; [done|]. destruct Hc as [_ Hc]; [lia|]. eapply (too_long_digits _ _ (count - 1)); lia || done.
  - apply div_loop_spec; [done|lia|done|]. intros t Ht.
    destruct Hc as [_ Hc]; [lia|]. eapply (too_long_digits _ _ (count - 1)); lia || done.
Qed.

(** C32: division rounds once.  The quotient is the decimal nearest to the exact
    quotient of the values at its scale (ties away from zero), no larger scale
    leaves room for 38 digits, and overflow is reported only when even the
    quotient rounded to an integer has more than 38 digits. *)
Theorem decimal_div_rounded a b :
  wf a → wf b →
  if coefficient b =? 0 then checked_div a b = Err DivisionByZero
  else rounded_quotient (checked_div a b) (value a) (value b).
Proof.
  intros [_ Ha] [_ Hb]. unfold checked_div. destruct (Z.eqb_spec (coefficient b) 0) as [|Hne]; [done|].
  pose proof (pow10_pos (scale a) ltac:(lia)). pose proof (pow10_pos (scale b) ltac:(lia)).
  set (n := coefficient a * ten (scale b)). set (d := coefficient b * ten (scale a)).
  assert (value a * (10 ^ scale a * 10 ^ scale b) = n * 10 ^ 38) as En.
  { unfold value, n, ten. rewrite (pow10_split 38 (scale a)) by lia. ring. }
  assert (value b * (10 ^ scale a * 10 ^ scale b) = d * 10 ^ 38) as Ed.
  { unfold value, d, ten. rewrite (pow10_split 38 (scale b)) by lia. ring. }
  rewrite <- (rounded_quotient_scale _ _ _ (10 ^ scale a * 10 ^ scale b)), En, Ed by nia.
  rewrite rounded_quotient_scale by lia. apply div_spec. unfold d, ten. nia.
Qed.

Lemma decimal_div_rounded_witness :
  let a := {| coefficient := 2; scale := 0 |} in
  let b := {| coefficient := -3; scale := 0 |} in
  rounded_quotient (checked_div a b) (value a) (value b).
Proof. apply (decimal_div_rounded _ {| coefficient := -3; scale := 0 |}); by vm_compute. Defined.

(** [rescale]: nearest at the requested scale. *)
Lemma rescale_spec d s :
  wf d → 0 ≤ s →
  match rescale d s with
  | Ok r => wf r ∧ scale r = s ∧ nearest_away (coefficient r) (coefficient d * 10 ^ s) (10 ^ scale d)
  | Err e => e = Overflow ∧ (38 < s ∨ too_long (coefficient d) (10 ^ scale d) s)
  end.
Proof.
  intros [Hc Hd] Hs. unfold rescale, ten. destruct (Z.ltb_spec 38 s); [split; [done|by left]|].
  pose proof (pow10_pos (scale d) ltac:(lia)) as Hp.
  destruct (Z.leb_spec (scale d) s) as [Hle|Hgt].
  - set (c := coefficient d * 10 ^ (s - scale d)).
    assert (nearest_away c (coefficient d * 10 ^ s) (10 ^ scale d)) as Hn.
    { unfold nearest_away, c. rewrite (pow10_split s (scale d)) by lia.
      replace (coefficient d * 10 ^ (s - scale d) * 10 ^ scale d -
               coefficient d * (10 ^ scale d * 10 ^ (s - scale d))) with 0 by ring. lia. }
    destruct (Z.le_gt_cases (Z.abs c) MAX_COEFFICIENT).
    + rewrite max_coefficient_i128 by done. cbn [ok_or result_bind].
      rewrite Decimal_new_ok by done. split_and!; try done; cbn; lia.
    + assert (too_long (coefficient d) (10 ^ scale d) s).
      { intros q Hq. by rewrite (nearest_away_unique q c _ _ (Z.neq_sym _ _ (Z.lt_neq _ _ Hp)) Hq Hn). }
      unfold to_i128. destruct (_ && _); cbn [ok_or result_bind]; [|auto].
      rewrite Decimal_new_err by done. auto.
  - set (k := scale d - s). pose proof (pow10_pos k ltac:(lia)).
    assert (10 ^ k = 10 * 10 ^ (k - 1)) as Ek by (apply pow10_succ; lia).
    pose proof (pow10_pos (k - 1) ltac:(lia)).
    assert (Z.quot (10 ^ k) 2 = 5 * 10 ^ (k - 1)) as ->.
    { rewrite Ek. replace (10 * 10 ^ (k - 1)) with (5 * 10 ^ (k - 1) * 2) by ring.
      apply Z.quot_mul. lia. }
    assert (nearest_away (div_rounded (coefficient d) (10 ^ k) 0) (coefficient d * 10 ^ 0) (10 ^ k))
      as Hn by (apply div_rounded_spec; lia).
    rewrite Z.mul_1_r in Hn. unfold div_rounded, ten in Hn. rewrite Z.mul_1_r in Hn.
    match goal with |- context [Decimal_new ?x _] => set (q := x) end.
    assert (nearest_away q (coefficient d) (10 ^ k)) as Hq.
    { unfold q. revert Hn. set (r := Z.rem (coefficient d) (10 ^ k)).
      rewrite (Z.abs_eq (10 ^ k)), (Z.sgn_pos (10 ^ k)) by lia.
      destruct (Z.leb_spec (10 ^ k) (Z.abs r * 2)) as [Hr|Hr];
        destruct (Z.leb_spec (5 * 10 ^ (k - 1)) (Z.abs r)); try lia; [|done].
      assert (coefficient d ≠ 0) as Hne.
      { intros E. unfold r in Hr. rewrite E, Z.rem_0_l in Hr; lia. }
      destruct (Z.eqb_spec (Z.sgn (coefficient d)) 1) as [-> | ]; [done|].
      by replace (Z.sgn (coefficient d)) with (-1) by lia. }
    assert (Z.abs q ≤ MAX_COEFFICIENT) as Hmax.
    { destruct Hq as [Hq _]. revert Hc Hq. unfold MAX_COEFFICIENT. rewrite Ek. nia. }
    rewrite Decimal_new_ok by lia. split; [split; cbn; lia|]. split; [done|]. cbn.
    rewrite (pow10_split (scale d) s) by lia. fold k.
    rewrite (Z.mul_comm (10 ^ s)). apply nearest_away_scale; [|done]. by apply pow10_pos.
Qed.

Lemma precision_loop_spec fuel v n :
  0 ≤ v < 10 ^ (Z.of_nat fuel + 1) →
  ∃ k, 0 ≤ k ∧ precision_loop fuel v n = n + k ∧ v < 10 ^ (k + 1) ∧ (k = 0 ∨ 10 ^ k ≤ v).
Proof.
  revert v n; induction fuel as [|fuel IH]; intros v n Hv; cbn [precision_loop].
  { exists 0. cbn in *. lia. }
  destruct (Z.leb_spec 10 v) as [Hle|Hlt]; [|exists 0; lia].
  pose proof (Z.div_mod v 10 ltac:(lia)). pose proof (Z.mod_pos_bound v 10 ltac:(lia)).
  rewrite (pow10_succ (Z.of_nat (S fuel) + 1)) in Hv by lia.
  replace (Z.of_nat (S fuel) + 1 - 1) with (Z.of_nat fuel + 1) in Hv by lia.
  destruct (IH (v / 10) (n + 1)) as (k & Hk & -> & Hup & Hlow).
  { split; [apply Z.div_pos; lia|]. apply Z.div_lt_upper_bound; lia. }
  exists (k + 1). rewrite (pow10_succ (k + 1 + 1)), (pow10_succ (k + 1)) by lia.
  replace (k + 1 + 1 - 1) with (k + 1) by lia. replace (k + 1 - 1) with k by lia.
  split_and!; [lia..|]. right. destruct Hlow as [-> | ]; [cbn; lia|lia].
Qed.

(** [precision] counts digits. *)
Lemma precision_le d p : wf d → 1 ≤ p → precision d ≤ p ↔ Z.abs (coefficient d) < 10 ^ p.
Proof.
  intros [Hc _] Hp. unfold precision, MAX_COEFFICIENT in *.
  destruct (precision_loop_spec 39 (Z.abs (coefficient d)) 1) as (k & Hk & -> & Hup & Hlow).
  { cbn. lia. }
  split; intros H.
  - eapply Z.lt_le_trans; [exact Hup|]. apply Z.pow_le_mono_r; lia.
  - destruct Hlow as [-> | Hlow]; [lia|].
    assert (k < p); [|lia]. apply (Z.pow_lt_mono_r_iff 10); lia.
Qed.

Definition too_many_digits (x y s p : Z) : Prop :=
  ∀ q, nearest_away q (x * 10 ^ s) y → 10 ^ p ≤ Z.abs q.

(** Coercion to DECIMAL(p,s).  The result is accepted by the declared type
    and is the value rounded once to scale [s]; it is refused only when the
    rounded value has more than [p] digits, and a value the type accepts is
    kept as it is. *)
Theorem decimal_coerce_rounds p s t d :
  0 ≤ s → 0 ≤ p → DecimalType_new p s = Ok t → wf d →
  match DecimalType_coerce t d with
  | Ok r => wf r ∧ DecimalType_accepts t r = true ∧
            nearest_away (coefficient r) (coefficient d * 10 ^ s) (10 ^ scale d)
  | Err e => e = Overflow ∧ too_many_digits (coefficient d) (10 ^ scale d) s p
  end ∧
  (DecimalType_accepts t d = true → DecimalType_coerce t d = Ok d).
Proof.
  intros Hs Hp Ht Hd. unfold DecimalType_new, MAX_PRECISION in Ht.
  destruct (Z.eqb_spec p 0), (Z.ltb_spec 38 p), (Z.ltb_spec p s); try done. injection Ht as <-.
  unfold DecimalType_coerce, DecimalType_accepts; cbn [dt_scale dt_precision].
  assert (10 ^ p ≤ 10 ^ 38) by (apply Z.pow_le_mono_r; lia). split.
  - pose proof (rescale_spec d s Hd Hs) as Hre. destruct (rescale d s) as [r|e]; cbn [result_bind].
    + destruct Hre as (Hr & Es & Hn). destruct (Z.ltb_spec p (precision r)) as [Hgt|Hle].
      * split; [done|]. intros q Hq. pose proof (pow10_pos (scale d) ltac:(destruct Hd; lia)) as Hp10.
        rewrite (nearest_away_unique q _ _ _ (Z.neq_sym _ _ (Z.lt_neq _ _ Hp10)) Hq Hn).
        destruct (Z.le_gt_cases (10 ^ p) (Z.abs (coefficient r))) as [|Hlt]; [done|].
        apply precision_le in Hlt; [lia|done|lia].
      * split_and!; [done| |done]. by rewrite Es, Z.eqb_refl, (proj2 (Z.leb_le _ _) Hle).
    + destruct Hre as [-> [?|Hl]]; [lia|]. split; [done|]. intros q Hq%Hl. unfold MAX_COEFFICIENT in *. lia.
  - intros [Es%Z.eqb_eq Hp'%Z.leb_le]%andb_true_iff. destruct d as [c s']. cbn in Es. subst s'.
    unfold rescale. cbn [scale coefficient]. rewrite (proj2 (Z.ltb_ge 38 s)), Z.leb_refl by lia.
    unfold ten. rewrite Z.sub_diag, Z.mul_1_r, max_coefficient_i128 by apply Hd.
    cbn [ok_or result_bind]. rewrite Decimal_new_ok by (destruct Hd; cbn in *; lia).
    cbn [result_bind]. by rewrite (proj2 (Z.ltb_ge _ _) Hp').
Qed.

Lemma decimal_coerce_rounds_witness :
  let t := {| dt_precision := 3; dt_scale := 1 |} in
  let d := {| coefficient := -1235; scale := 2 |} in
  match DecimalType_coerce t d with
  | Ok r => wf r ∧ DecimalType_accepts t r = true ∧
            nearest_away (coefficient r) (coefficient d * 10 ^ 1) (10 ^ scale d)
  | Err e => e = Overflow ∧ too_many_digits (coefficient d) (10 ^ scale d) 1 3
  end.
Proof.
  apply (decimal_coerce_rounds 3 1 {| dt_precision := 3; dt_scale := 1 |}
           {| coefficient := -1235; scale := 2 |}); by vm_compute.
Defined.

(** [impl From<i64> for Decimal]. *)
Definition Decimal_from_i64 (n : Z) : Decimal := {| coefficient := n; scale := 0 |}.

(** Conversion to BIGINT is exact: it succeeds on exactly the values that
    are 64-bit integers, tells a fraction from a range error, and inverts the
    conversion from BIGINT. *)
Theorem decimal_to_i64_exact d :
  wf d →
  match to_i64 d with
  | Ok n => is_i64 n ∧ value d = n * 10 ^ 38
  | Err Fractional => ∀ n, value d ≠ n * 10 ^ 38
  | Err IntegerOutOfRange => ∃ n, value d = n * 10 ^ 38 ∧ ¬ is_i64 n
  | Err _ => False
  end ∧
  ∀ n, is_i64 n → wf (Decimal_from_i64 n) ∧ to_i64 (Decimal_from_i64 n) = Ok n.
Proof.
  intros [Hc Hs]. split.
  - unfold to_i64. pose proof (pow10_pos (scale d) ltac:(lia)) as Hp.
    pose proof (Z.quot_rem' (coefficient d) (10 ^ scale d)) as Hq.
    assert (∀ n, coefficient d = n * 10 ^ scale d ↔ value d = n * 10 ^ 38) as Hv.
    { intros n. unfold value. rewrite (pow10_split 38 (scale d)) by lia.
      pose proof (pow10_pos (38 - scale d) ltac:(lia)). split; intros; nia. }
    destruct (Z.eqb_spec (Z.rem (coefficient d) (10 ^ scale d)) 0) as [E|E]; cbn [negb].
    + unfold i64_try_from, i64_min, i64_max, ok_or, is_i64. set (q := Z.quot _ _) in *.
      assert (value d = q * 10 ^ 38) as Hvq by (apply Hv; lia).
      destruct (Z.leb_spec (- 2 ^ 63) q), (Z.leb_spec q (2 ^ 63 - 1)); cbn [andb].
      * split; [lia|done].
      * exists q. lia.
      * exists q. lia.
      * exists q. lia.
    + intros n Hn%Hv. apply E. rewrite Hn. apply Z.rem_mul. lia.
  - intros n Hn. unfold is_i64, Decimal_from_i64, wf, to_i64, MAX_COEFFICIENT in *. cbn [coefficient scale].
    split; [lia|]. rewrite Z.rem_1_r, Z.quot_1_r. cbn. unfold i64_try_from, i64_min, i64_max.
    by rewrite !(proj2 (Z.leb_le _ _)) by lia.
Qed.

Lemma decimal_to_i64_exact_witness :
  to_i64 {| coefficient := 700; scale := 2 |} = Ok 7 ∧
  (is_i64 7 ∧ value {| coefficient := 700; scale := 2 |} = 7 * 10 ^ 38).
Proof.
  split; [reflexivity|]. apply (decimal_to_i64_exact {| coefficient := 700; scale := 2 |}).
  by vm_compute.
Defined.
