(* ===== verification/DecimalOrder.v ===== *)
(** Decimal order: the ordered byte encoding and its numeric order, normal
    forms, the successor in the bounded domain, and the 17-byte encoding
    (crates/core/src/decimal.rs). *)
From S2P Require Import Prelude Decimal DecimalArith.

(** ** The 17-byte encoding *)

(** [i128::to_le_bytes] and [i128::from_le_bytes]. *)
Definition i128_to_le_bytes (z : Z) : bytes := le_bytes 16 (z mod 2 ^ 128).
Definition i128_from_le_bytes (bs : bytes) : Z :=
  let w := le_val bs in if w <? 2 ^ 127 then w else w - 2 ^ 128.

Definition to_le_bytes (d : Decimal) : bytes := i128_to_le_bytes (coefficient d) ++ [scale d].
(** [from_le_bytes], on an array of 17 bytes. *)
Definition from_le_bytes (bs : bytes) : result Decimal DecimalError :=
  map_err (λ _, InvalidEncoding)
    (Decimal_new (i128_from_le_bytes (zslice bs 0 16)) (default 0 (zget bs 16))).

(** ** The ordered encoding *)

(** [!byte] of a [u8]. *)
Definition not_u8 (b : Z) : Z := 255 - b.

Definition to_ordered_bytes (d : Decimal) : bytes :=
  let c := coefficient d in
  if c =? 0 then 1 :: zeros 39
  else
    let ds := digits (Z.abs c) in
    let count := zlen ds in
    let body := (count + 38 - scale d) mod 256 :: ds ++ zeros (38 - count) in
    (if c <? 0 then 0 else 2) :: (if c <? 0 then not_u8 <$> body else body).

Fixpoint strip_loop (fuel : nat) (bound c s : Z) : Z * Z :=
  match fuel with
  | O => (c, s)
  | S fuel =>
      if (bound <? s) && (Z.rem c 10 =? 0) then strip_loop fuel bound (Z.quot c 10) (s - 1)
      else (c, s)
  end.

(** [from_ordered_bytes], on an array of 40 bytes; other lengths cannot occur. *)
Definition from_ordered_bytes (encoded : bytes) : result Decimal DecimalError :=
  match encoded with
  | [] => Err InvalidEncoding
  | tag :: body =>
      if (tag =? 1) && forallb (λ byte, byte =? 0) body then Ok Decimal_ZERO
      else if (tag =? 0) || (tag =? 2) then
        match (if tag =? 0 then not_u8 <$> body else body) with
        | e :: first :: ds =>
            if negb ((1 <=? e) && (e <=? 76)) || (first =? 0)
               || existsb (λ byte, 9 <? byte) (first :: ds)
            then Err InvalidEncoding
            else
              let c := from_digits (first :: ds) in
              let c := if tag =? 0 then - c else c in
              let s := 76 - e in
              let (c, s) := strip_loop (Z.to_nat s) 38 c s in
              map_err (λ _, InvalidEncoding) (Decimal_new c s)
        | _ => Err InvalidEncoding
        end
      else Err InvalidEncoding
  end.

(** [normalized], which equality and hashing compare. *)
Definition normalized (d : Decimal) : Z * Z :=
  strip_loop (Z.to_nat (scale d)) 0 (coefficient d) (scale d).
Definition Decimal_eq (a b : Decimal) : bool := bool_decide (normalized a = normalized b).

(** [Ord] on byte arrays: lexicographic. *)
Fixpoint bytes_cmp (a b : bytes) : comparison :=
  match a, b with
  | [], [] => Eq
  | [], _ => Lt
  | _, [] => Gt
  | x :: a, y :: b => match x ?= y with Eq => bytes_cmp a b | c => c end
  end.
Definition Decimal_cmp (a b : Decimal) : comparison :=
  bytes_cmp (to_ordered_bytes a) (to_ordered_bytes b).

(** The loop of [next_up] over the scales 38, 37, .., 0. *)
Fixpoint next_up_loop (scaled : Z) (scales : list Z) : option Decimal :=
  match scales with
  | [] => None
  | s :: scales =>
      let candidate := scaled + 1 in
      if Z.abs candidate <=? MAX_COEFFICIENT then
        match to_i128 candidate with
        | Some c => match Decimal_new c s with Ok d => Some d | Err _ => None end
        | None => None
        end
      else
        let negative_fraction := (scaled <? 0) && negb (Z.rem scaled 10 =? 0) in
        let scaled := Z.quot scaled 10 in
        next_up_loop (if negative_fraction then scaled - 1 else scaled) scales
  end.
Definition next_up (d : Decimal) : option Decimal :=
  next_up_loop (coefficient d * ten (38 - scale d)) (reverse (Z.of_nat <$> seq 0 39)).

(** ** Order *)

(** The ordered body [e :: ds] of a nonzero magnitude [v] (in units of 10^-38):
    [v] is [0.d1 d2 .. d38] times 10^(e - 38), with d1 not zero. *)
Record ordered_body (v : Z) (e : Z) (ds : bytes) : Prop := {
  ob_exponent : 1 ≤ e ≤ 76;
  ob_length : length ds = 38%nat;
  ob_digits : Forall digit ds;
  ob_leading : 10 ^ 37 ≤ from_digits ds < 10 ^ 38;
  ob_value : from_digits ds * 10 ^ e = v * 10 ^ 38;
}.

Lemma to_ordered_bytes_body d :
  wf d → coefficient d ≠ 0 →
  ∃ e ds, ordered_body (Z.abs (value d)) e ds ∧
    to_ordered_bytes d =
      if coefficient d <? 0 then 0 :: (not_u8 <$> (e :: ds)) else 2 :: e :: ds.
Proof.
  intros [Hc Hs] Hne. unfold to_ordered_bytes. rewrite (proj2 (Z.eqb_neq _ 0) Hne).
  pose proof (digits_spec (Z.abs (coefficient d)) ltac:(lia)) as Hd.
  destruct (digits_of_bounds _ _ Hd) as [Hb Hlow]. destruct Hlow as [Hlen Hlow]; [lia|].
  destruct Hd as (Hfrom & Hdig & _). set (ds := digits (Z.abs (coefficient d))) in *.
  assert (zlen ds ≤ 38) as Hlen'.
  { assert (zlen ds - 1 < 38); [|lia]. apply (Z.pow_lt_mono_r_iff 10); [lia..|].
    unfold MAX_COEFFICIENT in Hc. lia. }
  assert (from_digits (ds ++ zeros (38 - zlen ds)) = Z.abs (coefficient d) * 10 ^ (38 - zlen ds)) as Hm
    by (rewrite from_digits_replicate, Hfrom by lia; done).
  pose proof (pow10_pos (38 - zlen ds) ltac:(lia)).
  exists (zlen ds + 38 - scale d), (ds ++ zeros (38 - zlen ds)).
  rewrite (Z.mod_small (zlen ds + 38 - scale d) 256) by lia.
  split; [|by destruct (coefficient d <? 0)]. constructor.
  - lia.
  - rewrite length_app. unfold zeros. rewrite length_replicate. unfold zlen in *. lia.
  - apply Forall_app. split; [done|]. apply Forall_replicate. unfold digit. lia.
  - rewrite Hm. replace (10 ^ 37) with (10 ^ (zlen ds - 1) * 10 ^ (38 - zlen ds))
      by (rewrite <- pow10_add by lia; f_equal; lia).
    replace (10 ^ 38) with (10 ^ zlen ds * 10 ^ (38 - zlen ds))
      by (rewrite <- pow10_add by lia; f_equal; lia). nia.
  - rewrite Hm. unfold value. rewrite Z.abs_mul, (Z.abs_eq (10 ^ _)) by (pose proof (pow10_pos (38 - scale d)); lia).
    rewrite <- !Z.mul_assoc, <- !pow10_add by lia. do 2 f_equal. lia.
Qed.

Lemma bytes_cmp_digits ds es :
  length ds = length es → Forall digit ds → Forall digit es →
  bytes_cmp ds es = (from_digits ds ?= from_digits es).
Proof.
  revert es; induction ds as [|d ds IH]; intros [|e es] Hlen; try done.
  intros [Hd Hds]%Forall_cons [He Hes]%Forall_cons. cbn [bytes_cmp].
  injection Hlen as Hlen. rewrite IH by done. rewrite !from_digits_cons.
  pose proof (from_digits_bound ds Hds). pose proof (from_digits_bound es Hes).
  assert (zlen es = zlen ds) as E by (unfold zlen; lia). rewrite E in *.
  destruct (Z.compare_spec d e) as [-> | Hlt | Hgt].
  - destruct (Z.compare_spec (from_digits ds) (from_digits es)); symmetry;
      [apply Z.compare_eq_iff|apply Z.compare_lt_iff|apply Z.compare_gt_iff]; lia.
  - symmetry. apply Z.compare_lt_iff. nia.
  - symmetry. apply Z.compare_gt_iff. nia.
Qed.

Lemma bytes_cmp_not a b :
  length a = length b → bytes_cmp (not_u8 <$> a) (not_u8 <$> b) = CompOpp (bytes_cmp a b).
Proof.
  revert b; induction a as [|x a IH]; intros [|y b] Hlen; try done. injection Hlen as Hlen.
  rewrite !fmap_cons. cbn [bytes_cmp]. rewrite IH by done.
  assert ((not_u8 x ?= not_u8 y) = CompOpp (x ?= y)) as ->; [|by destruct (x ?= y)].
  unfold not_u8. destruct (Z.compare_spec x y); cbn;
    [apply Z.compare_eq_iff|apply Z.compare_gt_iff|apply Z.compare_lt_iff]; lia.
Qed.

Lemma ordered_body_cmp v w e ds e' ds' :
  ordered_body v e ds → ordered_body w e' ds' → bytes_cmp (e :: ds) (e' :: ds') = (v ?= w).
Proof.
  intros [He Hl Hd Hb Hv] [He' Hl' Hd' Hb' Hv']. cbn [bytes_cmp].
  rewrite bytes_cmp_digits by congruence || done.
  rewrite (Zmult_compare_compat_r v w (10 ^ 38)) by lia. rewrite <- Hv, <- Hv'.
  assert (∀ e e' m m', 1 ≤ e → e < e' → 10 ^ 37 ≤ m < 10 ^ 38 → 10 ^ 37 ≤ m' < 10 ^ 38 →
    m * 10 ^ e < m' * 10 ^ e') as Hexp.
  { intros a a' m m' Ha Haa Hm Hm'. rewrite (pow10_split a' (a + 1)), pow10_add by lia.
    pose proof (pow10_pos a ltac:(lia)). pose proof (pow10_pos (a' - (a + 1)) ltac:(lia)).
    apply (Z.lt_le_trans _ (10 * m' * 10 ^ a)); [apply Z.mul_lt_mono_pos_r; lia|].
    replace (m' * (10 ^ a * 10 ^ 1 * 10 ^ (a' - (a + 1))))
      with (10 * m' * 10 ^ a * 10 ^ (a' - (a + 1))) by (change (10 ^ 1) with 10; ring).
    apply Z.le_mul_diag_r; [|lia]. apply Z.mul_pos_pos; lia. }
  destruct (Z.compare_spec e e') as [-> | Hlt | Hgt].
  - apply Zmult_compare_compat_r. pose proof (pow10_pos e'). lia.
  - symmetry. apply Z.compare_lt_iff. apply Hexp; lia.
  - symmetry. apply Z.compare_gt_iff. apply Hexp; lia.
Qed.

Lemma value_sign d : wf d → (value d <? 0) = (coefficient d <? 0) ∧ (value d =? 0) = (coefficient d =? 0).
Proof.
  intros [_ Hs]. unfold value. pose proof (pow10_pos (38 - scale d) ltac:(lia)).
  split; repeat case_bool; nia || done.
Qed.

Lemma Decimal_cmp_value a b : wf a → wf b → Decimal_cmp a b = (value a ?= value b).
Proof.
  intros Ha Hb. unfold Decimal_cmp. destruct (value_sign a Ha) as [Ha1 Ha2].
  destruct (value_sign b Hb) as [Hb1 Hb2].
  destruct (Z.eqb_spec (coefficient a) 0) as [E|E], (Z.eqb_spec (coefficient b) 0) as [E'|E'].
  all: repeat match goal with
       | Hw : wf ?d, Hne : coefficient ?d ≠ 0 |- _ =>
           let e := fresh "e" in let ds := fresh "ds" in let Hob := fresh "Hob" in
           destruct (to_ordered_bytes_body d Hw Hne) as (e & ds & Hob & ->); clear Hne
       | Hz : coefficient ?d = 0 |- _ =>
           assert (to_ordered_bytes d = 1 :: zeros 39) as ->
             by (unfold to_ordered_bytes; by rewrite Hz); clear Hz
       end.
  - apply Z.eqb_eq in Ha2, Hb2. rewrite Ha2, Hb2. reflexivity.
  - apply Z.eqb_eq in Ha2. rewrite <- Hb1, Ha2. apply Z.eqb_neq in Hb2.
    destruct (Z.ltb_spec (value b) 0); [transitivity Gt|transitivity Lt]; try reflexivity; symmetry;
      [apply Z.compare_gt_iff|apply Z.compare_lt_iff]; lia.
  - apply Z.eqb_eq in Hb2. rewrite <- Ha1, Hb2. apply Z.eqb_neq in Ha2.
    destruct (Z.ltb_spec (value a) 0); [transitivity Lt|transitivity Gt]; try reflexivity; symmetry;
      [apply Z.compare_lt_iff|apply Z.compare_gt_iff]; lia.
  - rewrite <- Ha1, <- Hb1. apply Z.eqb_neq in Ha2, Hb2.
    destruct (Z.ltb_spec (value a) 0), (Z.ltb_spec (value b) 0).
    + lazymatch goal with |- bytes_cmp (_ :: ?x) (_ :: ?y) = _ => change (bytes_cmp x y = (value a ?= value b)) end.
      rewrite bytes_cmp_not by (cbn; rewrite (ob_length _ _ _ Hob), (ob_length _ _ _ Hob0); done).
      rewrite (ordered_body_cmp _ _ _ _ _ _ Hob0 Hob), <- Z.compare_antisym.
      rewrite !Z.abs_neq by lia. by rewrite Z.compare_opp.
    + transitivity Lt; [done|]. symmetry. apply Z.compare_lt_iff. lia.
    + transitivity Gt; [done|]. symmetry. apply Z.compare_gt_iff. lia.
    + lazymatch goal with |- bytes_cmp (_ :: ?x) (_ :: ?y) = _ => change (bytes_cmp x y = (value a ?= value b)) end.
      rewrite (ordered_body_cmp _ _ _ _ _ _ Hob0 Hob). by rewrite !Z.abs_eq by lia.
Qed.

(** ** Normal forms and the ordered round trip *)

Lemma strip_loop_spec fuel b c s c' s' :
  fuel = Z.to_nat s → 0 ≤ s → 0 ≤ b → strip_loop fuel b c s = (c', s') →
  0 ≤ s' ≤ s ∧ c = c' * 10 ^ (s - s') ∧ (s' ≤ b ∨ Z.rem c' 10 ≠ 0).
Proof.
  revert c s; induction fuel as [|fuel IH]; intros c s Hf Hs Hb; cbn [strip_loop].
  { intros [= <- <-]. rewrite Z.sub_diag, Z.mul_1_r. split_and!; lia. }
  destruct (Z.ltb_spec b s) as [Hlt|Hge]; cbn [andb].
  - destruct (Z.eqb_spec (Z.rem c 10) 0) as [E|E].
    + intros (Hs' & Hc & Hor)%IH; [|lia..]. split_and!; [lia..| |done].
      assert (c = 10 * Z.quot c 10) as -> by (pose proof (Z.quot_rem' c 10); lia).
      rewrite Hc, (pow10_succ (s - s')) by lia. replace (s - s' - 1) with (s - 1 - s') by lia. ring.
    + intros [= <- <-]. rewrite Z.sub_diag, Z.mul_1_r. split_and!; lia || by right.
  - intros [= <- <-]. rewrite Z.sub_diag, Z.mul_1_r. split_and!; lia.
Qed.

Lemma canonical_le c s c' s' :
  0 ≤ s → 0 ≤ s' → c * 10 ^ s' = c' * 10 ^ s → (s' ≤ 0 ∨ Z.rem c' 10 ≠ 0) → s' ≤ s.
Proof.
  intros Hs Hs' E Hor. destruct (Z.le_gt_cases s' s) as [|Hlt]; [done|].
  destruct Hor as [?|Hor]; [lia|]. destruct Hor.
  rewrite (pow10_split s' s) in E by lia.
  assert (c' = c * 10 ^ (s' - s)) as ->; [|apply rem10_mul; lia].
  apply (Z.mul_reg_r _ _ (10 ^ s)); [pose proof (pow10_pos s); lia|]. rewrite <- E. ring.
Qed.

Lemma normalized_value a b : wf a → wf b → normalized a = normalized b ↔ value a = value b.
Proof.
  intros [_ Ha] [_ Hb]. unfold normalized.
  destruct (strip_loop (Z.to_nat (scale a)) _ _ _) as [c s] eqn:Ea.
  destruct (strip_loop (Z.to_nat (scale b)) _ _ _) as [c' s'] eqn:Eb.
  apply strip_loop_spec in Ea as (Hs & Hc & Hor); [|lia..].
  apply strip_loop_spec in Eb as (Hs' & Hc' & Hor'); [|lia..].
  assert (value a = c * 10 ^ (38 - s)) as Va.
  { unfold value. rewrite Hc, <- Z.mul_assoc, <- pow10_add by lia. do 2 f_equal. lia. }
  assert (value b = c' * 10 ^ (38 - s')) as Vb.
  { unfold value. rewrite Hc', <- Z.mul_assoc, <- pow10_add by lia. do 2 f_equal. lia. }
  rewrite Va, Vb. split; [by intros [= -> ->]|]. intros E.
  assert (c * 10 ^ s' = c' * 10 ^ s) as E'.
  { apply (Z.mul_reg_r _ _ (10 ^ (38 - s) * 10 ^ (38 - s')));
      [pose proof (pow10_pos (38 - s)); pose proof (pow10_pos (38 - s')); nia|].
    transitivity (c * 10 ^ (38 - s) * (10 ^ s' * 10 ^ (38 - s'))); [ring|].
    rewrite E, <- (pow10_split 38 s'), (pow10_split 38 s) by lia. ring. }
  assert (s' = s) as ->.
  { apply Z.le_antisymm; [by eapply (canonical_le c s c' s'); [lia..|]|].
    eapply (canonical_le c' s' c s); [lia..| |done]. congruence. }
  f_equal. apply (Z.mul_reg_r _ _ (10 ^ s)); [pose proof (pow10_pos s); lia|done].
Qed.

(** C31: comparison is numeric.  The ordered bytes of two decimals compare
    lexicographically exactly as their values do, whatever their scales, and
    the normal forms that equality and hashing use coincide exactly when the
    values do. *)
Theorem decimal_order_numeric a b :
  wf a → wf b →
  Decimal_cmp a b = (value a ?= value b) ∧ (Decimal_eq a b = true ↔ value a = value b).
Proof.
  intros Ha Hb. split; [by apply Decimal_cmp_value|].
  unfold Decimal_eq. rewrite bool_decide_eq_true. by apply normalized_value.
Qed.

Lemma decimal_order_numeric_witness :
  let a := {| coefficient := -10; scale := 1 |} in
  let b := {| coefficient := -99; scale := 2 |} in
  Decimal_cmp a b = (value a ?= value b) ∧ (Decimal_eq a b = true ↔ value a = value b).
Proof. apply decimal_order_numeric; by vm_compute. Defined.

(** Decoding a body of 38 digits. *)
Definition decode_body (negative : bool) (e : Z) (ds : bytes) : result Decimal DecimalError :=
  let c := from_digits ds in
  let c := if negative then - c else c in
  let s := 76 - e in
  let (c, s) := strip_loop (Z.to_nat s) 38 c s in
  map_err (λ _, InvalidEncoding) (Decimal_new c s).

Lemma decode_body_spec negative e ds :
  1 ≤ e ≤ 76 → 10 ^ 37 ≤ from_digits ds < 10 ^ 38 →
  match decode_body negative e ds with
  | Ok d => wf d ∧ from_digits ds * 10 ^ e = Z.abs (value d) * 10 ^ 38 ∧
            (coefficient d <? 0) = negative ∧ coefficient d ≠ 0
  | Err err => err = InvalidEncoding ∧
      ∀ d, wf d → from_digits ds * 10 ^ e ≠ Z.abs (value d) * 10 ^ 38
  end.
Proof.
  intros He Hm. unfold decode_body. set (m := from_digits ds) in *.
  destruct (strip_loop _ _ _ _) as [c s] eqn:E.
  apply strip_loop_spec in E as (Hs & Hc & Hor); [|lia..].
  pose proof (pow10_pos (76 - e - s) ltac:(lia)) as Hp.
  assert (m = Z.abs c * 10 ^ (76 - e - s)) as Hmc.
  { rewrite <- (Z.abs_eq (10 ^ (76 - e - s))), <- Z.abs_mul, <- Hc by lia. destruct negative; lia. }
  assert (Z.abs c ≤ MAX_COEFFICIENT) as Hmax by (unfold MAX_COEFFICIENT; nia).
  assert (m * 10 ^ e = Z.abs c * 10 ^ (76 - s)) as Hv.
  { rewrite Hmc, <- Z.mul_assoc, <- pow10_add by lia. do 2 f_equal. lia. }
  destruct (Z.le_gt_cases s 38) as [Hle|Hgt].
  - rewrite Decimal_new_ok by lia. cbn. split_and!; [split; cbn; lia| | |].
    + unfold value; cbn. rewrite Z.abs_mul, (Z.abs_eq (10 ^ _)) by (pose proof (pow10_pos (38 - s)); lia).
      rewrite Hv, <- Z.mul_assoc, <- pow10_add by lia. do 2 f_equal. lia.
    + destruct negative; case_bool; nia || done.
    + nia.
  - unfold Decimal_new. rewrite (proj2 (Z.ltb_lt 38 s)), orb_true_r by lia. cbn. split; [done|].
    intros d [_ Hd]. rewrite Hv. unfold value. destruct Hor as [?|Hor]; [lia|]. intros E. apply Hor.
    assert (Z.abs c = Z.abs (coefficient d) * 10 ^ (s - scale d)) as Ec.
    { apply (Z.mul_reg_r _ _ (10 ^ (76 - s))); [pose proof (pow10_pos (76 - s)); lia|].
      rewrite E, Z.abs_mul, (Z.abs_eq (10 ^ _)) by (pose proof (pow10_pos (38 - scale d)); lia).
      rewrite <- !Z.mul_assoc, <- !pow10_add by lia. do 2 f_equal. lia. }
    pose proof (rem10_mul (Z.abs (coefficient d)) (s - scale d) ltac:(lia)) as Hr. rewrite <- Ec in Hr.
    rewrite Z.rem_abs_l in Hr by lia. lia.
Qed.

Definition body_valid (e : Z) (ds : bytes) : bool :=
  match ds with
  | first :: _ => (1 <=? e) && (e <=? 76) && negb (first =? 0) && negb (existsb (λ byte, 9 <? byte) ds)
  | [] => false
  end.

Lemma from_ordered_tagged tag body e ds :
  tag = 0 ∨ tag = 2 → (if tag =? 0 then not_u8 <$> body else body) = e :: ds →
  from_ordered_bytes (tag :: body) =
    if body_valid e ds then decode_body (tag =? 0) e ds else Err InvalidEncoding.
Proof.
  intros Htag Hb. unfold from_ordered_bytes.
  rewrite (proj2 (Z.eqb_neq tag 1)) by lia. cbn [andb].
  assert ((tag =? 0) || (tag =? 2) = true) as ->
    by (destruct Htag as [-> | ->]; reflexivity). rewrite Hb.
  destruct ds as [|first ds]; [done|]. cbn [body_valid]. unfold decode_body.
  destruct ((1 <=? e) && (e <=? 76)), (first =? 0), (existsb _ _); done.
Qed.

Lemma body_valid_digits e ds :
  length ds = 38%nat → Forall (λ b, 0 ≤ b) ds → body_valid e ds = true →
  1 ≤ e ≤ 76 ∧ Forall digit ds ∧ 10 ^ 37 ≤ from_digits ds < 10 ^ 38.
Proof.
  intros Hl Hpos Hv. destruct ds as [|f ds]; [done|]. cbn [body_valid] in Hv.
  rewrite !andb_true_iff, !negb_true_iff, !Z.leb_le in Hv. destruct Hv as [[[? ?] Hf%Z.eqb_neq] He].
  assert (Forall digit (f :: ds)) as Hd.
  { rewrite Forall_forall in *. intros x Hx. specialize (Hpos x Hx). unfold digit. split; [done|].
    destruct (Z.lt_ge_cases 9 x) as [Hlt|]; [|lia]. exfalso.
    assert (existsb (λ byte, 9 <? byte) (f :: ds) = true); [|congruence].
    apply existsb_exists. exists x. split; [by apply list_elem_of_In|]. by apply Z.ltb_lt. }
  pose proof (from_digits_bound _ Hd) as Hb. apply Forall_cons in Hd as [Hdf Hds]. unfold digit in Hdf.
  assert (zlen ds = 37) as Hz by (unfold zlen; cbn in Hl; lia). rewrite zlen_cons, Hz in Hb.
  split_and!; [done..|by constructor| |lia]. rewrite from_digits_cons, Hz.
  pose proof (from_digits_bound ds Hds). lia.
Qed.

Lemma body_valid_ok v e ds : ordered_body v e ds → body_valid e ds = true.
Proof.
  intros [He Hl Hd Hb _]. destruct ds as [|f ds]; [done|]. cbn [body_valid].
  rewrite !andb_true_iff, !negb_true_iff, !Z.leb_le, Z.eqb_neq. split_and!; [lia..| |].
  - intros ->. rewrite from_digits_cons in Hb. apply Forall_cons in Hd as [_ Hd].
    pose proof (from_digits_bound ds Hd) as Hb'. assert (zlen ds = 37) as E by (unfold zlen; cbn in Hl; lia).
    rewrite E in Hb'. lia.
  - apply not_true_is_false. intros (x & Hx%list_elem_of_In & Hlt%Z.ltb_lt)%existsb_exists.
    rewrite Forall_forall in Hd. specialize (Hd x Hx). unfold digit in Hd. lia.
Qed.

Lemma not_u8_involutive (bs : bytes) : not_u8 <$> (not_u8 <$> bs) = bs.
Proof.
  rewrite <- list_fmap_compose. rewrite <- (list_fmap_id bs) at 2. apply list_fmap_ext.
  intros i x _. unfold not_u8; cbn. lia.
Qed.

Lemma bytes_cmp_eq a b : bytes_cmp a b = Eq → a = b.
Proof.
  revert b; induction a as [|x a IH]; intros [|y b]; try done. cbn.
  destruct (Z.compare_spec x y) as [-> | | ]; try done. intros ->%IH. done.
Qed.

Lemma ordered_roundtrip_encode d :
  wf d → ∃ d', from_ordered_bytes (to_ordered_bytes d) = Ok d' ∧ wf d' ∧ value d' = value d.
Proof.
  intros Hd. destruct (Z.eqb_spec (coefficient d) 0) as [E|E].
  { exists Decimal_ZERO. assert (to_ordered_bytes d = 1 :: zeros 39) as ->
      by (unfold to_ordered_bytes; by rewrite E). split_and!; [done|done..|]. unfold value. rewrite E. done. }
  destruct (to_ordered_bytes_body d Hd E) as (e & ds & Hob & ->).
  assert (from_ordered_bytes (if coefficient d <? 0 then 0 :: (not_u8 <$> (e :: ds)) else 2 :: e :: ds) =
          decode_body (coefficient d <? 0) e ds) as ->.
  { pose proof (body_valid_ok _ _ _ Hob) as Hv. destruct (coefficient d <? 0).
    - rewrite (from_ordered_tagged 0 _ e ds), Hv; [done|by left|]. apply not_u8_involutive.
    - rewrite (from_ordered_tagged 2 _ e ds), Hv; [done|by right|done]. }
  pose proof (decode_body_spec (coefficient d <? 0) e ds (ob_exponent _ _ _ Hob) (ob_leading _ _ _ Hob)) as Hdec.
  destruct (decode_body _ _ _) as [d'|err].
  - destruct Hdec as (Hw & Hv & Hneg & Hne). exists d'. split_and!; [done..|].
    rewrite (ob_value _ _ _ Hob) in Hv.
    destruct (value_sign d Hd) as [Hs _]. destruct (value_sign d' Hw) as [Hs' _].
    destruct (Z.ltb_spec (value d) 0), (Z.ltb_spec (value d') 0); try congruence; lia.
  - destruct Hdec as [_ Hno]. destruct (Hno d Hd). apply (ob_value _ _ _ Hob).
Qed.

Lemma ordered_roundtrip_decode bs d :
  length bs = 40%nat → Forall is_byte bs → from_ordered_bytes bs = Ok d →
  wf d ∧ to_ordered_bytes d = bs.
Proof.
  intros Hlen Hb Hdec. destruct bs as [|tag body]; [done|]. apply Forall_cons in Hb as [_ Hb].
  destruct (decide (tag = 0 ∨ tag = 2)) as [Htag|Hno].
  2: { unfold from_ordered_bytes in Hdec. destruct (Z.eqb_spec tag 1) as [-> | ]; cbn [andb] in Hdec.
       - destruct (forallb _ body) eqn:Hz; [|done]. injection Hdec as <-. split; [done|].
         cbn. f_equal. symmetry. rewrite forallb_forall in Hz.
         apply (list_eq_same_length _ _ 39%nat); [done|cbn in Hlen; lia|].
         intros i x y _ Hx Hy. apply lookup_replicate in Hy as [-> _].
         apply Z.eqb_eq, Hz, list_elem_of_In, list_elem_of_lookup. by exists i.
       - destruct (Z.eqb_spec tag 0), (Z.eqb_spec tag 2); cbn in Hdec; try done; lia. }
  set (plain := if tag =? 0 then not_u8 <$> body else body).
  assert (length plain = 39%nat ∧ Forall is_byte plain) as [Hl Hp].
  { unfold plain. cbn in Hlen. destruct (tag =? 0); [rewrite length_fmap|]; (split; [lia|]); [|done].
    apply Forall_fmap. eapply Forall_impl; [exact Hb|]. unfold is_byte, not_u8. cbn. lia. }
  destruct plain as [|e ds] eqn:Epl; [done|]. unfold plain in Epl.
  rewrite (from_ordered_tagged tag body e ds Htag Epl) in Hdec.
  destruct (body_valid e ds) eqn:Hv; [|done]. apply Forall_cons in Hp as [_ Hp].
  destruct (body_valid_digits e ds) as (He & Hd & Hm); [cbn in Hl; lia| |done|].
  { eapply Forall_impl; [exact Hp|]. unfold is_byte. cbn. lia. }
  pose proof (decode_body_spec (tag =? 0) e ds He Hm) as Hspec. rewrite Hdec in Hspec.
  destruct Hspec as (Hw & Hval & Hneg & Hne). split; [done|].
  destruct (to_ordered_bytes_body d Hw Hne) as (e' & ds' & Hob & ->). rewrite Hneg.
  assert (ordered_body (Z.abs (value d)) e ds) as Hob' by (constructor; cbn in Hl; auto; lia).
  assert (e' :: ds' = e :: ds) as ->.
  { apply bytes_cmp_eq. rewrite (ordered_body_cmp _ _ _ _ _ _ Hob Hob'). apply Z.compare_refl. }
  destruct (Z.eqb_spec tag 0) as [-> | Hn0].
  - by rewrite <- Epl, not_u8_involutive.
  - assert (tag = 2) as -> by lia. by rewrite Epl.
Qed.

(** The ordered encoding is a bijection with the values.  Decoding the
    ordered bytes of a decimal gives a decimal of the same value, and the only
    40-byte strings the decoder accepts are the encodings of what it returns. *)
Theorem decimal_ordered_roundtrip :
  (∀ d, wf d → ∃ d', from_ordered_bytes (to_ordered_bytes d) = Ok d' ∧ wf d' ∧ value d' = value d) ∧
  (∀ bs d, length bs = 40%nat → Forall is_byte bs → from_ordered_bytes bs = Ok d →
     wf d ∧ to_ordered_bytes d = bs).
Proof. split; [apply ordered_roundtrip_encode|apply ordered_roundtrip_decode]. Qed.

(** ** The successor *)

Fixpoint scales_down (n : nat) : list Z :=
  match n with O => [0] | S m => Z.of_nat n :: scales_down m end.
Lemma scales_down_38 : reverse (Z.of_nat <$> seq 0 39) = scales_down 38.
Proof. reflexivity. Qed.
Lemma scales_down_unfold n :
  scales_down n = Z.of_nat n :: match n with O => [] | S m => scales_down m end.
Proof. by destruct n. Qed.

Lemma floor_10 x :
  (if (x <? 0) && negb (Z.rem x 10 =? 0) then Z.quot x 10 - 1 else Z.quot x 10) = x / 10.
Proof.
  pose proof (Z.quot_rem' x 10). pose proof (Z.rem_bound_abs x 10 ltac:(lia)).
  pose proof (Z.rem_sign_mul x 10 ltac:(lia)).
  destruct (Z.ltb_spec x 0), (Z.eqb_spec (Z.rem x 10) 0); cbn [andb negb].
  - apply (Z.div_unique _ _ _ 0); lia.
  - apply (Z.div_unique _ _ _ (Z.rem x 10 + 10)); [left; nia|lia].
  - apply (Z.div_unique _ _ _ 0); lia.
  - apply (Z.div_unique _ _ _ (Z.rem x 10)); [left; nia|lia].
Qed.

(** The candidate at scale [s]: the least multiple of 10^-s above [v]. *)
Definition candidate (v s : Z) : Z := v / 10 ^ (38 - s) + 1.
Definition over (v s : Z) : Prop := MAX_COEFFICIENT < Z.abs (candidate v s).

Lemma candidate_spec v s k : s ≤ 38 → v < k * 10 ^ (38 - s) ↔ candidate v s ≤ k.
Proof.
  intros Hs. unfold candidate. pose proof (pow10_pos (38 - s) ltac:(lia)).
  pose proof (Z.div_mod v (10 ^ (38 - s)) ltac:(lia)).
  pose proof (Z.mod_pos_bound v (10 ^ (38 - s)) ltac:(lia)). split; intros; nia.
Qed.

Lemma next_up_step v s rest :
  s ≤ 38 →
  next_up_loop (v / 10 ^ (38 - s)) (s :: rest) =
    if Z.abs (candidate v s) <=? MAX_COEFFICIENT
    then Some {| coefficient := candidate v s; scale := s |}
    else next_up_loop (v / 10 ^ (38 - (s - 1))) rest.
Proof.
  intros Hs. cbn [next_up_loop]. fold (candidate v s).
  destruct (Z.leb_spec (Z.abs (candidate v s)) MAX_COEFFICIENT).
  - by rewrite max_coefficient_i128, Decimal_new_ok by lia.
  - rewrite floor_10, Z.div_div by (try apply Z.pow_nonzero; lia). do 2 f_equal.
    rewrite (pow10_succ (38 - (s - 1))), Z.mul_comm by lia. do 2 f_equal. lia.
Qed.

Lemma next_up_loop_spec v n :
  (n ≤ 38)%nat → (∀ t, Z.of_nat n < t ≤ 38 → over v t) →
  match next_up_loop (v / 10 ^ (38 - Z.of_nat n)) (scales_down n) with
  | Some u => wf u ∧ coefficient u = candidate v (scale u) ∧ ∀ t, scale u < t ≤ 38 → over v t
  | None => ∀ t, 0 ≤ t ≤ 38 → over v t
  end.
Proof.
  induction n as [|n IH]; intros Hn Hinv; rewrite scales_down_unfold, next_up_step by lia;
    (case_bool; [split_and!; [split; cbn; lia|done|done]|]).
  - intros t Ht. destruct (decide (t = 0)) as [-> | ]; [done|]. apply Hinv. lia.
  - replace (Z.of_nat (S n) - 1) with (Z.of_nat n) by lia. apply IH; [lia|].
    intros t Ht. destruct (decide (t = Z.of_nat (S n))) as [-> | ]; [done|]. apply Hinv. lia.
Qed.

Lemma value_bound d : wf d → Z.abs (value d) ≤ MAX_COEFFICIENT * 10 ^ 38.
Proof.
  intros [Hc Hs]. unfold value. rewrite Z.abs_mul, (Z.abs_eq (10 ^ _)) by (pose proof (pow10_pos (38 - scale d)); lia).
  assert (10 ^ (38 - scale d) ≤ 10 ^ 38) by (apply Z.pow_le_mono_r; lia).
  pose proof (pow10_pos (38 - scale d) ltac:(lia)). apply Z.mul_le_mono_nonneg; lia.
Qed.

(** Past a scale where the candidate is too long and a smaller decimal exists,
    the value lies below the whole range of that scale. *)
Lemma over_below v w : wf w → v < value w → over v (scale w) → v < - 10 ^ 38 * 10 ^ (38 - scale w).
Proof.
  intros [Hc Hs] Hlt Hover. apply candidate_spec in Hlt; [|lia]. apply candidate_spec; [lia|].
  unfold over, MAX_COEFFICIENT in *. lia.
Qed.

(** [next_up] returns the least decimal above its argument, in the whole
    bounded domain and not only at the argument's scale; it returns none
    exactly at the largest value. *)
Theorem decimal_next_up_least d :
  wf d →
  match next_up d with
  | Some u => wf u ∧ value d < value u ∧ ∀ w, wf w → value d < value w → value u ≤ value w
  | None => ∀ w, wf w → value w ≤ value d
  end.
Proof.
  intros Hd. unfold next_up. rewrite scales_down_38.
  pose proof (next_up_loop_spec (value d) 38 ltac:(lia) ltac:(lia)) as H.
  rewrite Z.div_1_r in H. change (coefficient d * ten (38 - scale d)) with (value d).
  destruct (next_up_loop _ _) as [u|].
  - destruct H as (Hu & Ec & Hover). destruct Hu as [Huc Hus].
    assert (∀ k, value d < k * 10 ^ (38 - scale u) → value u ≤ k * 10 ^ (38 - scale u)) as Hle.
    { intros k Hk%candidate_spec; [|lia]. unfold value. pose proof (pow10_pos (38 - scale u) ltac:(lia)). nia. }
    split_and!; [done..| |].
    { unfold value at 2. apply candidate_spec; lia. }
    intros w Hw Hlt. destruct (Z.le_gt_cases (scale w) (scale u)) as [Hsc|Hsc].
    + assert (value w = coefficient w * 10 ^ (scale u - scale w) * 10 ^ (38 - scale u)) as E.
      { unfold value. rewrite <- Z.mul_assoc, <- pow10_add by lia. do 2 f_equal. lia. }
      rewrite E in *. by apply Hle.
    + destruct Hw as [Hwc Hws]. pose proof (over_below _ w (conj Hwc Hws) Hlt ltac:(apply Hover; lia)) as Hb.
      assert (- 10 ^ 38 * 10 ^ (38 - scale w) = - 10 ^ (38 - scale w + scale u) * 10 ^ (38 - scale u)) as E.
      { rewrite !Z.mul_opp_l, <- !pow10_add by lia. do 2 f_equal. lia. }
      rewrite E in Hb. apply Hle in Hb. rewrite <- E in Hb. etransitivity; [exact Hb|].
      unfold value. pose proof (pow10_pos (38 - scale w) ltac:(lia)). unfold MAX_COEFFICIENT in Hwc.
      apply Z.mul_le_mono_nonneg_r; lia.
  - intros w Hw. specialize (H 0 ltac:(lia)). unfold over, candidate in H.
    pose proof (value_bound d Hd). pose proof (value_bound w Hw). unfold MAX_COEFFICIENT in *.
    pose proof (Z.div_mod (value d) (10 ^ (38 - 0)) ltac:(lia)).
    pose proof (Z.mod_pos_bound (value d) (10 ^ (38 - 0)) ltac:(lia)). lia.
Qed.

Lemma decimal_next_up_least_witness :
  let d := {| coefficient := - (10 ^ 38 - 1); scale := 0 |} in
  match next_up d with
  | Some u => wf u ∧ value d < value u ∧ ∀ w, wf w → value d < value w → value u ≤ value w
  | None => ∀ w, wf w → value w ≤ value d
  end.
Proof. apply (decimal_next_up_least {| coefficient := - (10 ^ 38 - 1); scale := 0 |}); by vm_compute. Defined.

(** ** Byte encoding *)

Lemma from_to_le_bytes d : wf d → from_le_bytes (to_le_bytes d) = Ok d.
Proof.
  revert d.
  intros [c s] [Hc Hs]. cbn [coefficient scale] in *.
  unfold from_le_bytes, to_le_bytes; cbn [coefficient scale].
  rewrite zslice_app_front by (unfold i128_to_le_bytes; by rewrite zlen_le_bytes).
  assert (zget (i128_to_le_bytes c ++ [s]) 16 = Some s) as ->.
  { replace 16 with (zlen (i128_to_le_bytes c)) by (unfold i128_to_le_bytes; by rewrite zlen_le_bytes).
    apply zget_app_mid. }
  unfold i128_to_le_bytes, i128_from_le_bytes. rewrite le_val_bytes.
  change (256 ^ Z.of_nat 16) with (2 ^ 128). rewrite Z.mod_mod by lia. unfold MAX_COEFFICIENT in *.
  assert ((if c mod 2 ^ 128 <? 2 ^ 127 then c mod 2 ^ 128 else c mod 2 ^ 128 - 2 ^ 128) = c) as ->.
  { destruct (Z.lt_ge_cases c 0).
    - replace (c mod 2 ^ 128) with (c + 2 ^ 128) by (apply (Z.mod_unique _ _ (-1)); lia). case_bool; lia.
    - rewrite Z.mod_small by lia. case_bool; lia. }
  change (default 0 (Some s)) with s. rewrite Decimal_new_ok by (unfold MAX_COEFFICIENT; lia). done.
Qed.

(** The 17-byte encoding round trips in both directions: a decimal decodes
    to itself, coefficient and scale, and any 17 bytes the decoder accepts are
    the encoding of a well-formed decimal; other bytes are an encoding error. *)
Theorem decimal_le_roundtrip :
  (∀ d, wf d → from_le_bytes (to_le_bytes d) = Ok d) ∧
  (∀ bs, length bs = 17%nat → Forall is_byte bs →
     match from_le_bytes bs with
     | Ok d => wf d ∧ to_le_bytes d = bs
     | Err e => e = InvalidEncoding
     end).
Proof.
  split; [apply from_to_le_bytes|].
  intros bs Hl Hb. assert (∃ cs s, bs = cs ++ [s] ∧ length cs = 16%nat) as (cs & s & -> & Hlc).
    { exists (take 16 bs). destruct (drop 16 bs) as [|s [|]] eqn:E;
        pose proof (length_drop bs 16) as Hd; rewrite E in Hd; cbn in Hd; try lia.
      exists s. rewrite <- E, take_drop, length_take. split; [done|lia]. }
    apply Forall_app in Hb as [Hcs [Hs _]%Forall_cons]. unfold from_le_bytes.
    rewrite zslice_app_front by (unfold zlen; lia).
    assert (zget (cs ++ [s]) 16 = Some s) as ->
      by (replace 16 with (zlen cs) by (unfold zlen; lia); apply zget_app_mid).
    pose proof (le_val_bound cs Hcs) as Hv. replace (zlen cs) with 16 in Hv by (unfold zlen; lia).
    set (c := i128_from_le_bytes cs). change (default 0 (Some s)) with s.
    assert (c mod 2 ^ 128 = le_val cs) as Hc.
    { unfold c, i128_from_le_bytes. case_bool; [apply Z.mod_small; lia|]. symmetry. apply (Z.mod_unique _ _ (-1)); lia. }
    unfold is_byte in Hs. destruct (Z.le_gt_cases (Z.abs c) MAX_COEFFICIENT), (Z.le_gt_cases s 38).
    1: { rewrite Decimal_new_ok by done. cbn [map_err]. split; [split; cbn; lia|].
         unfold to_le_bytes, i128_to_le_bytes; cbn [coefficient scale]. by rewrite Hc, <- Hlc, le_bytes_val. }
    all: unfold Decimal_new; rewrite ?(proj2 (Z.ltb_lt 38 s)), ?orb_true_r by lia;
      rewrite ?(proj2 (Z.ltb_lt _ (Z.abs c))) by lia; done.
Qed.
