(* ===== verification/DecimalText.v ===== *)
(** Decimal literals and display (crates/core/src/decimal.rs). *)
From S2P Require Import Prelude Decimal DecimalArith.

(** ** Text *)

(** [write!(f, "{}", n)] of an unsigned integer. *)
Definition print_u128 (n : Z) : bytes :=
  if n =? 0 then [48] else (λ d, d + 48) <$> digits n.
(** [{:0width$}]: padded with zeros on the left. *)
Definition print_padded (n width : Z) : bytes :=
  let s := print_u128 n in replicate (Z.to_nat (width - zlen s)) 48 ++ s.

Definition Decimal_to_string (d : Decimal) : bytes :=
  let sign := if coefficient d <? 0 then [45] else [] in
  let magnitude := Z.abs (coefficient d) in
  if scale d =? 0 then sign ++ print_u128 magnitude
  else
    let divisor := 10 ^ scale d in
    sign ++ print_u128 (magnitude / divisor) ++ [46] ++ print_padded (magnitude mod divisor) (scale d).

Definition is_digit (b : Z) : bool := (48 <=? b) && (b <=? 57).

(** [str::parse::<i16>]: an optional sign, then at least one digit, in range. *)
Definition parse_i16 (text : bytes) : option Z :=
  let (negative, ds) :=
    match text with
    | 45 :: t => (true, t)
    | 43 :: t => (false, t)
    | _ => (false, text)
    end in
  match ds with
  | [] => None
  | _ =>
      if forallb is_digit ds then
        let n := from_digits ((λ b, b - 48) <$> ds) in
        let n := if negative then - n else n in
        if (- 2 ^ 15 <=? n) && (n <? 2 ^ 15) then Some n else None
      else None
  end.

(** [unsigned.find(['e', 'E'])]: the text before and after the first match. *)
Fixpoint split_exponent (text : bytes) : bytes * option bytes :=
  match text with
  | [] => ([], None)
  | b :: t =>
      if (b =? 101) || (b =? 69) then ([], Some t)
      else let (m, e) := split_exponent t in (b :: m, e)
  end.

(** The mantissa loop: the digits (most significant first) and how many of
    them follow the point. *)
Fixpoint mantissa_loop (text : bytes) (ds : bytes) (fraction : Z) (point : bool)
    : result (bytes * Z) DecimalError :=
  match text with
  | [] => Ok (ds, fraction)
  | b :: t =>
      if (b =? 46) && negb point then mantissa_loop t ds fraction true
      else if is_digit b
      then mantissa_loop t (ds ++ [b - 48]) (fraction + (if point then 1 else 0)) point
      else Err InvalidLiteral
  end.

(** The digits from the first that is not 0. *)
Fixpoint skip_zeros (ds : bytes) : bytes :=
  match ds with
  | [] => []
  | d :: t => if d =? 0 then skip_zeros t else ds
  end.

(** The trailing-zero loop of [from_str], on the significant digits reversed. *)
Fixpoint trim_loop (rev_ds : bytes) (s : Z) : bytes * Z :=
  match rev_ds with
  | d :: t =>
      if (0 <? s) && ((38 <? zlen rev_ds) || (38 <? s)) && (d =? 0) then trim_loop t (s - 1)
      else (rev_ds, s)
  | [] => (rev_ds, s)
  end.

(** The first half of [from_str]: the sign, the digits of the mantissa and the
    scale of the literal. *)
Definition unsigned_parts (negative : bool) (unsigned : bytes)
    : result (bool * bytes * Z) DecimalError :=
  let (mantissa, exponent_text) := split_exponent unsigned in
  let? exponent :=
    match exponent_text with
    | Some e =>
        let? e := ok_or (parse_i16 e) InvalidLiteral in
        if 1024 <? Z.abs e then Err Overflow else Ok e
    | None => Ok 0
    end in
  let? (ds, fraction) := mantissa_loop mantissa [] 0 false in
  match ds with
  | [] => Err InvalidLiteral
  | _ => Ok (negative, ds, fraction - exponent)
  end.
Definition literal_parts (text : bytes) : result (bool * bytes * Z) DecimalError :=
  match text with
  | [] => Err InvalidLiteral
  | b :: t =>
      if MAX_LITERAL_BYTES <? zlen text then Err InvalidLiteral
      else if b =? 45 then unsigned_parts true t
      else if b =? 43 then unsigned_parts false t
      else unsigned_parts false text
  end.

(** The second half: the coefficient and scale, or an overflow. *)
Definition assemble (negative : bool) (ds : bytes) (s : Z) : result Decimal DecimalError :=
  match skip_zeros ds with
  | [] => Decimal_new 0 (Z.max 0 (Z.min 38 s))
  | significant =>
      let (rev_ds, s) := trim_loop (reverse significant) s in
      let count := zlen rev_ds in
      if (38 <? count) || (38 <? s) || (38 <? count - Z.min s 0) then Err Overflow
      else
        let c := from_digits (reverse rev_ds) in
        let (c, s) := if s <? 0 then (c * 10 ^ (- s), 0) else (c, s) in
        Decimal_new (if negative then - c else c) s
  end.

Definition Decimal_from_str (text : bytes) : result Decimal DecimalError :=
  let? (negative, ds, s) := literal_parts text in assemble negative ds s.

(** ** Literals *)

Lemma skip_zeros_spec ds :
  Forall digit ds →
  digits_of (from_digits ds) (skip_zeros ds).
Proof.
  induction ds as [|d ds IH]; [done|]. intros [Hd Hds]%Forall_cons. cbn [skip_zeros].
  destruct (Z.eqb_spec d 0) as [-> | Hne]; [rewrite from_digits_cons, Z.mul_0_l; by apply IH|].
  split_and!; [done|by constructor|done].
Qed.

(** Trimming drops zeros of the fraction only, and stops when the literal fits
    or cannot lose another digit. *)
Lemma trim_loop_spec rev_ds s rev_ds' s' :
  trim_loop rev_ds s = (rev_ds', s') →
  ∃ k, 0 ≤ k ∧ s' = s - k ∧ (k = 0 ∨ 0 ≤ s') ∧ reverse rev_ds = reverse rev_ds' ++ zeros k ∧
    (s' ≤ 0 ∨ zlen rev_ds' ≤ 38 ∧ s' ≤ 38 ∨ match rev_ds' with [] => True | d :: _ => d ≠ 0 end).
Proof.
  revert s; induction rev_ds as [|d t IH]; intros s; cbn [trim_loop].
  { intros [= <- <-]. exists 0. split_and!; try lia; auto. }
  destruct ((0 <? s) && _ && _) eqn:E.
  - rewrite !andb_true_iff, Z.ltb_lt, Z.eqb_eq in E. destruct E as [[Hs _] ->].
    intros (k & Hk & -> & Hor & Hrev & Hstop)%IH. exists (k + 1). split_and!; try lia.
    + rewrite reverse_cons, Hrev, <- app_assoc. f_equal. unfold zeros.
      rewrite Z2Nat.inj_add, replicate_add by lia. done.
    + replace (s - (k + 1)) with (s - 1 - k) by lia. done.
  - intros [= <- <-]. exists 0. split_and!; [lia|lia|by left|by rewrite app_nil_r|].
    rewrite !andb_false_iff, orb_false_iff, Z.eqb_neq, !Z.ltb_ge in E.
    destruct E as [[?|[? ?]]|?]; auto.
Qed.

Lemma rem10_snoc ds d : digit d → d ≠ 0 → Forall digit ds → Z.rem (from_digits (ds ++ [d])) 10 ≠ 0.
Proof.
  unfold digit. intros Hd Hne Hds. pose proof (from_digits_bound ds Hds). rewrite from_digits_snoc.
  rewrite Z.rem_mod_nonneg by lia. rewrite Z.add_comm, Z.mod_add, Z.mod_small by lia. lia.
Qed.

Definition signed (negative : bool) (c : Z) : Z := if negative then - c else c.

Lemma signed_mul negative c k : signed negative (c * k) = signed negative c * k.
Proof. destruct negative; cbn; ring. Qed.
Lemma signed_abs negative c : Z.abs (signed negative c) = Z.abs c.
Proof. destruct negative; cbn; [apply Z.abs_opp|done]. Qed.
Lemma signed_rem negative c : Z.rem c 10 ≠ 0 → Z.rem (signed negative c) 10 ≠ 0.
Proof. destruct negative; cbn; [rewrite Z.rem_opp_l by lia; lia|done]. Qed.

(** The significant digits [sig] at scale [s], trimmed by [k] zeros to [ds]. *)
Record trimmed (sig : bytes) (s : Z) (ds : bytes) (k : Z) : Prop := {
  tr_count : 0 ≤ k;
  tr_scale : k = 0 ∨ 0 ≤ s - k;
  tr_value : from_digits sig = from_digits ds * 10 ^ k;
  tr_length : 1 ≤ zlen ds;
  tr_bounds : 10 ^ (zlen ds - 1) ≤ from_digits ds < 10 ^ zlen ds;
  tr_stop : s - k ≤ 0 ∨ zlen ds ≤ 38 ∧ s - k ≤ 38 ∨ Z.rem (from_digits ds) 10 ≠ 0;
}.

Lemma trim_trimmed sig s rv s' :
  digits_of (from_digits sig) sig → sig ≠ [] → trim_loop (reverse sig) s = (rv, s') →
  trimmed sig s (reverse rv) (s - s').
Proof.
  intros (_ & Hdig & Hhd) Hne E. apply trim_loop_spec in E as (k & Hk & -> & Hks & Hrev & Hstop).
  rewrite reverse_involutive in Hrev. replace (s - (s - k)) with k by lia.
  assert (Forall digit (reverse rv)) as Hds by (rewrite Hrev in Hdig; apply Forall_app in Hdig as [? _]; done).
  assert (∃ h t, reverse rv = h :: t ∧ h ≠ 0) as (h & t & Eds & Hh).
  { rewrite Hrev in Hhd. destruct (reverse rv) as [|h t]; [|by exists h, t].
    destruct sig as [|h t]; [done|]. exfalso. cbn in Hrev, Hhd. unfold zeros in *.
    destruct (Z.to_nat k); [done|]. cbn in Hhd. done. }
  assert (digits_of (from_digits (reverse rv)) (reverse rv)) as Hof by (rewrite Eds in *; by split_and!).
  assert (from_digits (reverse rv) ≠ 0) as Hnz.
  { rewrite Eds in *. apply Forall_cons in Hds as [Hh' Ht]. unfold digit in Hh'.
    rewrite from_digits_cons. pose proof (from_digits_bound t Ht).
    pose proof (pow10_pos (zlen t) (zlen_nonneg t)). nia. }
  destruct (digits_of_bounds _ _ Hof) as [Hb Hlow]. specialize (Hlow Hnz) as [Hl1 Hlow].
  constructor; try lia.
  - rewrite Hrev at 1. by apply from_digits_replicate.
  - replace (zlen (reverse rv)) with (zlen rv) by (unfold zlen; by rewrite length_reverse).
    destruct Hstop as [?|[?|Hlast]]; [auto..|]. right; right.
    destruct rv as [|d rv]; [done|]. rewrite reverse_cons in *.
    apply Forall_app in Hds as [Ht [Hd _]%Forall_cons]. by apply rem10_snoc.
Qed.

(** A literal: its sign, digits and scale as a coefficient and a scale >= 0. *)
Definition literal_coefficient (negative : bool) (ds : bytes) (s : Z) : Z :=
  signed negative (from_digits ds) * 10 ^ Z.max 0 (- s).

Lemma trimmed_overflow negative sig s ds k :
  trimmed sig s ds k →
  38 < zlen ds ∨ 38 < s - k ∨ 38 < zlen ds - Z.min (s - k) 0 →
  ¬ representable (literal_coefficient negative sig s) (Z.max 0 s).
Proof.
  intros [Hk Hks Hsig Hl1 Hb Hstop] Hbig. unfold literal_coefficient. set (m := from_digits ds) in *.
  destruct (Z.le_gt_cases (s - k) 0) as [Hneg|Hpos].
  - assert (∃ j, 0 ≤ j ∧ 38 < zlen ds + j ∧
      signed negative (from_digits sig) * 10 ^ Z.max 0 (- s) = signed negative m * 10 ^ j * 10 ^ Z.max 0 s)
      as (j & Hj & Hlong & ->).
    { destruct (Z.le_gt_cases s 0).
      - assert (k = 0) as Ek by lia. exists (- s). split_and!; [lia|lia|].
        rewrite Hsig, signed_mul, Ek, (Z.max_r 0 (- s)), (Z.max_l 0 s) by lia. ring.
      - exists 0. split_and!; [lia|lia|]. assert (k = s) as -> by lia.
        rewrite Hsig, signed_mul, (Z.max_l 0 (- s)), (Z.max_r 0 s) by lia. ring. }
    eapply (not_representable _ _ (signed negative m * 10 ^ j) 0); [lia|do 2 f_equal; lia|by left|right].
    pose proof (pow10_pos j Hj). rewrite Z.abs_mul, signed_abs, (Z.abs_eq m), (Z.abs_eq (10 ^ j))
      by (pose proof (pow10_pos (zlen ds - 1)); lia).
    apply (Z.lt_le_trans _ (10 ^ (zlen ds - 1 + j))).
    + apply (Z.lt_le_trans _ (10 ^ 38)); [unfold MAX_COEFFICIENT; lia|]. apply Z.pow_le_mono_r; lia.
    + rewrite pow10_add by lia. nia.
  - eapply (not_representable _ _ (signed negative m) (s - k)); [lia| | |].
    + rewrite Hsig, signed_mul, (Z.max_l 0 (- s)), Z.mul_1_r by lia. do 2 f_equal. lia.
    + right. apply signed_rem. destruct Hstop as [?|[?|?]]; lia || done.
    + rewrite signed_abs. destruct (Z.lt_ge_cases 38 (s - k)) as [?|Hle]; [by left|right].
      assert (10 ^ 38 ≤ 10 ^ (zlen ds - 1)) by (apply Z.pow_le_mono_r; lia).
      unfold MAX_COEFFICIENT. lia.
Qed.

Lemma trimmed_fits negative sig s ds k :
  trimmed sig s ds k →
  zlen ds ≤ 38 → s - k ≤ 38 → zlen ds - Z.min (s - k) 0 ≤ 38 →
  let (c, t) := if s - k <? 0 then (from_digits ds * 10 ^ (- (s - k)), 0) else (from_digits ds, s - k) in
  ∃ d, Decimal_new (signed negative c) t = Ok d ∧ wf d ∧
    coefficient d * 10 ^ Z.max 0 s = literal_coefficient negative sig s * 10 ^ scale d.
Proof.
  intros [Hk Hks Hsig Hl1 Hb _] Hc38 Hs38 Hfit. unfold literal_coefficient. set (m := from_digits ds) in *.
  pose proof (pow10_pos (zlen ds - 1) ltac:(lia)).
  assert (m * 10 ^ Z.max 0 (- (s - k)) < 10 ^ 38) as Hm.
  { apply (Z.lt_le_trans _ (10 ^ zlen ds * 10 ^ Z.max 0 (- (s - k)))).
    - apply Z.mul_lt_mono_pos_r; [apply pow10_pos; lia|lia].
    - rewrite <- pow10_add by lia. apply Z.pow_le_mono_r; lia. }
  pose proof (pow10_pos (Z.max 0 (- (s - k))) ltac:(lia)).
  assert (∀ c t, 0 ≤ c < 10 ^ 38 → 0 ≤ t ≤ 38 →
    Decimal_new (signed negative c) t = Ok {| coefficient := signed negative c; scale := t |} ∧
    wf {| coefficient := signed negative c; scale := t |}) as Hnew.
  { intros c t Hc Ht. rewrite Decimal_new_ok by (rewrite ?signed_abs; unfold MAX_COEFFICIENT; lia).
    split; [done|]. split; cbn; [rewrite signed_abs; unfold MAX_COEFFICIENT; lia|lia]. }
  destruct (Z.ltb_spec (s - k) 0) as [Hneg|Hpos].
  - rewrite Z.max_r in Hm by lia. pose proof (pow10_pos (- (s - k)) ltac:(lia)).
    destruct (Hnew (m * 10 ^ (- (s - k))) 0) as [-> Hw]; [nia|lia|]. eexists. split_and!; [done|done..|].
    cbn [coefficient scale]. assert (k = 0) as Ek by lia. rewrite Hsig, !signed_mul, Ek.
    rewrite Z.sub_0_r, (Z.max_l 0 s), (Z.max_r 0 (- s)) by lia. ring.
  - rewrite Z.max_l, Z.mul_1_r in Hm by lia. destruct (Hnew m (s - k)) as [-> Hw]; [lia|lia|].
    eexists. split_and!; [done|done..|]. cbn [coefficient scale]. rewrite Hsig, signed_mul.
    rewrite (Z.max_r 0 s), (Z.max_l 0 (- s)) by lia.
    rewrite (pow10_split s (s - k)) by lia. replace (s - (s - k)) with k by lia. ring.
Qed.

Lemma assemble_spec negative ds s :
  Forall digit ds →
  match assemble negative ds s with
  | Ok d => wf d ∧ coefficient d * 10 ^ Z.max 0 s = literal_coefficient negative ds s * 10 ^ scale d
  | Err e => e = Overflow ∧ ¬ representable (literal_coefficient negative ds s) (Z.max 0 s)
  end.
Proof.
  intros Hds. destruct (skip_zeros_spec ds Hds) as (Hfrom & Hdig & Hhd). unfold assemble.
  destruct (skip_zeros ds) as [|h t] eqn:Esig.
  { rewrite Decimal_new_ok by (unfold MAX_COEFFICIENT; lia).
    split; [split; cbn; unfold MAX_COEFFICIENT; lia|]. cbn [coefficient scale].
    unfold literal_coefficient. rewrite Hhd. destruct negative; cbn; lia. }
  assert (literal_coefficient negative ds s = literal_coefficient negative (h :: t) s) as ->
    by (unfold literal_coefficient; by rewrite Hfrom).
  destruct (trim_loop _ s) as [rv s'] eqn:Etrim.
  assert (trimmed (h :: t) s (reverse rv) (s - s')) as Htr by (apply trim_trimmed; done).
  replace (zlen rv) with (zlen (reverse rv)) by (unfold zlen; by rewrite length_reverse).
  assert (s' = s - (s - s')) as Es by lia. rewrite Es.
  destruct (_ || _ || _) eqn:Ebig.
  - split; [done|]. eapply trimmed_overflow; [done|]. rewrite !orb_true_iff, !Z.ltb_lt in Ebig. tauto.
  - rewrite !orb_false_iff, !Z.ltb_ge in Ebig. destruct Ebig as [[? ?] ?].
    pose proof (trimmed_fits negative _ _ _ _ Htr) as Hfit. destruct (if _ <? 0 then _ else _) as [c t'].
    destruct Hfit as (d & Hnew & Hw & Hv); [done..|]. fold (signed negative c). rewrite Hnew. done.
Qed.

Lemma mantissa_loop_digit_list text ds f p r :
  Forall digit ds → mantissa_loop text ds f p = Ok r → Forall digit r.1.
Proof.
  revert ds f p; induction text as [|b t IH]; intros ds f p Hds; cbn [mantissa_loop].
  { intros [= <-]. done. }
  destruct (_ && _); [by apply IH|]. destruct (is_digit b) eqn:E; [|done]. apply IH.
  apply Forall_app. split; [done|]. constructor; [|done].
  unfold is_digit in E. apply andb_true_iff in E as [?%Z.leb_le ?%Z.leb_le]. unfold digit. lia.
Qed.

Lemma unsigned_parts_digits neg text negative ds s :
  unsigned_parts neg text = Ok (negative, ds, s) → Forall digit ds.
Proof.
  unfold unsigned_parts. destruct (split_exponent text) as [mantissa ex].
  intros (e & _ & ([ds' f] & Hm & Hr)%result_bind_ok)%result_bind_ok.
  apply mantissa_loop_digit_list in Hm; [|done]. destruct ds'; [done|]. by injection Hr as <- <- <-.
Qed.

Lemma literal_parts_digits text negative ds s :
  literal_parts text = Ok (negative, ds, s) → Forall digit ds.
Proof.
  unfold literal_parts. destruct text as [|b t]; [done|]. destruct (_ <? _); [done|].
  destruct (b =? 45); [|destruct (b =? 43)]; apply unsigned_parts_digits.
Qed.

(** ** Digits as text *)

(** The digits [print_u128] writes. *)
Definition shown (n : Z) : bytes := if n =? 0 then [0] else digits n.
Definition ascii (ds : bytes) : bytes := (λ d, d + 48) <$> ds.

Lemma print_u128_shown n : print_u128 n = ascii (shown n).
Proof. unfold print_u128, shown, ascii. by destruct (n =? 0). Qed.

Lemma shown_spec n :
  0 ≤ n → from_digits (shown n) = n ∧ Forall digit (shown n) ∧ shown n ≠ [] ∧
  ∀ w, 1 ≤ w → n < 10 ^ w → zlen (shown n) ≤ w.
Proof.
  intros Hn. unfold shown. destruct (Z.eqb_spec n 0) as [-> | Hne].
  { split_and!; [done|by repeat constructor|done|]. intros w Hw _. done. }
  pose proof (digits_spec n Hn) as Hd. destruct (digits_of_bounds _ _ Hd) as [_ Hlow].
  specialize (Hlow Hne) as [Hl Hlow]. destruct Hd as (Hfrom & Hdig & Hhd). split_and!; [done..| |].
  - intros E. rewrite E in Hl. by vm_compute in Hl.
  - intros w Hw Hlt. assert (zlen (digits n) - 1 < w); [|lia].
    apply (Z.pow_lt_mono_r_iff 10); lia.
Qed.

Lemma mantissa_loop_shown ds t acc f p :
  Forall digit ds →
  mantissa_loop (ascii ds ++ t) acc f p =
  mantissa_loop t (acc ++ ds) (f + (if p then zlen ds else 0)) p.
Proof.
  intros Hds. revert acc f. induction Hds as [|d ds Hd Hds IH]; intros acc f.
  { cbn [ascii fmap list_fmap app]. rewrite app_nil_r. destruct p; cbn; by rewrite Z.add_0_r. }
  unfold ascii. rewrite fmap_cons. cbn [app mantissa_loop]. unfold digit in Hd.
  rewrite (proj2 (Z.eqb_neq (d + 48) 46)) by lia. cbn [andb].
  assert (is_digit (d + 48) = true) as ->.
  { unfold is_digit. rewrite !(proj2 (Z.leb_le _ _)) by lia. done. }
  fold (ascii ds). rewrite IH, <- app_assoc. cbn [app].
  replace (d + 48 - 48) with d by lia. f_equal. destruct p; [rewrite zlen_cons|]; lia.
Qed.

Lemma split_exponent_plain text :
  Forall (λ b, b ≠ 101 ∧ b ≠ 69) text → split_exponent text = (text, None).
Proof.
  induction 1 as [|b t [H1 H2] _ IH]; [done|]. cbn [split_exponent].
  by rewrite (proj2 (Z.eqb_neq b 101) H1), (proj2 (Z.eqb_neq b 69) H2), IH.
Qed.

Lemma ascii_plain ds : Forall digit ds → Forall (λ b, b ≠ 101 ∧ b ≠ 69) (ascii ds).
Proof.
  intros. unfold ascii. apply Forall_fmap. eapply Forall_impl; [done|]. unfold digit; cbn. lia.
Qed.

(** ** The grammar of literals *)

(** A literal as it is written: a sign, digits, a point and more digits, and an
    exponent, all but one digit optional.  A sign is [Some true] for minus and
    [Some false] for plus. *)
Record Exponent := mk_exponent { exp_upper : bool; exp_sign : option bool; exp_digits : list Z }.
Record Literal := mk_literal {
  lit_sign : option bool;
  lit_whole : list Z;
  lit_fraction : option (list Z);
  lit_exponent : option Exponent;
}.
Definition sign_text (sign : option bool) : bytes :=
  match sign with Some true => [45] | Some false => [43] | None => [] end.
Definition mantissa_text (l : Literal) : bytes :=
  ascii (lit_whole l) ++ match lit_fraction l with Some f => 46 :: ascii f | None => [] end.
Definition exponent_text (e : Exponent) : bytes := sign_text (exp_sign e) ++ ascii (exp_digits e).
Definition unsigned_text (l : Literal) : bytes :=
  mantissa_text l ++ match lit_exponent l with Some e => (if exp_upper e then 69 else 101) :: exponent_text e | None => [] end.
Definition literal_text (l : Literal) : bytes := sign_text (lit_sign l) ++ unsigned_text l.

Definition fraction_digits (l : Literal) : list Z := default [] (lit_fraction l).
Definition exponent_ok (e : Exponent) : Prop := Forall digit (exp_digits e) ∧ exp_digits e ≠ [].
Record literal_ok (l : Literal) : Prop := {
  lo_whole : Forall digit (lit_whole l);
  lo_fraction : Forall digit (fraction_digits l);
  lo_some : lit_whole l ++ fraction_digits l ≠ [];
  lo_exponent : match lit_exponent l with Some e => exponent_ok e | None => True end;
}.

(** The value of a literal is [literal_mantissa * 10 ^ literal_power]. *)
Fixpoint digits_value (ds : list Z) : Z :=
  match ds with
  | [] => 0
  | d :: ds => d * 10 ^ zlen ds + digits_value ds
  end.
Definition is_minus (sign : option bool) : bool := match sign with Some true => true | _ => false end.
Definition sign_value (sign : option bool) : Z := match sign with Some true => -1 | _ => 1 end.
Definition exponent_value (l : Literal) : Z :=
  match lit_exponent l with Some e => sign_value (exp_sign e) * digits_value (exp_digits e) | None => 0 end.
Definition literal_mantissa (l : Literal) : Z :=
  sign_value (lit_sign l) * (digits_value (lit_whole l) * 10 ^ zlen (fraction_digits l) + digits_value (fraction_digits l)).
Definition literal_power (l : Literal) : Z := exponent_value l - zlen (fraction_digits l).
(** [coefficient / 10 ^ scale = mantissa * 10 ^ power], without fractions. *)
Definition has_value (l : Literal) (d : Decimal) : Prop :=
  coefficient d * 10 ^ Z.max 0 (- literal_power l) = literal_mantissa l * 10 ^ Z.max 0 (literal_power l) * 10 ^ scale d.

Lemma digits_value_from ds : digits_value ds = from_digits ds.
Proof. induction ds as [|d ds IH]; [done|]. cbn [digits_value]. by rewrite IH, from_digits_cons. Qed.
Lemma sign_value_signed sign c : sign_value sign * c = signed (is_minus sign) c.
Proof. destruct sign as [[]|]; cbn [is_minus signed sign_value]; lia. Qed.
Lemma has_value_coefficient l d :
  has_value l d ↔
  coefficient d * 10 ^ Z.max 0 (- literal_power l) =
  literal_coefficient (is_minus (lit_sign l)) (lit_whole l ++ fraction_digits l) (- literal_power l) * 10 ^ scale d.
Proof.
  unfold has_value, literal_mantissa, literal_coefficient. rewrite !digits_value_from, <- from_digits_app, sign_value_signed.
  by rewrite Z.opp_involutive.
Qed.

(** ** Literals read *)

Lemma digit_cases d : digit d → d ∈ [0; 1; 2; 3; 4; 5; 6; 7; 8; 9].
Proof. unfold digit. intros H. rewrite !elem_of_cons, elem_of_nil. lia. Qed.
Lemma ascii_digits ds : Forall digit ds → forallb is_digit (ascii ds) = true ∧ (λ b, b - 48) <$> ascii ds = ds.
Proof.
  unfold ascii. induction 1 as [|d ds Hd _ [IH1 IH2]]; [done|]. rewrite !fmap_cons. cbn [forallb]. rewrite IH1, IH2. unfold digit in Hd.
  unfold is_digit. rewrite !(proj2 (Z.leb_le _ _)) by lia. split; [done|]. f_equal. lia.
Qed.
Lemma digits_ascii t : forallb is_digit t = true → ∃ ds, Forall digit ds ∧ t = ascii ds.
Proof.
  induction t as [|b t IH]; [by exists []|]. cbn [forallb]. intros [Hb (ds & Hds & ->)%IH]%andb_true_iff. exists ((b - 48) :: ds).
  unfold is_digit in Hb. split; [constructor; [unfold digit; lia|done]|]. unfold ascii. rewrite fmap_cons. f_equal. lia.
Qed.

(** The three texts of a sign: any other starts no number with one. *)
Lemma parse_i16_text sign ds : Forall digit ds → ds ≠ [] →
  parse_i16 (sign_text sign ++ ascii ds) =
  let n := sign_value sign * digits_value ds in if (- 2 ^ 15 <=? n) && (n <? 2 ^ 15) then Some n else None.
Proof.
  intros Hd Hne. destruct (ascii_digits ds Hd) as [Hall Hback]. rewrite digits_value_from. cbv zeta.
  assert (∀ negative : bool, match ascii ds with
    | [] => None
    | _ => if forallb is_digit (ascii ds) then
             let n := from_digits ((λ b, b - 48) <$> ascii ds) in let n := if negative then - n else n in
             if (- 2 ^ 15 <=? n) && (n <? 2 ^ 15) then Some n else None
           else None
    end = let n := signed negative (from_digits ds) in if (- 2 ^ 15 <=? n) && (n <? 2 ^ 15) then Some n else None) as H.
  { intros negative. rewrite Hall, Hback. destruct ds; [done|]. by destruct negative. }
  rewrite sign_value_signed. destruct sign as [[]|]; cbn [sign_text app]; [exact (H true)|exact (H false)|].
  etrans; [|exact (H false)]. destruct ds as [|d ds]; [done|]. apply Forall_cons in Hd as [Hd%digit_cases _]. unfold parse_i16, ascii.
  rewrite fmap_cons. repeat (apply elem_of_cons in Hd as [->|Hd]; [done|]). by apply elem_of_nil in Hd.
Qed.
Lemma parse_i16_inv t n : parse_i16 t = Some n → ∃ sign ds, Forall digit ds ∧ ds ≠ [] ∧ t = sign_text sign ++ ascii ds.
Proof.
  unfold parse_i16. set (split := match t with 45 :: _ => _ | _ => _ end).
  assert (∃ sign, t = sign_text sign ++ split.2) as [sign Ht].
  { unfold split. destruct t as [|b t]; [by exists None|].
    destruct (decide (b = 45)) as [->|]; [by exists (Some true)|]. destruct (decide (b = 43)) as [->|]; [by exists (Some false)|].
    exists None. repeat case_match; done. }
  destruct split as [negative rest]. cbn [snd] in Ht. destruct rest as [|b rest]; [done|]. destruct (forallb is_digit (b :: rest)) eqn:E; [|done].
  apply digits_ascii in E as (ds & Hds & Eds). intros _. exists sign, ds. rewrite <- Eds. split_and!; [done|by intros ->|done].
Qed.

Lemma split_exponent_mark text b t : Forall (λ b, b ≠ 101 ∧ b ≠ 69) text → (b =? 101) || (b =? 69) = true →
  split_exponent (text ++ b :: t) = (text, Some t).
Proof.
  intros HF Hb. induction HF as [|c text [H1 H2] _ IH]; cbn [app split_exponent]; [by rewrite Hb|].
  by rewrite (proj2 (Z.eqb_neq c 101) H1), (proj2 (Z.eqb_neq c 69) H2), IH.
Qed.
Lemma split_exponent_inv text : ∀ m e, split_exponent text = (m, e) →
  ∃ upper : bool, text = m ++ match e with Some t => (if upper then 69 else 101) :: t | None => [] end.
Proof.
  induction text as [|b text IH]; intros m e; cbn [split_exponent]; [intros [= <- <-]; by exists true|].
  destruct ((b =? 101) || (b =? 69)) eqn:Eb.
  - intros [= <- <-]. exists (b =? 69). cbn [app]. f_equal. destruct (Z.eqb_spec b 69); [done|]. rewrite orb_false_r in Eb. lia.
  - destruct (split_exponent text) as [m' e']. intros [= <- <-]. destruct (IH m' e' eq_refl) as [upper ->]. by exists upper.
Qed.

(** The mantissa loop reads digits with at most one point among them. *)
Lemma mantissa_loop_text l : literal_ok l →
  mantissa_loop (mantissa_text l) [] 0 false = Ok (lit_whole l ++ fraction_digits l, zlen (fraction_digits l)).
Proof.
  intros [Hw Hf _ _]. unfold mantissa_text, fraction_digits in *. rewrite mantissa_loop_shown by done. cbn [app]. destruct (lit_fraction l) as [f|].
  - cbn [mantissa_loop default from_option id] in *. change ((46 =? 46) && negb false) with true. cbn iota.
    by rewrite <- (app_nil_r (ascii f)), mantissa_loop_shown by done.
  - cbn. by rewrite app_nil_r.
Qed.
Lemma mantissa_loop_inv text : ∀ ds f r g p, mantissa_loop text ds f p = Ok (r, g) →
  ∃ whole fraction, Forall digit whole ∧ Forall digit (default [] fraction) ∧ (p = true → fraction = None) ∧
    text = ascii whole ++ (match fraction with Some x => 46 :: ascii x | None => [] end) ∧ r = ds ++ whole ++ default [] fraction.
Proof.
  induction text as [|b text IH]; intros ds f r g p; cbn [mantissa_loop].
  { intros [= <- <-]. exists [], None. cbn. rewrite !app_nil_r. by split_and!. }
  destruct ((b =? 46) && negb p) eqn:Ep.
  - apply andb_true_iff in Ep as [->%Z.eqb_eq Hp%negb_true_iff]. intros (whole & fraction & Hw & _ & Hn & -> & ->)%IH.
    rewrite (Hn eq_refl). exists [], (Some whole). cbn. rewrite !app_nil_r. split_and!; try done. by rewrite Hp.
  - destruct (is_digit b) eqn:Eb; [|done]. intros (whole & fraction & Hw & Hf & Hn & -> & ->)%IH. exists ((b - 48) :: whole), fraction.
    unfold is_digit in Eb. split_and!; [constructor; [unfold digit; lia|done]|done|done| |by rewrite <- app_assoc].
    unfold ascii. rewrite fmap_cons. cbn [app]. f_equal. lia.
Qed.

Lemma mantissa_plain l : literal_ok l → Forall (λ b, b ≠ 101 ∧ b ≠ 69) (mantissa_text l).
Proof.
  intros [Hw Hf _ _]. unfold mantissa_text, fraction_digits in *. apply Forall_app. split; [by apply ascii_plain|].
  destruct (lit_fraction l); [|done]. constructor; [done|by apply ascii_plain].
Qed.
Lemma unsigned_text_head l : literal_ok l → ∃ b t, unsigned_text l = b :: t ∧ b ≠ 45 ∧ b ≠ 43.
Proof.
  intros [Hw Hf Hs _]. unfold unsigned_text, mantissa_text, fraction_digits in *. destruct Hw as [|d whole Hd _].
  - destruct (lit_fraction l) as [f|]; [|done]. cbn. by eexists _, _.
  - unfold digit in Hd. unfold ascii. rewrite fmap_cons. cbn [app]. eexists _, _. split; [done|]. lia.
Qed.

(** What the first half of the parser makes of a literal. *)
Lemma unsigned_parts_text negative l : literal_ok l →
  unsigned_parts negative (unsigned_text l) =
  if (- 2 ^ 15 <=? exponent_value l) && (exponent_value l <? 2 ^ 15) then
    if 1024 <? Z.abs (exponent_value l) then Err Overflow
    else Ok (negative, lit_whole l ++ fraction_digits l, - literal_power l)
  else Err InvalidLiteral.
Proof.
  intros Hl. pose proof (mantissa_plain l Hl) as Hp. pose proof (mantissa_loop_text l Hl) as Hm. destruct Hl as [_ _ Hs He].
  unfold unsigned_parts, unsigned_text, literal_power, exponent_value in *.
  assert (∀ e, (let? (ds, fraction) := mantissa_loop (mantissa_text l) [] 0 false in
    match ds with [] => Err InvalidLiteral | _ => Ok (negative, ds, fraction - e) end) =
    Ok (negative, lit_whole l ++ fraction_digits l, - (e - zlen (fraction_digits l)))) as Hfin.
  { intros e. rewrite Hm. cbn [result_bind]. destruct (lit_whole l ++ fraction_digits l); [done|]. do 2 f_equal. lia. }
  destruct (lit_exponent l) as [e|].
  - destruct He as [Hd Hne]. rewrite split_exponent_mark by (done || by destruct (exp_upper e)). unfold exponent_text. rewrite parse_i16_text by done.
    cbv zeta. set (n := sign_value _ * _) in *. destruct (_ && _); [|done]. cbn [ok_or result_bind]. destruct (1024 <? Z.abs n); [done|].
    cbn [result_bind]. apply Hfin.
  - rewrite app_nil_r, split_exponent_plain by done. cbn [result_bind]. by rewrite Hfin.
Qed.
Lemma literal_parts_text l : literal_ok l → zlen (literal_text l) ≤ MAX_LITERAL_BYTES →
  literal_parts (literal_text l) = unsigned_parts (is_minus (lit_sign l)) (unsigned_text l).
Proof.
  intros Hl Hlen. destruct (unsigned_text_head l Hl) as (b & t & E & Hm & Hp). unfold literal_text, literal_parts in *.
  destruct (lit_sign l) as [[]|]; cbn [sign_text app is_minus] in *; [by rewrite (proj2 (Z.ltb_ge _ _) Hlen)..|].
  rewrite E in *. rewrite (proj2 (Z.ltb_ge _ _) Hlen). by rewrite (proj2 (Z.eqb_neq _ _) Hm), (proj2 (Z.eqb_neq _ _) Hp).
Qed.

(** What it accepts is a literal. *)
Lemma unsigned_parts_inv negative text r : unsigned_parts negative text = Ok r →
  ∃ l, literal_ok l ∧ lit_sign l = None ∧ text = unsigned_text l.
Proof.
  unfold unsigned_parts. destruct (split_exponent text) as [m e] eqn:E. apply split_exponent_inv in E as [upper ->].
  intros (n & Hn & ([ds f] & (whole & fraction & Hw & Hf & _ & -> & ->)%mantissa_loop_inv & Hr)%result_bind_ok)%result_bind_ok.
  cbn [app] in Hr. assert (whole ++ default [] fraction ≠ []) as Hne by (by intros E; rewrite E in Hr). clear Hr.
  destruct e as [t|].
  - destruct (parse_i16 t) as [z|] eqn:Ez; [|done]. apply parse_i16_inv in Ez as (sign & ds & Hds & Hd & ->).
    by exists (mk_literal None whole fraction (Some (mk_exponent upper sign ds))).
  - by exists (mk_literal None whole fraction None).
Qed.
Lemma literal_parts_inv text r : literal_parts text = Ok r → zlen text ≤ MAX_LITERAL_BYTES ∧ ∃ l, literal_ok l ∧ text = literal_text l.
Proof.
  unfold literal_parts. destruct text as [|b t]; [done|]. destruct (Z.ltb_spec MAX_LITERAL_BYTES (zlen (b :: t))); [done|]. intros Hp. split; [done|].
  assert (∀ negative u sign, unsigned_parts negative u = Ok r → ∃ l, literal_ok l ∧ sign_text sign ++ u = literal_text l) as H'.
  { intros negative u sign (l & [Hw Hf Hs He] & _ & ->)%unsigned_parts_inv.
    by exists (mk_literal sign (lit_whole l) (lit_fraction l) (lit_exponent l)). }
  destruct (Z.eqb_spec b 45) as [->|]; [by apply (H' true t (Some true))|]. destruct (Z.eqb_spec b 43) as [->|]; [by apply (H' false t (Some false))|].
  by apply (H' false (b :: t) None).
Qed.

(** C35: what a decimal literal is and which value it has.  A literal is an
    optional sign, digits with an optional point among them and an optional
    exponent (e or E, an optional sign, digits); its value is the signed number
    its digits write, times the power of ten of the exponent less the number of
    digits after the point.  A literal of at most 256 bytes is parsed to a decimal
    of exactly that value; it is invalid exactly when the exponent is not a 16-bit
    integer, and an overflow exactly when the exponent is beyond 1024 in
    magnitude or no decimal has the value.  Any other text is refused. *)
Theorem decimal_parse_exact text :
  (∀ l, literal_ok l → text = literal_text l → zlen text ≤ MAX_LITERAL_BYTES →
    let e := exponent_value l in
    match Decimal_from_str text with
    | Ok d => Z.abs e ≤ 1024 ∧ wf d ∧ has_value l d
    | Err InvalidLiteral => ¬ - 2 ^ 15 ≤ e < 2 ^ 15
    | Err Overflow => - 2 ^ 15 ≤ e < 2 ^ 15 ∧ (1024 < Z.abs e ∨ ∀ d, wf d → ¬ has_value l d)
    | Err _ => False
    end) ∧
  ((∀ l, literal_ok l → text = literal_text l → MAX_LITERAL_BYTES < zlen text) → ∃ error, Decimal_from_str text = Err error).
Proof.
  unfold Decimal_from_str. split.
  - intros l Hl -> Hlen. cbv zeta. rewrite literal_parts_text, unsigned_parts_text by done. set (e := exponent_value l).
    destruct (Z.leb_spec (- 2 ^ 15) e), (Z.ltb_spec e (2 ^ 15)); cbn [andb result_bind]; try (intros ?; lia).
    destruct (Z.ltb_spec 1024 (Z.abs e)); cbn [result_bind]; [lia|].
    pose proof (assemble_spec (is_minus (lit_sign l)) (lit_whole l ++ fraction_digits l) (- literal_power l)) as H'.
    destruct (assemble _ _ _) as [d|error].
    + rewrite has_value_coefficient. split; [lia|]. apply H', Forall_app. split; apply Hl.
    + destruct H' as [-> Hn]; [apply Forall_app; split; apply Hl|]. split; [lia|right]. intros d Hd Hv. apply Hn. exists d.
      split; [done|]. by apply has_value_coefficient.
  - intros Hno. destruct (literal_parts text) as [[[negative ds] s]|error] eqn:E; [|by eexists].
    apply literal_parts_inv in E as (Hlen & l & Hl & ->). specialize (Hno l Hl eq_refl). lia.
Qed.

(** The literal -12.50e1 is -125.0. *)
Lemma decimal_parse_exact_witness :
  let l := mk_literal (Some true) [1; 2] (Some [5; 0]) (Some (mk_exponent false None [1])) in
  literal_text l = [45; 49; 50; 46; 53; 48; 101; 49] ∧
  Decimal_from_str (literal_text l) = Ok {| coefficient := -1250; scale := 1 |} ∧ has_value l {| coefficient := -1250; scale := 1 |}.
Proof.
  intros l. split; [reflexivity|]. pose proof (proj1 (decimal_parse_exact (literal_text l)) l) as H.
  assert (Decimal_from_str (literal_text l) = Ok {| coefficient := -1250; scale := 1 |}) as E by (by vm_compute).
  rewrite E in H. split; [exact E|]. apply H; [|reflexivity|by vm_compute]. by repeat constructor.
Defined.

(** ** Display and parse *)

(** The digits of an unsigned decimal text, and the scale it shows. *)
Definition text_of (d : Decimal) : bytes :=
  let m := Z.abs (coefficient d) in
  if scale d =? 0 then ascii (shown m)
  else ascii (shown (m / 10 ^ scale d)) ++ [46]
       ++ ascii (zeros (scale d - zlen (shown (m mod 10 ^ scale d))) ++ shown (m mod 10 ^ scale d)).

Lemma Decimal_to_string_text d :
  Decimal_to_string d = (if coefficient d <? 0 then [45] else []) ++ text_of d.
Proof.
  unfold Decimal_to_string, text_of, print_padded. rewrite !print_u128_shown.
  destruct (scale d =? 0); [done|]. do 3 f_equal. cbn [app]. f_equal. unfold ascii. rewrite fmap_app. f_equal.
  - unfold zeros. rewrite fmap_replicate. cbn. do 2 f_equal. unfold zlen. by rewrite length_fmap.
Qed.

Lemma text_of_spec d :
  wf d →
  ∃ ds, mantissa_loop (text_of d) [] 0 false = Ok (ds, scale d) ∧ Forall digit ds ∧ ds ≠ [] ∧
    from_digits ds = Z.abs (coefficient d) ∧ Forall (λ b, b ≠ 101 ∧ b ≠ 69) (text_of d) ∧
    zlen (text_of d) ≤ 77 ∧ ∃ b t, text_of d = b :: t ∧ b ≠ 45 ∧ b ≠ 43.
Proof.
  intros [Hc Hs]. unfold text_of. set (m := Z.abs (coefficient d)).
  assert (0 ≤ m < 10 ^ 38) as Hm by (unfold m, MAX_COEFFICIENT in *; lia).
  assert (∀ n t, 0 ≤ n → ∃ b r, ascii (shown n) ++ t = b :: r ∧ b ≠ 45 ∧ b ≠ 43) as Hhead.
  { intros n t Hn. destruct (shown_spec n Hn) as (_ & Hd & Hne & _). destruct (shown n) as [|h r]; [done|].
    apply Forall_cons in Hd as [Hh _]. unfold digit in Hh. do 2 eexists. split; [done|]. lia. }
  assert (∀ l, zlen (ascii l) = zlen l) as Hza by (intros; unfold ascii, zlen; by rewrite length_fmap).
  destruct (Z.eqb_spec (scale d) 0) as [-> | Hne].
  { destruct (shown_spec m ltac:(lia)) as (Hf & Hd & Hn & Hlen). exists (shown m).
    split_and!; [|done..|by apply ascii_plain| |].
    - rewrite <- (app_nil_r (ascii _)). by rewrite mantissa_loop_shown.
    - rewrite Hza. specialize (Hlen 38). lia.
    - destruct (Hhead m [] ltac:(lia)) as (b & r & E & Hb). rewrite app_nil_r in E. by exists b, r. }
  pose proof (pow10_pos (scale d) ltac:(lia)) as Hp.
  pose proof (Z.div_mod m (10 ^ scale d) ltac:(lia)) as Hdm.
  pose proof (Z.mod_pos_bound m (10 ^ scale d) ltac:(lia)) as Hmod.
  assert (0 ≤ m / 10 ^ scale d < 10 ^ 38) as Hdiv by (split; [apply Z.div_pos|apply Z.div_lt_upper_bound]; nia).
  set (q := m / 10 ^ scale d) in *. set (r := m mod 10 ^ scale d) in *.
  destruct (shown_spec q ltac:(lia)) as (Hfq & Hdq & Hnq & Hlq).
  destruct (shown_spec r ltac:(lia)) as (Hfr & Hdr & Hnr & Hlr).
  specialize (Hlr (scale d) ltac:(lia) ltac:(lia)). specialize (Hlq 38 ltac:(lia) ltac:(lia)).
  set (frac := zeros (scale d - zlen (shown r)) ++ shown r).
  assert (zlen frac = scale d) as Hzf by (unfold frac; rewrite zlen_app, zlen_zeros by lia; lia).
  assert (Forall digit frac) as Hdf.
  { apply Forall_app. split; [|done]. apply Forall_replicate. unfold digit. lia. }
  assert (from_digits frac = r) as Hff.
  { unfold frac. rewrite from_digits_app, Hfr.
    pose proof (from_digits_replicate [] (scale d - zlen (shown r)) ltac:(lia)) as E. cbn [app] in E.
    rewrite E. cbn. lia. }
  exists (shown q ++ frac). split_and!.
  - rewrite mantissa_loop_shown by done. cbn [app mantissa_loop]. change (46 =? 46) with true. cbn [andb negb].
    rewrite <- (app_nil_r (ascii frac)), mantissa_loop_shown by done. cbn [mantissa_loop].
    by rewrite Hzf.
  - by apply Forall_app.
  - by destruct (shown q).
  - rewrite from_digits_app, Hfq, Hff, Hzf. lia.
  - rewrite !Forall_app. split_and!; [by apply ascii_plain|by repeat constructor|by apply ascii_plain].
  - rewrite !zlen_app, !Hza, Hzf. change (zlen [46]) with 1. lia.
  - apply Hhead; lia.
Qed.

Lemma trim_loop_short rv s : zlen rv ≤ 38 → s ≤ 38 → trim_loop rv s = (rv, s).
Proof.
  intros Hl Hs. destruct rv as [|d t]; [done|]. cbn [trim_loop].
  rewrite (proj2 (Z.ltb_ge 38 _) Hl), (proj2 (Z.ltb_ge 38 s) Hs). cbn [orb]. by rewrite andb_false_r.
Qed.

(** Digits that fit are assembled as they are. *)
Lemma assemble_fits negative ds s :
  Forall digit ds → from_digits ds ≤ MAX_COEFFICIENT → 0 ≤ s ≤ 38 →
  (negative = true → from_digits ds ≠ 0) →
  assemble negative ds s = Ok {| coefficient := signed negative (from_digits ds); scale := s |}.
Proof.
  intros Hd Hmax Hs Hneg. destruct (skip_zeros_spec ds Hd) as (Hfrom & Hdig & Hhd). unfold assemble.
  pose proof (from_digits_bound ds Hd) as Hb.
  destruct (skip_zeros ds) as [|h t] eqn:E.
  { rewrite Z.max_r, Z.min_r, Decimal_new_ok by (unfold MAX_COEFFICIENT; lia).
    rewrite Hhd in *. destruct negative; [by destruct Hneg|done]. }
  assert (zlen (h :: t) ≤ 38) as Hlen.
  { destruct (digits_of_bounds (from_digits ds) (h :: t)) as [_ Hlow]; [done|].
    assert (from_digits ds ≠ 0) as Hnz.
    { rewrite <- Hfrom, from_digits_cons. apply Forall_cons in Hdig as [Hh Ht]. unfold digit in Hh.
      pose proof (from_digits_bound t Ht). pose proof (pow10_pos (zlen t) (zlen_nonneg t)). nia. }
    specialize (Hlow Hnz) as [_ Hlow]. assert (zlen (h :: t) - 1 < 38); [|lia].
    apply (Z.pow_lt_mono_r_iff 10); unfold MAX_COEFFICIENT in *; lia. }
  assert (zlen (reverse (h :: t)) = zlen (h :: t)) as Hrl by (unfold zlen; by rewrite length_reverse).
  rewrite trim_loop_short, Hrl, reverse_involutive, Hfrom by lia.
  rewrite !(proj2 (Z.ltb_ge _ _)) by lia. cbn [orb]. fold (signed negative (from_digits ds)).
  rewrite Decimal_new_ok by (rewrite ?signed_abs; lia). done.
Qed.

Lemma decimal_text_roundtrip d : wf d → Decimal_from_str (Decimal_to_string d) = Ok d.
Proof.
  intros Hd. destruct (text_of_spec d Hd) as (ds & Hmant & Hdig & Hne & Hfrom & Hplain & Hlen & b & t & Et & Hb1 & Hb2).
  destruct d as [c s]; cbn [coefficient scale] in *. destruct Hd as [Hc Hs]; cbn [coefficient scale] in *.
  assert (literal_parts (Decimal_to_string {| coefficient := c; scale := s |}) = Ok (c <? 0, ds, s)) as Hparts.
  { rewrite Decimal_to_string_text. cbn [coefficient]. unfold literal_parts, MAX_LITERAL_BYTES.
    assert (∀ neg, unsigned_parts neg (text_of {| coefficient := c; scale := s |}) = Ok (neg, ds, s)) as Hrest.
    { intros neg. unfold unsigned_parts. rewrite split_exponent_plain by done. cbn [result_bind].
      rewrite Hmant. cbn [result_bind]. destruct ds; [done|]. by rewrite Z.sub_0_r. }
    destruct (Z.ltb_spec c 0); cbn [app].
    - rewrite zlen_cons, (proj2 (Z.ltb_ge 256 _)) by lia. change (45 =? 45) with true. cbn iota. apply Hrest.
    - rewrite Et in *. rewrite (proj2 (Z.ltb_ge 256 _)) by lia.
      rewrite (proj2 (Z.eqb_neq b 45) Hb1), (proj2 (Z.eqb_neq b 43) Hb2). apply Hrest. }
  unfold Decimal_from_str. rewrite Hparts. cbn [result_bind].
  rewrite assemble_fits; [|done|lia|lia|].
  - do 2 f_equal. rewrite Hfrom. unfold signed. case_bool; lia.
  - intros Hneg%Z.ltb_lt. lia.
Qed.

(** Display and parse round trip: the text of a decimal parses back to the
    same coefficient and the same scale, trailing zeros included. *)
Theorem decimal_display_parse d : wf d → Decimal_from_str (Decimal_to_string d) = Ok d.
Proof. apply decimal_text_roundtrip. Qed.

Lemma decimal_display_parse_witness :
  Decimal_from_str (Decimal_to_string {| coefficient := -1050; scale := 3 |}) =
  Ok {| coefficient := -1050; scale := 3 |}.
Proof. apply decimal_display_parse. by vm_compute. Defined.
