(* ===== verification/Text.v ===== *)
(** Text as the codecs use it: the [str] methods of the language's library
    that they call, on the UTF-8 bytes of a string, and the printing and
    parsing of integers.

    A delimiter is always an ASCII character, so that splitting the bytes and
    splitting the characters are the same.  Slicing at a byte that is inside a
    character panics: [is_char_boundary] is the test. *)
From Stdlib Require Import Ascii.
From S2P Require Import Prelude Decimal DecimalArith DecimalText.

(** The bytes of a literal. *)
Definition lit (s : string) : bytes := (λ a, Z.of_nat (nat_of_ascii a)) <$> String.list_ascii_of_string s.

(** ** Splitting *)

(** [str::find]: what is before the first match, and what starts with it. *)
Fixpoint span_to (p : Z → bool) (s : bytes) : bytes * bytes :=
  match s with
  | [] => ([], [])
  | c :: t => if p c then ([], s) else let (a, b) := span_to p t in (c :: a, b)
  end.
(** [str::split_once] and [str::find] with the match itself dropped. *)
Definition split_at_first (p : Z → bool) (s : bytes) : option (bytes * bytes) :=
  let (a, b) := span_to p s in match b with [] => None | _ :: b => Some (a, b) end.
Definition is_char (c b : Z) : bool := b =? c.
Definition one_of (cs : list Z) (b : Z) : bool := existsb (Z.eqb b) cs.
Definition split_once (c : Z) (s : bytes) : option (bytes * bytes) := split_at_first (is_char c) s.

(** [str::split] on one character: never empty. *)
Fixpoint split_on (c : Z) (s : bytes) : list bytes :=
  match s with
  | [] => [[]]
  | b :: t =>
      if b =? c then [] :: split_on c t
      else match split_on c t with
           | [] => [[b]]
           | first :: rest => (b :: first) :: rest
           end
  end.

(** [join]. *)
Fixpoint join (sep : Z) (parts : list bytes) : bytes :=
  match parts with
  | [] => []
  | [p] => p
  | p :: rest => p ++ sep :: join sep rest
  end.

Fixpoint strip_prefix (p s : bytes) : option bytes :=
  match p, s with
  | [], _ => Some s
  | a :: p, b :: s => if a =? b then strip_prefix p s else None
  | _ :: _, [] => None
  end.

(** [str::is_char_boundary]. *)
Definition is_char_boundary (s : bytes) (i : Z) : bool :=
  (i =? 0) || (i =? zlen s) || match zget s i with Some b => negb (utf8_cont b) | None => false end.

(** ** White space: [str::trim] drops the characters with the White_Space property *)

Definition white_space : list bytes :=
  [[9]; [10]; [11]; [12]; [13]; [32]; [0xc2; 0x85]; [0xc2; 0xa0]; [0xe1; 0x9a; 0x80];
   [0xe2; 0x80; 0x80]; [0xe2; 0x80; 0x81]; [0xe2; 0x80; 0x82]; [0xe2; 0x80; 0x83]; [0xe2; 0x80; 0x84];
   [0xe2; 0x80; 0x85]; [0xe2; 0x80; 0x86]; [0xe2; 0x80; 0x87]; [0xe2; 0x80; 0x88]; [0xe2; 0x80; 0x89];
   [0xe2; 0x80; 0x8a]; [0xe2; 0x80; 0xa8]; [0xe2; 0x80; 0xa9]; [0xe2; 0x80; 0xaf]; [0xe2; 0x81; 0x9f];
   [0xe3; 0x80; 0x80]].

(** What is left after one of the [ws] at the start of [s]. *)
Fixpoint strip_any (ws : list bytes) (s : bytes) : option bytes :=
  match ws with
  | [] => None
  | w :: ws => match strip_prefix w s with Some t => Some t | None => strip_any ws s end
  end.
Fixpoint trim_loop_ws (fuel : nat) (ws : list bytes) (s : bytes) : bytes :=
  match fuel with
  | O => s
  | S fuel => match strip_any ws s with Some t => trim_loop_ws fuel ws t | None => s end
  end.
Definition trim_start (s : bytes) : bytes := trim_loop_ws (length s) white_space s.
Definition trim_end (s : bytes) : bytes :=
  reverse (trim_loop_ws (length s) (reverse <$> white_space) (reverse s)).
Definition trim (s : bytes) : bytes := trim_end (trim_start s).

(** ** Integers *)

(** [str::parse] of an unsigned integer of largest value [m]: an optional [+],
    then at least one digit, in range. *)
Definition parse_digits (ds : bytes) : option Z :=
  match ds with
  | [] => None
  | _ => if forallb is_digit ds then Some (from_digits ((λ b, b - 48) <$> ds)) else None
  end.
Definition parse_unsigned (m : Z) (s : bytes) : option Z :=
  match parse_digits (match s with c :: t => if c =? 43 then t else s | [] => s end) with
  | Some n => if n <=? m then Some n else None
  | None => None
  end.
(** Of a signed one: an optional [+] or [-]. *)
Definition parse_signed (lo hi : Z) (s : bytes) : option Z :=
  match (match s with
         | c :: t =>
             if c =? 45 then option_map Z.opp (parse_digits t)
             else if c =? 43 then parse_digits t
             else parse_digits s
         | [] => None
         end) with
  | Some n => if (lo <=? n) && (n <=? hi) then Some n else None
  | None => None
  end.
(** [Display] of a signed integer. *)
Definition print_signed (z : Z) : bytes := if z <? 0 then 45 :: print_u128 (- z) else print_u128 z.

(** [u8::from_str_radix(pair, 16)] on two bytes: a leading [+] is accepted. *)
Definition hex_value (b : Z) : option Z :=
  if (48 <=? b) && (b <=? 57) then Some (b - 48)
  else if (97 <=? b) && (b <=? 102) then Some (b - 87)
  else if (65 <=? b) && (b <=? 70) then Some (b - 55)
  else None.
Definition u8_from_hex (hi lo : Z) : option Z :=
  if hi =? 43 then hex_value lo
  else match hex_value hi, hex_value lo with Some h, Some l => Some (16 * h + l) | _, _ => None end.

(** ** Lemmas *)

Definition no (p : Z → bool) (s : bytes) : Prop := Forall (λ b, p b = false) s.

Lemma span_to_no p s t : no p s → span_to p (s ++ t) = (s ++ (span_to p t).1, (span_to p t).2).
Proof.
  induction 1 as [|b s Hb _ IH]; cbn; [by destruct (span_to p t)|]. rewrite Hb, IH. by destruct (span_to p t).
Qed.
Lemma span_to_hit p s c t : no p s → p c = true → span_to p (s ++ c :: t) = (s, c :: t).
Proof. intros Hs Hc. rewrite span_to_no by done. cbn. rewrite Hc. cbn. by rewrite app_nil_r. Qed.
Lemma span_to_none p s : no p s → span_to p s = (s, []).
Proof. intros Hs. pose proof (span_to_no p s [] Hs) as E. rewrite app_nil_r in E. rewrite E. cbn. by rewrite app_nil_r. Qed.
Lemma split_at_first_hit p s c t : no p s → p c = true → split_at_first p (s ++ c :: t) = Some (s, t).
Proof. intros. unfold split_at_first. by rewrite span_to_hit. Qed.
Lemma split_at_first_none p s : no p s → split_at_first p s = None.
Proof. intros. unfold split_at_first. by rewrite span_to_none. Qed.

Lemma split_on_no c s : no (is_char c) s → split_on c s = [s].
Proof. induction 1 as [|b s Hb _ IH]; [done|]. cbn. unfold is_char in Hb. by rewrite Hb, IH. Qed.
Lemma split_on_app c s t :
  no (is_char c) s → split_on c (s ++ c :: t) = s :: split_on c t.
Proof.
  induction 1 as [|b s Hb _ IH]; cbn; [by rewrite Z.eqb_refl|]. unfold is_char in Hb. by rewrite Hb, IH.
Qed.
Lemma split_on_join c parts :
  parts ≠ [] → Forall (no (is_char c)) parts → split_on c (join c parts) = parts.
Proof.
  intros Hne HF. induction HF as [|p parts Hp HF IH]; [done|].
  destruct parts as [|q parts]; [by apply split_on_no|].
  cbn [join]. rewrite split_on_app by done. f_equal. by apply IH.
Qed.
Lemma split_on_nonempty c s : split_on c s ≠ [].
Proof. destruct s; cbn; [done|]. repeat case_match; done. Qed.
Lemma split_on_lengths c s : Forall (λ p, zlen p ≤ zlen s) (split_on c s).
Proof.
  induction s as [|b s IH]; cbn; [by repeat constructor|].
  assert (Forall (λ p, zlen p ≤ zlen (b :: s)) (split_on c s)) as IH'.
  { eapply Forall_impl; [exact IH|]. intros p. cbn. rewrite zlen_cons. lia. }
  case_match; [constructor; [rewrite zlen_cons; pose proof (zlen_nonneg s); rewrite zlen_nil; lia|done]|].
  destruct (split_on c s) as [|first rest]; [repeat constructor; rewrite !zlen_cons, zlen_nil; pose proof (zlen_nonneg s); lia|].
  inversion IH; inversion IH'; subst. constructor; [|done]. rewrite !zlen_cons. lia.
Qed.

Lemma strip_prefix_app p s : strip_prefix p (p ++ s) = Some s.
Proof. induction p as [|a p IH]; cbn; [done|]. by rewrite Z.eqb_refl. Qed.
Lemma strip_prefix_some p s t : strip_prefix p s = Some t → s = p ++ t.
Proof.
  revert s. induction p as [|a p IH]; intros s; cbn; [by intros [= ->]|].
  destruct s as [|b s]; [done|]. case_bool; [|done]. subst. intros ->%IH. done.
Qed.

(** Graphic ASCII text has no white space to trim, at either end. *)
Definition graphic (b : Z) : bool := (33 <=? b) && (b <=? 126).

Lemma strip_any_graphic ws s :
  Forall (λ w, match w with b :: _ => graphic b = false | [] => False end) ws →
  match s with b :: _ => graphic b = true | [] => True end → strip_any ws s = None.
Proof.
  intros Hws Hs. induction Hws as [|w ws Hw _ IH]; [done|]. cbn.
  destruct w as [|a w]; [done|]. destruct s as [|b s]; cbn; [by apply IH|].
  case_bool; [congruence|by apply IH].
Qed.
Lemma trim_loop_ws_none fuel ws s : strip_any ws s = None → trim_loop_ws fuel ws s = s.
Proof. destruct fuel; [done|]. cbn. by intros ->. Qed.
Lemma trim_graphic s : Forall (λ b, graphic b = true) s → trim s = s.
Proof.
  intros HF. unfold trim, trim_end, trim_start.
  assert (Forall (λ b, graphic b = true) (reverse s)) as HR by by apply Forall_reverse.
  rewrite (trim_loop_ws_none (length s) white_space s).
  2: { apply strip_any_graphic; [by repeat constructor|]. by destruct HF as [|b t Hb _]. }
  rewrite trim_loop_ws_none; [apply reverse_involutive|].
  apply strip_any_graphic; [by repeat constructor|].
  destruct (reverse s); [done|]. by apply Forall_cons in HR as [? _].
Qed.

(** ** Printed integers *)

Lemma is_digit_ascii ds : Forall digit ds → Forall (λ b, is_digit b = true) (ascii ds).
Proof.
  intros HF. apply Forall_fmap. eapply Forall_impl; [exact HF|]. intros d. unfold digit, is_digit, compose. lia.
Qed.
Lemma unascii ds : (λ b, b - 48) <$> ascii ds = ds.
Proof. unfold ascii. rewrite <- list_fmap_compose. rewrite <- (list_fmap_id ds) at 2. apply list_fmap_ext. intros. cbn. lia. Qed.

Lemma print_u128_digits n : 0 ≤ n → Forall (λ b, is_digit b = true) (print_u128 n).
Proof. intros. rewrite print_u128_shown. apply is_digit_ascii, shown_spec. done. Qed.
Lemma print_u128_nonempty n : 0 ≤ n → print_u128 n ≠ [].
Proof. intros Hn. rewrite print_u128_shown. destruct (shown_spec n Hn) as (_ & _ & Hne & _). by destruct (shown n). Qed.

Lemma forallb_digits s : Forall (λ b, is_digit b = true) s → forallb is_digit s = true.
Proof. intros HF. apply forallb_forall. intros x Hx%list_elem_of_In. rewrite Forall_forall in HF. by apply HF. Qed.
Lemma parse_digits_value s :
  s ≠ [] → Forall (λ b, is_digit b = true) s → parse_digits s = Some (from_digits ((λ b, b - 48) <$> s)).
Proof. intros Hne HF%forallb_digits. unfold parse_digits. rewrite HF. by destruct s. Qed.
Lemma parse_digits_ascii ds : ds ≠ [] → Forall digit ds → parse_digits (ascii ds) = Some (from_digits ds).
Proof.
  intros Hne HF. rewrite parse_digits_value; [by rewrite unascii|by destruct ds|by apply is_digit_ascii].
Qed.
Lemma parse_digits_print n : 0 ≤ n → parse_digits (print_u128 n) = Some n.
Proof.
  intros Hn. rewrite print_u128_shown. destruct (shown_spec n Hn) as (Hf & Hd & Hne & _).
  rewrite parse_digits_ascii by done. by rewrite Hf.
Qed.

Lemma parse_unsigned_print m n : 0 ≤ n ≤ m → parse_unsigned m (print_u128 n) = Some n.
Proof.
  intros Hn. unfold parse_unsigned. pose proof (print_u128_digits n ltac:(lia)) as HF.
  destruct (print_u128 n) as [|b t] eqn:E; [by destruct (print_u128_nonempty n); [lia|]|].
  apply Forall_cons in HF as [Hb _]. unfold is_digit in Hb.
  assert ((b =? 43) = false) as -> by lia. rewrite <- E, parse_digits_print by lia. case_bool; [done|lia].
Qed.
Lemma parse_signed_print lo hi z : lo ≤ z ≤ hi → parse_signed lo hi (print_signed z) = Some z.
Proof.
  intros Hz. unfold parse_signed, print_signed. destruct (Z.ltb_spec z 0).
  - cbn. rewrite parse_digits_print by lia. cbn. rewrite Z.opp_involutive.
    repeat (case_bool; cbn [andb]; [|lia]). done.
  - pose proof (print_u128_digits z ltac:(lia)) as HF.
    destruct (print_u128 z) as [|b t] eqn:E; [by destruct (print_u128_nonempty z); [lia|]|].
    apply Forall_cons in HF as [Hb _]. unfold is_digit in Hb.
    assert ((b =? 45) = false) as -> by lia. assert ((b =? 43) = false) as -> by lia.
    rewrite <- E, parse_digits_print by lia. repeat (case_bool; cbn [andb]; [|lia]). done.
Qed.

(** The bytes of a printed integer. *)
Definition numeric (b : Z) : bool := is_digit b || (b =? 45).
Lemma print_signed_numeric z : Forall (λ b, numeric b = true) (print_signed z).
Proof.
  unfold print_signed, numeric. destruct (Z.ltb_spec z 0).
  - constructor; [done|]. eapply Forall_impl; [by apply print_u128_digits; lia|]. intros b Hb. cbn in *. by rewrite Hb.
  - eapply Forall_impl; [by apply print_u128_digits; lia|]. intros b Hb. cbn in *. by rewrite Hb.
Qed.

(** [{:0width$}]: at least that many digits, exactly that many when they are enough. *)
Lemma print_padded_spec n w :
  0 ≤ n → 1 ≤ w →
  w ≤ zlen (print_padded n w) ∧ (n < 10 ^ w → zlen (print_padded n w) = w) ∧
  Forall (λ b, is_digit b = true) (print_padded n w) ∧ parse_digits (print_padded n w) = Some n.
Proof.
  intros Hn Hw. unfold print_padded. rewrite print_u128_shown.
  destruct (shown_spec n ltac:(lia)) as (Hf & Hd & Hne & Hlen). specialize (Hlen w Hw).
  assert (zlen (ascii (shown n)) = zlen (shown n)) as El by (unfold zlen, ascii; by rewrite length_fmap).
  rewrite El. set (k := Z.to_nat (w - zlen (shown n))).
  assert (replicate k 48 ++ ascii (shown n) = ascii (replicate k 0 ++ shown n)) as E.
  { unfold ascii. rewrite fmap_app, fmap_replicate. done. }
  rewrite E. assert (Forall digit (replicate k 0 ++ shown n)) as Hd'.
  { apply Forall_app. split; [by apply Forall_replicate|done]. }
  assert (zlen (ascii (replicate k 0 ++ shown n)) = Z.max w (zlen (shown n))) as Ez.
  { unfold zlen, ascii. rewrite length_fmap, length_app, length_replicate. unfold k, zlen. lia. }
  rewrite Ez. split_and!; [lia|lia|by apply is_digit_ascii|].
  rewrite parse_digits_ascii; [|intros [_ ?]%app_nil; done|done].
  f_equal. rewrite from_digits_app, Hf.
  assert (∀ j, from_digits (replicate j 0) = 0) as ->; [|lia].
  intros j. pose proof (from_digits_replicate [] (Z.of_nat j) ltac:(lia)) as Er.
  unfold zeros in Er. rewrite Nat2Z.id in Er. exact Er.
Qed.

(** Enough digits need no padding. *)
Lemma print_padded_wide n w : 10 ^ w ≤ n → 0 ≤ w → print_padded n w = print_u128 n.
Proof.
  intros Hn Hw. unfold print_padded. rewrite print_u128_shown.
  destruct (shown_spec n ltac:(lia)) as (Hf & Hd & Hne & _).
  pose proof (from_digits_bound _ Hd) as Hb. rewrite Hf in Hb.
  assert (w < zlen (shown n)). { pose proof (zlen_nonneg (shown n)). apply (Z.pow_lt_mono_r_iff 10); lia. }
  assert (zlen (ascii (shown n)) = zlen (shown n)) as -> by (unfold zlen, ascii; by rewrite length_fmap).
  replace (Z.to_nat (w - zlen (shown n))) with 0%nat by lia. done.
Qed.

(** Slicing ASCII text never panics. *)
Lemma ascii_boundary s i : Forall (λ b, b < 128) s → 0 ≤ i ≤ zlen s → is_char_boundary s i = true.
Proof.
  intros HF Hi. unfold is_char_boundary, zget, zlen in *. case_bool; [done|].
  case_bool; [done|]. cbn [orb]. case_bool; [lia|].
  destruct (lookup_lt_is_Some_2 s (Z.to_nat i)) as [b Hb]; [lia|]. rewrite Hb.
  rewrite Forall_lookup in HF. specialize (HF _ _ Hb). cbn in HF. unfold utf8_cont. case_bool; [lia|done].
Qed.
