(* ===== verification/Float64.v ===== *)
(** The language's [f64]: an IEEE 754 binary64 number of the Standard Library's
    specification of floating point, with the conversions, the remainder and
    the decimal text that the program uses. *)
From Stdlib Require Import SpecFloat.
From S2P Require Import Prelude Decimal DecimalText Text.

(** ** Numbers *)

Abbreviation f64 := spec_float.
Definition f64_of_Z (z : Z) : f64 := binary_normalize 53 1024 z 0 false.
Definition f64_add : f64 → f64 → f64 := SFadd 53 1024.
Definition f64_sub : f64 → f64 → f64 := SFsub 53 1024.
Definition f64_mul : f64 → f64 → f64 := SFmul 53 1024.
Definition f64_div : f64 → f64 → f64 := SFdiv 53 1024.
Definition f64_is_finite (x : f64) : bool := match x with S754_zero _ | S754_finite _ _ _ => true | _ => false end.
Definition f64_is_nan (x : f64) : bool := match x with S754_nan => true | _ => false end.

(** [trunc] and [round] (half away from zero). *)
Definition f64_integral (half : bool) (x : f64) : f64 :=
  match x with
  | S754_finite s m e =>
      if 0 <=? e then x
      else
        let k := 2 ^ (- e) in
        let n := (Zpos m + (if half then k / 2 else 0)) / k in
        if n =? 0 then S754_zero s else binary_normalize 53 1024 (if s then - n else n) 0 s
  | _ => x
  end.
Definition f64_trunc : f64 → f64 := f64_integral false.
Definition f64_round : f64 → f64 := f64_integral true.
(** [fract]: the number less its integral part. *)
Definition f64_fract (x : f64) : f64 := f64_sub x (f64_trunc x).

(** The remainder of the truncated division, which is exact. *)
Definition f64_rem (x y : f64) : f64 :=
  match x, y with
  | S754_nan, _ | _, S754_nan | S754_infinity _, _ | _, S754_zero _ => S754_nan
  | _, S754_infinity _ | S754_zero _, _ => x
  | S754_finite s m e, S754_finite _ m' e' =>
      let k := Z.min e e' in
      let r := (Zpos m * 2 ^ (e - k)) mod (Zpos m' * 2 ^ (e' - k)) in
      binary_normalize 53 1024 (if s then - r else r) k s
  end.

(** [as] to a signed integer: toward zero, saturating, NaN to zero. *)
Definition f64_as_int (lo hi : Z) (x : f64) : Z :=
  match x with
  | S754_finite s m e =>
      let n := if 0 <=? e then Zpos m * 2 ^ e else Zpos m / 2 ^ (- e) in
      Z.max lo (Z.min hi (if s then - n else n))
  | S754_infinity true => lo
  | S754_infinity false => hi
  | _ => 0
  end.
Definition i128_min : Z := - 2 ^ 127.
Definition i128_max : Z := 2 ^ 127 - 1.
Definition f64_as_i128 : f64 → Z := f64_as_int i128_min i128_max.
Definition f64_as_i64 : f64 → Z := f64_as_int i64_min i64_max.

Definition checked_i128 (z : Z) : option Z := if (i128_min <=? z) && (z <=? i128_max) then Some z else None.

(** ** Bit patterns *)

(** [from_bits]: sign, 11 bits of exponent, 52 bits of fraction. *)
Definition f64_from_bits (bits : Z) : f64 :=
  let s := 2 ^ 63 <=? bits in
  let e := bits / 2 ^ 52 mod 2 ^ 11 in
  let fraction := bits mod 2 ^ 52 in
  if e =? 2047 then (if fraction =? 0 then S754_infinity s else S754_nan)
  else if e =? 0 then (if fraction =? 0 then S754_zero s else S754_finite s (Z.to_pos fraction) (- 1074))
  else S754_finite s (Z.to_pos (2 ^ 52 + fraction)) (e - 1075).

(** [to_bits]; a NaN that an operation makes is the quiet one. *)
Definition f64_to_bits (x : f64) : Z :=
  let sign (s : bool) := if s then 2 ^ 63 else 0 in
  match x with
  | S754_zero s => sign s
  | S754_infinity s => sign s + 2047 * 2 ^ 52
  | S754_nan => 2047 * 2 ^ 52 + 2 ^ 51
  | S754_finite s m e =>
      if Zpos m <? 2 ^ 52 then sign s + Zpos m else sign s + (e + 1075) * 2 ^ 52 + (Zpos m - 2 ^ 52)
  end.

(** ** Decimal text *)

(** The number nearest to a decimal, ties to even. *)
Definition f64_of_decimal (negative : bool) (m e : Z) : f64 :=
  match m with
  | Zpos p =>
      if 0 <=? e then binary_normalize 53 1024 (if negative then - (m * 10 ^ e) else m * 10 ^ e) 0 negative
      else f64_div (S754_finite negative p 0) (S754_finite false (Z.to_pos (10 ^ (- e))) 0)
  | _ => S754_zero negative
  end.

(** [f64::from_str]: a sign, digits with an optional point, an optional
    exponent; or a name of an infinity or of NaN in any case. *)
Definition to_ascii_lowercase (b : Z) : Z := if (65 <=? b) && (b <=? 90) then b + 32 else b.
Definition parse_inf_nan (negative : bool) (s : bytes) : option f64 :=
  let s := to_ascii_lowercase <$> s in
  if bool_decide (s = lit "inf") || bool_decide (s = lit "infinity") then Some (S754_infinity negative)
  else if bool_decide (s = lit "nan") then Some S754_nan
  else None.
Definition digit_run (s : bytes) : bytes * bytes := span_to (λ b, negb (is_digit b)) s.
Definition digits_value (ds : bytes) : Z := from_digits ((λ b, b - 48) <$> ds).
Definition parse_scientific (s : bytes) : option Z :=
  match s with
  | [] => Some 0
  | mark :: s =>
      if one_of [101; 69] mark then
        let '(negative, s) :=
          match s with
          | c :: s' => if c =? 45 then (true, s') else if c =? 43 then (false, s') else (false, s)
          | [] => (false, s)
          end in
        match digit_run s with
        | ([], _) => None
        | (ds, []) => Some (if negative then - digits_value ds else digits_value ds)
        | _ => None
        end
      else None
  end.
Definition parse_number (negative : bool) (s : bytes) : option f64 :=
  let '(whole, s) := digit_run s in
  let '(fraction, s) := match s with c :: s' => if c =? 46 then digit_run s' else ([], s) | [] => ([], s) end in
  if bool_decide (whole ++ fraction = []) then None
  else (λ e, f64_of_decimal negative (digits_value (whole ++ fraction)) (e - zlen fraction)) <$> parse_scientific s.
Definition f64_from_str (s : bytes) : result f64 string :=
  match s with
  | [] => Err "cannot parse float from empty string"%string
  | c :: rest =>
      let negative := c =? 45 in
      let s := if one_of [45; 43] c then rest else s in
      match s with
      | [] => Err "invalid float literal"%string
      | _ =>
          match parse_number negative s with
          | Some x => Ok x
          | None => ok_or (parse_inf_nan negative s) "invalid float literal"%string
          end
      end
  end.

(** [to_string]: the shortest decimal that reads back, and of those of the same
    length the nearest, in positional notation. *)
Definition ten_to (e : Z) (n d : Z) : Z * Z := if 0 <=? e then (n * 10 ^ e, d) else (n, d * 10 ^ (- e)).
(** The numerator and denominator of a magnitude. *)
Definition magnitude (m : positive) (e : Z) : Z * Z := if 0 <=? e then (Zpos m * 2 ^ e, 1) else (Zpos m, 2 ^ (- e)).
(** The number of digits before the point (zero or less below 0.1). *)
Definition decimal_point (m : positive) (e : Z) : Z :=
  let guess := (Z.log2 (Zpos m) + e) * 30103 / 100000 in
  let '(n, d) := magnitude m e in
  let below p := let '(x, y) := ten_to p 1 1 in n * y <? d * x in
  if below (guess - 1) then guess - 1 else if below guess then guess
  else if below (guess + 1) then guess + 1 else guess + 2.
Definition reads_back (m : positive) (e digits k : Z) : bool := SFeqb (f64_of_decimal false digits k) (S754_finite false m e).
(** The decimals of [count] digits on both sides of the number. *)
Definition shortest_at (m : positive) (e point count : Z) : option (Z * Z) :=
  let k := point - count in
  let '(n, d) := magnitude m e in
  let '(n, d) := ten_to (- k) n d in
  let low := n / d in
  let up := reads_back m e (low + 1) k in
  if reads_back m e low k && (negb up || (2 * (n - low * d) <? d)) then Some (low, k)
  else if up then Some (low + 1, k) else None.
Fixpoint shortest_loop (m : positive) (e point : Z) (counts : list Z) : Z * Z :=
  match counts with
  | [] => (0, 0)
  | count :: counts =>
      match shortest_at m e point count with Some found => found | None => shortest_loop m e point counts end
  end.
Fixpoint strip_zeros (fuel : nat) (digits k : Z) : Z * Z :=
  match fuel with
  | O => (digits, k)
  | S fuel => if (k <? 0) && (digits mod 10 =? 0) then strip_zeros fuel (digits / 10) (k + 1) else (digits, k)
  end.
Definition positional (digits k : Z) : bytes :=
  if 0 <=? k then print_u128 (digits * 10 ^ k)
  else print_u128 (digits / 10 ^ (- k)) ++ 46 :: print_padded (digits mod 10 ^ (- k)) (- k).
Definition f64_to_string (x : f64) : bytes :=
  let sign (s : bool) := if s then [45] else [] in
  match x with
  | S754_nan => lit "NaN"
  | S754_infinity s => sign s ++ lit "inf"
  | S754_zero s => sign s ++ [48]
  | S754_finite s m e =>
      let '(digits, k) := shortest_loop m e (decimal_point m e) (Z.of_nat <$> seq 1 17) in
      let '(digits, k) := strip_zeros 2 digits k in
      sign s ++ positional digits k
  end.

Example f64_text_examples :
  f64_to_string (f64_from_bits 0x3FB999999999999A) = lit "0.1" ∧
  f64_to_string (f64_from_bits 0x4005BF0A8B145769) = lit "2.718281828459045" ∧
  f64_to_string (f64_from_bits 0xC341C37937E08000) = lit "-10000000000000000" ∧
  f64_to_bits <$> [f64_of_Z (2 ^ 63); f64_of_decimal true 25 (-1)] = [0x43E0000000000000; 0xC004000000000000] ∧
  f64_from_str (lit "-1.5e-3") = Ok (f64_of_decimal true 15 (-4)) ∧
  f64_from_str (lit "1e") = Err "invalid float literal"%string ∧
  f64_to_string (f64_rem (f64_of_Z (-7)) (f64_of_decimal false 25 (-1))) = lit "-2".
Proof. by vm_compute. Qed.

(** ** Values *)

(** The value of a finite number in units of 2^-1074, the smallest double. *)
Definition f64_scaled (x : f64) : Z :=
  match x with S754_finite s m e => (if s then -1 else 1) * (Zpos m * 2 ^ (e + 1074)) | _ => 0 end.

(** What bit patterns stand for: normal mantissas have 53 bits, smaller ones the
    least exponent. *)
Definition f64_wf (x : f64) : Prop :=
  match x with
  | S754_finite _ m e => -1074 ≤ e ≤ 971 ∧ Zpos m < 2 ^ 53 ∧ (2 ^ 52 ≤ Zpos m ∨ e = -1074)
  | _ => True
  end.

Lemma from_bits_wf bits : f64_wf (f64_from_bits bits).
Proof.
  unfold f64_from_bits, f64_wf. pose proof (Z.mod_pos_bound bits (2 ^ 52) ltac:(lia)).
  pose proof (Z.mod_pos_bound (bits / 2 ^ 52) (2 ^ 11) ltac:(lia)).
  destruct (Z.eqb_spec (bits / 2 ^ 52 mod 2 ^ 11) 2047); [by destruct (bits mod 2 ^ 52 =? 0)|].
  destruct (Z.eqb_spec (bits / 2 ^ 52 mod 2 ^ 11) 0).
  - destruct (Z.eqb_spec (bits mod 2 ^ 52) 0); [done|]. rewrite Z2Pos.id by lia. lia.
  - rewrite Z2Pos.id by lia. lia.
Qed.

Lemma digits2_log2 p : Zpos (digits2_pos p) = Z.log2 (Zpos p) + 1.
Proof.
  induction p as [p IH|p IH|]; [| |done]; cbn [digits2_pos]; rewrite Pos2Z.inj_succ, IH.
  - rewrite (Pos2Z.inj_xI p), Z.log2_succ_double by done. lia.
  - rewrite (Pos2Z.inj_xO p), Z.log2_double by done. lia.
Qed.

Lemma iter_pos_nat {A} (f : A → A) (n : positive) (x : A) : SpecFloat.iter_pos f n x = Nat.iter (Pos.to_nat n) f x.
Proof.
  revert x; induction n as [n IH|n IH|]; intros x; cbn [SpecFloat.iter_pos]; [| |done].
  - rewrite !IH, Pos2Nat.inj_xI, <- Nat.iter_add, <- Nat.iter_succ_r. f_equal. lia.
  - rewrite !IH, Pos2Nat.inj_xO, <- Nat.iter_add. f_equal. lia.
Qed.


Lemma iter_xO n m : Zpos (Nat.iter n xO m) = Zpos m * 2 ^ Z.of_nat n.
Proof.
  induction n as [|n IH]; [by rewrite Z.mul_1_r|]. change (Nat.iter (S n) xO m) with ((Nat.iter n xO m)~0)%positive.
  rewrite Pos2Z.inj_xO, IH, Nat2Z.inj_succ, Z.pow_succ_r by lia. lia.
Qed.
Lemma shr_iter n m : SpecFloat.iter_pos shr_1 n {| shr_m := Zpos m * 2 ^ Zpos n; shr_r := false; shr_s := false |} =
  {| shr_m := Zpos m; shr_r := false; shr_s := false |}.
Proof.
  rewrite iter_pos_nat, <- (positive_nat_Z n), <- iter_xO. generalize (Pos.to_nat n). clear n. intros n.
  induction n as [|n IH]; [done|]. by rewrite Nat.iter_succ_r.
Qed.

(** Shifting out zeros is exact. *)
Lemma shr_exact m e k : 0 ≤ k →
  shr {| shr_m := Zpos m * 2 ^ k; shr_r := false; shr_s := false |} e k =
    ({| shr_m := Zpos m; shr_r := false; shr_s := false |}, e + k).
Proof.
  intros Hk. unfold shr. destruct k as [|k|]; [|by rewrite shr_iter|lia].
  by rewrite Z.mul_1_r, Z.add_0_r.
Qed.

(** A number that fits keeps its mantissa and exponent. *)
Lemma round_exact s m e k : 0 ≤ k → 2 ^ 52 ≤ Zpos m < 2 ^ 53 → -1074 ≤ e + k ≤ 971 →
  binary_round_aux 53 1024 s (Zpos m * 2 ^ k) e loc_Exact = S754_finite s m (e + k).
Proof.
  intros Hk Hm He. unfold binary_round_aux.
  assert (Z.log2 (Zpos m) = 52) as Hl by (apply Z.log2_unique; lia).
  assert (Zdigits2 (Zpos m * 2 ^ k) = 53 + k) as Hd.
  { pose proof (Z.log2_mul_pow2 (Zpos m) k ltac:(lia) Hk) as H. destruct (Zpos m * 2 ^ k) eqn:E; [nia| |nia].
    cbn [Zdigits2]. rewrite digits2_log2. lia. }
  assert (∀ z, z = Zpos m * 2 ^ k → shr_fexp 53 1024 z e loc_Exact =
    ({| shr_m := Zpos m; shr_r := false; shr_s := false |}, e + k)) as H1.
  { intros z ->. unfold shr_fexp, fexp, emin. cbn [shr_record_of_loc]. rewrite Hd.
    replace (Z.max _ _ - e) with k by lia. by apply shr_exact. }
  assert (shr_fexp 53 1024 (Zpos m) (e + k) loc_Exact =
    ({| shr_m := Zpos m; shr_r := false; shr_s := false |}, e + k)) as H2.
  { unfold shr_fexp, fexp, emin. cbn [shr_record_of_loc Zdigits2]. rewrite digits2_log2, Hl.
    replace (Z.max _ _ - (e + k)) with 0 by lia. done. }
  rewrite (H1 _ eq_refl). cbn [shr_m loc_of_shr_record round_nearest_even]. rewrite H2. cbn [shr_m].
  by rewrite (proj2 (Z.leb_le _ _)) by lia.
Qed.

(** Integers whose 53 leading bits are all of them are exact. *)
Lemma of_Z_large m e : 0 ≤ e ≤ 971 → 2 ^ 52 ≤ Zpos m < 2 ^ 53 → f64_of_Z (Zpos m * 2 ^ e) = S754_finite false m e.
Proof.
  intros He Hm. unfold f64_of_Z, binary_normalize. destruct (Zpos m * 2 ^ e) as [|p|] eqn:E; [nia| |nia].
  unfold binary_round. rewrite digits2_log2, <- E, Z.log2_mul_pow2 by lia.
  assert (Z.log2 (Zpos m) = 52) as -> by (apply Z.log2_unique; lia). unfold shl_align, fexp, emin.
  replace (Z.max _ _ - 0) with e by lia. destruct e as [|e|]; [| |lia]; rewrite <- E; by apply round_exact.
Qed.
Lemma iter_xO_pos d m : Zpos (Pos.iter xO m d) = Zpos m * 2 ^ Zpos d.
Proof. rewrite Pos2Nat.inj_iter, <- (positive_nat_Z d). apply iter_xO. Qed.
Lemma of_Z_small t : 0 < t < 2 ^ 53 →
  f64_of_Z t = S754_finite false (Z.to_pos (t * 2 ^ (52 - Z.log2 t))) (Z.log2 t - 52).
Proof.
  intros Ht. assert (0 ≤ Z.log2 t ≤ 52).
  { split; [apply Z.log2_nonneg|]. apply Z.lt_succ_r, Z.log2_lt_pow2; lia. }
  pose proof (Z.log2_spec t ltac:(lia)) as Hs. rewrite Z.pow_succ_r in Hs by lia.
  pose proof (Z.pow_pos_nonneg 2 (52 - Z.log2 t) ltac:(lia) ltac:(lia)).
  assert (2 ^ Z.log2 t * 2 ^ (52 - Z.log2 t) = 2 ^ 52) as Hp.
  { rewrite <- Z.pow_add_r by lia. f_equal. lia. }
  destruct t as [|t|]; [lia| |lia]. unfold f64_of_Z, binary_normalize, binary_round. rewrite digits2_log2.
  unfold shl_align, fexp, emin. replace (Z.max _ _ - 0) with (Z.log2 (Zpos t) - 52) by lia.
  destruct (Z.log2 (Zpos t) - 52) as [|d|d] eqn:Ed; [| |].
  - replace (52 - Z.log2 (Zpos t)) with 0 by lia. rewrite Z.mul_1_r. cbn [Z.to_pos].
    rewrite <- (Z.mul_1_r (Zpos t)). apply (round_exact false t 0 0); [lia| |lia].
    replace (52 - Z.log2 (Zpos t)) with 0 in Hp by lia. lia.
  - lia.
  - replace (52 - Z.log2 (Zpos t)) with (Zpos d) in * by lia.
    replace (Z.max (Z.log2 (Zpos t) + 1 + 0 - 53) (3 - 1024 - 53)) with (Zneg d) by lia.
    rewrite <- iter_xO_pos. cbn [Z.to_pos].
    pose proof (round_exact false (Pos.iter xO t d) (Zneg d) 0) as H1. rewrite Z.mul_1_r, Z.add_0_r in H1.
    apply H1; [lia| |lia]. rewrite iter_xO_pos. nia.
Qed.
Lemma of_Z_opp t : 0 < t → f64_of_Z (- t) = SFopp (f64_of_Z t).
Proof.
  intros Ht. destruct t as [|t|]; [lia| |lia]. change (- Zpos t) with (Zneg t).
  unfold f64_of_Z, binary_normalize, binary_round.
  destruct (shl_align _ _ _) as [m e]. unfold binary_round_aux. destruct (shr_fexp _ _ _ _ _) as [r e1].
  destruct (shr_fexp _ _ _ _ _) as [r2 e2]. destruct (shr_m r2); [done| |done]. by destruct (e2 <=? _).
Qed.

(** ** Truncation *)

Definition truncated (m : positive) (e : Z) : Z := if 0 <=? e then Zpos m * 2 ^ e else Zpos m / 2 ^ (- e).

Lemma pow2_split a b : 0 ≤ a → 0 ≤ b → 2 ^ (a + b) = 2 ^ a * 2 ^ b.
Proof. intros. by apply Z.pow_add_r. Qed.
Lemma compare_mul_pow2 x y k : 0 ≤ k → (x * 2 ^ k ?= y * 2 ^ k) = (x ?= y).
Proof. intros Hk. symmetry. rewrite !(Z.mul_comm _ (2 ^ k)). apply Zmult_compare_compat_l. pose proof (Z.pow_pos_nonneg 2 k). lia. Qed.

Lemma compare_neg x y : (-1 * x ?= -1 * y) = (y ?= x).
Proof. destruct (Z.compare_spec y x); [subst; apply Z.compare_refl|apply Z.compare_lt_iff; lia|apply Z.compare_gt_iff; lia]. Qed.

(** The integral part is below the number by less than one. *)
Lemma truncated_bounds m e : -1074 ≤ e →
  truncated m e * 2 ^ 1074 ≤ Zpos m * 2 ^ (e + 1074) < truncated m e * 2 ^ 1074 + 2 ^ 1074.
Proof.
  intros He. unfold truncated. case_bool.
  - rewrite pow2_split by lia. pose proof (Z.pow_pos_nonneg 2 1074). nia.
  - assert (2 ^ 1074 = 2 ^ (- e) * 2 ^ (e + 1074)) as -> by (rewrite <- pow2_split by lia; f_equal; lia).
    pose proof (Z.pow_pos_nonneg 2 (- e) ltac:(lia) ltac:(lia)). pose proof (Z.pow_pos_nonneg 2 (e + 1074) ltac:(lia) ltac:(lia)).
    pose proof (Z.div_mod (Zpos m) (2 ^ (- e)) ltac:(lia)). pose proof (Z.mod_pos_bound (Zpos m) (2 ^ (- e)) ltac:(lia)). nia.
Qed.

Lemma truncated_nonneg m e : 0 ≤ truncated m e.
Proof.
  unfold truncated. case_bool; [apply Z.mul_nonneg_nonneg; [lia|by apply Z.pow_nonneg]|].
  apply Z.div_pos; [lia|]. apply Z.pow_pos_nonneg; lia.
Qed.
Lemma truncated_small m e : e ≤ 10 → Zpos m < 2 ^ 53 → truncated m e < 2 ^ 63.
Proof.
  intros He Hm. unfold truncated. change (2 ^ 63) with (2 ^ 53 * 2 ^ 10). case_bool.
  - assert (2 ^ e ≤ 2 ^ 10) by (apply Z.pow_le_mono_r; lia). pose proof (Z.pow_pos_nonneg 2 e ltac:(lia) ltac:(lia)).
    apply (Z.le_lt_trans _ (Zpos m * 2 ^ 10)); [apply Z.mul_le_mono_nonneg_l; lia|lia].
  - pose proof (Z.pow_pos_nonneg 2 (- e) ltac:(lia) ltac:(lia)). apply Z.div_lt_upper_bound; [done|].
    apply (Z.lt_le_trans _ (1 * (2 ^ 53 * 2 ^ 10))); [lia|]. apply Z.mul_le_mono_nonneg_r; lia.
Qed.
Lemma scaled_large m e k : 0 ≤ k ≤ e → Zpos m * 2 ^ k * 2 ^ 1074 ≤ Zpos m * 2 ^ (e + 1074).
Proof.
  intros He. rewrite pow2_split, <- Z.mul_assoc by lia. apply Z.mul_le_mono_nonneg_l; [lia|].
  apply Z.mul_le_mono_nonneg_r; [by apply Z.pow_nonneg|]. apply Z.pow_le_mono_r; lia.
Qed.

Lemma of_Z_truncated m e : f64_wf (S754_finite false m e) → 0 < truncated m e →
  ∃ n, f64_of_Z (truncated m e) = S754_finite false n e ∧ Zpos n * 2 ^ (e + 1074) = truncated m e * 2 ^ 1074.
Proof.
  intros (He & Hm & Hn) Ht. unfold truncated in *. case_bool.
  { exists m. rewrite of_Z_large by lia. by rewrite pow2_split, Z.mul_assoc by lia. }
  set (t := Zpos m / 2 ^ (- e)) in *.
  assert (- e ≤ 52).
  { destruct (Z.le_gt_cases (- e) 52); [done|]. unfold t in Ht. rewrite Z.div_small in Ht; [lia|].
    split; [lia|]. apply (Z.lt_le_trans _ (2 ^ 53)); [lia|]. apply Z.pow_le_mono_r; lia. }
  assert (Z.log2 t = 52 + e) as Hl.
  { unfold t. rewrite <- Z.shiftr_div_pow2, Z.log2_shiftr by lia.
    assert (Z.log2 (Zpos m) = 52) as -> by (apply Z.log2_unique; lia). lia. }
  assert (t < 2 ^ 53).
  { apply (Z.le_lt_trans _ (Zpos m)); [|lia]. pose proof (Z.pow_pos_nonneg 2 (- e) ltac:(lia) ltac:(lia)).
    apply Z.div_le_upper_bound; nia. }
  exists (Z.to_pos (t * 2 ^ (- e))). rewrite of_Z_small, Hl by lia.
  replace (52 - (52 + e)) with (- e) by lia. replace (52 + e - 52) with e by lia. split; [done|].
  rewrite Z2Pos.id by (apply Z.mul_pos_pos; [done|apply Z.pow_pos_nonneg; lia]).
  rewrite <- Z.mul_assoc, <- pow2_split by lia. do 2 f_equal. lia.
Qed.

Lemma compare_truncated s m e : f64_wf (S754_finite s m e) →
  SFcompare (f64_of_Z (if s : bool then - truncated m e else truncated m e)) (S754_finite s m e) =
    Some ((if s then -1 else 1) * (truncated m e * 2 ^ 1074) ?= f64_scaled (S754_finite s m e)).
Proof.
  intros Hw. pose proof (truncated_nonneg m e) as H0.
  pose proof (Z.pow_pos_nonneg 2 (e + 1074) ltac:(lia) ltac:(destruct Hw; lia)) as Hp. cbn [f64_scaled].
  destruct (Z.eq_dec (truncated m e) 0) as [E|Hne].
  - rewrite E. assert (f64_of_Z (if s then - 0 else 0) = S754_zero false) as -> by (by destruct s).
    cbn [SFcompare]. f_equal. symmetry. destruct s.
    + apply Z.compare_gt_iff. lia.
    + apply Z.compare_lt_iff. lia.
  - destruct (of_Z_truncated m e Hw ltac:(lia)) as (n & En & Hn). destruct s.
    + rewrite of_Z_opp, En, <- Hn by lia. cbn [SFopp negb SFcompare]. rewrite Z.compare_refl. f_equal.
      change (Pos.compare_cont Eq n m) with (n ?= m)%positive. rewrite (Pos2Z.inj_compare n m), <- (compare_mul_pow2 (Zpos n) (Zpos m) (e + 1074)) by (destruct Hw; lia).
      rewrite compare_neg. symmetry. apply Z.compare_antisym.
    + rewrite En, <- Hn. cbn [SFcompare]. rewrite Z.compare_refl. f_equal.
      change (Pos.compare_cont Eq n m) with (n ?= m)%positive. rewrite (Pos2Z.inj_compare n m), <- (compare_mul_pow2 (Zpos n) (Zpos m) (e + 1074)) by (destruct Hw; lia).
      by rewrite !Z.mul_1_l.
Qed.
