(* ===== verification/Ordering.v ===== *)
(** Total orders given by a comparison function, as Rust's [Ord] has them.

    [OrdLaws cmp] is what a client of [Ord::cmp] relies on; the derived and
    hand-written comparisons of the program are shown to satisfy it by mapping
    their arguments to [tree], ordered once and for all. *)
From S2P Require Import Prelude.

(** [Ordering::then]. *)
Definition cmp_then (a b : comparison) : comparison := match a with Eq => b | _ => a end.

Lemma cmp_then_assoc a b c : cmp_then (cmp_then a b) c = cmp_then a (cmp_then b c).
Proof. by destruct a. Qed.

Class OrdLaws {A} (cmp : A → A → comparison) : Prop := {
  ord_opp x y : cmp y x = CompOpp (cmp x y);
  ord_trans x y z : cmp x y ≠ Gt → cmp y z ≠ Gt → cmp x z ≠ Gt;
}.

Arguments ord_opp {A} cmp {_} x y.
Arguments ord_trans {A} cmp {_} x y z.

Section Laws.
Context {A} (cmp : A → A → comparison) `{!OrdLaws cmp}.

Lemma ord_refl x : cmp x x = Eq.
Proof. pose proof (ord_opp cmp x x). by destruct (cmp x x). Qed.
Lemma ord_gt_lt x y : cmp x y = Gt ↔ cmp y x = Lt.
Proof. rewrite (ord_opp cmp x y). by destruct (cmp x y). Qed.
Lemma ord_eq_sym x y : cmp x y = Eq ↔ cmp y x = Eq.
Proof. rewrite (ord_opp cmp x y). by destruct (cmp x y). Qed.
Lemma ord_not_gt x y : cmp x y ≠ Gt ↔ cmp y x ≠ Lt.
Proof. by rewrite ord_gt_lt. Qed.
Lemma ord_total x y : cmp x y ≠ Gt ∨ cmp y x ≠ Gt.
Proof. rewrite (ord_opp cmp x y). by destruct (cmp x y); [left|left|right]. Qed.
Lemma ord_lt_le_trans x y z : cmp x y = Lt → cmp y z ≠ Gt → cmp x z = Lt.
Proof.
  intros H1 H2. apply ord_gt_lt in H1. destruct (cmp x z) eqn:E; [|done|].
  - destruct (ord_trans cmp y z x H2); [|done]. by rewrite (proj1 (ord_eq_sym x z) E).
  - destruct (ord_trans cmp y z x H2); [|done]. by rewrite (proj1 (ord_gt_lt x z) E).
Qed.
Lemma ord_le_lt_trans x y z : cmp x y ≠ Gt → cmp y z = Lt → cmp x z = Lt.
Proof.
  intros H1 H2. apply ord_gt_lt in H2. destruct (cmp x z) eqn:E; [|done|].
  - assert (cmp z x ≠ Gt) as Hzx by (by rewrite (proj1 (ord_eq_sym x z) E)).
    by destruct (ord_trans cmp z x y Hzx H1).
  - assert (cmp z x ≠ Gt) as Hzx by (by rewrite (proj1 (ord_gt_lt x z) E)).
    by destruct (ord_trans cmp z x y Hzx H1).
Qed.
Lemma ord_eq_l x y z : cmp x y = Eq → cmp x z = cmp y z.
Proof.
  intros E. assert (∀ a b, cmp a b = Eq → cmp a z = Lt → cmp b z = Lt) as Hlt.
  { intros a b Eab Hl. apply (ord_le_lt_trans b a z); [|done]. by rewrite (proj1 (ord_eq_sym a b) Eab). }
  assert (∀ a b, cmp a b = Eq → cmp a z = Gt → cmp b z = Gt) as Hgt.
  { intros a b Eab Hg. apply ord_gt_lt. apply ord_gt_lt in Hg. apply (ord_lt_le_trans z a b); [done|].
    by rewrite Eab. }
  pose proof (proj1 (ord_eq_sym x y) E) as E'.
  destruct (cmp x z) eqn:E1, (cmp y z) eqn:E2; try done.
  all: try (by rewrite (Hlt _ _ E E1) in E2); try (by rewrite (Hgt _ _ E E1) in E2).
  - by rewrite (Hlt _ _ E' E2) in E1.
  - by rewrite (Hgt _ _ E' E2) in E1.
Qed.
Lemma ord_eq_r x y z : cmp x y = Eq → cmp z x = cmp z y.
Proof. intros E. rewrite (ord_opp cmp x z), (ord_opp cmp y z). f_equal. by apply ord_eq_l. Qed.
End Laws.

#[export] Instance Z_ord : OrdLaws Z.compare.
Proof.
  constructor.
  - intros x y. apply Z.compare_antisym.
  - intros x y z H1 H2. rewrite Z.compare_le_iff in *. lia.
Qed.

Lemma ord_pullback {A B} (cmp : B → B → comparison) (f : A → B) (cmp' : A → A → comparison) :
  OrdLaws cmp → (∀ x y, cmp' x y = cmp (f x) (f y)) → OrdLaws cmp'.
Proof.
  intros H E. constructor.
  - intros x y. rewrite !E. apply (ord_opp cmp).
  - intros x y z. rewrite !E. apply (ord_trans cmp).
Qed.

(** [Ord] on slices and vectors: lexicographic, a prefix first. *)
Section ListCmp.
Context {A} (cmp : A → A → comparison).
Fixpoint list_cmp (a b : list A) : comparison :=
  match a, b with
  | [], [] => Eq
  | [], _ :: _ => Lt
  | _ :: _, [] => Gt
  | x :: a, y :: b => cmp_then (cmp x y) (list_cmp a b)
  end.
End ListCmp.

(** ** Trees: every comparison of the program is one on trees *)

Inductive tree := Leaf (z : Z) | Node (l : list tree).

Fixpoint tree_cmp (a b : tree) : comparison :=
  match a, b with
  | Leaf x, Leaf y => x ?= y
  | Leaf _, Node _ => Lt
  | Node _, Leaf _ => Gt
  | Node l, Node k =>
      (fix go (l k : list tree) : comparison :=
         match l, k with
         | [], [] => Eq
         | [], _ :: _ => Lt
         | _ :: _, [] => Gt
         | x :: l, y :: k => cmp_then (tree_cmp x y) (go l k)
         end) l k
  end.

Lemma tree_cmp_node l k : tree_cmp (Node l) (Node k) = list_cmp tree_cmp l k.
Proof. reflexivity. Qed.

Section TreeInd.
Context (P : tree → Prop) (Hleaf : ∀ z, P (Leaf z)) (Hnode : ∀ l, Forall P l → P (Node l)).
Fixpoint tree_ind' (t : tree) : P t :=
  match t with
  | Leaf z => Hleaf z
  | Node l => Hnode l ((fix go (l : list tree) : Forall P l :=
                          match l with [] => List.Forall_nil P | x :: l => @List.Forall_cons _ P x l (tree_ind' x) (go l) end) l)
  end.
End TreeInd.

Lemma tree_cmp_eq a b : tree_cmp a b = Eq → a = b.
Proof.
  revert b; induction a as [z|l IH] using tree_ind'; intros [z'|k]; try done.
  - intros ->%Z.compare_eq. done.
  - rewrite tree_cmp_node. intros E. f_equal. revert k E.
    induction IH as [|x l Hx _ IHl]; intros [|y k]; try done. cbn.
    destruct (tree_cmp x y) eqn:E; try done. cbn. intros E'. by rewrite (Hx _ E), (IHl _ E').
Qed.

Lemma tree_cmp_opp a b : tree_cmp b a = CompOpp (tree_cmp a b).
Proof.
  revert b; induction a as [z|l IH] using tree_ind'; intros [z'|k]; try done.
  - apply Z.compare_antisym.
  - rewrite !tree_cmp_node. revert k. induction IH as [|x l Hx _ IHl]; intros [|y k]; try done. cbn.
    rewrite Hx, IHl. by destruct (tree_cmp x y).
Qed.

Lemma tree_cmp_refl a : tree_cmp a a = Eq.
Proof. pose proof (tree_cmp_opp a a). by destruct (tree_cmp a a). Qed.

Lemma tree_cmp_trans a b c : tree_cmp a b ≠ Gt → tree_cmp b c ≠ Gt → tree_cmp a c ≠ Gt.
Proof.
  revert b c; induction a as [z|l IH] using tree_ind'; intros [z'|k] [z''|m]; try done.
  - cbn. rewrite !Z.compare_le_iff. lia.
  - rewrite !tree_cmp_node. revert k m. induction IH as [|x l Hx _ IHl]; intros [|y k] [|w m]; try done. cbn.
    destruct (tree_cmp x y) eqn:E1, (tree_cmp y w) eqn:E2; cbn; try done; intros H1 H2.
    + apply tree_cmp_eq in E1, E2. subst. rewrite tree_cmp_refl. cbn. by eapply IHl.
    + apply tree_cmp_eq in E1. subst. by rewrite E2.
    + apply tree_cmp_eq in E2. subst. by rewrite E1.
    + pose proof (Hx y w ltac:(by rewrite E1) ltac:(by rewrite E2)) as Hle.
      destruct (tree_cmp x w) eqn:E3; cbn; try done. apply tree_cmp_eq in E3. subst.
      rewrite tree_cmp_opp, E1 in E2. done.
Qed.

#[export] Instance tree_ord : OrdLaws tree_cmp.
Proof. constructor; [apply tree_cmp_opp|apply tree_cmp_trans]. Qed.

(** Encodings of the basic types. *)
Definition bytes_tree (bs : bytes) : tree := Node (Leaf <$> bs).

Lemma list_cmp_tree {A} (cmp : A → A → comparison) (f : A → tree) l k :
  (∀ x y, cmp x y = tree_cmp (f x) (f y)) →
  list_cmp cmp l k = tree_cmp (Node (f <$> l)) (Node (f <$> k)).
Proof.
  intros Hf. rewrite tree_cmp_node. revert k; induction l as [|x l IH]; intros [|y k]; try done.
  cbn. by rewrite Hf, IH.
Qed.

Lemma bytes_cmp_tree a b : list_cmp Z.compare a b = tree_cmp (bytes_tree a) (bytes_tree b).
Proof. by apply list_cmp_tree. Qed.
#[export] Instance bytes_ord : OrdLaws (list_cmp Z.compare).
Proof. apply (ord_pullback tree_cmp bytes_tree); [apply _|apply bytes_cmp_tree]. Qed.
Lemma lex_eq a b : list_cmp Z.compare a b = Eq → a = b.
Proof.
  revert b; induction a as [|x a IH]; intros [|y b]; try done. cbn.
  destruct (x ?= y) eqn:E; try done. cbn. intros H. by rewrite (Z.compare_eq _ _ E), (IH _ H).
Qed.

(** Lists compared up to the length of the second: equal on its extensions. *)
Section PrefixCmp.
Context {A} (cmp : A → A → comparison) `{!OrdLaws cmp}.
Definition list_prefix_cmp (a b : list A) : comparison := list_cmp cmp (take (length b) a) b.

Lemma list_prefix_cmp_lt a b : list_prefix_cmp a b = Lt ↔ list_cmp cmp a b = Lt.
Proof.
  unfold list_prefix_cmp. revert a; induction b as [|y b IH]; intros [|x a]; try done. cbn.
  destruct (cmp x y); cbn; [apply IH|done|done].
Qed.
Lemma list_prefix_cmp_app a b : list_prefix_cmp (b ++ a) b = Eq.
Proof.
  unfold list_prefix_cmp. rewrite take_app_length. induction b as [|y b IH]; [done|]. cbn.
  by rewrite (ord_refl cmp).
Qed.
Lemma list_cmp_take n a b : list_cmp cmp a b ≠ Gt → list_cmp cmp (take n a) (take n b) ≠ Gt.
Proof.
  revert a b; induction n as [|n IH]; intros [|x a] [|y b]; try done. cbn.
  destruct (cmp x y); cbn; [apply IH|done|done].
Qed.
End PrefixCmp.

(** [derive(Ord)] on [Option]: [None] first. *)
Definition option_cmp {A} (cmp : A → A → comparison) (a b : option A) : comparison :=
  match a, b with
  | None, None => Eq
  | None, Some _ => Lt
  | Some _, None => Gt
  | Some x, Some y => cmp x y
  end.
Definition option_tree {A} (f : A → tree) (o : option A) : tree :=
  match o with None => Node [] | Some x => Node [f x] end.
Lemma option_cmp_tree {A} (cmp : A → A → comparison) (f : A → tree) a b :
  (∀ x y, cmp x y = tree_cmp (f x) (f y)) →
  option_cmp cmp a b = tree_cmp (option_tree f a) (option_tree f b).
Proof. intros Hf. destruct a, b; try done. cbn. rewrite Hf. by destruct (tree_cmp _ _). Qed.
