(* ===== verification/RelationalValue.v ===== *)
(** Relational scalars and keys and their total order:
    [RelationalValue] and [RelationalKey] of crates/storage/src/relational.rs,
    [RelationalOverflowRef] of relational/overflow.rs.

    Text is its UTF-8 bytes, a [Uuid] and a digest their bytes, a vector its
    encoded bytes, and a double its 64-bit pattern. *)
From S2P Require Import Prelude Ordering Integrity Decimal DecimalArith DecimalOrder.

Inductive RelationalScalarType :=
  | TBoolean
  | TBigInt
  | TDoublePrecision
  | TDecimal (t : DecimalType)
  | TText
  | TBytea
  | TUuid
  | TVector (dimension : Z)
  | TTimestamp (precision : Z)
  | TTimestampTz (precision : Z).

Record RelationalOverflowRef := {
  ov_digest : Sha256Digest;
  ov_scalar_type : RelationalScalarType;
  ov_compressed_bytes : Z;
  ov_uncompressed_bytes : Z;
}.

Inductive RelationalValue :=
  | RNull
  | RBoolean (b : bool)
  | RBigInt (v : Z)
  | RDoublePrecision (bits : Z)
  | RDecimal (d : Decimal)
  | RText (text : bytes)
  | RBytea (bs : bytes)
  | RVector (encoded : bytes)
  | RUuid (uuid : bytes)
  | RTimestamp (micros : Z)
  | RTimestampTz (micros : Z)
  | ROverflow (reference : RelationalOverflowRef).

Definition RelationalKey : Type := list RelationalValue.

(** [RelationalError]: the variants the modelled code raises.  A message is its
    format string with the texts formatted into it, or the display of an error
    of the core. *)
Inductive Message :=
  | Formatted (format : string) (args : list bytes)
  | Displayed (e : HawDBError).
Inductive RelationalError :=
  | Admission (message : string)
  | Schema (message : Message)
  | Constraint (message : Message)
  | Corruption (message : Message).

(** [kind_rank]. *)
Definition kind_rank (v : RelationalValue) : Z :=
  match v with
  | RNull => 0
  | RBoolean _ => 1
  | RBigInt _ => 2
  | RDecimal _ => 9
  | RDoublePrecision _ => 3
  | RText _ => 4
  | RBytea _ => 5
  | RVector _ => 8
  | RUuid _ => 6
  | ROverflow _ => 7
  | RTimestamp _ => 10
  | RTimestampTz _ => 11
  end.

(** [f64::total_cmp]: the bit pattern as an integer that sorts like the double. *)
Definition total_order_key (bits : Z) : Z :=
  let left_ := as_i64 bits in
  Z.lxor left_ (Z.shiftr (as_u64 (Z.shiftr left_ 63)) 1).

(** [derive(PartialOrd, Ord)]: the declaration order of the variants, then the fields. *)
Definition scalar_type_rank (t : RelationalScalarType) : Z :=
  match t with
  | TBoolean => 0 | TBigInt => 1 | TDoublePrecision => 2 | TDecimal _ => 3 | TText => 4
  | TBytea => 5 | TUuid => 6 | TVector _ => 7 | TTimestamp _ => 8 | TTimestampTz _ => 9
  end.
Definition scalar_type_cmp (a b : RelationalScalarType) : comparison :=
  cmp_then (scalar_type_rank a ?= scalar_type_rank b)
    match a, b with
    | TDecimal x, TDecimal y =>
        cmp_then (dt_precision x ?= dt_precision y) (dt_scale x ?= dt_scale y)
    | TVector x, TVector y | TTimestamp x, TTimestamp y | TTimestampTz x, TTimestampTz y => x ?= y
    | _, _ => Eq
    end.
Definition overflow_ref_cmp (a b : RelationalOverflowRef) : comparison :=
  cmp_then (list_cmp Z.compare (digest_bytes (ov_digest a)) (digest_bytes (ov_digest b)))
    (cmp_then (scalar_type_cmp (ov_scalar_type a) (ov_scalar_type b))
       (cmp_then (ov_compressed_bytes a ?= ov_compressed_bytes b)
          (ov_uncompressed_bytes a ?= ov_uncompressed_bytes b))).

(** [impl Ord for RelationalValue]. *)
Definition value_cmp (a b : RelationalValue) : comparison :=
  cmp_then (kind_rank a ?= kind_rank b)
    match a, b with
    | RNull, RNull => Eq
    | RBoolean x, RBoolean y => Z.b2z x ?= Z.b2z y
    | RBigInt x, RBigInt y => x ?= y
    | RDecimal x, RDecimal y => Decimal_cmp x y
    | RDoublePrecision x, RDoublePrecision y => total_order_key x ?= total_order_key y
    | RText x, RText y => list_cmp Z.compare x y
    | RBytea x, RBytea y => list_cmp Z.compare x y
    | RVector x, RVector y => list_cmp Z.compare x y
    | RUuid x, RUuid y => list_cmp Z.compare x y
    | RTimestamp x, RTimestamp y | RTimestampTz x, RTimestampTz y => x ?= y
    | ROverflow x, ROverflow y => overflow_ref_cmp x y
    | _, _ => Eq
    end.
(** [impl PartialEq for RelationalValue]: numeric for decimals. *)
Definition value_eqb (a b : RelationalValue) : bool :=
  match value_cmp a b with Eq => true | _ => false end.

(** [derive(Ord)] and [derive(PartialEq)] on [RelationalKey(Vec<RelationalValue>)]. *)
Definition key_cmp (a b : RelationalKey) : comparison := list_cmp value_cmp a b.
Fixpoint key_eqb (a b : RelationalKey) : bool :=
  match a, b with
  | [], [] => true
  | x :: a, y :: b => value_eqb x y && key_eqb a b
  | _, _ => false
  end.

Definition estimated_payload_bytes (size_of_overflow_ref : Z) (v : RelationalValue) : Z :=
  match v with
  | RNull => 0
  | RBoolean _ => 1
  | RBigInt _ | RDoublePrecision _ | RTimestamp _ | RTimestampTz _ => 8
  | RDecimal _ => ENCODED_LEN
  | RText t => zlen t
  | RBytea bs => zlen bs
  | RVector e => zlen e
  | RUuid _ => 16
  | ROverflow _ => size_of_overflow_ref
  end.

(** ** The order laws *)

Lemma bytes_cmp_list a b : bytes_cmp a b = list_cmp Z.compare a b.
Proof.
  revert b; induction a as [|x a IH]; intros [|y b]; try done. cbn. rewrite IH.
  by destruct (x ?= y).
Qed.

Definition scalar_type_tree (t : RelationalScalarType) : tree :=
  Node (Leaf (scalar_type_rank t) ::
    match t with
    | TDecimal x => [Leaf (dt_precision x); Leaf (dt_scale x)]
    | TVector x | TTimestamp x | TTimestampTz x => [Leaf x]
    | _ => []
    end).
Definition overflow_ref_tree (r : RelationalOverflowRef) : tree :=
  Node [bytes_tree (digest_bytes (ov_digest r)); scalar_type_tree (ov_scalar_type r);
        Leaf (ov_compressed_bytes r); Leaf (ov_uncompressed_bytes r)].
Definition value_tree (v : RelationalValue) : tree :=
  Node [Leaf (kind_rank v);
        match v with
        | RNull => Node []
        | RBoolean b => Leaf (Z.b2z b)
        | RBigInt x | RTimestamp x | RTimestampTz x => Leaf x
        | RDoublePrecision bits => Leaf (total_order_key bits)
        | RDecimal d => bytes_tree (to_ordered_bytes d)
        | RText x | RBytea x | RVector x | RUuid x => bytes_tree x
        | ROverflow r => overflow_ref_tree r
        end].
Definition key_tree (k : RelationalKey) : tree := Node (value_tree <$> k).

Lemma cmp_then_eq_r c : cmp_then c Eq = c.
Proof. by destruct c. Qed.

Lemma scalar_type_cmp_tree a b : scalar_type_cmp a b = tree_cmp (scalar_type_tree a) (scalar_type_tree b).
Proof.
  unfold scalar_type_cmp, scalar_type_tree. rewrite tree_cmp_node. cbn [list_cmp].
  destruct a, b; cbn; rewrite ?cmp_then_eq_r; done.
Qed.

Lemma overflow_ref_cmp_tree a b :
  overflow_ref_cmp a b = tree_cmp (overflow_ref_tree a) (overflow_ref_tree b).
Proof.
  unfold overflow_ref_cmp, overflow_ref_tree. rewrite tree_cmp_node. cbn [list_cmp].
  rewrite <- bytes_cmp_tree, <- scalar_type_cmp_tree. cbn. by rewrite cmp_then_eq_r.
Qed.

Lemma value_cmp_tree a b : value_cmp a b = tree_cmp (value_tree a) (value_tree b).
Proof.
  unfold value_cmp, value_tree. rewrite tree_cmp_node. cbn [list_cmp]. rewrite cmp_then_eq_r.
  change (tree_cmp (Leaf ?x) (Leaf ?y)) with (x ?= y). unfold Decimal_cmp.
  destruct a, b; try done; cbn [kind_rank]; f_equal;
    rewrite ?bytes_cmp_list, ?bytes_cmp_tree, ?overflow_ref_cmp_tree; done.
Qed.

#[export] Instance value_ord : OrdLaws value_cmp.
Proof. apply (ord_pullback tree_cmp value_tree); [apply _|apply value_cmp_tree]. Qed.

Lemma key_cmp_tree a b : key_cmp a b = tree_cmp (key_tree a) (key_tree b).
Proof. apply list_cmp_tree, value_cmp_tree. Qed.

#[export] Instance key_ord : OrdLaws key_cmp.
Proof. apply (ord_pullback tree_cmp key_tree); [apply _|apply key_cmp_tree]. Qed.

Lemma key_eqb_cmp a b : key_eqb a b = true ↔ key_cmp a b = Eq.
Proof.
  revert b; induction a as [|x a IH]; intros [|y b]; try done. cbn.
  rewrite andb_true_iff, IH. unfold value_eqb. destruct (value_cmp x y); cbn; naive_solver.
Qed.

(** The integer a double sorts by: non-negative patterns by themselves, negative
    ones below them and in reverse. *)
Lemma total_order_key_spec bits :
  is_u64 bits → total_order_key bits = if bits <? 2 ^ 63 then bits else 2 ^ 63 - 1 - bits.
Proof.
  intros Hb. unfold is_u64 in Hb. unfold total_order_key, as_i64. rewrite (Z.mod_small bits) by lia.
  destruct (Z.ltb_spec bits (2 ^ 63)).
  - assert (Z.shiftr bits 63 = 0) as -> by (rewrite shiftr_div by lia; apply Z.div_small; lia).
    apply Z.lxor_0_r.
  - assert (Z.shiftr (bits - 2 ^ 64) 63 = -1) as ->
      by (rewrite shiftr_div by lia; symmetry; apply (Z.div_unique _ _ _ (bits - 2 ^ 63)); lia).
    change (Z.shiftr (as_u64 (-1)) 1) with (Z.ones 63).
    assert (Z.lxor (bits - 2 ^ 64) (Z.ones 63) = Z.lnot (Z.lnot (Z.lxor (bits - 2 ^ 64) (Z.ones 63)))) as ->
      by (by rewrite Z.lnot_involutive).
    rewrite Z.lnot_lxor_l.
    assert (Z.lnot (bits - 2 ^ 64) = 2 ^ 64 - 1 - bits) as -> by (unfold Z.lnot; lia).
    assert (∀ a, 0 ≤ a < 2 ^ 63 → Z.lxor a (Z.ones 63) = Z.ones 63 - a) as Hx.
    { intros a Ha. assert (Z.log2 a < 63).
      { destruct (decide (a = 0)) as [-> | ]; [done|]. apply Z.log2_lt_pow2; lia. }
      rewrite <- Z.ldiff_ones_l_low by lia. symmetry. apply Z.sub_nocarry_ldiff.
      apply Z.ldiff_ones_r_low; lia. }
    rewrite Hx by lia. change (Z.ones 63) with (2 ^ 63 - 1). unfold Z.lnot. lia.
Qed.

(** Keys have a total order that is numeric on decimals.  Comparison of
    relational keys is antisymmetric and transitive over every mix of kinds,
    equality is comparison equal, decimal components compare by value whatever
    their scale, and doubles compare by an injective key of their bits that puts
    negative patterns first. *)
Theorem relational_key_order :
  (∀ a b, key_cmp b a = CompOpp (key_cmp a b)) ∧
  (∀ a b c, key_cmp a b ≠ Gt → key_cmp b c ≠ Gt → key_cmp a c ≠ Gt) ∧
  (∀ a b, key_eqb a b = true ↔ key_cmp a b = Eq) ∧
  (∀ x y, wf x → wf y → key_cmp [RDecimal x] [RDecimal y] = (value x ?= value y)) ∧
  (∀ x y, is_u64 x → is_u64 y → key_cmp [RDoublePrecision x] [RDoublePrecision y] = Eq → x = y).
Proof.
  split_and!.
  - apply (ord_opp key_cmp).
  - apply (ord_trans key_cmp).
  - apply key_eqb_cmp.
  - intros x y Hx Hy. cbn. rewrite Decimal_cmp_value by done. by destruct (value x ?= value y).
  - intros x y Hx Hy. cbn. rewrite cmp_then_eq_r, !total_order_key_spec by done.
    intros E%Z.compare_eq. unfold is_u64 in *. repeat case_bool; lia.
Qed.
