(* ===== verification/OrderedKey.v ===== *)
(** The ordered encoding of relational keys, which index pages sort by:
    crates/storage/src/relational/ordered_key.rs and ordered_key/encode.rs, with
    [decode_timestamp_value] of relational.rs and the range check of
    crates/core/src/sql_timestamp.rs.

    The encoder is the one that writes to a [Vec<u8>]; the decoder is
    [OrderedKeyDecoder] without an allocation context.  A position in the
    encoded key is its offset, as in the decoder. *)
From S2P Require Import Prelude Ordering Wire Decimal DecimalArith DecimalOrder RelationalValue.

(** The bounds of [NaiveDateTime] in microseconds, which chrono chooses. *)
Class TimestampRange := { min_micros : Z; max_micros : Z }.

Inductive OrderedRelationalKeyError :=
  | UnsupportedOverflow
  | UnsupportedVector
  | KeyCorrupt (message : string) (args : list Z).
Abbreviation KeyResult A := (result A OrderedRelationalKeyError).

(** [to_be_bytes] and [from_be_bytes]. *)
Definition be_bytes (n : nat) (z : Z) : bytes := reverse (le_bytes n z).
Definition be_val (bs : bytes) : Z := le_val (reverse bs).

(** [slice::chunks]. *)
Fixpoint chunks_loop (fuel : nat) (n : Z) (bs : bytes) : list bytes :=
  match fuel, bs with
  | S fuel, _ :: _ => take (Z.to_nat n) bs :: chunks_loop fuel n (drop (Z.to_nat n) bs)
  | _, _ => []
  end.
Definition chunks (n : Z) (bs : bytes) : list bytes := chunks_loop (length bs) n bs.

(** ** Encoding *)

(** [(value as u64) ^ (1 << 63)]. *)
Definition flip_sign (v : Z) : Z := Z.lxor (as_u64 v) (2 ^ 63).
Definition ordered_bits (bits : Z) : Z :=
  if Z.shiftr bits 63 =? 0 then Z.lxor bits (2 ^ 63) else u64_max - bits.

(** The loop over the bytes of a chunk: runs without a zero byte are copied
    whole, a zero byte is written as [0, 255]. *)
Fixpoint escape_loop (chunk rest : bytes) (start index : Z) : bytes :=
  match rest with
  | [] => zslice chunk start (zlen chunk)
  | byte :: rest =>
      if byte =? 0
      then zslice chunk start index ++ [0; 255] ++ escape_loop chunk rest (index + 1) (index + 1)
      else escape_loop chunk rest start (index + 1)
  end.
Definition escaped (tag : Z) (bs : bytes) : bytes :=
  [tag] ++ List.flat_map (λ chunk, escape_loop chunk chunk 0 0) (chunks (64 * 1024) bs) ++ [0; 0].

Definition encode_ordered_relational_value (v : RelationalValue) : KeyResult bytes :=
  match v with
  | RText text => Ok (escaped 4 text)
  | RBytea bs => Ok (escaped 5 bs)
  | RNull => Ok [0]
  | RBoolean b => Ok [1; Z.b2z b]
  | RBigInt v => Ok (2 :: be_bytes 8 (flip_sign v))
  | RDoublePrecision bits => Ok (3 :: be_bytes 8 (ordered_bits bits))
  | RDecimal d => Ok (9 :: to_ordered_bytes d)
  | RUuid uuid => Ok (6 :: uuid)
  | RTimestamp v => Ok (10 :: be_bytes 8 (flip_sign v))
  | RTimestampTz v => Ok (11 :: be_bytes 8 (flip_sign v))
  | RVector _ => Err UnsupportedVector
  | ROverflow _ => Err UnsupportedOverflow
  end.

Fixpoint encode_ordered_values (k : RelationalKey) : KeyResult bytes :=
  match k with
  | [] => Ok []
  | v :: k =>
      let? e := encode_ordered_relational_value v in
      let? es := encode_ordered_values k in Ok (e ++ es)
  end.
Definition encode_ordered_relational_key (k : RelationalKey) : KeyResult bytes :=
  match k with
  | [] => Err (KeyCorrupt "key contains no values" [])
  | _ => encode_ordered_values k
  end.

(** ** Decoding *)

Section Decoder.
Context `{TR : TimestampRange}.

(** [sql_timestamp::checked]. *)
Definition timestamp_in_range (micros : Z) : bool := (min_micros <=? micros) && (micros <=? max_micros).

Definition decode_timestamp_value (tag micros : Z) : KeyResult RelationalValue :=
  if negb (timestamp_in_range micros) then Err (KeyCorrupt "TIMESTAMP value is out of range" [])
  else if tag =? 10 then Ok (RTimestamp micros)
  else if tag =? 11 then Ok (RTimestampTz micros)
  else Err (KeyCorrupt "invalid TIMESTAMP value tag {tag}" [tag]).

Definition key_byte (enc : bytes) (offset : Z) (context : string) : KeyResult (Z * Z) :=
  let? b := ok_or (zget enc offset) (KeyCorrupt ("truncated " +:+ context) []) in Ok (b, offset + 1).

Definition key_fixed (n : Z) (enc : bytes) (offset : Z) (context : string) : KeyResult (bytes * Z) :=
  let? end_ := ok_or (Prelude.checked_add usize_max offset n) (KeyCorrupt (context +:+ " length overflow") []) in
  if zlen enc <? end_ then Err (KeyCorrupt ("truncated " +:+ context) [])
  else Ok (zslice enc offset end_, end_).

Definition key_skip_fixed (n : Z) (enc : bytes) (offset : Z) (context : string) : KeyResult Z :=
  let? end_ := ok_or (Prelude.checked_add usize_max offset n) (KeyCorrupt (context +:+ " length overflow") []) in
  if zlen enc <? end_ then Err (KeyCorrupt ("truncated " +:+ context) []) else Ok end_.

(** [walk_escaped], with the emitted bytes as its result.  Every round reads a
    byte, so the length of the key is fuel enough. *)
Fixpoint walk_escaped (fuel : nat) (enc : bytes) (offset : Z) : KeyResult (bytes * Z) :=
  match fuel with
  | O => Err (KeyCorrupt "truncated escaped key value" [])
  | S fuel =>
      let? (byte, offset) := key_byte enc offset "escaped key value" in
      if negb (byte =? 0) then
        let? (bs, offset) := walk_escaped fuel enc offset in Ok (byte :: bs, offset)
      else
        let? (tag, offset) := key_byte enc offset "escaped key terminator" in
        if tag =? 0 then Ok ([], offset)
        else if tag =? 255 then
          let? (bs, offset) := walk_escaped fuel enc offset in Ok (0 :: bs, offset)
        else Err (KeyCorrupt "invalid escaped key tag {tag}" [tag])
  end.
Definition escaped_bytes (enc : bytes) (offset : Z) : KeyResult (bytes * Z) :=
  walk_escaped (S (length enc)) enc offset.

Definition key_decimal (enc : bytes) (offset : Z) : KeyResult (Decimal * Z) :=
  let? (bs, offset) := key_fixed ORDERED_LEN enc offset "Decimal value" in
  let? d := map_err (λ _, KeyCorrupt "{error}" []) (from_ordered_bytes bs) in Ok (d, offset).

Definition key_timestamp (tag : Z) (enc : bytes) (offset : Z) : KeyResult (RelationalValue * Z) :=
  let? (bs, offset) := key_fixed 8 enc offset "TIMESTAMP value" in
  let? v := decode_timestamp_value tag (as_i64 (Z.lxor (be_val bs) (2 ^ 63))) in Ok (v, offset).

Definition decode_bits (ordered : Z) : Z :=
  if Z.shiftr ordered 63 =? 1 then Z.lxor ordered (2 ^ 63) else u64_max - ordered.

Definition key_boolean (enc : bytes) (offset : Z) : KeyResult (bool * Z) :=
  let? (b, offset) := key_byte enc offset "boolean value" in
  if b =? 0 then Ok (false, offset)
  else if b =? 1 then Ok (true, offset)
  else Err (KeyCorrupt "invalid boolean tag {tag}" [b]).

Definition key_text (enc : bytes) (offset : Z) : KeyResult (RelationalValue * Z) :=
  let? (bs, offset) := escaped_bytes enc offset in
  if utf8_valid bs then Ok (RText bs, offset)
  else Err (KeyCorrupt "TEXT key is not valid UTF-8: {error}" []).

(** [value]. *)
Definition key_value (enc : bytes) (offset : Z) : KeyResult (RelationalValue * Z) :=
  let? (tag, offset) := key_byte enc offset "value tag" in
  if tag =? 0 then Ok (RNull, offset)
  else if tag =? 1 then let? (b, offset) := key_boolean enc offset in Ok (RBoolean b, offset)
  else if tag =? 2 then
    let? (bs, offset) := key_fixed 8 enc offset "BIGINT value" in
    Ok (RBigInt (as_i64 (Z.lxor (be_val bs) (2 ^ 63))), offset)
  else if tag =? 3 then
    let? (bs, offset) := key_fixed 8 enc offset "DOUBLE PRECISION value" in
    Ok (RDoublePrecision (decode_bits (be_val bs)), offset)
  else if tag =? 4 then key_text enc offset
  else if tag =? 5 then let? (bs, offset) := escaped_bytes enc offset in Ok (RBytea bs, offset)
  else if tag =? 9 then let? (d, offset) := key_decimal enc offset in Ok (RDecimal d, offset)
  else if tag =? 6 then
    let? (bs, offset) := key_fixed 16 enc offset "UUID value" in Ok (RUuid bs, offset)
  else if (tag =? 10) || (tag =? 11) then key_timestamp tag enc offset
  else Err (KeyCorrupt "invalid value tag {tag} (corrupt, or written by a newer HawDB)" [tag]).

(** [value_into]: the target, and the offset after the value.  A text or byte
    value is taken out of the target before it is read, so an error in it
    leaves [Null]; any other error leaves the target as it was. *)
Definition key_value_into (enc : bytes) (offset : Z) (target : RelationalValue)
    : RelationalValue * KeyResult Z :=
  match key_value enc offset with
  | Ok (v, offset) => (v, Ok offset)
  | Err e =>
      (match zget enc offset with
       | Some tag => if (tag =? 4) || (tag =? 5) then RNull else target
       | None => target
       end, Err e)
  end.

(** [skip_value]: whether the value is null, and the offset after it. *)
Definition key_skip_value (enc : bytes) (offset : Z) : KeyResult (bool * Z) :=
  let? (tag, offset) := key_byte enc offset "value tag" in
  if tag =? 0 then Ok (true, offset)
  else if tag =? 1 then let? (_, offset) := key_boolean enc offset in Ok (false, offset)
  else if tag =? 2 then let? offset := key_skip_fixed 8 enc offset "BIGINT value" in Ok (false, offset)
  else if tag =? 3 then
    let? offset := key_skip_fixed 8 enc offset "DOUBLE PRECISION value" in Ok (false, offset)
  else if (tag =? 4) || (tag =? 5) then
    let? (_, offset) := escaped_bytes enc offset in Ok (false, offset)
  else if tag =? 6 then let? offset := key_skip_fixed 16 enc offset "UUID value" in Ok (false, offset)
  else if tag =? 9 then let? (_, offset) := key_decimal enc offset in Ok (false, offset)
  else if (tag =? 10) || (tag =? 11) then let? (_, offset) := key_timestamp tag enc offset in Ok (false, offset)
  else Err (KeyCorrupt "invalid value tag {tag} (corrupt, or written by a newer HawDB)" [tag]).

(** The loops over the values of a key stop at the end of the encoding.  A value
    is at least one byte, so the length of the key bounds their rounds. *)
Definition key_out_of_fuel : OrderedRelationalKeyError := KeyCorrupt "unreachable" [].

Fixpoint validate_loop (fuel : nat) (enc : bytes) (offset values : Z) : KeyResult Z :=
  match fuel with
  | O => Err key_out_of_fuel
  | S fuel =>
      if offset =? zlen enc then Ok values
      else
        let? (_, offset) := key_skip_value enc offset in
        let? values := ok_or (Prelude.checked_add usize_max values 1) (KeyCorrupt "value count overflow" []) in
        validate_loop fuel enc offset values
  end.
Definition validate_ordered_relational_key (enc : bytes) : KeyResult () :=
  let? values := validate_loop (S (length enc)) enc 0 0 in
  if values =? 0 then Err (KeyCorrupt "key contains no values" []) else Ok ().

(** [ordered_relational_key_prefix_ends]: the offset after every value, and how
    many values come before the first null. *)
Fixpoint prefix_ends_loop (fuel : nat) (enc : bytes) (offset : Z) (saw_null : bool) (leading : Z)
    (prefix_ends : list Z) : KeyResult (Z * list Z) :=
  match fuel with
  | O => Err key_out_of_fuel
  | S fuel =>
      if offset =? zlen enc then Ok (leading, prefix_ends)
      else
        let? (is_null, offset) := key_skip_value enc offset in
        let saw_null := saw_null || is_null in
        let? leading := if saw_null then Ok leading
                        else ok_or (Prelude.checked_add usize_max leading 1) (KeyCorrupt "value count overflow" []) in
        prefix_ends_loop fuel enc offset saw_null leading (prefix_ends ++ [offset])
  end.
Definition ordered_relational_key_prefix_ends (enc : bytes) : KeyResult (Z * list Z) :=
  let? (leading, prefix_ends) := prefix_ends_loop (S (length enc)) enc 0 false 0 [] in
  match prefix_ends with
  | [] => Err (KeyCorrupt "key contains no values" [])
  | _ => Ok (leading, prefix_ends)
  end.

(** [decode_ordered_relational_key_into]: the caller's key, whose values are
    reused, and whether decoding succeeded. *)
Fixpoint decode_into_loop (fuel : nat) (enc : bytes) (offset : Z) (key : RelationalKey) (value_count : Z)
    : RelationalKey * KeyResult Z :=
  match fuel with
  | O => (key, Err key_out_of_fuel)
  | S fuel =>
      if offset =? zlen enc then (key, Ok value_count)
      else
        let next key offset :=
          match Prelude.checked_add usize_max value_count 1 with
          | Some value_count => decode_into_loop fuel enc offset key value_count
          | None => (key, Err (KeyCorrupt "value count overflow" []))
          end in
        match zget key value_count with
        | Some target =>
            match key_value_into enc offset target with
            | (v, Ok offset) => next (<[Z.to_nat value_count := v]> key) offset
            | (v, Err e) => (<[Z.to_nat value_count := v]> key, Err e)
            end
        | None =>
            match key_value enc offset with
            | Ok (v, offset) => next (key ++ [v]) offset
            | Err e => (key, Err e)
            end
        end
  end.
Definition decode_ordered_relational_key_into (enc : bytes) (key : RelationalKey) : RelationalKey * KeyResult () :=
  match decode_into_loop (S (length enc)) enc 0 key 0 with
  | (key, Err e) => (key, Err e)
  | (key, Ok value_count) =>
      if value_count =? 0 then (key, Err (KeyCorrupt "key contains no values" []))
      else (take (Z.to_nat value_count) key, Ok ())
  end.
Definition decode_ordered_relational_key (enc : bytes) : KeyResult RelationalKey :=
  match decode_ordered_relational_key_into enc [] with
  | (key, Ok _) => Ok key
  | (_, Err e) => Err e
  end.
End Decoder.

(** ** Big-endian integers *)

Lemma length_be_bytes n z : length (be_bytes n z) = n.
Proof. unfold be_bytes. by rewrite length_reverse, length_le_bytes. Qed.
Lemma zlen_be_bytes n z : zlen (be_bytes n z) = Z.of_nat n.
Proof. unfold zlen. by rewrite length_be_bytes. Qed.
Lemma be_val_bytes n z : 0 ≤ z < 256 ^ Z.of_nat n → be_val (be_bytes n z) = z.
Proof. intros. unfold be_val, be_bytes. rewrite reverse_involutive. by apply le_val_bytes_small. Qed.
Lemma be_bytes_val bs : Forall is_byte bs → be_bytes (length bs) (be_val bs) = bs.
Proof.
  intros HF. unfold be_bytes, be_val. rewrite <- (length_reverse bs).
  rewrite le_bytes_val by (by apply Forall_reverse). apply reverse_involutive.
Qed.
Lemma be_val_bound bs : Forall is_byte bs → 0 ≤ be_val bs < 256 ^ zlen bs.
Proof.
  intros HF. unfold be_val. pose proof (le_val_bound (reverse bs)) as H. rewrite Forall_reverse in H.
  unfold zlen in *. rewrite length_reverse in H. by apply H.
Qed.
Lemma is_byte_be_bytes n z : Forall is_byte (be_bytes n z).
Proof. apply Forall_reverse, is_byte_le_bytes. Qed.

Abbreviation lex := (list_cmp Z.compare).

Lemma list_cmp_app {A} (cmp : A → A → comparison) a b r s :
  length a = length b → list_cmp cmp (a ++ r) (b ++ s) = cmp_then (list_cmp cmp a b) (list_cmp cmp r s).
Proof.
  revert b; induction a as [|x a IH]; intros [|y b] Hl; try done. cbn in *.
  rewrite IH by lia. by rewrite cmp_then_assoc.
Qed.

Lemma be_bytes_cmp n a b : 0 ≤ a < 256 ^ Z.of_nat n → 0 ≤ b < 256 ^ Z.of_nat n →
  lex (be_bytes n a) (be_bytes n b) = (a ?= b).
Proof.
  revert a b; induction n as [|n IH]; intros a b Ha Hb.
  { change (256 ^ Z.of_nat 0) with 1 in *. assert (a = b) as -> by lia. by rewrite Z.compare_refl. }
  unfold be_bytes. cbn [le_bytes]. rewrite !reverse_cons.
  rewrite Nat2Z.inj_succ, Z.pow_succ_r in Ha, Hb by lia.
  rewrite list_cmp_app by (by rewrite !length_reverse, !length_le_bytes).
  fold (be_bytes n (a / 256)) (be_bytes n (b / 256)). rewrite IH by (split; [apply Z.div_pos|apply Z.div_lt_upper_bound]; lia).
  cbn. rewrite cmp_then_eq_r.
  pose proof (Z.div_mod a 256 ltac:(lia)). pose proof (Z.div_mod b 256 ltac:(lia)).
  pose proof (Z.mod_pos_bound a 256 ltac:(lia)). pose proof (Z.mod_pos_bound b 256 ltac:(lia)).
  destruct (Z.compare_spec (a / 256) (b / 256)) as [E|E|E]; cbn.
  - rewrite E in *. destruct (Z.compare_spec (a mod 256) (b mod 256)); symmetry;
      [apply Z.compare_eq_iff|apply Z.compare_lt_iff|apply Z.compare_gt_iff]; lia.
  - symmetry. apply Z.compare_lt_iff. lia.
  - symmetry. apply Z.compare_gt_iff. lia.
Qed.

(** ** Integers and doubles *)

Lemma lxor_top w : 0 ≤ w < 2 ^ 64 → Z.lxor w (2 ^ 63) = (w + 2 ^ 63) mod 2 ^ 64.
Proof.
  intros Hw. destruct (decide (w < 2 ^ 63)).
  - rewrite Z.mod_small by lia. symmetry. rewrite Z.add_nocarry_lxor; [done|].
    apply Z.bits_inj'. intros i Hi. rewrite Z.land_spec, Z.bits_0.
    destruct (decide (i = 63)) as [-> | Hne]; [|by rewrite (Z.pow2_bits_false 63 i), andb_false_r by lia].
    rewrite (Z.bits_above_log2 w 63); [done|lia|]. destruct (decide (w = 0)) as [-> | ]; [done|].
    apply Z.log2_lt_pow2; lia.
  - assert (Z.lxor w (2 ^ 63) = w - 2 ^ 63) as ->.
    { assert (Z.lxor (w - 2 ^ 63) (2 ^ 63) = w) as E.
      { rewrite <- Z.add_nocarry_lxor; [lia|]. apply Z.bits_inj'. intros i Hi. rewrite Z.land_spec, Z.bits_0.
        destruct (decide (i = 63)) as [-> | Hne]; [|by rewrite (Z.pow2_bits_false 63 i), andb_false_r by lia].
        rewrite (Z.bits_above_log2 (w - 2 ^ 63) 63); [done|lia|].
        destruct (decide (w - 2 ^ 63 = 0)) as [-> | ]; [done|]. apply Z.log2_lt_pow2; lia. }
      rewrite <- E at 1. by rewrite Z.lxor_assoc, Z.lxor_nilpotent, Z.lxor_0_r. }
    rewrite <- (Z.mod_small (w - 2 ^ 63) (2 ^ 64)) at 1 by lia.
    rewrite <- (Z.mod_add (w - 2 ^ 63) 1 (2 ^ 64)) by lia. f_equal. lia.
Qed.

Lemma flip_sign_arith v : is_i64 v → flip_sign v = v + 2 ^ 63.
Proof.
  intros Hv. unfold is_i64 in Hv. unfold flip_sign, as_u64.
  rewrite lxor_top by (apply Z.mod_pos_bound; lia). rewrite Z.add_mod_idemp_l by lia. apply Z.mod_small. lia.
Qed.
Lemma unflip_arith w : 0 ≤ w < 2 ^ 64 → as_i64 (Z.lxor w (2 ^ 63)) = w - 2 ^ 63.
Proof.
  intros Hw. rewrite lxor_top by done. unfold as_i64. rewrite Z.mod_mod by lia.
  destruct (decide (w < 2 ^ 63)).
  - rewrite Z.mod_small by lia. rewrite (proj2 (Z.ltb_ge _ _)) by lia. lia.
  - assert ((w + 2 ^ 63) mod 2 ^ 64 = w - 2 ^ 63) as ->.
    { symmetry. apply (Z.mod_unique _ _ 1); lia. }
    by rewrite (proj2 (Z.ltb_lt _ _)) by lia.
Qed.
Lemma ordered_bits_arith b : is_u64 b → ordered_bits b = total_order_key b + 2 ^ 63.
Proof.
  intros Hb. rewrite total_order_key_spec by done. unfold is_u64 in Hb. unfold ordered_bits.
  rewrite shiftr_div by lia. destruct (Z.ltb_spec b (2 ^ 63)).
  - rewrite Z.div_small by lia. change (0 =? 0) with true. cbv iota.
    rewrite lxor_top by lia. apply Z.mod_small. lia.
  - assert (b / 2 ^ 63 = 1) as -> by (symmetry; apply (Z.div_unique _ _ _ (b - 2 ^ 63)); lia).
    change (1 =? 0) with false. cbv iota. unfold u64_max. lia.
Qed.
Lemma ordered_bits_range b : is_u64 b → 0 ≤ ordered_bits b < 2 ^ 64.
Proof.
  intros Hb. rewrite ordered_bits_arith, total_order_key_spec by done. unfold is_u64 in Hb. case_bool; lia.
Qed.
Lemma decode_bits_ordered b : is_u64 b → decode_bits (ordered_bits b) = b.
Proof.
  intros Hb. rewrite ordered_bits_arith, total_order_key_spec by done. unfold is_u64 in Hb.
  unfold decode_bits. rewrite shiftr_div by lia. destruct (Z.ltb_spec b (2 ^ 63)).
  - assert ((b + 2 ^ 63) / 2 ^ 63 = 1) as -> by (symmetry; apply (Z.div_unique _ _ _ b); lia).
    change (1 =? 1) with true. cbv iota. rewrite lxor_top by lia. symmetry. apply (Z.mod_unique _ _ 1); lia.
  - rewrite Z.div_small by lia. change (0 =? 1) with false. cbv iota. unfold u64_max. lia.
Qed.
Lemma ordered_bits_decode w : 0 ≤ w < 2 ^ 64 → is_u64 (decode_bits w) ∧ ordered_bits (decode_bits w) = w.
Proof.
  intros Hw. unfold decode_bits. rewrite shiftr_div by lia. destruct (decide (w < 2 ^ 63)).
  - rewrite Z.div_small by lia. change (0 =? 1) with false. cbv iota. unfold u64_max, is_u64. split; [lia|].
    rewrite ordered_bits_arith, total_order_key_spec by (unfold is_u64; lia).
    rewrite (proj2 (Z.ltb_ge _ _)) by lia. lia.
  - assert (w / 2 ^ 63 = 1) as -> by (symmetry; apply (Z.div_unique _ _ _ (w - 2 ^ 63)); lia).
    change (1 =? 1) with true. cbv iota.
    assert (Z.lxor w (2 ^ 63) = w - 2 ^ 63) as -> by (rewrite lxor_top by lia; symmetry; apply (Z.mod_unique _ _ 1); lia).
    unfold is_u64. split; [lia|]. rewrite ordered_bits_arith, total_order_key_spec by (unfold is_u64; lia).
    rewrite (proj2 (Z.ltb_lt _ _)) by lia. lia.
Qed.

(** ** Escaped bytes *)

Definition escape_byte (b : Z) : bytes := if b =? 0 then [0; 255] else [b].
Definition escape (bs : bytes) : bytes := List.flat_map escape_byte bs.
Lemma escape_cons b bs : escape (b :: bs) = escape_byte b ++ escape bs.
Proof. done. Qed.

Lemma zslice_snoc (l : bytes) b r start :
  0 ≤ start ≤ zlen l → zslice (l ++ b :: r) start (zlen l + 1) = zslice (l ++ b :: r) start (zlen l) ++ [b].
Proof.
  intros Hs. pose proof (zslice_app_l (l ++ [b]) r start (zlen l + 1)) as H1.
  rewrite <- app_assoc in H1. cbn [app] in H1. rewrite H1 by (rewrite ?zlen_app, ?zlen_cons, ?zlen_nil; lia).
  rewrite (zslice_app_l l (b :: r)) by lia. unfold zslice. rewrite drop_app_le by (unfold zlen in *; lia).
  rewrite (take_ge (drop _ l ++ [b])), (take_ge (drop _ l));
    [done|rewrite ?length_app, !length_drop; cbn; unfold zlen in *; lia..].
Qed.
Lemma zslice_empty (l : bytes) i : zslice l i i = [].
Proof. unfold zslice. by rewrite Z.sub_diag. Qed.

Lemma escape_loop_spec rest : ∀ seen start, 0 ≤ start ≤ zlen seen →
  escape_loop (seen ++ rest) rest start (zlen seen) = zslice (seen ++ rest) start (zlen seen) ++ escape rest.
Proof.
  induction rest as [|b rest IH]; intros seen start Hs; cbn [escape_loop].
  - by rewrite !app_nil_r.
  - assert (seen ++ b :: rest = (seen ++ [b]) ++ rest) as E by (by rewrite <- app_assoc).
    assert (zlen seen + 1 = zlen (seen ++ [b])) as El by (by rewrite zlen_app).
    rewrite escape_cons. unfold escape_byte.
    destruct (Z.eqb_spec b 0) as [-> | Hb].
    + rewrite E, El, IH by (pose proof (zlen_nonneg seen); lia). by rewrite zslice_empty.
    + rewrite E, El, IH, <- El, <- E, zslice_snoc by lia.
      by rewrite <- app_assoc.
Qed.
Lemma escape_chunk chunk : escape_loop chunk chunk 0 0 = escape chunk.
Proof. apply (escape_loop_spec chunk [] 0). by cbn. Qed.

Lemma chunks_concat n bs : 0 < n → List.concat (chunks n bs) = bs.
Proof.
  intros Hn. unfold chunks. assert (∀ fuel bs, (length bs ≤ fuel)%nat → List.concat (chunks_loop fuel n bs) = bs) as H.
  { intros fuel. induction fuel as [|fuel IH]; intros [|b l] Hl; try done; [cbn in Hl; lia|].
    cbn [chunks_loop List.concat]. rewrite IH; [apply take_drop|]. rewrite length_drop. cbn in *. lia. }
  by apply H.
Qed.

Lemma escaped_spec tag bs : escaped tag bs = tag :: escape bs ++ [0; 0].
Proof.
  unfold escaped. cbn [app]. f_equal. f_equal.
  rewrite <- (chunks_concat (64 * 1024) bs) at 2 by lia.
  induction (chunks (64 * 1024) bs) as [|c cs IH]; [done|]. cbn [List.flat_map List.concat].
  rewrite escape_chunk, IH. unfold escape. symmetry. apply List.flat_map_app.
Qed.

Lemma escape_cmp a b r s : Forall is_byte a → Forall is_byte b →
  lex (escape a ++ 0 :: 0 :: r) (escape b ++ 0 :: 0 :: s) = cmp_then (lex a b) (lex r s).
Proof.
  intros Ha; revert b. induction Ha as [|x a Hx _ IH]; intros [|y b] Hb;
    unfold escape; cbn [List.flat_map app]; try fold (escape a); try fold (escape b).
  - done.
  - apply Forall_cons in Hb as [Hy _]. unfold is_byte in Hy. unfold escape_byte.
    destruct (Z.eqb_spec y 0) as [-> | ]; [done|]. cbn [app list_cmp]. by rewrite (proj2 (Z.compare_lt_iff 0 y)) by lia.
  - unfold is_byte in Hx. unfold escape_byte. destruct (Z.eqb_spec x 0) as [-> | ]; [done|].
    cbn [app list_cmp]. by rewrite (proj2 (Z.compare_gt_iff x 0)) by lia.
  - apply Forall_cons in Hb as [Hy Hb]. unfold is_byte in *. unfold escape_byte. cbn [list_cmp].
    destruct (Z.eqb_spec x 0) as [-> | ], (Z.eqb_spec y 0) as [-> | ]; cbn [app list_cmp].
    + by cbn; rewrite IH.
    + by rewrite (proj2 (Z.compare_lt_iff 0 y)) by lia.
    + by rewrite (proj2 (Z.compare_gt_iff x 0)) by lia.
    + by rewrite IH, cmp_then_assoc.
Qed.

(** ** Keys sort like their encodings *)

Section Order.
Context `{TR : TimestampRange}.

(** What the type of a value guarantees; a stored timestamp is in range. *)
Definition relational_value_wf (v : RelationalValue) : Prop :=
  match v with
  | RBigInt x => is_i64 x
  | RTimestamp x | RTimestampTz x => is_i64 x ∧ timestamp_in_range x = true
  | RDoublePrecision bits => is_u64 bits
  | RDecimal d => wf d
  | RText text => utf8_valid text = true ∧ Forall is_byte text
  | RBytea bs => Forall is_byte bs
  | RUuid uuid => zlen uuid = 16 ∧ Forall is_byte uuid
  | RNull | RBoolean _ | RVector _ | ROverflow _ => True
  end.

Lemma flip_sign_range v : is_i64 v → 0 ≤ flip_sign v < 256 ^ Z.of_nat 8.
Proof. intros Hv. rewrite flip_sign_arith by done. unfold is_i64 in Hv. change (256 ^ Z.of_nat 8) with (2 ^ 64). lia. Qed.

Lemma flip_sign_cmp a b r s : is_i64 a → is_i64 b →
  lex (be_bytes 8 (flip_sign a) ++ r) (be_bytes 8 (flip_sign b) ++ s) = cmp_then (a ?= b) (lex r s).
Proof.
  intros Ha Hb. rewrite list_cmp_app by (by rewrite !length_be_bytes).
  rewrite be_bytes_cmp by (by apply flip_sign_range). rewrite !flip_sign_arith by done.
  f_equal. rewrite !(Z.add_comm _ (2 ^ 63)). apply Z.add_compare_mono_l.
Qed.

Lemma length_to_ordered_bytes d : wf d → length (to_ordered_bytes d) = 40%nat.
Proof.
  intros Hd. destruct (decide (coefficient d = 0)) as [E|E].
  - unfold to_ordered_bytes. rewrite E. done.
  - destruct (to_ordered_bytes_body d Hd E) as (e & ds & Hob & ->). pose proof (ob_length _ _ _ Hob).
    destruct (_ <? _); cbn; rewrite ?length_fmap; lia.
Qed.

(** Encodings are self-delimiting and sort like the values, whatever follows. *)
Lemma encode_value_cmp v w e f r s :
  relational_value_wf v → relational_value_wf w →
  encode_ordered_relational_value v = Ok e → encode_ordered_relational_value w = Ok f →
  lex (e ++ r) (f ++ s) = cmp_then (value_cmp v w) (lex r s).
Proof.
  intros Hv Hw He Hf. unfold value_cmp. rewrite cmp_then_assoc.
  assert (∃ e', e = kind_rank v :: e') as [e' Ee].
  { destruct v; cbn in He; simplify_eq/=; rewrite ?escaped_spec; by eexists. }
  assert (∃ f', f = kind_rank w :: f') as [f' Ef].
  { destruct w; cbn in Hf; simplify_eq/=; rewrite ?escaped_spec; by eexists. }
  destruct (Z.compare_spec (kind_rank v) (kind_rank w)) as [E|E|E].
  2: { subst. cbn. by rewrite (proj2 (Z.compare_lt_iff _ _) E). }
  2: { subst. cbn. by rewrite (proj2 (Z.compare_gt_iff _ _) E). }
  cbn [cmp_then]. destruct v, w; try discriminate E; cbn [relational_value_wf] in Hv, Hw;
    cbn [encode_ordered_relational_value] in He, Hf; try discriminate He;
    injection He as He; injection Hf as Hf; rewrite <- He, <- Hf; clear E Ee Ef He Hf e f e' f';
    rewrite ?escaped_spec, <- ?app_comm_cons; cbn [app list_cmp]; rewrite ?Z.compare_refl; cbn [cmp_then].
  - done.
  - done.
  - by rewrite flip_sign_cmp.
  - rewrite list_cmp_app by (by rewrite !length_be_bytes).
    rewrite be_bytes_cmp by (apply ordered_bits_range; done). rewrite !ordered_bits_arith by done.
    f_equal. rewrite !(Z.add_comm _ (2 ^ 63)). apply Z.add_compare_mono_l.
  - rewrite list_cmp_app by (by rewrite !length_to_ordered_bytes). unfold Decimal_cmp. by rewrite bytes_cmp_list.
  - destruct Hv as [_ Hv], Hw as [_ Hw]. rewrite <- !app_assoc. by apply escape_cmp.
  - rewrite <- !app_assoc. by apply escape_cmp.
  - apply list_cmp_app. unfold zlen in *. lia.
  - by rewrite flip_sign_cmp by apply Hv || apply Hw.
  - by rewrite flip_sign_cmp by apply Hv || apply Hw.
Qed.

Lemma encode_values_cmp j k e f :
  Forall relational_value_wf j → Forall relational_value_wf k →
  encode_ordered_values j = Ok e → encode_ordered_values k = Ok f → lex e f = key_cmp j k.
Proof.
  intros Hj; revert k e f. induction Hj as [|v j Hv _ IH]; intros [|w k] e f Hk He Hf; cbn in He, Hf.
  - by simplify_eq.
  - apply result_bind_ok in Hf as (f1 & Ef & Hf). apply result_bind_ok in Hf as (f2 & _ & Hf). simplify_eq.
    destruct w; cbn in Ef; simplify_eq; rewrite ?escaped_spec; done.
  - apply result_bind_ok in He as (e1 & Ee & He). apply result_bind_ok in He as (e2 & _ & He). simplify_eq.
    destruct v; cbn in Ee; simplify_eq; rewrite ?escaped_spec; done.
  - apply Forall_cons in Hk as [Hw Hk].
    apply result_bind_ok in He as (e1 & Ee & He). apply result_bind_ok in He as (e2 & Ee2 & [= <-]).
    apply result_bind_ok in Hf as (f1 & Ef & Hf). apply result_bind_ok in Hf as (f2 & Ef2 & [= <-]).
    rewrite (encode_value_cmp v w e1 f1) by done. unfold key_cmp; cbn [list_cmp]. f_equal. by apply IH.
Qed.
End Order.

(** ** Reading at an offset *)

Section Reading.
Context `{TR : TimestampRange}.
Implicit Types (enc rest body : bytes) (off : Z).

(** [read_at enc off rest body off' rest']: between [off] and [off'] the encoding holds [body]. *)
Record read_at enc off rest body off' rest' : Prop := {
  ra_rest : rest = body ++ rest';
  ra_offset : off' = off + zlen body;
  ra_suffix : suffix_at enc off' rest';
}.

Lemma read_at_intro enc off body rest : suffix_at enc off (body ++ rest) →
  read_at enc off (body ++ rest) body (off + zlen body) rest.
Proof. intros Hs. constructor; [done|done|]. by apply suffix_at_app. Qed.
Lemma read_at_app enc off rest b1 off1 rest1 b2 off2 rest2 :
  read_at enc off rest b1 off1 rest1 → read_at enc off1 rest1 b2 off2 rest2 →
  read_at enc off rest (b1 ++ b2) off2 rest2.
Proof.
  intros [-> -> _] [-> -> Hs]. constructor; [by rewrite app_assoc|rewrite zlen_app; lia|done].
Qed.

Lemma key_byte_spec enc off rest ctx r :
  suffix_at enc off rest → key_byte enc off ctx = r →
  match rest with
  | [] => ∃ e, r = Err e
  | b :: rest' => r = Ok (b, off + 1) ∧ read_at enc off rest [b] (off + 1) rest'
  end.
Proof.
  intros Hs <-. unfold key_byte. destruct Hs as (pre & -> & -> & Hl). destruct rest as [|b rest'].
  - assert (zget (pre ++ []) (zlen pre) = None) as ->; [|by eexists].
    unfold zget. rewrite app_nil_r, (proj2 (Z.ltb_ge _ _)) by zlen_lia.
    apply lookup_ge_None. unfold zlen. lia.
  - rewrite zget_app_mid. cbn. split; [done|]. constructor; [done|done|].
    exists (pre ++ [b]). rewrite <- app_assoc, zlen_app. done.
Qed.

Lemma key_fixed_spec n enc off rest ctx r :
  0 ≤ n → suffix_at enc off rest → key_fixed n enc off ctx = r →
  if zlen rest <? n then ∃ e, r = Err e
  else ∃ body rest', zlen body = n ∧ r = Ok (body, off + n) ∧ read_at enc off rest body (off + n) rest'.
Proof.
  intros Hn Hs <-. unfold key_fixed. destruct Hs as (pre & -> & -> & Hl).
  pose proof Hl as Hl'. rewrite zlen_app in Hl'. unfold Prelude.checked_add.
  destruct (Z.ltb_spec (zlen rest) n).
  - case_bool; cbn; [|by eexists]. rewrite (proj2 (Z.ltb_lt _ _)) by (rewrite zlen_app; lia). by eexists.
  - rewrite (proj2 (Z.leb_le _ _)) by lia. cbn. rewrite (proj2 (Z.ltb_ge _ _)) by (rewrite zlen_app; lia).
    exists (take (Z.to_nat n) rest), (drop (Z.to_nat n) rest). rewrite zlen_take by done. split; [lia|].
    assert (zslice (pre ++ rest) (zlen pre) (zlen pre + n) = take (Z.to_nat n) rest) as ->.
    { rewrite zslice_app_r by lia. rewrite Z.sub_diag, Z.add_simpl_l. apply zslice_0. }
    split; [done|]. constructor; [by rewrite take_drop|rewrite zlen_take by done; lia|].
    exists (pre ++ take (Z.to_nat n) rest). rewrite <- app_assoc, take_drop, zlen_app, zlen_take by done.
    split_and!; [done|lia|done].
Qed.
Lemma key_skip_fixed_fixed n enc off ctx :
  key_skip_fixed n enc off ctx = let? (_, off) := key_fixed n enc off ctx in Ok off.
Proof. unfold key_skip_fixed, key_fixed. destruct (Prelude.checked_add _ _ _); [|done]. cbn. by destruct (_ <? _). Qed.

Lemma key_byte_at enc off b rest ctx :
  suffix_at enc off (b :: rest) → key_byte enc off ctx = Ok (b, off + 1) ∧ suffix_at enc (off + 1) rest.
Proof. intros Hs. destruct (key_byte_spec _ _ _ ctx _ Hs eq_refl) as [-> []]. done. Qed.
Lemma key_byte_inv enc off rest ctx b off' :
  suffix_at enc off rest → key_byte enc off ctx = Ok (b, off') → ∃ rest', read_at enc off rest [b] off' rest'.
Proof.
  intros Hs E. pose proof (key_byte_spec _ _ _ ctx _ Hs E) as H. destruct rest as [|b' rest']; [by destruct H|].
  destruct H as [[= -> ->] H]. by exists rest'.
Qed.
Lemma key_fixed_at n enc off body rest ctx :
  zlen body = n → suffix_at enc off (body ++ rest) →
  key_fixed n enc off ctx = Ok (body, off + n) ∧ suffix_at enc (off + n) rest.
Proof.
  intros <- Hs. pose proof (zlen_nonneg body). pose proof (key_fixed_spec (zlen body) _ _ _ ctx _ ltac:(lia) Hs eq_refl) as H'.
  rewrite (proj2 (Z.ltb_ge _ _)) in H' by (rewrite zlen_app; zlen_lia).
  destruct H' as (body' & rest' & Hl & -> & [E _ Hs']).
  apply app_inj_1 in E as [-> ->]; [done|]. unfold zlen in *. lia.
Qed.
Lemma key_fixed_inv n enc off rest ctx body off' :
  0 ≤ n → suffix_at enc off rest → key_fixed n enc off ctx = Ok (body, off') →
  zlen body = n ∧ ∃ rest', read_at enc off rest body off' rest'.
Proof.
  intros Hn Hs E. pose proof (key_fixed_spec n _ _ _ ctx _ Hn Hs E) as H.
  destruct (_ <? _); [by destruct H|]. destruct H as (body' & rest' & Hl & [= <- ->] & Hr). by eauto.
Qed.

Lemma walk_escaped_at fuel : ∀ enc off bs rest,
  Forall is_byte bs → (length bs < fuel)%nat → suffix_at enc off (escape bs ++ 0 :: 0 :: rest) →
  walk_escaped fuel enc off = Ok (bs, off + zlen (escape bs ++ [0; 0])).
Proof.
  induction fuel as [|fuel IH]; intros enc off bs rest Hb Hf Hs; [lia|]. cbn [walk_escaped].
  destruct bs as [|b bs].
  - destruct (key_byte_at _ _ _ _ "escaped key value" Hs) as [-> Hs1]. cbn.
    destruct (key_byte_at _ _ _ _ "escaped key terminator" Hs1) as [-> _]. cbn.
    do 2 f_equal. change (zlen [0; 0]) with 2. lia.
  - apply Forall_cons in Hb as [_ Hb]. cbn in Hf.
    rewrite escape_cons in Hs |- *. unfold escape_byte in Hs |- *.
    destruct (Z.eqb_spec b 0) as [-> | Hne]; cbn [app] in *.
    + destruct (key_byte_at _ _ _ _ "escaped key value" Hs) as [-> Hs1]. cbn [result_bind].
      change (negb (0 =? 0)) with false. cbv iota.
      destruct (key_byte_at _ _ _ _ "escaped key terminator" Hs1) as [-> Hs2]. cbn [result_bind].
      change (255 =? 0) with false. change (255 =? 255) with true. cbv iota.
      rewrite (IH _ _ bs rest) by (done || lia). cbn [result_bind]. do 2 f_equal. rewrite !zlen_cons. lia.
    + destruct (key_byte_at _ _ _ _ "escaped key value" Hs) as [-> Hs1]. cbn [result_bind].
      rewrite (proj2 (Z.eqb_neq b 0) Hne). cbn [negb].
      rewrite (IH _ _ bs rest) by (done || lia). cbn [result_bind]. do 2 f_equal. rewrite !zlen_cons. lia.
Qed.
Lemma walk_escaped_inv fuel : ∀ enc off rest bs off',
  Forall is_byte rest → suffix_at enc off rest → walk_escaped fuel enc off = Ok (bs, off') →
  Forall is_byte bs ∧ ∃ rest', read_at enc off rest (escape bs ++ [0; 0]) off' rest'.
Proof.
  induction fuel as [|fuel IH]; intros enc off rest bs off' HF Hs; [done|]. cbn [walk_escaped].
  intros ([b o1] & E1 & H)%result_bind_ok. destruct (key_byte_inv _ _ _ _ _ _ Hs E1) as [r1 H1].
  pose proof H1 as [E _ Hs1]. rewrite E in HF. apply Forall_cons in HF as [Hb HF1].
  destruct (Z.eqb_spec b 0) as [-> | Hne]; cbn [negb] in H.
  - apply result_bind_ok in H as ([t o2] & E2 & H). destruct (key_byte_inv _ _ _ _ _ _ Hs1 E2) as [r2 H2].
    pose proof H2 as [E' _ Hs2]. rewrite E' in HF1. apply Forall_cons in HF1 as [Ht HF2].
    destruct (Z.eqb_spec t 0) as [-> | ].
    + injection H as <- <-. split; [done|]. exists r2. by apply (read_at_app _ _ _ [0] _ _ [0] _ _ H1).
    + destruct (Z.eqb_spec t 255) as [-> | ]; [|done].
      apply result_bind_ok in H as ([bs1 o3] & E3 & [= <- <-]).
      destruct (IH _ _ _ _ _ HF2 Hs2 E3) as [Hbs [r3 H3]]. split; [by constructor|]. exists r3.
      exact (read_at_app _ _ _ [0; 255] _ _ _ _ _ (read_at_app _ _ _ [0] _ _ [255] _ _ H1 H2) H3).
  - apply result_bind_ok in H as ([bs1 o3] & E3 & [= <- <-]).
    destruct (IH _ _ _ _ _ HF1 Hs1 E3) as [Hbs [r3 H3]]. split; [by constructor|]. exists r3.
    rewrite escape_cons. unfold escape_byte.
    rewrite (proj2 (Z.eqb_neq b 0) Hne), <- app_assoc. by apply (read_at_app _ _ _ [b] _ _ _ _ _ H1).
Qed.
(** ** Values *)

Lemma escaped_at enc off bs rest :
  Forall is_byte bs → suffix_at enc off (escape bs ++ [0; 0] ++ rest) →
  escaped_bytes enc off = Ok (bs, off + zlen (escape bs ++ [0; 0])).
Proof.
  intros Hb Hs. apply (walk_escaped_at _ _ _ _ rest); [done| |done].
  destruct Hs as (pre & -> & _). rewrite !length_app.
  assert (length bs ≤ length (escape bs))%nat; [|lia]. clear. induction bs as [|b bs IH]; [done|].
  rewrite escape_cons, length_app. unfold escape_byte.
  destruct (b =? 0); cbn; lia.
Qed.

Lemma be_val_unflip bs : zlen bs = 8 → Forall is_byte bs →
  is_i64 (as_i64 (Z.lxor (be_val bs) (2 ^ 63))) ∧ be_bytes 8 (flip_sign (as_i64 (Z.lxor (be_val bs) (2 ^ 63)))) = bs.
Proof.
  intros Hl HF. pose proof (be_val_bound bs HF) as Hb. rewrite Hl in Hb. change (256 ^ 8) with (2 ^ 64) in Hb.
  rewrite unflip_arith by done. assert (is_i64 (be_val bs - 2 ^ 63)) as Hi by (unfold is_i64; lia).
  split; [done|]. rewrite flip_sign_arith by done. replace (be_val bs - 2 ^ 63 + 2 ^ 63) with (be_val bs) by lia.
  rewrite <- (be_bytes_val bs) at 2 by done. f_equal. unfold zlen in Hl. lia.
Qed.
Lemma be_val_flip v : is_i64 v → as_i64 (Z.lxor (be_val (be_bytes 8 (flip_sign v))) (2 ^ 63)) = v.
Proof.
  intros Hv. rewrite be_val_bytes by (by apply flip_sign_range). pose proof (flip_sign_range v Hv) as Hr.
  change (256 ^ Z.of_nat 8) with (2 ^ 64) in Hr. rewrite unflip_arith, flip_sign_arith by done. lia.
Qed.

(** A stored value reads back as one that compares equal and encodes alike; it
    is the same value unless it is a decimal, whose scale is not kept. *)
Definition same_key_value (v w : RelationalValue) : Prop :=
  relational_value_wf w ∧ value_cmp v w = Eq ∧
  encode_ordered_relational_value w = encode_ordered_relational_value v ∧
  (match v with RDecimal _ => True | _ => w = v end).

Lemma same_key_value_refl v : relational_value_wf v → same_key_value v v.
Proof. intros Hv. split_and!; [done|apply (ord_refl value_cmp)|done|by destruct v]. Qed.

Lemma key_timestamp_at enc off tag v rest :
  is_i64 v → timestamp_in_range v = true → (tag = 10 ∨ tag = 11) →
  suffix_at enc off (be_bytes 8 (flip_sign v) ++ rest) →
  key_timestamp tag enc off = Ok (if tag =? 10 then RTimestamp v else RTimestampTz v, off + 8).
Proof.
  intros Hv Hr Htag Hs. unfold key_timestamp.
  destruct (key_fixed_at 8 _ _ _ _ "TIMESTAMP value" (zlen_be_bytes 8 _) Hs) as [-> _]. cbn [result_bind].
  rewrite be_val_flip by done. unfold decode_timestamp_value. rewrite Hr. cbn [negb].
  by destruct Htag as [-> | ->].
Qed.

Lemma key_value_at enc off v e rest :
  relational_value_wf v → encode_ordered_relational_value v = Ok e → suffix_at enc off (e ++ rest) →
  ∃ w, key_value enc off = Ok (w, off + zlen e) ∧ same_key_value v w.
Proof.
  intros Hv He Hs.
  assert (∃ e', e = kind_rank v :: e') as [e' Ee] by (destruct v; cbn in He; simplify_eq/=; rewrite ?escaped_spec; by eexists).
  rewrite Ee in Hs. destruct (key_byte_at _ _ _ _ "value tag" Hs) as [Hb Hs1].
  unfold key_value. rewrite Hb. cbn [result_bind]. clear Hb Hs. rewrite Ee, zlen_cons, Z.add_assoc.
  destruct v; cbn [encode_ordered_relational_value] in He; try discriminate He; injection He as He;
    rewrite ?escaped_spec in He; rewrite <- He in Ee; injection Ee as <-; clear e He;
    cbn [kind_rank Z.eqb Pos.eqb orb]; cbn [relational_value_wf] in Hv.
  - eexists; split; [|by apply same_key_value_refl]. by rewrite Z.add_0_r.
  - eexists; split; [|by apply same_key_value_refl]. unfold key_boolean.
    destruct (key_byte_at _ _ _ _ "boolean value" Hs1) as [-> _]. by destruct b.
  - eexists; split; [|by apply same_key_value_refl].
    destruct (key_fixed_at 8 _ _ _ _ "BIGINT value" (zlen_be_bytes 8 _) Hs1) as [-> _]. cbn [result_bind].
    by rewrite be_val_flip, zlen_be_bytes.
  - eexists; split; [|by apply same_key_value_refl].
    destruct (key_fixed_at 8 _ _ _ _ "DOUBLE PRECISION value" (zlen_be_bytes 8 _) Hs1) as [-> _]. cbn [result_bind].
    rewrite be_val_bytes by (by apply ordered_bits_range). by rewrite decode_bits_ordered, zlen_be_bytes.
  - assert (zlen (to_ordered_bytes d) = ORDERED_LEN) as Hl by (unfold zlen; by rewrite length_to_ordered_bytes).
    destruct (ordered_roundtrip_encode d Hv) as (d' & Ed & Hw & Hval). exists (RDecimal d'). split.
    + unfold key_decimal. destruct (key_fixed_at ORDERED_LEN _ _ _ _ "Decimal value" Hl Hs1) as [-> _].
      cbn [result_bind]. rewrite Ed. cbn. by rewrite Hl.
    + assert (Decimal_cmp d d' = Eq) as Hc by (rewrite Decimal_cmp_value, Hval by done; apply Z.compare_refl).
      split_and!; [done|done| |done]. cbn. do 2 f_equal. symmetry. by apply bytes_cmp_eq.
  - destruct Hv as [Hu Hv]. eexists; split; [|by apply same_key_value_refl]. unfold key_text.
    rewrite (escaped_at _ _ text rest Hv ltac:(rewrite app_assoc; exact Hs1)). cbn. by rewrite Hu.
  - eexists; split; [|by apply same_key_value_refl].
    by rewrite (escaped_at _ _ bs rest Hv ltac:(rewrite app_assoc; exact Hs1)).
  - destruct Hv as [Hl Hv]. eexists; split; [|by apply same_key_value_refl].
    destruct (key_fixed_at 16 _ _ _ _ "UUID value" Hl Hs1) as [-> _]. cbn. by rewrite Hl.
  - destruct Hv as [Hv Hr]. eexists; split; [|by apply same_key_value_refl].
    rewrite (key_timestamp_at _ _ 10 micros rest) by (done || by left). by rewrite zlen_be_bytes.
  - destruct Hv as [Hv Hr]. eexists; split; [|by apply same_key_value_refl].
    rewrite (key_timestamp_at _ _ 11 micros rest) by (done || by right). by rewrite zlen_be_bytes.
Qed.

Lemma escaped_inv enc off rest bs off' :
  Forall is_byte rest → suffix_at enc off rest → escaped_bytes enc off = Ok (bs, off') →
  Forall is_byte bs ∧ ∃ rest', read_at enc off rest (escape bs ++ [0; 0]) off' rest'.
Proof. apply walk_escaped_inv. Qed.

Lemma key_timestamp_inv enc off rest tag v off' :
  Forall is_byte rest → (tag = 10 ∨ tag = 11) → suffix_at enc off rest → key_timestamp tag enc off = Ok (v, off') →
  relational_value_wf v ∧ ∃ body rest', encode_ordered_relational_value v = Ok (tag :: body) ∧
    read_at enc off rest body off' rest'.
Proof.
  intros HF Htag Hs ([bs o] & E & H)%result_bind_ok. apply result_bind_ok in H as (v' & Ev & [= <- <-]).
  destruct (key_fixed_inv 8 _ _ _ _ _ _ ltac:(lia) Hs E) as [Hl [rest' Hr]].
  assert (Forall is_byte bs) as Hb by (rewrite (ra_rest _ _ _ _ _ _ Hr) in HF; by apply Forall_app in HF as []).
  destruct (be_val_unflip bs Hl Hb) as [Hi Hf]. unfold decode_timestamp_value in Ev.
  set (micros := as_i64 _) in *. destruct (timestamp_in_range micros) eqn:Er; cbn [negb] in Ev; [|done].
  destruct Htag as [-> | ->]; cbn in Ev; injection Ev as <-; (split; [done|]);
    exists bs, rest'; cbn [encode_ordered_relational_value]; by rewrite Hf.
Qed.

Lemma key_value_inv enc off rest v off' :
  Forall is_byte rest → suffix_at enc off rest → key_value enc off = Ok (v, off') →
  relational_value_wf v ∧ ∃ e rest', encode_ordered_relational_value v = Ok e ∧ read_at enc off rest e off' rest'.
Proof.
  intros HF Hs ([tag o] & E & H)%result_bind_ok. destruct (key_byte_inv _ _ _ _ _ _ Hs E) as [r1 H1].
  pose proof H1 as [Er _ Hs1]. rewrite Er in HF. apply Forall_cons in HF as [_ HF].
  assert (∀ body rest', read_at enc o r1 body off' rest' → read_at enc off rest (tag :: body) off' rest') as Hcons
    by (intros body rest' Hr; exact (read_at_app _ _ _ [tag] _ _ body _ _ H1 Hr)).
  assert (∀ bs rest', read_at enc o r1 bs off' rest' → Forall is_byte bs) as Hbytes
    by (intros bs rest' [-> _ _]; by apply Forall_app in HF as []).
  repeat match type of H with (if ?t =? ?n then _ else _) = _ => destruct (Z.eqb_spec t n) as [-> | ] end.
  - injection H as <- <-. split; [done|]. by exists [0], r1.
  - apply result_bind_ok in H as ([b o'] & Eb & [= <- <-]). split; [done|].
    apply result_bind_ok in Eb as ([t o2] & Et & Eb). destruct (key_byte_inv _ _ _ _ _ _ Hs1 Et) as [r2 H2].
    eexists _, r2. split; [done|]. destruct (Z.eqb_spec t 0) as [-> | ]; [injection Eb as <- <-; by apply Hcons|].
    destruct (Z.eqb_spec t 1) as [-> | ]; [|done]. injection Eb as <- <-. by apply Hcons.
  - apply result_bind_ok in H as ([bs o'] & Eb & [= <- <-]).
    destruct (key_fixed_inv 8 _ _ _ _ _ _ ltac:(lia) Hs1 Eb) as [Hl [r2 H2]].
    destruct (be_val_unflip bs Hl (Hbytes _ _ H2)) as [Hi Hf]. split; [done|]. eexists _, r2. split; [done|].
    rewrite Hf. by apply Hcons.
  - apply result_bind_ok in H as ([bs o'] & Eb & [= <- <-]).
    destruct (key_fixed_inv 8 _ _ _ _ _ _ ltac:(lia) Hs1 Eb) as [Hl [r2 H2]]. pose proof (Hbytes _ _ H2) as HFb.
    pose proof (be_val_bound bs HFb) as Hbd. rewrite Hl in Hbd. change (256 ^ 8) with (2 ^ 64) in Hbd.
    destruct (ordered_bits_decode (be_val bs) Hbd) as [Hu Ho]. split; [done|]. eexists _, r2. split; [done|].
    rewrite Ho. assert (be_bytes 8 (be_val bs) = bs) as -> by
      (rewrite <- (be_bytes_val bs) at 2 by done; f_equal; unfold zlen in Hl; lia). by apply Hcons.
  - apply result_bind_ok in H as ([bs o'] & Eb & H). destruct (utf8_valid bs) eqn:Hu; [|done]. injection H as <- <-.
    destruct (escaped_inv _ _ _ _ _ HF Hs1 Eb) as [Hb [r2 H2]]. split; [done|]. eexists _, r2. split; [done|].
    rewrite escaped_spec. by apply Hcons.
  - apply result_bind_ok in H as ([bs o'] & Eb & [= <- <-]).
    destruct (escaped_inv _ _ _ _ _ HF Hs1 Eb) as [Hb [r2 H2]]. split; [done|]. eexists _, r2. split; [done|].
    rewrite escaped_spec. by apply Hcons.
  - apply result_bind_ok in H as ([d o'] & Eb & [= <- <-]).
    apply result_bind_ok in Eb as ([bs o2] & Eb & Ed). apply result_bind_ok in Ed as (d' & Ed & [= <- <-]).
    destruct (key_fixed_inv ORDERED_LEN _ _ _ _ _ _ ltac:(done) Hs1 Eb) as [Hl [r2 H2]].
    destruct (from_ordered_bytes bs) as [d0|] eqn:E0; [|done]. cbn in Ed. injection Ed as ->.
    destruct (ordered_roundtrip_decode bs d') as [Hw Ht]; [unfold zlen, ORDERED_LEN in Hl; lia|by apply (Hbytes _ _ H2)|done|].
    split; [done|]. eexists _, r2. split; [done|]. rewrite Ht. by apply Hcons.
  - apply result_bind_ok in H as ([bs o'] & Eb & [= <- <-]).
    destruct (key_fixed_inv 16 _ _ _ _ _ _ ltac:(lia) Hs1 Eb) as [Hl [r2 H2]].
    split; [by split; [|apply (Hbytes _ _ H2)]|]. eexists _, r2. split; [done|]. by apply Hcons.
  - destruct ((tag =? 10) || (tag =? 11)) eqn:Ht; [|done].
    apply orb_true_iff in Ht. rewrite !Z.eqb_eq in Ht.
    destruct (key_timestamp_inv _ _ _ _ _ _ HF Ht Hs1 H) as (Hw & body & r2 & He & H2).
    split; [done|]. eexists _, r2. split; [done|by apply Hcons].
Qed.

Lemma key_skip_of_value enc off v off' :
  key_value enc off = Ok (v, off') →
  key_skip_value enc off = Ok (match v with RNull => true | _ => false end, off').
Proof.
  unfold key_value, key_skip_value. intros ([tag o] & -> & H)%result_bind_ok. cbn [result_bind].
  repeat match type of H with (if ?t =? ?n then _ else _) = _ => destruct (Z.eqb_spec t n) as [-> | ] end;
    cbn [Z.eqb Pos.eqb orb].
  - by injection H as <- <-.
  - by apply result_bind_ok in H as ([b o'] & -> & [= <- <-]).
  - rewrite key_skip_fixed_fixed. by apply result_bind_ok in H as ([b o'] & -> & [= <- <-]).
  - rewrite key_skip_fixed_fixed. by apply result_bind_ok in H as ([b o'] & -> & [= <- <-]).
  - apply result_bind_ok in H as ([bs o'] & -> & H). destruct (utf8_valid bs); [|done]. by injection H as <- <-.
  - by apply result_bind_ok in H as ([b o'] & -> & [= <- <-]).
  - by apply result_bind_ok in H as ([b o'] & -> & [= <- <-]).
  - rewrite key_skip_fixed_fixed. by apply result_bind_ok in H as ([b o'] & -> & [= <- <-]).
  - destruct ((tag =? 10) || (tag =? 11)); [|done]. rewrite H. cbn.
    apply result_bind_ok in H as ([bs o'] & _ & H). apply result_bind_ok in H as (v' & Ev & [= -> ->]).
    unfold decode_timestamp_value in Ev. destruct (negb _); [done|].
    destruct (tag =? 10); [by simplify_eq|]. destruct (tag =? 11); by simplify_eq.
Qed.
(** ** Keys

    [reads enc off vs]: from [off] to the end the encoding holds the values of
    [vs], each with the offset after it. *)
Inductive reads enc : Z → list (RelationalValue * Z) → Prop :=
  | reads_done : reads enc (zlen enc) []
  | reads_step off v off' vs :
      key_value enc off = Ok (v, off') → off < off' → off' ≤ zlen enc → reads enc off' vs →
      reads enc off ((v, off') :: vs).

Lemma encode_value_nonempty v e : encode_ordered_relational_value v = Ok e → 0 < zlen e.
Proof. destruct v; cbn; intros; simplify_eq; rewrite ?escaped_spec, ?zlen_cons; zlen_lia. Qed.
Lemma suffix_at_bound enc off rest : suffix_at enc off rest → off + zlen rest = zlen enc ∧ zlen enc ≤ usize_max.
Proof. intros (pre & -> & -> & H). by rewrite zlen_app in *. Qed.

(** The offsets after the values of a key. *)
Fixpoint value_ends (off : Z) (k : RelationalKey) : list Z :=
  match k with
  | [] => []
  | v :: k =>
      let off := off + match encode_ordered_relational_value v with Ok e => zlen e | Err _ => 0 end in
      off :: value_ends off k
  end.
Definition is_null (v : RelationalValue) : bool := match v with RNull => true | _ => false end.
Fixpoint leading_non_null (k : RelationalKey) : Z :=
  match k with v :: k => if is_null v then 0 else 1 + leading_non_null k | [] => 0 end.

Lemma encode_reads enc off k es :
  Forall relational_value_wf k → encode_ordered_values k = Ok es → suffix_at enc off es →
  ∃ vs, reads enc off vs ∧ Forall2 same_key_value k vs.*1 ∧ vs.*2 = value_ends off k.
Proof.
  intros Hk; revert off es. induction Hk as [|v k Hv _ IH]; intros off es He Hs; cbn in He.
  - injection He as <-. apply suffix_at_bound in Hs as [Hs _]. exists []. split_and!; [|done|done].
    rewrite Z.add_0_r in Hs. subst. constructor.
  - apply result_bind_ok in He as (e & He & (es' & Hes & [= <-])%result_bind_ok).
    destruct (key_value_at _ _ _ _ _ Hv He Hs) as (w & Hr & Hw). apply suffix_at_app in Hs.
    destruct (IH _ _ Hes Hs) as (vs & Hvs & HF & Hends). pose proof (encode_value_nonempty _ _ He).
    apply suffix_at_bound in Hs as [Hs _]. pose proof (zlen_nonneg es').
    exists ((w, off + zlen e) :: vs). split_and!.
    + econstructor; [done|lia|lia|done].
    + by constructor.
    + cbn. by rewrite He, <- Hends.
Qed.

Lemma reads_encode enc off vs rest :
  reads enc off vs → Forall is_byte rest → suffix_at enc off rest →
  Forall relational_value_wf vs.*1 ∧ encode_ordered_values vs.*1 = Ok rest.
Proof.
  intros Hr; revert rest. induction Hr as [|off v off' vs Hv Hlt Hle _ IH]; intros rest HF Hs.
  - apply suffix_at_bound in Hs as [Hs _]. destruct rest; [done|]. rewrite zlen_cons in Hs. zlen_lia.
  - destruct (key_value_inv _ _ _ _ _ HF Hs Hv) as [Hw (e & rest' & He & [-> _ Hs'])].
    apply Forall_app in HF as [_ HF]. destruct (IH rest' HF Hs') as [Hws Hes].
    split; [by constructor|]. cbn. by rewrite He, Hes.
Qed.

Lemma reads_length enc off vs : reads enc off vs → off + zlen vs ≤ zlen enc.
Proof. induction 1; [by rewrite Z.add_0_r|]. rewrite zlen_cons. lia. Qed.
Lemma reads_more enc off p vs : reads enc off (p :: vs) → (off =? zlen enc) = false.
Proof. inversion 1; subst. apply Z.eqb_neq. lia. Qed.

Lemma key_value_into_ok enc off target v off' :
  key_value enc off = Ok (v, off') → key_value_into enc off target = (v, Ok off').
Proof. unfold key_value_into. by intros ->. Qed.

Lemma decode_into_reads enc off vs : reads enc off vs → zlen enc ≤ usize_max → ∀ fuel done_ old,
  (length vs < fuel)%nat → zlen done_ ≤ off →
  decode_into_loop fuel enc off (done_ ++ old) (zlen done_) =
    (done_ ++ vs.*1 ++ drop (length vs) old, Ok (zlen done_ + zlen vs)).
Proof.
  intros Hr Hmax. induction Hr as [|off v off' vs Hv Hlt Hle Hr IH]; intros [|fuel] done_ old Hf Hd; cbn in Hf; try lia.
  { cbn. by rewrite Z.eqb_refl, Z.add_0_r. }
  cbn [decode_into_loop]. rewrite (reads_more _ _ _ _ (reads_step _ _ _ _ _ Hv Hlt Hle Hr)).
  unfold Prelude.checked_add. rewrite (proj2 (Z.leb_le _ _)) by lia.
  pose proof (λ old', IH fuel (done_ ++ [v]) old' ltac:(lia) ltac:(rewrite zlen_app; change (zlen [v]) with 1; lia)) as IH'.
  clear IH. setoid_rewrite <- app_assoc in IH'. rewrite zlen_app in IH'. change (zlen [v]) with 1 in IH'.
  rewrite zlen_cons, Z.add_assoc. destruct old as [|target old].
  - assert (zget (done_ ++ []) (zlen done_) = None) as ->.
    { unfold zget. rewrite app_nil_r. case_bool; [zlen_lia|]. apply lookup_ge_None. unfold zlen. lia. }
    rewrite Hv, app_nil_r. specialize (IH' []). cbn [app] in IH'. rewrite IH', !drop_nil. done.
  - rewrite zget_app_mid, (key_value_into_ok _ _ _ _ _ Hv).
    replace (<[Z.to_nat (zlen done_):=v]> (done_ ++ target :: old)) with (done_ ++ v :: old).
    2: { unfold zlen. rewrite Nat2Z.id, insert_app_r_alt, Nat.sub_diag by done. done. }
    specialize (IH' old). cbn [app] in IH'. by rewrite IH'.
Qed.

Lemma decode_into_ok fuel : ∀ enc off rest key n key' m,
  Forall is_byte rest → suffix_at enc off rest → decode_into_loop fuel enc off key n = (key', Ok m) →
  ∃ vs, reads enc off vs.
Proof.
  induction fuel as [|fuel IH]; intros enc off rest key n key' m HF Hs H; [done|]. cbn [decode_into_loop] in H.
  destruct (Z.eqb_spec off (zlen enc)) as [-> | Hne]; [exists []; constructor|].
  assert (∃ v off' key n, key_value enc off = Ok (v, off') ∧ decode_into_loop fuel enc off' key n = (key', Ok m))
    as (v & off' & key1 & n1 & Hv & H').
  { destruct (zget key n) as [target|].
    - unfold key_value_into in H. destruct (key_value enc off) as [[v off']|] eqn:E; [|done].
      destruct (Prelude.checked_add _ _ _); [|done]. by eauto 10.
    - destruct (key_value enc off) as [[v off']|] eqn:E; [|done].
      destruct (Prelude.checked_add _ _ _); [|done]. by eauto 10. }
  destruct (key_value_inv _ _ _ _ _ HF Hs Hv) as [_ (e & rest' & He & [-> -> Hs'])].
  apply Forall_app in HF as [_ HF]. destruct (IH _ _ _ _ _ _ _ HF Hs' H') as [vs Hvs].
  pose proof (encode_value_nonempty _ _ He). apply suffix_at_bound in Hs' as [Hb _]. pose proof (zlen_nonneg rest').
  eexists (_ :: _). econstructor; [done|lia|lia|done].
Qed.

Lemma validate_reads enc off vs : reads enc off vs → zlen enc ≤ usize_max → ∀ fuel n,
  (length vs < fuel)%nat → n ≤ off → validate_loop fuel enc off n = Ok (n + zlen vs).
Proof.
  intros Hr Hmax. induction Hr as [|off v off' vs Hv Hlt Hle Hr IH]; intros [|fuel] n Hf Hn; cbn in Hf; try lia.
  { cbn. by rewrite Z.eqb_refl, Z.add_0_r. }
  cbn [validate_loop]. rewrite (reads_more _ _ _ _ (reads_step _ _ _ _ _ Hv Hlt Hle Hr)).
  rewrite (key_skip_of_value _ _ _ _ Hv). cbn [result_bind]. unfold Prelude.checked_add.
  rewrite (proj2 (Z.leb_le _ _)) by lia. cbn. rewrite IH by lia. rewrite zlen_cons. f_equal; lia.
Qed.

Lemma prefix_ends_reads enc off vs : reads enc off vs → zlen enc ≤ usize_max → ∀ fuel saw n ends,
  (length vs < fuel)%nat → n ≤ off →
  prefix_ends_loop fuel enc off saw n ends =
    Ok (if saw then n else n + leading_non_null vs.*1, ends ++ vs.*2).
Proof.
  intros Hr Hmax. induction Hr as [|off v off' vs Hv Hlt Hle Hr IH]; intros [|fuel] saw n ends Hf Hn; cbn in Hf; try lia.
  { cbn. by rewrite Z.eqb_refl, Z.add_0_r, app_nil_r; destruct saw. }
  cbn [prefix_ends_loop]. rewrite (reads_more _ _ _ _ (reads_step _ _ _ _ _ Hv Hlt Hle Hr)).
  rewrite (key_skip_of_value _ _ _ _ Hv). cbn [result_bind]. unfold Prelude.checked_add.
  rewrite (proj2 (Z.leb_le _ _)) by lia. fold (is_null v).
  cbn [leading_non_null fmap list_fmap fst snd]. 
  destruct saw, (is_null v) eqn:En; cbn [orb ok_or result_bind]; rewrite IH by lia; rewrite <- app_assoc, ?Z.add_0_r; try done.
  by rewrite Z.add_assoc.
Qed.

Lemma leading_same k k' : Forall2 same_key_value k k' → leading_non_null k' = leading_non_null k.
Proof.
  induction 1 as [|v w k k' (_ & Hc & _ & Hv) _ IH]; [done|]. cbn. rewrite IH.
  destruct v; rewrite ?Hv; try done. by destruct w.
Qed.

Lemma encode_key_values k enc :
  encode_ordered_relational_key k = Ok enc ↔ k ≠ [] ∧ encode_ordered_values k = Ok enc.
Proof. destruct k as [|v k]; [by split; [|intros []]|]. split; [by intros|by intros [_ ?]]. Qed.

(** Decoding into any buffer, given the values of the encoding. *)
Lemma decode_key_reads enc vs buffer : reads enc 0 vs → vs ≠ [] → zlen enc ≤ usize_max →
  decode_ordered_relational_key_into enc buffer = (vs.*1, Ok ()).
Proof.
  intros Hr Hne Hmax. unfold decode_ordered_relational_key_into. pose proof (reads_length _ _ _ Hr) as Hl.
  rewrite (decode_into_reads enc 0 vs Hr Hmax _ [] buffer) by (unfold zlen in *; cbn; lia).
  change (zlen []) with 0. rewrite Z.add_0_l, (proj2 (Z.eqb_neq _ _)).
  - cbn [app]. rewrite take_app_le, take_ge; unfold zlen; rewrite ?length_fmap; by (lia || f_equal).
  - destruct vs; [done|]. rewrite zlen_cons. zlen_lia.
Qed.
End Reading.

Section Claims.
Context `{TR : TimestampRange}.

(** C12: The encoding sorts like the keys: for keys of well-formed values that can
    be encoded, the byte order of the encodings is the order of the keys. *)
Theorem ordered_key_order j k e f :
  Forall relational_value_wf j → Forall relational_value_wf k →
  encode_ordered_relational_key j = Ok e → encode_ordered_relational_key k = Ok f →
  list_cmp Z.compare e f = key_cmp j k.
Proof. intros Hj Hk [_ He]%encode_key_values [_ Hf]%encode_key_values. by apply encode_values_cmp. Qed.

(** An encoded key is read back into whatever buffer the caller reuses: the
    buffer then holds exactly one value per value of the key, each comparing
    equal to it and, unless it is a decimal, identical to it; the key passes
    validation; and the prefix walk returns the offset after every value and the
    number of values before the first null. *)
Theorem ordered_key_roundtrip k enc buffer :
  Forall relational_value_wf k → encode_ordered_relational_key k = Ok enc → zlen enc ≤ usize_max →
  (∃ k', decode_ordered_relational_key_into enc buffer = (k', Ok ()) ∧ Forall2 same_key_value k k') ∧
  validate_ordered_relational_key enc = Ok () ∧
  ordered_relational_key_prefix_ends enc = Ok (leading_non_null k, value_ends 0 k).
Proof.
  intros Hk [Hne He]%encode_key_values Hmax.
  destruct (encode_reads enc 0 k enc Hk He (suffix_at_start _ Hmax)) as (vs & Hr & HF & Hends).
  pose proof (reads_length _ _ _ Hr) as Hl. pose proof (Forall2_length _ _ _ HF) as HL. rewrite length_fmap in HL.
  assert (vs ≠ []) as Hvs by (by intros ->; destruct k). split_and!.
  - exists vs.*1. split; [|done]. by apply decode_key_reads.
  - unfold validate_ordered_relational_key. rewrite (validate_reads _ _ _ Hr Hmax) by (unfold zlen in *; lia). cbn.
    case_bool; [|done]. destruct vs; [done|]. rewrite zlen_cons in *. zlen_lia.
  - unfold ordered_relational_key_prefix_ends.
    rewrite (prefix_ends_reads _ _ _ Hr Hmax) by (unfold zlen in *; lia). cbn.
    rewrite Hends, (leading_same k) by done. by destruct k.
Qed.

(** C11: Decoding accepts canonical encodings only: whatever bytes are decoded, into
    whatever buffer, a key that is returned is well formed and encodes to
    exactly these bytes, and decoding fails exactly when the bytes are not the
    encoding of any well-formed key. *)
Theorem ordered_key_canonical enc buffer :
  Forall is_byte enc → zlen enc ≤ usize_max →
  match decode_ordered_relational_key_into enc buffer with
  | (k, Ok _) => Forall relational_value_wf k ∧ encode_ordered_relational_key k = Ok enc
  | (_, Err _) => ∀ k, Forall relational_value_wf k → encode_ordered_relational_key k ≠ Ok enc
  end.
Proof.
  intros HF Hmax. pose proof (suffix_at_start _ Hmax) as Hs.
  destruct (decode_ordered_relational_key_into enc buffer) as [k [u|e]] eqn:E.
  - assert (∃ vs, reads enc 0 vs) as [vs Hr].
    { revert E. unfold decode_ordered_relational_key_into.
      destruct (decode_into_loop _ _ _ _ _) as [key [m|]] eqn:El; [|done]. intros _.
      exact (decode_into_ok _ _ _ _ _ _ _ _ HF Hs El). }
    destruct (reads_encode _ _ _ _ Hr HF Hs) as [Hw He]. destruct vs as [|p vs].
    { exfalso. inversion Hr as [Hz|]. revert E. unfold decode_ordered_relational_key_into. cbn [decode_into_loop].
      by rewrite (proj2 (Z.eqb_eq 0 (zlen enc))). }
    rewrite (decode_key_reads _ _ _ Hr) in E by done. injection E as <- <-. split; [done|].
    by apply encode_key_values.
  - intros k' Hk' [Hne He]%encode_key_values.
    destruct (encode_reads enc 0 k' enc Hk' He Hs) as (vs & Hr & HF2 & _).
    rewrite (decode_key_reads _ _ _ Hr) in E; [done| |done]. intros ->. by inversion HF2; subst.
Qed.

(** Encoding fails on exactly the keys that cannot be stored in an index: an
    empty key, and one with an overflow reference or a vector, of which the
    first in key order decides the error. *)
Theorem ordered_key_encode_error k :
  match encode_ordered_relational_key k with
  | Ok _ => k ≠ [] ∧ ∀ v, v ∈ k → (∀ r, v ≠ ROverflow r) ∧ (∀ x, v ≠ RVector x)
  | Err e =>
      (k = [] ∧ e = KeyCorrupt "key contains no values" []) ∨
      ∃ pre v post es, k = pre ++ v :: post ∧ encode_ordered_values pre = Ok es ∧
        ((∃ r, v = ROverflow r ∧ e = UnsupportedOverflow) ∨ (∃ x, v = RVector x ∧ e = UnsupportedVector))
  end.
Proof.
  assert (match encode_ordered_values k with
    | Ok _ => ∀ v, v ∈ k → (∀ r, v ≠ ROverflow r) ∧ (∀ x, v ≠ RVector x)
    | Err e => ∃ pre v post es, k = pre ++ v :: post ∧ encode_ordered_values pre = Ok es ∧
        ((∃ r, v = ROverflow r ∧ e = UnsupportedOverflow) ∨ (∃ x, v = RVector x ∧ e = UnsupportedVector))
    end) as H.
  { induction k as [|v k IH]; [by intros v ?%elem_of_nil|]. cbn.
    destruct (encode_ordered_relational_value v) as [e|e] eqn:Ev; cbn.
    - destruct (encode_ordered_values k) as [es|e']; cbn.
      + intros w [-> | Hw]%elem_of_cons; [by destruct v|by apply IH].
      + destruct IH as (pre & w & post & es & -> & He & Hw). exists (v :: pre), w, post. eexists. split; [done|].
        split; [cbn; by rewrite Ev, He|done].
    - exists [], v, k, []. split_and!; [done|done|]. destruct v; cbn in Ev; simplify_eq; eauto. }
  destruct k as [|v k]; [by left|]. cbn [encode_ordered_relational_key] in *.
  destruct (encode_ordered_values (v :: k)); [done|by right].
Qed.
End Claims.

(** Concrete keys, with bounds for timestamps. *)
Module KeyDemo.
#[local] Instance demo_range : TimestampRange := {| min_micros := - 10 ^ 15; max_micros := 10 ^ 15 |}.

Definition key_a : RelationalKey := [RBigInt (-5); RText [65; 0; 66]; RNull; RTimestamp 7].
Definition key_b : RelationalKey := [RBigInt (-5); RText [65; 0; 66; 1]; RBoolean true].
Definition encoded (k : RelationalKey) : bytes :=
  match encode_ordered_relational_key k with Ok e => e | Err _ => [] end.

Lemma key_a_wf : Forall relational_value_wf key_a.
Proof. repeat constructor; done. Qed.
Lemma key_b_wf : Forall relational_value_wf key_b.
Proof. repeat constructor; done. Qed.

Lemma ordered_key_order_witness :
  list_cmp Z.compare (encoded key_a) (encoded key_b) = key_cmp key_a key_b ∧ key_cmp key_a key_b = Lt.
Proof. split; [by apply (ordered_key_order key_a key_b _ _ key_a_wf key_b_wf)|by vm_compute]. Defined.

Lemma ordered_key_roundtrip_witness :
  validate_ordered_relational_key (encoded key_a) = Ok () ∧
  ordered_relational_key_prefix_ends (encoded key_a) = Ok (2, [9; 16; 17; 26]).
Proof.
  exact (proj2 (ordered_key_roundtrip key_a (encoded key_a) [RNull; RBytea [1]] key_a_wf
    eq_refl ltac:(by vm_compute))).
Defined.

Lemma ordered_key_canonical_witness :
  Forall relational_value_wf key_b ∧ encode_ordered_relational_key key_b = Ok (encoded key_b).
Proof.
  assert (Forall is_byte (encoded key_b)) as HF
    by (apply (bool_decide_unpack (Forall (λ z, 0 ≤ z < 256) _)); by vm_compute).
  exact (ordered_key_canonical (encoded key_b) [RNull; RNull; RNull; RNull] HF ltac:(by vm_compute)).
Defined.
End KeyDemo.
