(* ===== verification/BTreeMap.v ===== *)
(** The standard library's [BTreeMap] as its list of entries in key order.

    Keys are compared by [Ord::cmp]; two keys may compare equal without being
    equal, and then the map keeps the key it already has, as the standard
    library documents.  The operations the program uses are defined on entry
    lists, with the laws of a finite map proved from [OrdLaws]. *)
From Stdlib Require Import Sorted.
From S2P Require Import Prelude Ordering.

Lemma filter_all {A} (f : A → bool) l : (∀ x, x ∈ l → f x = true) → List.filter f l = l.
Proof.
  induction l as [|x l IH]; intros H; [done|]. cbn. rewrite (H x) by apply list_elem_of_here.
  f_equal. apply IH. intros y Hy. apply H. by apply elem_of_cons; right.
Qed.
Lemma filter_nothing {A} (f : A → bool) l : (∀ x, x ∈ l → f x = false) → List.filter f l = [].
Proof.
  induction l as [|x l IH]; intros H; [done|]. cbn. rewrite (H x) by apply list_elem_of_here.
  apply IH. intros y Hy. apply H. by apply elem_of_cons; right.
Qed.

Section Operations.
Context {K V : Type} (cmp : K → K → comparison).
Implicit Types (k : K) (v : V) (l : list (K * V)).

Definition key_ltb (a b : K) : bool := match cmp a b with Lt => true | _ => false end.
Definition key_leb (a b : K) : bool := match cmp a b with Gt => false | _ => true end.

(** [get_key_value], [get] and [contains_key]. *)
Fixpoint get_key_value k l : option (K * V) :=
  match l with
  | [] => None
  | (k', v) :: l =>
      match cmp k k' with
      | Lt => None
      | Eq => Some (k', v)
      | Gt => get_key_value k l
      end
  end.
Definition map_get k l : option V := snd <$> get_key_value k l.
Definition map_contains k l : bool := match get_key_value k l with Some _ => true | None => false end.

Definition option_list {A} (o : option A) : list A := match o with Some x => [x] | None => [] end.

(** The entry under a key, or its absence, replaced by [f]. *)
Fixpoint map_alter (f : option (K * V) → option (K * V)) k l : list (K * V) :=
  match l with
  | [] => option_list (f None)
  | e :: l' =>
      match cmp k e.1 with
      | Lt => option_list (f None) ++ l
      | Eq => option_list (f (Some e)) ++ l'
      | Gt => e :: map_alter f k l'
      end
  end.

(** [insert]: the value replaced, and the new entries, under the old key. *)
Definition insert_entry k v (o : option (K * V)) : option (K * V) :=
  Some (match o with Some (k', _) => (k', v) | None => (k, v) end).
Definition map_insert k v l : option V * list (K * V) := (map_get k l, map_alter (insert_entry k v) k l).
Definition map_remove k l : option V * list (K * V) := (map_get k l, map_alter (λ _, None) k l).

(** The value under a key changed in place, through [get_mut]. *)
Definition update_entry (f : V → V) (o : option (K * V)) : option (K * V) := (λ e, (e.1, f e.2)) <$> o.
Definition map_update k (f : V → V) l : list (K * V) := map_alter (update_entry f) k l.

(** [split_off]: what stays, and the entries from the key on. *)
Definition map_split_off k l : list (K * V) * list (K * V) :=
  (List.filter (λ e, key_ltb e.1 k) l, List.filter (λ e, negb (key_ltb e.1 k)) l).

(** [range] between bounds. *)
Inductive Bound := Included (k : K) | Excluded (k : K) | Unbounded.
Definition above_lower (b : Bound) (k : K) : bool :=
  match b with Included x => key_leb x k | Excluded x => key_ltb x k | Unbounded => true end.
Definition below_upper (b : Bound) (k : K) : bool :=
  match b with Included x => key_leb k x | Excluded x => key_ltb k x | Unbounded => true end.
Definition map_range (lo hi : Bound) l : list (K * V) :=
  List.filter (λ e, above_lower lo e.1 && below_upper hi e.1) l.

Definition key_sorted l : Prop := StronglySorted (λ a b : K * V, cmp a.1 b.1 = Lt) l.

(** [collect] into a map: later entries replace the value of earlier ones. *)
Definition map_collect l : list (K * V) := fold_left (λ m e, snd (map_insert e.1 e.2 m)) l [].
End Operations.

Arguments Included {K} k.
Arguments Excluded {K} k.
Arguments Unbounded {K}.
Arguments key_sorted {K V} cmp l.

Section Laws.
Context {K V : Type} (cmp : K → K → comparison) `{!OrdLaws cmp}.
Implicit Types (k : K) (v : V) (l : list (K * V)).

Lemma key_ltb_true a b : key_ltb cmp a b = true ↔ cmp a b = Lt.
Proof. unfold key_ltb. by destruct (cmp a b). Qed.
Lemma key_ltb_false a b : key_ltb cmp a b = false ↔ cmp b a ≠ Gt.
Proof. unfold key_ltb. rewrite (ord_opp cmp a b). by destruct (cmp a b). Qed.
Lemma key_leb_true a b : key_leb cmp a b = true ↔ cmp a b ≠ Gt.
Proof. unfold key_leb. by destruct (cmp a b). Qed.
Lemma key_leb_negb a b : key_leb cmp a b = negb (key_ltb cmp b a).
Proof. unfold key_leb, key_ltb. rewrite (ord_opp cmp a b). by destruct (cmp a b). Qed.
Lemma ord_lt_trans a b c : cmp a b = Lt → cmp b c = Lt → cmp a c = Lt.
Proof. intros H1 H2. apply (ord_lt_le_trans cmp a b c); [done|]. by rewrite H2. Qed.

Lemma key_sorted_app l1 l2 :
  key_sorted cmp (l1 ++ l2) ↔
  key_sorted cmp l1 ∧ key_sorted cmp l2 ∧ (∀ a b, a ∈ l1 → b ∈ l2 → cmp a.1 b.1 = Lt).
Proof.
  unfold key_sorted. induction l1 as [|e l1 IH]; cbn.
  - split; [intros H; split_and!; [constructor|done|by intros ? ? ?%elem_of_nil]|by intros (_ & ? & _)].
  - split.
    + intros H. inversion H as [|? ? Hs HF]; subst. apply IH in Hs as (H1 & H2 & H3).
      apply Forall_app in HF as [HF1 HF2]. split_and!; [by constructor|done|].
      intros a b [-> | Ha]%elem_of_cons Hb; [|by apply H3]. by apply (proj1 (Forall_forall _ _) HF2).
    + intros (H1 & H2 & H3). inversion H1 as [|? ? Hs HF]; subst. constructor.
      * apply IH. split_and!; [done|done|]. intros a b Ha Hb. apply H3; [by apply elem_of_cons; right|done].
      * apply Forall_app. split; [done|]. apply Forall_forall. intros b Hb. apply H3; [by apply elem_of_cons; left|done].
Qed.

Lemma key_sorted_cons e l : key_sorted cmp (e :: l) ↔ key_sorted cmp l ∧ (∀ b, b ∈ l → cmp e.1 b.1 = Lt).
Proof.
  unfold key_sorted. split.
  - inversion 1 as [|? ? Hs HF]; subst. split; [done|]. by apply Forall_forall.
  - intros [Hs H]. constructor; [done|]. by apply Forall_forall.
Qed.

Lemma sorted_filter (f : K * V → bool) l : key_sorted cmp l → key_sorted cmp (List.filter f l).
Proof.
  induction l as [|e l IH]; [done|]. intros [Hs Hlt]%key_sorted_cons. cbn. destruct (f e); [|by apply IH].
  apply key_sorted_cons. split; [by apply IH|]. intros b [Hb _]%list_elem_of_In%List.filter_In.
  by apply Hlt, list_elem_of_In.
Qed.

(** Search stops early because the entries are sorted. *)
Lemma get_below k l : (∀ b, b ∈ l → cmp k b.1 = Lt) → get_key_value cmp k l = None.
Proof.
  destruct l as [|[k' v] l]; [done|]. intros H.
  specialize (H (k', v) ltac:(by apply elem_of_cons; left)). cbn in *. by rewrite H.
Qed.
Lemma get_above k l1 l2 : (∀ a, a ∈ l1 → cmp a.1 k = Lt) →
  get_key_value cmp k (l1 ++ l2) = get_key_value cmp k l2.
Proof.
  induction l1 as [|[k' v] l1 IH]; intros H; [done|]. cbn.
  rewrite (proj2 (ord_gt_lt cmp k k')) by (apply (H (k', v)); by apply elem_of_cons; left).
  apply IH. intros a Ha. apply H. by apply elem_of_cons; right.
Qed.
Lemma get_left k l1 l2 : (∀ b, b ∈ l2 → cmp k b.1 = Lt) →
  get_key_value cmp k (l1 ++ l2) = get_key_value cmp k l1.
Proof.
  intros H. induction l1 as [|[k' v] l1 IH]; cbn; [by apply get_below|]. by destruct (cmp k k').
Qed.
Lemma get_some k l e : key_sorted cmp l → get_key_value cmp k l = Some e ↔ e ∈ l ∧ cmp k e.1 = Eq.
Proof.
  induction l as [|[k' v] l IH]; intros Hs; cbn.
  - split; [done|]. by intros [?%elem_of_nil _].
  - apply key_sorted_cons in Hs as [Hs Hlt]. rewrite elem_of_cons. destruct (cmp k k') eqn:E.
    + split; [intros [= <-]; auto|]. intros [[-> | He] Ee]; [done|]. specialize (Hlt _ He). cbn in Hlt.
      rewrite <- (ord_eq_l cmp k k' e.1 E), Ee in Hlt. done.
    + split; [done|]. intros [[-> | He] Ee]; cbn in *; [by rewrite E in Ee|].
      rewrite (ord_lt_trans k k' e.1 E (Hlt _ He)) in Ee. done.
    + rewrite IH by done. split; [intros [? ?]; auto|]. intros [[-> | He] Ee]; [|done]. cbn in Ee. by rewrite E in Ee.
Qed.
Lemma get_none k l : key_sorted cmp l → get_key_value cmp k l = None ↔ ∀ e, e ∈ l → cmp k e.1 ≠ Eq.
Proof.
  intros Hs. split.
  - intros H e He Ee. rewrite (proj2 (get_some k l e Hs)) in H by done. done.
  - intros H. destruct (get_key_value cmp k l) as [e|] eqn:E; [|done].
    apply (get_some k l e Hs) in E as [He Ee]. by destruct (H e He).
Qed.

Lemma alter_above f k l1 l2 : (∀ a, a ∈ l1 → cmp a.1 k = Lt) →
  map_alter cmp f k (l1 ++ l2) = l1 ++ map_alter cmp f k l2.
Proof.
  induction l1 as [|e l1 IH]; intros H; [done|]. cbn.
  rewrite (proj2 (ord_gt_lt cmp k e.1)) by (apply H; by apply elem_of_cons; left).
  f_equal. apply IH. intros a Ha. apply H. by apply elem_of_cons; right.
Qed.
Lemma alter_below f k l : (∀ b, b ∈ l → cmp k b.1 = Lt) → map_alter cmp f k l = option_list (f None) ++ l.
Proof.
  destruct l as [|e l]; intros H; cbn; [by rewrite app_nil_r|]. by rewrite (H e) by (by apply elem_of_cons; left).
Qed.
Lemma alter_left f k l1 l2 : (∀ b, b ∈ l2 → cmp k b.1 = Lt) →
  map_alter cmp f k (l1 ++ l2) = map_alter cmp f k l1 ++ l2.
Proof.
  intros H. induction l1 as [|e l1 IH]; cbn [app map_alter]; [by apply alter_below|].
  destruct (cmp k e.1); [by rewrite app_assoc|by rewrite <- app_assoc|]. by rewrite IH.
Qed.

(** What [f] returns has the key it is given. *)
Definition keeps_key k (f : option (K * V) → option (K * V)) : Prop :=
  ∀ o e, (∀ e', o = Some e' → cmp k e'.1 = Eq) → f o = Some e → cmp k e.1 = Eq.

Lemma insert_keeps k v : keeps_key k (insert_entry k v).
Proof. intros [[k' v']|] e H [= <-]; cbn; [by apply (H (k', v'))|apply (ord_refl cmp)]. Qed.
Lemma remove_keeps k : keeps_key k (λ _, None).
Proof. done. Qed.
Lemma update_keeps k g : keeps_key k (update_entry g).
Proof. intros [[k' v']|] e H [= <-]; cbn. by apply (H (k', v')). Qed.

Lemma elem_of_alter f k l e : e ∈ map_alter cmp f k l → e ∈ l ∨ ∃ o, f o = Some e ∧ (∀ e', o = Some e' → cmp k e'.1 = Eq).
Proof.
  induction l as [|a l IH]; cbn.
  - destruct (f None) eqn:E; cbn; [|by intros ?%elem_of_nil]. intros ->%list_elem_of_singleton. right. by exists None.
  - destruct (cmp k a.1) eqn:Ec.
    + rewrite elem_of_app, elem_of_cons. intros [H|H]; [|by auto]. destruct (f (Some a)) eqn:E; [|by apply elem_of_nil in H].
      apply list_elem_of_singleton in H as ->. right. exists (Some a). split; [done|]. by intros e' [= <-].
    + rewrite elem_of_app. intros [H|H]; [|by auto]. destruct (f None) eqn:E; [|by apply elem_of_nil in H].
      apply list_elem_of_singleton in H as ->. right. by exists None.
    + rewrite !elem_of_cons. intros [-> | H]; [by auto|]. destruct (IH H); auto.
Qed.

Lemma alter_sorted f k l : keeps_key k f → key_sorted cmp l → key_sorted cmp (map_alter cmp f k l).
Proof.
  intros Hf. induction l as [|a l IH]; intros Hs; cbn.
  - destruct (f None); cbn; repeat constructor.
  - pose proof Hs as Hs0. apply key_sorted_cons in Hs as [Hs Hlt]. destruct (cmp k a.1) eqn:E.
    + destruct (f (Some a)) as [e|] eqn:Ef; cbn; [|done]. apply key_sorted_cons. split; [done|]. intros b Hb.
      pose proof (Hf (Some a) e ltac:(by intros ? [= <-]) Ef) as Ek.
      rewrite <- (ord_eq_l cmp _ _ b.1 Ek), (ord_eq_l cmp _ _ b.1 E). by apply Hlt.
    + destruct (f None) as [e|] eqn:Ef; cbn; [|done]. apply key_sorted_cons. split; [done|].
      pose proof (Hf None e ltac:(done) Ef) as Ek. intros b [-> | Hb]%elem_of_cons; rewrite <- (ord_eq_l cmp _ _ _ Ek); [done|].
      by apply (ord_lt_trans _ a.1); [|apply Hlt].
    + apply key_sorted_cons. split; [by apply IH|]. intros b [Hb|(o & Ho & Hk)]%elem_of_alter; [by apply Hlt|].
      pose proof (Hf o b Hk Ho) as Ek. rewrite <- (ord_eq_r cmp _ _ a.1 Ek). by apply (ord_gt_lt cmp).
Qed.

(** Looking up the altered key, and any other. *)
Lemma get_alter f k l : keeps_key k f → key_sorted cmp l →
  get_key_value cmp k (map_alter cmp f k l) = f (get_key_value cmp k l).
Proof.
  intros Hf Hs. assert (∀ o, (∀ e', o = Some e' → cmp k e'.1 = Eq) → ∀ l, (∀ b, b ∈ l → cmp k b.1 = Lt) →
    get_key_value cmp k (option_list (f o) ++ l) = f o) as Hput.
  { intros o Ho l' Hl'. destruct (f o) as [[k' v']|] eqn:E; cbn; [|by apply get_below].
    pose proof (Hf _ _ Ho E) as Ek. cbn in Ek. by rewrite Ek. }
  induction l as [|[k' v'] l IH]; cbn; [by rewrite <- (app_nil_r (option_list _)), Hput by (done || by intros ? ?%elem_of_nil)|].
  pose proof Hs as Hs0. apply key_sorted_cons in Hs as [Hs Hlt]. cbn in Hlt. destruct (cmp k k') eqn:E.
  - apply Hput; [by intros ? [= <-]|]. intros b Hb. rewrite (ord_eq_l cmp _ _ b.1 E). by apply Hlt.
  - apply Hput; [done|]. intros b [-> | Hb]%elem_of_cons; [done|]. by apply (ord_lt_trans _ k'); [|apply Hlt].
  - cbn. rewrite E. by apply IH.
Qed.
Lemma get_alter_ne f k j l : keeps_key k f → key_sorted cmp l → cmp k j ≠ Eq →
  get_key_value cmp j (map_alter cmp f k l) = get_key_value cmp j l.
Proof.
  intros Hf Hs Hne. pose proof (alter_sorted f k l Hf Hs) as Hs'.
  destruct (get_key_value cmp j l) as [e|] eqn:E.
  - apply get_some in E as [He Ee]; [|done]. apply get_some; [done|]. split; [|done].
    clear Hs'. induction l as [|a l IH]; [by apply elem_of_nil in He|]. apply key_sorted_cons in Hs as [Hs _]. cbn.
    destruct (cmp k a.1) eqn:Ec.
    + apply elem_of_app. right. apply elem_of_cons in He as [-> | He]; [|done].
      destruct Hne. rewrite (ord_eq_l cmp _ _ j Ec). by apply (ord_eq_sym cmp).
    + apply elem_of_app. by right.
    + apply elem_of_cons in He as [-> | He]; apply elem_of_cons; [by left|right; by apply IH].
  - apply get_none; [done|]. intros e [He|(o & Ho & Hk)]%elem_of_alter; [by apply (proj1 (get_none j l Hs) E)|].
    intros Ee. destruct Hne. pose proof (Hf _ _ Hk Ho) as Ek.
    rewrite (ord_eq_l cmp _ _ j Ek). by apply (ord_eq_sym cmp).
Qed.
End Laws.
