(* ===== verification/Pages.v ===== *)
(** Directories of pages: an ordered map kept as a list of non-empty pages, each
    a list of entries in key order.  What the copy-on-write map and the
    secondary indexes share: the search for the page of a key, and changes that
    stay within one page. *)
From S2P Require Import Prelude Ordering BTreeMap.

(** [slice::partition_point] on a slice partitioned by the predicate. *)
Fixpoint partition_point {A} (f : A → bool) (l : list A) : nat :=
  match l with
  | x :: l => if f x then S (partition_point f l) else O
  | [] => O
  end.

(** ** Positions in a list *)

Lemma lookup_mid {A} (l1 l2 : list A) x : (l1 ++ x :: l2) !! length l1 = Some x.
Proof. by rewrite lookup_app_r, Nat.sub_diag. Qed.
Lemma insert_mid {A} (l1 l2 : list A) x y : <[length l1 := y]> (l1 ++ x :: l2) = l1 ++ y :: l2.
Proof. by rewrite insert_app_r_alt, Nat.sub_diag. Qed.
Lemma delete_mid {A} (l1 l2 : list A) x : delete (length l1) (l1 ++ x :: l2) = l1 ++ l2.
Proof. by rewrite delete_middle. Qed.
Lemma drop_S_mid {A} (l1 l2 : list A) x : drop (S (length l1)) (l1 ++ x :: l2) = l2.
Proof. by rewrite drop_app_ge, Nat.sub_succ_l, Nat.sub_diag by lia. Qed.

Lemma partition_point_take {A} (f : A → bool) l x : x ∈ take (partition_point f l) l → f x = true.
Proof.
  induction l as [|y l IH]; cbn; [by intros ?%elem_of_nil|]. destruct (f y) eqn:E; cbn; [|by intros ?%elem_of_nil].
  intros [-> | H]%elem_of_cons; [done|]. by apply IH.
Qed.

(** ** Entries *)

Section Entries.
Context {K V : Type} (cmp : K → K → comparison).
Implicit Types (k : K) (v : V) (l : list (K * V)).

Definition opt_sum {A} (g : A → Z) (o : option A) : Z := match o with Some x => g x | None => 0 end.
Lemma zsum_alter (g : K * V → Z) f k l :
  zsum (g <$> map_alter cmp f k l) =
    zsum (g <$> l) - opt_sum g (get_key_value cmp k l) + opt_sum g (f (get_key_value cmp k l)).
Proof.
  induction l as [|[k' v'] l IH]; cbn.
  - destruct (f None); cbn; lia.
  - destruct (cmp k k').
    + destruct (f (Some (k', v'))); cbn; lia.
    + destruct (f None); cbn; lia.
    + cbn. rewrite IH. lia.
Qed.
Lemma zlen_zsum l : zlen l = zsum ((λ _, 1) <$> l).
Proof. induction l; [done|]. rewrite zlen_cons, IHl. done. Qed.
Lemma zlen_alter f k l :
  zlen (map_alter cmp f k l) =
    zlen l - opt_sum (λ _, 1) (get_key_value cmp k l) + opt_sum (λ _, 1) (f (get_key_value cmp k l)).
Proof. by rewrite !zlen_zsum, zsum_alter. Qed.

Lemma map_contains_get k l : map_contains cmp k l = true ↔ ∃ e, get_key_value cmp k l = Some e.
Proof. unfold map_contains. destruct (get_key_value cmp k l); naive_solver. Qed.

(** Altering a key that is absent, to nothing, changes nothing. *)
Lemma alter_absent f k l : f None = None → get_key_value cmp k l = None → map_alter cmp f k l = l.
Proof.
  intros Hf. induction l as [|[k' v'] l IH]; cbn; [by rewrite Hf|].
  destruct (cmp k k'); [done|by rewrite Hf|]. intros E. by rewrite IH.
Qed.

(** Only what is stored under the key matters. *)
Lemma alter_ext f g k l : f (get_key_value cmp k l) = g (get_key_value cmp k l) →
  map_alter cmp f k l = map_alter cmp g k l.
Proof.
  induction l as [|[k' v'] l IH]; cbn; [by intros ->|]. destruct (cmp k k'); [by intros ->..|]. intros E. by rewrite IH.
Qed.

Lemma zlen_update k f l : zlen (map_update cmp k f l) = zlen l.
Proof. unfold map_update. rewrite zlen_alter. destruct (get_key_value cmp k l); cbn; lia. Qed.
Lemma zlen_insert k v l : zlen (map_insert cmp k v l).2 ≤ 1 + zlen l.
Proof. cbn. rewrite zlen_alter. destruct (get_key_value cmp k l); cbn; lia. Qed.


Lemma alter_nonempty f k l : (∃ e, f (get_key_value cmp k l) = Some e) → map_alter cmp f k l ≠ [].
Proof.
  intros [e He] E. apply (f_equal zlen) in E. rewrite zlen_alter, He in E. cbn [opt_sum] in E.
  change (zlen []) with 0 in E. assert (opt_sum (λ _, 1) (get_key_value cmp k l) ≤ zlen l); [|lia]. clear. induction l as [|[k' v'] l IH]; [done|].
  rewrite zlen_cons. cbn [get_key_value]. pose proof (zlen_nonneg l). destruct (cmp k k'); cbn [opt_sum]; lia.
Qed.

Context `{!OrdLaws cmp}.
Lemma insert_last k v l : (∀ a, a ∈ l → cmp a.1 k = Lt) → (map_insert cmp k v l).2 = l ++ [(k, v)].
Proof. intros H. cbn. rewrite <- (app_nil_r l) at 1. by rewrite (alter_above cmp). Qed.
End Entries.

Section Pages.
Context {K V : Type} (cmp : K → K → comparison) `{!OrdLaws cmp}.
Implicit Types (k : K) (v : V) (l : list (K * V)) (ps qs rs : list (list (K * V))).

Lemma split_off_app k l : key_sorted cmp l →
  (map_split_off cmp k l).1 ++ (map_split_off cmp k l).2 = l.
Proof.
  cbn. induction l as [|e l IH]; intros Hs; [done|]. pose proof Hs as [Hs' Hlt]%key_sorted_cons. cbn.
  destruct (key_ltb cmp e.1 k) eqn:E; cbn; [by rewrite IH|].
  assert (List.filter (λ e, key_ltb cmp e.1 k) l = []) as Hn.
  { apply key_ltb_false in E; [|done]. clear IH Hs Hs'. induction l as [|b l IH]; [done|]. cbn.
    assert (key_ltb cmp b.1 k = false) as ->.
    { apply key_ltb_false; [done|]. rewrite (ord_le_lt_trans cmp k e.1 b.1); [done|done|]. apply Hlt, elem_of_cons; by left. }
    apply IH. intros c Hc. apply Hlt, elem_of_cons. by right. }
  rewrite Hn in *. cbn in *. by rewrite IH.
Qed.

Lemma sorted_le_last l e a : key_sorted cmp l → last l = Some e → a ∈ l → cmp a.1 e.1 ≠ Gt.
Proof.
  intros Hs Hl Ha. apply last_Some in Hl as [l' ->]. apply key_sorted_app in Hs as (_ & _ & H).
  apply elem_of_app in Ha as [Ha| ->%list_elem_of_singleton]; [|by rewrite (ord_refl cmp)].
  by rewrite (H a e Ha (list_elem_of_here _ _)).
Qed.

Lemma sorted_ge_head l e a : key_sorted cmp l → head l = Some e → a ∈ l → cmp e.1 a.1 ≠ Gt.
Proof.
  destruct l as [|x l]; [done|]. intros [_ H]%key_sorted_cons [= <-] [-> | Ha]%elem_of_cons; [by rewrite (ord_refl cmp)|].
  by rewrite (H a Ha).
Qed.

Lemma get_located k l1 l l2 : (∀ a, a ∈ l1 → cmp a.1 k = Lt) → (∀ b, b ∈ l2 → cmp k b.1 = Lt) →
  get_key_value cmp k (l1 ++ l ++ l2) = get_key_value cmp k l.
Proof. intros H1 H2. by rewrite (get_above cmp), (get_left cmp). Qed.

Lemma alter_located f k l1 l l2 : (∀ a, a ∈ l1 → cmp a.1 k = Lt) → (∀ b, b ∈ l2 → cmp k b.1 = Lt) →
  map_alter cmp f k (l1 ++ l ++ l2) = l1 ++ map_alter cmp f k l ++ l2.
Proof. intros H1 H2. by rewrite (alter_above cmp), (alter_left cmp). Qed.

Lemma split_off_at a k v b : key_sorted cmp (a ++ (k, v) :: b) →
  map_split_off cmp k (a ++ (k, v) :: b) = (a, (k, v) :: b).
Proof.
  intros Hs. apply key_sorted_app in Hs as (_ & [_ Hb]%key_sorted_cons & Ha).
  assert (∀ e, e ∈ a → key_ltb cmp e.1 k = true) as Ht.
  { intros e He. apply key_ltb_true. apply (Ha e (k, v) He), list_elem_of_here. }
  assert (∀ e, e ∈ (k, v) :: b → key_ltb cmp e.1 k = false) as Hf.
  { intros e [-> | He]%elem_of_cons; apply key_ltb_false; [done|by rewrite (ord_refl cmp)|done|].
    specialize (Hb e He). cbn in Hb. by rewrite Hb. }
  unfold map_split_off. rewrite !List.filter_app. f_equal.
  - rewrite (filter_all _ a Ht), (filter_nothing _ _ Hf). apply app_nil_r.
  - rewrite (filter_nothing _ a), (filter_all _ (_ :: _)); [done| |].
    + intros e He. by rewrite Hf.
    + intros e He. by rewrite Ht.
Qed.

(** A page that ends below a key. *)
Definition ends_below k l : bool := match last l with Some (x, _) => key_ltb cmp x k | None => false end.

(** The page a key belongs to: every earlier entry is below the key, every
    later page above it. *)
Lemma locate_page k ps : key_sorted cmp (List.concat ps) → Forall (λ p, p ≠ []) ps → ps ≠ [] →
  ∃ qs p rs, ps = qs ++ p :: rs ∧
    Nat.min (partition_point (ends_below k) ps) (length ps - 1) = length qs ∧
    (∀ a, a ∈ List.concat qs → cmp a.1 k = Lt) ∧ (∀ b, b ∈ List.concat rs → cmp k b.1 = Lt).
Proof.
  induction ps as [|p ps IH]; intros Hs HF Hne; [done|]. apply Forall_cons in HF as [Hp HF].
  cbn [List.concat] in Hs. apply key_sorted_app in Hs as (Hsp & Hs & Hlt).
  destruct (last p) as [[kl vl]|] eqn:El; [|by apply last_None in El].
  assert (ends_below k p = key_ltb cmp kl k) as Ek by (unfold ends_below; by rewrite El).
  cbn [partition_point]. rewrite Ek. destruct (key_ltb cmp kl k) eqn:E.
  - apply key_ltb_true in E. assert (∀ a, a ∈ p → cmp a.1 k = Lt) as Hbelow.
    { intros a Ha. apply (ord_le_lt_trans cmp a.1 kl k); [|done]. exact (sorted_le_last _ _ _ Hsp El Ha). }
    destruct ps as [|q ps].
    { exists [], p, []. split_and!; [done|done|by intros ? ?%elem_of_nil|by intros ? ?%elem_of_nil]. }
    destruct (IH Hs HF ltac:(done)) as (qs & p' & rs & -> & Hi & H1 & H2).
    exists (p :: qs), p', rs. split_and!; [done| | |done].
    + cbn [length] in *. rewrite length_app in *. cbn [length] in *. lia.
    + cbn [List.concat]. intros a [Ha|Ha]%elem_of_app; [by apply Hbelow|by apply H1].
  - apply key_ltb_false in E; [|done]. exists [], p, ps. split_and!; [done|done|by intros ? ?%elem_of_nil|].
    intros b Hb. apply (ord_le_lt_trans cmp k kl b.1); [done|].
    apply (Hlt (kl, vl) b); [|done]. apply last_Some in El as [l' ->]. apply elem_of_app. right. apply list_elem_of_here.
Qed.
End Pages.

Arguments split_off_app {K V cmp _} k l _.
Arguments sorted_le_last {K V cmp _} l e a _ _ _.
Arguments sorted_ge_head {K V cmp _} l e a _ _ _.
Arguments get_located {K V cmp _} k l1 l l2 _ _.
Arguments alter_located {K V cmp _} f k l1 l l2 _ _.
Arguments split_off_at {K V cmp _} a k v b _.
Arguments locate_page {K V cmp _} k ps _ _ _.
Arguments alter_nonempty {K V cmp} f k l _.
