(* ===== verification/IndexRange.v ===== *)
(** Ranges of a secondary index: crates/storage/src/relational/index_range.rs,
    with the scan of relational.rs and the two ways the index readers encode
    its keys.

    A scan is tested in two forms: on relational keys, for the resident index,
    and on their ordered encodings, for the pages on disk. *)
From Stdlib Require Import Btauto.
From S2P Require Import Prelude Ordering Decimal DecimalOrder RelationalValue OrderedKey BTreeMap.

(** ** Scans over keys *)

Inductive RelationalIndexScanDirection := Forward | Backward.

Record RelationalIndexBound := mk_index_bound { bound_key : RelationalKey; bound_inclusive : bool }.
Record RelationalIndexBounds := mk_index_bounds {
  bounds_lower : option RelationalIndexBound;
  bounds_upper : option RelationalIndexBound;
  bounds_empty : bool;
}.
Record RelationalIndexRangeScan := mk_index_scan {
  scan_prefix : RelationalKey;
  scan_bounds : option RelationalIndexBounds;
  scan_exclusive_bound : option RelationalKey;
  scan_direction : RelationalIndexScanDirection;
}.

Definition is_forward (d : RelationalIndexScanDirection) : bool := match d with Forward => true | Backward => false end.
Definition is_some_and {A} (o : option A) (f : A → bool) : bool := match o with Some a => f a | None => false end.

Definition prefix_cmp (key bound : RelationalKey) : comparison :=
  key_cmp (take (Nat.min (length key) (length bound)) key) bound.

Definition relational_key_has_prefix (key prefix : RelationalKey) : bool :=
  (length prefix <=? length key)%nat && key_eqb (take (length prefix) key) prefix.

Definition UNBOUNDED : RelationalIndexBounds := mk_index_bounds None None false.
Definition index_bounds (s : RelationalIndexRangeScan) : RelationalIndexBounds := default UNBOUNDED (scan_bounds s).

Abbreviation rkey_ltb := (key_ltb key_cmp).
Abbreviation rkey_leb := (key_leb key_cmp).

Definition lower_seek (s : RelationalIndexRangeScan) : RelationalKey :=
  let key := scan_prefix s in
  let key := match bounds_lower (index_bounds s) with
             | Some lower => if rkey_ltb key (bound_key lower) then bound_key lower else key
             | None => key
             end in
  match scan_exclusive_bound s with
  | Some cursor => if is_forward (scan_direction s) && rkey_ltb key cursor then cursor else key
  | None => key
  end.

Definition scan_before (s : RelationalIndexRangeScan) (key : RelationalKey) : bool :=
  rkey_ltb key (scan_prefix s)
  || is_some_and (bounds_lower (index_bounds s)) (λ bound,
       match prefix_cmp key (bound_key bound) with
       | Lt => true
       | Eq => negb (bound_inclusive bound)
       | Gt => false
       end)
  || (is_forward (scan_direction s)
      && is_some_and (scan_exclusive_bound s) (λ bound, rkey_leb key bound)).

Definition scan_after (s : RelationalIndexRangeScan) (key : RelationalKey) : bool :=
  (rkey_leb (scan_prefix s) key && negb (relational_key_has_prefix key (scan_prefix s)))
  || is_some_and (bounds_upper (index_bounds s)) (λ bound,
       match prefix_cmp key (bound_key bound) with
       | Gt => true
       | Eq => negb (bound_inclusive bound)
       | Lt => false
       end)
  || (negb (is_forward (scan_direction s))
      && is_some_and (scan_exclusive_bound s) (λ bound, rkey_leb bound key)).

Definition scan_matches (s : RelationalIndexRangeScan) (key : RelationalKey) : bool :=
  negb (bounds_empty (index_bounds s)) && negb (scan_before s key) && negb (scan_after s key).

(** ** Ranges of encoded keys *)

Abbreviation bytes_ltb := (key_ltb lex).
Abbreviation bytes_leb := (key_leb lex).

(** The loop of [successor] pops from the end: it runs on the reversed bytes. *)
Fixpoint successor_loop (popped : bytes) : option bytes :=
  match popped with
  | [] => None
  | last :: next =>
      match Prelude.checked_add u8_max last 1 with
      | Some last => Some (reverse (last :: next))
      | None => successor_loop next
      end
  end.
Definition successor (prefix : bytes) : option bytes := successor_loop (reverse prefix).

Record EncodedRelationalIndexRange := mk_range {
  range_lower : bytes;
  range_lower_inclusive : bool;
  range_upper : option bytes;
  range_empty : bool;
}.

Definition include_lower (key : bytes) (inclusive : bool) (r : EncodedRelationalIndexRange) : EncodedRelationalIndexRange :=
  match lex key (range_lower r) with
  | Gt => mk_range key inclusive (range_upper r) (range_empty r)
  | Eq => mk_range (range_lower r) (range_lower_inclusive r && inclusive) (range_upper r) (range_empty r)
  | Lt => r
  end.
Definition include_upper (key : bytes) (r : EncodedRelationalIndexRange) : EncodedRelationalIndexRange :=
  if match range_upper r with None => true | Some upper => bytes_ltb key upper end
  then mk_range (range_lower r) (range_lower_inclusive r) (Some key) (range_empty r)
  else r.
Definition set_empty (b : bool) (r : EncodedRelationalIndexRange) : EncodedRelationalIndexRange :=
  mk_range (range_lower r) (range_lower_inclusive r) (range_upper r) b.

Definition range_before (r : EncodedRelationalIndexRange) (key : bytes) : bool :=
  bytes_ltb key (range_lower r) || (negb (range_lower_inclusive r) && bool_decide (key = range_lower r)).
Definition range_after (r : EncodedRelationalIndexRange) (key : bytes) : bool :=
  is_some_and (range_upper r) (λ upper, bytes_leb upper key).
Definition range_contains (r : EncodedRelationalIndexRange) (key : bytes) : bool :=
  negb (range_empty r) && negb (range_before r key) && negb (range_after r key).
Definition range_overlaps (r : EncodedRelationalIndexRange) (lower upper : bytes) : bool :=
  negb (range_empty r) && negb (range_before r upper) && negb (range_after r lower).

Section EncodedBounds.
Context {E : Type} (encode : RelationalKey → result bytes E).

Definition encoded_bounds (s : RelationalIndexRangeScan) : result EncodedRelationalIndexRange E :=
  let b := index_bounds s in
  let constrained := match bounds_lower b, bounds_upper b with
                     | None, None => bounds_empty b
                     | _, _ => true
                     end in
  let? prefix := (match scan_prefix s with
                  | [] => if constrained then Ok [] else encode []
                  | _ => encode (scan_prefix s)
                  end) in
  let range := mk_range prefix true (successor prefix) (bounds_empty b) in
  let? range := (match bounds_lower b with
                 | None => Ok range
                 | Some bound =>
                     let? key := encode (bound_key bound) in
                     Ok (if bound_inclusive bound then include_lower key true range
                         else match successor key with
                              | Some next => include_lower next true range
                              | None => set_empty true range
                              end)
                 end) in
  let? range := (match bounds_upper b with
                 | None => Ok range
                 | Some bound =>
                     let? key := encode (bound_key bound) in
                     Ok (match (if bound_inclusive bound then successor key else Some key) with
                         | Some upper => include_upper upper range
                         | None => range
                         end)
                 end) in
  let? range := (match scan_exclusive_bound s with
                 | None => Ok range
                 | Some cursor =>
                     let? key := encode cursor in
                     Ok (match scan_direction s with
                         | Forward => include_lower key false range
                         | Backward => include_upper key range
                         end)
                 end) in
  Ok (set_empty (range_empty range
                 || is_some_and (range_upper range) (λ upper, bytes_leb upper (range_lower range))) range).
End EncodedBounds.

(** ** The encoders the readers pass *)

(** [RelationalIndexShadowError], as far as an encoding raises it. *)
Inductive RelationalIndexShadowError :=
  | ShadowCorrupt (error : OrderedRelationalKeyError)
  | ShadowAdmission (message : string) (error : option OrderedRelationalKeyError) (args : list Z).

Definition encode_relational_key (key : RelationalKey) : result bytes RelationalIndexShadowError :=
  map_err ShadowCorrupt (encode_ordered_relational_key key).
Definition encode_lookup_key (max_key_bytes : Z) (key : RelationalKey) : result bytes RelationalIndexShadowError :=
  let? encoded := map_err (λ error,
      match error with
      | ShadowCorrupt message =>
          ShadowAdmission "relational index lookup key is not encodable: {message}" (Some message) []
      | _ => error
      end) (encode_relational_key key) in
  if max_key_bytes <? zlen encoded
  then Err (ShadowAdmission "relational index lookup key contains {} encoded bytes, exceeding limit {}" None
              [zlen encoded; max_key_bytes])
  else Ok encoded.

(** ** Comparing up to a prefix *)

Lemma take_min {A} (a : list A) n : take (Nat.min (length a) n) a = take n a.
Proof. destruct (Nat.min_spec (length a) n) as [[? ->]|[? ->]]; [|done]. by rewrite !take_ge by lia. Qed.
Lemma prefix_cmp_list k b : prefix_cmp k b = list_prefix_cmp value_cmp k b.
Proof. unfold prefix_cmp. by rewrite take_min. Qed.

Lemma ltb_prefix k b : rkey_ltb k b = match prefix_cmp k b with Lt => true | _ => false end.
Proof.
  rewrite prefix_cmp_list. unfold key_ltb. pose proof (list_prefix_cmp_lt value_cmp k b) as H.
  change (list_cmp value_cmp k b) with (key_cmp k b) in H.
  destruct (key_cmp k b), (list_prefix_cmp value_cmp k b); try done; naive_solver.
Qed.

Lemma key_cmp_length a b : key_cmp a b = Eq → length a = length b.
Proof.
  revert b; induction a as [|x a IH]; intros [|y b]; try done. unfold key_cmp. cbn [list_cmp].
  destruct (value_cmp x y); try done. cbn. intros H. f_equal. by apply IH.
Qed.

Lemma has_prefix_cmp k b : relational_key_has_prefix k b = match prefix_cmp k b with Eq => true | _ => false end.
Proof.
  unfold relational_key_has_prefix. rewrite prefix_cmp_list. unfold list_prefix_cmp. fold (key_cmp (take (length b) k) b).
  pose proof (key_eqb_cmp (take (length b) k) b) as He. pose proof (key_cmp_length (take (length b) k) b) as Hl.
  rewrite length_take in Hl.
  destruct (key_cmp (take (length b) k) b); [|destruct (key_eqb _ _); [naive_solver|by rewrite andb_false_r]..].
  rewrite (proj2 He eq_refl), andb_true_r. apply Nat.leb_le. specialize (Hl eq_refl). lia.
Qed.

(** The part of [after] on the equality prefix. *)
Lemma past_prefix k b :
  rkey_leb b k && negb (relational_key_has_prefix k b) = match prefix_cmp k b with Gt => true | _ => false end.
Proof.
  rewrite key_leb_negb, ltb_prefix, has_prefix_cmp by apply _. by destruct (prefix_cmp k b).
Qed.

Lemma prefix_cmp_mono a b bound : key_cmp a b ≠ Gt →
  (prefix_cmp b bound = Lt → prefix_cmp a bound = Lt) ∧ (prefix_cmp a bound = Gt → prefix_cmp b bound = Gt) ∧
  (prefix_cmp b bound ≠ Gt → prefix_cmp a bound ≠ Gt) ∧ (prefix_cmp a bound ≠ Lt → prefix_cmp b bound ≠ Lt).
Proof.
  intros H. rewrite !prefix_cmp_list. unfold list_prefix_cmp.
  pose proof (list_cmp_take value_cmp (length bound) a b H) as Ht. revert Ht.
  generalize (take (length bound) a), (take (length bound) b). fold key_cmp. intros x y Hxy.
  assert (prefix_lt : ∀ c, key_cmp y c = Lt → key_cmp x c = Lt) by (intros c; by apply (ord_le_lt_trans key_cmp)).
  assert (prefix_gt : ∀ c, key_cmp x c = Gt → key_cmp y c = Gt).
  { intros c. rewrite !(ord_gt_lt key_cmp). intros Hc. by apply (ord_lt_le_trans key_cmp c x y). }
  split_and!; [apply prefix_lt|apply prefix_gt| |]; intros H1 H2; apply H1; auto.
Qed.

(** Before is closed downwards and after upwards, as the searches over pages
    and the early exits require. *)
Lemma rkey_ltb_mono a b c : key_cmp a b ≠ Gt → rkey_ltb b c = true → rkey_ltb a c = true.
Proof. rewrite !key_ltb_true. apply (ord_le_lt_trans key_cmp). Qed.
Lemma rkey_leb_mono a b c : key_cmp a b ≠ Gt → rkey_leb b c = true → rkey_leb a c = true.
Proof. rewrite !key_leb_true. apply (ord_trans key_cmp). Qed.
Lemma rkey_leb_mono_r a b c : key_cmp a b ≠ Gt → rkey_leb c a = true → rkey_leb c b = true.
Proof. rewrite !key_leb_true. intros H1 H2. by apply (ord_trans key_cmp c a b). Qed.

Lemma scan_before_mono s a b : key_cmp a b ≠ Gt → scan_before s b = true → scan_before s a = true.
Proof.
  intros Hab. unfold scan_before. rewrite !orb_true_iff, !andb_true_iff.
  intros [[H|H]|[H1 H2]].
  - left; left. by apply (rkey_ltb_mono a b).
  - left; right. destruct (bounds_lower _) as [[bk incl]|]; [|done]. cbn in *.
    destruct (prefix_cmp_mono a b bk Hab) as (Hlt & _ & Hgt & _).
    destruct (prefix_cmp b bk); [|by rewrite Hlt|done].
    destruct (prefix_cmp a bk); [done|done|by destruct Hgt].
  - right. split; [done|]. destruct (scan_exclusive_bound s); [|done]. cbn in *. by apply (rkey_leb_mono a b).
Qed.
Lemma scan_after_mono s a b : key_cmp a b ≠ Gt → scan_after s a = true → scan_after s b = true.
Proof.
  intros Hab. unfold scan_after. rewrite !past_prefix, !orb_true_iff, !andb_true_iff.
  intros [[H|H]|[H1 H2]].
  - left; left. destruct (prefix_cmp_mono a b (scan_prefix s) Hab) as (_ & Hgt & _).
    destruct (prefix_cmp a (scan_prefix s)); try done. by rewrite Hgt.
  - left; right. destruct (bounds_upper _) as [[bk incl]|]; [|done]. cbn in *.
    destruct (prefix_cmp_mono a b bk Hab) as (_ & Hgt & _ & Hlt).
    destruct (prefix_cmp a bk); [|done|by rewrite Hgt].
    destruct (prefix_cmp b bk); [done|by destruct Hlt|done].
  - right. split; [done|]. destruct (scan_exclusive_bound s); [|done]. cbn in *. by apply (rkey_leb_mono_r a b).
Qed.

(** A key that is not before the scan is not below the seek key. *)
Lemma lower_seek_before s k : scan_before s k = false → rkey_leb (lower_seek s) k = true.
Proof.
  unfold scan_before, lower_seek. rewrite !orb_false_iff, andb_false_iff. intros [[Hp Hl] Hc].
  assert (∀ x y, rkey_leb x k = true → rkey_leb y k = true → rkey_leb (if rkey_ltb x y then y else x) k = true) as Hmax
    by (intros x y ? ?; by destruct (rkey_ltb x y)).
  assert (rkey_leb (scan_prefix s) k = true) as Hpre by (by rewrite key_leb_negb, Hp by apply _).
  assert (∀ b, bounds_lower (index_bounds s) = Some b → rkey_leb (bound_key b) k = true) as Hlow.
  { intros b Eb. rewrite Eb in Hl. cbn in Hl. rewrite key_leb_negb, ltb_prefix by apply _.
    by destruct (prefix_cmp k (bound_key b)). }
  set (key := match bounds_lower (index_bounds s) with Some _ => _ | None => _ end).
  assert (rkey_leb key k = true) as Hkey.
  { unfold key. destruct (bounds_lower (index_bounds s)); [|done]. apply Hmax; [done|by apply Hlow]. }
  destruct (scan_exclusive_bound s) as [cursor|]; [|done]. destruct (is_forward _); [|done]. cbn in *.
  destruct Hc as [|Hc]; [done|]. apply Hmax; [done|]. rewrite key_leb_negb by apply _.
  unfold key_leb in Hc. unfold key_ltb. by destruct (key_cmp k cursor).
Qed.

(** ** The successor of a prefix *)

Fixpoint successor_front (p : bytes) : option bytes :=
  match p with
  | [] => None
  | b :: p =>
      match successor_front p with
      | Some s => Some (b :: s)
      | None => if b + 1 <=? 255 then Some [b + 1] else None
      end
  end.
Lemma successor_loop_app popped p :
  successor_loop (popped ++ [p]) =
    match successor_loop popped with
    | Some s => Some (p :: s)
    | None => if p + 1 <=? 255 then Some [p + 1] else None
    end.
Proof.
  induction popped as [|b popped IH]; cbn; unfold Prelude.checked_add; change u8_max with 255.
  - by destruct (p + 1 <=? 255).
  - destruct (b + 1 <=? 255); [|done]. f_equal. apply (reverse_snoc (b + 1 :: popped)).
Qed.
Lemma successor_spec p : successor p = successor_front p.
Proof.
  unfold successor. induction p as [|b p IH]; [done|]. rewrite reverse_cons, successor_loop_app, IH. done.
Qed.

(** What is below the successor: the byte strings that the prefix is not below. *)
Lemma successor_below p e : Forall is_byte e →
  match successor p with
  | Some s => bytes_ltb e s
  | None => true
  end = match list_prefix_cmp Z.compare e p with Gt => false | _ => true end.
Proof.
  rewrite successor_spec. unfold list_prefix_cmp, key_ltb. intros He. revert p.
  induction He as [|x e Hx He IH]; intros [|b p]; [done| |done|]; cbn [successor_front length take list_cmp].
  - destruct (successor_front p); [done|]. by destruct (b + 1 <=? 255).
  - specialize (IH p). unfold is_byte in Hx.
    destruct (successor_front p) as [s|]; cbn [list_cmp].
    + destruct (x ?= b) eqn:E; cbn [cmp_then]; [done|done|done].
    + destruct (Z.leb_spec (b + 1) 255).
      * cbn [list_cmp]. destruct (Z.compare_spec x b) as [-> | |]; cbn [cmp_then].
        -- rewrite (proj2 (Z.compare_lt_iff b (b + 1))) by lia. done.
        -- rewrite (proj2 (Z.compare_lt_iff x (b + 1))) by lia. done.
        -- destruct (Z.compare_spec x (b + 1)); [by destruct e|lia|done].
      * destruct (Z.compare_spec x b); cbn [cmp_then]; [done|done|lia].
Qed.

(** ** Encodings are bytes, and compare up to a prefix like the keys *)

Section Encoding.
Context `{TR : TimestampRange}.

Lemma is_byte_ordered d : wf d → Forall is_byte (to_ordered_bytes d).
Proof.
  intros Hd. destruct (decide (coefficient d = 0)) as [E|E].
  - unfold to_ordered_bytes. rewrite E. apply (bool_decide_unpack (Forall (λ z, 0 ≤ z < 256) _)). by vm_compute.
  - destruct (to_ordered_bytes_body d Hd E) as (e & ds & Hob & ->). pose proof (ob_exponent _ _ _ Hob).
    assert (Forall (λ z, 0 ≤ z < 10) ds) as Hds by apply (ob_digits _ _ _ Hob).
    unfold is_byte. destruct (_ <? _); rewrite ?fmap_cons; repeat (apply Forall_cons; split; [unfold not_u8; lia|]);
      rewrite ?Forall_fmap; (eapply Forall_impl; [exact Hds|]); intros z; unfold compose, not_u8; cbn; lia.
Qed.

Lemma is_byte_escape bs : Forall is_byte bs → Forall is_byte (escape bs).
Proof.
  unfold escape, is_byte. induction 1 as [|b bs Hb _ IH]; [done|]. cbn [List.flat_map]. apply Forall_app. split; [|done].
  unfold escape_byte. destruct (b =? 0); repeat constructor; lia.
Qed.

Lemma encode_value_bytes v e :
  relational_value_wf v → encode_ordered_relational_value v = Ok e → Forall is_byte e.
Proof.
  intros Hv He. assert (∀ t r, 0 ≤ t < 256 → Forall is_byte r → Forall is_byte (t :: r)) as Hc by (by constructor).
  destruct v; cbn [encode_ordered_relational_value relational_value_wf] in He, Hv; try discriminate He;
    injection He as <-; rewrite ?escaped_spec; try (apply Hc; [lia|]); try apply is_byte_be_bytes.
  - constructor.
  - apply Hc; [|constructor]. destruct b; cbn; lia.
  - by apply is_byte_ordered.
  - apply Forall_app. split; [apply is_byte_escape, Hv|]. by repeat (apply Hc; [lia|]).
  - apply Forall_app. split; [by apply is_byte_escape|]. by repeat (apply Hc; [lia|]).
  - apply Hv.
Qed.
Lemma encode_values_bytes k e :
  Forall relational_value_wf k → encode_ordered_values k = Ok e → Forall is_byte e.
Proof.
  intros Hk. revert e. induction Hk as [|v k Hv _ IH]; intros e; cbn; [by intros [= <-]|].
  intros (e1 & E1 & (e2 & E2 & [= <-])%result_bind_ok)%result_bind_ok. apply Forall_app.
  split; [by eapply encode_value_bytes|by apply IH].
Qed.

(** A comparison that no extension changes is one of prefixes too. *)
Lemma robust_prefix_cmp e f c r s : c ≠ Eq → (∀ r s, lex (e ++ r) (f ++ s) = c) →
  list_prefix_cmp Z.compare (e ++ r) (f ++ s) = c.
Proof.
  intros Hc H. pose proof (H r s) as Hrs. unfold list_prefix_cmp. set (a := e ++ r) in *. set (b := f ++ s) in *.
  assert (∀ a b, lex (take (length b) a) b = lex a b ∨ ∃ t, a = b ++ t) as Hpre.
  { clear. intros a. induction a as [|x a IH]; intros [|y b]; [by left..|by right; exists (x :: a)|]. cbn.
    destruct (Z.compare_spec x y) as [-> | |]; cbn; [|by left..].
    destruct (IH b) as [-> |[t ->]]; [by left|by right; exists t]. }
  destruct (Hpre a b) as [-> |[t Ht]]; [done|]. clear Hpre.
  - exfalso. assert (∀ l : bytes, lex l (l ++ [0]) = Lt) as Hlt.
    { intros l. induction l as [|x l IH]; [done|]. cbn. by rewrite Z.compare_refl. }
    assert (f ++ s ++ t = a) as Ea by (rewrite Ht; unfold b; by rewrite <- (app_assoc f s t)).
    pose proof (H r (s ++ t ++ [0])) as H1. pose proof (H (r ++ [0]) (s ++ t)) as H2.
    rewrite Ea, app_assoc in H2. rewrite (app_assoc s t), (app_assoc f), Ea in H1. fold a in H1, H2.
    rewrite (proj2 (ord_gt_lt lex (a ++ [0]) a) (Hlt a)) in H2. rewrite Hlt in H1. congruence.
Qed.

Lemma encode_value_prefix v w e f r s :
  relational_value_wf v → relational_value_wf w →
  encode_ordered_relational_value v = Ok e → encode_ordered_relational_value w = Ok f →
  list_prefix_cmp Z.compare (e ++ r) (f ++ s) = cmp_then (value_cmp v w) (list_prefix_cmp Z.compare r s).
Proof.
  intros Hv Hw He Hf. pose proof (λ r s, encode_value_cmp v w e f r s Hv Hw He Hf) as H.
  destruct (value_cmp v w) eqn:E; cbn [cmp_then] in *.
  2, 3: by apply robust_prefix_cmp.
  assert (e = f) as ->.
  { specialize (H [] []). rewrite !app_nil_r in H. apply lex_eq; exact H. }
  unfold list_prefix_cmp. rewrite length_app. clear. induction f as [|b f IH]; [done|]. cbn. by rewrite Z.compare_refl.
Qed.

Lemma encode_values_prefix k b e f :
  Forall relational_value_wf k → Forall relational_value_wf b →
  encode_ordered_values k = Ok e → encode_ordered_values b = Ok f →
  list_prefix_cmp Z.compare e f = prefix_cmp k b.
Proof.
  rewrite prefix_cmp_list. intros Hk Hb; revert k e f Hk. induction Hb as [|w b Hw _ IH]; intros k e f Hk He Hf; cbn in Hf.
  { by injection Hf as <-. }
  apply result_bind_ok in Hf as (f1 & Ef & (f2 & Ef2 & [= <-])%result_bind_ok).
  destruct Hk as [|v k Hv Hk]; cbn in He.
  - injection He as <-. pose proof (encode_value_nonempty _ _ Ef). by destruct f1.
  - apply result_bind_ok in He as (e1 & Ee & (e2 & Ee2 & [= <-])%result_bind_ok).
    rewrite (encode_value_prefix v w e1 f1) by done. unfold list_prefix_cmp at 2. cbn [length take list_cmp]. f_equal.
    by apply IH.
Qed.
End Encoding.

(** ** Narrowing a range *)

Lemma include_lower_before key inclusive r e :
  range_before (include_lower key inclusive r) e =
    range_before r e || (if inclusive then bytes_ltb e key else bytes_leb e key).
Proof.
  assert (∀ l i, range_before (mk_range l i (range_upper r) (range_empty r)) e
                 = if i then bytes_ltb e l else bytes_leb e l) as Hb.
  { intros l i. unfold range_before, key_leb, key_ltb. cbn [range_lower range_lower_inclusive].
    destruct i; cbn [negb andb]; [by rewrite orb_false_r|].
    destruct (lex e l) eqn:E; [|done|].
    - by rewrite (lex_eq _ _ E), bool_decide_eq_true_2.
    - rewrite bool_decide_eq_false_2; [done|]. intros ->. by rewrite (ord_refl lex) in E. }
  replace (range_before r e) with (range_before (mk_range (range_lower r) (range_lower_inclusive r) (range_upper r) (range_empty r)) e)
    by (by destruct r).
  unfold include_lower. destruct (lex key (range_lower r)) eqn:E.
  - apply lex_eq in E as ->. rewrite !Hb. unfold key_leb, key_ltb.
    destruct (range_lower_inclusive r), inclusive; cbn [andb]; by destruct (lex e _).
  - replace (range_before r e) with (range_before (mk_range (range_lower r) (range_lower_inclusive r) (range_upper r) (range_empty r)) e)
      by (by destruct r). rewrite !Hb. unfold key_leb, key_ltb.
    destruct (lex e key) eqn:Ee.
    1,2: rewrite (ord_le_lt_trans lex e key (range_lower r)) by (done || by rewrite Ee);
      by destruct inclusive, (range_lower_inclusive r).
    by destruct inclusive; rewrite orb_false_r.
  - rewrite !Hb. unfold key_leb, key_ltb. apply (ord_gt_lt lex) in E.
    destruct (lex e (range_lower r)) eqn:Ee.
    1,2: rewrite (ord_le_lt_trans lex e (range_lower r) key) by (done || by rewrite Ee);
      by destruct inclusive, (range_lower_inclusive r).
    by destruct (range_lower_inclusive r).
Qed.
Lemma include_lower_rest key inclusive r :
  range_upper (include_lower key inclusive r) = range_upper r ∧ range_empty (include_lower key inclusive r) = range_empty r.
Proof. unfold include_lower. by destruct (lex _ _). Qed.

Lemma include_upper_after key r e : range_after (include_upper key r) e = range_after r e || bytes_leb key e.
Proof.
  unfold include_upper, range_after. destruct (range_upper r) as [u|] eqn:E; [|done].
  destruct (bytes_ltb key u) eqn:El; cbn; rewrite ?E; cbn; symmetry.
  - destruct (bytes_leb u e) eqn:Eu; [|done]. apply key_ltb_true in El. apply key_leb_true in Eu.
    cbn. symmetry. apply key_leb_true. by rewrite (ord_lt_le_trans lex key u e).
  - destruct (bytes_leb key e) eqn:Ek; [|by rewrite orb_false_r]. rewrite orb_true_r.
    symmetry. apply key_leb_true. apply key_leb_true in Ek. apply key_ltb_false in El; [|apply _].
    by apply (ord_trans lex u key e).
Qed.
Lemma include_upper_rest key r :
  range_before (include_upper key r) = range_before r ∧ range_empty (include_upper key r) = range_empty r.
Proof. unfold include_upper. by destruct (match range_upper r with None => _ | Some _ => _ end). Qed.

(** An empty interval holds nothing. *)
Lemma crossed_range r e :
  is_some_and (range_upper r) (λ upper, bytes_leb upper (range_lower r)) = true →
  range_before r e || range_after r e = true.
Proof.
  unfold range_before, range_after. destruct (range_upper r) as [u|]; [|done]. cbn. rewrite !orb_true_iff, !key_leb_true.
  intros Hu. destruct (bytes_ltb e (range_lower r)) eqn:E; [by left; left|right].
  apply key_ltb_false in E; [|apply _]. by apply (ord_trans lex u (range_lower r) e).
Qed.

(** A key outside a range, and what each narrowing adds. *)
Definition outside (r : EncodedRelationalIndexRange) (e : bytes) : bool :=
  range_empty r || range_before r e || range_after r e.
Lemma contains_outside r e : range_contains r e = negb (outside r e).
Proof. unfold range_contains, outside. by rewrite !negb_orb. Qed.

Lemma outside_lower key inclusive r e :
  outside (include_lower key inclusive r) e = outside r e || (if inclusive then bytes_ltb e key else bytes_leb e key).
Proof.
  unfold outside. destruct (include_lower_rest key inclusive r) as [Hu He]. rewrite include_lower_before, He.
  unfold range_after. rewrite Hu. destruct (if inclusive then _ else _); by rewrite ?orb_true_r, ?orb_false_r.
Qed.
Lemma outside_upper key r e : outside (include_upper key r) e = outside r e || bytes_leb key e.
Proof.
  unfold outside. destruct (include_upper_rest key r) as [Hb He]. rewrite include_upper_after, Hb, He. apply orb_assoc.
Qed.
Lemma outside_empty r e : outside (set_empty true r) e = true.
Proof. done. Qed.
Lemma outside_crossed r e :
  outside (set_empty (range_empty r || is_some_and (range_upper r) (λ upper, bytes_leb upper (range_lower r))) r) e
  = outside r e.
Proof.
  unfold outside. change (range_before (set_empty ?b r) e) with (range_before r e).
  change (range_after (set_empty ?b r) e) with (range_after r e). cbn [set_empty range_empty].
  pose proof (crossed_range r e) as H. destruct (is_some_and _ _); [|by rewrite orb_false_r].
  rewrite <- !orb_assoc, (H eq_refl), !orb_true_r. done.
Qed.

(** ** The two forms of a scan agree *)

Section Exact.
Context `{TR : TimestampRange} {E : Type} (encode : RelationalKey → result bytes E).
(** The encoder of a reader may refuse keys, and writes ordered encodings. *)
Hypothesis encode_ordered : ∀ k e, encode k = Ok e → encode_ordered_relational_key k = Ok e.

Definition key_wf (k : RelationalKey) : Prop := Forall relational_value_wf k.
Definition scan_wf (s : RelationalIndexRangeScan) : Prop :=
  key_wf (scan_prefix s) ∧
  (∀ b, bounds_lower (index_bounds s) = Some b → key_wf (bound_key b)) ∧
  (∀ b, bounds_upper (index_bounds s) = Some b → key_wf (bound_key b)) ∧
  (∀ c, scan_exclusive_bound s = Some c → key_wf c).

Lemma encode_values_of k e : encode k = Ok e → encode_ordered_values k = Ok e.
Proof. by intros [_ H]%encode_ordered%encode_key_values. Qed.

Section Key.
Context (k : RelationalKey) (e : bytes) (Hk : key_wf k) (He : encode_ordered_values k = Ok e).

Lemma encoded_cmp b f : key_wf b → encode_ordered_values b = Ok f →
  bytes_ltb e f = match prefix_cmp k b with Lt => true | _ => false end ∧
  bytes_leb e f = rkey_leb k b ∧ bytes_leb f e = rkey_leb b k.
Proof.
  intros Hb Hf. rewrite <- ltb_prefix. unfold key_ltb, key_leb.
  rewrite (encode_values_cmp k b e f), (encode_values_cmp b k f e) by done. done.
Qed.
Lemma encoded_successor b f : key_wf b → encode_ordered_values b = Ok f →
  match successor f with Some s => bytes_ltb e s | None => true end =
  match prefix_cmp k b with Gt => false | _ => true end.
Proof.
  intros Hb Hf. rewrite successor_below by (exact (encode_values_bytes k e Hk He)).
  by rewrite (encode_values_prefix k b e f) by done.
Qed.

Lemma stage_prefix b f empty : key_wf b → encode_ordered_values b = Ok f →
  outside (mk_range f true (successor f) empty) e =
    empty || rkey_ltb k b || (rkey_leb b k && negb (relational_key_has_prefix k b)).
Proof.
  intros Hb Hf. destruct (encoded_cmp b f Hb Hf) as (Hlt & _ & _). pose proof (encoded_successor b f Hb Hf) as Hs.
  unfold outside, range_before, range_after. cbn [range_empty range_lower range_lower_inclusive range_upper negb andb].
  rewrite orb_false_r, Hlt, ltb_prefix, past_prefix. f_equal. destruct (successor f) as [s|] in Hs |- *; cbn [is_some_and].
  - rewrite key_leb_negb, Hs by apply _. by destruct (prefix_cmp k b).
  - by destruct (prefix_cmp k b).
Qed.
Lemma stage_lower b f inclusive r : key_wf b → encode_ordered_values b = Ok f →
  outside (if inclusive : bool then include_lower f true r
           else match successor f with Some next => include_lower next true r | None => set_empty true r end) e =
    outside r e || match prefix_cmp k b with Lt => true | Eq => negb inclusive | Gt => false end.
Proof.
  intros Hb Hf. destruct (encoded_cmp b f Hb Hf) as (Hlt & _ & _). pose proof (encoded_successor b f Hb Hf) as Hs.
  destruct inclusive; [rewrite outside_lower, Hlt; by destruct (prefix_cmp k b)|].
  destruct (successor f) as [s|] in Hs |- *; [rewrite outside_lower, Hs; by destruct (prefix_cmp k b)|].
  rewrite outside_empty. destruct (prefix_cmp k b); by rewrite ?orb_true_r.
Qed.
Lemma stage_upper b f inclusive r : key_wf b → encode_ordered_values b = Ok f →
  outside (match (if inclusive : bool then successor f else Some f) with
           | Some upper => include_upper upper r | None => r end) e =
    outside r e || match prefix_cmp k b with Gt => true | Eq => negb inclusive | Lt => false end.
Proof.
  intros Hb Hf. destruct (encoded_cmp b f Hb Hf) as (Hlt & _ & _). pose proof (encoded_successor b f Hb Hf) as Hs.
  destruct inclusive.
  - destruct (successor f) as [s|] in Hs |- *; [rewrite outside_upper, key_leb_negb, Hs by apply _; by destruct (prefix_cmp k b)|].
    destruct (prefix_cmp k b); by rewrite ?orb_false_r.
  - rewrite outside_upper, key_leb_negb, Hlt by apply _. by destruct (prefix_cmp k b).
Qed.
Lemma stage_cursor c f d r : key_wf c → encode_ordered_values c = Ok f →
  outside (match d with Forward => include_lower f false r | Backward => include_upper f r end) e =
    outside r e || (is_forward d && rkey_leb k c) || (negb (is_forward d) && rkey_leb c k).
Proof.
  intros Hc Hf. destruct (encoded_cmp c f Hc Hf) as (_ & Hle & Hge).
  destruct d; cbn; rewrite ?outside_lower, ?outside_upper, ?Hle, ?Hge; by rewrite ?orb_false_r.
Qed.
End Key.

(** The encoded form of a scan contains an encoded key exactly when the scan
    matches the key. *)
Lemma encoded_bounds_exact s k e range :
  scan_wf s → key_wf k → encode_ordered_values k = Ok e → encoded_bounds encode s = Ok range →
  range_contains range e = scan_matches s k.
Proof.
  intros (Hp & Hl & Hu & Hc) Hk He. unfold encoded_bounds, scan_matches, scan_before, scan_after.
  destruct (index_bounds s) as [lower upper empty]. cbn [bounds_lower bounds_upper bounds_empty] in *.
  intros (p & Ep & H)%result_bind_ok.
  assert (encode_ordered_values (scan_prefix s) = Ok p) as Hpv.
  { revert Ep. destruct (scan_prefix s); [|by apply encode_values_of].
    destruct lower, upper, empty; (by intros [= <-]) || apply encode_values_of. }
  pose proof (stage_prefix k e Hk He _ p empty Hp Hpv) as H0. revert H H0.
  generalize (mk_range p true (successor p) empty). intros r0 H H0.
  apply result_bind_ok in H as (r1 & E1 & H).
  assert (outside r1 e = outside r0 e || is_some_and lower (λ b,
    match prefix_cmp k (bound_key b) with Lt => true | Eq => negb (bound_inclusive b) | Gt => false end)) as H1.
  { destruct lower as [b|]; cbn [is_some_and]; [|injection E1 as <-; by rewrite orb_false_r].
    apply result_bind_ok in E1 as (f & Ef%encode_values_of & [= <-]). by rewrite (stage_lower k e Hk He (bound_key b) f) by auto. }
  apply result_bind_ok in H as (r2 & E2 & H).
  assert (outside r2 e = outside r1 e || is_some_and upper (λ b,
    match prefix_cmp k (bound_key b) with Gt => true | Eq => negb (bound_inclusive b) | Lt => false end)) as H2.
  { destruct upper as [b|]; cbn [is_some_and]; [|injection E2 as <-; by rewrite orb_false_r].
    apply result_bind_ok in E2 as (f & Ef%encode_values_of & [= <-]). by rewrite (stage_upper k e Hk He (bound_key b) f) by auto. }
  apply result_bind_ok in H as (r3 & E3 & [= <-]).
  assert (outside r3 e = outside r2 e
    || (is_forward (scan_direction s) && is_some_and (scan_exclusive_bound s) (λ c, rkey_leb k c))
    || (negb (is_forward (scan_direction s)) && is_some_and (scan_exclusive_bound s) (λ c, rkey_leb c k))) as H3.
  { destruct (scan_exclusive_bound s) as [c|]; cbn [is_some_and].
    - apply result_bind_ok in E3 as (f & Ef%encode_values_of & [= <-]). by rewrite (stage_cursor k e Hk He c f) by auto.
    - injection E3 as <-. by rewrite !andb_false_r, !orb_false_r. }
  rewrite contains_outside, outside_crossed, H3, H2, H1, H0, <- !negb_orb. f_equal. clear. btauto.
Qed.

(** The keys of a scan, and the encoding refused with the error of one of them. *)
Definition scan_keys (s : RelationalIndexRangeScan) : list RelationalKey :=
  scan_prefix s :: (bound_key <$> option_list (bounds_lower (index_bounds s)))
    ++ (bound_key <$> option_list (bounds_upper (index_bounds s))) ++ option_list (scan_exclusive_bound s).

Lemma encoded_bounds_error s err : encoded_bounds encode s = Err err → ∃ key, key ∈ scan_keys s ∧ encode key = Err err.
Proof using E.
  unfold encoded_bounds, scan_keys. destruct (index_bounds s) as [lower upper empty]. cbn [bounds_lower bounds_upper bounds_empty].
  intros H. set (keys := scan_prefix s :: _).
  assert (∀ A (m : result A E) (k : A → result EncodedRelationalIndexRange E),
    result_bind m k = Err err → m = Err err ∨ ∃ a, m = Ok a ∧ k a = Err err) as Hbind by (intros A [a|e] k; cbn; eauto; intros [= ->]; auto).
  apply Hbind in H as [H|(p & _ & H)].
  { exists (scan_prefix s). split; [apply list_elem_of_here|]. destruct (scan_prefix s); [|done]. by destruct lower, upper, empty. }
  apply Hbind in H as [H|(r1 & _ & H)].
  { destruct lower as [b|]; [|done]. exists (bound_key b). split; [by apply elem_of_cons; right; apply elem_of_cons; left|].
    by apply Hbind in H as [H|(? & _ & H)]. }
  apply Hbind in H as [H|(r2 & _ & H)].
  { destruct upper as [b|]; [|done]. exists (bound_key b). split; [|by apply Hbind in H as [H|(? & _ & H)]].
    apply elem_of_cons; right. apply elem_of_app; right. by apply elem_of_cons; left. }
  apply Hbind in H as [H|(r3 & _ & H)]; [|done].
  destruct (scan_exclusive_bound s) as [c|] eqn:Ec; [|done]. exists c. split; [|by apply Hbind in H as [H|(? & _ & H)]].
  unfold keys. apply elem_of_cons; right. apply elem_of_app; right. apply elem_of_app; right. by apply elem_of_cons; left.
Qed.

(** A page that holds a contained key overlaps the range. *)
Lemma contains_overlaps r e lower upper : bytes_leb lower e = true → bytes_leb e upper = true →
  range_contains r e = true → range_overlaps r lower upper = true.
Proof using.
  unfold range_contains, range_overlaps. rewrite !key_leb_true, !andb_true_iff, !negb_true_iff. intros Hl Hu [[He Hb] Ha].
  split_and!; [done| |].
  - unfold range_before in *. apply orb_false_iff in Hb as [Hb Hb']. apply key_ltb_false in Hb; [|apply _].
    apply orb_false_iff. split; [apply key_ltb_false; [apply _|]; by apply (ord_trans lex _ e)|].
    destruct (range_lower_inclusive r); [done|]. cbn in *. apply bool_decide_eq_false in Hb'. apply bool_decide_eq_false. intros ->.
    destruct (lex (range_lower r) e) eqn:E1; [by apply lex_eq in E1|by rewrite (proj2 (ord_gt_lt lex _ _) E1) in Hu|done].
  - unfold range_after in *. destruct (range_upper r) as [u|]; [|done]. cbn in *.
    rewrite key_leb_negb in Ha |- * by apply _. apply negb_false_iff, key_ltb_true in Ha. apply negb_false_iff, key_ltb_true.
    by apply (ord_le_lt_trans lex lower e u).
Qed.
End Exact.

(** C13: The encoded form of an index scan is exact.  For every scan, with any
    equality prefix, inclusive or exclusive partial bounds, cursor and direction,
    and any encoder of its keys that writes the ordered encoding: when the range
    is encoded, the encoding of a key is contained in it exactly when the scan
    matches the key, and a page whose key interval holds such a key overlaps the
    range; and when it is not, some key of the scan could not be encoded, with
    that error. *)
Theorem index_range_exact `{TR : TimestampRange} {E} (encode : RelationalKey → result bytes E) s :
  (∀ k e, encode k = Ok e → encode_ordered_relational_key k = Ok e) → scan_wf s →
  match encoded_bounds encode s with
  | Ok range => ∀ k e, key_wf k → encode_ordered_relational_key k = Ok e →
      range_contains range e = scan_matches s k ∧
      (∀ lower upper, bytes_leb lower e = true → bytes_leb e upper = true → scan_matches s k = true →
        range_overlaps range lower upper = true)
  | Err err => ∃ key, key ∈ scan_keys s ∧ encode key = Err err
  end.
Proof.
  intros Henc Hs. destruct (encoded_bounds encode s) as [range|err] eqn:Eb; [|by apply encoded_bounds_error].
  intros k e Hk [_ He]%encode_key_values. pose proof (encoded_bounds_exact encode Henc s k e range Hs Hk He Eb) as Hc.
  split; [done|]. intros lower upper Hl Hu Hm. apply (contains_overlaps range e); [done|done|]. by rewrite Hc.
Qed.

(** A scan of the keys of one tenant from a bound on, encoded with a length limit. *)
Module RangeDemo.
#[local] Instance demo_range : TimestampRange := {| min_micros := - 10 ^ 15; max_micros := 10 ^ 15 |}.
Definition tenant : RelationalValue := RText [116; 49].
Definition demo_scan : RelationalIndexRangeScan :=
  mk_index_scan [tenant] (Some (mk_index_bounds (Some (mk_index_bound [tenant; RBigInt (-1)] false))
    (Some (mk_index_bound [tenant; RBigInt 9] true)) false)) (Some [tenant; RBigInt 9; RBigInt 2]) Backward.

Lemma lookup_encoder max k e : encode_lookup_key max k = Ok e → encode_ordered_relational_key k = Ok e.
Proof.
  unfold encode_lookup_key, encode_relational_key. destruct (encode_ordered_relational_key k) as [encoded|]; cbn [map_err result_bind]; [|done].
  destruct (max <? zlen encoded); [done|by intros [= <-]].
Qed.

Lemma index_range_exact_witness :
  match encoded_bounds (encode_lookup_key 64) demo_scan with
  | Ok range =>
      range_contains range (KeyDemo.encoded [tenant; RBigInt 9; RBigInt 1]) = true ∧
      range_contains range (KeyDemo.encoded [tenant; RBigInt (-1); RBigInt 1]) = false
  | Err _ => False
  end.
Proof.
  assert (scan_wf demo_scan) as Hw.
  { split_and!; cbn; try (intros ? [= <-]); repeat constructor; by vm_compute. }
  pose proof (index_range_exact (encode_lookup_key 64) demo_scan (lookup_encoder 64) Hw) as H.
  destruct (encoded_bounds (encode_lookup_key 64) demo_scan) as [range|err] eqn:Eb; [|by vm_compute in Eb].
  assert (∀ n, is_i64 n → key_wf [tenant; RBigInt n; RBigInt 1]) as Hk.
  { intros n Hn. apply Forall_cons. split; [split; [by vm_compute|repeat constructor; by vm_compute]|].
    apply Forall_cons. split; [done|]. apply Forall_singleton. by vm_compute. }
  split.
  - etransitivity; [exact (proj1 (H [tenant; RBigInt 9; RBigInt 1] (KeyDemo.encoded [tenant; RBigInt 9; RBigInt 1]) (Hk 9 ltac:(by vm_compute)) eq_refl))|by vm_compute].
  - etransitivity; [exact (proj1 (H [tenant; RBigInt (-1); RBigInt 1] (KeyDemo.encoded [tenant; RBigInt (-1); RBigInt 1]) (Hk (-1) ltac:(by vm_compute)) eq_refl))|by vm_compute].
Defined.
End RangeDemo.
