(* ===== verification/RelationalIndex.v ===== *)
(** The resident secondary indexes of crates/storage/src/relational.rs: posting
    lists ([RelationalKeySetPages]) and the index from keys to posting lists
    ([RelationalIndexPages]), both directories of bounded pages, with their
    scans.

    Sharing between snapshots ([CowSegment]) is copy on write, so pages are
    values.  [None] is a panic: an index out of range or a failed [expect].  The
    variants that run under a checkpoint work context ask it for every step; its
    answers come from a scheduler, from cancellation by other threads and from
    memory budgets, and are an argument of the model. *)
From S2P Require Import Prelude Ordering RelationalValue BTreeMap Pages IndexRange.

(** ** Running under a work context *)

(** One answer per question: a refusal with its message, or a grant.  Where the
    list ends, everything is granted. *)
Definition Answers : Type := list (option string).

(** A computation that asks: it may panic, be refused, or return with the
    answers that are left. *)
Definition work (A : Type) : Type := Answers → option (result (A * Answers) RelationalError).
#[export] Instance work_ret : MRet work := λ A a w, Some (Ok (a, w)).
#[export] Instance work_bind : MBind work := λ A B k m w,
  match m w with
  | Some (Ok (a, w)) => k a w
  | Some (Err e) => Some (Err e)
  | None => None
  end.
Definition refuse {A} (e : RelationalError) : work A := λ w, Some (Err e).
Definition or_panic {A} (o : option A) : work A := λ w, (λ a, Ok (a, w)) <$> o.
Definition or_refuse {A} (o : option A) (e : RelationalError) : work A :=
  match o with Some a => mret a | None => refuse e end.
Definition ask : work () := λ w,
  match w with
  | Some message :: _ => Some (Err (Admission message))
  | None :: w => Some (Ok ((), w))
  | [] => Some (Ok ((), []))
  end.
Fixpoint ask_each {A} (l : list A) : work () :=
  match l with [] => mret () | _ :: l => ask;; ask_each l end.

(** [RelationalKey::clone_with_allocations]: a vector, then for every value its
    copy and a unit, then a checkpoint. *)
Fixpoint ask_values (l : RelationalKey) : work () :=
  match l with [] => mret () | _ :: l => ask;; ask;; ask_values l end.
Definition clone_with_allocations (key : RelationalKey) : work RelationalKey :=
  ask;; ask_values key;; ask;; mret key.

(** ** Pages *)

Definition RELATIONAL_INDEX_PAGE_MAX_KEYS : nat := 256.
Definition RELATIONAL_POSTING_PAGE_MAX_KEYS : nat := 256.

Section Directory.
Context {V : Type}.
Implicit Types (key : RelationalKey) (page : list (RelationalKey * V)) (pages : list (list (RelationalKey * V))).

Definition page_index key pages : option nat :=
  match pages with
  | [] => None
  | _ => Some (Nat.min (partition_point (ends_below key_cmp key) pages) (length pages - 1))
  end.

(** The key an oversized page is split at, and the split in the directory. *)
Definition middle_key page : option RelationalKey := fst <$> page !! (length page / 2)%nat.
Definition split_oversized (max : nat) (index : nat) pages : option (list (list (RelationalKey * V))) :=
  page ← pages !! index;
  if (max <? length page)%nat then
    split_key ← middle_key page;
    let '(kept, right_page) := map_split_off key_cmp split_key page in
    Some (take index pages ++ [kept; right_page] ++ drop (S index) pages)
  else Some pages.

(** The copy of the directory that a change under a work context edits: space
    for it, and a unit for every page. *)
Definition copy_directory (kind : string) pages : work () :=
  _ ← or_refuse (Prelude.checked_add usize_max (zlen pages) 1) (Admission (kind +:+ " directory capacity overflow"));
  ask;; ask;; ask_each pages.

(** Space for the nodes of the copied page, whose sizes the compiler chooses. *)
Definition node_space (node_bytes ownership_bytes previous_len : Z) : option Z :=
  count ← Prelude.checked_add usize_max previous_len 3;
  bytes ← (if count * node_bytes <=? usize_max then Some (count * node_bytes) else None);
  Prelude.checked_add usize_max bytes (2 * ownership_bytes).
Definition reserve_nodes (kind : string) (node_bytes ownership_bytes previous_len : Z) : work () :=
  _ ← or_refuse (node_space node_bytes ownership_bytes previous_len) (Admission (kind +:+ " page capacity overflow"));
  ask.

(** The entries copied one by one, in order. *)
Fixpoint copy_entries page (copied : list (RelationalKey * V)) : work (list (RelationalKey * V)) :=
  match page with
  | [] => mret copied
  | (key, v) :: page =>
      key ← clone_with_allocations key;
      ask;; copy_entries page (map_insert key_cmp key v copied).2
  end.

(** The oversized page split. *)
Definition split_page (max : nat) page : work (list (RelationalKey * V) * option (list (RelationalKey * V))) :=
  if (max <? length page)%nat then
    split ← or_panic (middle_key page);
    split ← clone_with_allocations split;
    ask;;
    let '(kept, right_page) := map_split_off key_cmp split page in mret (kept, Some right_page)
  else mret (page, None).

(** The changed page stored: removed when empty, replaced or pushed otherwise,
    with the right half inserted after it; then the directory is published. *)
Definition put_page (target : option nat) page pages : option (list (list (RelationalKey * V))) :=
  match target with
  | Some index => if (index <? length pages)%nat then Some (<[index := page]> pages) else None
  | None => Some (pages ++ [page])
  end.
Definition put_right (index : nat) (right_page : option (list (RelationalKey * V))) pages
    : option (list (list (RelationalKey * V))) :=
  match right_page with
  | None => Some pages
  | Some right_page =>
      if (S index <=? length pages)%nat then Some (take (S index) pages ++ [right_page] ++ drop (S index) pages) else None
  end.
Definition store_page (target : option nat) page (right_page : option (list (RelationalKey * V))) pages
    : work (list (list (RelationalKey * V))) :=
  let index := default O target in
  directory ← (match page with
               | [] => or_panic (if (index <? length pages)%nat then Some (delete index pages) else None)
               | _ =>
                   ask;;
                   directory ← or_panic (put_page target page pages);
                   or_panic (put_right index right_page directory)
               end);
  ask;; ask;; mret directory.
End Directory.

(** ** Posting lists *)

Record RelationalKeySetPages := mk_key_set {
  set_pages : list (list (RelationalKey * ()));
  set_len : Z;
}.
Definition key_set_default : RelationalKeySetPages := mk_key_set [] 0.

Definition set_insert_ordinary (key : RelationalKey) (s : RelationalKeySetPages) : option (bool * RelationalKeySetPages) :=
  match set_pages s with
  | [] => Some (true, mk_key_set [[(key, ())]] 1)
  | pages =>
      index ← page_index key pages;
      page ← pages !! index;
      let inserted := negb (map_contains key_cmp key page) in
      let len := if inserted then saturating_add usize_max (set_len s) 1 else set_len s in
      pages ← split_oversized RELATIONAL_POSTING_PAGE_MAX_KEYS index
                (<[index := (map_insert key_cmp key () page).2]> pages);
      Some (inserted, mk_key_set pages len)
  end.

Definition set_remove_ordinary (key : RelationalKey) (s : RelationalKeySetPages) : option (bool * RelationalKeySetPages) :=
  match page_index key (set_pages s) with
  | None => Some (false, s)
  | Some index =>
      page ← set_pages s !! index;
      if negb (map_contains key_cmp key page) then Some (false, s)
      else
        let page := (map_remove key_cmp key page).2 in
        Some (true, mk_key_set (match page with
                                | [] => delete index (set_pages s)
                                | _ => <[index := page]> (set_pages s)
                                end) (saturating_sub (set_len s) 1))
  end.

Definition set_is_empty (s : RelationalKeySetPages) : bool := set_len s =? 0.
Definition set_iter (s : RelationalKeySetPages) : list RelationalKey := (List.concat (set_pages s)).*1.

(** [RelationalIndexPosting::contains]: [None] is a page index out of range. *)
Definition set_contains (key : RelationalKey) (s : RelationalKeySetPages) : option bool :=
  match page_index key (set_pages s) with
  | Some index => map_contains key_cmp key <$> set_pages s !! index
  | None => Some false
  end.

(** [RelationalIndexPages]. *)
Abbreviation RelationalIndexPages := (list (list (RelationalKey * RelationalKeySetPages))).

Section Sizes.
(** Sizes in bytes of tree nodes and of ownership records. *)
Context (posting_node_bytes posting_ownership_bytes index_node_bytes index_ownership_bytes : Z).

Definition set_change_with_work_context (key : RelationalKey) (insert : bool) (s : RelationalKeySetPages)
    : work (bool * RelationalKeySetPages) :=
  let target := page_index key (set_pages s) in
  present ← or_panic (set_contains key s);
  if Bool.eqb present insert then mret (false, s) else
  copy_directory "posting" (set_pages s);;
  previous ← or_panic (match target with Some index => set_pages s !! index | None => Some [] end);
  reserve_nodes "posting" posting_node_bytes posting_ownership_bytes (zlen previous);;
  page ← copy_entries previous [];
  page ← (if insert
          then key ← clone_with_allocations key; ask;; mret (map_insert key_cmp key () page).2
          else ask;; mret (map_remove key_cmp key page).2);
  '(page, right_page) ← split_page RELATIONAL_POSTING_PAGE_MAX_KEYS page;
  pages ← store_page target page right_page (set_pages s);
  mret (true, mk_key_set pages (if insert then saturating_add usize_max (set_len s) 1
                                else saturating_sub (set_len s) 1)).

Definition checkpoint_singleton (key : RelationalKey) : work RelationalKeySetPages :=
  ask;; ask;;
  '(_, s) ← set_change_with_work_context key true key_set_default;
  mret s.

(** ** Indexes *)

Implicit Types (pages : RelationalIndexPages).

(** [checkpoint_empty]. *)
Definition index_checkpoint_empty : work RelationalIndexPages := ask;; ask;; mret [].

Definition index_get (key : RelationalKey) pages : option RelationalKeySetPages :=
  index ← page_index key pages; page ← pages !! index; map_get key_cmp key page.

Definition insert_posting_ordinary (index_key primary_key : RelationalKey) pages : option (bool * RelationalIndexPages) :=
  match pages with
  | [] =>
      '(_, postings) ← set_insert_ordinary primary_key key_set_default;
      Some (true, [[(index_key, postings)]])
  | _ =>
      index ← page_index index_key pages;
      page ← pages !! index;
      '(inserted, postings) ← set_insert_ordinary primary_key (default key_set_default (map_get key_cmp index_key page));
      pages ← split_oversized RELATIONAL_INDEX_PAGE_MAX_KEYS index
                (<[index := (map_insert key_cmp index_key postings page).2]> pages);
      Some (inserted, pages)
  end.

Definition remove_posting_ordinary (index_key primary_key : RelationalKey) pages : option RelationalIndexPages :=
  match page_index index_key pages with
  | None => Some pages
  | Some index =>
      page ← pages !! index;
      match map_get key_cmp index_key page with
      | None => Some pages
      | Some postings =>
          '(removed, postings) ← set_remove_ordinary primary_key postings;
          let page := if removed && set_is_empty postings
                      then (map_remove key_cmp index_key page).2
                      else map_update key_cmp index_key (λ _, postings) page in
          Some (match page with
                | [] => delete index pages
                | _ => <[index := page]> pages
                end)
      end
  end.

(** Whether the pair is in the index, as a change tests it. *)
Definition posting_present (index_key primary_key : RelationalKey) pages : option bool :=
  match index_get index_key pages with
  | Some postings => set_contains primary_key postings
  | None => Some false
  end.

Definition change_posting_with_work_context (index_key primary_key : RelationalKey) (insert : bool) pages
    : work (bool * RelationalIndexPages) :=
  let target := page_index index_key pages in
  present ← or_panic (posting_present index_key primary_key pages);
  if Bool.eqb present insert then mret (false, pages) else
  copy_directory "index" pages;;
  previous ← or_panic (match target with Some index => pages !! index | None => Some [] end);
  reserve_nodes "index" index_node_bytes index_ownership_bytes (zlen previous);;
  page ← copy_entries previous [];
  page ← (match map_get key_cmp index_key page with
          | Some postings =>
              '(_, postings) ← set_change_with_work_context primary_key insert postings;
              mret (if set_is_empty postings then (map_remove key_cmp index_key page).2
                    else map_update key_cmp index_key (λ _, postings) page)
          | None =>
              postings ← checkpoint_singleton primary_key;
              key ← clone_with_allocations index_key;
              ask;; mret (map_insert key_cmp key postings page).2
          end);
  '(page, right_page) ← split_page RELATIONAL_INDEX_PAGE_MAX_KEYS page;
  pages ← store_page target page right_page pages;
  mret (true, pages).
End Sizes.

(** ** Scans *)

(** A loop over [l] that stops when the body says so: the state of the visitor,
    and whether the loop ran to its end. *)
Fixpoint visit_while {S A} (body : S → A → S * bool) (l : list A) (s : S) : S * bool :=
  match l with
  | [] => (s, true)
  | a :: l => let '(s, go) := body s a in if go then visit_while body l s else (s, false)
  end.

Section Scans.
Context {S : Type}.
Implicit Types (s : S) (pages : RelationalIndexPages).

(** The body of a range loop: entries before the scan are skipped, one after it
    ends the loop, and the postings of the others are visited. *)
Definition visit_key (visit : S → RelationalKey → RelationalKey → S * bool) s
    (e : RelationalKey * RelationalKeySetPages) : S * bool :=
  visit_while (λ s primary, visit s e.1 primary) (set_iter e.2) s.

Definition forward_body (scan : RelationalIndexRangeScan) (visit : S → RelationalKey → RelationalKey → S * bool) s
    (e : RelationalKey * RelationalKeySetPages) : S * bool :=
  if scan_before scan e.1 then (s, true)
  else if scan_after scan e.1 then (s, false)
  else visit_key visit s e.
Definition backward_body (scan : RelationalIndexRangeScan) (visit : S → RelationalKey → RelationalKey → S * bool) s
    (e : RelationalKey * RelationalKeySetPages) : S * bool :=
  if scan_after scan e.1 then (s, true)
  else if scan_before scan e.1 then (s, false)
  else visit_key visit s e.

(** The bounds apply to the first page only. *)
Definition first_page_bounded {A} (bounded whole : A → list (RelationalKey * RelationalKeySetPages)) (l : list A)
    : list (list (RelationalKey * RelationalKeySetPages)) :=
  match l with [] => [] | page :: rest => bounded page :: (whole <$> rest) end.

Definition last_key_before (scan : RelationalIndexRangeScan) (page : list (RelationalKey * RelationalKeySetPages)) : bool :=
  is_some_and (last page) (λ e, scan_before scan e.1).
Definition first_key_not_after (scan : RelationalIndexRangeScan) (page : list (RelationalKey * RelationalKeySetPages)) : bool :=
  match head page with Some e => negb (scan_after scan e.1) | None => true end.

Definition visit_range_entries (scan : RelationalIndexRangeScan)
    (visit : S → RelationalKey → RelationalKey → S * bool) pages s : S :=
  if bounds_empty (index_bounds scan) then s
  else match scan_direction scan with
       | Forward =>
           let start := partition_point (last_key_before scan) pages in
           (visit_while (λ s page, visit_while (forward_body scan visit) page s)
              (first_page_bounded (map_range key_cmp (Included (lower_seek scan)) Unbounded) id (drop start pages)) s).1
       | Backward =>
           let end_ := partition_point (first_key_not_after scan) pages in
           let upper := match scan_exclusive_bound scan with Some bound => Excluded bound | None => Unbounded end in
           (visit_while (λ s page, visit_while (backward_body scan visit) page s)
              (first_page_bounded (λ page, reverse (map_range key_cmp Unbounded upper page)) reverse
                 (reverse (take end_ pages))) s).1
       end.

(** [visit_prefix] and [visit_prefix_entries] differ in what they do with an entry. *)
Definition prefix_body (prefix : RelationalKey) (visit : S → RelationalKey * RelationalKeySetPages → S * bool) s
    (e : RelationalKey * RelationalKeySetPages) : S * bool :=
  if negb (relational_key_has_prefix e.1 prefix) then (s, false) else visit s e.
Definition visit_from_prefix (prefix : RelationalKey)
    (visit : S → RelationalKey * RelationalKeySetPages → S * bool) pages s : S :=
  match page_index prefix pages with
  | None => s
  | Some start =>
      (visit_while (λ s page, visit_while (prefix_body prefix visit) (map_range key_cmp (Included prefix) Unbounded page) s)
         (drop start pages) s).1
  end.
Definition visit_prefix (prefix : RelationalKey) (visit : S → RelationalKeySetPages → S * bool) pages s : S :=
  visit_from_prefix prefix (λ s e, visit s e.2) pages s.
Definition visit_prefix_entries (prefix : RelationalKey)
    (visit : S → RelationalKey → RelationalKey → S * bool) pages s : S :=
  visit_from_prefix prefix (visit_key visit) pages s.
End Scans.

Definition prefix_cardinality_at_most (prefix : RelationalKey) (max_count : Z) (pages : RelationalIndexPages) : Z :=
  if max_count =? 0 then 0
  else
    let cardinality :=
      visit_prefix prefix (λ cardinality postings,
        let cardinality := saturating_add usize_max cardinality (set_len postings) in
        (cardinality, cardinality <? max_count)) pages 0 in
    Z.min cardinality max_count.
Definition prefix_cardinality (prefix : RelationalKey) (pages : RelationalIndexPages) : Z :=
  prefix_cardinality_at_most prefix usize_max pages.

Definition push_key (max_keys : Z) (keys : list RelationalKey) (key : RelationalKey) : list RelationalKey * bool :=
  let keys := keys ++ [key] in (keys, negb (max_keys <=? zlen keys)).
Definition prefix_primary_keys (prefix : RelationalKey) (max_keys : Z) (pages : RelationalIndexPages) : list RelationalKey :=
  if max_keys =? 0 then []
  else visit_prefix prefix (λ keys postings, visit_while (push_key max_keys) (set_iter postings) keys) pages [].

(** [index_range_cardinality_at_most] and [visit_index_range_entries] of
    [RelationalState], on the index they look up; the count is a [usize] that
    stops below [max_count]. *)
Definition index_range_cardinality_at_most (scan : RelationalIndexRangeScan) (max_count : Z)
    (pages : RelationalIndexPages) : Z :=
  if max_count =? 0 then 0
  else visit_range_entries scan (λ count _ _, (count + 1, count + 1 <? max_count)) pages 0.
