(* ===== verification/RelationalIndexSpec.v ===== *)
(** What the secondary indexes of [RelationalIndex] promise: the directory stays
    sorted with non-empty bounded pages, every change acts on the index like on
    an ordered multimap from keys to sets of primary keys, with or without a
    work context, and every scan visits exactly the entries it should, in
    order. *)
From S2P Require Import Prelude Ordering RelationalValue BTreeMap Pages IndexRange RelationalIndex.

(** ** Directories of pages *)

Section Directory.
Context {V : Type}.
Implicit Types (k : RelationalKey) (l p : list (RelationalKey * V)) (ps qs rs : list (list (RelationalKey * V))).

Record pages_ok (max : nat) ps : Prop := {
  po_sorted : key_sorted key_cmp (List.concat ps);
  po_pages : Forall (λ p, p ≠ [] ∧ (length p ≤ max)%nat) ps;
}.

Lemma page_located max k ps : pages_ok max ps → ps ≠ [] →
  ∃ qs p rs, ps = qs ++ p :: rs ∧ page_index k ps = Some (length qs) ∧
    (∀ a, a ∈ List.concat qs → key_cmp a.1 k = Lt) ∧ (∀ b, b ∈ List.concat rs → key_cmp k b.1 = Lt).
Proof.
  intros [Hs HF] Hne. destruct (locate_page (cmp := key_cmp) k ps Hs) as (qs & p & rs & E & Hi & H1 & H2); [|done|].
  { eapply Forall_impl; [exact HF|]. by intros p [? _]. }
  exists qs, p, rs. split_and!; [done| |done|done]. unfold page_index. destruct ps; [done|]. by rewrite Hi.
Qed.

Lemma concat_mid qs p rs : List.concat (qs ++ p :: rs) = List.concat qs ++ p ++ List.concat rs.
Proof. by rewrite List.concat_app. Qed.
Lemma concat_located f k qs p rs :
  (∀ a, a ∈ List.concat qs → key_cmp a.1 k = Lt) → (∀ b, b ∈ List.concat rs → key_cmp k b.1 = Lt) →
  List.concat (qs ++ map_alter key_cmp f k p :: rs) = map_alter key_cmp f k (List.concat (qs ++ p :: rs)).
Proof. intros H1 H2. by rewrite !concat_mid, alter_located. Qed.

Lemma pages_ok_mid max qs p rs : pages_ok max (qs ++ p :: rs) ↔
  key_sorted key_cmp (List.concat (qs ++ p :: rs)) ∧
  Forall (λ p, p ≠ [] ∧ (length p ≤ max)%nat) qs ∧ (p ≠ [] ∧ (length p ≤ max)%nat) ∧
  Forall (λ p, p ≠ [] ∧ (length p ≤ max)%nat) rs.
Proof.
  split.
  - intros [Hs HF]. apply Forall_app in HF as [? HF]. by apply Forall_cons in HF as [? ?].
  - intros (Hs & H1 & H2 & H3). constructor; [done|]. apply Forall_app. split; [done|]. by constructor.
Qed.

(** A page changed under a key within the limit: replaced, or removed when it
    became empty. *)
Lemma replace_ok max f k qs p rs : pages_ok max (qs ++ p :: rs) → keeps_key key_cmp k f →
  (∀ a, a ∈ List.concat qs → key_cmp a.1 k = Lt) → (∀ b, b ∈ List.concat rs → key_cmp k b.1 = Lt) →
  (length (map_alter key_cmp f k p) ≤ max)%nat →
  ∃ ps', match map_alter key_cmp f k p with
         | [] => delete (length qs) (qs ++ p :: rs)
         | _ => <[length qs := map_alter key_cmp f k p]> (qs ++ p :: rs)
         end = ps' ∧
    List.concat ps' = map_alter key_cmp f k (List.concat (qs ++ p :: rs)) ∧ pages_ok max ps'.
Proof.
  intros Hok Hf H1 H2 Hlen. pose proof (concat_located f k qs p rs H1 H2) as Hc.
  pose proof (alter_sorted key_cmp f k _ Hf (po_sorted _ _ Hok)) as Hs'. rewrite <- Hc in Hs'.
  apply pages_ok_mid in Hok as (_ & HF1 & _ & HF2). eexists. split; [done|].
  destruct (map_alter key_cmp f k p) as [|e l] eqn:E.
  - rewrite delete_mid. rewrite concat_mid in Hc, Hs'. cbn [app] in Hc, Hs'. rewrite List.concat_app. split; [done|].
    constructor; [by rewrite List.concat_app|]. by apply Forall_app.
  - rewrite insert_mid. split; [done|]. by apply pages_ok_mid.
Qed.

Lemma middle_of p n : p !! (length p / 2)%nat = Some n → (1 < length p)%nat →
  ∃ a b, p = a ++ n :: b ∧ a ≠ [] ∧ length a = (length p / 2)%nat.
Proof.
  intros Hn Hl. exists (take (length p / 2) p), (drop (S (length p / 2)) p).
  assert (0 < length p / 2)%nat by (apply Nat.div_str_pos; lia).
  assert (length p / 2 < length p)%nat by (apply Nat.div_lt; lia).
  split_and!; [by rewrite take_drop_middle| |rewrite length_take; lia].
  intros E. apply (f_equal length) in E. rewrite length_take in E. change (length []) with O in E. lia.
Qed.

(** Splitting a page that is at most one entry too long. *)
Lemma split_page_ok max qs p rs : (1 ≤ max)%nat → key_sorted key_cmp (List.concat (qs ++ p :: rs)) →
  Forall (λ p, p ≠ [] ∧ (length p ≤ max)%nat) qs → Forall (λ p, p ≠ [] ∧ (length p ≤ max)%nat) rs →
  p ≠ [] → (length p ≤ S max)%nat →
  ∃ left_page right_pages, match right_pages with
      | [] => (length p ≤ max)%nat ∧ left_page = p
      | [right_page] => (max < length p)%nat ∧ ∃ k, middle_key p = Some k ∧ map_split_off key_cmp k p = (left_page, right_page)
      | _ => False
      end ∧
    split_oversized max (length qs) (qs ++ p :: rs) = Some (qs ++ left_page :: right_pages ++ rs) ∧
    List.concat (qs ++ left_page :: right_pages ++ rs) = List.concat (qs ++ p :: rs) ∧ left_page ≠ [] ∧
    pages_ok max (qs ++ left_page :: right_pages ++ rs).
Proof.
  intros Hmax Hs HF1 HF2 Hne Hlen. unfold split_oversized. rewrite lookup_mid. cbn [mbind option_bind].
  destruct (Nat.ltb_spec max (length p)) as [Hl|Hl]; [|by exists p, []; split_and!; try done; apply pages_ok_mid].
  unfold middle_key. destruct (p !! (length p / 2)%nat) as [[k v]|] eqn:Em.
  2: { apply lookup_ge_None in Em. assert (length p / 2 < length p)%nat by (apply Nat.div_lt; lia). lia. }
  destruct (middle_of p (k, v) Em ltac:(lia)) as (a & b & Ep & Ha & Hla). cbn [fmap option_fmap option_map mbind option_bind fst].
  assert (key_sorted key_cmp p) as Hsp.
  { rewrite concat_mid in Hs. apply key_sorted_app in Hs as (_ & Hs & _). by apply key_sorted_app in Hs as (? & _ & _). }
  assert (map_split_off key_cmp k p = (a, (k, v) :: b)) as Esp by (rewrite Ep in Hsp |- *; by apply split_off_at).
  assert (length p = length a + S (length b))%nat as Hlp by (rewrite Ep at 1; by rewrite length_app).
  assert (length p / 2 * 2 ≤ length p < length p / 2 * 2 + 2)%nat as Hdiv
    by (pose proof (Nat.div_mod_eq (length p) 2); pose proof (Nat.mod_upper_bound (length p) 2); lia).
  exists a, [(k, v) :: b]. rewrite Esp, take_app_length, drop_S_mid. cbn [app].
  assert (List.concat (qs ++ a :: ((k, v) :: b) :: rs) = List.concat (qs ++ p :: rs)) as Ec
    by (rewrite !concat_mid; cbn [List.concat]; by rewrite Ep, <- !app_assoc).
  split_and!; [done|by exists k|done|done|done|]. apply pages_ok_mid. rewrite Ec. split_and!; [done|done|done|lia|].
  constructor; [|done]. split; [done|]. cbn [length]. lia.
Qed.
End Directory.

(** ** Posting lists *)

Definition set_contents (s : RelationalKeySetPages) : list (RelationalKey * ()) := List.concat (set_pages s).
Record set_wf (s : RelationalKeySetPages) : Prop := {
  sw_pages : pages_ok RELATIONAL_POSTING_PAGE_MAX_KEYS (set_pages s);
  sw_len : set_len s = zlen (set_contents s);
}.

Lemma pages_ok_nil {V} max : pages_ok (V := V) max [].
Proof. constructor; constructor. Qed.
Lemma pages_ok_one {V} max (e : RelationalKey * V) : (1 ≤ max)%nat → pages_ok max [[e]].
Proof. intros H. constructor; [repeat constructor|]. apply Forall_singleton. by split. Qed.
Lemma set_default_wf : set_wf key_set_default.
Proof. constructor; [apply pages_ok_nil|done]. Qed.

Lemma length_alter {V} f k (l : list (RelationalKey * V)) : (length (map_alter key_cmp f k l) ≤ S (length l))%nat.
Proof.
  pose proof (zlen_alter key_cmp f k l) as H. unfold zlen in H.
  assert (0 ≤ opt_sum (λ _, 1) (get_key_value key_cmp k l)) by (by destruct (get_key_value key_cmp k l)).
  assert (opt_sum (λ _, 1) (f (get_key_value key_cmp k l)) ≤ 1) by (by destruct (f _)). lia.
Qed.
Lemma length_alter_present {V} f k (l : list (RelationalKey * V)) :
  map_contains key_cmp k l = true → (length (map_alter key_cmp f k l) ≤ length l)%nat.
Proof.
  intros [e He]%map_contains_get. pose proof (zlen_alter key_cmp f k l) as H. unfold zlen in H. rewrite He in H.
  cbn [opt_sum] in H. assert (opt_sum (λ _, 1) (f (Some e)) ≤ 1) by (by destruct (f _)). lia.
Qed.
Lemma contains_located {V} k (qs rs : list (list (RelationalKey * V))) p :
  (∀ a, a ∈ List.concat qs → key_cmp a.1 k = Lt) → (∀ b, b ∈ List.concat rs → key_cmp k b.1 = Lt) →
  map_contains key_cmp k (List.concat (qs ++ p :: rs)) = map_contains key_cmp k p ∧
  map_get key_cmp k (List.concat (qs ++ p :: rs)) = map_get key_cmp k p.
Proof. intros H1 H2. unfold map_contains, map_get. by rewrite concat_mid, get_located. Qed.

(** Inserting a key that is there changes nothing. *)
Lemma set_insert_present k (l : list (RelationalKey * ())) :
  map_contains key_cmp k l = true → (map_insert key_cmp k () l).2 = l.
Proof.
  intros [[k' []] He]%map_contains_get. cbn.
  assert (map_alter key_cmp (insert_entry k ()) k l = map_alter key_cmp id k l) as -> by (apply alter_ext; by rewrite He).
  clear He. induction l as [|[k'' v] l IH]; [done|]. cbn. destruct (key_cmp k k''); [done|done|]. by rewrite IH.
Qed.

Lemma insert_nonempty {V} k (v : V) (l : list (RelationalKey * V)) : map_alter key_cmp (insert_entry k v) k l ≠ [].
Proof. apply alter_nonempty. by eexists. Qed.

Lemma max_pos : (1 ≤ RELATIONAL_POSTING_PAGE_MAX_KEYS)%nat ∧ (1 ≤ RELATIONAL_INDEX_PAGE_MAX_KEYS)%nat.
Proof. unfold RELATIONAL_POSTING_PAGE_MAX_KEYS, RELATIONAL_INDEX_PAGE_MAX_KEYS. lia. Qed.
Opaque RELATIONAL_POSTING_PAGE_MAX_KEYS RELATIONAL_INDEX_PAGE_MAX_KEYS.

(** A value put under a key, the oversized page split. *)
Lemma insert_split {V} max k (v : V) qs p rs : (1 ≤ max)%nat → pages_ok max (qs ++ p :: rs) →
  (∀ a, a ∈ List.concat qs → key_cmp a.1 k = Lt) → (∀ b, b ∈ List.concat rs → key_cmp k b.1 = Lt) →
  ∃ ps', split_oversized max (length qs) (<[length qs := (map_insert key_cmp k v p).2]> (qs ++ p :: rs)) = Some ps' ∧
    List.concat ps' = (map_insert key_cmp k v (List.concat (qs ++ p :: rs))).2 ∧ pages_ok max ps'.
Proof.
  intros Hmax Hok H1 H2. rewrite insert_mid. cbn [map_insert snd].
  pose proof (concat_located (insert_entry k v) k qs p rs H1 H2) as Hc.
  pose proof (alter_sorted key_cmp _ k _ (insert_keeps key_cmp k v) (po_sorted _ _ Hok)) as Hs. rewrite <- Hc in Hs.
  apply pages_ok_mid in Hok as (_ & HF1 & [_ Hlen] & HF2).
  destruct (split_page_ok max qs (map_alter key_cmp (insert_entry k v) k p) rs Hmax Hs HF1 HF2)
    as (lp & rps & _ & E & Ec & _ & Hok'); [apply insert_nonempty| |].
  - pose proof (length_alter (insert_entry k v) k p). lia.
  - eexists. split; [exact E|]. rewrite Ec. done.
Qed.

Lemma set_insert_ok k s : set_wf s → zlen (set_contents s) < usize_max →
  ∃ s', set_insert_ordinary k s = Some (negb (map_contains key_cmp k (set_contents s)), s') ∧
    set_contents s' = (map_insert key_cmp k () (set_contents s)).2 ∧ set_wf s'.
Proof.
  intros [Hok Hlen] Hmax. unfold set_insert_ordinary, set_contents in *. destruct (set_pages s) as [|p0 ps0] eqn:Es.
  { eexists. split; [done|]. split; [done|]. constructor; [apply pages_ok_one, max_pos|done]. }
  destruct (page_located _ k _ Hok ltac:(done)) as (qs & p & rs & E & -> & H1 & H2). rewrite E in *.
  cbn [mbind option_bind]. rewrite lookup_mid. cbn [mbind option_bind].
  destruct (insert_split _ k () qs p rs (proj1 max_pos) Hok H1 H2) as (ps' & -> & Hc & Hok'). cbn [mbind option_bind].
  destruct (contains_located k qs rs p H1 H2) as [Hcon _]. rewrite Hcon.
  eexists. split; [done|]. cbn [set_pages]. split; [done|]. constructor; [done|]. unfold set_contents. cbn [set_pages set_len].
  rewrite Hc. cbn. rewrite zlen_alter, Hlen. unfold map_contains in *. destruct (get_key_value key_cmp k p) eqn:Ep, (get_key_value _ _ (List.concat _));
    try done; cbn; unfold saturating_add; lia.
Qed.

Lemma set_remove_ok k s : set_wf s →
  ∃ s', set_remove_ordinary k s = Some (map_contains key_cmp k (set_contents s), s') ∧
    set_contents s' = (map_remove key_cmp k (set_contents s)).2 ∧ set_wf s'.
Proof.
  intros Hw. pose proof Hw as [Hok Hlen]. unfold set_remove_ordinary, set_contents in *.
  destruct (set_pages s) as [|p0 ps0] eqn:Es; [exists s; by rewrite Es|].
  destruct (page_located _ k _ Hok ltac:(done)) as (qs & p & rs & E & -> & H1 & H2). rewrite E in *.
  rewrite lookup_mid. cbn [mbind option_bind]. destruct (contains_located k qs rs p H1 H2) as [Hcon _]. rewrite Hcon.
  destruct (map_contains key_cmp k p) eqn:Ep; cbn [negb].
  - destruct (replace_ok _ (λ _, None) k qs p rs Hok (remove_keeps key_cmp k) H1 H2) as (ps' & Eps & Hc & Hok').
    { pose proof (length_alter_present (λ _, None) k p Ep). apply pages_ok_mid in Hok as (_ & _ & [_ ?] & _). lia. }
    cbn [map_remove snd]. rewrite Eps. eexists. split; [done|]. split; [done|]. constructor; [done|].
    unfold set_contents. cbn [set_pages set_len]. rewrite Hc, zlen_alter, Hlen. apply map_contains_get in Hcon as [e ->].
    cbn. assert (1 ≤ zlen (List.concat (qs ++ p :: rs))); [|unfold saturating_sub; lia].
    rewrite concat_mid, !zlen_app. apply map_contains_get in Ep as [e' He']. destruct p; [done|]. rewrite zlen_cons. zlen_lia.
  - exists s. rewrite Es. split; [done|]. split; [|done]. symmetry. apply alter_absent; [done|].
    unfold map_contains in Hcon. by destruct (get_key_value _ _ _).
Qed.

Lemma set_contains_ok k s : set_wf s → set_contains k s = Some (map_contains key_cmp k (set_contents s)).
Proof.
  intros [Hok _]. unfold set_contains, set_contents. destruct (set_pages s) as [|p0 ps0] eqn:Es; [done|].
  destruct (page_located _ k _ Hok ltac:(done)) as (qs & p & rs & E & -> & H1 & H2). rewrite E.
  rewrite lookup_mid. by destruct (contains_located k qs rs p H1 H2) as [-> _].
Qed.
Lemma set_empty_ok s : set_wf s → set_is_empty s = true ↔ set_contents s = [].
Proof.
  intros [_ Hl]. unfold set_is_empty. rewrite Hl, Z.eqb_eq. split; [|by intros ->]. destruct (set_contents s); [done|].
  rewrite zlen_cons. pose proof (zlen_nonneg l). lia.
Qed.

(** ** Under a work context *)

(** A computation never panics; it is refused only with a message of the
    context; what it returns satisfies [P]. *)
Definition runs {A} (m : work A) (P : A → Prop) : Prop := ∀ w,
  match m w with
  | None => False
  | Some (Err (Admission message)) => Some message ∈ w
  | Some (Err _) => False
  | Some (Ok (a, w')) => P a ∧ (∀ x, x ∈ w' → x ∈ w)
  end.

Lemma runs_ret {A} (a : A) (P : A → Prop) : P a → runs (mret a) P.
Proof. by intros H w. Qed.
Lemma runs_bind {A B} (m : work A) (k : A → work B) P Q :
  runs m P → (∀ a, P a → runs (k a) Q) → runs (m ≫= k) Q.
Proof.
  intros Hm Hk w. specialize (Hm w). unfold mbind, work_bind. destruct (m w) as [[[a w']|e]|]; [|done..].
  destruct Hm as [Ha Hw]. specialize (Hk a Ha w'). destruct (k a w') as [[[b w'']|[e| | |]]|]; [|by apply Hw|done..].
  destruct Hk as [Hb Hw']. split; [done|]. auto.
Qed.
Lemma runs_mono {A} (m : work A) (P Q : A → Prop) : runs m P → (∀ a, P a → Q a) → runs m Q.
Proof.
  intros Hm HPQ w. specialize (Hm w). destruct (m w) as [[[a w']|[e| | |]]|]; [|done..]. destruct Hm as [Ha Hw]. auto.
Qed.
Lemma runs_ask : runs ask (λ _, True).
Proof.
  intros [|[message|] w]; cbn; [done|apply list_elem_of_here|]. split; [done|]. intros x Hx. by apply elem_of_cons; right.
Qed.
Lemma runs_then {A} (k : work A) Q : runs k Q → runs (ask;; k) Q.
Proof. intros H. eapply runs_bind; [apply runs_ask|]. by intros []. Qed.
Lemma runs_panic {A} (o : option A) a : o = Some a → runs (or_panic o) (λ b, b = a).
Proof. by intros -> w. Qed.
Lemma runs_refuse {A} (o : option A) a e : o = Some a → runs (or_refuse o e) (λ b, b = a).
Proof. by intros -> w. Qed.
Lemma runs_each {A} (l : list A) : runs (ask_each l) (λ _, True).
Proof. induction l as [|x l IH]; cbn [ask_each]; [by apply runs_ret|by apply runs_then]. Qed.
Lemma runs_values l : runs (ask_values l) (λ _, True).
Proof. induction l as [|x l IH]; cbn [ask_values]; [by apply runs_ret|by do 2 apply runs_then]. Qed.
Lemma runs_clone k : runs (clone_with_allocations k) (λ k', k' = k).
Proof.
  apply runs_then. eapply runs_bind; [apply runs_values|]. intros _ _. apply runs_then. by apply runs_ret.
Qed.

(** The same for the two steps that end a change. *)
Lemma runs_bind_pair {A1 A2 B C} (m : work (A1 * A2)) (f : A1 → A2 → work B) (k : B → work C) P Q :
  runs ('(x, y) ← m; f x y) P → (∀ b, P b → runs (k b) Q) → runs ('(x, y) ← m; b ← f x y; k b) Q.
Proof.
  intros Hm Hk w. pose proof (runs_bind _ k P Q Hm Hk w) as H. unfold mbind, work_bind in *.
  destruct (m w) as [[[[x y] w']|e]|]; done.
Qed.

(** [runs_step]: the next question of a computation. *)
Ltac runs_step :=
  lazymatch goal with
  | |- runs (_ ≫= _) _ =>
      eapply runs_bind; [first [apply runs_ask | apply runs_clone | apply runs_each | by eapply runs_panic | by eapply runs_refuse]|];
      let H := fresh in intros ? H; cbn beta in H; lazymatch type of H with True => clear H | _ => subst end
  | |- runs (mret _) _ => apply runs_ret
  end.

Section Work.
Context {V : Type}.
Implicit Types (k : RelationalKey) (l p : list (RelationalKey * V)) (ps qs rs : list (list (RelationalKey * V))).

Lemma runs_directory kind ps : zlen ps < usize_max → runs (copy_directory kind ps) (λ _, True).
Proof.
  intros Hl. unfold copy_directory. eapply runs_bind.
  - eapply runs_refuse. unfold Prelude.checked_add. by rewrite (proj2 (Z.leb_le _ _)) by lia.
  - intros _ _. do 2 apply runs_then. apply runs_each.
Qed.
(** The sizes of nodes and ownership records are those of real types. *)
Definition size_ok (z : Z) : Prop := 0 ≤ z ≤ 2 ^ 32.
Lemma node_space_ok node own n : size_ok node → size_ok own → 0 ≤ n ≤ 2 ^ 16 → ∃ z, node_space node own n = Some z.
Proof.
  unfold size_ok. intros Hn Ho Hl. assert ((n + 3) * node ≤ (2 ^ 16 + 3) * 2 ^ 32) by (apply Z.mul_le_mono_nonneg; lia).
  assert ((2 ^ 16 + 3) * 2 ^ 32 + 2 * 2 ^ 32 ≤ usize_max) by (by vm_compute).
  assert (2 ^ 16 + 3 ≤ usize_max) by (by vm_compute). unfold node_space, Prelude.checked_add.
  rewrite (proj2 (Z.leb_le _ _)) by lia. cbn [mbind option_bind]. rewrite (proj2 (Z.leb_le _ _)) by lia.
  cbn [mbind option_bind]. rewrite (proj2 (Z.leb_le _ _)) by lia. by eexists.
Qed.
Lemma runs_reserve kind node own n : size_ok node → size_ok own → 0 ≤ n ≤ 2 ^ 16 →
  runs (reserve_nodes kind node own n) (λ _, True).
Proof.
  intros Hn Ho Hl. destruct (node_space_ok node own n Hn Ho Hl) as [z E].
  eapply runs_bind; [by eapply runs_refuse|]. intros _ _. apply runs_ask.
Qed.
Lemma runs_copy p : ∀ copied, key_sorted key_cmp (copied ++ p) → runs (copy_entries p copied) (λ l, l = copied ++ p).
Proof.
  induction p as [|[k v] p IH]; intros copied Hs; cbn [copy_entries]; [apply runs_ret; by rewrite app_nil_r|].
  eapply runs_bind; [apply runs_clone|]. intros ? ->. apply runs_then.
  rewrite (insert_last key_cmp). 2: { intros a Ha. apply key_sorted_app in Hs as (_ & _ & H). apply (H a (k, v) Ha), list_elem_of_here. }
  assert (copied ++ (k, v) :: p = (copied ++ [(k, v)]) ++ p) as -> by (by rewrite <- app_assoc).
  apply IH. by rewrite <- app_assoc.
Qed.

Lemma runs_store_page target (page : list (RelationalKey * V)) right_page pages d1 d2 : page ≠ [] →
  put_page target page pages = Some d1 → put_right (default O target) right_page d1 = Some d2 →
  runs (store_page target page right_page pages) (λ d, d = d2).
Proof.
  intros Hne H1 H2. unfold store_page. eapply (runs_bind _ _ (λ d, d = d2)).
  - destruct page; [done|]. apply runs_then. eapply runs_bind; [by eapply runs_panic|]. intros ? ->. by eapply runs_panic.
  - intros ? ->. do 2 apply runs_then. by apply runs_ret.
Qed.

(** A changed page, split and stored, is what the change in place leaves. *)
Lemma runs_store max qs p p' rs : p' ≠ [] → (1 ≤ max)%nat → (length p' ≤ S max)%nat →
  key_sorted key_cmp (List.concat (qs ++ p' :: rs)) →
  Forall (λ p, p ≠ [] ∧ (length p ≤ max)%nat) qs → Forall (λ p, p ≠ [] ∧ (length p ≤ max)%nat) rs →
  runs ('(page, right_page) ← split_page max p'; store_page (Some (length qs)) page right_page (qs ++ p :: rs))
    (λ ps', split_oversized max (length qs) (<[length qs := p']> (qs ++ p :: rs)) = Some ps').
Proof.
  intros Hne Hmax Hlen Hs HF1 HF2. rewrite insert_mid.
  destruct (split_page_ok max qs p' rs Hmax Hs HF1 HF2 Hne Hlen) as (lp & rps & Hr & -> & _ & Hlp & _).
  assert (∀ page, put_page (Some (length qs)) page (qs ++ p :: rs) = Some (qs ++ page :: rs)) as Hput.
  { intros page. unfold put_page. rewrite (proj2 (Nat.ltb_lt _ _)) by (rewrite length_app; cbn; lia). by rewrite insert_mid. }
  eapply (runs_bind _ _ (λ x, x = (lp, head rps))).
  - unfold split_page. destruct rps as [|rp [|]]; [| |done].
    + destruct Hr as [Hl ->]. rewrite (proj2 (Nat.ltb_ge _ _) Hl). by apply runs_ret.
    + destruct Hr as (Hl & k & Ek & Esp). rewrite (proj2 (Nat.ltb_lt _ _) Hl). eapply runs_bind; [by eapply runs_panic|].
      intros ? ->. eapply runs_bind; [apply runs_clone|]. intros ? ->. apply runs_then. rewrite Esp. by apply runs_ret.
  - intros ? ->. intros w. pose proof (runs_store_page (Some (length qs)) lp (head rps) (qs ++ p :: rs) (qs ++ lp :: rs)
      (qs ++ lp :: rps ++ rs) Hlp (Hput lp)) as Hst.
    assert (put_right (length qs) (head rps) (qs ++ lp :: rs) = Some (qs ++ lp :: rps ++ rs)) as Hright.
    { destruct rps as [|rp [|]]; [done| |done]. cbn [head put_right].
      rewrite (proj2 (Nat.leb_le _ _)) by (rewrite length_app; cbn; lia).
      assert (qs ++ lp :: rs = (qs ++ [lp]) ++ rs) as -> by (by rewrite <- app_assoc).
      assert (S (length qs) = length (qs ++ [lp])) as -> by (rewrite length_app; cbn; lia).
      by rewrite take_app_length, drop_app_length, <- app_assoc. }
    specialize (Hst Hright w). cbn beta in *. destruct (store_page _ _ _ _ w) as [[[d w']|]|]; [|done..].
    destruct Hst as [-> Hw]. done.
Qed.
(** A page emptied by a removal is dropped from the directory. *)
Lemma runs_drop max qs p rs :
  runs ('(page, right_page) ← split_page max ([] : list (RelationalKey * V));
        store_page (Some (length qs)) page right_page (qs ++ p :: rs))
    (λ ps', ps' = delete (length qs) (qs ++ p :: rs)).
Proof.
  eapply (runs_bind _ _ (λ x, x = ([], None))); [by apply runs_ret|]. intros ? ->. unfold store_page.
  eapply runs_bind.
  - eapply runs_panic. cbn [default from_option id]. by rewrite (proj2 (Nat.ltb_lt _ _)) by (rewrite length_app; cbn; lia).
  - intros ? ->. do 2 apply runs_then. by apply runs_ret.
Qed.
(** The first page of a directory. *)
Lemma runs_first max e : (1 ≤ max)%nat →
  runs ('(page, right_page) ← split_page max [e : RelationalKey * V]; store_page None page right_page [])
    (λ ps', ps' = [[e]]).
Proof.
  intros Hmax. eapply (runs_bind _ _ (λ x, x = ([e], None))).
  - unfold split_page. rewrite (proj2 (Nat.ltb_ge _ _)) by (cbn; lia). by apply runs_ret.
  - intros ? ->. by eapply runs_store_page.
Qed.
End Work.

(** ** Changes of a posting list under a work context *)

Lemma pages_count {V} max (ps : list (list (RelationalKey * V))) : pages_ok max ps → zlen ps ≤ zlen (List.concat ps).
Proof.
  intros [_ HF]. induction HF as [|p ps [Hp _] _ IH]; [done|]. cbn [List.concat]. rewrite zlen_app, zlen_cons.
  destruct p as [|e p]; [done|]. rewrite zlen_cons. pose proof (zlen_nonneg p). lia.
Qed.
Lemma index_page_sorted {V} max qs (p : list (RelationalKey * V)) rs : pages_ok max (qs ++ p :: rs) → key_sorted key_cmp p.
Proof.
  intros [Hs _]. rewrite concat_mid in Hs. apply key_sorted_app in Hs as (_ & Hs & _). by apply key_sorted_app in Hs as (? & _ & _).
Qed.
Lemma page_short {V} max qs (p : list (RelationalKey * V)) rs : pages_ok max (qs ++ p :: rs) → (length p ≤ max)%nat.
Proof. by intros (_ & _ & [_ ?] & _)%pages_ok_mid. Qed.

Transparent RELATIONAL_POSTING_PAGE_MAX_KEYS RELATIONAL_INDEX_PAGE_MAX_KEYS.
Lemma max_small : RELATIONAL_POSTING_PAGE_MAX_KEYS = 256%nat ∧ RELATIONAL_INDEX_PAGE_MAX_KEYS = 256%nat.
Proof. done. Qed.
Opaque RELATIONAL_POSTING_PAGE_MAX_KEYS RELATIONAL_INDEX_PAGE_MAX_KEYS.

Section Changes.
Context (posting_node_bytes posting_ownership_bytes index_node_bytes index_ownership_bytes : Z).
Context (Hpn : size_ok posting_node_bytes) (Hpo : size_ok posting_ownership_bytes).
Context (Hin : size_ok index_node_bytes) (Hio : size_ok index_ownership_bytes).

(** The operation a change stands for. *)
Definition set_change (insert : bool) (k : RelationalKey) (s : RelationalKeySetPages) : option (bool * RelationalKeySetPages) :=
  if insert then set_insert_ordinary k s else set_remove_ordinary k s.

Lemma set_change_present k insert s : set_wf s → map_contains key_cmp k (set_contents s) = insert →
  zlen (set_contents s) < usize_max → set_change insert k s = Some (false, s).
Proof.
  intros Hw Hp Hmax. unfold set_change, set_insert_ordinary, set_remove_ordinary, set_contents in *.
  pose proof Hw as [Hok Hlen]. destruct (set_pages s) as [|p0 ps0] eqn:Es; [by subst|].
  destruct (page_located _ k _ Hok ltac:(done)) as (qs & p & rs & E & -> & H1 & H2). rewrite E in *.
  destruct (contains_located k qs rs p H1 H2) as [Hcon _]. rewrite Hcon in Hp. cbn [mbind option_bind]. rewrite lookup_mid.
  cbn [mbind option_bind]. rewrite Hp. destruct insert; [|done]. rewrite set_insert_present by done. cbn [negb].
  rewrite insert_mid. unfold split_oversized. rewrite lookup_mid. cbn [mbind option_bind].
  rewrite (proj2 (Nat.ltb_ge _ _)) by (by eapply page_short). cbn [mbind option_bind]. rewrite <- Es. by destruct s.
Qed.

Lemma set_change_ok k insert s : set_wf s → zlen (set_contents s) < usize_max →
  runs (set_change_with_work_context posting_node_bytes posting_ownership_bytes k insert s)
    (λ r, set_change insert k s = Some r).
Proof.
  intros Hw Hmax. unfold set_change_with_work_context.
  eapply runs_bind; [eapply runs_panic; by apply set_contains_ok|]. intros ? ->.
  destruct (Bool.eqb_spec (map_contains key_cmp k (set_contents s)) insert) as [Hp|Hp].
  { apply runs_ret. by apply set_change_present. }
  pose proof Hw as [Hok Hlen]. pose proof (pages_count _ _ Hok) as Hcount.
  eapply runs_bind; [apply runs_directory; unfold set_contents in Hmax; lia|]. intros _ _.
  unfold set_change, set_insert_ordinary, set_remove_ordinary, set_contents in *.
  destruct (set_pages s) as [|p0 ps0] eqn:Es.
  { destruct insert; [|by destruct Hp]. cbn [page_index]. eapply runs_bind; [by eapply runs_panic|]. intros ? ->.
    eapply runs_bind; [by apply runs_reserve|]. intros _ _. eapply runs_bind; [by apply runs_ret with (P := λ l, l = [])|].
    intros ? ->. eapply (runs_bind _ _ (λ l, l = [(k, ())])).
    { eapply runs_bind; [apply runs_clone|]. intros ? ->. apply runs_then. by apply runs_ret. }
    intros ? ->. eapply runs_bind_pair; [apply runs_first, max_pos|]. intros ? ->. apply runs_ret. rewrite Hlen. done. }
  destruct (page_located _ k _ Hok ltac:(done)) as (qs & p & rs & E & -> & H1 & H2). rewrite E in *.
  destruct (contains_located k qs rs p H1 H2) as [Hcon _]. rewrite Hcon in Hp. cbn [mbind option_bind].
  eapply runs_bind; [eapply runs_panic; apply lookup_mid|]. intros ? ->. pose proof (page_short _ _ _ _ Hok) as Hshort.
  pose proof (proj1 max_small) as H256.
  eapply runs_bind; [apply runs_reserve; [done|done|unfold zlen; lia]|]. intros _ _.
  eapply runs_bind; [apply runs_copy; by eapply index_page_sorted|]. intros ? ->. cbn [app]. rewrite lookup_mid. cbn [mbind option_bind].
  apply pages_ok_mid in Hok as Hmid. destruct Hmid as (Hs & HF1 & _ & HF2). destruct insert.
  - eapply (runs_bind _ _ (λ l, l = (map_insert key_cmp k () p).2)).
    { eapply runs_bind; [apply runs_clone|]. intros ? ->. apply runs_then. by apply runs_ret. }
    intros ? ->. assert (map_contains key_cmp k p = false) as -> by (by apply not_true_is_false). cbn [negb].
    eapply runs_bind_pair.
    + apply (runs_store _ qs p); [apply insert_nonempty|apply max_pos| | |done|done].
      * pose proof (length_alter (insert_entry k ()) k p). cbn [map_insert snd]. lia.
      * cbn [map_insert snd]. rewrite concat_located by done. apply (alter_sorted key_cmp); [apply (insert_keeps key_cmp)|done].
    + intros ps' Hps. apply runs_ret. cbn beta in Hps. by rewrite Hps.
  - assert (map_contains key_cmp k p = true) as Hpp by (by apply not_false_is_true). rewrite Hpp. cbn [negb].
    eapply (runs_bind _ _ (λ l, l = (map_remove key_cmp k p).2)); [apply runs_then; by apply runs_ret|]. intros ? ->.
    pose proof (length_alter_present (λ _, None) k p Hpp) as Hl. cbn [map_remove snd].
    destruct (map_alter key_cmp (λ _, None) k p) as [|e p'] eqn:Ep.
    + eapply runs_bind_pair; [apply runs_drop|]. intros ? ->. by apply runs_ret.
    + eapply runs_bind_pair.
      * apply (runs_store _ qs p); [done|apply max_pos|lia| |done|done].
        rewrite <- Ep, concat_located by done. apply (alter_sorted key_cmp); [apply (remove_keeps key_cmp)|done].
      * intros ps' Hps. apply runs_ret. cbn beta in Hps. rewrite insert_mid in Hps |- *. unfold split_oversized in Hps.
        rewrite lookup_mid in Hps. cbn [mbind option_bind] in Hps. rewrite (proj2 (Nat.ltb_ge _ _)) in Hps by lia.
        by injection Hps as <-.
Qed.
End Changes.

(** ** The multimap an index stands for *)

Definition Multimap : Type := list (RelationalKey * list (RelationalKey * ())).
Definition posting_of (e : RelationalKey * RelationalKeySetPages) : RelationalKey * list (RelationalKey * ()) :=
  (e.1, set_contents e.2).
Definition index_contents (pages : RelationalIndexPages) : Multimap := posting_of <$> List.concat pages.

Definition insert_pair (k p : RelationalKey) (o : option (RelationalKey * list (RelationalKey * ())))
    : option (RelationalKey * list (RelationalKey * ())) :=
  Some (match o with
        | Some (k', ps) => (k', (map_insert key_cmp p () ps).2)
        | None => (k, [(p, ())])
        end).
Definition remove_pair (p : RelationalKey) (o : option (RelationalKey * list (RelationalKey * ())))
    : option (RelationalKey * list (RelationalKey * ())) :=
  '(k', ps) ← o;
  match (map_remove key_cmp p ps).2 with [] => None | ps => Some (k', ps) end.
Definition multimap_insert (k p : RelationalKey) (m : Multimap) : Multimap := map_alter key_cmp (insert_pair k p) k m.
Definition multimap_remove (k p : RelationalKey) (m : Multimap) : Multimap := map_alter key_cmp (remove_pair p) k m.
Definition multimap_contains (k p : RelationalKey) (m : Multimap) : bool :=
  match map_get key_cmp k m with Some ps => map_contains key_cmp p ps | None => false end.
(** The number of pairs. *)
Definition multimap_count (m : Multimap) : Z := zsum ((λ e, zlen e.2) <$> m).

Record index_wf (pages : RelationalIndexPages) : Prop := {
  iw_pages : pages_ok RELATIONAL_INDEX_PAGE_MAX_KEYS pages;
  iw_sets : Forall (λ e, set_wf e.2 ∧ set_contents e.2 ≠ []) (List.concat pages);
}.

Section Abstraction.
Context {V W : Type} (g : RelationalKey * V → RelationalKey * W) (Hg : ∀ e, (g e).1 = e.1).
Lemma get_fmap k l : get_key_value key_cmp k (g <$> l) = g <$> get_key_value key_cmp k l.
Proof using Hg.
  induction l as [|[k' v] l IH]; [done|]. cbn. pose proof (Hg (k', v)) as Hk. cbn in Hk.
  destruct (g (k', v)) as [k'' w] eqn:E. cbn in Hk. subst. by destruct (key_cmp k k'); cbn; rewrite ?E.
Qed.
Lemma alter_fmap f f' k l : g <$> f (get_key_value key_cmp k l) = f' (g <$> get_key_value key_cmp k l) →
  g <$> map_alter key_cmp f k l = map_alter key_cmp f' k (g <$> l).
Proof using Hg.
  assert (∀ o : option (RelationalKey * V), g <$> option_list o = option_list (g <$> o)) as Ho by (by intros []).
  induction l as [|[k' v] l IH]; cbn -[fmap].
  - intros H. rewrite Ho. cbn in *. by rewrite H.
  - rewrite fmap_cons. cbn [map_alter]. rewrite Hg. cbn [fst]. destruct (key_cmp k k').
    + intros H. rewrite fmap_app, Ho. cbn in *. by rewrite H.
    + intros H. rewrite fmap_app, Ho, fmap_cons. cbn in *. by rewrite H.
    + intros H. rewrite fmap_cons, IH by done. done.
Qed.
End Abstraction.

Lemma get_posting k l : get_key_value key_cmp k (posting_of <$> l) = posting_of <$> get_key_value key_cmp k l.
Proof. by apply get_fmap. Qed.

Lemma count_nonneg m : 0 ≤ multimap_count m.
Proof. apply zsum_nonneg, Forall_fmap, Forall_forall. intros e _. apply zlen_nonneg. Qed.
Lemma count_elem e m : e ∈ m → zlen e.2 ≤ multimap_count m.
Proof.
  unfold multimap_count. induction m as [|x m IH]; [by intros ?%elem_of_nil|]. cbn. pose proof (count_nonneg m) as Hn.
  unfold multimap_count in Hn. pose proof (zlen_nonneg x.2). intros [-> | H']%elem_of_cons; [lia|]. specialize (IH H'). lia.
Qed.

Section Index.
Implicit Types (pages : RelationalIndexPages) (k p : RelationalKey).

Lemma index_get_wf k l e : Forall (λ e, set_wf e.2 ∧ set_contents e.2 ≠ []) l → key_sorted key_cmp l →
  get_key_value key_cmp k l = Some e → set_wf e.2 ∧ set_contents e.2 ≠ [] ∧ posting_of e ∈ posting_of <$> l.
Proof.
  intros HF Hs [He _]%get_some; [|apply _|done]. destruct (proj1 (Forall_forall _ _) HF e He).
  split_and!; [done|done|]. by apply list_elem_of_fmap_2.
Qed.

(** The sets stay well-formed under a change that puts a well-formed one. *)
Lemma sets_alter f k l : Forall (λ e, set_wf e.2 ∧ set_contents e.2 ≠ []) l →
  (∀ e, f (get_key_value key_cmp k l) = Some e → set_wf e.2 ∧ set_contents e.2 ≠ []) →
  Forall (λ e, set_wf e.2 ∧ set_contents e.2 ≠ []) (map_alter key_cmp f k l).
Proof.
  intros HF Hf. rewrite (alter_ext key_cmp f (λ _, f (get_key_value key_cmp k l))) by done.
  apply Forall_forall. intros e [He|(o & Ho & _)]%elem_of_alter; [by apply (proj1 (Forall_forall _ _) HF)|by apply Hf].
Qed.

Lemma page_total pages qs q rs : pages = qs ++ q :: rs →
  ∀ k, (∀ a, a ∈ List.concat qs → key_cmp a.1 k = Lt) → (∀ b, b ∈ List.concat rs → key_cmp k b.1 = Lt) →
  get_key_value key_cmp k q = get_key_value key_cmp k (List.concat pages).
Proof. intros -> k H1 H2. by rewrite concat_mid, get_located. Qed.

Lemma contains_multimap k p pages : index_wf pages →
  multimap_contains k p (index_contents pages) =
    match get_key_value key_cmp k (List.concat pages) with
    | Some e => map_contains key_cmp p (set_contents e.2)
    | None => false
    end.
Proof.
  intros _. unfold multimap_contains, map_get, index_contents. rewrite get_posting.
  by destruct (get_key_value key_cmp k (List.concat pages)) as [[k' s]|].
Qed.

Lemma insert_posting_ok k p pages : index_wf pages → multimap_count (index_contents pages) < usize_max →
  ∃ pages', insert_posting_ordinary k p pages = Some (negb (multimap_contains k p (index_contents pages)), pages') ∧
    index_contents pages' = multimap_insert k p (index_contents pages) ∧ index_wf pages'.
Proof.
  intros Hw Hmax. pose proof Hw as [Hok HF]. rewrite contains_multimap by done. unfold insert_posting_ordinary.
  destruct pages as [|p0 ps0] eqn:Es.
  { destruct (set_insert_ok p key_set_default set_default_wf ltac:(by vm_compute)) as (s & -> & Hc & Hs). cbn [mbind option_bind].
    eexists. split; [done|]. split; [unfold index_contents, posting_of; cbn; by rewrite Hc|].
    constructor; [apply pages_ok_one, max_pos|]. apply Forall_singleton. cbn. by rewrite Hc. }
  rewrite <- Es in *. destruct (page_located _ k _ Hok ltac:(by rewrite Es)) as (qs & q & rs & E & -> & H1 & H2). clear Es p0 ps0.
  cbn [mbind option_bind]. pose proof (page_total pages qs q rs E k H1 H2) as Hg. assert (pages !! length qs = Some q) as -> by (rewrite E; apply lookup_mid).
  cbn [mbind option_bind]. unfold map_get. rewrite Hg.
  set (o := get_key_value key_cmp k (List.concat pages)) in *.
  assert (set_wf (default key_set_default (snd <$> o)) ∧ zlen (set_contents (default key_set_default (snd <$> o))) < usize_max) as [Hsw Hsz].
  { destruct o as [e|] eqn:Eo; [|by split; [apply set_default_wf|vm_compute]].
    destruct (index_get_wf k _ e HF (po_sorted _ _ Hok) Eo) as (? & _ & Hin). cbn. split; [done|].
    apply count_elem in Hin. unfold index_contents in Hmax. cbn in Hin. lia. }
  destruct (set_insert_ok p _ Hsw Hsz) as (s & -> & Hc & Hs). cbn [mbind option_bind].
  pose proof Hok as Hok1. rewrite E in Hok1. destruct (insert_split _ k s qs q rs (proj2 max_pos) Hok1 H1 H2) as (ps' & Esp & Hcat & Hok').
  rewrite <- E in Esp, Hcat. rewrite Esp. cbn [mbind option_bind]. cbn [map_insert snd] in Hcat.
  eexists. split.
  { f_equal. f_equal. f_equal. destruct o as [e|]; [done|]. done. }
  split.
  - unfold index_contents, multimap_insert. rewrite Hcat. apply alter_fmap; [done|]. fold o. destruct o as [[k' s0]|]; cbn in *.
    + unfold posting_of. cbn. by rewrite Hc.
    + unfold posting_of. cbn. by rewrite Hc.
  - constructor; [done|]. rewrite Hcat. apply sets_alter; [done|]. fold o. unfold insert_entry. intros e [= <-].
    assert (set_contents s ≠ []) by (rewrite Hc; apply insert_nonempty). by destruct o as [[k' s0]|].
Qed.

(** The entry of a key after its postings changed to [s]. *)
Definition put_postings (drop_key : bool) (s : RelationalKeySetPages)
    (o : option (RelationalKey * RelationalKeySetPages)) : option (RelationalKey * RelationalKeySetPages) :=
  if drop_key then None else update_entry (λ _, s) o.
Lemma put_postings_alter (b : bool) s k (l : list (RelationalKey * RelationalKeySetPages)) :
  (if b then (map_remove key_cmp k l).2 else map_update key_cmp k (λ _, s) l) = map_alter key_cmp (put_postings b s) k l.
Proof. by destruct b. Qed.
Lemma put_postings_keeps b s k : keeps_key key_cmp k (put_postings b s).
Proof. destruct b; [apply (remove_keeps key_cmp)|apply (update_keeps key_cmp)]. Qed.

Lemma remove_pair_set k' p s s' : set_contents s' = (map_remove key_cmp p (set_contents s)).2 → set_wf s' →
  posting_of <$> put_postings (set_is_empty s') s' (Some (k', s)) = remove_pair p (Some (k', set_contents s)).
Proof.
  intros Hc Hw. pose proof (set_empty_ok s' Hw) as He. cbn [remove_pair mbind option_bind]. rewrite <- Hc.
  unfold put_postings. destruct (set_is_empty s').
  - by rewrite (proj1 He eq_refl).
  - destruct (set_contents s') eqn:E; [naive_solver|]. cbn. unfold posting_of. cbn. by rewrite E.
Qed.

Lemma drop_iff_empty (removed : bool) p s s' : set_contents s ≠ [] → set_wf s' →
  set_contents s' = (map_remove key_cmp p (set_contents s)).2 → removed = map_contains key_cmp p (set_contents s) →
  removed && set_is_empty s' = set_is_empty s'.
Proof.
  intros Hne Hw Hc ->. destruct (map_contains key_cmp p (set_contents s)) eqn:E; [done|]. cbn.
  destruct (set_is_empty s') eqn:Ee; [|done]. apply set_empty_ok in Ee; [|done]. rewrite Hc in Ee. cbn in Ee.
  rewrite alter_absent in Ee; [done|done|]. unfold map_contains in E. by destruct (get_key_value _ _ _).
Qed.

(** An entry whose postings change, or are dropped, in the index. *)
Lemma put_postings_ok k b s pages qs q rs : index_wf pages → pages = qs ++ q :: rs →
  (∀ a, a ∈ List.concat qs → key_cmp a.1 k = Lt) → (∀ b, b ∈ List.concat rs → key_cmp k b.1 = Lt) →
  map_contains key_cmp k q = true → (b = false → set_wf s ∧ set_contents s ≠ []) →
  ∃ pages', match map_alter key_cmp (put_postings b s) k q with
            | [] => delete (length qs) pages
            | _ => <[length qs := map_alter key_cmp (put_postings b s) k q]> pages
            end = pages' ∧
    List.concat pages' = map_alter key_cmp (put_postings b s) k (List.concat pages) ∧ index_wf pages'.
Proof.
  intros [Hok HF] E H1 H2 Hcon Hs. pose proof Hok as Hok1. rewrite E in Hok1.
  destruct (replace_ok _ (put_postings b s) k qs q rs Hok1 (put_postings_keeps b s k) H1 H2) as (ps' & Eps & Hc & Hok').
  { pose proof (length_alter_present (put_postings b s) k q Hcon). pose proof (page_short _ _ _ _ Hok1). lia. }
  rewrite <- E in Eps, Hc. exists ps'. split_and!; [done|done|]. constructor; [done|]. rewrite Hc. apply sets_alter; [done|].
  intros e. unfold put_postings. destruct b; [done|]. destruct (get_key_value key_cmp k (List.concat pages)) as [[k' s0]|]; [|done].
  intros [= <-]. by apply Hs.
Qed.

Lemma remove_posting_ok k p pages : index_wf pages →
  ∃ pages', remove_posting_ordinary k p pages = Some pages' ∧
    index_contents pages' = multimap_remove k p (index_contents pages) ∧ index_wf pages'.
Proof.
  intros Hw. pose proof Hw as [Hok HF]. unfold remove_posting_ordinary.
  destruct (decide (pages = [])) as [->|Hne]; [by exists []|].
  destruct (page_located _ k _ Hok Hne) as (qs & q & rs & E & -> & H1 & H2).
  pose proof (page_total pages qs q rs E k H1 H2) as Hg.
  assert (pages !! length qs = Some q) as -> by (rewrite E; apply lookup_mid). cbn [mbind option_bind]. unfold map_get.
  destruct (get_key_value key_cmp k q) as [[k' s]|] eqn:Eq; cbn [fmap option_fmap option_map snd].
  2: { exists pages. split_and!; [done| |done]. symmetry. unfold multimap_remove, index_contents. apply alter_absent; [done|].
       by rewrite get_posting, <- Hg. }
  symmetry in Hg. destruct (index_get_wf k _ _ HF (po_sorted _ _ Hok) Hg) as (Hs & Hsn & _). cbn [snd] in *.
  destruct (set_remove_ok p s Hs) as (s' & -> & Hc & Hs'). cbn [mbind option_bind].
  rewrite (drop_iff_empty _ p s s' Hsn Hs' Hc eq_refl), put_postings_alter.
  destruct (put_postings_ok k (set_is_empty s') s' pages qs q rs Hw E H1 H2) as (ps' & -> & Hcat & Hw').
  { apply map_contains_get. by eexists. }
  { intros Ee. split; [done|]. intros En. apply set_empty_ok in En; [|done]. congruence. }
  eexists. split_and!; [done| |done]. unfold index_contents, multimap_remove. rewrite Hcat.
  apply alter_fmap; [done|]. rewrite Hg. cbn [fmap option_fmap option_map]. by apply remove_pair_set.
Qed.

Lemma posting_present_ok k p pages : index_wf pages →
  posting_present k p pages = Some (multimap_contains k p (index_contents pages)).
Proof.
  intros Hw. pose proof Hw as [Hok HF]. rewrite contains_multimap by done. unfold posting_present, index_get.
  destruct (decide (pages = [])) as [->|Hne]; [done|].
  destruct (page_located _ k _ Hok Hne) as (qs & q & rs & E & -> & H1 & H2). cbn [mbind option_bind].
  assert (pages !! length qs = Some q) as -> by (rewrite E; apply lookup_mid). cbn [mbind option_bind]. unfold map_get.
  rewrite (page_total pages qs q rs E k H1 H2). destruct (get_key_value key_cmp k (List.concat pages)) as [e|] eqn:Eg; [|done]. cbn.
  destruct (index_get_wf k _ e HF (po_sorted _ _ Hok) Eg) as (Hs & _). by apply set_contains_ok.
Qed.
Lemma index_get_ok k pages : index_wf pages →
  set_contents <$> index_get k pages = map_get key_cmp k (index_contents pages).
Proof.
  intros Hw. pose proof Hw as [Hok HF]. unfold index_get, index_contents, map_get. rewrite get_posting.
  destruct (decide (pages = [])) as [->|Hne]; [done|].
  destruct (page_located _ k _ Hok Hne) as (qs & q & rs & E & -> & H1 & H2). cbn [mbind option_bind].
  assert (pages !! length qs = Some q) as -> by (rewrite E; apply lookup_mid). cbn [mbind option_bind].
  rewrite (page_total pages qs q rs E k H1 H2). by destruct (get_key_value key_cmp k (List.concat pages)).
Qed.
End Index.

Section IndexChanges.
Context (posting_node_bytes posting_ownership_bytes index_node_bytes index_ownership_bytes : Z).
Context (Hpn : size_ok posting_node_bytes) (Hpo : size_ok posting_ownership_bytes).
Context (Hin : size_ok index_node_bytes) (Hio : size_ok index_ownership_bytes).
Implicit Types (pages : RelationalIndexPages) (k p : RelationalKey).

(** The operation a change stands for: whether it changed anything, and the index. *)
Definition index_change (insert : bool) k p pages : option (bool * RelationalIndexPages) :=
  if insert then insert_posting_ordinary k p pages
  else (λ pages', (multimap_contains k p (index_contents pages), pages')) <$> remove_posting_ordinary k p pages.

Lemma alter_same {V} f k (l : list (RelationalKey * V)) :
  f (get_key_value key_cmp k l) = get_key_value key_cmp k l → map_alter key_cmp f k l = l.
Proof.
  intros H. rewrite (alter_ext key_cmp f id) by done. clear H. induction l as [|[k' v] l IH]; [done|]. cbn.
  destruct (key_cmp k k'); [done|done|]. by rewrite IH.
Qed.
Lemma split_short {V} max qs (q : list (RelationalKey * V)) rs : (length q ≤ max)%nat →
  split_oversized max (length qs) (qs ++ q :: rs) = Some (qs ++ q :: rs).
Proof.
  intros H. unfold split_oversized. rewrite lookup_mid. cbn [mbind option_bind]. by rewrite (proj2 (Nat.ltb_ge _ _)).
Qed.

(** Nothing to do: the operation leaves the index as it is. *)
Lemma index_change_same insert k p pages : index_wf pages → multimap_count (index_contents pages) < usize_max →
  multimap_contains k p (index_contents pages) = insert → index_change insert k p pages = Some (false, pages).
Proof.
  intros Hw Hmax Hp. pose proof Hw as [Hok HF]. rewrite contains_multimap in Hp by done.
  unfold index_change. rewrite contains_multimap, Hp by done. unfold insert_posting_ordinary, remove_posting_ordinary.
  destruct (decide (pages = [])) as [->|Hne]; [by subst|].
  destruct (page_located _ k _ Hok Hne) as (qs & q & rs & E & Hi & H1 & H2). rewrite Hi.
  assert (pages !! length qs = Some q) as Hlk by (rewrite E; apply lookup_mid).
  pose proof (page_total pages qs q rs E k H1 H2) as Hg. rewrite <- Hg in Hp.
  rewrite E in Hok. pose proof (page_short _ _ _ _ Hok) as Hshort.
  destruct (get_key_value key_cmp k q) as [[k' s]|] eqn:Eq.
  - symmetry in Hg. destruct (index_get_wf k _ _ HF ltac:(by rewrite E; apply Hok) Hg) as (Hs & Hsn & Hel%count_elem).
    assert (zlen (set_contents s) < usize_max) as Hz by (unfold index_contents in Hmax; cbn in *; lia). cbn [snd] in *.
    pose proof (set_change_present p insert s Hs Hp Hz) as Hch. destruct insert.
    + destruct pages; [done|]. cbn [mbind option_bind]. rewrite Hlk. cbn [mbind option_bind]. unfold map_get. rewrite Eq.
      cbn [fmap option_fmap option_map snd default from_option id]. cbn [set_change] in Hch. rewrite Hch. cbn [mbind option_bind map_insert snd].
      rewrite alter_same by (by rewrite Eq). rewrite E, insert_mid, split_short by done. done.
    + rewrite Hlk. cbn [mbind option_bind]. unfold map_get. rewrite Eq. cbn [fmap option_fmap option_map snd].
      cbn [set_change] in Hch. rewrite Hch. cbn [mbind option_bind andb]. unfold map_update.
      rewrite alter_same by (by rewrite Eq). apply pages_ok_mid in Hok as (_ & _ & [Hqn _] & _).
      rewrite E, insert_mid. by destruct q.
  - subst insert. rewrite Hlk. cbn [mbind option_bind]. unfold map_get. by rewrite Eq.
Qed.

Lemma runs_singleton p :
  runs (checkpoint_singleton posting_node_bytes posting_ownership_bytes p)
    (λ s, set_insert_ordinary p key_set_default = Some (true, s)).
Proof using Hpn Hpo.
  unfold checkpoint_singleton. do 2 apply runs_then.
  eapply runs_bind; [apply set_change_ok; [done|done|apply set_default_wf|by vm_compute]|].
  intros [b s] Hc. apply runs_ret. cbn [set_change] in Hc. rewrite Hc.
  destruct (set_insert_ok p key_set_default set_default_wf ltac:(by vm_compute)) as (s' & Hs & _). rewrite Hs in Hc. by injection Hc as <- <-.
Qed.

(** The entry written for a key, in a page that is put back. *)
Lemma runs_index_page insert k p pages qs q rs : index_wf pages → multimap_count (index_contents pages) < usize_max →
  pages = qs ++ q :: rs → page_index k pages = Some (length qs) →
  (∀ a, a ∈ List.concat qs → key_cmp a.1 k = Lt) → (∀ b, b ∈ List.concat rs → key_cmp k b.1 = Lt) →
  multimap_contains k p (index_contents pages) ≠ insert →
  runs (match map_get key_cmp k q with
        | Some postings =>
            '(_, postings) ← set_change_with_work_context posting_node_bytes posting_ownership_bytes p insert postings;
            mret (if set_is_empty postings then (map_remove key_cmp k q).2
                  else map_update key_cmp k (λ _, postings) q)
        | None =>
            postings ← checkpoint_singleton posting_node_bytes posting_ownership_bytes p;
            key ← clone_with_allocations k;
            ask;; mret (map_insert key_cmp key postings q).2
        end)
    (λ q', ∃ f, q' = map_alter key_cmp f k q ∧ keeps_key key_cmp k f ∧ (insert = true → q' ≠ []) ∧
       (insert = false → map_contains key_cmp k q = true) ∧
       if insert then
         insert_posting_ordinary k p pages =
           (split_oversized RELATIONAL_INDEX_PAGE_MAX_KEYS (length qs) (<[length qs := q']> pages)
              ≫= λ pages', Some (true, pages'))
       else remove_posting_ordinary k p pages =
              Some (match q' with [] => delete (length qs) pages | _ => <[length qs := q']> pages end)).
Proof using Hpn Hpo.
  intros Hw Hmax E Hi H1 H2 Hp. pose proof Hw as [Hok HF]. rewrite contains_multimap in Hp by done.
  assert (pages !! length qs = Some q) as Hlk by (rewrite E; apply lookup_mid).
  pose proof (page_total pages qs q rs E k H1 H2) as Hg. rewrite <- Hg in Hp. unfold map_get.
  assert (pages ≠ []) as Hne by (rewrite E; by destruct qs).
  destruct (get_key_value key_cmp k q) as [[k' s]|] eqn:Eq; cbn [fmap option_fmap option_map snd].
  - symmetry in Hg. destruct (index_get_wf k _ _ HF (po_sorted _ _ Hok) Hg) as (Hs & Hsn & Hel%count_elem).
    assert (zlen (set_contents s) < usize_max) as Hz by (unfold index_contents in Hmax; cbn in *; lia). cbn [snd] in *.
    eapply runs_bind; [by apply set_change_ok|]. intros [b s'] Hc. apply runs_ret.
    rewrite put_postings_alter. exists (put_postings (set_is_empty s') s'). split; [done|]. split; [apply put_postings_keeps|].
    destruct insert; cbn [set_change] in Hc.
    + destruct (set_insert_ok p s Hs Hz) as (s1 & Hi1 & Hc1 & Hw1). rewrite Hi1 in Hc. injection Hc as <- <-.
      assert (set_is_empty s1 = false) as Ene.
      { destruct (set_is_empty s1) eqn:Ee; [|done]. apply set_empty_ok in Ee; [|done]. rewrite Hc1 in Ee. by apply insert_nonempty in Ee. }
      rewrite Ene. assert (map_alter key_cmp (put_postings false s1) k q = map_alter key_cmp (insert_entry k s1) k q) as Ea
        by (apply alter_ext; by rewrite Eq).
      split_and!; [intros _; rewrite Ea; apply insert_nonempty|done|]. unfold insert_posting_ordinary. destruct pages; [done|].
      rewrite Hi. cbn [mbind option_bind]. rewrite Hlk. cbn [mbind option_bind]. unfold map_get. rewrite Eq.
      cbn [fmap option_fmap option_map snd default from_option id]. rewrite Hi1. cbn [mbind option_bind map_insert snd]. rewrite Ea.
      by rewrite (not_true_is_false _ Hp).
    + split_and!; [done|intros _; apply map_contains_get; by eexists|].
      destruct (set_remove_ok p s Hs) as (s1 & Hr1 & Hc1 & Hw1). rewrite Hr1 in Hc. injection Hc as <- <-.
      unfold remove_posting_ordinary. rewrite Hi, Hlk. cbn [mbind option_bind]. unfold map_get. rewrite Eq.
      cbn [fmap option_fmap option_map snd]. rewrite Hr1. cbn [mbind option_bind].
      by rewrite (drop_iff_empty _ p s s1 Hsn Hw1 Hc1 eq_refl), put_postings_alter.
  - destruct insert; [|done]. eapply runs_bind; [apply runs_singleton|]. intros s Hs.
    eapply runs_bind; [apply runs_clone|]. intros ? ->. apply runs_then, runs_ret.
    exists (insert_entry k s). cbn [map_insert snd]. split_and!; [done|apply (insert_keeps key_cmp)|intros _; apply insert_nonempty|done|].
    unfold insert_posting_ordinary. destruct pages; [done|].
    rewrite Hi. cbn [mbind option_bind]. rewrite Hlk. cbn [mbind option_bind]. unfold map_get. rewrite Eq.
    cbn [fmap option_fmap option_map default from_option id]. by rewrite Hs.
Qed.

Lemma index_change_ok k p insert pages : index_wf pages → multimap_count (index_contents pages) < usize_max →
  zlen (List.concat pages) < usize_max →
  runs (change_posting_with_work_context posting_node_bytes posting_ownership_bytes index_node_bytes index_ownership_bytes
          k p insert pages)
    (λ r, index_change insert k p pages = Some r).
Proof using Hpn Hpo Hin Hio.
  intros Hw Hmax Hkeys. unfold change_posting_with_work_context. pose proof Hw as [Hok HF].
  eapply runs_bind; [eapply runs_panic; by apply posting_present_ok|]. intros ? ->.
  destruct (Bool.eqb_spec (multimap_contains k p (index_contents pages)) insert) as [Hp|Hp].
  { apply runs_ret. by apply index_change_same. }
  pose proof (pages_count _ _ Hok). eapply runs_bind; [apply runs_directory; lia|]. intros _ _. unfold index_change.
  pose proof (proj2 max_small) as H256.
  destruct (decide (pages = [])) as [->|Hne].
  { destruct insert; [|by destruct Hp]. cbn [page_index]. eapply runs_bind; [by eapply runs_panic|]. intros ? ->.
    eapply runs_bind; [by apply runs_reserve|]. intros _ _. eapply runs_bind; [by apply runs_ret with (P := λ l, l = [])|].
    intros ? ->. cbn [map_get get_key_value fmap option_fmap option_map]. 
    eapply (runs_bind _ _ (λ l, insert_posting_ordinary k p [] = Some (true, [l]) ∧ ∃ e, l = [e])).
    { eapply runs_bind; [apply runs_singleton|]. intros s Hs. eapply runs_bind; [apply runs_clone|]. intros ? ->.
      apply runs_then, runs_ret. cbn [insert_posting_ordinary]. rewrite Hs. split; [done|]. by eexists. }
    intros ? [-> [e ->]]. eapply runs_bind_pair; [apply runs_first, max_pos|]. intros ? ->. by apply runs_ret. }
  destruct (page_located _ k _ Hok Hne) as (qs & q & rs & E & Hi & H1 & H2). rewrite Hi.
  eapply runs_bind; [eapply runs_panic; rewrite E; apply lookup_mid|]. intros ? ->.
  pose proof Hok as Hok1. rewrite E in Hok1. pose proof (page_short _ _ _ _ Hok1) as Hshort.
  eapply runs_bind; [apply runs_reserve; [done|done|unfold zlen; lia]|]. intros _ _.
  eapply runs_bind; [apply runs_copy; by eapply index_page_sorted|]. intros ? ->. cbn [app].
  eapply runs_bind; [by apply (runs_index_page insert k p pages qs q rs)|].
  intros q' (f & Eq' & Hf & Hins & Hrem & Hres). cbn beta in Hres.
  apply pages_ok_mid in Hok1 as (Hs & HF1 & _ & HF2).
  assert (key_sorted key_cmp (List.concat (qs ++ q' :: rs))) as Hs'
    by (rewrite Eq', concat_located by done; by apply (alter_sorted key_cmp)).
  subst pages. destruct q' as [|e0 q0] eqn:Eq0.
  - destruct insert; [by destruct Hins|]. eapply runs_bind_pair; [apply runs_drop|]. intros ? ->. apply runs_ret.
    rewrite Hres. cbn [fmap option_fmap option_map]. by rewrite (not_false_is_true _ Hp).
  - rewrite <- Eq0 in *. eapply runs_bind_pair.
    + apply (runs_store _ qs q q' rs); [by rewrite Eq0|apply max_pos| |done|done|done].
      rewrite Eq'. pose proof (length_alter f k q). lia.
    + intros ps' Hps. cbn beta in Hps. apply runs_ret. destruct insert.
      * by rewrite Hres, Hps.
      * rewrite Hres. rewrite insert_mid in Hps |- *. rewrite split_short in Hps.
        -- injection Hps as <-. cbn [fmap option_fmap option_map]. rewrite (not_false_is_true _ Hp). by rewrite Eq0.
        -- rewrite Eq'. pose proof (length_alter_present f k q (Hrem eq_refl)). lia.
Qed.
End IndexChanges.

(** ** Counting, and the pairs of a multimap *)

Lemma count_alter f k m :
  multimap_count (map_alter key_cmp f k m) =
    multimap_count m - opt_sum (λ e, zlen e.2) (get_key_value key_cmp k m)
    + opt_sum (λ e, zlen e.2) (f (get_key_value key_cmp k m)).
Proof. apply zsum_alter. Qed.
Lemma count_insert k p m : multimap_count (multimap_insert k p m) ≤ multimap_count m + 1.
Proof.
  unfold multimap_insert. rewrite count_alter. destruct (get_key_value key_cmp k m) as [[k' ps]|]; cbn [opt_sum insert_pair snd].
  - pose proof (zlen_insert key_cmp p () ps). lia.
  - change (zlen [(p, ())]) with 1. lia.
Qed.
Lemma count_remove k p m : multimap_count (multimap_remove k p m) ≤ multimap_count m.
Proof.
  unfold multimap_remove. rewrite count_alter. destruct (get_key_value key_cmp k m) as [[k' ps]|]; cbn [opt_sum remove_pair mbind option_bind snd]; [|lia].
  assert (zlen (map_remove key_cmp p ps).2 ≤ zlen ps).
  { cbn. rewrite zlen_alter. destruct (get_key_value key_cmp p ps); cbn; lia. }
  destruct (map_remove key_cmp p ps).2 eqn:E; cbn [opt_sum snd]; [pose proof (zlen_nonneg ps)|]; lia.
Qed.
Lemma keys_count pages : index_wf pages → zlen (List.concat pages) ≤ multimap_count (index_contents pages).
Proof.
  intros [_ HF]. unfold index_contents, multimap_count. induction HF as [|e l [_ He] _ IH]; [done|].
  rewrite zlen_cons. cbn in *. destruct (set_contents e.2) as [|x ps]; [done|]. rewrite zlen_cons. pose proof (zlen_nonneg ps). lia.
Qed.

Definition multimap_ok (m : Multimap) : Prop := key_sorted key_cmp m ∧ Forall (λ e, key_sorted key_cmp e.2 ∧ e.2 ≠ []) m.
Lemma contents_ok pages : index_wf pages → multimap_ok (index_contents pages).
Proof.
  intros [[Hs _] HF]. unfold index_contents. split.
  - clear HF. induction (List.concat pages) as [|e l IH]; [constructor|]. apply key_sorted_cons in Hs as [Hs Hlt].
    rewrite fmap_cons. apply key_sorted_cons. split; [by apply IH|]. intros b (a & -> & Ha)%list_elem_of_fmap_1. by apply Hlt.
  - apply Forall_fmap. eapply Forall_impl; [exact HF|]. intros e [[[Hp _] _] Hne]. done.
Qed.

Lemma insert_pair_keeps k p : keeps_key key_cmp k (insert_pair k p).
Proof. intros [[k' ps]|] e H [= <-]; cbn; [by apply (H (k', ps))|apply (ord_refl key_cmp)]. Qed.
Lemma remove_pair_keeps k p : keeps_key key_cmp k (remove_pair p).
Proof.
  intros [[k' ps]|] e H; [|done]. cbn [remove_pair mbind option_bind]. destruct (map_remove key_cmp p ps).2; [done|].
  intros [= <-]. cbn. by apply (H (k', ps)).
Qed.

Lemma get_equal_key {V} k j (l : list (RelationalKey * V)) :
  key_cmp k j = Eq → get_key_value key_cmp j l = get_key_value key_cmp k l.
Proof.
  intros E. induction l as [|[k' v] l IH]; [done|]. cbn. by rewrite <- (ord_eq_l key_cmp k j k' E), IH.
Qed.
Lemma contains_alter {V} f k j (l : list (RelationalKey * V)) : keeps_key key_cmp k f → key_sorted key_cmp l →
  map_contains key_cmp j (map_alter key_cmp f k l) =
    match key_cmp k j with
    | Eq => match f (get_key_value key_cmp k l) with Some _ => true | None => false end
    | _ => map_contains key_cmp j l
    end.
Proof.
  intros Hf Hs. destruct (key_cmp k j) eqn:E; unfold map_contains.
  - by rewrite (get_equal_key k j _ E), (get_alter key_cmp) by done.
  - rewrite (get_alter_ne key_cmp f k j l Hf Hs); [done|by rewrite E].
  - rewrite (get_alter_ne key_cmp f k j l Hf Hs); [done|by rewrite E].
Qed.

(** The multimap as a set of pairs. *)
Definition same_pair (k p j q : RelationalKey) : bool := key_eqb k j && key_eqb p q.
Lemma key_eqb_match k j : key_eqb k j = match key_cmp k j with Eq => true | _ => false end.
Proof. pose proof (key_eqb_cmp k j). destruct (key_eqb k j), (key_cmp k j); naive_solver. Qed.

Lemma contains_get k p m : multimap_contains k p m =
  match get_key_value key_cmp k m with Some e => map_contains key_cmp p e.2 | None => false end.
Proof. unfold multimap_contains, map_get. by destruct (get_key_value key_cmp k m). Qed.

Lemma contains_insert_pair k p j q m : multimap_ok m →
  multimap_contains j q (multimap_insert k p m) = same_pair k p j q || multimap_contains j q m.
Proof.
  intros [Hs HF]. rewrite !contains_get. unfold same_pair, multimap_insert. rewrite !key_eqb_match.
  destruct (key_cmp k j) eqn:E; cbn [andb orb].
  - rewrite !(get_equal_key k j _ E), (get_alter key_cmp) by (done || apply insert_pair_keeps).
    destruct (get_key_value key_cmp k m) as [[k' ps]|] eqn:Eg; cbn [insert_pair snd].
    + apply get_some in Eg as [He _]; [|apply _|done]. destruct (proj1 (Forall_forall _ _) HF _ He) as [Hps _]. cbn [snd] in Hps.
      cbn [map_insert snd]. rewrite contains_alter by (done || apply (insert_keeps key_cmp)). by destruct (key_cmp p q).
    + rewrite orb_false_r. unfold map_contains. cbn. rewrite (ord_opp key_cmp p q). by destruct (key_cmp p q).
  - rewrite (get_alter_ne key_cmp); [done|apply insert_pair_keeps|done|by rewrite E].
  - rewrite (get_alter_ne key_cmp); [done|apply insert_pair_keeps|done|by rewrite E].
Qed.
Lemma contains_remove_pair k p j q m : multimap_ok m →
  multimap_contains j q (multimap_remove k p m) = negb (same_pair k p j q) && multimap_contains j q m.
Proof.
  intros [Hs HF]. rewrite !contains_get. unfold same_pair, multimap_remove. rewrite !key_eqb_match.
  destruct (key_cmp k j) eqn:E; cbn [andb orb].
  - rewrite !(get_equal_key k j _ E), (get_alter key_cmp) by (done || apply remove_pair_keeps).
    destruct (get_key_value key_cmp k m) as [[k' ps]|] eqn:Eg; cbn [remove_pair mbind option_bind snd]; [|by rewrite andb_false_r].
    apply get_some in Eg as [He _]; [|apply _|done]. destruct (proj1 (Forall_forall _ _) HF _ He) as [Hps _]. cbn [snd] in Hps.
    transitivity (map_contains key_cmp q (map_remove key_cmp p ps).2).
    { by destruct (map_remove key_cmp p ps).2. }
    cbn [map_remove snd]. rewrite contains_alter by (done || apply (remove_keeps key_cmp)). by destruct (key_cmp p q).
  - rewrite (get_alter_ne key_cmp); [done|apply remove_pair_keeps|done|by rewrite E].
  - rewrite (get_alter_ne key_cmp); [done|apply remove_pair_keeps|done|by rewrite E].
Qed.

(** ** Any sequence of changes *)

Inductive index_op :=
  | InsertPosting (k p : RelationalKey)
  | RemovePosting (k p : RelationalKey)
  | ChangePosting (k p : RelationalKey) (insert : bool) (w : Answers).

Inductive index_outcome :=
  | Changed (b : bool)
  | Removed
  | Refused (message : string).

Section Operations.
Context (posting_node_bytes posting_ownership_bytes index_node_bytes index_ownership_bytes : Z).
Implicit Types (pages : RelationalIndexPages) (m : Multimap).

Definition run_index_op (op : index_op) pages : option (index_outcome * RelationalIndexPages) :=
  match op with
  | InsertPosting k p => '(b, pages) ← insert_posting_ordinary k p pages; Some (Changed b, pages)
  | RemovePosting k p => pages ← remove_posting_ordinary k p pages; Some (Removed, pages)
  | ChangePosting k p insert w =>
      r ← change_posting_with_work_context posting_node_bytes posting_ownership_bytes index_node_bytes
            index_ownership_bytes k p insert pages w;
      match r with
      | Ok (b, pages, _) => Some (Changed b, pages)
      | Err (Admission message) => Some (Refused message, pages)
      | Err _ => None
      end
  end.

(** What an operation may answer, and the multimap it leaves. *)
Definition spec_index_op (op : index_op) (out : index_outcome) m m' : Prop :=
  match op with
  | InsertPosting k p => out = Changed (negb (multimap_contains k p m)) ∧ m' = multimap_insert k p m
  | RemovePosting k p => out = Removed ∧ m' = multimap_remove k p m
  | ChangePosting k p insert w =>
      (∃ message, out = Refused message ∧ Some message ∈ w ∧ m' = m) ∨
      (out = Changed (negb (Bool.eqb (multimap_contains k p m) insert)) ∧
       m' = if insert then multimap_insert k p m else multimap_remove k p m)
  end.

Fixpoint run_index_ops (ops : list index_op) pages : option (list index_outcome * RelationalIndexPages) :=
  match ops with
  | [] => Some ([], pages)
  | op :: ops => '(out, pages) ← run_index_op op pages; '(outs, pages) ← run_index_ops ops pages; Some (out :: outs, pages)
  end.
Fixpoint spec_index_ops (ops : list index_op) (outs : list index_outcome) m m' : Prop :=
  match ops, outs with
  | [], [] => m' = m
  | op :: ops, out :: outs => ∃ m1, spec_index_op op out m m1 ∧ spec_index_ops ops outs m1 m'
  | _, _ => False
  end.

Context (Hpn : size_ok posting_node_bytes) (Hpo : size_ok posting_ownership_bytes).
Context (Hin : size_ok index_node_bytes) (Hio : size_ok index_ownership_bytes).

Lemma index_change_spec insert k p pages b pages' : index_wf pages → multimap_count (index_contents pages) < usize_max →
  index_change insert k p pages = Some (b, pages') →
  b = negb (Bool.eqb (multimap_contains k p (index_contents pages)) insert) ∧ index_wf pages' ∧
  index_contents pages' = if insert then multimap_insert k p (index_contents pages) else multimap_remove k p (index_contents pages).
Proof.
  intros Hw Hmax. unfold index_change. destruct insert.
  - destruct (insert_posting_ok k p pages Hw Hmax) as (ps & -> & Hc & Hw'). intros [= <- <-]. split_and!; [|done|done].
    by destruct (multimap_contains _ _ _).
  - destruct (remove_posting_ok k p pages Hw) as (ps & -> & Hc & Hw'). intros [= <- <-]. split_and!; [|done|done].
    by destruct (multimap_contains _ _ _).
Qed.

Lemma run_index_op_ok op pages : index_wf pages → multimap_count (index_contents pages) < usize_max →
  ∃ out pages', run_index_op op pages = Some (out, pages') ∧
    spec_index_op op out (index_contents pages) (index_contents pages') ∧ index_wf pages' ∧
    multimap_count (index_contents pages') ≤ multimap_count (index_contents pages) + 1.
Proof using Hpn Hpo Hin Hio.
  intros Hw Hmax. pose proof (count_nonneg (index_contents pages)). destruct op as [k p|k p|k p insert w]; cbn [run_index_op spec_index_op].
  - destruct (insert_posting_ok k p pages Hw Hmax) as (ps & -> & Hc & Hw'). do 2 eexists. split_and!; [done|done|done|done|].
    rewrite Hc. apply count_insert.
  - destruct (remove_posting_ok k p pages Hw) as (ps & -> & Hc & Hw'). do 2 eexists. split_and!; [done|done|done|done|].
    rewrite Hc. pose proof (count_remove k p (index_contents pages)). lia.
  - pose proof (keys_count pages Hw).
    pose proof (index_change_ok _ _ _ _ Hpn Hpo Hin Hio k p insert pages Hw Hmax ltac:(lia) w) as Hr.
    destruct (change_posting_with_work_context _ _ _ _ k p insert pages w) as [[[[b ps] w']|[message| | |]]|]; [| |done..].
    + destruct Hr as [Hr _]. destruct (index_change_spec insert k p pages b ps Hw Hmax Hr) as (-> & Hw' & Hc).
      do 2 eexists. split_and!; [done|by right|done|]. rewrite Hc.
      pose proof (count_insert k p (index_contents pages)). pose proof (count_remove k p (index_contents pages)). destruct insert; lia.
    + do 2 eexists. split_and!; [done|left; by exists message|done|lia].
Qed.

(** C9: The secondary index refines an ordered multimap from index keys to sets
    of primary keys.  Any sequence of insertions and removals of postings, plain
    or under a checkpoint work context, runs without a panic from any
    well-formed index; every operation answers whether it changed the multimap
    and leaves the changed one, except that a change under a work context may be
    refused, only with a message of the context, and then leaves the index
    untouched.  The index stays well-formed: keys strictly ordered over pages of
    1 to 256 keys, every posting list non-empty, ordered, paged likewise, with an
    exact length. *)
Theorem relational_index_refines ops pages : index_wf pages →
  multimap_count (index_contents pages) + zlen ops < 2 ^ 62 →
  ∃ outs pages', run_index_ops ops pages = Some (outs, pages') ∧
    spec_index_ops ops outs (index_contents pages) (index_contents pages') ∧ index_wf pages'.
Proof using Hpn Hpo Hin Hio.
  revert pages. induction ops as [|op ops IH]; intros pages Hw Hmax; [by exists [], pages|]. rewrite zlen_cons in Hmax.
  pose proof (zlen_nonneg ops). assert (2 ^ 62 < usize_max) by (by vm_compute).
  destruct (run_index_op_ok op pages Hw ltac:(lia)) as (out & ps1 & E1 & Hs1 & Hw1 & Hc1).
  destruct (IH ps1 Hw1 ltac:(lia)) as (outs & ps2 & E2 & Hs2 & Hw2).
  exists (out :: outs), ps2. cbn [run_index_ops]. rewrite E1. cbn [mbind option_bind]. rewrite E2. split_and!; [done| |done]. by exists (index_contents ps1).
Qed.
End Operations.

(** What the multimap means: a set of pairs.  In a well-formed index, looking a
    key up finds its set of primary keys, a pair is found present exactly when
    the multimap contains it, and inserting or removing a pair changes the
    membership of that pair (up to the equality of keys) and of no other. *)
Theorem relational_index_pairs pages k p : index_wf pages →
  set_contents <$> index_get k pages = map_get key_cmp k (index_contents pages) ∧
  posting_present k p pages = Some (multimap_contains k p (index_contents pages)) ∧
  (∀ j q, multimap_contains j q (multimap_insert k p (index_contents pages)) =
    same_pair k p j q || multimap_contains j q (index_contents pages)) ∧
  (∀ j q, multimap_contains j q (multimap_remove k p (index_contents pages)) =
    negb (same_pair k p j q) && multimap_contains j q (index_contents pages)).
Proof.
  intros Hw. pose proof (contents_ok _ Hw) as Hm.
  split_and!; [by apply index_get_ok|by apply posting_present_ok|intros; by apply contains_insert_pair|intros; by apply contains_remove_pair].
Qed.

(** An index built by a few changes, one of them refused. *)
Module IndexDemo.
Definition key (n : Z) : RelationalKey := [RBigInt n].
Definition demo_ops : list index_op :=
  [InsertPosting (key 5) (key 1); InsertPosting (key 3) (key 2); ChangePosting (key 5) (key 7) true [];
   ChangePosting (key 9) (key 9) true [None; Some "cancelled"%string]; InsertPosting (key 5) (key 1); RemovePosting (key 3) (key 2)].
Definition demo_index : RelationalIndexPages := default [] (snd <$> run_index_ops 64 32 64 32 demo_ops []).

Lemma empty_wf : index_wf [].
Proof. constructor; [apply pages_ok_nil|constructor]. Qed.
Lemma sizes : size_ok 64 ∧ size_ok 32.
Proof. split; by vm_compute. Qed.

Lemma relational_index_refines_witness : ∃ outs pages',
  run_index_ops 64 32 64 32 demo_ops [] = Some (outs, pages') ∧
  spec_index_ops demo_ops outs [] (index_contents pages') ∧ index_wf pages'.
Proof.
  destruct sizes as [H64 H32].
  exact (relational_index_refines 64 32 64 32 H64 H32 H64 H32 demo_ops [] empty_wf ltac:(by vm_compute)).
Defined.

Lemma demo_wf : index_wf demo_index.
Proof.
  destruct sizes as [H64 H32]. unfold demo_index.
  assert (∀ ops pages, index_wf pages → multimap_count (index_contents pages) + zlen ops < 2 ^ 62 →
    index_wf (default [] (snd <$> run_index_ops 64 32 64 32 ops pages))) as H; [|by apply H; [apply empty_wf|vm_compute]].
  intros ops. induction ops as [|op ops IH]; intros pages Hw Hmax; [done|]. rewrite zlen_cons in Hmax. pose proof (zlen_nonneg ops).
  assert (2 ^ 62 < usize_max) by (by vm_compute).
  destruct (run_index_op_ok 64 32 64 32 H64 H32 H64 H32 op pages Hw ltac:(lia)) as (out & ps & E & _ & Hw' & Hc).
  cbn [run_index_ops]. rewrite E. cbn [mbind option_bind]. specialize (IH ps Hw' ltac:(lia)).
  by destruct (run_index_ops 64 32 64 32 ops ps) as [[outs ps']|].
Qed.

Lemma relational_index_pairs_witness :
  set_contents <$> index_get (key 5) demo_index = Some [(key 1, ()); (key 7, ())] ∧
  posting_present (key 5) (key 7) demo_index = Some true.
Proof.
  destruct (relational_index_pairs demo_index (key 5) (key 7) demo_wf) as (H1 & H2 & _). split.
  - etransitivity; [exact H1|by vm_compute].
  - etransitivity; [exact H2|by vm_compute].
Defined.
End IndexDemo.
