(* ===== verification/RelationalIndexScan.v ===== *)
(** The scans of a secondary index visit exactly what they should: a range scan
    the entries that match it, in the direction of the scan, and a prefix scan
    the entries under the prefix, whatever the pages, up to the visitor's stop. *)
From S2P Require Import Prelude Ordering RelationalValue OrderedKey BTreeMap Pages IndexRange RelationalIndex RelationalIndexSpec.

(** ** Loops that stop *)

Section Loops.
Context {S A : Type}.
Implicit Types (body : S → A → S * bool) (l : list A) (s : S).

Lemma visit_app body l1 l2 s :
  visit_while body (l1 ++ l2) s =
    let '(s, go) := visit_while body l1 s in if go then visit_while body l2 s else (s, false).
Proof.
  revert s; induction l1 as [|a l1 IH]; intros s; cbn; [by destruct (visit_while body l2 s)|].
  destruct (body s a) as [s' []]; [apply IH|done].
Qed.
Lemma visit_concat body (ls : list (list A)) s :
  visit_while (λ s l, visit_while body l s) ls s = visit_while body (List.concat ls) s.
Proof.
  revert s; induction ls as [|l ls IH]; intros s; [done|]. cbn. rewrite visit_app.
  destruct (visit_while body l s) as [s' []]; [apply IH|done].
Qed.
(** Elements that the body passes over may be left out. *)
Lemma visit_skip body (keep : A → bool) l s : (∀ s a, keep a = false → body s a = (s, true)) →
  visit_while body (List.filter keep l) s = visit_while body l s.
Proof.
  intros H. revert s; induction l as [|a l IH]; intros s; [done|]. cbn. destruct (keep a) eqn:E; cbn.
  - destruct (body s a) as [s' []]; [apply IH|done].
  - rewrite H by done. apply IH.
Qed.
Lemma visit_ext body body' l s : (∀ s a, a ∈ l → body s a = body' s a) → visit_while body l s = visit_while body' l s.
Proof.
  revert s; induction l as [|a l IH]; intros s H; [done|]. cbn. rewrite <- H by apply list_elem_of_here.
  destruct (body s a) as [s' []]; [|done]. apply IH. intros ? ? ?. apply H. by apply elem_of_cons; right.
Qed.
(** A loop stopped by an element before the rest, none of which counts. *)
Lemma visit_until body inner (keep : A → bool) l s :
  (∀ a s, a ∈ l → keep a = true → body s a = inner s a) →
  (∀ l1 a l2 s, l = l1 ++ a :: l2 → keep a = false →
     body s a = (s, true) ∨ (body s a = (s, false) ∧ ∀ b, b ∈ l2 → keep b = false)) →
  (visit_while body l s).1 = (visit_while inner (List.filter keep l) s).1.
Proof.
  revert s; induction l as [|a l IH]; intros s Hk Hs; [done|]. cbn.
  assert (∀ s, (visit_while body l s).1 = (visit_while inner (List.filter keep l) s).1) as IH'.
  { intros s'. apply IH; [intros; apply Hk; [by apply elem_of_cons; right|done]|].
    intros l1 b l2 s'' -> Hb. by apply (Hs (a :: l1) b l2 s''). }
  destruct (keep a) eqn:E.
  - rewrite Hk by (done || apply list_elem_of_here). cbn. destruct (inner s a) as [s' []]; [apply IH'|done].
  - destruct (Hs [] a l s eq_refl E) as [-> |[-> Hrest]]; [apply IH'|]. by rewrite (filter_nothing keep l).
Qed.
End Loops.

(** ** Sorted entries *)

Section Sorted.
Context {V : Type}.
Implicit Types (l : list (RelationalKey * V)) (ps : list (list (RelationalKey * V))).

Lemma sorted_split l1 a l2 : key_sorted key_cmp (l1 ++ a :: l2) →
  (∀ b, b ∈ l2 → key_cmp a.1 b.1 = Lt) ∧ (∀ b, b ∈ l1 → key_cmp b.1 a.1 = Lt).
Proof.
  intros (_ & [_ H]%key_sorted_cons & H')%key_sorted_app. split; [done|]. intros b Hb. apply (H' b a Hb), list_elem_of_here.
Qed.
Lemma filter_reverse {A} (f : A → bool) (l : list A) : List.filter f (reverse l) = reverse (List.filter f l).
Proof.
  induction l as [|a l IH]; [done|]. rewrite reverse_cons, List.filter_app, IH. cbn [List.filter].
  destruct (f a); [by rewrite reverse_cons|by rewrite app_nil_r].
Qed.
Lemma filter_imp {A} (f g : A → bool) (l : list A) : (∀ a, f a = true → g a = true) →
  List.filter f (List.filter g l) = List.filter f l.
Proof.
  intros H. induction l as [|a l IH]; [done|]. cbn. destruct (g a) eqn:Eg; cbn; [by rewrite IH|].
  destruct (f a) eqn:Ef; [by rewrite H in Eg|done].
Qed.
Lemma concat_reverse {A} (ls : list (list A)) : List.concat (reverse <$> reverse ls) = reverse (List.concat ls).
Proof.
  induction ls as [|l ls IH]; [done|]. rewrite reverse_cons, fmap_app, List.concat_app, IH. cbn [List.concat fmap list_fmap].
  by rewrite app_nil_r, reverse_app.
Qed.

(** Pages before the partition point of a predicate on last keys, or from the
    partition point of one on first keys, hold nothing of interest. *)
Lemma skipped_pages max (f keep : RelationalKey → bool) ps : pages_ok max ps →
  (∀ a b, key_cmp a b ≠ Gt → f b = true → f a = true) → (∀ k, f k = true → keep k = false) →
  List.filter (λ e, keep e.1) (List.concat (drop (partition_point (λ p, is_some_and (last p) (λ e, f e.1)) ps) ps)) =
  List.filter (λ e, keep e.1) (List.concat ps).
Proof.
  intros [Hs HF] Hmono Hkeep. set (n := partition_point _ ps). rewrite <- (take_drop n ps) at 2.
  rewrite List.concat_app, List.filter_app, (filter_nothing _ (List.concat (take n ps))); [done|].
  intros e (p & He & Hp)%list_elem_of_In%List.in_concat. apply list_elem_of_In in He, Hp.
  pose proof (partition_point_take _ _ _ He) as Hf. unfold is_some_and in Hf. destruct (last p) as [el|] eqn:El; [|done].
  apply Hkeep. apply (Hmono _ el.1); [|done]. apply (sorted_le_last p el e); [|done|done].
  assert (p ∈ ps) as [qs [rs Eps]]%list_elem_of_split by (rewrite <- (take_drop n ps); apply elem_of_app; by left).
  rewrite Eps, concat_mid in Hs. apply key_sorted_app in Hs as (_ & Hs & _). by apply key_sorted_app in Hs as (? & _ & _).
Qed.
Lemma cut_pages max (f keep : RelationalKey → bool) ps : pages_ok max ps →
  (∀ a b, key_cmp a b ≠ Gt → f a = true → f b = true) → (∀ k, f k = true → keep k = false) →
  List.filter (λ e, keep e.1)
    (List.concat (take (partition_point (λ p, match head p with Some e => negb (f e.1) | None => true end) ps) ps)) =
  List.filter (λ e, keep e.1) (List.concat ps).
Proof.
  intros [Hs HF] Hmono Hkeep. induction HF as [|p ps [Hp _] HF IH]; [done|]. cbn [partition_point].
  destruct p as [|e p]; [done|]. cbn [head]. destruct (f e.1) eqn:E; cbn [negb].
  - cbn [take List.concat]. symmetry. apply filter_nothing. intros b Hb. apply Hkeep. apply (Hmono e.1); [|done].
    apply (sorted_ge_head (List.concat ((e :: p) :: ps))); [done|done|done].
  - cbn [take List.concat] in *. rewrite !List.filter_app. f_equal. apply IH. by apply key_sorted_app in Hs as (_ & ? & _).
Qed.
End Sorted.

(** ** Range scans *)

Definition entry_pairs (e : RelationalKey * list (RelationalKey * ())) : list (RelationalKey * RelationalKey) :=
  (λ p, (e.1, p.1)) <$> e.2.
Definition visit_pair {S} (visit : S → RelationalKey → RelationalKey → S * bool) (s : S)
    (kp : RelationalKey * RelationalKey) : S * bool := visit s kp.1 kp.2.

(** The pairs a range scan should visit. *)
Definition range_pairs (scan : RelationalIndexRangeScan) (m : Multimap) : list (RelationalKey * RelationalKey) :=
  let matching := List.filter (λ e, scan_matches scan e.1) m in
  List.flat_map entry_pairs (match scan_direction scan with Forward => matching | Backward => reverse matching end).

Section RangeScan.
Context {S : Type} (visit : S → RelationalKey → RelationalKey → S * bool).
Implicit Types (pages : RelationalIndexPages) (s : S).

Lemma visit_pairs l s :
  visit_while (visit_key visit) l s = visit_while (visit_pair visit) (List.flat_map entry_pairs (posting_of <$> l)) s.
Proof.
  revert s; induction l as [|[k set] l IH]; intros s; [done|]. cbn [visit_while]. rewrite fmap_cons. cbn [List.flat_map].
  rewrite visit_app. unfold visit_key at 1. cbn [fst snd].
  assert (∀ ps s, visit_while (λ s primary, visit s k primary) (ps.*1) s =
    visit_while (visit_pair visit) (entry_pairs (k, ps)) s) as Hp.
  { intros ps. induction ps as [|p ps IHp]; intros s'; [done|]. cbn. change (visit_pair visit s' (k, p.1)) with (visit s' k p.1).
    destruct (visit s' k p.1) as [s'' []]; [apply IHp|done]. }
  unfold set_iter. rewrite Hp. change (posting_of (k, set)) with (k, List.concat (set_pages set)).
  destruct (visit_while (visit_pair visit) (entry_pairs (k, List.concat (set_pages set))) s) as [s' []]; [apply IH|done].
Qed.

Lemma filter_posting (f : RelationalKey → bool) (l : list (RelationalKey * RelationalKeySetPages)) :
  List.filter (λ e, f e.1) (posting_of <$> l) = posting_of <$> List.filter (λ e, f e.1) l.
Proof. induction l as [|e l IH]; [done|]. cbn. destruct (f e.1); cbn; by rewrite IH. Qed.

Section Scan.
Context (scan : RelationalIndexRangeScan) (pages : RelationalIndexPages) (Hok : pages_ok RELATIONAL_INDEX_PAGE_MAX_KEYS pages).
Context (Hne : bounds_empty (index_bounds scan) = false).

Lemma matches_split k : scan_matches scan k = negb (scan_before scan k) && negb (scan_after scan k).
Proof using Hne. unfold scan_matches. by rewrite Hne. Qed.

Lemma forward_until l s : key_sorted key_cmp l →
  (visit_while (forward_body scan visit) l s).1 =
  (visit_while (visit_key visit) (List.filter (λ e, scan_matches scan e.1) l) s).1.
Proof using Hne.
  intros Hs. apply visit_until.
  - intros a s' _. rewrite matches_split, andb_true_iff, !negb_true_iff. intros [Hb Ha]. unfold forward_body. by rewrite Hb, Ha.
  - intros l1 a l2 s' -> . rewrite matches_split. unfold forward_body. destruct (scan_before scan a.1); [by left|].
    cbn. intros Ha%negb_false_iff. rewrite Ha. right. split; [done|]. intros b Hb. rewrite matches_split.
    destruct (sorted_split _ _ _ Hs) as [Hlt _]. specialize (Hlt b Hb).
    rewrite (scan_after_mono scan a.1 b.1) by (done || by rewrite Hlt). by rewrite andb_false_r.
Qed.
Lemma backward_until l s : key_sorted key_cmp l →
  (visit_while (backward_body scan visit) (reverse l) s).1 =
  (visit_while (visit_key visit) (List.filter (λ e, scan_matches scan e.1) (reverse l)) s).1.
Proof using Hne.
  intros Hs. apply visit_until.
  - intros a s' _. rewrite matches_split, andb_true_iff, !negb_true_iff. intros [Hb Ha]. unfold backward_body. by rewrite Hb, Ha.
  - intros l1 a l2 s' E. rewrite matches_split. unfold backward_body. destruct (scan_after scan a.1); [by left|].
    rewrite andb_true_r. intros Ha%negb_false_iff. rewrite Ha. right. split; [done|]. intros b Hb. rewrite matches_split.
    assert (l = reverse l2 ++ a :: reverse l1) as El.
    { rewrite <- (reverse_involutive l), E, reverse_app, reverse_cons, <- app_assoc. done. }
    rewrite El in Hs. destruct (sorted_split _ _ _ Hs) as [_ Hlt]. specialize (Hlt b). rewrite elem_of_reverse in Hlt.
    by rewrite (scan_before_mono scan b.1 a.1) by (done || by rewrite Hlt).
Qed.

Lemma forward_scan s :
  (visit_while (λ s page, visit_while (forward_body scan visit) page s)
     (first_page_bounded (map_range key_cmp (Included (lower_seek scan)) Unbounded) id
        (drop (partition_point (last_key_before scan) pages) pages)) s).1 =
  (visit_while (visit_key visit) (List.filter (λ e, scan_matches scan e.1) (List.concat pages)) s).1.
Proof using Hok Hne.
  rewrite visit_concat, <- forward_until by apply Hok. f_equal.
  set (keep := λ e : RelationalKey * RelationalKeySetPages, negb (scan_before scan e.1)).
  assert (∀ s e, keep e = false → forward_body scan visit s e = (s, true)) as Hskip.
  { intros s' e He%negb_false_iff. unfold forward_body. by rewrite He. }
  rewrite <- (visit_skip _ keep _ _ Hskip), <- (visit_skip _ keep (List.concat pages) _ Hskip). f_equal.
  transitivity (List.filter keep (List.concat (drop (partition_point (last_key_before scan) pages) pages))).
  - destruct (drop _ pages) as [|p ps]; [done|]. unfold first_page_bounded. rewrite list_fmap_id. cbn [List.concat].
    rewrite !List.filter_app. f_equal. apply filter_imp. intros e He%negb_true_iff. cbn [above_lower below_upper].
    by rewrite (lower_seek_before scan e.1 He).
  - apply (skipped_pages _ (scan_before scan) (λ k, negb (scan_before scan k)) pages Hok).
    + intros a b. apply scan_before_mono.
    + by intros k ->.
Qed.

Lemma backward_scan s : scan_direction scan = Backward →
  (visit_while (λ s page, visit_while (backward_body scan visit) page s)
     (first_page_bounded (λ page, reverse (map_range key_cmp Unbounded
          (match scan_exclusive_bound scan with Some bound => Excluded bound | None => Unbounded end) page)) reverse
        (reverse (take (partition_point (first_key_not_after scan) pages) pages))) s).1 =
  (visit_while (visit_key visit) (List.filter (λ e, scan_matches scan e.1) (reverse (List.concat pages))) s).1.
Proof using Hok Hne.
  intros Hdir. rewrite visit_concat, <- backward_until by apply Hok. f_equal.
  set (keep := λ e : RelationalKey * RelationalKeySetPages, negb (scan_after scan e.1)).
  assert (∀ s e, keep e = false → backward_body scan visit s e = (s, true)) as Hskip.
  { intros s' e He%negb_false_iff. unfold backward_body. by rewrite He. }
  rewrite <- (visit_skip _ keep _ _ Hskip), <- (visit_skip _ keep (reverse (List.concat pages)) _ Hskip). f_equal.
  transitivity (List.filter keep (reverse (List.concat (take (partition_point (first_key_not_after scan) pages) pages)))).
  - rewrite <- concat_reverse. destruct (reverse _) as [|p ps]; [done|]. unfold first_page_bounded. rewrite fmap_cons.
    cbn [List.concat]. rewrite !List.filter_app. f_equal. rewrite !filter_reverse. f_equal. apply filter_imp.
    intros e He%negb_true_iff. unfold scan_after in He. rewrite Hdir in He. cbn [is_forward negb andb] in He.
    apply orb_false_iff in He as [_ He]. destruct (scan_exclusive_bound scan); [|done]. cbn in *.
    rewrite key_leb_negb in He by apply _. by apply negb_false_iff in He.
  - rewrite !filter_reverse. f_equal. apply (cut_pages _ (scan_after scan) (λ k, negb (scan_after scan k)) pages Hok).
    + intros a b. apply scan_after_mono.
    + by intros k ->.
Qed.
End Scan.

Lemma visit_range_ok scan pages s : index_wf pages →
  visit_range_entries scan visit pages s =
    (visit_while (visit_pair visit) (range_pairs scan (index_contents pages)) s).1.
Proof.
  intros [Hok _]. unfold visit_range_entries, range_pairs, index_contents. rewrite filter_posting.
  destruct (bounds_empty (index_bounds scan)) eqn:Hne.
  { rewrite filter_nothing; [by destruct (scan_direction scan)|]. intros e _. unfold scan_matches. by rewrite Hne. }
  destruct (scan_direction scan) eqn:Hdir.
  - rewrite forward_scan by done. by rewrite visit_pairs.
  - rewrite backward_scan by done. rewrite visit_pairs, filter_reverse. by rewrite fmap_reverse.
Qed.
End RangeScan.

(** ** Prefix scans *)

Definition under_prefix {V} (prefix : RelationalKey) (l : list (RelationalKey * V)) : list (RelationalKey * V) :=
  List.filter (λ e, relational_key_has_prefix e.1 prefix) l.
(** The pairs a prefix scan should visit. *)
Definition prefix_pairs (prefix : RelationalKey) (m : Multimap) : list (RelationalKey * RelationalKey) :=
  List.flat_map entry_pairs (under_prefix prefix m).

Lemma has_prefix_above k prefix : relational_key_has_prefix k prefix = true → rkey_leb prefix k = true.
Proof.
  rewrite has_prefix_cmp, key_leb_negb, ltb_prefix by apply _. by destruct (prefix_cmp k prefix).
Qed.
(** From the prefix on, the keys under it come first. *)
Lemma has_prefix_closed a b prefix : rkey_leb prefix a = true → key_cmp a b ≠ Gt →
  relational_key_has_prefix a prefix = false → relational_key_has_prefix b prefix = false.
Proof.
  rewrite !has_prefix_cmp, key_leb_negb, ltb_prefix by apply _. intros Ha Hab.
  destruct (prefix_cmp_mono a b prefix Hab) as (_ & Hgt & _).
  destruct (prefix_cmp a prefix); [done|done|]. by rewrite Hgt.
Qed.

Section PrefixScan.
Context {S : Type}.
Implicit Types (pages : RelationalIndexPages) (s : S).

Lemma range_concat {V} lo (ps : list (list (RelationalKey * V))) :
  List.concat (map_range key_cmp lo Unbounded <$> ps) = map_range key_cmp lo Unbounded (List.concat ps).
Proof.
  induction ps as [|p ps IH]; [done|]. rewrite fmap_cons. cbn [List.concat]. rewrite IH. symmetry. apply List.filter_app.
Qed.
Lemma visit_fmap {A B} (body : S → B → S * bool) (f : A → B) l s :
  visit_while body (f <$> l) s = visit_while (λ s a, body s (f a)) l s.
Proof. revert s; induction l as [|a l IH]; intros s; [done|]. cbn. destruct (body s (f a)) as [s' []]; [apply IH|done]. Qed.

Lemma visit_from_prefix_ok prefix visit pages s : index_wf pages →
  visit_from_prefix prefix visit pages s = (visit_while visit (under_prefix prefix (List.concat pages)) s).1.
Proof.
  intros [Hok _]. unfold visit_from_prefix. destruct (decide (pages = [])) as [->|Hne]; [done|].
  destruct (page_located _ prefix _ Hok Hne) as (qs & q & rs & E & -> & H1 & _).
  rewrite <- (visit_fmap (λ s l, visit_while (prefix_body prefix visit) l s)), visit_concat, range_concat.
  assert (map_range key_cmp (Included prefix) Unbounded (List.concat (drop (length qs) pages)) =
          map_range key_cmp (Included prefix) Unbounded (List.concat pages)) as ->.
  { rewrite <- (take_drop (length qs) pages) at 2. rewrite List.concat_app. unfold map_range. rewrite List.filter_app.
    rewrite (filter_nothing _ (List.concat (take _ pages))); [done|]. intros e He. rewrite E, take_app_length in He.
    cbn [above_lower]. rewrite key_leb_negb by apply _. unfold key_ltb. by rewrite (H1 e He). }
  assert (under_prefix prefix (List.concat pages) =
    List.filter (λ e, relational_key_has_prefix e.1 prefix) (map_range key_cmp (Included prefix) Unbounded (List.concat pages))) as ->.
  { symmetry. apply filter_imp. intros e He. cbn. by rewrite (has_prefix_above _ _ He). }
  apply visit_until.
  - intros e s' _ He. unfold prefix_body. by rewrite He.
  - intros l1 a l2 s' El Ha. unfold prefix_body. rewrite Ha. right. split; [done|]. intros b Hb.
    assert (a ∈ map_range key_cmp (Included prefix) Unbounded (List.concat pages)) as Hin
      by (rewrite El; apply elem_of_app; right; apply list_elem_of_here).
    apply list_elem_of_In, List.filter_In in Hin as [_ Hin]. rewrite andb_true_r in Hin. cbn [above_lower] in Hin.
    assert (key_sorted key_cmp (map_range key_cmp (Included prefix) Unbounded (List.concat pages))) as Hs.
    { pose proof (po_sorted _ _ Hok) as Hs. clear -Hs. induction (List.concat pages) as [|e l IH]; [constructor|].
      apply key_sorted_cons in Hs as [Hs Hlt]. cbn. destruct (_ && _); [|by apply IH]. apply key_sorted_cons. split; [by apply IH|].
      intros b Hb. apply Hlt. apply list_elem_of_In, List.filter_In in Hb as [Hb _]. by apply list_elem_of_In. }
    rewrite El in Hs. destruct (sorted_split _ _ _ Hs) as [Hlt _]. apply (has_prefix_closed a.1); [done| |done].
    by rewrite (Hlt b Hb).
Qed.

Lemma visit_prefix_entries_ok prefix visit pages s : index_wf pages →
  visit_prefix_entries prefix visit pages s =
    (visit_while (visit_pair visit) (prefix_pairs prefix (index_contents pages)) s).1.
Proof.
  intros Hw. unfold visit_prefix_entries. rewrite visit_from_prefix_ok by done. rewrite visit_pairs.
  unfold prefix_pairs, index_contents, under_prefix. by rewrite (filter_posting (λ k, relational_key_has_prefix k prefix)).
Qed.
End PrefixScan.

(** ** Bounded counts *)

Lemma visit_count {A} max (l : list A) count : 0 ≤ count < max →
  (visit_while (λ count _, (count + 1, count + 1 <? max)) l count).1 = Z.min max (count + zlen l).
Proof.
  revert count; induction l as [|a l IH]; intros count Hc.
  - change (zlen []) with 0. cbn. lia.
  - rewrite zlen_cons. pose proof (zlen_nonneg l). cbn. destruct (Z.ltb_spec (count + 1) max); [rewrite IH by lia; lia|cbn; lia].
Qed.

Lemma flat_pairs_length (m : Multimap) : zlen (List.flat_map entry_pairs m) = multimap_count m.
Proof.
  unfold multimap_count. induction m as [|e m IH]; [done|]. cbn [List.flat_map fmap list_fmap]. rewrite zlen_app, IH.
  unfold entry_pairs, zlen. by rewrite length_fmap.
Qed.

Lemma visit_cardinality max (l : list (RelationalKey * RelationalKeySetPages)) count :
  Forall (λ e, set_wf e.2) l → 0 ≤ count < max → max ≤ usize_max →
  Z.min (visit_while (λ c e, let c := saturating_add usize_max c (set_len e.2) in (c, c <? max)) l count).1 max =
  Z.min max (count + multimap_count (posting_of <$> l)).
Proof.
  intros HF. revert count; induction HF as [|[k set] l Hset HF IH]; intros count Hc Hmax; cbn [visit_while fst].
  - change (multimap_count (posting_of <$> [])) with 0. lia.
  - cbn [snd] in *. rewrite (sw_len _ Hset). pose proof (zlen_nonneg (set_contents set)).
    assert (multimap_count (posting_of <$> (k, set) :: l) = zlen (set_contents set) + multimap_count (posting_of <$> l)) as -> by done.
    pose proof (count_nonneg (posting_of <$> l)). unfold saturating_add.
    destruct (Z.ltb_spec (Z.min usize_max (count + zlen (set_contents set))) max) as [Hl|Hl].
    + rewrite IH by lia. lia.
    + cbn [fst]. lia.
Qed.
Lemma visit_push max (l keys : list RelationalKey) : zlen keys < max →
  visit_while (push_key max) l keys =
    (keys ++ take (Z.to_nat (max - zlen keys)) l, zlen keys + zlen l <? max).
Proof.
  revert keys; induction l as [|k l IH]; intros keys Hk.
  - rewrite take_nil, app_nil_r. change (zlen []) with 0. cbn. by rewrite Z.add_0_r, (proj2 (Z.ltb_lt _ _) Hk).
  - assert (Z.to_nat (max - zlen keys) = S (Z.to_nat (max - (zlen keys + 1)))) as -> by lia.
    assert (zlen (keys ++ [k]) = zlen keys + 1) as El by (by rewrite zlen_app).
    rewrite zlen_cons. cbn [visit_while take]. unfold push_key at 1. rewrite El. pose proof (zlen_nonneg l).
    destruct (Z.leb_spec max (zlen keys + 1)) as [Hm|Hm]; cbn [negb].
    + assert (max - (zlen keys + 1) = 0) as -> by lia. cbn [Z.to_nat take]. f_equal. symmetry. apply Z.ltb_ge. lia.
    + rewrite IH by lia. rewrite El, <- app_assoc. f_equal. f_equal. lia.
Qed.
Lemma visit_push_sets max (l : list (RelationalKey * RelationalKeySetPages)) keys : zlen keys < max →
  (visit_while (λ keys e, visit_while (push_key max) (set_iter e.2) keys) l keys).1 =
    keys ++ take (Z.to_nat (max - zlen keys)) (List.flat_map (λ e, set_iter e.2) l).
Proof.
  intros Hk. rewrite <- (visit_fmap (λ keys ks, visit_while (push_key max) ks keys) (λ e, set_iter e.2)), visit_concat, visit_push by done.
  cbn [fst]. by rewrite List.flat_map_concat_map.
Qed.

Section Counts.
Context (pages : RelationalIndexPages) (Hw : index_wf pages).

Lemma range_cardinality scan max : 0 ≤ max →
  index_range_cardinality_at_most scan max pages = Z.min max (zlen (range_pairs scan (index_contents pages))).
Proof using Hw.
  intros Hm. unfold index_range_cardinality_at_most. destruct (Z.eqb_spec max 0) as [->|Hne].
  { pose proof (zlen_nonneg (range_pairs scan (index_contents pages))). lia. }
  rewrite visit_range_ok by done. unfold visit_pair. by rewrite visit_count by lia.
Qed.
Lemma prefix_cardinality_ok prefix max : 0 ≤ max ≤ usize_max →
  prefix_cardinality_at_most prefix max pages = Z.min max (zlen (prefix_pairs prefix (index_contents pages))).
Proof using Hw.
  intros Hm. unfold prefix_cardinality_at_most, prefix_pairs. rewrite flat_pairs_length.
  destruct (Z.eqb_spec max 0) as [->|Hne].
  { pose proof (count_nonneg (under_prefix prefix (index_contents pages))). lia. }
  unfold visit_prefix. rewrite visit_from_prefix_ok by done. rewrite visit_cardinality; [|  |lia|lia].
  - unfold index_contents, under_prefix. by rewrite (filter_posting (λ k, relational_key_has_prefix k prefix)).
  - apply Forall_forall. intros e He. apply list_elem_of_In, List.filter_In in He as [He%list_elem_of_In _].
    by apply (proj1 (Forall_forall _ _) (iw_sets _ Hw)).
Qed.
Lemma prefix_keys_ok prefix max : 0 ≤ max →
  prefix_primary_keys prefix max pages = take (Z.to_nat max) (prefix_pairs prefix (index_contents pages)).*2.
Proof using Hw.
  intros Hm. unfold prefix_primary_keys. destruct (Z.eqb_spec max 0) as [->|Hne]; [done|].
  unfold visit_prefix. rewrite visit_from_prefix_ok, visit_push_sets by (done || (unfold zlen; cbn [length]; lia)). cbn [app].
  change (zlen []) with 0. rewrite Z.sub_0_r. f_equal. unfold prefix_pairs, under_prefix, index_contents.
  rewrite (filter_posting (λ k, relational_key_has_prefix k prefix)).
  induction (List.filter _ (List.concat pages)) as [|e l IH]; [done|]. rewrite fmap_cons. cbn [List.flat_map]. rewrite fmap_app, IH. f_equal.
  unfold entry_pairs, set_iter. by rewrite <- list_fmap_compose.
Qed.

(** The searches for the first and last page need the directory partitioned. *)
Lemma scan_partitioned scan i j p q : (i < j)%nat → pages !! i = Some p → pages !! j = Some q →
  (last_key_before scan q = true → last_key_before scan p = true) ∧
  (first_key_not_after scan q = true → first_key_not_after scan p = true).
Proof using Hw.
  intros Hij Hp Hq. pose proof (iw_pages _ Hw) as [Hs HF].
  pose proof (proj1 (Forall_lookup _ _) HF i p Hp) as [Hpn _]. pose proof (proj1 (Forall_lookup _ _) HF j q Hq) as [Hqn _].
  rewrite <- (take_drop_middle _ _ _ Hp), concat_mid in Hs. apply key_sorted_app in Hs as (_ & Hs & _).
  apply key_sorted_app in Hs as (_ & _ & Hlt).
  assert (∀ e, e ∈ q → e ∈ List.concat (drop (S i) pages)) as Hin.
  { intros e He. apply list_elem_of_In, List.in_concat. exists q. rewrite <- !list_elem_of_In. split; [|done].
    apply list_elem_of_lookup. exists (j - S i)%nat. rewrite lookup_drop. by replace (S i + (j - S i))%nat with j by lia. }
  unfold last_key_before, first_key_not_after. split.
  - destruct (last q) as [eq|] eqn:Eq; [|done]. destruct (last p) as [ep|] eqn:Ep; [|by apply last_None in Ep]. cbn.
    apply scan_before_mono. rewrite (Hlt ep eq); [done| |apply Hin]; by eapply last_Some_elem_of.
  - destruct q as [|eq q']; [done|]. destruct p as [|ep p']; [done|]. cbn. rewrite !negb_true_iff. intros Ha.
    destruct (scan_after scan ep.1) eqn:E; [|done]. rewrite <- Ha. symmetry. apply (scan_after_mono scan ep.1 eq.1); [|done].
    rewrite (Hlt ep eq); [done|apply list_elem_of_here|apply Hin, list_elem_of_here].
Qed.
End Counts.

(** C10: A range scan over a well-formed index visits exactly the pairs whose index
    key matches the scan (under the equality prefix, within both bounds, beyond
    the cursor), in key order or, backwards, in reverse key order with the
    primary keys of a key in order, stopping where the visitor says; the bounded
    count of a range is the number of those pairs cut at the limit; and the
    directory is partitioned by the tests with which the scan finds its first
    and last page by binary search. *)
Theorem index_range_scan_exact {S} pages scan (visit : S → RelationalKey → RelationalKey → S * bool) s max :
  index_wf pages → 0 ≤ max →
  visit_range_entries scan visit pages s =
    (visit_while (visit_pair visit) (range_pairs scan (index_contents pages)) s).1 ∧
  index_range_cardinality_at_most scan max pages = Z.min max (zlen (range_pairs scan (index_contents pages))) ∧
  (∀ i j p q, (i < j)%nat → pages !! i = Some p → pages !! j = Some q →
    (last_key_before scan q = true → last_key_before scan p = true) ∧
    (first_key_not_after scan q = true → first_key_not_after scan p = true)).
Proof.
  intros Hw Hm. split_and!; [by apply visit_range_ok|by apply range_cardinality|].
  intros i j p q. by apply scan_partitioned.
Qed.

(** A prefix scan visits exactly the pairs whose index key starts with the
    prefix, in index order and in primary-key order within a key, stopping where
    the visitor says; the bounded cardinality is the number of those pairs cut
    at the limit; and the bounded lookup returns the first primary keys of them. *)
Theorem index_prefix_scan_exact {S} pages prefix (visit : S → RelationalKey → RelationalKey → S * bool) s max :
  index_wf pages → 0 ≤ max ≤ usize_max →
  visit_prefix_entries prefix visit pages s =
    (visit_while (visit_pair visit) (prefix_pairs prefix (index_contents pages)) s).1 ∧
  prefix_cardinality_at_most prefix max pages = Z.min max (zlen (prefix_pairs prefix (index_contents pages))) ∧
  prefix_primary_keys prefix max pages = take (Z.to_nat max) (prefix_pairs prefix (index_contents pages)).*2.
Proof.
  intros Hw Hm. split_and!; [by apply visit_prefix_entries_ok|by apply prefix_cardinality_ok|apply prefix_keys_ok; [done|lia]].
Qed.

(** Scans of a small index that collect what they visit, two pairs at most. *)
Module ScanDemo.
Import IndexDemo.
Definition collect (seen : list (RelationalKey * RelationalKey)) (k p : RelationalKey)
    : list (RelationalKey * RelationalKey) * bool := (seen ++ [(k, p)], zlen seen <? 1).
Definition demo_range : RelationalIndexRangeScan :=
  mk_index_scan [] (Some (mk_index_bounds (Some (mk_index_bound (key 4) true)) None false)) None Backward.

Lemma index_range_scan_exact_witness :
  visit_range_entries demo_range collect demo_index [] = [(key 5, key 1); (key 5, key 7)] ∧
  index_range_cardinality_at_most demo_range 1 demo_index = 1.
Proof.
  destruct (index_range_scan_exact demo_index demo_range collect [] 1 demo_wf ltac:(done)) as (H1 & H2 & _). split.
  - etransitivity; [exact H1|by vm_compute].
  - etransitivity; [exact H2|by vm_compute].
Defined.

Lemma index_prefix_scan_exact_witness :
  visit_prefix_entries (key 5) collect demo_index [] = [(key 5, key 1); (key 5, key 7)] ∧
  prefix_cardinality_at_most (key 5) 10 demo_index = 2 ∧ prefix_primary_keys (key 5) 1 demo_index = [key 1].
Proof.
  destruct (index_prefix_scan_exact demo_index (key 5) collect [] 10 demo_wf ltac:(by vm_compute)) as (H1 & H2 & _).
  destruct (index_prefix_scan_exact demo_index (key 5) collect [] 1 demo_wf ltac:(by vm_compute)) as (_ & _ & H3). split_and!.
  - etransitivity; [exact H1|by vm_compute].
  - etransitivity; [exact H2|by vm_compute].
  - etransitivity; [exact H3|by vm_compute].
Defined.
End ScanDemo.
