(* ===== verification/CowMap.v ===== *)
(** The copy-on-write ordered map of the graph store's snapshots:
    [CowSegmentedMap] of crates/storage/src/cow.rs with the page metadata of
    cow/page.rs.

    A map is a directory of pages, each an ordered map with a cached weight and
    a cached epoch range.  [Arc::make_mut] detaches what it edits, so pages and
    directories are values here.  Arithmetic that the code does unchecked is
    checked: [None] is a panic, of the arithmetic, of an index or of an
    [expect].  Allocation leases ([_memory], [growth]) and the capacity cache do not
    influence the entries and are left out; [history_lease], which only the map
    of the version index uses, is kept beside its pages in [Version]. *)
From S2P Require Import Prelude Ordering BTreeMap Pages.

(** The trait [CowPageWeight], with the ranges its result types give. *)
Class CowPageWeight (A : Type) := {
  cow_page_bytes : A → Z;
  delta_pressure_bytes : A → Z;
  cow_page_bytes_range a : 0 ≤ cow_page_bytes a ≤ usize_max;
  delta_pressure_bytes_range a : 0 ≤ delta_pressure_bytes a ≤ u64_max;
}.

Definition u128_max : Z := 2 ^ 128 - 1.
Definition add_u128 (a b : Z) : option Z := checked_add u128_max a b.
Definition add_usize (a b : Z) : option Z := checked_add usize_max a b.
Definition sum_u128 (l : list Z) : option Z := foldl (λ acc z, acc ≫= λ acc, add_u128 acc z) (Some 0) l.

Definition COW_MAP_MAX_SEGMENT_ENTRIES : nat := 512.
Definition COW_MAP_TARGET_SEGMENT_BYTES : Z := 128 * 1024.

Section CowMap.
Context {K V : Type} (cmp : K → K → comparison) `{WK : CowPageWeight K, WV : CowPageWeight V}.
Implicit Types (k : K) (v : V).

Definition cow_map_entry_bytes k v : Z :=
  saturating_add usize_max (saturating_add usize_max (saturating_mul usize_max 8 4) (cow_page_bytes k))
    (cow_page_bytes v).

(** ** Pages *)

Record CowMapPage := mk_page {
  entries : list (K * V);
  page_bytes : option Z;
  epoch_bounds : option (Z * Z);
}.

Definition page_from (l : list (K * V)) : CowMapPage := mk_page l None None.

Definition entry_payload (e : K * V) : Z := cow_page_bytes e.1 + cow_page_bytes e.2.

(** [payload_bytes] fills the cache, hence returns the page too. *)
Definition payload_bytes (p : CowMapPage) : option (Z * CowMapPage) :=
  match page_bytes p with
  | Some bytes => Some (bytes, p)
  | None => bytes ← sum_u128 (entry_payload <$> entries p);
            Some (bytes, mk_page (entries p) (Some bytes) (epoch_bounds p))
  end.

Definition estimated_bytes (p : CowMapPage) : option (Z * CowMapPage) :=
  '(bytes, p) ← payload_bytes p;
  total ← add_u128 bytes (zlen (entries p) * (4 * 8));
  Some (total, p).

Definition page_insert k v (p : CowMapPage) : option (option V * CowMapPage) :=
  '(bytes, p) ← payload_bytes p;
  let '(before, after) :=
    match get_key_value cmp k (entries p) with
    | None => (0, cow_page_bytes k + cow_page_bytes v)
    | Some (stored_key, old) =>
        (cow_page_bytes stored_key + cow_page_bytes old, cow_page_bytes stored_key + cow_page_bytes v)
    end in
  let '(previous, l) := map_insert cmp k v (entries p) in
  rest ← checked_sub bytes before;
  bytes ← add_u128 rest after;
  Some (previous, mk_page l (Some bytes) None).

Definition page_remove k (p : CowMapPage) : option (option V * CowMapPage) :=
  '(bytes, p) ← payload_bytes p;
  let removed_bytes := match get_key_value cmp k (entries p) with Some e => entry_payload e | None => 0 end in
  let '(removed, l) := map_remove cmp k (entries p) in
  bytes ← checked_sub bytes removed_bytes;
  Some (removed, mk_page l (Some bytes) None).

Definition page_split_off k (p : CowMapPage) : option (CowMapPage * CowMapPage) :=
  '(bytes, p) ← payload_bytes p;
  let '(l, r) := map_split_off cmp k (entries p) in
  '(right_bytes, right_page) ← payload_bytes (page_from r);
  bytes ← checked_sub bytes right_bytes;
  Some (mk_page l (Some bytes) None, right_page).

(** ** The map *)

Record CowSegmentedMap := mk_map {
  segments : list CowMapPage;
  map_len : Z;
  map_pressure : Z;
}.

Definition cow_default : CowSegmentedMap := mk_map [] 0 0.

(** The loop of [from_ordered_entries]: what is counted so far, the finished
    pages, and the page being filled with its weight. *)
Record build := mk_build {
  b_len : Z; b_segments : list CowMapPage; b_segment : list (K * V); b_bytes : Z; b_pressure : Z;
}.
Definition build_step (b : build) (e : K * V) : option build :=
  let '(k, v) := e in
  len ← add_usize (b_len b) 1;
  pressure ← add_u128 (b_pressure b) (delta_pressure_bytes v);
  let entry_bytes := cow_map_entry_bytes k v in
  let full := match b_segment b with
              | [] => false
              | _ => (zlen (b_segment b) >=? Z.of_nat COW_MAP_MAX_SEGMENT_ENTRIES)
                     || (saturating_add usize_max (b_bytes b) entry_bytes >? COW_MAP_TARGET_SEGMENT_BYTES)
              end in
  let '(pages, segment, bytes) :=
    if full then (b_segments b ++ [page_from (b_segment b)], [], 0)
    else (b_segments b, b_segment b, b_bytes b) in
  Some (mk_build len pages (map_insert cmp k v segment).2 (saturating_add usize_max bytes entry_bytes) pressure).
Definition from_ordered_entries (values : list (K * V)) : option CowSegmentedMap :=
  b ← foldl (λ b e, b ≫= λ b, build_step b e) (Some (mk_build 0 [] [] 0 0)) values;
  let pages := match b_segment b with [] => b_segments b | l => b_segments b ++ [page_from l] end in
  Some (mk_map pages (b_len b) (b_pressure b)).

Definition public_pressure (m : CowSegmentedMap) : Z :=
  if map_pressure m <=? u64_max then map_pressure m else u64_max.

Definition last_key_is (f : K → bool) (p : CowMapPage) : bool :=
  match last (entries p) with Some (k, _) => f k | None => false end.
Definition first_key_is (f : K → bool) (p : CowMapPage) : bool :=
  match head (entries p) with Some (k, _) => f k | None => false end.

Definition segment_index k (m : CowSegmentedMap) : option nat :=
  match segments m with
  | [] => None
  | ps => Some (Nat.min (partition_point (last_key_is (λ last, key_ltb cmp last k)) ps) (length ps - 1))
  end.

Definition cow_get k (m : CowSegmentedMap) : option V :=
  index ← segment_index k m; p ← segments m !! index; map_get cmp k (entries p).
Definition cow_contains_key k (m : CowSegmentedMap) : bool :=
  match cow_get k m with Some _ => true | None => false end.

Definition pages_iter (ps : list CowMapPage) : list (K * V) := List.flat_map entries ps.
Definition cow_iter (m : CowSegmentedMap) : list (K * V) := pages_iter (segments m).

Definition iter_after (after : option K) (m : CowSegmentedMap) : list (K * V) :=
  let start := default O (after ≫= λ k, segment_index k m) in
  let lower := match after with Some k => Excluded k | None => Unbounded end in
  List.flat_map (λ p, map_range cmp lower Unbounded (entries p)) (drop start (segments m)).

(** [range] asserts an interval, and slices the directory. *)
Definition cow_range (first last : K) (m : CowSegmentedMap) : option (list (K * V)) :=
  if key_leb cmp first last then
    let start := partition_point (last_key_is (λ k, key_ltb cmp k first)) (segments m) in
    let end_ := partition_point (first_key_is (λ k, key_leb cmp k last)) (segments m) in
    if (start <=? end_)%nat then
      Some (List.flat_map (λ p, map_range cmp (Included first) (Included last) (entries p))
              (take (end_ - start) (drop start (segments m))))
    else None
  else None.

Fixpoint find_map {A B} (f : A → option B) (l : list A) : option B :=
  match l with
  | [] => None
  | x :: l => match f x with Some y => Some y | None => find_map f l end
  end.
Definition first_after (lower : option K) (m : CowSegmentedMap) : option (K * V) :=
  let start := match lower with
               | None => O
               | Some lower => partition_point (last_key_is (λ k, key_leb cmp k lower)) (segments m)
               end in
  find_map (λ p, match lower with
                 | None => head (entries p)
                 | Some lower => head (map_range cmp (Excluded lower) Unbounded (entries p))
                 end) (drop start (segments m)).

(** ** Splitting *)

(** The key a page is split at: the first entry after half of the bytes or
    after half of the entries. *)
Fixpoint split_key_from (l : list (K * V)) (entry_index : nat) (split_after_bytes bytes : Z) : option K :=
  match l with
  | [] => None
  | (k, v) :: l =>
      if (0 <? entry_index)%nat
         && ((bytes >=? split_after_bytes) || (COW_MAP_MAX_SEGMENT_ENTRIES / 2 <=? entry_index)%nat)
      then Some k
      else split_key_from l (S entry_index) split_after_bytes
             (saturating_add u128_max bytes (cow_map_entry_bytes k v))
  end.

Definition split_oversized_segment (ps : list CowMapPage) (index : nat) : option (list CowMapPage) :=
  p ← ps !! index;
  '(segment_bytes, p) ← estimated_bytes p;
  let n := length (entries p) in
  if (n <=? 1)%nat || ((n <=? COW_MAP_MAX_SEGMENT_ENTRIES)%nat && (segment_bytes <=? COW_MAP_TARGET_SEGMENT_BYTES))
  then Some (<[index := p]> ps)
  else
    split_key ← match split_key_from (entries p) 0 (segment_bytes / 2) 0 with
                | Some k => Some k
                | None => fst <$> entries p !! (n / 2)%nat
                end;
    '(left_page, right_page) ← page_split_off split_key p;
    Some (take index ps ++ [left_page; right_page] ++ drop (S index) ps).

Definition rebalance_key k (m : CowSegmentedMap) : option CowSegmentedMap :=
  match segment_index k m with
  | None => Some m
  | Some index => ps ← split_oversized_segment (segments m) index; Some (mk_map ps (map_len m) (map_pressure m))
  end.

(** ** Updates *)

Definition opt_pressure (o : option V) : Z := match o with Some v => delta_pressure_bytes v | None => 0 end.

Definition cow_insert k v (m : CowSegmentedMap) : option (option V * CowSegmentedMap) :=
  let pressure := delta_pressure_bytes v in
  match segments m with
  | [] => Some (None, mk_map [page_from [(k, v)]] 1 pressure)
  | _ =>
      index ← segment_index k m;
      p ← segments m !! index;
      '(previous, p) ← page_insert k v p;
      rest ← checked_sub (map_pressure m) (opt_pressure previous);
      total ← add_u128 rest pressure;
      let len := match previous with
                 | None => saturating_add usize_max (map_len m) 1
                 | Some _ => map_len m
                 end in
      ps ← split_oversized_segment (<[index := p]> (segments m)) index;
      Some (previous, mk_map ps len total)
  end.

Definition cow_remove k (m : CowSegmentedMap) : option (option V * CowSegmentedMap) :=
  match segment_index k m with
  | None => Some (None, m)
  | Some index =>
      p ← segments m !! index;
      if negb (map_contains cmp k (entries p)) then Some (None, m)
      else
        '(removed, p) ← page_remove k p;
        let len := match removed with Some _ => saturating_sub (map_len m) 1 | None => map_len m end in
        total ← checked_sub (map_pressure m) (opt_pressure removed);
        let ps := match entries p with
                  | [] => delete index (segments m)
                  | _ => <[index := p]> (segments m)
                  end in
        Some (removed, mk_map ps len total)
  end.

(** The guard of [get_mut], with the place of the value it borrows. *)
Record CowMapValueMut := mk_guard {
  g_index : nat; g_key : K; g_value : V;
  g_previous : Z; g_previous_page_bytes : Z; g_entry_base_bytes : Z; g_previous_entry_bytes : Z;
}.

(** [get_mut]: the map with the caches of the borrowed page taken, and the guard. *)
Definition cow_get_mut k (m : CowSegmentedMap) : option (option (CowSegmentedMap * CowMapValueMut)) :=
  match segment_index k m with
  | None => Some None
  | Some index =>
      p ← segments m !! index;
      if negb (map_contains cmp k (entries p)) then Some None
      else
        '(page_bytes, p) ← payload_bytes p;
        let p := mk_page (entries p) None None in
        match get_key_value cmp k (entries p) with
        | None => Some None
        | Some (stored_key, value) =>
            Some (Some (mk_map (<[index := p]> (segments m)) (map_len m) (map_pressure m),
              mk_guard index k value (delta_pressure_bytes value) page_bytes (cow_page_bytes stored_key)
                (cow_page_bytes stored_key + cow_page_bytes value)))
        end
  end.

(** Writing [v] through the guard and dropping it. *)
Definition guard_drop (m : CowSegmentedMap) (g : CowMapValueMut) (v : V) : option CowSegmentedMap :=
  p ← segments m !! g_index g;
  rest ← checked_sub (map_pressure m) (g_previous g);
  total ← add_u128 rest (delta_pressure_bytes v);
  page_rest ← checked_sub (g_previous_page_bytes g) (g_previous_entry_bytes g);
  with_key ← add_u128 page_rest (g_entry_base_bytes g);
  bytes ← add_u128 with_key (cow_page_bytes v);
  let p := mk_page (map_update cmp (g_key g) (λ _, v) (entries p)) (Some bytes) (epoch_bounds p) in
  Some (mk_map (<[g_index g := p]> (segments m)) (map_len m) total).

(** A borrow of the value under a key, changed by [f]: whether there is one. *)
Definition cow_modify k (f : V → V) (m : CowSegmentedMap) : option (bool * CowSegmentedMap) :=
  r ← cow_get_mut k m;
  match r with
  | None => Some (false, m)
  | Some (m, g) => m ← guard_drop m g (f (g_value g)); Some (true, m)
  end.

(** [entry_or_default] with [d] the default value, changed by [f]. *)
Definition entry_or_default (d : V) k (f : V → V) (m : CowSegmentedMap) : option CowSegmentedMap :=
  m ← (if cow_contains_key k m then Some m else '(_, m) ← cow_insert k d m; Some m);
  r ← cow_get_mut k m;
  '(m, g) ← r;
  guard_drop m g (f (g_value g)).

(** [retain]: the predicate may change the values and its own state [S]. *)
Fixpoint map_retain {S} (keep : S → K → V → S * V * bool) (s : S) (l : list (K * V)) : S * list (K * V) :=
  match l with
  | [] => (s, [])
  | (k, v) :: l =>
      let '(s, v, b) := keep s k v in
      let '(s, l) := map_retain keep s l in
      (s, if b then (k, v) :: l else l)
  end.

Fixpoint retain_loop {S} (keep : S → K → V → S * V * bool) (s : S) (ps : list CowMapPage) (len pressure : Z)
    : option (S * list CowMapPage * Z * Z) :=
  match ps with
  | [] => Some (s, [], len, pressure)
  | p :: ps =>
      before_pressure ← sum_u128 ((λ e, delta_pressure_bytes e.2) <$> entries p);
      let before_len := zlen (entries p) in
      let '(s, l) := map_retain keep s (entries p) in
      rest ← checked_sub len before_len;
      len ← add_usize rest (zlen l);
      rest ← checked_sub pressure before_pressure;
      after_pressure ← sum_u128 ((λ e, delta_pressure_bytes e.2) <$> l);
      pressure ← add_u128 rest after_pressure;
      '(s, ps, len, pressure) ← retain_loop keep s ps len pressure;
      Some (s, page_from l :: ps, len, pressure)
  end.
Definition cow_retain {S} (keep : S → K → V → S * V * bool) (s : S) (m : CowSegmentedMap)
    : option (S * CowSegmentedMap) :=
  '(s, ps, len, pressure) ← retain_loop keep s (segments m) (map_len m) (map_pressure m);
  Some (s, mk_map (List.filter (λ p, match entries p with [] => false | _ => true end) ps) len pressure).
End CowMap.

Arguments CowMapPage : clear implicits.
Arguments CowSegmentedMap : clear implicits.
Arguments CowMapValueMut : clear implicits.
