(* ===== verification/CowMapSpec.v ===== *)
(** What the copy-on-write map of [CowMap] promises: the directory stays
    sorted, its pages non-empty and within the entry limit, every cached number
    exact, and each operation acts on the entries like the standard library's
    ordered map ([BTreeMap]), without a panic. *)
From S2P Require Import Prelude Ordering BTreeMap Pages CowMap.

(** ** Sums *)

Lemma zsum_bound c l : Forall (λ z, z ≤ c) l → zsum l ≤ zlen l * c.
Proof. induction 1; [done|]. rewrite zlen_cons. cbn. lia. Qed.
Lemma sum_u128_ok l : Forall (λ z, 0 ≤ z) l → zsum l ≤ u128_max → sum_u128 l = Some (zsum l).
Proof.
  unfold sum_u128. intros HF. assert (∀ a, a + zsum l ≤ u128_max →
    foldl (λ acc z, acc ≫= λ acc, add_u128 acc z) (Some a) l = Some (a + zsum l)) as H.
  { induction HF as [|z l Hz HF IH]; intros a Ha; [by rewrite Z.add_0_r|]. cbn in *.
    pose proof (zsum_nonneg _ HF). unfold add_u128, checked_add. rewrite (proj2 (Z.leb_le _ _)) by lia.
    rewrite IH by lia. f_equal. lia. }
  intros Hl. by rewrite H.
Qed.

Section Spec.
Context {K V : Type} (cmp : K → K → comparison) `{!OrdLaws cmp} `{WK : CowPageWeight K, WV : CowPageWeight V}.
(** What a cached epoch range stands for. *)
Context (bounds_of : list (K * V) → Z * Z).
Implicit Types (k : K) (v : V) (l : list (K * V)) (p : CowMapPage K V) (ps qs rs : list (CowMapPage K V))
  (m : CowSegmentedMap K V).

Definition payload l : Z := zsum (entry_payload <$> l).
Definition pressure_of l : Z := zsum ((λ e, delta_pressure_bytes e.2) <$> l).

Lemma entry_payload_range (e : K * V) : 0 ≤ entry_payload e ≤ 2 * usize_max.
Proof.
  unfold entry_payload. pose proof (cow_page_bytes_range e.1). pose proof (cow_page_bytes_range e.2). lia.
Qed.
Lemma payload_range l : 0 ≤ payload l ≤ zlen l * (2 * usize_max).
Proof.
  unfold payload. split.
  - apply zsum_nonneg, Forall_fmap, Forall_forall. intros e _. apply entry_payload_range.
  - etrans; [apply (zsum_bound (2 * usize_max))|].
    + apply Forall_fmap, Forall_forall. intros e _. apply entry_payload_range.
    + unfold zlen. by rewrite length_fmap.
Qed.
Lemma pressure_range l : 0 ≤ pressure_of l ≤ zlen l * u64_max.
Proof.
  unfold pressure_of. split.
  - apply zsum_nonneg, Forall_fmap, Forall_forall. intros e _. apply delta_pressure_bytes_range.
  - etrans; [apply (zsum_bound u64_max)|].
    + apply Forall_fmap, Forall_forall. intros e _. apply delta_pressure_bytes_range.
    + unfold zlen. by rewrite length_fmap.
Qed.

(** A map that fits in memory: its entries take at least one byte each of an
    address space, and the sums of their weights fit in 128 bits. *)
Definition fits l : Prop := zlen l < 2 ^ 62.
Lemma fits_payload l : fits l → payload l + zlen l * 32 ≤ u128_max.
Proof.
  unfold fits. pose proof (payload_range l). pose proof (zlen_nonneg l). intros Hf.
  assert (zlen l * (2 * usize_max + 32) ≤ 2 ^ 62 * (2 * usize_max + 32)) by (apply Z.mul_le_mono_nonneg_r; [done|lia]).
  assert (2 ^ 62 * (2 * usize_max + 32) ≤ u128_max) by (by vm_compute). lia.
Qed.
Lemma fits_pressure l : fits l → pressure_of l + u64_max ≤ u128_max.
Proof.
  unfold fits. pose proof (pressure_range l). pose proof (zlen_nonneg l). intros Hf.
  assert (zlen l * u64_max ≤ 2 ^ 62 * u64_max) by (apply Z.mul_le_mono_nonneg_r; [done|lia]).
  assert (2 ^ 62 * u64_max + u64_max ≤ u128_max) by (by vm_compute). lia.
Qed.
Lemma fits_sub l l' : zlen l' ≤ zlen l → fits l → fits l'.
Proof. unfold fits. lia. Qed.

(** ** Pages *)

#[local] Arguments payload_bytes : simpl never.
#[local] Arguments page_from : simpl never.

Definition cache_ok p : Prop :=
  (∀ b, page_bytes p = Some b → b = payload (entries p)) ∧
  (∀ b, epoch_bounds p = Some b → b = bounds_of (entries p)).
Definition page_ok p : Prop :=
  entries p ≠ [] ∧ (length (entries p) ≤ COW_MAP_MAX_SEGMENT_ENTRIES)%nat ∧ cache_ok p.

Lemma cache_ok_from l : cache_ok (page_from l).
Proof. done. Qed.
Lemma cache_ok_exact l b : b = payload l → cache_ok (mk_page l (Some b) None).
Proof. intros ->. split; [by intros ? [= <-]|done]. Qed.

Lemma payload_bytes_ok p : cache_ok p → fits (entries p) →
  ∃ p', payload_bytes p = Some (payload (entries p), p') ∧ entries p' = entries p ∧ cache_ok p'.
Proof.
  intros Hc Hf. pose proof Hc as [Hb He]. unfold payload_bytes. destruct (page_bytes p) as [b|] eqn:E.
  - exists p. split_and!; [|done|done]. by rewrite <- (Hb b eq_refl).
  - rewrite sum_u128_ok; cycle 1.
    + apply Forall_fmap, Forall_forall. intros e _. apply entry_payload_range.
    + pose proof (fits_payload _ Hf). unfold payload in *. zlen_lia.
    + eexists. split_and!; [done|done|]. split; [by intros ? [= <-]|done].
Qed.

Lemma checked_sub_ok a b : b ≤ a → checked_sub a b = Some (a - b).
Proof. intros. unfold checked_sub. by rewrite (proj2 (Z.leb_le _ _)). Qed.
Lemma add_u128_ok a b : a + b ≤ u128_max → add_u128 a b = Some (a + b).
Proof. intros. unfold add_u128, checked_add. by rewrite (proj2 (Z.leb_le _ _)). Qed.

Lemma estimated_bytes_ok p : cache_ok p → fits (entries p) →
  ∃ p', estimated_bytes p = Some (payload (entries p) + zlen (entries p) * 32, p') ∧
        entries p' = entries p ∧ cache_ok p'.
Proof.
  intros Hc Hf. destruct (payload_bytes_ok p Hc Hf) as (p' & E & Ee & Hc'). unfold estimated_bytes. rewrite E. cbn.
  rewrite Ee, add_u128_ok; [by eauto|]. by apply fits_payload.
Qed.

Lemma opt_sum_payload k l : 0 ≤ opt_sum entry_payload (get_key_value cmp k l) ≤ payload l.
Proof.
  unfold payload. induction l as [|[k' v'] l IH]; [done|]. cbn. pose proof (entry_payload_range (k', v')) as [? _].
  pose proof (payload_range l) as [Hp _]. unfold payload in Hp. destruct (cmp k k'); cbn; lia.
Qed.
Lemma opt_sum_pressure k l :
  0 ≤ opt_sum (λ e : K * V, delta_pressure_bytes e.2) (get_key_value cmp k l) ≤ pressure_of l.
Proof.
  unfold pressure_of. induction l as [|[k' v'] l IH]; [done|]. cbn. pose proof (delta_pressure_bytes_range v').
  pose proof (pressure_range l) as [Hp _]. unfold pressure_of in Hp. destruct (cmp k k'); cbn; lia.
Qed.

Lemma page_insert_ok k v p : cache_ok p → fits (entries p) → fits (map_insert cmp k v (entries p)).2 →
  ∃ p', page_insert cmp k v p = Some (map_get cmp k (entries p), p') ∧
        entries p' = (map_insert cmp k v (entries p)).2 ∧ cache_ok p'.
Proof.
  intros Hc Hf Hf'. destruct (payload_bytes_ok p Hc Hf) as (p' & E & Ee & Hc'). unfold page_insert. rewrite E. cbn.
  rewrite Ee. pose proof (opt_sum_payload k (entries p)) as Hle. pose proof (fits_payload _ Hf') as Hmax.
  assert (payload (map_insert cmp k v (entries p)).2 =
    payload (entries p) - opt_sum entry_payload (get_key_value cmp k (entries p)) +
    opt_sum entry_payload (insert_entry k v (get_key_value cmp k (entries p)))) as Hp by apply zsum_alter.
  rewrite Hp in Hmax. pose proof (zlen_nonneg (map_insert cmp k v (entries p)).2).
  destruct (get_key_value cmp k (entries p)) as [[k' v']|] eqn:Eg; cbn [opt_sum insert_entry] in Hp, Hmax, Hle;
    repeat match goal with |- context [cow_page_bytes ?a + cow_page_bytes ?b] =>
      change (cow_page_bytes a + cow_page_bytes b) with (entry_payload (a, b)) end.
  - rewrite checked_sub_ok by lia. cbn. rewrite add_u128_ok by lia. eexists; split_and!; [done|done|]. apply cache_ok_exact. symmetry. exact Hp.
  - rewrite checked_sub_ok by lia. cbn. rewrite add_u128_ok by lia. eexists; split_and!; [done|done|]. apply cache_ok_exact. symmetry. exact Hp.
Qed.

Lemma page_remove_ok k p : cache_ok p → fits (entries p) →
  ∃ p', page_remove cmp k p = Some (map_get cmp k (entries p), p') ∧
        entries p' = (map_remove cmp k (entries p)).2 ∧ cache_ok p'.
Proof.
  intros Hc Hf. destruct (payload_bytes_ok p Hc Hf) as (p' & E & Ee & Hc'). unfold page_remove. rewrite E. cbn.
  rewrite Ee. pose proof (opt_sum_payload k (entries p)) as Hle.
  assert (payload (map_remove cmp k (entries p)).2 =
    payload (entries p) - opt_sum entry_payload (get_key_value cmp k (entries p)) + 0) as Hp by apply zsum_alter.
  destruct (get_key_value cmp k (entries p)) as [e|] eqn:Eg; cbn in *;
    rewrite checked_sub_ok by lia; eexists; (split_and!; [done|done|]); apply cache_ok_exact; rewrite Z.add_0_r in Hp; symmetry; exact Hp.
Qed.

Lemma page_split_off_ok k p : cache_ok p → fits (entries p) → key_sorted cmp (entries p) →
  ∃ pl pr, page_split_off cmp k p = Some (pl, pr) ∧ cache_ok pl ∧ cache_ok pr ∧
    entries pl = (map_split_off cmp k (entries p)).1 ∧ entries pr = (map_split_off cmp k (entries p)).2.
Proof.
  intros Hc Hf Hs. destruct (payload_bytes_ok p Hc Hf) as (p' & E & Ee & Hc'). unfold page_split_off. rewrite E. cbn.
  rewrite Ee. pose proof (split_off_app k _ Hs) as Happ. cbn in Happ.
  set (ll := List.filter (λ e, key_ltb cmp e.1 k) (entries p)) in *.
  set (lr := List.filter (λ e, negb (key_ltb cmp e.1 k)) (entries p)) in *.
  assert (payload (entries p) = payload ll + payload lr) as Hp by
    (rewrite <- Happ; unfold payload; by rewrite fmap_app, zsum_app).
  destruct (payload_bytes_ok (page_from lr) (cache_ok_from _)) as (pr & Er & Eer & Hcr).
  { apply (fits_sub (entries p)); [|done]. change (zlen lr ≤ zlen (entries p)). rewrite <- Happ, zlen_app. zlen_lia. }
  change (entries (page_from lr)) with lr in *.
  rewrite Er. cbn in *. pose proof (payload_range ll). rewrite checked_sub_ok by lia. cbn.
  do 2 eexists. split_and!; [done| |done|done|done]. apply cache_ok_exact. lia.
Qed.

(** ** The directory *)

Record cow_wf m : Prop := {
  cw_sorted : key_sorted cmp (cow_iter m);
  cw_pages : Forall page_ok (segments m);
  cw_len : map_len m = zlen (cow_iter m);
  cw_pressure : map_pressure m = pressure_of (cow_iter m);
}.

Lemma pages_iter_app ps qs : pages_iter (ps ++ qs) = pages_iter ps ++ pages_iter qs.
Proof. apply List.flat_map_app. Qed.
Lemma pages_iter_cons p ps : pages_iter (p :: ps) = entries p ++ pages_iter ps.
Proof. done. Qed.
Lemma pages_iter_one p : pages_iter [p] = entries p.
Proof. apply app_nil_r. Qed.

(** The page a key belongs to: every earlier entry is below the key, every
    later page above it. *)
Lemma locate k ps : key_sorted cmp (pages_iter ps) → Forall page_ok ps → ps ≠ [] →
  ∃ qs p rs, ps = qs ++ p :: rs ∧
    Nat.min (partition_point (last_key_is (λ last, key_ltb cmp last k)) ps) (length ps - 1) = length qs ∧
    (∀ a, a ∈ pages_iter qs → cmp a.1 k = Lt) ∧ (∀ b, b ∈ pages_iter rs → cmp k b.1 = Lt).
Proof.
  intros Hs HF Hne. assert (∀ qs, pages_iter qs = List.concat (entries <$> qs)) as Hi
    by (intros qs; unfold pages_iter; by rewrite List.flat_map_concat_map).
  destruct (locate_page k (entries <$> ps)) as (lqs & l & lrs & E & Hn & H1 & H2).
  { by rewrite <- Hi. }
  { rewrite Forall_fmap. eapply Forall_impl; [exact HF|]. by intros p (? & _). }
  { by intros ?%fmap_nil_inv. }
  apply fmap_app_inv in E as (qs & rest & -> & Er & ->). symmetry in Er. apply fmap_cons_inv in Er as (p & rs & -> & -> & ->).
  exists qs, p, rs. rewrite !Hi. split_and!; [done| |done|done]. rewrite !length_fmap in Hn. rewrite <- Hn. f_equal.
  clear. generalize (qs ++ p :: rs) as l. intros l. induction l as [|x l IH]; [done|]. cbn. by rewrite IH.
Qed.

Lemma locate_map k m : cow_wf m → segments m ≠ [] →
  ∃ qs p rs, segments m = qs ++ p :: rs ∧ segment_index cmp k m = Some (length qs) ∧ page_ok p ∧
    Forall page_ok qs ∧ Forall page_ok rs ∧
    cow_iter m = pages_iter qs ++ entries p ++ pages_iter rs ∧
    (∀ a, a ∈ pages_iter qs → cmp a.1 k = Lt) ∧ (∀ b, b ∈ pages_iter rs → cmp k b.1 = Lt).
Proof.
  intros Hw Hne. destruct (locate k (segments m) (cw_sorted _ Hw) (cw_pages _ Hw) Hne) as (qs & p & rs & E & Hi & H1 & H2).
  pose proof (cw_pages _ Hw) as HF. rewrite E in HF. apply Forall_app in HF as [HF1 HF2]. apply Forall_cons in HF2 as [Hp HF2].
  exists qs, p, rs. split_and!; try done.
  - unfold segment_index. destruct (segments m) eqn:Es; [done|]. by rewrite <- Hi.
  - unfold cow_iter. by rewrite E, pages_iter_app, pages_iter_cons.
Qed.

Lemma segments_nil_iter m : cow_wf m → segments m = [] ↔ cow_iter m = [].
Proof.
  intros Hw. unfold cow_iter. split; [by intros ->|]. intros E. destruct (segments m) as [|p ps] eqn:Es; [done|].
  pose proof (cw_pages _ Hw) as HF. rewrite Es in HF. apply Forall_cons in HF as [[Hp _] _].
  apply app_eq_nil in E as [E _]. done.
Qed.

Lemma cow_get_ok k m : cow_wf m → cow_get cmp k m = map_get cmp k (cow_iter m).
Proof.
  intros Hw. destruct (segments m) eqn:Es.
  - rewrite (proj1 (segments_nil_iter m Hw) Es). unfold cow_get, segment_index. by rewrite Es.
  - destruct (locate_map k m Hw ltac:(by rewrite Es)) as (qs & p & rs & E & Hi & _ & _ & _ & Ei & H1 & H2).
    unfold cow_get, map_get. rewrite Hi, Ei, get_located by done. cbn. by rewrite E, lookup_mid.
Qed.

(** ** Splitting *)

Lemma split_key_some l i half bytes k : split_key_from l i half bytes = Some k →
  ∃ a v b, l = a ++ (k, v) :: b ∧ (0 < i + length a)%nat.
Proof.
  revert i bytes; induction l as [|[k' v'] l IH]; intros i bytes; cbn [split_key_from]; [done|].
  destruct (_ && _) eqn:E.
  - intros [= ->]. exists [], v', l. split; [done|]. apply andb_true_iff in E as [E _]. apply Nat.ltb_lt in E. cbn. lia.
  - intros H. destruct (IH _ _ H) as (a & v & b & -> & Hi). exists ((k', v') :: a), v, b. split; [done|]. cbn. lia.
Qed.

(** Splitting keeps the entries, leaves no page empty, and brings a page of at
    most one entry too many back within the limit. *)
Lemma split_ok qs p rs : cache_ok p → entries p ≠ [] → (length (entries p) ≤ S COW_MAP_MAX_SEGMENT_ENTRIES)%nat →
  fits (entries p) → key_sorted cmp (entries p) →
  ∃ ps, split_oversized_segment cmp (qs ++ p :: rs) (length qs) = Some (qs ++ ps ++ rs) ∧
    pages_iter ps = entries p ∧ Forall page_ok ps.
Proof.
  intros Hc Hne Hn Hf Hs. unfold split_oversized_segment. rewrite lookup_mid. cbn [mbind option_bind].
  destruct (estimated_bytes_ok p Hc Hf) as (p' & -> & Ee & Hc'). cbn [mbind option_bind]. rewrite Ee.
  destruct (_ || _) eqn:Ecase.
  { exists [p']. rewrite insert_mid, pages_iter_one, Ee. split_and!; [done|done|]. constructor; [|done].
    split_and!; [by rewrite Ee| |done]. rewrite Ee. apply orb_true_iff in Ecase as [E|[E _]%andb_true_iff]; apply Nat.leb_le in E;
      unfold COW_MAP_MAX_SEGMENT_ENTRIES in *; lia. }
  apply orb_false_iff in Ecase as [E1 _]. apply Nat.leb_gt in E1.
  set (key := match split_key_from _ _ _ _ with Some k => Some k | None => _ end).
  assert (∃ a k v b, entries p = a ++ (k, v) :: b ∧ a ≠ [] ∧ key = Some k) as (a & k & v & b & El & Ha & ->).
  { unfold key. destruct (split_key_from _ _ _ _) as [k|] eqn:E.
    - destruct (split_key_some _ _ _ _ _ E) as (a & v & b & El & Hi). exists a, k, v, b. split_and!; [done| |done].
      destruct a; [cbn in Hi; lia|done].
    - destruct (lookup_lt_is_Some_2 (entries p) (length (entries p) / 2)) as [[k v] Hk].
      { apply Nat.div_lt; lia. }
      exists (take (length (entries p) / 2) (entries p)), k, v, (drop (S (length (entries p) / 2)) (entries p)).
      rewrite Hk. split_and!; [by rewrite take_drop_middle| |done].
      intros Ht%(f_equal length). rewrite length_take in Ht. cbn [length] in Ht.
      pose proof (Nat.div_le_lower_bound (length (entries p)) 2 1 ltac:(lia) ltac:(lia)). lia. }
  cbn [mbind option_bind]. rewrite <- Ee in Hf, Hs.
  destruct (page_split_off_ok k p' Hc' Hf Hs) as (pl & pr & -> & Hcl & Hcr & Epl & Epr). cbn [mbind option_bind].
  rewrite take_app_length, drop_S_mid. rewrite Ee in *. rewrite El in Epl, Epr, Hs. rewrite split_off_at in Epl, Epr by done.
  cbn in Epl, Epr. exists [pl; pr]. rewrite pages_iter_cons, pages_iter_one, Epl, Epr. split_and!; [done|done|].
  rewrite El, length_app in Hn. cbn in Hn.
  assert (1 ≤ length a)%nat by (destruct a; [done|cbn; lia]).
  apply Forall_cons; split; [|apply Forall_singleton]; (split_and!; [| |done]); rewrite ?Epl, ?Epr; [done|lia|done|cbn; lia].
Qed.

(** ** Updates

    One page replaced by pages that hold its altered entries. *)
Lemma wf_alter f k m qs p rs ps len pressure :
  cow_wf m → keeps_key cmp k f →
  cow_iter m = pages_iter qs ++ entries p ++ pages_iter rs →
  (∀ a, a ∈ pages_iter qs → cmp a.1 k = Lt) → (∀ b, b ∈ pages_iter rs → cmp k b.1 = Lt) →
  Forall page_ok qs → Forall page_ok rs → Forall page_ok ps →
  pages_iter ps = map_alter cmp f k (entries p) →
  len = map_len m - opt_sum (λ _, 1) (get_key_value cmp k (cow_iter m)) + opt_sum (λ _, 1) (f (get_key_value cmp k (cow_iter m))) →
  pressure = map_pressure m - opt_sum (λ e, delta_pressure_bytes e.2) (get_key_value cmp k (cow_iter m))
    + opt_sum (λ e, delta_pressure_bytes e.2) (f (get_key_value cmp k (cow_iter m))) →
  cow_iter (mk_map (qs ++ ps ++ rs) len pressure) = map_alter cmp f k (cow_iter m) ∧
  cow_wf (mk_map (qs ++ ps ++ rs) len pressure).
Proof.
  intros Hw Hk Ei H1 H2 Hqs Hrs Hps Ep -> ->.
  assert (cow_iter (mk_map (qs ++ ps ++ rs)
    (map_len m - opt_sum (λ _, 1) (get_key_value cmp k (cow_iter m)) + opt_sum (λ _, 1) (f (get_key_value cmp k (cow_iter m))))
    (map_pressure m - opt_sum (λ e, delta_pressure_bytes e.2) (get_key_value cmp k (cow_iter m))
      + opt_sum (λ e, delta_pressure_bytes e.2) (f (get_key_value cmp k (cow_iter m))))) = map_alter cmp f k (cow_iter m)) as E.
  { unfold cow_iter at 1. cbn [segments]. rewrite !pages_iter_app, Ep, Ei. by rewrite alter_located. }
  split; [done|]. constructor.
  - rewrite E. apply (alter_sorted cmp); [done|]. apply Hw.
  - cbn. by rewrite !Forall_app.
  - rewrite E, zlen_alter. cbn. by rewrite (cw_len _ Hw).
  - rewrite E. unfold pressure_of. rewrite zsum_alter. cbn. by rewrite (cw_pressure _ Hw).
Qed.

Lemma page_sorted m qs p rs : cow_wf m → cow_iter m = pages_iter qs ++ entries p ++ pages_iter rs →
  key_sorted cmp (entries p).
Proof.
  intros Hw Ei. pose proof (cw_sorted _ Hw) as Hs. rewrite Ei in Hs.
  apply key_sorted_app in Hs as (_ & Hs & _). by apply key_sorted_app in Hs as (Hs & _ & _).
Qed.
Lemma page_fits m qs p rs : fits (cow_iter m) → cow_iter m = pages_iter qs ++ entries p ++ pages_iter rs →
  fits (entries p).
Proof. intros Hf Ei. apply (fits_sub (cow_iter m)); [|done]. rewrite Ei, !zlen_app. zlen_lia. Qed.

Lemma opt_pressure_sum k l :
  opt_pressure (map_get cmp k l) = opt_sum (λ e : K * V, delta_pressure_bytes e.2) (get_key_value cmp k l).
Proof. unfold map_get. by destruct (get_key_value cmp k l). Qed.

(** An insertion replaces the page of the key by pages with its entries. *)
Definition page_replaced k v m m' : Prop :=
  (segments m = [] ∧ segments m' = [page_from [(k, v)]]) ∨
  ∃ qs p rs ps, segments m = qs ++ p :: rs ∧ segment_index cmp k m = Some (length qs) ∧ segments m' = qs ++ ps ++ rs ∧
    pages_iter ps = (map_insert cmp k v (entries p)).2 ∧ Forall page_ok ps ∧ ps ≠ [] ∧ ∀ b, b ∈ pages_iter rs → cmp k b.1 = Lt.
Lemma cow_insert_pages k v m : cow_wf m → fits ((k, v) :: cow_iter m) →
  ∃ m', cow_insert cmp k v m = Some (map_get cmp k (cow_iter m), m') ∧
    page_replaced k v m m' ∧ cow_iter m' = (map_insert cmp k v (cow_iter m)).2 ∧ cow_wf m'.
Proof.
  intros Hw Hf. pose proof (zlen_nonneg (cow_iter m)). assert (fits (cow_iter m)) as Hfm.
  { apply (fits_sub ((k, v) :: cow_iter m)); [|done]. rewrite zlen_cons. lia. }
  unfold cow_insert. destruct (segments m) as [|p0 ps0] eqn:Es.
  { rewrite (proj1 (segments_nil_iter m Hw) Es). eexists. split_and!; [done|by left|done|]. constructor; [|constructor; [|done]|done|].
    - repeat constructor.
    - split_and!; [done|by apply Nat.leb_le|done].
    - by rewrite <- (Z.add_0_r (delta_pressure_bytes v)). }
  destruct (locate_map k m Hw ltac:(by rewrite Es)) as (qs & p & rs & E & Eidx & (Hne & Hn & Hc) & HFq & HFr & Ei & H1 & H2).
  rewrite <- Es, Eidx, E. cbn [mbind option_bind]. rewrite lookup_mid. cbn [mbind option_bind].
  assert (zlen (map_insert cmp k v (entries p)).2 ≤ 1 + zlen (entries p)) as Hl.
  { cbn. rewrite zlen_alter. cbn. destruct (get_key_value cmp k (entries p)); cbn; lia. }
  assert (fits (map_insert cmp k v (entries p)).2) as Hf'.
  { apply (fits_sub ((k, v) :: cow_iter m)); [|done]. rewrite zlen_cons, Ei, !zlen_app. zlen_lia. }
  destruct (page_insert_ok k v p Hc (page_fits _ _ _ _ Hfm Ei) Hf') as (p' & -> & Ee & Hc'). cbn [mbind option_bind].
  assert (get_key_value cmp k (entries p) = get_key_value cmp k (cow_iter m)) as Eg by (by rewrite Ei, get_located).
  pose proof (fits_pressure _ Hfm). pose proof (delta_pressure_bytes_range v). pose proof (opt_sum_pressure k (cow_iter m)).
  assert (map_get cmp k (entries p) = map_get cmp k (cow_iter m)) as Eget by (unfold map_get; by rewrite Eg).
  rewrite Eget, opt_pressure_sum, checked_sub_ok by (rewrite (cw_pressure _ Hw); lia). cbn [mbind option_bind].
  rewrite add_u128_ok by (rewrite (cw_pressure _ Hw); lia). cbn [mbind option_bind]. rewrite insert_mid.
  destruct (split_ok qs p' rs Hc') as (ps & -> & Eps & Hps).
  { rewrite Ee. apply alter_nonempty. by eexists. }
  { rewrite Ee. unfold zlen in Hl. lia. }
  { by rewrite Ee. }
  { rewrite Ee. apply (alter_sorted cmp); [apply (insert_keeps cmp)|]. by apply (page_sorted m qs p rs). }
  cbn [mbind option_bind]. eexists. split; [done|]. rewrite Ee in Eps. split.
  { right. exists qs, p, rs, ps. split_and!; try done. intros ->. symmetry in Eps. revert Eps. apply alter_nonempty. by eexists. }
  cbn [snd map_insert].
  eapply (wf_alter (insert_entry k v) k m qs p rs ps); try done; [apply (insert_keeps cmp)| |].
  - unfold map_get. pose proof (cw_len _ Hw). unfold fits in Hfm.
    assert (saturating_add usize_max (map_len m) 1 = map_len m + 1) as Hsat.
    { unfold saturating_add, usize_max, u64_max. lia. }
    destruct (get_key_value cmp k (cow_iter m)) as [[k' v']|]; cbn; [lia|]. rewrite Hsat. lia.
  - destruct (get_key_value cmp k (cow_iter m)) as [[k' v']|]; cbn; lia.
Qed.

Lemma cow_insert_ok k v m : cow_wf m → fits ((k, v) :: cow_iter m) →
  ∃ m', cow_insert cmp k v m = Some (map_get cmp k (cow_iter m), m') ∧
    cow_iter m' = (map_insert cmp k v (cow_iter m)).2 ∧ cow_wf m'.
Proof. intros Hw Hf. destruct (cow_insert_pages k v m Hw Hf) as (m' & E & _ & Hi & Hw'). by exists m'. Qed.

Lemma segment_index_nil k m : segments m = [] → segment_index cmp k m = None.
Proof. unfold segment_index. by intros ->. Qed.

Lemma cow_remove_ok k m : cow_wf m → fits (cow_iter m) →
  ∃ m', cow_remove cmp k m = Some (map_get cmp k (cow_iter m), m') ∧
    cow_iter m' = (map_remove cmp k (cow_iter m)).2 ∧ cow_wf m'.
Proof.
  intros Hw Hf. unfold cow_remove. destruct (decide (segments m = [])) as [Es|Es].
  { rewrite segment_index_nil by done. exists m. by rewrite (proj1 (segments_nil_iter m Hw) Es). }
  destruct (locate_map k m Hw Es) as (qs & p & rs & E & -> & (Hne & Hn & Hc) & HFq & HFr & Ei & H1 & H2).
  rewrite E, lookup_mid. cbn [mbind option_bind].
  assert (get_key_value cmp k (entries p) = get_key_value cmp k (cow_iter m)) as Eg by (by rewrite Ei, get_located).
  destruct (map_contains cmp k (entries p)) eqn:Ec; cbn [negb].
  2: { assert (get_key_value cmp k (cow_iter m) = None) as En
         by (rewrite <- Eg; unfold map_contains in Ec; by destruct (get_key_value cmp k (entries p))).
       exists m. unfold map_get, map_remove. cbn [snd]. rewrite En. split_and!; [done| |done]. by rewrite alter_absent. }
  apply map_contains_get in Ec as [e Ee].
  destruct (page_remove_ok k p Hc (page_fits _ _ _ _ Hf Ei)) as (p' & -> & Ep & Hc'). cbn [mbind option_bind].
  pose proof (opt_sum_pressure k (cow_iter m)).
  assert (map_get cmp k (entries p) = map_get cmp k (cow_iter m)) as Eget by (unfold map_get; by rewrite Eg).
  rewrite Eget, opt_pressure_sum, checked_sub_ok by (rewrite (cw_pressure _ Hw); lia). cbn [mbind option_bind].
  eexists. split; [done|]. cbn [snd map_remove].
  set (ps := match entries p' with [] => [] | _ => [p'] end).
  assert ((match entries p' with [] => delete (length qs) (qs ++ p :: rs) | _ => <[length qs := p']> (qs ++ p :: rs) end)
    = qs ++ ps ++ rs) as -> by (unfold ps; destruct (entries p'); [apply delete_mid|apply insert_mid]).
  assert (zlen (entries p') ≤ zlen (entries p)) as Hlen.
  { rewrite Ep. cbn. rewrite zlen_alter, Ee. cbn. lia. }
  eapply (wf_alter (λ _, None) k m qs p rs ps); try done.
  - unfold ps. destruct (entries p') eqn:Ep'; [done|]. apply Forall_singleton. rewrite <- Ep' in *.
    split_and!; [by rewrite Ep'| |done]. unfold zlen in Hlen. lia.
  - unfold ps. destruct (entries p') eqn:Ep'; [exact Ep|]. rewrite pages_iter_one, Ep'. exact Ep.
  - unfold map_get. rewrite <- Eg, Ee. cbn. unfold saturating_sub. rewrite (cw_len _ Hw), Ei, !zlen_app.
    assert (0 < zlen (entries p)) by (destruct (entries p); [done|]; rewrite zlen_cons; zlen_lia). zlen_lia.
  - cbn. lia.
Qed.

(** A mutable borrow, written through and dropped. *)
Lemma cow_modify_ok k f m : cow_wf m → fits (cow_iter m) →
  ∃ m', cow_modify cmp k f m = Some (map_contains cmp k (cow_iter m), m') ∧
    cow_iter m' = map_update cmp k f (cow_iter m) ∧ cow_wf m'.
Proof.
  intros Hw Hf. unfold cow_modify, cow_get_mut. destruct (decide (segments m = [])) as [Es|Es].
  { rewrite segment_index_nil by done. exists m. by rewrite (proj1 (segments_nil_iter m Hw) Es). }
  destruct (locate_map k m Hw Es) as (qs & p & rs & E & -> & (Hne & Hn & Hc) & HFq & HFr & Ei & H1 & H2).
  rewrite E, lookup_mid. cbn [mbind option_bind].
  assert (get_key_value cmp k (entries p) = get_key_value cmp k (cow_iter m)) as Eg by (by rewrite Ei, get_located).
  unfold map_contains at 1 2. rewrite Eg. destruct (get_key_value cmp k (cow_iter m)) as [[k' v']|] eqn:Em; cbn [negb].
  2: { exists m. cbn. split_and!; [done| |done]. unfold map_update. by rewrite alter_absent. }
  destruct (payload_bytes_ok p Hc (page_fits _ _ _ _ Hf Ei)) as (p' & -> & Ee & Hc'). cbn [mbind option_bind entries].
  rewrite Ee, Eg. unfold guard_drop. cbn. rewrite insert_mid, lookup_mid. cbn [mbind option_bind entries epoch_bounds].
  pose proof (opt_sum_pressure k (cow_iter m)) as Hp. pose proof (fits_pressure _ Hf) as Hfp. rewrite Em in Hp. cbn in Hp.
  pose proof (delta_pressure_bytes_range (f v')). pose proof (cow_page_bytes_range (f v')).
  pose proof (opt_sum_payload k (entries p)) as Hpay. rewrite Eg in Hpay. cbn in Hpay. unfold entry_payload in Hpay. cbn in Hpay.
  assert (fits (map_update cmp k f (entries p))) as Hfu.
  { apply (fits_sub (entries p)); [|by apply (page_fits m qs p rs)]. unfold map_update.
    rewrite zlen_alter, Eg. cbn. lia. }
  assert (payload (map_update cmp k f (entries p)) =
    payload (entries p) - entry_payload (k', v') + entry_payload (k', f v')) as Hpu.
  { unfold payload, map_update. rewrite zsum_alter, Eg. done. }
  pose proof (fits_payload _ Hfu) as Hmax. rewrite Hpu in Hmax. pose proof (zlen_nonneg (map_update cmp k f (entries p))).
  unfold entry_payload in Hmax. cbn in Hmax.
  pose proof (cw_pressure _ Hw). rewrite checked_sub_ok by lia. cbn. rewrite add_u128_ok by lia. cbn.
  rewrite checked_sub_ok by lia. cbn. rewrite add_u128_ok by lia. cbn. rewrite add_u128_ok by lia. cbn.
  rewrite insert_mid. eexists. split; [done|].
  eapply (wf_alter (update_entry f) k m qs p rs [mk_page _ _ None]); try done.
  - apply (update_keeps cmp).
  - apply Forall_singleton. split_and!.
    + cbn. apply alter_nonempty. rewrite Eg. by eexists.
    + cbn. assert (zlen (map_update cmp k (λ _, f v') (entries p)) = zlen (entries p)) as Hz
        by (unfold map_update; rewrite zlen_alter, Eg; cbn; lia). unfold zlen in Hz. unfold map_update in *. lia.
    + apply cache_ok_exact. unfold payload, map_update. rewrite zsum_alter, Eg. cbn. unfold payload, entry_payload. cbn. lia.
  - rewrite pages_iter_one. cbn. unfold map_update. apply alter_ext. rewrite Eg. done.
  - rewrite Em. cbn. lia.
  - rewrite Em. cbn. lia.
Qed.

Lemma rebalance_ok k m : cow_wf m → fits (cow_iter m) →
  ∃ m', rebalance_key cmp k m = Some m' ∧ cow_iter m' = cow_iter m ∧ cow_wf m'.
Proof.
  intros Hw Hf. unfold rebalance_key. destruct (decide (segments m = [])) as [Es|Es].
  { rewrite segment_index_nil by done. by exists m. }
  destruct (locate_map k m Hw Es) as (qs & p & rs & E & -> & (Hne & Hn & Hc) & HFq & HFr & Ei & H1 & H2). rewrite E.
  destruct (split_ok qs p rs Hc Hne ltac:(lia) (page_fits _ _ _ _ Hf Ei) (page_sorted _ _ _ _ Hw Ei)) as (ps & -> & Eps & Hps).
  cbn. eexists. split; [done|].
  assert (cow_iter (mk_map (qs ++ ps ++ rs) (map_len m) (map_pressure m)) = cow_iter m) as Hi
    by (unfold cow_iter at 1; cbn [segments]; by rewrite !pages_iter_app, Eps, Ei).
  split; [done|]. constructor; rewrite ?Hi; [apply Hw| |apply Hw|apply Hw]. cbn. by rewrite !Forall_app.
Qed.

Lemma contains_key_ok k m : cow_wf m → cow_contains_key cmp k m = map_contains cmp k (cow_iter m).
Proof.
  intros Hw. unfold cow_contains_key. rewrite cow_get_ok by done. unfold map_get, map_contains.
  by destruct (get_key_value cmp k (cow_iter m)).
Qed.

Lemma modify_present k f m : cow_wf m → fits (cow_iter m) → map_contains cmp k (cow_iter m) = true →
  ∃ m', (r ← cow_get_mut cmp k m; '(m, g) ← r; guard_drop cmp m g (f (g_value g))) = Some m' ∧
    cow_iter m' = map_update cmp k f (cow_iter m) ∧ cow_wf m'.
Proof.
  intros Hw Hf Hc. destruct (cow_modify_ok k f m Hw Hf) as (m' & E & Hi & Hw'). rewrite Hc in E. exists m'.
  split; [|done]. unfold cow_modify in E. destruct (cow_get_mut cmp k m) as [[[m1 g]|]|]; cbn in *; [|done..].
  destruct (guard_drop cmp m1 g (f (g_value g))); cbn in *; [|done]. by injection E as ->.
Qed.

(** An absent key is first given the default. *)
Definition map_entry (d : V) k (f : V → V) l : list (K * V) :=
  map_update cmp k f (if map_contains cmp k l then l else (map_insert cmp k d l).2).

Lemma contains_insert k v l : key_sorted cmp l → map_contains cmp k (map_insert cmp k v l).2 = true.
Proof.
  intros Hs. apply map_contains_get. cbn. rewrite (get_alter cmp) by (apply (insert_keeps cmp) || done). by eexists.
Qed.

Lemma entry_ok d k f m : cow_wf m → fits ((k, d) :: cow_iter m) →
  ∃ m', entry_or_default cmp d k f m = Some m' ∧ cow_iter m' = map_entry d k f (cow_iter m) ∧ cow_wf m'.
Proof.
  intros Hw Hf. unfold entry_or_default, map_entry. rewrite contains_key_ok by done.
  assert (fits (cow_iter m)) as Hfm by (apply (fits_sub ((k, d) :: cow_iter m)); [rewrite zlen_cons; lia|done]).
  destruct (map_contains cmp k (cow_iter m)) eqn:Ec; [by apply modify_present|].
  destruct (cow_insert_ok k d m Hw Hf) as (m1 & -> & E1 & Hw1). cbn [mbind option_bind]. rewrite <- E1. apply modify_present; [done| |].
  - apply (fits_sub ((k, d) :: cow_iter m)); [|done]. rewrite E1, zlen_cons. cbn. rewrite zlen_alter. cbn.
    destruct (get_key_value cmp k (cow_iter m)); cbn; lia.
  - rewrite E1. apply contains_insert, Hw.
Qed.

(** ** Retaining *)

Lemma map_retain_app {S} (keep : S → K → V → S * V * bool) s l1 l2 :
  map_retain keep s (l1 ++ l2) =
    let '(s, l1) := map_retain keep s l1 in let '(s, l2) := map_retain keep s l2 in (s, l1 ++ l2).
Proof.
  revert s; induction l1 as [|[k v] l1 IH]; intros s; cbn; [by destruct (map_retain keep s l2)|].
  destruct (keep s k v) as [[s1 v1] b]. rewrite IH. destruct (map_retain keep s1 l1) as [s2 l1'].
  destruct (map_retain keep s2 l2) as [s3 l2']. by destruct b.
Qed.
Lemma map_retain_keys {S} (keep : S → K → V → S * V * bool) s l e :
  e ∈ (map_retain keep s l).2 → ∃ v, (e.1, v) ∈ l.
Proof.
  revert s; induction l as [|[k v] l IH]; intros s; cbn; [by intros ?%elem_of_nil|].
  destruct (keep s k v) as [[s1 v1] b]. specialize (IH s1). destruct (map_retain keep s1 l) as [s2 l']. cbn in *.
  intros He. assert (e = (k, v1) ∨ e ∈ l') as [-> | He'] by (destruct b; [by apply elem_of_cons in He|by right]).
  - exists v. apply list_elem_of_here.
  - destruct (IH He') as [w Hw]. exists w. by apply elem_of_cons; right.
Qed.
Lemma map_retain_sorted {S} (keep : S → K → V → S * V * bool) s l :
  key_sorted cmp l → key_sorted cmp (map_retain keep s l).2.
Proof.
  revert s; induction l as [|[k v] l IH]; intros s Hs; cbn; [done|]. apply key_sorted_cons in Hs as [Hs Hlt].
  destruct (keep s k v) as [[s1 v1] b]. specialize (IH s1 Hs). pose proof (map_retain_keys keep s1 l) as Hk.
  destruct (map_retain keep s1 l) as [s2 l']. cbn in *. destruct b; [|done]. apply key_sorted_cons. split; [done|].
  intros e He. destruct (Hk e He) as [w Hw]. exact (Hlt _ Hw).
Qed.
Lemma map_retain_length {S} (keep : S → K → V → S * V * bool) s l : zlen (map_retain keep s l).2 ≤ zlen l.
Proof.
  revert s; induction l as [|[k v] l IH]; intros s; cbn; [done|]. destruct (keep s k v) as [[s1 v1] b].
  specialize (IH s1). destruct (map_retain keep s1 l) as [s2 l']. cbn in *. destruct b; rewrite ?zlen_cons; lia.
Qed.

Lemma pressure_app l1 l2 : pressure_of (l1 ++ l2) = pressure_of l1 + pressure_of l2.
Proof. unfold pressure_of. by rewrite fmap_app, zsum_app. Qed.
Lemma pressure_sum_ok l : fits l → sum_u128 ((λ e : K * V, delta_pressure_bytes e.2) <$> l) = Some (pressure_of l).
Proof.
  intros Hf. apply sum_u128_ok.
  - apply Forall_fmap, Forall_forall. intros e _. apply delta_pressure_bytes_range.
  - pose proof (fits_pressure l Hf). unfold pressure_of in *. unfold u64_max in *. lia.
Qed.
Lemma fits_usize l : fits l → zlen l ≤ usize_max.
Proof. unfold fits, usize_max, u64_max. lia. Qed.

Lemma retain_loop_ok {S} (keep : S → K → V → S * V * bool) ps : ∀ s done_ ,
  fits (done_ ++ pages_iter ps) →
  ∃ qs, retain_loop keep s ps (zlen done_ + zlen (pages_iter ps)) (pressure_of done_ + pressure_of (pages_iter ps)) =
      Some ((map_retain keep s (pages_iter ps)).1, qs,
            zlen done_ + zlen (map_retain keep s (pages_iter ps)).2,
            pressure_of done_ + pressure_of (map_retain keep s (pages_iter ps)).2) ∧
    pages_iter qs = (map_retain keep s (pages_iter ps)).2 ∧
    Forall2 (λ p q, (length (entries q) ≤ length (entries p))%nat ∧ cache_ok q) ps qs.
Proof.
  induction ps as [|p ps IH]; intros s d Hf; cbn [retain_loop].
  { exists []. split_and!; [|done|done]. done. }
  rewrite pages_iter_cons in *. rewrite map_retain_app.
  assert (fits (entries p)) as Hfp by (apply (fits_sub (d ++ entries p ++ pages_iter ps)); [rewrite !zlen_app; zlen_lia|done]).
  rewrite pressure_sum_ok by done. cbn [mbind option_bind].
  pose proof (map_retain_length keep s (entries p)) as Hl. destruct (map_retain keep s (entries p)) as [s1 l1] eqn:E1. cbn in Hl.
  assert (fits l1) as Hf1 by (by apply (fits_sub (entries p))).
  assert (fits ((d ++ l1) ++ pages_iter ps)) as Hf2 by
    (apply (fits_sub (d ++ entries p ++ pages_iter ps)); [rewrite !zlen_app; lia|done]).
  pose proof (pressure_range d). pose proof (pressure_range (pages_iter ps)). pose proof (pressure_range l1).
  pose proof (fits_usize _ Hf2) as Hu. rewrite !zlen_app in Hu. pose proof (fits_pressure _ Hf2) as Hp.
  rewrite !pressure_app in Hp. unfold u64_max in Hp.
  rewrite zlen_app, pressure_app. rewrite (checked_sub_ok (zlen d + _)) by zlen_lia. cbn [mbind option_bind].
  unfold add_usize, checked_add. rewrite (proj2 (Z.leb_le _ _)) by lia. cbn [mbind option_bind].
  rewrite checked_sub_ok by lia. cbn [mbind option_bind]. rewrite pressure_sum_ok by done. cbn [mbind option_bind].
  rewrite add_u128_ok by lia. cbn [mbind option_bind].
  destruct (IH s1 (d ++ l1) Hf2) as (qs & E & Hi & HF). rewrite zlen_app, pressure_app in E.
  replace (zlen d + (zlen (entries p) + zlen (pages_iter ps)) - zlen (entries p) + zlen l1)
    with (zlen d + zlen l1 + zlen (pages_iter ps)) by lia.
  replace (pressure_of d + (pressure_of (entries p) + pressure_of (pages_iter ps)) - pressure_of (entries p) + pressure_of l1)
    with (pressure_of d + pressure_of l1 + pressure_of (pages_iter ps)) by lia.
  rewrite E. cbn [mbind option_bind]. destruct (map_retain keep s1 (pages_iter ps)) as [s2 l2]. cbn [fst snd] in Hi |- *.
  exists (page_from l1 :: qs). rewrite zlen_app, pressure_app, !Z.add_assoc. split_and!; [done| |].
  - rewrite pages_iter_cons, Hi. done.
  - constructor; [|done]. split; [|apply cache_ok_from]. change (entries (page_from l1)) with l1. unfold zlen in Hl. lia.
Qed.

Lemma pages_iter_filter ps :
  pages_iter (List.filter (λ p, match entries p with [] => false | _ => true end) ps) = pages_iter ps.
Proof.
  induction ps as [|p ps IH]; [done|]. cbn [List.filter]. rewrite (pages_iter_cons p ps).
  destruct (entries p) eqn:E; [done|]. by rewrite pages_iter_cons, E, IH.
Qed.

Lemma cow_retain_ok {S} (keep : S → K → V → S * V * bool) s m : cow_wf m → fits (cow_iter m) →
  ∃ m', cow_retain keep s m = Some ((map_retain keep s (cow_iter m)).1, m') ∧
    cow_iter m' = (map_retain keep s (cow_iter m)).2 ∧ cow_wf m'.
Proof.
  intros Hw Hf. unfold cow_retain. rewrite (cw_len _ Hw), (cw_pressure _ Hw).
  destruct (retain_loop_ok keep (segments m) s [] Hf) as (qs & E & Hi & HF).
  change (zlen []) with 0 in E. change (pressure_of []) with 0 in E. rewrite !Z.add_0_l in E. unfold cow_iter.
  rewrite E. cbn [mbind option_bind]. eexists. split; [done|].
  assert (pages_iter (List.filter (λ p, match entries p with [] => false | _ => true end) qs) =
    (map_retain keep s (pages_iter (segments m))).2) as Hit by (by rewrite pages_iter_filter).
  split; [exact Hit|]. constructor; unfold cow_iter; cbn [segments map_len map_pressure]; rewrite ?Hit; [| |done|done].
  - apply map_retain_sorted, Hw.
  - apply Forall_forall. intros q [Hq Hne]%list_elem_of_In%List.filter_In.
    apply list_elem_of_In, list_elem_of_lookup in Hq as [i Hi'].
    destruct (Forall2_lookup_r _ _ _ _ _ HF Hi') as (p & Hp & Hle & Hc).
    pose proof (proj1 (Forall_lookup _ _) (cw_pages _ Hw) i p Hp) as (_ & Hn & _).
    split_and!; [by destruct (entries q)|lia|done].
Qed.

(** ** Building *)

(** The state of the loop after the entries [l]. *)
Record built l (b : build) : Prop := {
  bt_len : b_len b = zlen l;
  bt_pressure : b_pressure b = pressure_of l;
  bt_iter : pages_iter (b_segments b) ++ b_segment b = l;
  bt_pages : Forall page_ok (b_segments b);
  bt_segment : (length (b_segment b) ≤ COW_MAP_MAX_SEGMENT_ENTRIES)%nat;
  bt_open : l ≠ [] → b_segment b ≠ [];
}.

Lemma page_ok_from l : l ≠ [] → (length l ≤ COW_MAP_MAX_SEGMENT_ENTRIES)%nat → page_ok (page_from l).
Proof. intros. split_and!; [done|done|apply cache_ok_from]. Qed.

Lemma build_step_ok l b k v : built l b → key_sorted cmp (l ++ [(k, v)]) → fits (l ++ [(k, v)]) →
  ∃ b', build_step cmp b (k, v) = Some b' ∧ built (l ++ [(k, v)]) b'.
Proof.
  intros Hb Hs Hf. apply key_sorted_app in Hs as (_ & _ & Hlt). unfold build_step.
  pose proof (fits_usize _ Hf) as Hu. pose proof (fits_pressure _ Hf) as Hp. rewrite zlen_app in Hu. rewrite pressure_app in Hp.
  change (zlen [(k, v)]) with 1 in Hu. assert (pressure_of [(k, v)] = delta_pressure_bytes v) as Ev
    by (unfold pressure_of; cbn; lia). rewrite Ev in Hp. unfold u64_max in Hp.
  unfold add_usize, checked_add. rewrite (bt_len _ _ Hb), (proj2 (Z.leb_le _ _)) by lia. cbn [mbind option_bind].
  rewrite (bt_pressure _ _ Hb), add_u128_ok by lia. cbn [mbind option_bind].
  assert (∀ seg, (∀ a, a ∈ seg → a ∈ l) → (map_insert cmp k v seg).2 = seg ++ [(k, v)]) as Hins.
  { intros seg Hseg. apply (insert_last cmp). intros a Ha. apply (Hlt a (k, v)); [by apply Hseg|apply list_elem_of_here]. }
  assert (∀ a, a ∈ b_segment b → a ∈ l) as Hsub by (intros a Ha; rewrite <- (bt_iter _ _ Hb); apply elem_of_app; by right).
  set (full := match b_segment b with [] => false | _ => _ end). destruct full eqn:Efull.
  - eexists. split; [done|]. constructor; cbn [b_len b_pressure b_segments b_segment].
    + by rewrite zlen_app.
    + by rewrite pressure_app, Ev.
    + rewrite Hins by (by intros ? ?%elem_of_nil). rewrite pages_iter_app, pages_iter_one.
      change (entries (page_from (b_segment b))) with (b_segment b). by rewrite (bt_iter _ _ Hb).
    + apply Forall_app. split; [apply Hb|]. apply Forall_singleton, page_ok_from; [|apply Hb].
      unfold full in Efull. by destruct (b_segment b).
    + by apply Nat.leb_le.
    + done.
  - eexists. split; [done|]. constructor; cbn [b_len b_pressure b_segments b_segment]; rewrite ?Hins by done.
    + by rewrite zlen_app.
    + by rewrite pressure_app, Ev.
    + by rewrite app_assoc, (bt_iter _ _ Hb).
    + apply Hb.
    + rewrite length_app. cbn [length]. unfold full in Efull. destruct (b_segment b) as [|e seg]; [by apply Nat.leb_le|].
      apply orb_false_iff in Efull as [E _]. rewrite Z.geb_leb in E. apply Z.leb_gt in E. unfold zlen in E. lia.
    + by destruct (b_segment b).
Qed.

Lemma from_ordered_ok l : key_sorted cmp l → fits l →
  ∃ m, from_ordered_entries cmp l = Some m ∧ cow_iter m = l ∧ cow_wf m.
Proof.
  intros Hs Hf. unfold from_ordered_entries.
  assert (∃ b, foldl (λ b e, b ≫= λ b, build_step cmp b e) (Some (mk_build 0 [] [] 0 0)) l = Some b ∧ built l b) as (b & -> & Hb).
  { induction l as [|[k v] l IH] using rev_ind.
    - eexists. split; [done|]. constructor; try done. by apply Nat.leb_le.
    - rewrite foldl_app. destruct IH as (b & E & Hb).
      + by apply key_sorted_app in Hs as (? & _ & _).
      + apply (fits_sub (l ++ [(k, v)])); [rewrite zlen_app; zlen_lia|done].
      + cbn. setoid_rewrite E. cbn. by apply (build_step_ok l). }
  cbn [mbind option_bind]. eexists. split; [done|].
  set (pages := match b_segment b with [] => b_segments b | _ => _ end).
  assert (pages_iter pages = l) as Hi.
  { unfold pages. rewrite <- (bt_iter _ _ Hb). destruct (b_segment b) eqn:E; [by rewrite app_nil_r|].
    by rewrite pages_iter_app, pages_iter_one. }
  split; [done|]. constructor; unfold cow_iter; cbn [segments map_len map_pressure]; rewrite ?Hi; [done| |apply Hb|apply Hb].
  unfold pages. destruct (b_segment b) as [|e seg] eqn:E; [apply Hb|]. apply Forall_app. split; [apply Hb|].
  apply Forall_singleton, page_ok_from; [done|]. rewrite <- E. apply Hb.
Qed.

(** ** Ranges *)

Lemma range_app lo hi l1 l2 : map_range cmp lo hi (l1 ++ l2) = map_range cmp lo hi l1 ++ map_range cmp lo hi l2.
Proof. apply List.filter_app. Qed.
Lemma range_pages lo hi ps :
  List.flat_map (λ p, map_range cmp lo hi (entries p)) ps = map_range cmp lo hi (pages_iter ps).
Proof. induction ps as [|p ps IH]; [done|]. rewrite pages_iter_cons, range_app, <- IH. done. Qed.
Lemma range_nothing lo hi l : (∀ e, e ∈ l → above_lower cmp lo e.1 && below_upper cmp hi e.1 = false) →
  map_range cmp lo hi l = [].
Proof. apply filter_nothing. Qed.

Lemma elem_pages_iter e ps : e ∈ pages_iter ps ↔ ∃ p, p ∈ ps ∧ e ∈ entries p.
Proof.
  unfold pages_iter. rewrite list_elem_of_In, List.in_flat_map. setoid_rewrite <- list_elem_of_In. done.
Qed.
Lemma elem_page_sorted p ps : key_sorted cmp (pages_iter ps) → p ∈ ps → key_sorted cmp (entries p).
Proof.
  intros Hs [qs [rs ->]]%list_elem_of_split. rewrite pages_iter_app, pages_iter_cons in Hs.
  apply key_sorted_app in Hs as (_ & Hs & _). by apply key_sorted_app in Hs as (? & _ & _).
Qed.

(** Skipping the pages whose last key is below the bound loses nothing. *)
Lemma skip_below f lo hi ps : key_sorted cmp (pages_iter ps) → Forall page_ok ps →
  (∀ a b, cmp a b ≠ Gt → f b = true → f a = true) → (∀ a, f a = true → above_lower cmp lo a = false) →
  map_range cmp lo hi (pages_iter (drop (partition_point (last_key_is f) ps) ps)) = map_range cmp lo hi (pages_iter ps).
Proof.
  intros Hs HF Hmono Hlo. rewrite <- (take_drop (partition_point (last_key_is f) ps) ps) at 3.
  rewrite pages_iter_app, range_app, (range_nothing _ _ (pages_iter (take _ ps))); [done|].
  intros e (p & Hp & He)%elem_pages_iter. pose proof (partition_point_take _ _ _ Hp) as Hf.
  assert (p ∈ ps) as Hp' by (rewrite <- (take_drop (partition_point (last_key_is f) ps) ps); apply elem_of_app; by left).
  unfold last_key_is in Hf. destruct (last (entries p)) as [[kl vl]|] eqn:El; [|done].
  rewrite Hlo; [done|]. apply (Hmono _ kl); [|done].
  exact (sorted_le_last _ _ _ (elem_page_sorted _ _ Hs Hp') El He).
Qed.

(** Every page from the partition point on starts above the bound. *)
Lemma stop_above f lo hi ps : key_sorted cmp (pages_iter ps) → Forall page_ok ps →
  (∀ a b, cmp a b ≠ Gt → f b = true → f a = true) → (∀ a, f a = false → below_upper cmp hi a = false) →
  map_range cmp lo hi (pages_iter (drop (partition_point (first_key_is f) ps) ps)) = [].
Proof.
  intros Hs HF Hmono Hhi. induction ps as [|p ps IH]; [done|].
  cbn [partition_point]. destruct (first_key_is f p) eqn:E.
  - cbn [drop]. apply IH; [|by apply Forall_cons in HF as [_ ?]].
    rewrite pages_iter_cons in Hs. by apply key_sorted_app in Hs as (_ & ? & _).
  - cbn [drop]. apply Forall_cons in HF as [(Hne & _ & _) _]. rewrite pages_iter_cons in Hs |- *.
    destruct (entries p) as [|[k0 v0] l0] eqn:Ep; [done|]. unfold first_key_is in E. rewrite Ep in E. cbn in E.
    apply range_nothing. intros e He. rewrite (Hhi e.1), andb_false_r; [done|].
    destruct (f e.1) eqn:Ef; [|done]. rewrite <- E. symmetry. apply (Hmono k0 e.1); [|done].
    exact (sorted_ge_head _ (k0, v0) _ Hs eq_refl He).
Qed.

Lemma key_leb_mono k a b : cmp a b ≠ Gt → key_leb cmp b k = true → key_leb cmp a k = true.
Proof. rewrite !key_leb_true. apply (ord_trans cmp). Qed.
Lemma key_ltb_mono k a b : cmp a b ≠ Gt → key_ltb cmp b k = true → key_ltb cmp a k = true.
Proof. rewrite !key_ltb_true. intros H1 H2. by apply (ord_le_lt_trans cmp a b k). Qed.

Lemma iter_after_ok after m : cow_wf m →
  iter_after cmp after m =
    map_range cmp (match after with Some k => Excluded k | None => Unbounded end) Unbounded (cow_iter m).
Proof.
  intros Hw. unfold iter_after. rewrite range_pages. destruct after as [k|]; cbn [mbind option_bind]; [|done].
  destruct (decide (segments m = [])) as [Es|Es].
  { rewrite segment_index_nil by done. unfold cow_iter. by rewrite Es. }
  destruct (locate_map k m Hw Es) as (qs & p & rs & E & -> & _ & _ & _ & Ei & H1 & _). cbn [from_option id].
  rewrite Ei, E, drop_app_length, range_app, (range_nothing _ _ (pages_iter qs)); [by rewrite pages_iter_cons|].
  intros e He. unfold above_lower, key_ltb. by rewrite (proj2 (ord_gt_lt cmp k e.1) (H1 e He)).
Qed.

Lemma partition_point_le {A} (f g : A → bool) (l : list A) : (∀ x, x ∈ l → f x = true → g x = true) →
  (partition_point f l ≤ partition_point g l)%nat.
Proof.
  induction l as [|x l IH]; intros H; cbn; [lia|]. destruct (f x) eqn:E; [|lia].
  rewrite (H x) by (done || apply list_elem_of_here). apply le_n_S, IH. intros y Hy. apply H. by apply elem_of_cons; right.
Qed.

Lemma cow_range_ok first last m : cow_wf m →
  cow_range cmp first last m =
    if key_leb cmp first last then Some (map_range cmp (Included first) (Included last) (cow_iter m)) else None.
Proof.
  intros Hw. unfold cow_range. destruct (key_leb cmp first last) eqn:Ele; [|done]. apply key_leb_true in Ele.
  set (f := λ k, key_ltb cmp k first). set (g := λ k, key_leb cmp k last).
  assert (partition_point (last_key_is f) (segments m) ≤ partition_point (first_key_is g) (segments m))%nat as Hle.
  { apply partition_point_le. intros p Hp. unfold last_key_is, first_key_is.
    destruct (list.last (entries p)) as [[kl vl]|] eqn:El; [|done]. intros Hf.
    destruct (head (entries p)) as [[kh vh]|] eqn:Eh; [|by destruct (entries p)].
    apply key_leb_true. apply (ord_trans cmp kh kl last).
    - apply (sorted_le_last (entries p) (kl, vl) (kh, vh)); [|done|].
      + exact (elem_page_sorted _ _ (cw_sorted _ Hw) Hp).
      + destruct (entries p); [done|]. injection Eh as ->. apply list_elem_of_here.
    - apply (ord_trans cmp kl first last); [|done]. apply key_ltb_true in Hf. by rewrite Hf. }
  rewrite (proj2 (Nat.leb_le _ _) Hle), range_pages. f_equal. unfold cow_iter.
  rewrite <- (skip_below f (Included first) (Included last) (segments m)); [|apply Hw|apply Hw|apply key_ltb_mono|].
  2: { intros a. cbn. rewrite key_leb_negb by done. unfold f. by intros ->. }
  set (ps := drop _ _). set (n := (_ - _)%nat). rewrite <- (take_drop n ps) at 2. rewrite pages_iter_app, range_app.
  assert (drop n ps = drop (partition_point (first_key_is g) (segments m)) (segments m)) as ->
    by (unfold ps, n; rewrite drop_drop; f_equal; lia).
  rewrite stop_above; [by rewrite app_nil_r|apply Hw|apply Hw|apply key_leb_mono|done].
Qed.

Lemma find_map_head {A B} (F : A → list B) (l : list A) : find_map (λ x, head (F x)) l = head (List.flat_map F l).
Proof. induction l as [|x l IH]; [done|]. cbn. destruct (F x); [by rewrite IH|done]. Qed.

Lemma first_after_ok lower m : cow_wf m →
  first_after cmp lower m =
    head (map_range cmp (match lower with Some k => Excluded k | None => Unbounded end) Unbounded (cow_iter m)).
Proof.
  intros Hw. unfold first_after. destruct lower as [k|].
  - rewrite (find_map_head (λ p, map_range cmp (Excluded k) Unbounded (entries p))), range_pages. f_equal. unfold cow_iter.
    apply skip_below; [apply Hw|apply Hw|apply key_leb_mono|]. intros a. cbn. rewrite key_leb_negb by done.
    intros ->%negb_true_iff. done.
  - rewrite (find_map_head entries). cbn. f_equal. unfold map_range. rewrite filter_all; [done|done].
Qed.

(** The standard library's binary search needs the directory partitioned. *)
Lemma directory_partitioned f m i j p q : cow_wf m → (∀ a b, cmp a b ≠ Gt → f b = true → f a = true) →
  (i < j)%nat → segments m !! i = Some p → segments m !! j = Some q →
  (last_key_is f q = true → last_key_is f p = true) ∧ (first_key_is f q = true → first_key_is f p = true).
Proof.
  intros Hw Hmono Hij Hp Hq. pose proof (cw_sorted _ Hw) as Hs. unfold cow_iter in Hs.
  pose proof (proj1 (Forall_lookup _ _) (cw_pages _ Hw) i p Hp) as (Hpn & _ & _).
  pose proof (proj1 (Forall_lookup _ _) (cw_pages _ Hw) j q Hq) as (Hqn & _ & _).
  rewrite <- (take_drop_middle _ _ _ Hp), pages_iter_app, pages_iter_cons in Hs.
  apply key_sorted_app in Hs as (_ & Hs & _). apply key_sorted_app in Hs as (_ & _ & Hlt).
  assert (∀ e, e ∈ entries q → e ∈ pages_iter (drop (S i) (segments m))) as Hin.
  { intros e He. apply elem_pages_iter. exists q. split; [|done]. apply list_elem_of_lookup. exists (j - S i)%nat.
    rewrite lookup_drop. by replace (S i + (j - S i))%nat with j by lia. }
  split; unfold last_key_is, first_key_is.
  - destruct (last (entries q)) as [[kq vq]|] eqn:Eq; [|done]. destruct (last (entries p)) as [[kp vp]|] eqn:Ep.
    + intros H. apply (Hmono kp kq); [|done]. pose proof (Hlt (kp, vp) (kq, vq)) as Hl. cbn in Hl.
      rewrite Hl; [done| |apply Hin]; eapply last_Some_elem_of; done.
    + by apply last_None in Ep.
  - destruct (entries q) as [|[kq vq] lq] eqn:Eq; [done|]. destruct (entries p) as [|[kp vp] lp] eqn:Ep; [done|]. cbn.
    intros H. apply (Hmono kp kq); [|done]. pose proof (Hlt (kp, vp) (kq, vq)) as Hl. cbn in Hl.
    rewrite Hl; [done|apply list_elem_of_here|]. apply Hin, list_elem_of_here.
Qed.

(** ** The operations as one language

    Each operation on the copy-on-write map, with what it returns, and the same
    operation on the ordered map that it stands for. *)
Inductive map_op :=
  | OpInsert (k : K) (v : V)
  | OpRemove (k : K)
  | OpModify (k : K) (f : V → V)
  | OpEntry (d : V) (k : K) (f : V → V)
  | OpRebalance (k : K)
  | OpRetain (keep : K → V → V * bool).

Inductive map_result :=
  | Previous (o : option V)
  | Present (b : bool)
  | Unit.

Definition keep_fn (keep : K → V → V * bool) (s : ()) (k : K) (v : V) : () * V * bool :=
  let '(v, b) := keep k v in (s, v, b).

Definition run_op (op : map_op) (m : CowSegmentedMap K V) : option (map_result * CowSegmentedMap K V) :=
  match op with
  | OpInsert k v => '(o, m) ← cow_insert cmp k v m; Some (Previous o, m)
  | OpRemove k => '(o, m) ← cow_remove cmp k m; Some (Previous o, m)
  | OpModify k f => '(b, m) ← cow_modify cmp k f m; Some (Present b, m)
  | OpEntry d k f => m ← entry_or_default cmp d k f m; Some (Unit, m)
  | OpRebalance k => m ← rebalance_key cmp k m; Some (Unit, m)
  | OpRetain keep => '(_, m) ← cow_retain (keep_fn keep) () m; Some (Unit, m)
  end.

Definition spec_op (op : map_op) (l : list (K * V)) : map_result * list (K * V) :=
  match op with
  | OpInsert k v => (Previous (map_get cmp k l), (map_insert cmp k v l).2)
  | OpRemove k => (Previous (map_get cmp k l), (map_remove cmp k l).2)
  | OpModify k f => (Present (map_contains cmp k l), map_update cmp k f l)
  | OpEntry d k f => (Unit, map_entry d k f l)
  | OpRebalance _ => (Unit, l)
  | OpRetain keep => (Unit, (map_retain (keep_fn keep) () l).2)
  end.

Fixpoint run_ops (ops : list map_op) (m : CowSegmentedMap K V) : option (list map_result * CowSegmentedMap K V) :=
  match ops with
  | [] => Some ([], m)
  | op :: ops => '(r, m) ← run_op op m; '(rs, m) ← run_ops ops m; Some (r :: rs, m)
  end.
Fixpoint spec_ops (ops : list map_op) (l : list (K * V)) : list map_result * list (K * V) :=
  match ops with
  | [] => ([], l)
  | op :: ops => let '(r, l) := spec_op op l in let '(rs, l) := spec_ops ops l in (r :: rs, l)
  end.

Lemma zlen_spec_op op l : zlen (spec_op op l).2 ≤ 1 + zlen l.
Proof.
  destruct op; cbn [spec_op snd]; [apply zlen_insert| |rewrite zlen_update; lia| |lia|].
  - cbn. rewrite zlen_alter. destruct (get_key_value cmp k l); cbn; lia.
  - unfold map_entry. rewrite zlen_update. destruct (map_contains cmp k l); [lia|apply zlen_insert].
  - pose proof (map_retain_length (keep_fn keep) () l). lia.
Qed.

Lemma run_op_ok op m : cow_wf m → 1 + zlen (cow_iter m) < 2 ^ 62 →
  ∃ m', run_op op m = Some ((spec_op op (cow_iter m)).1, m') ∧ cow_iter m' = (spec_op op (cow_iter m)).2 ∧ cow_wf m'.
Proof.
  intros Hw Hf. assert (fits (cow_iter m)) as Hf0 by (unfold fits; lia).
  assert (∀ e, fits (e :: cow_iter m)) as Hf1 by (intros e; unfold fits; rewrite zlen_cons; lia).
  destruct op as [k v|k|k f|d k f|k|keep]; cbn [run_op spec_op fst snd].
  - destruct (cow_insert_ok k v m Hw (Hf1 _)) as (m' & -> & Hi & Hw'). by exists m'.
  - destruct (cow_remove_ok k m Hw Hf0) as (m' & -> & Hi & Hw'). by exists m'.
  - destruct (cow_modify_ok k f m Hw Hf0) as (m' & -> & Hi & Hw'). by exists m'.
  - destruct (entry_ok d k f m Hw (Hf1 _)) as (m' & -> & Hi & Hw'). by exists m'.
  - destruct (rebalance_ok k m Hw Hf0) as (m' & -> & Hi & Hw'). by exists m'.
  - destruct (cow_retain_ok (keep_fn keep) () m Hw Hf0) as (m' & -> & Hi & Hw'). by exists m'.
Qed.

(** C7: The copy-on-write map refines the ordered map it stands for: any sequence
    of insertions, removals, in-place changes, default entries, rebalancings and
    retentions, from any well-formed map, runs without a panic (no arithmetic
    overflow or underflow, no index out of range, no failed expect) as long as
    the entries stay countable, returns what the ordered map returns at every
    step, and ends with the same entries in a well-formed map. *)
Theorem cow_map_refines ops m : cow_wf m → zlen (cow_iter m) + zlen ops < 2 ^ 62 →
  ∃ m', run_ops ops m = Some ((spec_ops ops (cow_iter m)).1, m') ∧
    cow_iter m' = (spec_ops ops (cow_iter m)).2 ∧ cow_wf m'.
Proof.
  revert m; induction ops as [|op ops IH]; intros m Hw Hf; [by exists m|]. rewrite zlen_cons in Hf.
  destruct (run_op_ok op m Hw) as (m1 & E1 & Hi1 & Hw1); [zlen_lia|].
  pose proof (zlen_spec_op op (cow_iter m)) as Hl. rewrite <- Hi1 in Hl.
  destruct (IH m1 Hw1 ltac:(lia)) as (m2 & E2 & Hi2 & Hw2). cbn [run_ops spec_ops]. rewrite E1. cbn [mbind option_bind].
  rewrite E2. cbn [mbind option_bind]. rewrite Hi1 in *. destruct (spec_op op (cow_iter m)) as [r l]. cbn [fst snd] in *.
  destruct (spec_ops ops l) as [rs l']. by exists m2.
Qed.

(** Maps the program can build. *)
Inductive cow_reachable : CowSegmentedMap K V → Prop :=
  | reach_default : cow_reachable cow_default
  | reach_built l m :
      key_sorted cmp l → fits l → from_ordered_entries cmp l = Some m → cow_reachable m
  | reach_step op r m m' :
      cow_reachable m → 1 + zlen (cow_iter m) < 2 ^ 62 → run_op op m = Some (r, m') → cow_reachable m'.

Lemma reachable_wf m : cow_reachable m → cow_wf m ∧ fits (cow_iter m).
Proof.
  induction 1 as [|l m Hs Hf E|op r m m' _ [Hw Hf] Hsize E].
  - split; [|done]. constructor; try done. constructor.
  - destruct (from_ordered_ok l Hs Hf) as (m0 & E0 & Hi & Hw). rewrite E0 in E. injection E as <-. by rewrite Hi.
  - destruct (run_op_ok op m Hw Hsize) as (m1 & E1 & Hi & Hw1). rewrite E1 in E. injection E as _ <-.
    split; [done|]. rewrite Hi. unfold fits. pose proof (zlen_spec_op op (cow_iter m)). lia.
Qed.

(** C8: In every map the program can build, from nothing, from an ordered map or by
    any sequence of operations: the entries are in strict key order across the
    pages; every page holds between one and 512 entries; the cached weight of a
    page is the sum of the weights of its entries, so its estimate is exact; and
    the maintained length and pressure are those of the entries, the public
    pressure being the exact sum cut to 64 bits. *)
Theorem cow_map_invariant m : cow_reachable m →
  key_sorted cmp (cow_iter m) ∧
  (∀ p, p ∈ segments m →
    (1 ≤ length (entries p) ≤ COW_MAP_MAX_SEGMENT_ENTRIES)%nat ∧
    fst <$> estimated_bytes p = Some (zsum ((λ e, entry_payload e + 32) <$> entries p))) ∧
  map_len m = zlen (cow_iter m) ∧
  public_pressure m = Z.min u64_max (zsum ((λ e, delta_pressure_bytes e.2) <$> cow_iter m)).
Proof.
  intros [Hw Hf]%reachable_wf. split_and!; [apply Hw| |apply Hw|].
  - intros p Hp. pose proof (proj1 (Forall_forall _ _) (cw_pages _ Hw) p Hp) as (Hne & Hn & Hc). split.
    + destruct (entries p); [done|]. cbn [length] in *. lia.
    + apply list_elem_of_split in Hp as (qs & rs & E).
      assert (cow_iter m = pages_iter qs ++ entries p ++ pages_iter rs) as Ei
        by (unfold cow_iter; by rewrite E, pages_iter_app, pages_iter_cons).
      destruct (estimated_bytes_ok p Hc (page_fits _ _ _ _ Hf Ei)) as (p' & -> & _ & _). cbn [fst fmap option_fmap option_map].
      f_equal. unfold payload. clear. induction (entries p) as [|e l IH]; [done|]. rewrite zlen_cons. cbn in *. lia.
  - unfold public_pressure. rewrite (cw_pressure _ Hw). unfold pressure_of. case_bool; lia.
Qed.

(** C38: Reading a well-formed map agrees with reading the ordered map: lookups,
    the iteration after a key, the interval between two keys (refused exactly
    when the bounds are out of order), and the first entry after a key; and the
    directory is partitioned by every predicate that is closed downwards, which
    the binary searches require. *)
Theorem cow_map_reads m : cow_wf m →
  (∀ k, cow_get cmp k m = map_get cmp k (cow_iter m)) ∧
  (∀ after, iter_after cmp after m =
    map_range cmp (match after with Some k => Excluded k | None => Unbounded end) Unbounded (cow_iter m)) ∧
  (∀ a b, cow_range cmp a b m =
    if key_leb cmp a b then Some (map_range cmp (Included a) (Included b) (cow_iter m)) else None) ∧
  (∀ lower, first_after cmp lower m =
    head (map_range cmp (match lower with Some k => Excluded k | None => Unbounded end) Unbounded (cow_iter m))) ∧
  (∀ f i j p q, (∀ a b, cmp a b ≠ Gt → f b = true → f a = true) → (i < j)%nat →
    segments m !! i = Some p → segments m !! j = Some q →
    (last_key_is f q = true → last_key_is f p = true) ∧ (first_key_is f q = true → first_key_is f p = true)).
Proof.
  intros Hw. split_and!.
  - intros k. by apply cow_get_ok.
  - intros after. by apply iter_after_ok.
  - intros a b. by apply cow_range_ok.
  - intros lower. by apply first_after_ok.
  - intros f i j p q Hm Hij Hp Hq. by apply (directory_partitioned f m i j p q Hw).
Qed.
End Spec.

(** A map from integers to integers, the weights those of [u64]. *)
Module CowDemo.
#[local] Instance u64_weight : CowPageWeight Z.
Proof. refine {| cow_page_bytes _ := 8; delta_pressure_bytes _ := 0 |}; by intros _; vm_compute. Defined.

Definition no_bounds (l : list (Z * Z)) : Z * Z := (0, 0).
Definition seed : list (Z * Z) := [(1, 10); (5, 50); (9, 90)].
Definition map0 : CowSegmentedMap Z Z := default cow_default (from_ordered_entries Z.compare seed).
Definition ops : list (@map_op Z Z) :=
  [OpInsert 3 30; OpRemove 5; OpModify 9 (λ v, v + 1); OpEntry 0 7 (λ v, v + 7);
   OpRetain (λ k v, (v, negb (k =? 1))); OpRebalance 3].

Lemma seed_sorted : key_sorted Z.compare seed.
Proof. repeat constructor. Qed.
Lemma map0_wf : cow_wf Z.compare no_bounds map0.
Proof.
  destruct (from_ordered_ok Z.compare no_bounds seed seed_sorted ltac:(by vm_compute)) as (m & E & _ & Hw).
  unfold map0. by rewrite E.
Qed.

Lemma cow_map_refines_witness : ∃ m',
  run_ops Z.compare ops map0 = Some ([Previous None; Previous (Some 50); Present true; Unit; Unit; Unit], m') ∧
  cow_iter m' = [(3, 30); (7, 7); (9, 91)] ∧ cow_wf Z.compare no_bounds m'.
Proof. exact (cow_map_refines Z.compare no_bounds ops map0 map0_wf ltac:(by vm_compute)). Defined.

Lemma cow_map_invariant_witness : map_len map0 = 3 ∧ public_pressure map0 = 0.
Proof.
  pose proof (reach_built Z.compare seed map0 seed_sorted ltac:(by vm_compute) ltac:(by vm_compute)) as Hr.
  exact (proj2 (proj2 (cow_map_invariant Z.compare no_bounds map0 Hr))).
Defined.

Lemma cow_map_reads_witness :
  cow_range Z.compare 2 9 map0 = Some [(5, 50); (9, 90)] ∧ first_after Z.compare (Some 5) map0 = Some (9, 90).
Proof.
  pose proof (cow_map_reads Z.compare no_bounds map0 map0_wf) as (_ & _ & Hr & Hf & _).
  exact (conj (Hr 2 9) (Hf (Some 5))).
Defined.
End CowDemo.
