(* ===== verification/HistoryBudget.v ===== *)
(** The budget of retained version history: crates/storage/src/version/history_budget.rs.

    A lease holds part of the budget; it can be split between pages, shrunk when a
    page loses entries, and gives its part back when it is dropped.  The budget is
    behind a mutex, so the operations of all holders form one sequence of steps.
    [None] is a panic of one of its [expect]s; a refused reservation is a value. *)
From S2P Require Import Prelude CowMapSpec.

Record HistoryBudget := { used : Z; limit : Z }.

Definition budget_new (limit : Z) : HistoryBudget := {| used := 0; limit := limit |}.

Definition reserve (bytes : Z) (b : HistoryBudget) : option (HistoryBudget * Z) :=
  next ← checked_add usize_max (used b) bytes;
  if next >? limit b then None else Some ({| used := next; limit := limit b |}, bytes).

(** [split]: what the lease keeps, and the new lease. *)
Definition lease_split (bytes lease : Z) : option (Z * Z) :=
  rest ← checked_sub lease bytes; Some (rest, bytes).
Definition lease_shrink (bytes lease : Z) (b : HistoryBudget) : option (HistoryBudget * Z) :=
  released ← checked_sub lease bytes;
  used' ← checked_sub (used b) released;
  Some ({| used := used'; limit := limit b |}, bytes).
Definition lease_drop (lease : Z) (b : HistoryBudget) : option HistoryBudget :=
  used' ← checked_sub (used b) lease; Some {| used := used'; limit := limit b |}.

(** The budget and the leases that are held. *)
Record ledger := { budget : HistoryBudget; leases : list Z }.

(** The steps of the holders.  A split or shrink asks for no more than the lease
    has, which the preflight of the callers ensures. *)
Inductive ledger_step : ledger → ledger → Prop :=
  | step_reserve bytes g b lease :
      0 ≤ bytes → reserve bytes (budget g) = Some (b, lease) →
      ledger_step g {| budget := b; leases := lease :: leases g |}
  | step_split i bytes lease rest new g :
      leases g !! i = Some lease → 0 ≤ bytes → lease_split bytes lease = Some (rest, new) →
      ledger_step g {| budget := budget g; leases := new :: <[i := rest]> (leases g) |}
  | step_shrink i bytes lease b lease' g :
      leases g !! i = Some lease → 0 ≤ bytes → lease_shrink bytes lease (budget g) = Some (b, lease') →
      ledger_step g {| budget := b; leases := <[i := lease']> (leases g) |}
  | step_drop i lease b g :
      leases g !! i = Some lease → lease_drop lease (budget g) = Some b →
      ledger_step g {| budget := b; leases := delete i (leases g) |}.

Inductive ledger_reachable : ledger → Prop :=
  | ledger_start limit : 0 ≤ limit ≤ usize_max → ledger_reachable {| budget := budget_new limit; leases := [] |}
  | ledger_next g g' : ledger_reachable g → ledger_step g g' → ledger_reachable g'.

Lemma zsum_insert i x (y : Z) l : l !! i = Some x → zsum (<[i := y]> l) = zsum l - x + y.
Proof.
  revert i; induction l as [|z l IH]; intros [|i] Hi; try done; [injection Hi as ->; cbn; lia|].
  change (zsum (z :: <[i := y]> l) = zsum (z :: l) - x + y). cbn [zsum]. rewrite (IH i Hi). lia.
Qed.
Lemma zsum_delete i x l : l !! i = Some x → zsum (delete i l) = zsum l - x.
Proof.
  revert i; induction l as [|z l IH]; intros [|i] Hi; try done; [injection Hi as ->; cbn; lia|].
  change (zsum (z :: delete i l) = zsum (z :: l) - x). cbn [zsum]. rewrite (IH i Hi). lia.
Qed.
Lemma zsum_lookup i x l : Forall (λ z, 0 ≤ z) l → l !! i = Some x → 0 ≤ x ≤ zsum l.
Proof.
  intros HF. revert i; induction HF as [|z l Hz HF IH]; intros [|i]; cbn; try done.
  - intros [= ->]. pose proof (zsum_nonneg _ HF). lia.
  - intros Hi%IH. lia.
Qed.

Record ledger_ok (g : ledger) : Prop := {
  lo_leases : Forall (λ z, 0 ≤ z) (leases g);
  lo_used : used (budget g) = zsum (leases g);
  lo_limit : used (budget g) ≤ limit (budget g) ≤ usize_max;
}.

Lemma ledger_step_ok g g' : ledger_ok g → ledger_step g g' → ledger_ok g'.
Proof.
  intros [HF Hu Hl] Hs. inversion Hs as [bytes ? b lease Hb E|i bytes lease rest new ? Hi Hb E
    |i bytes lease b lease' ? Hi Hb E|i lease b ? Hi E]; subst; clear Hs.
  - unfold reserve, checked_add in E. destruct (Z.leb_spec (used (budget g) + bytes) usize_max); [|done]. cbn in E.
    destruct (Z.gtb_spec (used (budget g) + bytes) (limit (budget g))); [done|]. injection E as <- <-.
    constructor; cbn; [by constructor|lia|lia].
  - unfold lease_split, checked_sub in E. destruct (Z.leb_spec bytes lease); [|done]. injection E as <- <-.
    constructor; cbn; [|rewrite (zsum_insert _ lease) by done; lia|done].
    constructor; [done|]. apply Forall_insert; [done|lia].
  - unfold lease_shrink, checked_sub in E. destruct (Z.leb_spec bytes lease); [|done]. cbn in E.
    destruct (Z.leb_spec (lease - bytes) (used (budget g))); [|done]. injection E as <- <-.
    constructor; cbn; [by apply Forall_insert|rewrite (zsum_insert _ lease) by done; lia|lia].
  - unfold lease_drop, checked_sub in E. destruct (Z.leb_spec lease (used (budget g))); [|done]. injection E as <-.
    pose proof (zsum_lookup _ _ _ HF Hi). constructor; cbn; [by apply Forall_delete|rewrite (zsum_delete _ lease) by done; lia|lia].
Qed.

Lemma reachable_ledger_ok g : ledger_reachable g → ledger_ok g.
Proof.
  induction 1 as [limit Hl|g g' _ IH Hs]; [by constructor|]. by apply (ledger_step_ok g).
Qed.

(** C39: Retained history is conserved and bounded.  However reservations, splits,
    shrinkings and drops of leases interleave, the budget in use is the sum of the
    leases held and within the limit; a reservation is refused exactly when it
    would exceed the limit; and dropping a lease, splitting it or shrinking it to
    no more than it holds never panics. *)
Theorem history_budget_conserved g : ledger_reachable g →
  used (budget g) = zsum (leases g) ∧ used (budget g) ≤ limit (budget g) ∧
  (∀ bytes, 0 ≤ bytes → (∃ r, reserve bytes (budget g) = Some r) ↔ zsum (leases g) + bytes ≤ limit (budget g)) ∧
  (∀ i lease, leases g !! i = Some lease →
    (∃ b, lease_drop lease (budget g) = Some b) ∧
    ∀ bytes, 0 ≤ bytes ≤ lease →
      (∃ r, lease_split bytes lease = Some r) ∧ (∃ r, lease_shrink bytes lease (budget g) = Some r)).
Proof.
  intros [HF Hu Hl]%reachable_ledger_ok. split_and!; [done|lia| |].
  - intros bytes Hb. unfold reserve, checked_add. split.
    + intros [r Hr]. destruct (Z.leb_spec (used (budget g) + bytes) usize_max); [|done]. cbn in Hr.
      destruct (Z.gtb_spec (used (budget g) + bytes) (limit (budget g))); [done|]. lia.
    + intros Hle. rewrite (proj2 (Z.leb_le _ _)) by lia. cbn.
      destruct (Z.gtb_spec (used (budget g) + bytes) (limit (budget g))); [lia|by eexists].
  - intros i lease Hi. pose proof (zsum_lookup _ _ _ HF Hi). split.
    + unfold lease_drop. rewrite checked_sub_ok by lia. by eexists.
    + intros bytes Hb. unfold lease_split, lease_shrink. rewrite !checked_sub_ok by lia. cbn.
      rewrite checked_sub_ok by lia. split; by eexists.
Qed.

Module BudgetDemo.
Definition g0 : ledger := {| budget := budget_new 100; leases := [] |}.
Definition g1 : ledger := {| budget := {| used := 60; limit := 100 |}; leases := [60] |}.
Lemma g1_reachable : ledger_reachable g1.
Proof.
  apply (ledger_next g0); [by apply ledger_start|].
  exact (step_reserve 60 g0 {| used := 60; limit := 100 |} 60 ltac:(done) eq_refl).
Qed.
Lemma history_budget_conserved_witness : used (budget g1) = zsum [60] ∧ ∃ b, lease_drop 60 (budget g1) = Some b.
Proof.
  pose proof (history_budget_conserved g1 g1_reachable) as (H1 & _ & _ & H2).
  exact (conj H1 (proj1 (H2 O 60 eq_refl))).
Defined.
End BudgetDemo.
