(* ===== verification/LockModel.v ===== *)
(** Logical lock requests: modes, targets, covering, overlap and the
    acquisition order (crates/storage/src/transaction_locks.rs, the data types
    and the free functions). *)
From S2P Require Import Prelude Ordering Decimal RelationalValue.

(** ** Data *)

Inductive LockMode := Shared | Exclusive | OptimisticCommit.

Inductive LockNamespace := RelationalIndex (table : bytes) (columns : list bytes).

Inductive GraphAllocationKind := AllocNode | AllocRelationship.
Inductive GraphAdjacencyDirection := Outgoing | Incoming.

(** [std::ops::Bound]. *)
Inductive Bound (A : Type) := Included (a : A) | Excluded (a : A) | Unbounded.
Arguments Included {A}.
Arguments Excluded {A}.
Arguments Unbounded {A}.

Inductive LockTarget :=
  | Database
  | RelationalTable (table : bytes)
  | RelationalRange (namespace : LockNamespace) (lower upper : Bound RelationalKey)
  | GraphAllocation (kind : GraphAllocationKind)
  | GraphLabel (label : bytes)
  | GraphRelationshipType (rel_type : bytes)
  | GraphNode (node_id : Z)
  | GraphRelationship (relationship_id : Z)
  | GraphNodeDeleteGuard (node_id : Z)
  | GraphAdjacency (node_id : Z) (rel_type : option Z) (direction : GraphAdjacencyDirection).

Record LockRequest := { mode : LockMode; target : LockTarget }.

#[export] Instance LockMode_eq_dec : EqDecision LockMode.
Proof. solve_decision. Defined.
#[export] Instance LockNamespace_eq_dec : EqDecision LockNamespace.
Proof. solve_decision. Defined.
#[export] Instance GraphAllocationKind_eq_dec : EqDecision GraphAllocationKind.
Proof. solve_decision. Defined.
#[export] Instance GraphAdjacencyDirection_eq_dec : EqDecision GraphAdjacencyDirection.
Proof. solve_decision. Defined.

(** ** Constructors of requests *)

Definition LockRequest_database (m : LockMode) : LockRequest := {| mode := m; target := Database |}.
Definition LockRequest_relational_table (m : LockMode) (table : bytes) : LockRequest :=
  {| mode := m; target := RelationalTable table |}.
Definition LockRequest_relational_range (m : LockMode) (table : bytes) (columns : list bytes)
    (lower upper : Bound RelationalKey) : LockRequest :=
  {| mode := m; target := RelationalRange (RelationalIndex table columns) lower upper |}.
Definition LockRequest_relational_point (m : LockMode) (table : bytes) (columns : list bytes)
    (key : RelationalKey) : LockRequest :=
  LockRequest_relational_range m table columns (Included key) (Included key).
Definition LockRequest_graph_allocation (kind : GraphAllocationKind) : LockRequest :=
  {| mode := Exclusive; target := GraphAllocation kind |}.
Definition LockRequest_graph_node (m : LockMode) (node_id : Z) : LockRequest :=
  {| mode := m; target := GraphNode node_id |}.
Definition LockRequest_graph_label (m : LockMode) (label : bytes) : LockRequest :=
  {| mode := m; target := GraphLabel label |}.
Definition LockRequest_graph_relationship_type (m : LockMode) (rel_type : bytes) : LockRequest :=
  {| mode := m; target := GraphRelationshipType rel_type |}.
Definition LockRequest_graph_relationship (m : LockMode) (relationship_id : Z) : LockRequest :=
  {| mode := m; target := GraphRelationship relationship_id |}.
Definition LockRequest_graph_node_delete_guard (m : LockMode) (node_id : Z) : LockRequest :=
  {| mode := m; target := GraphNodeDeleteGuard node_id |}.
Definition LockRequest_graph_adjacency (m : LockMode) (node_id : Z) (rel_type : option Z)
    (direction : GraphAdjacencyDirection) : LockRequest :=
  {| mode := m; target := GraphAdjacency node_id rel_type direction |}.

(** ** Comparisons *)

Definition key_lt (a b : RelationalKey) : bool := match key_cmp a b with Lt => true | _ => false end.
Definition key_le (a b : RelationalKey) : bool := match key_cmp a b with Gt => false | _ => true end.

Definition relational_namespace_table (n : LockNamespace) : bytes :=
  match n with RelationalIndex table _ => table end.

Definition modes_conflict (left_ right_ : LockMode) : bool :=
  negb match left_, right_ with
       | Shared, Shared | OptimisticCommit, OptimisticCommit => true
       | _, _ => false
       end.

Definition mode_covers (held requested : LockMode) : bool :=
  bool_decide (held = Exclusive) || bool_decide (held = requested).

Definition lower_bound_covers (held requested : Bound RelationalKey) : bool :=
  match held, requested with
  | Unbounded, _ => true
  | _, Unbounded => false
  | Included h, Included r => key_le h r
  | Included h, Excluded r => key_le h r
  | Excluded h, Included r => key_lt h r
  | Excluded h, Excluded r => key_le h r
  end.

Definition upper_bound_covers (held requested : Bound RelationalKey) : bool :=
  match held, requested with
  | Unbounded, _ => true
  | _, Unbounded => false
  | Included h, Included r => key_le r h
  | Included h, Excluded r => key_le r h
  | Excluded h, Included r => key_lt r h
  | Excluded h, Excluded r => key_le r h
  end.

Definition upper_is_before_lower (upper lower : Bound RelationalKey) : bool :=
  match upper, lower with
  | Unbounded, _ | _, Unbounded => false
  | Included u, Included l => key_lt u l
  | Included u, Excluded l | Excluded u, Included l | Excluded u, Excluded l => key_le u l
  end.

Definition target_covers (held requested : LockTarget) : bool :=
  match held, requested with
  | Database, _ => true
  | _, Database => false
  | RelationalTable h, RelationalTable r => bool_decide (h = r)
  | RelationalTable table, RelationalRange namespace _ _ =>
      bool_decide (relational_namespace_table namespace = table)
  | RelationalRange _ _ _, RelationalTable _ => false
  | RelationalRange hn hl hu, RelationalRange rn rl ru =>
      bool_decide (hn = rn) && lower_bound_covers hl rl && upper_bound_covers hu ru
  | GraphAllocation h, GraphAllocation r => bool_decide (h = r)
  | GraphLabel h, GraphLabel r => bool_decide (h = r)
  | GraphRelationshipType h, GraphRelationshipType r => bool_decide (h = r)
  | GraphNode h, GraphNode r => h =? r
  | GraphNodeDeleteGuard h, GraphNodeDeleteGuard r => h =? r
  | GraphRelationship h, GraphRelationship r => h =? r
  | GraphAdjacency hn ht hd, GraphAdjacency rn rt rd =>
      (hn =? rn) && bool_decide (hd = rd)
      && (bool_decide (ht = None) || bool_decide (ht = rt))
  | _, _ => false
  end.

Definition targets_overlap (left_ right_ : LockTarget) : bool :=
  match left_, right_ with
  | Database, _ | _, Database => true
  | RelationalTable l, RelationalTable r => bool_decide (l = r)
  | RelationalTable table, RelationalRange namespace _ _
  | RelationalRange namespace _ _, RelationalTable table =>
      bool_decide (relational_namespace_table namespace = table)
  | RelationalRange ln ll lu, RelationalRange rn rl ru =>
      bool_decide (ln = rn) && negb (upper_is_before_lower lu rl)
      && negb (upper_is_before_lower ru ll)
  | GraphAllocation l, GraphAllocation r => bool_decide (l = r)
  | GraphLabel l, GraphLabel r => bool_decide (l = r)
  | GraphRelationshipType l, GraphRelationshipType r => bool_decide (l = r)
  | GraphNode l, GraphNode r => l =? r
  | GraphNodeDeleteGuard l, GraphNodeDeleteGuard r => l =? r
  | GraphRelationship l, GraphRelationship r => l =? r
  | GraphAdjacency ln lt ld, GraphAdjacency rn rt rd =>
      (ln =? rn) && bool_decide (ld = rd)
      && (bool_decide (lt = None) || bool_decide (rt = None) || bool_decide (lt = rt))
  | _, _ => false
  end.

Definition requests_conflict (l r : LockRequest) : bool :=
  modes_conflict (mode l) (mode r) && targets_overlap (target l) (target r).

(** A held request covers a requested one. *)
Definition request_covers (h r : LockRequest) : bool :=
  mode_covers (mode h) (mode r) && target_covers (target h) (target r).

(** [derive(PartialEq)] on requests, through the equality of keys. *)
Definition bound_eqb (a b : Bound RelationalKey) : bool :=
  match a, b with
  | Included x, Included y | Excluded x, Excluded y => key_eqb x y
  | Unbounded, Unbounded => true
  | _, _ => false
  end.
Definition target_eqb (a b : LockTarget) : bool :=
  match a, b with
  | Database, Database => true
  | RelationalTable x, RelationalTable y => bool_decide (x = y)
  | RelationalRange n l u, RelationalRange n' l' u' =>
      bool_decide (n = n') && bound_eqb l l' && bound_eqb u u'
  | GraphAllocation x, GraphAllocation y => bool_decide (x = y)
  | GraphLabel x, GraphLabel y | GraphRelationshipType x, GraphRelationshipType y =>
      bool_decide (x = y)
  | GraphNode x, GraphNode y | GraphRelationship x, GraphRelationship y
  | GraphNodeDeleteGuard x, GraphNodeDeleteGuard y => x =? y
  | GraphAdjacency n t d, GraphAdjacency n' t' d' =>
      (n =? n') && bool_decide (t = t') && bool_decide (d = d')
  | _, _ => false
  end.
Definition request_eqb (a b : LockRequest) : bool :=
  bool_decide (mode a = mode b) && target_eqb (target a) (target b).

(** ** The acquisition order *)

Definition mode_rank (m : LockMode) : Z :=
  match m with Shared => 0 | Exclusive => 1 | OptimisticCommit => 2 end.
Definition mode_cmp (a b : LockMode) : comparison := mode_rank a ?= mode_rank b.
Definition kind_index (k : GraphAllocationKind) : Z := match k with AllocNode => 0 | AllocRelationship => 1 end.
Definition direction_index (d : GraphAdjacencyDirection) : Z :=
  match d with Outgoing => 0 | Incoming => 1 end.

Definition namespace_cmp (a b : LockNamespace) : comparison :=
  match a, b with
  | RelationalIndex t c, RelationalIndex t' c' =>
      cmp_then (list_cmp Z.compare t t') (list_cmp (list_cmp Z.compare) c c')
  end.

Definition bound_cmp (a b : Bound RelationalKey) : comparison :=
  match a, b with
  | Unbounded, Unbounded => Eq
  | Unbounded, _ => Lt
  | _, Unbounded => Gt
  | Included x, Included y | Excluded x, Excluded y => key_cmp x y
  | Included x, Excluded y => cmp_then (key_cmp x y) Lt
  | Excluded x, Included y => cmp_then (key_cmp x y) Gt
  end.

Definition lock_target_rank (t : LockTarget) : Z :=
  match t with
  | Database => 0
  | RelationalTable _ => 1
  | RelationalRange _ _ _ => 2
  | GraphAllocation _ => 3
  | GraphLabel _ => 4
  | GraphRelationshipType _ => 5
  | GraphNode _ => 6
  | GraphNodeDeleteGuard _ => 7
  | GraphRelationship _ => 8
  | GraphAdjacency _ _ _ => 9
  end.

Definition lock_target_cmp (a b : LockTarget) : comparison :=
  match lock_target_rank a ?= lock_target_rank b with
  | Eq =>
      match a, b with
      | Database, Database => Eq
      | Database, _ => Lt
      | _, Database => Gt
      | RelationalTable x, RelationalTable y => list_cmp Z.compare x y
      | RelationalTable _, RelationalRange _ _ _ => Lt
      | RelationalRange _ _ _, RelationalTable _ => Gt
      | RelationalRange n l u, RelationalRange n' l' u' =>
          cmp_then (cmp_then (namespace_cmp n n') (bound_cmp l l')) (bound_cmp u u')
      | GraphAllocation x, GraphAllocation y => kind_index x ?= kind_index y
      | GraphLabel x, GraphLabel y => list_cmp Z.compare x y
      | GraphRelationshipType x, GraphRelationshipType y => list_cmp Z.compare x y
      | GraphNode x, GraphNode y | GraphRelationship x, GraphRelationship y
      | GraphNodeDeleteGuard x, GraphNodeDeleteGuard y => x ?= y
      | GraphAdjacency n t d, GraphAdjacency n' t' d' =>
          cmp_then (cmp_then (n ?= n') (direction_index d ?= direction_index d'))
            (option_cmp Z.compare t t')
      | _, _ => Eq
      end
  | c => c
  end.

Definition acquisition_cmp (a b : LockRequest) : comparison :=
  cmp_then (lock_target_cmp (target a) (target b)) (mode_cmp (mode b) (mode a)).

(** ** Keys *)

Lemma key_lt_spec a b : key_lt a b = true ↔ key_cmp a b = Lt.
Proof. unfold key_lt. by destruct (key_cmp a b). Qed.
Lemma key_le_spec a b : key_le a b = true ↔ key_cmp a b ≠ Gt.
Proof. unfold key_le. by destruct (key_cmp a b). Qed.
Lemma key_le_refl a : key_le a a = true.
Proof. apply key_le_spec. by rewrite (ord_refl key_cmp). Qed.
Lemma key_le_trans a b c : key_le a b = true → key_le b c = true → key_le a c = true.
Proof. rewrite !key_le_spec. apply (ord_trans key_cmp). Qed.
Lemma key_lt_le_trans a b c : key_lt a b = true → key_le b c = true → key_lt a c = true.
Proof. rewrite !key_lt_spec, key_le_spec. apply (ord_lt_le_trans key_cmp). Qed.
Lemma key_le_lt_trans a b c : key_le a b = true → key_lt b c = true → key_lt a c = true.
Proof. rewrite !key_lt_spec, key_le_spec. apply (ord_le_lt_trans key_cmp). Qed.
Lemma key_lt_le a b : key_lt a b = true → key_le a b = true.
Proof. rewrite key_lt_spec, key_le_spec. by intros ->. Qed.
Lemma key_lt_trans a b c : key_lt a b = true → key_lt b c = true → key_lt a c = true.
Proof. intros H1 H2%key_lt_le. by eapply key_lt_le_trans. Qed.
Lemma key_lt_irrefl a b : key_lt a b = true → key_le b a = true → False.
Proof. rewrite key_lt_spec, key_le_spec. intros H1%(ord_gt_lt key_cmp). done. Qed.

Create HintDb keys.
#[export] Hint Resolve key_le_refl key_lt_le key_le_trans key_lt_le_trans key_le_lt_trans
  key_lt_trans : keys.

(** ** Covering and conflict *)

Lemma lower_bound_covers_trans a b c :
  lower_bound_covers a b = true → lower_bound_covers b c = true → lower_bound_covers a c = true.
Proof. destruct a, b, c; cbn; try done; eauto 3 with keys. Qed.
Lemma upper_bound_covers_trans a b c :
  upper_bound_covers a b = true → upper_bound_covers b c = true → upper_bound_covers a c = true.
Proof. destruct a, b, c; cbn; try done; eauto 3 with keys. Qed.

(** What lies before a covering bound lies before the covered one. *)
Lemma upper_before_mono h r l :
  upper_bound_covers h r = true → upper_is_before_lower h l = true → upper_is_before_lower r l = true.
Proof. destruct h, r, l; cbn; try done; eauto 3 with keys. Qed.
Lemma lower_before_mono u h r :
  lower_bound_covers h r = true → upper_is_before_lower u h = true → upper_is_before_lower u r = true.
Proof. destruct u, h, r; cbn; try done; eauto 3 with keys. Qed.

Ltac lock_cases :=
  repeat match goal with
  | H : (_ && _) = true |- _ => apply andb_true_iff in H as [??]
  | H : (_ || _) = true |- _ => apply orb_true_iff in H
  | H : bool_decide _ = true |- _ => apply bool_decide_eq_true in H
  | H : negb _ = true |- _ => apply negb_true_iff in H
  | H : (_ =? _) = true |- _ => apply Z.eqb_eq in H
  | H : _ ∨ _ |- _ => destruct H
  | |- (_ && _) = true => apply andb_true_iff; split
  | |- bool_decide _ = true => apply bool_decide_eq_true
  | |- (?x =? ?x) = true => apply Z.eqb_refl
  | _ => progress subst
  end.

Lemma target_covers_refl t : target_covers t t = true.
Proof.
  destruct t; cbn; lock_cases; try done.
  - destruct lower; cbn; auto using key_le_refl.
  - destruct upper; cbn; auto using key_le_refl.
  - apply orb_true_iff. right. by apply bool_decide_eq_true.
Qed.

Lemma target_covers_trans a b c :
  target_covers a b = true → target_covers b c = true → target_covers a c = true.
Proof.
  destruct a, b, c; cbn; intros; lock_cases; try done;
    eauto using lower_bound_covers_trans, upper_bound_covers_trans;
    apply orb_true_iff; rewrite ?bool_decide_eq_true; auto; try (left; congruence).
Qed.

Lemma mode_covers_trans a b c : mode_covers a b = true → mode_covers b c = true → mode_covers a c = true.
Proof. by destruct a, b, c. Qed.

Lemma request_covers_refl r : request_covers r r = true.
Proof. unfold request_covers. rewrite target_covers_refl, andb_true_r. by destruct (mode r). Qed.
Lemma request_covers_trans a b c :
  request_covers a b = true → request_covers b c = true → request_covers a c = true.
Proof.
  unfold request_covers. rewrite !andb_true_iff.
  intros [] []. split; [by eapply mode_covers_trans|by eapply target_covers_trans].
Qed.

Lemma targets_overlap_sym a b : targets_overlap a b = targets_overlap b a.
Proof.
  destruct a, b; cbn; try done;
    try (apply bool_decide_ext; naive_solver); try (apply Z.eqb_sym).
  - rewrite (bool_decide_ext (namespace = namespace0) (namespace0 = namespace)) by naive_solver.
    rewrite <- !andb_assoc. f_equal. apply andb_comm.
  - rewrite Z.eqb_sym, (bool_decide_ext (direction = direction0) (direction0 = direction)) by naive_solver.
    f_equal. rewrite (orb_comm (bool_decide (rel_type = None))). f_equal. apply bool_decide_ext. naive_solver.
Qed.

Lemma requests_conflict_sym a b : requests_conflict a b = requests_conflict b a.
Proof.
  unfold requests_conflict. rewrite targets_overlap_sym. f_equal. by destruct (mode a), (mode b).
Qed.

(** A covering request conflicts with everything the covered one conflicts with. *)
Lemma targets_overlap_mono h r q :
  target_covers h r = true → targets_overlap r q = true → targets_overlap h q = true.
Proof.
  destruct h, r, q; cbn; intros; lock_cases; try done.
  all: repeat match goal with
       | |- negb ?x = true => destruct x eqn:?; [exfalso|done]
       end.
  all: try (match goal with
       | H1 : upper_bound_covers ?h ?r = true, H2 : upper_is_before_lower ?h ?l = true |- _ =>
           pose proof (upper_before_mono _ _ _ H1 H2); congruence
       | H1 : lower_bound_covers ?h ?r = true, H2 : upper_is_before_lower ?u ?h = true |- _ =>
           pose proof (lower_before_mono _ _ _ H1 H2); congruence
       end).
  all: rewrite !orb_true_iff, !bool_decide_eq_true; try tauto; try (left; left; congruence); auto.
Qed.

Lemma requests_conflict_mono h r q :
  request_covers h r = true → requests_conflict r q = true → requests_conflict h q = true.
Proof.
  unfold request_covers, requests_conflict. rewrite !andb_true_iff. intros [Hm Ht] [Hc Ho].
  split; [by destruct (mode h), (mode r), (mode q)|by eapply targets_overlap_mono].
Qed.

(** ** What a target locks *)

(** The units of data the targets range over: an index row is a namespace and a
    key, an adjacency list a node, a relationship type and a direction. *)
Inductive resource :=
  | ResRow (namespace : LockNamespace) (key : RelationalKey)
  | ResAllocation (kind : GraphAllocationKind)
  | ResLabel (label : bytes)
  | ResRelationshipType (rel_type : bytes)
  | ResNode (node_id : Z)
  | ResRelationship (relationship_id : Z)
  | ResNodeDeleteGuard (node_id : Z)
  | ResAdjacency (node_id rel_type : Z) (direction : GraphAdjacencyDirection).

Definition above (l : Bound RelationalKey) (k : RelationalKey) : Prop :=
  match l with
  | Included a => key_le a k = true
  | Excluded a => key_lt a k = true
  | Unbounded => True
  end.
Definition below (u : Bound RelationalKey) (k : RelationalKey) : Prop :=
  match u with
  | Included a => key_le k a = true
  | Excluded a => key_lt k a = true
  | Unbounded => True
  end.

Definition locks (t : LockTarget) (r : resource) : Prop :=
  match t, r with
  | Database, _ => True
  | RelationalTable table, ResRow n _ => relational_namespace_table n = table
  | RelationalRange n l u, ResRow n' k => n = n' ∧ above l k ∧ below u k
  | GraphAllocation x, ResAllocation y => x = y
  | GraphLabel x, ResLabel y | GraphRelationshipType x, ResRelationshipType y => x = y
  | GraphNode x, ResNode y | GraphRelationship x, ResRelationship y
  | GraphNodeDeleteGuard x, ResNodeDeleteGuard y => x = y
  | GraphAdjacency n t d, ResAdjacency n' t' d' => n = n' ∧ d = d' ∧ (t = None ∨ t = Some t')
  | _, _ => False
  end.

Lemma above_covers h r k : lower_bound_covers h r = true → above r k → above h k.
Proof. destruct h, r; cbn; try done; eauto 3 with keys. Qed.
Lemma below_covers h r k : upper_bound_covers h r = true → below r k → below h k.
Proof. destruct h, r; cbn; try done; eauto 3 with keys. Qed.

Lemma target_covers_sound h r x : target_covers h r = true → locks r x → locks h x.
Proof.
  destruct h, r, x; cbn; intros; lock_cases; try done; try naive_solver.
  destruct_and!. split_and!; [congruence|by eapply above_covers|by eapply below_covers].
Qed.

Lemma before_disjoint u l k : below u k → above l k → upper_is_before_lower u l = false.
Proof.
  intros Hu Hl. destruct (upper_is_before_lower u l) eqn:E; [exfalso|done].
  destruct u, l; cbn in *; try done; eapply key_lt_irrefl; eauto 3 with keys.
Qed.

Lemma targets_overlap_sound a b x : locks a x → locks b x → targets_overlap a b = true.
Proof.
  destruct a, b, x; cbn; intros; destruct_and?; subst; lock_cases; try done.
  all: try (apply negb_true_iff; by eapply before_disjoint).
  rewrite !orb_true_iff, !bool_decide_eq_true. destruct_or?; subst; auto.
Qed.

(** C34: lock compatibility is sound.  A covering target locks every row, node,
    relationship or adjacency list the covered one locks; two targets that share
    any of them overlap, so no conflict is missed; and a request that covers
    another conflicts with everything that one conflicts with. *)
Theorem lock_conflict_sound :
  (∀ h r x, target_covers h r = true → locks r x → locks h x) ∧
  (∀ a b x, locks a x → locks b x → targets_overlap a b = true) ∧
  (∀ h r q, request_covers h r = true → requests_conflict r q = true → requests_conflict h q = true) ∧
  (∀ a b, requests_conflict a b = requests_conflict b a).
Proof.
  split_and!; [apply target_covers_sound|apply targets_overlap_sound|apply requests_conflict_mono|
               apply requests_conflict_sym].
Qed.

(** ** The acquisition order is total *)

Definition bound_tree (b : Bound RelationalKey) : tree :=
  match b with
  | Unbounded => Node []
  | Included k => Node [key_tree k; Leaf 0]
  | Excluded k => Node [key_tree k; Leaf 1]
  end.
Definition namespace_tree (n : LockNamespace) : tree :=
  match n with RelationalIndex t c => Node [bytes_tree t; Node (bytes_tree <$> c)] end.
Definition target_tree (t : LockTarget) : tree :=
  Node (Leaf (lock_target_rank t) ::
    match t with
    | Database => []
    | RelationalTable x | GraphLabel x | GraphRelationshipType x => [bytes_tree x]
    | RelationalRange n l u => [namespace_tree n; bound_tree l; bound_tree u]
    | GraphAllocation k => [Leaf (kind_index k)]
    | GraphNode x | GraphRelationship x | GraphNodeDeleteGuard x => [Leaf x]
    | GraphAdjacency n t d => [Leaf n; Leaf (direction_index d); option_tree Leaf t]
    end).
(** Stronger modes come first within a target. *)
Definition request_tree (r : LockRequest) : tree :=
  Node [target_tree (target r); Leaf (- mode_rank (mode r))].

Lemma bound_cmp_tree a b : bound_cmp a b = tree_cmp (bound_tree a) (bound_tree b).
Proof.
  destruct a, b; try done; unfold bound_cmp, bound_tree; rewrite tree_cmp_node; cbn [list_cmp];
    rewrite <- key_cmp_tree; cbn; by destruct (key_cmp _ _).
Qed.
Lemma namespace_cmp_tree a b : namespace_cmp a b = tree_cmp (namespace_tree a) (namespace_tree b).
Proof.
  destruct a, b. unfold namespace_cmp, namespace_tree. rewrite tree_cmp_node. cbn [list_cmp].
  rewrite <- bytes_cmp_tree, cmp_then_eq_r. f_equal. apply list_cmp_tree, bytes_cmp_tree.
Qed.
Lemma lock_target_cmp_tree a b : lock_target_cmp a b = tree_cmp (target_tree a) (target_tree b).
Proof.
  unfold lock_target_cmp, target_tree. rewrite tree_cmp_node. cbn [list_cmp].
  change (tree_cmp (Leaf ?x) (Leaf ?y)) with (x ?= y).
  destruct a, b; try done; cbn [lock_target_rank Z.compare Pos.compare Pos.compare_cont cmp_then list_cmp];
    rewrite <- ?bytes_cmp_tree, <- ?namespace_cmp_tree, <- ?bound_cmp_tree, ?cmp_then_assoc, ?cmp_then_eq_r; try done.
  change (tree_cmp (Leaf ?x) (Leaf ?y)) with (x ?= y). do 2 f_equal.
  by apply option_cmp_tree.
Qed.

Lemma acquisition_cmp_tree a b : acquisition_cmp a b = tree_cmp (request_tree a) (request_tree b).
Proof.
  unfold acquisition_cmp, request_tree. rewrite tree_cmp_node. cbn [list_cmp].
  rewrite <- lock_target_cmp_tree, cmp_then_eq_r. f_equal. by destruct (mode a), (mode b).
Qed.

#[export] Instance Leaf_inj : Inj (=) (=) Leaf.
Proof. by intros ?? [= ->]. Qed.
Lemma bytes_tree_inj a b : bytes_tree a = bytes_tree b → a = b.
Proof. intros [= E]. revert E. apply (list_fmap_eq_inj Leaf). intros x y [= ->]. done. Qed.

Lemma key_tree_eqb a b : key_tree a = key_tree b → key_eqb a b = true.
Proof. intros E. apply key_eqb_cmp. rewrite key_cmp_tree, E. apply tree_cmp_refl. Qed.
Lemma bound_tree_eqb a b : bound_tree a = bound_tree b → bound_eqb a b = true.
Proof. destruct a, b; cbn; try done; intros [= E]; apply key_tree_eqb; unfold key_tree; by f_equal. Qed.
Lemma namespace_tree_inj a b : namespace_tree a = namespace_tree b → a = b.
Proof.
  destruct a, b. cbn. intros [= Et Ec]. f_equal.
  - apply bytes_tree_inj. unfold bytes_tree. by f_equal.
  - revert Ec. apply (list_fmap_eq_inj bytes_tree). exact bytes_tree_inj.
Qed.

Lemma request_tree_eqb a b : request_tree a = request_tree b → request_eqb a b = true.
Proof.
  destruct a as [ma ta], b as [mb tb]. unfold request_tree, request_eqb. cbn [mode target].
  intros [= Er Et Em]. apply andb_true_iff. split.
  - apply bool_decide_eq_true. by destruct ma, mb.
  - destruct ta, tb; try done; cbn in *; simplify_eq; lock_cases; try done;
      try (apply bytes_tree_inj; unfold bytes_tree; by f_equal);
      auto using bound_tree_eqb, namespace_tree_inj.
    all: try (by destruct kind, kind0); try (by destruct direction, direction0);
      try (by destruct rel_type, rel_type0; simplify_eq).
Qed.

(** The acquisition order is total.  Requests sort by target and, within a
    target, by descending mode; the order is antisymmetric and transitive, and
    two requests it ranks equal are equal as the code compares them, so every
    transaction acquires any two of its locks in the same order. *)
Theorem lock_acquisition_order :
  (∀ a b, acquisition_cmp b a = CompOpp (acquisition_cmp a b)) ∧
  (∀ a b c, acquisition_cmp a b ≠ Gt → acquisition_cmp b c ≠ Gt → acquisition_cmp a c ≠ Gt) ∧
  (∀ a b, acquisition_cmp a b = Eq → request_eqb a b = true).
Proof.
  assert (OrdLaws acquisition_cmp) as Hord
    by (apply (ord_pullback tree_cmp request_tree); [apply _|apply acquisition_cmp_tree]).
  split_and!; [apply (ord_opp acquisition_cmp)|apply (ord_trans acquisition_cmp)|].
  intros a b E. apply request_tree_eqb, tree_cmp_eq. by rewrite <- acquisition_cmp_tree.
Qed.
