(* ===== verification/LockTable.v ===== *)
(** The granted lock table: [LockTable] of
    crates/storage/src/transaction_locks.rs. *)
From S2P Require Import Prelude Ordering Decimal RelationalValue LockModel.

(** ** Ordered sets of transaction ids ([BTreeSet<u64>]): ascending lists *)

Fixpoint bset_insert (x : Z) (l : list Z) : list Z :=
  match l with
  | [] => [x]
  | y :: t => if x <? y then x :: l else if x =? y then l else y :: bset_insert x t
  end.
(** [collect::<BTreeSet<_>>()] and [BTreeSet::extend]. *)
Definition bset_of_list (l : list Z) : list Z := foldr bset_insert [] l.
Definition bset_extend (s l : list Z) : list Z := foldr bset_insert s l.

Lemma elem_of_bset_insert x y l : y ∈ bset_insert x l ↔ y = x ∨ y ∈ l.
Proof.
  induction l as [|z t IH]; cbn [bset_insert]; [by rewrite list_elem_of_singleton, elem_of_nil; tauto|].
  destruct (Z.ltb_spec x z); [by rewrite !elem_of_cons|].
  destruct (Z.eqb_spec x z) as [-> | ]; rewrite !elem_of_cons; [tauto|]. rewrite IH. tauto.
Qed.
Lemma elem_of_bset_extend y s l : y ∈ bset_extend s l ↔ y ∈ l ∨ y ∈ s.
Proof.
  induction l as [|x t IH]; cbn; [rewrite elem_of_nil; tauto|].
  change (foldr bset_insert s t) with (bset_extend s t).
  rewrite elem_of_bset_insert, IH, elem_of_cons. tauto.
Qed.
Lemma elem_of_bset_of_list y l : y ∈ bset_of_list l ↔ y ∈ l.
Proof.
  change (bset_of_list l) with (bset_extend [] l). rewrite elem_of_bset_extend, elem_of_nil. tauto.
Qed.
Lemma bset_extend_nil s l : bset_extend s l = [] ↔ s = [] ∧ l = [].
Proof.
  split; [|by intros [-> ->]]. intros E. split.
  - destruct s as [|x s]; [done|]. assert (x ∈ bset_extend (x :: s) l) by (apply elem_of_bset_extend; set_solver).
    rewrite E in *. set_solver.
  - destruct l as [|x l]; [done|]. assert (x ∈ bset_extend s (x :: l)) by (apply elem_of_bset_extend; set_solver).
    rewrite E in *. set_solver.
Qed.

(** ** The table *)

Definition DEFAULT_LOCK_ESCALATION_ENTRIES_PER_TABLE : Z := 64.
Definition DEFAULT_MAX_LOCK_TABLE_ENTRIES : Z := 65536.
Definition DEFAULT_MAX_LOCK_TABLE_BYTES : Z := 16 * 1024 * 1024.

Record HeldLock := { transaction_id : Z; request : LockRequest }.

Record LockTableLimits := {
  max_entries : Z;
  max_bytes : Z;
  escalation_entries_per_table : Z;
}.
Definition LockTableLimits_default : LockTableLimits :=
  {| max_entries := DEFAULT_MAX_LOCK_TABLE_ENTRIES;
     max_bytes := DEFAULT_MAX_LOCK_TABLE_BYTES;
     escalation_entries_per_table := DEFAULT_LOCK_ESCALATION_ENTRIES_PER_TABLE |}.

Record LockTable := {
  held : list HeldLock;
  estimated_bytes : Z;
  limits : LockTableLimits;
}.

(** The sizes of Rust types, which the compiler chooses. *)
Class Layout := {
  size_of_HeldLock : Z;
  size_of_String : Z;
  size_of_RelationalKey : Z;
  size_of_RelationalValue : Z;
  size_of_RelationalOverflowRef : Z;
}.

(** The sums below ([Iterator::sum]) are of sizes of live allocations, which fit
    the address space. *)

Section Table.
Context `{Lay : Layout}.

Definition usize_add (a b : Z) : Z := saturating_add usize_max a b.

Definition bound_estimated_bytes (b : Bound RelationalKey) : Z :=
  match b with
  | Included key | Excluded key =>
      usize_add size_of_RelationalKey
        (zsum ((λ v, usize_add size_of_RelationalValue
                       (estimated_payload_bytes size_of_RelationalOverflowRef v)) <$> key))
  | Unbounded => 0
  end.

Definition lock_namespace_estimated_bytes (n : LockNamespace) : Z :=
  match n with
  | RelationalIndex table columns =>
      usize_add (zlen table) (zsum ((λ column, usize_add size_of_String (zlen column)) <$> columns))
  end.

Definition lock_request_estimated_bytes (r : LockRequest) : Z :=
  usize_add size_of_HeldLock
    match target r with
    | Database => 0
    | RelationalTable table => zlen table
    | RelationalRange namespace lower upper =>
        usize_add (usize_add (lock_namespace_estimated_bytes namespace) (bound_estimated_bytes lower))
          (bound_estimated_bytes upper)
    | GraphAllocation _ | GraphNode _ | GraphRelationship _ | GraphNodeDeleteGuard _
    | GraphAdjacency _ _ _ => 0
    | GraphLabel label => zlen label
    | GraphRelationshipType rel_type => zlen rel_type
    end.
Definition held_lock_estimated_bytes (h : HeldLock) : Z := lock_request_estimated_bytes (request h).

Definition owned_by (txn : Z) (h : HeldLock) : bool := transaction_id h =? txn.

Definition covers_all (t : LockTable) (txn : Z) (requests : list LockRequest) : bool :=
  forallb (λ r, existsb (λ h, owned_by txn h && request_covers (request h) r) (held t)) requests.

Definition blockers (t : LockTable) (txn : Z) (r : LockRequest) : list Z :=
  bset_of_list (transaction_id <$>
    filter (λ h, negb (owned_by txn h) && requests_conflict (request h) r) (held t)).

Definition covering_mode (requested : LockMode) (hs : list HeldLock) : LockMode :=
  if existsb (λ h, negb (bool_decide (mode (request h) = requested))) hs then Exclusive
  else requested.

(** The narrow locks an escalation of [r] by [txn] would replace. *)
Definition narrow_range (txn : Z) (table : bytes) (h : HeldLock) : bool :=
  owned_by txn h
  && match target (request h) with
     | RelationalRange n _ _ => bool_decide (relational_namespace_table n = table)
     | _ => false
     end.
Definition narrow_adjacency (txn node_id : Z) (direction : GraphAdjacencyDirection) (h : HeldLock) : bool :=
  owned_by txn h
  && match target (request h) with
     | GraphAdjacency n (Some _) d => (n =? node_id) && bool_decide (d = direction)
     | _ => false
     end.

Definition normalized_request (t : LockTable) (txn : Z) (r : LockRequest) : LockRequest :=
  match target r with
  | RelationalRange namespace _ _ =>
      let table := relational_namespace_table namespace in
      let narrow_locks := filter (narrow_range txn table) (held t) in
      if usize_add (zlen narrow_locks) 1 <=? escalation_entries_per_table (limits t) then r
      else LockRequest_relational_table (covering_mode (mode r) narrow_locks) table
  | GraphAdjacency node_id (Some _) direction =>
      let narrow_locks := filter (narrow_adjacency txn node_id direction) (held t) in
      if usize_add (zlen narrow_locks) 1 <=? escalation_entries_per_table (limits t) then r
      else LockRequest_graph_adjacency (covering_mode (mode r) narrow_locks) node_id None direction
  | _ => r
  end.

(** The locks [grant] replaces: those of the same transaction the request covers. *)
Definition replaced (txn : Z) (r : LockRequest) (h : HeldLock) : bool :=
  owned_by txn h && request_covers r (request h).

(** [grant]: the next table, or the budget error that leaves it as it was. *)
Definition grant (t : LockTable) (txn : Z) (r : LockRequest) : Result LockTable :=
  if existsb (λ h, owned_by txn h && request_covers (request h) r) (held t) then Ok t
  else
    let removed := filter (replaced txn r) (held t) in
    let removed_bytes := zsum (held_lock_estimated_bytes <$> removed) in
    let added_bytes := lock_request_estimated_bytes r in
    let next_entries := usize_add (saturating_sub (zlen (held t)) (zlen removed)) 1 in
    let next_bytes := usize_add (saturating_sub (estimated_bytes t) removed_bytes) added_bytes in
    if (max_entries (limits t) <? next_entries) || (max_bytes (limits t) <? next_bytes) then
      Err (Execution "lock table resource budget exceeded"
             [next_entries; max_entries (limits t); next_bytes; max_bytes (limits t)])
    else
      Ok {| held := filter (λ h, negb (replaced txn r h)) (held t)
                    ++ [{| transaction_id := txn; request := r |}];
            estimated_bytes := next_bytes;
            limits := limits t |}.

Definition release_transaction (t : LockTable) (txn : Z) : LockTable :=
  let hs := filter (λ h, negb (owned_by txn h)) (held t) in
  {| held := hs; estimated_bytes := zsum (held_lock_estimated_bytes <$> hs); limits := limits t |}.

Definition savepoint (t : LockTable) (txn : Z) : list LockRequest :=
  request <$> filter (owned_by txn) (held t).

Definition restore_transaction (t : LockTable) (txn : Z) (requests : list LockRequest) : LockTable :=
  let t := release_transaction t txn in
  let hs := held t ++ ((λ r, {| transaction_id := txn; request := r |}) <$> requests) in
  {| held := hs; estimated_bytes := zsum (held_lock_estimated_bytes <$> hs); limits := limits t |}.
End Table.

(** ** Membership *)

Section Lemmas.
Context `{Lay : Layout}.
Implicit Types (t : LockTable) (h : HeldLock) (r q : LockRequest).

Definition mk_held (txn : Z) (r : LockRequest) : HeldLock := {| transaction_id := txn; request := r |}.

Lemma elem_of_blockers t txn r b :
  b ∈ blockers t txn r ↔
  ∃ h, h ∈ held t ∧ transaction_id h = b ∧ b ≠ txn ∧ requests_conflict (request h) r = true.
Proof.
  unfold blockers. rewrite elem_of_bset_of_list, list_elem_of_fmap. unfold owned_by.
  setoid_rewrite list_elem_of_filter. split.
  - intros (h & -> & Hb & Hh). apply Is_true_true, andb_true_iff in Hb as [Hn Hc].
    apply negb_true_iff, Z.eqb_neq in Hn. eauto.
  - intros (h & Hh & <- & Hn & Hc). exists h. split; [done|]. split; [|done].
    apply Is_true_true, andb_true_iff. split; [by apply negb_true_iff, Z.eqb_neq|done].
Qed.

(** Transaction [txn] holds a lock that covers [r]. *)
Definition covered t (txn : Z) r : Prop :=
  ∃ h, h ∈ held t ∧ transaction_id h = txn ∧ request_covers (request h) r = true.

Lemma existsb_covered t txn r :
  existsb (λ h, owned_by txn h && request_covers (request h) r) (held t) = true ↔ covered t txn r.
Proof.
  rewrite existsb_exists. unfold covered, owned_by. split; intros (h & Hh & H).
  - apply andb_true_iff in H as [?%Z.eqb_eq ?]. apply list_elem_of_In in Hh. eauto.
  - exists h. split; [by apply list_elem_of_In|]. apply andb_true_iff. destruct H as [-> ?].
    split; [apply Z.eqb_refl|done].
Qed.

Lemma covers_all_spec t txn rs : covers_all t txn rs = true ↔ Forall (covered t txn) rs.
Proof.
  unfold covers_all. rewrite forallb_forall, Forall_forall. setoid_rewrite existsb_covered.
  by setoid_rewrite list_elem_of_In.
Qed.

Lemma replaced_spec txn r h :
  replaced txn r h = true ↔ transaction_id h = txn ∧ request_covers r (request h) = true.
Proof. unfold replaced, owned_by. by rewrite andb_true_iff, Z.eqb_eq. Qed.

(** ** Grant *)

Lemma elem_of_filter_b {A} (f : A → bool) x (l : list A) : x ∈ filter f l ↔ f x = true ∧ x ∈ l.
Proof. rewrite list_elem_of_filter. by rewrite Is_true_true. Qed.

(** What a grant changes: the locks of other transactions are kept, and those
    of this one are kept or replaced by the new lock, which covers them. *)
Record granted t (txn : Z) r t' : Prop := {
  gr_limits : limits t' = limits t;
  gr_held h : h ∈ held t' → h ∈ held t ∨ h = mk_held txn r;
  gr_kept h : h ∈ held t → h ∈ held t' ∨
              (transaction_id h = txn ∧ mk_held txn r ∈ held t' ∧ request_covers r (request h) = true);
  gr_covered : covered t' txn r;
}.

Lemma grant_granted t txn r t' : grant t txn r = Ok t' → granted t txn r t'.
Proof.
  unfold grant. destruct (existsb _ _) eqn:E.
  { intros [= <-]. apply existsb_covered in E. constructor; auto. }
  destruct (_ || _); [done|]. intros [= <-]. constructor; cbn [held limits].
  - done.
  - intros h [[_ Hh]%elem_of_filter_b|Hh%list_elem_of_singleton]%elem_of_app; auto.
  - intros h Hh. destruct (replaced txn r h) eqn:Er.
    + right. apply replaced_spec in Er as [-> ?]. split_and!; [done| |done].
      apply elem_of_app. right. by apply list_elem_of_singleton.
    + left. apply elem_of_app. left. apply elem_of_filter_b. by rewrite Er.
  - exists (mk_held txn r). split_and!; [|done|apply request_covers_refl].
    apply elem_of_app. right. by apply list_elem_of_singleton.
Qed.

Lemma granted_covered_mono t txn r t' u q :
  granted t txn r t' → covered t u q → covered t' u q.
Proof.
  intros [_ _ Hkept _] (h & Hh & <- & Hc). destruct (Hkept h Hh) as [?|(-> & Hn & Hr)].
  - by exists h.
  - exists (mk_held txn r). split_and!; [done..|]. by eapply request_covers_trans.
Qed.

Lemma granted_other t txn r t' h :
  granted t txn r t' → transaction_id h ≠ txn → h ∈ held t' ↔ h ∈ held t.
Proof.
  intros [_ Hheld Hkept _] Hne. split.
  - intros [?| -> ]%Hheld; [done|]. by destruct Hne.
  - intros [?|[? _]]%Hkept; done.
Qed.

(** Locks of different transactions are compatible. *)
Definition compatible t : Prop :=
  ∀ h1 h2, h1 ∈ held t → h2 ∈ held t → transaction_id h1 ≠ transaction_id h2 →
    requests_conflict (request h1) (request h2) = false.

Lemma granted_compatible t txn r t' :
  granted t txn r t' → blockers t txn r = [] → compatible t → compatible t'.
Proof.
  intros Hg Hb Hc. pose proof (gr_held _ _ _ _ Hg) as Hheld.
  assert (∀ h, h ∈ held t → transaction_id h ≠ txn → requests_conflict (request h) r = false) as Hfree.
  { intros h Hh Hne. destruct (requests_conflict _ _) eqn:E; [exfalso|done].
    assert (transaction_id h ∈ blockers t txn r) as Hin by (apply elem_of_blockers; eauto).
    rewrite Hb in Hin. by apply elem_of_nil in Hin. }
  intros h1 h2 [H1| ->]%Hheld [H2| ->]%Hheld Hne; cbn in *; [by apply Hc|by apply Hfree| |done].
  rewrite requests_conflict_sym. apply Hfree; auto.
Qed.

(** ** Release and restore *)

Lemma held_release t txn h :
  h ∈ held (release_transaction t txn) ↔ h ∈ held t ∧ transaction_id h ≠ txn.
Proof.
  unfold release_transaction, owned_by; cbn. rewrite elem_of_filter_b, negb_true_iff, Z.eqb_neq. tauto.
Qed.

Lemma held_restore t txn rs h :
  h ∈ held (restore_transaction t txn rs) ↔
  (h ∈ held t ∧ transaction_id h ≠ txn) ∨ (transaction_id h = txn ∧ request h ∈ rs).
Proof.
  unfold restore_transaction. cbn [held]. rewrite elem_of_app, held_release, list_elem_of_fmap.
  destruct h as [i q]; cbn. split; (intros [?|H]; [by left|right]).
  - destruct H as (r & [= -> ->] & Hr). done.
  - destruct H as [-> Hr]. by exists q.
Qed.

Lemma elem_of_savepoint t txn r : r ∈ savepoint t txn ↔ mk_held txn r ∈ held t.
Proof.
  unfold savepoint. rewrite list_elem_of_fmap. setoid_rewrite elem_of_filter_b. unfold owned_by. split.
  - intros ([i q] & -> & E%Z.eqb_eq & Hh). cbn in *. by subst.
  - intros Hh. exists (mk_held txn r). split_and!; [done|apply Z.eqb_refl|done].
Qed.

(** Every request of [rs'] is covered by one of [rs]. *)
Definition covers_requests (rs rs' : list LockRequest) : Prop :=
  ∀ r', r' ∈ rs' → ∃ r, r ∈ rs ∧ request_covers r r' = true.

Lemma covers_requests_refl rs : covers_requests rs rs.
Proof. intros r Hr. exists r. auto using request_covers_refl. Qed.
Lemma covers_requests_trans a b c :
  covers_requests a b → covers_requests b c → covers_requests a c.
Proof.
  intros H1 H2 r (r' & Hr' & Hc)%H2. apply H1 in Hr' as (r'' & Hr'' & Hc').
  exists r''. split; [done|]. by eapply request_covers_trans.
Qed.

Lemma restore_compatible t txn rs :
  compatible t → covers_requests (savepoint t txn) rs → compatible (restore_transaction t txn rs).
Proof.
  intros Hc Hcov.
  assert (∀ h r, h ∈ held t → transaction_id h ≠ txn → r ∈ rs → requests_conflict (request h) r = false) as Hnew.
  { intros h r Hh Hne (r' & Hr' & Hc')%Hcov. apply elem_of_savepoint in Hr'.
    destruct (requests_conflict (request h) r) eqn:E; [exfalso|done].
    rewrite requests_conflict_sym in E. apply (requests_conflict_mono r') in E; [|done].
    pose proof (Hc (mk_held txn r') h Hr' Hh) as Hno. cbn in Hno. rewrite Hno in E by auto. done. }
  intros h1 h2 H1%held_restore H2%held_restore Hne.
  destruct H1 as [[H1 Hn1]|[H1 Hr1]], H2 as [[H2 Hn2]|[H2 Hr2]].
  - by apply Hc.
  - by apply Hnew.
  - rewrite requests_conflict_sym. by apply Hnew.
  - by rewrite H1, H2 in Hne.
Qed.
End Lemmas.

(** ** Accounting *)

(** Sizes of types are not negative. *)
Class LayoutLaws (L : Layout) : Prop := {
  size_of_HeldLock_pos : 0 ≤ size_of_HeldLock;
  size_of_String_pos : 0 ≤ size_of_String;
  size_of_RelationalKey_pos : 0 ≤ size_of_RelationalKey;
  size_of_RelationalValue_pos : 0 ≤ size_of_RelationalValue;
  size_of_RelationalOverflowRef_pos : 0 ≤ size_of_RelationalOverflowRef;
}.

Lemma filter_b_cons {A} (f : A → bool) x (l : list A) :
  filter f (x :: l) = if f x then x :: filter f l else filter f l.
Proof. rewrite filter_cons. destruct (decide (Is_true (f x))) as [H|H], (f x); done. Qed.
Lemma zsum_filter {A} (f : A → bool) (g : A → Z) (l : list A) :
  zsum (g <$> l) = zsum (g <$> filter f l) + zsum (g <$> filter (λ x, negb (f x)) l).
Proof.
  induction l as [|x l IH]; [done|]. rewrite !filter_b_cons.
  destruct (f x); cbn in *; rewrite IH; lia.
Qed.
Lemma zlen_filter {A} (f : A → bool) (l : list A) :
  zlen l = zlen (filter f l) + zlen (filter (λ x, negb (f x)) l).
Proof.
  induction l as [|x l IH]; [done|]. rewrite !filter_b_cons.
  destruct (f x); cbn [negb]; rewrite !zlen_cons; lia.
Qed.

Section Accounting.
Context `{LL : LayoutLaws}.
Implicit Types (t : LockTable) (h : HeldLock) (r q : LockRequest).

Lemma usize_add_nonneg a b : 0 ≤ a → 0 ≤ b → 0 ≤ usize_add a b.
Proof. unfold usize_add, saturating_add, usize_max, u64_max. lia. Qed.

Lemma bound_bytes_nonneg b : 0 ≤ bound_estimated_bytes b.
Proof.
  assert (∀ key : RelationalKey, 0 ≤ usize_add size_of_RelationalKey
    (zsum ((λ v, usize_add size_of_RelationalValue
                   (estimated_payload_bytes size_of_RelationalOverflowRef v)) <$> key))) as Hk.
  { intros key. apply usize_add_nonneg; [apply size_of_RelationalKey_pos|]. apply zsum_nonneg.
    apply Forall_fmap, Forall_true. intros v. apply usize_add_nonneg; [apply size_of_RelationalValue_pos|].
    destruct v; cbn; try apply zlen_nonneg; try (unfold ENCODED_LEN; lia).
    apply size_of_RelationalOverflowRef_pos. }
  destruct b; cbn; auto. lia.
Qed.

Lemma request_bytes_nonneg r : 0 ≤ lock_request_estimated_bytes r.
Proof.
  apply usize_add_nonneg; [apply size_of_HeldLock_pos|].
  destruct (target r); try apply zlen_nonneg; try lia.
  repeat apply usize_add_nonneg; auto using bound_bytes_nonneg. destruct namespace. cbn.
  apply usize_add_nonneg; [apply zlen_nonneg|]. apply zsum_nonneg, Forall_fmap, Forall_true.
  intros c. apply usize_add_nonneg; [apply size_of_String_pos|apply zlen_nonneg].
Qed.

Definition locks_bytes (hs : list HeldLock) : Z := zsum (held_lock_estimated_bytes <$> hs).
Lemma locks_bytes_nonneg hs : 0 ≤ locks_bytes hs.
Proof. apply zsum_nonneg, Forall_fmap, Forall_true. intros h. apply request_bytes_nonneg. Qed.

(** The running estimate is the sum over the held locks. *)
Definition accounted t : Prop := estimated_bytes t = locks_bytes (held t).
Definition within_budget t : Prop :=
  zlen (held t) ≤ max_entries (limits t) ∧ estimated_bytes t ≤ max_bytes (limits t).
(** Limits below the address space, as the defaults are. *)
Definition limits_ok (l : LockTableLimits) : Prop :=
  max_entries l < usize_max ∧ max_bytes l < usize_max.

(** The locks after granting [r]. *)
Definition granted_locks t (txn : Z) r : list HeldLock :=
  filter (λ h, negb (replaced txn r h)) (held t) ++ [mk_held txn r].

Lemma grant_cases t txn r :
  accounted t → limits_ok (limits t) →
  let hs := granted_locks t txn r in
  grant t txn r =
    if existsb (λ h, owned_by txn h && request_covers (request h) r) (held t) then Ok t
    else if (max_entries (limits t) <? zlen hs) || (max_bytes (limits t) <? locks_bytes hs)
    then Err (Execution "lock table resource budget exceeded"
                [Z.min usize_max (zlen hs); max_entries (limits t);
                 Z.min usize_max (locks_bytes hs); max_bytes (limits t)])
    else Ok {| held := hs; estimated_bytes := locks_bytes hs; limits := limits t |}.
Proof.
  intros Ha [Hl1 Hl2] hs. unfold grant. destruct (existsb _ _); [done|].
  set (removed := filter (replaced txn r) (held t)).
  assert (saturating_sub (zlen (held t)) (zlen removed) + 1 = zlen hs) as En.
  { unfold hs, granted_locks, saturating_sub. rewrite zlen_app, (zlen_filter (replaced txn r) (held t)).
    fold removed. pose proof (zlen_nonneg (filter (λ h, negb (replaced txn r h)) (held t))).
    change (zlen [mk_held txn r]) with 1. lia. }
  assert (saturating_sub (estimated_bytes t) (zsum (held_lock_estimated_bytes <$> removed))
          + lock_request_estimated_bytes r = locks_bytes hs) as Eb.
  { unfold hs, granted_locks, saturating_sub, locks_bytes. rewrite fmap_app, zsum_app, Ha.
    unfold locks_bytes. rewrite (zsum_filter (replaced txn r) _ (held t)). fold removed.
    pose proof (locks_bytes_nonneg (filter (λ h, negb (replaced txn r h)) (held t))) as Hn.
    unfold locks_bytes in Hn.
    assert (zsum (held_lock_estimated_bytes <$> [mk_held txn r]) = lock_request_estimated_bytes r) as ->
      by (unfold zsum; cbn; apply Z.add_0_r). lia. }
  unfold usize_add, saturating_add. rewrite En, Eb.
  assert ((max_entries (limits t) <? Z.min usize_max (zlen hs)) = (max_entries (limits t) <? zlen hs)) as ->
    by (repeat case_bool; lia).
  assert ((max_bytes (limits t) <? Z.min usize_max (locks_bytes hs)) = (max_bytes (limits t) <? locks_bytes hs)) as ->
    by (repeat case_bool; lia).
  destruct (_ || _) eqn:E; [done|]. apply orb_false_iff in E as [?%Z.ltb_ge ?%Z.ltb_ge].
  rewrite (Z.min_r _ (locks_bytes hs)) by lia. done.
Qed.

(** granting respects the budget.  A successful grant covers the request,
    keeps every coverage any transaction had, leaves other transactions' locks
    alone, keeps the byte estimate equal to the sum over the held locks and
    stays within the entry and byte budgets; it fails exactly when the locks
    it would leave exceed a budget, and then changes nothing. *)
Theorem lock_grant_budget t txn r :
  accounted t → within_budget t → limits_ok (limits t) →
  match grant t txn r with
  | Ok t' =>
      covered t' txn r ∧ (∀ u q, covered t u q → covered t' u q) ∧
      (∀ h, transaction_id h ≠ txn → h ∈ held t' ↔ h ∈ held t) ∧
      accounted t' ∧ within_budget t' ∧ limits t' = limits t
  | Err _ =>
      ¬ covered t txn r ∧
      (max_entries (limits t) < zlen (granted_locks t txn r) ∨
       max_bytes (limits t) < locks_bytes (granted_locks t txn r))
  end.
Proof.
  intros Ha Hb Hl. destruct (grant t txn r) as [t'|e] eqn:E.
  - pose proof (grant_granted _ _ _ _ E) as Hg. split_and!.
    + apply Hg.
    + intros u q. by eapply granted_covered_mono.
    + intros h. by eapply granted_other.
    + rewrite grant_cases in E by done. destruct (existsb _ _); [by injection E as <-|].
      destruct (_ || _); [done|]. by injection E as <-.
    + rewrite grant_cases in E by done. destruct (existsb _ _); [by injection E as <-|].
      destruct (_ || _) eqn:Eo; [done|]. injection E as <-.
      by apply orb_false_iff in Eo as [?%Z.ltb_ge ?%Z.ltb_ge].
    + apply Hg.
  - rewrite grant_cases in E by done. destruct (existsb _ _) eqn:Ec; [done|].
    split; [intros Hc%existsb_covered; congruence|].
    destruct (_ || _) eqn:Eo; [|done]. by apply orb_true_iff in Eo as [?%Z.ltb_lt|?%Z.ltb_lt]; [left|right].
Qed.
End Accounting.

(** ** Escalation *)

Section Escalation.
Context `{LL : LayoutLaws}.
Implicit Types (t : LockTable) (h : HeldLock) (r q : LockRequest).

Lemma covering_mode_covers m hs :
  mode_covers (covering_mode m hs) m = true ∧
  ∀ h, h ∈ hs → mode_covers (covering_mode m hs) (mode (request h)) = true.
Proof.
  unfold covering_mode. destruct (existsb _ _) eqn:E; [done|]. split; [by destruct m|].
  intros h Hh. assert (mode (request h) = m) as ->; [|by destruct m].
  apply dec_stable. intros Hne. apply not_true_iff_false in E. apply E, existsb_exists.
  exists h. split; [by apply list_elem_of_In|]. by rewrite bool_decide_false.
Qed.

Lemma normalized_covers t txn r : request_covers (normalized_request t txn r) r = true.
Proof.
  unfold normalized_request.
  destruct (target r) as [| |n l u| | | | | | |node [ty|] d] eqn:Et; try apply request_covers_refl.
  - destruct (_ <=? _); [apply request_covers_refl|]. unfold request_covers. cbn [mode target]. rewrite Et. apply andb_true_iff.
    split; [apply covering_mode_covers|]. by apply bool_decide_eq_true.
  - destruct (_ <=? _); [apply request_covers_refl|]. unfold request_covers. cbn [mode target]. rewrite Et. cbn.
    rewrite Z.eqb_refl, !bool_decide_true by done. rewrite !andb_true_r. apply covering_mode_covers.
Qed.

(** Transaction [txn] holds at most the limit of range locks on one table, and
    of typed adjacency locks on one side of a node. *)
Definition narrow_bounded t : Prop :=
  (∀ txn table, zlen (filter (narrow_range txn table) (held t)) ≤ escalation_entries_per_table (limits t)) ∧
  (∀ txn node d, zlen (filter (narrow_adjacency txn node d) (held t)) ≤ escalation_entries_per_table (limits t)).

(** Counting after a grant. *)
Lemma count_granted (f : HeldLock → bool) t txn r :
  zlen (filter f (granted_locks t txn r)) ≤
    zlen (filter f (held t)) + (if f (mk_held txn r) then 1 else 0).
Proof.
  assert (zlen (filter f [mk_held txn r]) = if f (mk_held txn r) then 1 else 0) as Hone
    by (rewrite filter_b_cons; by destruct (f (mk_held txn r))).
  unfold granted_locks. rewrite filter_app, zlen_app, Hone.
  assert (zlen (filter f (filter (λ h, negb (replaced txn r h)) (held t))) ≤ zlen (filter f (held t))).
  { generalize (held t). intros hs. induction hs as [|h hs IH]; [done|].
    rewrite !filter_b_cons. destruct (replaced txn r h); cbn [negb].
    - destruct (f h); rewrite ?zlen_cons; lia.
    - rewrite filter_b_cons. destruct (f h); rewrite ?zlen_cons; lia. }
  lia.
Qed.

(** A grant that replaces every lock counted by [f] leaves none. *)
Lemma count_replaced (f : HeldLock → bool) t txn r :
  (∀ h, f h = true → h ∈ held t → replaced txn r h = true) → f (mk_held txn r) = false →
  zlen (filter f (granted_locks t txn r)) = 0.
Proof.
  intros Hall Hnew. unfold granted_locks. rewrite filter_app, (filter_b_cons f (mk_held txn r)), Hnew.
  rewrite app_nil_r. assert (filter f (filter (λ h, negb (replaced txn r h)) (held t)) = []) as ->; [|done].
  apply filter_none. intros h [Hr Hh]%elem_of_filter_b Hf%Is_true_true.
  rewrite (Hall h Hf Hh) in Hr. done.
Qed.

(** An escalated table lock replaces every range lock of the table. *)
Lemma escalated_replaces t txn r n l u h :
  target r = RelationalRange n l u →
  target (normalized_request t txn r) = RelationalTable (relational_namespace_table n) →
  h ∈ held t → narrow_range txn (relational_namespace_table n) h = true →
  replaced txn (normalized_request t txn r) h = true.
Proof.
  intros Et Eq Hh Hn. unfold normalized_request in *. rewrite Et in *.
  destruct (_ <=? _); [by rewrite Et in Eq|]. clear Eq.
  unfold replaced, request_covers, LockRequest_relational_table. cbn [mode target].
  assert (h ∈ filter (narrow_range txn (relational_namespace_table n)) (held t)) as Hin
    by (by apply elem_of_filter_b).
  apply covering_mode_covers with (m := mode r) in Hin. rewrite Hin.
  unfold narrow_range in Hn. apply andb_true_iff in Hn as [-> Hn]. cbn.
  destruct (target (request h)); done.
Qed.

Lemma usize_add_one {A} (l : list A) n :
  n < usize_max → (usize_add (zlen l) 1 <=? n) = (zlen l + 1 <=? n).
Proof. intros. unfold usize_add, saturating_add. repeat case_bool; lia. Qed.

(** Escalation.  The request a transaction ends up asking for covers the
    one it started from; and granting escalated requests keeps, for every
    transaction, at most the configured number of range locks per table and of
    typed adjacency locks per node and direction, because an escalated lock
    replaces all the narrow locks it stands for. *)
Theorem lock_escalation_bounds t txn r t' :
  accounted t → limits_ok (limits t) → 0 ≤ escalation_entries_per_table (limits t) < usize_max →
  narrow_bounded t → grant t txn (normalized_request t txn r) = Ok t' →
  request_covers (normalized_request t txn r) r = true ∧ narrow_bounded t' ∧
  (∀ n l u, target r = RelationalRange n l u →
     target (normalized_request t txn r) = RelationalTable (relational_namespace_table n) →
     ¬ covered t txn (normalized_request t txn r) →
     zlen (filter (narrow_range txn (relational_namespace_table n)) (held t')) = 0).
Proof.
  intros Ha Hl He [Hr Hadj] Hg. split; [apply normalized_covers|].
  split; swap 1 2.
  { intros n l u Et Eq Hnc. rewrite grant_cases in Hg by done.
    destruct (existsb _ _) eqn:Ec; [by apply existsb_covered in Ec|].
    destruct (_ || _); [done|]. injection Hg as <-. cbn [held].
    apply count_replaced; [intros h Hn Hh; by eapply escalated_replaces|].
    unfold narrow_range. cbn. rewrite Eq. apply andb_false_r. }
  rewrite grant_cases in Hg by done. destruct (existsb _ _); [by injection Hg as <-|].
  destruct (_ || _); [done|]. injection Hg as <-. unfold narrow_bounded. cbn [held limits].
  set (q := normalized_request t txn r). split.
  - intros u table. pose proof (count_granted (narrow_range u table) t txn q) as Hc.
    specialize (Hr u table). destruct (narrow_range u table (mk_held txn q)) eqn:En; [|lia].
    unfold narrow_range, owned_by in En. cbn [transaction_id request mk_held] in En.
    apply andb_true_iff in En as [E%Z.eqb_eq En]. subst u.
    unfold q, normalized_request in En, Hc |- *.
    destruct (target r) as [| |n l k| | | | | | |node [ty|] d] eqn:Et; rewrite ?Et in En; try done.
    + rewrite usize_add_one in * by lia.
      destruct (Z.leb_spec (zlen (filter (narrow_range txn (relational_namespace_table n)) (held t)) + 1)
                  (escalation_entries_per_table (limits t))); [|done].
      rewrite Et in En. apply bool_decide_eq_true in En. subst table. lia.
    + destruct (_ <=? _); [|done]. by rewrite Et in En.
  - intros u node d. pose proof (count_granted (narrow_adjacency u node d) t txn q) as Hc.
    specialize (Hadj u node d). destruct (narrow_adjacency u node d (mk_held txn q)) eqn:En; [|lia].
    unfold narrow_adjacency, owned_by in En. cbn [transaction_id request mk_held] in En.
    apply andb_true_iff in En as [E%Z.eqb_eq En]. subst u.
    unfold q, normalized_request in En, Hc |- *.
    destruct (target r) as [| |n l k| | | | | | |node' [ty|] d'] eqn:Et; rewrite ?Et in En; try done.
    + destruct (_ <=? _); [|done]. by rewrite Et in En.
    + rewrite usize_add_one in * by lia.
      destruct (Z.leb_spec (zlen (filter (narrow_adjacency txn node' d') (held t)) + 1)
                  (escalation_entries_per_table (limits t))); [|done].
      rewrite Et in En. apply andb_true_iff in En as [->%Z.eqb_eq ->%bool_decide_eq_true]. lia.
Qed.
End Escalation.

(** ** Witnesses: a 64-bit layout and a table with one lock *)

Module TableDemo.
#[export] Instance layout : Layout := {
  size_of_HeldLock := 136; size_of_String := 24; size_of_RelationalKey := 24;
  size_of_RelationalValue := 64; size_of_RelationalOverflowRef := 56;
}.
#[export] Instance layout_laws : LayoutLaws layout.
Proof. by constructor. Qed.

Definition small : LockTableLimits :=
  {| max_entries := 4; max_bytes := 4096; escalation_entries_per_table := 1 |}.
Definition row (k : Z) : LockRequest :=
  LockRequest_relational_point Exclusive [116] [[105; 100]] [RBigInt k].
(** Transaction 1 holds one row of table t. *)
Definition one_row : LockTable :=
  {| held := [mk_held 1 (row 5)]; estimated_bytes := locks_bytes [mk_held 1 (row 5)]; limits := small |}.

Lemma one_row_ok : accounted one_row ∧ within_budget one_row ∧ limits_ok (limits one_row).
Proof. by vm_compute. Qed.

Lemma lock_grant_budget_witness :
  match grant one_row 2 (row 6) with
  | Ok t' => covered t' 2 (row 6) ∧ accounted t' ∧ within_budget t'
  | Err _ => False
  end.
Proof.
  destruct one_row_ok as (Ha & Hb & Hl).
  pose proof (lock_grant_budget one_row 2 (row 6) Ha Hb Hl) as H. revert H.
  destruct (grant one_row 2 (row 6)) eqn:E; [|by vm_compute in E].
  intros (Hc & _ & _ & Hacc & Hbud & _). done.
Defined.

(** A second row lock of the same transaction escalates to the table. *)
Lemma lock_escalation_bounds_witness :
  ∃ t', grant one_row 1 (normalized_request one_row 1 (row 6)) = Ok t' ∧
    target (normalized_request one_row 1 (row 6)) = RelationalTable [116] ∧
    narrow_bounded t'.
Proof.
  destruct one_row_ok as (Ha & Hb & Hl).
  destruct (grant one_row 1 (normalized_request one_row 1 (row 6))) as [t'|] eqn:E; [|by vm_compute in E].
  exists t'. split; [done|]. split; [by vm_compute|].
  apply (lock_escalation_bounds one_row 1 (row 6) t'); [done..|by vm_compute| |done].
  split.
  - intros txn table. unfold one_row. cbn [held limits small escalation_entries_per_table].
    rewrite filter_b_cons. destruct (narrow_range txn table _); by vm_compute.
  - intros txn node d. unfold one_row. cbn [held limits small escalation_entries_per_table].
    rewrite filter_b_cons. destruct (narrow_adjacency txn node d _); by vm_compute.
Defined.
End TableDemo.
