(* ===== verification/LockQueue.v ===== *)
(** The queue of waiting lock requests and its deadlock check: [LockWaitQueue]
    of crates/storage/src/transaction_locks.rs. *)
From stdpp Require Import fin_sets fin_map_dom.
From S2P Require Import Prelude Ordering Decimal RelationalValue LockModel LockTable.

Record LockWaitQueue := {
  requests : list HeldLock;
  q_estimated_bytes : Z;
  q_limits : LockTableLimits;
}.

(** [deadlock_error]. *)
Definition deadlock_error (victim : Z) (cycle : list Z) : HawDBError :=
  TransactionDeadlock victim cycle.

Section Queue.
Context `{Lay : Layout}.

Definition enqueue (q : LockWaitQueue) (txn : Z) (r : LockRequest) : Result LockWaitQueue :=
  match List.find (owned_by txn) (requests q) with
  | Some existing =>
      if request_eqb (request existing) r then Ok q
      else Err (Execution "transaction already has a different pending lock request" [])
  | None =>
      let next_entries := usize_add (zlen (requests q)) 1 in
      let next_bytes := usize_add (q_estimated_bytes q) (lock_request_estimated_bytes r) in
      if (max_entries (q_limits q) <? next_entries) || (max_bytes (q_limits q) <? next_bytes) then
        Err (Execution "lock wait queue resource budget exceeded"
               [next_entries; max_entries (q_limits q); next_bytes; max_bytes (q_limits q)])
      else
        Ok {| requests := requests q ++ [mk_held txn r];
              q_estimated_bytes := next_bytes;
              q_limits := q_limits q |}
  end.

(** The first request of [txn], and the others. *)
Fixpoint take_request (txn : Z) (l : list HeldLock) : option (HeldLock * list HeldLock) :=
  match l with
  | [] => None
  | h :: t =>
      if owned_by txn h then Some (h, t)
      else match take_request txn t with
           | Some (removed, t) => Some (removed, h :: t)
           | None => None
           end
  end.

Definition remove (q : LockWaitQueue) (txn : Z) : LockWaitQueue :=
  match take_request txn (requests q) with
  | Some (removed, rest) =>
      {| requests := rest;
         q_estimated_bytes := q_estimated_bytes q - held_lock_estimated_bytes removed;
         q_limits := q_limits q |}
  | None => q
  end.

(** [take_while(|r| r.transaction_id != transaction_id)]. *)
Fixpoint older (txn : Z) (l : list HeldLock) : list HeldLock :=
  match l with
  | [] => []
  | h :: t => if owned_by txn h then [] else h :: older txn t
  end.

Definition queue_blockers (q : LockWaitQueue) (txn : Z) (r : LockRequest) : list Z :=
  bset_of_list (transaction_id <$> filter (λ h, requests_conflict (request h) r) (older txn (requests q))).

(** ** The deadlock check *)

(** [collect::<BTreeMap<_, _>>()] of the pending requests. *)
Definition pending_map (q : LockWaitQueue) : gmap Z LockRequest :=
  foldl (λ m h, <[transaction_id h := request h]> m) ∅ (requests q).

(** The path from the cursor up to the root of [parents]. *)
Fixpoint ancestors (fuel : nat) (parents : gmap Z (option Z)) (cursor : Z) : list Z :=
  match fuel with
  | O => []
  | S fuel =>
      match parents !! cursor with
      | Some (Some parent) => parent :: ancestors fuel parents parent
      | _ => []
      end
  end.
Definition cycle_path (parents : gmap Z (option Z)) (waiter txn : Z) : list Z :=
  reverse (waiter :: ancestors (size parents) parents waiter) ++ [txn].

(** The loop over the blockers of one waiter: a cycle, or the parents and the
    pending waiters to go on with. *)
Fixpoint visit (txn waiter : Z) (pm : gmap Z LockRequest) (bs : list Z)
    (parents : gmap Z (option Z)) (pending : list Z)
    : list Z + gmap Z (option Z) * list Z :=
  match bs with
  | [] => inr (parents, pending)
  | b :: bs =>
      if b =? txn then inl (cycle_path parents waiter txn)
      else match pm !! b, parents !! b with
           | Some _, None => visit txn waiter pm bs (<[b := Some waiter]> parents) (pending ++ [b])
           | _, _ => visit txn waiter pm bs parents pending
           end
  end.

Definition all_blockers (q : LockWaitQueue) (t : LockTable) (waiter : Z) (r : LockRequest) : list Z :=
  bset_extend (blockers t waiter r) (queue_blockers q waiter r).

Fixpoint deadlock_loop (fuel : nat) (q : LockWaitQueue) (t : LockTable) (txn : Z)
    (parents : gmap Z (option Z)) (pending : list Z) : option (Result unit) :=
  match fuel with
  | O => None
  | S fuel =>
      match pending with
      | [] => Some (Ok ())
      | waiter :: pending =>
          match pending_map q !! waiter with
          | None => deadlock_loop fuel q t txn parents pending
          | Some r =>
              match visit txn waiter (pending_map q) (all_blockers q t waiter r) parents pending with
              | inl path => Some (Err (deadlock_error txn path))
              | inr (parents, pending) => deadlock_loop fuel q t txn parents pending
              end
          end
      end
  end.

(** Every waiter enters the search once: [requests + 2] rounds are enough
    ([check_deadlock_spec]). *)
Definition check_deadlock (q : LockWaitQueue) (txn : Z) (t : LockTable) : option (Result unit) :=
  deadlock_loop (S (S (length (requests q)))) q t txn {[ txn := None ]} [txn].
End Queue.

(** ** The waits-for relation *)

Section WaitsFor.
Context `{Lay : Layout}.
Implicit Types (q : LockWaitQueue) (t : LockTable).

(** Waiter [w] has a pending request that [b] blocks, by a lock it holds or by
    an older request. *)
Definition waits_for q t (w b : Z) : Prop :=
  ∃ r, pending_map q !! w = Some r ∧ b ∈ all_blockers q t w r.

(** A path of the relation. *)
Fixpoint chained (R : Z → Z → Prop) (l : list Z) : Prop :=
  match l with
  | x :: (y :: _) as t => R x y ∧ chained R t
  | _ => True
  end.

Lemma chained_snoc R l x y : chained R (l ++ [x]) → R x y → chained R (l ++ [x; y]).
Proof.
  induction l as [|a l IH]; [by cbn|]. cbn [app]. destruct l as [|b l]; cbn in *; naive_solver.
Qed.

Inductive rpath (parents : gmap Z (option Z)) : Z → list Z → Prop :=
  | rpath_root v : parents !! v = Some None → rpath parents v []
  | rpath_step v p l : parents !! v = Some (Some p) → rpath parents p l → rpath parents v (p :: l).

Lemma rpath_ancestors parents v l fuel :
  rpath parents v l → (length l ≤ fuel)%nat → ancestors fuel parents v = l.
Proof.
  intros Hr. revert fuel; induction Hr as [v Hv|v p l Hv _ IH]; intros fuel Hf.
  - destruct fuel; cbn; [done|]. by rewrite Hv.
  - destruct fuel; cbn in *; [lia|]. rewrite Hv. f_equal. apply IH. lia.
Qed.

Lemma rpath_insert parents b o v l :
  parents !! b = None → rpath parents v l → rpath (<[b := o]> parents) v l.
Proof.
  intros Hb. induction 1 as [v Hv|v p l Hv _ IH].
  - apply rpath_root. rewrite lookup_insert_ne; congruence.
  - eapply rpath_step; [|done]. rewrite lookup_insert_ne; congruence.
Qed.
End WaitsFor.

(** ** The search *)

Section Search.
Context `{Lay : Layout} (q : LockWaitQueue) (t : LockTable) (txn : Z).
Notation pm := (pending_map q).
Notation W := (waits_for q t).

Record tree_inv (parents : gmap Z (option Z)) : Prop := {
  ti_root : parents !! txn = Some None;
  ti_only v : parents !! v = Some None → v = txn;
  ti_path v o : parents !! v = Some o → ∃ l, rpath parents v l ∧ (length l < size parents)%nat;
  ti_edge v p : parents !! v = Some (Some p) → W p v;
}.

Lemma tree_inv_insert parents w b :
  tree_inv parents → parents !! b = None → is_Some (parents !! w) → W w b →
  tree_inv (<[b := Some w]> parents).
Proof.
  intros [Hroot Honly Hpath Hedge] Hb [o Hw] HW. constructor.
  - rewrite lookup_insert_ne by congruence. done.
  - intros v. rewrite lookup_insert_Some. intros [[_ ?]|[_ ?]]; [done|by apply Honly].
  - intros v o'. rewrite (map_size_insert_None _ _ _ Hb). rewrite lookup_insert_Some. intros [[<- _]|[_ Hv]].
    + destruct (Hpath w o Hw) as (l & Hl & Hlen). exists (w :: l). split; [|cbn; lia].
      eapply rpath_step; [by rewrite lookup_insert_eq|]. by apply rpath_insert.
    + destruct (Hpath v o' Hv) as (l & Hl & Hlen). exists l. split; [by apply rpath_insert|lia].
  - intros v p. rewrite lookup_insert_Some. intros [[<- [= <-]]|[_ ?]]; [done|by apply Hedge].
Qed.

Lemma rpath_chained parents v l :
  tree_inv parents → rpath parents v l →
  (∃ mid, reverse (v :: l) = txn :: mid) ∧ chained W (reverse (v :: l)).
Proof.
  intros Ht. induction 1 as [v Hv|v p l Hv _ [[mid IH] Hch]].
  - apply (ti_only _ Ht) in Hv as ->. split; [by exists []|done].
  - rewrite reverse_cons. split; [exists (mid ++ [v]); by rewrite IH|].
    rewrite (reverse_cons l p) in *. rewrite <- app_assoc. apply chained_snoc; [done|].
    by apply (ti_edge _ Ht).
Qed.

(** A cycle through [txn]. *)
Definition is_cycle (path : list Z) : Prop :=
  (∃ mid, path = txn :: mid ++ [txn]) ∧ chained W path.

Lemma cycle_path_is_cycle parents w :
  tree_inv parents → is_Some (parents !! w) → W w txn → is_cycle (cycle_path parents w txn).
Proof.
  intros Ht [o Hw] HW. destruct (ti_path _ Ht w o Hw) as (l & Hl & Hlen). unfold cycle_path.
  rewrite (rpath_ancestors _ _ _ _ Hl) by lia.
  destruct (rpath_chained _ _ _ Ht Hl) as [[mid Hmid] Hch]. split.
  - exists mid. by rewrite Hmid.
  - rewrite reverse_cons in *. rewrite <- app_assoc. by apply chained_snoc.
Qed.

(** Waiters not reached yet. *)
Definition unvisited (parents : gmap Z (option Z)) : nat := size (dom pm ∖ dom parents).

Lemma unvisited_insert parents b o :
  is_Some (pm !! b) → parents !! b = None →
  S (unvisited (<[b := o]> parents)) = unvisited parents.
Proof.
  intros Hpm Hb. unfold unvisited.
  assert (dom pm ∖ dom parents = {[b]} ∪ dom pm ∖ dom (<[b:=o]> parents)) as ->.
  { rewrite dom_insert_L. apply elem_of_dom in Hpm. apply not_elem_of_dom in Hb.
    apply set_eq. intros x. destruct (decide (x = b)) as [->|]; set_solver. }
  etrans; [|symmetry; apply (size_union (C := gset Z))]; [|rewrite dom_insert_L; set_solver].
  by rewrite (size_singleton (C := gset Z)).
Qed.

Record visited (w : Z) (bs : list Z) (parents : gmap Z (option Z)) (pending : list Z)
    (parents' : gmap Z (option Z)) (pending' : list Z) : Prop := {
  vi_tree : tree_inv parents';
  vi_closed b : b ∈ bs → b ≠ txn ∧ (is_Some (pm !! b) → is_Some (parents' !! b));
  vi_new : ∃ new, pending' = pending ++ new ∧
    (∀ v, is_Some (parents' !! v) ↔ is_Some (parents !! v) ∨ v ∈ new) ∧
    (length new + unvisited parents' = unvisited parents)%nat;
}.

Lemma visit_spec w bs parents pending :
  tree_inv parents → is_Some (parents !! w) → (∀ b, b ∈ bs → W w b) →
  match visit txn w pm bs parents pending with
  | inl path => is_cycle path
  | inr (parents', pending') => visited w bs parents pending parents' pending'
  end.
Proof.
  revert parents pending; induction bs as [|b bs IH]; intros parents pending Ht Hw Hbs; cbn [visit].
  { constructor; [done|by intros b Hb%elem_of_nil|]. exists []. rewrite app_nil_r.
    split_and!; [done| |done]. intros v. rewrite elem_of_nil. tauto. }
  destruct (Z.eqb_spec b txn) as [->|Hne].
  { apply cycle_path_is_cycle; [done..|]. apply Hbs. by left. }
  assert (∀ b', b' ∈ bs → W w b') as Hbs' by (intros; apply Hbs; by right).
  destruct (pm !! b) eqn:Epm, (parents !! b) eqn:Ep.
  2: { pose proof (tree_inv_insert parents w b Ht Ep Hw (Hbs b ltac:(by left))) as Ht'.
       specialize (IH (<[b := Some w]> parents) (pending ++ [b]) Ht').
       destruct (visit _ _ _ _ _ _) as [path|[parents' pending']]; [apply IH; auto; by apply lookup_insert_is_Some'; right|].
       destruct IH as [Ht2 Hcl (new & -> & Hnew & Hm)]; [by apply lookup_insert_is_Some'; right|done|].
       constructor; [done| |].
       - intros b' [-> | Hb']%elem_of_cons; [|by apply Hcl]. split; [done|]. intros _. apply Hnew. left.
         apply lookup_insert_is_Some'. by left.
       - exists (b :: new). rewrite <- app_assoc. split_and!; [done| |].
         + intros v. rewrite Hnew, lookup_insert_is_Some', elem_of_cons. naive_solver.
         + cbn. rewrite <- (unvisited_insert parents b (Some w)) by (by rewrite ?Epm). lia. }
  all: specialize (IH parents pending Ht Hw Hbs');
       destruct (visit _ _ _ _ _ _) as [path|[parents' pending']]; [done|];
       destruct IH as [Ht2 Hcl (new & -> & Hnew & Hm)]; constructor; [done| |by exists new];
       intros b' [-> | Hb']%elem_of_cons; [|by apply Hcl]; (split; [done|]).
  - intros _. apply Hnew. left. by rewrite Ep.
  - by rewrite Epm; intros [].
  - by rewrite Epm; intros [].
Qed.

(** Every blocker of [v] was looked at. *)
Definition closed (parents : gmap Z (option Z)) (v : Z) : Prop :=
  ∀ b, W v b → b ≠ txn ∧ (is_Some (pm !! b) → is_Some (parents !! b)).

Record search_inv (parents : gmap Z (option Z)) (pending : list Z) : Prop := {
  si_tree : tree_inv parents;
  si_pending v : v ∈ pending → is_Some (parents !! v);
  si_closed v : is_Some (parents !! v) → v ∉ pending → closed parents v;
}.

Lemma W_blockers w r b : pm !! w = Some r → W w b ↔ b ∈ all_blockers q t w r.
Proof. intros Hr. unfold waits_for. rewrite Hr. naive_solver. Qed.

Lemma search_inv_skip parents w pending :
  pm !! w = None → search_inv parents (w :: pending) → search_inv parents pending.
Proof.
  intros Hw [Ht Hp Hc]. constructor; [done|intros v Hv; apply Hp; by right|].
  intros v Hv Hnp. destruct (decide (v = w)) as [->|Hne].
  - intros b (r & Hr & _). congruence.
  - apply Hc; [done|]. rewrite not_elem_of_cons. done.
Qed.

Lemma search_inv_visited w r parents pending parents' pending' :
  pm !! w = Some r → search_inv parents (w :: pending) →
  visited w (all_blockers q t w r) parents pending parents' pending' →
  search_inv parents' pending'.
Proof.
  intros Hr [Ht Hp Hc] [Ht' Hcl (new & -> & Hnew & _)].
  constructor; [done| |].
  - intros v [Hv|Hv]%elem_of_app; apply Hnew; [left|by right]. apply Hp. by right.
  - intros v Hv [Hnp Hnn]%not_elem_of_app b Hb. apply Hnew in Hv as [Hv|?]; [|done].
    destruct (decide (v = w)) as [->|Hne]; [by apply Hcl, (W_blockers _ _ _ Hr)|].
    destruct (Hc v Hv) with (b := b) as [? Hb']; [by rewrite not_elem_of_cons|done|].
    split; [done|]. intros Hq. apply Hnew. left. auto.
Qed.

Lemma search_done parents :
  search_inv parents [] → ¬ tc W txn txn.
Proof.
  intros [Ht _ Hc] Htc.
  assert (∀ v, tc W txn v → v ≠ txn ∧ (is_Some (pm !! v) → is_Some (parents !! v))) as Hall.
  { intros v. apply (tc_ind_r (λ v, v ≠ txn ∧ (is_Some (pm !! v) → is_Some (parents !! v)))).
    - intros y Hy. apply (Hc txn); [by rewrite (ti_root _ Ht)|by apply not_elem_of_nil|done].
    - intros y z _ Hyz [_ IH]. apply (Hc y); [|by apply not_elem_of_nil|done].
      apply IH. destruct Hyz as (r & -> & _). done. }
  by destruct (Hall txn Htc).
Qed.

Lemma deadlock_loop_spec fuel parents pending :
  search_inv parents pending → (unvisited parents + length pending < fuel)%nat →
  ∃ res, deadlock_loop fuel q t txn parents pending = Some res ∧
    match res with
    | Ok _ => ¬ tc W txn txn
    | Err e => ∃ path, e = deadlock_error txn path ∧ is_cycle path
    end.
Proof.
  revert parents pending; induction fuel as [|fuel IH]; intros parents pending Hs Hf; [lia|].
  cbn [deadlock_loop]. destruct pending as [|w pending]; [eexists; split; [done|by eapply search_done]|].
  destruct (pm !! w) as [r|] eqn:Er.
  - pose proof (visit_spec w (all_blockers q t w r) parents pending (si_tree _ _ Hs)
      (si_pending _ _ Hs w ltac:(by left)) (λ b, proj2 (W_blockers w r b Er))) as Hv.
    destruct (visit _ _ _ _ _ _) as [path|[parents' pending']]; [eexists; split; [done|by exists path]|].
    apply IH; [by eapply search_inv_visited|]. destruct (vi_new _ _ _ _ _ _ Hv) as (new & -> & _ & Hm).
    rewrite length_app. cbn in Hf. lia.
  - apply IH; [by eapply search_inv_skip|]. cbn in Hf. lia.
Qed.

Lemma foldl_insert_size (l : list HeldLock) (m : gmap Z LockRequest) :
  (size (foldl (λ m h, <[transaction_id h := request h]> m) m l) ≤ size m + length l)%nat.
Proof.
  revert m; induction l as [|h l IH]; intros m; cbn; [lia|].
  etrans; [apply IH|]. rewrite map_size_insert. destruct (m !! _); cbn; lia.
Qed.

(** The check returns, and its answer is exact. *)
Lemma check_deadlock_spec :
  ∃ res, check_deadlock q txn t = Some res ∧
    match res with
    | Ok _ => ¬ tc W txn txn
    | Err e => ∃ path, e = deadlock_error txn path ∧ is_cycle path
    end.
Proof.
  apply deadlock_loop_spec.
  - constructor.
    + constructor; [by rewrite lookup_singleton_eq|..].
      * by intros v [? _]%lookup_singleton_Some.
      * intros v o [<- <-]%lookup_singleton_Some. exists []. split; [|rewrite map_size_singleton; cbn; lia].
        apply rpath_root. by rewrite lookup_singleton_eq.
      * by intros v p [_ ?]%lookup_singleton_Some.
    + intros v ->%list_elem_of_singleton. by rewrite lookup_singleton_eq.
    + intros v [o [-> _]%lookup_singleton_Some]. intros Hn. destruct Hn. by left.
  - cbn. unfold unvisited.
    assert (size (dom pm ∖ dom ({[txn := None]} : gmap Z (option Z))) ≤ size (dom pm))%nat.
    { apply subseteq_size. set_solver. }
    rewrite size_dom in *. pose proof (foldl_insert_size (requests q) ∅) as Hsz.
    rewrite map_size_empty in Hsz. fold (pending_map q) in Hsz. lia.
Qed.
End Search.

(** ** Queue operations *)

Section Operations.
Context `{Lay : Layout} `{!LayoutLaws Lay}.
Implicit Types (q : LockWaitQueue) (t : LockTable) (l : list HeldLock) (h : HeldLock).

Definition ids l : list Z := transaction_id <$> l.
Definition not_of (txn : Z) (h : HeldLock) : bool := negb (owned_by txn h).

(** A transaction waits for one request, and the running estimate is the sum
    over the waiting requests. *)
Record queue_ok q : Prop := {
  qk_unique : NoDup (ids (requests q));
  qk_bytes : q_estimated_bytes q = locks_bytes (requests q);
  qk_budget : requests q ≠ [] → zlen (requests q) ≤ max_entries (q_limits q) ∧
                                q_estimated_bytes q ≤ max_bytes (q_limits q);
  qk_limits : limits_ok (q_limits q);
}.

Lemma owned_by_true txn h : owned_by txn h = true ↔ transaction_id h = txn.
Proof. apply Z.eqb_eq. Qed.
Lemma owned_by_false txn h : owned_by txn h = false ↔ transaction_id h ≠ txn.
Proof. apply Z.eqb_neq. Qed.
Lemma not_of_spec txn h : not_of txn h = true ↔ transaction_id h ≠ txn.
Proof. unfold not_of. by rewrite negb_true_iff, owned_by_false. Qed.

Lemma elem_of_ids txn l : txn ∈ ids l ↔ ∃ r, mk_held txn r ∈ l.
Proof.
  unfold ids. rewrite list_elem_of_fmap. split.
  - intros ([i r] & -> & Hh). by exists r.
  - intros [r Hh]. by exists (mk_held txn r).
Qed.

Lemma filter_not_of_id txn l : txn ∉ ids l → filter (not_of txn) l = l.
Proof.
  induction l as [|h l IH]; intros Hn; [done|]. cbn in Hn. apply not_elem_of_cons in Hn as [Hne Hn].
  rewrite filter_b_cons. assert (not_of txn h = true) as -> by (apply not_of_spec; congruence).
  by rewrite IH.
Qed.

Lemma take_request_spec txn l :
  NoDup (ids l) →
  match take_request txn l with
  | Some (h, rest) => transaction_id h = txn ∧ rest = filter (not_of txn) l ∧
                      locks_bytes l = held_lock_estimated_bytes h + locks_bytes rest ∧ l ≠ []
  | None => txn ∉ ids l
  end.
Proof.
  induction l as [|h l IH]; intros Hnd; cbn [take_request]; [by apply not_elem_of_nil|].
  cbn in Hnd. apply NoDup_cons in Hnd as [Hh Hnd]. specialize (IH Hnd). rewrite filter_b_cons. unfold not_of at 1.
  destruct (owned_by txn h) eqn:E; cbn [negb].
  - apply owned_by_true in E as <-. split_and!; [done| |done|done]. by rewrite filter_not_of_id.
  - destruct (take_request txn l) as [[h' rest]|].
    + destruct IH as (-> & -> & Hb & _). split_and!; [done|done| |done].
      unfold locks_bytes, zsum in *. cbn. rewrite Hb. cbn. lia.
    + apply owned_by_false in E. cbn. apply not_elem_of_cons. split; [congruence|done].
Qed.

Lemma requests_remove q txn :
  queue_ok q → requests (remove q txn) = filter (not_of txn) (requests q).
Proof.
  intros [Hnd _ _ _]. unfold remove. pose proof (take_request_spec txn (requests q) Hnd) as H.
  destruct (take_request _ _) as [[h rest]|]; cbn; [by destruct H as (_ & -> & _)|].
  by rewrite filter_not_of_id.
Qed.

Lemma ids_filter_not_of txn l : ids (filter (not_of txn) l) = filter (λ i, negb (i =? txn)) (ids l).
Proof.
  induction l as [|h l IH]; [done|]. cbn [ids fmap list_fmap] in *. rewrite !filter_b_cons. unfold not_of at 1, owned_by.
  destruct (negb _); cbn; [f_equal|]; exact IH.
Qed.

Lemma zlen_filter_le {A} (f : A → bool) (k : list A) : zlen (filter f k) ≤ zlen k.
Proof.
  induction k as [|x k IH]; [done|]. rewrite filter_b_cons. unfold zlen in *. destruct (f x); cbn [length]; lia.
Qed.

Lemma remove_ok q txn : queue_ok q → queue_ok (remove q txn).
Proof.
  intros Hq. pose proof (requests_remove q txn Hq) as Hr. destruct Hq as [Hnd Hb Hbud Hl].
  constructor.
  - rewrite Hr, ids_filter_not_of. by apply NoDup_filter.
  - unfold remove in *. pose proof (take_request_spec txn (requests q) Hnd) as H.
    destruct (take_request _ _) as [[h rest]|]; cbn in *; [|done].
    destruct H as (_ & -> & Hb' & _). rewrite Hb, Hb'. unfold locks_bytes, zsum. lia.
  - rewrite Hr. intros Hne. assert (requests q ≠ []) as Hne' by (intros E; by rewrite E in Hne).
    specialize (Hbud Hne'). unfold remove in *. pose proof (take_request_spec txn (requests q) Hnd) as H.
    pose proof (zlen_filter_le (not_of txn) (requests q)).
    destruct (take_request _ _) as [[h rest]|]; cbn in *; [|lia].
    pose proof (request_bytes_nonneg (request h)) as Hpos. unfold held_lock_estimated_bytes. lia.
  - unfold remove. destruct (take_request _ _) as [[??]|]; done.
Qed.

Lemma find_owned_none txn l : List.find (owned_by txn) l = None → txn ∉ ids l.
Proof.
  intros Hf (r & Hr)%elem_of_ids. apply list_elem_of_In in Hr.
  apply (List.find_none _ _ Hf), owned_by_false in Hr. by apply Hr.
Qed.

(** What admission does: the request was waiting already, or goes last. *)
Lemma enqueue_spec q txn r q' :
  enqueue q txn r = Ok q' →
  (q' = q ∧ ∃ r', mk_held txn r' ∈ requests q ∧ request_eqb r' r = true) ∨
  (txn ∉ ids (requests q) ∧ requests q' = requests q ++ [mk_held txn r] ∧ q_limits q' = q_limits q).
Proof.
  unfold enqueue. destruct (List.find _ _) as [h|] eqn:Ef.
  - apply List.find_some in Ef as [Hin Ho%owned_by_true].
    destruct (request_eqb _ _) eqn:Ee; [|done]. intros [= <-]. left. split; [done|].
    exists (request h). split; [|done]. apply list_elem_of_In. by destruct h; cbn in *; subst.
  - destruct (_ || _); [done|]. intros [= <-]. right. split; [by apply find_owned_none|done].
Qed.

Lemma enqueue_ok q txn r q' : queue_ok q → enqueue q txn r = Ok q' → queue_ok q'.
Proof.
  intros Hq. unfold enqueue. destruct (List.find _ _) as [h|] eqn:Ef; [by destruct (request_eqb _ _); intros [= <-]|].
  apply find_owned_none in Ef as Hn. destruct Hq as [Hnd Hb _ [Hl1 Hl2]].
  destruct (_ || _) eqn:E; [done|]. apply orb_false_iff in E as [E1%Z.ltb_ge E2%Z.ltb_ge].
  intros [= <-]. unfold usize_add, saturating_add in *.
  assert (locks_bytes (requests q ++ [mk_held txn r]) = locks_bytes (requests q) + lock_request_estimated_bytes r) as Eb.
  { unfold locks_bytes. rewrite fmap_app, zsum_app. unfold zsum; cbn.
    unfold held_lock_estimated_bytes; cbn. lia. }
  constructor; cbn [requests q_estimated_bytes q_limits].
  - unfold ids in *. rewrite fmap_app. apply NoDup_app. split_and!; [done| |apply NoDup_singleton].
    intros x Hx ->%list_elem_of_singleton. done.
  - rewrite Eb, Hb in *. lia.
  - intros _. rewrite zlen_app. change (zlen [mk_held txn r]) with 1. lia.
  - done.
Qed.

(** ** The waits-for relation by membership *)

Lemma foldl_insert_lookup l (m : gmap Z LockRequest) w r :
  NoDup (ids l) →
  foldl (λ m h, <[transaction_id h := request h]> m) m l !! w = Some r ↔
  mk_held w r ∈ l ∨ (w ∉ ids l ∧ m !! w = Some r).
Proof.
  revert m; induction l as [|[i r0] l IH]; intros m Hnd; cbn [foldl].
  { rewrite elem_of_nil. cbn. split; [|tauto]. intros ?. right. split; [apply not_elem_of_nil|done]. }
  cbn in Hnd. apply NoDup_cons in Hnd as [Hh Hnd]. rewrite IH by done. cbn [transaction_id request].
  rewrite elem_of_cons. cbn [ids fmap list_fmap transaction_id]. rewrite not_elem_of_cons, lookup_insert_Some.
  fold (ids l) in *. split.
  - intros [?|(Hn & [[<- <-]|[? ?]])]; auto.
  - intros [[[= -> ->]|?]|((? & Hn) & Hm)]; auto.
Qed.

Lemma pending_lookup q w r :
  queue_ok q → pending_map q !! w = Some r ↔ mk_held w r ∈ requests q.
Proof.
  intros Hq. unfold pending_map. rewrite foldl_insert_lookup by apply Hq.
  rewrite lookup_empty. naive_solver.
Qed.

Lemma elem_of_queue_blockers q txn r b :
  b ∈ queue_blockers q txn r ↔
  ∃ h, h ∈ older txn (requests q) ∧ transaction_id h = b ∧ requests_conflict (request h) r = true.
Proof.
  unfold queue_blockers. rewrite elem_of_bset_of_list, list_elem_of_fmap.
  setoid_rewrite elem_of_filter_b. naive_solver.
Qed.

Lemma elem_of_all_blockers q t w r b :
  b ∈ all_blockers q t w r ↔ b ∈ blockers t w r ∨ b ∈ queue_blockers q w r.
Proof. unfold all_blockers. rewrite elem_of_bset_extend. tauto. Qed.

(** [w] waits for [r], which a held lock or an older request of [b] conflicts
    with. *)
Lemma waits_for_spec q t w b :
  queue_ok q →
  waits_for q t w b ↔
  ∃ r, mk_held w r ∈ requests q ∧
    (b ∈ blockers t w r ∨
     ∃ h, h ∈ older w (requests q) ∧ transaction_id h = b ∧ requests_conflict (request h) r = true).
Proof.
  intros Hq. unfold waits_for. split; intros (r & Hr & Hb); exists r;
    apply (pending_lookup q w r Hq) in Hr; (split; [done|]).
  - apply elem_of_all_blockers in Hb as [?|?%elem_of_queue_blockers]; auto.
  - apply elem_of_all_blockers. destruct Hb as [?|?%elem_of_queue_blockers]; auto.
Qed.

Lemma older_filter w txn l :
  w ≠ txn → older w (filter (not_of txn) l) = filter (not_of txn) (older w l).
Proof.
  intros Hne. induction l as [|h l IH]; [done|]. rewrite filter_b_cons. cbn [older].
  destruct (owned_by w h) eqn:Ew.
  - apply owned_by_true in Ew as <-. assert (not_of txn h = true) as -> by by apply not_of_spec.
    cbn [older]. assert (owned_by (transaction_id h) h = true) as -> by by apply owned_by_true. done.
  - rewrite filter_b_cons. destruct (not_of txn h); cbn [older]; rewrite ?Ew; by rewrite IH.
Qed.

Lemma older_app w l k : w ∈ ids l → older w (l ++ k) = older w l.
Proof.
  induction l as [|h l IH]; [by intros ?%elem_of_nil|]. cbn. intros Hw. destruct (owned_by w h) eqn:E; [done|].
  rewrite IH; [done|]. apply owned_by_false in E. apply elem_of_cons in Hw as [Hw|Hw]; [by subst w|done].
Qed.
Lemma older_not_in w l : w ∉ ids l → older w l = l.
Proof.
  induction l as [|h l IH]; [done|]. cbn. intros [Hne Hn]%not_elem_of_cons.
  assert (owned_by w h = false) as -> by (apply owned_by_false; congruence). by rewrite IH.
Qed.
Lemma older_incl w l h : h ∈ older w l → h ∈ l ∧ transaction_id h ≠ w.
Proof.
  induction l as [|h' l IH]; cbn; [by intros ?%elem_of_nil|]. destruct (owned_by w h') eqn:E; [by intros ?%elem_of_nil|].
  apply owned_by_false in E. intros [-> | Hh]%elem_of_cons; [split; [by left|done]|].
  destruct (IH Hh). split; [by right|done].
Qed.

(** A waiting transaction has a pending request. *)
Lemma waits_for_waiting q t w b : queue_ok q → waits_for q t w b → w ∈ ids (requests q).
Proof. intros Hq (r & Hr & _)%waits_for_spec; [|done]. apply elem_of_ids. eauto. Qed.

(** Removing [txn] from the queue and changing the locks of [txn] alone
    creates no dependency but on [txn], which does not wait. *)
Lemma waits_for_remove q t t' txn w b :
  queue_ok q → (∀ h, transaction_id h ≠ txn → h ∈ held t' → h ∈ held t) →
  waits_for (remove q txn) t' w b → w ≠ txn ∧ (waits_for q t w b ∨ b = txn).
Proof.
  intros Hq Ht' (r & Hr & Hb)%waits_for_spec; [|by apply remove_ok].
  rewrite requests_remove in * by done. apply elem_of_filter_b in Hr as [Hw%not_of_spec Hr]. cbn in Hw.
  split; [done|]. destruct (decide (b = txn)) as [|Hbt]; [by right|left].
  apply waits_for_spec; [done|]. exists r. split; [done|]. destruct Hb as [Hb|(h & Hh & Hid & Hc)].
  - left. apply elem_of_blockers in Hb as (h & Hh & Hid & Hne & Hc). apply elem_of_blockers.
    exists h. split_and!; [|done..]. apply Ht'; congruence.
  - right. exists h. rewrite older_filter in Hh by done. apply elem_of_filter_b in Hh as [_ Hh]. done.
Qed.

(** Admission adds dependencies of the new waiter alone. *)
Lemma waits_for_enqueue q t txn r q' w b :
  queue_ok q → enqueue q txn r = Ok q' → waits_for q' t w b → waits_for q t w b ∨ w = txn.
Proof.
  intros Hq He Hw. pose proof (enqueue_ok _ _ _ _ Hq He) as Hq'.
  destruct (enqueue_spec _ _ _ _ He) as [[-> _]|(Hn & Hr & _)]; [by left|].
  destruct (decide (w = txn)) as [|Hne]; [by right|left].
  apply waits_for_spec in Hw as (r' & Hr' & Hb); [|done]. rewrite Hr in *.
  apply elem_of_app in Hr' as [Hr'|[= ? _]%list_elem_of_singleton]; [|done].
  apply waits_for_spec; [done|]. exists r'. split; [done|].
  rewrite older_app in Hb by (apply elem_of_ids; eauto). done.
Qed.
End Operations.

(** ** Acyclic relations *)

Section Acyclic.
Context {A : Type}.
Implicit Types R : relation A.
Definition acyclic R : Prop := ∀ x, ¬ tc R x x.

Lemma acyclic_sink R R' (s : A) :
  acyclic R → (∀ x y, R' x y → x ≠ s ∧ (R x y ∨ y = s)) → acyclic R'.
Proof.
  intros Hac Hsub.
  assert (∀ x y, tc R' x y → y ≠ s → tc R x y) as Htc.
  { induction 1 as [x y Hxy|x y z Hxy Hyz IH]; intros Hs.
    - apply tc_once. by destruct (Hsub _ _ Hxy) as [_ [?|?]].
    - destruct (Hsub _ _ Hxy) as [_ [?| ->]]; [eapply tc_l; eauto|]. exfalso.
      inversion Hyz as [? ? H'|? ? ? H']; by destruct (Hsub _ _ H'). }
  intros x Hx. apply (Hac x), Htc; [done|]. inversion Hx as [? ? H'|? ? ? H']; by destruct (Hsub _ _ H').
Qed.

Lemma acyclic_source R R' (s : A) :
  acyclic R → (∀ x y, R' x y → R x y ∨ x = s) → ¬ tc R' s s → acyclic R'.
Proof.
  intros Hac Hsub Hs.
  assert (∀ x y, tc R' x y → tc R x y ∨ (rtc R' x s ∧ tc R' s y)) as Htc.
  { induction 1 as [x y Hxy|x y z Hxy Hyz IH].
    - destruct (Hsub _ _ Hxy) as [?| ->]; [left; by apply tc_once|right].
      split; [apply rtc_refl|by apply tc_once].
    - destruct (Hsub _ _ Hxy) as [?| ->].
      + destruct IH as [?|[? ?]]; [left; by eapply tc_l|right]. split; [by eapply rtc_l|done].
      + right. split; [apply rtc_refl|]. by eapply tc_l. }
  intros x Hx. destruct (Htc x x Hx) as [?|[H1 H2]]; [by eapply Hac|]. apply Hs. by eapply tc_rtc_r.
Qed.
End Acyclic.

Lemma chained_tc (R : Z → Z → Prop) x mid y : chained R (x :: mid ++ [y]) → tc R x y.
Proof.
  revert x; induction mid as [|z mid IH]; intros x; cbn; [intros [? _]; by apply tc_once|].
  intros [Hxz Hch]. eapply tc_l; [done|]. by apply IH.
Qed.

(** C26: the deadlock check is exact.  On every lock table and wait queue the
    search terminates; it reports a deadlock exactly when the transaction waits,
    over any number of waiters, for itself, and the cycle it reports starts and
    ends at that transaction and follows the waits-for relation. *)
Theorem lock_deadlock_exact `{Lay : Layout} q t txn :
  (check_deadlock q txn t = Some (Ok ()) ∧ ¬ tc (waits_for q t) txn txn) ∨
  (∃ mid, check_deadlock q txn t = Some (Err (deadlock_error txn (txn :: mid ++ [txn]))) ∧
     chained (waits_for q t) (txn :: mid ++ [txn]) ∧ tc (waits_for q t) txn txn).
Proof.
  destruct (check_deadlock_spec q t txn) as ([[]|e] & E & H); [by left|right].
  destruct H as (path & -> & (mid & ->) & Hch). exists mid. split_and!; [done..|]. by eapply chained_tc.
Qed.
