(* ===== verification/WaitForGraph.v ===== *)
(** The explicit wait-for graph of crates/storage/src/transaction_locks.rs
    ([WaitForGraph]): registration of a waiter with the owners it waits for,
    refused when it would close a cycle.

    The search for a cycle follows simple paths from the waiter, backtracking.
    Its path and its set of visited owners are restored on every return, so they
    are values of the recursion here. *)
From stdpp Require Import relations.
From S2P Require Import Prelude LockTable LockQueue.

(** A set of owners is its list of members in order. *)
Abbreviation WaitForGraph := (gmap Z (list Z)).

Fixpoint path_to (fuel : nat) (edges : WaitForGraph) (current target : Z) (path : list Z) (visiting : gset Z)
    : option (option (list Z)) :=
  match fuel with
  | O => None
  | S fuel =>
      (fix owners_loop (owners : list Z) : option (option (list Z)) :=
         match owners with
         | [] => Some None
         | owner :: owners =>
             let path' := path ++ [owner] in
             if owner =? target then Some (Some path')
             else if decide (owner ∈ visiting) then owners_loop owners
             else
               match path_to fuel edges owner target path' ({[owner]} ∪ visiting) with
               | Some None => owners_loop owners
               | r => r
               end
         end) (default [] (edges !! current))
  end.

(** Every call visits an owner for the first time on its path: the number of
    waiters plus two bounds the depth ([cycle_from_total]). *)
Definition cycle_from (edges : WaitForGraph) (waiter : Z) : option (option (list Z)) :=
  path_to (size edges + 2) edges waiter waiter [waiter] {[waiter]}.

Definition clear_waiter (txn : Z) (edges : WaitForGraph) : WaitForGraph := delete txn edges.

Definition register (waiter : Z) (owners : list Z) (edges : WaitForGraph) : option (Result () * WaitForGraph) :=
  match owners with
  | [] => Some (Ok (), clear_waiter waiter edges)
  | _ =>
      let edges := <[waiter := owners]> edges in
      r ← cycle_from edges waiter;
      match r with
      | Some cycle => Some (Err (deadlock_error waiter cycle), delete waiter edges)
      | None => Some (Ok (), edges)
      end
  end.

(** [retain] with the transaction taken out of every set. *)
Definition without (txn : Z) (owners : list Z) : list Z := List.filter (λ o, negb (o =? txn)) owners.
Definition remove_transaction (txn : Z) (edges : WaitForGraph) : WaitForGraph :=
  omap (λ owners, match without txn owners with [] => None | owners => Some owners end) (delete txn edges).

(** ** The search *)

Definition waits (edges : WaitForGraph) (waiter owner : Z) : Prop := owner ∈ default [] (edges !! waiter).

(** A path from [c] to [t] whose inner nodes are new: the paths the search follows. *)
Inductive new_path (edges : WaitForGraph) (t : Z) : gset Z → Z → Prop :=
  | new_path_end V c : waits edges c t → new_path edges t V c
  | new_path_step V c o : waits edges c o → o ∉ V → new_path edges t ({[o]} ∪ V) o → new_path edges t V c.

(** Any path with inner nodes outside [V] has a new one among its nodes. *)
Lemma chained_new_path edges t n : ∀ V c mid, (length mid < n)%nat →
  chained (waits edges) (c :: mid ++ [t]) → (∀ o, o ∈ mid → o ∉ V) → new_path edges t V c.
Proof.
  induction n as [|n IH]; intros V c mid Hn Hch HV; [lia|].
  destruct mid as [|o mid]; [apply new_path_end; by destruct Hch|]. cbn [length] in Hn.
  destruct Hch as [Hco Hch]. destruct (decide (o ∈ mid)) as [[m1 [m2 ->]]%list_elem_of_split|Hni].
  - apply (IH V c (o :: m2)); [rewrite length_app in Hn; cbn [length] in *; lia| |].
    + split; [done|]. clear -Hch. revert Hch. generalize o at 1 as a. induction m1 as [|b m1 IHm]; intros a Hch.
      * cbn [app] in Hch. by destruct Hch.
      * destruct Hch as [_ Hch]. by apply (IHm b).
    + intros x Hx. apply HV. set_solver.
  - apply (new_path_step _ _ _ _ o); [done|apply HV; set_solver|].
    apply (IH _ _ mid); [lia|done|]. intros x Hx. specialize (HV x). set_solver.
Qed.
Lemma tc_chained (R : Z → Z → Prop) x y : tc R x y → ∃ mid, chained R (x :: mid ++ [y]).
Proof.
  induction 1 as [x y Hxy|x z y Hxz _ [mid Hch]]; [by exists []|]. by exists (z :: mid).
Qed.
Lemma cycle_new_path edges w : tc (waits edges) w w → new_path edges w {[w]} w.
Proof.
  intros [mid Hch]%tc_chained.
  assert (∃ mid', chained (waits edges) (w :: mid' ++ [w]) ∧ w ∉ mid') as (mid' & Hch' & Hni).
  { remember (length mid) as n eqn:En. revert mid En Hch. induction n as [n IH] using lt_wf_ind. intros mid -> Hch.
    destruct (decide (w ∈ mid)) as [[m1 [m2 ->]]%list_elem_of_split|Hni]; [|by exists mid].
    apply (IH (length m2)) with (mid := m2); [rewrite length_app; cbn; lia|done|].
    clear -Hch. revert Hch. generalize w at 1 as a. induction m1 as [|b m1 IHm]; intros a Hch.
    - cbn [app] in Hch. by destruct Hch.
    - destruct Hch as [_ Hch]. by apply (IHm b). }
  apply (chained_new_path _ _ (S (length mid')) _ _ mid'); [lia|done|]. set_solver.
Qed.

(** What is left to visit from a node. *)
Definition unvisited (edges : WaitForGraph) (V : gset Z) (c : Z) : nat :=
  size (dom edges ∖ V) + (if decide (c ∈ dom edges) then 1 else 0).

Lemma unvisited_step edges V c o n : (unvisited edges V c < S n)%nat → waits edges c o → o ∉ V →
  (unvisited edges ({[o]} ∪ V) o < n)%nat.
Proof.
  unfold unvisited, waits. intros Hn Hw HV. destruct (edges !! c) as [owners|] eqn:Ec; [|by apply elem_of_nil in Hw].
  rewrite decide_True in Hn by (by apply elem_of_dom_2 in Ec).
  destruct (decide (o ∈ dom edges)) as [Ho|Ho].
  - assert (dom edges ∖ V ≡ {[o]} ∪ (dom edges ∖ ({[o]} ∪ V))) as E.
    { apply set_equiv. intros x. rewrite elem_of_union, elem_of_singleton, !elem_of_difference, elem_of_union, elem_of_singleton.
      destruct (decide (x = o)) as [->|]; tauto. }
    rewrite E in Hn. rewrite size_union, size_singleton in Hn by set_solver. lia.
  - assert (size (dom edges ∖ ({[o]} ∪ V)) ≤ size (dom edges ∖ V))%nat by (apply subseteq_size; set_solver). lia.
Qed.

Lemma path_to_spec edges t fuel : ∀ c path V, (unvisited edges V c < fuel)%nat →
  ∃ r, path_to fuel edges c t path V = Some r ∧
    match r with
    | None => ¬ new_path edges t V c
    | Some p => ∃ mid, p = path ++ mid ++ [t] ∧ chained (waits edges) (c :: mid ++ [t])
    end.
Proof.
  induction fuel as [|fuel IH]; intros c path V Hf; [lia|]. cbn [path_to].
  set (loop := fix owners_loop (owners : list Z) : option (option (list Z)) := _).
  assert (∀ owners, (∀ o, o ∈ owners → waits edges c o) → ∃ r, loop owners = Some r ∧
    match r with
    | None => ∀ o, o ∈ owners → o ≠ t ∧ (o ∉ V → ¬ new_path edges t ({[o]} ∪ V) o)
    | Some p => ∃ mid, p = path ++ mid ++ [t] ∧ chained (waits edges) (c :: mid ++ [t])
    end) as Hloop.
  { intros owners. induction owners as [|o owners IHo]; intros Hw; [exists None; split; [done|]; by intros ? ?%elem_of_nil|].
    assert (waits edges c o) as Hco by (apply Hw, list_elem_of_here).
    destruct IHo as (r & Er & Hr); [intros x Hx; by apply Hw, list_elem_of_further|]. cbn [loop].
    destruct (Z.eqb_spec o t) as [->|Hot]; [eexists; split; [done|]; by exists []|].
    destruct (decide (o ∈ V)) as [Hv|Hv].
    - exists r. split; [done|]. destruct r; [done|]. intros x [->|Hx]%elem_of_cons; [done|by apply Hr].
    - destruct (IH o (path ++ [o]) ({[o]} ∪ V) (unvisited_step _ _ _ _ _ Hf Hco Hv)) as ([p|] & Ep & Hp); rewrite Ep.
      + eexists; split; [done|]. destruct Hp as (mid & -> & Hch). exists (o :: mid). split; [by rewrite <- app_assoc|done].
      + exists r. split; [done|]. destruct r; [done|]. intros x [->|Hx]%elem_of_cons; [done|by apply Hr]. }
  destruct (Hloop (default [] (edges !! c)) ltac:(done)) as ([p|] & Er & Hr); eexists; (split; [exact Er|]); [done|].
  intros Hp. inversion Hp as [V' c' Ht|V' c' o Ho HV Hrest]; subst.
  - by destruct (Hr t Ht) as [? _].
  - destruct (Hr o Ho) as [_ Hno]. by apply Hno.
Qed.

Lemma cycle_from_total edges w : ∃ r, cycle_from edges w = Some r ∧
  match r with
  | None => ¬ tc (waits edges) w w
  | Some cycle => ∃ mid, cycle = w :: mid ++ [w] ∧ chained (waits edges) cycle
  end.
Proof.
  destruct (path_to_spec edges w (size edges + 2) w [w] {[w]}) as (r & Er & Hr).
  { unfold unvisited. assert (size (dom edges ∖ {[w]}) ≤ size edges)%nat; [|destruct (decide _); lia].
    assert (size (dom edges) = size edges) as <- by apply size_dom. apply subseteq_size. set_solver. }
  exists r. split; [done|]. destruct r as [p|].
  - destruct Hr as (mid & -> & Hch). by exists mid.
  - intros Hc. by apply Hr, cycle_new_path.
Qed.

(** ** Registration *)

Definition acyclic (edges : WaitForGraph) : Prop := ∀ w, ¬ tc (waits edges) w w.

Lemma tc_mono {A} (R R' : A → A → Prop) x y : (∀ a b, R a b → R' a b) → tc R x y → tc R' x y.
Proof. intros H. induction 1 as [x y Hxy|x z y Hxz _ IH]; [apply tc_once; auto|eapply tc_l; eauto]. Qed.
Lemma acyclic_mono edges edges' : (∀ a b, waits edges' a b → waits edges a b) → acyclic edges → acyclic edges'.
Proof. intros H Ha w Hc. apply (Ha w). by eapply tc_mono. Qed.

Lemma waits_delete edges txn a b : waits (delete txn edges) a b → waits edges a b.
Proof.
  unfold waits. destruct (decide (a = txn)) as [->|]; [by rewrite lookup_delete_eq; intros ?%elem_of_nil|by rewrite lookup_delete_ne].
Qed.
Lemma waits_insert_ne edges w owners a b : a ≠ w → waits (<[w := owners]> edges) a b ↔ waits edges a b.
Proof. intros H. unfold waits. by rewrite lookup_insert_ne. Qed.
Lemma waits_remove edges txn a b :
  waits (remove_transaction txn edges) a b ↔ a ≠ txn ∧ b ≠ txn ∧ waits edges a b.
Proof.
  unfold waits, remove_transaction. rewrite lookup_omap. destruct (decide (a = txn)) as [->|Hne].
  { rewrite lookup_delete_eq. cbn. rewrite elem_of_nil. tauto. }
  rewrite lookup_delete_ne by done. destruct (edges !! a) as [owners|]; cbn; [|rewrite elem_of_nil; tauto].
  assert (b ∈ without txn owners ↔ b ≠ txn ∧ b ∈ owners) as Hb.
  { unfold without. rewrite list_elem_of_In, List.filter_In, <- list_elem_of_In, negb_true_iff, Z.eqb_neq. tauto. }
  transitivity (b ∈ without txn owners); [by destruct (without txn owners)|]. rewrite Hb. tauto.
Qed.

(** A cycle of the graph with one waiter added passes through the waiter. *)
Lemma cycle_through edges w owners x : acyclic edges → tc (waits (<[w := owners]> edges)) x x →
  tc (waits (<[w := owners]> edges)) w w.
Proof.
  intros Ha Hc. destruct (tc_chained _ _ _ Hc) as [mid Hch].
  destruct (decide (x = w)) as [->|Hxw]; [done|].
  destruct (decide (w ∈ mid)) as [[m1 [m2 ->]]%list_elem_of_split|Hni].
  - assert (∀ a, chained (waits (<[w := owners]> edges)) (a :: (m1 ++ w :: m2) ++ [x]) →
      tc (waits (<[w := owners]> edges)) a w ∧ tc (waits (<[w := owners]> edges)) w x) as Hsplit.
    { clear. induction m1 as [|b m1 IH]; intros a; cbn [app].
      - intros [Haw Hch]. split; [by apply tc_once|]. by apply chained_tc in Hch.
      - intros [Hab Hch]. destruct (IH b Hch) as [H1 H2]. split; [by eapply tc_l|done]. }
    destruct (Hsplit x Hch) as [Hxw' Hwx]. by eapply tc_transitive.
  - exfalso. apply (Ha x). assert (∀ a l, chained (waits (<[w := owners]> edges)) (a :: l ++ [x]) → a ≠ w → w ∉ l →
      chained (waits edges) (a :: l ++ [x])) as Hold.
    { clear. intros a l. revert a. induction l as [|b l IH]; intros a [Hab Hch] Haw Hwl; cbn [app].
      - split; [|done]. by apply waits_insert_ne in Hab.
      - split; [by apply waits_insert_ne in Hab|]. apply IH; [done|set_solver|set_solver]. }
    by eapply chained_tc, Hold.
Qed.

Lemma register_ok w owners edges : acyclic edges →
  ∃ res edges', register w owners edges = Some (res, edges') ∧ acyclic edges' ∧
    match res with
    | Ok _ => edges' = (match owners with [] => delete w edges | _ => <[w := owners]> edges end)
    | Err e => edges' = delete w edges ∧ ∃ mid, e = deadlock_error w (w :: mid ++ [w]) ∧
        chained (waits (<[w := owners]> edges)) (w :: mid ++ [w])
    end.
Proof.
  intros Ha. assert (acyclic (delete w edges)) as Hd by (eapply acyclic_mono; [apply waits_delete|done]).
  destruct (cycle_from_total (<[w := owners]> edges) w) as (r & Er & Hr).
  unfold register. destruct owners as [|o rest]; [do 2 eexists; by split_and!|]. rewrite Er. cbn [mbind option_bind].
  destruct r as [cycle|].
  - do 2 eexists. split; [done|]. rewrite delete_insert_eq. split; [done|]. split; [done|].
    destruct Hr as (mid & -> & Hch). by exists mid.
  - do 2 eexists. split; [done|]. split; [|done]. intros x Hx. by eapply Hr, cycle_through.
Qed.

(** ** Graphs the operations build *)

Inductive graph_step : WaitForGraph → WaitForGraph → Prop :=
  | step_register w owners edges res edges' :
      register w owners edges = Some (res, edges') → graph_step edges edges'
  | step_clear txn edges : graph_step edges (clear_waiter txn edges)
  | step_remove txn edges : graph_step edges (remove_transaction txn edges).
Definition graph_reachable : WaitForGraph → Prop := rtc graph_step ∅.

Lemma step_acyclic edges edges' : graph_step edges edges' → acyclic edges → acyclic edges'.
Proof.
  intros Hs Ha. destruct Hs as [w owners edges res edges' E|txn edges|txn edges].
  - destruct (register_ok w owners edges Ha) as (res' & e' & E' & Ha' & _). rewrite E in E'. by injection E' as _ <-.
  - eapply acyclic_mono; [apply waits_delete|done].
  - eapply acyclic_mono; [|done]. intros a b Hab. by apply waits_remove in Hab as (_ & _ & ?).
Qed.
Lemma graph_reachable_acyclic edges : graph_reachable edges → acyclic edges.
Proof.
  intros Hr. assert (∀ e e', rtc graph_step e e' → acyclic e → acyclic e') as H.
  { intros e e'. induction 1 as [|x y z Hxy _ IH]; [done|]. intros Ha. by eapply IH, step_acyclic. }
  apply (H ∅); [done|]. intros w Hc. destruct (tc_chained _ _ _ Hc) as [[|o mid] [Hw _]]; unfold waits in Hw;
    rewrite lookup_empty in Hw; by apply elem_of_nil in Hw.
Qed.

(** C27: The wait-for graph never holds a cycle, and registration is refused
    exactly for cycles: in every graph built from nothing by registering,
    clearing and removing transactions, no transaction waits for itself over any
    number of owners; registering a waiter always terminates, is refused exactly
    when the waiter would then wait for itself, reports a cycle of that graph
    from the waiter back to itself, and leaves the waiter without owners, else
    with the given ones; no other waiter changes.  Removing a transaction removes
    it as a waiter and as an owner and nothing else. *)
Theorem wait_for_graph_exact edges w owners : graph_reachable edges →
  acyclic edges ∧
  (∃ res edges', register w owners edges = Some (res, edges') ∧
    (∀ x, x ≠ w → edges' !! x = edges !! x) ∧
    match res with
    | Ok _ => (∀ o, waits edges' w o ↔ o ∈ owners) ∧ ¬ tc (waits (<[w := owners]> edges)) w w
    | Err e => edges' !! w = None ∧ tc (waits (<[w := owners]> edges)) w w ∧
        ∃ mid, e = deadlock_error w (w :: mid ++ [w]) ∧ chained (waits (<[w := owners]> edges)) (w :: mid ++ [w])
    end) ∧
  (∀ a b, waits (remove_transaction w edges) a b ↔ a ≠ w ∧ b ≠ w ∧ waits edges a b).
Proof.
  intros Ha%graph_reachable_acyclic. split; [done|]. split; [|intros a b; apply waits_remove].
  destruct (register_ok w owners edges Ha) as (res & edges' & E & Ha' & H). exists res, edges'. split; [done|].
  destruct res as [[]|e].
  - assert (∀ x, x ≠ w → edges' !! x = edges !! x) as Hx.
    { intros x Hx. rewrite H. destruct owners; [by rewrite lookup_delete_ne|by rewrite lookup_insert_ne]. }
    assert (∀ o, waits edges' w o ↔ o ∈ owners) as Hw.
    { intros o. unfold waits. rewrite H. destruct owners; [by rewrite lookup_delete_eq|by rewrite lookup_insert_eq]. }
    split_and!; [done|done|]. intros Hc. apply (Ha' w). revert Hc. apply tc_mono. intros a b. unfold waits.
    destruct (decide (a = w)) as [->|Hne]; [rewrite lookup_insert_eq; apply Hw|by rewrite lookup_insert_ne, Hx].
  - destruct H as (-> & mid & -> & Hch). split; [intros x Hx; by rewrite lookup_delete_ne|].
    split_and!; [by rewrite lookup_delete_eq|by eapply chained_tc|by exists mid].
Qed.

(** Three transactions, the last of which would close a cycle. *)
Module GraphDemo.
Definition demo_graph : WaitForGraph := <[2 := [3]]> (<[1 := [2]]> ∅).
Lemma demo_reachable : graph_reachable demo_graph.
Proof.
  apply (rtc_l _ _ (<[1 := [2]]> ∅)); [by apply (step_register 1 [2] _ (Ok ()))|].
  apply rtc_once. by apply (step_register 2 [3] _ (Ok ())).
Qed.
Lemma wait_for_graph_exact_witness :
  acyclic demo_graph ∧
  register 3 [1] demo_graph = Some (Err (deadlock_error 3 [3; 1; 2; 3]), demo_graph).
Proof.
  destruct (wait_for_graph_exact demo_graph 3 [1] demo_reachable) as [Ha _]. split; [done|]. by vm_compute.
Defined.
End GraphDemo.
