(* ===== verification/LockManager.v ===== *)
(** The lock manager of src/api/concurrent/coordinator.rs: the lock table and
    the wait queue under one mutex, and the acquisition loop that threads of
    several transactions run over them.

    A thread holds the mutex from the start of a call, or from a wake-up, to the
    next wait or to the end of the call.  [acquire_inner] and [resume] are these
    critical sections; [step] interleaves them. *)
From stdpp Require Import relations.
From S2P Require Import Prelude Ordering Decimal RelationalValue LockModel LockTable LockQueue.

Record LockManagerState := { m_locks : LockTable; m_waiters : LockWaitQueue }.

Inductive LockAcquireError :=
  | Retryable (e : HawDBError)
  | AbortTransaction (e : HawDBError).

Definition aborts_transaction (e : LockAcquireError) : bool :=
  match e with AbortTransaction _ => true | Retryable _ => false end.

(** [sort_by]: a stable sort; [dedup]: drops a request equal to the one kept
    before it. *)
Fixpoint sort_insert (r : LockRequest) (l : list LockRequest) : list LockRequest :=
  match l with
  | [] => [r]
  | x :: t => match acquisition_cmp r x with Gt => x :: sort_insert r t | _ => r :: l end
  end.
Definition sort_requests (l : list LockRequest) : list LockRequest := foldr sort_insert [] l.

Fixpoint dedup_from (kept : LockRequest) (l : list LockRequest) : list LockRequest :=
  match l with
  | [] => []
  | x :: t => if request_eqb x kept then dedup_from kept t else x :: dedup_from x t
  end.
Definition dedup (l : list LockRequest) : list LockRequest :=
  match l with [] => [] | x :: t => x :: dedup_from x t end.

Definition lock_timeout_error : HawDBError := Execution "transaction lock wait timed out" [].
Definition lock_manager_poisoned_error : HawDBError := Execution "concurrent lock manager is poisoned" [].

Section Manager.
Context `{Lay : Layout}.

Definition with_waiters (s : LockManagerState) (q : LockWaitQueue) : LockManagerState :=
  {| m_locks := m_locks s; m_waiters := q |}.
Definition with_locks (s : LockManagerState) (t : LockTable) : LockManagerState :=
  {| m_locks := t; m_waiters := m_waiters s |}.
(** [state.waiters.remove(transaction_id)]. *)
Definition forget (txn : Z) (s : LockManagerState) : LockManagerState :=
  with_waiters s (remove (m_waiters s) txn).

Inductive round_result := Granted | Waiting | Failed (e : LockAcquireError).

(** One iteration of the loop of [acquire_inner], up to the wait; [expired] is
    whether the call's time is used up when the wait would start. *)
Definition acquire_round (txn : Z) (r : LockRequest) (expired : bool) (s : LockManagerState)
    : option (LockManagerState * round_result) :=
  match bset_extend (blockers (m_locks s) txn r) (queue_blockers (m_waiters s) txn r) with
  | [] =>
      let s := forget txn s in
      match grant (m_locks s) txn r with
      | Ok t => Some (with_locks s t, Granted)
      | Err e => Some (s, Failed (AbortTransaction e))
      end
  | _ =>
      match enqueue (m_waiters s) txn r with
      | Err e => Some (forget txn s, Failed (AbortTransaction e))
      | Ok q =>
          let s := with_waiters s q in
          match check_deadlock q txn (m_locks s) with
          | None => None
          | Some (Err e) => Some (forget txn s, Failed (AbortTransaction e))
          | Some (Ok _) =>
              if expired then Some (forget txn s, Failed (Retryable lock_timeout_error))
              else Some (s, Waiting)
          end
      end
  end.

(** How a critical section ends: the call returns, or waits for [r] with the
    requests [rest] to go. *)
Inductive section_result :=
  | Returned (res : result () LockAcquireError)
  | Parked (r : LockRequest) (rest : list LockRequest).

(** The loop over the requests. *)
Fixpoint acquire_requests (txn : Z) (rs : list LockRequest) (expired : bool) (s : LockManagerState)
    : option (LockManagerState * section_result) :=
  match rs with
  | [] => Some (s, Returned (Ok ()))
  | r :: rest =>
      if covers_all (m_locks s) txn [r] then acquire_requests txn rest expired s
      else
        let r := normalized_request (m_locks s) txn r in
        if covers_all (m_locks s) txn [r] then acquire_requests txn rest expired s
        else match acquire_round txn r expired s with
             | None => None
             | Some (s, Granted) => acquire_requests txn rest expired s
             | Some (s, Waiting) => Some (s, Parked r rest)
             | Some (s, Failed e) => Some (s, Returned (Err e))
             end
  end.

(** The call up to its first wait or its end.  The mutex is locked without
    poison: a thread that panics inside a critical section is not modelled. *)
Definition acquire_inner (txn : Z) (requests : list LockRequest) (expired : bool) (s : LockManagerState)
    : option (LockManagerState * section_result) :=
  acquire_requests txn (dedup (sort_requests requests)) expired s.

(** What [wait_timeout] returns. *)
Inductive Wake := Notified | TimedOut | Poisoned.

(** The critical section after a wait for [r]. *)
Definition resume (txn : Z) (r : LockRequest) (rest : list LockRequest) (wake : Wake) (expired : bool)
    (s : LockManagerState) : option (LockManagerState * section_result) :=
  match wake with
  | TimedOut => Some (forget txn s, Returned (Err (Retryable lock_timeout_error)))
  | Poisoned => Some (forget txn s, Returned (Err (AbortTransaction lock_manager_poisoned_error)))
  | Notified =>
      match acquire_round txn r expired s with
      | None => None
      | Some (s, Granted) => acquire_requests txn rest expired s
      | Some (s, Waiting) => Some (s, Parked r rest)
      | Some (s, Failed e) => Some (s, Returned (Err e))
      end
  end.

Definition manager_savepoint (txn : Z) (s : LockManagerState) : list LockRequest :=
  savepoint (m_locks s) txn.
Definition manager_restore (txn : Z) (saved : list LockRequest) (s : LockManagerState) : LockManagerState :=
  forget txn (with_locks s (restore_transaction (m_locks s) txn saved)).
Definition manager_release (txn : Z) (s : LockManagerState) : LockManagerState :=
  forget txn (with_locks s (release_transaction (m_locks s) txn)).
End Manager.

(** ** The invariant of the manager *)

Section Rounds.
Context `{Lay : Layout} `{!LayoutLaws Lay}.
Implicit Types (s : LockManagerState) (l : list HeldLock).

Definition waiting s : list HeldLock := requests (m_waiters s).
Definition manager_waits s : Z → Z → Prop := waits_for (m_waiters s) (m_locks s).

Record manager_ok s : Prop := {
  mk_compatible : compatible (m_locks s);
  mk_accounted : accounted (m_locks s);
  mk_limits : limits_ok (limits (m_locks s));
  mk_queue : queue_ok (m_waiters s);
  mk_acyclic : acyclic (manager_waits s);
}.

(** What the thread of [txn] may do to the shared state: keep the invariant
    and every lock already held, leave the locks and the queue places of other
    transactions alone, and pass no older conflicting request. *)
Record evolves (txn : Z) s s' : Prop := {
  ev_ok : manager_ok s';
  ev_covered u r : covered (m_locks s) u r → covered (m_locks s') u r;
  ev_other h : transaction_id h ≠ txn → h ∈ held (m_locks s') ↔ h ∈ held (m_locks s);
  ev_queue : filter (not_of txn) (waiting s') = filter (not_of txn) (waiting s);
  ev_older w : w ≠ txn → w ∈ ids (waiting s) →
    txn ∈ ids (older w (waiting s')) → txn ∈ ids (older w (waiting s));
  ev_fifo h : h ∈ held (m_locks s') → h ∈ held (m_locks s) ∨
    ∀ w r, mk_held w r ∈ waiting s → w ≠ txn → requests_conflict (request h) r = true →
           txn ∈ ids (older w (waiting s));
}.

Lemma evolves_refl txn s : manager_ok s → evolves txn s s.
Proof. intros Hs. constructor; naive_solver. Qed.

Lemma kept_waiting txn s s' w r :
  filter (not_of txn) (waiting s') = filter (not_of txn) (waiting s) → w ≠ txn →
  mk_held w r ∈ waiting s' ↔ mk_held w r ∈ waiting s.
Proof.
  intros Hf Hw. assert (not_of txn (mk_held w r) = true) as Hn by by apply not_of_spec.
  pose proof (elem_of_filter_b (not_of txn) (mk_held w r)) as He.
  pose proof (He (waiting s)) as H1. pose proof (He (waiting s')) as H2. rewrite Hf in H2. tauto.
Qed.

Lemma evolves_trans txn s1 s2 s3 :
  evolves txn s1 s2 → evolves txn s2 s3 → evolves txn s1 s3.
Proof.
  intros [Hok1 Hc1 Ho1 Hq1 Hl1 Hf1] [Hok2 Hc2 Ho2 Hq2 Hl2 Hf2].
  assert (∀ w, w ≠ txn → w ∈ ids (waiting s1) → w ∈ ids (waiting s2)) as Hids.
  { intros w Hw [r Hr]%elem_of_ids. apply elem_of_ids. exists r. by apply (kept_waiting txn s1 s2). }
  constructor; [done|by eauto| |congruence|by eauto|].
  - intros h Hh. by rewrite Ho2, Ho1.
  - intros h Hin. destruct (Hf2 h Hin) as [H2|H2]; [by apply Hf1|right].
    intros w r Hw Hne Hc. assert (mk_held w r ∈ waiting s2) as Hw2 by by apply (kept_waiting txn s1 s2).
    assert (w ∈ ids (waiting s1)) as Hid by (apply elem_of_ids; eauto). eauto.
Qed.

Lemma waiting_forget txn s : manager_ok s → waiting (forget txn s) = filter (not_of txn) (waiting s).
Proof. intros Hs. by apply requests_remove, Hs. Qed.

Lemma filter_not_of_idem txn l : filter (not_of txn) (filter (not_of txn) l) = filter (not_of txn) l.
Proof.
  induction l as [|h l IH]; [done|]. rewrite filter_b_cons. destruct (not_of txn h) eqn:E; [|done].
  rewrite filter_b_cons, E. by rewrite IH.
Qed.

Lemma not_of_ids txn l : txn ∉ ids (filter (not_of txn) l).
Proof. intros (r & [Hn%not_of_spec _]%elem_of_filter_b)%elem_of_ids. done. Qed.

Lemma older_subset w txn l : txn ∈ ids (older w l) → txn ∈ ids l.
Proof. intros (r & [Hr _]%older_incl)%elem_of_ids. apply elem_of_ids. eauto. Qed.

Lemma forget_ok txn s : manager_ok s → manager_ok (forget txn s).
Proof.
  intros [Hc Ha Hl Hq Hac]. constructor; cbn; [done..|by apply remove_ok|].
  eapply (acyclic_sink _ _ txn); [exact Hac|]. intros w b. by apply waits_for_remove.
Qed.

Lemma evolves_forget txn s : manager_ok s → evolves txn s (forget txn s).
Proof.
  intros Hs. constructor; [by apply forget_ok|done|done| | |by left].
  - by rewrite waiting_forget, filter_not_of_idem.
  - intros w _ _ Hin%older_subset. rewrite waiting_forget in Hin by done. by apply not_of_ids in Hin.
Qed.

(** Of two waiters one is older. *)
Lemma not_older_other txn w r l :
  NoDup (ids l) → mk_held w r ∈ l → w ≠ txn → mk_held w r ∉ older txn l → txn ∈ ids (older w l).
Proof.
  induction l as [|h l IH]; cbn [older]; [by intros _ ?%elem_of_nil|].
  intros [Hh Hnd]%NoDup_cons Hin Hne.
  destruct (owned_by txn h) eqn:E.
  - apply owned_by_true in E as Et. intros _.
    assert (owned_by w h = false) as -> by (apply owned_by_false; congruence). cbn. rewrite Et. by left.
  - intros [Hn1 Hn2]%not_elem_of_cons. apply elem_of_cons in Hin as [Hin|Hin]; [done|].
    destruct (owned_by w h) eqn:Ew.
    + destruct Hh. apply owned_by_true in Ew as ->. apply elem_of_ids. eauto.
    + cbn. right. by apply IH.
Qed.

(** A grant after the waiter left the queue, with nothing in its way. *)
Lemma evolves_grant txn r s t :
  manager_ok s → bset_extend (blockers (m_locks s) txn r) (queue_blockers (m_waiters s) txn r) = [] →
  grant (m_locks s) txn r = Ok t → evolves txn s (with_locks (forget txn s) t).
Proof.
  intros Hs [Hb Hqb]%bset_extend_nil Hg. pose proof (grant_granted _ _ _ _ Hg) as Hgr.
  pose proof Hs as [Hc Ha Hl Hq Hac].
  assert (manager_ok (with_locks (forget txn s) t)) as Hok.
  { constructor; cbn.
    - by eapply granted_compatible.
    - rewrite grant_cases in Hg by done. cbn zeta in Hg. repeat case_match; by simplify_eq.
    - by rewrite (gr_limits _ _ _ _ Hgr).
    - by apply remove_ok.
    - eapply (acyclic_sink _ _ txn); [exact Hac|]. intros w b. apply waits_for_remove; [done|].
      intros h Hne Hh. by apply (granted_other _ _ _ _ _ Hgr). }
  constructor; [done|..].
  - intros u q. by apply (granted_covered_mono _ _ _ _ _ _ Hgr).
  - intros h Hne. by apply (granted_other _ _ _ _ _ Hgr).
  - change (waiting (with_locks (forget txn s) t)) with (waiting (forget txn s)).
    by rewrite waiting_forget, filter_not_of_idem.
  - change (waiting (with_locks (forget txn s) t)) with (waiting (forget txn s)).
    intros w _ _ Hin%older_subset. rewrite waiting_forget in Hin by done. by apply not_of_ids in Hin.
  - intros h [?| ->]%(gr_held _ _ _ _ Hgr); [by left|right]. cbn. intros w r' Hw Hne Hconf.
    assert (mk_held w r' ∉ older txn (waiting s)) as Hno.
    { intros Hold. assert (w ∈ queue_blockers (m_waiters s) txn r) as Hin.
      { apply elem_of_queue_blockers. exists (mk_held w r'). cbn. by rewrite requests_conflict_sym. }
      rewrite Hqb in Hin. by apply elem_of_nil in Hin. }
    apply (not_older_other txn w r'); [apply Hq|done..].
Qed.

Lemma waiting_enqueue txn r s q :
  enqueue (m_waiters s) txn r = Ok q →
  filter (not_of txn) (requests q) = filter (not_of txn) (waiting s) ∧
  (∀ w, w ∈ ids (waiting s) → older w (requests q) = older w (waiting s)) ∧
  (txn ∉ ids (waiting s) ∨ mk_held txn r ∈ waiting s → mk_held txn r ∈ requests q).
Proof.
  intros [[-> (r' & Hr' & _)]|(Hn & -> & _)]%enqueue_spec; fold (waiting s) in *.
  - split_and!; [done|done|]. intros [Hn|?]; [|done]. destruct Hn. apply elem_of_ids. eauto.
  - split_and!.
    + rewrite filter_app, filter_b_cons.
      assert (not_of txn (mk_held txn r) = false) as -> by (unfold not_of; by rewrite (proj2 (owned_by_true txn (mk_held txn r)) eq_refl)).
      apply app_nil_r.
    + intros w Hw. by apply older_app.
    + intros _. apply elem_of_app. right. by apply list_elem_of_singleton.
Qed.

Lemma evolves_enqueue txn r s q :
  manager_ok s → enqueue (m_waiters s) txn r = Ok q →
  ¬ tc (waits_for q (m_locks s)) txn txn → evolves txn s (with_waiters s q).
Proof.
  intros [Hc Ha Hl Hq Hac] He Hno. destruct (waiting_enqueue _ _ _ _ He) as (Hf & Ho & _).
  constructor; [|done|done|done| |by left].
  - constructor; cbn; [done..|by eapply enqueue_ok|].
    eapply (acyclic_source _ _ txn); [exact Hac| |done]. intros w b. by eapply waits_for_enqueue.
  - intros w _ Hw. unfold waiting at 1; cbn. by rewrite Ho.
Qed.

Lemma evolves_enqueue_forget txn r s q :
  manager_ok s → enqueue (m_waiters s) txn r = Ok q → evolves txn s (forget txn (with_waiters s q)).
Proof.
  intros [Hc Ha Hl Hq Hac] He. destruct (waiting_enqueue _ _ _ _ He) as (Hf & Ho & _).
  pose proof (enqueue_ok _ _ _ _ Hq He) as Hq'.
  assert (waiting (forget txn (with_waiters s q)) = filter (not_of txn) (waiting s)) as Hw.
  { unfold waiting; cbn. by rewrite requests_remove. }
  constructor; [|done|done| | |by left].
  - constructor; cbn; [done..|by apply remove_ok|].
    eapply (acyclic_sink _ _ txn); [exact Hac|].
    intros w b [Hne Hwb]%(waits_for_remove _ (m_locks s)); [|done|done]. split; [done|].
    destruct Hwb as [Hwb|?]; [|by right]. left.
    destruct (waits_for_enqueue _ _ _ _ _ _ _ Hq He Hwb) as [?|?]; done.
  - by rewrite Hw, filter_not_of_idem.
  - intros w _ _ Hin%older_subset. rewrite Hw in Hin. by apply not_of_ids in Hin.
Qed.

(** A round returns, and its result says what became of the request. *)
Definition round_post (txn : Z) (r : LockRequest) s s' (res : round_result) : Prop :=
  match res with
  | Granted => txn ∉ ids (waiting s') ∧ covered (m_locks s') txn r
  | Waiting => (txn ∉ ids (waiting s) ∨ mk_held txn r ∈ waiting s → mk_held txn r ∈ waiting s') ∧
               all_blockers (m_waiters s) (m_locks s) txn r ≠ []
  | Failed _ => txn ∉ ids (waiting s')
  end.

Lemma forget_ids txn s : queue_ok (m_waiters s) → txn ∉ ids (waiting (forget txn s)).
Proof. intros Hq. unfold waiting; cbn. rewrite requests_remove by done. apply not_of_ids. Qed.

Lemma acquire_round_spec txn r expired s :
  manager_ok s →
  ∃ s' res, acquire_round txn r expired s = Some (s', res) ∧ evolves txn s s' ∧ round_post txn r s s' res.
Proof.
  intros Hs. unfold acquire_round. destruct (bset_extend _ _) as [|b bs] eqn:Eb.
  - change (m_locks (forget txn s)) with (m_locks s).
    assert (txn ∉ ids (waiting (forget txn s))) as Hn by (apply forget_ids, Hs).
    destruct (grant (m_locks s) txn r) as [t|e] eqn:Eg.
    + eexists _, _. split; [done|]. split; [by eapply evolves_grant|]. split; [done|].
      apply (gr_covered _ _ _ _ (grant_granted _ _ _ _ Eg)).
    + eexists _, _. split; [done|]. split; [by apply evolves_forget|done].
  - destruct (enqueue (m_waiters s) txn r) as [q|e] eqn:Ee.
    2: { eexists _, _. split; [done|]. split; [by apply evolves_forget|]. apply forget_ids, Hs. }
    assert (txn ∉ ids (waiting (forget txn (with_waiters s q)))) as Hn.
    { apply forget_ids. cbn. eapply enqueue_ok; [apply Hs|done]. }
    destruct (check_deadlock_spec q (m_locks s) txn) as (res & Hcd & Hres).
    cbn [m_locks with_waiters]. rewrite Hcd. destruct res as [[]|e].
    + destruct expired.
      * eexists _, _. split; [done|]. split; [by eapply evolves_enqueue_forget|done].
      * eexists _, _. split; [done|]. split; [by eapply evolves_enqueue|]. split.
        -- by apply (waiting_enqueue _ _ _ _ Ee).
        -- unfold all_blockers. by rewrite Eb.
    + eexists _, _. split; [done|]. split; [by eapply evolves_enqueue_forget|done].
Qed.

(** ** Critical sections *)

Definition section_post (txn : Z) (rs : list LockRequest) s' (res : section_result) : Prop :=
  match res with
  | Returned (Ok _) => txn ∉ ids (waiting s') ∧ Forall (covered (m_locks s') txn) rs
  | Returned (Err _) => txn ∉ ids (waiting s')
  | Parked r rest => mk_held txn r ∈ waiting s' ∧
      ∀ x, x ∈ rs → covered (m_locks s') txn x ∨ request_covers r x = true ∨ x ∈ rest
  end.

Lemma section_post_cons txn r rs s s' res :
  covered (m_locks s) txn r → evolves txn s s' → section_post txn rs s' res → section_post txn (r :: rs) s' res.
Proof.
  intros Hc Hev. assert (covered (m_locks s') txn r) as Hc' by by eapply ev_covered.
  destruct res as [[[]|e]|r' rest]; cbn; [intros [? ?]; split; [done|by constructor]|done|].
  intros [Hw Hx]. split; [done|]. intros x [-> | ?]%elem_of_cons; auto.
Qed.

Lemma covers_all_one t txn r : covers_all t txn [r] = true ↔ covered t txn r.
Proof. by rewrite covers_all_spec, Forall_singleton. Qed.
Lemma covered_weaken t txn r r' : request_covers r r' = true → covered t txn r → covered t txn r'.
Proof. intros Hr (h & Hh & Hid & Hc). exists h. split_and!; [done..|]. by eapply request_covers_trans. Qed.

Lemma acquire_requests_spec txn rs expired s :
  manager_ok s → txn ∉ ids (waiting s) →
  ∃ s' res, acquire_requests txn rs expired s = Some (s', res) ∧ evolves txn s s' ∧ section_post txn rs s' res.
Proof.
  revert s; induction rs as [|r rs IH]; intros s Hs Hn; cbn [acquire_requests].
  { eexists _, _. split; [done|]. split; [by apply evolves_refl|]. done. }
  assert (covered (m_locks s) txn r → ∃ s' res, acquire_requests txn rs expired s = Some (s', res) ∧
    evolves txn s s' ∧ section_post txn (r :: rs) s' res) as Hskip.
  { intros Hc. destruct (IH s Hs Hn) as (s' & res & E & Hev & Hp). exists s', res. split; [done|].
    split; [done|]. by eapply section_post_cons. }
  destruct (covers_all _ _ [r]) eqn:E1; [by apply Hskip, covers_all_one|].
  pose proof (normalized_covers (m_locks s) txn r) as Hnc. set (r' := normalized_request _ _ _) in *.
  destruct (covers_all _ _ [r']) eqn:E2.
  { apply Hskip. eapply covered_weaken; [done|]. by apply covers_all_one. }
  destruct (acquire_round_spec txn r' expired s Hs) as (s1 & res & -> & Hev & Hp).
  destruct res as [| |e]; cbn in Hp.
  - destruct Hp as [Hn1 Hc1]. destruct (IH s1 (ev_ok _ _ _ Hev) Hn1) as (s' & res & E & Hev' & Hp').
    exists s', res. split; [done|]. split; [by eapply evolves_trans|].
    eapply section_post_cons; [|done|done]. by eapply covered_weaken.
  - eexists _, _. split; [done|]. split; [done|]. split; [apply Hp; by left|].
    intros x [-> | ?]%elem_of_cons; auto.
  - eexists _, _. split; [done|]. done.
Qed.

Lemma resume_spec txn r rest wake expired s :
  manager_ok s → mk_held txn r ∈ waiting s →
  ∃ s' res, resume txn r rest wake expired s = Some (s', res) ∧ evolves txn s s' ∧ section_post txn (r :: rest) s' res.
Proof.
  intros Hs Hin. destruct wake; cbn [resume].
  2,3: eexists _, _; (split; [done|]); split; [by apply evolves_forget|apply forget_ids, Hs].
  destruct (acquire_round_spec txn r expired s Hs) as (s1 & res & -> & Hev & Hp).
  destruct res as [| |e]; cbn in Hp.
  - destruct Hp as [Hn1 Hc1].
    destruct (acquire_requests_spec txn rest expired s1 (ev_ok _ _ _ Hev) Hn1) as (s' & res & E & Hev' & Hp').
    exists s', res. split; [done|]. split; [by eapply evolves_trans|]. by eapply section_post_cons.
  - eexists _, _. split; [done|]. split; [done|]. split; [apply Hp; by right|].
    intros x [-> | ?]%elem_of_cons; [|auto]. right. left. apply request_covers_refl.
  - eexists _, _. done.
Qed.
End Rounds.

(** ** The prepared request list *)

Lemma key_eqb_le a b : key_eqb a b = true → key_le b a = true ∧ key_le a b = true.
Proof.
  rewrite key_eqb_cmp. intros E. rewrite !key_le_spec. split; [|by rewrite E].
  by rewrite (proj1 (ord_eq_sym key_cmp a b) E).
Qed.

Lemma bound_eqb_covers a b :
  bound_eqb a b = true → lower_bound_covers b a = true ∧ upper_bound_covers b a = true.
Proof. destruct a, b; cbn; try done; intros [? ?]%key_eqb_le; auto. Qed.

Lemma target_eqb_covers a b : target_eqb a b = true → target_covers b a = true.
Proof.
  destruct a, b; cbn; try done; rewrite ?andb_true_iff, ?bool_decide_eq_true, ?Z.eqb_eq; try naive_solver.
  - intros [[-> [Hl _]%bound_eqb_covers] [_ Hu]%bound_eqb_covers]. by rewrite Hl, Hu.
  - intros [[-> ->] ->]. rewrite orb_true_iff, !bool_decide_eq_true. auto.
Qed.

Lemma request_eqb_covers a b : request_eqb a b = true → request_covers b a = true.
Proof.
  unfold request_eqb, request_covers. rewrite !andb_true_iff, bool_decide_eq_true.
  intros [-> ?%target_eqb_covers]. split; [|done]. by destruct (mode b).
Qed.

Lemma sort_insert_perm r l : sort_insert r l ≡ₚ r :: l.
Proof.
  induction l as [|x l IH]; [done|]. cbn. destruct (acquisition_cmp r x); [done..|].
  rewrite IH. apply Permutation_swap.
Qed.
Lemma sort_requests_perm l : sort_requests l ≡ₚ l.
Proof. induction l as [|r l IH]; [done|]. cbn. by rewrite sort_insert_perm, IH. Qed.

Lemma dedup_from_covers kept l x :
  x ∈ l → ∃ y, y ∈ kept :: dedup_from kept l ∧ request_covers y x = true.
Proof.
  revert kept; induction l as [|a l IH]; intros kept; [by intros ?%elem_of_nil|].
  cbn [dedup_from]. intros [-> | Hx]%elem_of_cons.
  - destruct (request_eqb a kept) eqn:E.
    + exists kept. split; [by left|]. by apply request_eqb_covers.
    + exists a. split; [right; by left|apply request_covers_refl].
  - destruct (request_eqb a kept); [by apply IH|].
    destruct (IH a Hx) as (y & Hy & ?). exists y. split; [by right|done].
Qed.

(** Every request of the caller is covered by one of the prepared list. *)
Lemma prepared_covers requests x :
  x ∈ requests → ∃ y, y ∈ dedup (sort_requests requests) ∧ request_covers y x = true.
Proof.
  intros Hx. rewrite <- (sort_requests_perm requests) in Hx.
  destruct (sort_requests requests) as [|a l]; [by apply elem_of_nil in Hx|]. cbn [dedup].
  apply elem_of_cons in Hx as [-> | Hx]; [|by apply dedup_from_covers].
  exists a. split; [by left|apply request_covers_refl].
Qed.

(** ** Threads *)

(** A call of [acquire] that waits: the requests of the caller (what the call is
    for), the one it waits for and those to go. *)
Record Call := { c_requests : list LockRequest; c_request : LockRequest; c_rest : list LockRequest }.

(** The shared state, the calls that wait, and the savepoints each transaction
    can still return to, newest first. *)
Record Config := {
  cf_state : LockManagerState;
  cf_calls : gmap Z Call;
  cf_saved : gmap Z (list (list LockRequest));
}.

Section Steps.
Context `{Lay : Layout}.

Definition call_after (txn : Z) (requests : list LockRequest) (res : section_result) (calls : gmap Z Call)
    : gmap Z Call :=
  match res with
  | Parked r rest => <[txn := {| c_requests := requests; c_request := r; c_rest := rest |}]> calls
  | Returned _ => delete txn calls
  end.
Definition saved_of (c : Config) (txn : Z) : list (list LockRequest) := default [] (cf_saved c !! txn).

(** A transaction calls the manager through [&mut self]: it has one call under
    way at a time.  A savepoint is dropped when its transaction returns to an
    older one and when it ends. *)
Inductive step (c : Config) : Config → Prop :=
  | step_acquire txn requests expired s res :
      cf_calls c !! txn = None →
      acquire_inner txn requests expired (cf_state c) = Some (s, res) →
      step c {| cf_state := s; cf_calls := call_after txn requests res (cf_calls c); cf_saved := cf_saved c |}
  | step_wake txn call wake expired s res :
      cf_calls c !! txn = Some call →
      resume txn (c_request call) (c_rest call) wake expired (cf_state c) = Some (s, res) →
      step c {| cf_state := s; cf_calls := call_after txn (c_requests call) res (cf_calls c);
                cf_saved := cf_saved c |}
  | step_savepoint txn :
      cf_calls c !! txn = None →
      step c {| cf_state := cf_state c; cf_calls := cf_calls c;
                cf_saved := <[txn := manager_savepoint txn (cf_state c) :: saved_of c txn]> (cf_saved c) |}
  | step_restore txn newer saved older :
      cf_calls c !! txn = None →
      saved_of c txn = newer ++ saved :: older →
      step c {| cf_state := manager_restore txn saved (cf_state c); cf_calls := cf_calls c;
                cf_saved := <[txn := saved :: older]> (cf_saved c) |}
  | step_release txn :
      cf_calls c !! txn = None →
      step c {| cf_state := manager_release txn (cf_state c); cf_calls := cf_calls c;
                cf_saved := delete txn (cf_saved c) |}.

Definition initial_config (table_limits queue_limits : LockTableLimits) : Config :=
  {| cf_state := {| m_locks := {| held := []; estimated_bytes := 0; limits := table_limits |};
                    m_waiters := {| requests := []; q_estimated_bytes := 0; q_limits := queue_limits |} |};
     cf_calls := ∅; cf_saved := ∅ |}.

Definition reachable (tl ql : LockTableLimits) (c : Config) : Prop := rtc step (initial_config tl ql) c.
End Steps.

Section Invariant.
Context `{Lay : Layout} `{!LayoutLaws Lay}.
Implicit Types c : Config.

Definition calls_wait c : Prop := ∀ txn r,
  mk_held txn r ∈ waiting (cf_state c) ↔ ∃ call, cf_calls c !! txn = Some call ∧ c_request call = r.

(** Each request of a waiting call is held, waited for or to go. *)
Definition calls_covered c : Prop := ∀ txn call x,
  cf_calls c !! txn = Some call → x ∈ c_requests call →
  covered (m_locks (cf_state c)) txn x ∨ request_covers (c_request call) x = true ∨
  ∃ y, y ∈ c_rest call ∧ request_covers y x = true.

(** The locks of a transaction cover its newest savepoint, and each savepoint
    the next older one. *)
Fixpoint saved_chain (current : list LockRequest) (l : list (list LockRequest)) : Prop :=
  match l with
  | [] => True
  | s :: l => covers_requests current s ∧ saved_chain s l
  end.

Record config_ok c : Prop := {
  co_manager : manager_ok (cf_state c);
  co_wait : calls_wait c;
  co_covered : calls_covered c;
  co_saved txn : saved_chain (manager_savepoint txn (cf_state c)) (saved_of c txn);
}.

Lemma saved_chain_mono a b l : covers_requests a b → saved_chain b l → saved_chain a l.
Proof. destruct l; [done|]. cbn. intros ? [? ?]. split; [by eapply covers_requests_trans|done]. Qed.

Lemma saved_chain_app a newer saved older :
  saved_chain a (newer ++ saved :: older) → covers_requests a saved ∧ saved_chain saved older.
Proof.
  revert a; induction newer as [|s newer IH]; intros a; cbn; [done|].
  intros [Ha [Hs Hc]%IH]. split; [by eapply covers_requests_trans|done].
Qed.

Lemma savepoint_mono t t' txn :
  (∀ r, covered t txn r → covered t' txn r) → covers_requests (savepoint t' txn) (savepoint t txn).
Proof.
  intros Hc r Hr%elem_of_savepoint. destruct (Hc r) as (h & Hh & <- & ?).
  { exists (mk_held txn r). split_and!; [done..|]. apply request_covers_refl. }
  exists (request h). split; [|done]. apply elem_of_savepoint. by destruct h.
Qed.

Lemma waiting_unique s txn r r' :
  manager_ok s → mk_held txn r ∈ waiting s → mk_held txn r' ∈ waiting s → r = r'.
Proof.
  intros Hs H1 H2. apply pending_lookup in H1, H2; [|apply Hs..]. congruence.
Qed.

Lemma not_waiting c txn : calls_wait c → cf_calls c !! txn = None → txn ∉ ids (waiting (cf_state c)).
Proof. intros Hw Hn (r & (call & ? & _)%Hw)%elem_of_ids. congruence. Qed.

(** A critical section of [txn] keeps the invariant of the configuration. *)
Lemma section_config c txn requests rs s res :
  config_ok c → evolves txn (cf_state c) s → section_post txn rs s res →
  (∀ x, x ∈ requests → covered (m_locks (cf_state c)) txn x ∨ ∃ y, y ∈ rs ∧ request_covers y x = true) →
  config_ok {| cf_state := s; cf_calls := call_after txn requests res (cf_calls c); cf_saved := cf_saved c |} ∧
  (res = Returned (Ok ()) → Forall (covered (m_locks s) txn) requests).
Proof.
  intros [Hm Hw Hc Hsv] Hev Hp Hreq. pose proof (ev_ok _ _ _ Hev) as Hm'.
  assert (∀ u, u ≠ txn → call_after txn requests res (cf_calls c) !! u = cf_calls c !! u) as Hne.
  { intros u Hu. destruct res; cbn; [by rewrite lookup_delete_ne|by rewrite lookup_insert_ne]. }
  split; [constructor; cbn [cf_state cf_calls]|].
  - done.
  - intros u r. cbn [cf_state cf_calls]. destruct (decide (u = txn)) as [->|Hu].
    2: { rewrite Hne by done. rewrite (kept_waiting txn (cf_state c)) by (done || apply Hev). apply Hw. }
    destruct res as [[[]|e]|r0 rest]; cbn in Hp |- *.
    1,2: rewrite lookup_delete_eq; split; [|naive_solver]; intros Hr; exfalso;
      (destruct Hp as [Hp _] || idtac); apply Hp, elem_of_ids; eauto.
    rewrite lookup_insert_eq. destruct Hp as [Hin _]. split.
    + intros Hr. eexists. split; [done|]. cbn. by eapply waiting_unique.
    + by intros (call & [= <-] & <-).
  - intros u call x. cbn [cf_state cf_calls]. destruct (decide (u = txn)) as [->|Hu].
    2: { rewrite Hne by done. intros Hu' Hx. destruct (Hc _ _ _ Hu' Hx) as [?|?]; [left|by right].
         by eapply ev_covered. }
    destruct res as [res'|r0 rest]; cbn in Hp |- *; [by rewrite lookup_delete_eq|].
    rewrite lookup_insert_eq. intros [= <-] Hx. cbn in Hx |- *. destruct Hp as [_ Hp].
    destruct (Hreq x Hx) as [?|(y & Hy & Hyx)]; [left; by eapply ev_covered|].
    destruct (Hp y Hy) as [?|[?|?]]; [left; by eapply covered_weaken| |eauto].
    right. left. by eapply request_covers_trans.
  - intros u. eapply saved_chain_mono; [|apply Hsv]. apply savepoint_mono. intros r. by eapply ev_covered.
  - intros ->. cbn in Hp. destruct Hp as [_ Hp]. rewrite Forall_forall in *. intros x Hx.
    destruct (Hreq x Hx) as [?|(y & Hy & Hyx)]; [by eapply ev_covered|].
    eapply covered_weaken; [done|]. by apply Hp.
Qed.

Lemma acquire_config c txn requests expired :
  config_ok c → cf_calls c !! txn = None →
  ∃ s res, acquire_inner txn requests expired (cf_state c) = Some (s, res) ∧ evolves txn (cf_state c) s ∧
    config_ok {| cf_state := s; cf_calls := call_after txn requests res (cf_calls c); cf_saved := cf_saved c |} ∧
    (res = Returned (Ok ()) → Forall (covered (m_locks s) txn) requests).
Proof.
  intros Hc Hn. destruct (acquire_requests_spec txn (dedup (sort_requests requests)) expired (cf_state c))
    as (s & res & E & Hev & Hp); [apply Hc|apply not_waiting; [apply Hc|done]|].
  exists s, res. split; [done|]. split; [done|]. eapply section_config; [done..|].
  intros x Hx. right. by apply prepared_covers.
Qed.

Lemma wake_config c txn call wake expired :
  config_ok c → cf_calls c !! txn = Some call →
  ∃ s res, resume txn (c_request call) (c_rest call) wake expired (cf_state c) = Some (s, res) ∧
    evolves txn (cf_state c) s ∧
    config_ok {| cf_state := s; cf_calls := call_after txn (c_requests call) res (cf_calls c);
                 cf_saved := cf_saved c |} ∧
    (res = Returned (Ok ()) → Forall (covered (m_locks s) txn) (c_requests call)).
Proof.
  intros Hc Hcall. destruct (resume_spec txn (c_request call) (c_rest call) wake expired (cf_state c))
    as (s & res & E & Hev & Hp); [apply Hc|apply (co_wait _ Hc); eauto|].
  exists s, res. split; [done|]. split; [done|]. eapply section_config; [done..|].
  intros x Hx. destruct (co_covered _ Hc _ _ _ Hcall Hx) as [?|[?|(y & ? & ?)]]; [by left|right..].
  - exists (c_request call). split; [by left|done].
  - exists y. split; [by right|done].
Qed.

(** ** Release and restore *)

Lemma not_waiting_remove c txn :
  config_ok c → cf_calls c !! txn = None → waiting (forget txn (cf_state c)) = waiting (cf_state c).
Proof.
  intros Hc Hn. rewrite waiting_forget by apply Hc. apply filter_not_of_id, not_waiting; [apply Hc|done].
Qed.

(** Replacing the locks of a transaction that does not wait. *)
Lemma replace_config c txn t sv :
  config_ok c → cf_calls c !! txn = None →
  compatible t → accounted t → limits t = limits (m_locks (cf_state c)) →
  (∀ h, transaction_id h ≠ txn → h ∈ held t ↔ h ∈ held (m_locks (cf_state c))) →
  saved_chain (savepoint t txn) (default [] (sv !! txn)) →
  (∀ u, u ≠ txn → sv !! u = cf_saved c !! u) →
  config_ok {| cf_state := forget txn (with_locks (cf_state c) t); cf_calls := cf_calls c; cf_saved := sv |}.
Proof.
  intros Hc Hn Hcomp Hacc Hlim Hoth Hsv Hne. pose proof (not_waiting_remove c txn Hc Hn) as Hrem.
  destruct Hc as [[_ _ Hl Hq Hac] Hw Hcov Hsaved].
  assert (∀ u r, u ≠ txn → covered (m_locks (cf_state c)) u r → covered t u r) as Hmono.
  { intros u r Hu (h & Hh & <- & ?). exists h. split_and!; [|done..]. by apply Hoth. }
  constructor.
  - constructor; cbn; [done|done|by rewrite Hlim|by apply remove_ok|].
    eapply (acyclic_sink _ _ txn); [exact Hac|]. intros w b. apply waits_for_remove; [done|].
    intros h Hh. apply Hoth. done.
  - intros u r. change (waiting _) with (waiting (forget txn (cf_state c))). rewrite Hrem. apply Hw.
  - intros u call x Hu Hx. cbn in *. destruct (Hcov _ _ _ Hu Hx) as [?|?]; [left|by right].
    apply Hmono; [|done]. congruence.
  - intros u. unfold saved_of, manager_savepoint. cbn. destruct (decide (u = txn)) as [->|Hu]; [done|].
    rewrite Hne by done. eapply saved_chain_mono; [|apply Hsaved]. apply savepoint_mono. auto.
Qed.

Lemma release_config c txn :
  config_ok c → cf_calls c !! txn = None →
  config_ok {| cf_state := manager_release txn (cf_state c); cf_calls := cf_calls c;
               cf_saved := delete txn (cf_saved c) |}.
Proof.
  intros Hc Hn. apply replace_config; [done..| |done|done| |by rewrite lookup_delete_eq|].
  - intros h1 h2 [H1 _]%held_release [H2 _]%held_release. by apply (mk_compatible _ (co_manager _ Hc)).
  - intros h Hh. rewrite held_release. tauto.
  - intros u Hu. by rewrite lookup_delete_ne.
Qed.

Lemma restore_config c txn newer saved older :
  config_ok c → cf_calls c !! txn = None → saved_of c txn = newer ++ saved :: older →
  config_ok {| cf_state := manager_restore txn saved (cf_state c); cf_calls := cf_calls c;
               cf_saved := <[txn := saved :: older]> (cf_saved c) |}.
Proof.
  intros Hc Hn Hs. pose proof (co_saved _ Hc txn) as Hch. rewrite Hs in Hch.
  apply saved_chain_app in Hch as [Hcov Hch].
  apply replace_config; [done..| |done|done| | |].
  - apply restore_compatible; [apply Hc|done].
  - intros h Hh. rewrite held_restore. tauto.
  - rewrite lookup_insert_eq. cbn [default saved_chain]. split; [|done]. intros r Hr. exists r.
    split; [|apply request_covers_refl]. apply elem_of_savepoint, held_restore. by right.
  - intros u Hu. by rewrite lookup_insert_ne.
Qed.

Lemma savepoint_config c txn :
  config_ok c →
  config_ok {| cf_state := cf_state c; cf_calls := cf_calls c;
               cf_saved := <[txn := manager_savepoint txn (cf_state c) :: saved_of c txn]> (cf_saved c) |}.
Proof.
  intros [Hm Hw Hcov Hs]. constructor; [done..|]. intros u. unfold saved_of; cbn.
  destruct (decide (u = txn)) as [->|Hu]; [|rewrite lookup_insert_ne by done; apply Hs].
  rewrite lookup_insert_eq. cbn. split; [apply covers_requests_refl|apply Hs].
Qed.

Lemma step_config c c' : config_ok c → step c c' → config_ok c'.
Proof.
  intros Hc. destruct 1 as [txn rs expired s res Hn E|txn call wake expired s res Hcall E| | |].
  - destruct (acquire_config c txn rs expired Hc Hn) as (s' & res' & E' & _ & Hok & _).
    rewrite E in E'. by injection E' as <- <-.
  - destruct (wake_config c txn call wake expired Hc Hcall) as (s' & res' & E' & _ & Hok & _).
    rewrite E in E'. by injection E' as <- <-.
  - by apply savepoint_config.
  - by eapply restore_config.
  - by apply release_config.
Qed.

Lemma initial_ok tl ql : limits_ok tl → limits_ok ql → config_ok (initial_config tl ql).
Proof.
  intros Ht Hq. constructor.
  - constructor; cbn; [by intros ? ? ?%elem_of_nil|done|done| |].
    + constructor; cbn; [apply NoDup_nil_2|done|done|done].
    + intros x Hx. assert (∀ y, ¬ manager_waits (cf_state (initial_config tl ql)) x y) as Hno.
      { intros y (r & Hr & _). unfold pending_map in Hr. cbn in Hr. by rewrite lookup_empty in Hr. }
      inversion Hx as [? ? Hs|? ? ? Hs]; by apply Hno in Hs.
  - intros txn r. cbn. rewrite elem_of_nil, lookup_empty. naive_solver.
  - intros txn call x. cbn. by rewrite lookup_empty.
  - intros txn. unfold saved_of; cbn. by rewrite lookup_empty.
Qed.

Lemma reachable_ok tl ql c : limits_ok tl → limits_ok ql → reachable tl ql c → config_ok c.
Proof.
  intros Ht Hq. revert c. apply (rtc_ind_r (λ c, config_ok c)); [by apply initial_ok|].
  intros c c' _ Hs Hc. by eapply step_config.
Qed.
End Invariant.

(** ** Properties of reachable configurations *)

Section Claims.
Context `{Lay : Layout} `{!LayoutLaws Lay} (tl ql : LockTableLimits).
Implicit Types c : Config.

(** The transactions whose call waits, as the wait queue has them. *)
Lemma waiting_calls c txn :
  config_ok c → txn ∈ ids (waiting (cf_state c)) ↔ is_Some (cf_calls c !! txn).
Proof.
  intros Hc. rewrite elem_of_ids. split.
  - intros (r & (call & Hcall & _)%(co_wait _ Hc)). by eexists.
  - intros [call Hcall]. exists (c_request call). apply (co_wait _ Hc). eauto.
Qed.

Definition call_blockers c (txn : Z) (call : Call) : list Z :=
  all_blockers (m_waiters (cf_state c)) (m_locks (cf_state c)) txn (c_request call).

Lemma blocked_waits c txn call b :
  config_ok c → cf_calls c !! txn = Some call → b ∈ call_blockers c txn call →
  manager_waits (cf_state c) txn b.
Proof.
  intros Hc Hcall Hb. exists (c_request call). split; [|done].
  apply pending_lookup; [apply Hc|]. apply (co_wait _ Hc). eauto.
Qed.

(** Following blockers from a waiting call ends in one no waiter blocks. *)
Lemma find_unblocked c txn call :
  config_ok c → cf_calls c !! txn = Some call →
  ∃ u call', cf_calls c !! u = Some call' ∧ Forall (λ b, cf_calls c !! b = None) (call_blockers c u call').
Proof.
  intros Hc Hcall. set (R := λ x y, manager_waits (cf_state c) x y ∧ y ∈ ids (waiting (cf_state c))).
  assert (∀ x y, tc R x y → tc (manager_waits (cf_state c)) x y ∧ y ∈ ids (waiting (cf_state c))) as Htc.
  { induction 1 as [x y [? ?]|x y z [? _] _ [? ?]]; (split; [|done]); [by apply tc_once|by eapply tc_l]. }
  assert (sn R txn) as Hsn.
  { apply tc_finite_sn.
    - intros x [Hx _]%Htc. by apply (mk_acyclic _ (co_manager _ Hc) x).
    - exists (ids (waiting (cf_state c))). intros y Hy. by apply Htc in Hy as [_ ?]. }
  revert call Hcall. induction Hsn as [u _ IH]. intros call Hcall.
  destruct (decide (Forall (λ b, cf_calls c !! b = None) (call_blockers c u call))) as [?|Hnf]; [by eauto|].
  apply not_Forall_Exists, Exists_exists in Hnf as (b & Hb & Hnone); [|apply _].
  apply not_eq_None_Some in Hnone as [call' Hcall']. apply (IH b) with call'; [|done].
  split; [by eapply blocked_waits|]. apply waiting_calls; [done|]. by eexists.
Qed.

(** C1: mutual exclusion.  In every state that interleaved acquisitions,
    wake-ups, time-outs, savepoints, partial rollbacks and releases reach, no two
    transactions hold conflicting locks, the byte estimates equal the sums over
    the held and the waiting locks, and no transaction waits twice. *)
Theorem lock_manager_exclusion c :
  limits_ok tl → limits_ok ql → reachable tl ql c →
  compatible (m_locks (cf_state c)) ∧ accounted (m_locks (cf_state c)) ∧
  q_estimated_bytes (m_waiters (cf_state c)) = locks_bytes (waiting (cf_state c)) ∧
  NoDup (ids (waiting (cf_state c))) ∧
  ∀ txn, txn ∈ ids (waiting (cf_state c)) ↔ is_Some (cf_calls c !! txn).
Proof.
  intros Ht Hq Hr. pose proof (reachable_ok _ _ _ Ht Hq Hr) as Hc.
  pose proof Hc as [[Hcomp Hacc _ [Hnd Hb _ _] _] _ _ _].
  split_and!; [done..|]. intros txn. by apply waiting_calls.
Qed.

(** C4: no deadlock.  The waits-for relation of a reachable state has no
    cycle; so as long as a call waits, some waiting call is blocked by running
    transactions only, and when every lock holder waits that call does not wait
    on when woken. *)
Theorem lock_manager_deadlock_free c txn call :
  limits_ok tl → limits_ok ql → reachable tl ql c → cf_calls c !! txn = Some call →
  (∀ x, ¬ tc (manager_waits (cf_state c)) x x) ∧
  ∃ u call', cf_calls c !! u = Some call' ∧
    Forall (λ b, cf_calls c !! b = None) (call_blockers c u call') ∧
    ((∀ h, h ∈ held (m_locks (cf_state c)) → is_Some (cf_calls c !! transaction_id h)) →
     ∃ s res, acquire_round u (c_request call') false (cf_state c) = Some (s, res) ∧ res ≠ Waiting).
Proof.
  intros Ht Hq Hr Hcall. pose proof (reachable_ok _ _ _ Ht Hq Hr) as Hc. split; [apply Hc|].
  destruct (find_unblocked c txn call Hc Hcall) as (u & call' & Hu & Hf). exists u, call'.
  split_and!; [done..|]. intros Hheld.
  destruct (acquire_round_spec u (c_request call') false (cf_state c) (co_manager _ Hc)) as (s & res & E & _ & Hp).
  exists s, res. split; [done|]. intros ->. destruct Hp as [_ Hp]. apply Hp.
  fold (call_blockers c u call'). destruct (call_blockers c u call') as [|b bs] eqn:Eb; [done|exfalso].
  assert (b ∈ call_blockers c u call') as Hin by (rewrite Eb; by left).
  apply Forall_inv in Hf. unfold call_blockers in Hin. apply elem_of_all_blockers in Hin as [Hin|Hin].
  - apply elem_of_blockers in Hin as (h & Hh%Hheld & <- & _). by rewrite Hf in Hh; apply is_Some_None in Hh.
  - apply elem_of_queue_blockers in Hin as (h & [Hh _]%older_incl & <- & _).
    assert (is_Some (cf_calls c !! transaction_id h)) as Hs.
    { apply waiting_calls; [done|]. apply list_elem_of_fmap. eauto. }
    by rewrite Hf in Hs; apply is_Some_None in Hs.
Qed.

(** C25: acquisition.  From a reachable state a call of [acquire], and the
    continuation of a waiting one, returns or waits (its deadlock check always
    terminates); when it reports success, the transaction holds locks that cover
    every request of the caller, including those granted before the waits. *)
Theorem lock_acquire_covers c txn :
  limits_ok tl → limits_ok ql → reachable tl ql c →
  match cf_calls c !! txn with
  | None => ∀ requests expired, ∃ s res,
      acquire_inner txn requests expired (cf_state c) = Some (s, res) ∧
      (res = Returned (Ok ()) → covers_all (m_locks s) txn requests = true)
  | Some call => ∀ wake expired, ∃ s res,
      resume txn (c_request call) (c_rest call) wake expired (cf_state c) = Some (s, res) ∧
      (res = Returned (Ok ()) → covers_all (m_locks s) txn (c_requests call) = true)
  end.
Proof.
  intros Ht Hq Hr. pose proof (reachable_ok _ _ _ Ht Hq Hr) as Hc.
  destruct (cf_calls c !! txn) as [call|] eqn:E.
  - intros wake expired. destruct (wake_config c txn call wake expired Hc E) as (s & res & ? & _ & _ & Hok).
    exists s, res. split; [done|]. intros ?. by apply covers_all_spec, Hok.
  - intros requests expired. destruct (acquire_config c txn requests expired Hc E) as (s & res & ? & _ & _ & Hok).
    exists s, res. split; [done|]. intros ?. by apply covers_all_spec, Hok.
Qed.

(** C33: first come, first served.  A critical section of one transaction gives
    it no lock that conflicts with the request of another waiting transaction,
    unless it waited before that one; it takes no lock from anyone and leaves the
    other waiters in their order. *)
Theorem lock_no_overtaking c txn s res h w r :
  limits_ok tl → limits_ok ql → reachable tl ql c →
  (match cf_calls c !! txn with
   | None => ∃ requests expired, acquire_inner txn requests expired (cf_state c) = Some (s, res)
   | Some call => ∃ wake expired, resume txn (c_request call) (c_rest call) wake expired (cf_state c) = Some (s, res)
   end) →
  (mk_held w r ∈ waiting (cf_state c) → w ≠ txn → h ∈ held (m_locks s) →
   requests_conflict (request h) r = true →
   h ∈ held (m_locks (cf_state c)) ∨ txn ∈ ids (older w (waiting (cf_state c)))) ∧
  (∀ u q, covered (m_locks (cf_state c)) u q → covered (m_locks s) u q) ∧
  filter (not_of txn) (waiting s) = filter (not_of txn) (waiting (cf_state c)).
Proof.
  intros Ht Hq Hr Hrun. pose proof (reachable_ok _ _ _ Ht Hq Hr) as Hc.
  assert (evolves txn (cf_state c) s) as [_ Hcov _ Hqueue _ Hf].
  { destruct (cf_calls c !! txn) as [call|] eqn:E.
    - destruct Hrun as (wake & expired & E').
      destruct (wake_config c txn call wake expired Hc E) as (? & ? & E2 & Hev & _).
      rewrite E' in E2. by injection E2 as <- <-.
    - destruct Hrun as (requests & expired & E').
      destruct (acquire_config c txn requests expired Hc E) as (? & ? & E2 & Hev & _).
      rewrite E' in E2. by injection E2 as <- <-. }
  split_and!; [|done..]. intros Hw Hne Hh Hconf. destruct (Hf h Hh) as [?|Hold]; [by left|right]. eauto.
Qed.
End Claims.

(** ** Witnesses: transaction 1 holds a row, transaction 2 waits for it *)

Module ManagerDemo.
Import TableDemo.
Definition start : Config := initial_config LockTableLimits_default LockTableLimits_default.
Definition acquire_next (txn : Z) (requests : list LockRequest) (c : Config) : Config :=
  match acquire_inner txn requests false (cf_state c) with
  | Some (s, res) => {| cf_state := s; cf_calls := call_after txn requests res (cf_calls c); cf_saved := cf_saved c |}
  | None => c
  end.
Definition owner : Config := acquire_next 1 [row 5] start.
Definition contended : Config := acquire_next 2 [row 5] owner.

Lemma limits_demo : limits_ok LockTableLimits_default.
Proof. by vm_compute. Qed.
Lemma owner_reachable : reachable LockTableLimits_default LockTableLimits_default owner.
Proof. apply rtc_once. unfold owner, acquire_next. eapply (step_acquire start 1 [row 5] false); by vm_compute. Qed.
Lemma contended_reachable : reachable LockTableLimits_default LockTableLimits_default contended.
Proof.
  eapply rtc_r; [apply owner_reachable|]. unfold contended, acquire_next.
  eapply (step_acquire owner 2 [row 5] false); by vm_compute.
Qed.

Lemma lock_manager_exclusion_witness : compatible (m_locks (cf_state contended)).
Proof.
  destruct (lock_manager_exclusion _ _ contended limits_demo limits_demo contended_reachable) as [H _].
  exact H.
Defined.

Lemma lock_manager_deadlock_free_witness :
  ∃ call, cf_calls contended !! 2 = Some call ∧ ¬ tc (manager_waits (cf_state contended)) 2 2.
Proof.
  eexists. split; [by vm_compute|].
  apply (lock_manager_deadlock_free _ _ contended 2 {| c_requests := [row 5]; c_request := row 5; c_rest := [] |}
           limits_demo limits_demo contended_reachable). by vm_compute.
Defined.

Lemma lock_acquire_covers_witness :
  ∃ s res, resume 2 (row 5) [] Notified false (cf_state contended) = Some (s, res) ∧
    (res = Returned (Ok ()) → covers_all (m_locks s) 2 [row 5] = true).
Proof.
  pose proof (lock_acquire_covers _ _ contended 2 limits_demo limits_demo contended_reachable) as H.
  destruct (cf_calls contended !! 2) as [call|] eqn:E; [|by vm_compute in E].
  assert (call = {| c_requests := [row 5]; c_request := row 5; c_rest := [] |}) as ->
    by (vm_compute in E; injection E as <-; reflexivity).
  exact (H Notified false).
Defined.

(** A third transaction takes another row while 2 waits. *)
Lemma lock_no_overtaking_witness :
  ∃ s res, acquire_inner 3 [row 6] false (cf_state contended) = Some (s, res) ∧
    filter (not_of 3) (waiting s) = filter (not_of 3) (waiting (cf_state contended)).
Proof.
  destruct (acquire_inner 3 [row 6] false (cf_state contended)) as [[s res]|] eqn:E; [|by vm_compute in E].
  exists s, res. split; [done|].
  apply (lock_no_overtaking _ _ contended 3 s res (mk_held 3 (row 6)) 2 (row 5)
           limits_demo limits_demo contended_reachable).
  assert (cf_calls contended !! 3 = None) as -> by by vm_compute. by exists [row 6], false.
Defined.
End ManagerDemo.
