(* ===== verification/Values.v ===== *)
(** Graph property values and the fixed-width parts of their encodings:
    crates/core/src/value.rs, crates/core/src/vector.rs (the stored form of a
    vector) and crates/core/src/temporal/codec.rs (temporal payloads).

    Dates, times, offsets and time deltas are those of the chrono crate, which
    is not part of the repository: [Chrono] names the functions the codec calls
    and [ChronoLaws] what their documentation says of them. *)
From Stdlib Require Import Sorted.
From S2P Require Import Prelude Ordering Decimal.

Class Chrono := {
  NaiveDate : Type;
  num_days_from_ce : NaiveDate → Z;
  from_num_days_from_ce_opt : Z → option NaiveDate;
  NaiveTime : Type;
  num_seconds_from_midnight : NaiveTime → Z;
  nanosecond : NaiveTime → Z;
  from_num_seconds_from_midnight_opt : Z → Z → option NaiveTime;
  FixedOffset : Type;
  local_minus_utc : FixedOffset → Z;
  east_opt : Z → option FixedOffset;
  checked_add_offset : NaiveDate * NaiveTime → FixedOffset → option (NaiveDate * NaiveTime);
  TimeDelta : Type;
  num_seconds : TimeDelta → Z;
  subsec_nanos : TimeDelta → Z;
  TimeDelta_new : Z → Z → option TimeDelta;
}.

(** [delta_nanos] (crates/core/src/temporal.rs). *)
Definition NANOS_PER_SECOND : Z := 1000000000.
Definition delta_nanos `{Chrono} (d : TimeDelta) : Z := num_seconds d * NANOS_PER_SECOND + subsec_nanos d.

(** Each value is what its own numbers construct; a day number is an [i32], an
    offset is within a day, a time of day is within a day (the nanoseconds of a
    leap second run to 1_999_999_999), and whole seconds of a delta fit [i64]. *)
Class ChronoLaws (C : Chrono) : Prop := {
  chrono_date d : from_num_days_from_ce_opt (num_days_from_ce d) = Some d;
  chrono_date_range d : - 2 ^ 31 ≤ num_days_from_ce d < 2 ^ 31;
  chrono_time t : from_num_seconds_from_midnight_opt (num_seconds_from_midnight t) (nanosecond t) = Some t;
  chrono_time_range t : 0 ≤ num_seconds_from_midnight t < 86400 ∧ 0 ≤ nanosecond t < 2 * NANOS_PER_SECOND;
  chrono_offset o : east_opt (local_minus_utc o) = Some o;
  chrono_offset_range o : - 86400 < local_minus_utc o < 86400;
  chrono_delta d : TimeDelta_new (delta_nanos d / NANOS_PER_SECOND) (delta_nanos d mod NANOS_PER_SECOND) = Some d;
  chrono_delta_range d : is_i64 (delta_nanos d / NANOS_PER_SECOND);
}.

(** ** Signed little-endian integers *)

Definition signed_le_bytes (n : nat) (z : Z) : bytes := le_bytes n (z mod 256 ^ Z.of_nat n).
Definition signed_le_val (bs : bytes) : Z :=
  let w := le_val bs in
  if w <? 256 ^ zlen bs / 2 then w else w - 256 ^ zlen bs.

Lemma zlen_signed_le n z : zlen (signed_le_bytes n z) = Z.of_nat n.
Proof. apply zlen_le_bytes. Qed.

Lemma signed_le_roundtrip n z :
  (0 < n)%nat → - (256 ^ Z.of_nat n / 2) ≤ z < 256 ^ Z.of_nat n / 2 → signed_le_val (signed_le_bytes n z) = z.
Proof.
  intros Hn Hz. unfold signed_le_val. rewrite zlen_signed_le. unfold signed_le_bytes. rewrite le_val_bytes.
  set (m := 256 ^ Z.of_nat n) in *. assert (∃ k, m = 2 * k ∧ 0 < k) as (k & Hm & Hk).
  { destruct n as [|n]; [lia|]. exists (128 * 256 ^ Z.of_nat n). unfold m.
    rewrite Nat2Z.inj_succ, Z.pow_succ_r by lia. pose proof (Z.pow_pos_nonneg 256 (Z.of_nat n)). lia. }
  rewrite Z.mod_mod by lia. assert (m / 2 = k) as Hh by (rewrite Hm, Z.mul_comm; apply Z.div_mul; lia).
  rewrite Hh in *. destruct (Z.lt_ge_cases z 0).
  - assert (z mod m = z + m) as -> by (symmetry; apply (Z.mod_unique _ _ (-1)); lia). case_bool; lia.
  - rewrite Z.mod_small by lia. case_bool; lia.
Qed.

(** ** Values *)

Record Duration `{Chrono} := { d_months : Z; d_days : Z; d_time : TimeDelta }.
Definition seconds `{Chrono} (d : Duration) : Z := delta_nanos (d_time d) / NANOS_PER_SECOND.
Definition nanos_of_second `{Chrono} (d : Duration) : Z := delta_nanos (d_time d) mod NANOS_PER_SECOND.

(** A float is its bit pattern; a vector is its stored bytes; a map is the
    association list of the [BTreeMap], in key order; a zoned date-time is its
    UTC date and time with the offset. *)
Inductive Value `{Chrono} : Type :=
  | VNull
  | VBool (b : bool)
  | VInt (z : Z)
  | VFloat (bits : Z)
  | VDecimal (d : Decimal)
  | VString (s : bytes)
  | VBinary (b : bytes)
  | VVector (encoded : bytes)
  | VUuid (u : bytes)
  | VList (l : list Value)
  | VMap (m : list (bytes * Value))
  | VDate (d : NaiveDate)
  | VLocalTime (t : NaiveTime)
  | VLocalDateTime (d : NaiveDate) (t : NaiveTime)
  | VDateTime (d : NaiveDate) (t : NaiveTime) (o : FixedOffset)
  | VDuration (d : Duration).

Section ValueInd.
Context `{C : Chrono} (P : Value → Prop).
Context (Pscalar : ∀ v, (∀ l, v ≠ VList l) → (∀ m, v ≠ VMap m) → P v).
Context (Plist : ∀ l, Forall P l → P (VList l)).
Context (Pmap : ∀ m, Forall (λ kv, P kv.2) m → P (VMap m)).

Fixpoint Value_ind' (v : Value) : P v.
Proof.
  refine (match v as v' return P v' with
          | VList l => Plist l ((fix go l := match l return Forall P l with
                                 | [] => Forall_nil_2 _
                                 | x :: l => Forall_cons_2 _ _ _ (Value_ind' x) (go l) end) l)
          | VMap m => Pmap m ((fix go m := match m return Forall (λ kv, P kv.2) m with
                               | [] => Forall_nil_2 _
                               | kv :: m => Forall_cons_2 (λ kv, P kv.2) kv m (Value_ind' kv.2) (go m) end) m)
          | v' => Pscalar v' _ _
          end); by intros.
Defined.
End ValueInd.

(** ** Temporal payloads: temporal/codec.rs *)

Inductive TemporalValueKind := KDate | KLocalTime | KLocalDateTime | KDateTime | KDuration.

Definition TemporalValueKind_ALL : list TemporalValueKind :=
  [KDate; KLocalTime; KLocalDateTime; KDateTime; KDuration].

Definition payload_len (k : TemporalValueKind) : Z :=
  match k with KDate => 4 | KLocalTime => 8 | KLocalDateTime => 12 | KDateTime => 16 | KDuration => 28 end.

Inductive TemporalError := TemporalCorrupt (kind : TemporalValueKind) (detail : string) (args : list Z).

Section Temporal.
Context `{C : Chrono}.

Definition TemporalValueKind_of (v : Value) : option TemporalValueKind :=
  match v with
  | VDate _ => Some KDate
  | VLocalTime _ => Some KLocalTime
  | VLocalDateTime _ _ => Some KLocalDateTime
  | VDateTime _ _ _ => Some KDateTime
  | VDuration _ => Some KDuration
  | _ => None
  end.

Definition time_nanos (t : NaiveTime) : Z := num_seconds_from_midnight t * 1000000000 + nanosecond t.
Definition write_date (d : NaiveDate) : bytes := signed_le_bytes 4 (num_days_from_ce d).
Definition write_time (t : NaiveTime) : bytes := le_bytes 8 (time_nanos t).

Definition encode_payload (v : Value) : option (TemporalValueKind * bytes) :=
  match v with
  | VDate d => Some (KDate, write_date d)
  | VLocalTime t => Some (KLocalTime, write_time t)
  | VLocalDateTime d t => Some (KLocalDateTime, write_date d ++ write_time t)
  | VDateTime d t o => Some (KDateTime, write_date d ++ write_time t ++ signed_le_bytes 4 (local_minus_utc o))
  | VDuration d =>
      Some (KDuration, signed_le_bytes 8 (d_months d) ++ signed_le_bytes 8 (d_days d) ++
                       signed_le_bytes 8 (seconds d) ++ le_bytes 4 (nanos_of_second d))
  | _ => None
  end.

Definition read_date (k : TemporalValueKind) (bs : bytes) (at_ : Z) : result NaiveDate TemporalError :=
  ok_or (from_num_days_from_ce_opt (signed_le_val (zslice bs at_ (at_ + 4))))
        (TemporalCorrupt k "day number is out of range" []).

Definition read_time (k : TemporalValueKind) (bs : bytes) (at_ : Z) : result NaiveTime TemporalError :=
  let nanos := le_val (zslice bs at_ (at_ + 8)) in
  if 86400 * 1000000000 <=? nanos then Err (TemporalCorrupt k "time of day is out of range" [])
  else ok_or (from_num_seconds_from_midnight_opt (nanos / 1000000000) (nanos mod 1000000000))
             (TemporalCorrupt k "time of day is out of range" []).

Definition decode_payload (k : TemporalValueKind) (bs : bytes) : result Value TemporalError :=
  if negb (zlen bs =? payload_len k) then
    Err (TemporalCorrupt k "expected {} bytes, found {}" [payload_len k; zlen bs])
  else match k with
  | KDate => let? d := read_date k bs 0 in Ok (VDate d)
  | KLocalTime => let? t := read_time k bs 0 in Ok (VLocalTime t)
  | KLocalDateTime => let? d := read_date k bs 0 in let? t := read_time k bs 4 in Ok (VLocalDateTime d t)
  | KDateTime =>
      let? d := read_date k bs 0 in let? t := read_time k bs 4 in
      let? o := ok_or (east_opt (signed_le_val (zslice bs 12 16))) (TemporalCorrupt k "offset is out of range" []) in
      let? _ := ok_or (checked_add_offset (d, t) o) (TemporalCorrupt k "local datetime is out of range" []) in
      Ok (VDateTime d t o)
  | KDuration =>
      let months := signed_le_val (zslice bs 0 8) in
      let days := signed_le_val (zslice bs 8 16) in
      let secs := signed_le_val (zslice bs 16 24) in
      let nanos := le_val (zslice bs 24 28) in
      if 1000000000 <=? nanos then Err (TemporalCorrupt k "nanoseconds are out of range" [])
      else let? time := ok_or (TimeDelta_new secs nanos) (TemporalCorrupt k "time part is out of range" []) in
           Ok (VDuration {| d_months := months; d_days := days; d_time := time |})
  end.
End Temporal.

(** ** Stored vectors: [VectorRef::from_encoded] *)

(** [f32::is_finite] of the bits of a little-endian coordinate: the exponent is
    not all ones. *)
Definition f32_is_finite (bits : Z) : bool := negb (Z.land (Z.shiftr bits 23) 0xff =? 0xff).

Fixpoint coordinates_finite (bs : bytes) : bool :=
  match bs with
  | a :: b :: c :: d :: bs => f32_is_finite (le_val [a; b; c; d]) && coordinates_finite bs
  | _ => true
  end.

(** The coordinates are read in blocks of 64 KiB, a multiple of four bytes, so
    that the blocks together check every coordinate. *)
Definition vector_from_encoded (encoded : bytes) : result bytes string :=
  if zlen encoded <? 4 then Err "truncated dimension"
  else
    let dimension := le_val (zslice encoded 0 4) in
    if dimension =? 0 then Err "dimension must be positive"
    else if negb (zlen encoded =? dimension * 4 + 4) then Err "payload length does not match dimension"
    else if coordinates_finite (drop 4 encoded) then Ok encoded
    else Err "coordinates must be finite".

(** [validate_vector] (crates/storage/src/background/checkpoint.rs) without a
    work context. *)
Definition validate_vector (encoded : bytes) : Result bytes :=
  map_err (λ _, Storage "invalid vector: {reason}" []) (vector_from_encoded encoded).

(** ** Well-formed values *)

Section WellFormed.
Context `{C : Chrono}.

(** The order of map keys: that of [String], byte by byte. *)
Definition key_before (a b : bytes * Value) : Prop := list_cmp Z.compare a.1 b.1 = Lt.

(** No leap second: the codec writes nanoseconds within the day. *)
Definition time_regular (t : NaiveTime) : Prop := nanosecond t < 1000000000.

(** What the types of the program guarantee of a value, and that its times of
    day are not leap seconds and its zoned date-times have a local form. *)
Fixpoint value_wf (v : Value) : Prop :=
  match v with
  | VNull | VBool _ | VBinary _ | VDate _ => True
  | VInt z => is_i64 z
  | VFloat bits => is_u64 bits
  | VDecimal d => wf d
  | VString s => utf8_valid s = true
  | VVector e => vector_from_encoded e = Ok e
  | VUuid u => zlen u = 16
  | VList l => (fix all (l : list Value) : Prop := match l with [] => True | x :: l => value_wf x ∧ all l end) l
  | VMap m => StronglySorted key_before m ∧
      (fix all (m : list (bytes * Value)) : Prop :=
         match m with [] => True | (k, x) :: m => utf8_valid k = true ∧ value_wf x ∧ all m end) m
  | VLocalTime t | VLocalDateTime _ t => time_regular t
  | VDateTime d t o => time_regular t ∧ is_Some (checked_add_offset (d, t) o)
  | VDuration d => is_i64 (d_months d) ∧ is_i64 (d_days d)
  end.

Lemma value_wf_list l : value_wf (VList l) ↔ Forall value_wf l.
Proof. cbn. induction l as [|x l IH]; [by split; constructor|]. rewrite Forall_cons. tauto. Qed.
Lemma value_wf_map m :
  value_wf (VMap m) ↔ StronglySorted key_before m ∧ Forall (λ kv, utf8_valid kv.1 = true ∧ value_wf kv.2) m.
Proof.
  cbn. apply and_iff_compat_l. induction m as [|[k x] m IH]; [by split; constructor|].
  rewrite Forall_cons. cbn. tauto.
Qed.
End WellFormed.

Section TemporalRoundtrip.
Context `{C : Chrono} `{!ChronoLaws C}.

Lemma read_write_date k pre d rest at_ :
  at_ = zlen pre → read_date k (pre ++ write_date d ++ rest) at_ = Ok d.
Proof.
  intros ->. unfold read_date.
  rewrite (zslice_app_mid pre (write_date d) rest) by (rewrite ?zlen_signed_le; done).
  unfold write_date. rewrite signed_le_roundtrip; [by rewrite chrono_date|lia|].
  apply chrono_date_range.
Qed.

Lemma read_write_time k pre t rest at_ :
  time_regular t → at_ = zlen pre → read_time k (pre ++ write_time t ++ rest) at_ = Ok t.
Proof.
  intros Hr ->. unfold read_time. destruct (chrono_time_range t) as [Hs Hn].
  unfold time_regular, NANOS_PER_SECOND in *.
  rewrite (zslice_app_mid pre (write_time t) rest) by (rewrite ?zlen_le_bytes; done).
  unfold write_time, time_nanos. rewrite le_val_bytes_small by (change (256 ^ Z.of_nat 8) with (2 ^ 64); lia).
  rewrite (proj2 (Z.leb_gt _ _)) by lia.
  rewrite Z.div_add_l, Z.div_small, Z.add_0_r by lia.
  rewrite Z.add_comm, Z.mod_add, Z.mod_small by lia. by rewrite chrono_time.
Qed.

Lemma zlen_write_date d : zlen (write_date d) = 4.
Proof. apply zlen_signed_le. Qed.
Lemma zlen_write_time t : zlen (write_time t) = 8.
Proof. apply zlen_le_bytes. Qed.

Lemma zlen_payload v k p : encode_payload v = Some (k, p) → zlen p = payload_len k.
Proof.
  destruct v; intros [= <- <-]; cbn; unfold write_date, write_time;
    rewrite ?zlen_app, ?zlen_signed_le, ?zlen_le_bytes; done.
Qed.

Lemma decode_duration months days d :
  is_i64 months → is_i64 days →
  decode_payload KDuration
    (signed_le_bytes 8 months ++ signed_le_bytes 8 days ++ signed_le_bytes 8 (delta_nanos d / NANOS_PER_SECOND) ++
     le_bytes 4 (delta_nanos d mod NANOS_PER_SECOND))
  = Ok (VDuration {| d_months := months; d_days := days; d_time := d |}).
Proof.
  intros Hm Hd. unfold decode_payload. pose proof (chrono_delta_range d) as Hs.
  pose proof (Z.mod_pos_bound (delta_nanos d) NANOS_PER_SECOND ltac:(done)) as Hn.
  pose proof (chrono_delta d) as Hdelta.
  set (secs := delta_nanos d / NANOS_PER_SECOND) in *. set (nanos := delta_nanos d mod NANOS_PER_SECOND) in *.
  clearbody secs nanos. unfold is_i64, NANOS_PER_SECOND in *.
  rewrite !zlen_app, !zlen_signed_le, zlen_le_bytes. change (negb _) with false. cbn [payload_len].
  assert (∀ a b c d : bytes, zlen a = 8 → zlen b = 8 → zlen c = 8 → zlen d = 4 →
    zslice (a ++ b ++ c ++ d) 0 8 = a ∧ zslice (a ++ b ++ c ++ d) 8 16 = b ∧
    zslice (a ++ b ++ c ++ d) 16 24 = c ∧ zslice (a ++ b ++ c ++ d) 24 28 = d) as Hslices.
  { clear. intros a b c d Ha Hb Hc Hd. split_and!.
    - by apply zslice_app_front.
    - apply zslice_app_mid; lia.
    - rewrite (app_assoc a). apply zslice_app_mid; rewrite zlen_app; lia.
    - pose proof (zslice_app_mid (a ++ b ++ c) d [] 24 28) as E. rewrite app_nil_r, <- !app_assoc in E.
      apply E; rewrite !zlen_app; lia. }
  destruct (Hslices (signed_le_bytes 8 months) (signed_le_bytes 8 days) (signed_le_bytes 8 secs) (le_bytes 4 nanos))
    as (-> & -> & -> & ->); [apply zlen_signed_le..|apply zlen_le_bytes|].
  rewrite !signed_le_roundtrip by (change (256 ^ Z.of_nat 8 / 2) with (2 ^ 63); lia).
  rewrite le_val_bytes_small by (change (256 ^ Z.of_nat 4) with (2 ^ 32); lia).
  rewrite (proj2 (Z.leb_gt _ _)) by lia. by rewrite Hdelta.
Qed.

(** A payload decodes to its value. *)
Lemma decode_encode_payload v k p :
  value_wf v → encode_payload v = Some (k, p) → decode_payload k p = Ok v.
Proof.
  intros Hwf He. pose proof (zlen_payload _ _ _ He) as Hl.
  destruct v; cbn [encode_payload] in He; simplify_eq; cbn [value_wf] in Hwf.
  5: { destruct d as [months days d]; cbn in *. destruct Hwf. by apply decode_duration. }
  all: unfold decode_payload; rewrite Hl, Z.eqb_refl; cbn [negb].
  - pose proof (read_write_date KDate [] d [] 0 eq_refl) as E. rewrite app_nil_r in E. cbn [app] in E. by rewrite E.
  - pose proof (read_write_time KLocalTime [] t [] 0 Hwf eq_refl) as E. rewrite app_nil_r in E. cbn [app] in E. by rewrite E.
  - pose proof (read_write_date KLocalDateTime [] d (write_time t) 0 eq_refl) as E. cbn [app] in E. rewrite E.
    cbn [result_bind].
    pose proof (read_write_time KLocalDateTime (write_date d) t [] 4 Hwf (eq_sym (zlen_write_date d))) as E2.
    rewrite app_nil_r in E2. by rewrite E2.
  - destruct Hwf as [Ht [x Hx]].
    pose proof (read_write_date KDateTime [] d (write_time t ++ signed_le_bytes 4 (local_minus_utc o)) 0 eq_refl) as E.
    cbn [app] in E. rewrite E. cbn [result_bind].
    rewrite (read_write_time KDateTime (write_date d) t _ 4 Ht (eq_sym (zlen_write_date d))). cbn [result_bind].
    assert (zslice (write_date d ++ write_time t ++ signed_le_bytes 4 (local_minus_utc o)) 12 16
            = signed_le_bytes 4 (local_minus_utc o)) as ->.
    { pose proof (zslice_app_mid (write_date d ++ write_time t) (signed_le_bytes 4 (local_minus_utc o)) [] 12 16) as E2.
      rewrite app_nil_r, <- !app_assoc in E2.
      apply E2; rewrite zlen_app, zlen_write_date, zlen_write_time, ?zlen_signed_le; done. }
    rewrite signed_le_roundtrip; [|lia|].
    2: { change (256 ^ Z.of_nat 4 / 2) with (2 ^ 31). pose proof (chrono_offset_range o). lia. }
    rewrite chrono_offset. cbn [ok_or result_bind]. by rewrite Hx.
Qed.
End TemporalRoundtrip.

(** ** A calendar that satisfies the laws

    Days, seconds and nanoseconds as bounded integers; it stands for the crate
    where a property is evaluated on a concrete input. *)
Module Calendar.
Definition date_range (z : Z) : Prop := - 2 ^ 31 ≤ z < 2 ^ 31.
Definition time_range (p : Z * Z) : Prop := (0 ≤ p.1 < 86400) ∧ (0 ≤ p.2 < 2 * NANOS_PER_SECOND).
Definition offset_range (z : Z) : Prop := - 86400 < z < 86400.
Definition delta_range (n : Z) : Prop := - 2 ^ 63 ≤ n / NANOS_PER_SECOND < 2 ^ 63.
#[export] Instance time_range_dec p : Decision (time_range p).
Proof. unfold time_range. apply _. Defined.

Definition bounded {A} (P : A → Prop) `{∀ x, Decision (P x)} (x : A) : option (dsig P) :=
  match decide (P x) with left Hx => Some (dexist x Hx) | right _ => None end.
Lemma bounded_proj {A} (P : A → Prop) `{∀ x, Decision (P x)} (x : dsig P) : bounded P (`x) = Some x.
Proof.
  unfold bounded. destruct (decide _) as [Hx|Hx]; [|destruct Hx; apply (proj2_dsig x)].
  f_equal. by apply dsig_eq.
Qed.

#[export] Instance chrono : Chrono := {
  NaiveDate := dsig date_range;
  num_days_from_ce d := `d;
  from_num_days_from_ce_opt := bounded date_range;
  NaiveTime := dsig time_range;
  num_seconds_from_midnight t := (`t).1;
  nanosecond t := (`t).2;
  from_num_seconds_from_midnight_opt s n := bounded time_range (s, n);
  FixedOffset := dsig offset_range;
  local_minus_utc o := `o;
  east_opt := bounded offset_range;
  checked_add_offset dt o :=
    let s := (`dt.2).1 + `o in
    match bounded date_range (`dt.1 + s / 86400), bounded time_range (s mod 86400, (`dt.2).2) with
    | Some d, Some t => Some (d, t)
    | _, _ => None
    end;
  TimeDelta := dsig delta_range;
  num_seconds d := Z.quot (`d) NANOS_PER_SECOND;
  subsec_nanos d := Z.rem (`d) NANOS_PER_SECOND;
  TimeDelta_new s n := bounded delta_range (s * NANOS_PER_SECOND + n);
}.

#[export] Instance chrono_laws : ChronoLaws chrono.
Proof.
  assert (∀ d : dsig delta_range, Z.quot (`d) NANOS_PER_SECOND * NANOS_PER_SECOND + Z.rem (`d) NANOS_PER_SECOND = `d) as Hd.
  { intros d. rewrite Z.mul_comm. symmetry. by apply Z.quot_rem. }
  constructor; cbn.
  - apply bounded_proj.
  - intros d. apply (proj2_dsig d).
  - intros t. rewrite <- surjective_pairing. apply bounded_proj.
  - intros t. apply (proj2_dsig t).
  - apply bounded_proj.
  - intros o. apply (proj2_dsig o).
  - intros d. unfold delta_nanos; cbn. rewrite Hd.
    assert (`d / NANOS_PER_SECOND * NANOS_PER_SECOND + `d mod NANOS_PER_SECOND = `d) as ->
      by (rewrite Z.mul_comm; symmetry; by apply Z.div_mod).
    apply bounded_proj.
  - intros d. unfold delta_nanos; cbn. rewrite Hd. apply (proj2_dsig d).
Qed.
End Calendar.

(** ** Properties *)

Section Claims.
Context `{C : Chrono} `{!ChronoLaws C}.

(** Temporal payloads are exact.  A date, time, date-time or duration is
    written with the fixed length of its kind and reads back as the same value,
    offset and nanoseconds included. *)
Theorem temporal_payload_roundtrip v kind payload :
  value_wf v → encode_payload v = Some (kind, payload) →
  TemporalValueKind_of v = Some kind ∧ zlen payload = payload_len kind ∧ decode_payload kind payload = Ok v.
Proof.
  intros Hwf He. split_and!; [|by eapply zlen_payload|by apply decode_encode_payload].
  destruct v; cbn in He; by simplify_eq.
Qed.
End Claims.

Module TemporalDemo.
Import Calendar.
Lemma day_in_range : date_range 739919.
Proof. by vm_compute. Qed.
(** 2026-10-30. *)
Definition day : NaiveDate := dexist (739919 : Z) day_in_range.

Lemma temporal_payload_roundtrip_witness :
  TemporalValueKind_of (VDate day) = Some KDate ∧ zlen (write_date day) = 4 ∧
  decode_payload KDate (write_date day) = Ok (VDate day).
Proof. apply (temporal_payload_roundtrip (VDate day) KDate (write_date day)); done. Defined.
End TemporalDemo.
