(* ===== verification/Numeric.v ===== *)
(** Numeric semantics shared by row execution and mutations:
    crates/core/src/numeric.rs, with the logical types of logical_type.rs and
    value.rs that it inspects. *)
From Stdlib Require Import SpecFloat.
From S2P Require Import Prelude Ordering Decimal DecimalArith DecimalOrder DecimalText Text Float64 RelationalValue BTreeMap Values.

(** ** Logical types *)

Inductive LogicalType :=
  | LAny | LBoolean | LInt64 | LFloat64 | LDecimal | LString | LText | LBinary | LUuid
  | LVector (dimension : Z) | LList | LMap | LDate | LLocalTime | LLocalDateTime | LDateTime | LDuration.
#[export] Instance LogicalType_eq_dec : EqDecision LogicalType.
Proof. solve_decision. Defined.

Definition is_numeric (t : LogicalType) : bool := match t with LInt64 | LFloat64 | LDecimal => true | _ => false end.
Definition is_utf8 (t : LogicalType) : bool := match t with LString | LText => true | _ => false end.

Inductive NumericBinaryOp := Add | Subtract | Multiply | Divide | Remainder.
Inductive NumericType := NBigInt | NDoublePrecision | NDecimal (kind : DecimalType).
Definition numeric_logical_type (t : NumericType) : LogicalType :=
  match t with NBigInt => LInt64 | NDoublePrecision => LFloat64 | NDecimal _ => LDecimal end.

(** A vector keeps its dimension in its first four bytes. *)
Definition vector_dimension (encoded : bytes) : Z := le_val (zslice encoded 0 4).

Section Numeric.
Context `{C : Chrono}.
Implicit Types (lhs rhs value : Value).

Definition value_logical_type value : option LogicalType :=
  match value with
  | VNull => None
  | VBool _ => Some LBoolean
  | VInt _ => Some LInt64
  | VDecimal _ => Some LDecimal
  | VFloat _ => Some LFloat64
  | VString _ => Some LString
  | VBinary _ => Some LBinary
  | VVector encoded => Some (LVector (vector_dimension encoded))
  | VUuid _ => Some LUuid
  | VList _ => Some LList
  | VMap _ => Some LMap
  | VDate _ => Some LDate
  | VLocalTime _ => Some LLocalTime
  | VLocalDateTime _ _ => Some LLocalDateTime
  | VDateTime _ _ _ => Some LDateTime
  | VDuration _ => Some LDuration
  end.
Definition is_null value : bool := match value with VNull => true | _ => false end.
Definition is_decimal value : bool := match value with VDecimal _ => true | _ => false end.

(** ** Errors *)

Definition numeric_error (message : string) : HawDBError := Execution message [].
Definition decimal_message (e : DecimalError) : string :=
  match e with
  | InvalidLiteral => "invalid or overlong decimal literal"
  | InvalidType => "decimal requires precision 1..38 and scale 0..precision"
  | InvalidEncoding => "invalid decimal encoding"
  | Overflow => "decimal result exceeds 38 coefficient digits or scale 38"
  | DivisionByZero => "decimal division by zero"
  | Fractional => "decimal value has a fractional part; BIGINT requires an exact integer (HawDB does not round)"
  | IntegerOutOfRange => "decimal value is outside the BIGINT range"
  end.
Definition decimal_error (e : DecimalError) : HawDBError := numeric_error (decimal_message e).

(** ** Operations *)

Definition exact_decimal value : Result Decimal :=
  match value with
  | VInt value => Ok {| coefficient := value; scale := 0 |}
  | VDecimal value => Ok value
  | VFloat _ => Err (numeric_error "Decimal and DOUBLE PRECISION require an explicit CAST")
  | _ => Err (numeric_error "arithmetic requires numeric operands")
  end.

Definition approximate value : Result f64 :=
  match value with
  | VInt value => Ok (f64_of_Z value)
  | VFloat bits =>
      if f64_is_finite (f64_from_bits bits) then Ok (f64_from_bits bits)
      else Err (numeric_error "arithmetic requires finite numeric operands")
  | _ => Err (numeric_error "arithmetic requires finite numeric operands")
  end.

Definition divides (op : NumericBinaryOp) : bool := match op with Divide | Remainder => true | _ => false end.

(** The checked operations of [i64]. *)
Definition i64_op (op : NumericBinaryOp) (a b : Z) : option Z :=
  match op with
  | Add => i64_try_from (a + b)
  | Subtract => i64_try_from (a - b)
  | Multiply => i64_try_from (a * b)
  | Divide => if b =? 0 then None else i64_try_from (Z.quot a b)
  | Remainder => if (b =? 0) || ((a =? i64_min) && (b =? -1)) then None else Some (Z.rem a b)
  end.
Definition decimal_op (op : NumericBinaryOp) : Decimal → Decimal → result Decimal DecimalError :=
  match op with
  | Add => Decimal.checked_add
  | Subtract => Decimal.checked_sub
  | Multiply => Decimal.checked_mul
  | Divide => Decimal.checked_div
  | Remainder => Decimal.checked_rem
  end.
Definition f64_op (op : NumericBinaryOp) : f64 → f64 → f64 :=
  match op with
  | Add => f64_add
  | Subtract => f64_sub
  | Multiply => f64_mul
  | Divide => f64_div
  | Remainder => f64_rem
  end.

Definition not_numeric value : bool :=
  match value_logical_type value with Some kind => negb (is_numeric kind) | None => false end.

Definition evaluate_numeric lhs (op : NumericBinaryOp) rhs : Result Value :=
  if not_numeric lhs || not_numeric rhs then Err (numeric_error "arithmetic requires numeric operands")
  else if is_null lhs || is_null rhs then Ok VNull
  else if is_decimal lhs || is_decimal rhs then
    let? x := exact_decimal lhs in
    let? y := exact_decimal rhs in
    let? z := map_err decimal_error (decimal_op op x y) in
    Ok (VDecimal z)
  else
    match lhs, rhs with
    | VInt x, VInt y =>
        if divides op && (y =? 0) then Err (numeric_error "division by zero")
        else let? z := ok_or (i64_op op x y) (numeric_error "integer arithmetic overflow") in Ok (VInt z)
    | _, _ =>
        let? x := approximate lhs in
        let? y := approximate rhs in
        if divides op && SFeqb y (S754_zero false) then Err (numeric_error "division by zero")
        else
          let z := f64_op op x y in
          if f64_is_finite z then Ok (VFloat (f64_to_bits z))
          else Err (numeric_error "non-finite arithmetic result")
    end.

Definition negate_numeric value : Result Value :=
  match value with
  | VNull => Ok VNull
  | VDecimal d => Ok (VDecimal (Decimal.checked_neg d))
  | VInt x => let? z := ok_or (i64_try_from (- x)) (numeric_error "integer arithmetic overflow") in Ok (VInt z)
  | VFloat bits =>
      if f64_is_finite (f64_from_bits bits) then Ok (VFloat (f64_to_bits (SFopp (f64_from_bits bits))))
      else Err (numeric_error "negation requires a finite numeric operand")
  | _ => Err (numeric_error "negation requires a finite numeric operand")
  end.

(** ** Comparison *)

(** 9_223_372_036_854_775_808.0, the first double above every [i64]. *)
Definition two_63 : f64 := S754_finite false 4503599627370496 11.

Definition total_cmp (a b : Z) : comparison := total_order_key a ?= total_order_key b.

Definition compare_int_float (integer bits : Z) : Result comparison :=
  let float := f64_from_bits bits in
  if f64_is_nan float then Ok (total_cmp (f64_to_bits (f64_of_Z integer)) bits)
  else if SFleb two_63 float then Ok Lt
  else if SFltb float (SFopp two_63) then Ok Gt
  else
    let integral := f64_as_i64 float in
    (* the [expect] of the source: its panic is an error here, and is never reached *)
    let? tail := ok_or (SFcompare (f64_of_Z integral) float) (numeric_error "finite float") in
    Ok (cmp_then (integer ?= integral) tail).

Definition compare_numeric lhs rhs : Result comparison :=
  if is_decimal lhs || is_decimal rhs then
    let? x := exact_decimal lhs in
    let? y := exact_decimal rhs in
    Ok (Decimal_cmp x y)
  else
    match lhs, rhs with
    | VInt x, VInt y => Ok (x ?= y)
    | VFloat x, VFloat y => Ok (total_cmp x y)
    | VInt x, VFloat y => compare_int_float x y
    | VFloat x, VInt y => let? c := compare_int_float y x in Ok (CompOpp c)
    | _, _ => Err (numeric_error "numeric comparison requires numeric operands")
    end.

(** ** Conversion *)

(** [str::parse::<i64>] with the messages of its errors. *)
Definition i64_from_str (text : bytes) : result Z string :=
  match parse_signed i64_min i64_max text with
  | Some z => Ok z
  | None =>
      let '(negative, ds) :=
        match text with
        | c :: t => if c =? 45 then (true, t) else if c =? 43 then (false, t) else (false, text)
        | [] => (false, [])
        end in
      Err (match text with
           | [] => "cannot parse integer from empty string"
           | _ =>
               match parse_digits ds with
               | None => "invalid digit found in string"
               | Some _ =>
                   if negative : bool then "number too small to fit in target type"
                   else "number too large to fit in target type"
               end
           end)%string
  end.

Definition cast_numeric value (target : NumericType) : Result Value :=
  if is_null value then Ok VNull
  else
    match target with
    | NDecimal kind =>
        let? decimal :=
          match value with
          | VInt value => Ok {| coefficient := value; scale := 0 |}
          | VDecimal value => Ok value
          | VString text => map_err decimal_error (Decimal_from_str text)
          | VFloat bits =>
              if f64_is_finite (f64_from_bits bits)
              then map_err decimal_error (Decimal_from_str (f64_to_string (f64_from_bits bits)))
              else Err (numeric_error "CAST to DECIMAL requires a finite numeric value or decimal text")
          | _ => Err (numeric_error "CAST to DECIMAL requires a finite numeric value or decimal text")
          end in
        let? coerced := map_err decimal_error (DecimalType_coerce kind decimal) in
        Ok (VDecimal coerced)
    | NBigInt =>
        match value with
        | VInt value => Ok (VInt value)
        | VDecimal value => let? z := map_err decimal_error (to_i64 value) in Ok (VInt z)
        | VString text => let? z := map_err numeric_error (i64_from_str text) in Ok (VInt z)
        | VFloat bits =>
            let x := f64_from_bits bits in
            if f64_is_finite x && SFeqb (f64_fract x) (S754_zero false) && SFleb (SFopp two_63) x && SFltb x two_63
            then Ok (VInt (f64_as_i64 x))
            else Err (numeric_error "CAST to BIGINT requires an exact in-range integer")
        | _ => Err (numeric_error "CAST to BIGINT requires an exact in-range integer")
        end
    | NDoublePrecision =>
        let? x :=
          match value with
          | VDecimal value => map_err numeric_error (f64_from_str (Decimal_to_string value))
          | VString text => map_err numeric_error (f64_from_str text)
          | value => approximate value
          end in
        if f64_is_finite x then Ok (VFloat (f64_to_bits x))
        else Err (numeric_error "CAST produced a non-finite DOUBLE PRECISION value")
    end.

(** ** Promotion *)

Definition common_numeric_type (lhs rhs : option LogicalType) : Result (option LogicalType) :=
  if existsb (λ kind, negb (is_numeric kind)) (option_list lhs ++ option_list rhs)
  then Err (numeric_error "arithmetic requires numeric operands")
  else
    match lhs, rhs with
    | Some LDecimal, Some LFloat64 | Some LFloat64, Some LDecimal =>
        Err (numeric_error "Decimal and DOUBLE PRECISION require an explicit CAST")
    | _, _ =>
        Ok (if bool_decide (lhs = Some LDecimal) || bool_decide (rhs = Some LDecimal) then Some LDecimal
            else if bool_decide (lhs = Some LFloat64) || bool_decide (rhs = Some LFloat64) then Some LFloat64
            else match lhs with Some _ => lhs | None => rhs end)
    end.
End Numeric.

(** ** Comparison is exact *)

Lemma compare_finite s m n e f :
  SFcompare (S754_finite s m e) (S754_finite s n f) =
    Some (let c := cmp_then (e ?= f) (Zpos m ?= Zpos n) in if s then CompOpp c else c).
Proof. cbn [SFcompare]. destruct s, (e ?= f); reflexivity. Qed.

Lemma two_63_le m e : f64_wf (S754_finite false m e) → SFleb two_63 (S754_finite false m e) = (11 <=? e).
Proof.
  intros (He & Hm & Hn). unfold SFleb, two_63. rewrite compare_finite. cbv zeta iota.
  destruct (Z.compare_spec 11 e) as [<-|H|H]; cbn [cmp_then].
  - destruct (Z.compare_spec 4503599627370496 (Zpos m)); [done|done|lia].
  - symmetry. apply Z.leb_le. lia.
  - symmetry. apply Z.leb_gt. lia.
Qed.
Lemma below_two_63 m e : f64_wf (S754_finite true m e) →
  SFltb (S754_finite true m e) (SFopp two_63) = (11 <? e) || ((e =? 11) && (2 ^ 52 <? Zpos m)).
Proof.
  intros (He & Hm & Hn). unfold SFltb, two_63, SFopp, negb. rewrite compare_finite. cbv zeta iota.
  destruct (Z.compare_spec e 11) as [->|H|H]; cbn [cmp_then].
  - destruct (Z.compare_spec (Zpos m) 4503599627370496); cbn [CompOpp]; symmetry; cbn [orb andb]; case_bool; lia.
  - rewrite (proj2 (Z.ltb_ge _ _)), (proj2 (Z.eqb_neq _ _)) by lia. done.
  - by rewrite (proj2 (Z.ltb_lt _ _)) by lia.
Qed.

(** Comparing with the integral part, then the integral part with the number,
    compares with the number. *)
Lemma compare_by_truncation i s t X K : 0 < K → 0 ≤ t → t * K ≤ X < t * K + K →
  let sg := if s : bool then -1 else 1 in
  cmp_then (i ?= sg * t) (sg * (t * K) ?= sg * X) = (i * K ?= sg * X).
Proof.
  intros HK Ht HX sg. destruct (Z.compare_spec i (sg * t)) as [E|E|E]; cbn [cmp_then].
  - by rewrite E, Z.mul_assoc.
  - symmetry. apply Z.compare_lt_iff. unfold sg in *. destruct s; nia.
  - symmetry. apply Z.compare_gt_iff. unfold sg in *. destruct s; nia.
Qed.

Lemma compare_int_finite i bits : is_i64 i → f64_is_finite (f64_from_bits bits) = true →
  compare_int_float i bits = Ok (i * 2 ^ 1074 ?= f64_scaled (f64_from_bits bits)).
Proof.
  intros Hi Hf. pose proof (from_bits_wf bits) as Hw. unfold compare_int_float.
  destruct (f64_from_bits bits) as [s| | |s m e]; try done; cbn [f64_is_nan].
  { change (SFleb two_63 (S754_zero s)) with false. change (SFltb (S754_zero s) (SFopp two_63)) with false. cbv iota.
    change (f64_as_i64 (S754_zero s)) with 0. change (f64_of_Z 0) with (S754_zero false). cbn [SFcompare ok_or result_bind f64_scaled].
    by rewrite cmp_then_eq_r, <- (compare_mul_pow2 i 0 1074). }
  pose proof Hw as (He & Hm & Hn). pose proof (truncated_bounds m e ltac:(lia)) as Hb.
  pose proof (Z.pow_pos_nonneg 2 1074 ltac:(lia) ltac:(lia)) as HK. unfold is_i64 in Hi.
  pose proof (truncated_nonneg m e) as Ht. pose proof (truncated_small m e) as Hsmall.
  pose proof (scaled_large m e 11) as H11. pose proof (scaled_large m e 12) as H12.
  assert (f64_as_i64 (S754_finite s m e) =
    Z.max i64_min (Z.min i64_max (if s then - truncated m e else truncated m e))) as -> by done.
  assert (∀ integral, integral = (if s then - truncated m e else truncated m e) →
    (let? tail := ok_or (SFcompare (f64_of_Z integral) (S754_finite s m e)) (numeric_error "finite float") in
     Ok (cmp_then (i ?= integral) tail)) = Ok (i * 2 ^ 1074 ?= f64_scaled (S754_finite s m e))) as Hrest.
  { intros integral ->. rewrite compare_truncated by done. cbn [ok_or result_bind f64_scaled]. f_equal.
    rewrite <- (compare_by_truncation i s (truncated m e) _ _ HK Ht Hb). f_equal. f_equal. destruct s; lia. }
  revert Hb HK H11 H12 Hrest. cbn [f64_scaled]. generalize (2 ^ 1074) as K. generalize (Zpos m * 2 ^ (e + 1074)) as X.
  intros X K Hb HK H11 H12 Hrest. unfold i64_min, i64_max. destruct s.
  - change (SFleb two_63 (S754_finite true m e)) with false. cbv iota. rewrite below_two_63 by done.
    destruct ((11 <? e) || ((e =? 11) && (2 ^ 52 <? Zpos m))) eqn:E.
    + f_equal. symmetry. apply Z.compare_gt_iff. apply orb_true_iff in E as [E%Z.ltb_lt|[->%Z.eqb_eq E%Z.ltb_lt]%andb_true_iff]; nia.
    + apply Hrest. apply orb_false_iff in E as [E1%Z.ltb_ge E2].
      destruct (Z.eq_dec e 11) as [->|]; [|specialize (Hsmall ltac:(lia) Hm); lia].
      apply Z.ltb_ge in E2. change (truncated m 11) with (Zpos m * 2 ^ 11) in *. lia.
  - rewrite two_63_le by done. destruct (Z.leb_spec 11 e).
    + f_equal. symmetry. apply Z.compare_lt_iff. nia.
    + change (SFltb (S754_finite false m e) (SFopp two_63)) with false. cbv iota. apply Hrest. specialize (Hsmall ltac:(lia) Hm). lia.
Qed.

(** The bits of a non-negative number order its value. *)
Lemma scaled_bits bits : 0 ≤ bits < 2 ^ 63 → f64_is_finite (f64_from_bits bits) = true →
  f64_scaled (f64_from_bits bits) =
    if bits <? 2 ^ 52 then bits else (2 ^ 52 + bits mod 2 ^ 52) * 2 ^ (bits / 2 ^ 52 - 1).
Proof.
  intros Hb. unfold f64_from_bits.
  pose proof (Z.div_mod bits (2 ^ 52) ltac:(lia)). pose proof (Z.mod_pos_bound bits (2 ^ 52) ltac:(lia)).
  assert (0 ≤ bits / 2 ^ 52 < 2 ^ 11).
  { split; [apply Z.div_pos; lia|]. apply Z.div_lt_upper_bound; lia. }
  rewrite (Z.mod_small (bits / 2 ^ 52)), (proj2 (Z.leb_gt _ _)) by lia.
  destruct (Z.eqb_spec (bits / 2 ^ 52) 2047); [by destruct (bits mod 2 ^ 52 =? 0)|].
  destruct (Z.eqb_spec (bits / 2 ^ 52) 0) as [E|].
  - rewrite (proj2 (Z.ltb_lt _ _)) by lia. assert (bits mod 2 ^ 52 = bits) as -> by lia.
    destruct (Z.eqb_spec bits 0); intros _; cbn [f64_scaled]; [done|]. rewrite Z2Pos.id by lia. lia.
  - intros _. rewrite (proj2 (Z.ltb_ge _ _)) by lia. cbn [f64_scaled]. rewrite Z2Pos.id by lia.
    rewrite Z.mul_1_l. do 2 f_equal. lia.
Qed.
Lemma scaled_bits_lt a b : 0 ≤ a < b → b < 2 ^ 63 →
  f64_is_finite (f64_from_bits a) = true → f64_is_finite (f64_from_bits b) = true →
  f64_scaled (f64_from_bits a) < f64_scaled (f64_from_bits b).
Proof.
  intros Hab Hb Fa Fb. rewrite !scaled_bits by (done || lia).
  pose proof (Z.div_mod a (2 ^ 52) ltac:(lia)). pose proof (Z.mod_pos_bound a (2 ^ 52) ltac:(lia)).
  pose proof (Z.div_mod b (2 ^ 52) ltac:(lia)). pose proof (Z.mod_pos_bound b (2 ^ 52) ltac:(lia)).
  destruct (Z.ltb_spec a (2 ^ 52)), (Z.ltb_spec b (2 ^ 52)); [lia| |lia|].
  - assert (0 < b / 2 ^ 52) by lia. pose proof (Z.pow_pos_nonneg 2 (b / 2 ^ 52 - 1) ltac:(lia) ltac:(lia)). nia.
  - assert (0 < a / 2 ^ 52) by lia. pose proof (Z.pow_pos_nonneg 2 (a / 2 ^ 52 - 1) ltac:(lia) ltac:(lia)).
    assert (a / 2 ^ 52 ≤ b / 2 ^ 52) by (apply Z.div_le_mono; lia).
    destruct (Z.eq_dec (a / 2 ^ 52) (b / 2 ^ 52)) as [E|].
    { rewrite <- E. apply Z.mul_lt_mono_pos_r; lia. }
    apply (Z.lt_le_trans _ (2 * 2 ^ 52 * 2 ^ (a / 2 ^ 52 - 1))); [apply Z.mul_lt_mono_pos_r; lia|].
    apply (Z.le_trans _ (2 ^ 52 * 2 ^ (b / 2 ^ 52 - 1))); [|apply Z.mul_le_mono_nonneg_r; [by apply Z.pow_nonneg|lia]].
    rewrite (Z.mul_comm 2), <- Z.mul_assoc, <- Z.pow_succ_r by lia. apply Z.mul_le_mono_nonneg_l; [lia|]. apply Z.pow_le_mono_r; lia.
Qed.
Lemma from_bits_sign bits : 2 ^ 63 ≤ bits < 2 ^ 64 → f64_from_bits bits = SFopp (f64_from_bits (bits - 2 ^ 63)).
Proof.
  intros Hb. unfold f64_from_bits. rewrite (proj2 (Z.leb_le _ _)), (proj2 (Z.leb_gt _ _)) by lia.
  assert (bits = bits - 2 ^ 63 + 2 ^ 11 * 2 ^ 52) as Eb by lia.
  assert (bits mod 2 ^ 52 = (bits - 2 ^ 63) mod 2 ^ 52) as -> by (rewrite Eb at 1; apply Z.mod_add; lia).
  assert (bits / 2 ^ 52 mod 2 ^ 11 = (bits - 2 ^ 63) / 2 ^ 52 mod 2 ^ 11) as ->.
  { rewrite Eb at 1. rewrite Z.div_add by lia. rewrite <- (Z.mod_add (_ / _) 1 (2 ^ 11)) by lia. by rewrite Z.mul_1_l. }
  repeat case_match; done.
Qed.
Lemma scaled_opp x : f64_scaled (SFopp x) = - f64_scaled x.
Proof. destruct x as [| | |[]]; cbn [SFopp f64_scaled negb]; lia. Qed.
Lemma scaled_bits_nonneg bits : 0 ≤ bits < 2 ^ 63 → f64_is_finite (f64_from_bits bits) = true →
  0 ≤ f64_scaled (f64_from_bits bits) ∧ (f64_scaled (f64_from_bits bits) = 0 → bits = 0).
Proof.
  intros Hb Hf. destruct (Z.eq_dec bits 0) as [->|]; [done|].
  pose proof (scaled_bits_lt 0 bits ltac:(lia) ltac:(lia) eq_refl Hf) as H. change (f64_scaled (f64_from_bits 0)) with 0 in H. lia.
Qed.
Lemma finite_opp x : f64_is_finite (SFopp x) = f64_is_finite x.
Proof. by destruct x. Qed.

(** The total order of finite numbers is numeric, except that it tells the two
    zeros apart. *)
Lemma total_cmp_numeric a b : is_u64 a → is_u64 b →
  f64_is_finite (f64_from_bits a) = true → f64_is_finite (f64_from_bits b) = true →
  total_cmp a b = cmp_then (f64_scaled (f64_from_bits a) ?= f64_scaled (f64_from_bits b)) (total_cmp a b).
Proof.
  intros Ha Hb Fa Fb. unfold total_cmp. rewrite !total_order_key_spec by done. unfold is_u64 in *.
  assert (∀ x, 2 ^ 63 ≤ x < 2 ^ 64 → f64_is_finite (f64_from_bits x) = true →
    f64_is_finite (f64_from_bits (x - 2 ^ 63)) = true ∧ f64_scaled (f64_from_bits x) = - f64_scaled (f64_from_bits (x - 2 ^ 63))) as Hneg.
  { intros x Hx Hf. rewrite (from_bits_sign x Hx) in Hf |- *. rewrite finite_opp in Hf. by rewrite scaled_opp. }
  destruct (Z.ltb_spec a (2 ^ 63)), (Z.ltb_spec b (2 ^ 63)).
  - destruct (Z.compare_spec a b) as [->|H1|H1]; [by rewrite Z.compare_refl| |].
    + by rewrite (proj2 (Z.compare_lt_iff _ _) (scaled_bits_lt a b ltac:(lia) ltac:(lia) Fa Fb)).
    + by rewrite (proj2 (Z.compare_gt_iff _ _) (scaled_bits_lt b a ltac:(lia) ltac:(lia) Fb Fa)).
  - destruct (Hneg b ltac:(lia) Fb) as [Fb' ->]. pose proof (scaled_bits_nonneg a ltac:(lia) Fa). pose proof (scaled_bits_nonneg (b - 2 ^ 63) ltac:(lia) Fb').
    rewrite (proj2 (Z.compare_gt_iff a _)) by lia. destruct (Z.compare_spec (f64_scaled (f64_from_bits a)) (- f64_scaled (f64_from_bits (b - 2 ^ 63)))); [done|lia|done].
  - destruct (Hneg a ltac:(lia) Fa) as [Fa' ->]. pose proof (scaled_bits_nonneg b ltac:(lia) Fb). pose proof (scaled_bits_nonneg (a - 2 ^ 63) ltac:(lia) Fa').
    rewrite (proj2 (Z.compare_lt_iff _ b)) by lia. destruct (Z.compare_spec (- f64_scaled (f64_from_bits (a - 2 ^ 63))) (f64_scaled (f64_from_bits b))); [done|done|lia].
  - destruct (Hneg a ltac:(lia) Fa) as [Fa' ->]. destruct (Hneg b ltac:(lia) Fb) as [Fb' ->].
    destruct (Z.compare_spec (2 ^ 63 - 1 - a) (2 ^ 63 - 1 - b)) as [H1|H1|H1].
    + assert (a = b) as -> by lia. by rewrite Z.compare_refl.
    + pose proof (scaled_bits_lt (b - 2 ^ 63) (a - 2 ^ 63) ltac:(lia) ltac:(lia) Fb' Fa'). by rewrite (proj2 (Z.compare_lt_iff _ _)) by lia.
    + pose proof (scaled_bits_lt (a - 2 ^ 63) (b - 2 ^ 63) ltac:(lia) ltac:(lia) Fa' Fb'). by rewrite (proj2 (Z.compare_gt_iff _ _)) by lia.
Qed.

Section Compare.
Context `{C : Chrono}.

(** The numbers that are operands, and their exact values in units of
    2^-1074 * 10^-38. *)
Definition operand_wf (v : Value) : Prop :=
  match v with VInt x => is_i64 x | VDecimal d => wf d | VFloat bits => is_u64 bits | _ => True end.
Definition exact_value (v : Value) : option Z :=
  match v with
  | VInt x => Some (value {| coefficient := x; scale := 0 |} * 2 ^ 1074)
  | VDecimal d => Some (value d * 2 ^ 1074)
  | VFloat bits =>
      if f64_is_finite (f64_from_bits bits) then Some (f64_scaled (f64_from_bits bits) * 10 ^ 38) else None
  | _ => None
  end.

Lemma int_decimal_wf x : is_i64 x → wf {| coefficient := x; scale := 0 |}.
Proof. unfold is_i64, wf, MAX_COEFFICIENT. cbn. lia. Qed.
Lemma compare_scaled x y k : 0 < k → (x * k ?= y * k) = (x ?= y).
Proof. intros Hk. symmetry. rewrite !(Z.mul_comm _ k). apply Zmult_compare_compat_l. lia. Qed.
Lemma int_exact x : value {| coefficient := x; scale := 0 |} * 2 ^ 1074 = x * 2 ^ 1074 * 10 ^ 38.
Proof. unfold value. cbn [coefficient scale]. change (38 - 0) with 38. generalize (2 ^ 1074) as K. lia. Qed.

(** C22: Numeric comparison is exact.  Integers, decimals and finite doubles
    compare by their mathematical values, without rounding either operand to the
    type of the other; two doubles of the same value compare by their sign bit
    (-0.0 before 0.0); a decimal and a double are refused; and an infinity is
    beyond every integer.  In particular the conversion of the integral part of
    a double back to a double never fails the comparison. *)
Theorem numeric_compare_exact :
  (∀ a b x y, operand_wf a → operand_wf b → exact_value a = Some x → exact_value b = Some y →
    compare_numeric a b =
      match a, b with
      | VFloat m, VFloat n => Ok (cmp_then (x ?= y) (total_cmp m n))
      | VDecimal _, VFloat _ | VFloat _, VDecimal _ =>
          Err (Execution "Decimal and DOUBLE PRECISION require an explicit CAST" [])
      | _, _ => Ok (x ?= y)
      end) ∧
  (∀ i bits s, is_i64 i → f64_from_bits bits = S754_infinity s →
    compare_numeric (VInt i) (VFloat bits) = Ok (if s : bool then Gt else Lt) ∧
    compare_numeric (VFloat bits) (VInt i) = Ok (if s then Lt else Gt)).
Proof.
  split.
  - assert (0 < 2 ^ 1074) as HK by (by apply Z.pow_pos_nonneg).
    intros a b x y Ha Hb Ex Ey. destruct a as [| |i|m|d| | | | | | | | | | |]; try done;
      destruct b as [| |j|n|f| | | | | | | | | | |]; try done; cbn [exact_value operand_wf] in *;
      try (destruct (f64_is_finite (f64_from_bits m)) eqn:Fm; [|done]);
      try (destruct (f64_is_finite (f64_from_bits n)) eqn:Fn; [|done]);
      injection Ex as <-; injection Ey as <-; unfold compare_numeric; cbn [is_decimal orb exact_decimal result_bind]; try done.
    + rewrite !int_exact, !compare_scaled by (done || lia). done.
    + rewrite int_exact, compare_scaled by lia. by apply compare_int_finite.
    + by rewrite Decimal_cmp_value, compare_scaled by (done || by apply int_decimal_wf).
    + rewrite int_exact, compare_scaled, compare_int_finite by (done || lia). cbn [result_bind]. f_equal.
      symmetry. apply Z.compare_antisym.
    + rewrite compare_scaled by lia. f_equal. by apply total_cmp_numeric.
    + by rewrite Decimal_cmp_value, compare_scaled by (done || by apply int_decimal_wf).
    + by rewrite Decimal_cmp_value, compare_scaled by done.
  - intros i bits s Hi E. unfold compare_numeric, compare_int_float. cbn [is_decimal orb]. rewrite E. by destruct s.
Qed.
End Compare.

Module NumericDemo.
Import Calendar.

(** 2^53 + 1 and the double 2^53: the double nearest to the integer is the other operand. *)
Lemma numeric_compare_exact_witness :
  compare_numeric (VInt (2 ^ 53 + 1)) (VFloat 0x4340000000000000) = Ok Gt.
Proof.
  etransitivity.
  - apply (proj1 numeric_compare_exact (VInt (2 ^ 53 + 1)) (VFloat 0x4340000000000000)
      ((2 ^ 53 + 1) * 10 ^ 38 * 2 ^ 1074) (2 ^ 53 * 2 ^ 1074 * 10 ^ 38)); by vm_compute.
  - by vm_compute.
Defined.
End NumericDemo.
