(* ===== verification/RelationalSchema.v ===== *)
(** Tables of crates/storage/src/relational.rs: schemas, rows, predicates and
    the types of columns, with the indexes a schema requires and its validation;
    [RelationalNumericExpression] of relational/numeric_expression.rs, the
    definitions of relational/materialized_view.rs and [TimestampPrecision] of
    crates/core/src/sql_timestamp.rs.

    Names are their UTF-8 bytes.  A formatted message keeps its format string and
    the names formatted into it; counts and types formatted into one are left
    out. *)
From S2P Require Import Prelude Ordering Decimal DecimalText Text RelationalValue OrderedKey Values Numeric.

(** ** Expressions and predicates *)

Inductive RelationalNumericExpression :=
  | EValue (v : RelationalValue)
  | EColumn (name : bytes)
  | EBinary (lhs : RelationalNumericExpression) (op : NumericBinaryOp) (rhs : RelationalNumericExpression)
  | ENegate (expression : RelationalNumericExpression)
  | ECast (expression : RelationalNumericExpression) (target : NumericType).

Inductive RelationalComparisonOp := OpEq | OpNotEq | OpLt | OpLte | OpGt | OpGte.

Inductive RelationalPredicate :=
  | NumericCompare (lhs : RelationalNumericExpression) (op : RelationalComparisonOp) (rhs : RelationalNumericExpression)
  | NumericIsNull (expression : RelationalNumericExpression) (negated : bool)
  | And (lhs rhs : RelationalPredicate)
  | Or (lhs rhs : RelationalPredicate)
  | Not (predicate : RelationalPredicate)
  | Compare (column : bytes) (op : RelationalComparisonOp) (v : RelationalValue)
  | IsNull (column : bytes) (negated : bool).

(** ** Schemas *)

Record TimestampType := mk_timestamp_type { zoned : bool; timestamp_precision : Z }.
Inductive RelationalColumnDefault :=
  | DefaultLiteral (v : RelationalValue)
  | DefaultUuidV7
  | DefaultCurrentTimestamp (kind : TimestampType).
Record RelationalColumnSchema := mk_column {
  column_name : bytes;
  column_type : RelationalScalarType;
  column_nullable : bool;
  column_default : option RelationalColumnDefault;
}.
Inductive RelationalReferentialAction := NoAction | Restrict | Cascade.
Record RelationalForeignKeySchema := mk_foreign_key {
  fk_columns : list bytes;
  fk_referenced_table : bytes;
  fk_referenced_columns : list bytes;
  fk_on_delete : RelationalReferentialAction;
  fk_on_update : RelationalReferentialAction;
}.
Record RelationalIndexSchema := mk_index_schema {
  ix_name : bytes;
  ix_columns : list bytes;
  ix_unique : bool;
}.
Inductive MaterializedViewExpression :=
  | MvColumn (name : bytes)
  | MvCount (name : option bytes)
  | MvSum (name : bytes)
  | MvMin (name : bytes)
  | MvMax (name : bytes).
Record MaterializedViewColumn := mk_mv_column { mv_name : bytes; mv_expression : MaterializedViewExpression }.
Record MaterializedViewDefinition := mk_mv {
  mv_source : bytes;
  mv_columns : list MaterializedViewColumn;
  mv_group_by : list bytes;
  mv_filter : option RelationalPredicate;
}.
Record RelationalTableSchema := mk_schema {
  schema_name : bytes;
  columns : list RelationalColumnSchema;
  primary_key : list bytes;
  unique_constraints : list (list bytes);
  foreign_keys : list RelationalForeignKeySchema;
  indexes : list RelationalIndexSchema;
  materialized_view : option MaterializedViewDefinition;
}.

(** A row is its values. *)
Definition RelationalRow : Type := list RelationalValue.

(** [Iterator::position]. *)
Fixpoint position {A} (f : A → bool) (l : list A) : option nat :=
  match l with
  | [] => None
  | x :: l => if f x then Some O else S <$> position f l
  end.
Definition column_position (s : RelationalTableSchema) (name : bytes) : option nat :=
  position (λ column, bool_decide (column_name column = name)) (columns s).

(** ** Types of values *)

Definition timestamp_DEFAULT : Z := 6.
#[export] Instance scalar_type_eq_dec : EqDecision RelationalScalarType.
Proof. assert (EqDecision DecimalType) by solve_decision. solve_decision. Defined.

Definition scalar_type (v : RelationalValue) : option RelationalScalarType :=
  match v with
  | RNull => None
  | RBoolean _ => Some TBoolean
  | RBigInt _ => Some TBigInt
  | RDoublePrecision _ => Some TDoublePrecision
  | RDecimal d => Some (TDecimal (decimal_type d))
  | RText _ => Some TText
  | RBytea _ => Some TBytea
  | RVector encoded => Some (TVector (vector_dimension encoded))
  | RUuid _ => Some TUuid
  | RTimestamp _ => Some (TTimestamp timestamp_DEFAULT)
  | RTimestampTz _ => Some (TTimestampTz timestamp_DEFAULT)
  | ROverflow reference => Some (ov_scalar_type reference)
  end.

Definition scalar_logical_type (t : RelationalScalarType) : LogicalType :=
  match t with
  | TBoolean => LBoolean
  | TBigInt => LInt64
  | TDoublePrecision => LFloat64
  | TDecimal _ => LDecimal
  | TText => LText
  | TBytea => LBinary
  | TUuid => LUuid
  | TVector dimension => LVector dimension
  | TTimestamp _ => LLocalDateTime
  | TTimestampTz _ => LDateTime
  end.

Definition same_value_domain (t : RelationalScalarType) (other : option RelationalScalarType) : bool :=
  match t, other with
  | TDecimal _, Some (TDecimal _) | TTimestamp _, Some (TTimestamp _) | TTimestampTz _, Some (TTimestampTz _) => true
  | _, _ => bool_decide (other = Some t)
  end.

Section Precision.
Context `{TR : TimestampRange}.
Definition POSTGRES_EPOCH_MICROS : Z := 946684800 * 1000000.

(** [TimestampPrecision::scale]: the loop multiplies by ten once per digit below six. *)
Definition precision_scale (precision : Z) : Z := 10 ^ (6 - precision).
Definition precision_round (precision micros : Z) : option Z :=
  let scale := precision_scale precision in
  if scale =? 1 then Some micros
  else
    let relative := micros - POSTGRES_EPOCH_MICROS in
    let rounded :=
      if 0 <=? relative then Z.quot (relative + scale / 2) scale * scale
      else - (Z.quot (- relative + scale / 2) scale * scale) in
    match i64_try_from (rounded + POSTGRES_EPOCH_MICROS) with
    | Some v => if timestamp_in_range v then Some v else None
    | None => None
    end.
Definition precision_accepts (precision micros : Z) : bool :=
  timestamp_in_range micros && bool_decide (precision_round precision micros = Some micros).

(** [RelationalScalarType::accepts]. *)
Definition type_accepts (t : RelationalScalarType) (v : RelationalValue) : bool :=
  match t, v with
  | _, RNull => true
  | TDecimal kind, RDecimal d => DecimalType_accepts kind d
  | TTimestamp precision, RTimestamp micros | TTimestampTz precision, RTimestampTz micros =>
      precision_accepts precision micros
  | _, _ => bool_decide (scalar_type v = Some t)
  end.

(** [validate_value_type] and [validate_row]. *)
Definition validate_value_type (column : RelationalColumnSchema) (v : RelationalValue) : result () RelationalError :=
  match v with
  | RNull =>
      if column_nullable column then Ok ()
      else Err (Constraint (Formatted "column {} is NOT NULL" [column_name column]))
  | _ =>
      let? _ :=
        match v with
        | ROverflow reference =>
            match ov_scalar_type reference with
            | TText | TBytea => Ok ()
            | _ => Err (Schema (Formatted "overflow values require TEXT or BYTEA" []))
            end
        | _ => Ok ()
        end in
      if type_accepts (column_type column) v then Ok ()
      else Err (Schema (Formatted "column {} expects {:?} but received {:?}" [column_name column]))
  end.
Fixpoint validate_row_values (cs : list RelationalColumnSchema) (row : RelationalRow) : result () RelationalError :=
  match cs, row with
  | column :: cs, v :: row => let? _ := validate_value_type column v in validate_row_values cs row
  | _, _ => Ok ()
  end.
Definition validate_row (s : RelationalTableSchema) (row : RelationalRow) : result () RelationalError :=
  if negb (zlen row =? zlen (columns s))
  then Err (Schema (Formatted "table {} expects {} columns but row has {}" [schema_name s]))
  else validate_row_values (columns s) row.
End Precision.

(** ** Required indexes *)

Inductive RelationalIndexRole := Primary | UniqueConstraint | DeclaredUnique | Secondary | ForeignKeySupport.
#[export] Instance role_eq_dec : EqDecision RelationalIndexRole.
Proof. solve_decision. Defined.
Definition is_unique (role : RelationalIndexRole) : bool :=
  match role with Primary | UniqueConstraint | DeclaredUnique => true | _ => false end.

Record RelationalIndexDefinition := mk_definition {
  def_name : bytes;
  def_columns : list bytes;
  def_role : RelationalIndexRole;
}.

Definition RELATIONAL_PRIMARY_INDEX_NAME : bytes := lit "__primary__".
Definition RELATIONAL_UNIQUE_INDEX_PREFIX : bytes := lit "__unique_".
Definition RELATIONAL_FOREIGN_KEY_INDEX_PREFIX : bytes := lit "__foreign_key_".
Definition relational_unique_index_name (ordinal : nat) : bytes :=
  RELATIONAL_UNIQUE_INDEX_PREFIX ++ print_u128 (Z.of_nat ordinal).
Definition relational_foreign_key_index_name (ordinal : nat) : bytes :=
  RELATIONAL_FOREIGN_KEY_INDEX_PREFIX ++ print_u128 (Z.of_nat ordinal).

Definition required_index_definitions (s : RelationalTableSchema) : list RelationalIndexDefinition :=
  (match primary_key s with
   | [] => []
   | _ => [mk_definition RELATIONAL_PRIMARY_INDEX_NAME (primary_key s) Primary]
   end)
  ++ imap (λ ordinal columns, mk_definition (relational_unique_index_name ordinal) columns UniqueConstraint)
       (unique_constraints s)
  ++ ((λ index, mk_definition (ix_name index) (ix_columns index) (if ix_unique index then DeclaredUnique else Secondary))
        <$> indexes s)
  ++ imap (λ ordinal key, mk_definition (relational_foreign_key_index_name ordinal) (fk_columns key) ForeignKeySupport)
       (foreign_keys s).

Definition unique_index_definition (s : RelationalTableSchema) (cs : list bytes) : option RelationalIndexDefinition :=
  if negb (bool_decide (cs = [])) && bool_decide (cs = primary_key s)
  then Some (mk_definition RELATIONAL_PRIMARY_INDEX_NAME (primary_key s) Primary)
  else
    match position (λ candidate, bool_decide (candidate = cs)) (unique_constraints s) with
    | Some ordinal => Some (mk_definition (relational_unique_index_name ordinal) cs UniqueConstraint)
    | None =>
        (λ index, mk_definition (ix_name index) (ix_columns index) DeclaredUnique) <$>
          head (List.filter (λ index, ix_unique index && bool_decide (ix_columns index = cs)) (indexes s))
    end.

Definition index_prefix_covers_matches (s : RelationalTableSchema) (cs : list bytes) (prefix_len : nat) (unique : bool)
    : bool :=
  (0 <? prefix_len)%nat && (prefix_len <=? length cs)%nat
  && forallb (λ name, match column_position s name with Some _ => true | None => false end) cs
  && (negb unique
      || forallb (λ name,
           match column_position s name ≫= (λ p, columns s !! p) with
           | Some column => negb (column_nullable column)
           | None => false
           end) (drop prefix_len cs)).

(** ** Validation of schemas *)

Definition starts_with (prefix s : bytes) : bool := match strip_prefix prefix s with Some _ => true | None => false end.
Definition is_reserved_relational_index_name (name : bytes) : bool :=
  bool_decide (name = RELATIONAL_PRIMARY_INDEX_NAME)
  || starts_with RELATIONAL_UNIQUE_INDEX_PREFIX name
  || starts_with RELATIONAL_FOREIGN_KEY_INDEX_PREFIX name.

Definition validate_clock_default (column : RelationalColumnSchema) : result () RelationalError :=
  match column_type column with
  | TTimestamp _ | TTimestampTz _ => Ok ()
  | _ => Err (Schema (Formatted
           "column {} uses a CURRENT_TIMESTAMP or LOCALTIMESTAMP default but is not TIMESTAMP or TIMESTAMPTZ"
           [column_name column]))
  end.

Definition validate_key_column (column : RelationalColumnSchema) (kind : bytes) : result () RelationalError :=
  match column_type column with
  | TVector _ => Err (Schema (Formatted "{kind} does not support VECTOR column {}" [kind; column_name column]))
  | _ => Ok ()
  end.

Fixpoint validate_columns (s : RelationalTableSchema) (cs : list bytes) (kind : bytes) (seen : gset bytes)
    : result () RelationalError :=
  match cs with
  | [] => Ok ()
  | name :: cs =>
      match column_position s name ≫= (λ p, columns s !! p) with
      | Some column =>
          if bool_decide (name ∈ seen)
          then Err (Schema (Formatted "{kind} references unknown or duplicate column {column}" [kind; name]))
          else let? _ := validate_key_column column kind in validate_columns s cs kind ({[name]} ∪ seen)
      | None => Err (Schema (Formatted "{kind} references unknown or duplicate column {column}" [kind; name]))
      end
  end.
Definition validate_column_list (s : RelationalTableSchema) (cs : list bytes) (kind : bytes) : result () RelationalError :=
  match cs with
  | [] => Err (Schema (Formatted "{kind} must contain at least one column" [kind]))
  | _ => validate_columns s cs kind ∅
  end.

(** A check on every element, in order. *)
Fixpoint for_each {A E} (f : A → result () E) (l : list A) : result () E :=
  match l with [] => Ok () | x :: l => let? _ := f x in for_each f l end.

Section Validation.
Context `{TR : TimestampRange}.

Definition validate_default (column : RelationalColumnSchema) : result () RelationalError :=
  match column_default column with
  | None => Ok ()
  | Some (DefaultLiteral v) => validate_value_type column v
  | Some DefaultUuidV7 =>
      if bool_decide (column_type column = TUuid) then Ok ()
      else Err (Schema (Formatted "column {} uses uuidv7() default but is not UUID" [column_name column]))
  | Some (DefaultCurrentTimestamp _) => validate_clock_default column
  end.
Fixpoint validate_column_names (cs : list RelationalColumnSchema) (names : gset bytes) : result () RelationalError :=
  match cs with
  | [] => Ok ()
  | column :: cs =>
      if bool_decide (column_name column = []) || bool_decide (column_name column ∈ names)
      then Err (Schema (Formatted "duplicate or empty column {}" [column_name column]))
      else let? _ := validate_default column in validate_column_names cs ({[column_name column]} ∪ names)
  end.
Fixpoint validate_index_names (s : RelationalTableSchema) (ixs : list RelationalIndexSchema) (names : gset bytes)
    : result () RelationalError :=
  match ixs with
  | [] => Ok ()
  | index :: ixs =>
      if bool_decide (ix_name index = []) || is_reserved_relational_index_name (ix_name index)
         || bool_decide (ix_name index ∈ names)
      then Err (Schema (Formatted "invalid, duplicate, or reserved index name {}" [ix_name index]))
      else
        let? _ := validate_column_list s (ix_columns index) (lit "index") in
        validate_index_names s ixs ({[ix_name index]} ∪ names)
  end.

Definition validate_table_schema (s : RelationalTableSchema) : result () RelationalError :=
  if match materialized_view s with Some view => zlen (columns s) <=? zlen (mv_columns view) | None => false end
  then Err (Schema (Formatted "materialized view is missing its internal columns" []))
  else if bool_decide (schema_name s = []) || bool_decide (zlen (columns s) = 0)
  then Err (Schema (Formatted "table name and columns must be non-empty" []))
  else
    let? _ := validate_column_names (columns s) ∅ in
    let? _ := match primary_key s with [] => Ok () | _ => validate_column_list s (primary_key s) (lit "primary key") end in
    let? _ := for_each (λ name,
      match column_position s name ≫= (λ p, columns s !! p) with
      | Some column =>
          if column_nullable column then Err (Schema (Formatted "primary-key column {column} must be NOT NULL" [name]))
          else Ok ()
      | None => Err (Schema (Formatted "validated column" [name])) (* the [expect]: the list was validated *)
      end) (primary_key s) in
    let? _ := for_each (λ unique, validate_column_list s unique (lit "unique constraint")) (unique_constraints s) in
    let? _ := for_each (λ key,
      let? _ := validate_column_list s (fk_columns key) (lit "foreign key") in
      if negb (zlen (fk_columns key) =? zlen (fk_referenced_columns key)) || bool_decide (fk_columns key = [])
      then Err (Schema (Formatted "foreign-key column counts must match and be non-empty" []))
      else Ok ()) (foreign_keys s) in
    validate_index_names s (indexes s) ∅.
End Validation.

(** ** The names of the required indexes *)

Lemma position_bound {A} (f : A → bool) l i : position f l = Some i → ∃ x, l !! i = Some x ∧ f x = true.
Proof.
  revert i; induction l as [|x l IH]; intros i; [done|]. cbn. destruct (f x) eqn:E; [intros [= <-]; by exists x|].
  destruct (position f l) as [j|]; [|done]. intros [= <-]. by apply IH.
Qed.

Lemma for_each_ok {A E} (f : A → result () E) l : for_each f l = Ok () ↔ ∀ x, x ∈ l → f x = Ok ().
Proof.
  induction l as [|x l IH]; cbn [for_each].
  - split; [by intros _ ? ?%elem_of_nil|done].
  - split.
    + intros ([] & Hx & Hl)%result_bind_ok y [-> | Hy]%elem_of_cons; [done|]. by apply IH.
    + intros H. rewrite (H x) by apply list_elem_of_here. cbn. apply IH. intros y Hy. apply H. by apply elem_of_cons; right.
Qed.

Lemma unique_name_inj i j : relational_unique_index_name i = relational_unique_index_name j → i = j.
Proof.
  intros H%app_inv_head. apply (f_equal parse_digits) in H. rewrite !parse_digits_print in H by lia. injection H. lia.
Qed.
Lemma foreign_key_name_inj i j : relational_foreign_key_index_name i = relational_foreign_key_index_name j → i = j.
Proof.
  intros H%app_inv_head. apply (f_equal parse_digits) in H. rewrite !parse_digits_print in H by lia. injection H. lia.
Qed.

Lemma imap_names_nodup {A} (name : nat → bytes) (l : list A) :
  (∀ i j, name i = name j → i = j) → NoDup (imap (λ i _, name i) l).
Proof.
  intros Hinj. apply NoDup_alt. intros i j x. rewrite !list_lookup_imap.
  destruct (l !! i), (l !! j); try done. cbn. intros [= <-] [= E]. by apply Hinj.
Qed.
Lemma elem_of_imap_name {A} (name : nat → bytes) (l : list A) x : x ∈ imap (λ i _, name i) l → ∃ i, x = name i.
Proof.
  intros (i & H)%list_elem_of_lookup. rewrite list_lookup_imap in H. exists i. destruct (l !! i); [by injection H as <-|done].
Qed.

Lemma index_names_ok s ixs names : validate_index_names s ixs names = Ok () →
  NoDup (ix_name <$> ixs) ∧ (∀ x, x ∈ ix_name <$> ixs → x ∉ names ∧ is_reserved_relational_index_name x = false).
Proof.
  revert names; induction ixs as [|index ixs IH]; intros names; cbn [validate_index_names fmap list_fmap].
  { intros _. split; [constructor|]. by intros x ?%elem_of_nil. }
  destruct (bool_decide (ix_name index = [])); [done|]. cbn [orb].
  destruct (is_reserved_relational_index_name (ix_name index)) eqn:Er; [done|]. cbn [orb].
  destruct (bool_decide (ix_name index ∈ names)) eqn:Em; [done|]. apply bool_decide_eq_false in Em.
  intros ([] & _ & H)%result_bind_ok. destruct (IH _ H) as [Hn Hx]. split.
  - apply NoDup_cons. split; [|done]. intros Hin. destruct (Hx _ Hin) as [H1 _]. set_solver.
  - intros x [-> | Hin]%elem_of_cons; [done|]. destruct (Hx _ Hin) as [H1 H2]. split; [set_solver|done].
Qed.

Lemma starts_with_app p s : starts_with p (p ++ s) = true.
Proof. unfold starts_with. by rewrite strip_prefix_app. Qed.
Lemma unique_name_reserved i : is_reserved_relational_index_name (relational_unique_index_name i) = true.
Proof. unfold is_reserved_relational_index_name, relational_unique_index_name. by rewrite starts_with_app, orb_true_r. Qed.
Lemma foreign_key_name_reserved i : is_reserved_relational_index_name (relational_foreign_key_index_name i) = true.
Proof. unfold is_reserved_relational_index_name, relational_foreign_key_index_name. by rewrite starts_with_app, orb_true_r. Qed.

Section Names.
Context `{TR : TimestampRange}.

(** The indexes of a validated table have different names: declared names are
    distinct and not reserved, and the reserved ones carry their ordinal. *)
Lemma required_names_nodup s : validate_table_schema s = Ok () → NoDup (def_name <$> required_index_definitions s).
Proof.
  unfold validate_table_schema. destruct (match materialized_view s with Some _ => _ | None => _ end); [done|].
  destruct (bool_decide _ || _); [done|].
  intros (_ & _ & (_ & _ & (_ & _ & (_ & _ & (_ & _ & H)%result_bind_ok)%result_bind_ok)%result_bind_ok)%result_bind_ok)%result_bind_ok.
  apply index_names_ok in H as [Hn Hx]. unfold required_index_definitions. rewrite !fmap_app, !fmap_imap.
  match goal with |- context [def_name <$> (?f <$> indexes s)] =>
    assert (def_name <$> (f <$> indexes s) = ix_name <$> indexes s) as -> by (by rewrite <- list_fmap_compose) end.
  unfold compose. cbn [def_name].
  apply NoDup_app. split; [destruct (primary_key s); repeat constructor; by intros ?%elem_of_nil|]. split.
  { intros x Hp. assert (x = RELATIONAL_PRIMARY_INDEX_NAME) as ->.
    { destruct (primary_key s); [by apply elem_of_nil in Hp|]. by apply list_elem_of_singleton in Hp. }
    intros [[i Hi]%elem_of_imap_name|[H|[i Hi]%elem_of_imap_name]%elem_of_app]%elem_of_app; [done| |done]. by destruct (Hx _ H). }
  apply NoDup_app. split; [apply imap_names_nodup, unique_name_inj|]. split.
  { intros x [i ->]%elem_of_imap_name. intros [H|[j Hj]%elem_of_imap_name]%elem_of_app; [|done].
    destruct (Hx _ H) as [_ Hr]. by rewrite unique_name_reserved in Hr. }
  apply NoDup_app. split; [done|]. split; [|apply imap_names_nodup, foreign_key_name_inj].
  intros x H [j ->]%elem_of_imap_name. destruct (Hx _ H) as [_ Hr]. by rewrite foreign_key_name_reserved in Hr.
Qed.
End Names.
