(* ===== verification/NumericExpression.v ===== *)
(** Numeric expressions over a row: crates/storage/src/relational/numeric_expression.rs.

    An expression is evaluated in two ways: by recursion on its tree, for
    predicates, and by a stack machine over the instructions it is compiled to,
    for assignments.  [None] is a panic: an index outside the row or the stack. *)
From S2P Require Import Prelude Ordering Decimal DecimalArith DecimalText Text RelationalValue OrderedKey Values Numeric RelationalSchema.

Definition MAX_NUMERIC_EXPRESSION_DEPTH : Z := 64.
Definition MAX_NUMERIC_EXPRESSION_NODES : Z := 4096.

Definition execution (e : HawDBError) : RelationalError := Constraint (Displayed e).

(** ** Bounds *)

Definition too_large : RelationalError := Admission "numeric expression exceeds 64 levels or 4096 nodes".
Fixpoint visit_node (e : RelationalNumericExpression) (depth nodes : Z) : result Z RelationalError :=
  if (MAX_NUMERIC_EXPRESSION_DEPTH <? depth) || (nodes =? MAX_NUMERIC_EXPRESSION_NODES) then Err too_large
  else
    let nodes := nodes + 1 in
    match e with
    | EBinary lhs _ rhs => let? nodes := visit_node lhs (depth + 1) nodes in visit_node rhs (depth + 1) nodes
    | ENegate expression | ECast expression _ => visit_node expression (depth + 1) nodes
    | EValue _ | EColumn _ => Ok nodes
    end.
Definition node_count (e : RelationalNumericExpression) : result Z RelationalError := visit_node e 0 0.

Section Expressions.
Context `{C : Chrono}.

Definition numeric_ref (v : RelationalValue) : result Value RelationalError :=
  match v with
  | RNull => Ok VNull
  | RBigInt x => Ok (VInt x)
  | RDoublePrecision bits => Ok (VFloat bits)
  | RDecimal d => Ok (VDecimal d)
  | RText text => Ok (VString text)
  | ROverflow _ => Err (Admission "numeric CAST requires hydrated text")
  | _ => Err (Schema (Formatted "numeric expression requires numeric or CAST text operands" []))
  end.
Definition result_ref (v : Value) : result Value RelationalError :=
  match v with
  | VNull | VInt _ | VFloat _ | VDecimal _ => Ok v
  | _ => Err (Schema (Formatted "numeric expression must produce a numeric value" []))
  end.

(** ** By recursion *)

(** [row.values()[i]], which panics outside the row. *)
Fixpoint evaluate_row (s : RelationalTableSchema) (row : RelationalRow) (e : RelationalNumericExpression)
    : option (result Value RelationalError) :=
  match e with
  | EValue v => Some (numeric_ref v)
  | EColumn name =>
      match column_position s name with
      | None => Some (Err (Schema (Formatted "unknown numeric column {name}" [name])))
      | Some p => numeric_ref <$> row !! p
      end
  | EBinary lhs op rhs =>
      x ← evaluate_row s row lhs;
      match x with
      | Err e => Some (Err e)
      | Ok x =>
          y ← evaluate_row s row rhs;
          Some (let? y := y in let? z := map_err execution (evaluate_numeric x op y) in result_ref z)
      end
  | ENegate expression =>
      x ← evaluate_row s row expression;
      Some (let? x := x in let? z := map_err execution (negate_numeric x) in result_ref z)
  | ECast expression target =>
      x ← evaluate_row s row expression;
      Some (let? x := x in let? z := map_err execution (cast_numeric x target) in result_ref z)
  end.

(** ** By a stack machine *)

Inductive Instruction :=
  | IValue (v : Value)
  | IColumn (index : nat)
  | IBinary (op : NumericBinaryOp)
  | INegate
  | ICast (target : NumericType).
Record CompiledNumericExpression := mk_compiled {
  instructions : list Instruction;
  result_type : option LogicalType;
}.

Definition common_type (lhs rhs : option LogicalType) : result (option LogicalType) RelationalError :=
  map_err (λ e, Schema (Displayed e)) (common_numeric_type lhs rhs).

(** Instructions are pushed after those of the operands. *)
Fixpoint compile (e : RelationalNumericExpression) (s : RelationalTableSchema) (pushed : list Instruction)
    : result (list Instruction * option LogicalType) RelationalError :=
  let? (pushed, instruction, kind) :=
    match e with
    | EValue v => let? v := numeric_ref v in Ok (pushed, IValue v, value_logical_type v)
    | EColumn name =>
        match column_position s name with
        | None => Err (Schema (Formatted "numeric expression references unknown column {name}" [name]))
        | Some index =>
            match (λ column, scalar_logical_type (column_type column)) <$> columns s !! index with
            | Some kind =>
                if negb (is_numeric kind) && negb (is_utf8 kind)
                then Err (Schema (Formatted "numeric expression requires numeric or CAST text operands" []))
                else Ok (pushed, IColumn index, Some kind)
            | None => Err (Schema (Formatted "index out of bounds" [name])) (* a position is within the columns *)
            end
        end
    | EBinary lhs op rhs =>
        let? (pushed, x) := compile lhs s pushed in
        let? (pushed, y) := compile rhs s pushed in
        let? kind := common_type x y in
        Ok (pushed, IBinary op, kind)
    | ENegate expression =>
        let? (pushed, x) := compile expression s pushed in
        let? kind := common_type x None in
        Ok (pushed, INegate, kind)
    | ECast expression target =>
        let? (pushed, _) := compile expression s pushed in
        Ok (pushed, ICast target, Some (numeric_logical_type target))
    end in
  Ok (pushed ++ [instruction], kind).

(** [RelationalNumericExpression::compile]. *)
Definition compile_expression (e : RelationalNumericExpression) (s : RelationalTableSchema)
    : result CompiledNumericExpression RelationalError :=
  let? _ := node_count e in
  let? (code, kind) := compile e s [] in
  Ok (mk_compiled code kind).

(** A stack of fixed size, and the number of live operands. *)
Record Stack := mk_stack { slots : list Value; live : nat }.
Definition empty_stack : Stack := mk_stack (replicate (Z.to_nat (MAX_NUMERIC_EXPRESSION_DEPTH + 2)) VNull) 0.
Definition set_slot (i : nat) (v : Value) (st : list Value) : option (list Value) :=
  if (i <? length st)%nat then Some (<[i := v]> st) else None.
Definition push (v : Value) (st : Stack) : option Stack :=
  st' ← set_slot (live st) v (slots st); Some (mk_stack st' (S (live st))).
(** The slot [n] below the top. *)
Definition peek (n : nat) (st : Stack) : option Value :=
  if (n <=? live st)%nat then slots st !! (live st - n)%nat else None.

Definition execute (row : RelationalRow) (instruction : Instruction) (st : Stack) : option (result Stack RelationalError) :=
  match instruction with
  | IValue v => Ok <$> push v st
  | IColumn index =>
      v ← row !! index;
      match numeric_ref v with
      | Ok v => Ok <$> push v st
      | Err e => Some (Err e)
      end
  | IBinary op =>
      x ← peek 2 st;
      y ← peek 1 st;
      match map_err execution (evaluate_numeric x op y) with
      | Err e => Some (Err e)
      | Ok z =>
          let live := (live st - 1)%nat in
          match result_ref z with
          | Err e => Some (Err e)
          | Ok z => st' ← set_slot (live - 1) z (slots st); Some (Ok (mk_stack st' live))
          end
      end
  | INegate =>
      x ← peek 1 st;
      match (let? z := map_err execution (negate_numeric x) in result_ref z) with
      | Err e => Some (Err e)
      | Ok z => st' ← set_slot (live st - 1) z (slots st); Some (Ok (mk_stack st' (live st)))
      end
  | ICast target =>
      x ← peek 1 st;
      match (let? z := map_err execution (cast_numeric x target) in result_ref z) with
      | Err e => Some (Err e)
      | Ok z => st' ← set_slot (live st - 1) z (slots st); Some (Ok (mk_stack st' (live st)))
      end
  end.
Fixpoint execute_all (row : RelationalRow) (code : list Instruction) (st : Stack) : option (result Stack RelationalError) :=
  match code with
  | [] => Some (Ok st)
  | instruction :: code =>
      r ← execute row instruction st;
      match r with Ok st => execute_all row code st | Err e => Some (Err e) end
  end.
Definition evaluate (c : CompiledNumericExpression) (row : RelationalRow) : option (result Value RelationalError) :=
  r ← execute_all row (instructions c) empty_stack;
  match r with
  | Ok st => Ok <$> slots st !! O
  | Err e => Some (Err e)
  end.

Definition assignment (c : CompiledNumericExpression) (row : RelationalRow) (target : RelationalScalarType)
    : option (result RelationalValue RelationalError) :=
  r ← evaluate c row;
  match r with
  | Err e => Some (Err e)
  | Ok v =>
      if is_null v then Some (Ok RNull)
      else
        match
          match target with
          | TBigInt => Ok NBigInt
          | TDoublePrecision => Ok NDoublePrecision
          | TDecimal kind =>
              match v with
              | VFloat _ => Err (Schema (Formatted "DOUBLE PRECISION assignment to Decimal requires CAST" []))
              | _ => Ok (NDecimal kind)
              end
          | _ => Err (Schema (Formatted "numeric assignment requires a numeric target" []))
          end
        with
        | Err e => Some (Err e)
        | Ok target =>
            match map_err execution (cast_numeric v target) with
            | Err e => Some (Err e)
            | Ok VNull => Some (Ok RNull)
            | Ok (VInt x) => Some (Ok (RBigInt x))
            | Ok (VFloat bits) => Some (Ok (RDoublePrecision bits))
            | Ok (VDecimal d) => Some (Ok (RDecimal d))
            | Ok _ => None (* [unreachable!] *)
            end
        end
  end.

Definition validate_numeric_comparison (lhs rhs : option LogicalType) : result () RelationalError :=
  let? _ := common_type lhs rhs in Ok ().
End Expressions.

(** ** Bounds are exact *)

Fixpoint height (e : RelationalNumericExpression) : Z :=
  match e with
  | EValue _ | EColumn _ => 0
  | EBinary lhs _ rhs => 1 + Z.max (height lhs) (height rhs)
  | ENegate expression | ECast expression _ => 1 + height expression
  end.
Fixpoint size (e : RelationalNumericExpression) : Z :=
  match e with
  | EValue _ | EColumn _ => 1
  | EBinary lhs _ rhs => 1 + size lhs + size rhs
  | ENegate expression | ECast expression _ => 1 + size expression
  end.

Lemma height_nonneg e : 0 ≤ height e.
Proof. induction e; cbn; lia. Qed.
Lemma size_pos e : 1 ≤ size e.
Proof. induction e; cbn; lia. Qed.

Lemma visit_bounded e : ∀ depth nodes, nodes ≤ 4096 →
  visit_node e depth nodes =
    if (depth + height e <=? 64) && (nodes + size e <=? 4096) then Ok (nodes + size e) else Err too_large.
Proof.
  unfold MAX_NUMERIC_EXPRESSION_DEPTH in *.
  induction e as [v|name|lhs IHl op rhs IHr|e IH|e IH t]; intros depth nodes Hn; cbn [visit_node];
    unfold MAX_NUMERIC_EXPRESSION_DEPTH, MAX_NUMERIC_EXPRESSION_NODES;
    destruct (Z.ltb_spec 64 depth), (Z.eqb_spec nodes 4096); cbn [orb height size];
    repeat match goal with |- context [height ?e] =>
      lazymatch goal with H : 0 ≤ height e |- _ => fail | _ => pose proof (height_nonneg e); pose proof (size_pos e) end end;
    rewrite ?IHl, ?IH by lia; try (repeat case_bool; cbn [andb result_bind]; done || lia || (f_equal; lia)).
  destruct ((depth + 1 + height lhs <=? 64) && (nodes + 1 + size lhs <=? 4096)) eqn:E; cbn [result_bind].
  - apply andb_true_iff in E as [E1%Z.leb_le E2%Z.leb_le]. rewrite IHr by lia. repeat case_bool; cbn [andb]; done || lia || (f_equal; lia).
  - apply andb_false_iff in E as [E%Z.leb_gt|E%Z.leb_gt]; repeat case_bool; cbn [andb]; done || lia.
Qed.
Lemma node_count_spec e :
  node_count e = if (height e <=? 64) && (size e <=? 4096) then Ok (size e) else Err too_large.
Proof. unfold node_count. by rewrite visit_bounded. Qed.

(** ** The two evaluations agree *)

Section Compile.
Context `{C : Chrono} (s : RelationalTableSchema).
Implicit Types (st : Stack) (v x y z : Value) (row : RelationalRow).

(** One more operand on the stack, over the same operands. *)
Definition stacked v st st' : Prop :=
  live st' = S (live st) ∧ length (slots st') = length (slots st) ∧
  take (live st) (slots st') = take (live st) (slots st) ∧ slots st' !! live st = Some v.

Lemma stacked_below v st st' i : stacked v st st' → (i < live st)%nat → slots st' !! i = slots st !! i.
Proof.
  intros (_ & _ & Ht & _) Hi. apply (f_equal (lookup i)) in Ht. by rewrite !lookup_take_lt in Ht.
Qed.
Lemma store_ok z st sl : length sl = length (slots st) → take (live st) sl = take (live st) (slots st) →
  (live st < length (slots st))%nat →
  ∃ sl', set_slot (live st) z sl = Some sl' ∧ stacked z st (mk_stack sl' (S (live st))).
Proof.
  intros Hlen Ht Hl. unfold set_slot. rewrite (proj2 (Nat.ltb_lt _ _)) by lia. eexists. split; [done|].
  split_and!; cbn; [done|by rewrite length_insert|by rewrite take_insert_ge|apply list_lookup_insert_eq; lia].
Qed.
Lemma push_ok v st : (live st < length (slots st))%nat → ∃ st', push v st = Some st' ∧ stacked v st st'.
Proof.
  intros Hl. destruct (store_ok v st (slots st) eq_refl eq_refl Hl) as (sl & E & Hs). unfold push. rewrite E. by eexists.
Qed.
Lemma peek_top v st st' : stacked v st st' → peek 1 st' = Some v.
Proof. intros (Hl & _ & _ & Hv). unfold peek. by rewrite Hl, Nat.sub_succ, Nat.sub_0_r. Qed.
Lemma peek_second x y st st' st'' : stacked x st st' → stacked y st' st'' → peek 2 st'' = Some x.
Proof.
  intros Hx Hy. pose proof Hx as (Hl & _ & _ & Hv). pose proof Hy as (Hl' & _ & _ & _).
  unfold peek. rewrite Hl', Hl. cbn [Nat.leb Nat.sub]. rewrite Nat.sub_0_r.
  rewrite (stacked_below y st' st'') by (done || lia). done.
Qed.
(** The top of the stack, or the two operands on top, replaced by a result. *)
Lemma replace_top v z st st' : stacked v st st' →
  ∃ sl, set_slot (live st) z (slots st') = Some sl ∧ stacked z st (mk_stack sl (S (live st))).
Proof. intros (Hl & Hlen & Ht & Hv). apply lookup_lt_Some in Hv. apply store_ok; [done|done|lia]. Qed.
Lemma replace_second x y z st st' st'' : stacked x st st' → stacked y st' st'' →
  ∃ sl, set_slot (live st) z (slots st'') = Some sl ∧ stacked z st (mk_stack sl (S (live st))).
Proof.
  intros (Hl & Hlen & Ht & Hv) (Hl' & Hlen' & Ht' & _). apply lookup_lt_Some in Hv. apply store_ok; [lia| |lia].
  rewrite <- Ht. rewrite Hl in Ht'. apply (f_equal (take (live st))) in Ht'. rewrite !take_take in Ht'.
  by rewrite !Nat.min_l in Ht' by lia.
Qed.

(** What running instructions does, when they compute an expression. *)
Definition runs_to row (code : list Instruction) st (r : option (result Value RelationalError)) : Prop :=
  match r with
  | Some (Ok v) => ∃ st', stacked v st st' ∧ ∀ rest, execute_all row (code ++ rest) st = execute_all row rest st'
  | Some (Err e) => ∀ rest, execute_all row (code ++ rest) st = Some (Err e)
  | None => False
  end.

(** Executing one more instruction after code that computes its operand. *)
Lemma runs_then1 row code st instruction (f : Value → result Value RelationalError) r :
  runs_to row code st r →
  (∀ st' v, peek 1 st' = Some v → execute row instruction st' =
    match f v with
    | Err e => Some (Err e)
    | Ok z => sl ← set_slot (live st' - 1) z (slots st'); Some (Ok (mk_stack sl (live st')))
    end) →
  runs_to row (code ++ [instruction]) st (x ← r; Some (let? x := x in f x)).
Proof.
  intros Hr Hi. destruct r as [[v|e]|]; [| |done]; cbn [mbind option_bind result_bind runs_to] in *.
  - destruct Hr as (st' & Hs & Hr). pose proof Hs as (Hl & _). specialize (Hi st' v (peek_top v st st' Hs)).
    destruct (f v) as [z|e]; cbn [result_bind runs_to] in *.
    + destruct (replace_top v z st st' Hs) as (sl & Esl & Hst). exists (mk_stack sl (S (live st))). split; [done|].
      intros rest. rewrite <- app_assoc, Hr. cbn [app execute_all]. rewrite Hi, Hl, Nat.sub_succ, Nat.sub_0_r, Esl. done.
    + intros rest. rewrite <- app_assoc, Hr. cbn [app execute_all]. by rewrite Hi.
  - intros rest. by rewrite <- app_assoc, Hr.
Qed.

Lemma compile_runs e : ∀ pushed code kind, compile e s pushed = Ok (code, kind) →
  ∃ own, code = pushed ++ own ∧ ∀ row st, length row = length (columns s) →
    Z.of_nat (live st) + height e < Z.of_nat (length (slots st)) → runs_to row own st (evaluate_row s row e).
Proof.
  induction e as [v|name|lhs IHl op rhs IHr|e IH|e IH t]; intros pushed code kind; cbn [compile];
    intros ([[p i] k] & Hc & [= <- <-])%result_bind_ok.
  - apply result_bind_ok in Hc as (w & Ew & [= <- <- <-]). exists [IValue w]. split; [done|]. intros row st Hrow Hst.
    cbn [evaluate_row runs_to height] in *. rewrite Ew. destruct (push_ok w st ltac:(lia)) as (st' & Ep & Hs).
    exists st'. split; [done|]. intros rest. cbn [app execute_all execute]. by rewrite Ep.
  - destruct (column_position s name) as [index|] eqn:Ep; [|done]. destruct (columns s !! index) as [column|] eqn:Ec; [|done].
    cbn [fmap option_fmap option_map] in Hc. destruct (negb _ && negb _); [done|]. injection Hc as <- <- <-.
    exists [IColumn index]. split; [done|]. intros row st Hrow Hst. cbn [evaluate_row height] in *. rewrite Ep.
    destruct (row !! index) as [v|] eqn:Ev; [|apply lookup_ge_None in Ev; apply lookup_lt_Some in Ec; lia].
    cbn [fmap option_fmap option_map runs_to]. destruct (numeric_ref v) as [w|er] eqn:Ew.
    + destruct (push_ok w st ltac:(lia)) as (st' & Eq & Hs). exists st'. split; [done|]. intros rest.
      cbn [app execute_all execute]. rewrite Ev. cbn. by rewrite Ew, Eq.
    + intros rest. cbn [app execute_all execute]. rewrite Ev. cbn. by rewrite Ew.
  - apply result_bind_ok in Hc as ([pl kl] & Hcl & Hc). apply result_bind_ok in Hc as ([pr kr] & Hcr & Hc).
    apply result_bind_ok in Hc as (kc & _ & [= <- <- <-]).
    destruct (IHl _ _ _ Hcl) as (ol & -> & Hl). destruct (IHr _ _ _ Hcr) as (or & -> & Hr).
    exists (ol ++ or ++ [IBinary op]). split; [by rewrite !app_assoc|]. intros row st Hrow Hst. cbn [evaluate_row height] in *.
    pose proof (height_nonneg rhs). specialize (Hl row st Hrow ltac:(lia)).
    destruct (evaluate_row s row lhs) as [[x|er]|]; [| |done]; cbn [mbind option_bind runs_to] in *;
      [|intros rest; by rewrite <- app_assoc, Hl].
    destruct Hl as (st1 & Hs1 & Hl). pose proof Hs1 as (Hlive & Hlen & _). specialize (Hr row st1 Hrow ltac:(lia)).
    destruct (evaluate_row s row rhs) as [[y|er]|]; [| |done]; cbn [mbind option_bind runs_to result_bind] in *;
      [|intros rest; by rewrite <- !app_assoc, Hl, Hr].
    destruct Hr as (st2 & Hs2 & Hr). pose proof Hs2 as (Hlive2 & _).
    assert (∀ rest, execute_all row ((ol ++ or ++ [IBinary op]) ++ rest) st = execute_all row (IBinary op :: rest) st2) as Hrun.
    { intros rest. by rewrite <- !app_assoc, Hl, Hr. }
    destruct (map_err execution (evaluate_numeric x op y)) as [z|er] eqn:Ez; cbn [result_bind].
    + destruct (result_ref z) as [w|er] eqn:Ew.
      * destruct (replace_second x y w st st1 st2 Hs1 Hs2) as (sl & Esl & Hst'). exists (mk_stack sl (S (live st))). split; [done|].
        intros rest. rewrite Hrun. cbn [execute_all execute]. rewrite (peek_second x y st st1 st2), (peek_top y st1 st2) by done.
        cbn [mbind option_bind]. rewrite Ez, Ew, Hlive2, Hlive. cbn [Nat.sub]. rewrite Nat.sub_0_r, Esl. done.
      * intros rest. rewrite Hrun. cbn [execute_all execute]. rewrite (peek_second x y st st1 st2), (peek_top y st1 st2) by done.
        cbn [mbind option_bind]. by rewrite Ez, Ew.
    + intros rest. rewrite Hrun. cbn [execute_all execute]. rewrite (peek_second x y st st1 st2), (peek_top y st1 st2) by done.
      cbn [mbind option_bind]. by rewrite Ez.
  - apply result_bind_ok in Hc as ([pl kl] & Hcl & Hc). apply result_bind_ok in Hc as (kc & _ & [= <- <- <-]).
    destruct (IH _ _ _ Hcl) as (own & -> & Hrun). exists (own ++ [INegate]). split; [by rewrite app_assoc|].
    intros row st Hrow Hst. cbn [evaluate_row height] in *.
    apply runs_then1; [by apply Hrun; [|lia]|]. intros st' v Hv. cbn [execute]. by rewrite Hv.
  - apply result_bind_ok in Hc as ([pl kl] & Hcl & [= <- <- <-]).
    destruct (IH _ _ _ Hcl) as (own & -> & Hrun). exists (own ++ [ICast t]). split; [by rewrite app_assoc|].
    intros row st Hrow Hst. cbn [evaluate_row height] in *.
    apply (runs_then1 row own st (ICast t) (λ x, let? z := map_err execution (cast_numeric x t) in result_ref z));
      [by apply Hrun; [|lia]|]. intros st' v Hv. cbn [execute]. by rewrite Hv.
Qed.
End Compile.

(** ** Types *)

Section Types.
Context `{C : Chrono}.
Implicit Types (v x y z : Value).

(** A value of a static type, or NULL; the two text types have the same values. *)
Definition inhabits v (t : option LogicalType) : Prop :=
  v = VNull ∨ ∃ a b, value_logical_type v = Some a ∧ t = Some b ∧ (a = b ∨ (is_utf8 a = true ∧ is_utf8 b = true)).

Lemma inhabits_numeric v t : inhabits v t → (∀ b, t = Some b → is_numeric b = true) → v = VNull ∨ value_logical_type v = t.
Proof.
  intros [?|(a & b & Ha & -> & H)] Hn; [by left|]. right. rewrite Ha. f_equal. specialize (Hn b eq_refl).
  destruct H as [->|[_ H]]; [done|]. by destruct b.
Qed.

Lemma common_ok a b c : common_type a b = Ok c →
  (∀ t, a = Some t → is_numeric t = true) ∧ (∀ t, b = Some t → is_numeric t = true) ∧
  c = (if bool_decide (a = Some LDecimal) || bool_decide (b = Some LDecimal) then Some LDecimal
       else if bool_decide (a = Some LFloat64) || bool_decide (b = Some LFloat64) then Some LFloat64
       else match a with Some _ => a | None => b end).
Proof.
  unfold common_type, common_numeric_type. destruct (existsb _ _) eqn:Ex; [done|].
  assert ((∀ t, a = Some t → is_numeric t = true) ∧ (∀ t, b = Some t → is_numeric t = true)) as [Ha Hb].
  { split; intros t ->; apply negb_false_iff; cbn in Ex; [by apply orb_false_iff in Ex as [? _]|].
    destruct a; cbn in Ex; [apply orb_false_iff in Ex as [_ Ex]|]; by apply orb_false_iff in Ex as [? _]. }
  intros H. split_and!; [done|done|]. destruct a as [[]|], b as [[]|]; cbn [map_err] in H; first [discriminate H | by injection H as <-].
Qed.

Lemma evaluate_numeric_type x op y z a b c : inhabits x a → inhabits y b → common_type a b = Ok c →
  evaluate_numeric x op y = Ok z → inhabits z c.
Proof.
  intros Hx Hy (Ha & Hb & ->)%common_ok. apply inhabits_numeric in Hx; [|done]. apply inhabits_numeric in Hy; [|done].
  unfold evaluate_numeric. destruct (not_numeric x || not_numeric y); [done|].
  destruct (is_null x) eqn:Nx; [intros [= <-]; by left|]. destruct (is_null y) eqn:Ny; [intros [= <-]; by left|]. cbn [orb].
  destruct Hx as [->|<-]; [done|]. destruct Hy as [->|<-]; [done|]. intros H. right.
  destruct x; try done; destruct y; try done; cbn [value_logical_type is_decimal orb] in *;
    repeat (apply result_bind_ok in H as (? & ? & H)); repeat case_match; simplify_eq;
    repeat match goal with H : _ = Ok _ |- _ => apply result_bind_ok in H as (? & ? & H) end; simplify_eq;
    cbn [value_logical_type]; eauto 8.
Qed.
Lemma negate_numeric_type x z a c : inhabits x a → common_type a None = Ok c → negate_numeric x = Ok z → inhabits z c.
Proof.
  intros Hx (Ha & _ & ->)%common_ok. apply inhabits_numeric in Hx; [|done]. destruct Hx as [->|<-]; [intros [= <-]; by left|].
  unfold negate_numeric. destruct x; try done; intros H; [injection H as <-; by left|..]; right; repeat case_match;
    repeat match goal with H : _ = Ok _ |- _ => apply result_bind_ok in H as (? & ? & H) end; simplify_eq;
    cbn [value_logical_type]; eauto 8.
Qed.
Lemma cast_numeric_type x t z : cast_numeric x t = Ok z → inhabits z (Some (numeric_logical_type t)).
Proof.
  unfold cast_numeric. destruct (is_null x); [intros [= <-]; by left|]. intros H. right.
  destruct t; repeat (apply result_bind_ok in H as (? & ? & H)); repeat case_match;
    repeat match goal with H : _ = Ok _ |- _ => apply result_bind_ok in H as (? & ? & H) end; simplify_eq;
    cbn [value_logical_type numeric_logical_type]; eauto 8.
Qed.
End Types.

Section Claim.
Context `{C : Chrono} `{TR : TimestampRange} (s : RelationalTableSchema).

Lemma validate_row_values_ok cs row : validate_row_values cs row = Ok () →
  ∀ i column v, cs !! i = Some column → row !! i = Some v → validate_value_type column v = Ok ().
Proof.
  revert row; induction cs as [|column cs IH]; intros [|v row]; cbn [validate_row_values]; [by intros ? []..|].
  intros ([] & Hv & Hr)%result_bind_ok [|i] column' v'; cbn; [by intros [= <-] [= <-]|]. by apply IH.
Qed.
Lemma validate_row_ok row : validate_row s row = Ok () →
  length row = length (columns s) ∧
  ∀ i column v, columns s !! i = Some column → row !! i = Some v → validate_value_type column v = Ok ().
Proof.
  unfold validate_row. destruct (Z.eqb_spec (zlen row) (zlen (columns s))) as [E|]; [|done]. cbn [negb]. intros H.
  split; [unfold zlen in E; lia|]. by apply validate_row_values_ok.
Qed.
Lemma validate_value_accepts column v : validate_value_type column v = Ok () →
  (v = RNull ∧ column_nullable column = true) ∨ (v ≠ RNull ∧ type_accepts (column_type column) v = true).
Proof.
  unfold validate_value_type. destruct v; try (destruct (type_accepts _ _); [by right|done]).
  - destruct (column_nullable column); [by left|done].
  - intros (? & _ & H)%result_bind_ok. right. split; [done|]. by destruct (type_accepts _ _).
Qed.

Lemma column_value_type column v w : validate_value_type column v = Ok () → numeric_ref v = Ok w →
  inhabits w (Some (scalar_logical_type (column_type column))).
Proof.
  intros [[-> _]|[Hn Ht]]%validate_value_accepts Hw; [injection Hw as <-; by left|].
  destruct v; try discriminate Hw; try done; injection Hw as <-; right;
    destruct (column_type column); try (apply bool_decide_eq_true in Ht); try discriminate Ht; cbn; eauto 8.
Qed.

Lemma result_ref_ok z w : result_ref z = Ok w → w = z.
Proof. destruct z; first [by intros [= <-] | done]. Qed.

Lemma compile_type row e : validate_row s row = Ok () → ∀ pushed code kind v,
  compile e s pushed = Ok (code, kind) → evaluate_row s row e = Some (Ok v) → inhabits v kind.
Proof.
  intros [_ Hrow]%validate_row_ok. induction e as [w|name|lhs IHl op rhs IHr|e IH|e IH t]; intros pushed code kind v;
    cbn [compile]; intros ([[p i] k] & Hc & [= <- <-])%result_bind_ok; cbn [evaluate_row].
  - apply result_bind_ok in Hc as (u & Eu & [= <- <- <-]). rewrite Eu. intros [= <-].
    destruct u; (by left) || (right; cbn; eauto 8).
  - destruct (column_position s name) as [index|] eqn:Ep; [|done]. destruct (columns s !! index) as [column|] eqn:Ec; [|done].
    cbn [fmap option_fmap option_map] in Hc. destruct (negb _ && negb _); [done|]. injection Hc as <- <- <-.
    destruct (row !! index) as [u|] eqn:Eu; [|done]. cbn. intros [= Hu]. by apply (column_value_type column u); [apply (Hrow index)|].
  - apply result_bind_ok in Hc as ([pl kl] & Hcl & Hc). apply result_bind_ok in Hc as ([pr kr] & Hcr & Hc).
    apply result_bind_ok in Hc as (kc & Hk & [= <- <- <-]).
    destruct (evaluate_row s row lhs) as [[x|]|]; try done. destruct (evaluate_row s row rhs) as [[y|]|]; try done.
    cbn. intros [= H]. apply result_bind_ok in H as (z & Hz & H). destruct (evaluate_numeric x op y) as [z'|] eqn:Ez; [|done].
    injection Hz as <-. apply result_ref_ok in H as ->.
    eapply (evaluate_numeric_type x op y); eauto.
  - apply result_bind_ok in Hc as ([pl kl] & Hcl & Hc). apply result_bind_ok in Hc as (kc & Hk & [= <- <- <-]).
    destruct (evaluate_row s row e) as [[x|]|]; try done. cbn. intros [= H]. apply result_bind_ok in H as (z & Hz & H).
    destruct (negate_numeric x) as [z'|] eqn:Ez; [|done]. injection Hz as <-. apply result_ref_ok in H as ->.
    eapply (negate_numeric_type x); eauto.
  - apply result_bind_ok in Hc as ([pl kl] & Hcl & [= <- <- <-]).
    destruct (evaluate_row s row e) as [[x|]|]; try done. cbn. intros [= H]. apply result_bind_ok in H as (z & Hz & H).
    destruct (cast_numeric x t) as [z'|] eqn:Ez; [|done]. injection Hz as <-. apply result_ref_ok in H as ->.
    by eapply cast_numeric_type.
Qed.

(** C21: Compiled numeric expressions compute what the tree means.  An expression
    that is accepted has at most 64 levels and 4096 nodes; on every row of the
    table its instructions run within the fixed stack, never index outside it or
    the row, and return exactly the value or the error that evaluating the tree
    returns; and a value that is not NULL has the type inferred when it was
    compiled. *)
Theorem numeric_expression_compiled e c row :
  compile_expression e s = Ok c → validate_row s row = Ok () →
  height e ≤ 64 ∧ size e ≤ 4096 ∧
  evaluate c row = evaluate_row s row e ∧ evaluate c row ≠ None ∧
  (∀ v, evaluate c row = Some (Ok v) → inhabits v (result_type c)).
Proof.
  unfold compile_expression. rewrite node_count_spec. destruct (_ && _) eqn:Eb; [|done].
  apply andb_true_iff in Eb as [Hh%Z.leb_le Hs%Z.leb_le]. cbn [result_bind]. intros ([code kind] & Hc & [= <-])%result_bind_ok Hrow.
  split; [done|]. split; [done|].
  destruct (compile_runs s e [] code kind Hc) as (own & -> & Hrun). pose proof (proj1 (validate_row_ok row Hrow)) as Hlen.
  specialize (Hrun row empty_stack Hlen ltac:(change (length (slots empty_stack)) with 66%nat; change (live empty_stack) with 0%nat; lia)).
  assert (evaluate (mk_compiled ([] ++ own) kind) row = evaluate_row s row e ∧ evaluate_row s row e ≠ None) as [E Hn].
  { unfold evaluate, instructions. cbn [app]. pose proof (app_nil_r own) as En.
    destruct (evaluate_row s row e) as [[v|er]|]; [| |done]; cbn [runs_to] in Hrun.
    - destruct Hrun as (st' & (_ & _ & _ & Hv) & Hr). specialize (Hr []). rewrite En in Hr. rewrite Hr. cbn. split; [|done].
      cbn in Hv. by rewrite Hv.
    - specialize (Hrun []). rewrite En in Hrun. by rewrite Hrun. }
  rewrite E. split; [done|]. split; [done|]. intros v Hv. by eapply compile_type.
Qed.
End Claim.

(** [a * -b] on a row of a BIGINT and a DECIMAL(10,2) column. *)
Module ExpressionDemo.
Import Calendar.
#[local] Instance demo_range : TimestampRange := {| min_micros := - 10 ^ 15; max_micros := 10 ^ 15 |}.
Definition demo_schema : RelationalTableSchema :=
  mk_schema (lit "t")
    [mk_column (lit "a") TBigInt false None;
     mk_column (lit "b") (TDecimal {| dt_precision := 10; dt_scale := 2 |}) true None]
    [lit "a"] [] [] [] None.
Definition demo_expression : RelationalNumericExpression :=
  EBinary (EColumn (lit "a")) Multiply (ENegate (EColumn (lit "b"))).
Definition demo_compiled : CompiledNumericExpression := mk_compiled [IColumn 0; IColumn 1; INegate; IBinary Multiply] (Some LDecimal).
Definition demo_row : RelationalRow := [RBigInt 7; RDecimal {| coefficient := 125; scale := 2 |}].

Lemma numeric_expression_compiled_witness :
  evaluate demo_compiled demo_row = evaluate_row demo_schema demo_row demo_expression ∧
  evaluate demo_compiled demo_row = Some (Ok (VDecimal {| coefficient := -875; scale := 2 |})).
Proof.
  split; [|reflexivity].
  refine (proj1 (proj2 (proj2 (numeric_expression_compiled demo_schema demo_expression demo_compiled demo_row _ _)))); reflexivity.
Defined.
End ExpressionDemo.
