(* ===== verification/PrimaryKeyRange.v ===== *)
(** Key intervals derived from predicates:
    crates/storage/src/relational/primary_key_range.rs.

    The functions are modelled for [allocations = None]; with a work context the
    same values are built in admitted memory. *)
From S2P Require Import Prelude Ordering Decimal DecimalArith DecimalOrder RelationalValue OrderedKey BTreeMap IndexRange.
From S2P Require Import Values Numeric RelationalSchema.

Record RelationalKeyRange := mk_key_range { krange_lower : Bound (K := RelationalKey); krange_upper : Bound (K := RelationalKey) }.

(** [RelationalKeyRange::is_empty]. *)
Definition krange_is_empty (r : RelationalKeyRange) : bool :=
  match krange_lower r, krange_upper r with
  | Included l, Included u => key_ltb key_cmp u l
  | Included l, Excluded u | Excluded l, Included u | Excluded l, Excluded u => key_leb key_cmp u l
  | _, _ => false
  end.

(** ** Comparisons of a predicate *)

Definition is_rnull (v : RelationalValue) : bool := match v with RNull => true | _ => false end.

Fixpoint equality (p : RelationalPredicate) (column : bytes) : option RelationalValue :=
  match p with
  | And lhs rhs => match equality lhs column with Some v => Some v | None => equality rhs column end
  | Compare name OpEq v => if bool_decide (name = column) && negb (is_rnull v) then Some v else None
  | _ => None
  end.

(** [visit_comparisons] with the state of its closure. *)
Fixpoint visit_comparisons {S} (visit : RelationalComparisonOp → RelationalValue → S → S)
    (p : RelationalPredicate) (column : bytes) (state : S) : S :=
  match p with
  | And lhs rhs => visit_comparisons visit rhs column (visit_comparisons visit lhs column state)
  | Compare name op v => if bool_decide (name = column) && negb (is_rnull v) then visit op v state else state
  | _ => state
  end.

(** ** Successors *)

Section Successor.
Context `{TR : TimestampRange}.

(** The step of the loop on the last value: the value advanced, or nothing when
    it is the last of its domain. *)
Definition advance (v : RelationalValue) : result (option RelationalValue) RelationalError :=
  match v with
  | RBoolean b => Ok (if negb b then Some (RBoolean true) else None)
  | RBigInt x => Ok (if x + 1 <=? i64_max then Some (RBigInt (x + 1)) else None)
  | RTimestamp x => Ok (if x <? max_micros then Some (RTimestamp (x + 1)) else None)
  | RTimestampTz x => Ok (if x <? max_micros then Some (RTimestampTz (x + 1)) else None)
  | RDecimal d => Ok (RDecimal <$> next_up d)
  | RDoublePrecision bits =>
      Ok (if bits =? i64_max then None
          else Some (RDoublePrecision (if bits =? 2 ^ 63 then 0 else if Z.shiftr bits 63 =? 1 then bits - 1 else bits + 1)))
  | RText text => Ok (Some (RText (text ++ [0])))
  | RBytea bs => Ok (Some (RBytea (bs ++ [0])))
  | RUuid uuid =>
      Ok (if be_val uuid + 1 <=? 2 ^ 128 - 1 then Some (RUuid (be_bytes 16 (be_val uuid + 1))) else None)
  | RNull | RVector _ | ROverflow _ => Err (Schema (Formatted "unsupported primary-key boundary value" []))
  end.

(** The loop, on the key in reverse. *)
Fixpoint prefix_successor_loop (rev_key : RelationalKey) : result (option RelationalKey) RelationalError :=
  match rev_key with
  | [] => Ok None
  | v :: rest =>
      let? advanced := advance v in
      match advanced with
      | Some next => Ok (Some (reverse (next :: rest)))
      | None => prefix_successor_loop rest
      end
  end.
Definition prefix_successor (key : RelationalKey) : result (option RelationalKey) RelationalError :=
  prefix_successor_loop (reverse key).

(** ** Intervals *)

Definition option_excluded (o : option RelationalKey) : Bound (K := RelationalKey) :=
  match o with Some key => Excluded key | None => Unbounded end.

Definition prefix_interval (prefix : RelationalKey) (lower upper : option (RelationalValue * bool))
    : result RelationalKeyRange RelationalError :=
  let? prefix_upper :=
    match prefix with
    | [] => Ok Unbounded
    | _ => let? next := prefix_successor prefix in Ok (option_excluded next)
    end in
  let finish lower :=
    match upper with
    | Some (v, inclusive) =>
        if inclusive : bool
        then let? next := prefix_successor (prefix ++ [v]) in Ok (mk_key_range lower (option_excluded next))
        else Ok (mk_key_range lower (Excluded (prefix ++ [v])))
    | None => Ok (mk_key_range lower prefix_upper)
    end in
  match lower with
  | Some (v, inclusive) =>
      if inclusive : bool then finish (Included (prefix ++ [v]))
      else
        let? next := prefix_successor (prefix ++ [v]) in
        match next with
        | Some next => finish (Included next)
        | None => Ok (mk_key_range (Excluded (prefix ++ [v])) (Included (prefix ++ [v])))
        end
  | None => finish (match prefix with [] => Unbounded | _ => Included prefix end)
  end.
Definition from_prefix_bounds := prefix_interval.

(** The closure of [key_range]: the tightest bounds seen. *)
Definition Bounds : Type := option (RelationalValue * bool) * option (RelationalValue * bool).
Definition tighten (op : RelationalComparisonOp) (v : RelationalValue) (b : Bounds) : Bounds :=
  let tighter better inclusive (old : option (RelationalValue * bool)) :=
    match old with
    | None => true
    | Some (old, included) =>
        better (value_cmp v old) || (value_eqb v old && negb inclusive && included)
    end in
  let is_gt c := match c with Gt => true | _ => false end in
  let is_lt c := match c with Lt => true | _ => false end in
  match op with
  | OpGt | OpGte =>
      let inclusive := match op with OpGte => true | _ => false end in
      if tighter is_gt inclusive b.1 then (Some (v, inclusive), b.2) else b
  | OpLt | OpLte =>
      let inclusive := match op with OpLte => true | _ => false end in
      if tighter is_lt inclusive b.2 then (b.1, Some (v, inclusive)) else b
  | _ => b
  end.

(** The values of the leading columns that the predicate fixes. *)
Fixpoint equality_prefix (cs : list bytes) (p : RelationalPredicate) : RelationalKey :=
  match cs with
  | column :: cs => match equality p column with Some v => v :: equality_prefix cs p | None => [] end
  | [] => []
  end.

Definition key_range (cs : list bytes) (p : RelationalPredicate) : result (option RelationalKeyRange) RelationalError :=
  let prefix := equality_prefix cs p in
  let prefix_len := length prefix in
  if (prefix_len =? length cs)%nat && negb (prefix_len =? 0)%nat
  then Ok (Some (mk_key_range (Included prefix) (Included prefix)))
  else
    let bounds : Bounds :=
      match cs !! prefix_len with
      | Some column => visit_comparisons tighten p column (None, None)
      | None => (None, None)
      end in
    match prefix_len, bounds with
    | O, (None, None) => Ok None
    | _, (lower, upper) => let? r := prefix_interval prefix lower upper in Ok (Some r)
    end.
Definition from_predicate := key_range.
Definition mutation_primary_key_range (s : RelationalTableSchema) (p : RelationalPredicate) :=
  key_range (primary_key s) p.
End Successor.

(** ** The successor of a value *)

(** Values of a bound: those of a predicate, whose timestamps may lie outside
    the range that rows hold. *)
Definition bound_wf (v : RelationalValue) : Prop :=
  match v with
  | RBigInt x => is_i64 x
  | RDoublePrecision bits => is_u64 bits
  | RDecimal d => wf d
  | RUuid uuid => zlen uuid = 16 ∧ Forall is_byte uuid
  | _ => True
  end.
Definition supported (v : RelationalValue) : bool :=
  match v with RNull | RVector _ | ROverflow _ => false | _ => true end.

(** [n] is the least value above [v]: what is below [n] is at most [v]. *)
Lemma lt_succ_le x v : (x ?= v + 1) = Lt ↔ (x ?= v) ≠ Gt.
Proof. rewrite Z.compare_lt_iff, Z.compare_le_iff. lia. Qed.

Lemma append_zero_succ w v : Forall is_byte w → list_cmp Z.compare w (v ++ [0]) = Lt ↔ list_cmp Z.compare w v ≠ Gt.
Proof.
  intros Hw. revert v. induction Hw as [|b w Hb Hw IH]; intros [|c v]; try done.
  - cbn. unfold is_byte in Hb. destruct (Z.compare_spec b 0); cbn; [|lia|done]. by destruct w.
  - cbn. destruct (b ?= c); cbn; [apply IH|done|done].
Qed.

Lemma uuid_cmp a b : zlen a = 16 → Forall is_byte a → zlen b = 16 → Forall is_byte b →
  list_cmp Z.compare a b = (be_val a ?= be_val b).
Proof.
  intros Ha Fa Hb Fb. pose proof (be_val_bound a Fa) as Va. pose proof (be_val_bound b Fb) as Vb.
  rewrite <- (be_bytes_val a Fa) at 1. rewrite <- (be_bytes_val b Fb) at 1.
  assert (length a = 16%nat) as -> by (unfold zlen in Ha; lia). assert (length b = 16%nat) as -> by (unfold zlen in Hb; lia).
  apply be_bytes_cmp; [by rewrite Ha in Va|by rewrite Hb in Vb].
Qed.

Section Advance.
Context `{TR : TimestampRange}.

(** The double after a double: the next integer key. *)
Lemma next_double_key bits : is_u64 bits → bits ≠ i64_max →
  let next := if bits =? 2 ^ 63 then 0 else if Z.shiftr bits 63 =? 1 then bits - 1 else bits + 1 in
  total_order_key next = total_order_key bits + 1.
Proof.
  unfold i64_max. intros Hb Hn. assert ((Z.shiftr bits 63 =? 1) = (2 ^ 63 <=? bits)) as Es.
  { unfold is_u64 in Hb. rewrite shiftr_div by lia. destruct (Z.leb_spec (2 ^ 63) bits).
    - apply Z.eqb_eq. symmetry. apply (Z.div_unique _ _ _ (bits - 2 ^ 63)); lia.
    - apply Z.eqb_neq. rewrite Z.div_small; lia. }
  rewrite Es. cbv zeta. rewrite !total_order_key_spec; unfold is_u64 in *; repeat case_bool; lia.
Qed.
Lemma double_key_max w : is_u64 w → total_order_key w ≤ total_order_key i64_max.
Proof.
  intros Hw. rewrite !total_order_key_spec by (done || by vm_compute). unfold is_u64, i64_max in *. repeat case_bool; lia.
Qed.

Lemma advance_spec v w : bound_wf v → relational_value_wf w → kind_rank w = kind_rank v →
  match advance v with
  | Ok (Some next) => kind_rank next = kind_rank v ∧ (value_cmp w next = Lt ↔ value_cmp w v ≠ Gt)
  | Ok None => value_cmp w v ≠ Gt
  | Err _ => supported v = false
  end.
Proof.
  intros Hv Hw Hk. destruct v; try done; destruct w; try discriminate Hk; cbn [advance bound_wf relational_value_wf] in *;
    unfold value_cmp; cbn [kind_rank]; rewrite ?Z.compare_refl; cbn [cmp_then].
  - destruct b; [by destruct b0|]. cbn. split; [done|]. by destruct b0.
  - case_bool.
    + split; [done|]. cbn [kind_rank]. rewrite ?Z.compare_refl. apply lt_succ_le.
    + rewrite Z.compare_le_iff. unfold is_i64, i64_max in *. lia.
  - destruct (Z.eqb_spec bits i64_max) as [->|Hn].
    + rewrite Z.compare_le_iff. by apply double_key_max.
    + split; [done|]. cbn [kind_rank]. rewrite ?Z.compare_refl. cbn [cmp_then]. rewrite (next_double_key bits Hv Hn). apply lt_succ_le.
  - pose proof (decimal_next_up_least d Hv) as Hn. destruct (next_up d) as [u|]; cbn.
    + destruct Hn as (Hu & Hlt & Hleast). split; [done|]. rewrite !Decimal_cmp_value, Z.compare_lt_iff, Z.compare_le_iff by done.
      split; [|lia]. intros H. destruct (Z.lt_ge_cases (value d) (value d0)) as [H1|]; [|done]. specialize (Hleast d0 Hw H1). lia.
    + rewrite Decimal_cmp_value, Z.compare_le_iff by done. by apply Hn.
  - split; [done|]. cbn [kind_rank]. rewrite ?Z.compare_refl. cbn [cmp_then]. apply append_zero_succ, Hw.
  - split; [done|]. cbn [kind_rank]. rewrite ?Z.compare_refl. cbn [cmp_then]. by apply append_zero_succ.
  - destruct Hv as [Lv Fv], Hw as [Lw Fw]. pose proof (be_val_bound _ Fv) as Bv. pose proof (be_val_bound _ Fw) as Bw.
    rewrite Lv in Bv. rewrite Lw in Bw. change (256 ^ 16) with (2 ^ 128) in *. case_bool.
    + split; [done|]. cbn [kind_rank]. rewrite ?Z.compare_refl. cbn [cmp_then].
      rewrite !uuid_cmp by (done || apply zlen_be_bytes || apply is_byte_be_bytes).
      rewrite be_val_bytes by (change (256 ^ Z.of_nat 16) with (2 ^ 128); lia). apply lt_succ_le.
    + rewrite uuid_cmp, Z.compare_le_iff by done. lia.
  - destruct Hw as [_ Hw]. unfold timestamp_in_range in Hw. apply andb_true_iff in Hw as [_ Hw%Z.leb_le]. case_bool.
    + split; [done|]. cbn [kind_rank]. rewrite ?Z.compare_refl. apply lt_succ_le.
    + rewrite Z.compare_le_iff. lia.
  - destruct Hw as [_ Hw]. unfold timestamp_in_range in Hw. apply andb_true_iff in Hw as [_ Hw%Z.leb_le]. case_bool.
    + split; [done|]. cbn [kind_rank]. rewrite ?Z.compare_refl. apply lt_succ_le.
    + rewrite Z.compare_le_iff. lia.
Qed.
End Advance.

(** ** Intervals are exact *)

Section Exact.
Context `{TR : TimestampRange}.
Implicit Types (k p q : RelationalKey) (v w : RelationalValue).

Abbreviation pcmp := (list_prefix_cmp value_cmp).

(** A key whose leading values have the kinds of the prefix. *)
Definition same_kinds k p : Prop := Forall2 (λ w v, kind_rank w = kind_rank v) (take (length p) k) p.

Lemma same_kinds_nil k : same_kinds k [].
Proof. constructor. Qed.
Lemma same_kinds_snoc k p v : same_kinds k (p ++ [v]) ↔
  same_kinds k p ∧ ∃ w, k !! length p = Some w ∧ kind_rank w = kind_rank v.
Proof.
  unfold same_kinds. rewrite length_app, Nat.add_1_r. split.
  - intros H. destruct (k !! length p) as [w|] eqn:Ew.
    + rewrite (take_S_r k (length p) w Ew) in H. apply Forall2_app_inv in H as [H1 H2].
      * split; [done|]. exists w. split; [done|]. by inversion H2.
      * apply Forall2_length in H. rewrite !length_app in H. cbn in H. lia.
    + apply Forall2_length in H. apply lookup_ge_None in Ew. rewrite length_take, length_app in H. change (length [v]) with 1%nat in H. lia.
  - intros [H (w & Ew & Hk)]. rewrite (take_S_r k (length p) w Ew). apply Forall2_app; [done|]. by repeat constructor.
Qed.
Lemma pcmp_nil k : pcmp k [] = Eq.
Proof. by destruct k. Qed.
Lemma pcmp_snoc k p v w : k !! length p = Some w → pcmp k (p ++ [v]) = cmp_then (pcmp k p) (value_cmp w v).
Proof.
  intros Ew. unfold list_prefix_cmp. rewrite length_app, Nat.add_1_r, (take_S_r k (length p) w Ew).
  rewrite list_cmp_app by (rewrite length_take; apply lookup_lt_Some in Ew; lia). cbn. by rewrite cmp_then_eq_r.
Qed.
Lemma pcmp_lt k p : key_cmp k p = Lt ↔ pcmp k p = Lt.
Proof. symmetry. apply list_prefix_cmp_lt. Qed.

(** What is below the successor of a prefix is at most the prefix. *)
Lemma prefix_successor_spec p k : Forall bound_wf p → key_wf k → same_kinds k p →
  match prefix_successor p with
  | Ok (Some q) => key_cmp k q = Lt ↔ pcmp k p ≠ Gt
  | Ok None => pcmp k p ≠ Gt
  | Err _ => ∃ v, v ∈ p ∧ supported v = false
  end.
Proof.
  intros Hp Hk. unfold prefix_successor. induction p as [|v p IH] using rev_ind; [by rewrite pcmp_nil|].
  apply Forall_app in Hp as [Hp [Hv _]%Forall_cons]. intros [Hs (w & Ew & Hkind)]%same_kinds_snoc.
  rewrite reverse_snoc. cbn [prefix_successor_loop]. specialize (IH Hp Hs).
  assert (relational_value_wf w) as Hw by (exact (Forall_lookup_1 _ _ _ _ Hk Ew)).
  pose proof (advance_spec v w Hv Hw Hkind) as Ha. destruct (advance v) as [[next|]|e]; cbn [result_bind].
  - destruct Ha as [_ Ha]. rewrite reverse_cons, reverse_involutive, pcmp_lt, !(pcmp_snoc k p _ w) by done.
    destruct (pcmp k p); cbn; [done|done|done].
  - rewrite (pcmp_snoc k p v w) by done. destruct (prefix_successor_loop (reverse p)) as [[q|]|e].
    + rewrite IH. destruct (pcmp k p); cbn; naive_solver.
    + destruct (pcmp k p); cbn; naive_solver.
    + destruct IH as (u & Hu & Hsup). exists u. split; [|done]. apply elem_of_app. by left.
  - exists v. split; [|done]. apply elem_of_app. right. apply list_elem_of_here.
Qed.

(** ** What an interval stands for *)

Definition krange_contains (r : RelationalKeyRange) k : bool :=
  above_lower key_cmp (krange_lower r) k && below_upper key_cmp (krange_upper r) k.

Definition lower_holds (bound : option (RelationalValue * bool)) (o : option RelationalValue) : bool :=
  match bound, o with
  | None, _ => true
  | Some (v, inclusive), Some w => match value_cmp w v with Gt => true | Eq => inclusive | Lt => false end
  | Some _, None => false
  end.
Definition upper_holds (bound : option (RelationalValue * bool)) (o : option RelationalValue) : bool :=
  match bound, o with
  | None, _ => true
  | Some (v, inclusive), Some w => match value_cmp w v with Lt => true | Eq => inclusive | Gt => false end
  | Some _, None => false
  end.
(** The keys with the prefix whose next value lies within the bounds. *)
Definition prefix_bounds_match p (lower upper : option (RelationalValue * bool)) k : bool :=
  key_eqb (take (length p) k) p && lower_holds lower (k !! length p) && upper_holds upper (k !! length p).

Lemma pcmp_eqb k p : key_eqb (take (length p) k) p = match pcmp k p with Eq => true | _ => false end.
Proof.
  unfold list_prefix_cmp. pose proof (key_eqb_cmp (take (length p) k) p) as H. unfold key_cmp in H.
  destruct (key_eqb _ _), (list_cmp _ _ _); naive_solver.
Qed.
Lemma above_included k p : above_lower key_cmp (Included p) k = match pcmp k p with Lt => false | _ => true end.
Proof.
  cbn [above_lower]. rewrite key_leb_negb by apply _. unfold key_ltb. pose proof (pcmp_lt k p).
  destruct (key_cmp k p), (pcmp k p); naive_solver.
Qed.
Lemma below_excluded k p : below_upper key_cmp (Excluded p) k = match pcmp k p with Lt => true | _ => false end.
Proof. cbn [below_upper]. unfold key_ltb. pose proof (pcmp_lt k p). destruct (key_cmp k p), (pcmp k p); naive_solver. Qed.

Section Interval.
Context (p k : RelationalKey) (Hp : Forall bound_wf p) (Hk : key_wf k) (Hs : same_kinds k p).

(** A value of a bound belongs to the column after the prefix. *)
Definition bound_fits (b : option (RelationalValue * bool)) : Prop :=
  ∀ v inclusive, b = Some (v, inclusive) → bound_wf v ∧ ∃ w, k !! length p = Some w ∧ kind_rank w = kind_rank v.

Lemma below_successor q : Forall bound_wf q → same_kinds k q → ∀ next, prefix_successor q = Ok next →
  below_upper key_cmp (option_excluded next) k = match pcmp k q with Gt => false | _ => true end.
Proof using Hk.
  intros Hq Hkq next En. pose proof (prefix_successor_spec q k Hq Hk Hkq) as H. rewrite En in H. destruct next as [n|]; cbn.
  - unfold key_ltb. destruct (key_cmp k n), (pcmp k q); naive_solver.
  - by destruct (pcmp k q).
Qed.
Lemma fits_snoc v inclusive : bound_fits (Some (v, inclusive)) → Forall bound_wf (p ++ [v]) ∧ same_kinds k (p ++ [v]) ∧
  ∃ w, k !! length p = Some w ∧ pcmp k (p ++ [v]) = cmp_then (pcmp k p) (value_cmp w v).
Proof using Hp Hs.
  intros Hf. destruct (Hf v inclusive eq_refl) as (Hv & w & Ew & Hkind). split_and!.
  - apply Forall_app. by split; [|apply Forall_singleton].
  - apply same_kinds_snoc. eauto.
  - exists w. split; [done|]. by apply pcmp_snoc.
Qed.

Lemma interval_exact lower upper r : bound_fits lower → bound_fits upper →
  prefix_interval p lower upper = Ok r → krange_contains r k = prefix_bounds_match p lower upper k.
Proof using Hp Hk Hs.
  intros Hl Hu. unfold prefix_interval. intros (pu & Epu & H)%result_bind_ok.
  assert (below_upper key_cmp pu k = match pcmp k p with Gt => false | _ => true end) as Hpu.
  { destruct p as [|v0 p0] eqn:Ep; [injection Epu as <-; by rewrite pcmp_nil|].
    apply result_bind_ok in Epu as (next & En & [= <-]). by apply (below_successor (v0 :: p0)). }
  set (finish := λ lower0, match upper with
    | Some (v, inclusive) => if inclusive then let? next := prefix_successor (p ++ [v]) in Ok (mk_key_range lower0 (option_excluded next))
        else Ok (mk_key_range lower0 (Excluded (p ++ [v])))
    | None => Ok (mk_key_range lower0 pu) end) in H.
  assert (∀ l, finish l = Ok r → krange_contains r k =
    above_lower key_cmp l k && match pcmp k p with Gt => false | Lt => true | Eq => upper_holds upper (k !! length p) end) as Hf.
  { intros l. unfold finish, krange_contains. destruct upper as [[v [|]]|].
    - destruct (fits_snoc v true Hu) as (Hb & Hks & w & Ew & Ec). intros (next & En & [= <-])%result_bind_ok. cbn [krange_lower krange_upper].
      rewrite (below_successor (p ++ [v]) Hb Hks next En), Ec, Ew. cbn [upper_holds]. by destruct (pcmp k p), (value_cmp w v).
    - destruct (fits_snoc v false Hu) as (Hb & Hks & w & Ew & Ec). intros [= <-]. cbn [krange_lower krange_upper].
      rewrite below_excluded, Ec, Ew. cbn [upper_holds]. by destruct (pcmp k p), (value_cmp w v).
    - intros [= <-]. cbn [krange_lower krange_upper upper_holds]. by rewrite Hpu. }
  unfold prefix_bounds_match. rewrite pcmp_eqb. destruct lower as [[v [|]]|].
  - destruct (fits_snoc v true Hl) as (Hb & Hks & w & Ew & Ec). rewrite (Hf _ H), above_included, Ec, Ew. cbn [lower_holds].
    destruct (pcmp k p), (value_cmp w v); cbn; by rewrite ?andb_false_r.
  - destruct (fits_snoc v false Hl) as (Hb & Hks & w & Ew & Ec). apply result_bind_ok in H as (next & En & H).
    pose proof (prefix_successor_spec _ k Hb Hk Hks) as Hsucc. rewrite En, Ec in Hsucc. rewrite Ew. cbn [lower_holds].
    destruct next as [n|].
    + rewrite (Hf _ H). cbn [above_lower]. rewrite key_leb_negb by apply _. unfold key_ltb. rewrite Ew.
      destruct (pcmp k p), (value_cmp w v), (key_cmp k n); cbn in *; naive_solver.
    + injection H as <-. unfold krange_contains. cbn [krange_lower krange_upper above_lower below_upper].
      rewrite key_leb_negb by apply _. rewrite andb_negb_r. destruct (pcmp k p), (value_cmp w v); cbn in *; naive_solver.
  - rewrite (Hf _ H). cbn [lower_holds]. destruct p as [|v0 p0] eqn:Ep; [by rewrite pcmp_nil|].
    rewrite above_included. by destruct (pcmp k _).
Qed.
End Interval.
End Exact.

Section Claim.
Context `{TR : TimestampRange}.

Lemma advance_err v e : advance v = Err e →
  supported v = false ∧ e = Schema (Formatted "unsupported primary-key boundary value" []).
Proof. destruct v; cbn [advance]; first [discriminate | by intros [= <-]]. Qed.
Lemma prefix_successor_err p e : prefix_successor p = Err e → ∃ v, v ∈ p ∧ supported v = false.
Proof.
  unfold prefix_successor. intros H. assert (∃ v, v ∈ reverse p ∧ supported v = false) as (v & Hv & Hs).
  { induction (reverse p) as [|v l IH]; [done|]. cbn [prefix_successor_loop] in H. destruct (advance v) as [[next|]|e'] eqn:Ea; [done| |].
    - destruct (IH H) as (u & Hu & Hs). exists u. split; [by apply elem_of_cons; right|done].
    - exists v. split; [apply list_elem_of_here|]. by eapply advance_err. }
  exists v. split; [by apply elem_of_reverse|done].
Qed.

Lemma krange_empty_sound r k : krange_is_empty r = true → krange_contains r k = false.
Proof.
  unfold krange_is_empty, krange_contains. destruct (krange_lower r) as [l|l|], (krange_upper r) as [u|u|]; try done;
    cbn [above_lower below_upper]; intros H; apply andb_false_iff;
    rewrite ?key_ltb_true, ?key_leb_true in H; rewrite ?(key_leb_negb key_cmp l k), ?(key_leb_negb key_cmp k u).
  - destruct (key_ltb key_cmp k l) eqn:E; [by left|]. right. apply negb_false_iff, key_ltb_true. apply key_ltb_false in E; [|apply _].
    by apply (ord_lt_le_trans key_cmp u l k).
  - destruct (key_ltb key_cmp k l) eqn:E; [by left|]. right. apply key_ltb_false; [apply _|]. apply key_ltb_false in E; [|apply _].
    by apply (ord_trans key_cmp u l k).
  - destruct (key_ltb key_cmp l k) eqn:E; [|by left]. right. apply negb_false_iff, key_ltb_true. apply key_ltb_true in E.
    by apply (ord_le_lt_trans key_cmp u l k).
  - destruct (key_ltb key_cmp l k) eqn:E; [|by left]. right. apply key_ltb_true in E. apply key_ltb_false; [apply _|].
    by rewrite (ord_le_lt_trans key_cmp u l k).
Qed.

Definition unsupported_value : RelationalError := Schema (Formatted "unsupported primary-key boundary value" []).

(** The only refusals are of values without a successor in their domain. *)
Lemma interval_err p lower upper e : prefix_interval p lower upper = Err e →
  e = unsupported_value ∧ ∃ v, (v ∈ p ∨ Some v = fst <$> lower ∨ Some v = fst <$> upper) ∧ supported v = false.
Proof.
  intros E.
  assert (∀ q e', prefix_successor q = Err e' → e' = Schema (Formatted "unsupported primary-key boundary value" []) ∧
    ∃ v, v ∈ q ∧ supported v = false) as Hq.
  { intros q e' He. split; [|by eapply prefix_successor_err]. unfold prefix_successor in He.
    induction (reverse q) as [|v l IH]; [done|]. cbn [prefix_successor_loop] in He. destruct (advance v) as [[next|]|e''] eqn:Ea; [done|by apply IH|].
    injection He as <-. by apply advance_err in Ea as [_ ->]. }
  assert (∀ v e', prefix_successor (p ++ [v]) = Err e' → e' = Schema (Formatted "unsupported primary-key boundary value" []) ∧
    ∃ u, (u ∈ p ∨ u = v) ∧ supported u = false) as Hqv.
  { intros v e' [-> (u & Hu & Hs)]%Hq. split; [done|]. exists u. split; [|done]. apply elem_of_app in Hu as [Hu|Hu%list_elem_of_singleton]; auto. }
  revert E. unfold prefix_interval.
  assert (∀ A B (m : result A RelationalError) (f : A → result B RelationalError), result_bind m f = Err e → m = Err e ∨ ∃ a, m = Ok a ∧ f a = Err e) as Hb
    by (intros A B [a|e0] f; cbn; eauto; intros [= ->]; auto).
  intros [H|(pu & _ & H)]%Hb.
  { destruct p; [done|]. apply Hb in H as [H|(? & _ & ?)]; [|done]. destruct (Hq _ _ H) as [-> (v & Hv & Hs)]. eauto. }
  assert (∀ l, match upper with
    | Some (v, inclusive) => if inclusive then let? next := prefix_successor (p ++ [v]) in Ok (mk_key_range l (option_excluded next))
        else Ok (mk_key_range l (Excluded (p ++ [v])))
    | None => Ok (mk_key_range l pu) end = Err e → e = Schema (Formatted "unsupported primary-key boundary value" []) ∧
    ∃ v, (v ∈ p ∨ Some v = fst <$> upper) ∧ supported v = false) as Hf.
  { intros l. destruct upper as [[v [|]]|]; [|done|done]. intros [H1|(? & _ & ?)]%Hb; [|done].
    destruct (Hqv _ _ H1) as [-> (u & [Hu| ->] & Hs)]; eauto. }
  destruct lower as [[v [|]]|].
  + destruct (Hf _ H) as [-> (u & [?|?] & ?)]; eauto 8.
  + apply Hb in H as [H|([n|] & _ & H)]; [|destruct (Hf _ H) as [-> (u & [?|?] & ?)]; eauto 8|done].
    destruct (Hqv _ _ H) as [-> (u & [Hu| ->] & Hs)]; eauto 8.
  + destruct (Hf _ H) as [-> (u & [?|?] & ?)]; eauto 8.
Qed.

(** C20: The interval of an equality prefix and bounds on the next column is
    exact.  For any prefix and bounds, inclusive or not, on one side or both: a
    stored key whose values have the kinds of its columns lies in the interval
    exactly when it extends the prefix and its next value satisfies the bounds,
    although the interval compares complete keys only (the successor carries over
    values that are the last of their kind, and none is skipped); an interval
    that is recognised as empty contains no key; and the only values refused are
    NULL, vectors and overflow references. *)
Theorem key_interval_exact p lower upper :
  Forall bound_wf p →
  match prefix_interval p lower upper with
  | Ok r => ∀ k, key_wf k → same_kinds k p → bound_fits p k lower → bound_fits p k upper →
      krange_contains r k = prefix_bounds_match p lower upper k ∧
      (krange_is_empty r = true → prefix_bounds_match p lower upper k = false)
  | Err e => e = unsupported_value ∧
      ∃ v, (v ∈ p ∨ Some v = fst <$> lower ∨ Some v = fst <$> upper) ∧ supported v = false
  end.
Proof.
  intros Hp. destruct (prefix_interval p lower upper) as [r|e] eqn:E; [|by apply interval_err].
  intros k Hk Hs Hl Hu. pose proof (interval_exact p k Hp Hk Hs lower upper r Hl Hu E) as H. split; [done|].
  intros He. rewrite <- H. by apply krange_empty_sound.
Qed.
End Claim.

(** The keys of one tenant whose number is above 1, when [true] is the last flag. *)
Module IntervalDemo.
#[local] Instance demo_range : TimestampRange := {| min_micros := - 10 ^ 15; max_micros := 10 ^ 15 |}.
Definition demo_prefix : RelationalKey := [RText [116]; RBoolean true].
Lemma key_interval_exact_witness :
  match prefix_interval demo_prefix (Some (RBigInt 1, false)) None with
  | Ok r => krange_contains r [RText [116]; RBoolean true; RBigInt 2; RNull] = true
  | Err _ => False
  end.
Proof.
  pose proof (key_interval_exact demo_prefix (Some (RBigInt 1, false)) None ltac:(repeat constructor)) as H.
  destruct (prefix_interval demo_prefix (Some (RBigInt 1, false)) None) as [r|e] eqn:E; [|by vm_compute in E].
  destruct (H [RText [116]; RBoolean true; RBigInt 2; RNull]) as [-> _]; [| | |done|by vm_compute].
  - repeat constructor; by vm_compute.
  - by repeat constructor.
  - intros v inclusive [= <- <-]. split; [by vm_compute|]. by exists (RBigInt 2).
Defined.
End IntervalDemo.
