(* ===== verification/ResidentRows.v ===== *)
(** The resident rows of a table: [RelationalRowPages] of
    crates/storage/src/relational/resident_rows.rs, an ordered map from primary
    keys to rows in copy-on-write pages, which keeps its row count and the exact
    sum of its entry sizes.

    Sharing between snapshots ([CowSegment]) is copy on write, so pages are
    values.  [None] is a panic: an index out of range, a failed [expect], a sum
    that overflows, or a range whose start is after its end. *)
From S2P Require Import Prelude Ordering Decimal RelationalValue OrderedKey BTreeMap Pages IndexRange.
From S2P Require Import RelationalIndex RelationalIndexSpec Values Numeric RelationalSchema PrimaryKeyRange.

Definition u128_max : Z := 2 ^ 128 - 1.

(** Sizes in bytes that the compiler chooses. *)
Class RowLayout := {
  size_of_key : Z;
  size_of_row : Z;
  size_of_values : Z;
  size_of_overflow_ref : Z;
}.
Class RowLayoutLaws (L : RowLayout) : Prop := {
  size_of_key_nonneg : 0 ≤ size_of_key;
  size_of_row_nonneg : 0 ≤ size_of_row;
  size_of_values_nonneg : 0 ≤ size_of_values;
  size_of_overflow_nonneg : 0 ≤ size_of_overflow_ref;
}.

Definition RELATIONAL_ROW_PAGE_MAX_ENTRIES : nat := 256.
Definition RELATIONAL_ROW_PAGE_TARGET_BYTES : Z := 1024 * 1024.

Abbreviation RowEntry := (RelationalKey * RelationalRow)%type.
Abbreviation RowPage := (list (RelationalKey * RelationalRow)).

Record RelationalRowPages := mk_rows {
  row_pages : list RowPage;
  row_len : Z;
  row_entry_bytes : Z;
}.
Definition rows_default : RelationalRowPages := mk_rows [] 0 0.

Section Rows.
Context `{L : RowLayout}.
Implicit Types (key : RelationalKey) (row : RelationalRow) (page : RowPage) (pages : list RowPage) (rs : RelationalRowPages).

Definition relational_row_entry_bytes key row : Z :=
  let payload := foldl (λ payload v, saturating_add usize_max payload (estimated_payload_bytes size_of_overflow_ref v))
                   0 (key ++ row) in
  saturating_add usize_max (saturating_add usize_max (saturating_add usize_max size_of_key size_of_row) size_of_values)
    payload.

(** ** Accounting *)

Definition account_entry (removed added : option Z) rs : option RelationalRowPages :=
  let len := match removed, added with
             | None, Some _ => saturating_add usize_max (row_len rs) 1
             | Some _, None => saturating_sub (row_len rs) 1
             | _, _ => row_len rs
             end in
  bytes ← (match removed with Some removed => Prelude.checked_sub (row_entry_bytes rs) removed | None => Some (row_entry_bytes rs) end);
  bytes ← (match added with Some added => Prelude.checked_add u128_max bytes added | None => Some bytes end);
  Some (mk_rows (row_pages rs) len bytes).

Definition insert_entry_bytes page key row : option Z * Z :=
  match get_key_value key_cmp key page with
  | Some (stored, previous) =>
      (Some (relational_row_entry_bytes stored previous), relational_row_entry_bytes stored row)
  | None => (None, relational_row_entry_bytes key row)
  end.

(** ** Lookups *)

Definition rows_get_key_value key rs : option (option RowEntry) :=
  match page_index key (row_pages rs) with
  | Some index => get_key_value key_cmp key <$> row_pages rs !! index
  | None => Some None
  end.
Definition rows_get key rs : option (option RelationalRow) :=
  match page_index key (row_pages rs) with
  | Some index => map_get key_cmp key <$> row_pages rs !! index
  | None => Some None
  end.
Definition rows_contains_key key rs : option bool :=
  (λ o, match o with Some _ => true | None => false end) <$> rows_get key rs.
Definition rows_iter rs : list RowEntry := List.concat (row_pages rs).
Definition rows_values rs : list RelationalRow := (rows_iter rs).*2.

(** [BTreeMap::range] panics when the start is after the end, and when both
    exclude the same key. *)
Definition range_panics (lo hi : Bound (K := RelationalKey)) : bool :=
  match lo, hi with
  | Excluded s, Excluded e => match key_cmp s e with Lt => false | _ => true end
  | Included s, Included e | Included s, Excluded e | Excluded s, Included e =>
      match key_cmp s e with Gt => true | _ => false end
  | _, _ => false
  end.
Definition page_range (r : RelationalKeyRange) page : option RowPage :=
  if range_panics (krange_lower r) (krange_upper r) then None
  else Some (map_range key_cmp (krange_lower r) (krange_upper r) page).

(** Slices panic when they are out of order or out of range. *)
Definition slice_pages (start end_ : nat) pages : option (list RowPage) :=
  if (start <=? end_)%nat && (end_ <=? length pages)%nat then Some (take (end_ - start) (drop start pages)) else None.

Definition rows_range (range : option RelationalKeyRange) rs : option (list RowEntry) :=
  let range := default (mk_key_range Unbounded Unbounded) range in
  let start := match krange_lower range with
               | Included key | Excluded key => default O (page_index key (row_pages rs))
               | Unbounded => O
               end in
  let end_ :=
    if krange_is_empty range then start
    else
      Nat.max (match krange_upper range with
               | Included key | Excluded key =>
                   match page_index key (row_pages rs) with Some index => S index | None => O end
               | Unbounded => length (row_pages rs)
               end) start in
  slice ← slice_pages start end_ (row_pages rs);
  found ← mapM (page_range range) slice;
  Some (List.concat found).

Definition rows_first_key_after (after : option RelationalKey) rs : option RelationalKey :=
  match after with
  | None => page ← row_pages rs !! O; fst <$> head page
  | Some after =>
      let index := partition_point (λ page, match last page with
                                            | Some (last_key, _) => key_leb key_cmp last_key after
                                            | None => true
                                            end) (row_pages rs) in
      page ← row_pages rs !! index;
      fst <$> head (map_range key_cmp (Excluded after) Unbounded page)
  end.

(** ** Changes *)

(** [Iterator::sum::<usize>]. *)
Definition usize_sum (l : list Z) : option Z := if zsum l <=? usize_max then Some (zsum l) else None.
Definition page_bytes page : option Z := usize_sum ((λ e, relational_row_entry_bytes e.1 e.2) <$> page).

Definition split_relational_row_page (index : nat) pages : option (list RowPage) :=
  page ← pages !! index;
  bytes ← page_bytes page;
  if (length page <=? 1)%nat
     || ((length page <=? RELATIONAL_ROW_PAGE_MAX_ENTRIES)%nat && (bytes <=? RELATIONAL_ROW_PAGE_TARGET_BYTES))
  then Some pages
  else
    split_key ← middle_key page;
    let '(kept, right_page) := map_split_off key_cmp split_key page in
    Some (take index pages ++ [kept; right_page] ++ drop (S index) pages).

Definition rows_insert key row rs : option (option RelationalRow * RelationalRowPages) :=
  match row_pages rs with
  | [] => Some (None, mk_rows [[(key, row)]] 1 (relational_row_entry_bytes key row))
  | pages =>
      index ← page_index key pages;
      page ← pages !! index;
      let '(removed, added) := insert_entry_bytes page key row in
      let '(previous, page) := map_insert key_cmp key row page in
      pages ← split_relational_row_page index (<[index := page]> pages);
      rs ← account_entry removed (Some added) (mk_rows pages (row_len rs) (row_entry_bytes rs));
      Some (previous, rs)
  end.

Definition rows_remove key rs : option (option RelationalRow * RelationalRowPages) :=
  match page_index key (row_pages rs) with
  | None => Some (None, rs)
  | Some index =>
      page ← row_pages rs !! index;
      match get_key_value key_cmp key page with
      | None => Some (None, rs)
      | Some (stored, removed) =>
          let page := (map_remove key_cmp key page).2 in
          let pages := match page with
                       | [] => delete index (row_pages rs)
                       | _ => <[index := page]> (row_pages rs)
                       end in
          rs ← account_entry (Some (relational_row_entry_bytes stored removed)) None
                 (mk_rows pages (row_len rs) (row_entry_bytes rs));
          Some (Some removed, rs)
      end
  end.

(** ** Building *)

Fixpoint from_map_loop (rows : RowPage) pages page (bytes total : Z) : option (list RowPage * Z) :=
  match rows with
  | [] => Some (match page with [] => pages | _ => pages ++ [page] end, total)
  | (key, row) :: rows =>
      let entry_bytes := relational_row_entry_bytes key row in
      total ← Prelude.checked_add u128_max total entry_bytes;
      let full := negb (bool_decide (length page = O))
                  && ((RELATIONAL_ROW_PAGE_MAX_ENTRIES <=? length page)%nat
                      || (RELATIONAL_ROW_PAGE_TARGET_BYTES <? saturating_add usize_max bytes entry_bytes)) in
      let '(pages, page, bytes) := if full then (pages ++ [page], [], 0) else (pages, page, bytes) in
      from_map_loop rows pages (map_insert key_cmp key row page).2 (saturating_add usize_max bytes entry_bytes) total
  end.
Definition from_map (rows : RowPage) : option RelationalRowPages :=
  '(pages, total) ← from_map_loop rows [] [] 0 0;
  Some (mk_rows pages (zlen rows) total).

(** Every row extended by one value, the total rebuilt. *)
Definition append_value (v : RelationalValue) (e : RowEntry) : RowEntry := (e.1, e.2 ++ [v]).
Fixpoint u128_sum (l : list Z) (total : Z) : option Z :=
  match l with
  | [] => Some total
  | z :: l => total ← Prelude.checked_add u128_max total z; u128_sum l total
  end.
Definition append_value_to_all (v : RelationalValue) rs : option RelationalRowPages :=
  let pages := (λ page, append_value v <$> page) <$> row_pages rs in
  total ← u128_sum ((λ e, relational_row_entry_bytes e.1 e.2) <$> List.concat pages) 0;
  Some (mk_rows pages (row_len rs) total).

(** ** Under a work context *)

(** Sizes in bytes of a tree node and of an ownership record. *)
Context (node_bytes ownership_bytes : Z).

(** An oversized page split, its bytes summed with saturation. *)
Definition saturating_page_bytes page : Z :=
  foldl (λ bytes e, saturating_add usize_max bytes (relational_row_entry_bytes e.1 e.2)) 0 page.
Definition split_rows_with_work page : work (RowPage * option RowPage) :=
  if (1 <? length page)%nat
     && ((RELATIONAL_ROW_PAGE_MAX_ENTRIES <? length page)%nat
         || (RELATIONAL_ROW_PAGE_TARGET_BYTES <? saturating_page_bytes page))
  then
    split_key ← or_panic (middle_key page);
    split_key ← clone_with_allocations split_key;
    ask;;
    let '(kept, right_page) := map_split_off key_cmp split_key page in mret (kept, Some right_page)
  else mret (page, None).

(** [insert_with_allocations] with a context. *)
Definition insert_with_work key row rs : work (option RelationalRow * RelationalRowPages) :=
  let pages := row_pages rs in
  let index := default O (page_index key pages) in
  let stored := default [] (pages !! index) in
  _ ← or_refuse (Prelude.checked_add usize_max (zlen pages) 1) (Admission "row directory growth overflow");
  ask;; ask;; ask_each pages;;
  _ ← or_refuse (node_space node_bytes ownership_bytes (zlen stored)) (Admission "row page growth overflow");
  ask;;
  rows ← copy_entries stored [];
  key ← clone_with_allocations key;
  let '(removed, added) := insert_entry_bytes rows key row in
  ask;;
  let '(previous, rows) := map_insert key_cmp key row rows in
  ask_each rows;;
  '(kept, right_page) ← split_rows_with_work rows;
  ask;;
  directory ← or_panic (put_page (match pages with [] => None | _ => Some index end) kept pages);
  directory ← or_panic (put_right index right_page directory);
  rs ← or_panic (account_entry removed (Some added) (mk_rows directory (row_len rs) (row_entry_bytes rs)));
  mret (previous, rs).

(** [prepare_checkpoint_copy_for_key]: a private copy of the page of a key, and
    of the directory when snapshots share it.  Whether they do is an argument. *)
Definition page_copy_space (previous_len : Z) : option Z :=
  let bytes := (previous_len / 4 + 2) * node_bytes in if bytes <=? usize_max then Some bytes else None.
Definition prepare_copy_with_work (directory_shared page_shared : bool) key rs : work RelationalRowPages :=
  match page_index key (row_pages rs) with
  | None => mret rs
  | Some index =>
      page ← or_panic (row_pages rs !! index);
      if directory_shared || page_shared then
        (if directory_shared then ask;; ask;; ask_each (row_pages rs) else mret ());;
        _ ← or_refuse (page_copy_space (zlen page)) (Admission "row page copy capacity overflow");
        ask;; ask;;
        rows ← copy_entries page [];
        ask;;
        mret (mk_rows (<[index := rows]> (row_pages rs)) (row_len rs) (row_entry_bytes rs))
      else mret rs
  end.

(** [reconstruct_values_with_allocations] and
    [append_value_to_all_with_allocations]: every row copied with one value
    more. *)
Definition reconstruct_values (values : RelationalRow) : work RelationalRow :=
  ask;; ask_values values;; ask;; ask;; mret values.
Fixpoint append_entries (v : RelationalValue) page (copied : RowPage) (total : Z) : work (RowPage * Z) :=
  match page with
  | [] => mret (copied, total)
  | (key, row) :: page =>
      key ← clone_with_allocations key;
      _ ← or_refuse (Prelude.checked_add usize_max (zlen row) 1) (Admission "schema row value count overflow");
      row ← reconstruct_values (row ++ [v]);
      total ← or_panic (Prelude.checked_add u128_max total (relational_row_entry_bytes key row));
      ask;;
      append_entries v page (map_insert key_cmp key row copied).2 total
  end.
Fixpoint append_pages (v : RelationalValue) pages (copied : list RowPage) (total : Z) : work (list RowPage * Z) :=
  match pages with
  | [] => mret (copied, total)
  | page :: pages =>
      _ ← or_refuse (bytes ← page_copy_space (zlen page); Prelude.checked_add usize_max bytes ownership_bytes)
            (Admission "schema row page capacity overflow");
      ask;;
      '(rows, total) ← append_entries v page [] total;
      ask;;
      append_pages v pages (copied ++ [rows]) total
  end.
Definition append_value_with_work (v : RelationalValue) rs : work RelationalRowPages :=
  ask;; ask;;
  '(pages, total) ← append_pages v (row_pages rs) [] 0;
  ask;; ask;;
  mret (mk_rows pages (row_len rs) total).

(** [push_sorted_with_allocations]: a row appended to the last page, or to a new
    one.  A refusal after the new page was added leaves it empty; hydration, the
    caller, then drops the whole map. *)
Definition starts_page (entry_bytes : Z) pages : option bool :=
  match last pages with
  | None => Some true
  | Some page =>
      if (RELATIONAL_ROW_PAGE_MAX_ENTRIES <=? length page)%nat then Some true
      else match page with
           | [] => Some false
           | _ => (λ bytes, RELATIONAL_ROW_PAGE_TARGET_BYTES <? saturating_add usize_max bytes entry_bytes) <$> page_bytes page
           end
  end.
Definition push_sorted_with_work key row rs : work (option RelationalRow * RelationalRowPages) :=
  new_page ← or_panic (starts_page (relational_row_entry_bytes key row) (row_pages rs));
  ask;;
  (match row_pages rs with [] => ask;; ask | _ => mret () end);;
  pages ← (if new_page : bool then ask;; ask;; mret (row_pages rs ++ [[]]) else mret (row_pages rs));
  ask;;
  page ← or_panic (last pages);
  let '(removed, added) := insert_entry_bytes page key row in
  let '(replaced, page) := map_insert key_cmp key row page in
  rs ← or_panic (account_entry removed (Some added)
         (mk_rows (<[(length pages - 1)%nat := page]> pages) (row_len rs) (row_entry_bytes rs)));
  mret (replaced, rs).
End Rows.
