(* ===== verification/ResidentRowsSpec.v ===== *)
(** What the resident rows of [ResidentRows] promise: the pages stay sorted and
    bounded, the kept totals are exact, and every operation acts like the same
    operation on the ordered map of the rows. *)
From S2P Require Import Prelude Ordering Decimal RelationalValue OrderedKey BTreeMap Pages IndexRange.
From S2P Require Import RelationalIndex RelationalIndexSpec Values Numeric RelationalSchema PrimaryKeyRange ResidentRows.

Section Spec.
Context `{L : RowLayout} {LL : RowLayoutLaws L}.
Implicit Types (key k : RelationalKey) (row : RelationalRow) (l m page p : RowPage) (ps qs : list RowPage) (rs : RelationalRowPages).

Definition rows_contents rs : RowPage := List.concat (row_pages rs).
Definition entry_size (e : RowEntry) : Z := relational_row_entry_bytes e.1 e.2.
Definition total_bytes l : Z := zsum (entry_size <$> l).

(** Sorted, with non-empty bounded pages and exact totals. *)
Record rows_wf rs : Prop := {
  rw_pages : pages_ok RELATIONAL_ROW_PAGE_MAX_ENTRIES (row_pages rs);
  rw_len : row_len rs = zlen (rows_contents rs);
  rw_bytes : row_entry_bytes rs = total_bytes (rows_contents rs);
}.

(** ** Sizes *)

Lemma entry_size_range e : 0 ≤ entry_size e ≤ usize_max.
Proof using LL.
  unfold entry_size, relational_row_entry_bytes.
  assert (∀ vs acc, 0 ≤ acc → 0 ≤ foldl (λ payload v, saturating_add usize_max payload (estimated_payload_bytes size_of_overflow_ref v)) acc vs) as Hf.
  { induction vs as [|v vs IH]; intros acc Hacc; cbn [foldl]; [done|]. apply IH. unfold saturating_add, usize_max, u64_max.
    assert (0 ≤ estimated_payload_bytes size_of_overflow_ref v); [|lia].
    pose proof (size_of_overflow_nonneg (L := L)). destruct v; cbn; try lia; try apply zlen_nonneg. by vm_compute. }
  specialize (Hf (e.1 ++ e.2) 0 ltac:(lia)). pose proof (size_of_key_nonneg (L := L)). pose proof (size_of_row_nonneg (L := L)).
  pose proof (size_of_values_nonneg (L := L)). unfold saturating_add, usize_max, u64_max in *. lia.
Qed.
Lemma total_nonneg l : 0 ≤ total_bytes l.
Proof using LL. apply zsum_nonneg, Forall_fmap, Forall_true. intros e. apply entry_size_range. Qed.
Lemma total_app l m : total_bytes (l ++ m) = total_bytes l + total_bytes m.
Proof using. unfold total_bytes. by rewrite fmap_app, zsum_app. Qed.
Lemma total_elem e l : e ∈ l → entry_size e ≤ total_bytes l.
Proof using LL.
  intros (l1 & l2 & ->)%list_elem_of_split. rewrite total_app. change (total_bytes (e :: l2)) with (entry_size e + total_bytes l2).
  pose proof (total_nonneg l1). pose proof (total_nonneg l2). lia.
Qed.
Lemma total_mid qs p ps : total_bytes p ≤ total_bytes (List.concat (qs ++ p :: ps)).
Proof using LL.
  rewrite concat_mid, !total_app. pose proof (total_nonneg (List.concat qs)). pose proof (total_nonneg (List.concat ps)). lia.
Qed.
Lemma page_bytes_ok p : total_bytes p ≤ usize_max → page_bytes p = Some (total_bytes p).
Proof using. intros H. unfold page_bytes, usize_sum. fold entry_size. change (zsum _) with (total_bytes p). by rewrite (proj2 (Z.leb_le _ _)). Qed.

(** ** Accounting is exact *)

Lemma account_ok f k ps ps' n b : keeps_key key_cmp k f → key_sorted key_cmp (List.concat ps) →
  n = zlen (List.concat ps) → b = total_bytes (List.concat ps) →
  List.concat ps' = map_alter key_cmp f k (List.concat ps) →
  zlen (List.concat ps) < usize_max → total_bytes (List.concat ps') ≤ usize_max →
  pages_ok RELATIONAL_ROW_PAGE_MAX_ENTRIES ps' →
  ∃ rs', account_entry (entry_size <$> get_key_value key_cmp k (List.concat ps)) (entry_size <$> f (get_key_value key_cmp k (List.concat ps)))
           (mk_rows ps' n b) = Some rs' ∧ row_pages rs' = ps' ∧ rows_wf rs'.
Proof using LL.
  intros Hf Hs -> -> Hc Hlen Htot Hok. pose proof (zlen_alter key_cmp f k (List.concat ps)) as Hl.
  pose proof (zsum_alter key_cmp entry_size f k (List.concat ps)) as Hb. fold (total_bytes (List.concat ps)) in Hb.
  change (total_bytes (map_alter key_cmp f k (List.concat ps)) = total_bytes (List.concat ps) - opt_sum entry_size (get_key_value key_cmp k (List.concat ps))
    + opt_sum entry_size (f (get_key_value key_cmp k (List.concat ps)))) in Hb.
  rewrite Hc in Htot. unfold account_entry. cbn [row_len row_entry_bytes row_pages].
  pose proof (total_nonneg (List.concat ps)).
  assert (∀ e, get_key_value key_cmp k (List.concat ps) = Some e → entry_size e ≤ total_bytes (List.concat ps) ∧ 1 ≤ zlen (List.concat ps)) as He.
  { intros e [He _]%(get_some key_cmp); [|done]. split; [by apply total_elem|]. destruct (List.concat ps); [by apply elem_of_nil in He|].
    rewrite zlen_cons. pose proof (zlen_nonneg l). lia. }
  destruct (get_key_value key_cmp k (List.concat ps)) as [e|] eqn:Ee; cbn [fmap option_fmap option_map].
  - destruct (He e eq_refl) as [He1 He2]. unfold Prelude.checked_sub. rewrite (proj2 (Z.leb_le _ _)) by done. cbn [mbind option_bind].
    destruct (f (Some e)) as [e'|] eqn:Ef; cbn [fmap option_fmap option_map opt_sum] in *.
    + unfold Prelude.checked_add. rewrite (proj2 (Z.leb_le _ _)) by (unfold u128_max, usize_max, u64_max in *; lia). cbn.
      eexists. split; [done|]. split; [done|]. constructor; [done| |]; unfold rows_contents; cbn [row_pages row_len row_entry_bytes]; rewrite Hc; lia.
    + cbn. eexists. split; [done|]. split; [done|]. constructor; [done| |]; unfold rows_contents; cbn [row_pages row_len row_entry_bytes]; rewrite Hc;
        unfold saturating_sub; lia.
  - cbn [mbind option_bind]. destruct (f None) as [e'|] eqn:Ef; cbn [fmap option_fmap option_map opt_sum mbind option_bind] in *.
    + unfold Prelude.checked_add. rewrite (proj2 (Z.leb_le _ _)) by (unfold u128_max, usize_max, u64_max in *; lia). cbn.
      eexists. split; [done|]. split; [done|]. constructor; [done| |]; unfold rows_contents; cbn [row_pages row_len row_entry_bytes]; rewrite Hc;
        unfold saturating_add; lia.
    + eexists. split; [done|]. split; [done|]. constructor; [done| |]; unfold rows_contents; cbn [row_pages row_len row_entry_bytes]; rewrite Hc; lia.
Qed.

(** ** Insertion and removal *)

Lemma insert_bytes_spec p key row :
  insert_entry_bytes p key row = (entry_size <$> get_key_value key_cmp key p,
    default 0 (entry_size <$> insert_entry key row (get_key_value key_cmp key p))).
Proof using. unfold insert_entry_bytes. by destruct (get_key_value key_cmp key p) as [[stored previous]|]. Qed.
Lemma insert_entry_default key row (o : option RowEntry) :
  Some (default 0 (entry_size <$> insert_entry key row o)) = entry_size <$> insert_entry key row o.
Proof using. by destruct o as [[? ?]|]. Qed.

(** A page cut at its middle key: two non-empty halves. *)
Lemma halves p : key_sorted key_cmp p → (1 < length p)%nat →
  ∃ k a b, middle_key p = Some k ∧ map_split_off key_cmp k p = (a, b) ∧ p = a ++ b ∧ a ≠ [] ∧ b ≠ [] ∧
    length a = (length p / 2)%nat.
Proof using.
  intros Hs Hl. unfold middle_key. destruct (p !! (length p / 2)%nat) as [[k v]|] eqn:Em.
  2: { apply lookup_ge_None in Em. assert (length p / 2 < length p)%nat by (apply Nat.div_lt; lia). lia. }
  destruct (middle_of p (k, v) Em Hl) as (a & b & Ep & Ha & Hla). exists k, a, ((k, v) :: b). split_and!; try done.
  rewrite Ep in Hs |- *. by apply split_off_at.
Qed.

Lemma row_max : RELATIONAL_ROW_PAGE_MAX_ENTRIES = 256%nat.
Proof using. done. Qed.

(** Splitting what an insertion made too large keeps the rows. *)
Lemma split_rows_ok qs p ps : key_sorted key_cmp (List.concat (qs ++ p :: ps)) →
  Forall (λ p, p ≠ [] ∧ (length p ≤ RELATIONAL_ROW_PAGE_MAX_ENTRIES)%nat) qs →
  Forall (λ p, p ≠ [] ∧ (length p ≤ RELATIONAL_ROW_PAGE_MAX_ENTRIES)%nat) ps →
  p ≠ [] → (length p ≤ S RELATIONAL_ROW_PAGE_MAX_ENTRIES)%nat → total_bytes p ≤ usize_max →
  ∃ ps', split_relational_row_page (length qs) (qs ++ p :: ps) = Some ps' ∧
    List.concat ps' = List.concat (qs ++ p :: ps) ∧ pages_ok RELATIONAL_ROW_PAGE_MAX_ENTRIES ps'.
Proof using.
  intros Hs HF1 HF2 Hne Hlen Hb. unfold split_relational_row_page. rewrite lookup_mid. cbn [mbind option_bind].
  rewrite page_bytes_ok by done. cbn [mbind option_bind]. rewrite row_max in *. case_match eqn:E.
  - eexists. split; [done|]. split; [done|]. apply pages_ok_mid. split_and!; try done.
    apply orb_true_iff in E as [E%Nat.leb_le|[E%Nat.leb_le _]%andb_true_iff]; lia.
  - apply orb_false_iff in E as [E%Nat.leb_gt _].
    assert (key_sorted key_cmp p) as Hsp.
    { rewrite concat_mid in Hs. apply key_sorted_app in Hs as (_ & Hs & _). by apply key_sorted_app in Hs as (? & _ & _). }
    destruct (halves p Hsp ltac:(lia)) as (k & a & b & -> & Esp & Ep & Ha & Hbn & Hla). cbn [mbind option_bind]. rewrite Esp.
    rewrite take_app_length, drop_S_mid. cbn [app]. eexists. split; [done|].
    assert (List.concat (qs ++ a :: b :: ps) = List.concat (qs ++ p :: ps)) as Ec
      by (rewrite !concat_mid; cbn [List.concat]; by rewrite Ep, <- !app_assoc).
    split; [done|]. assert (length p = length a + length b)%nat by (by rewrite Ep, length_app).
    pose proof (Nat.div_mod_eq (length p) 2). pose proof (Nat.mod_upper_bound (length p) 2).
    apply pages_ok_mid. rewrite Ec. split_and!; [done|done|done|lia|]. constructor; [|done]. split; [done|]. lia.
Qed.

Lemma rows_insert_ok key row rs : rows_wf rs → zlen (rows_contents rs) < usize_max →
  total_bytes (map_insert key_cmp key row (rows_contents rs)).2 ≤ usize_max →
  ∃ rs', rows_insert key row rs = Some (map_get key_cmp key (rows_contents rs), rs') ∧
    rows_contents rs' = (map_insert key_cmp key row (rows_contents rs)).2 ∧ rows_wf rs'.
Proof using LL.
  intros [Hok Hlen Hbytes] Hmax Htot. unfold rows_insert, rows_contents in *. destruct (row_pages rs) as [|p0 ps0] eqn:Es.
  { eexists. split; [done|]. split; [done|]. constructor; [apply pages_ok_one; rewrite row_max; lia|done|].
    unfold rows_contents, total_bytes. cbn [row_pages List.concat app row_entry_bytes fmap list_fmap zsum]. unfold entry_size. cbn [fst snd]. lia. }
  destruct (page_located _ key _ Hok ltac:(done)) as (qs & p & ps & E & -> & H1 & H2). rewrite E in *.
  cbn [mbind option_bind]. rewrite lookup_mid. cbn [mbind option_bind]. rewrite insert_bytes_spec.
  cbn [map_insert snd] in *. rewrite insert_mid. pose proof (concat_located (insert_entry key row) key qs p ps H1 H2) as Hc.
  pose proof (alter_sorted key_cmp _ key _ (insert_keeps key_cmp key row) (po_sorted _ _ Hok)) as Hs. rewrite <- Hc in Hs.
  pose proof Hok as (_ & HF1 & [_ Hpl] & HF2)%pages_ok_mid.
  destruct (split_rows_ok qs (map_alter key_cmp (insert_entry key row) key p) ps Hs HF1 HF2) as (ps' & -> & Ec & Hok').
  { apply insert_nonempty. }
  { pose proof (length_alter (insert_entry key row) key p). lia. }
  { etransitivity; [apply (total_mid qs _ ps)|]. by rewrite Hc. }
  cbn [mbind option_bind]. rewrite Hc in Ec.
  destruct (account_ok (insert_entry key row) key (qs ++ p :: ps) ps' (row_len rs) (row_entry_bytes rs)) as (rs' & Ea & Ep & Hw);
    [apply (insert_keeps key_cmp)|apply Hok|done|done|done|done|by rewrite Ec|done|].
  rewrite concat_mid, get_located in Ea by done. rewrite insert_entry_default, Ea. cbn [mbind option_bind].
  destruct (contains_located key qs ps p H1 H2) as [_ ->]. eexists. split; [done|]. by rewrite Ep.
Qed.

Lemma rows_remove_ok key rs : rows_wf rs → zlen (rows_contents rs) < usize_max → total_bytes (rows_contents rs) ≤ usize_max →
  ∃ rs', rows_remove key rs = Some (map_get key_cmp key (rows_contents rs), rs') ∧
    rows_contents rs' = (map_remove key_cmp key (rows_contents rs)).2 ∧ rows_wf rs'.
Proof using LL.
  intros Hw Hmax Htot. pose proof Hw as [Hok Hlen Hbytes]. unfold rows_remove, rows_contents in *.
  destruct (row_pages rs) as [|p0 ps0] eqn:Es; [exists rs; by rewrite Es|].
  destruct (page_located _ key _ Hok ltac:(done)) as (qs & p & ps & E & -> & H1 & H2). rewrite E in *.
  rewrite lookup_mid. cbn [mbind option_bind]. destruct (contains_located key qs ps p H1 H2) as [Hcon Hget]. rewrite Hget.
  assert (get_key_value key_cmp key (List.concat (qs ++ p :: ps)) = get_key_value key_cmp key p) as Hgk by (by rewrite concat_mid, get_located).
  destruct (get_key_value key_cmp key p) as [[stored removed]|] eqn:Ep.
  - destruct (replace_ok _ (λ _, None) key qs p ps Hok (remove_keeps key_cmp key) H1 H2) as (ps' & Eps & Hc & Hok').
    { assert (map_contains key_cmp key p = true) as Hp by (unfold map_contains; by rewrite Ep).
      pose proof (length_alter_present (λ _, None) key p Hp). pose proof Hok as (_ & _ & [_ ?] & _)%pages_ok_mid. lia. }
    cbn [map_remove snd]. rewrite Eps.
    destruct (account_ok (λ _, None) key (qs ++ p :: ps) ps' (row_len rs) (row_entry_bytes rs)) as (rs' & Ea & Ers & Hw');
      [done|apply Hok|done|done|done|done| |done|].
    { rewrite Hc. unfold total_bytes. rewrite zsum_alter. fold (total_bytes (List.concat (qs ++ p :: ps))).
      rewrite Hgk. cbn [opt_sum]. pose proof (entry_size_range (stored, removed)). lia. }
    rewrite Hgk in Ea. cbn [fmap option_fmap option_map] in Ea. change (entry_size (stored, removed)) with (relational_row_entry_bytes stored removed) in Ea.
    rewrite Ea. cbn [mbind option_bind]. unfold map_get. rewrite Ep. cbn. eexists. split; [done|]. by rewrite Ers.
  - unfold map_get. rewrite Ep. exists rs. rewrite Es. split; [done|]. split; [|done]. symmetry. by apply alter_absent.
Qed.

Lemma rows_get_ok key rs : rows_wf rs →
  rows_get key rs = Some (map_get key_cmp key (rows_contents rs)) ∧
  rows_get_key_value key rs = Some (get_key_value key_cmp key (rows_contents rs)).
Proof using.
  intros [Hok _ _]. unfold rows_get, rows_get_key_value, rows_contents. destruct (row_pages rs) as [|p0 ps0] eqn:Es; [done|].
  destruct (page_located _ key _ Hok ltac:(done)) as (qs & p & ps & E & -> & H1 & H2). rewrite E, lookup_mid.
  unfold map_get. by rewrite concat_mid, get_located.
Qed.

(** ** Ranges *)

Definition in_range (r : RelationalKeyRange) (e : RowEntry) : bool := krange_contains r e.1.
Lemma map_range_filter r l : map_range key_cmp (krange_lower r) (krange_upper r) l = List.filter (in_range r) l.
Proof using. done. Qed.

Lemma filter_concat_slice (f : RowEntry → bool) ps s e : (s ≤ e ≤ length ps)%nat →
  (∀ a, a ∈ List.concat (take s ps) → f a = false) → (∀ a, a ∈ List.concat (drop e ps) → f a = false) →
  List.filter f (List.concat ps) = List.concat (List.filter f <$> take (e - s) (drop s ps)).
Proof using.
  intros Hse H1 H2. assert (ps = take s ps ++ take (e - s) (drop s ps) ++ drop e ps) as Eps.
  { replace (drop e ps) with (drop (e - s) (drop s ps)) by (rewrite drop_drop; f_equal; lia). by rewrite !take_drop. }
  rewrite Eps at 1. rewrite !List.concat_app, !List.filter_app, (filter_nothing _ _ H1), (filter_nothing _ _ H2), app_nil_r. cbn [app].
  generalize (take (e - s) (drop s ps)). clear. intros qs. induction qs as [|q qs IH]; [done|]. cbn. by rewrite List.filter_app, IH.
Qed.

Lemma range_panics_empty r : range_panics (krange_lower r) (krange_upper r) = true → krange_is_empty r = true.
Proof using.
  unfold range_panics, krange_is_empty. destruct (krange_lower r) as [a|a|], (krange_upper r) as [b|b|]; try done;
    unfold key_ltb, key_leb; rewrite (ord_opp key_cmp a b); by destruct (key_cmp a b).
Qed.

(** Where a bound falls in the directory. *)
Lemma lower_page r ps : pages_ok RELATIONAL_ROW_PAGE_MAX_ENTRIES ps →
  let start := match krange_lower r with Included k | Excluded k => default O (page_index k ps) | Unbounded => O end in
  (start ≤ length ps)%nat ∧ (∀ a, a ∈ List.concat (take start ps) → in_range r a = false).
Proof using.
  intros Hok. cbv zeta. assert (∀ k, (default O (page_index k ps) ≤ length ps)%nat ∧
    ∀ a, a ∈ List.concat (take (default O (page_index k ps)) ps) → key_cmp a.1 k = Lt) as Hk.
  { intros k. destruct ps as [|p0 ps0] eqn:E; [split; [done|by intros a ?%elem_of_nil]|].
    destruct (page_located _ k _ Hok ltac:(done)) as (qs & p & ps' & Eps & Ei & H1 & _). rewrite Ei, Eps.
    change (default O (Some (length qs))) with (length qs). rewrite length_app, take_app_length. split; [lia|done]. }
  destruct (krange_lower r) as [k|k|] eqn:El; [| |split; [lia|by intros a ?%elem_of_nil]]; destruct (Hk k) as [Hl Ha]; (split; [done|]);
    intros a Hin; specialize (Ha a Hin); unfold in_range, krange_contains; rewrite El; cbn [above_lower]; apply andb_false_iff; left.
  - rewrite key_leb_negb by apply _. apply negb_false_iff. by apply key_ltb_true.
  - apply key_ltb_false; [apply _|]. by rewrite Ha.
Qed.
Lemma upper_page r ps : pages_ok RELATIONAL_ROW_PAGE_MAX_ENTRIES ps →
  let end_ := match krange_upper r with
              | Included k | Excluded k => match page_index k ps with Some index => S index | None => O end
              | Unbounded => length ps end in
  (end_ ≤ length ps)%nat ∧ (∀ a, a ∈ List.concat (drop end_ ps) → in_range r a = false).
Proof using.
  intros Hok. cbv zeta. assert (∀ k, (match page_index k ps with Some index => S index | None => O end ≤ length ps)%nat ∧
    ∀ a, a ∈ List.concat (drop (match page_index k ps with Some index => S index | None => O end) ps) → key_cmp k a.1 = Lt) as Hk.
  { intros k. destruct ps as [|p0 ps0] eqn:E; [split; [done|by intros a ?%elem_of_nil]|].
    destruct (page_located _ k _ Hok ltac:(done)) as (qs & p & ps' & Eps & Ei & _ & H2). rewrite Ei, Eps, length_app, drop_S_mid. cbn [length].
    split; [lia|done]. }
  destruct (krange_upper r) as [k|k|] eqn:El; [| |split; [lia|rewrite drop_all; by intros a ?%elem_of_nil]]; destruct (Hk k) as [Hl Ha]; (split; [done|]);
    intros a Hin; specialize (Ha a Hin); unfold in_range, krange_contains; rewrite El; cbn [below_upper]; apply andb_false_iff; right.
  - rewrite key_leb_negb by apply _. apply negb_false_iff. by apply key_ltb_true.
  - apply key_ltb_false; [apply _|]. by rewrite Ha.
Qed.

Lemma mapM_pages (f : RowPage → RowPage) (g : RowPage → option RowPage) ps : (∀ p, g p = Some (f p)) → mapM g ps = Some (f <$> ps).
Proof using. intros H. induction ps as [|p ps IH]; [done|]. cbn. rewrite H. cbn. by rewrite IH. Qed.

Lemma elem_of_concat_drop_le a (n n' : nat) ps : (n ≤ n')%nat → a ∈ List.concat (drop n' ps) → a ∈ List.concat (drop n ps).
Proof using.
  intros Hn. replace n' with (n + (n' - n))%nat by lia. rewrite <- drop_drop. generalize (drop n ps). clear. intros ps Ha.
  rewrite <- (take_drop (n' - n) ps), List.concat_app. apply elem_of_app. by right.
Qed.

(** A range never panics and returns exactly the rows within it, in order. *)
Lemma rows_range_ok range rs : rows_wf rs →
  rows_range range rs = Some (List.filter (in_range (default (mk_key_range Unbounded Unbounded) range)) (rows_contents rs)).
Proof using.
  intros [Hok _ _]. unfold rows_range, rows_contents. set (r := default (mk_key_range Unbounded Unbounded) range).
  destruct (lower_page r _ Hok) as [Hs Hbelow]. destruct (upper_page r _ Hok) as [He Habove]. cbv zeta in *.
  set (start := match krange_lower r with Included _ => _ | _ => _ end) in *.
  set (stop := match krange_upper r with Included _ => _ | _ => _ end) in *.
  unfold slice_pages. destruct (krange_is_empty r) eqn:Eempty.
  - rewrite Nat.leb_refl, (proj2 (Nat.leb_le _ _)) by done. cbn [andb]. rewrite Nat.sub_diag, take_0. cbn [mbind option_bind mapM mret option_ret List.concat]. f_equal. symmetry.
    apply filter_nothing. intros e _. by apply krange_empty_sound.
  - rewrite (proj2 (Nat.leb_le _ _)), (proj2 (Nat.leb_le _ _)) by lia. cbn [andb mbind option_bind].
    rewrite (mapM_pages (List.filter (in_range r))).
    + cbn [mbind option_bind]. f_equal. symmetry. apply filter_concat_slice; [lia|done|].
      intros a Ha. apply Habove. by eapply elem_of_concat_drop_le; [|exact Ha]; lia.
    + intros p. unfold page_range. destruct (range_panics _ _) eqn:Ep; [|done]. by rewrite (range_panics_empty r Ep) in Eempty.
Qed.

Lemma first_key_after_ok after rs : rows_wf rs →
  rows_first_key_after after rs =
    fst <$> head (match after with
                  | Some after => List.filter (λ e, key_ltb key_cmp after e.1) (rows_contents rs)
                  | None => rows_contents rs end).
Proof using.
  intros [Hok _ _]. unfold rows_first_key_after, rows_contents. destruct Hok as [Hs HF]. destruct after as [after|].
  - induction HF as [|p ps [Hne _] HF IH]; [done|]. cbn [partition_point List.concat].
    cbn [List.concat] in Hs. apply key_sorted_app in Hs as (Hsp & Hs & _). specialize (IH Hs). rewrite List.filter_app.
    destruct (last p) as [[kl vl]|] eqn:El; [|by apply last_None in El]. destruct (key_leb key_cmp kl after) eqn:Ek.
    + etransitivity; [exact IH|]. rewrite (filter_nothing _ p); [done|]. intros a Ha. apply key_ltb_false; [apply _|].
      apply (ord_trans key_cmp a.1 kl after); [exact (sorted_le_last _ _ _ Hsp El Ha)|by apply key_leb_true].
    + cbn [lookup list_lookup mbind option_bind]. assert (map_range key_cmp (Excluded after) Unbounded p = List.filter (λ e, key_ltb key_cmp after e.1) p) as ->.
      { unfold map_range. apply List.filter_ext. intros a. cbn. by rewrite andb_true_r. }
      destruct (List.filter (λ e, key_ltb key_cmp after e.1) p) as [|e l] eqn:Ef; [|done].
      apply last_Some in El as [l' ->]. rewrite List.filter_app in Ef. apply app_nil in Ef as [_ Ef]. cbn in Ef.
      rewrite key_leb_negb in Ek by apply _. apply negb_false_iff in Ek. by rewrite Ek in Ef.
  - destruct HF as [|p ps [Hne _] HF]; [done|]. cbn. by destruct p.
Qed.

(** ** Building *)

Lemma u128_sum_ok (l : list Z) : ∀ total, Forall (λ z, 0 ≤ z) l → 0 ≤ total → total + zsum l ≤ u128_max → u128_sum l total = Some (total + zsum l).
Proof using.
  induction l as [|z l IH]; intros total HF Ht Hmax; cbn [u128_sum zsum] in *; [by rewrite Z.add_0_r|].
  apply Forall_cons in HF as [Hz HF]. pose proof (zsum_nonneg l HF). unfold Prelude.checked_add.
  rewrite (proj2 (Z.leb_le _ _)) by lia. cbn [mbind option_bind]. rewrite IH by (done || lia). f_equal. lia.
Qed.
Lemma append_sorted v l : key_sorted key_cmp l → key_sorted key_cmp (append_value v <$> l).
Proof using.
  induction l as [|e l IH]; intros Hs; [constructor|]. apply key_sorted_cons in Hs as [Hs H]. rewrite fmap_cons. apply key_sorted_cons.
  split; [by apply IH|]. intros b (b' & -> & Hb)%list_elem_of_fmap. exact (H b' Hb).
Qed.

(** Adding a column keeps the keys and recounts the bytes. *)
Lemma append_value_ok v rs : rows_wf rs → total_bytes (append_value v <$> rows_contents rs) ≤ usize_max →
  ∃ rs', append_value_to_all v rs = Some rs' ∧ rows_contents rs' = append_value v <$> rows_contents rs ∧ rows_wf rs'.
Proof using LL.
  intros [[Hs HF] Hlen _] Htot. unfold append_value_to_all, rows_contents in *.
  assert (List.concat ((λ page, append_value v <$> page) <$> row_pages rs) = append_value v <$> List.concat (row_pages rs)) as Hc.
  { clear. induction (row_pages rs) as [|p ps IH]; [done|]. cbn [fmap list_fmap List.concat]. rewrite fmap_app. by f_equal. }
  rewrite Hc, u128_sum_ok.
  - cbn [mbind option_bind]. eexists. split; [done|]. unfold rows_contents. cbn [row_pages]. split; [done|].
    constructor; unfold rows_contents; cbn [row_pages row_len row_entry_bytes]; rewrite ?Hc; [constructor| |done].
    + rewrite Hc. by apply append_sorted.
    + apply Forall_fmap. eapply Forall_impl; [exact HF|]. intros p [Hne Hp]. cbn. rewrite length_fmap. by destruct p.
    + unfold zlen in *. by rewrite length_fmap.
  - apply Forall_fmap, Forall_true. intros e. cbn. apply (entry_size_range e).
  - lia.
  - change (total_bytes (append_value v <$> List.concat (row_pages rs)) ≤ u128_max). unfold u128_max, usize_max, u64_max in *. lia.
Qed.

(** An ordered map cut into pages: what was emitted, the open page, and the
    rest. *)
Lemma from_map_ok rows : ∀ ps p bytes total,
  key_sorted key_cmp (List.concat ps ++ p ++ rows) → Forall (λ p, p ≠ [] ∧ (length p ≤ RELATIONAL_ROW_PAGE_MAX_ENTRIES)%nat) ps →
  (length p ≤ RELATIONAL_ROW_PAGE_MAX_ENTRIES)%nat → 0 ≤ total → total + total_bytes rows ≤ u128_max →
  ∃ ps', from_map_loop rows ps p bytes total = Some (ps', total + total_bytes rows) ∧
    List.concat ps' = List.concat ps ++ p ++ rows ∧ pages_ok RELATIONAL_ROW_PAGE_MAX_ENTRIES ps'.
Proof using LL.
  induction rows as [|[key row] rows IH]; intros ps p bytes total Hs HF Hp Ht Hmax; cbn [from_map_loop].
  - rewrite app_nil_r in Hs |- *. change (total_bytes []) with 0. rewrite Z.add_0_r. eexists. split; [done|].
    destruct p as [|e p]; [rewrite app_nil_r in Hs |- *; split; [done|by constructor]|].
    rewrite List.concat_app. cbn [List.concat]. rewrite app_nil_r. split; [done|]. constructor.
    + rewrite List.concat_app. cbn [List.concat]. by rewrite app_nil_r.
    + apply Forall_app. split; [done|]. apply Forall_singleton. done.
  - change (total_bytes ((key, row) :: rows)) with (entry_size (key, row) + total_bytes rows) in *.
    pose proof (entry_size_range (key, row)). pose proof (total_nonneg rows).
    change (relational_row_entry_bytes key row) with (entry_size (key, row)). set (size := entry_size (key, row)) in *.
    unfold Prelude.checked_add. rewrite (proj2 (Z.leb_le _ _)) by lia. cbn [mbind option_bind].
    rewrite Z.add_assoc. destruct (negb (bool_decide (length p = O)) && _) eqn:Efull.
    + apply andb_true_iff in Efull as [Hne _]. apply negb_true_iff, bool_decide_eq_false in Hne.
      destruct (IH (ps ++ [p]) [(key, row)] (saturating_add usize_max 0 size) (total + size)) as (ps' & E & Hc & Hok);
        try done; try lia.
      * rewrite List.concat_app. cbn [List.concat]. by rewrite app_nil_r, <- app_assoc.
      * apply Forall_app. split; [done|]. apply Forall_singleton. split; [|done]. by destruct p.
      * rewrite row_max. cbn. lia.
      * exists ps'. split; [exact E|]. split; [|done]. rewrite Hc, List.concat_app. cbn [List.concat]. by rewrite app_nil_r, <- app_assoc.
    + rewrite (insert_last key_cmp).
      2: { intros a Ha. apply key_sorted_app in Hs as (_ & Hs & _). apply key_sorted_app in Hs as (_ & _ & H').
           apply (H' a (key, row) Ha), list_elem_of_here. }
      destruct (IH ps (p ++ [(key, row)]) (saturating_add usize_max bytes size) (total + size)) as (ps' & E & Hc & Hok);
        try done; try lia.
      * by rewrite <- app_assoc.
      * rewrite length_app. apply andb_false_iff in Efull as [E|[E%Nat.leb_gt _]%orb_false_iff].
        -- apply negb_false_iff, bool_decide_eq_true in E. rewrite E, row_max. cbn. lia.
        -- cbn [length]. lia.
      * exists ps'. split; [exact E|]. split; [|done]. by rewrite Hc, <- app_assoc.
Qed.
Lemma from_map_rows rows : key_sorted key_cmp rows → total_bytes rows ≤ usize_max →
  ∃ rs, from_map rows = Some rs ∧ rows_contents rs = rows ∧ rows_wf rs.
Proof using LL.
  intros Hs Ht. destruct (from_map_ok rows [] [] 0 0) as (ps & E & Hc & Hok); try done; try lia.
  { rewrite row_max. cbn. lia. }
  { unfold u128_max, usize_max, u64_max in *. lia. }
  unfold from_map. rewrite E. cbn [mbind option_bind]. cbn in Hc. eexists. split; [done|]. unfold rows_contents. cbn [row_pages]. split; [done|].
  constructor; unfold rows_contents; cbn [row_pages row_len row_entry_bytes]; rewrite ?Hc; done.
Qed.

(** ** Under a work context *)

Lemma saturating_total p : total_bytes p ≤ usize_max → saturating_page_bytes p = total_bytes p.
Proof using LL.
  intros H. unfold saturating_page_bytes. enough (∀ acc, 0 ≤ acc → acc + total_bytes p ≤ usize_max →
    foldl (λ bytes e, saturating_add usize_max bytes (relational_row_entry_bytes e.1 e.2)) acc p = acc + total_bytes p) as Hf by (by rewrite Hf).
  clear H. induction p as [|e p IH]; intros acc Hacc Hmax; cbn [foldl]; [cbn; lia|].
  change (total_bytes (e :: p)) with (entry_size e + total_bytes p) in *. pose proof (entry_size_range e). pose proof (total_nonneg p).
  fold (entry_size e). unfold saturating_add. rewrite Z.min_r by lia. rewrite IH by lia. lia.
Qed.

(** The split under a work context is the split in place. *)
Lemma runs_split_rows qs p ps : key_sorted key_cmp p → total_bytes p ≤ usize_max →
  runs (split_rows_with_work p) (λ r, ∃ ps', put_right (length qs) r.2 (qs ++ r.1 :: ps) = Some ps' ∧
    split_relational_row_page (length qs) (qs ++ p :: ps) = Some ps').
Proof using LL.
  intros Hs Hb. unfold split_rows_with_work, split_relational_row_page. rewrite lookup_mid. cbn [mbind option_bind].
  rewrite page_bytes_ok, saturating_total by done. cbn [mbind option_bind].
  assert ((length p <=? 1)%nat || ((length p <=? RELATIONAL_ROW_PAGE_MAX_ENTRIES)%nat && (total_bytes p <=? RELATIONAL_ROW_PAGE_TARGET_BYTES)) =
    negb ((1 <? length p)%nat && ((RELATIONAL_ROW_PAGE_MAX_ENTRIES <? length p)%nat || (RELATIONAL_ROW_PAGE_TARGET_BYTES <? total_bytes p)))) as ->.
  { by rewrite negb_andb, negb_orb, <- !Nat.leb_antisym, <- Z.leb_antisym. }
  destruct ((1 <? length p)%nat && _) eqn:E; cbn [negb]; [|apply runs_ret; by eexists].
  apply andb_true_iff in E as [E%Nat.ltb_lt _]. destruct (halves p Hs E) as (k & a & b & -> & Esp & _ & Ha & Hbn & _).
  do 2 runs_step.
  runs_step.
  rewrite Esp. apply runs_ret. cbn [mbind option_bind fst snd put_right].
  rewrite Esp, take_app_length, !drop_S_mid. eexists. split; [|done].
  rewrite (proj2 (Nat.leb_le _ _)) by (rewrite length_app; cbn; lia).
  assert (qs ++ a :: ps = (qs ++ [a]) ++ ps) as -> by (by rewrite <- app_assoc).
  assert (S (length qs) = length (qs ++ [a])) as -> by (rewrite length_app; cbn; lia).
  by rewrite take_app_length, <- app_assoc.
Qed.

Context (node_bytes ownership_bytes : Z) (Hnode : size_ok node_bytes) (Hown : size_ok ownership_bytes).

(** An insertion under a work context is the plain one, or refused by the
    context. *)
Lemma insert_with_work_ok key row rs : rows_wf rs → zlen (rows_contents rs) < usize_max →
  total_bytes (map_insert key_cmp key row (rows_contents rs)).2 ≤ usize_max →
  runs (insert_with_work node_bytes ownership_bytes key row rs) (λ r, rows_insert key row rs = Some r).
Proof using LL Hnode Hown.
  intros Hw Hmax Htot. destruct (rows_insert_ok key row rs Hw Hmax Htot) as (rs' & Eins & _ & _). pose proof Hw as [Hok Hlen Hbytes].
  pose proof (pages_count _ _ Hok) as Hcount. unfold insert_with_work. unfold rows_contents in *.
  eapply runs_bind; [eapply runs_refuse; unfold Prelude.checked_add; by rewrite (proj2 (Z.leb_le _ _)) by lia|]. intros _ _.
  do 3 runs_step. unfold rows_insert in *. destruct (row_pages rs) as [|p0 ps0] eqn:Es.
  - cbn [page_index default from_option id lookup list_lookup]. destruct (node_space_ok node_bytes ownership_bytes 0 Hnode Hown ltac:(lia)) as [z Ez].
    eapply runs_bind; [by eapply runs_refuse|]. intros _ _. runs_step. eapply runs_bind; [apply runs_copy; constructor|]. intros ? ->. runs_step.
    rewrite insert_bytes_spec. cbn [app get_key_value fmap option_fmap option_map insert_entry default from_option id]. runs_step.
    cbn [map_insert map_get get_key_value map_alter insert_entry option_list fmap option_fmap option_map]. runs_step.
    cbn [map_insert map_alter snd List.concat insert_entry option_list] in Htot.
    eapply runs_bind; [apply (runs_split_rows [] _ []); [repeat constructor|done]|].
    intros [kept right_page] (ps' & E & Esp). cbn [fst snd length app] in *. runs_step.
    assert (ps' = [[(key, row)]]) as ->.
    { unfold split_relational_row_page in Esp. cbn [lookup list_lookup mbind option_bind] in Esp. rewrite page_bytes_ok in Esp by done.
      by injection Esp. }
    do 2 runs_step. eapply runs_bind.
    { eapply runs_panic. unfold account_entry. cbn [row_len row_entry_bytes row_pages mbind option_bind]. rewrite Hbytes, Hlen.
      unfold Prelude.checked_add. rewrite (proj2 (Z.leb_le _ _)); [done|]. cbn. cbn in Htot. unfold u128_max, usize_max, u64_max in *. lia. }
    intros ? ->. by apply runs_ret.
  - destruct (page_located _ key _ Hok ltac:(done)) as (qs & p & ps & E & Ei & H1 & H2). rewrite E in *. rewrite Ei.
    change (default O (Some (length qs))) with (length qs). rewrite lookup_mid. change (default [] (Some p)) with p.
    pose proof (page_short _ _ _ _ Hok) as Hshort. rewrite row_max in Hshort.
    destruct (node_space_ok node_bytes ownership_bytes (zlen p) Hnode Hown) as [z Ez]; [unfold zlen; lia|].
    pose proof (index_page_sorted _ _ _ _ Hok) as Hsp.
    eapply runs_bind; [by eapply runs_refuse|]. intros _ _. runs_step. eapply runs_bind; [by apply runs_copy|]. intros ? ->. runs_step.
    cbn [app]. destruct (insert_entry_bytes p key row) as [removed added] eqn:Ebytes. runs_step.
    cbn [map_insert snd] in *. runs_step.
    pose proof (concat_located (insert_entry key row) key qs p ps H1 H2) as Hc.
    eapply runs_bind; [apply (runs_split_rows qs _ ps)|].
    { by apply (alter_sorted key_cmp); [apply (insert_keeps key_cmp)|]. }
    { etransitivity; [apply (total_mid qs _ ps)|]. by rewrite Hc. }
    intros [kept right_page] (ps' & Er & Esp). cbn [fst snd] in *. runs_step.
    rewrite Ei in Eins. cbn [mbind option_bind] in *. rewrite lookup_mid in Eins |- *. cbn [mbind option_bind] in *.
    rewrite Ebytes, insert_mid in Eins |- *. rewrite Esp in Eins |- *. cbn [mbind option_bind] in *.
    destruct (account_entry removed _ _) as [rs1|] eqn:Ea; [|done]. eapply runs_bind.
    { eapply runs_panic. unfold put_page. rewrite (proj2 (Nat.ltb_lt _ _)) by (rewrite length_app; cbn; lia). by rewrite insert_mid. }
    intros ? ->. do 2 runs_step. by apply runs_ret.
Qed.

(** The copies of a page. *)
Lemma copy_space_ok n : 0 ≤ n ≤ 2 ^ 16 → ∃ z, page_copy_space node_bytes n = Some z ∧ 0 ≤ z ≤ (2 ^ 16 + 2) * 2 ^ 32.
Proof using Hnode.
  intros Hn. unfold page_copy_space. assert (0 ≤ n / 4 + 2 ≤ 2 ^ 16 + 2) as Hd by (pose proof (Z.div_pos n 4); pose proof (Z.div_le_upper_bound n 4 (2 ^ 16)); lia).
  assert (0 ≤ (n / 4 + 2) * node_bytes ≤ (2 ^ 16 + 2) * 2 ^ 32) as Hb by (split; [apply Z.mul_nonneg_nonneg|apply Z.mul_le_mono_nonneg]; unfold size_ok in *; lia).
  rewrite (proj2 (Z.leb_le _ _)) by (etransitivity; [apply Hb|by vm_compute]). by eexists.
Qed.
Lemma prepare_copy_ok directory_shared page_shared key rs : rows_wf rs →
  runs (prepare_copy_with_work node_bytes directory_shared page_shared key rs) (λ rs', rs' = rs).
Proof using Hnode.
  intros [Hok _ _]. unfold prepare_copy_with_work. destruct rs as [pages len bytes]. cbn [row_pages row_len row_entry_bytes] in *.
  destruct pages as [|p0 ps0] eqn:Es; [by apply runs_ret|].
  destruct (page_located _ key _ Hok ltac:(done)) as (qs & p & ps & E & -> & _). rewrite E, lookup_mid in *.
  eapply runs_bind; [by eapply runs_panic|]. intros ? ->. destruct (directory_shared || page_shared); [|by apply runs_ret].
  eapply (runs_bind _ _ (λ _, True)); [destruct directory_shared; [do 2 apply runs_then; apply runs_each|by apply runs_ret]|]. intros _ _.
  pose proof (page_short _ _ _ _ Hok) as Hshort. rewrite row_max in Hshort.
  destruct (copy_space_ok (zlen p)) as (z & Ez & _); [unfold zlen; lia|]. eapply runs_bind; [by eapply runs_refuse|]. intros _ _.
  do 2 apply runs_then. eapply runs_bind; [apply runs_copy; by eapply index_page_sorted|]. intros ? ->. apply runs_then.
  apply runs_ret. by rewrite insert_mid.
Qed.

(** Rows can hold one value more. *)
Definition row_short (e : RowEntry) : bool := zlen e.2 <? usize_max.
Definition rows_short l : Prop := forallb row_short l = true.
Lemma runs_reconstruct row : runs (reconstruct_values row) (λ r, r = row).
Proof using.
  apply runs_then. eapply runs_bind; [apply runs_values|]. intros _ _. do 2 apply runs_then. by apply runs_ret.
Qed.
Lemma sorted_replace copied key row row' page : key_sorted key_cmp (copied ++ (key, row) :: page) →
  key_sorted key_cmp ((copied ++ [(key, row')]) ++ page).
Proof using.
  rewrite <- app_assoc. intros (H1 & [H2 H3]%key_sorted_cons & H4)%key_sorted_app. apply key_sorted_app.
  split_and!; [done|by apply key_sorted_cons|]. intros a b Ha [-> | Hb]%elem_of_cons.
  - apply (H4 a (key, row) Ha), list_elem_of_here.
  - apply (H4 a b Ha). by apply list_elem_of_further.
Qed.
Lemma append_entries_ok v page : ∀ copied total, key_sorted key_cmp (copied ++ page) → rows_short page →
  0 ≤ total → total + total_bytes (append_value v <$> page) ≤ u128_max →
  runs (append_entries v page copied total) (λ r, r = (copied ++ (append_value v <$> page), total + total_bytes (append_value v <$> page))).
Proof using LL.
  induction page as [|[key row] page IH]; intros copied total Hs HF Ht Hmax; cbn [append_entries].
  { apply runs_ret. rewrite app_nil_r. f_equal. cbn. lia. }
  apply andb_true_iff in HF as [Hrow%Z.ltb_lt HF]. rewrite fmap_cons in Hmax |- *.
  assert (∀ l, total_bytes (append_value v (key, row) :: l) = entry_size (key, row ++ [v]) + total_bytes l) as Hcons by done.
  rewrite Hcons in Hmax |- *. pose proof (entry_size_range (key, row ++ [v])). pose proof (total_nonneg (append_value v <$> page)).
  eapply runs_bind; [apply runs_clone|]. intros ? ->.
  eapply runs_bind; [eapply runs_refuse; unfold Prelude.checked_add; rewrite (proj2 (Z.leb_le _ _)); [done|]; cbn in Hrow; lia|].
  intros _ _. eapply runs_bind; [apply runs_reconstruct|]. intros ? ->. fold (entry_size (key, row ++ [v])).
  change (relational_row_entry_bytes key (row ++ [v])) with (entry_size (key, row ++ [v])).
  eapply runs_bind; [eapply runs_panic; unfold Prelude.checked_add; by rewrite (proj2 (Z.leb_le _ _)) by lia|]. intros ? ->. apply runs_then.
  rewrite (insert_last key_cmp).
  2: { intros a Ha. apply key_sorted_app in Hs as (_ & _ & H'). apply (H' a (key, row) Ha), list_elem_of_here. }
  eapply runs_mono; [apply IH; [by eapply sorted_replace|done|lia|lia]|]. intros ? ->. rewrite <- app_assoc, Z.add_assoc. done.
Qed.
Lemma append_pages_ok v ps : ∀ copied total, pages_ok RELATIONAL_ROW_PAGE_MAX_ENTRIES ps → rows_short (List.concat ps) →
  0 ≤ total → total + total_bytes (append_value v <$> List.concat ps) ≤ u128_max →
  runs (append_pages node_bytes ownership_bytes v ps copied total)
    (λ r, r = (copied ++ ((λ page, append_value v <$> page) <$> ps), total + total_bytes (append_value v <$> List.concat ps))).
Proof using LL Hnode Hown.
  induction ps as [|p ps IH]; intros copied total Hok Hshort Ht Hmax; cbn [append_pages List.concat] in *.
  { apply runs_ret. rewrite app_nil_r. f_equal. cbn. lia. }
  destruct Hok as [Hs [[_ Hp] HF]%Forall_cons]. cbn [List.concat] in Hs. apply key_sorted_app in Hs as (Hsp & Hs & _).
  unfold rows_short in Hshort. rewrite List.forallb_app in Hshort. apply andb_true_iff in Hshort as [Hshort1 Hshort]. rewrite fmap_app, total_app in Hmax |- *.
  pose proof (total_nonneg (append_value v <$> p)). pose proof (total_nonneg (append_value v <$> List.concat ps)).
  rewrite row_max in Hp. destruct (copy_space_ok (zlen p)) as (z & Ez & Hz); [unfold zlen; lia|].
  eapply runs_bind.
  { eapply runs_refuse. rewrite Ez. cbn [mbind option_bind]. unfold Prelude.checked_add. rewrite (proj2 (Z.leb_le _ _)); [done|].
    unfold size_ok in Hown. assert ((2 ^ 16 + 2) * 2 ^ 32 + 2 ^ 32 ≤ usize_max) by (by vm_compute). lia. }
  intros _ _. apply runs_then. eapply runs_bind; [apply append_entries_ok; [done|done|done|lia]|]. intros ? ->. cbn [app]. apply runs_then.
  eapply runs_mono; [apply IH; [by constructor|done|lia|lia]|]. intros ? ->. rewrite <- app_assoc, Z.add_assoc. done.
Qed.
Lemma append_with_work_ok v rs : rows_wf rs → rows_short (rows_contents rs) →
  total_bytes (append_value v <$> rows_contents rs) ≤ usize_max →
  runs (append_value_with_work node_bytes ownership_bytes v rs) (λ rs', append_value_to_all v rs = Some rs').
Proof using LL Hnode Hown.
  intros Hw Hshort Htot. destruct (append_value_ok v rs Hw Htot) as (rs' & E & Hc & [_ _ Hb']). pose proof Hw as [Hok _ _].
  unfold append_value_with_work. do 2 apply runs_then.
  eapply runs_bind; [apply append_pages_ok; [done|done|done|]|].
  { unfold rows_contents in Htot. unfold u128_max, usize_max, u64_max in *. lia. }
  intros ? ->. do 2 apply runs_then. apply runs_ret. rewrite E. f_equal. revert E Hb' Hc. unfold append_value_to_all.
  destruct (u128_sum _ 0) as [z|]; [|done]. cbn [mbind option_bind]. intros [= <-] Hb' Hc. cbn [row_entry_bytes] in Hb'. rewrite Hb', Hc. done.
Qed.

(** The page a row after all the others goes to. *)
Lemma starts_page_ok size rs : rows_wf rs → total_bytes (rows_contents rs) ≤ usize_max →
  ∃ new_page : bool, starts_page size (row_pages rs) = Some new_page ∧
    ∃ qs p, (if new_page then row_pages rs ++ [[]] else row_pages rs) = qs ++ [p] ∧
      Forall (λ p, p ≠ [] ∧ (length p ≤ RELATIONAL_ROW_PAGE_MAX_ENTRIES)%nat) qs ∧
      (length p < RELATIONAL_ROW_PAGE_MAX_ENTRIES)%nat ∧ rows_contents rs = List.concat qs ++ p.
Proof using LL.
  intros [[_ HF] _ _] Htot. unfold starts_page, rows_contents in *.
  assert (∃ qs p, row_pages rs ++ [[]] = qs ++ [p] ∧ Forall (λ p, p ≠ [] ∧ (length p ≤ RELATIONAL_ROW_PAGE_MAX_ENTRIES)%nat) qs ∧
    (length p < RELATIONAL_ROW_PAGE_MAX_ENTRIES)%nat ∧ List.concat (row_pages rs) = List.concat qs ++ p) as Hnew.
  { exists (row_pages rs), []. rewrite app_nil_r, row_max. split_and!; [done|done|cbn; lia|done]. }
  destruct (last (row_pages rs)) as [p|] eqn:El; [|by exists true]. apply last_Some in El as [qs Eq]. rewrite Eq in HF, Htot.
  destruct (Nat.leb_spec RELATIONAL_ROW_PAGE_MAX_ENTRIES (length p)) as [Hl|Hl]; [by exists true|].
  apply Forall_app in HF as [HF [[Hne _] _]%Forall_cons]. destruct p as [|e p]; [done|].
  rewrite page_bytes_ok by (etransitivity; [apply (total_mid qs _ [])|done]). cbn [fmap option_fmap option_map].
  destruct (_ <? _); [by exists true|]. exists false. split; [done|]. exists qs, (e :: p). split_and!; [done|done|done|].
  rewrite Eq, List.concat_app. cbn [List.concat]. by rewrite app_nil_r.
Qed.

(** A row after all the others, appended to the last page or a new one. *)
Lemma push_sorted_ok key row rs : rows_wf rs → zlen (rows_contents rs) < usize_max →
  (∀ e, e ∈ rows_contents rs → key_cmp e.1 key = Lt) → total_bytes (rows_contents rs ++ [(key, row)]) ≤ usize_max →
  runs (push_sorted_with_work key row rs) (λ r, r.1 = None ∧ rows_contents r.2 = rows_contents rs ++ [(key, row)] ∧ rows_wf r.2).
Proof using LL.
  intros Hw Hmax Hlt Htot. pose proof Htot as Htot'. rewrite total_app in Htot'. pose proof (total_nonneg [(key, row)]).
  destruct (starts_page_ok (relational_row_entry_bytes key row) rs Hw ltac:(lia)) as (new_page & Enew & qs & p & Epages & HF & Hp & Hc).
  pose proof Hw as [Hok Hlen Hbytes]. unfold push_sorted_with_work. eapply runs_bind; [by eapply runs_panic|]. intros ? ->. runs_step.
  eapply (runs_bind _ _ (λ _, True)). { destruct (row_pages rs); [apply runs_then, runs_ask|by apply runs_ret]. }
  intros _ _. eapply (runs_bind _ _ (λ ps, ps = qs ++ [p])). { rewrite <- Epages. destruct new_page; [do 2 apply runs_then|]; by apply runs_ret. }
  intros ? ->. runs_step. eapply runs_bind; [eapply runs_panic; by rewrite last_snoc|]. intros ? ->.
  assert (∀ a, a ∈ p → key_cmp a.1 key = Lt) as Hltp by (intros x Hx; apply Hlt; rewrite Hc; apply elem_of_app; by right).
  assert (∀ l, (∀ a, a ∈ l → key_cmp a.1 key = Lt) → get_key_value key_cmp key l = None) as Hnone.
  { intros l Hl. rewrite <- (app_nil_r l). by rewrite (get_above key_cmp). }
  rewrite insert_bytes_spec, Hnone by done. cbn [fmap option_fmap option_map insert_entry default from_option id].
  destruct (map_insert key_cmp key row p) as [replaced p'] eqn:Eins.
  assert (replaced = None ∧ p' = p ++ [(key, row)]) as [-> ->].
  { pose proof (insert_last key_cmp key row p Hltp) as Hi. rewrite Eins in Hi. split; [|done]. injection Eins as <- _. unfold map_get. by rewrite Hnone. }
  replace (length (qs ++ [p]) - 1)%nat with (length qs) by (rewrite length_app; cbn; lia). rewrite insert_mid.
  assert (List.concat (qs ++ [p ++ [(key, row)]]) = rows_contents rs ++ [(key, row)]) as Hc'.
  { rewrite List.concat_app. cbn [List.concat]. by rewrite app_nil_r, Hc, app_assoc. }
  destruct (account_ok (insert_entry key row) key (row_pages rs) (qs ++ [p ++ [(key, row)]]) (row_len rs) (row_entry_bytes rs)) as (rs' & Ea & Ers & Hw').
  - apply (insert_keeps key_cmp).
  - apply Hok.
  - done.
  - done.
  - rewrite Hc'. symmetry. exact (insert_last key_cmp key row (rows_contents rs) Hlt).
  - done.
  - by rewrite Hc'.
  - apply pages_ok_mid. rewrite Hc'. split_and!; [|done|by destruct p|rewrite length_app; cbn [length]; lia|done].
    apply key_sorted_app. split_and!; [apply Hok|repeat constructor|]. intros x y Hx ->%list_elem_of_singleton. by apply Hlt.
  - rewrite (Hnone (List.concat (row_pages rs))) in Ea by done.
    eapply runs_bind; [eapply runs_panic; exact Ea|]. intros ? ->. apply runs_ret. cbn [fst snd]. unfold rows_contents at 1. by rewrite Ers.
Qed.
End Spec.

(** ** Any sequence of operations *)

Inductive row_op :=
  | InsertRow (key : RelationalKey) (row : RelationalRow)
  | InsertRowWork (key : RelationalKey) (row : RelationalRow) (w : Answers)
  | RemoveRow (key : RelationalKey)
  | AppendColumn (v : RelationalValue)
  | AppendColumnWork (v : RelationalValue) (w : Answers)
  | PrepareCopy (directory_shared page_shared : bool) (key : RelationalKey) (w : Answers)
  | GetRow (key : RelationalKey)
  | RangeRows (range : option RelationalKeyRange)
  | FirstKeyAfter (after : option RelationalKey).

Inductive row_outcome :=
  | Returned (row : option RelationalRow)
  | Appended
  | Prepared
  | Found (rows : list (RelationalKey * RelationalRow))
  | Next (key : option RelationalKey)
  | RowRefused (message : string).

Section RowOperations.
Context `{L : RowLayout} {LL : RowLayoutLaws L} (node_bytes ownership_bytes : Z).
Implicit Types (rs : RelationalRowPages) (l : RowPage) (op : row_op) (out : row_outcome).

Definition run_row_work {A} (m : work A) (answer : A → row_outcome * RelationalRowPages) (w : Answers) rs
    : option (row_outcome * RelationalRowPages) :=
  r ← m w;
  match r with
  | Ok (a, _) => Some (answer a)
  | Err (Admission message) => Some (RowRefused message, rs)
  | Err _ => None
  end.
Definition run_row_op op rs : option (row_outcome * RelationalRowPages) :=
  match op with
  | InsertRow key row => '(previous, rs) ← rows_insert key row rs; Some (Returned previous, rs)
  | InsertRowWork key row w =>
      run_row_work (insert_with_work node_bytes ownership_bytes key row rs) (λ r, (Returned r.1, r.2)) w rs
  | RemoveRow key => '(previous, rs) ← rows_remove key rs; Some (Returned previous, rs)
  | AppendColumn v => rs ← append_value_to_all v rs; Some (Appended, rs)
  | AppendColumnWork v w =>
      run_row_work (append_value_with_work node_bytes ownership_bytes v rs) (λ rs, (Appended, rs)) w rs
  | PrepareCopy directory_shared page_shared key w =>
      run_row_work (prepare_copy_with_work node_bytes directory_shared page_shared key rs) (λ rs, (Prepared, rs)) w rs
  | GetRow key => row ← rows_get key rs; Some (Returned row, rs)
  | RangeRows range => rows ← rows_range range rs; Some (Found rows, rs)
  | FirstKeyAfter after => Some (Next (rows_first_key_after after rs), rs)
  end.

(** The same on the ordered map of the rows. *)
Definition row_after (after : option RelationalKey) (e : RowEntry) : bool :=
  match after with Some after => key_ltb key_cmp after e.1 | None => true end.
Definition refused (w : Answers) out l l' : Prop := ∃ message, out = RowRefused message ∧ Some message ∈ w ∧ l' = l.
Definition spec_row_op op out l l' : Prop :=
  match op with
  | InsertRow key row => out = Returned (map_get key_cmp key l) ∧ l' = (map_insert key_cmp key row l).2
  | InsertRowWork key row w =>
      refused w out l l' ∨ (out = Returned (map_get key_cmp key l) ∧ l' = (map_insert key_cmp key row l).2)
  | RemoveRow key => out = Returned (map_get key_cmp key l) ∧ l' = (map_remove key_cmp key l).2
  | AppendColumn v => out = Appended ∧ l' = append_value v <$> l
  | AppendColumnWork v w => refused w out l l' ∨ (out = Appended ∧ l' = append_value v <$> l)
  | PrepareCopy _ _ _ w => refused w out l l' ∨ (out = Prepared ∧ l' = l)
  | GetRow key => out = Returned (map_get key_cmp key l) ∧ l' = l
  | RangeRows range =>
      out = Found (List.filter (in_range (default (mk_key_range Unbounded Unbounded) range)) l) ∧ l' = l
  | FirstKeyAfter after => out = Next (fst <$> head (List.filter (row_after after) l)) ∧ l' = l
  end.

(** What an operation needs: the rows before and after it are addressable. *)
Definition rows_fit l : Prop := zlen l < usize_max ∧ total_bytes l ≤ usize_max.
Definition row_op_ok op l : Prop :=
  match op with
  | InsertRow key row | InsertRowWork key row _ => rows_fit l ∧ rows_fit (map_insert key_cmp key row l).2
  | RemoveRow _ => rows_fit l
  | AppendColumn v => rows_fit (append_value v <$> l)
  | AppendColumnWork v _ => rows_fit (append_value v <$> l) ∧ rows_short l
  | _ => True
  end.

Fixpoint run_row_ops (ops : list row_op) rs : option (list row_outcome * RelationalRowPages) :=
  match ops with
  | [] => Some ([], rs)
  | op :: ops => '(out, rs) ← run_row_op op rs; '(outs, rs) ← run_row_ops ops rs; Some (out :: outs, rs)
  end.
Fixpoint spec_row_ops (ops : list row_op) (outs : list row_outcome) l l' : Prop :=
  match ops, outs with
  | [], [] => l' = l
  | op :: ops, out :: outs => ∃ l1, spec_row_op op out l l1 ∧ spec_row_ops ops outs l1 l'
  | _, _ => False
  end.
Fixpoint row_ops_ok (ops : list row_op) l : Prop :=
  match ops with
  | [] => True
  | op :: ops => row_op_ok op l ∧ ∀ out l', spec_row_op op out l l' → row_ops_ok ops l'
  end.

Context (Hnode : size_ok node_bytes) (Hown : size_ok ownership_bytes).

(** A computation under a work context, against its specification. *)
Lemma run_row_work_ok {A} (m : work A) (answer : A → row_outcome * RelationalRowPages) w rs (P : row_outcome → RowPage → Prop) :
  rows_wf rs → runs m (λ a, P (answer a).1 (rows_contents (answer a).2) ∧ rows_wf (answer a).2) →
  ∃ out rs', run_row_work m answer w rs = Some (out, rs') ∧
    (refused w out (rows_contents rs) (rows_contents rs') ∨ P out (rows_contents rs')) ∧ rows_wf rs'.
Proof using.
  intros Hw Hr. specialize (Hr w). unfold run_row_work. destruct (m w) as [[[a w']|[message| | |]]|]; [| |done..]; cbn [mbind option_bind].
  - destruct Hr as [[Hp Hw'] _]. exists (answer a).1, (answer a).2. split; [by destruct (answer a)|]. split; [by right|done].
  - do 2 eexists. split; [done|]. split; [left; by exists message|done].
Qed.

Lemma run_row_op_ok op rs : rows_wf rs → row_op_ok op (rows_contents rs) →
  ∃ out rs', run_row_op op rs = Some (out, rs') ∧ spec_row_op op out (rows_contents rs) (rows_contents rs') ∧ rows_wf rs'.
Proof using LL Hnode Hown.
  intros Hw Hop. destruct op as [key row|key row w|key|v|v w|ds ps key w|key|range|after]; cbn [run_row_op spec_row_op row_op_ok] in *.
  - destruct Hop as [[Hl _] [_ Ht]]. destruct (rows_insert_ok key row rs Hw Hl Ht) as (rs' & -> & Hc & Hw'). by do 2 eexists.
  - destruct Hop as [[Hl _] [_ Ht]].
    apply (run_row_work_ok _ _ _ _ (λ out l', out = Returned (map_get key_cmp key (rows_contents rs)) ∧ l' = (map_insert key_cmp key row (rows_contents rs)).2)); [done|].
    eapply runs_mono; [by apply (insert_with_work_ok node_bytes ownership_bytes)|]. destruct (rows_insert_ok key row rs Hw Hl Ht) as (rs' & -> & Hc & Hw').
    by intros ? [= <-].
  - destruct Hop as [Hl Ht]. destruct (rows_remove_ok key rs Hw Hl Ht) as (rs' & -> & Hc & Hw'). by do 2 eexists.
  - destruct Hop as [_ Ht]. destruct (append_value_ok v rs Hw Ht) as (rs' & -> & Hc & Hw'). by do 2 eexists.
  - destruct Hop as [[_ Ht] Hshort]. apply (run_row_work_ok _ _ _ _ (λ out l', out = Appended ∧ l' = append_value v <$> rows_contents rs)); [done|].
    eapply runs_mono; [by apply (append_with_work_ok node_bytes ownership_bytes)|]. destruct (append_value_ok v rs Hw Ht) as (rs' & -> & Hc & Hw').
    by intros ? [= <-].
  - apply (run_row_work_ok _ _ _ _ (λ out l', out = Prepared ∧ l' = rows_contents rs)); [done|].
    eapply runs_mono; [by apply (prepare_copy_ok node_bytes)|]. by intros ? ->.
  - destruct (rows_get_ok key rs Hw) as [-> _]. by do 2 eexists.
  - rewrite rows_range_ok by done. by do 2 eexists.
  - rewrite first_key_after_ok by done. do 2 eexists. split; [done|]. split; [|done]. split; [|done].
    destruct after; [done|]. by rewrite (filter_all (row_after None)).
Qed.

(** C18: The resident rows of a table refine an ordered map from primary keys to
    rows.  Any sequence of insertions and column additions (plain or under a
    work context), removals, private copies of a page, lookups, key ranges and
    cursor steps runs without a panic from well-formed pages, as long as the rows
    fit in memory; every operation answers what the map answers and leaves the
    changed map, except that one under a work context may be refused, only with a
    message of the context, and then changes nothing.  The pages stay
    sorted, non-empty and of at most 256 rows, and the kept row count and byte
    total stay exact. *)
Theorem resident_rows_refine ops rs : rows_wf rs → row_ops_ok ops (rows_contents rs) →
  ∃ outs rs', run_row_ops ops rs = Some (outs, rs') ∧
    spec_row_ops ops outs (rows_contents rs) (rows_contents rs') ∧ rows_wf rs'.
Proof using LL Hnode Hown.
  revert rs. induction ops as [|op ops IH]; intros rs Hw Hops; [by exists [], rs|]. destruct Hops as [Hop Hops].
  destruct (run_row_op_ok op rs Hw Hop) as (out & rs1 & E1 & Hs1 & Hw1).
  destruct (IH rs1 Hw1 (Hops _ _ Hs1)) as (outs & rs2 & E2 & Hs2 & Hw2).
  exists (out :: outs), rs2. cbn [run_row_ops]. rewrite E1. cbn [mbind option_bind]. rewrite E2.
  split_and!; [done| |done]. by exists (rows_contents rs1).
Qed.
End RowOperations.

(** A table filled out of order, one insertion refused, scanned and widened. *)
Module RowsDemo.
#[local] Instance demo_layout : RowLayout := {| size_of_key := 24; size_of_row := 40; size_of_values := 16; size_of_overflow_ref := 64 |}.
#[local] Instance demo_laws : RowLayoutLaws demo_layout.
Proof. constructor; by vm_compute. Qed.
Definition demo_key (n : Z) : RelationalKey := [RBigInt n].
Definition demo_row (n : Z) : RelationalRow := [RBigInt n; RBoolean true].
Definition demo_ops : list row_op :=
  [InsertRow (demo_key 5) (demo_row 5); InsertRow (demo_key 3) (demo_row 3);
   InsertRowWork (demo_key 4) (demo_row 4) [None; Some "cancelled"%string]; PrepareCopy true false (demo_key 4) [];
   InsertRowWork (demo_key 9) (demo_row 9) [];
   RangeRows (Some (mk_key_range (Excluded (demo_key 3)) Unbounded)); AppendColumnWork RNull []; RemoveRow (demo_key 5)].

Lemma rows_default_wf : rows_wf rows_default.
Proof. constructor; [apply pages_ok_nil|done|done]. Qed.

(** The next operation needs what it needs, whatever the one before answered. *)
Ltac next_op :=
  split; [unfold row_op_ok, rows_fit, rows_short; split_and?; first [exact I | by vm_compute]|];
  let Hs := fresh in intros ? ? Hs; unfold spec_row_op in Hs;
  first [destruct Hs as [_ ->] | destruct Hs as [(? & _ & _ & ->)|[_ ->]]].
Lemma demo_ops_ok : row_ops_ok demo_ops (rows_contents rows_default).
Proof.
  unfold demo_ops. do 8 next_op. all: exact I.
Qed.

Lemma resident_rows_refine_witness : ∃ outs rs',
  run_row_ops 64 32 demo_ops rows_default = Some (outs, rs') ∧
  spec_row_ops demo_ops outs (rows_contents rows_default) (rows_contents rs') ∧ rows_wf rs'.
Proof.
  exact (resident_rows_refine 64 32 (proj1 IndexDemo.sizes) (proj2 IndexDemo.sizes) demo_ops rows_default rows_default_wf demo_ops_ok).
Defined.
Example demo_outcomes : fst <$> run_row_ops 64 32 demo_ops rows_default =
  Some [Returned None; Returned None; RowRefused "cancelled"; Prepared; Returned None;
        Found [(demo_key 5, demo_row 5); (demo_key 9, demo_row 9)]; Appended; Returned (Some (demo_row 5 ++ [RNull]))].
Proof. by vm_compute. Qed.
End RowsDemo.
