(* ===== verification/MutationRows.v ===== *)
(** The rows an UPDATE or DELETE visits: predicates over rows and the candidate
    rows of a predicate, of crates/storage/src/relational.rs.

    A predicate has SQL's three truth values.  Instead of the whole table, a
    mutation visits the row of a complete primary key, or a range of keys, that
    the predicate implies.  The functions are modelled for [allocations = None];
    [None] is a panic. *)
From S2P Require Import Prelude Text Ordering Decimal RelationalValue OrderedKey BTreeMap Pages IndexRange.
From S2P Require Import Values Numeric RelationalSchema NumericExpression PrimaryKeyRange ResidentRows ResidentRowsSpec.

(** ** Keys of rows *)

Fixpoint column_positions (s : RelationalTableSchema) (cs : list bytes) : result (list nat) RelationalError :=
  match cs with
  | [] => Ok []
  | column :: cs =>
      match column_position s column with
      | None => Err (Schema (Formatted "table {} has no column {column}" [schema_name s; column]))
      | Some position => let? positions := column_positions s cs in Ok (position :: positions)
      end
  end.
Definition row_key (row : RelationalRow) (positions : list nat) : option RelationalKey :=
  mapM (λ position, row !! position) positions.

(** ** Predicates *)

Section Predicates.
Context `{C : Chrono}.

Fixpoint validate_predicate (s : RelationalTableSchema) (p : RelationalPredicate) : result () RelationalError :=
  match p with
  | NumericCompare lhs _ rhs =>
      let? lhs := compile_expression lhs s in
      let? rhs := compile_expression rhs s in
      validate_numeric_comparison (result_type lhs) (result_type rhs)
  | NumericIsNull expression _ => let? _ := compile_expression expression s in Ok ()
  | And lhs rhs | Or lhs rhs => let? _ := validate_predicate s lhs in validate_predicate s rhs
  | Not predicate => validate_predicate s predicate
  | Compare column _ v =>
      match column_position s column ≫= (λ position, columns s !! position) with
      | None => Err (Schema (Formatted "predicate references unknown column {column}" [column]))
      | Some found =>
          if negb (is_rnull v) && negb (same_value_domain (column_type found) (scalar_type v))
          then Err (Schema (Formatted "predicate on column {column} has an incompatible value type" [column]))
          else Ok ()
      end
  | IsNull column _ =>
      match column_position s column with
      | None => Err (Schema (Formatted "predicate references unknown column {column}" [column]))
      | Some _ => Ok ()
      end
  end.

(** A comparison read off an ordering. *)
Definition comparison_holds (op : RelationalComparisonOp) (c : comparison) : bool :=
  match op, c with
  | OpEq, Eq | OpLt, Lt | OpGt, Gt => true
  | OpNotEq, (Lt | Gt) | OpLte, (Lt | Eq) | OpGte, (Gt | Eq) => true
  | _, _ => false
  end.
Definition truth_and (a b : option bool) : option bool :=
  match a, b with
  | Some false, _ | _, Some false => Some false
  | Some true, Some true => Some true
  | _, _ => None
  end.
Definition truth_or (a b : option bool) : option bool :=
  match a, b with
  | Some true, _ | _, Some true => Some true
  | Some false, Some false => Some false
  | _, _ => None
  end.
Definition is_vnull (v : Value) : bool := match v with VNull => true | _ => false end.
Definition is_roverflow (v : RelationalValue) : bool := match v with ROverflow _ => true | _ => false end.

(** [?] after a step that may also panic. *)
Definition try_bind {A B} (m : option (result A RelationalError)) (k : A → option (result B RelationalError))
    : option (result B RelationalError) :=
  match m with
  | None => None
  | Some (Err e) => Some (Err e)
  | Some (Ok a) => k a
  end.

Fixpoint predicate_truth (s : RelationalTableSchema) (row : RelationalRow) (p : RelationalPredicate)
    : option (result (option bool) RelationalError) :=
  match p with
  | NumericCompare lhs op rhs =>
      try_bind (evaluate_row s row lhs) (λ lhs,
      try_bind (evaluate_row s row rhs) (λ rhs,
      if is_vnull lhs || is_vnull rhs then Some (Ok None)
      else Some (let? ordering := map_err execution (compare_numeric lhs rhs) in Ok (Some (comparison_holds op ordering)))))
  | NumericIsNull expression negated =>
      try_bind (evaluate_row s row expression) (λ v, Some (Ok (Some (xorb (is_vnull v) negated))))
  | And lhs rhs =>
      try_bind (predicate_truth s row lhs) (λ lhs,
      try_bind (predicate_truth s row rhs) (λ rhs, Some (Ok (truth_and lhs rhs))))
  | Or lhs rhs =>
      try_bind (predicate_truth s row lhs) (λ lhs,
      try_bind (predicate_truth s row rhs) (λ rhs, Some (Ok (truth_or lhs rhs))))
  | Not predicate => try_bind (predicate_truth s row predicate) (λ truth, Some (Ok (negb <$> truth)))
  | Compare column op v =>
      position ← column_position s column;
      current ← row !! position;
      if is_roverflow current || is_roverflow v
      then Some (Err (Admission "DELETE predicate on column {column} requires overflow hydration"))
      else if is_rnull current || is_rnull v then Some (Ok None)
      else Some (Ok (Some (comparison_holds op (value_cmp current v))))
  | IsNull column negated =>
      position ← column_position s column;
      current ← row !! position;
      Some (Ok (Some (xorb (is_rnull current) negated)))
  end.
End Predicates.

(** ** Candidates *)

Section Candidates.
Context `{TR : TimestampRange}.

Definition mutation_primary_key (s : RelationalTableSchema) (p : RelationalPredicate) : option (option RelationalKey) :=
  if bool_decide (primary_key s = [])
     || existsb (λ column, match equality p column with None => true | Some _ => false end) (primary_key s)
  then Some None
  else Some <$> mapM (equality p) (primary_key s).

(** [take(0)] takes nothing; [take(usize::MAX)] takes everything that fits in
    memory. *)
Definition mutation_candidate_rows (rs : RelationalRowPages) (s : RelationalTableSchema) (p : RelationalPredicate)
    (primary_key_lookup : bool) : option (result (list RowEntry) RelationalError) :=
  key ← (if primary_key_lookup then mutation_primary_key s p else Some None);
  let scan := match key with Some _ => false | None => true end in
  point ← (match key with Some key => rows_get_key_value key rs | None => Some None end);
  match (if primary_key_lookup && scan then mutation_primary_key_range s p else Ok None) with
  | Err e => Some (Err e)
  | Ok range =>
      rows ← rows_range range rs;
      Some (Ok (option_list point ++ if scan then rows else []))
  end.
End Candidates.

(** ** What a true predicate says of its columns *)

(** The comparisons a predicate is a conjunction of, among other things. *)
Fixpoint conjuncts (p : RelationalPredicate) : list (bytes * RelationalComparisonOp * RelationalValue) :=
  match p with
  | And lhs rhs => conjuncts lhs ++ conjuncts rhs
  | Compare column op v => [(column, op, v)]
  | _ => []
  end.

Lemma equality_conjunct p c v : equality p c = Some v → (c, OpEq, v) ∈ conjuncts p ∧ is_rnull v = false.
Proof.
  induction p as [| |l IHl r IHr| | |name op w|]; cbn [equality conjuncts]; try done.
  - destruct (equality l c) as [u|].
    + intros [= <-]. destruct (IHl eq_refl). split; [|done]. apply elem_of_app. by left.
    + intros E. destruct (IHr E). split; [|done]. apply elem_of_app. by right.
  - destruct op; try done. case_bool_decide as Hn; [|done]. subst. destruct (is_rnull w) eqn:En; [done|]. intros [= <-].
    split; [apply list_elem_of_here|done].
Qed.
Lemma visit_conjuncts {S} (visit : RelationalComparisonOp → RelationalValue → S → S) (P : S → Prop) p c :
  (∀ op v st, (c, op, v) ∈ conjuncts p → is_rnull v = false → P st → P (visit op v st)) →
  ∀ st, P st → P (visit_comparisons visit p c st).
Proof.
  induction p as [| |l IHl r IHr| | |name op w|]; intros H st Hst; cbn [visit_comparisons conjuncts] in *; try done.
  - apply IHr; [intros; apply H; try done; apply elem_of_app; by right|]. apply IHl; [|done].
    intros; apply H; try done; apply elem_of_app; by left.
  - case_bool_decide as Hn; [|done]. destruct (is_rnull w) eqn:En; [done|]. subst. apply H; [apply list_elem_of_here|done|done].
Qed.

Section Truth.
Context `{C : Chrono} `{TR : TimestampRange} (s : RelationalTableSchema).
Implicit Types (row : RelationalRow) (p : RelationalPredicate) (k : RelationalKey) (v w : RelationalValue).

Definition row_holds p row : bool :=
  match predicate_truth s row p with Some (Ok (Some true)) => true | _ => false end.
Lemma row_holds_true p row : row_holds p row = true ↔ predicate_truth s row p = Some (Ok (Some true)).
Proof. unfold row_holds. destruct (predicate_truth s row p) as [[[[]|]|]|]; naive_solver. Qed.

(** A column's value in a row. *)
Definition column_value row (c : bytes) : option RelationalValue := position ← column_position s c; row !! position.

Lemma holds_conjunct p row c op v : row_holds p row = true → (c, op, v) ∈ conjuncts p →
  ∃ w, column_value row c = Some w ∧ is_rnull w = false ∧ is_roverflow w = false ∧ is_roverflow v = false ∧
    comparison_holds op (value_cmp w v) = true.
Proof.
  rewrite row_holds_true. induction p as [| |l IHl r IHr| | |name op' u|]; cbn [predicate_truth conjuncts];
    try (by intros _ ?%elem_of_nil).
  - destruct (predicate_truth s row l) as [[tl|]|]; [|done..]. cbn [try_bind]. destruct (predicate_truth s row r) as [[tr|]|]; [|done..].
    cbn [try_bind]. intros [= Ht] [Hc|Hc]%elem_of_app; destruct tl as [[]|], tr as [[]|]; try discriminate Ht; auto.
  - intros Ht [= <- <- <-]%list_elem_of_singleton. unfold column_value. destruct (column_position s c) as [i|]; [|done].
    cbn [mbind option_bind] in *. destruct (row !! i) as [w|]; [|done]. cbn [mbind option_bind] in Ht. exists w.
    destruct (is_roverflow w), (is_roverflow v), (is_rnull w), (is_rnull v); try discriminate Ht. injection Ht as ->. done.
Qed.

(** The types of a checked comparison. *)
Lemma validate_conjunct p c op v : validate_predicate s p = Ok () → (c, op, v) ∈ conjuncts p → is_rnull v = false →
  ∃ i column, column_position s c = Some i ∧ columns s !! i = Some column ∧ same_value_domain (column_type column) (scalar_type v) = true.
Proof.
  induction p as [| |l IHl r IHr| | |name op' u|]; cbn [validate_predicate conjuncts]; try (by intros _ ?%elem_of_nil).
  - intros ([] & Hl & Hr)%result_bind_ok [Hc|Hc]%elem_of_app; auto.
  - intros Hv [= <- <- <-]%list_elem_of_singleton Hn. destruct (column_position s c) as [i|]; [|done]. cbn [mbind option_bind] in Hv.
    destruct (columns s !! i) as [column|] eqn:Ec; [|done]. exists i, column. rewrite Hn in Hv. cbn [negb andb] in Hv.
    destruct (same_value_domain _ _); [done|done].
Qed.
Lemma accepted_kind column v w : type_accepts column w = true → same_value_domain column (scalar_type v) = true →
  is_rnull w = false → is_roverflow w = false → is_roverflow v = false → kind_rank w = kind_rank v.
Proof.
  intros Hw Hv Hn Ho Hov. destruct column, w; try discriminate Hn; try discriminate Ho; cbn [type_accepts scalar_type] in Hw;
    try (apply bool_decide_eq_true in Hw; discriminate Hw); destruct v; try discriminate Hov; try done; cbn [same_value_domain scalar_type] in Hv;
    apply bool_decide_eq_true in Hv; discriminate Hv.
Qed.

(** ** Keys that satisfy the predicate lie in its range *)

(** The stored key of a row: its primary-key columns, up to the equality of
    values. *)
Definition keyed row (cs : list bytes) k : Prop :=
  Forall2 (λ c x, ∃ w, column_value row c = Some w ∧ value_cmp x w = Eq) cs k.
Lemma keyed_row_key row cs positions key k : column_positions s cs = Ok positions → row_key row positions = Some key →
  key_eqb k key = true → keyed row cs k.
Proof.
  revert positions key k. unfold keyed. induction cs as [|c cs IH]; intros positions key k; cbn [column_positions].
  { intros [= <-] [= <-]. destruct k; [constructor|done]. }
  destruct (column_position s c) as [i|] eqn:Ei; [|done]. intros (ps & Eps & [= <-])%result_bind_ok.
  unfold row_key. cbn [mapM mbind option_bind]. destruct (row !! i) as [w|] eqn:Ew; [|done]. cbn [mbind option_bind].
  destruct (mapM _ ps) as [key'|] eqn:Ek; [|done]. intros [= <-]. destruct k as [|x k]; [done|]. intros [Hx Hk]%andb_true_iff.
  constructor; [|by eapply IH]. exists w. unfold column_value. rewrite Ei. split; [done|]. unfold value_eqb in Hx. by destruct (value_cmp x w).
Qed.

Lemma value_cmp_kind x w : value_cmp x w = Eq → kind_rank x = kind_rank w.
Proof. unfold value_cmp. destruct (Z.compare_spec (kind_rank x) (kind_rank w)); [done|done|done]. Qed.

Context (p : RelationalPredicate) (row : RelationalRow) (Hrow : validate_row s row = Ok ()).
Context (Hvalid : validate_predicate s p = Ok ()) (Hlit : ∀ c op v, (c, op, v) ∈ conjuncts p → bound_wf v).
Context (Hholds : row_holds p row = true).

(** The value of a key column satisfies a comparison and has its kind. *)
Lemma key_conjunct c op v x w : (c, op, v) ∈ conjuncts p → is_rnull v = false → column_value row c = Some w → value_cmp x w = Eq →
  kind_rank x = kind_rank v ∧ comparison_holds op (value_cmp x v) = true.
Proof using Hrow Hvalid Hholds.
  intros Hc Hn Hw Hx. destruct (holds_conjunct p row c op v Hholds Hc) as (w' & Ew & Hwn & Hwo & Hvo & Hop).
  rewrite Hw in Ew. injection Ew as <-. rewrite (ord_eq_l value_cmp x w v Hx). split; [|done]. rewrite (value_cmp_kind x w Hx).
  destruct (validate_conjunct p c op v Hvalid Hc Hn) as (i & column & Ei & Ec & Hdom).
  unfold column_value in Hw. rewrite Ei in Hw. destruct (validate_row_ok s row Hrow) as [_ Hcol].
  destruct (validate_value_accepts column w (Hcol i column w Ec Hw)) as [[-> _]|[_ Ht]]; [done|]. by eapply accepted_kind.
Qed.

Lemma prefix_holds cs k : keyed row cs k →
  let prefix := equality_prefix cs p in
  key_eqb (take (length prefix) k) prefix = true ∧ same_kinds k prefix ∧ Forall bound_wf prefix ∧
  (length prefix ≤ length cs)%nat.
Proof using Hrow Hvalid Hholds Hlit.
  cbv zeta. unfold keyed, same_kinds. induction 1 as [|c x cs k (w & Hw & Hx) _ IH]; cbn [equality_prefix]; [by repeat constructor|].
  destruct (equality p c) as [v|] eqn:Ee; [|cbn [length take]; split_and!; [done|constructor|constructor|lia]].
  destruct (equality_conjunct p c v Ee) as [Hc Hn]. destruct (key_conjunct c OpEq v x w Hc Hn Hw Hx) as [Hk Heq].
  destruct IH as (IH1 & IH2 & IH3 & IH4). cbn [length take key_eqb]. split_and!; [|by constructor|constructor; [by eapply Hlit|done]|lia].
  rewrite IH1, andb_true_r. unfold value_eqb. by destruct (value_cmp x v).
Qed.

(** The bounds collected on a column hold for its value. *)
Definition bounds_hold (x : RelationalValue) (b : Bounds) : Prop :=
  lower_holds b.1 (Some x) = true ∧ upper_holds b.2 (Some x) = true ∧
  (∀ v inclusive, b.1 = Some (v, inclusive) ∨ b.2 = Some (v, inclusive) → bound_wf v ∧ kind_rank x = kind_rank v).
Lemma tighten_holds op v x b : bound_wf v → kind_rank x = kind_rank v → comparison_holds op (value_cmp x v) = true →
  bounds_hold x b → bounds_hold x (tighten op v b).
Proof.
  intros Hv Hk Hop Hb. pose proof Hb as (H1 & H2 & H3). destruct op; try exact Hb; unfold tighten; case_match; try exact Hb;
    (split_and!; cbn [fst snd lower_holds upper_holds]; [try done|try done|]);
    first [by destruct (value_cmp x v) | intros v' i [E|E]; first [by injection E as <- <- | by eapply H3; eauto]].
Qed.
Lemma bounds_column c x w : column_value row c = Some w → value_cmp x w = Eq →
  bounds_hold x (visit_comparisons tighten p c (None, None)).
Proof using Hrow Hvalid Hholds Hlit.
  intros Hw Hx. apply (visit_conjuncts tighten (bounds_hold x)).
  - intros op v st Hc Hn Hst. destruct (key_conjunct c op v x w Hc Hn Hw Hx) as [Hk Hop]. apply tighten_holds; try done. by eapply Hlit.
  - split_and!; [done|done|]. by intros v i [?|?].
Qed.

Lemma key_range_holds cs k r : key_wf k → keyed row cs k → key_range cs p = Ok (Some r) → krange_contains r k = true.
Proof using Hrow Hvalid Hholds Hlit.
  intros Hk Hkey. destruct (prefix_holds cs k Hkey) as (Hp & Hkinds & Hwf & Hlen). unfold key_range.
  set (prefix := equality_prefix cs p) in *. destruct ((length prefix =? length cs)%nat && _) eqn:Efull.
  { intros [= <-]. apply andb_true_iff in Efull as [E%Nat.eqb_eq _]. pose proof (Forall2_length _ _ _ Hkey) as Hl.
    rewrite take_ge in Hp by lia. apply key_eqb_cmp in Hp. unfold krange_contains, key_leb. cbn [krange_lower krange_upper above_lower below_upper].
    unfold key_leb. rewrite (ord_opp key_cmp k prefix), Hp. done. }
  set (bounds := match cs !! length prefix with Some column => _ | None => _ end).
  assert (bound_fits prefix k bounds.1 ∧ bound_fits prefix k bounds.2 ∧ prefix_bounds_match prefix bounds.1 bounds.2 k = true) as (F1 & F2 & Hm).
  { unfold prefix_bounds_match. rewrite Hp. cbn [andb]. unfold bounds. destruct (cs !! length prefix) as [c|] eqn:Ec; [|by split_and!].
    destruct (Forall2_lookup_l _ _ _ _ _ Hkey Ec) as (x & Ex & w & Hw & Hx).
    replace (k !! length prefix) with (Some x) by (symmetry; exact Ex).
    destruct (bounds_column c x w Hw Hx) as (B1 & B2 & B3). split_and!; [| |by rewrite B1, B2];
      intros v i E; destruct (B3 v i ltac:(eauto)) as [Hv Hkind]; split; [done|by exists x|done|by exists x]. }
  intros H. assert (∃ r', prefix_interval prefix bounds.1 bounds.2 = Ok r' ∧ r' = r) as (r' & Er & ->).
  { destruct (length prefix), bounds as [[?|] [?|]]; try done; apply result_bind_ok in H as (r' & Er & [= <-]); by exists r'. }
  by rewrite (interval_exact prefix k Hwf Hk Hkinds bounds.1 bounds.2 r).
Qed.
End Truth.

(** ** Candidates *)

Lemma filter_implied {A} (f g : A → bool) l : (∀ x, x ∈ l → f x = true → g x = true) → List.filter f (List.filter g l) = List.filter f l.
Proof.
  induction l as [|x l IH]; intros H; [done|]. cbn. specialize (IH ltac:(intros y Hy; apply H; by apply list_elem_of_further)).
  pose proof (H x ltac:(apply list_elem_of_here)) as Hx. destruct (g x) eqn:Eg; cbn; [by rewrite IH|].
  destruct (f x); [by discriminate Hx|done].
Qed.

Definition same_key (key : RelationalKey) (e : RowEntry) : bool := match key_cmp key e.1 with Eq => true | _ => false end.
Lemma point_filter key (l : RowPage) : key_sorted key_cmp l →
  option_list (get_key_value key_cmp key l) = List.filter (same_key key) l.
Proof.
  induction l as [|[k r] l IH]; intros Hs; [done|]. apply key_sorted_cons in Hs as [Hs Hlt]. cbn. unfold same_key. cbn [fst].
  destruct (key_cmp key k) eqn:E; [| |by apply IH]; symmetry.
  - cbn. f_equal. apply filter_nothing. intros e He. specialize (Hlt e He). cbn [fst] in Hlt. by rewrite (ord_eq_l key_cmp key k e.1 E), Hlt.
  - apply filter_nothing. intros e He. by rewrite (ord_lt_trans key_cmp key k e.1 E (Hlt e He)).
Qed.

Lemma equality_prefix_conjunct cs p v : v ∈ equality_prefix cs p → ∃ c, (c, OpEq, v) ∈ conjuncts p ∧ is_rnull v = false.
Proof.
  induction cs as [|c cs IH]; cbn [equality_prefix]; [by intros ?%elem_of_nil|]. destruct (equality p c) as [u|] eqn:E; [|by intros ?%elem_of_nil].
  intros [-> | Hv]%elem_of_cons; [|auto]. exists c. by apply equality_conjunct in E.
Qed.
Lemma mapM_equality cs p key : mapM (equality p) cs = Some key → equality_prefix cs p = key ∧ length key = length cs.
Proof.
  revert key; induction cs as [|c cs IH]; intros key; cbn [mapM equality_prefix]; [by intros [= <-]|].
  destruct (equality p c) as [v|]; [|done]. cbn [mbind option_bind]. destruct (mapM (equality p) cs) as [key'|]; [|done].
  intros [= <-]. destruct (IH key' eq_refl) as [-> Hl]. cbn [length]. by rewrite Hl.
Qed.
Lemma mapM_equality_some cs p :
  existsb (λ column, match equality p column with None => true | Some _ => false end) cs = false → ∃ key, mapM (equality p) cs = Some key.
Proof.
  induction cs as [|c cs IH]; [by eexists|]. cbn [existsb mapM]. destruct (equality p c) as [v|]; [|done]. intros (key & E)%IH.
  cbn [mbind option_bind]. rewrite E. by eexists.
Qed.

Section Exact.
Context `{C : Chrono} `{TR : TimestampRange} `{L : RowLayout} (s : RelationalTableSchema).

(** The literals no key range is built from: vectors and overflow references. *)
Definition unrangeable (v : RelationalValue) : bool := match v with RVector _ | ROverflow _ => true | _ => false end.
Lemma unsupported_unrangeable v : is_rnull v = false → supported v = false → unrangeable v = true.
Proof. by destruct v. Qed.
Lemma key_range_err cs p e : key_range cs p = Err e →
  e = unsupported_value ∧ ∃ c op v, (c, op, v) ∈ conjuncts p ∧ unrangeable v = true.
Proof.
  unfold key_range. case_match; [done|]. set (prefix := equality_prefix cs p).
  set (bounds := match cs !! length prefix with Some column => _ | None => _ end).
  assert (∀ v i, bounds.1 = Some (v, i) ∨ bounds.2 = Some (v, i) → ∃ c op, (c, op, v) ∈ conjuncts p ∧ is_rnull v = false) as Hb.
  { unfold bounds. destruct (cs !! length prefix) as [c|]; [|by intros v i [?|?]].
    apply (visit_conjuncts tighten (λ b : Bounds, ∀ v i, b.1 = Some (v, i) ∨ b.2 = Some (v, i) → ∃ c op, (c, op, v) ∈ conjuncts p ∧ is_rnull v = false)).
    - intros op v st Hc Hn Hst v' i. destruct op; try apply Hst; unfold tighten; case_match; try apply Hst; cbn [fst snd];
        intros [E|E]; first [injection E as <- <-; eauto | eapply Hst; eauto].
    - by intros v i [?|?]. }
  intros Herr. assert (prefix_interval prefix bounds.1 bounds.2 = Err e) as Er.
  { destruct (length prefix), bounds as [[?|] [?|]]; try done; revert Herr; cbn [fst snd]; destruct (prefix_interval _ _ _); first [done | by intros [= ->]]. }
  apply interval_err in Er as [-> (v & Hv & Hs)]. split; [done|]. destruct Hv as [Hv|[Hv|Hv]].
  - apply equality_prefix_conjunct in Hv as (c & Hc & Hn). exists c, OpEq, v. eauto using unsupported_unrangeable.
  - destruct bounds.1 as [[v' i]|] eqn:E; [|done]. injection Hv as ->. destruct (Hb v' i) as (c & op & Hc & Hn); [eauto|]. exists c, op, v'. eauto using unsupported_unrangeable.
  - destruct bounds.2 as [[v' i]|] eqn:E; [|done]. injection Hv as ->. destruct (Hb v' i) as (c & op & Hc & Hn); [eauto|]. exists c, op, v'. eauto using unsupported_unrangeable.
Qed.

(** A stored row: valid, under the values of its primary-key columns. *)
Record entry_ok (e : RowEntry) : Prop := {
  eo_row : validate_row s e.2 = Ok ();
  eo_key : key_wf e.1;
  eo_keyed : ∃ positions key, column_positions s (primary_key s) = Ok positions ∧ row_key e.2 positions = Some key ∧
    (primary_key s ≠ [] → key_eqb e.1 key = true);
}.

(** The row of a complete key. *)
Lemma point_ok rs p key : rows_wf rs → Forall entry_ok (rows_contents rs) → validate_predicate s p = Ok () →
  (∀ c op v, (c, op, v) ∈ conjuncts p → bound_wf v) → primary_key s ≠ [] → mapM (equality p) (primary_key s) = Some key →
  List.filter (λ e, row_holds s p e.2) (List.filter (same_key key) (rows_contents rs)) = List.filter (λ e, row_holds s p e.2) (rows_contents rs).
Proof.
  intros _ HF Hv Hl Hne Hkey. apply filter_implied. intros e He Hh. rewrite Forall_forall in HF.
  destruct (HF e He) as [Hrow Hwf (positions & k & Ep & Ek & Eq)]. pose proof (keyed_row_key s e.2 _ _ _ _ Ep Ek (Eq Hne)) as Hkeyed.
  destruct (mapM_equality _ _ _ Hkey) as [E Hlen]. destruct (prefix_holds s p e.2 Hrow Hv Hl Hh _ _ Hkeyed) as (Hp & _).
  rewrite E in Hp. rewrite take_ge in Hp by (apply Forall2_length in Hkeyed; lia). apply key_eqb_cmp in Hp.
  unfold same_key. by rewrite (ord_opp key_cmp e.1 key), Hp.
Qed.
(** The rows of the range of a predicate. *)
Lemma range_ok rs p range : Forall entry_ok (rows_contents rs) → validate_predicate s p = Ok () →
  (∀ c op v, (c, op, v) ∈ conjuncts p → bound_wf v) → mutation_primary_key_range s p = Ok range →
  let kept := List.filter (in_range (default (mk_key_range Unbounded Unbounded) range)) (rows_contents rs) in
  List.filter (λ e, row_holds s p e.2) kept = List.filter (λ e, row_holds s p e.2) (rows_contents rs).
Proof.
  intros HF Hv Hl Hr. cbv zeta. apply filter_implied. intros e He Hh. destruct range as [r|]; [|done]. rewrite Forall_forall in HF.
  destruct (HF e He) as [Hrow Hwf (positions & k & Ep & Ek & Eq)]. cbn [default from_option id]. unfold in_range.
  assert (primary_key s ≠ []) as Hne by (intros E; unfold mutation_primary_key_range in Hr; by rewrite E in Hr).
  eapply (key_range_holds s p e.2); try done. by eapply keyed_row_key; eauto.
Qed.

Lemma candidates_exact rs p lookup : rows_wf rs → Forall entry_ok (rows_contents rs) →
  validate_predicate s p = Ok () → (∀ c op v, (c, op, v) ∈ conjuncts p → bound_wf v) →
  match mutation_candidate_rows rs s p lookup with
  | None => False
  | Some (Err e) => e = unsupported_value ∧ ∃ c op v, (c, op, v) ∈ conjuncts p ∧ unrangeable v = true
  | Some (Ok candidates) =>
      List.filter (λ e, row_holds s p e.2) candidates = List.filter (λ e, row_holds s p e.2) (rows_contents rs) ∧
      (∀ e, e ∈ candidates → e ∈ rows_contents rs) ∧
      (lookup = true → mutation_primary_key s p ≠ Some None → (length candidates ≤ 1)%nat)
  end.
Proof.
  intros Hw HF Hv Hl. unfold mutation_candidate_rows.
  assert (∀ range, (lookup = true → mutation_primary_key s p = Some None) →
    (range = Ok None ∨ range = mutation_primary_key_range s p) →
    match match range with
          | Err e => Some (Err e)
          | Ok range => rows ← rows_range range rs; Some (Ok (option_list None ++ rows))
          end with
    | None => False
    | Some (Err e) => e = unsupported_value ∧ ∃ c op v, (c, op, v) ∈ conjuncts p ∧ unrangeable v = true
    | Some (Ok candidates) =>
        List.filter (λ e, row_holds s p e.2) candidates = List.filter (λ e, row_holds s p e.2) (rows_contents rs) ∧
        (∀ e, e ∈ candidates → e ∈ rows_contents rs) ∧
        (lookup = true → mutation_primary_key s p ≠ Some None → (length candidates ≤ 1)%nat)
    end) as Hscan.
  { intros range Hk Hr. destruct range as [range|e].
    2: { destruct Hr as [Hr|Hr]; [done|]. by eapply key_range_err. }
    rewrite rows_range_ok by done. cbn [mbind option_bind option_list app]. split_and!.
    - destruct Hr as [[= ->]|Hr]; [by apply filter_implied|]. by apply range_ok.
    - intros e [He _]%list_elem_of_In%List.filter_In. by apply list_elem_of_In.
    - intros Hlk Hn. by destruct (Hn (Hk Hlk)). }
  destruct lookup; cbn [andb].
  2: { cbn [mbind option_bind]. apply (Hscan (Ok None)); [done|by left]. }
  unfold mutation_primary_key in *. destruct (bool_decide (primary_key s = []) || _) eqn:Epk.
  { cbn [mbind option_bind]. apply (Hscan (mutation_primary_key_range s p)); [done|by right]. }
  apply orb_false_iff in Epk as [Hne%bool_decide_eq_false Hall]. destruct (mapM_equality_some _ _ Hall) as [key Hkey]. rewrite Hkey.
  cbn [fmap option_fmap option_map mbind option_bind]. destruct (rows_get_ok key rs Hw) as [_ ->]. cbn [mbind option_bind].
  rewrite rows_range_ok by done. cbn [mbind option_bind]. rewrite app_nil_r.
  assert (key_sorted key_cmp (rows_contents rs)) as Hs by apply Hw. split_and!.
  - rewrite point_filter by done. by apply point_ok.
  - intros e He. rewrite point_filter in He by done. apply list_elem_of_In, List.filter_In in He as [He _]. by apply list_elem_of_In.
  - intros _ _. destruct (get_key_value _ _ _); cbn; lia.
Qed.

(** C19: A mutation that visits only the candidate rows changes exactly the rows a
    full scan would.  For valid rows stored under their primary keys and a
    checked predicate, the search for candidates does not panic; the candidates
    are rows of the table; and among them the predicate is true of exactly the
    rows of the table of which it is true, in the same order, whether they come
    from a point lookup of a complete key, from the key range implied by
    equalities and bounds in the predicate, or from the whole table.  With a
    complete key at most one row is visited.  It is refused only when the
    predicate compares with an overflow reference or a vector. *)
Theorem mutation_candidates_exact rs p lookup : rows_wf rs → Forall entry_ok (rows_contents rs) →
  validate_predicate s p = Ok () → (∀ c op v, (c, op, v) ∈ conjuncts p → bound_wf v) →
  match mutation_candidate_rows rs s p lookup with
  | None => False
  | Some (Err e) => e = unsupported_value ∧ ∃ c op v, (c, op, v) ∈ conjuncts p ∧ unrangeable v = true
  | Some (Ok candidates) =>
      List.filter (λ e, row_holds s p e.2) candidates = List.filter (λ e, row_holds s p e.2) (rows_contents rs) ∧
      (∀ e, e ∈ candidates → e ∈ rows_contents rs) ∧
      (lookup = true → mutation_primary_key s p ≠ Some None → (length candidates ≤ 1)%nat)
  end.
Proof. intros Hw HF Hv Hl. by apply candidates_exact. Qed.
End Exact.

(** The rows of a tenant with a number above 1, in a table of two tenants. *)
Module MutationDemo.
Import Calendar.
#[local] Instance demo_range : TimestampRange := {| min_micros := - 10 ^ 15; max_micros := 10 ^ 15 |}.
#[local] Instance demo_layout : RowLayout := {| size_of_key := 24; size_of_row := 40; size_of_values := 16; size_of_overflow_ref := 64 |}.
#[local] Instance demo_laws : RowLayoutLaws demo_layout.
Proof. constructor; by vm_compute. Qed.
Definition demo_schema : RelationalTableSchema :=
  mk_schema (lit "t")
    [mk_column (lit "note") TText true None; mk_column (lit "tenant") TText false None; mk_column (lit "id") TBigInt false None]
    [lit "tenant"; lit "id"] [] [] [] None.
Definition entry (tenant : string) (n : Z) : RowEntry := ([RText (lit tenant); RBigInt n], [RNull; RText (lit tenant); RBigInt n]).
Definition demo_rows : list RowEntry := [entry "a" 1; entry "a" 2; entry "b" 1; entry "b" 2; entry "b" 3].
Definition demo_table : RelationalRowPages := default rows_default (from_map demo_rows).
Definition demo_predicate : RelationalPredicate :=
  And (Compare (lit "id") OpGt (RBigInt 1)) (And (IsNull (lit "note") false) (Compare (lit "tenant") OpEq (RText (lit "b")))).

Lemma demo_table_ok : rows_wf demo_table ∧ rows_contents demo_table = demo_rows.
Proof.
  destruct (from_map_rows demo_rows) as (rs & E & Hc & Hw); [|by vm_compute|unfold demo_table; by rewrite E].
  unfold key_sorted, demo_rows. by repeat constructor.
Qed.
Lemma demo_entries_ok : Forall (entry_ok demo_schema) (rows_contents demo_table).
Proof.
  rewrite (proj2 demo_table_ok). unfold demo_rows. repeat (apply Forall_cons; split); [..|by apply Forall_nil];
    (constructor; [reflexivity|repeat constructor; by vm_compute|]); do 2 eexists; (split; [reflexivity|]); (split; [reflexivity|]); reflexivity.
Qed.

Lemma mutation_candidates_exact_witness :
  match mutation_candidate_rows demo_table demo_schema demo_predicate true with
  | Some (Ok candidates) =>
      candidates = [entry "b" 2; entry "b" 3] ∧
      List.filter (λ e, row_holds demo_schema demo_predicate e.2) candidates =
        List.filter (λ e, row_holds demo_schema demo_predicate e.2) (rows_contents demo_table)
  | _ => False
  end.
Proof.
  pose proof (mutation_candidates_exact demo_schema demo_table demo_predicate true (proj1 demo_table_ok) demo_entries_ok eq_refl) as H.
  assert (mutation_candidate_rows demo_table demo_schema demo_predicate true = Some (Ok [entry "b" 2; entry "b" 3])) as E by reflexivity.
  rewrite E in H |- *. split; [done|]. apply H. intros c op v Hc.
  assert (Forall (λ x, bound_wf x.2) (conjuncts demo_predicate)) as HF; [|exact (proj1 (Forall_forall _ _) HF _ Hc)].
  apply Forall_cons. split; [|by apply Forall_singleton]. cbn. unfold is_i64. lia.
Defined.
End MutationDemo.
