(* ===== verification/IndexMaintenance.v ===== *)
(** The maintenance of secondary indexes in crates/storage/src/relational.rs:
    building all indexes of a table from its rows ([rebuild_indexes]) and
    bringing them up to date for the keys a transaction changed
    ([refresh_indexes_for_keys]).

    A state is its schemas and table segments; of a segment, the rows and the
    indexes.  The functions change their state in place and may fail half way, so
    they return the state with the result.  They are modelled for
    [allocations = None]; [None] is a panic. *)
From S2P Require Import Prelude Text Ordering Decimal RelationalValue OrderedKey BTreeMap Pages IndexRange RelationalIndex.
From S2P Require Import RelationalIndexSpec Values Numeric RelationalSchema PrimaryKeyRange ResidentRows ResidentRowsSpec MutationRows.

Record RelationalTableSegment := mk_segment {
  seg_rows : RelationalRowPages;
  seg_indexes : gmap bytes RelationalIndexPages;
}.
Record RelationalState := mk_state {
  st_schemas : gmap bytes RelationalTableSchema;
  st_segments : gmap bytes RelationalTableSegment;
}.

Definition unknown_table (table : bytes) : RelationalError := Schema (Formatted "unknown table {table}" [table]).
Definition duplicate_key (name table : bytes) : RelationalError :=
  Constraint (Formatted "unique index {} on table {table} has a duplicate key" [name; table]).
Definition missing_index (table name : bytes) : RelationalError :=
  Corruption (Formatted "table {table} is missing materialized index {}" [table; name]).

(** A key with a NULL is not entered in a unique index. *)
Definition key_has_null (key : RelationalKey) : bool := existsb is_rnull key.
Definition skipped (role : RelationalIndexRole) (key : RelationalKey) : bool := is_unique role && key_has_null key.

Definition set_indexes (table : bytes) (segment : RelationalTableSegment) (ixs : gmap bytes RelationalIndexPages)
    (st : RelationalState) : RelationalState :=
  mk_state (st_schemas st) (<[table := mk_segment (seg_rows segment) ixs]> (st_segments st)).

(** ** From scratch *)

(** The rows entered in an empty index, one by one. *)
Fixpoint rebuild_postings (def : RelationalIndexDefinition) (table : bytes) (positions : list nat) (rows : list RowEntry)
    (postings : RelationalIndexPages) : option (result RelationalIndexPages RelationalError) :=
  match rows with
  | [] => Some (Ok postings)
  | (primary_key, row) :: rows =>
      key ← row_key row positions;
      if skipped (def_role def) key then rebuild_postings def table positions rows postings
      else if is_unique (def_role def)
              && match index_get key postings with Some keys => negb (set_is_empty keys) | None => false end
      then Some (Err (duplicate_key (def_name def) table))
      else
        '(_, postings) ← insert_posting_ordinary key primary_key postings;
        rebuild_postings def table positions rows postings
  end.
Fixpoint rebuild_loop (s : RelationalTableSchema) (table : bytes) (rows : list RowEntry)
    (defs : list RelationalIndexDefinition) (ixs : gmap bytes RelationalIndexPages)
    : option (gmap bytes RelationalIndexPages * result () RelationalError) :=
  match defs with
  | [] => Some (ixs, Ok ())
  | def :: defs =>
      if bool_decide (def_role def = Primary) then rebuild_loop s table rows defs ixs
      else
        match column_positions s (def_columns def) with
        | Err e => Some (ixs, Err e)
        | Ok positions =>
            r ← rebuild_postings def table positions rows [];
            match r with
            | Err e => Some (ixs, Err e)
            | Ok postings => rebuild_loop s table rows defs (<[def_name def := postings]> ixs)
            end
        end
  end.
Definition rebuild_indexes (st : RelationalState) (table : bytes) : option (RelationalState * result () RelationalError) :=
  match st_schemas st !! table, st_segments st !! table with
  | Some schema, Some segment =>
      '(ixs, r) ← rebuild_loop schema table (rows_iter (seg_rows segment)) (required_index_definitions schema) ∅;
      Some (set_indexes table segment ixs st, r)
  | _, _ => Some (st, Err (unknown_table table))
  end.

(** ** For changed keys *)

(** The postings of the previous rows removed. *)
Fixpoint refresh_remove (positions : list nat) (previous : option RelationalRowPages) (keys : list RelationalKey)
    (postings : RelationalIndexPages) : option RelationalIndexPages :=
  match keys with
  | [] => Some postings
  | primary_key :: keys =>
      previous_row ← (match previous with Some rows => rows_get primary_key rows | None => Some None end);
      postings ← (match previous_row with
                  | Some row => key ← row_key row positions; remove_posting_ordinary key primary_key postings
                  | None => Some postings
                  end);
      refresh_remove positions previous keys postings
  end.

(** Another row under the same key. *)
Definition posted_elsewhere (key primary_key : RelationalKey) (postings : RelationalIndexPages) : bool :=
  match index_get key postings with
  | Some keys => existsb (λ existing, negb (key_eqb existing primary_key)) (set_iter keys)
  | None => false
  end.
(** The postings of the next rows inserted. *)
Fixpoint refresh_insert (def : RelationalIndexDefinition) (table : bytes) (positions : list nat) (next : RelationalRowPages)
    (enforce_unique : bool) (keys : list RelationalKey) (postings : RelationalIndexPages)
    : option (RelationalIndexPages * result () RelationalError) :=
  match keys with
  | [] => Some (postings, Ok ())
  | primary_key :: keys =>
      next_row ← rows_get primary_key next;
      match next_row with
      | None => refresh_insert def table positions next enforce_unique keys postings
      | Some row =>
          key ← row_key row positions;
          if skipped (def_role def) key then refresh_insert def table positions next enforce_unique keys postings
          else if enforce_unique && is_unique (def_role def) && posted_elsewhere key primary_key postings
          then Some (postings, Err (duplicate_key (def_name def) table))
          else
            '(_, postings) ← insert_posting_ordinary key primary_key postings;
            refresh_insert def table positions next enforce_unique keys postings
      end
  end.
Fixpoint refresh_loop (s : RelationalTableSchema) (table : bytes) (previous : option RelationalRowPages)
    (next : RelationalRowPages) (keys : list RelationalKey) (enforce_unique : bool)
    (defs : list RelationalIndexDefinition) (ixs : gmap bytes RelationalIndexPages)
    : option (gmap bytes RelationalIndexPages * result () RelationalError) :=
  match defs with
  | [] => Some (ixs, Ok ())
  | def :: defs =>
      if bool_decide (def_role def = Primary) then refresh_loop s table previous next keys enforce_unique defs ixs
      else
        match column_positions s (def_columns def) with
        | Err e => Some (ixs, Err e)
        | Ok positions =>
            match ixs !! def_name def with
            | None => Some (ixs, Err (missing_index table (def_name def)))
            | Some postings =>
                postings ← refresh_remove positions previous keys postings;
                '(postings, r) ← refresh_insert def table positions next enforce_unique keys postings;
                let ixs := <[def_name def := postings]> ixs in
                match r with
                | Err e => Some (ixs, Err e)
                | Ok _ => refresh_loop s table previous next keys enforce_unique defs ixs
                end
            end
        end
  end.
(** [keys] is the ordered set of changed keys. *)
Definition refresh_indexes_for_keys (previous next : RelationalState) (table : bytes) (keys : list RelationalKey)
    (enforce_unique : bool) : option (RelationalState * result () RelationalError) :=
  match st_schemas next !! table, st_segments next !! table with
  | Some schema, Some segment =>
      '(ixs, r) ← refresh_loop schema table (seg_rows <$> st_segments previous !! table) (seg_rows segment) keys
                    enforce_unique (required_index_definitions schema) (seg_indexes segment);
      Some (set_indexes table segment ixs next, r)
  | _, _ => Some (next, Err (unknown_table table))
  end.

(** ** What an index should hold *)

Lemma key_eqb_refl k : key_eqb k k = true.
Proof. apply key_eqb_cmp, (ord_refl key_cmp). Qed.
Lemma key_eqb_sym a b : key_eqb a b = key_eqb b a.
Proof. rewrite !key_eqb_match, (ord_opp key_cmp a b). by destruct (key_cmp a b). Qed.
Lemma key_eqb_l a b c : key_eqb a b = true → key_eqb a c = key_eqb b c.
Proof. intros H%key_eqb_cmp. by rewrite !key_eqb_match, (ord_eq_l key_cmp a b c H). Qed.

(** The rows of a table as a function of the primary key. *)
Definition Table : Type := RelationalKey → option RelationalRow.
Definition respects (R : Table) : Prop := ∀ p q, key_eqb p q = true → R p = R q.
Definition table_of (l : list RowEntry) : Table := λ q, map_get key_cmp q l.
Lemma table_respects l : respects (table_of l).
Proof. intros p q H%key_eqb_cmp. unfold table_of, map_get. by rewrite (get_equal_key p q l H). Qed.

Definition override (R : Table) (p : RelationalKey) (o : option RelationalRow) : Table := λ q, if key_eqb p q then o else R q.
Lemma override_respects R p o : respects R → respects (override R p o).
Proof. intros HR a b H. unfold override. rewrite (key_eqb_sym p a), (key_eqb_l a b p H), (key_eqb_sym b p). by rewrite (HR a b H). Qed.
Definition member (keys : list RelationalKey) (q : RelationalKey) : bool := existsb (λ p, key_eqb p q) keys.
Lemma member_elem keys q : member keys q = true ↔ ∃ p, p ∈ keys ∧ key_eqb p q = true.
Proof. unfold member. rewrite List.existsb_exists. setoid_rewrite list_elem_of_In. done. Qed.

(** The keys an index holds: all, or those without a NULL when it is unique. *)
Definition enters (role : RelationalIndexRole) (key : RelationalKey) : bool :=
  negb (is_unique role) || forallb (λ v, negb (is_rnull v)) key.
Lemma skipped_enters role key : enters role key = negb (skipped role key).
Proof.
  unfold enters, skipped. rewrite negb_andb. f_equal. unfold key_has_null. induction key as [|v key IH]; [done|]. cbn. by rewrite IH, negb_orb.
Qed.

Section Index.
Context (def : RelationalIndexDefinition) (table : bytes) (positions : list nat).
Implicit Types (R : Table) (pages : RelationalIndexPages) (j k p q : RelationalKey).

(** A primary key is posted under the index key of its row. *)
Definition posted R j q : bool :=
  match R q ≫= λ row, row_key row positions with
  | Some k => enters (def_role def) k && key_eqb k j
  | None => false
  end.
Definition index_exact R pages : Prop :=
  index_wf pages ∧ ∀ j q, multimap_contains j q (index_contents pages) = posted R j q.
Definition unique_in R : Prop := ∀ j p q, posted R j p = true → posted R j q = true → key_eqb p q = true.
Definition keyed_rows R : Prop := ∀ q row, R q = Some row → ∃ k, row_key row positions = Some k.

Lemma posted_ext R R' j q : R q = R' q → posted R j q = posted R' j q.
Proof. unfold posted. by intros ->. Qed.
Lemma exact_ext R R' pages : (∀ q, R q = R' q) → index_exact R pages → index_exact R' pages.
Proof. intros HR [Hw H]. split; [done|]. intros j q. rewrite H. by apply posted_ext. Qed.
Lemma unique_ext R R' : (∀ q, R q = R' q) → unique_in R → unique_in R'.
Proof. intros HR HU j p q. rewrite <- !(posted_ext R R') by done. apply HU. Qed.
Lemma posted_none R j q : R q = None → posted R j q = false.
Proof. unfold posted. by intros ->. Qed.
Lemma posted_row R j q row k : R q = Some row → row_key row positions = Some k →
  posted R j q = negb (skipped (def_role def) k) && key_eqb k j.
Proof. unfold posted. intros -> E. cbn [mbind option_bind]. by rewrite E, skipped_enters. Qed.
Lemma posted_skipped R j q row k : R q = Some row → row_key row positions = Some k → skipped (def_role def) k = true → posted R j q = false.
Proof. intros E Ek Es. by rewrite (posted_row R j q row k E Ek), Es. Qed.

(** Taking a row out. *)
Lemma remove_step R p row k pages : respects R → R p = None ∨ R p = Some row → row_key row positions = Some k →
  index_exact R pages → ∃ pages', remove_posting_ordinary k p pages = Some pages' ∧ index_exact (override R p None) pages' ∧
    multimap_count (index_contents pages') ≤ multimap_count (index_contents pages).
Proof.
  intros HR Hp Ek [Hw He]. destruct (remove_posting_ok k p pages Hw) as (pages' & E & Hc & Hw'). exists pages'.
  split; [done|]. split; [|rewrite Hc; apply count_remove]. split; [done|]. intros j q.
  rewrite Hc, contains_remove_pair by (by apply contents_ok). rewrite He. unfold same_pair. destruct (key_eqb p q) eqn:Epq.
  - rewrite (posted_none (override R p None) j q) by (unfold override; by rewrite Epq). rewrite andb_true_r.
    pose proof (HR p q Epq) as Hq. destruct Hp as [Hp|Hp]; rewrite Hp in Hq; symmetry in Hq.
    + by rewrite (posted_none R j q Hq), andb_false_r.
    + rewrite (posted_row R j q row k Hq Ek). by destruct (key_eqb k j), (skipped _ _).
  - rewrite andb_false_r. cbn [negb andb]. apply posted_ext. unfold override. by rewrite Epq.
Qed.
(** Putting a row in. *)
Lemma insert_step R p row k pages : respects R → R p = None ∨ R p = Some row → row_key row positions = Some k →
  skipped (def_role def) k = false → index_exact R pages → multimap_count (index_contents pages) < usize_max →
  ∃ b pages', insert_posting_ordinary k p pages = Some (b, pages') ∧ index_exact (override R p (Some row)) pages' ∧
    multimap_count (index_contents pages') ≤ multimap_count (index_contents pages) + 1.
Proof.
  intros HR Hp Ek Es [Hw He] Hmax. destruct (insert_posting_ok k p pages Hw Hmax) as (pages' & E & Hc & Hw'). do 2 eexists.
  split; [exact E|]. split; [|rewrite Hc; apply count_insert]. split; [done|]. intros j q.
  rewrite Hc, contains_insert_pair by (by apply contents_ok). rewrite He. unfold same_pair. destruct (key_eqb p q) eqn:Epq.
  - rewrite (posted_row (override R p (Some row)) j q row k); [|unfold override; by rewrite Epq|done]. rewrite Es, andb_true_r. cbn [negb andb].
    pose proof (HR p q Epq) as Hq. destruct Hp as [Hp|Hp]; rewrite Hp in Hq; symmetry in Hq.
    + by rewrite (posted_none R j q Hq), orb_false_r.
    + rewrite (posted_row R j q row k Hq Ek), Es. by destruct (key_eqb k j).
  - rewrite andb_false_r. cbn [orb]. apply posted_ext. unfold override. by rewrite Epq.
Qed.
Lemma skip_step R p row k pages : respects R → R p = None ∨ R p = Some row → row_key row positions = Some k →
  skipped (def_role def) k = true → index_exact R pages → index_exact (override R p (Some row)) pages.
Proof.
  intros HR Hp Ek Es [Hw He]. split; [done|]. intros j q. rewrite He. destruct (key_eqb p q) eqn:Epq.
  - rewrite (posted_skipped (override R p (Some row)) j q row k); [|unfold override; by rewrite Epq|done|done].
    pose proof (HR p q Epq) as Hq. destruct Hp as [Hp|Hp]; rewrite Hp in Hq; symmetry in Hq.
    + by apply posted_none.
    + by eapply posted_skipped.
  - apply posted_ext. unfold override. by rewrite Epq.
Qed.

(** What the uniqueness check sees. *)
Lemma get_elem k p pages keys : index_wf pages → index_get k pages = Some keys →
  map_contains key_cmp p (set_contents keys) = multimap_contains k p (index_contents pages).
Proof. intros Hw E. pose proof (index_get_ok k pages Hw) as H. rewrite E in H. unfold multimap_contains. by rewrite <- H. Qed.
Lemma get_nothing k p pages : index_wf pages → index_get k pages = None → multimap_contains k p (index_contents pages) = false.
Proof. intros Hw E. pose proof (index_get_ok k pages Hw) as H. rewrite E in H. unfold multimap_contains. by rewrite <- H. Qed.
Lemma get_set k pages keys : index_wf pages → index_get k pages = Some keys → key_sorted key_cmp (set_contents keys) ∧ set_contents keys ≠ [].
Proof.
  intros Hw E. pose proof (index_get_ok k pages Hw) as H. rewrite E in H. cbn in H. unfold map_get in H.
  destruct (get_key_value key_cmp k (index_contents pages)) as [e|] eqn:Eg; [|done]. injection H as ->.
  destruct (contents_ok pages Hw) as [Hs HF]. apply get_some in Eg as [He _]; [|apply _|done]. exact (proj1 (Forall_forall _ _) HF e He).
Qed.
Lemma index_get_set_wf k pages keys : index_wf pages → index_get k pages = Some keys → set_wf keys.
Proof.
  intros [Hok HF]. unfold index_get. destruct (page_index k pages) as [i|]; [|done]. cbn [mbind option_bind].
  destruct (pages !! i) as [page|] eqn:Ep; [|done]. cbn [mbind option_bind]. unfold map_get.
  destruct (get_key_value key_cmp k page) as [e|] eqn:Eg; [|done]. intros [= <-].
  assert (key_sorted key_cmp page) as Hs.
  { apply list_elem_of_split_length in Ep as (qs & rs & -> & _). by eapply index_page_sorted. }
  apply get_some in Eg as [He _]; [|apply _|done]. rewrite Forall_forall in HF. apply HF. apply list_elem_of_In, List.in_concat.
  exists page. split; apply list_elem_of_In; [by eapply list_elem_of_lookup_2|done].
Qed.
Lemma contains_elem {V} p (l : list (RelationalKey * V)) : key_sorted key_cmp l →
  map_contains key_cmp p l = true ↔ ∃ e, e ∈ l ∧ key_cmp p e.1 = Eq.
Proof. intros Hs. rewrite map_contains_get. by setoid_rewrite (get_some key_cmp p l); [|done]. Qed.

Lemma elsewhere_spec R k p pages : index_exact R pages →
  posted_elsewhere k p pages = true ↔ ∃ q, posted R k q = true ∧ key_eqb q p = false.
Proof.
  intros [Hw He]. unfold posted_elsewhere. setoid_rewrite <- He. destruct (index_get k pages) as [keys|] eqn:Eg.
  - destruct (get_set k pages keys Hw Eg) as [Hs _]. setoid_rewrite <- (get_elem k _ pages keys Hw Eg). rewrite List.existsb_exists. split.
    + intros (x & (e & -> & Hin)%list_elem_of_In%list_elem_of_fmap & Hx%negb_true_iff). exists e.1. split; [|done].
      apply contains_elem; [done|]. exists e. split; [done|apply (ord_refl key_cmp)].
    + intros (q & (e & Hin & Hq)%contains_elem & Hne); [|done]. exists e.1. split; [apply list_elem_of_In, list_elem_of_fmap; by exists e|].
      apply negb_true_iff. by rewrite <- (key_eqb_l q e.1 p) by (by apply key_eqb_cmp).
  - split; [done|]. intros (q & Hq & _). by rewrite (get_nothing k q pages Hw Eg) in Hq.
Qed.
Lemma nonempty_spec R k pages : index_exact R pages →
  match index_get k pages with Some keys => negb (set_is_empty keys) | None => false end = true ↔ ∃ q, posted R k q = true.
Proof.
  intros [Hw He]. setoid_rewrite <- He. destruct (index_get k pages) as [keys|] eqn:Eg.
  - destruct (get_set k pages keys Hw Eg) as [Hs Hne]. setoid_rewrite <- (get_elem k _ pages keys Hw Eg).
    assert (set_is_empty keys = false) as ->.
    { apply not_true_iff_false. intros E. pose proof (index_get_set_wf k pages keys Hw Eg) as Hset. by apply set_empty_ok in E. }
    split; [|done]. intros _. destruct (set_contents keys) as [|e l] eqn:El; [done|]. exists e.1. apply contains_elem; [done|].
    exists e. split; [apply list_elem_of_here|apply (ord_refl key_cmp)].
  - split; [done|]. intros (q & Hq). by rewrite (get_nothing k q pages Hw Eg) in Hq.
Qed.

(** A row added to a unique index whose key no other row has. *)
Lemma unique_step R p row k : respects R → unique_in R → R p = None ∨ R p = Some row → row_key row positions = Some k →
  (∀ q, posted R k q = true → key_eqb q p = true) → unique_in (override R p (Some row)).
Proof.
  intros HR HU Hp Ek Hk.
  assert (∀ j q, posted (override R p (Some row)) j q = true → key_eqb p q = false → posted R j q = true) as Hother.
  { intros j q H E. rewrite <- H. symmetry. apply posted_ext. unfold override. by rewrite E. }
  assert (∀ j q, posted (override R p (Some row)) j q = true → key_eqb p q = true → key_eqb k j = true) as Hthis.
  { intros j q H E. rewrite (posted_row _ j q row k) in H; [|unfold override; by rewrite E|done]. by apply andb_true_iff in H as [_ H]. }
  assert (∀ j q, key_eqb k j = true → posted R j q = true → key_eqb q p = true) as Hclash.
  { intros j q Hj H. apply Hk. rewrite <- H. unfold posted. destruct (R q ≫= _) as [k'|]; [|done].
    by rewrite (key_eqb_sym k' k), (key_eqb_sym k' j), (key_eqb_l k j k' Hj). }
  intros j a b Ha Hb. destruct (key_eqb p a) eqn:Ea, (key_eqb p b) eqn:Eb.
  - by rewrite <- (key_eqb_l p a b Ea).
  - pose proof (Hclash j b (Hthis j a Ha Ea) (Hother j b Hb Eb)) as H. by rewrite key_eqb_sym, H in Eb.
  - pose proof (Hclash j a (Hthis j b Hb Eb) (Hother j a Ha Ea)) as H. by rewrite key_eqb_sym, H in Ea.
  - exact (HU j a b (Hother j a Ha Ea) (Hother j b Hb Eb)).
Qed.
Lemma unique_skip R p row k : respects R → unique_in R → R p = None ∨ R p = Some row → row_key row positions = Some k →
  skipped (def_role def) k = true → unique_in (override R p (Some row)).
Proof.
  intros HR HU Hp Ek Es j a b Ha Hb.
  assert (∀ q, posted (override R p (Some row)) j q = true → posted R j q = true) as H.
  { intros q H. destruct (key_eqb p q) eqn:E.
    - by rewrite (posted_skipped _ j q row k) in H; [|unfold override; rewrite E|..].
    - rewrite <- H. symmetry. apply posted_ext. unfold override. by rewrite E. }
  exact (HU j a b (H a Ha) (H b Hb)).
Qed.

(** ** The loops *)

(** The table without some keys, and with other rows for them. *)
Definition lacking (keys : list RelationalKey) R : Table := λ q, if member keys q then None else R q.
Definition renewed (keys : list RelationalKey) (next R : Table) : Table := λ q, if member keys q then next q else R q.

Lemma unique_lacking keys R : unique_in R → unique_in (lacking keys R).
Proof.
  intros HU. assert (∀ j q, posted (lacking keys R) j q = true → posted R j q = true) as H.
  { intros j q. unfold posted, lacking. by destruct (member keys q). }
  intros j p q Hp%H Hq%H. by apply (HU j).
Qed.
Lemma refresh_remove_ok previous Rprev keys :
  (∀ p, match previous with Some rows => rows_get p rows | None => Some None end = Some (Rprev p)) → keyed_rows Rprev →
  ∀ R pages, respects R → (∀ q, R q = None ∨ R q = Rprev q) → index_exact R pages →
  ∃ pages', refresh_remove positions previous keys pages = Some pages' ∧ index_exact (lacking keys R) pages' ∧
    multimap_count (index_contents pages') ≤ multimap_count (index_contents pages).
Proof.
  intros Hprev Hkeyed. induction keys as [|p keys IH]; intros R pages HR HRp He; cbn [refresh_remove]; [by exists pages|].
  rewrite Hprev. cbn [mbind option_bind].
  assert (∀ pages1, index_exact (override R p None) pages1 →
    multimap_count (index_contents pages1) ≤ multimap_count (index_contents pages) →
    ∃ pages', refresh_remove positions previous keys pages1 = Some pages' ∧ index_exact (lacking (p :: keys) R) pages' ∧
      multimap_count (index_contents pages') ≤ multimap_count (index_contents pages)) as Hrest.
  { intros pages1 He1 Hc1. destruct (IH (override R p None) pages1) as (pages' & E & He' & Hc').
    - by apply override_respects.
    - intros q. unfold override. destruct (key_eqb p q); auto.
    - done.
    - exists pages'. split; [done|]. split; [|lia]. eapply exact_ext; [|exact He']. intros q. unfold lacking, override, member. cbn [existsb].
      by destruct (key_eqb p q), (existsb _ keys). }
  destruct (Rprev p) as [row|] eqn:Ep.
  - destruct (Hkeyed p row Ep) as [k Ek]. rewrite Ek. cbn [mbind option_bind].
    destruct (remove_step R p row k pages HR ltac:(rewrite <- Ep; apply HRp) Ek He) as (pages1 & -> & He1 & Hc1). by apply Hrest.
  - cbn [mbind option_bind]. apply Hrest; [|lia]. eapply exact_ext; [|exact He]. intros q. unfold override.
    destruct (key_eqb p q) eqn:E; [|done]. rewrite <- (HR p q E). destruct (HRp p) as [->|H]; [done|by rewrite H].
Qed.

(** An index that enforces uniqueness, or not. *)
Definition unique_if (b : bool) R : Prop := b = true → unique_in R.

Lemma refresh_insert_ok next Rnext enforce keys : (∀ p, rows_get p next = Some (Rnext p)) → keyed_rows Rnext → respects Rnext →
  ∀ R pages, respects R → (∀ q, member keys q = true → R q = None ∨ R q = Rnext q) → index_exact R pages →
  unique_if (enforce && is_unique (def_role def)) R → multimap_count (index_contents pages) + zlen keys < usize_max →
  ∃ pages' r, refresh_insert def table positions next enforce keys pages = Some (pages', r) ∧
    match r with
    | Ok _ => index_exact (renewed keys Rnext R) pages' ∧ unique_if (enforce && is_unique (def_role def)) (renewed keys Rnext R)
    | Err e => e = duplicate_key (def_name def) table ∧ enforce = true ∧ is_unique (def_role def) = true ∧ ¬ unique_in (renewed keys Rnext R)
    end.
Proof.
  intros Hnext Hkeyed HRn. induction keys as [|p keys IH]; intros R pages HR HRk He HU Hmax; cbn [refresh_insert].
  { exists pages, (Ok ()). done. }
  rewrite zlen_cons in Hmax. pose proof (zlen_nonneg keys). rewrite Hnext. cbn [mbind option_bind].
  assert (R p = None ∨ R p = Rnext p) as Hp by (apply HRk; cbn; by rewrite key_eqb_refl).
  assert (∀ q, renewed keys Rnext (override R p (Rnext p)) q = renewed (p :: keys) Rnext R q) as Hren.
  { intros q. unfold renewed, override, member. cbn [existsb]. destruct (key_eqb p q) eqn:E; [|done]. cbn [orb]. rewrite (HRn p q E).
    by destruct (existsb _ keys). }
  assert (∀ pages1, index_exact (override R p (Rnext p)) pages1 → unique_if (enforce && is_unique (def_role def)) (override R p (Rnext p)) →
    multimap_count (index_contents pages1) ≤ multimap_count (index_contents pages) + 1 →
    ∃ pages' r, refresh_insert def table positions next enforce keys pages1 = Some (pages', r) ∧
      match r with
      | Ok _ => index_exact (renewed (p :: keys) Rnext R) pages' ∧ unique_if (enforce && is_unique (def_role def)) (renewed (p :: keys) Rnext R)
      | Err e => e = duplicate_key (def_name def) table ∧ enforce = true ∧ is_unique (def_role def) = true ∧ ¬ unique_in (renewed (p :: keys) Rnext R)
      end) as Hrest.
  { intros pages1 He1 HU1 Hc1. destruct (IH (override R p (Rnext p)) pages1) as (pages' & r & E & Hr); [by apply override_respects| |done|done|lia|].
    - intros q Hq. unfold override. destruct (key_eqb p q) eqn:E; [right; by apply HRn|]. apply HRk. cbn. by rewrite E.
    - exists pages', r. split; [done|]. destruct r as [[]|e].
      + destruct Hr as [Hr1 Hr2]. split; [by eapply exact_ext|]. intros Hb. eapply unique_ext; [exact Hren|]. by apply Hr2.
      + destruct Hr as (-> & H1 & H2 & Hnot). split_and!; try done. intros HU'. apply Hnot. eapply unique_ext; [|exact HU']. done. }
  destruct (Rnext p) as [row|] eqn:Ep.
  - destruct (Hkeyed p row Ep) as [k Ek]. rewrite Ek. cbn [mbind option_bind]. destruct (skipped (def_role def) k) eqn:Es.
    + apply Hrest; [by eapply skip_step| |lia]. intros Hb. eapply unique_skip; eauto.
    + destruct (enforce && is_unique (def_role def)) eqn:Eu; cbn [andb].
      * destruct (posted_elsewhere k p pages) eqn:Ee.
        -- apply (elsewhere_spec R k p pages He) in Ee as (q & Hq & Hne). apply andb_true_iff in Eu as [-> Eu].
           do 2 eexists. split; [done|]. split_and!; try done. intros HU'. enough (key_eqb q p = true) by congruence. apply (HU' k).
           ++ rewrite <- Hq. apply posted_ext. unfold renewed. destruct (member (p :: keys) q) eqn:Em; [|done].
              destruct (HRk q Em) as [Hn|]; [|done]. by rewrite (posted_none R k q Hn) in Hq.
           ++ rewrite (posted_row _ k p row k); [by rewrite Es, key_eqb_refl| |done]. unfold renewed. cbn. by rewrite key_eqb_refl.
        -- destruct (insert_step R p row k pages HR Hp Ek Es He ltac:(lia)) as (b & pages1 & -> & He1 & Hc1). cbn [mbind option_bind].
           apply Hrest; [done| |done]. intros _. apply (unique_step R p row k); try done; [by apply HU|]. intros q Hq.
           apply not_false_iff_true. intros Hne. assert (posted_elsewhere k p pages = true) by (apply (elsewhere_spec R k p pages He); eauto). congruence.
      * destruct (insert_step R p row k pages HR Hp Ek Es He ltac:(lia)) as (b & pages1 & -> & He1 & Hc1). cbn [mbind option_bind].
        by apply Hrest.
  - assert (∀ q, R q = override R p None q) as Heq.
    { intros q. unfold override. destruct (key_eqb p q) eqn:E; [|done]. rewrite <- (HR p q E). by destruct Hp as [->| ->]. }
    apply Hrest; [by eapply exact_ext| |lia]. intros Hb. eapply unique_ext; [exact Heq|by apply HU].
Qed.

Lemma rebuild_postings_ok Rl rows : keyed_rows Rl → respects Rl → key_sorted key_cmp rows → (∀ e, e ∈ rows → Rl e.1 = Some e.2) →
  ∀ R pages, respects R → (∀ e, e ∈ rows → R e.1 = None) → (∀ q, R q = None ∨ R q = Rl q) → index_exact R pages →
  unique_if (is_unique (def_role def)) R → multimap_count (index_contents pages) + zlen rows < usize_max →
  ∃ r, rebuild_postings def table positions rows pages = Some r ∧
    match r with
    | Ok pages' => index_exact (renewed rows.*1 Rl R) pages' ∧ unique_if (is_unique (def_role def)) (renewed rows.*1 Rl R)
    | Err e => e = duplicate_key (def_name def) table ∧ is_unique (def_role def) = true ∧ ¬ unique_in (renewed rows.*1 Rl R)
    end.
Proof.
  intros Hkeyed HRl. induction rows as [|[p row] rows IH]; intros Hs Hrows R pages HR Hfresh HRR He HU Hmax; cbn [rebuild_postings].
  { eexists. split; [done|]. done. }
  apply key_sorted_cons in Hs as [Hs Hlt]. cbn [fst] in Hlt. rewrite zlen_cons in Hmax. pose proof (zlen_nonneg rows).
  assert (Rl p = Some row) as Ep by (apply (Hrows (p, row)), list_elem_of_here).
  assert (R p = None) as Hp by (apply (Hfresh (p, row)), list_elem_of_here).
  destruct (Hkeyed p row Ep) as [k Ek]. rewrite Ek. cbn [mbind option_bind].
  assert (∀ q, renewed rows.*1 Rl (override R p (Some row)) q = renewed (p :: rows.*1) Rl R q) as Hren.
  { intros q. unfold renewed, override, member. cbn [existsb]. destruct (key_eqb p q) eqn:E; [|done]. cbn [orb]. rewrite <- (HRl p q E), Ep.
    by destruct (existsb _ _). }
  assert (∀ pages1, index_exact (override R p (Some row)) pages1 → unique_if (is_unique (def_role def)) (override R p (Some row)) →
    multimap_count (index_contents pages1) ≤ multimap_count (index_contents pages) + 1 →
    ∃ r, rebuild_postings def table positions rows pages1 = Some r ∧
      match r with
      | Ok pages' => index_exact (renewed (p :: rows.*1) Rl R) pages' ∧ unique_if (is_unique (def_role def)) (renewed (p :: rows.*1) Rl R)
      | Err e => e = duplicate_key (def_name def) table ∧ is_unique (def_role def) = true ∧ ¬ unique_in (renewed (p :: rows.*1) Rl R)
      end) as Hrest.
  { intros pages1 He1 HU1 Hc1. destruct (IH Hs ltac:(intros e He0; apply Hrows; by apply list_elem_of_further) (override R p (Some row)) pages1) as (r & E & Hr);
      [by apply override_respects| | |done|done|lia|].
    - intros e He0. unfold override. rewrite key_eqb_match, (Hlt e He0). apply Hfresh. by apply list_elem_of_further.
    - intros q. unfold override. destruct (key_eqb p q) eqn:E; [right; by rewrite <- (HRl p q E)|done].
    - exists r. split; [done|]. destruct r as [pages'|e].
      + destruct Hr as [Hr1 Hr2]. split; [by eapply exact_ext|]. intros Hb. eapply unique_ext; [exact Hren|]. by apply Hr2.
      + destruct Hr as (-> & H2 & Hnot). split_and!; try done. intros HU'. apply Hnot. eapply unique_ext; [|exact HU']. done. }
  change ((p, row) :: rows).*1 with (p :: rows.*1). destruct (skipped (def_role def) k) eqn:Es.
  { apply Hrest; [by eapply skip_step; eauto| |lia]. intros Hb. eapply unique_skip; eauto. }
  destruct (is_unique (def_role def)) eqn:Eu; cbn [andb].
  - destruct (match index_get k pages with Some keys => negb (set_is_empty keys) | None => false end) eqn:Ee.
    + apply (nonempty_spec R k pages He) in Ee as [q Hq]. eexists. split; [done|]. split_and!; try done. intros HU'.
      assert (key_eqb q p = true) as Hqp.
      { apply (HU' k); [|rewrite (posted_row _ k p row k); [by rewrite Es, key_eqb_refl| |done]; unfold renewed; cbn; by rewrite key_eqb_refl].
        rewrite <- Hq. apply posted_ext. unfold renewed. destruct (member (p :: rows.*1) q); [|done].
        destruct (HRR q) as [Hn|]; [|done]. by rewrite (posted_none R k q Hn) in Hq. }
      by rewrite (posted_none R k q) in Hq by (by rewrite (HR q p Hqp)).
    + destruct (insert_step R p row k pages HR ltac:(by left) Ek Es He ltac:(lia)) as (b & pages1 & -> & He1 & Hc1). cbn [mbind option_bind].
      apply Hrest; [done| |done]. intros _. apply (unique_step R p row k); [done|by apply HU|by left|done|]. intros q Hq.
      pose proof (proj2 (nonempty_spec R k pages He) ltac:(eauto)). congruence.
  - destruct (insert_step R p row k pages HR ltac:(by left) Ek Es He ltac:(lia)) as (b & pages1 & -> & He1 & Hc1). cbn [mbind option_bind].
    by apply Hrest.
Qed.
End Index.

(** ** All indexes of a table *)

Section Tables.
Context `{TR : TimestampRange} `{L : RowLayout} (s : RelationalTableSchema) (table : bytes).
Implicit Types (R : Table) (defs : list RelationalIndexDefinition) (ixs : gmap bytes RelationalIndexPages).

(** Rows have a value for every column. *)
Definition complete_rows R : Prop := ∀ q row, R q = Some row → length row = length (columns s).
Lemma positions_in_row cs positions row : column_positions s cs = Ok positions → length row = length (columns s) →
  ∃ k, row_key row positions = Some k.
Proof.
  intros Ep Hl. revert positions Ep. induction cs as [|c cs IH]; intros positions; cbn [column_positions]; [intros [= <-]; by eexists|].
  destruct (column_position s c) as [i|] eqn:Ei; [|done]. intros (ps & Eps & [= <-])%result_bind_ok.
  destruct (IH ps Eps) as [k Ek]. apply position_bound in Ei as (column & Ec & _). apply lookup_lt_Some in Ec. rewrite <- Hl in Ec.
  apply lookup_lt_is_Some in Ec as [v Ev]. exists (v :: k). unfold row_key in *. cbn [mapM].
  match goal with |- context [mbind _ ?o] => replace o with (Some v) by (symmetry; exact Ev) end. cbn [mbind option_bind]. by rewrite Ek.
Qed.
Lemma complete_keyed R cs positions : column_positions s cs = Ok positions → complete_rows R → keyed_rows positions R.
Proof. intros Ep HR q row Hq. eapply positions_in_row; [done|]. by eapply HR. Qed.

Lemma columns_found cs kind seen : validate_columns s cs kind seen = Ok () → ∃ positions, column_positions s cs = Ok positions.
Proof.
  revert seen; induction cs as [|c cs IH]; intros seen; cbn [validate_columns column_positions]; [by eexists|].
  destruct (column_position s c) as [i|]; [|done]. cbn [mbind option_bind]. destruct (columns s !! i); [|done]. case_bool_decide; [done|].
  intros ([] & _ & Hcs)%result_bind_ok. destruct (IH _ Hcs) as [ps ->]. by eexists.
Qed.
Lemma list_found cs kind : validate_column_list s cs kind = Ok () → ∃ positions, column_positions s cs = Ok positions.
Proof. unfold validate_column_list. destruct cs as [|c cs]; [done|]. apply columns_found. Qed.
Lemma index_columns_found (declared : list RelationalIndexSchema) names : validate_index_names s declared names = Ok () →
  ∀ index, index ∈ declared → ∃ positions, column_positions s (ix_columns index) = Ok positions.
Proof.
  revert names; induction declared as [|index declared IH]; intros names; cbn [validate_index_names]; [by intros _ ? ?%elem_of_nil|].
  case_match; [done|]. intros ([] & Hc & H')%result_bind_ok index' [-> | Hin]%elem_of_cons; [by eapply list_found|by eapply IH].
Qed.
Lemma definition_columns_found def : validate_table_schema s = Ok () → def ∈ required_index_definitions s → def_role def ≠ Primary →
  ∃ positions, column_positions s (def_columns def) = Ok positions.
Proof.
  unfold validate_table_schema. destruct (match materialized_view s with Some _ => _ | None => _ end); [done|].
  destruct (bool_decide _ || _); [done|].
  intros ([] & _ & ([] & _ & ([] & _ & ([] & Hu & ([] & Hf & Hi)%result_bind_ok)%result_bind_ok)%result_bind_ok)%result_bind_ok)%result_bind_ok.
  unfold required_index_definitions. rewrite !elem_of_app. intros [Hd|[Hd|[Hd|Hd]]] Hr.
  - destruct (primary_key s); [by apply elem_of_nil in Hd|]. by apply list_elem_of_singleton in Hd as ->.
  - apply elem_of_lookup_imap in Hd as (i & cs & -> & Hcs). rewrite for_each_ok in Hu. eapply list_found, Hu. by eapply list_elem_of_lookup_2.
  - apply list_elem_of_fmap in Hd as (index & -> & Hin). by eapply index_columns_found.
  - apply elem_of_lookup_imap in Hd as (i & key & -> & Hk). rewrite for_each_ok in Hf. specialize (Hf key (list_elem_of_lookup_2 _ _ _ Hk)).
    apply result_bind_ok in Hf as ([] & Hf & _). by eapply list_found.
Qed.

(** The index of a definition holds what it should, and so for some of them. *)
Definition kept_exact (unique : bool) R ixs (def : RelationalIndexDefinition) : Prop :=
  def_role def = Primary ∨ ∃ positions pages, column_positions s (def_columns def) = Ok positions ∧ ixs !! def_name def = Some pages ∧
    index_exact def positions R pages ∧ unique_if def positions (unique && is_unique (def_role def)) R.
(** A unique index whose rows share a key. *)
Definition clashes R (def : RelationalIndexDefinition) : Prop :=
  def_role def ≠ Primary ∧ is_unique (def_role def) = true ∧
  ∃ positions, column_positions s (def_columns def) = Ok positions ∧ ¬ unique_in def positions R.
(** What an update of the indexes of a table leaves. *)
Definition maintained (unique : bool) R defs ixs (r : result () RelationalError) : Prop :=
  match r with
  | Ok _ => ∀ def, def ∈ defs → kept_exact unique R ixs def
  | Err e => unique = true ∧ ∃ def, def ∈ defs ∧ clashes R def ∧ e = duplicate_key (def_name def) table
  end.

Lemma kept_other unique R ixs ixs' def : ixs' !! def_name def = ixs !! def_name def → kept_exact unique R ixs def → kept_exact unique R ixs' def.
Proof. intros E [H|(ps & pages & Hc & Hi & H)]; [by left|]. right. exists ps, pages. by rewrite E. Qed.
Lemma unique_if_ext def positions b R R' : (∀ q, R q = R' q) → unique_if def positions b R → unique_if def positions b R'.
Proof. intros HR HU Hb. eapply unique_ext; [exact HR|by apply HU]. Qed.

Lemma maintained_cons unique R def defs ixs r : (r = Ok () → kept_exact unique R ixs def) →
  maintained unique R defs ixs r → maintained unique R (def :: defs) ixs r.
Proof.
  intros Hd Hm. destruct r as [[]|e]; [intros def' [-> | Hin]%elem_of_cons; [by apply Hd|by apply Hm]|].
  destruct Hm as (Hu & def' & Hin & H). split; [done|]. exists def'. split; [by apply list_elem_of_further|done].
Qed.
Lemma maintained_no_clash R defs ixs : maintained true R defs ixs (Ok ()) → ∀ def, def ∈ defs → ¬ clashes R def.
Proof.
  intros Hm def Hin (Hr & Hu & positions & Ec & Hnot). destruct (Hm def Hin) as [|(ps & pages & Ec' & _ & _ & HU)]; [done|].
  rewrite Ec in Ec'. injection Ec' as <-. by apply Hnot, HU.
Qed.

(** The rows before and after, as the pages give them. *)
Definition rows_give (rows : option RelationalRowPages) R : Prop :=
  ∀ p, match rows with Some rows => rows_get p rows | None => Some None end = Some (R p).

Lemma refresh_loop_ok previous next Rprev Rnext keys unique defs : rows_give previous Rprev → rows_give (Some next) Rnext →
  respects Rprev → respects Rnext → complete_rows Rprev → complete_rows Rnext → (∀ q, member keys q = false → Rprev q = Rnext q) →
  ∀ ixs, NoDup (def_name <$> defs) → (∀ def, def ∈ defs → kept_exact unique Rprev ixs def) →
  (∀ def pages, def ∈ defs → ixs !! def_name def = Some pages → multimap_count (index_contents pages) + zlen keys < usize_max) →
  ∃ ixs' r, refresh_loop s table previous next keys unique defs ixs = Some (ixs', r) ∧ maintained unique Rnext defs ixs' r ∧
    (∀ name, name ∉ def_name <$> defs → ixs' !! name = ixs !! name).
Proof.
  intros Hprev Hnext HRp HRn Hcp Hcn Hsame.
  induction defs as [|def defs IH]; intros ixs Hnd Hex Hcount; cbn [refresh_loop]; [by exists ixs, (Ok ()); split_and!; try done; intros def ?%elem_of_nil|].
  rewrite fmap_cons in Hnd. apply NoDup_cons in Hnd as [Hfresh Hnd].
  assert (∀ def', def' ∈ defs → kept_exact unique Rprev ixs def') as Hex' by (intros; apply Hex; by apply list_elem_of_further).
  assert (∀ def' pages, def' ∈ defs → ixs !! def_name def' = Some pages → multimap_count (index_contents pages) + zlen keys < usize_max) as Hcount'
    by (intros def' pages' Hin; apply Hcount; by apply list_elem_of_further).
  case_bool_decide as Hrole.
  { destruct (IH ixs Hnd Hex' Hcount') as (ixs' & r & E & Hm & Ho). exists ixs', r. split; [done|]. split.
    - apply maintained_cons; [by left|done].
    - intros name Hn. apply Ho. set_solver. }
  destruct (Hex def (list_elem_of_here _ _)) as [|(positions & pages & Ec & Ei & He & HU)]; [done|]. rewrite Ec, Ei.
  pose proof (complete_keyed Rprev _ _ Ec Hcp) as Hkp. pose proof (complete_keyed Rnext _ _ Ec Hcn) as Hkn.
  destruct (refresh_remove_ok def positions previous Rprev keys Hprev Hkp Rprev pages HRp ltac:(by right) He) as (pages1 & -> & He1 & Hc1).
  cbn [mbind option_bind]. pose proof (Hcount def pages (list_elem_of_here _ _) Ei) as Hc.
  assert (∀ q, renewed keys Rnext (lacking keys Rprev) q = Rnext q) as Hren.
  { intros q. unfold renewed, lacking. destruct (member keys q) eqn:E; [done|by apply Hsame]. }
  assert (respects (lacking keys Rprev)) as HRw.
  { intros a b Hab. unfold lacking. rewrite (HRp a b Hab). assert (member keys a = member keys b) as ->; [|done].
    unfold member. clear -Hab. induction keys as [|p keys IH]; [done|]. cbn [existsb]. by rewrite IH, (key_eqb_sym p a), (key_eqb_l a b p Hab), (key_eqb_sym b p). }
  destruct (refresh_insert_ok def table positions next Rnext unique keys Hnext Hkn HRn (lacking keys Rprev) pages1) as (pages2 & r & -> & Hr); [done| |done| |lia|].
  { intros q Hq. left. unfold lacking. by rewrite Hq. }
  { intros Hb. by apply unique_lacking, HU. }
  cbn [mbind option_bind]. destruct r as [[]|e].
  - destruct Hr as [Hr1 Hr2]. assert (∀ def', def' ∈ defs → def_name def ≠ def_name def') as Hother
      by (intros def' Hin En; apply Hfresh; rewrite En; by apply list_elem_of_fmap_2).
    destruct (IH (<[def_name def := pages2]> ixs) Hnd) as (ixs' & r & E & Hm & Ho).
    { intros def' Hin. eapply kept_other; [|by apply Hex']. by apply lookup_insert_ne, Hother. }
    { intros def' pages' Hin Hl. rewrite lookup_insert_ne in Hl by (by apply Hother). by eapply Hcount'. }
    exists ixs', r. split; [done|]. split.
    + apply maintained_cons; [intros _|done]. right. exists positions, pages2. rewrite Ho by done. rewrite lookup_insert_eq.
      split_and!; [done|done|by eapply exact_ext|by eapply unique_if_ext].
    + intros name Hn. rewrite Ho by set_solver. apply lookup_insert_ne. set_solver.
  - destruct Hr as (-> & -> & Hu & Hnot). do 2 eexists. split; [done|]. split.
    + split; [done|]. exists def. split; [apply list_elem_of_here|]. split; [|done]. split_and!; try done. exists positions. split; [done|].
      intros HU'. apply Hnot. eapply unique_ext; [|exact HU']. intros q. symmetry. apply Hren.
    + intros name Hn. apply lookup_insert_ne. set_solver.
Qed.

Lemma rebuild_loop_ok rows defs : key_sorted key_cmp rows → complete_rows (table_of rows) → zlen rows < usize_max →
  (∀ def, def ∈ defs → def_role def ≠ Primary → ∃ positions, column_positions s (def_columns def) = Ok positions) →
  ∀ ixs, NoDup (def_name <$> defs) →
  ∃ ixs' r, rebuild_loop s table rows defs ixs = Some (ixs', r) ∧ maintained true (table_of rows) defs ixs' r ∧
    (∀ name, name ∉ def_name <$> defs → ixs' !! name = ixs !! name).
Proof.
  intros Hs Hc Hlen Hcols. induction defs as [|def defs IH]; intros ixs Hnd; cbn [rebuild_loop];
    [by exists ixs, (Ok ()); split_and!; try done; intros def ?%elem_of_nil|].
  rewrite fmap_cons in Hnd. apply NoDup_cons in Hnd as [Hfresh Hnd].
  specialize (IH ltac:(intros; apply Hcols; [by apply list_elem_of_further|done])). case_bool_decide as Hrole.
  { destruct (IH ixs Hnd) as (ixs' & r & E & Hm & Ho). exists ixs', r. split; [done|]. split.
    - apply maintained_cons; [by left|done].
    - intros name Hn. apply Ho. set_solver. }
  destruct (Hcols def (list_elem_of_here _ _) Hrole) as [positions Ec]. rewrite Ec.
  assert (∀ e, e ∈ rows → table_of rows e.1 = Some e.2) as Hrows.
  { intros e He. unfold table_of, map_get. by rewrite (proj2 (get_some key_cmp e.1 rows e Hs)) by (split; [done|apply (ord_refl key_cmp)]). }
  destruct (rebuild_postings_ok def table positions (table_of rows) rows (complete_keyed _ _ _ Ec Hc) (table_respects rows) Hs Hrows (λ _, None) [])
    as (r & -> & Hr); [done|done|by left|by split; [apply IndexDemo.empty_wf|]|by intros _ j p q|done|].
  assert (∀ q, renewed rows.*1 (table_of rows) (λ _, None) q = table_of rows q) as Hren.
  { intros q. unfold renewed. destruct (member rows.*1 q) eqn:Em; [done|]. unfold table_of, map_get. destruct (get_key_value key_cmp q rows) as [e|] eqn:Eg; [|done].
    apply get_some in Eg as [He Hq]; [|apply _|done]. assert (member rows.*1 q = true); [|congruence]. apply member_elem. exists e.1.
    split; [by apply list_elem_of_fmap_2|]. rewrite key_eqb_sym. by apply key_eqb_cmp. }
  cbn [mbind option_bind]. destruct r as [pages|e].
  - destruct Hr as [Hr1 Hr2]. destruct (IH (<[def_name def := pages]> ixs) Hnd) as (ixs' & r & E & Hm & Ho). exists ixs', r. split; [done|]. split.
    + apply maintained_cons; [intros _|done]. right. exists positions, pages. rewrite Ho by done. rewrite lookup_insert_eq.
      split_and!; [done|done|by eapply exact_ext|by eapply unique_if_ext].
    + intros name Hn. rewrite Ho by set_solver. apply lookup_insert_ne. set_solver.
  - destruct Hr as (-> & Hu & Hnot). do 2 eexists. split; [done|]. split; [|done].
    split; [done|]. exists def. split; [apply list_elem_of_here|]. split; [|done]. split_and!; try done. exists positions. split; [done|].
    intros HU'. apply Hnot. eapply unique_ext; [|exact HU']. intros q. symmetry. apply Hren.
Qed.
Lemma rebuilt_exact rows ixs : validate_table_schema s = Ok () → key_sorted key_cmp rows → complete_rows (table_of rows) → zlen rows < usize_max →
  rebuild_loop s table rows (required_index_definitions s) ∅ = Some (ixs, Ok ()) →
  ∀ def, def ∈ required_index_definitions s → kept_exact true (table_of rows) ixs def.
Proof.
  intros Hv Hs Hc Hlen E. destruct (rebuild_loop_ok rows (required_index_definitions s) Hs Hc Hlen) with (ixs := ∅ : gmap bytes RelationalIndexPages)
    as (ixs' & r & E' & Hm & _); [intros def Hin Hr; by eapply definition_columns_found|by apply required_names_nodup|].
  rewrite E in E'. injection E' as <- <-. exact Hm.
Qed.
End Tables.

(** ** Refreshing is rebuilding *)

(** The rows of a table in a state. *)
Definition state_table (st : RelationalState) (table : bytes) : Table :=
  match st_segments st !! table with Some segment => table_of (rows_contents (seg_rows segment)) | None => λ _, None end.
Definition rows_well_formed `{L : RowLayout} (st : RelationalState) (table : bytes) : Prop :=
  ∀ segment, st_segments st !! table = Some segment → rows_wf (seg_rows segment).
Lemma state_gives `{L : RowLayout} st table : rows_well_formed st table → rows_give (seg_rows <$> st_segments st !! table) (state_table st table).
Proof.
  intros Hw p. unfold state_table. destruct (st_segments st !! table) as [segment|] eqn:E; [|done]. cbn [fmap option_fmap option_map].
  by apply rows_get_ok, Hw.
Qed.
Lemma state_respects st table : respects (state_table st table).
Proof. unfold state_table. destruct (st_segments st !! table); [apply table_respects|done]. Qed.

(** The indexes of a table after an update of a state. *)
Definition updates (outcome : option (RelationalState * result () RelationalError)) (st : RelationalState) (table : bytes)
    (segment : RelationalTableSegment) (P : gmap bytes RelationalIndexPages → result () RelationalError → Prop) : Prop :=
  ∃ ixs r, outcome = Some (set_indexes table segment ixs st, r) ∧ P ixs r.

Section Claim.
Context `{TR : TimestampRange} `{L : RowLayout} (previous next : RelationalState) (table : bytes).
Context (schema : RelationalTableSchema) (segment : RelationalTableSegment) (keys : list RelationalKey).

(** C14: Bringing the indexes of a table up to date for the changed keys does what
    rebuilding them from all rows would.  For a valid schema, rows that differ
    only in the changed keys, and indexes exact for the previous rows: the
    refresh does not panic or report a missing index; when it succeeds, every
    index holds exactly the index keys of the rows it should (no row with a NULL
    in a unique index) and no two rows share a key of a unique index; when it
    fails, it reports a unique index in which two of the new rows share a key.
    The rebuild has the same two outcomes, and each happens for both or for
    neither.  Without enforcement of uniqueness the refresh always succeeds. *)
Theorem index_refresh_exact unique :
  st_schemas next !! table = Some schema → st_segments next !! table = Some segment → validate_table_schema schema = Ok () →
  rows_well_formed previous table → rows_well_formed next table →
  complete_rows schema (state_table previous table) → complete_rows schema (state_table next table) →
  (∀ q, member keys q = false → state_table previous table q = state_table next table q) →
  (∀ def, def ∈ required_index_definitions schema → kept_exact schema unique (state_table previous table) (seg_indexes segment) def) →
  (∀ name pages, seg_indexes segment !! name = Some pages → multimap_count (index_contents pages) + zlen keys < usize_max) →
  zlen (rows_contents (seg_rows segment)) < usize_max →
  updates (refresh_indexes_for_keys previous next table keys unique) next table segment (λ ixs r,
    maintained schema table unique (state_table next table) (required_index_definitions schema) ixs r ∧
    updates (rebuild_indexes next table) next table segment (λ ixs' r',
      maintained schema table true (state_table next table) (required_index_definitions schema) ixs' r' ∧
      (unique = true → r = Ok () ↔ r' = Ok ()))).
Proof.
  intros Es Eg Hv Hwp Hwn Hcp Hcn Hsame Hex Hcount Hlen. unfold updates, refresh_indexes_for_keys, rebuild_indexes. rewrite Es, Eg.
  pose proof (required_names_nodup schema Hv) as Hnd. pose proof (state_gives previous table Hwp) as Gp.
  pose proof (state_gives next table Hwn) as Gn. rewrite Eg in Gn.
  destruct (refresh_loop_ok schema table _ (seg_rows segment) _ _ keys unique (required_index_definitions schema) Gp Gn
    (state_respects _ _) (state_respects _ _) Hcp Hcn Hsame (seg_indexes segment) Hnd Hex) as (ixs & r & E & Hm & _).
  { intros def pages _. apply Hcount. }
  assert (state_table next table = table_of (rows_iter (seg_rows segment))) as Et by (unfold state_table; by rewrite Eg).
  rewrite Et in Hcn, Hm |- *.
  destruct (rebuild_loop_ok schema table (rows_iter (seg_rows segment)) (required_index_definitions schema)) with (ixs := ∅ : gmap bytes RelationalIndexPages)
    as (ixs' & r' & E' & Hm' & _); [apply (Hwn segment Eg)|done|done| |done|].
  { intros def Hin Hr. by eapply definition_columns_found. }
  rewrite E. cbn [mbind option_bind]. exists ixs, r. split; [done|]. split; [done|]. rewrite E'. cbn [mbind option_bind].
  exists ixs', r'. split; [done|]. split; [done|]. intros ->. split; intros ->.
  - destruct r' as [[]|e]; [done|]. destruct Hm' as (_ & def & Hin & Hc & _). by destruct (maintained_no_clash _ _ _ _ _ Hm def Hin Hc).
  - destruct r as [[]|e]; [done|]. destruct Hm as (_ & def & Hin & Hc & _). by destruct (maintained_no_clash _ _ _ _ _ Hm' def Hin Hc).
Qed.
End Claim.

(** A table with a unique column and a secondary index; a transaction changes
    one row, deletes one and adds one. *)
Module MaintenanceDemo.
#[local] Instance demo_range : TimestampRange := {| min_micros := - 10 ^ 15; max_micros := 10 ^ 15 |}.
#[local] Instance demo_layout : RowLayout := {| size_of_key := 24; size_of_row := 40; size_of_values := 16; size_of_overflow_ref := 64 |}.
#[local] Instance demo_laws : RowLayoutLaws demo_layout.
Proof. constructor; by vm_compute. Qed.
Definition demo_schema : RelationalTableSchema :=
  mk_schema (lit "t")
    [mk_column (lit "id") TBigInt false None; mk_column (lit "email") TText true None; mk_column (lit "team") TBigInt false None]
    [lit "id"] [[lit "email"]] [] [mk_index_schema (lit "by_team") [lit "team"] false] None.
Definition entry (n : Z) (email : RelationalValue) (team : Z) : RowEntry := ([RBigInt n], [RBigInt n; email; RBigInt team]).
Definition before : list RowEntry := [entry 1 (RText (lit "a")) 7; entry 2 RNull 7; entry 3 (RText (lit "c")) 8].
Definition after : list RowEntry := [entry 1 (RText (lit "c")) 7; entry 2 RNull 7; entry 4 (RText (lit "d")) 8].
Definition demo_keys : list RelationalKey := [[RBigInt 1]; [RBigInt 3]; [RBigInt 4]].
Definition segment_of (rows : list RowEntry) (ixs : gmap bytes RelationalIndexPages) : RelationalTableSegment :=
  mk_segment (default rows_default (from_map rows)) ixs.
Definition state_of (segment : RelationalTableSegment) : RelationalState :=
  mk_state {[lit "t" := demo_schema]} {[lit "t" := segment]}.
Definition bare : RelationalState := state_of (segment_of before ∅).
Definition built : gmap bytes RelationalIndexPages :=
  match rebuild_indexes bare (lit "t") with Some (st, _) => default ∅ (seg_indexes <$> st_segments st !! lit "t") | None => ∅ end.
Definition previous_state : RelationalState := state_of (segment_of before built).
Definition next_state : RelationalState := state_of (segment_of after built).

Lemma demo_refreshed : snd <$> refresh_indexes_for_keys previous_state next_state (lit "t") demo_keys true = Some (Ok ()).
Proof. by vm_compute. Qed.

Lemma segment_rows rows ixs : key_sorted key_cmp rows → total_bytes rows ≤ usize_max →
  rows_wf (seg_rows (segment_of rows ixs)) ∧ rows_contents (seg_rows (segment_of rows ixs)) = rows.
Proof. intros Hs Ht. unfold segment_of. cbn [seg_rows]. by destruct (from_map_rows rows Hs Ht) as (rs & -> & Hc & Hw). Qed.
Lemma demo_rows ixs :
  (rows_wf (seg_rows (segment_of before ixs)) ∧ rows_contents (seg_rows (segment_of before ixs)) = before) ∧
  (rows_wf (seg_rows (segment_of after ixs)) ∧ rows_contents (seg_rows (segment_of after ixs)) = after).
Proof. split; (apply segment_rows; [unfold key_sorted, before, after; by repeat constructor|by vm_compute]). Qed.

Lemma state_segment segment : st_segments (state_of segment) !! lit "t" = Some segment.
Proof. apply lookup_singleton_eq. Qed.
Lemma demo_tables : state_table previous_state (lit "t") = table_of before ∧ state_table next_state (lit "t") = table_of after.
Proof.
  unfold state_table, previous_state, next_state. rewrite !state_segment. split; f_equal; apply demo_rows.
Qed.
Lemma demo_complete rows : Forall (λ e : RowEntry, length e.2 = length (columns demo_schema)) rows → key_sorted key_cmp rows →
  complete_rows demo_schema (table_of rows).
Proof.
  intros HF Hs q row. unfold table_of, map_get. destruct (get_key_value key_cmp q rows) as [e|] eqn:E; [|done]. intros [= <-].
  apply get_some in E as [He _]; [|apply _|done]. by apply (proj1 (Forall_forall _ _) HF).
Qed.
Lemma demo_same q : member demo_keys q = false → table_of before q = table_of after q.
Proof.
  intros Hm. assert (∀ n, [RBigInt n] ∈ demo_keys → key_cmp q [RBigInt n] ≠ Eq) as Hne.
  { intros n Hn Hq%key_eqb_cmp. rewrite key_eqb_sym in Hq. assert (member demo_keys q = true) by (apply member_elem; eauto). congruence. }
  pose proof (Hne 1 ltac:(set_solver)) as H1. pose proof (Hne 3 ltac:(set_solver)) as H3. pose proof (Hne 4 ltac:(set_solver)) as H4.
  unfold table_of, map_get, before, after, entry. cbn [get_key_value].
  destruct (key_cmp q [RBigInt 1]); [done|done|]. destruct (key_cmp q [RBigInt 2]); [done|done|].
  by destruct (key_cmp q [RBigInt 3]), (key_cmp q [RBigInt 4]).
Qed.
(** The indexes before the transaction are those a rebuild makes. *)
Lemma demo_exact def : def ∈ required_index_definitions demo_schema → kept_exact demo_schema true (state_table previous_state (lit "t")) built def.
Proof.
  rewrite (proj1 demo_tables). destruct (demo_rows ∅) as [[Hw Hc] _]. assert (key_sorted key_cmp before) as Hs by (rewrite <- Hc; apply Hw).
  destruct (rebuild_loop demo_schema (lit "t") before (required_index_definitions demo_schema) ∅) as [[ixs r]|] eqn:E; [|by vm_compute in E].
  assert (snd <$> rebuild_loop demo_schema (lit "t") before (required_index_definitions demo_schema) ∅ = Some (Ok ())) as Er by (by vm_compute).
  rewrite E in Er. injection Er as ->. assert (built = ixs) as ->.
  { unfold built, rebuild_indexes, bare. rewrite state_segment. cbn [st_schemas state_of]. rewrite lookup_singleton_eq.
    change (rows_iter (seg_rows (segment_of before ∅))) with (rows_contents (seg_rows (segment_of before ∅))). rewrite Hc, E.
    cbn [mbind option_bind]. unfold set_indexes. cbn [st_segments]. by rewrite lookup_insert_eq. }
  eapply rebuilt_exact; [reflexivity|done|apply demo_complete; [by repeat constructor|done]|by vm_compute|exact E].
Qed.

Lemma index_refresh_exact_witness :
  ∃ ixs, refresh_indexes_for_keys previous_state next_state (lit "t") demo_keys true = Some (set_indexes (lit "t") (segment_of after built) ixs next_state, Ok ()) ∧
    ∀ def, def ∈ required_index_definitions demo_schema → kept_exact demo_schema true (state_table next_state (lit "t")) ixs def.
Proof.
  destruct demo_tables as [Tp Tn]. destruct (demo_rows built) as [[Hwb Hcb] [Hwa Hca]].
  destruct (index_refresh_exact previous_state next_state (lit "t") demo_schema (segment_of after built) demo_keys true) as (ixs & r & E & Hm & _).
  - apply lookup_singleton_eq.
  - apply state_segment.
  - reflexivity.
  - intros segment E. unfold previous_state in E. rewrite state_segment in E. by injection E as <-.
  - intros segment E. unfold next_state in E. rewrite state_segment in E. by injection E as <-.
  - rewrite Tp. apply demo_complete; [by repeat constructor|rewrite <- Hcb; apply Hwb].
  - rewrite Tn. apply demo_complete; [by repeat constructor|rewrite <- Hca; apply Hwa].
  - intros q Hq. rewrite Tp, Tn. by apply demo_same.
  - apply demo_exact.
  - assert (map_Forall (λ _ pages, multimap_count (index_contents pages) + zlen demo_keys < usize_max) built) as HF; [|exact HF].
    apply (bool_decide_unpack _). by vm_compute.
  - rewrite Hca. by vm_compute.
  - pose proof demo_refreshed as Hr. rewrite E in Hr. injection Hr as ->. exists ixs. by split.
Defined.
End MaintenanceDemo.
