(* ===== verification/ForeignKeys.v ===== *)
(** The validation of foreign keys in crates/storage/src/relational.rs: of a
    whole state ([validate_foreign_keys]) and of the changes of a transaction
    ([validate_foreign_keys_incremental]).

    Modelled for [allocations = None]; [None] is a panic. *)
From stdpp Require Import sorting.
From S2P Require Import Prelude Text Ordering Decimal RelationalValue OrderedKey BTreeMap Pages IndexRange RelationalIndex.
From S2P Require Import RelationalIndexSpec Values Numeric RelationalSchema PrimaryKeyRange ResidentRows ResidentRowsSpec MutationRows.
From S2P Require Import IndexMaintenance.

(** A check on every element, up to the first error or panic. *)
Fixpoint try_each {A} (f : A → option (result () RelationalError)) (l : list A) : option (result () RelationalError) :=
  match l with
  | [] => Some (Ok ())
  | x :: l => try_bind (f x) (λ _, try_each f l)
  end.

(** [BTreeMap<String, _>] iterates in the order of the names. *)
Definition name_le (a b : bytes * RelationalTableSchema) : Prop := list_cmp Z.compare a.1 b.1 ≠ Gt.
#[export] Instance name_le_dec a b : Decision (name_le a b).
Proof. unfold name_le. solve_decision. Defined.
Definition ordered_schemas (st : RelationalState) : list (bytes * RelationalTableSchema) :=
  merge_sort name_le (map_to_list (st_schemas st)).

(** [RelationalState::row] and [index_lookup]. *)
Definition state_row (st : RelationalState) (table : bytes) (key : RelationalKey) : option (option RelationalRow) :=
  match st_segments st !! table with None => Some None | Some segment => rows_get key (seg_rows segment) end.
Definition index_lookup (st : RelationalState) (table index : bytes) (key : RelationalKey) : option RelationalKeySetPages :=
  segment ← st_segments st !! table; postings ← seg_indexes segment !! index; index_get key postings.

Definition fk_schema_error (format : string) (args : list bytes) : option (result () RelationalError) :=
  Some (Err (Schema (Formatted format args))).
Definition no_target (table referenced : bytes) : RelationalError :=
  Constraint (Formatted "foreign key from {table} to {} has no visible target" [table; referenced]).
Definition unknown_referenced (fk : RelationalForeignKeySchema) : RelationalError :=
  Schema (Formatted "foreign key references unknown table {}" [fk_referenced_table fk]).

(** ** Shape *)

Definition same_types (table : bytes) (s rs : RelationalTableSchema) (fk : RelationalForeignKeySchema) (local referenced : list nat)
    : option (result () RelationalError) :=
  try_each (λ lr, column ← columns s !! lr.1; target ← columns rs !! lr.2;
    if bool_decide (column_type column = column_type target) then Some (Ok ())
    else fk_schema_error "foreign key from {table} to {} has incompatible column types" [table; fk_referenced_table fk])
    (zip local referenced).
Definition validate_foreign_key_shape (table : bytes) (s : RelationalTableSchema) (fk : RelationalForeignKeySchema)
    (rs : RelationalTableSchema) (local referenced : list nat) : option (result () RelationalError) :=
  let cs := fk_referenced_columns fk in
  if bool_decide (cs = primary_key rs) || existsb (λ candidate, bool_decide (candidate = cs)) (unique_constraints rs)
     || existsb (λ index, ix_unique index && bool_decide (ix_columns index = cs)) (indexes rs)
  then same_types table s rs fk local referenced
  else fk_schema_error "foreign key from {table} must reference a primary or unique key on {}" [table; fk_referenced_table fk].

(** ** The whole state *)

Definition validate_foreign_key (st : RelationalState) (table : bytes) (s : RelationalTableSchema) (segment : RelationalTableSegment)
    (fk : RelationalForeignKeySchema) : option (result () RelationalError) :=
  try_bind (Some (column_positions s (fk_columns fk))) (λ local,
  match st_schemas st !! fk_referenced_table fk with
  | None => Some (Err (unknown_referenced fk))
  | Some rs =>
      try_bind (Some (column_positions rs (fk_referenced_columns fk))) (λ referenced,
      match unique_index_definition rs (fk_referenced_columns fk) with
      | None => fk_schema_error "foreign key from {table} must reference a primary or unique key on {}" [table; fk_referenced_table fk]
      | Some _ =>
          try_bind (same_types table s rs fk local referenced) (λ _,
          match st_segments st !! fk_referenced_table fk with
          | None => fk_schema_error "missing row segment for table {}" [fk_referenced_table fk]
          | Some referenced_rows =>
              referenced_keys ← mapM (λ row, row_key row referenced) (rows_values (seg_rows referenced_rows));
              try_each (λ row,
                key ← row_key row local;
                if key_has_null key || existsb (λ k, match key_cmp k key with Eq => true | _ => false end) referenced_keys
                then Some (Ok ()) else Some (Err (no_target table (fk_referenced_table fk))))
                (rows_values (seg_rows segment))
          end)
      end)
  end).
Definition validate_foreign_keys (st : RelationalState) : option (result () RelationalError) :=
  try_each (λ ts,
    match st_segments st !! ts.1 with
    | None => Some (Ok ())
    | Some segment => try_each (validate_foreign_key st ts.1 ts.2 segment) (foreign_keys ts.2)
    end) (ordered_schemas st).

(** ** The changes of a transaction *)

Definition foreign_key_target_exists (st : RelationalState) (fk : RelationalForeignKeySchema) (key : RelationalKey)
    : option (result bool RelationalError) :=
  match st_schemas st !! fk_referenced_table fk with
  | None => Some (Err (unknown_referenced fk))
  | Some rs =>
      match unique_index_definition rs (fk_referenced_columns fk) with
      | None => Some (Err (Schema (Formatted "foreign key references non-unique columns on {}" [fk_referenced_table fk])))
      | Some definition =>
          if bool_decide (def_role definition = Primary)
          then row ← state_row st (fk_referenced_table fk) key; Some (Ok (match row with Some _ => true | None => false end))
          else Some (Ok (match index_lookup st (fk_referenced_table fk) (def_name definition) key with
                         | Some postings => negb (set_is_empty postings)
                         | None => false
                         end))
      end
  end.
Definition validate_foreign_key_row (st : RelationalState) (table : bytes) (row : RelationalRow) (fk : RelationalForeignKeySchema)
    (local : list nat) : option (result () RelationalError) :=
  key ← row_key row local;
  if key_has_null key then Some (Ok ())
  else try_bind (foreign_key_target_exists st fk key) (λ found,
         if found : bool then Some (Ok ()) else Some (Err (no_target table (fk_referenced_table fk)))).

(** [all] stops at the first value that differs. *)
Fixpoint row_matches_values (row : RelationalRow) (positions : list nat) (key : RelationalKey) : option bool :=
  match positions, key with
  | position :: positions, v :: key =>
      w ← row !! position; if value_eqb w v then row_matches_values row positions key else Some false
  | _, _ => Some true
  end.
Definition row_matches_key (row : RelationalRow) (positions : list nat) (key : RelationalKey) : option bool :=
  if (length positions =? length key)%nat then row_matches_values row positions key else Some false.
(** The scan for a row that refers to a target. *)
Fixpoint referenced_by (rows : list RelationalRow) (local : list nat) (target : RelationalKey) : option bool :=
  match rows with
  | [] => Some false
  | row :: rows =>
      referenced ← (if key_has_null target then Some false else row_matches_key row local target);
      if referenced : bool then Some true else referenced_by rows local target
  end.

Section Incremental.
Context (previous next : RelationalState) (changed_keys : gmap bytes (list RelationalKey)) (full : gset bytes).

(** The rows of the table itself: all of them, or those under changed keys. *)
Definition validate_changed_rows (table : bytes) (segment : RelationalTableSegment) (fk : RelationalForeignKeySchema) (local : list nat)
    : option (result () RelationalError) :=
  if bool_decide (table ∈ full)
  then try_each (λ row, validate_foreign_key_row next table row fk local) (rows_values (seg_rows segment))
  else match changed_keys !! table with
       | None => Some (Ok ())
       | Some keys =>
           try_each (λ key,
             row ← rows_get key (seg_rows segment);
             match row with Some row => validate_foreign_key_row next table row fk local | None => Some (Ok ()) end) keys
       end.
(** The targets that were changed or removed. *)
Definition validate_removed_target (table : bytes) (segment : RelationalTableSegment) (fk : RelationalForeignKeySchema)
    (local referenced : list nat) (changed_key : RelationalKey) : option (result () RelationalError) :=
  previous_row ← state_row previous (fk_referenced_table fk) changed_key;
  match previous_row with
  | None => Some (Ok ())
  | Some previous_row =>
      previous_target ← row_key previous_row referenced;
      try_bind (foreign_key_target_exists next fk previous_target) (λ found,
      if found : bool then Some (Ok ())
      else
        is_referenced ← referenced_by (rows_values (seg_rows segment)) local previous_target;
        if is_referenced : bool
        then Some (Err (Constraint (Formatted "foreign key from {table} to {} prevents removing a visible target"
                                      [table; fk_referenced_table fk])))
        else Some (Ok ()))
  end.
Definition validate_foreign_key_incremental (table : bytes) (s : RelationalTableSchema) (segment : RelationalTableSegment)
    (fk : RelationalForeignKeySchema) : option (result () RelationalError) :=
  try_bind (Some (column_positions s (fk_columns fk))) (λ local,
  match st_schemas next !! fk_referenced_table fk with
  | None => Some (Err (unknown_referenced fk))
  | Some rs =>
      try_bind (Some (column_positions rs (fk_referenced_columns fk))) (λ referenced,
      try_bind (validate_foreign_key_shape table s fk rs local referenced) (λ _,
      try_bind (validate_changed_rows table segment fk local) (λ _,
      match changed_keys !! fk_referenced_table fk with
      | None => Some (Ok ())
      | Some referenced_changes => try_each (validate_removed_target table segment fk local referenced) referenced_changes
      end)))
  end).
Definition validate_foreign_keys_incremental : option (result () RelationalError) :=
  try_each (λ ts,
    match st_segments next !! ts.1 with
    | None => Some (Ok ())
    | Some segment => try_each (validate_foreign_key_incremental ts.1 ts.2 segment) (foreign_keys ts.2)
    end) (ordered_schemas next).
End Incremental.

(** ** Helpers *)

Lemma try_each_total {A} (f : A → option (result () RelationalError)) l : (∀ x, x ∈ l → ∃ r, f x = Some r) →
  ∃ r, try_each f l = Some r ∧ (r = Ok () ↔ ∀ x, x ∈ l → f x = Some (Ok ())).
Proof.
  induction l as [|x l IH]; intros Hf; cbn [try_each].
  { exists (Ok ()). split; [done|]. split; [by intros _ x ?%elem_of_nil|done]. }
  destruct (Hf x (list_elem_of_here _ _)) as [r Er]. rewrite Er.
  destruct (IH (λ y Hy, Hf y (list_elem_of_further _ _ _ Hy))) as (r' & Er' & Hr'). destruct r as [[]|e]; cbn [try_bind].
  - exists r'. split; [done|]. rewrite Hr'. split; [intros H y [-> | Hy]%elem_of_cons; auto|]. intros H y Hy. apply H. by apply list_elem_of_further.
  - exists (Err e). split; [done|]. split; [done|]. intros H. specialize (H x (list_elem_of_here _ _)). congruence.
Qed.
(** A check that does not panic and passes exactly when [P] holds. *)
Definition checks (o : option (result () RelationalError)) (P : Prop) : Prop := ∃ r, o = Some r ∧ (r = Ok () ↔ P).
Lemma checks_iff o P : checks o P → o = Some (Ok ()) ↔ P.
Proof. intros (r & -> & H). rewrite <- H. naive_solver. Qed.
Lemma checks_each {A} (f : A → option (result () RelationalError)) (P : A → Prop) l : (∀ x, x ∈ l → checks (f x) (P x)) →
  checks (try_each f l) (∀ x, x ∈ l → P x).
Proof.
  intros Hf. destruct (try_each_total f l) as (r & E & Hr); [intros x Hx; destruct (Hf x Hx) as (r & E & _); eauto|].
  exists r. split; [done|]. rewrite Hr. split; intros H x Hx; apply (checks_iff (f x) (P x)); auto.
Qed.
Lemma checks_bind {A} (m : option (result A RelationalError)) (k : A → option (result () RelationalError)) a P :
  m = Some (Ok a) → checks (k a) P → checks (try_bind m k) P.
Proof. by intros ->. Qed.
Lemma checks_then m k P Q : checks m P → (P → checks (k ()) Q) → checks (try_bind m k) (P ∧ Q).
Proof.
  intros (r & -> & Hr) Hk. destruct r as [[]|e]; cbn [try_bind].
  - assert P as HP by (by apply Hr). destruct (Hk HP) as (r' & E & H'). exists r'. split; [done|]. rewrite H'. tauto.
  - exists (Err e). split; [done|]. split; [done|]. intros [HP _]. by apply Hr in HP.
Qed.
Lemma checks_ext o P Q : (P ↔ Q) → checks o P → checks o Q.
Proof. intros HPQ (r & E & H). exists r. split; [done|]. by rewrite H. Qed.

Lemma elem_of_schemas st table s : (table, s) ∈ ordered_schemas st ↔ st_schemas st !! table = Some s.
Proof. unfold ordered_schemas. rewrite (merge_sort_Permutation name_le). apply elem_of_map_to_list. Qed.

(** Equal keys have their NULLs in the same places. *)
Lemma value_null v w : value_cmp v w = Eq → is_rnull v = is_rnull w.
Proof. intros H%value_cmp_kind. destruct v, w; done. Qed.
Lemma key_null_eq a b : key_eqb a b = true → key_has_null a = key_has_null b.
Proof.
  unfold key_has_null. revert b; induction a as [|v a IH]; intros [|w b]; try done. cbn [key_eqb existsb]. intros [Hv H]%andb_true_iff.
  rewrite (IH b H). unfold value_eqb in Hv. rewrite (value_null v w); [done|]. by destruct (value_cmp v w).
Qed.

Lemma matches_key row positions target k : row_key row positions = Some k → row_matches_key row positions target = Some (key_eqb k target).
Proof.
  unfold row_matches_key, row_key. revert target k. induction positions as [|i positions IH]; intros target k; cbn [mapM].
  { intros [= <-]. by destruct target. }
  intros H. destruct (row !! i) as [w|] eqn:Ew; [|done]. cbn [mbind option_bind] in H. destruct (mapM _ positions) as [k'|] eqn:Ek; [|done].
  injection H as <-. destruct target as [|v target]; [done|]. cbn [length key_eqb Nat.eqb row_matches_values].
  assert (∀ B (f : RelationalValue → option B), mbind f (row !! i) = f w) as Hw by (intros B f; by rewrite Ew).
  specialize (IH target k' eq_refl). destruct (length positions =? length target)%nat eqn:El.
  - cbn [row_matches_values]. rewrite Hw. destruct (value_eqb w v); [exact IH|done].
  - injection IH as <-. by rewrite andb_false_r.
Qed.

(** ** References *)

Section Spec.
Context `{TR : TimestampRange} `{L : RowLayout}.
Implicit Types (st : RelationalState) (table : bytes) (s rs : RelationalTableSchema) (fk : RelationalForeignKeySchema).

(** A row of the table has this key. *)
Definition target_in (R : Table) (positions : list nat) (k : RelationalKey) : Prop :=
  ∃ q row rk, R q = Some row ∧ row_key row positions = Some rk ∧ key_eqb rk k = true.
(** Every row refers to a row, unless its key has a NULL. *)
Definition rows_refer (R Rref : Table) (local referenced : list nat) : Prop :=
  ∀ q row k, R q = Some row → row_key row local = Some k → key_has_null k = false → target_in Rref referenced k.
Definition reference_holds st table s fk : Prop :=
  ∃ rs local referenced, st_schemas st !! fk_referenced_table fk = Some rs ∧
    column_positions s (fk_columns fk) = Ok local ∧ column_positions rs (fk_referenced_columns fk) = Ok referenced ∧
    unique_index_definition rs (fk_referenced_columns fk) ≠ None ∧ same_types table s rs fk local referenced = Some (Ok ()) ∧
    rows_refer (state_table st table) (state_table st (fk_referenced_table fk)) local referenced.
Definition references_hold st : Prop :=
  ∀ table s fk, st_schemas st !! table = Some s → fk ∈ foreign_keys s → reference_holds st table s fk.

(** Rows are stored under their primary keys. *)
Definition keyed_table s (R : Table) : Prop := primary_key s ≠ [] → ∀ q row, R q = Some row →
  ∃ positions rk, column_positions s (primary_key s) = Ok positions ∧ row_key row positions = Some rk ∧ key_eqb q rk = true.
(** A consistent state: valid schemas, each with its rows and exact indexes. *)
Record state_ok st : Prop := {
  so_schema : ∀ table s, st_schemas st !! table = Some s → validate_table_schema s = Ok ();
  so_none : ∀ table, st_schemas st !! table = None → st_segments st !! table = None;
  so_segment : ∀ table s, st_schemas st !! table = Some s → ∃ segment, st_segments st !! table = Some segment ∧
    rows_wf (seg_rows segment) ∧ complete_rows s (state_table st table) ∧ keyed_table s (state_table st table) ∧
    ∀ def, def ∈ required_index_definitions s → kept_exact s true (state_table st table) (seg_indexes segment) def;
}.

Lemma state_row_ok st table key : state_ok st → state_row st table key = Some (state_table st table key).
Proof.
  intros Hst. unfold state_row, state_table. destruct (st_segments st !! table) as [segment|] eqn:E; [|done].
  destruct (st_schemas st !! table) as [s|] eqn:Es; [|by rewrite (so_none _ Hst table Es) in E].
  destruct (so_segment _ Hst table s Es) as (segment' & E' & Hw & _). rewrite E in E'. injection E' as <-. by apply rows_get_ok.
Qed.
(** The rows of a segment are the values of its table. *)
Lemma elem_of_values st table segment row : st_segments st !! table = Some segment → rows_wf (seg_rows segment) →
  row ∈ rows_values (seg_rows segment) ↔ ∃ q, state_table st table q = Some row.
Proof.
  intros E Hw. assert (key_sorted key_cmp (rows_contents (seg_rows segment))) as Hs by apply Hw.
  unfold rows_values, state_table. rewrite E. unfold table_of, map_get. change (rows_iter (seg_rows segment)) with (rows_contents (seg_rows segment)).
  rewrite list_elem_of_fmap. split.
  - intros (e & -> & He). exists e.1. by rewrite (proj2 (get_some key_cmp e.1 _ e Hs)) by (split; [done|apply (ord_refl key_cmp)]).
  - intros (q & Hq). destruct (get_key_value key_cmp q _) as [e|] eqn:Eg; [|done]. injection Hq as <-. apply get_some in Eg as [He _]; [|apply _|done].
    by exists e.
Qed.

Lemma position_existsb {A} (f : A → bool) l : existsb f l = match position f l with Some _ => true | None => false end.
Proof. induction l as [|x l IH]; [done|]. cbn. destruct (f x); [done|]. rewrite IH. by destruct (position f l). Qed.
Lemma head_existsb {A} (f : A → bool) l : existsb f l = match head (List.filter f l) with Some _ => true | None => false end.
Proof. induction l as [|x l IH]; [done|]. cbn. by destruct (f x). Qed.

(** The definition found for unique columns is one of the required indexes. *)
Lemma unique_definition_required rs cs def : unique_index_definition rs cs = Some def →
  def ∈ required_index_definitions rs ∧ def_columns def = cs ∧ is_unique (def_role def) = true ∧ (def_role def = Primary → cs = primary_key rs ∧ cs ≠ []).
Proof.
  unfold unique_index_definition, required_index_definitions. rewrite !elem_of_app. destruct (negb _ && _) eqn:Ep.
  - apply andb_true_iff in Ep as [Hn%negb_true_iff%bool_decide_eq_false ->%bool_decide_eq_true]. intros [= <-].
    split_and!; [|done|done|done]. left. destruct (primary_key rs); [done|apply list_elem_of_here].
  - destruct (position _ (unique_constraints rs)) as [i|] eqn:Ei.
    + apply position_bound in Ei as (x & Hx & ->%bool_decide_eq_true). intros [= <-]. split_and!; [|done|done|done].
      right. left. apply elem_of_lookup_imap. by exists i, cs.
    + destruct (head (List.filter _ (indexes rs))) as [index|] eqn:Eh; [|done]. intros [= <-].
      assert (index ∈ List.filter (λ index, ix_unique index && bool_decide (ix_columns index = cs)) (indexes rs)) as Hin.
      { destruct (List.filter _ _); [done|]. injection Eh as ->. apply list_elem_of_here. }
      apply list_elem_of_In, List.filter_In in Hin as [Hin [Hu Hc%bool_decide_eq_true]%andb_true_iff]. split_and!; [|done|done|done].
      right. right. left. apply list_elem_of_fmap. exists index. rewrite Hu. split; [done|]. by apply list_elem_of_In.
Qed.
(** The two tests for a unique key agree on non-empty columns. *)
Lemma references_unique rs cs : cs ≠ [] →
  bool_decide (cs = primary_key rs) || existsb (λ candidate, bool_decide (candidate = cs)) (unique_constraints rs)
    || existsb (λ index, ix_unique index && bool_decide (ix_columns index = cs)) (indexes rs) =
  match unique_index_definition rs cs with Some _ => true | None => false end.
Proof.
  intros Hne. unfold unique_index_definition. rewrite (bool_decide_eq_false_2 (cs = [])) by done. cbn [negb andb].
  destruct (bool_decide (cs = primary_key rs)); [done|]. cbn [orb]. rewrite position_existsb, head_existsb.
  destruct (position _ _); [done|]. cbn [orb]. by destruct (head _).
Qed.

(** Looking a target up finds it exactly when a row has the key. *)
Lemma target_exists_ok st fk rs referenced k : state_ok st → st_schemas st !! fk_referenced_table fk = Some rs →
  column_positions rs (fk_referenced_columns fk) = Ok referenced → unique_index_definition rs (fk_referenced_columns fk) ≠ None →
  ∃ b, foreign_key_target_exists st fk k = Some (Ok b) ∧
    (key_has_null k = false → b = true ↔ target_in (state_table st (fk_referenced_table fk)) referenced k).
Proof.
  intros Hst Ers Epos Hu. unfold foreign_key_target_exists. rewrite Ers. destruct (unique_index_definition _ _) as [def|] eqn:Ed; [|done].
  apply unique_definition_required in Ed as (Hreq & Ecs & Huniq & Hprim).
  destruct (so_segment _ Hst _ rs Ers) as (segment & Eseg & Hw & _ & Hkeyed & Hex). set (R := state_table st (fk_referenced_table fk)) in *.
  case_bool_decide as Hrole.
  - destruct (Hprim Hrole) as [Epk Hne]. rewrite state_row_ok by done. cbn [mbind option_bind]. eexists. split; [done|]. intros _.
    assert (∀ q row rk, R q = Some row → row_key row referenced = Some rk → key_eqb q rk = true) as Hk.
    { intros q row rk Hq Hrk. rewrite Epk in *. destruct (Hkeyed Hne q row Hq) as (ps & rk' & Eps & Erk & Heq).
      rewrite Epos in Eps. injection Eps as <-. rewrite Hrk in Erk. by injection Erk as <-. }
    fold R. split.
    + destruct (R k) as [row|] eqn:Er; [|done]. intros _. destruct (Hkeyed ltac:(by rewrite <- Epk) k row Er) as (ps & rk & Eps & Erk & Heq).
      rewrite <- Epk, Epos in Eps. injection Eps as <-. exists k, row, rk. split_and!; [done|done|by rewrite key_eqb_sym].
    + intros (q & row & rk & Hq & Hrk & Heq). pose proof (Hk q row rk Hq Hrk) as Hqr. assert (key_eqb q k = true) as Hqk.
      { by rewrite (key_eqb_l q rk k Hqr). }
      pose proof (state_respects st (fk_referenced_table fk) q k Hqk) as Hr. fold R in Hr. by rewrite <- Hr, Hq.
  - eexists. split; [done|]. intros Hnull. destruct (Hex def Hreq) as [|(ps & pages & Eps & Ei & He & _)]; [done|].
    rewrite Ecs, Epos in Eps. injection Eps as <-. unfold index_lookup. rewrite Eseg. cbn [mbind option_bind]. rewrite Ei. cbn [mbind option_bind].
    rewrite (nonempty_spec def referenced R k pages He). unfold target_in, posted. split.
    + intros (q & Hq). destruct (R q) as [row|] eqn:Er; [|done]. cbn [mbind option_bind] in Hq. destruct (row_key row referenced) as [rk|] eqn:Erk; [|done].
      apply andb_true_iff in Hq as [_ Hq]. by exists q, row, rk.
    + intros (q & row & rk & Hq & Hrk & Heq). exists q. rewrite Hq. cbn [mbind option_bind]. rewrite Hrk, Heq, andb_true_r, skipped_enters.
      unfold skipped. by rewrite (key_null_eq rk k Heq), Hnull, andb_false_r.
Qed.

(** ** One foreign key *)

(** What a valid schema says of its foreign keys. *)
Lemma schema_fk_shape s fk : validate_table_schema s = Ok () → fk ∈ foreign_keys s →
  (∃ local, column_positions s (fk_columns fk) = Ok local) ∧ fk_referenced_columns fk ≠ [].
Proof.
  intros Hv Hfk. revert Hv. unfold validate_table_schema.
  destruct (match materialized_view s with Some _ => _ | None => _ end); [done|]. destruct (bool_decide _ || _); [done|].
  intros ([] & _ & ([] & _ & ([] & _ & ([] & _ & ([] & Hf & _)%result_bind_ok)%result_bind_ok)%result_bind_ok)%result_bind_ok)%result_bind_ok.
  rewrite for_each_ok in Hf. specialize (Hf fk Hfk). apply result_bind_ok in Hf as ([] & Hc & Hf). split; [by eapply list_found|].
  destruct (negb _ || _) eqn:E; [done|]. apply orb_false_iff in E as [E1%negb_false_iff%Z.eqb_eq E2%bool_decide_eq_false].
  intros En. rewrite En in E1. destruct (fk_columns fk) as [|c cs]; [done|]. rewrite zlen_cons in E1. pose proof (zlen_nonneg cs). change (zlen []) with 0 in E1. lia.
Qed.

Section Key.
Context (st : RelationalState) (table : bytes) (s : RelationalTableSchema) (fk : RelationalForeignKeySchema).
Context (Hst : state_ok st) (Es : st_schemas st !! table = Some s) (Hfk : fk ∈ foreign_keys s).

Lemma fk_shape : (∃ local, column_positions s (fk_columns fk) = Ok local) ∧ fk_referenced_columns fk ≠ [].
Proof using Hst Es Hfk. apply schema_fk_shape; [by apply (so_schema _ Hst table)|done]. Qed.
(** Positions lie within the columns. *)
Lemma positions_bound s' cs ps : column_positions s' cs = Ok ps → Forall (λ i, (i < length (columns s'))%nat) ps.
Proof using.
  revert ps; induction cs as [|c cs IH]; intros ps; cbn [column_positions]; [by intros [= <-]|].
  destruct (column_position s' c) as [i|] eqn:Ei; [|done]. intros (ps' & Eps & [= <-])%result_bind_ok. constructor; [|by apply IH].
  apply position_bound in Ei as (x & Hx & _). by eapply lookup_lt_Some.
Qed.
Lemma same_types_checks rs local referenced : column_positions s (fk_columns fk) = Ok local → column_positions rs (fk_referenced_columns fk) = Ok referenced →
  checks (same_types table s rs fk local referenced) (same_types table s rs fk local referenced = Some (Ok ())).
Proof using.
  intros El Er. destruct (try_each_total (λ lr : nat * nat, column ← columns s !! lr.1; target ← columns rs !! lr.2;
    if bool_decide (column_type column = column_type target) then Some (Ok ())
    else fk_schema_error "foreign key from {table} to {} has incompatible column types" [table; fk_referenced_table fk]) (zip local referenced)) as (r & E & Hr).
  - intros [l r] Hin. pose proof (positions_bound s _ _ El) as Hl. pose proof (positions_bound rs _ _ Er) as Hrr. rewrite Forall_forall in Hl, Hrr.
    apply elem_of_zip_l in Hin as H1. apply elem_of_zip_r in Hin as H2. cbn [fst snd].
    destruct (lookup_lt_is_Some_2 _ _ (Hl l H1)) as [c ->]. cbn [mbind option_bind]. destruct (lookup_lt_is_Some_2 _ _ (Hrr r H2)) as [d ->].
    cbn [mbind option_bind]. case_bool_decide; by eexists.
  - exists r. fold (same_types table s rs fk local referenced) in E. split; [done|]. rewrite E. naive_solver.
Qed.

(** The segment of the table and of the referenced one. *)
Lemma table_segment : ∃ segment, st_segments st !! table = Some segment ∧ rows_wf (seg_rows segment) ∧ complete_rows s (state_table st table).
Proof using Hst Es. destruct (so_segment _ Hst table s Es) as (segment & E & Hw & Hc & _). by exists segment. Qed.

Lemma checks_row row local rs referenced k : row_key row local = Some k →
  st_schemas st !! fk_referenced_table fk = Some rs → column_positions rs (fk_referenced_columns fk) = Ok referenced →
  unique_index_definition rs (fk_referenced_columns fk) ≠ None →
  checks (validate_foreign_key_row st table row fk local)
    (key_has_null k = false → target_in (state_table st (fk_referenced_table fk)) referenced k).
Proof using Hst.
  intros Ek Ers Epos Hu. unfold validate_foreign_key_row. rewrite Ek. cbn [mbind option_bind].
  destruct (key_has_null k) eqn:En; [by exists (Ok ())|]. destruct (target_exists_ok st fk rs referenced k Hst Ers Epos Hu) as (b & -> & Hb).
  specialize (Hb En). cbn [try_bind]. destruct b.
  - exists (Ok ()). split; [done|]. split; [|done]. intros _ _. by apply Hb.
  - eexists. split; [done|]. split; [done|]. intros H. specialize (H eq_refl). by apply Hb in H.
Qed.

(** The check of the whole state. *)
Lemma full_checks segment : st_segments st !! table = Some segment →
  checks (validate_foreign_key st table s segment fk) (reference_holds st table s fk).
Proof using Hst Es Hfk.
  intros Eseg. destruct fk_shape as [[local El] Hne]. destruct table_segment as (segment' & Eseg' & Hw & Hcomp).
  rewrite Eseg in Eseg'. injection Eseg' as <-. unfold validate_foreign_key, reference_holds. rewrite El. cbn [try_bind].
  destruct (st_schemas st !! fk_referenced_table fk) as [rs|] eqn:Ers; [|eexists; split; [done|]; split; [done|by intros (? & ? & ? & ? & _)]].
  destruct (column_positions rs (fk_referenced_columns fk)) as [referenced|e] eqn:Er; cbn [try_bind].
  2: { eexists. split; [done|]. split; [done|]. intros (rs' & ? & ? & [= <-] & _ & Er' & _). congruence. }
  destruct (unique_index_definition rs (fk_referenced_columns fk)) as [def|] eqn:Ed.
  2: { eexists. split; [done|]. split; [done|]. intros (rs' & ? & ? & [= <-] & _ & _ & Hn & _). congruence. }
  destruct (so_segment _ Hst _ rs Ers) as (rseg & Erseg & Hrw & Hrcomp & _). rewrite Erseg.
  eapply (checks_ext _ (same_types table s rs fk local referenced = Some (Ok ()) ∧
    rows_refer (state_table st table) (state_table st (fk_referenced_table fk)) local referenced)).
  { split.
    - intros [Ht Hrr]. exists rs, local, referenced. split_and!; try done. by rewrite Ed.
    - intros (rs' & l' & r' & [= <-] & El' & Er' & _ & Ht & Hrr). rewrite Er in Er'. injection Er' as <-. injection El' as <-. done. }
  apply checks_then; [by apply same_types_checks|]. intros _.
  assert (∀ row, row ∈ rows_values (seg_rows rseg) → ∃ k, row_key row referenced = Some k) as Hrkeys.
  { intros row (q & Hq)%(elem_of_values st _ rseg row Erseg Hrw). exact (complete_keyed rs _ _ _ Er Hrcomp q row Hq). }
  destruct (mapM (λ row, row_key row referenced) (rows_values (seg_rows rseg))) as [keys|] eqn:Ekeys.
  2: { apply mapM_None_1 in Ekeys. apply Exists_exists in Ekeys as (row & Hin & Hn). destruct (Hrkeys row Hin) as [k Hk]. congruence. }
  cbn [mbind option_bind]. apply mapM_Some in Ekeys.
  assert (∀ k, existsb (λ x, match key_cmp x k with Eq => true | _ => false end) keys = true ↔ target_in (state_table st (fk_referenced_table fk)) referenced k) as Hmem.
  { intros k. rewrite List.existsb_exists. split.
    - intros (x & Hx%list_elem_of_In & Hc). apply list_elem_of_lookup in Hx as [i Hi]. destruct (Forall2_lookup_r _ _ _ _ _ Ekeys Hi) as (row & Hrow & Hk).
      apply list_elem_of_lookup_2, (elem_of_values st _ rseg row Erseg Hrw) in Hrow as [q Hq]. exists q, row, x. split_and!; [done|done|].
      rewrite key_eqb_match. by destruct (key_cmp x k).
    - intros (q & row & rk & Hq & Hrk & Heq). assert (row ∈ rows_values (seg_rows rseg)) as Hrow by (apply (elem_of_values st _ rseg row Erseg Hrw); by exists q).
      apply list_elem_of_lookup in Hrow as [i Hi]. destruct (Forall2_lookup_l _ _ _ _ _ Ekeys Hi) as (x & Hx & Hk). exists x.
      split; [by apply list_elem_of_In; eapply list_elem_of_lookup_2|]. rewrite Hrk in Hk. injection Hk as <-. rewrite key_eqb_match in Heq. by destruct (key_cmp rk k). }
  eapply (checks_ext _ (∀ row, row ∈ rows_values (seg_rows segment) → ∀ k, row_key row local = Some k → key_has_null k = false →
    target_in (state_table st (fk_referenced_table fk)) referenced k)).
  { unfold rows_refer. split.
    - intros H q row k Hq Hk Hn. apply (H row); [|done|done]. apply (elem_of_values st table segment row Eseg Hw). by exists q.
    - intros H row (q & Hq)%(elem_of_values st table segment row Eseg Hw) k Hk Hn. by eapply H. }
  apply checks_each. intros row (q & Hq)%(elem_of_values st table segment row Eseg Hw).
  destruct (complete_keyed s _ _ _ El Hcomp q row Hq) as [k Hk]. rewrite Hk. cbn [mbind option_bind]. destruct (key_has_null k || _) eqn:E.
  - exists (Ok ()). split; [done|]. split; [|done]. intros _ k' [= <-] Hn. rewrite Hn in E. by apply Hmem.
  - apply orb_false_iff in E as [En Em]. eexists. split; [done|]. split; [done|]. intros H. specialize (H k eq_refl En). apply Hmem in H. congruence.
Qed.
End Key.

(** The scan of the rows for a target. *)
Lemma referenced_by_ok rows local target : (∀ row, row ∈ rows → ∃ k, row_key row local = Some k) →
  ∃ b, referenced_by rows local target = Some b ∧
    (b = true ↔ key_has_null target = false ∧ ∃ row k, row ∈ rows ∧ row_key row local = Some k ∧ key_eqb k target = true).
Proof.
  induction rows as [|row rows IH]; intros Hk; cbn [referenced_by].
  { exists false. split; [done|]. split; [done|]. by intros (_ & row & k & ?%elem_of_nil & _). }
  destruct (IH ltac:(intros; apply Hk; by apply list_elem_of_further)) as (b & E & Hb). destruct (Hk row (list_elem_of_here _ _)) as [k Ek].
  destruct (key_has_null target) eqn:En; cbn [mbind option_bind].
  - exists b. split; [done|]. rewrite Hb. naive_solver.
  - rewrite (matches_key row local target k Ek). cbn [mbind option_bind]. destruct (key_eqb k target) eqn:Ekt.
    + exists true. split; [done|]. split; [|done]. intros _. split; [done|]. exists row, k. split; [apply list_elem_of_here|done].
    + exists b. split; [done|]. rewrite Hb. split.
      * intros (_ & row' & k' & Hin & H). split; [done|]. exists row', k'. split; [by apply list_elem_of_further|done].
      * intros (_ & row' & k' & [-> | Hin]%elem_of_cons & Hk' & Heq); [congruence|]. split; [done|]. by exists row', k'.
Qed.

(** Positions depend on the columns only. *)
Lemma positions_columns s s' cs ps : columns s' = columns s → column_positions s cs = Ok ps → column_positions s' cs = Ok ps.
Proof.
  intros Hc. revert ps; induction cs as [|c cs IH]; intros ps; cbn [column_positions]; [done|].
  unfold column_position. rewrite Hc. destruct (position _ _) as [i|]; [|done]. intros (ps' & Eps & [= <-])%result_bind_ok. by rewrite (IH ps' Eps).
Qed.

Section Changes.
Context (previous next : RelationalState) (changed_keys : gmap bytes (list RelationalKey)) (full : gset bytes).
Context (Hp : state_ok previous) (Hn : state_ok next) (Hrefs : references_hold previous).
Context (Hcols : ∀ table s s', st_schemas next !! table = Some s → st_schemas previous !! table = Some s' → columns s' = columns s).
Context (Hfull : ∀ table s, st_schemas next !! table = Some s → table ∉ full → st_schemas previous !! table = Some s).
Context (Hsame : ∀ table q, member (default [] (changed_keys !! table)) q = false → state_table previous table q = state_table next table q).

(** Previous rows have the shape of the next schema. *)
Lemma previous_complete table s : st_schemas next !! table = Some s → complete_rows s (state_table previous table).
Proof using Hp Hcols.
  intros Es q row Hq. destruct (st_schemas previous !! table) as [s'|] eqn:Es'.
  - destruct (so_segment _ Hp table s' Es') as (_ & _ & _ & Hc & _). rewrite (Hc q row Hq). by rewrite (Hcols table s s' Es Es').
  - unfold state_table in Hq. by rewrite (so_none _ Hp table Es') in Hq.
Qed.

Context (table : bytes) (s : RelationalTableSchema) (fk : RelationalForeignKeySchema) (segment : RelationalTableSegment).
Context (Es : st_schemas next !! table = Some s) (Hfk : fk ∈ foreign_keys s) (Eseg : st_segments next !! table = Some segment).
Context (rs : RelationalTableSchema) (local referenced : list nat).
Context (Ers : st_schemas next !! fk_referenced_table fk = Some rs) (El : column_positions s (fk_columns fk) = Ok local).
Context (Er : column_positions rs (fk_referenced_columns fk) = Ok referenced) (Hu : unique_index_definition rs (fk_referenced_columns fk) ≠ None).

Abbreviation R := (state_table next table).
Abbreviation Rref := (state_table next (fk_referenced_table fk)).

Lemma local_keyed q row : R q = Some row → ∃ k, row_key row local = Some k.
Proof using Hn Es El.
  intros Hq. destruct (so_segment _ Hn table s Es) as (_ & _ & _ & Hc & _). exact (complete_keyed s _ _ _ El Hc q row Hq).
Qed.
Lemma segment_wf : rows_wf (seg_rows segment).
Proof using Hn Es Eseg. destruct (so_segment _ Hn table s Es) as (segment' & E & Hw & _). rewrite Eseg in E. by injection E as <-. Qed.

(** Rows of the table that are looked at refer to a row. *)
Definition changed_refer : Prop :=
  ∀ q row k, R q = Some row → table ∈ full ∨ member (default [] (changed_keys !! table)) q = true →
    row_key row local = Some k → key_has_null k = false → target_in Rref referenced k.
Lemma changed_rows_checks : checks (validate_changed_rows next changed_keys full table segment fk local) changed_refer.
Proof using Hn Es Eseg Ers El Er Hu.
  pose proof segment_wf as Hw. unfold validate_changed_rows. case_bool_decide as Hf.
  - eapply (checks_ext _ (∀ row, row ∈ rows_values (seg_rows segment) → ∀ k, row_key row local = Some k → key_has_null k = false → target_in Rref referenced k)).
    { split.
      - intros H q row k Hq _ Hk Hnull. apply (H row); [|done|done]. apply (elem_of_values next table segment row Eseg Hw). by exists q.
      - intros H row (q & Hq)%(elem_of_values next table segment row Eseg Hw) k Hk Hnull. eapply (H q row k); auto. }
    apply checks_each. intros row (q & Hq)%(elem_of_values next table segment row Eseg Hw). destruct (local_keyed q row Hq) as [k Hk].
    eapply checks_ext; [|by eapply (checks_row next table fk Hn row local rs referenced k)]. naive_solver.
  - destruct (changed_keys !! table) as [keys|] eqn:Ek; unfold changed_refer; rewrite Ek.
    2: { exists (Ok ()). split; [done|]. split; [|done]. intros _ q row k _ [?|?]; done. }
    change (default [] (Some keys)) with keys.
    eapply (checks_ext _ (∀ p, p ∈ keys → ∀ row k, R p = Some row → row_key row local = Some k → key_has_null k = false → target_in Rref referenced k)).
    { split.
      - intros H q row k Hq [?|(p & Hin & Hpq)%member_elem] Hk Hnull; [done|]. apply (H p Hin row); [|done|done].
        by rewrite (state_respects next table p q Hpq).
      - intros H p Hin row k Hq Hk Hnull. eapply (H p row k); [done| |done|done]. right. apply member_elem. exists p. split; [done|apply key_eqb_refl]. }
    apply checks_each. intros p Hin. destruct (rows_get_ok p _ Hw) as [-> _]. cbn [mbind option_bind].
    assert (map_get key_cmp p (rows_contents (seg_rows segment)) = R p) as -> by (unfold state_table, table_of; by rewrite Eseg).
    destruct (R p) as [row|] eqn:Erow; [|exists (Ok ()); split; [done|by split]].
    destruct (local_keyed p row Erow) as [k Hk]. eapply checks_ext; [|by eapply (checks_row next table fk Hn row local rs referenced k)]. naive_solver.
Qed.

(** A changed target is still there, or no row refers to it. *)
Definition target_kept (p : RelationalKey) : Prop :=
  ∀ row pt, state_table previous (fk_referenced_table fk) p = Some row → row_key row referenced = Some pt → key_has_null pt = false →
    target_in Rref referenced pt ∨ ∀ q row k, R q = Some row → row_key row local = Some k → key_eqb k pt = false.
Lemma removed_target_checks p : checks (validate_removed_target previous next table segment fk local referenced p) (target_kept p).
Proof using Hp Hn Hcols Es Eseg Ers El Er Hu.
  pose proof segment_wf as Hw. unfold validate_removed_target, target_kept. rewrite state_row_ok by done. cbn [mbind option_bind].
  destruct (state_table previous (fk_referenced_table fk) p) as [row|] eqn:Ep; [|exists (Ok ()); by split].
  destruct (complete_keyed rs _ _ _ Er (previous_complete _ rs Ers) p row Ep) as [pt Ept]. rewrite Ept. cbn [mbind option_bind].
  destruct (target_exists_ok next fk rs referenced pt Hn Ers Er Hu) as (b & -> & Hb). cbn [try_bind]. destruct b.
  { exists (Ok ()). split; [done|]. split; [|done]. intros _ row' pt' [= <-] Ept' Hnull. rewrite Ept in Ept'. injection Ept' as <-. left. by apply Hb. }
  destruct (referenced_by_ok (rows_values (seg_rows segment)) local pt) as (b & -> & Href).
  { intros row' (q & Hq)%(elem_of_values next table segment row' Eseg Hw). by eapply local_keyed. }
  cbn [mbind option_bind]. destruct b.
  - destruct Href as [Href _]. destruct (Href eq_refl) as (Hnull & row' & k & (q & Hq)%(elem_of_values next table segment row' Eseg Hw) & Hk & Heq).
    eexists. split; [done|]. split; [done|]. intros H. destruct (H row pt eq_refl Ept Hnull) as [Ht|Hnone]; [by apply Hb in Ht|].
    specialize (Hnone q row' k Hq Hk). congruence.
  - exists (Ok ()). split; [done|]. split; [|done]. intros _ row0 pt' [= <-] Ept' Hnull. rewrite Ept in Ept'. injection Ept' as <-. right.
    intros q row' k Hq Hk. apply not_true_iff_false. intros Heq. assert (false = true); [|done]. apply Href. split; [done|]. exists row', k.
    split_and!; [|done|done]. apply (elem_of_values next table segment row' Eseg Hw). by exists q.
Qed.

(** Together they say that every row refers to a row. *)
Lemma changes_suffice :
  (changed_refer ∧ ∀ p, p ∈ default [] (changed_keys !! fk_referenced_table fk) → target_kept p) ↔ rows_refer R Rref local referenced.
Proof using Hp Hn Hrefs Hcols Hfull Hsame Es Hfk Ers El Er Hu.
  split.
  - intros [Hch Hrm] q row k Hq Hk Hnull. destruct (decide (table ∈ full)) as [Hf|Hf]; [by eapply Hch; eauto|].
    destruct (member (default [] (changed_keys !! table)) q) eqn:Em; [by eapply Hch; eauto|].
    pose proof (Hsame table q Em) as Hq'. rewrite Hq in Hq'. pose proof (Hfull table s Es Hf) as Esp.
    destruct (Hrefs table s fk Esp Hfk) as (rs' & l' & r' & Ers' & El' & Er' & _ & _ & Hrr). rewrite El in El'. injection El' as <-.
    assert (r' = referenced) as ->.
    { pose proof (positions_columns rs' rs _ r' ltac:(by rewrite (Hcols _ rs rs' Ers Ers')) Er') as H. rewrite Er in H. by injection H. }
    destruct (Hrr q row k Hq' Hk Hnull) as (t & trow & tk & Ht & Htk & Heq).
    destruct (member (default [] (changed_keys !! fk_referenced_table fk)) t) eqn:Emt.
    2: { exists t, trow, tk. by rewrite <- (Hsame _ t Emt). }
    apply member_elem in Emt as (p & Hin & Hpt).
    destruct (Hrm p Hin trow tk) as [(t' & trow' & tk' & Ht' & Htk' & Heq')|Hnone].
    + by rewrite (state_respects previous _ p t Hpt).
    + done.
    + by rewrite (key_null_eq tk k Heq).
    + exists t', trow', tk'. split_and!; [done|done|]. rewrite key_eqb_sym in Heq'. by rewrite (key_eqb_sym tk' k), <- (key_eqb_l tk k tk' Heq).
    + specialize (Hnone q row k Hq Hk). rewrite key_eqb_sym in Hnone. congruence.
  - intros Hrr. split; [intros q row k Hq _ Hk Hnull; by eapply Hrr|]. intros p _ row pt Hrow Hpt Hnull.
    destruct (target_exists_ok next fk rs referenced pt Hn Ers Er Hu) as ([|] & _ & Ht); specialize (Ht Hnull); [left; by apply Ht|]. right. intros q row' k Hq Hk. apply not_true_iff_false. intros Heq. assert (false = true); [|done]. apply Ht.
    destruct (Hrr q row' k Hq Hk ltac:(by rewrite (key_null_eq k pt Heq))) as (t & trow & tk & Ht' & Htk & Heq').
    exists t, trow, tk. split_and!; [done|done|]. rewrite key_eqb_sym in Heq'. by rewrite key_eqb_sym, <- (key_eqb_l k pt tk Heq).
Qed.
End Changes.

(** The loops over tables and foreign keys. *)
Lemma each_checks st (f : bytes → RelationalTableSchema → RelationalTableSegment → RelationalForeignKeySchema → option (result () RelationalError)) :
  state_ok st →
  (∀ table s segment, st_schemas st !! table = Some s → st_segments st !! table = Some segment → ∀ fk, fk ∈ foreign_keys s →
    checks (f table s segment fk) (reference_holds st table s fk)) →
  checks (try_each (λ ts, match st_segments st !! ts.1 with
                          | None => Some (Ok ())
                          | Some segment => try_each (f ts.1 ts.2 segment) (foreign_keys ts.2)
                          end) (ordered_schemas st)) (references_hold st).
Proof.
  intros Hst Hf. eapply (checks_ext _ (∀ ts, ts ∈ ordered_schemas st → ∀ fk, fk ∈ foreign_keys ts.2 → reference_holds st ts.1 ts.2 fk)).
  { split.
    - intros H table s fk Es Hfk. apply (H (table, s)); [by apply elem_of_schemas|done].
    - intros H [table s] Hin fk Hfk. apply elem_of_schemas in Hin. by apply H. }
  apply checks_each. intros [table s] Es%elem_of_schemas. cbn [fst snd]. destruct (so_segment _ Hst table s Es) as (segment & E & _). rewrite E.
  apply checks_each. by apply Hf.
Qed.
Lemma state_checks st : state_ok st → checks (validate_foreign_keys st) (references_hold st).
Proof. intros Hst. apply each_checks; [done|]. intros table s segment Es E fk Hfk. by apply full_checks. Qed.

Section Claim.
Context (previous next : RelationalState) (changed_keys : gmap bytes (list RelationalKey)) (full : gset bytes).

(** The check of the changes, for one foreign key. *)
Lemma incremental_checks table s fk segment : state_ok previous → state_ok next → references_hold previous →
  (∀ table s s', st_schemas next !! table = Some s → st_schemas previous !! table = Some s' → columns s' = columns s) →
  (∀ table s, st_schemas next !! table = Some s → table ∉ full → st_schemas previous !! table = Some s) →
  (∀ table q, member (default [] (changed_keys !! table)) q = false → state_table previous table q = state_table next table q) →
  st_schemas next !! table = Some s → fk ∈ foreign_keys s → st_segments next !! table = Some segment →
  checks (validate_foreign_key_incremental previous next changed_keys full table s segment fk) (reference_holds next table s fk).
Proof.
  intros Hp Hn Hrefs Hcols Hfull Hsame Es Hfk Eseg. destruct (fk_shape next table s fk Hn Es Hfk) as [[local El] Hne].
  unfold validate_foreign_key_incremental, reference_holds. rewrite El. cbn [try_bind].
  destruct (st_schemas next !! fk_referenced_table fk) as [rs|] eqn:Ers; [|eexists; split; [done|]; split; [done|by intros (? & ? & ? & ? & _)]].
  destruct (column_positions rs (fk_referenced_columns fk)) as [referenced|e] eqn:Er; cbn [try_bind].
  2: { eexists. split; [done|]. split; [done|]. intros (rs' & ? & ? & [= <-] & _ & Er' & _). congruence. }
  unfold validate_foreign_key_shape. rewrite references_unique by done.
  destruct (unique_index_definition rs (fk_referenced_columns fk)) as [def|] eqn:Ed.
  2: { eexists. split; [done|]. split; [done|]. intros (rs' & ? & ? & [= <-] & _ & _ & Hu & _). congruence. }
  assert (unique_index_definition rs (fk_referenced_columns fk) ≠ None) as Hu by (by rewrite Ed).
  eapply (checks_ext _ (same_types table s rs fk local referenced = Some (Ok ()) ∧ changed_refer next changed_keys full table fk local referenced ∧
    ∀ p, p ∈ default [] (changed_keys !! fk_referenced_table fk) → target_kept previous next table fk local referenced p)).
  { rewrite (changes_suffice previous next changed_keys full Hp Hn Hrefs Hcols Hfull Hsame table s fk Es Hfk rs local referenced Ers El Er Hu). split.
    - intros [Ht Hrr]. exists rs, local, referenced. split_and!; done.
    - intros (rs' & l' & r' & [= <-] & El' & Er' & _ & Ht & Hrr). rewrite Er in Er'. injection Er' as <-. injection El' as <-. done. }
  apply checks_then; [by apply same_types_checks|]. intros _. apply checks_then; [by eapply changed_rows_checks|]. intros _.
  destruct (changed_keys !! fk_referenced_table fk) as [keys|].
  - apply checks_each. intros p _. by eapply removed_target_checks.
  - exists (Ok ()). split; [done|]. split; [by intros _ p ?%elem_of_nil|done].
Qed.

(** C15: Checking only the changes of a transaction decides the foreign keys of
    the whole state.  Given a consistent previous state whose foreign keys hold,
    a consistent next state whose rows differ only under the changed keys, whose
    common tables have the same columns, and whose tables with a new schema are
    validated in full: neither the incremental nor the complete validation
    panics, each succeeds exactly when every row without a NULL in its foreign
    key refers to a row of the referenced table (with a unique key of the same
    types), and so one succeeds exactly when the other does. *)
Theorem foreign_keys_incremental_exact : state_ok previous → state_ok next → references_hold previous →
  (∀ table s s', st_schemas next !! table = Some s → st_schemas previous !! table = Some s' → columns s' = columns s) →
  (∀ table s, st_schemas next !! table = Some s → table ∉ full → st_schemas previous !! table = Some s) →
  (∀ table q, member (default [] (changed_keys !! table)) q = false → state_table previous table q = state_table next table q) →
  checks (validate_foreign_keys next) (references_hold next) ∧
  checks (validate_foreign_keys_incremental previous next changed_keys full) (references_hold next).
Proof.
  intros Hp Hn Hrefs Hcols Hfull Hsame.
  split; [by apply state_checks|]. apply each_checks; [done|]. intros table s segment Es E fk Hfk. by apply incremental_checks.
Qed.
End Claim.
End Spec.

(** Parents and children; a transaction deletes a parent nobody refers to and
    adds a child. *)
Module ReferenceDemo.
#[local] Instance demo_range : TimestampRange := {| min_micros := - 10 ^ 15; max_micros := 10 ^ 15 |}.
#[local] Instance demo_layout : RowLayout := {| size_of_key := 24; size_of_row := 40; size_of_values := 16; size_of_overflow_ref := 64 |}.
#[local] Instance demo_laws : RowLayoutLaws demo_layout.
Proof. constructor; by vm_compute. Qed.
Definition parent : bytes := lit "parent".
Definition child : bytes := lit "child".
Definition parent_schema : RelationalTableSchema := mk_schema parent [mk_column (lit "id") TBigInt false None] [lit "id"] [] [] [] None.
Definition child_fk : RelationalForeignKeySchema := mk_foreign_key [lit "of"] parent [lit "id"] NoAction NoAction.
Definition child_schema : RelationalTableSchema :=
  mk_schema child [mk_column (lit "id") TBigInt false None; mk_column (lit "of") TBigInt true None] [lit "id"] [] [child_fk] [] None.
Definition parent_row (n : Z) : RowEntry := ([RBigInt n], [RBigInt n]).
Definition child_row (n : Z) (owner : RelationalValue) : RowEntry := ([RBigInt n], [RBigInt n; owner]).

Definition rebuilt (s : RelationalTableSchema) (table : bytes) (rows : list RowEntry) : gmap bytes RelationalIndexPages :=
  match rebuild_loop s table rows (required_index_definitions s) ∅ with Some (ixs, _) => ixs | None => ∅ end.
Definition segment_with (s : RelationalTableSchema) (table : bytes) (rows : list RowEntry) : RelationalTableSegment :=
  mk_segment (default rows_default (from_map rows)) (rebuilt s table rows).
Definition family (parents children : list RowEntry) : RelationalState :=
  mk_state (<[parent := parent_schema]> {[child := child_schema]})
    (<[parent := segment_with parent_schema parent parents]> {[child := segment_with child_schema child children]}).

(** What the rows of a demo table satisfy, decided by evaluation. *)
Record rows_good (s : RelationalTableSchema) (table : bytes) (rows : list RowEntry) : Prop := {
  rg_sorted : key_sorted key_cmp rows;
  rg_fits : total_bytes rows ≤ usize_max ∧ zlen rows < usize_max;
  rg_valid : validate_table_schema s = Ok ();
  rg_length : Forall (λ e : RowEntry, length e.2 = length (columns s)) rows;
  rg_key : Forall (λ e : RowEntry, ∃ positions, column_positions s (primary_key s) = Ok positions ∧ row_key e.2 positions = Some e.1) rows;
  rg_built : snd <$> rebuild_loop s table rows (required_index_definitions s) ∅ = Some (Ok ());
}.
Lemma good_segment s table rows : rows_good s table rows →
  rows_wf (seg_rows (segment_with s table rows)) ∧ rows_contents (seg_rows (segment_with s table rows)) = rows ∧
  complete_rows s (table_of rows) ∧ keyed_table s (table_of rows) ∧
  ∀ def, def ∈ required_index_definitions s → kept_exact s true (table_of rows) (seg_indexes (segment_with s table rows)) def.
Proof.
  intros [Hs [Hf Hl] Hv HL HK Hb].
  assert (∀ q row, table_of rows q = Some row → ∃ e, e ∈ rows ∧ key_cmp q e.1 = Eq ∧ row = e.2) as Hrow.
  { intros q row. unfold table_of, map_get. destruct (get_key_value key_cmp q rows) as [e|] eqn:E; [|done]. intros [= <-].
    apply get_some in E as [He Hq]; [|apply _|done]. by exists e. }
  assert (complete_rows s (table_of rows)) as Hc.
  { intros q row (e & He & _ & ->)%Hrow. exact (proj1 (Forall_forall _ _) HL e He). }
  unfold segment_with. cbn [seg_rows seg_indexes]. destruct (from_map_rows rows Hs Hf) as (rs & -> & Hcon & Hw).
  split_and!; [done|done|done| |].
  - intros _ q row (e & He & Hq & ->)%Hrow. destruct (proj1 (Forall_forall _ _) HK e He) as (positions & Ep & Ek). exists positions, e.1.
    split_and!; [done|done|by apply key_eqb_cmp].
  - unfold rebuilt. destruct (rebuild_loop s table rows (required_index_definitions s) ∅) as [[ixs r]|] eqn:E; [|done]. injection Hb as ->.
    by apply (rebuilt_exact s table rows ixs).
Qed.

Lemma parent_child : parent ≠ child.
Proof. done. Qed.
Lemma family_parent parents children : st_segments (family parents children) !! parent = Some (segment_with parent_schema parent parents).
Proof. apply lookup_insert_eq. Qed.
Lemma family_child parents children : st_segments (family parents children) !! child = Some (segment_with child_schema child children).
Proof. unfold family. cbn [st_segments]. rewrite lookup_insert_ne by apply parent_child. apply lookup_singleton_eq. Qed.
Lemma family_schema parents children table s : st_schemas (family parents children) !! table = Some s →
  (table = parent ∧ s = parent_schema) ∨ (table = child ∧ s = child_schema).
Proof.
  unfold family. cbn [st_schemas]. rewrite lookup_insert_Some, lookup_singleton_Some. naive_solver.
Qed.
Lemma family_table parents children : rows_good parent_schema parent parents → rows_good child_schema child children →
  state_table (family parents children) parent = table_of parents ∧ state_table (family parents children) child = table_of children.
Proof.
  intros (_ & Hp & _)%good_segment (_ & Hc & _)%good_segment. unfold state_table. by rewrite family_parent, family_child, Hp, Hc.
Qed.
Lemma family_ok parents children : rows_good parent_schema parent parents → rows_good child_schema child children → state_ok (family parents children).
Proof.
  intros Gp Gc. destruct (family_table parents children Gp Gc) as [Tp Tc]. constructor.
  - intros table s [[_ ->]|[_ ->]]%family_schema; [apply Gp|apply Gc].
  - intros table. unfold family. cbn [st_schemas st_segments]. rewrite !lookup_insert_None, !lookup_singleton_None. done.
  - intros table s [[-> ->]|[-> ->]]%family_schema.
    + exists (segment_with parent_schema parent parents). rewrite Tp. destruct (good_segment _ _ _ Gp) as (? & _ & ? & ? & ?).
      split_and!; [apply family_parent|done..].
    + exists (segment_with child_schema child children). rewrite Tc. destruct (good_segment _ _ _ Gc) as (? & _ & ? & ? & ?).
      split_and!; [apply family_child|done..].
Qed.

Definition parents_before : list RowEntry := [parent_row 1; parent_row 2].
Definition parents_after : list RowEntry := [parent_row 1].
Definition children_before : list RowEntry := [child_row 10 (RBigInt 1); child_row 11 RNull].
Definition children_after : list RowEntry := [child_row 10 (RBigInt 1); child_row 11 RNull; child_row 12 (RBigInt 1)].
Definition demo_changed : gmap bytes (list RelationalKey) := <[parent := [[RBigInt 2]]]> {[child := [[RBigInt 12]]]}.

Ltac good :=
  constructor; [unfold key_sorted; by repeat constructor|split; by vm_compute|reflexivity|by repeat constructor
               |repeat (apply Forall_cons; split; [eexists; split; reflexivity|]); by apply Forall_nil|by vm_compute].
Lemma parents_good : rows_good parent_schema parent parents_before ∧ rows_good parent_schema parent parents_after.
Proof. split; good. Qed.
Lemma children_good : rows_good child_schema child children_before ∧ rows_good child_schema child children_after.
Proof. split; good. Qed.

Lemma not_changed k q : member [k] q = false → key_cmp q k ≠ Eq.
Proof. cbn. rewrite orb_false_r, key_eqb_sym, key_eqb_match. by destruct (key_cmp q k). Qed.
Lemma family_same table q : member (default [] (demo_changed !! table)) q = false →
  state_table (family parents_before children_before) table q = state_table (family parents_after children_after) table q.
Proof.
  destruct parents_good as [Gpb Gpa], children_good as [Gcb Gca]. destruct (family_table _ _ Gpb Gcb) as [Tp Tc], (family_table _ _ Gpa Gca) as [Tp' Tc'].
  destruct (decide (table = parent)) as [->|Hp]; [|destruct (decide (table = child)) as [->|Hc]].
  - intros Hq%not_changed. rewrite Tp, Tp'. unfold table_of, map_get, parents_before, parents_after, parent_row. cbn [get_key_value].
    destruct (key_cmp q [RBigInt 1]); [done|done|]. by destruct (key_cmp q [RBigInt 2]).
  - intros Hq%not_changed. rewrite Tc, Tc'. unfold table_of, map_get, children_before, children_after, child_row. cbn [get_key_value].
    destruct (key_cmp q [RBigInt 10]); [done|done|]. destruct (key_cmp q [RBigInt 11]); [done|done|]. by destruct (key_cmp q [RBigInt 12]).
  - intros _. unfold state_table, family. cbn [st_segments]. by rewrite !lookup_insert_ne, !lookup_singleton_ne.
Qed.

Lemma foreign_keys_incremental_exact_witness :
  references_hold (family parents_after children_after) ∧
  validate_foreign_keys_incremental (family parents_before children_before) (family parents_after children_after) demo_changed ∅ = Some (Ok ()).
Proof.
  destruct parents_good as [Gpb Gpa], children_good as [Gcb Gca]. pose proof (family_ok _ _ Gpb Gcb) as Hp. pose proof (family_ok _ _ Gpa Gca) as Hn.
  assert (references_hold (family parents_before children_before)) as Hr.
  { apply (checks_iff _ _ (state_checks _ Hp)). by vm_compute. }
  destruct (foreign_keys_incremental_exact (family parents_before children_before) (family parents_after children_after) demo_changed ∅ Hp Hn Hr)
    as [Hf Hi].
  - intros table s s' Es Es'. unfold family in *. cbn [st_schemas] in *. congruence.
  - done.
  - apply family_same.
  - assert (references_hold (family parents_after children_after)) as Hn' by (apply (checks_iff _ _ Hf); by vm_compute).
    split; [done|]. by apply (checks_iff _ _ Hi).
Defined.

(** The columns must be the same: one transaction may add a column to a table,
    declare it unique, create a table that refers to it and delete a row of the
    first.  The check of the deleted row then reads a column the row does not
    have. *)
Definition wide_parent : RelationalTableSchema :=
  mk_schema parent [mk_column (lit "id") TBigInt false None; mk_column (lit "code") TBigInt true None] [lit "id"] [] []
    [mk_index_schema (lit "by_code") [lit "code"] true] None.
Definition code_child : RelationalTableSchema :=
  mk_schema child [mk_column (lit "id") TBigInt false None; mk_column (lit "of") TBigInt true None] [lit "id"] []
    [mk_foreign_key [lit "of"] parent [lit "code"] NoAction NoAction] [] None.
Lemma added_column_panics :
  validate_foreign_keys_incremental
    (mk_state {[parent := parent_schema]} {[parent := segment_with parent_schema parent [parent_row 1]]})
    (mk_state (<[parent := wide_parent]> {[child := code_child]})
       (<[parent := segment_with wide_parent parent []]> {[child := segment_with code_child child []]}))
    {[parent := [[RBigInt 1]]]} {[parent; child]} = None.
Proof. by vm_compute. Qed.
End ReferenceDemo.
