(* ===== verification/DeleteCascade.v ===== *)
(** Deletions and their cascades in crates/storage/src/relational.rs: the writes
    [DeleteByPrimaryKey] and [DeleteWhere] of a transaction and
    [apply_delete_cascades], which deletes the rows that refer to deleted rows by
    a foreign key declared ON DELETE CASCADE, and the rows that refer to those.  A
    write to a materialized view is refused ([reject_write] of
    relational/materialized_view.rs).

    Modelled for [checkpoint_allocations = None], without a replay access tracker
    and without captured outcomes.  The functions change what they are given in
    place, so each returns it with its result; [None] is a panic or the end of the
    fuel of the queue loop. *)
From S2P Require Import Prelude Text Ordering Decimal RelationalValue OrderedKey BTreeMap Pages IndexRange RelationalIndex.
From S2P Require Import RelationalIndexSpec Values Numeric RelationalSchema PrimaryKeyRange ResidentRows ResidentRowsSpec MutationRows.
From S2P Require Import NumericExpression IndexMaintenance ForeignKeys.

Record RelationalMutationLimits := mk_limits {
  max_rows : Z;
  max_payload_bytes : Z;
}.

(** What the writes of a transaction change: the next state, the queue of deleted
    rows, the changed keys and the touched tables, with the counters of unbounded
    deletions and of the cascade. *)
Record Deletion := mk_deletion {
  d_state : RelationalState;
  d_queue : list (bytes * RelationalRow);
  d_changed : gmap bytes (list RelationalKey);
  d_touched : gset bytes;
  d_unbounded_rows : Z;
  d_unbounded_bytes : Z;
  d_cascade_rows : Z;
  d_cascade_bytes : Z;
}.
Definition deletion := option (Deletion * result () RelationalError).
Definition finish (d : Deletion) : deletion := Some (d, Ok ()).
Definition refuse (e : RelationalError) (d : Deletion) : deletion := Some (d, Err e).
Definition d_then (m : deletion) (k : Deletion → deletion) : deletion :=
  '(d, r) ← m; match r with Ok _ => k d | Err e => Some (d, Err e) end.
Fixpoint d_each {A} (f : A → Deletion → deletion) (l : list A) (d : Deletion) : deletion :=
  match l with
  | [] => finish d
  | x :: l => d_then (f x d) (d_each f l)
  end.

(** An insertion in [BTreeSet<RelationalKey>]. *)
Fixpoint insert_changed_key (key : RelationalKey) (keys : list RelationalKey) : list RelationalKey :=
  match keys with
  | [] => [key]
  | k :: keys' =>
      match key_cmp key k with
      | Lt => key :: keys
      | Eq => keys
      | Gt => k :: insert_changed_key key keys'
      end
  end.
Definition record_change (table : bytes) (key : RelationalKey) (changed : gmap bytes (list RelationalKey)) : gmap bytes (list RelationalKey) :=
  <[table := insert_changed_key key (default [] (changed !! table))]> changed.

Section Deletions.
Context `{C : Chrono} `{TR : TimestampRange} `{L : RowLayout} (limits : RelationalMutationLimits) (admitted_rows admitted_payload_bytes : Z).
Implicit Types (table : bytes) (key : RelationalKey) (d : Deletion).

Fixpoint payload_sum (bytes : Z) key : option Z :=
  match key with
  | [] => Some bytes
  | v :: key => bytes ← Prelude.checked_add usize_max bytes (estimated_payload_bytes size_of_overflow_ref v); payload_sum bytes key
  end.
Definition relational_key_payload_bytes key : option Z := payload_sum 0 key.

Definition set_segment_rows table (segment : RelationalTableSegment) (rows : RelationalRowPages) (st : RelationalState) : RelationalState :=
  mk_state (st_schemas st) (<[table := mk_segment rows (seg_indexes segment)]> (st_segments st)).

(** ** The writes *)

(** One key of a deletion: it is marked as changed, and its row, if there is one,
    is removed and queued. *)
Definition delete_key table key d : deletion :=
  let changed := record_change table key (d_changed d) in
  match st_segments (d_state d) !! table with
  | None => refuse (unknown_table table) d
  | Some segment =>
      '(removed, rows) ← rows_remove key (seg_rows segment);
      let st := set_segment_rows table segment rows (d_state d) in
      let queue := match removed with Some row => d_queue d ++ [(table, row)] | None => d_queue d end in
      finish (mk_deletion st queue changed (d_touched d) (d_unbounded_rows d) (d_unbounded_bytes d) (d_cascade_rows d) (d_cascade_bytes d))
  end.
Definition touch table d : Deletion :=
  mk_deletion (d_state d) (d_queue d) (d_changed d) ({[table]} ∪ d_touched d) (d_unbounded_rows d) (d_unbounded_bytes d)
    (d_cascade_rows d) (d_cascade_bytes d).
(** [DeleteByPrimaryKey]. *)
Definition delete_by_primary_key table (keys : list RelationalKey) d : deletion :=
  match st_segments (d_state d) !! table with
  | None => refuse (unknown_table table) d
  | Some _ => d_then (d_each (delete_key table) keys d) (λ d, finish (touch table d))
  end.

(** The keys of the rows for which the predicate is true, up to one more than the
    limit. *)
Fixpoint matching_rows (s : RelationalTableSchema) (p : RelationalPredicate) (candidates : list RowEntry) (keys : list RelationalKey)
    : option (result (list RelationalKey) RelationalError) :=
  match candidates with
  | [] => Some (Ok keys)
  | (key, row) :: candidates =>
      try_bind (predicate_truth s row p) (λ truth,
      if bool_decide (truth = Some true)
      then let keys := keys ++ [key] in if zlen keys >? max_rows limits then Some (Ok keys) else matching_rows s p candidates keys
      else matching_rows s p candidates keys)
  end.
Fixpoint keys_payload (bytes : Z) (keys : list RelationalKey) : option Z :=
  match keys with
  | [] => Some bytes
  | key :: keys => payload ← relational_key_payload_bytes key; bytes ← Prelude.checked_add usize_max bytes payload; keys_payload bytes keys
  end.
(** [is_none_or]. *)
Definition exceeds (total : option Z) (limit : Z) : bool := match total with None => true | Some n => n >? limit end.
Definition admission (message : string) d : deletion := refuse (Admission message) d.
Definition count_unbounded (rows bytes : Z) d : Deletion :=
  mk_deletion (d_state d) (d_queue d) (d_changed d) (d_touched d) rows bytes (d_cascade_rows d) (d_cascade_bytes d).
(** The admission of the keys of a [DeleteWhere]. *)
Definition admit_unbounded (keys : list RelationalKey) d : deletion :=
  if zlen keys >? max_rows limits then admission "relational DELETE affects more than max_rows {}" d
  else match Prelude.checked_add usize_max (d_unbounded_rows d) (zlen keys) with
  | None => admission "relational DELETE row count overflow" d
  | Some rows =>
      let d := count_unbounded rows (d_unbounded_bytes d) d in
      if exceeds (Prelude.checked_add usize_max admitted_rows rows) (max_rows limits)
      then admission "relational mutation affects more than max_rows {}" d
      else match keys_payload 0 keys ≫= λ payload, Prelude.checked_add usize_max (d_unbounded_bytes d) payload with
      | None => admission "relational DELETE payload byte count overflow" d
      | Some bytes =>
          let d := count_unbounded rows bytes d in
          if exceeds (Prelude.checked_add usize_max admitted_payload_bytes bytes) (max_payload_bytes limits)
          then admission "relational DELETE contains more than max_payload_bytes {}" d
          else finish d
      end
  end.
(** [DeleteWhere]. *)
Definition delete_where table (p : RelationalPredicate) (primary_key_lookup : bool) d : deletion :=
  match st_schemas (d_state d) !! table with
  | None => refuse (unknown_table table) d
  | Some s =>
      match validate_predicate s p with
      | Err e => refuse e d
      | Ok _ =>
          match st_segments (d_state d) !! table with
          | None => refuse (unknown_table table) d
          | Some segment =>
              keys ← try_bind (mutation_candidate_rows (seg_rows segment) s p primary_key_lookup) (λ candidates, matching_rows s p candidates []);
              match keys with
              | Err e => refuse e d
              | Ok keys => d_then (admit_unbounded keys d) (λ d, d_then (d_each (delete_key table) keys d) (λ d, finish (touch table d)))
              end
          end
      end
  end.

(** ** The cascade *)

Definition count_cascade (rows bytes : Z) d : Deletion :=
  mk_deletion (d_state d) (d_queue d) (d_changed d) (d_touched d) (d_unbounded_rows d) (d_unbounded_bytes d) rows bytes.
Definition checked_total (admitted unbounded cascade : Z) : option Z :=
  total ← Prelude.checked_add usize_max admitted unbounded; Prelude.checked_add usize_max total cascade.
Definition admit_cascade key d : deletion :=
  match rows ← Prelude.checked_add usize_max (d_cascade_rows d) 1; total ← checked_total admitted_rows (d_unbounded_rows d) rows; Some (rows, total) with
  | None => admission "relational delete cascade row count overflow" d
  | Some (rows, total_rows) =>
      let d := count_cascade rows (d_cascade_bytes d) d in
      if total_rows >? max_rows limits then admission "relational delete cascade affects {total_rows} rows, exceeding max_rows {}" d
      else
        match payload ← relational_key_payload_bytes key; bytes ← Prelude.checked_add usize_max (d_cascade_bytes d) payload;
              total ← checked_total admitted_payload_bytes (d_unbounded_bytes d) bytes; Some (bytes, total) with
        | None => admission "relational delete cascade payload byte count overflow" d
        | Some (bytes, total_payload_bytes) =>
            let d := count_cascade rows bytes d in
            if total_payload_bytes >? max_payload_bytes limits
            then admission "relational delete cascade contains {total_payload_bytes} payload bytes, exceeding max_payload_bytes {}" d
            else finish d
        end
  end.
Definition missing_segment table : RelationalError :=
  Schema (Formatted "missing row segment for child table {child_table} during delete cascade" [table]).
(** A child that refers to a deleted row is admitted, marked and removed; the row
    must be there. *)
Definition remove_child table key d : deletion :=
  d_then (admit_cascade key d) (λ d,
  let d := touch table (mk_deletion (d_state d) (d_queue d) (record_change table key (d_changed d)) (d_touched d)
             (d_unbounded_rows d) (d_unbounded_bytes d) (d_cascade_rows d) (d_cascade_bytes d)) in
  match st_segments (d_state d) !! table with
  | None => refuse (missing_segment table) d
  | Some segment =>
      '(removed, rows) ← rows_remove key (seg_rows segment);
      row ← removed;
      finish (mk_deletion (set_segment_rows table segment rows (d_state d)) (d_queue d ++ [(table, row)]) (d_changed d) (d_touched d)
              (d_unbounded_rows d) (d_unbounded_bytes d) (d_cascade_rows d) (d_cascade_bytes d))
  end).

(** The keys of the rows that refer to a key. *)
Fixpoint referring_keys (local : list nat) (target : RelationalKey) (rows : list RowEntry) : option (list RelationalKey) :=
  match rows with
  | [] => Some []
  | (key, row) :: rows =>
      refers ← row_matches_key row local target; keys ← referring_keys local target rows;
      Some (if refers : bool then key :: keys else keys)
  end.
(** One foreign key that refers to the table of a deleted row. *)
Definition cascade_to (rs : RelationalTableSchema) (row : RelationalRow)
    (child : bytes * RelationalTableSchema * RelationalForeignKeySchema) d : deletion :=
  let '(child_table, s, fk) := child in
  match column_positions rs (fk_referenced_columns fk) with
  | Err e => refuse e d
  | Ok referenced =>
      target ← row_key row referenced;
      if key_has_null target then finish d
      else
        match column_positions s (fk_columns fk) with
        | Err e => refuse e d
        | Ok local =>
            match st_segments (d_state d) !! child_table with
            | None => refuse (missing_segment child_table) d
            | Some segment =>
                keys ← referring_keys local target (rows_iter (seg_rows segment));
                d_each (remove_child child_table) keys d
            end
        end
  end.
Definition cascading table (fk : RelationalForeignKeySchema) : bool :=
  bool_decide (fk_referenced_table fk = table) && match fk_on_delete fk with Cascade => true | _ => false end.
Definition inbound (st : RelationalState) table : list (bytes * RelationalTableSchema * RelationalForeignKeySchema) :=
  ts ← ordered_schemas st; (λ fk, (ts.1, ts.2, fk)) <$> List.filter (cascading table) (foreign_keys ts.2).
Definition pop (queue : list (bytes * RelationalRow)) d : Deletion :=
  mk_deletion (d_state d) queue (d_changed d) (d_touched d) (d_unbounded_rows d) (d_unbounded_bytes d) (d_cascade_rows d) (d_cascade_bytes d).
Fixpoint cascade_loop (fuel : nat) d : deletion :=
  match fuel with
  | O => None
  | S fuel =>
      match d_queue d with
      | [] => finish d
      | (table, row) :: queue =>
          let d := pop queue d in
          match st_schemas (d_state d) !! table with
          | None => refuse (Schema (Formatted "unknown table {table} during delete cascade" [table])) d
          | Some rs => d_then (d_each (cascade_to rs row) (inbound (d_state d) table) d) (cascade_loop fuel)
          end
      end
  end.
Definition apply_delete_cascades (fuel : nat) d : deletion := cascade_loop fuel (count_cascade 0 0 d).
(** ** The deletions of a transaction *)

Inductive DeleteWrite :=
  | DeleteByPrimaryKey (table : bytes) (keys : list RelationalKey)
  | DeleteWhere (table : bytes) (predicate : RelationalPredicate).
Definition write_table (w : DeleteWrite) : bytes := match w with DeleteByPrimaryKey table _ | DeleteWhere table _ => table end.
Definition read_only table : RelationalError := Schema (Formatted "materialized view {table} is read-only" [table]).
(** The check before each write: materialized views are read-only. *)
Definition reject_write (st : RelationalState) (w : DeleteWrite) : result () RelationalError :=
  if bool_decide (is_Some (st_schemas st !! write_table w ≫= materialized_view)) then Err (read_only (write_table w)) else Ok ().
Definition apply_delete (primary_key_lookup : bool) (w : DeleteWrite) d : deletion :=
  match reject_write (d_state d) w with
  | Err e => refuse e d
  | Ok _ =>
      match w with
      | DeleteByPrimaryKey table keys => delete_by_primary_key table keys d
      | DeleteWhere table p => delete_where table p primary_key_lookup d
      end
  end.
(** The writes in order, then the cascade. *)
Definition apply_deletes (primary_key_lookup : bool) (fuel : nat) (ws : list DeleteWrite) d : deletion :=
  d_then (d_each (apply_delete primary_key_lookup) ws d) (apply_delete_cascades fuel).
End Deletions.

(** ** Removing a row *)

Lemma member_insert key keys q : member (insert_changed_key key keys) q = key_eqb key q || member keys q.
Proof.
  induction keys as [|k keys IH]; [done|]. cbn [insert_changed_key]. destruct (key_cmp key k) eqn:E; [|done|].
  - apply key_eqb_cmp in E. cbn [member existsb]. rewrite <- (key_eqb_l key k q E). by destruct (key_eqb key q).
  - cbn [member existsb]. fold (member (insert_changed_key key keys) q) (member keys q). rewrite IH.
    by destruct (key_eqb k q), (key_eqb key q).
Qed.
Definition changed_in (changed : gmap bytes (list RelationalKey)) (table : bytes) (q : RelationalKey) : bool :=
  member (default [] (changed !! table)) q.
Lemma record_change_in table key changed t q :
  changed_in (record_change table key changed) t q = bool_decide (table = t) && key_eqb key q || changed_in changed t q.
Proof.
  unfold changed_in, record_change. case_bool_decide as E; [subst t; rewrite lookup_insert_eq; apply member_insert|by rewrite lookup_insert_ne].
Qed.

Section Removal.
Context `{TR : TimestampRange} `{L : RowLayout} {LL : RowLayoutLaws L}.
Implicit Types (st : RelationalState) (table t : bytes) (s rs : RelationalTableSchema) (fk : RelationalForeignKeySchema).

(** Valid schemas, each with its rows; the columns of cascading foreign keys
    exist. *)
Record tables_ok st : Prop := {
  to_valid : ∀ table s, st_schemas st !! table = Some s → validate_table_schema s = Ok ();
  to_segment : ∀ table s, st_schemas st !! table = Some s → ∃ segment, st_segments st !! table = Some segment;
  to_schema : ∀ table segment, st_segments st !! table = Some segment → ∃ s, st_schemas st !! table = Some s;
  to_rows : ∀ table segment, st_segments st !! table = Some segment →
    rows_wf (seg_rows segment) ∧ rows_fit (rows_contents (seg_rows segment));
  to_complete : ∀ table s, st_schemas st !! table = Some s → complete_rows s (state_table st table);
  to_targets : ∀ table s fk rs, st_schemas st !! table = Some s → fk ∈ foreign_keys s → fk_on_delete fk = Cascade →
    st_schemas st !! fk_referenced_table fk = Some rs → ∃ referenced, column_positions rs (fk_referenced_columns fk) = Ok referenced;
}.
Lemma contents_row st table segment e : st_segments st !! table = Some segment → rows_wf (seg_rows segment) →
  e ∈ rows_contents (seg_rows segment) → state_table st table e.1 = Some e.2.
Proof using.
  intros E Hw He. assert (key_sorted key_cmp (rows_contents (seg_rows segment))) as Hs by apply Hw. unfold state_table, table_of, map_get. rewrite E.
  by rewrite (proj2 (get_some key_cmp e.1 _ e Hs)) by (split; [done|apply (ord_refl key_cmp)]).
Qed.
Definition segment_rows (segment : RelationalTableSegment) : nat := length (rows_contents (seg_rows segment)).
Definition total_rows st : nat := sum_list (segment_rows ∘ snd <$> map_to_list (st_segments st)).

Lemma total_rows_set st table segment rows : st_segments st !! table = Some segment →
  (total_rows (set_segment_rows table segment rows st) + segment_rows segment = total_rows st + length (rows_contents rows))%nat.
Proof using.
  intros E. unfold total_rows, set_segment_rows. cbn [st_segments].
  assert (∀ v, sum_list (segment_rows ∘ snd <$> map_to_list (<[table:=v]> (st_segments st))) =
    segment_rows v + sum_list (segment_rows ∘ snd <$> map_to_list (delete table (st_segments st))))%nat as H.
  { intros v. rewrite <- insert_delete_eq. rewrite map_to_list_insert by apply lookup_delete_eq. done. }
  rewrite H. rewrite <- (insert_id (st_segments st) table segment E) at 2. rewrite H. unfold segment_rows. cbn [seg_rows]. lia.
Qed.

Lemma total_remove key (l : list RowEntry) : total_bytes (map_remove key_cmp key l).2 ≤ total_bytes l ∧
  zlen (map_remove key_cmp key l).2 = zlen l - opt_sum (λ _, 1) (get_key_value key_cmp key l).
Proof using LL.
  unfold total_bytes. cbn [map_remove snd]. rewrite zsum_alter, (zlen_alter key_cmp). cbn [opt_sum]. split; [|lia].
  destruct (get_key_value key_cmp key l) as [e|]; cbn [opt_sum]; [pose proof (entry_size_range e)|]; lia.
Qed.
Lemma remove_row st table segment key : tables_ok st → st_segments st !! table = Some segment →
  ∃ rows, rows_remove key (seg_rows segment) = Some (state_table st table key, rows) ∧
    let st' := set_segment_rows table segment rows st in
    tables_ok st' ∧ (∀ t q, state_table st' t q = if bool_decide (table = t) && key_eqb key q then None else state_table st t q) ∧
    (total_rows st' + match state_table st table key with Some _ => 1 | None => 0 end = total_rows st)%nat ∧
    (∀ e, e ∈ rows_contents rows → e ∈ rows_contents (seg_rows segment)).
Proof using LL.
  intros Hst E. destruct (to_rows _ Hst table segment E) as [Hw [Hl Hb]].
  destruct (rows_remove_ok key (seg_rows segment) Hw Hl Hb) as (rows & Er & Hc & Hw'). exists rows.
  assert (key_sorted key_cmp (rows_contents (seg_rows segment))) as Hs by apply Hw.
  assert (state_table st table key = map_get key_cmp key (rows_contents (seg_rows segment))) as Ek by (unfold state_table; by rewrite E).
  rewrite Ek. split; [done|]. cbn zeta.
  destruct (total_remove key (rows_contents (seg_rows segment))) as [Hb' Hl']. rewrite <- Hc in Hb', Hl'.
  assert (∀ t q, state_table (set_segment_rows table segment rows st) t q =
    if bool_decide (table = t) && key_eqb key q then None else state_table st t q) as Ht.
  { intros t q. unfold state_table, set_segment_rows. cbn [st_segments]. case_bool_decide as Et; [subst t|by rewrite lookup_insert_ne].
    rewrite lookup_insert_eq, E. cbn [seg_rows andb]. rewrite Hc. unfold table_of, map_get. cbn [map_remove snd].
    destruct (key_eqb key q) eqn:Ekq.
    - apply key_eqb_cmp in Ekq. rewrite (get_equal_key key q _ Ekq). by rewrite (get_alter key_cmp (λ _, None) key _ (remove_keeps key_cmp key) Hs).
    - rewrite (get_alter_ne key_cmp (λ _, None) key q _ (remove_keeps key_cmp key) Hs); [done|]. intros H%key_eqb_cmp. congruence. }
  split_and!; [|done| |].
  - constructor.
    + apply Hst.
    + intros t s Es. destruct (to_segment _ Hst t s Es) as [seg' E']. unfold set_segment_rows. cbn [st_segments].
      destruct (decide (table = t)) as [->|Hne]; [rewrite lookup_insert_eq|rewrite lookup_insert_ne by done]; by eexists.
    + intros t seg'. unfold set_segment_rows. cbn [st_segments st_schemas]. intros [[<- <-]|[_ E']]%lookup_insert_Some; by eapply (to_schema _ Hst).
    + intros t seg'. unfold set_segment_rows. cbn [st_segments]. intros [[<- <-]|[_ E']]%lookup_insert_Some; [|by apply (to_rows _ Hst t)].
      cbn [seg_rows]. split; [done|]. unfold rows_fit. split; [|lia]. destruct (get_key_value _ _ _); cbn [opt_sum] in Hl'; lia.
    + intros t s Es q row. rewrite Ht. destruct (_ && _); [done|]. by apply (to_complete _ Hst t s Es).
    + apply Hst.
  - pose proof (total_rows_set st table segment rows E) as Ht'. unfold segment_rows in Ht'. unfold map_get, zlen in *.
    destruct (get_key_value key_cmp key (rows_contents (seg_rows segment))); cbn [opt_sum fmap option_fmap option_map] in *; lia.
  - intros e. rewrite Hc. cbn [map_remove snd]. by intros [He|(o & ? & _)]%elem_of_alter.
Qed.
End Removal.

(** ** What a cascade deletes *)

Abbreviation Deleted := (bytes * RowEntry)%type.
Definition deleted_in (D : list Deleted) (t : bytes) (q : RelationalKey) : bool :=
  existsb (λ e, bool_decide (e.1 = t) && key_eqb e.2.1 q) D.
Fixpoint distinct (D : list Deleted) : Prop :=
  match D with [] => True | e :: D => deleted_in D e.1 e.2.1 = false ∧ distinct D end.

Section Closure.
Context (st : RelationalState) (queue : list (bytes * RelationalRow)).

(** A row of the state refers to [row] of [table] by a foreign key that
    cascades. *)
Definition cascades_to (table : bytes) (row : RelationalRow) (child : bytes) (q : RelationalKey) : Prop :=
  ∃ s rs fk local referenced target row' k, st_schemas st !! child = Some s ∧ fk ∈ foreign_keys s ∧
    fk_referenced_table fk = table ∧ fk_on_delete fk = Cascade ∧ st_schemas st !! table = Some rs ∧
    column_positions s (fk_columns fk) = Ok local ∧ column_positions rs (fk_referenced_columns fk) = Ok referenced ∧
    row_key row referenced = Some target ∧ key_has_null target = false ∧
    state_table st child q = Some row' ∧ row_key row' local = Some k ∧ key_eqb k target = true.
(** The rows reached from the queue. *)
Inductive cascade : bytes → RelationalKey → Prop :=
  | cascade_queued table row child q : (table, row) ∈ queue → cascades_to table row child q → cascade child q
  | cascade_next table p row child q : cascade table p → state_table st table p = Some row →
      cascades_to table row child q → cascade child q.

Lemma cascades_to_row table row child q : cascades_to table row child q → ∃ row', state_table st child q = Some row'.
Proof. intros (s & rs & fk & l & r & target & row' & k & H). exists row'. naive_solver. Qed.
Lemma cascades_to_equal table row child p q : key_eqb p q = true → cascades_to table row child p → cascades_to table row child q.
Proof.
  intros E (s & rs & fk & l & r & target & row' & k & H). exists s, rs, fk, l, r, target, row', k.
  rewrite <- (state_respects st child p q E). exact H.
Qed.
Lemma cascade_equal table p q : key_eqb p q = true → cascade table p → cascade table q.
Proof.
  intros E H. destruct H as [t row child p Hq H|t p' row child p Hp Hr H].
  - eapply cascade_queued; [done|]. by eapply cascades_to_equal.
  - eapply cascade_next; [done|done|]. by eapply cascades_to_equal.
Qed.
End Closure.

(** ** Admission *)

Section Admission.
Context `{TR : TimestampRange} `{L : RowLayout} {LL : RowLayoutLaws L}.
Context (limits : RelationalMutationLimits) (admitted_rows admitted_payload_bytes : Z).

Definition key_payload (key : RelationalKey) : Z := zsum (estimated_payload_bytes size_of_overflow_ref <$> key).
Lemma value_payload_nonneg v : 0 ≤ estimated_payload_bytes size_of_overflow_ref v.
Proof using LL. pose proof (size_of_overflow_nonneg (L := L)). destruct v; cbn; try lia; try apply zlen_nonneg. by vm_compute. Qed.
Lemma key_payload_nonneg key : 0 ≤ key_payload key.
Proof using LL. apply zsum_nonneg. apply Forall_fmap, Forall_true. apply value_payload_nonneg. Qed.
Lemma payload_sum_ok key : ∀ b, b ≤ usize_max → payload_sum b key = Prelude.checked_add usize_max b (key_payload key).
Proof using LL.
  unfold Prelude.checked_add. induction key as [|v key IH]; intros b Hb; cbn [payload_sum].
  - change (key_payload []) with 0. rewrite Z.add_0_r. by apply Z.leb_le in Hb as ->.
  - change (key_payload (v :: key)) with (estimated_payload_bytes size_of_overflow_ref v + key_payload key).
    pose proof (key_payload_nonneg key). unfold Prelude.checked_add. destruct (_ <=? _) eqn:E; cbn [mbind option_bind].
    + rewrite IH by lia. by rewrite Z.add_assoc.
    + destruct (_ <=? _) eqn:E' in |- *; [|done]. lia.
Qed.

(** The limits and counters are machine words. *)
Record limits_ok (d : Deletion) : Prop := {
  lo_max : max_rows limits ≤ usize_max ∧ max_payload_bytes limits ≤ usize_max;
  lo_admitted : 0 ≤ admitted_rows ∧ 0 ≤ admitted_payload_bytes;
  lo_unbounded : 0 ≤ d_unbounded_rows d ∧ 0 ≤ d_unbounded_bytes d;
}.
Definition cascade_admits (d : Deletion) (rows bytes : Z) : Prop :=
  admitted_rows + d_unbounded_rows d + rows ≤ max_rows limits ∧
  admitted_payload_bytes + d_unbounded_bytes d + bytes ≤ max_payload_bytes limits.
Definition is_admission (e : RelationalError) : Prop := ∃ message, e = Admission message.

Lemma checked_total_ok a b c limit : 0 ≤ a → 0 ≤ b → 0 ≤ c → limit ≤ usize_max →
  match checked_total a b c with Some total => total = a + b + c | None => limit < a + b + c end.
Proof using.
  intros. unfold checked_total, Prelude.checked_add. destruct (a + b <=? usize_max) eqn:E; cbn [mbind option_bind]; [|lia].
  destruct (a + b + c <=? usize_max) eqn:E'; cbn; lia.
Qed.
(** The operation ends with an admission error, and rightly so. *)
Ltac refused := do 2 eexists; split; [done|]; split; [by eexists|]; lia.
Lemma admit_cascade_ok key d : limits_ok d → 0 ≤ d_cascade_rows d → 0 ≤ d_cascade_bytes d →
  let rows := d_cascade_rows d + 1 in
  let bytes := d_cascade_bytes d + key_payload key in
  ∃ d' r, admit_cascade limits admitted_rows admitted_payload_bytes key d = Some (d', r) ∧
    match r with
    | Ok _ => d' = count_cascade rows bytes d ∧ cascade_admits d rows bytes
    | Err e => is_admission e ∧ ¬ cascade_admits d rows bytes
    end.
Proof using LL.
  intros [[Hm Hm'] [Ha Ha'] [Hu Hu']] Hr Hb rows bytes. unfold admit_cascade, cascade_admits, admission, refuse.
  pose proof (key_payload_nonneg key) as Hk.
  pose proof (checked_total_ok admitted_rows (d_unbounded_rows d) rows _ Ha Hu ltac:(lia) Hm) as Ht.
  pose proof (checked_total_ok admitted_payload_bytes (d_unbounded_bytes d) bytes _ Ha' Hu' ltac:(lia) Hm') as Ht'.
  unfold Prelude.checked_add at 1. fold rows. destruct (rows <=? usize_max) eqn:Er; cbn [mbind option_bind].
  2: refused.
  destruct (checked_total admitted_rows _ rows) as [total|]; cbn [mbind option_bind]; [subst total|].
  2: refused.
  destruct (admitted_rows + _ + rows >? _) eqn:Et; [refused|]. cbn [count_cascade d_cascade_bytes d_unbounded_bytes].
  unfold relational_key_payload_bytes. rewrite payload_sum_ok by done. unfold Prelude.checked_add. rewrite Z.add_0_l.
  destruct (key_payload key <=? usize_max) eqn:Ek; cbn [mbind option_bind].
  2: refused.
  fold bytes. destruct (bytes <=? usize_max) eqn:Eb; cbn [mbind option_bind].
  2: refused.
  destruct (checked_total admitted_payload_bytes _ bytes) as [total|]; cbn [mbind option_bind]; [subst total|].
  2: refused.
  destruct (admitted_payload_bytes + _ + bytes >? _) eqn:Et'; [refused|].
  do 2 eexists. split; [done|]. split; [done|]. lia.
Qed.
End Admission.

(** ** The progress of a cascade *)

Section Progress.
Context `{TR : TimestampRange} `{L : RowLayout} {LL : RowLayoutLaws L}.
Context (limits : RelationalMutationLimits) (admitted_rows admitted_payload_bytes : Z) (d0 : Deletion).
Implicit Types (t table child : bytes) (D : list Deleted) (d : Deletion) (key q : RelationalKey) (row : RelationalRow).

Definition payload_of D : Z := zsum ((λ e : Deleted, key_payload e.2.1) <$> D).
Definition within D : Prop := D ≠ [] → cascade_admits limits admitted_rows admitted_payload_bytes d0 (zlen D) (payload_of D).
(** Distinct rows of the cascade. *)
Definition in_cascade D : Prop := distinct D ∧
  ∀ t key row, (t, (key, row)) ∈ D → cascade (d_state d0) (d_queue d0) t key ∧ state_table (d_state d0) t key = Some row.
Definition table_without D t : Table := λ q, if deleted_in D t q then None else state_table (d_state d0) t q.
(** The rows deleted so far, and those whose referring rows are deleted too. *)
Definition gone D t row : Prop := (t, row) ∈ d_queue d0 ∨ ∃ key, (t, (key, row)) ∈ D.
Definition settled D t row : Prop := ∀ child q, cascades_to (d_state d0) t row child q → deleted_in D child q = true.

Record progress (current : list (bytes * RelationalRow)) D d : Prop := {
  pr_schemas : st_schemas (d_state d) = st_schemas (d_state d0);
  pr_ok : tables_ok (d_state d);
  pr_tables : ∀ t q, state_table (d_state d) t q = table_without D t q;
  pr_cascade : in_cascade D;
  pr_within : within D;
  pr_counts : d_cascade_rows d = zlen D ∧ d_cascade_bytes d = payload_of D;
  pr_unbounded : d_unbounded_rows d = d_unbounded_rows d0 ∧ d_unbounded_bytes d = d_unbounded_bytes d0;
  pr_queue : ∀ t row, (t, row) ∈ current ++ d_queue d → gone D t row;
  pr_settled : ∀ t row, gone D t row → (t, row) ∈ current ++ d_queue d ∨ settled D t row;
  pr_changed : ∀ t q, changed_in (d_changed d) t q = deleted_in D t q || changed_in (d_changed d0) t q;
  pr_touched : ∀ t, t ∈ d_touched d ↔ t ∈ d_touched d0 ∨ ∃ e, e ∈ D ∧ e.1 = t;
}.
Definition measure d : nat := total_rows (d_state d) + length (d_queue d).
(** A step ends with progress, or with an admission error for too many rows. *)
Definition progresses current n (P : list Deleted → Deletion → Prop) (m : deletion) : Prop :=
  ∃ d r D, m = Some (d, r) ∧
    match r with
    | Ok _ => progress current D d ∧ measure d = n ∧ P D d
    | Err e => is_admission e ∧ in_cascade D ∧ ¬ within D
    end.

Lemma progresses_then current current' n n' P Q m k : progresses current n P m →
  (∀ D d, progress current D d → measure d = n → P D d → progresses current' n' Q (k d)) → progresses current' n' Q (d_then m k).
Proof using.
  intros (d & r & D & -> & H) Hk. unfold d_then. cbn [mbind option_bind]. destruct r as [[]|e]; [|by exists d, (Err e), D].
  destruct H as (Hp & Hm & HP). by eapply Hk.
Qed.

Lemma deleted_cons e D t q : deleted_in (e :: D) t q = bool_decide (e.1 = t) && key_eqb e.2.1 q || deleted_in D t q.
Proof. done. Qed.
Lemma settled_cons e D t row : settled D t row → settled (e :: D) t row.
Proof using. intros H child q Hc. rewrite deleted_cons, (H child q Hc). apply orb_true_r. Qed.
Lemma gone_cons e D t row : gone (e :: D) t row ↔ gone D t row ∨ ∃ key, e = (t, (key, row)).
Proof using. unfold gone. setoid_rewrite elem_of_cons. naive_solver. Qed.

Context (Hlimits : limits_ok limits admitted_rows admitted_payload_bytes d0).

Lemma in_cascade_cons D t key row : in_cascade D → cascade (d_state d0) (d_queue d0) t key → table_without D t key = Some row →
  in_cascade ((t, (key, row)) :: D).
Proof using.
  unfold table_without. intros [Hd HD] Hc Ht. destruct (deleted_in D t key) eqn:E; [done|]. split; [done|].
  intros t' key' row' [[= -> -> ->]|H]%elem_of_cons; [done|by apply HD].
Qed.

(** The invariant once a row is gone from the state and queued. *)
Lemma progress_remove current D d child key row segment rows : progress current D d → in_cascade ((child, (key, row)) :: D) →
  within ((child, (key, row)) :: D) →
  let st := set_segment_rows child segment rows (d_state d) in
  tables_ok st → (∀ t q, state_table st t q = if bool_decide (child = t) && key_eqb key q then None else state_table (d_state d) t q) →
  progress current ((child, (key, row)) :: D)
    (mk_deletion st (d_queue d ++ [(child, row)]) (record_change child key (d_changed d)) ({[child]} ∪ d_touched d)
       (d_unbounded_rows d) (d_unbounded_bytes d) (d_cascade_rows d + 1) (d_cascade_bytes d + key_payload key)).
Proof using.
  intros Hp HD Hw st Hst Ht. destruct (pr_counts _ _ _ Hp) as [Hn Hb]. constructor; cbn [d_state d_queue d_changed d_touched d_cascade_rows d_cascade_bytes d_unbounded_rows d_unbounded_bytes].
  - apply Hp.
  - done.
  - intros t q. rewrite Ht, (pr_tables _ _ _ Hp). unfold table_without. rewrite deleted_cons. cbn [fst snd]. by destruct (_ && _).
  - done.
  - done.
  - rewrite Hn, Hb, zlen_cons. unfold payload_of. cbn [fmap list_fmap zsum fst snd]. lia.
  - apply Hp.
  - intros t row'. rewrite app_assoc, elem_of_app, list_elem_of_singleton, gone_cons. intros [H|[= -> ->]]; [left; by apply Hp|by right; eexists].
  - intros t row' [H|[key' [= -> -> ->]]]%gone_cons; rewrite app_assoc, elem_of_app, list_elem_of_singleton; [|by left; right].
    destruct (pr_settled _ _ _ Hp t row' H); [by left; left|right; by apply settled_cons].
  - intros t q. rewrite record_change_in, deleted_cons, (pr_changed _ _ _ Hp). cbn [fst snd]. apply orb_assoc.
  - intros t. rewrite elem_of_union, elem_of_singleton, (pr_touched _ _ _ Hp). setoid_rewrite elem_of_cons. naive_solver.
Qed.
Lemma remove_child_ok current D d child key row : progress current D d → cascade (d_state d0) (d_queue d0) child key →
  state_table (d_state d) child key = Some row →
  progresses current (measure d) (λ D' _, D' = (child, (key, row)) :: D) (remove_child limits admitted_rows admitted_payload_bytes child key d).
Proof using LL Hlimits.
  intros Hp Hc Ht. pose proof (pr_tables _ _ _ Hp child key) as Ht'. rewrite Ht in Ht'. symmetry in Ht'.
  pose proof (in_cascade_cons D child key row (pr_cascade _ _ _ Hp) Hc Ht') as HD.
  destruct (pr_counts _ _ _ Hp) as [Hn Hb], (pr_unbounded _ _ _ Hp) as [Hur Hub].
  assert (limits_ok limits admitted_rows admitted_payload_bytes d) as Hl by (destruct Hlimits; constructor; rewrite ?Hur, ?Hub; done).
  destruct (admit_cascade_ok limits admitted_rows admitted_payload_bytes key d Hl) as (d' & r & E & Hr).
  { rewrite Hn. apply zlen_nonneg. }
  { rewrite Hb. apply zsum_nonneg, Forall_fmap, Forall_true. intros e. apply key_payload_nonneg. }
  assert (cascade_admits limits admitted_rows admitted_payload_bytes d (d_cascade_rows d + 1) (d_cascade_bytes d + key_payload key) ↔
    within ((child, (key, row)) :: D)) as Hw.
  { unfold within, cascade_admits, payload_of. rewrite Hn, Hb, Hur, Hub, zlen_cons. cbn [fmap list_fmap zsum fst snd]. unfold payload_of.
    rewrite (Z.add_comm (zlen D)), (Z.add_comm (zsum _)). split; [by intros H _|intros H; by apply H]. }
  unfold remove_child. rewrite E. unfold d_then at 1. cbn [mbind option_bind]. destruct r as [[]|e].
  2: { exists d', (Err e), ((child, (key, row)) :: D). split; [done|]. rewrite Hw in Hr. tauto. }
  destruct Hr as [-> Hfit]. apply Hw in Hfit. cbn [touch count_cascade d_state d_queue d_changed d_touched d_unbounded_rows d_unbounded_bytes d_cascade_rows d_cascade_bytes].
  unfold state_table in Ht at 1. destruct (st_segments (d_state d) !! child) as [segment|] eqn:Es; [|done].
  destruct (remove_row (d_state d) child segment key (pr_ok _ _ _ Hp) Es) as (rows & Er & Hok & Htab & Htot & _).
  assert (state_table (d_state d) child key = Some row) as Hrow by (unfold state_table; by rewrite Es).
  rewrite Hrow in Er, Htot. rewrite Er. cbn [mbind option_bind]. do 2 eexists. exists ((child, (key, row)) :: D). split; [done|].
  split_and!; [by apply progress_remove| |done]. unfold measure. cbn [d_state d_queue]. rewrite length_app. cbn [length]. lia.
Qed.

Definition extends D D' : Prop := ∀ t q, deleted_in D t q = true → deleted_in D' t q = true.
Lemma remove_children_ok current child (es : list RowEntry) : key_sorted key_cmp es → ∀ D d, progress current D d →
  (∀ e, e ∈ es → cascade (d_state d0) (d_queue d0) child e.1 ∧ state_table (d_state d) child e.1 = Some e.2) →
  progresses current (measure d) (λ D' _, extends D D' ∧ ∀ e, e ∈ es → deleted_in D' child e.1 = true)
    (d_each (remove_child limits admitted_rows admitted_payload_bytes child) es.*1 d).
Proof using LL Hlimits.
  induction es as [|[key row] es IH]; intros Hs D d Hp Hes; cbn [fmap list_fmap d_each].
  { exists d, (Ok ()), D. split_and!; [done|done|done|by intros t q|by intros ? ?%elem_of_nil]. }
  apply key_sorted_cons in Hs as [Hs Hlt]. destruct (Hes (key, row)) as [Hc Ht]; [by apply elem_of_cons; left|].
  eapply progresses_then; [by apply remove_child_ok|]. intros D1 d1 Hp1 Hm1 ->. rewrite <- Hm1.
  destruct (IH Hs _ _ Hp1) as (d2 & r & D2 & E & H2).
  { intros e He. split; [by apply Hes, elem_of_cons; right|]. rewrite (pr_tables _ _ _ Hp1). unfold table_without. rewrite deleted_cons.
    destruct (Hes e) as [_ He']; [by apply elem_of_cons; right|]. rewrite (pr_tables _ _ _ Hp) in He'. unfold table_without in He'. cbn [fst snd].
    assert (key_eqb key e.1 = false) as -> by (pose proof (Hlt e He) as Hke; cbn [fst] in Hke; by rewrite key_eqb_match, Hke). by rewrite andb_false_r. }
  exists d2, r, D2. split; [done|]. destruct r as [[]|e]; [|done]. destruct H2 as (Hp2 & Hm2 & Hext & Hdel). split_and!; [done|done| |].
  - intros t q H. apply Hext. rewrite deleted_cons, H. apply orb_true_r.
  - intros e [->|He]%elem_of_cons; [|by apply Hdel]. apply Hext. rewrite deleted_cons. cbn [fst snd]. by rewrite bool_decide_true, key_eqb_refl.
Qed.

Lemma referring_keys_ok local target (rows : list RowEntry) : (∀ e, e ∈ rows → ∃ k, row_key e.2 local = Some k) →
  referring_keys local target rows =
    Some (List.filter (λ e : RowEntry, match row_key e.2 local with Some k => key_eqb k target | None => false end) rows).*1.
Proof using.
  induction rows as [|[key row] rows IH]; intros H; cbn [referring_keys List.filter]; [done|].
  destruct (H (key, row)) as [k Ek]; [by apply elem_of_cons; left|]. cbn [snd] in Ek |- *. rewrite (matches_key row local target k Ek), Ek.
  cbn [mbind option_bind]. rewrite IH by (intros e He; apply H, elem_of_cons; by right). cbn [mbind option_bind]. by destruct (key_eqb k target).
Qed.

Lemma table_without_row D t q row : table_without D t q = Some row → state_table (d_state d0) t q = Some row.
Proof using. unfold table_without. by destruct (deleted_in D t q). Qed.
Lemma gone_cascade D t row child q : in_cascade D → gone D t row → cascades_to (d_state d0) t row child q →
  cascade (d_state d0) (d_queue d0) child q.
Proof using.
  intros [_ HD] [H|[key H]] Hc; [by eapply cascade_queued|]. destruct (HD t key row H) as [H1 H2]. by eapply cascade_next.
Qed.
Lemma deleted_equal D t p q : key_eqb p q = true → deleted_in D t p = deleted_in D t q.
Proof using.
  intros H. induction D as [|e D IH]; [done|]. rewrite !deleted_cons, IH. f_equal. f_equal.
  rewrite (key_eqb_sym e.2.1 p), (key_eqb_l p q _ H). apply key_eqb_sym.
Qed.

(** The rows that refer to the row by this foreign key are deleted. *)
Definition settled_by D (rs : RelationalTableSchema) row (via : bytes * RelationalTableSchema * RelationalForeignKeySchema) : Prop :=
  ∀ q local referenced target row' k,
    column_positions via.1.2 (fk_columns via.2) = Ok local → column_positions rs (fk_referenced_columns via.2) = Ok referenced →
    row_key row referenced = Some target → key_has_null target = false →
    state_table (d_state d0) via.1.1 q = Some row' → row_key row' local = Some k → key_eqb k target = true → deleted_in D via.1.1 q = true.
(** One foreign key: the rows that refer by it to the current row are deleted. *)
Lemma cascade_to_ok current D d t row rs child s fk : progress current D d → gone D t row →
  st_schemas (d_state d0) !! t = Some rs → length row = length (columns rs) →
  st_schemas (d_state d0) !! child = Some s → fk ∈ foreign_keys s → cascading t fk = true →
  progresses current (measure d) (λ D' _, extends D D' ∧ settled_by D' rs row (child, s, fk))
    (cascade_to limits admitted_rows admitted_payload_bytes rs row (child, s, fk) d).
Proof using LL Hlimits.
  intros Hp Hg Ers Hlen Es Hfk Hcas. apply andb_true_iff in Hcas as [Ht%bool_decide_eq_true Hdel].
  assert (fk_on_delete fk = Cascade) as Hdel' by (by destruct (fk_on_delete fk)). clear Hdel.
  pose proof (pr_ok _ _ _ Hp) as Hok. pose proof Es as Es'. pose proof Ers as Ers'. rewrite <- (pr_schemas _ _ _ Hp) in Es', Ers'.
  destruct (to_targets _ Hok child s fk rs Es' Hfk Hdel' ltac:(by rewrite Ht)) as [referenced Er].
  destruct (positions_in_row rs _ referenced row Er Hlen) as [target Etar].
  destruct (schema_fk_shape s fk (to_valid _ Hok child s Es') Hfk) as [[local El] _].
  destruct (to_segment _ Hok child s Es') as [segment Eseg]. destruct (to_rows _ Hok child segment Eseg) as [Hw _].
  unfold cascade_to. rewrite Er, Etar. cbn [mbind option_bind]. destruct (key_has_null target) eqn:En.
  { exists d, (Ok ()), D. split_and!; [done|done|done|by intros t' q|]. intros q l r tar row' k _. cbn [fst snd]. rewrite Er. intros [= <-]. rewrite Etar. intros [= <-]. congruence. }
  rewrite El, Eseg. assert (key_sorted key_cmp (rows_contents (seg_rows segment))) as Hs by apply Hw.
  assert (∀ e, e ∈ rows_contents (seg_rows segment) → state_table (d_state d) child e.1 = Some e.2) as Hrow.
  { intros e He. by eapply contents_row. }
  change (rows_iter (seg_rows segment)) with (rows_contents (seg_rows segment)).
  rewrite referring_keys_ok.
  2: { intros e He. eapply positions_in_row; [done|]. by apply (to_complete _ Hok child s Es' e.1), Hrow. }
  cbn [mbind option_bind]. set (es := List.filter _ _).
  assert (∀ e, e ∈ es ↔ e ∈ rows_contents (seg_rows segment) ∧ ∃ k, row_key e.2 local = Some k ∧ key_eqb k target = true) as Hes.
  { intros e. unfold es. rewrite list_elem_of_In, List.filter_In, <- list_elem_of_In. destruct (row_key e.2 local); naive_solver. }
  assert (∀ e, e ∈ es → cascade (d_state d0) (d_queue d0) child e.1 ∧ state_table (d_state d) child e.1 = Some e.2) as Hcas.
  { intros e [He (k & Ek & Hk)]%Hes. pose proof (Hrow e He) as He'. split; [|done]. eapply (gone_cascade D t row); [apply Hp|done|].
    exists s, rs, fk, local, referenced, target, e.2, k. split_and!; try done. apply (table_without_row D). by rewrite <- (pr_tables _ _ _ Hp). }
  destruct (remove_children_ok current child es (sorted_filter key_cmp _ _ Hs) D d Hp Hcas) as (d' & r & D' & E & H).
  exists d', r, D'. split; [done|]. destruct r as [[]|e]; [|done]. destruct H as (Hp' & Hm & Hext & Hdel). split_and!; [done|done|done|].
  intros q l r tar row' k. cbn [fst snd]. rewrite El, Er. intros [= <-] [= <-] Et' _ Hq Hk Hkt. rewrite Etar in Et'. injection Et' as <-.
  destruct (deleted_in D child q) eqn:Edq; [by apply Hext|].
  assert (state_table (d_state d) child q = Some row') as Hqd by (rewrite (pr_tables _ _ _ Hp); unfold table_without; by rewrite Edq).
  unfold state_table, table_of, map_get in Hqd. rewrite Eseg in Hqd.
  destruct (get_key_value key_cmp q (rows_contents (seg_rows segment))) as [e|] eqn:Eg; [|done]. injection Hqd as <-.
  apply get_some in Eg as [He Hqe]; [|apply _|done]. rewrite (deleted_equal D' child q e.1) by (by apply key_eqb_cmp).
  apply Hdel, Hes. split; [done|]. by exists k.
Qed.

Lemma cascade_all_ok t row rs : st_schemas (d_state d0) !! t = Some rs → length row = length (columns rs) →
  ∀ vias D d, progress [(t, row)] D d →
  (∀ child s fk, (child, s, fk) ∈ vias → st_schemas (d_state d0) !! child = Some s ∧ fk ∈ foreign_keys s ∧ cascading t fk = true) →
  progresses [(t, row)] (measure d) (λ D' _, extends D D' ∧ ∀ via, via ∈ vias → settled_by D' rs row via)
    (d_each (cascade_to limits admitted_rows admitted_payload_bytes rs row) vias d).
Proof using LL Hlimits.
  intros Ers Hlen vias. induction vias as [|[[child s] fk] vias IH]; intros D d Hp Hv; cbn [d_each].
  { exists d, (Ok ()), D. split_and!; [done|done|done|by intros t' q|by intros ? ?%elem_of_nil]. }
  destruct (Hv child s fk) as (Es & Hfk & Hc); [by apply elem_of_cons; left|].
  assert (gone D t row) as Hg by (apply Hp; by apply elem_of_cons; left).
  eapply progresses_then; [by eapply (cascade_to_ok _ D d t row rs child s fk)|]. intros D1 d1 Hp1 Hm1 [Hext1 Hset1]. rewrite <- Hm1.
  destruct (IH D1 d1 Hp1) as (d2 & r & D2 & E & H2); [intros ? ? ? ?; apply Hv, elem_of_cons; by right|].
  exists d2, r, D2. split; [done|]. destruct r as [[]|e]; [|done]. destruct H2 as (Hp2 & Hm2 & Hext2 & Hset2). split_and!; [done|done| |].
  - intros t' q H. by apply Hext2, Hext1.
  - intros via [->|H]%elem_of_cons; [|by apply Hset2]. intros q l r tar row' k. cbn [fst snd]. intros. by eapply Hext2, Hset1.
Qed.

Lemma elem_of_inbound st t child s fk :
  (child, s, fk) ∈ inbound st t ↔ st_schemas st !! child = Some s ∧ fk ∈ foreign_keys s ∧ cascading t fk = true.
Proof using.
  unfold inbound. rewrite list_elem_of_bind. setoid_rewrite list_elem_of_fmap. setoid_rewrite list_elem_of_In. setoid_rewrite List.filter_In.
  setoid_rewrite <- list_elem_of_In. split.
  - intros ([t' s'] & (fk' & [= -> -> ->] & Hfk) & Hin%elem_of_schemas). done.
  - intros (Es & Hfk). exists (child, s). split; [by exists fk|by apply elem_of_schemas].
Qed.

Context (Hd0 : tables_ok (d_state d0)).
Context (Hqueue : ∀ t row, (t, row) ∈ d_queue d0 → ∃ rs, st_schemas (d_state d0) !! t = Some rs ∧ length row = length (columns rs)).

Lemma gone_row D t row : in_cascade D → gone D t row → ∃ rs, st_schemas (d_state d0) !! t = Some rs ∧ length row = length (columns rs).
Proof using Hd0 Hqueue.
  intros [_ HD] [H|[key H]]; [by apply Hqueue|]. destruct (HD t key row H) as [Hc Hrow].
  assert (∃ s, st_schemas (d_state d0) !! t = Some s) as [s Es] by (destruct Hc as [? ? ? ? _ (s & Hs)|? ? ? ? ? _ _ (s & Hs)]; exists s; naive_solver).
  exists s. split; [done|]. by apply (to_complete _ Hd0 t s Es key).
Qed.

(** The loop ends: with every row of the cascade deleted, or too many. *)
Lemma cascade_loop_ok fuel : ∀ D d, progress [] D d → (measure d < fuel)%nat → ∃ d' r D',
  cascade_loop limits admitted_rows admitted_payload_bytes fuel d = Some (d', r) ∧
  match r with
  | Ok _ => progress [] D' d' ∧ d_queue d' = []
  | Err e => is_admission e ∧ in_cascade D' ∧ ¬ within D'
  end.
Proof using LL Hlimits Hd0 Hqueue.
  induction fuel as [|fuel IH]; intros D d Hp Hm; [lia|]. cbn [cascade_loop]. destruct (d_queue d) as [|[t row] queue] eqn:Eq.
  { by exists d, (Ok ()), D. }
  assert (progress [(t, row)] D (pop queue d)) as Hp'.
  { destruct Hp. rewrite Eq in *. by constructor. }
  destruct (gone_row D t row) as (rs & Ers & Hlen); [apply Hp|apply Hp; rewrite Eq; by apply elem_of_cons; left|].
  cbn [pop d_state]. rewrite (pr_schemas _ _ _ Hp), Ers.
  destruct (cascade_all_ok t row rs Ers Hlen (inbound (d_state d) t) D (pop queue d) Hp') as (d1 & r & D1 & E & H1).
  { intros child s fk. by rewrite elem_of_inbound, (pr_schemas _ _ _ Hp). }
  rewrite E. unfold d_then. cbn [mbind option_bind]. destruct r as [[]|e]; [|by exists d1, (Err e), D1].
  destruct H1 as (Hp1 & Hm1 & _ & Hset). apply (IH D1).
  - assert (settled D1 t row) as Hs.
    { intros child q (s & rs' & fk & l & r & tar & row' & k & Hs & Hfk & Ht & Hd & Hrs & Hl & Hr & H1 & H2 & H3 & H4 & H5).
      rewrite Ers in Hrs. injection Hrs as <-. apply (Hset (child, s, fk)) with l r tar row' k; try done.
      apply elem_of_inbound. rewrite (pr_schemas _ _ _ Hp). unfold cascading. by rewrite bool_decide_true, Hd. }
    destruct Hp1 as [? ? ? ? ? ? ? Hq1 Hs1 ? ?]. constructor; try done.
    + intros t' row' H. apply Hq1. by apply elem_of_cons; right.
    + intros t' row' H. destruct (Hs1 t' row' H) as [[[= -> ->]|H']%elem_of_cons|H']; [by right|by left|by right].
  - rewrite Hm1. unfold measure in *. cbn [pop d_state d_queue]. rewrite Eq in Hm. cbn [length] in Hm. lia.
Qed.

Lemma progress_start : progress [] [] (count_cascade 0 0 d0).
Proof using Hd0.
  constructor; cbn [count_cascade d_state d_queue d_changed d_touched d_cascade_rows d_cascade_bytes d_unbounded_rows d_unbounded_bytes]; try done.
  - split; [done|]. by intros t key row ?%elem_of_nil.
  - intros t row. by left.
  - intros t row [H|[key []%elem_of_nil]]. by left.
  - intros t. split; [by left|]. intros [H|(e & []%elem_of_nil & _)]. done.
Qed.
(** At the end, what is deleted is what the queue reaches. *)
Lemma progress_end D d : progress [] D d → d_queue d = [] → ∀ t q, deleted_in D t q = true ↔ cascade (d_state d0) (d_queue d0) t q.
Proof using.
  intros Hp Eq t q. assert (∀ t row child q, gone D t row → cascades_to (d_state d0) t row child q → deleted_in D child q = true) as Hclosed.
  { intros t' row child q' Hg. destruct (pr_settled _ _ _ Hp t' row Hg) as [H|H]; [|apply H]. rewrite Eq in H. by apply elem_of_nil in H. }
  destruct (pr_cascade _ _ _ Hp) as [_ HD]. split.
  - intros (e & He & [<-%bool_decide_eq_true Hk]%andb_true_iff)%List.existsb_exists. apply list_elem_of_In in He. destruct e as [t [key row]].
    destruct (HD t key row He) as [Hc _]. by eapply cascade_equal.
  - induction 1 as [table row child q Hin Hc|table p row child q Hin IH Hrow Hc]; [by eapply Hclosed; [left|]|].
    apply List.existsb_exists in IH as ([t' [key row']] & He & [<-%bool_decide_eq_true Hk]%andb_true_iff). apply list_elem_of_In in He. cbn [fst snd] in *.
    destruct (HD t' key row' He) as [_ Hrow']. rewrite (state_respects _ _ _ _ Hk), Hrow in Hrow'. injection Hrow' as <-.
    eapply Hclosed; [right; by exists key|done].
Qed.

Lemma deleted_table D t : (∃ e, e ∈ D ∧ e.1 = t) ↔ ∃ q, deleted_in D t q = true.
Proof using.
  split.
  - intros (e & He & <-). exists e.2.1. apply List.existsb_exists. exists e. split; [by apply list_elem_of_In|]. by rewrite bool_decide_true, key_eqb_refl.
  - intros (q & (e & He & [<-%bool_decide_eq_true _]%andb_true_iff)%List.existsb_exists). exists e. split; [by apply list_elem_of_In|done].
Qed.

(** C17: Cascading deletes end, and delete exactly what they should.  Given valid
    schemas with well-formed tables whose rows have a value for every column, such
    that the columns of cascading foreign keys exist, limits and counters that are
    machine words, and queued rows of known tables that have as many values as
    their table has columns (which a transaction that adds a column after the
    deletion does not give: [CascadeDemo.stale_row_panics]): the queue loop ends
    within as many rounds as there are rows, without a panic.  It either deletes exactly the rows reached
    from the queue by foreign keys declared ON DELETE CASCADE (the least set that
    contains every row that refers to a deleted row), which are then all recorded
    as changed, with their tables, and are within the limits; or it is refused,
    and then distinct rows of the cascade exceed the limits on rows or payload
    bytes. *)
Theorem delete_cascade_exact fuel : (measure d0 < fuel)%nat →
  ∃ d r D, apply_delete_cascades limits admitted_rows admitted_payload_bytes fuel d0 = Some (d, r) ∧ in_cascade D ∧
  match r with
  | Ok _ => within D ∧ (∀ t q, deleted_in D t q = true ↔ cascade (d_state d0) (d_queue d0) t q) ∧
      st_schemas (d_state d) = st_schemas (d_state d0) ∧ tables_ok (d_state d) ∧ d_queue d = [] ∧
      (∀ t q, state_table (d_state d) t q = if deleted_in D t q then None else state_table (d_state d0) t q) ∧
      (∀ t q, changed_in (d_changed d) t q = deleted_in D t q || changed_in (d_changed d0) t q) ∧
      (∀ t, t ∈ d_touched d ↔ t ∈ d_touched d0 ∨ ∃ q, deleted_in D t q = true)
  | Err e => is_admission e ∧ ¬ within D
  end.
Proof using LL Hlimits Hd0 Hqueue.
  intros Hf. destruct (cascade_loop_ok fuel [] (count_cascade 0 0 d0) progress_start Hf) as (d & r & D & E & H). exists d, r, D.
  split; [done|]. destruct r as [[]|e]; [|tauto]. destruct H as [Hp Hq]. split_and!; try (by apply Hp); [by apply (progress_end D d)|done|].
  intros t. rewrite (pr_touched _ _ _ Hp). f_equiv. apply deleted_table.
Qed.
End Progress.

(** A forest: each node may name its parent, and goes with it. *)
Module CascadeDemo.
Import Calendar.
#[local] Instance demo_range : TimestampRange := {| min_micros := - 10 ^ 15; max_micros := 10 ^ 15 |}.
#[local] Instance demo_layout : RowLayout := {| size_of_key := 24; size_of_row := 40; size_of_values := 16; size_of_overflow_ref := 64 |}.
#[local] Instance demo_laws : RowLayoutLaws demo_layout.
Proof. constructor; by vm_compute. Qed.
Definition node : bytes := lit "node".
Definition node_schema : RelationalTableSchema :=
  mk_schema node [mk_column (lit "id") TBigInt false None; mk_column (lit "up") TBigInt true None] [lit "id"] []
    [mk_foreign_key [lit "up"] node [lit "id"] Cascade NoAction] [] None.
Definition node_row (n : Z) (up : RelationalValue) : RowEntry := ([RBigInt n], [RBigInt n; up]).
Definition forest_rows : list RowEntry :=
  [node_row 1 RNull; node_row 2 (RBigInt 1); node_row 3 (RBigInt 2); node_row 4 RNull; node_row 5 RNull; node_row 6 (RBigInt 5)].
Definition forest (rows : list RowEntry) : RelationalState :=
  mk_state {[node := node_schema]} {[node := mk_segment (default rows_default (from_map rows)) ∅]}.
Definition forest_limits : RelationalMutationLimits := mk_limits 5 100.
Definition begin (st : RelationalState) (queue : list (bytes * RelationalRow)) : Deletion := mk_deletion st queue ∅ ∅ 0 0 0 0.

Record nodes_ok (rows : list RowEntry) : Prop := {
  no_sorted : key_sorted key_cmp rows;
  no_fit : rows_fit rows;
  no_entries : Forall (entry_ok node_schema) rows;
}.
Lemma forest_segment rows : nodes_ok rows → ∃ rs, st_segments (forest rows) !! node = Some (mk_segment rs ∅) ∧ rows_wf rs ∧ rows_contents rs = rows.
Proof.
  intros [Hs [_ Hf] _]. destruct (from_map_rows rows Hs Hf) as (rs & E & Hc & Hw). exists rs. unfold forest. cbn [st_segments]. rewrite E. split; [|done].
  apply lookup_singleton_eq.
Qed.
Lemma forest_table rows : nodes_ok rows → state_table (forest rows) node = table_of rows.
Proof. intros (rs & E & _ & Hc)%forest_segment. unfold state_table. rewrite E. cbn [seg_rows]. by rewrite Hc. Qed.
Lemma forest_schema rows t s : st_schemas (forest rows) !! t = Some s → t = node ∧ s = node_schema.
Proof. unfold forest. cbn [st_schemas]. by intros [<- <-]%lookup_singleton_Some. Qed.
Lemma forest_tables rows t segment : st_segments (forest rows) !! t = Some segment → t = node.
Proof. unfold forest. cbn [st_segments]. by intros [<- _]%lookup_singleton_Some. Qed.
Lemma forest_ok rows : nodes_ok rows → tables_ok (forest rows).
Proof.
  intros Hn. pose proof Hn as [Hs Hf He]. destruct (forest_segment rows Hn) as (rs & E & Hw & Hc). constructor.
  - intros t s [-> ->]%forest_schema. reflexivity.
  - intros t s [-> ->]%forest_schema. by eexists.
  - intros t segment Et. pose proof (forest_tables _ _ _ Et) as ->. by exists node_schema.
  - intros t segment Et. pose proof (forest_tables _ _ _ Et) as ->. rewrite E in Et. injection Et as <-. cbn [seg_rows].
    by rewrite Hc.
  - intros t s [-> ->]%forest_schema q row. rewrite forest_table by done. unfold table_of, map_get.
    destruct (get_key_value key_cmp q rows) as [e|] eqn:Eg; [|done]. intros [= <-]. apply get_some in Eg as [Hin _]; [|apply _|done].
    apply (validate_row_ok node_schema), (proj1 (Forall_forall _ _) He e Hin).
  - intros t s fk rs' [-> ->]%forest_schema Hfk _ [_ ->]%forest_schema. apply list_elem_of_singleton in Hfk as ->. by exists [0%nat].
Qed.
Ltac nodes := constructor; [unfold key_sorted; by repeat constructor|split; by vm_compute|];
  repeat (apply Forall_cons; split); [..|by apply Forall_nil];
  (constructor; [reflexivity|repeat constructor; by vm_compute|]); do 2 eexists; (split; [reflexivity|]); (split; [reflexivity|]); reflexivity.
Lemma forest_nodes : nodes_ok forest_rows ∧ nodes_ok (tail forest_rows).
Proof. split; unfold forest_rows; cbn [tail]; nodes. Qed.
Lemma limits_forest st queue : limits_ok forest_limits 1 8 (begin st queue).
Proof. constructor; by vm_compute. Qed.

Definition remaining (x : Deletion * result () RelationalError) : list RelationalRow * result () RelationalError :=
  (rows_values (seg_rows (default (mk_segment rows_default ∅) (st_segments (d_state x.1) !! node))), x.2).

(** Node 1 was deleted: 2 and 3 follow. *)
Lemma delete_cascade_exact_witness :
  let d0 := begin (forest (tail forest_rows)) [(node, (node_row 1 RNull).2)] in
  ∃ d D, apply_delete_cascades forest_limits 1 8 7 d0 = Some (d, Ok ()) ∧
    (∀ t q, deleted_in D t q = true ↔ cascade (d_state d0) (d_queue d0) t q) ∧
    (remaining (d, Ok ())).1 = [[RBigInt 4; RNull]; [RBigInt 5; RNull]; [RBigInt 6; RBigInt 5]].
Proof.
  intros d0. destruct (delete_cascade_exact forest_limits 1 8 d0 (limits_forest _ _) (forest_ok _ (proj2 forest_nodes))) with (fuel := 7%nat)
    as (d & r & D & E & HD & H).
  - intros t row [= -> ->]%list_elem_of_singleton. by exists node_schema.
  - by vm_compute.
  - assert (remaining <$> apply_delete_cascades forest_limits 1 8 7 d0 =
      Some ([[RBigInt 4; RNull]; [RBigInt 5; RNull]; [RBigInt 6; RBigInt 5]], Ok ())) as Er by (by vm_compute).
    rewrite E in Er. injection Er as Erows ->. exists d, D. destruct H as (_ & H & _). exact (conj E (conj H Erows)).
Defined.

(** A limit of one row more than admitted refuses the second deletion. *)
Example cascade_refused : ∃ d,
  apply_delete_cascades (mk_limits 2 100) 1 8 7 (begin (forest (tail forest_rows)) [(node, (node_row 1 RNull).2)]) =
  Some (d, Err (Admission "relational delete cascade affects {total_rows} rows, exceeding max_rows {}")).
Proof. eexists. vm_compute. reflexivity. Qed.

(** Queued rows must have the columns of their table: a transaction may delete a
    row, then add a column to its table, declare it unique and create a table that
    refers to it.  The cascade then reads a column the row does not have. *)
Definition coded_node : RelationalTableSchema :=
  mk_schema node [mk_column (lit "id") TBigInt false None; mk_column (lit "up") TBigInt true None; mk_column (lit "code") TBigInt true None]
    [lit "id"] [] [] [mk_index_schema (lit "by_code") [lit "code"] true] None.
Definition leaf : bytes := lit "leaf".
Definition leaf_schema : RelationalTableSchema :=
  mk_schema leaf [mk_column (lit "id") TBigInt false None; mk_column (lit "of") TBigInt true None] [lit "id"] []
    [mk_foreign_key [lit "of"] node [lit "code"] Cascade NoAction] [] None.
Example stale_row_panics d : d_each (cascade_to forest_limits 1 8 coded_node (node_row 1 RNull).2)
  (inbound (mk_state (<[node := coded_node]> {[leaf := leaf_schema]}) ∅) node) d = None.
Proof. vm_compute. reflexivity. Qed.
End CascadeDemo.
