(* ===== verification/TransactionDeletes.v ===== *)
(** The deletions of a transaction as a whole: the writes of [DeleteCascade],
    applied in order, followed by the cascade.  They delete exactly the rows the
    writes name and those that refer to them by cascading foreign keys. *)
From S2P Require Import Prelude Text Ordering Decimal RelationalValue OrderedKey BTreeMap Pages IndexRange RelationalIndex.
From S2P Require Import RelationalIndexSpec Values Numeric RelationalSchema PrimaryKeyRange ResidentRows ResidentRowsSpec MutationRows.
From S2P Require Import NumericExpression IndexMaintenance ForeignKeys DeleteCascade.

(** ** The writes *)

Section Totality.
Context `{C : Chrono} `{TR : TimestampRange} `{L : RowLayout} (s : RelationalTableSchema).

Lemma position_in_row (row : RelationalRow) c i : length row = length (columns s) → column_position s c = Some i → ∃ v, row !! i = Some v.
Proof. intros Hl (column & Hc%lookup_lt_Some & _)%position_bound. apply lookup_lt_is_Some. lia. Qed.
Lemma evaluate_row_total row e : length row = length (columns s) → ∃ r, evaluate_row s row e = Some r.
Proof.
  intros Hl. induction e as [v|name|lhs [x Ex] op rhs [y Ey]|e [x Ex]|e [x Ex] t]; cbn [evaluate_row].
  - by eexists.
  - destruct (column_position s name) as [i|] eqn:E; [|by eexists]. destruct (position_in_row row name i Hl E) as [v ->]. by eexists.
  - rewrite Ex, Ey. cbn [mbind option_bind]. destruct x; by eexists.
  - rewrite Ex. by eexists.
  - rewrite Ex. by eexists.
Qed.
Lemma try_bind_total {A B} (m : option (result A RelationalError)) (k : A → option (result B RelationalError)) :
  (∃ r, m = Some r) → (∀ a, m = Some (Ok a) → ∃ r, k a = Some r) → ∃ r, try_bind m k = Some r.
Proof. intros [[a|e] ->] Hk; cbn [try_bind]; [by apply Hk|by eexists]. Qed.
Lemma predicate_total row p : validate_predicate s p = Ok () → length row = length (columns s) → ∃ r, predicate_truth s row p = Some r.
Proof.
  intros Hv Hl. revert Hv. induction p as [lhs op rhs|e negated|lhs IHl rhs IHr|lhs IHl rhs IHr|p IH|c op v|c negated]; cbn [validate_predicate predicate_truth].
  - intros _. apply try_bind_total; [by apply evaluate_row_total|]. intros x _. apply try_bind_total; [by apply evaluate_row_total|].
    intros y _. destruct (_ || _); by eexists.
  - intros _. apply try_bind_total; [by apply evaluate_row_total|]. intros x _. by eexists.
  - intros ([] & H1 & H2)%result_bind_ok. apply try_bind_total; [by apply IHl|]. intros x _. apply try_bind_total; [by apply IHr|]. intros y _. by eexists.
  - intros ([] & H1 & H2)%result_bind_ok. apply try_bind_total; [by apply IHl|]. intros x _. apply try_bind_total; [by apply IHr|]. intros y _. by eexists.
  - intros H. apply try_bind_total; [by apply IH|]. intros x _. by eexists.
  - destruct (column_position s c) as [i|] eqn:E; [|done]. cbn [mbind option_bind]. destruct (position_in_row row c i Hl E) as [w ->]. intros _. cbn [mbind option_bind].
    destruct (_ || _); [by eexists|]. destruct (_ || _); by eexists.
  - destruct (column_position s c) as [i|] eqn:E; [|done]. cbn [mbind option_bind]. destruct (position_in_row row c i Hl E) as [w ->]. intros _. by eexists.
Qed.
Lemma candidates_total rs p lookup : rows_wf rs → ∃ r, mutation_candidate_rows rs s p lookup = Some r ∧
  ∀ candidates, r = Ok candidates → ∀ e, e ∈ candidates → e ∈ rows_contents rs.
Proof.
  intros Hw. unfold mutation_candidate_rows. assert (key_sorted key_cmp (rows_contents rs)) as Hs by apply Hw.
  assert (∃ o, (if lookup then mutation_primary_key s p else Some None) = Some o) as [key ->].
  { destruct lookup; [|by eexists]. unfold mutation_primary_key. destruct (_ || _) eqn:E; [by eexists|]. apply orb_false_iff in E as [_ E].
    destruct (mapM_equality_some _ _ E) as [k ->]. by eexists. }
  cbn [mbind option_bind].
  assert (∃ point, match key with Some key => rows_get_key_value key rs | None => Some None end = Some point ∧
    ∀ e, e ∈ option_list point → e ∈ rows_contents rs) as (point & -> & Hpoint).
  { destruct key as [key|]; [|exists None; split; [done|by intros e ?%elem_of_nil]]. destruct (rows_get_ok key rs Hw) as [_ ->]. eexists. split; [done|].
    intros e. destruct (get_key_value _ _ _) as [e'|] eqn:E; [|by intros ?%elem_of_nil]. apply get_some in E as [He _]; [|apply _|done].
    by intros ->%list_elem_of_singleton. }
  cbn [mbind option_bind]. set (scan := match key with Some _ => false | None => true end).
  destruct (if lookup && scan then mutation_primary_key_range s p else Ok None) as [range|e]; [|by eexists]. rewrite rows_range_ok by done. cbn [mbind option_bind].
  eexists. split; [done|]. intros ? [= <-] e [He|He]%elem_of_app; [by apply Hpoint|]. destruct scan; [|by apply elem_of_nil in He].
  apply list_elem_of_In, List.filter_In in He as [He _]. by apply list_elem_of_In.
Qed.
Lemma matching_total limits p candidates : validate_predicate s p = Ok () → (∀ e, e ∈ candidates → length e.2 = length (columns s)) →
  ∀ keys, ∃ r, matching_rows limits s p candidates keys = Some r ∧
    ∀ e, r = Err e → ∃ row, predicate_truth s row p = Some (Err e).
Proof.
  intros Hv. induction candidates as [|[key row] candidates IH]; intros Hc keys; cbn [matching_rows]; [by eexists|].
  destruct (predicate_total row p Hv) as [r Er]; [apply (Hc (key, row)); by apply elem_of_cons; left|]. rewrite Er.
  destruct r as [truth|e]; cbn [try_bind]; [|exists (Err e); split; [done|]; intros ? [= <-]; by exists row].
  assert (∀ e, e ∈ candidates → length e.2 = length (columns s)) as Hc' by (intros e He; apply Hc, elem_of_cons; by right).
  case_bool_decide; [|by apply IH]. destruct (_ >? _); [by eexists|by apply IH].
Qed.
End Totality.

Section Writes.
Context `{C : Chrono} `{TR : TimestampRange} `{L : RowLayout} {LL : RowLayoutLaws L}.
Context (limits : RelationalMutationLimits) (admitted_rows admitted_payload_bytes : Z) (d0 : Deletion).
Abbreviation Selection := (bytes → RelationalKey → RelationalRow → Prop).
Implicit Types (t table child : bytes) (d : Deletion) (key q : RelationalKey) (row : RelationalRow) (T : gset bytes) (S : Selection).

(** The selected rows are taken out of the state and queued; every change is
    recorded, and its table is touched or about to be ([T]). *)
Record removing T S d : Prop := {
  rm_schemas : st_schemas (d_state d) = st_schemas (d_state d0);
  rm_ok : tables_ok (d_state d);
  rm_limits : limits_ok limits admitted_rows admitted_payload_bytes d;
  rm_measure : measure d = measure d0;
  rm_entries : ∀ t segment, st_segments (d_state d) !! t = Some segment → ∃ segment0, st_segments (d_state d0) !! t = Some segment0 ∧
    ∀ e, e ∈ rows_contents (seg_rows segment) → e ∈ rows_contents (seg_rows segment0);
  rm_none : ∀ t q, state_table (d_state d0) t q = None → state_table (d_state d) t q = None;
  rm_rows : ∀ t q row, state_table (d_state d0) t q = Some row →
    (state_table (d_state d) t q = Some row ∧ ¬ S t q row) ∨ (state_table (d_state d) t q = None ∧ (t, row) ∈ d_queue d ∧ S t q row);
  rm_queue : ∀ t row, (t, row) ∈ d_queue d → ∃ q, state_table (d_state d0) t q = Some row ∧ S t q row;
  rm_changed : ∀ t q, state_table (d_state d) t q = state_table (d_state d0) t q ∨ changed_in (d_changed d) t q = true ∧ t ∈ T ∪ d_touched d;
}.
Lemma removing_ext T S S' d : (∀ t q row, state_table (d_state d0) t q = Some row → S t q row ↔ S' t q row) → removing T S d → removing T S' d.
Proof using LL.
  intros HS [H1 H2 H3 H4 H5 H6 H7 H8 H9]. constructor; try done.
  - intros t q row H. rewrite <- (HS t q row H). by apply H7.
  - intros t row H. destruct (H8 t row H) as (q & Hq & Hs). exists q. split; [done|]. by apply HS.
Qed.
Lemma removing_some T S d t q row : removing T S d → state_table (d_state d) t q = Some row → state_table (d_state d0) t q = Some row.
Proof using LL.
  intros Hr Hq. destruct (state_table (d_state d0) t q) as [row'|] eqn:E; [|rewrite (rm_none _ _ _ Hr t q E) in Hq; done].
  destruct (rm_rows _ _ _ Hr t q row' E) as [[H _]|[H _]]; congruence.
Qed.

Definition select table (keys : list RelationalKey) S : Selection := λ t q row, S t q row ∨ table = t ∧ member keys q = true.

Lemma delete_key_ok T S d table key : removing T S d → table ∈ T → st_schemas (d_state d0) !! table ≠ None →
  ∃ d', delete_key table key d = Some (d', Ok ()) ∧ removing T (select table [key] S) d'.
Proof using LL.
  intros Hr HT Hs. destruct (st_schemas (d_state d0) !! table) as [s|] eqn:Es; [|done]. rewrite <- (rm_schemas _ _ _ Hr) in Es.
  destruct (to_segment _ (rm_ok _ _ _ Hr) table s Es) as [segment Eseg].
  destruct (remove_row (d_state d) table segment key (rm_ok _ _ _ Hr) Eseg) as (rows & Er & Hok & Htab & Htot & Hsub).
  unfold delete_key. rewrite Eseg, Er. cbn [mbind option_bind]. eexists. split; [done|].
  assert (∀ t q, bool_decide (table = t) && key_eqb key q = true ↔ table = t ∧ member [key] q = true) as Hmem.
  { intros t q. cbn [member existsb]. by rewrite andb_true_iff, bool_decide_eq_true, orb_false_r. }
  pose proof (rm_limits _ _ _ Hr) as [Hl1 Hl2 Hl3]. unfold select. constructor; cbn [d_state d_queue d_changed d_touched]; try done.
  - apply Hr.
  - rewrite <- (rm_measure _ _ _ Hr). unfold measure. cbn [d_state d_queue]. destruct (state_table (d_state d) table key); [rewrite length_app; cbn [length]|]; lia.
  - intros t seg. unfold set_segment_rows. cbn [st_segments]. intros [[<- <-]|[_ E]]%lookup_insert_Some; [|by apply Hr].
    destruct (rm_entries _ _ _ Hr table segment Eseg) as (seg0 & E0 & H0). exists seg0. split; [done|]. intros e He. by apply H0, Hsub.
  - intros t q H. rewrite Htab. destruct (_ && _); [done|]. by apply Hr.
  - intros t q row H. rewrite Htab, <- Hmem. destruct (bool_decide (table = t) && key_eqb key q) eqn:E.
    + apply andb_true_iff in E as [->%bool_decide_eq_true Hk]. right. split; [done|]. split; [|by right]. rewrite (state_respects _ _ _ _ Hk).
      destruct (rm_rows _ _ _ Hr t q row H) as [[-> _]|[-> [Hq _]]]; [apply elem_of_app; right; by apply list_elem_of_singleton|done].
    + destruct (rm_rows _ _ _ Hr t q row H) as [[-> HS]|[-> [Hq HS]]]; [left|right]; [naive_solver|]. split; [done|]. split; [|by left].
      destruct (state_table (d_state d) table key); [apply elem_of_app; by left|done].
  - intros t row. setoid_rewrite <- Hmem. destruct (state_table (d_state d) table key) as [row'|] eqn:E.
    2: { intros H. destruct (rm_queue _ _ _ Hr t row H) as (q & Hq & HS). exists q. tauto. }
    intros [H|[= -> ->]%list_elem_of_singleton]%elem_of_app; [destruct (rm_queue _ _ _ Hr t row H) as (q & Hq & HS); exists q; tauto|].
    exists key. split; [by eapply removing_some|right]. by rewrite bool_decide_true, key_eqb_refl.
  - intros t q. rewrite Htab, record_change_in. destruct (bool_decide (table = t) && key_eqb key q) eqn:E.
    + apply andb_true_iff in E as [<-%bool_decide_eq_true _]. right. split; [done|]. by apply elem_of_union; left.
    + destruct (rm_changed _ _ _ Hr t q) as [H|[H1 H2]]; [by left|right]. by rewrite H1, orb_true_r.
Qed.
Lemma delete_keys_ok T table keys : table ∈ T → st_schemas (d_state d0) !! table ≠ None → ∀ S d, removing T S d →
  ∃ d', d_each (delete_key table) keys d = Some (d', Ok ()) ∧ removing T (select table keys S) d'.
Proof using LL.
  intros HT Hs. induction keys as [|key keys IH]; intros S d Hr; cbn [d_each].
  { exists d. split; [done|]. eapply removing_ext; [|done]. intros t q row _. unfold select. cbn. naive_solver. }
  destruct (delete_key_ok T S d table key Hr HT Hs) as (d1 & E1 & Hr1). destruct (IH _ d1 Hr1) as (d2 & E2 & Hr2).
  exists d2. rewrite E1. unfold d_then. cbn [mbind option_bind]. split; [done|]. eapply removing_ext; [|done].
  intros t q row _. unfold select. cbn [member existsb]. fold (member keys q). rewrite orb_false_r, orb_true_iff. tauto.
Qed.
(** The keys of a write, once they are known. *)
Lemma delete_table_ok S d table keys : removing ∅ S d → st_schemas (d_state d0) !! table ≠ None →
  ∃ d', d_then (d_each (delete_key table) keys d) (λ d, finish (touch table d)) = Some (d', Ok ()) ∧ removing ∅ (select table keys S) d'.
Proof using LL.
  intros Hr Hs. assert (removing {[table]} S d) as Hr'.
  { destruct Hr as [H1 H2 H3 H4 H5 H6 H7 H8 H9]. constructor; try done. intros t q. destruct (H9 t q) as [H|[Ha Hb]]; [by left|right]. set_solver. }
  destruct (delete_keys_ok {[table]} table keys ltac:(set_solver) Hs S d Hr') as (d1 & E & Hr1). rewrite E. eexists. split; [done|].
  destruct Hr1 as [H1 H2 [Hl1 Hl2 Hl3] H4 H5 H6 H7 H8 H9]. constructor; try done. cbn [touch d_state d_changed d_touched].
  intros t q. destruct (H9 t q) as [H|[Ha Hb]]; [by left|right]. set_solver.
Qed.

(** The rows a write names. *)
Definition selects (w : DeleteWrite) : Selection := λ t q row,
  match w with
  | DeleteByPrimaryKey table keys => table = t ∧ member keys q = true
  | DeleteWhere table p => table = t ∧ ∃ s, st_schemas (d_state d0) !! table = Some s ∧ row_holds s p row = true
  end.
(** Why a write is refused. *)
Definition is_view (w : DeleteWrite) : Prop :=
  ∃ s view, st_schemas (d_state d0) !! write_table w = Some s ∧ materialized_view s = Some view.
Definition write_refused (w : DeleteWrite) (e : RelationalError) : Prop :=
  (e = unknown_table (write_table w) ∧ st_schemas (d_state d0) !! write_table w = None) ∨
  (e = read_only (write_table w) ∧ is_view w) ∨
  ∃ s p, w = DeleteWhere (write_table w) p ∧ st_schemas (d_state d0) !! write_table w = Some s ∧
    (is_admission e ∨ validate_predicate s p = Err e ∨ (∃ row, predicate_truth s row p = Some (Err e)) ∨
     e = unsupported_value ∧ ∃ c op v, (c, op, v) ∈ conjuncts p ∧ unrangeable v = true).

Lemma matching_exact s p candidates : ∀ keys0 keys, matching_rows limits s p candidates keys0 = Some (Ok keys) → zlen keys ≤ max_rows limits →
  keys = keys0 ++ (List.filter (λ e : RowEntry, row_holds s p e.2) candidates).*1.
Proof using.
  induction candidates as [|[key row] candidates IH]; intros keys0 keys; cbn [matching_rows List.filter]; [intros [= <-] _; by rewrite app_nil_r|].
  cbn [snd]. unfold row_holds at 1. destruct (predicate_truth s row p) as [[truth|e]|]; cbn [try_bind]; [|done|done]. case_bool_decide as E.
  - subst truth. destruct (_ >? _) eqn:Em; [intros [= <-]; lia|]. intros H Hk. rewrite (IH _ _ H Hk), <- app_assoc. done.
  - intros H Hk. rewrite (IH _ _ H Hk). destruct truth as [[]|]; done.
Qed.
Lemma keys_payload_nonneg keys : ∀ b z, 0 ≤ b → keys_payload b keys = Some z → 0 ≤ z.
Proof using LL.
  induction keys as [|key keys IH]; intros b z Hb; cbn [keys_payload]; [by intros [= <-]|].
  unfold relational_key_payload_bytes. rewrite payload_sum_ok by done. pose proof (key_payload_nonneg key). unfold Prelude.checked_add.
  destruct (0 + key_payload key <=? usize_max); [|done]. cbn [mbind option_bind]. destruct (b + _ <=? usize_max); [|done]. cbn [mbind option_bind].
  apply IH. lia.
Qed.
Ltac admission_error := do 2 eexists; split; [done|by eexists].
Lemma admit_unbounded_ok keys d : limits_ok limits admitted_rows admitted_payload_bytes d →
  ∃ d' r, admit_unbounded limits admitted_rows admitted_payload_bytes keys d = Some (d', r) ∧
    match r with
    | Ok _ => zlen keys ≤ max_rows limits ∧ ∃ rows bytes, d' = count_unbounded rows bytes d ∧ 0 ≤ rows ∧ 0 ≤ bytes
    | Err e => is_admission e
    end.
Proof using LL.
  intros [_ _ [Hr Hb]]. unfold admit_unbounded, admission, refuse.
  destruct (zlen keys >? _) eqn:Ek; [admission_error|]. unfold Prelude.checked_add at 1.
  destruct (d_unbounded_rows d + zlen keys <=? usize_max); [|admission_error].
  destruct (exceeds _ _); [admission_error|]. cbn [count_unbounded d_unbounded_bytes].
  destruct (keys_payload 0 keys) as [payload|] eqn:Ep; cbn [mbind option_bind]; [|admission_error]. apply keys_payload_nonneg in Ep; [|done].
  unfold Prelude.checked_add at 1. destruct (d_unbounded_bytes d + payload <=? usize_max); [|admission_error]. destruct (exceeds _ _); [admission_error|].
  do 2 eexists. split; [done|]. split; [lia|]. do 2 eexists. split; [done|]. pose proof (zlen_nonneg keys). lia.
Qed.
Lemma removing_count S rows bytes d : removing ∅ S d → 0 ≤ rows → 0 ≤ bytes → removing ∅ S (count_unbounded rows bytes d).
Proof using LL. intros [H1 H2 [Hl1 Hl2 Hl3] H4 H5 H6 H7 H8 H9] Hr Hb. by constructor. Qed.

(** The rows of the tables are valid and stored under their keys. *)
Definition entries_ok : Prop := ∀ t s segment, st_schemas (d_state d0) !! t = Some s → st_segments (d_state d0) !! t = Some segment →
  Forall (entry_ok s) (rows_contents (seg_rows segment)).
(** The values a predicate compares with are well formed. *)
Definition literals_ok (w : DeleteWrite) : Prop :=
  match w with DeleteByPrimaryKey _ _ => True | DeleteWhere _ p => ∀ c op v, (c, op, v) ∈ conjuncts p → bound_wf v end.

(** The keys found for a predicate are those of the rows it holds for. *)
Lemma found_keys d table segment s p q row : rows_wf (seg_rows segment) → st_segments (d_state d) !! table = Some segment →
  state_table (d_state d) table q = Some row →
  member (List.filter (λ e : RowEntry, row_holds s p e.2) (rows_contents (seg_rows segment))).*1 q = row_holds s p row.
Proof using.
  intros Hw E Hq. apply eq_true_iff_eq. rewrite member_elem. setoid_rewrite list_elem_of_fmap. setoid_rewrite list_elem_of_In. setoid_rewrite List.filter_In.
  setoid_rewrite <- list_elem_of_In. split.
  - intros (k & (e & -> & He & Hh) & Hk). pose proof (contents_row _ _ _ e E Hw He) as H. rewrite (state_respects _ _ _ _ Hk), Hq in H. by injection H as ->.
  - intros Hh. unfold state_table, table_of, map_get in Hq. rewrite E in Hq. destruct (get_key_value key_cmp q _) as [e|] eqn:Eg; [|done]. injection Hq as <-.
    apply get_some in Eg as [He Hk]; [|apply _|apply Hw]. exists e.1. split; [by exists e|]. rewrite key_eqb_sym. by apply key_eqb_cmp.
Qed.

Lemma delete_where_ok lookup table p S d : removing ∅ S d → entries_ok → literals_ok (DeleteWhere table p) →
  ∃ d' r, delete_where limits admitted_rows admitted_payload_bytes table p lookup d = Some (d', r) ∧
    match r with
    | Ok _ => removing ∅ (λ t q row, S t q row ∨ selects (DeleteWhere table p) t q row) d'
    | Err e => write_refused (DeleteWhere table p) e
    end.
Proof using LL.
  intros Hr He Hl. unfold write_refused. cbn [write_table]. unfold delete_where. rewrite (rm_schemas _ _ _ Hr).
  destruct (st_schemas (d_state d0) !! table) as [s|] eqn:Es.
  2: { exists d, (Err (unknown_table table)). split; [done|]. by left. }
  destruct (validate_predicate s p) as [[]|e] eqn:Ev; [|exists d, (Err e); split; [done|]; right; right; exists s, p; tauto].
  pose proof Es as Es'. rewrite <- (rm_schemas _ _ _ Hr) in Es'. destruct (to_segment _ (rm_ok _ _ _ Hr) table s Es') as [segment Eseg]. rewrite Eseg.
  destruct (to_rows _ (rm_ok _ _ _ Hr) table segment Eseg) as [Hw _].
  assert (Forall (entry_ok s) (rows_contents (seg_rows segment))) as Hent.
  { destruct (rm_entries _ _ _ Hr table segment Eseg) as (seg0 & E0 & Hsub). apply Forall_forall. intros e Hin.
    apply (proj1 (Forall_forall _ _) (He table s seg0 Es E0)). by apply Hsub. }
  pose proof (candidates_exact s (seg_rows segment) p lookup Hw Hent Ev Hl) as Hc.
  destruct (mutation_candidate_rows (seg_rows segment) s p lookup) as [[candidates|e]|] eqn:Ec; [| |done]; cbn [try_bind].
  2: { exists d, (Err e). split; [done|]. right; right. exists s, p. split_and!; [done|done|]. by right; right; right. }
  destruct Hc as (Hf & Hin & _).
  destruct (matching_total s limits p candidates Ev) with (keys := [] : list RelationalKey) as (r & Em & Herr).
  { intros e Hce. apply (to_complete _ (rm_ok _ _ _ Hr) table s Es' e.1). eapply contents_row; [done|done|by apply Hin]. }
  rewrite Em. cbn [mbind option_bind]. destruct r as [keys|e].
  2: { exists d, (Err e). split; [done|]. right; right. exists s, p. split_and!; [done|done|]. right; right; left. by apply Herr. }
  destruct (admit_unbounded_ok keys d (rm_limits _ _ _ Hr)) as (d1 & r & Ea & Ha). rewrite Ea. unfold d_then at 1. cbn [mbind option_bind].
  destruct r as [[]|e]; [|exists d1, (Err e); split; [done|]; right; right; exists s, p; tauto].
  destruct Ha as (Hmax & rows & bytes & -> & Hrows & Hbytes). pose proof (matching_exact s p candidates [] keys Em Hmax) as Hkeys.
  rewrite Hf in Hkeys. cbn [app] in Hkeys.
  destruct (delete_table_ok S _ table keys (removing_count S rows bytes d Hr Hrows Hbytes) ltac:(by rewrite Es)) as (d' & Ed & Hr').
  exists d', (Ok ()). split; [done|]. eapply removing_ext; [|done]. intros t q row Hq. unfold select, selects.
  destruct (rm_rows _ _ _ Hr t q row Hq) as [[Hd HS]|[_ [_ HS]]]; [|tauto]. apply or_iff_compat_l. split; intros [-> H]; (split; [done|]); revert H;
    rewrite Hkeys, (found_keys d t segment s p q row Hw Eseg Hd); naive_solver.
Qed.

Lemma reject_write_ok w S d : removing ∅ S d →
  match reject_write (d_state d) w with Ok _ => ¬ is_view w | Err e => e = read_only (write_table w) ∧ is_view w end.
Proof using.
  intros Hr. unfold reject_write, is_view. rewrite (rm_schemas _ _ _ Hr).
  destruct (st_schemas (d_state d0) !! write_table w) as [s|]; cbn [mbind option_bind]; [|naive_solver].
  destruct (materialized_view s) as [view|] eqn:E; naive_solver.
Qed.
Lemma apply_delete_ok lookup w S d : removing ∅ S d → entries_ok → literals_ok w →
  ∃ d' r, apply_delete limits admitted_rows admitted_payload_bytes lookup w d = Some (d', r) ∧
    match r with Ok _ => ¬ is_view w ∧ removing ∅ (λ t q row, S t q row ∨ selects w t q row) d' | Err e => write_refused w e end.
Proof using LL.
  intros Hr He Hl. pose proof (reject_write_ok w S d Hr) as Hv. unfold apply_delete. destruct (reject_write (d_state d) w) as [[]|e].
  2: { exists d, (Err e). split; [done|]. right; left. done. }
  destruct w as [table keys|table p].
  2: { destruct (delete_where_ok lookup table p S d Hr He Hl) as (d' & r & E & H). exists d', r. split; [done|]. by destruct r. }
  unfold delete_by_primary_key. destruct (st_segments (d_state d) !! table) as [segment|] eqn:E.
  - destruct (to_schema _ (rm_ok _ _ _ Hr) table segment E) as [s Es]. rewrite (rm_schemas _ _ _ Hr) in Es.
    destruct (delete_table_ok S d table keys Hr ltac:(by rewrite Es)) as (d' & Ed & Hr'). by exists d', (Ok ()).
  - exists d, (Err (unknown_table table)). split; [done|]. left. split; [done|]. apply eq_None_not_Some. intros [s Es]. cbn [write_table] in Es.
    rewrite <- (rm_schemas _ _ _ Hr) in Es. destruct (to_segment _ (rm_ok _ _ _ Hr) table s Es). congruence.
Qed.
Definition selected (ws : list DeleteWrite) : Selection := λ t q row, ∃ w, w ∈ ws ∧ selects w t q row.
Lemma writes_ok lookup ws : entries_ok → (∀ w, w ∈ ws → literals_ok w) → ∀ S d, removing ∅ S d →
  ∃ d' r, d_each (apply_delete limits admitted_rows admitted_payload_bytes lookup) ws d = Some (d', r) ∧
    match r with
    | Ok _ => (∀ w, w ∈ ws → ¬ is_view w) ∧ removing ∅ (λ t q row, S t q row ∨ selected ws t q row) d'
    | Err e => ∃ w, w ∈ ws ∧ write_refused w e
    end.
Proof using LL.
  intros He. induction ws as [|w ws IH]; intros Hl S d Hr; cbn [d_each].
  { exists d, (Ok ()). split; [done|]. split; [by intros w ?%elem_of_nil|].
    eapply removing_ext; [|done]. intros t q row _. unfold selected. setoid_rewrite elem_of_nil. naive_solver. }
  destruct (apply_delete_ok lookup w S d Hr He) as (d1 & r & E & H1); [by apply Hl, elem_of_cons; left|]. rewrite E. unfold d_then. cbn [mbind option_bind].
  destruct r as [[]|e]; [|exists d1, (Err e); split; [done|]; exists w; split; [by apply elem_of_cons; left|done]].
  destruct H1 as [Hv H1].
  destruct (IH ltac:(intros w' Hw'; apply Hl, elem_of_cons; by right) _ d1 H1) as (d2 & r & E2 & H2). exists d2, r. split; [done|].
  destruct r as [[]|e].
  - destruct H2 as [Hvs H2]. split; [by intros w' [->|Hw']%elem_of_cons; [|by apply Hvs]|].
    eapply removing_ext; [|done]. intros t q row _. unfold selected. setoid_rewrite elem_of_cons. naive_solver.
  - destruct H2 as (w' & Hw' & H2). exists w'. split; [by apply elem_of_cons; right|done].
Qed.

(** ** The deletions of a transaction, as a whole *)

(** The rows to delete: those the writes name, and those that refer to them by
    cascading foreign keys. *)
Inductive doomed (ws : list DeleteWrite) : bytes → RelationalKey → Prop :=
  | doomed_selected t q row : state_table (d_state d0) t q = Some row → selected ws t q row → doomed ws t q
  | doomed_cascade t p row child q : doomed ws t p → state_table (d_state d0) t p = Some row → cascades_to (d_state d0) t row child q →
      doomed ws child q.
(** The rows of cascading foreign keys refer to rows. *)
Definition cascade_references (st : RelationalState) : Prop := ∀ child s fk rs local referenced,
  st_schemas st !! child = Some s → fk ∈ foreign_keys s → fk_on_delete fk = Cascade → st_schemas st !! fk_referenced_table fk = Some rs →
  column_positions s (fk_columns fk) = Ok local → column_positions rs (fk_referenced_columns fk) = Ok referenced →
  rows_refer (state_table st child) (state_table st (fk_referenced_table fk)) local referenced.

Context (Hd0 : tables_ok (d_state d0)) (Hlimits : limits_ok limits admitted_rows admitted_payload_bytes d0) (Hempty : d_queue d0 = []).

Lemma removing_start : removing ∅ (λ _ _ _, False) d0.
Proof using Hd0 Hlimits Hempty LL.
  constructor; try done.
  - intros t segment E. by exists segment.
  - intros t q row H. left. split; [done|by intros []].
  - intros t row. rewrite Hempty. by intros ?%elem_of_nil.
  - intros t q. by left.
Qed.
Lemma table_schema t q row : state_table (d_state d0) t q = Some row → ∃ s, st_schemas (d_state d0) !! t = Some s ∧ length row = length (columns s).
Proof using Hd0.
  intros H. assert (∃ s, st_schemas (d_state d0) !! t = Some s) as [s Es].
  { unfold state_table in H. destruct (st_segments (d_state d0) !! t) as [segment|] eqn:E; [|done]. by apply (to_schema _ Hd0 t segment). }
  exists s. split; [done|]. by apply (to_complete _ Hd0 t s Es q).
Qed.

Section Cascade.
Context (ws : list DeleteWrite) (d1 d : Deletion) (D : list Deleted).
Context (Hr : removing ∅ (λ t q row, False ∨ selected ws t q row) d1) (Hp : progress limits admitted_rows admitted_payload_bytes d1 [] D d) (Hq : d_queue d = []).

Lemma cascades_to_back t row child q : cascades_to (d_state d1) t row child q → cascades_to (d_state d0) t row child q.
Proof using Hr LL.
  intros (s & rs & fk & l & r & target & row' & k & H). exists s, rs, fk, l, r, target, row', k. rewrite (rm_schemas _ _ _ Hr) in H.
  destruct_and? H. split_and!; try done. by eapply removing_some.
Qed.
Lemma cascades_to_kept t row child q : cascades_to (d_state d0) t row child q →
  state_table (d_state d1) child q = None ∨ cascades_to (d_state d1) t row child q.
Proof using Hr.
  intros (s & rs & fk & l & r & target & row' & k & H). destruct_and? H.
  destruct (rm_rows _ _ _ Hr child q row') as [[Hk _]|[Hk _]]; [done|right|by left].
  exists s, rs, fk, l, r, target, row', k. rewrite (rm_schemas _ _ _ Hr). by split_and!.
Qed.
Lemma final_table t q : state_table (d_state d) t q = if deleted_in D t q then None else state_table (d_state d1) t q.
Proof using Hp. apply Hp. Qed.
Lemma deleted_cascade t q : deleted_in D t q = true ↔ cascade (d_state d1) (d_queue d1) t q.
Proof using Hp Hq. by apply (progress_end limits admitted_rows admitted_payload_bytes d1 D d). Qed.

(** Rows to delete are deleted ... *)
Lemma doomed_gone t q : doomed ws t q → state_table (d_state d) t q = None.
Proof using Hr Hp Hq.
  induction 1 as [t q row Hrow Hs|t p row child q Hd IH Hrow Hc]; rewrite final_table in *.
  - destruct (rm_rows _ _ _ Hr t q row Hrow) as [[_ H]|[-> _]]; [tauto|]. by destruct (deleted_in D t q).
  - destruct (cascades_to_kept t row child q Hc) as [->|Hc1]; [by destruct (deleted_in D child q)|].
    assert (deleted_in D child q = true) as ->; [|done]. apply deleted_cascade.
    destruct (rm_rows _ _ _ Hr t p row Hrow) as [[Hk _]|(_ & Hin & _)]; [|by eapply cascade_queued].
    eapply cascade_next; [apply deleted_cascade|done|done]. rewrite Hk in IH. by destruct (deleted_in D t p).
Qed.
(** ... and only they. *)
Lemma gone_doomed t q row : state_table (d_state d0) t q = Some row → state_table (d_state d) t q = None → doomed ws t q.
Proof using Hr Hp Hq LL.
  intros Hrow. rewrite final_table. destruct (rm_rows _ _ _ Hr t q row Hrow) as [[-> _]|(_ & _ & [[]|Hs])]; [|by intros; eapply doomed_selected].
  destruct (deleted_in D t q) eqn:E; [|done]. intros _. apply deleted_cascade in E. clear Hrow row.
  induction E as [t row child q Hin Hc|t p row child q Hc' IH Hrow Hc].
  - destruct (rm_queue _ _ _ Hr t row Hin) as (p & Hp' & [[]|Hs]). eapply doomed_cascade; [by eapply doomed_selected|done|by apply cascades_to_back].
  - eapply doomed_cascade; [done|by eapply removing_some|by apply cascades_to_back].
Qed.
Lemma kept_row t q : ¬ doomed ws t q → state_table (d_state d) t q = state_table (d_state d0) t q.
Proof using Hr Hp Hq LL.
  intros Hn. destruct (state_table (d_state d0) t q) as [row|] eqn:E.
  - destruct (state_table (d_state d) t q) as [row'|] eqn:E'; [|by destruct Hn; eapply gone_doomed]. rewrite final_table in E'.
    destruct (deleted_in D t q); [done|]. apply (removing_some _ _ d1 t q row' Hr) in E'. congruence.
  - rewrite final_table, (rm_none _ _ _ Hr t q E). by destruct (deleted_in D t q).
Qed.
Lemma final_schemas : st_schemas (d_state d) = st_schemas (d_state d0).
Proof using Hr Hp. by rewrite (pr_schemas _ _ _ _ _ _ _ Hp), (rm_schemas _ _ _ Hr). Qed.
Lemma final_row t q row : state_table (d_state d) t q = Some row → state_table (d_state d0) t q = Some row.
Proof using Hr Hp LL. rewrite final_table. destruct (deleted_in D t q); [done|]. by eapply removing_some. Qed.
Lemma final_references : cascade_references (d_state d0) → cascade_references (d_state d).
Proof using Hr Hp Hq LL.
  unfold cascade_references. rewrite final_schemas. intros Hrefs child s fk rs local referenced Es Hfk Hdel Ers El Er q row k Hrow Hk Hn.
  pose proof (final_row child q row Hrow) as Hrow0.
  destruct (Hrefs child s fk rs local referenced Es Hfk Hdel Ers El Er q row k Hrow0 Hk Hn) as (p & target & rk & Hp' & Hrk & Hrkk).
  destruct (state_table (d_state d) (fk_referenced_table fk) p) as [target'|] eqn:Et.
  - exists p, target', rk. pose proof (final_row _ _ _ Et). split_and!; [done|congruence|done].
  - assert (doomed ws child q) as Hdoom; [|rewrite (doomed_gone child q Hdoom) in Hrow; done].
    eapply doomed_cascade; [by eapply gone_doomed|done|]. exists s, rs, fk, local, referenced, rk, row, k. split_and!; try done.
    + by rewrite (key_null_eq rk k Hrkk).
    + by rewrite key_eqb_sym.
Qed.
Lemma final_changes t q : state_table (d_state d) t q = state_table (d_state d0) t q ∨ changed_in (d_changed d) t q = true ∧ t ∈ d_touched d.
Proof using Hr Hp LL.
  rewrite final_table, (pr_changed _ _ _ _ _ _ _ Hp), (pr_touched _ _ _ _ _ _ _ Hp), deleted_table.
  destruct (deleted_in D t q) eqn:E; [right; split; [done|right; by exists q]|].
  destruct (rm_changed _ _ _ Hr t q) as [H|[-> H]]; [by left|right]. split; [done|left].
  by apply elem_of_union in H as [?%not_elem_of_empty|H].
Qed.
End Cascade.

(** C16: The deletions of a transaction delete exactly what they should, and leave
    no dangling reference behind.  Given valid schemas with well-formed tables of
    valid rows, such that the columns of cascading foreign keys exist, predicates
    with well-formed literals, limits that are machine words and an empty queue:
    the writes DELETE by key and DELETE by predicate, applied in order, and the
    cascade after them end without a panic.  If they succeed, the rows deleted are exactly those
    a write names (by its keys, or because its predicate is true for them) and
    those that refer to deleted rows by foreign keys declared ON DELETE CASCADE;
    every other row is as before; every change is among the changed keys, in a
    touched table; and if every row with a cascading foreign key referred to a
    row before, every remaining one still does; and none of the writes is to a
    materialized view.  They are refused only for an unknown table, a write to a
    materialized view (which is read-only), a predicate that is refused (by its
    check against the schema, on a row, or for a comparison with an overflow
    reference or a vector), or because of the limits. *)
Theorem transaction_deletes_exact lookup ws fuel : entries_ok → (∀ w, w ∈ ws → literals_ok w) → (total_rows (d_state d0) < fuel)%nat →
  ∃ d r, apply_deletes limits admitted_rows admitted_payload_bytes lookup fuel ws d0 = Some (d, r) ∧
  match r with
  | Ok _ => (∀ w, w ∈ ws → ¬ is_view w) ∧
      (∀ t q, doomed ws t q → state_table (d_state d) t q = None) ∧
      (∀ t q, ¬ doomed ws t q → state_table (d_state d) t q = state_table (d_state d0) t q) ∧
      (∀ t q, state_table (d_state d) t q = state_table (d_state d0) t q ∨ changed_in (d_changed d) t q = true ∧ t ∈ d_touched d) ∧
      st_schemas (d_state d) = st_schemas (d_state d0) ∧ tables_ok (d_state d) ∧
      (cascade_references (d_state d0) → cascade_references (d_state d))
  | Err e => is_admission e ∨ ∃ w, w ∈ ws ∧ write_refused w e
  end.
Proof using LL Hd0 Hlimits Hempty.
  intros He Hl Hf. unfold apply_deletes. destruct (writes_ok lookup ws He Hl _ d0 removing_start) as (d1 & r & E & Hr). rewrite E.
  unfold d_then. cbn [mbind option_bind]. destruct r as [[]|e]; [|exists d1, (Err e); tauto]. destruct Hr as [Hv Hr].
  destruct (cascade_loop_ok limits admitted_rows admitted_payload_bytes d1 (rm_limits _ _ _ Hr) (rm_ok _ _ _ Hr)) with
    (fuel := fuel) (D := [] : list Deleted) (d := count_cascade 0 0 d1) as (d & r & D & E' & H).
  - intros t row Hin. destruct (rm_queue _ _ _ Hr t row Hin) as (q & Hq & _). rewrite (rm_schemas _ _ _ Hr). by eapply table_schema.
  - apply progress_start, Hr.
  - pose proof (rm_measure _ _ _ Hr) as Hm. unfold measure in *. rewrite Hempty in Hm. cbn [length count_cascade d_state d_queue] in *. lia.
  - exists d, r. split; [done|]. destruct r as [[]|e]; [|left; apply H]. destruct H as [Hp Hq]. split_and!; [done|..].
    + intros t q. by eapply doomed_gone.
    + intros t q. by eapply kept_row.
    + intros t q. by eapply final_changes.
    + by eapply final_schemas.
    + apply Hp.
    + by eapply final_references.
Qed.
End Writes.

Module DeletesDemo.
Import Calendar CascadeDemo.
#[local] Existing Instance CascadeDemo.demo_range.
#[local] Existing Instance CascadeDemo.demo_layout.
#[local] Existing Instance CascadeDemo.demo_laws.

(** Node 1 by its key and node 4 by a predicate, in one transaction. *)
Definition forest_writes : list DeleteWrite := [DeleteByPrimaryKey node [[RBigInt 1]]; DeleteWhere node (Compare (lit "id") OpEq (RBigInt 4))].
Lemma transaction_deletes_exact_witness :
  let d0 := begin (forest forest_rows) [] in
  ∃ d, apply_deletes forest_limits 1 8 true 7 forest_writes d0 = Some (d, Ok ()) ∧
    (∀ t q, doomed d0 forest_writes t q → state_table (d_state d) t q = None) ∧
    (∀ t q, ¬ doomed d0 forest_writes t q → state_table (d_state d) t q = state_table (d_state d0) t q) ∧
    (remaining (d, Ok ())).1 = [[RBigInt 5; RNull]; [RBigInt 6; RBigInt 5]].
Proof.
  intros d0. pose proof (proj1 forest_nodes) as Hn. destruct (forest_segment _ Hn) as (rs & Es & Hw & Hc).
  destruct (transaction_deletes_exact forest_limits 1 8 d0 (forest_ok _ Hn) (limits_forest _ _) eq_refl true forest_writes 7) as (d & r & E & H).
  - intros t s segment [-> ->]%forest_schema Eseg. pose proof (eq_trans (eq_sym Eseg) Es) as [= ->]. cbn [seg_rows]. rewrite Hc. apply Hn.
  - intros w [->|[->|[]%elem_of_nil]%elem_of_cons]%elem_of_cons; [done|]. intros c op v [= -> -> ->]%list_elem_of_singleton. cbn. unfold is_i64. lia.
  - by vm_compute.
  - assert (remaining <$> apply_deletes forest_limits 1 8 true 7 forest_writes d0 = Some ([[RBigInt 5; RNull]; [RBigInt 6; RBigInt 5]], Ok ())) as Er
      by (by vm_compute).
    rewrite E in Er. injection Er as Erows ->. exists d. destruct H as (_ & H1 & H2 & _). exact (conj E (conj H1 (conj H2 Erows))).
Defined.
End DeletesDemo.
