(* ===== verification/TemporalText.v ===== *)
(** The ISO 8601 text of dates, times, offsets and date-times:
    crates/core/src/temporal/format.rs and crates/core/src/temporal/parse.rs
    (durations are in DurationText.v).

    The calendar fields are those of the chrono crate: [ChronoFields] names the
    functions called and [ChronoFieldLaws] what their documentation says. *)
From S2P Require Import Prelude Decimal DecimalArith DecimalText Text Values.

Inductive Weekday := Mon | Tue | Wed | Thu | Fri | Sat | Sun.

Class ChronoFields (C : Chrono) := {
  year : NaiveDate → Z;
  month : NaiveDate → Z;
  day : NaiveDate → Z;
  from_ymd_opt : Z → Z → Z → option NaiveDate;
  from_yo_opt : Z → Z → option NaiveDate;
  from_isoywd_opt : Z → Z → Weekday → option NaiveDate;
  hour : NaiveTime → Z;
  minute : NaiveTime → Z;
  second : NaiveTime → Z;
  from_hms_nano_opt : Z → Z → Z → Z → option NaiveTime;
  NaiveTime_MIN : NaiveTime;
  (** [DateTime::naive_local]. *)
  naive_local : NaiveDate * NaiveTime → FixedOffset → NaiveDate * NaiveTime;
  (** [and_local_timezone(offset).single()]: the UTC date and time. *)
  and_local_timezone : NaiveDate * NaiveTime → FixedOffset → option (NaiveDate * NaiveTime);
}.

(** A date is what its fields construct, and so is a time that is not a leap
    second; local and UTC time convert into each other where both are in range,
    and an offset, being whole seconds, keeps the nanoseconds. *)
Class ChronoFieldLaws (C : Chrono) (F : ChronoFields C) : Prop := {
  fields_ymd d : from_ymd_opt (year d) (month d) (day d) = Some d;
  fields_year d : - 2 ^ 31 < year d < 2 ^ 31;
  fields_month d : 1 ≤ month d ≤ 12;
  fields_day d : 1 ≤ day d ≤ 31;
  fields_hms t : time_regular t → from_hms_nano_opt (hour t) (minute t) (second t) (nanosecond t) = Some t;
  fields_hour t : 0 ≤ hour t < 24;
  fields_minute t : 0 ≤ minute t < 60;
  fields_second t : 0 ≤ second t < 60;
  fields_local dt o dt' : checked_add_offset dt o = Some dt' → naive_local dt o = dt';
  fields_utc dt o dt' : checked_add_offset dt o = Some dt' → and_local_timezone dt' o = Some dt;
  fields_nanos dt o dt' : checked_add_offset dt o = Some dt' → nanosecond dt'.2 = nanosecond dt.2;
}.

(** A [TemporalError] with its message and the text quoted in it, or a slice
    that is not at a character boundary, which panics. *)
Inductive TemporalFault :=
  | TemporalMessage (message : string) (input : bytes)
  | Panicked.
Abbreviation TemporalResult A := (result A TemporalFault).

(** [map_err]: a panic is not an error value. *)
Definition map_temporal_err {A} (f : TemporalFault) (r : TemporalResult A) : TemporalResult A :=
  match r with Ok a => Ok a | Err Panicked => Err Panicked | Err _ => Err f end.

(** [str::strip_prefix] with a set of characters. *)
Definition strip_char (cs : list Z) (s : bytes) : option bytes :=
  match s with c :: t => if one_of cs c then Some t else None | [] => None end.

(** [str::split_at] and slicing by a range. *)
Definition split_at (s : bytes) (i : Z) : TemporalResult (bytes * bytes) :=
  if is_char_boundary s i then Ok (take (Z.to_nat i) s, drop (Z.to_nat i) s) else Err Panicked.
Definition str_slice (s : bytes) (a b : Z) : TemporalResult bytes :=
  if is_char_boundary s a && is_char_boundary s b then Ok (zslice s a b) else Err Panicked.
(** [(0..len).step_by(2)], each index slicing two bytes. *)
Fixpoint slices2 (s : bytes) (starts : list Z) : TemporalResult (list bytes) :=
  match starts with
  | [] => Ok []
  | i :: starts => let? f := str_slice s i (i + 2) in let? fs := slices2 s starts in Ok (f :: fs)
  end.
Definition step_by_2 (len : Z) : list Z := (λ i, 2 * Z.of_nat i) <$> seq 0 (Z.to_nat ((len + 1) / 2)).

(** ** Rendering: format.rs *)

Section Format.
Context {C : Chrono} {F : ChronoFields C}.

Definition write_year (year : Z) : bytes :=
  if (0 <=? year) && (year <=? 9999) then print_padded year 4
  else if year <? 0 then 45 :: print_padded (Z.abs year) 4
  else 43 :: print_u128 year.

Definition write_date (date : NaiveDate) : bytes :=
  write_year (year date) ++ 45 :: print_padded (month date) 2 ++ 45 :: print_padded (day date) 2.

Definition write_fraction (nanos : Z) : bytes :=
  if nanos =? 0 then []
  else if nanos mod 1000000 =? 0 then 46 :: print_padded (nanos / 1000000) 3
  else if nanos mod 1000 =? 0 then 46 :: print_padded (nanos / 1000) 6
  else 46 :: print_padded nanos 9.

Definition write_time (time : NaiveTime) : bytes :=
  print_padded (hour time) 2 ++ 58 :: print_padded (minute time) 2 ++ 58 :: print_padded (second time) 2
    ++ write_fraction (nanosecond time).

Definition write_offset (offset : FixedOffset) : bytes :=
  let seconds := local_minus_utc offset in
  if seconds =? 0 then [90]
  else
    let sign := if seconds <? 0 then 45 else 43 in
    let seconds := Z.abs seconds in
    sign :: print_padded (seconds / 3600) 2 ++ 58 :: print_padded (seconds / 60 mod 60) 2
      ++ (if seconds mod 60 =? 0 then [] else 58 :: print_padded (seconds mod 60) 2).

Definition format_date (date : NaiveDate) : bytes := write_date date.
Definition format_local_time (time : NaiveTime) : bytes := write_time time.
Definition format_local_datetime (value : NaiveDate * NaiveTime) : bytes :=
  write_date value.1 ++ 84 :: write_time value.2.
Definition format_datetime (utc : NaiveDate * NaiveTime) (offset : FixedOffset) : bytes :=
  format_local_datetime (naive_local utc offset) ++ write_offset offset.
End Format.

(** ** Parsing: parse.rs *)

Definition invalid (kind : string) (input : bytes) : TemporalFault :=
  TemporalMessage (String.app "invalid {kind} string: " kind) input.

Definition all_digits (input : bytes) : bool :=
  match input with [] => false | _ => forallb is_digit input end.

(** The two instances of [FromStr] it is used at. *)
Definition from_str_u32 : bytes → option Z := parse_unsigned u32_max.
Definition from_str_i32 : bytes → option Z := parse_signed (- 2 ^ 31) (2 ^ 31 - 1).

Definition number (from_str : bytes → option Z) (input : bytes) (kind : string) (full : bytes) : TemporalResult Z :=
  if all_digits input then ok_or (from_str input) (invalid kind full) else Err (invalid kind full).

Definition weekday_from_number (day : Z) : option Weekday :=
  if day =? 1 then Some Mon else if day =? 2 then Some Tue else if day =? 3 then Some Wed
  else if day =? 4 then Some Thu else if day =? 5 then Some Fri else if day =? 6 then Some Sat
  else if day =? 7 then Some Sun else None.

(** [fields.get(i).map(number).transpose()?.unwrap_or(default)]. *)
Definition optional_number (field : option bytes) (default : Z) (kind : string) (full : bytes) : TemporalResult Z :=
  match field with Some f => number from_str_u32 f kind full | None => Ok default end.

Section Parse.
Context {C : Chrono} {F : ChronoFields C}.

Definition parse_date_rest (year : Z) (rest : bytes) (extended : bool) (input : bytes)
    : TemporalResult (option NaiveDate) :=
  match strip_char [87; 119] rest with
  | Some week =>
      let? (week_text, day_text) :=
        (if extended then
           match split_once 45 week with
           | Some (week, day) => Ok (week, Some day)
           | None => Ok (week, None)
           end
         else if zlen week =? 3 then
           let? (week, day) := split_at week 2 in Ok (week, Some day)
         else Ok (week, None)) in
      if negb (zlen week_text =? 2) || match day_text with Some d => negb (zlen d =? 1) | None => false end
      then Err (invalid "date" input)
      else
        let? week := number from_str_u32 week_text "date" input in
        let? day := optional_number day_text 1 "date" input in
        let? weekday := ok_or (weekday_from_number day) (invalid "date" input) in
        Ok (from_isoywd_opt year week weekday)
  | None =>
      if extended then
        match split_once 45 rest with
        | Some (month, day) =>
            if (zlen month =? 2) && (zlen day =? 2) then
              let? month := number from_str_u32 month "date" input in
              let? day := number from_str_u32 day "date" input in
              Ok (from_ymd_opt year month day)
            else Err (invalid "date" input)
        | None =>
            if zlen rest =? 2 then
              let? month := number from_str_u32 rest "date" input in Ok (from_ymd_opt year month 1)
            else if zlen rest =? 3 then
              let? ordinal := number from_str_u32 rest "date" input in Ok (from_yo_opt year ordinal)
            else Err (invalid "date" input)
        end
      else if zlen rest =? 4 then
        let? (month, day) := split_at rest 2 in
        let? month := number from_str_u32 month "date" input in
        let? day := number from_str_u32 day "date" input in
        Ok (from_ymd_opt year month day)
      else if zlen rest =? 3 then
        let? ordinal := number from_str_u32 rest "date" input in Ok (from_yo_opt year ordinal)
      else Err (invalid "date" input)
  end.

Definition parse_date (input : bytes) : TemporalResult NaiveDate :=
  let text := trim input in
  let '(negative, unsigned) :=
    match text with
    | c :: t => if c =? 43 then (false, t) else if c =? 45 then (true, t) else (false, text)
    | [] => (false, text)
    end in
  let signed := negb (zlen unsigned =? zlen text) in
  let year_len :=
    if signed then Z.max 4 (zlen (span_to (λ b, negb (is_digit b)) unsigned).1) else 4 in
  if zlen unsigned <? year_len then Err (invalid "date" input)
  else
    let? (year_text, rest) := split_at unsigned year_len in
    let? year := number from_str_i32 year_text "date" input in
    let year := if negative then - year else year in
    let? date :=
      match rest with
      | [] => Ok (from_ymd_opt year 1 1)
      | c :: t => if c =? 45 then parse_date_rest year t true input else parse_date_rest year rest false input
      end in
    ok_or date (invalid "date" input).

Definition parse_fraction (fraction input : bytes) : TemporalResult Z :=
  if match fraction with [] => true | _ => false end || (9 <? zlen fraction) || negb (all_digits fraction)
  then Err (invalid "time" input)
  else
    let? nanos := number from_str_u32 fraction "time" input in
    Ok (Nat.iter (Z.to_nat (9 - zlen fraction)) (λ nanos, nanos * 10) nanos).

(** The fields of a clock or an offset: separated by colons, or two bytes each. *)
Definition clock_fields (body : bytes) (even : bool) (refused : TemporalFault) : TemporalResult (list bytes) :=
  if existsb (is_char 58) body then Ok (split_on 58 body)
  else if even then slices2 body (step_by_2 (zlen body))
  else Err refused.
Definition bad_fields (fields : list bytes) : bool :=
  match fields with [] => true | _ => false end || (3 <? zlen fields) || existsb (λ f, negb (zlen f =? 2)) fields.

Definition parse_time_text (text input : bytes) : TemporalResult NaiveTime :=
  let '(clock, fraction) :=
    match split_at_first (one_of [46; 44]) text with
    | Some (clock, fraction) => (clock, Some fraction)
    | None => (text, None)
    end in
  let? fields := clock_fields clock ((zlen clock mod 2 =? 0) && (zlen clock <=? 6)) (invalid "time" input) in
  if bad_fields fields then Err (invalid "time" input)
  else if match fraction with Some _ => negb (zlen fields =? 3) | None => false end
  then Err (invalid "time" input)
  else
    let? hour := optional_number (fields !! 0%nat) 0 "time" input in
    let? minute := optional_number (fields !! 1%nat) 0 "time" input in
    let? second := optional_number (fields !! 2%nat) 0 "time" input in
    let? nanos := match fraction with Some f => parse_fraction f input | None => Ok 0 end in
    if 59 <? second then Err (invalid "time" input)
    else ok_or (from_hms_nano_opt hour minute second nanos) (invalid "time" input).

Definition parse_local_time (input : bytes) : TemporalResult NaiveTime := parse_time_text (trim input) input.

Definition split_date_time (text input : bytes) (kind : string) : TemporalResult (bytes * option bytes) :=
  match split_at_first (one_of [84; 116]) text with
  | Some (date, []) => Err (invalid kind input)
  | Some (date, time) => Ok (date, Some time)
  | None => Ok (text, None)
  end.

Definition parse_local_datetime (input : bytes) : TemporalResult (NaiveDate * NaiveTime) :=
  let text := trim input in
  let? (date, time) := split_date_time text input "local datetime" in
  let? date := map_temporal_err (invalid "local datetime" input) (parse_date date) in
  let? time :=
    match time with
    | Some time => map_temporal_err (invalid "local datetime" input) (parse_time_text time input)
    | None => Ok NaiveTime_MIN
    end in
  Ok (date, time).

Definition split_offset (time : bytes) : bytes * option bytes :=
  let (clock, offset) := span_to (one_of [90; 122; 43; 45]) time in
  match offset with [] => (time, None) | _ => (clock, Some offset) end.

Definition invalid_offset (input : bytes) : TemporalFault :=
  if existsb (is_char 47) input
  then TemporalMessage "named time zones are not supported, use a UTC offset: '{input}'" input
  else invalid "time zone offset" input.

Definition ascii_lower (b : Z) : Z := if (65 <=? b) && (b <=? 90) then b + 32 else b.
Definition eq_ignore_ascii_case (a b : bytes) : bool := bool_decide (ascii_lower <$> a = ascii_lower <$> b).

(** The loop over [fields.iter().zip([3_600, 60, 1])]. *)
Fixpoint offset_loop (fields : list (bytes * Z)) (seconds : Z) (input : bytes) : TemporalResult Z :=
  match fields with
  | [] => Ok seconds
  | (field, scale) :: fields =>
      let? value := number from_str_i32 field "offset" input in
      if (negb (scale =? 3600) && (59 <? value)) || ((scale =? 3600) && (18 <? value))
      then Err (invalid_offset input)
      else offset_loop fields (seconds + value * scale) input
  end.

Definition parse_offset (input : bytes) : TemporalResult FixedOffset :=
  let text := trim input in
  if eq_ignore_ascii_case text (lit "Z") || eq_ignore_ascii_case text (lit "UTC")
  then ok_or (east_opt 0) Panicked
  else
    let? (sign, body) :=
      match text with
      | c :: body =>
          if c =? 43 then Ok (1, body) else if c =? 45 then Ok (-1, body) else Err (invalid_offset input)
      | [] => Err (invalid_offset input)
      end in
    let? fields :=
      clock_fields body ((zlen body =? 2) || (zlen body =? 4) || (zlen body =? 6)) (invalid_offset input) in
    if bad_fields fields then Err (invalid_offset input)
    else
      let? seconds := offset_loop (zip fields [3600; 60; 1]) 0 input in
      if 18 * 3600 <? seconds then Err (invalid_offset input)
      else ok_or (east_opt (sign * seconds)) (invalid_offset input).

Definition parse_datetime (input : bytes) : TemporalResult (NaiveDate * NaiveTime * FixedOffset) :=
  let text := trim input in
  if existsb (is_char 91) text
  then Err (TemporalMessage "named time zones are not supported, use a UTC offset: '{input}'" input)
  else
    let? (date, time) := split_date_time text input "datetime" in
    let? date := map_temporal_err (invalid "datetime" input) (parse_date date) in
    let? (time, offset) :=
      match time with
      | None => let? offset := ok_or (east_opt 0) Panicked in Ok (NaiveTime_MIN, offset)
      | Some time =>
          let (clock, offset) := split_offset time in
          let? offset :=
            match offset with
            | Some offset => map_temporal_err (invalid "datetime" input) (parse_offset offset)
            | None => ok_or (east_opt 0) Panicked
            end in
          let? time := map_temporal_err (invalid "datetime" input) (parse_time_text clock input) in
          Ok (time, offset)
      end in
    let? utc := ok_or (and_local_timezone (date, time) offset) (invalid "datetime" input) in
    Ok (utc, offset).
End Parse.

(** ** Rendered text parses *)

Lemma all_digits_true s : s ≠ [] → Forall (λ b, is_digit b = true) s → all_digits s = true.
Proof. intros Hne HF%forallb_digits. unfold all_digits. by destruct s. Qed.

Lemma number_padded kind full n w :
  0 ≤ n < 2 ^ 31 → 1 ≤ w →
  number from_str_u32 (print_padded n w) kind full = Ok n ∧ number from_str_i32 (print_padded n w) kind full = Ok n.
Proof.
  intros Hn Hw. destruct (print_padded_spec n w ltac:(lia) Hw) as (Hl & _ & Hd & Hp).
  pose proof Hd as Hd0.
  assert (all_digits (print_padded n w) = true) as Ha.
  { apply all_digits_true; [|done]. intros E. rewrite E, zlen_nil in Hl. lia. }
  unfold number. rewrite Ha. unfold from_str_u32, from_str_i32, parse_unsigned, parse_signed.
  destruct (print_padded n w) as [|b t] eqn:E; [rewrite zlen_nil in Hl; lia|].
  apply Forall_cons in Hd0 as [Hb _]. unfold is_digit in Hb.
  assert ((b =? 43) = false) as -> by lia. assert ((b =? 45) = false) as -> by lia.
  rewrite Hp. unfold u32_max. split; repeat (case_bool; cbn [andb]; [|lia]); done.
Qed.

(** The bytes of each rendering. *)
Definition date_char (b : Z) : bool := is_digit b || one_of [43; 45] b.
Definition time_char (b : Z) : bool := is_digit b || one_of [46; 58] b.
Definition offset_char (b : Z) : bool := is_digit b || one_of [43; 45; 58; 90] b.
(** The bytes of any of them: digits, capital letters and the marks between. *)
Definition iso_char (b : Z) : bool := is_digit b || one_of [43; 45; 46; 58] b || ((65 <=? b) && (b <=? 90)).

(** Weaken what is known of every byte of a text. *)
Ltac chars :=
  match goal with
  | HF : Forall _ ?s |- Forall _ ?s => eapply Forall_impl; [exact HF|]
  | HF : Forall _ ?s |- no _ ?s => eapply Forall_impl; [exact HF|]
  end;
  intros ?b; cbn beta; unfold iso_char, date_char, time_char, offset_char, graphic, is_digit, is_char, one_of; cbn; lia.

Lemma padded_chars n w : 0 ≤ n → 1 ≤ w → Forall (λ b, is_digit b = true) (print_padded n w).
Proof. intros. by apply print_padded_spec. Qed.

(** Hours, minutes and seconds of a number of seconds. *)
Lemma hms_sum s : s / 3600 * 3600 + s / 60 mod 60 * 60 + s mod 60 = s.
Proof.
  pose proof (Z.div_mod s 60). pose proof (Z.div_mod (s / 60) 60) as H2. rewrite Z.div_div in H2 by lia.
  change (60 * 60) with 3600 in H2. lia.
Qed.

Lemma iter_times_10 k z : Nat.iter k (λ x, x * 10) z = z * 10 ^ Z.of_nat k.
Proof.
  induction k as [|k IH]; [cbn; lia|]. cbn [Nat.iter nat_rect]. change (nat_rect _ _ _ k) with (Nat.iter k (λ x, x * 10) z).
  rewrite IH, Nat2Z.inj_succ, Z.pow_succ_r by lia. lia.
Qed.

Section Rendered.
Context {C : Chrono} {F : ChronoFields C} `{!ChronoLaws C} `{!ChronoFieldLaws C F}.

(** A year is an optional sign and at least four digits; a four-digit one has no sign. *)
Lemma write_year_spec y :
  - 2 ^ 31 < y < 2 ^ 31 →
  ∃ sign ds, write_year y = sign ++ ds ∧ Forall (λ b, is_digit b = true) ds ∧ 4 ≤ zlen ds ∧
    (∀ kind full, number from_str_i32 ds kind full = Ok (Z.abs y)) ∧
    (sign = [] ∧ 0 ≤ y ∧ zlen ds = 4 ∨ sign = [45] ∧ y < 0 ∨ sign = [43] ∧ 0 ≤ y).
Proof.
  intros Hy. assert (1 ≤ 4) as H4 by lia.
  destruct (print_padded_spec (Z.abs y) 4 ltac:(lia) H4) as (Hl & He & Hd & _).
  assert (∀ kind full, number from_str_i32 (print_padded (Z.abs y) 4) kind full = Ok (Z.abs y)) as Hnum
    by (intros; apply number_padded; lia).
  unfold write_year. case_bool; cbn [andb].
  - rewrite (Z.abs_eq y) in * by lia. case_bool.
    + exists [], (print_padded y 4). split_and!; try done. left. split_and!; [done..|]. apply He. lia.
    + case_bool; [lia|]. exists [43], (print_padded y 4). rewrite print_padded_wide by lia. split_and!; try done.
      * by rewrite print_padded_wide in Hd by lia.
      * by rewrite print_padded_wide in Hl by lia.
      * intros kind full. specialize (Hnum kind full). by rewrite print_padded_wide in Hnum by lia.
      * tauto.
  - case_bool; [|lia]. exists [45], (print_padded (Z.abs y) 4). split_and!; try done. tauto.
Qed.

Lemma write_date_chars d : Forall (λ b, date_char b = true) (write_date d).
Proof.
  destruct (write_year_spec (year d) (fields_year d)) as (sign & ds & E & Hds & _ & _ & Hs).
  pose proof (fields_month d). pose proof (fields_day d). unfold write_date. rewrite E.
  assert (Forall (λ b, is_digit b = true) (print_padded (month d) 2)) as Hm by (apply padded_chars; lia).
  assert (Forall (λ b, is_digit b = true) (print_padded (day d) 2)) as Hd by (apply padded_chars; lia).
  repeat (apply Forall_app; split); [|chars|].
  - by destruct Hs as [(-> & _)|[(-> & _)|(-> & _)]]; repeat constructor.
  - constructor; [done|]. apply Forall_app; split; [chars|]. constructor; [done|chars].
Qed.

(** The part after the year. *)
Lemma parse_month_day y m d input :
  0 ≤ m < 100 → 0 ≤ d < 100 →
  parse_date_rest y (print_padded m 2 ++ 45 :: print_padded d 2) true input = Ok (from_ymd_opt y m d).
Proof.
  intros Hm Hd. destruct (print_padded_spec m 2 ltac:(lia) ltac:(lia)) as (Hlm & Hem & Hdm & _).
  destruct (print_padded_spec d 2 ltac:(lia) ltac:(lia)) as (_ & Hed & _).
  unfold parse_date_rest. assert (strip_char [87; 119] (print_padded m 2 ++ 45 :: print_padded d 2) = None) as ->.
  { destruct (print_padded m 2) as [|b t]; [done|]. apply Forall_cons in Hdm as [Hb _]. cbn. unfold is_digit in Hb.
    destruct (Z.eqb_spec b 87); [lia|]. destruct (Z.eqb_spec b 119); [lia|]. done. }
  unfold split_once. rewrite split_at_first_hit; [|chars|done].
  rewrite Hem, Hed by lia. cbn [Z.eqb Pos.eqb andb].
  pose proof (number_padded "date" input m 2 ltac:(lia) ltac:(lia)) as [-> _].
  pose proof (number_padded "date" input d 2 ltac:(lia) ltac:(lia)) as [-> _]. done.
Qed.

Lemma parse_write_date d : parse_date (write_date d) = Ok d.
Proof.
  pose proof (write_date_chars d) as Hchars.
  destruct (write_year_spec (year d) (fields_year d)) as (sign & ds & E & Hds & Hl & Hnum & Hs).
  pose proof (fields_month d). pose proof (fields_day d).
  unfold parse_date. rewrite trim_graphic by chars.
  set (rest := 45 :: print_padded (month d) 2 ++ 45 :: print_padded (day d) 2).
  assert (write_date d = sign ++ ds ++ rest) as Ew by (unfold write_date; rewrite E, <- app_assoc; done).
  assert (∀ len input, len = zlen ds →
    (let? (year_text, rest) := split_at (ds ++ rest) len in
     let? y := number from_str_i32 year_text "date" input in
     let y := if bool_decide (sign = [45]) then - y else y in
     let? date :=
       match rest with
       | [] => Ok (from_ymd_opt y 1 1)
       | c :: t => if c =? 45 then parse_date_rest y t true input else parse_date_rest y rest false input
       end in
     ok_or date (invalid "date" input)) = Ok d) as Htail.
  { intros len input ->. unfold split_at. rewrite ascii_boundary.
    2: { rewrite Ew in Hchars. apply Forall_app in Hchars as [_ Hc]. chars. }
    2: { rewrite zlen_app. pose proof (zlen_nonneg rest). lia. }
    rewrite take_zlen_app, drop_zlen_app by done. cbn [result_bind]. rewrite Hnum. cbn [result_bind].
    assert ((if bool_decide (sign = [45]) then - Z.abs (year d) else Z.abs (year d)) = year d) as ->.
    { destruct Hs as [(-> & ? & _)|[(-> & ?)|(-> & ?)]]; case_bool_decide; (done || lia). }
    unfold rest. cbn [Z.eqb Pos.eqb]. rewrite parse_month_day by lia. cbn [result_bind].
    by rewrite fields_ymd. }
  assert ((span_to (λ b, negb (is_digit b)) (ds ++ rest)).1 = ds) as Hspan.
  { unfold rest. rewrite span_to_hit; [done| |done]. unfold no. eapply Forall_impl; [exact Hds|]. intros b Hb. cbn in *. by rewrite Hb. }
  pose proof (zlen_nonneg rest). rewrite Ew.
  destruct Hs as [(-> & Hy & Hl4)|[(-> & Hy)|(-> & Hy)]]; cbn [app].
  { destruct (ds ++ rest) as [|c t] eqn:Ec; [destruct ds; done|].
    assert ((c =? 43) = false ∧ (c =? 45) = false) as [-> ->].
    { destruct ds as [|b ds]; [rewrite zlen_nil in Hl; lia|]. cbn in Ec. simplify_eq.
      apply Forall_cons in Hds as [Hb _]. unfold is_digit in Hb. lia. }
    rewrite Z.eqb_refl. cbn [negb]. destruct (Z.ltb_spec (zlen (c :: t)) 4).
    { rewrite <- Ec, zlen_app in *. lia. }
    exact (Htail 4 _ (eq_sym Hl4)). }
  all: cbn [Z.eqb Pos.eqb]; rewrite zlen_cons, Hspan.
  all: destruct (Z.eqb_spec (zlen (ds ++ rest)) (1 + zlen (ds ++ rest))); [lia|].
  all: cbn [negb]; rewrite Z.max_r by lia; destruct (Z.ltb_spec (zlen (ds ++ rest)) (zlen ds)).
  1, 3: rewrite zlen_app in *; lia.
  all: exact (Htail _ _ eq_refl).
Qed.

Lemma parse_fraction_padded m w input :
  0 ≤ m < 10 ^ w → 1 ≤ w ≤ 9 → parse_fraction (print_padded m w) input = Ok (m * 10 ^ (9 - w)).
Proof.
  intros Hm Hw. destruct (print_padded_spec m w ltac:(lia) ltac:(lia)) as (_ & He & Hd & _). specialize (He ltac:(lia)).
  pose proof (Z.pow_le_mono_r 10 w 9 ltac:(lia) ltac:(lia)).
  destruct (number_padded "time" input m w ltac:(lia) ltac:(lia)) as [Hn _].
  unfold parse_fraction. rewrite He, Hn. unfold number in Hn.
  destruct (all_digits (print_padded m w)); [|done]. case_bool; [lia|].
  destruct (print_padded m w) eqn:E; [rewrite zlen_nil in He; lia|]. cbn [orb negb result_bind]. f_equal.
  by rewrite iter_times_10, Z2Nat.id by lia.
Qed.

(** The fraction is exact: absent for a whole second, else three, six or nine digits. *)
Lemma write_fraction_spec nanos input :
  0 ≤ nanos < 1000000000 →
  write_fraction nanos = [] ∧ nanos = 0 ∨
  ∃ ds, write_fraction nanos = 46 :: ds ∧ Forall (λ b, is_digit b = true) ds ∧ parse_fraction ds input = Ok nanos.
Proof.
  intros Hn. unfold write_fraction. case_bool; [by left|]. right.
  pose proof (Z.div_mod nanos 1000000 ltac:(lia)). pose proof (Z.div_mod nanos 1000 ltac:(lia)).
  assert (∀ m w, 0 ≤ m < 10 ^ w → 1 ≤ w ≤ 9 → m * 10 ^ (9 - w) = nanos →
    ∃ ds, 46 :: print_padded m w = 46 :: ds ∧ Forall (λ b, is_digit b = true) ds ∧ parse_fraction ds input = Ok nanos) as Hex.
  { intros m w Hm Hw <-. exists (print_padded m w). split_and!; [done|apply padded_chars; lia|by apply parse_fraction_padded]. }
  repeat case_bool; apply Hex; try lia.
Qed.

Definition clock_text (h m s : Z) (with_seconds : bool) : bytes :=
  print_padded h 2 ++ 58 :: print_padded m 2 ++ if with_seconds then 58 :: print_padded s 2 else [].

Lemma clock_text_fields h m s (with_seconds even : bool) e :
  0 ≤ h < 60 → 0 ≤ m < 60 → 0 ≤ s < 60 →
  let fields := [print_padded h 2; print_padded m 2] ++ if with_seconds then [print_padded s 2] else [] in
  Forall (λ b, offset_char b = true) (clock_text h m s with_seconds) ∧
  clock_fields (clock_text h m s with_seconds) even e = Ok fields ∧ bad_fields fields = false.
Proof.
  intros Hh Hm Hs. assert (∀ n, 0 ≤ n < 60 → zlen (print_padded n 2) = 2 ∧ Forall (λ b, is_digit b = true) (print_padded n 2)) as Hn.
  { intros n Hn. split; [apply print_padded_spec; lia|apply padded_chars; lia]. }
  destruct (Hn h Hh) as [Lh Dh]. destruct (Hn m Hm) as [Lm Dm]. destruct (Hn s Hs) as [Ls Ds]. clear Hn.
  unfold clock_text. split_and!.
  - apply Forall_app; split; [chars|]; constructor; [done|]; apply Forall_app; split; [chars|].
    destruct with_seconds; [constructor; [done|chars]|done].
  - unfold clock_fields. rewrite existsb_app. cbn [existsb is_char Z.eqb Pos.eqb orb]. rewrite orb_true_r.
    f_equal. rewrite split_on_app by chars. destruct with_seconds; cbn [app].
    + rewrite split_on_app by chars. by rewrite split_on_no by chars.
    + rewrite app_nil_r. by rewrite split_on_no by chars.
  - unfold bad_fields. destruct with_seconds; cbn [app existsb]; by rewrite Lh, Lm, ?Ls.
Qed.

Lemma write_time_clock t :
  write_time t = clock_text (hour t) (minute t) (second t) true ++ write_fraction (nanosecond t).
Proof. unfold write_time, clock_text. rewrite <- !app_assoc. cbn. by rewrite <- !app_assoc. Qed.

(** A clock, with or without a fraction. *)
Lemma parse_clock h m s fraction nanos input :
  0 ≤ h < 60 → 0 ≤ m < 60 → 0 ≤ s < 60 →
  (match fraction with Some f => parse_fraction f input | None => Ok 0 end) = Ok nanos →
  parse_time_text (clock_text h m s true ++ match fraction with Some f => 46 :: f | None => [] end) input
  = ok_or (from_hms_nano_opt h m s nanos) (invalid "time" input).
Proof.
  intros Hh Hm Hs Hf. unfold parse_time_text. set (clock := clock_text h m s true).
  destruct (clock_text_fields h m s true ((zlen clock mod 2 =? 0) && (zlen clock <=? 6)) (invalid "time" input))
    as (Hc & Hfields & Hbad); [lia..|]. fold clock in Hc, Hfields.
  assert (no (one_of [46; 44]) clock) as Hno by chars.
  assert (match split_at_first (one_of [46; 44]) (clock ++ match fraction with Some f => 46 :: f | None => [] end) with
          | Some (clock, fraction) => (clock, Some fraction)
          | None => (clock ++ match fraction with Some f => 46 :: f | None => [] end, None)
          end = (clock, fraction)) as ->.
  { destruct fraction as [f|]; [by rewrite split_at_first_hit|]. rewrite app_nil_r. by rewrite split_at_first_none. }
  rewrite Hfields. cbn [result_bind]. rewrite Hbad.
  assert (match fraction with Some _ => negb (zlen ([print_padded h 2; print_padded m 2] ++ [print_padded s 2]) =? 3) | None => false end = false)
    as -> by by destruct fraction.
  assert (∀ n, 0 ≤ n < 60 → number from_str_u32 (print_padded n 2) "time" input = Ok n) as Hn
    by (intros; apply number_padded; lia).
  unfold optional_number. cbn [app lookup list_lookup]. rewrite !Hn, Hf by lia. cbn [result_bind]. by case_bool; [lia|].
Qed.

Lemma write_time_spec t input :
  time_regular t → Forall (λ b, time_char b = true) (write_time t) ∧ parse_time_text (write_time t) input = Ok t.
Proof.
  intros Ht. pose proof (fields_hour t). pose proof (fields_minute t). pose proof (fields_second t).
  destruct (chrono_time_range t) as [_ Hn0]. pose proof Ht as Hr. unfold time_regular in Hr. rewrite write_time_clock.
  assert (Forall (λ b, time_char b = true) (clock_text (hour t) (minute t) (second t) true)) as Hc.
  { assert (∀ n, 0 ≤ n < 60 → Forall (λ b, time_char b = true) (print_padded n 2)) as Hn.
    { intros n Hn. pose proof (padded_chars n 2 ltac:(lia) ltac:(lia)). chars. }
    unfold clock_text. apply Forall_app; split; [apply Hn; lia|]. constructor; [done|].
    apply Forall_app; split; [apply Hn; lia|]. constructor; [done|apply Hn; lia]. }
  destruct (write_fraction_spec (nanosecond t) input ltac:(lia)) as [[-> Hz]|(ds & -> & Hds & Hp)].
  - split; [by rewrite app_nil_r|]. rewrite (parse_clock _ _ _ None 0) by (done || lia).
    rewrite <- Hz. by rewrite fields_hms.
  - split; [apply Forall_app; split; [done|]; constructor; [done|chars]|].
    rewrite (parse_clock _ _ _ (Some ds) (nanosecond t)) by (done || lia). by rewrite fields_hms.
Qed.

(** The loop over the fields of an offset of [h] hours, [m] minutes and [s] seconds. *)
Lemma offset_loop_fields h m s (with_seconds : bool) input :
  0 ≤ h < 24 → 0 ≤ m < 60 → 0 ≤ s < 60 → (with_seconds = false → s = 0) →
  offset_loop (zip ([print_padded h 2; print_padded m 2] ++ if with_seconds then [print_padded s 2] else []) [3600; 60; 1]) 0 input
  = if 18 <? h then Err (invalid_offset input) else Ok (h * 3600 + m * 60 + s).
Proof.
  intros Hh Hm Hs Hw.
  assert (∀ n, 0 ≤ n < 60 → number from_str_i32 (print_padded n 2) "offset" input = Ok n) as Hn
    by (intros; apply number_padded; lia).
  destruct with_seconds; cbn [app zip zip_with offset_loop]; rewrite !Hn by lia; cbn [result_bind Z.eqb Pos.eqb negb andb orb].
  - case_bool; [done|]. do 2 (case_bool; [lia|]). cbn [orb]. f_equal. lia.
  - case_bool; [done|]. case_bool; [lia|]. cbn [orb]. specialize (Hw eq_refl). f_equal. lia.
Qed.

Lemma write_offset_text o :
  local_minus_utc o ≠ 0 →
  let s := Z.abs (local_minus_utc o) in
  write_offset o = (if local_minus_utc o <? 0 then 45 else 43) ::
    clock_text (s / 3600) (s / 60 mod 60) (s mod 60) (negb (s mod 60 =? 0)).
Proof.
  intros Hz s. unfold write_offset, clock_text. fold s. destruct (Z.eqb_spec (local_minus_utc o) 0); [done|].
  by destruct (s mod 60 =? 0).
Qed.

Lemma write_offset_chars o : Forall (λ b, offset_char b = true) (write_offset o).
Proof.
  pose proof (chrono_offset_range o). destruct (Z.eq_dec (local_minus_utc o) 0) as [E|E].
  { unfold write_offset. rewrite E. by repeat constructor. }
  rewrite write_offset_text by done. constructor; [by case_bool|].
  apply (clock_text_fields _ _ _ _ false Panicked).
  - split; [apply Z.div_pos; lia|]. apply Z.div_lt_upper_bound; lia.
  - apply Z.mod_pos_bound; lia.
  - apply Z.mod_pos_bound; lia.
Qed.

(** An offset of at most eighteen hours reads back; a wider one is refused. *)
Lemma parse_write_offset o :
  parse_offset (write_offset o) =
  if Z.abs (local_minus_utc o) <=? 18 * 3600 then Ok o else Err (invalid_offset (write_offset o)).
Proof.
  pose proof (chrono_offset_range o). pose proof (write_offset_chars o) as Hc.
  unfold parse_offset. rewrite trim_graphic by chars. destruct (Z.eq_dec (local_minus_utc o) 0) as [E|E].
  { pose proof (chrono_offset o) as Ho. rewrite E in Ho |- *. unfold write_offset. rewrite E. cbn -[east_opt]. by rewrite Ho. }
  rewrite write_offset_text by done. set (s := Z.abs (local_minus_utc o)) in *.
  set (sign := if local_minus_utc o <? 0 then 45 else 43). set (body := clock_text _ _ _ _).
  assert (0 ≤ s / 3600 < 24) by (split; [apply Z.div_pos; lia|apply Z.div_lt_upper_bound; lia]).
  pose proof (Z.mod_pos_bound (s / 60) 60). pose proof (Z.mod_pos_bound s 60).
  pose proof (hms_sum s) as Hsum.
  assert (eq_ignore_ascii_case (sign :: body) (lit "Z") = false ∧ eq_ignore_ascii_case (sign :: body) (lit "UTC") = false) as [-> ->].
  { unfold eq_ignore_ascii_case, sign. split; apply bool_decide_eq_false; by destruct (local_minus_utc o <? 0). }
  assert (∀ e, (if sign =? 43 then Ok (1, body) else if sign =? 45 then Ok (-1, body) else Err e)
    = (Ok (if local_minus_utc o <? 0 then -1 else 1, body) : TemporalResult (Z * bytes))) as -> by (intros; unfold sign; by destruct (local_minus_utc o <? 0)).
  cbn [orb result_bind]. unfold body.
  destruct (clock_text_fields (s / 3600) (s / 60 mod 60) (s mod 60) (negb (s mod 60 =? 0))
    ((zlen body =? 2) || (zlen body =? 4) || (zlen body =? 6)) (invalid_offset (sign :: body))) as (_ & Hf & Hb); [lia..|].
  fold body in Hf |- *. rewrite Hf. cbn [result_bind]. rewrite Hb.
  rewrite offset_loop_fields by (lia || (intros; case_bool; done)).
  destruct (Z.ltb_spec 18 (s / 3600)); cbn [result_bind].
  { assert (18 * 3600 < s) by lia. by destruct (Z.leb_spec s (18 * 3600)); [lia|]. }
  rewrite Hsum. destruct (Z.ltb_spec (18 * 3600) s), (Z.leb_spec s (18 * 3600)); try lia; [done|].
  assert ((if local_minus_utc o <? 0 then -1 else 1) * s = local_minus_utc o) as -> by (case_bool; lia).
  by rewrite chrono_offset.
Qed.

(** Date and time, followed by what is an offset or nothing. *)
Lemma split_rendered d t tail input kind :
  time_regular t → Forall (λ b, offset_char b = true) tail →
  Forall (λ b, iso_char b = true) (format_local_datetime (d, t) ++ tail) ∧
  split_date_time (format_local_datetime (d, t) ++ tail) input kind = Ok (write_date d, Some (write_time t ++ tail)).
Proof.
  intros Ht Htail. pose proof (write_date_chars d) as Hd. destruct (write_time_spec t input Ht) as [Hc _].
  unfold format_local_datetime. cbn [fst snd]. rewrite <- app_assoc. cbn [app]. split.
  - apply Forall_app; split; [chars|]. constructor; [done|]. apply Forall_app; split; chars.
  - unfold split_date_time. rewrite split_at_first_hit by (done || chars).
    destruct (write_time t ++ tail) as [|c l] eqn:E; [|done]. apply app_nil in E as [E _].
    rewrite write_time_clock in E. unfold clock_text in E. by apply app_nil in E as [[_ [=]]%app_nil _].
Qed.

Lemma iso_graphic s : Forall (λ b, iso_char b = true) s → Forall (λ b, graphic b = true) s.
Proof. intros. chars. Qed.
Lemma iso_trim s : Forall (λ b, iso_char b = true) s → trim s = s ∧ existsb (is_char 91) s = false.
Proof.
  intros HF. split; [by apply trim_graphic, iso_graphic|].
  assert (no (is_char 91) s) as Hno by chars. induction Hno as [|b s Hb _ IH]; [done|]. cbn [existsb]. rewrite Hb.
  apply IH. by apply Forall_cons in HF as [_ ?].
Qed.

Lemma parse_format_local_datetime d t : time_regular t → parse_local_datetime (format_local_datetime (d, t)) = Ok (d, t).
Proof.
  intros Ht. set (input := format_local_datetime (d, t)). unfold parse_local_datetime.
  destruct (split_rendered d t [] input "local datetime" Ht ltac:(done)) as [Hg Hs]. rewrite !app_nil_r in *.
  fold input in Hg, Hs. rewrite (proj1 (iso_trim _ Hg)), Hs. cbn [result_bind].
  rewrite parse_write_date. cbn [map_temporal_err result_bind]. by rewrite (proj2 (write_time_spec t input Ht)).
Qed.

(** A zoned date-time reads back exactly when its offset is within eighteen hours. *)
Lemma parse_format_datetime d t o :
  time_regular t → is_Some (checked_add_offset (d, t) o) →
  parse_datetime (format_datetime (d, t) o) =
  if Z.abs (local_minus_utc o) <=? 18 * 3600 then Ok ((d, t), o)
  else Err (invalid "datetime" (format_datetime (d, t) o)).
Proof.
  intros Ht [[d' t'] Hadd]. pose proof (fields_local _ _ _ Hadd) as Hl. pose proof (fields_utc _ _ _ Hadd) as Hu.
  assert (time_regular t') as Ht' by (pose proof (fields_nanos _ _ _ Hadd) as En; cbn in En; unfold time_regular in *; lia).
  unfold format_datetime. rewrite Hl. set (input := format_local_datetime (d', t') ++ write_offset o).
  pose proof (write_offset_chars o) as Hoc.
  destruct (split_rendered d' t' (write_offset o) input "datetime" Ht' Hoc) as [Hg Hs]. fold input in Hg, Hs.
  unfold parse_datetime. destruct (iso_trim _ Hg) as [-> ->]. rewrite Hs. cbn [result_bind].
  rewrite parse_write_date. cbn [map_temporal_err result_bind].
  assert (split_offset (write_time t' ++ write_offset o) = (write_time t', Some (write_offset o))) as ->.
  { unfold split_offset. destruct (write_time_spec t' input Ht') as [Hc _].
    assert (∃ c l, write_offset o = c :: l ∧ one_of [90; 122; 43; 45] c = true) as (c & l & -> & Hh).
    { destruct (Z.eq_dec (local_minus_utc o) 0) as [E|E]; [unfold write_offset; rewrite E; by eexists _, _|].
      rewrite write_offset_text by done. eexists _, _. split; [done|]. by case_bool. }
    by rewrite span_to_hit by (done || chars). }
  rewrite parse_write_offset. destruct (Z.leb_spec (Z.abs (local_minus_utc o)) (18 * 3600)).
  - cbn [map_temporal_err result_bind]. rewrite (proj2 (write_time_spec t' input Ht')). cbn [map_temporal_err result_bind].
    by rewrite Hu.
  - cbn [map_temporal_err result_bind]. unfold invalid_offset. by destruct (existsb _ _).
Qed.
End Rendered.

(** Slicing at a fixed byte: valid text with a character across that byte makes
    the date and the time parser panic. *)
Theorem temporal_slice_panic {C : Chrono} {F : ChronoFields C} :
  let date := lit "abc" ++ [0xc3; 0xa9] in
  let time := [97; 0xc3; 0xa9; 98] in
  utf8_valid date = true ∧ parse_date date = Err Panicked ∧
  utf8_valid time = true ∧ parse_local_time time = Err Panicked.
Proof. by split_and!. Qed.

(** ** The civil calendar on the bounded days of [Calendar]

    The proleptic Gregorian calendar, computed from the days since 1 March of
    year 0 in periods of 400 years. *)
Module Civil.
Import Calendar.

Definition year_of_era (doe : Z) : Z := (doe - doe / 1460 + doe / 36524 - doe / 146096) / 365.
Definition day_of_year (doe : Z) : Z := let yoe := year_of_era doe in doe - (365 * yoe + yoe / 4 - yoe / 100).

(** Year, month and day of a day number, and back. *)
Definition civil_from_days (days : Z) : Z * Z * Z :=
  let z := days + 305 in
  let doe := z mod 146097 in
  let doy := day_of_year doe in
  let mp := (5 * doy + 2) / 153 in
  let m := if mp <? 10 then mp + 3 else mp - 9 in
  (year_of_era doe + z / 146097 * 400 + (if m <=? 2 then 1 else 0), m, doy - (153 * mp + 2) / 5 + 1).
Definition days_from_civil (y m d : Z) : Z :=
  let y := y - (if m <=? 2 then 1 else 0) in
  let yoe := y mod 400 in
  let mp := (m + 9) mod 12 in
  y / 400 * 146097 + (365 * yoe + yoe / 4 - yoe / 100 + ((153 * mp + 2) / 5 + d - 1)) - 305.

(** [a], [c], [e], [y], [q] and [h] are the quotients of the definitions. *)
Lemma era_quotients doe a c e y q h :
  0 ≤ doe < 146097 → 1460 * a ≤ doe < 1460 * a + 1460 → 36524 * c ≤ doe < 36524 * c + 36524 →
  146096 * e ≤ doe < 146096 * e + 146096 → 365 * y ≤ doe - a + c - e < 365 * y + 365 →
  4 * q ≤ y < 4 * q + 4 → 100 * h ≤ y < 100 * h + 100 →
  0 ≤ doe - (365 * y + q - h) < 366.
Proof.
  intros. assert (c = 0 ∨ c = 1 ∨ c = 2 ∨ c = 3 ∨ c = 4) as Hc by lia.
  destruct Hc as [->|[->|[->|[->| ->]]]]; [assert (h = 0)|assert (h = 1)|assert (h = 2)|assert (h = 3)|]; lia.
Qed.
Lemma quotient_bounds z k : 0 < k → k * (z / k) ≤ z < k * (z / k) + k.
Proof. intros. pose proof (Z.div_mod z k). pose proof (Z.mod_pos_bound z k). lia. Qed.
Lemma era_ranges doe : 0 ≤ doe < 146097 → 0 ≤ year_of_era doe < 400 ∧ 0 ≤ day_of_year doe < 366.
Proof.
  intros Hd. split.
  { unfold year_of_era. pose proof (quotient_bounds doe 1460). pose proof (quotient_bounds doe 36524).
    pose proof (quotient_bounds doe 146096). pose proof (quotient_bounds (doe - doe / 1460 + doe / 36524 - doe / 146096) 365).
    generalize dependent ((doe - doe / 1460 + doe / 36524 - doe / 146096) / 365). intros.
    generalize dependent (doe / 1460). generalize dependent (doe / 36524). generalize dependent (doe / 146096). intros e He c Hc a Ha Hy.
    clear - Hd He Hc Ha Hy. specialize (He ltac:(lia)). specialize (Hc ltac:(lia)). specialize (Ha ltac:(lia)). specialize (Hy ltac:(lia)).
    assert (e = 0 ∨ e = 1) by lia. lia. }
  unfold day_of_year.
  apply (era_quotients doe (doe / 1460) (doe / 36524) (doe / 146096)); [done|..]; by apply quotient_bounds.
Qed.

Lemma civil_days days : let '(y, m, d) := civil_from_days days in days_from_civil y m d = days ∧ 1 ≤ m ≤ 12 ∧ 1 ≤ d ≤ 31.
Proof.
  unfold civil_from_days, days_from_civil. set (z := days + 305).
  pose proof (Z.mod_pos_bound z 146097 ltac:(lia)) as Hdoe. pose proof (Z.div_mod z 146097 ltac:(lia)) as Hz.
  set (doe := z mod 146097) in *. set (era := z / 146097) in *.
  destruct (era_ranges doe Hdoe) as [Hyoe Hdoy].
  assert (doe = 365 * year_of_era doe + year_of_era doe / 4 - year_of_era doe / 100 + day_of_year doe) as Hd
    by (unfold day_of_year; lia).
  set (yoe := year_of_era doe) in *. set (doy := day_of_year doe) in *.
  pose proof (quotient_bounds (5 * doy + 2) 153 ltac:(lia)) as Hq. set (mp := (5 * doy + 2) / 153) in *.
  pose proof (quotient_bounds (153 * mp + 2) 5 ltac:(lia)) as Hq'.
  assert (0 ≤ mp < 12) as Hmp by (clearbody mp doy; clear - Hq Hdoy; lia).
  assert (0 ≤ doy - (153 * mp + 2) / 5 < 31) as Hday by (clearbody mp doy; clear - Hq Hq' Hdoy; lia).
  set (m := if mp <? 10 then mp + 3 else mp - 9).
  assert (1 ≤ m ≤ 12 ∧ (m + 9) mod 12 = mp) as [Hm Hmod].
  { unfold m. case_bool; (split; [lia|]); [|replace (mp - 9 + 9) with mp by lia; apply Z.mod_small; lia].
    replace (mp + 3 + 9) with (mp + 1 * 12) by lia. rewrite Z.mod_add by lia. apply Z.mod_small. lia. }
  split_and!; [|lia..].
  replace (yoe + era * 400 + (if m <=? 2 then 1 else 0) - (if m <=? 2 then 1 else 0)) with (yoe + era * 400) by lia.
  rewrite Z.mod_add, Z.div_add, (Z.div_small yoe), (Z.mod_small yoe), Hmod by lia.
  unfold z in *. lia.
Qed.

Lemma year_bound days : date_range days → - 2 ^ 31 < (civil_from_days days).1.1 < 2 ^ 31.
Proof.
  unfold date_range, civil_from_days. cbn [fst snd]. intros Hd.
  destruct (era_ranges ((days + 305) mod 146097)) as [H _]; [apply Z.mod_pos_bound; lia|].
  pose proof (quotient_bounds (days + 305) 146097 ltac:(lia)) as Hq.
  set (yoe := year_of_era _) in *. set (q := (days + 305) / 146097) in *. clearbody yoe q.
  destruct (_ <=? 2); lia.
Qed.

Definition from_ymd (y m d : Z) : option (dsig date_range) :=
  let days := days_from_civil y m d in
  if bool_decide (civil_from_days days = (y, m, d)) then bounded date_range days else None.

(** Monday is 0; 1 January of year 1 was one. *)
Definition weekday_index (w : Weekday) : Z :=
  match w with Mon => 0 | Tue => 1 | Wed => 2 | Thu => 3 | Fri => 4 | Sat => 5 | Sun => 6 end.
Definition from_isoywd (y w : Z) (wd : Weekday) : option (dsig date_range) :=
  let january_4 := days_from_civil y 1 4 in
  let monday := january_4 - (january_4 - 1) mod 7 + 7 * (w - 1) in
  if (1 <=? w) && ((civil_from_days (monday + 3)).1.1 =? y) then bounded date_range (monday + weekday_index wd) else None.

Definition from_hms_nano (h m s n : Z) : option (dsig time_range) :=
  if (h <? 24) && (m <? 60) && (s <? 60) && ((n <? NANOS_PER_SECOND) || ((s =? 59) && (n <? 2 * NANOS_PER_SECOND)))
  then bounded time_range (h * 3600 + m * 60 + s, n) else None.

(** A date and time moved by some seconds. *)
Definition shift (dt : dsig date_range * dsig time_range) (seconds : Z) : option (dsig date_range * dsig time_range) :=
  let s := (`dt.2).1 + seconds in
  match bounded date_range (`dt.1 + s / 86400), bounded time_range (s mod 86400, (`dt.2).2) with
  | Some d, Some t => Some (d, t)
  | _, _ => None
  end.

#[export] Instance fields : ChronoFields chrono := {
  year d := (civil_from_days (`d)).1.1;
  month d := (civil_from_days (`d)).1.2;
  day d := (civil_from_days (`d)).2;
  from_ymd_opt := from_ymd;
  from_yo_opt y n :=
    if (1 <=? n) && ((civil_from_days (days_from_civil y 1 1 + n - 1)).1.1 =? y)
    then bounded date_range (days_from_civil y 1 1 + n - 1) else None;
  from_isoywd_opt := from_isoywd;
  hour t := (`t).1 / 3600;
  minute t := (`t).1 / 60 mod 60;
  second t := (`t).1 mod 60;
  from_hms_nano_opt := from_hms_nano;
  NaiveTime_MIN := dexist (0, 0) (conj (conj (Z.le_refl 0) eq_refl) (conj (Z.le_refl 0) eq_refl));
  naive_local dt o := default dt (shift dt (`o));
  and_local_timezone dt o := shift dt (- `o);
}.

Lemma bounded_some {A} (P : A → Prop) `{∀ x, Decision (P x)} (x : A) (y : dsig P) : bounded P x = Some y → `y = x.
Proof. unfold bounded. destruct (decide _); [|done]. by intros [= <-]. Qed.

Lemma shift_back dt s dt' : shift dt s = Some dt' → shift dt' (- s) = Some dt ∧ (`dt'.2).2 = (`dt.2).2.
Proof.
  destruct dt as [d t], dt' as [d' t']. unfold shift. cbn [fst snd].
  destruct (bounded date_range _) as [d1|] eqn:Ed; [|done]. destruct (bounded time_range _) as [t1|] eqn:Et; [|done].
  intros [= -> ->]. apply bounded_some in Ed, Et. rewrite Ed, Et. cbn [fst snd]. split; [|done].
  destruct (proj2_dsig t) as [Ht _]. set (z := (`t).1 + s) in *. assert (z = (`t).1 + s) as Ez by done. clearbody z.
  pose proof (Z.div_mod z 86400 ltac:(lia)) as Hz.
  assert (z mod 86400 + - s = (`t).1 + - (z / 86400) * 86400) as -> by lia.
  rewrite Z.div_add, Z.mod_add, (Z.div_small (`t).1), (Z.mod_small (`t).1) by lia.
  replace (`d + z / 86400 + (0 + - (z / 86400))) with (`d) by lia.
  rewrite <- surjective_pairing. by rewrite !bounded_proj.
Qed.

#[export] Instance field_laws : ChronoFieldLaws chrono fields.
Proof.
  constructor.
  - intros d. change (from_ymd (civil_from_days (`d)).1.1 (civil_from_days (`d)).1.2 (civil_from_days (`d)).2 = Some d).
    pose proof (civil_days (`d)) as H. destruct (civil_from_days (`d)) as [[y m] dd] eqn:E. cbn [fst snd].
    destruct H as [H _]. unfold from_ymd. rewrite H, E, bool_decide_eq_true_2 by done. apply bounded_proj.
  - intros d. change (- 2 ^ 31 < (civil_from_days (`d)).1.1 < 2 ^ 31). pose proof (proj2_dsig d) as Hd.
    apply year_bound, Hd.
  - intros d. change (1 ≤ (civil_from_days (`d)).1.2 ≤ 12). pose proof (civil_days (`d)) as H.
    destruct (civil_from_days (`d)) as [[y m] dd]. apply H.
  - intros d. change (1 ≤ (civil_from_days (`d)).2 ≤ 31). pose proof (civil_days (`d)) as H.
    destruct (civil_from_days (`d)) as [[y m] dd]. apply H.
  - intros t Ht. change ((`t).2 < 1000000000) in Ht.
    change (from_hms_nano ((`t).1 / 3600) ((`t).1 / 60 mod 60) ((`t).1 mod 60) (`t).2 = Some t).
    destruct (proj2_dsig t) as [Hs Hn]. unfold from_hms_nano. rewrite hms_sum, <- surjective_pairing, bounded_proj.
    assert ((`t).1 / 3600 < 24) by (apply Z.div_lt_upper_bound; [lia|]; apply Hs).
    pose proof (Z.mod_pos_bound ((`t).1 / 60) 60 ltac:(lia)). pose proof (Z.mod_pos_bound (`t).1 60 ltac:(lia)).
    unfold NANOS_PER_SECOND.
    destruct (Z.ltb_spec ((`t).1 / 3600) 24), (Z.ltb_spec ((`t).1 / 60 mod 60) 60), (Z.ltb_spec ((`t).1 mod 60) 60),
      (Z.ltb_spec (`t).2 1000000000); done || lia.
  - intros t. change (0 ≤ (`t).1 / 3600 < 24). destruct (proj2_dsig t) as [Hs _].
    split; [apply Z.div_pos; [apply Hs|lia]|apply Z.div_lt_upper_bound; [lia|apply Hs]].
  - intros t. apply Z.mod_pos_bound. lia.
  - intros t. apply Z.mod_pos_bound. lia.
  - intros dt o dt' H. exact (f_equal (default dt) H).
  - intros dt o dt' H. exact (proj1 (shift_back dt (`o) dt' H)).
  - intros dt o dt' H. exact (proj2 (shift_back dt (`o) dt' H)).
Qed.
End Civil.
