(* ===== verification/DurationText.v ===== *)
(** Durations and their ISO 8601 text: [Duration] of crates/core/src/temporal.rs,
    [DurationBuilder] of temporal/construct.rs, [write_duration] of
    temporal/format.rs and [parse_duration] of temporal/parse.rs.

    Floats are those of [Float64]. *)
From Stdlib Require Import SpecFloat.
From S2P Require Import Prelude Decimal DecimalArith DecimalText Text Values TemporalText Float64.

(** ** Durations *)

Definition Duration_new `{Chrono} (months days : Z) (time : TimeDelta) : Duration :=
  {| d_months := months; d_days := days; d_time := time |}.

Definition delta_from_nanos `{Chrono} (nanos : Z) : option TimeDelta :=
  match i64_try_from (nanos / NANOS_PER_SECOND) with
  | Some seconds => TimeDelta_new seconds (nanos mod NANOS_PER_SECOND)
  | None => None
  end.

Definition from_parts `{Chrono} (months days nanos : Z) : option Duration :=
  match delta_from_nanos nanos with Some time => Some (Duration_new months days time) | None => None end.

Definition Duration_checked_neg `{Chrono} (d : Duration) : option Duration :=
  match i64_try_from (- d_months d), i64_try_from (- d_days d), delta_from_nanos (- delta_nanos (d_time d)) with
  | Some months, Some days, Some time => Some (Duration_new months days time)
  | _, _, _ => None
  end.

(** ** The builder: construct.rs *)

Inductive Number :=
  | NumInt (value : Z)
  | NumFloat (value : f64)
  | NumDecimal (negative : bool) (whole fraction digits : Z).

Definition as_f64 (n : Number) : f64 :=
  match n with
  | NumInt value => f64_of_Z value
  | NumFloat value => value
  | NumDecimal negative whole fraction digits =>
      let magnitude := f64_add (f64_of_Z whole) (f64_div (f64_of_Z fraction) (f64_of_Z (10 ^ digits))) in
      if negative then SFopp magnitude else magnitude
  end.

Inductive DurationUnit := UMonths (factor : Z) | UDays (factor : Z) | UNanos (factor : Z).

Definition is_lit (key : bytes) (s : string) : bool := bool_decide (key = lit s).

Definition duration_unit (key : bytes) : option DurationUnit :=
  let key := ascii_lower <$> key in
  if is_lit key "years" then Some (UMonths 12)
  else if is_lit key "quarters" then Some (UMonths 3)
  else if is_lit key "months" then Some (UMonths 1)
  else if is_lit key "weeks" then Some (UDays 7)
  else if is_lit key "days" then Some (UDays 1)
  else if is_lit key "hours" then Some (UNanos (3600 * NANOS_PER_SECOND))
  else if is_lit key "minutes" then Some (UNanos (60 * NANOS_PER_SECOND))
  else if is_lit key "seconds" then Some (UNanos NANOS_PER_SECOND)
  else if is_lit key "milliseconds" then Some (UNanos 1000000)
  else if is_lit key "microseconds" then Some (UNanos 1000)
  else if is_lit key "nanoseconds" then Some (UNanos 1)
  else None.

Definition out_of_range : TemporalFault := TemporalMessage "duration is out of range" [].

(** An integer total and the fraction left over, for months, days and nanoseconds. *)
Record DurationBuilder := {
  b_months : Z * f64;
  b_days : Z * f64;
  b_nanos : Z * f64;
}.
Definition DurationBuilder_default : DurationBuilder :=
  {| b_months := (0, S754_zero false); b_days := (0, S754_zero false); b_nanos := (0, S754_zero false) |}.

(** The [match value] of [DurationBuilder::add] on one accumulator. *)
Definition add_to (exact : bool) (factor : Z) (acc : Z * f64) (value : Number) : TemporalResult (Z * f64) :=
  let '(target, fraction) := acc in
  match value, exact with
  | NumInt value, _ =>
      let? scaled := ok_or (checked_i128 (value * factor)) out_of_range in
      let? target := ok_or (checked_i128 (target + scaled)) out_of_range in
      Ok (target, fraction)
  | NumDecimal negative whole digits_value digits, true =>
      let scale := 10 ^ digits in
      let? whole := ok_or (checked_i128 (whole * factor)) out_of_range in
      let? magnitude := ok_or (checked_i128 (whole + digits_value * factor / scale)) out_of_range in
      let signed := if negative then - magnitude else magnitude in
      let? target := ok_or (checked_i128 (target + signed)) out_of_range in
      Ok (target, fraction)
  | _, _ =>
      let total := f64_mul (as_f64 value) (f64_of_Z factor) in
      if negb (f64_is_finite total) || SFleb (f64_of_Z (10 ^ 36)) (SFabs total) then Err out_of_range
      else
        let whole := f64_trunc total in
        let? target := ok_or (checked_i128 (target + f64_as_i128 whole)) out_of_range in
        Ok (target, f64_add fraction (f64_sub total whole))
  end.

Definition builder_add (b : DurationBuilder) (key : bytes) (value : Number) : TemporalResult DurationBuilder :=
  let? unit := ok_or (duration_unit key) (TemporalMessage "unknown duration component '{key}'" key) in
  match unit with
  | UMonths factor =>
      let? acc := add_to false factor (b_months b) value in
      Ok {| b_months := acc; b_days := b_days b; b_nanos := b_nanos b |}
  | UDays factor =>
      let? acc := add_to false factor (b_days b) value in
      Ok {| b_months := b_months b; b_days := acc; b_nanos := b_nanos b |}
  | UNanos factor =>
      let? acc := add_to true factor (b_nanos b) value in
      Ok {| b_months := b_months b; b_days := b_days b; b_nanos := acc |}
  end.

(** 30.436875, the quotient of two integers that are exact. *)
Definition AVERAGE_DAYS_PER_MONTH : f64 := f64_div (f64_of_Z 30436875) (f64_of_Z 1000000).
Definition NANOS_PER_DAY : Z := 86400 * NANOS_PER_SECOND.

Definition builder_finish `{Chrono} (b : DurationBuilder) : TemporalResult Duration :=
  let days_from_months := f64_mul (b_months b).2 AVERAGE_DAYS_PER_MONTH in
  let whole_days := f64_trunc days_from_months in
  let fractional_days := f64_add (b_days b).2 (f64_sub days_from_months whole_days) in
  let nanos_from_days := f64_add (f64_mul fractional_days (f64_of_Z NANOS_PER_DAY)) (b_nanos b).2 in
  let? days := ok_or (checked_i128 ((b_days b).1 + f64_as_i128 whole_days)) out_of_range in
  let? nanos := ok_or (checked_i128 ((b_nanos b).1 + f64_as_i128 (f64_round nanos_from_days))) out_of_range in
  let? months := ok_or (i64_try_from (b_months b).1) out_of_range in
  let? days := ok_or (i64_try_from days) out_of_range in
  ok_or (from_parts months days nanos) out_of_range.

(** ** Rendering: [write_duration] *)

Fixpoint trim_end_zeros (rev_digits : bytes) : bytes :=
  match rev_digits with d :: t => if d =? 48 then trim_end_zeros t else rev_digits | [] => [] end.
(** [trim_end_matches('0')]. *)
Definition trim_zeros (ds : bytes) : bytes := reverse (trim_end_zeros (reverse ds)).

Definition write_unit (value : Z) (text : bytes) (unit : Z) : bytes := if value =? 0 then [] else text ++ [unit].

Definition write_duration `{Chrono} (duration : Duration) : bytes :=
  let years := Z.quot (d_months duration) 12 in
  let months := Z.rem (d_months duration) 12 in
  let nanos := delta_nanos (d_time duration) in
  let sign := if nanos <? 0 then [45] else [] in
  let magnitude := Z.abs nanos in
  let hours := magnitude / 3600000000000 in
  let minutes := magnitude / 60000000000 mod 60 in
  let seconds := magnitude / 1000000000 mod 60 in
  let fraction := magnitude mod 1000000000 in
  80 :: write_unit years (print_signed years) 89 ++ write_unit months (print_signed months) 77
    ++ write_unit (d_days duration) (print_signed (d_days duration)) 68
    ++ (if magnitude =? 0 then
          if (d_months duration =? 0) && (d_days duration =? 0) then lit "T0S" else []
        else
          84 :: write_unit hours (sign ++ print_u128 hours) 72 ++ write_unit minutes (sign ++ print_u128 minutes) 77
            ++ (if (seconds =? 0) && (fraction =? 0) then []
                else sign ++ print_u128 seconds
                       ++ (if fraction =? 0 then [] else 46 :: trim_zeros (print_padded fraction 9)) ++ [83])).

(** ** Parsing: [parse_duration] *)

Definition from_str_i64 : bytes → option Z := parse_signed i64_min i64_max.
Definition from_str_u64 : bytes → option Z := parse_unsigned u64_max.

Definition parse_duration_number (text input : bytes) : TemporalResult Number :=
  let normalized := (λ b, if b =? 44 then 46 else b) <$> text in
  let '(negative, unsigned) :=
    match normalized with
    | c :: t => if c =? 45 then (true, t) else if c =? 43 then (false, t) else (false, normalized)
    | [] => (false, normalized)
    end in
  let '(whole, fraction) :=
    match split_once 46 unsigned with
    | Some (whole, fraction) => (whole, Some fraction)
    | None => (unsigned, None)
    end in
  if negb (all_digits whole) || match fraction with Some f => negb (all_digits f) | None => false end
  then Err (invalid "duration" input)
  else
    match fraction with
    | None => let? value := ok_or (from_str_i64 normalized) (invalid "duration" input) in Ok (NumInt value)
    | Some fraction =>
        let fraction := trim_zeros fraction in
        let fraction := match fraction with [] => [48] | _ => fraction end in
        if 18 <? zlen fraction then Err (invalid "duration" input)
        else
          let? whole := ok_or (from_str_u64 whole) (invalid "duration" input) in
          let? value := ok_or (from_str_u64 fraction) (invalid "duration" input) in
          Ok (NumDecimal negative whole value (zlen fraction))
    end.

Definition is_ascii_alphabetic (b : Z) : bool := ((65 <=? b) && (b <=? 90)) || ((97 <=? b) && (b <=? 122)).
Definition ascii_upper (b : Z) : Z := if (97 <=? b) && (b <=? 122) then b - 32 else b.

(** [units[next_unit..]] after the unit found. *)
Fixpoint after_unit (unit : Z) (units : list Z) : option (list Z) :=
  match units with [] => None | u :: units => if u =? unit then Some units else after_unit unit units end.

Definition unit_key (time : bool) (unit : Z) : option string :=
  if time then if unit =? 72 then Some "hours" else if unit =? 77 then Some "minutes" else if unit =? 83 then Some "seconds" else None
  else if unit =? 89 then Some "years" else if unit =? 77 then Some "months" else if unit =? 87 then Some "weeks"
  else if unit =? 68 then Some "days" else None.

(** The loop of [parse_duration_section]: [number_text] is what [rest] has
    before its next letter, [units] the units still allowed. *)
Fixpoint section_loop (time : bool) (rest number_text : bytes) (units : list Z) (b : DurationBuilder) (input : bytes)
    : TemporalResult DurationBuilder :=
  match rest with
  | [] => match number_text with [] => Ok b | _ => Err (invalid "duration" input) end
  | c :: rest =>
      if is_ascii_alphabetic c then
        let unit := ascii_upper c in
        let? units := ok_or (after_unit unit units) (invalid "duration" input) in
        let? value := parse_duration_number number_text input in
        let? key := ok_or (unit_key time unit) (invalid "duration" input) in
        let? b := builder_add b (lit key) value in
        section_loop time rest [] units b input
      else section_loop time rest (number_text ++ [c]) units b input
  end.
Definition parse_duration_section (section : bytes) (time : bool) (b : DurationBuilder) (input : bytes)
    : TemporalResult DurationBuilder :=
  section_loop time section [] (if time then [72; 77; 83] else [89; 77; 87; 68]) b input.

Definition parse_duration `{Chrono} (input : bytes) : TemporalResult Duration :=
  let text := trim input in
  let '(negate, text) :=
    match text with
    | c :: t => if c =? 45 then (true, t) else if c =? 43 then (false, t) else (false, text)
    | [] => (false, text)
    end in
  match strip_char [80; 112] text with
  | None => Err (invalid "duration" input)
  | Some body =>
      let '(date_part, time_part) :=
        match split_at_first (one_of [84; 116]) body with
        | Some (date, time) => (date, Some time)
        | None => (body, None)
        end in
      if match body with [] => true | _ => false end || match time_part with Some [] => true | _ => false end
      then Err (invalid "duration" input)
      else
        let? b := parse_duration_section date_part false DurationBuilder_default input in
        let? b := match time_part with Some time => parse_duration_section time true b input | None => Ok b end in
        let? duration := builder_finish b in
        if negate then ok_or (Duration_checked_neg duration) out_of_range else Ok duration
  end.

(** ** Rendered durations parse *)

Lemma i64_try_from_ok z : is_i64 z → i64_try_from z = Some z.
Proof. unfold is_i64, i64_try_from, i64_min, i64_max. intros. by repeat (case_bool; cbn [andb]; [|lia]). Qed.
Lemma checked_i128_ok z : - 2 ^ 127 ≤ z < 2 ^ 127 → checked_i128 z = Some z.
Proof. unfold checked_i128, i128_min, i128_max. intros. by repeat (case_bool; cbn [andb]; [|lia]). Qed.

Lemma add_to_int exact factor t f v :
  - 2 ^ 127 ≤ v * factor < 2 ^ 127 → - 2 ^ 127 ≤ t + v * factor < 2 ^ 127 →
  add_to exact factor (t, f) (NumInt v) = Ok (t + v * factor, f).
Proof. intros H1 H2. unfold add_to. rewrite checked_i128_ok by done. cbn [ok_or result_bind]. by rewrite checked_i128_ok by done. Qed.

(** Nothing of a fraction is left when every component was exact. *)
Lemma finish_exact `{Chrono} months days nanos :
  is_i64 months → is_i64 days → - 2 ^ 127 ≤ nanos < 2 ^ 127 →
  builder_finish {| b_months := (months, S754_zero false); b_days := (days, S754_zero false); b_nanos := (nanos, S754_zero false) |}
  = ok_or (from_parts months days nanos) out_of_range.
Proof.
  intros Hm Hd Hn. unfold builder_finish. cbn [b_months b_days b_nanos fst snd].
  change (f64_as_i128 (f64_trunc (f64_mul (S754_zero false) AVERAGE_DAYS_PER_MONTH))) with 0.
  match goal with |- context [f64_as_i128 (f64_round ?x)] => change (f64_as_i128 (f64_round x)) with 0 end.
  rewrite !Z.add_0_r. unfold is_i64 in *. rewrite !checked_i128_ok by lia. cbn [ok_or result_bind].
  by rewrite !i64_try_from_ok.
Qed.

(** One component: the text before a letter, and the letter. *)
Lemma section_token time text c rest number_text units b input :
  no is_ascii_alphabetic text → is_ascii_alphabetic c = true →
  section_loop time (text ++ c :: rest) number_text units b input =
  (let unit := ascii_upper c in
   let? units := ok_or (after_unit unit units) (invalid "duration" input) in
   let? value := parse_duration_number (number_text ++ text) input in
   let? key := ok_or (unit_key time unit) (invalid "duration" input) in
   let? b := builder_add b (lit key) value in
   section_loop time rest [] units b input).
Proof.
  intros Ht Hc. revert number_text. induction Ht as [|x text Hx _ IH]; intros number_text; cbn [app section_loop].
  - by rewrite Hc, app_nil_r.
  - rewrite Hx, IH, <- app_assoc. done.
Qed.

Lemma normalized_id text : no (is_char 44) text → (λ b, if b =? 44 then 46 else b) <$> text = text.
Proof. induction 1 as [|b text Hb _ IH]; [done|]. cbn. unfold is_char in Hb. by rewrite Hb, IH. Qed.

Ltac num_chars :=
  match goal with
  | HF : Forall _ ?s |- Forall _ ?s => eapply Forall_impl; [exact HF|]
  | HF : Forall _ ?s |- no _ ?s => eapply Forall_impl; [exact HF|]
  end;
  intros ?b; cbn beta; unfold numeric, is_ascii_alphabetic, graphic, is_digit, is_char, one_of; cbn; lia.

Lemma all_digits_print n : 0 ≤ n → all_digits (print_u128 n) = true.
Proof.
  intros. apply all_digits_true; [by apply print_u128_nonempty|by apply print_u128_digits].
Qed.

(** The sign of a number that starts with a digit or a minus. *)
Lemma split_sign (neg : bool) n rest :
  0 ≤ n → match (if neg then [45] else []) ++ print_u128 n ++ rest with
  | c :: t => if c =? 45 then (true, t) else if c =? 43 then (false, t) else (false, (if neg then [45] else []) ++ print_u128 n ++ rest)
  | [] => (false, (if neg then [45] else []) ++ print_u128 n ++ rest)
  end = (neg, print_u128 n ++ rest).
Proof.
  intros Hn. destruct neg; [done|]. cbn [app]. pose proof (print_u128_digits n Hn) as HF. pose proof (print_u128_nonempty n Hn).
  destruct (print_u128 n) as [|b t]; [done|]. apply Forall_cons in HF as [Hb _]. unfold is_digit in Hb. cbn [app].
  destruct (Z.eqb_spec b 45); [lia|]. destruct (Z.eqb_spec b 43); [lia|]. done.
Qed.

Lemma print_signed_split z :
  print_signed z = (if z <? 0 then [45] else []) ++ print_u128 (Z.abs z).
Proof. unfold print_signed. case_bool; [by rewrite Z.abs_neq by lia|by rewrite Z.abs_eq by lia]. Qed.

Lemma parse_number_int z input : is_i64 z → parse_duration_number (print_signed z) input = Ok (NumInt z).
Proof.
  intros Hz. pose proof (print_signed_numeric z) as HF. unfold parse_duration_number. rewrite normalized_id by num_chars.
  assert (Forall (λ b, is_digit b = true) (print_u128 (Z.abs z))) as Hd by (apply print_u128_digits; lia).
  pose proof (split_sign (z <? 0) (Z.abs z) [] ltac:(lia)) as Hs. rewrite app_nil_r, <- print_signed_split in Hs.
  rewrite Hs. unfold split_once. rewrite split_at_first_none by num_chars.
  rewrite all_digits_print by lia. cbn [negb orb]. unfold from_str_i64, is_i64 in *.
  by rewrite parse_signed_print by (unfold i64_min, i64_max; lia).
Qed.

(** A rendered component that is an integer. *)
Lemma section_int time v c key rest units units' b b' input :
  is_i64 v → after_unit (ascii_upper c) units = Some units' → is_ascii_alphabetic c = true →
  unit_key time (ascii_upper c) = Some key → builder_add b (lit key) (NumInt v) = Ok b' →
  section_loop time ((print_signed v ++ [c]) ++ rest) [] units b input = section_loop time rest [] units' b' input.
Proof.
  intros Hv Hu Hc Hk Hb. pose proof (print_signed_numeric v). rewrite <- app_assoc. cbn [app].
  rewrite section_token by (done || num_chars). cbv zeta. rewrite Hu. cbn [ok_or result_bind app].
  rewrite parse_number_int by done. cbn [result_bind]. rewrite Hk. cbn [ok_or result_bind]. by rewrite Hb.
Qed.

Definition exact_builder (months days nanos : Z) : DurationBuilder :=
  {| b_months := (months, S754_zero false); b_days := (days, S754_zero false); b_nanos := (nanos, S754_zero false) |}.

(** Adding an integer component to exact totals. *)
Lemma add_years mo da na v : is_i64 v → is_i64 mo →
  builder_add (exact_builder mo da na) (lit "years") (NumInt v) = Ok (exact_builder (mo + v * 12) da na).
Proof.
  unfold is_i64. intros. unfold builder_add. change (duration_unit (lit "years")) with (Some (UMonths 12)).
  cbn [ok_or result_bind b_months exact_builder]. by rewrite add_to_int by lia.
Qed.
Lemma add_months mo da na v : is_i64 v → - 2 ^ 100 ≤ mo < 2 ^ 100 →
  builder_add (exact_builder mo da na) (lit "months") (NumInt v) = Ok (exact_builder (mo + v * 1) da na).
Proof.
  unfold is_i64. intros. unfold builder_add. change (duration_unit (lit "months")) with (Some (UMonths 1)).
  cbn [ok_or result_bind b_months exact_builder]. by rewrite add_to_int by lia.
Qed.
Lemma add_days mo da na v : is_i64 v → is_i64 da →
  builder_add (exact_builder mo da na) (lit "days") (NumInt v) = Ok (exact_builder mo (da + v * 1) na).
Proof.
  unfold is_i64. intros. unfold builder_add. change (duration_unit (lit "days")) with (Some (UDays 1)).
  cbn [ok_or result_bind b_days exact_builder]. by rewrite add_to_int by lia.
Qed.
Lemma add_nanos key factor mo da na v :
  duration_unit (lit key) = Some (UNanos factor) → 0 < factor ≤ 3600000000000 → is_i64 v → - 2 ^ 126 ≤ na < 2 ^ 126 →
  builder_add (exact_builder mo da na) (lit key) (NumInt v) = Ok (exact_builder mo da (na + v * factor)).
Proof.
  unfold is_i64. intros Hk Hf Hv Hn. unfold builder_add. rewrite Hk. cbn [ok_or result_bind b_nanos exact_builder].
  assert (- (2 ^ 63 * 3600000000000) ≤ v * factor ≤ 2 ^ 63 * 3600000000000) by nia.
  by rewrite add_to_int by lia.
Qed.

Lemma is_i64_0 : is_i64 0.
Proof. done. Qed.

Definition date_text (years months days : Z) : bytes :=
  write_unit years (print_signed years) 89 ++ write_unit months (print_signed months) 77 ++ write_unit days (print_signed days) 68.

Lemma parse_date_section years months days input :
  is_i64 years → is_i64 months → is_i64 days →
  parse_duration_section (date_text years months days) false DurationBuilder_default input
  = Ok (exact_builder (years * 12 + months) days 0).
Proof.
  intros Hy Hm Hd. unfold parse_duration_section, date_text, write_unit.
  change DurationBuilder_default with (exact_builder 0 0 0).
  assert (∀ units units' b, after_unit 68 units = Some units' → b = exact_builder (years * 12 + months) 0 0 →
    section_loop false (if days =? 0 then [] else print_signed days ++ [68]) [] units b input
    = Ok (exact_builder (years * 12 + months) days 0)) as Hdays.
  { intros units units' b Hu ->. destruct (Z.eqb_spec days 0) as [->|Hne]; [done|].
    rewrite <- (app_nil_r (print_signed days ++ [68])).
    rewrite (section_int false days 68 "days" [] units units' _ _ input Hd Hu eq_refl eq_refl (add_days _ 0 _ _ Hd is_i64_0)).
    cbn. by rewrite Z.mul_1_r. }
  assert (∀ units units' b, after_unit 77 units = Some units' → is_Some (after_unit 68 units) → is_Some (after_unit 68 units') →
    b = exact_builder (years * 12) 0 0 →
    section_loop false ((if months =? 0 then [] else print_signed months ++ [77]) ++ (if days =? 0 then [] else print_signed days ++ [68]))
      [] units b input = Ok (exact_builder (years * 12 + months) days 0)) as Hmonths.
  { intros units units' b Hu [w Hw] [w' Hw'] ->. destruct (Z.eqb_spec months 0) as [->|Hne].
    - apply (Hdays units w); [done|]. by rewrite Z.add_0_r.
    - rewrite (section_int false months 77 "months" _ units units' _ _ input Hm Hu eq_refl eq_refl
        (add_months (years * 12) _ _ _ Hm ltac:(unfold is_i64 in *; lia))). rewrite Z.mul_1_r. by apply (Hdays units' w'). }
  destruct (Z.eqb_spec years 0) as [->|Hne].
  - by apply (Hmonths _ [87; 68]).
  - rewrite (section_int false years 89 "years" _ [89; 77; 87; 68] [77; 87; 68] _ _ input Hy eq_refl eq_refl eq_refl (add_years 0 _ _ _ Hy is_i64_0)).
    by apply (Hmonths _ [87; 68]).
Qed.

(** *** Fractions of a second *)

Lemma trim_end_zeros_spec l :
  ∃ k, l = replicate k 48 ++ trim_end_zeros l ∧ match trim_end_zeros l with d :: _ => d ≠ 48 | [] => True end.
Proof.
  induction l as [|d l (k & Hl & Hh)]; [by exists 0%nat|]. cbn. destruct (Z.eqb_spec d 48) as [->|Hne].
  - exists (S k). cbn. split; [by f_equal|done].
  - by exists 0%nat.
Qed.
Lemma trim_zeros_spec l :
  ∃ k, l = trim_zeros l ++ replicate k 48 ∧ trim_zeros (trim_zeros l) = trim_zeros l.
Proof.
  unfold trim_zeros. destruct (trim_end_zeros_spec (reverse l)) as (k & Hl & Hh). exists k. split.
  - rewrite <- (reverse_involutive l) at 1. rewrite Hl at 1. by rewrite reverse_app, reverse_replicate.
  - rewrite reverse_involutive. f_equal. destruct (trim_end_zeros (reverse l)) as [|d t]; [done|]. cbn.
    destruct (Z.eqb_spec d 48); done.
Qed.

(** The digits that are left are the nanoseconds, at their scale. *)
Lemma fraction_text f :
  0 < f < 1000000000 →
  let ds := trim_zeros (print_padded f 9) in
  Forall (λ b, is_digit b = true) ds ∧ ds ≠ [] ∧ trim_zeros ds = ds ∧ zlen ds ≤ 9 ∧
  ∃ v, parse_digits ds = Some v ∧ 0 ≤ v < 10 ^ zlen ds ∧ v * NANOS_PER_SECOND / 10 ^ zlen ds = f.
Proof.
  intros Hf ds. destruct (print_padded_spec f 9 ltac:(lia) ltac:(lia)) as (_ & He & Hd & Hp). specialize (He ltac:(lia)).
  destruct (trim_zeros_spec (print_padded f 9)) as (k & Hk & Hid). fold ds in Hk, Hid. clearbody ds.
  rewrite Hk in He, Hd, Hp. apply Forall_app in Hd as [Hd _].
  assert (zlen (replicate k 48) = Z.of_nat k) as Hlk by (unfold zlen; by rewrite length_replicate).
  rewrite zlen_app, Hlk in He.
  assert (Forall digit ((λ b, b - 48) <$> ds)) as Hdig.
  { apply Forall_fmap. eapply Forall_impl; [exact Hd|]. intros b. unfold is_digit, digit, compose. lia. }
  assert (f = from_digits ((λ b, b - 48) <$> ds) * 10 ^ Z.of_nat k) as Hfv.
  { unfold parse_digits in Hp. destruct (ds ++ replicate k 48) eqn:E; [done|]. rewrite <- E in Hp.
    destruct (forallb _ _); [|done]. injection Hp as <-. rewrite fmap_app, fmap_replicate.
    change (48 - 48) with 0. pose proof (from_digits_replicate ((λ b, b - 48) <$> ds) (Z.of_nat k) ltac:(lia)) as Er.
    unfold zeros in Er. rewrite Nat2Z.id in Er. exact Er. }
  set (v := from_digits _) in *. pose proof (from_digits_bound _ Hdig) as Hb. fold v in Hb.
  assert (zlen ((λ b, b - 48) <$> ds) = zlen ds) as El by (unfold zlen; by rewrite length_fmap). rewrite El in Hb.
  assert (ds ≠ []) as Hne. { intros E. assert (zlen ds = 0) as Ez by by rewrite E. rewrite Ez in Hb. lia. }
  split_and!; [done..|lia|]. exists v. split_and!; [|lia|lia|].
  - by apply parse_digits_value.
  - unfold NANOS_PER_SECOND. change 1000000000 with (10 ^ 9). rewrite <- He, Z.pow_add_r by (try apply zlen_nonneg; lia).
    rewrite Hfv. rewrite (Z.mul_comm (10 ^ zlen ds)), Z.mul_assoc. apply Z.div_mul.
    pose proof (Z.pow_pos_nonneg 10 (zlen ds)). pose proof (zlen_nonneg ds). lia.
Qed.

Lemma parse_number_fraction (neg : bool) s f input :
  0 ≤ s < 60 → 0 < f < 1000000000 →
  ∃ v dg, parse_duration_number ((if neg then [45] else []) ++ print_u128 s ++ 46 :: trim_zeros (print_padded f 9)) input
    = Ok (NumDecimal neg s v dg) ∧ v * NANOS_PER_SECOND / 10 ^ dg = f.
Proof.
  intros Hs Hf. destruct (fraction_text f Hf) as (Hd & Hne & Hid & Hlen & v & Hv & Hvr & Hval).
  set (ds := trim_zeros (print_padded f 9)) in *. exists v, (zlen ds). split; [|done].
  pose proof (print_u128_digits s ltac:(lia)) as Hsd. unfold parse_duration_number. rewrite normalized_id.
  2: { apply Forall_app; split; [destruct neg; by repeat constructor|]. apply Forall_app; split; [num_chars|]. constructor; [done|num_chars]. }
  rewrite split_sign by lia. unfold split_once. rewrite split_at_first_hit by (done || num_chars).
  rewrite all_digits_print by lia. rewrite (all_digits_true ds) by done.
  cbn [negb orb]. rewrite Hid. destruct ds as [|d t] eqn:E; [done|]. rewrite <- E in *.
  destruct (Z.ltb_spec 18 (zlen ds)); [lia|]. unfold from_str_u64.
  rewrite parse_unsigned_print by (unfold u64_max; lia). cbn [ok_or result_bind].
  assert (parse_unsigned u64_max ds = Some v) as ->; [|done].
  unfold parse_unsigned. rewrite E in Hd |- *. apply Forall_cons in Hd as [Hb _]. unfold is_digit in Hb.
  destruct (Z.eqb_spec d 43); [lia|]. rewrite <- E, Hv. pose proof (Z.pow_le_mono_r 10 (zlen ds) 9 ltac:(lia) ltac:(lia)).
  unfold u64_max. case_bool; [done|lia].
Qed.

(** *** The time of day part *)

Definition signed_by (neg : bool) (n : Z) : Z := if neg then - n else n.

Lemma signed_text (neg : bool) n : 0 < n → (if neg then [45] else []) ++ print_u128 n = print_signed (signed_by neg n).
Proof. intros. rewrite print_signed_split. destruct neg; cbn [signed_by]; case_bool; try lia; [by rewrite Z.abs_opp, Z.abs_eq by lia|by rewrite Z.abs_eq by lia]. Qed.

Definition time_text (neg : bool) (h m s f : Z) : bytes :=
  let sign := if neg then [45] else [] in
  write_unit h (sign ++ print_u128 h) 72 ++ write_unit m (sign ++ print_u128 m) 77
    ++ (if (s =? 0) && (f =? 0) then []
        else sign ++ print_u128 s ++ (if f =? 0 then [] else 46 :: trim_zeros (print_padded f 9)) ++ [83]).

Lemma add_seconds_decimal mo da na (neg : bool) s v dg f :
  0 ≤ s < 60 → v * NANOS_PER_SECOND / 10 ^ dg = f → 0 ≤ f < NANOS_PER_SECOND → - 2 ^ 126 ≤ na < 2 ^ 126 →
  builder_add (exact_builder mo da na) (lit "seconds") (NumDecimal neg s v dg)
  = Ok (exact_builder mo da (na + signed_by neg (s * NANOS_PER_SECOND + f))).
Proof.
  intros Hs Hv Hf Hn. unfold builder_add. change (duration_unit (lit "seconds")) with (Some (UNanos NANOS_PER_SECOND)).
  cbn [ok_or result_bind b_nanos exact_builder]. unfold add_to. rewrite Hv. unfold NANOS_PER_SECOND in *.
  rewrite checked_i128_ok by lia. cbn [ok_or result_bind]. rewrite checked_i128_ok by lia. cbn [ok_or result_bind].
  rewrite checked_i128_ok by (destruct neg; lia). done.
Qed.

Lemma parse_seconds (neg : bool) s f mo da na units input :
  0 ≤ s < 60 → 0 ≤ f < 1000000000 → - 2 ^ 126 ≤ na < 2 ^ 126 → is_Some (after_unit 83 units) →
  section_loop true
    (if (s =? 0) && (f =? 0) then []
     else (if neg then [45] else []) ++ print_u128 s ++ (if f =? 0 then [] else 46 :: trim_zeros (print_padded f 9)) ++ [83])
    [] units (exact_builder mo da na) input
  = Ok (exact_builder mo da (na + signed_by neg (s * 1000000000 + f))).
Proof.
  intros Hs Hf Hn [units' Hu]. destruct (Z.eqb_spec f 0) as [->|Hf0].
  - destruct (Z.eqb_spec s 0) as [->|Hs0]; cbn [andb].
    { cbn. destruct neg; cbn; by rewrite Z.add_0_r. }
    rewrite app_nil_l, app_assoc, signed_text by lia. rewrite <- (app_nil_r (print_signed _ ++ [83])).
    rewrite (section_int true (signed_by neg s) 83 "seconds" [] units units' _ (exact_builder mo da (na + signed_by neg s * NANOS_PER_SECOND)));
      [|unfold is_i64; destruct neg; cbn [signed_by]; lia|done..|].
    + cbn [section_loop]. unfold NANOS_PER_SECOND. do 2 f_equal. destruct neg; cbn [signed_by]; lia.
    + apply add_nanos; [done|unfold NANOS_PER_SECOND; lia|unfold is_i64; destruct neg; cbn [signed_by]; lia|lia].
  - rewrite andb_false_r. destruct (parse_number_fraction neg s f input Hs ltac:(lia)) as (v & dg & Hp & Hv).
    destruct (fraction_text f ltac:(lia)) as (Hd & _). pose proof (print_u128_digits s ltac:(lia)) as Hsd.
    replace ((if neg then [45] else []) ++ print_u128 s ++ (46 :: trim_zeros (print_padded f 9)) ++ [83])
      with (((if neg then [45] else []) ++ print_u128 s ++ 46 :: trim_zeros (print_padded f 9)) ++ 83 :: [])
      by (rewrite <- !app_assoc; done).
    rewrite section_token; [|apply Forall_app; split; [destruct neg; by repeat constructor|];
      apply Forall_app; split; [num_chars|constructor; [done|num_chars]]|done].
    cbv zeta. change (ascii_upper 83) with 83. rewrite Hu. cbn [ok_or result_bind app].
    rewrite Hp. cbn [result_bind unit_key Z.eqb Pos.eqb ok_or].
    rewrite (add_seconds_decimal mo da na neg s v dg f) by (done || (unfold NANOS_PER_SECOND; lia)). done.
Qed.

Lemma parse_time_section (neg : bool) h m s f mo da input :
  0 ≤ h < 2 ^ 62 → 0 ≤ m < 60 → 0 ≤ s < 60 → 0 ≤ f < 1000000000 →
  parse_duration_section (time_text neg h m s f) true (exact_builder mo da 0) input
  = Ok (exact_builder mo da (signed_by neg (h * 3600000000000 + m * 60000000000 + s * 1000000000 + f))).
Proof.
  intros Hh Hm Hs Hf. unfold parse_duration_section, time_text, write_unit.
  set (tail := if (s =? 0) && (f =? 0) then [] else _).
  assert (∀ na units, - 2 ^ 120 ≤ na ≤ 2 ^ 120 → is_Some (after_unit 83 units) → is_Some (after_unit 83 (default [] (after_unit 77 units))) →
    is_Some (after_unit 77 units) →
    section_loop true ((if m =? 0 then [] else ((if neg then [45] else []) ++ print_u128 m) ++ [77]) ++ tail) [] units (exact_builder mo da na) input
    = Ok (exact_builder mo da (na + signed_by neg (m * 60000000000 + s * 1000000000 + f)))) as Hmin.
  { intros na units Hna Hu Hu' [w Hw]. destruct (Z.eqb_spec m 0) as [->|Hne].
    - cbn [app]. unfold tail. by rewrite parse_seconds by (done || lia).
    - rewrite Hw in Hu'. cbn in Hu'. rewrite signed_text by lia.
      rewrite (section_int true (signed_by neg m) 77 "minutes" tail units w _ (exact_builder mo da (na + signed_by neg m * (60 * NANOS_PER_SECOND))));
        [|unfold is_i64; destruct neg; cbn [signed_by]; lia|done..|].
      + unfold tail. unfold NANOS_PER_SECOND. rewrite parse_seconds; [|lia..| |done]; [|destruct neg; cbn [signed_by]; lia].
        do 2 f_equal. destruct neg; cbn [signed_by]; lia.
      + apply add_nanos; [done|unfold NANOS_PER_SECOND; lia|unfold is_i64; destruct neg; cbn [signed_by]; lia|lia]. }
  destruct (Z.eqb_spec h 0) as [->|Hne].
  - cbn [app]. by rewrite Hmin.
  - rewrite signed_text by lia.
    rewrite (section_int true (signed_by neg h) 72 "hours" _ [72; 77; 83] [77; 83] _ (exact_builder mo da (0 + signed_by neg h * (3600 * NANOS_PER_SECOND))));
      [|unfold is_i64; destruct neg; cbn [signed_by]; lia|done..|].
    + unfold NANOS_PER_SECOND. rewrite Hmin; [|destruct neg; cbn [signed_by]; lia|done..].
      do 2 f_equal. destruct neg; cbn [signed_by]; lia.
    + apply add_nanos; [done|unfold NANOS_PER_SECOND; lia|unfold is_i64; destruct neg; cbn [signed_by]; lia|lia].
Qed.

Section DurationRoundtrip.
Context {C : Chrono} `{!ChronoLaws C}.

Definition time_part (d : Duration) : bytes :=
  let magnitude := Z.abs (delta_nanos (d_time d)) in
  time_text (delta_nanos (d_time d) <? 0) (magnitude / 3600000000000) (magnitude / 60000000000 mod 60)
    (magnitude / 1000000000 mod 60) (magnitude mod 1000000000).

Lemma write_duration_parts d :
  write_duration d = 80 :: date_text (Z.quot (d_months d) 12) (Z.rem (d_months d) 12) (d_days d)
    ++ (if delta_nanos (d_time d) =? 0 then if (d_months d =? 0) && (d_days d =? 0) then lit "T0S" else []
        else 84 :: time_part d).
Proof.
  unfold write_duration, date_text, time_part, time_text. rewrite <- !app_assoc.
  assert ((Z.abs (delta_nanos (d_time d)) =? 0) = (delta_nanos (d_time d) =? 0)) as -> by lia. done.
Qed.

(** The bytes of the parts: none of them is the [T] between the parts. *)
Definition part_char (b : Z) : bool := iso_char b && negb (one_of [84; 116] b).

Lemma write_unit_chars v text unit :
  Forall (λ b, part_char b = true) text → part_char unit = true → Forall (λ b, part_char b = true) (write_unit v text unit).
Proof. intros. unfold write_unit. case_bool; [done|]. apply Forall_app. split; [done|]. by constructor. Qed.
Lemma write_unit_nil v text unit : write_unit v text unit = [] → v = 0.
Proof. unfold write_unit. case_bool; [done|]. by intros [_ ?]%app_nil. Qed.
Lemma numeric_part s : Forall (λ b, numeric b = true) s → Forall (λ b, part_char b = true) s.
Proof. intros HF. eapply Forall_impl; [exact HF|]. intros b. cbn. unfold part_char, iso_char, numeric, is_digit, one_of. cbn. lia. Qed.
Lemma digits_part s : Forall (λ b, is_digit b = true) s → Forall (λ b, part_char b = true) s.
Proof. intros HF. apply numeric_part. eapply Forall_impl; [exact HF|]. intros b Hb. unfold numeric. cbn in *. by rewrite Hb. Qed.

Lemma date_text_chars y m d : Forall (λ b, part_char b = true) (date_text y m d).
Proof.
  unfold date_text. repeat (apply Forall_app; split); apply write_unit_chars; try done; apply numeric_part, print_signed_numeric.
Qed.
Lemma time_text_chars (neg : bool) h m s f :
  0 ≤ h → 0 ≤ m → 0 ≤ s → 0 ≤ f < 1000000000 → Forall (λ b, part_char b = true) (time_text neg h m s f).
Proof.
  intros Hh Hm Hs Hf.
  assert (∀ n, 0 ≤ n → Forall (λ b, part_char b = true) ((if neg then [45] else []) ++ print_u128 n)) as Hn.
  { intros n Hn. apply Forall_app. split; [destruct neg; by repeat constructor|]. by apply digits_part, print_u128_digits. }
  unfold time_text. apply Forall_app; split; [by apply write_unit_chars; [apply Hn|]|].
  apply Forall_app; split; [by apply write_unit_chars; [apply Hn|]|]. destruct (_ && _); [done|].
  rewrite app_assoc. apply Forall_app; split; [by apply Hn|]. apply Forall_app; split; [|by repeat constructor].
  destruct (Z.eqb_spec f 0); [done|]. constructor; [done|]. apply digits_part, fraction_text. lia.
Qed.

Lemma parse_rendered mo da body date (time : option bytes) b nanos :
  body = date ++ (match time with Some t => 84 :: t | None => [] end) → body ≠ [] → time ≠ Some [] →
  Forall (λ b, part_char b = true) date → Forall (λ b, part_char b = true) (default [] time) →
  is_i64 mo → is_i64 da → - 2 ^ 127 ≤ nanos < 2 ^ 127 →
  (∀ input, parse_duration_section date false DurationBuilder_default input = Ok b) →
  (∀ input, (match time with Some t => parse_duration_section t true b input | None => Ok b end) = Ok (exact_builder mo da nanos)) →
  parse_duration (80 :: body) = ok_or (from_parts mo da nanos) out_of_range.
Proof.
  intros Hb Hne Ht Hdc Htc Hmo Hda Hna Hds Hts. unfold parse_duration.
  assert (Forall (λ b, graphic b = true) (80 :: body)) as Hg.
  { apply iso_graphic. constructor; [done|]. subst body. apply Forall_app; split.
    - eapply Forall_impl; [exact Hdc|]. intros x [? _]%andb_prop. done.
    - destruct time as [t|]; [|done]. constructor; [done|]. eapply Forall_impl; [exact Htc|]. intros x [? _]%andb_prop. done. }
  rewrite trim_graphic by done.
  cbn [Z.eqb Pos.eqb strip_char one_of existsb orb].
  assert (no (one_of [84; 116]) date) as Hno.
  { eapply Forall_impl; [exact Hdc|]. intros x [_ ?]%andb_prop. by apply negb_true_iff. }
  assert (match split_at_first (one_of [84; 116]) body with Some (date, time) => (date, Some time) | None => (body, None) end
          = (date, time)) as ->.
  { subst body. destruct time as [t|]; [by rewrite split_at_first_hit|]. rewrite app_nil_r. by rewrite split_at_first_none. }
  destruct body as [|c t]; [done|]. assert (match time with Some [] => true | _ => false end = false) as ->.
  { destruct time as [[|]|]; done. }
  cbn [orb]. rewrite Hds. cbn [result_bind]. rewrite Hts. cbn [result_bind].
  unfold exact_builder. rewrite finish_exact by done. by destruct (ok_or _ _).
Qed.

Lemma from_parts_self d : from_parts (d_months d) (d_days d) (delta_nanos (d_time d)) = Some d.
Proof.
  unfold from_parts, delta_from_nanos. rewrite i64_try_from_ok by apply chrono_delta_range.
  rewrite chrono_delta. by destruct d.
Qed.

Lemma parse_write_duration d : is_i64 (d_months d) → is_i64 (d_days d) → parse_duration (write_duration d) = Ok d.
Proof.
  intros Hm Hd. rewrite write_duration_parts. pose proof (from_parts_self d) as Hself.
  pose proof (chrono_delta_range (d_time d)) as Hr. set (n := delta_nanos (d_time d)) in *.
  pose proof (Z.quot_rem (d_months d) 12 ltac:(lia)) as Hq.
  assert (is_i64 (Z.quot (d_months d) 12) ∧ is_i64 (Z.rem (d_months d) 12)) as [Hy Hmo].
  { unfold is_i64 in *. pose proof (Z.rem_bound_abs (d_months d) 12 ltac:(lia)). lia. }
  assert (- 2 ^ 100 ≤ n < 2 ^ 100) as Hn. { unfold is_i64 in Hr. pose proof (Z.div_mod n NANOS_PER_SECOND ltac:(done)) as Hdm. pose proof (Z.mod_pos_bound n NANOS_PER_SECOND eq_refl) as Hmb.
    clearbody n. clear - Hr Hdm Hmb. generalize dependent (n / NANOS_PER_SECOND). generalize dependent (n mod NANOS_PER_SECOND).
    unfold NANOS_PER_SECOND. lia. }
  set (date := date_text _ _ _). pose proof (date_text_chars (Z.quot (d_months d) 12) (Z.rem (d_months d) 12) (d_days d)) as Hdc.
  assert (∀ input, parse_duration_section date false DurationBuilder_default input = Ok (exact_builder (d_months d) (d_days d) 0)) as Hds.
  { intros input. unfold date. rewrite parse_date_section by done. do 2 f_equal. lia. }
  destruct (Z.eqb_spec n 0) as [E|E].
  - destruct ((d_months d =? 0) && (d_days d =? 0)) eqn:Ez.
    + rewrite (parse_rendered (d_months d) (d_days d) _ date (Some [48; 83]) (exact_builder (d_months d) (d_days d) 0) 0);
        try done; [by rewrite <- E, Hself|by destruct date|by repeat constructor].
    + rewrite app_nil_r. rewrite (parse_rendered (d_months d) (d_days d) _ date None (exact_builder (d_months d) (d_days d) 0) 0);
        try done; [by rewrite <- E, Hself|by rewrite app_nil_r|].
      intros [N1%write_unit_nil [N2%write_unit_nil N3%write_unit_nil]%app_nil]%app_nil. lia.
  - set (mag := Z.abs n). assert (mag / 3600000000000 * 3600000000000 + mag / 60000000000 mod 60 * 60000000000
      + mag / 1000000000 mod 60 * 1000000000 + mag mod 1000000000 = mag) as Hsum.
    { pose proof (hms_sum (mag / 1000000000)) as Hs. rewrite !Z.div_div in Hs by lia.
      change (1000000000 * 3600) with 3600000000000 in Hs. change (1000000000 * 60) with 60000000000 in Hs.
      pose proof (Z.div_mod mag 1000000000 ltac:(lia)). lia. }
    assert (0 ≤ mag / 3600000000000 < 2 ^ 62) as Hh by (split; [apply Z.div_pos; lia|apply Z.div_lt_upper_bound; lia]).
    pose proof (Z.mod_pos_bound (mag / 60000000000) 60 ltac:(lia)). pose proof (Z.mod_pos_bound (mag / 1000000000) 60 ltac:(lia)).
    pose proof (Z.mod_pos_bound mag 1000000000 ltac:(lia)).
    rewrite (parse_rendered (d_months d) (d_days d) _ date (Some (time_part d)) (exact_builder (d_months d) (d_days d) 0) n); try done.
    + by rewrite Hself.
    + by destruct date.
    + intros [= [N1%write_unit_nil [N2%write_unit_nil N3]%app_nil]%app_nil]. fold n mag in N1, N2, N3.
      destruct ((mag / 1000000000 mod 60 =? 0) && (mag mod 1000000000 =? 0)) eqn:Es; [lia|].
      by apply app_nil in N3 as [_ [_ [_ ?]%app_nil]%app_nil].
    + cbn [default]. unfold time_part. fold n mag. apply time_text_chars; lia.
    + lia.
    + intros input. unfold time_part. fold n mag. rewrite parse_time_section by lia. rewrite Hsum.
      do 2 f_equal. unfold signed_by. case_bool; lia.
Qed.
End DurationRoundtrip.
