(* ===== verification/ValueOrder.v ===== *)
(** The total order of graph property values ([Ord for Value] of
    crates/core/src/value.rs, with [datetime_cmp] of crates/core/src/temporal.rs)
    and the payload estimates of crates/storage/src/cow.rs. *)
From S2P Require Import Prelude Ordering Decimal DecimalArith DecimalOrder RelationalValue Values.

(** The comparisons of the chrono crate, and what its documentation says of
    them: dates and times compare chronologically, deltas by their length. *)
Class ChronoOrd `{C : Chrono} := {
  naive_date_cmp : NaiveDate → NaiveDate → comparison;
  naive_time_cmp : NaiveTime → NaiveTime → comparison;
  time_delta_cmp : TimeDelta → TimeDelta → comparison;
}.
Class ChronoOrdLaws `{CO : ChronoOrd} : Prop := {
  chrono_date_cmp a b : naive_date_cmp a b = (num_days_from_ce a ?= num_days_from_ce b);
  chrono_time_cmp a b :
    naive_time_cmp a b =
      cmp_then (num_seconds_from_midnight a ?= num_seconds_from_midnight b) (nanosecond a ?= nanosecond b);
  chrono_delta_cmp a b : time_delta_cmp a b = (delta_nanos a ?= delta_nanos b);
}.

Section ValueCmp.
Context `{CO : ChronoOrd}.
Implicit Types a b : Value.

Definition Value_kind_rank (v : Value) : Z :=
  match v with
  | VNull => 0 | VBool _ => 1 | VInt _ => 2 | VDecimal _ => 15 | VFloat _ => 3 | VString _ => 4
  | VBinary _ => 5 | VVector _ => 9 | VUuid _ => 6 | VList _ => 7 | VMap _ => 8 | VDate _ => 10
  | VLocalTime _ => 11 | VLocalDateTime _ _ => 12 | VDateTime _ _ _ => 13 | VDuration _ => 14
  end.

(** [derive(Ord)] of [NaiveDateTime] and [Duration]. *)
Definition naive_datetime_cmp (d : NaiveDate) (t : NaiveTime) (d' : NaiveDate) (t' : NaiveTime) : comparison :=
  cmp_then (naive_date_cmp d d') (naive_time_cmp t t').
Definition duration_cmp (x y : Duration) : comparison :=
  cmp_then (d_months x ?= d_months y) (cmp_then (d_days x ?= d_days y) (time_delta_cmp (d_time x) (d_time y))).
Definition datetime_cmp (d : NaiveDate) (t : NaiveTime) (o : FixedOffset)
    (d' : NaiveDate) (t' : NaiveTime) (o' : FixedOffset) : comparison :=
  cmp_then (naive_datetime_cmp d t d' t') (local_minus_utc o ?= local_minus_utc o').

Fixpoint Value_cmp (a b : Value) {struct a} : comparison :=
  cmp_then (Value_kind_rank a ?= Value_kind_rank b)
    match a, b with
    | VNull, VNull => Eq
    | VBool x, VBool y => Z.b2z x ?= Z.b2z y
    | VInt x, VInt y => x ?= y
    | VDecimal x, VDecimal y => Decimal_cmp x y
    | VFloat x, VFloat y => total_order_key x ?= total_order_key y
    | VString x, VString y | VBinary x, VBinary y | VVector x, VVector y | VUuid x, VUuid y => list_cmp Z.compare x y
    | VList x, VList y =>
        (fix go (x y : list Value) : comparison :=
           match x, y with
           | [], [] => Eq
           | [], _ :: _ => Lt
           | _ :: _, [] => Gt
           | u :: x, w :: y => cmp_then (Value_cmp u w) (go x y)
           end) x y
    | VMap x, VMap y =>
        (fix go (x y : list (bytes * Value)) : comparison :=
           match x, y with
           | [], [] => Eq
           | [], _ :: _ => Lt
           | _ :: _, [] => Gt
           | (k, u) :: x, (j, w) :: y =>
               cmp_then (cmp_then (list_cmp Z.compare k j) (Value_cmp u w)) (go x y)
           end) x y
    | VDate x, VDate y => naive_date_cmp x y
    | VLocalTime x, VLocalTime y => naive_time_cmp x y
    | VLocalDateTime d t, VLocalDateTime d' t' => naive_datetime_cmp d t d' t'
    | VDateTime d t o, VDateTime d' t' o' => datetime_cmp d t o d' t' o'
    | VDuration x, VDuration y => duration_cmp x y
    | _, _ => Eq
    end.
Definition Value_eqb (a b : Value) : bool := match Value_cmp a b with Eq => true | _ => false end.

(** ** Estimates of cow.rs *)

Fixpoint estimated_value_bytes (v : Value) : Z :=
  match v with
  | VNull | VBool _ => 1
  | VInt _ | VFloat _ => 8
  | VDecimal _ => 17
  | VString s | VBinary s | VVector s => zlen s
  | VUuid _ => 16
  | VDate _ | VLocalTime _ | VLocalDateTime _ _ | VDateTime _ _ _ | VDuration _ => 28
  | VList l =>
      (fix go (l : list Value) (bytes : Z) : Z :=
         match l with
         | [] => bytes
         | x :: l => go l (saturating_add u64_max bytes (estimated_value_bytes x))
         end) l 16
  | VMap m =>
      (fix go (m : list (bytes * Value)) (bytes : Z) : Z :=
         match m with
         | [] => bytes
         | (k, x) :: m =>
             go m (saturating_add u64_max
                     (saturating_add u64_max (saturating_add u64_max bytes (zlen k)) (estimated_value_bytes x)) 16)
         end) m 0
  end.
Definition estimated_properties_bytes (m : list (bytes * Value)) : Z := estimated_value_bytes (VMap m).

(** ** The order laws *)

Fixpoint Value_tree (v : Value) : tree :=
  Node [Leaf (Value_kind_rank v);
    match v with
    | VNull => Node []
    | VBool b => Leaf (Z.b2z b)
    | VInt z => Leaf z
    | VDecimal d => bytes_tree (to_ordered_bytes d)
    | VFloat bits => Leaf (total_order_key bits)
    | VString x | VBinary x | VVector x | VUuid x => bytes_tree x
    | VList l => Node ((fix go (l : list Value) := match l with [] => [] | x :: l => Value_tree x :: go l end) l)
    | VMap m =>
        Node ((fix go (m : list (bytes * Value)) :=
                 match m with [] => [] | (k, x) :: m => Node [bytes_tree k; Value_tree x] :: go m end) m)
    | VDate d => Leaf (num_days_from_ce d)
    | VLocalTime t => Node [Leaf (num_seconds_from_midnight t); Leaf (nanosecond t)]
    | VLocalDateTime d t =>
        Node [Leaf (num_days_from_ce d); Leaf (num_seconds_from_midnight t); Leaf (nanosecond t)]
    | VDateTime d t o =>
        Node [Leaf (num_days_from_ce d); Leaf (num_seconds_from_midnight t); Leaf (nanosecond t); Leaf (local_minus_utc o)]
    | VDuration d => Node [Leaf (d_months d); Leaf (d_days d); Leaf (delta_nanos (d_time d))]
    end].

Context `{!ChronoOrdLaws}.

Lemma tree_cmp_leaf x y : tree_cmp (Leaf x) (Leaf y) = (x ?= y).
Proof. done. Qed.
Lemma tree_cmp_cons x y l k : tree_cmp (Node (x :: l)) (Node (y :: k)) = cmp_then (tree_cmp x y) (tree_cmp (Node l) (Node k)).
Proof. done. Qed.

(** A comparison inside the same kind. *)
Lemma same_kind_tree r x y c : c = tree_cmp x y → cmp_then (r ?= r) c = tree_cmp (Node [Leaf r; x]) (Node [Leaf r; y]).
Proof. intros ->. rewrite !tree_cmp_cons, tree_cmp_leaf, Z.compare_refl. cbn. by rewrite cmp_then_eq_r. Qed.

Lemma Value_cmp_tree a b : Value_cmp a b = tree_cmp (Value_tree a) (Value_tree b).
Proof.
  revert b; induction a as [a Hl Hm|l IH|m IH] using Value_ind'; intros b.
  - destruct a; try (by destruct (Hl l)); try (by destruct (Hm m)); clear Hl Hm; destruct b; try reflexivity;
      apply same_kind_tree; rewrite ?tree_cmp_cons, ?tree_cmp_leaf, <- ?bytes_cmp_tree;
      unfold datetime_cmp, naive_datetime_cmp, duration_cmp, Decimal_cmp;
      rewrite ?chrono_date_cmp, ?chrono_time_cmp, ?chrono_delta_cmp, ?cmp_then_assoc, ?bytes_cmp_list;
      rewrite ?cmp_then_eq_r; reflexivity.
  - destruct b; try reflexivity. apply same_kind_tree. revert l0.
    induction IH as [|x l Hx _ IHl]; intros [|y k]; try reflexivity. cbn [tree_cmp]. by rewrite Hx, IHl.
  - destruct b; try reflexivity. apply same_kind_tree. revert m0.
    induction IH as [|[k x] m Hx _ IHm]; intros [|[j y] n]; try reflexivity.
    rewrite tree_cmp_cons, <- IHm. f_equal. rewrite !tree_cmp_cons, <- bytes_cmp_tree, <- Hx. by rewrite cmp_then_eq_r.
Qed.

#[export] Instance Value_ord : OrdLaws Value_cmp.
Proof. apply (ord_pullback tree_cmp Value_tree); [apply _|apply Value_cmp_tree]. Qed.

(** Every estimate fits 64 bits. *)
Lemma saturating_range bytes x : 0 ≤ bytes → 0 ≤ x → 0 ≤ saturating_add u64_max bytes x ≤ u64_max.
Proof. unfold saturating_add. assert (0 ≤ u64_max) by done. lia. Qed.

Lemma estimated_value_nonneg v : 0 ≤ estimated_value_bytes v.
Proof.
  induction v as [w Hl Hm|l IH|m IH] using Value_ind'.
  - destruct w; try (by destruct (Hl l)); try (by destruct (Hm m)); cbn; zlen_lia.
  - cbn [estimated_value_bytes]. assert (0 ≤ 16) as H16 by done. revert H16. generalize 16.
    induction IH as [|x l Hx _ IHl]; intros z Hz; [done|]. apply IHl. by apply saturating_range.
  - cbn [estimated_value_bytes]. assert (0 ≤ 0) as H0 by done. revert H0. generalize 0 at 2 4.
    induction IH as [|[k x] m Hx _ IHm]; intros z Hz; [done|]. apply IHm. cbn in Hx.
    pose proof (zlen_nonneg k). by repeat apply saturating_range.
Qed.

(** Graph values of every mix of kinds are totally ordered: comparison is
    antisymmetric and transitive, equality is comparison equal, decimals compare
    by value whatever their scale, doubles by an injective key of their bits,
    and zoned date-times by instant and then by offset. *)
Theorem graph_value_order :
  (∀ a b, Value_cmp b a = CompOpp (Value_cmp a b)) ∧
  (∀ a b c, Value_cmp a b ≠ Gt → Value_cmp b c ≠ Gt → Value_cmp a c ≠ Gt) ∧
  (∀ a b, Value_eqb a b = true ↔ Value_cmp a b = Eq) ∧
  (∀ x y, wf x → wf y → Value_cmp (VDecimal x) (VDecimal y) = (value x ?= value y)) ∧
  (∀ x y, is_u64 x → is_u64 y → Value_cmp (VFloat x) (VFloat y) = Eq → x = y) ∧
  (∀ d t o d' t' o', Value_cmp (VDateTime d t o) (VDateTime d' t' o') = Eq →
    num_days_from_ce d = num_days_from_ce d' ∧ num_seconds_from_midnight t = num_seconds_from_midnight t' ∧
    nanosecond t = nanosecond t' ∧ local_minus_utc o = local_minus_utc o').
Proof.
  split_and!.
  - apply (ord_opp Value_cmp).
  - apply (ord_trans Value_cmp).
  - intros a b. unfold Value_eqb. by destruct (Value_cmp a b).
  - intros x y Hx Hy. cbn. by rewrite Decimal_cmp_value.
  - intros x y Hx Hy. cbn. rewrite !total_order_key_spec by done.
    intros E%Z.compare_eq. unfold is_u64 in *. repeat case_bool; lia.
  - intros d t o d' t' o' E. rewrite Value_cmp_tree in E. apply tree_cmp_eq in E. cbn in E. by simplify_eq.
Qed.
End ValueCmp.

(** The order of the calendar of [Values]. *)
Module CalendarOrder.
Import Calendar.
#[export] Instance chrono_ord : ChronoOrd := {
  naive_date_cmp a b := num_days_from_ce a ?= num_days_from_ce b;
  naive_time_cmp a b :=
    cmp_then (num_seconds_from_midnight a ?= num_seconds_from_midnight b) (nanosecond a ?= nanosecond b);
  time_delta_cmp a b := delta_nanos a ?= delta_nanos b;
}.
#[export] Instance chrono_ord_laws : ChronoOrdLaws.
Proof. by constructor. Qed.

Lemma graph_value_order_witness : Value_cmp (VInt 3) (VFloat 0) = CompOpp (Value_cmp (VFloat 0) (VInt 3)).
Proof. exact (proj1 graph_value_order (VFloat 0) (VInt 3)). Defined.
End CalendarOrder.
