(* ===== verification/Version.v ===== *)
(** Version stamps for optimistic transaction validation:
    crates/storage/src/version.rs (keys, write sets, the version index and the
    pins of open snapshots), with cow/version_pages.rs, the page-wise pruning of
    its copy-on-write map.

    Every page pays for the history it retains with a lease of a budget
    (version/history_budget.rs, modelled in [HistoryBudget]).  The budget and the
    pages are shared with the other snapshots: an operation that reserves takes,
    as a [history_env], the budget at that moment and which pages are shared, and
    returns the budget it leaves.  The leases of the pages of an index are part of
    its state.  One operation at a time works on an index; other holders of the
    budget act between the operations.  The sizes the compiler gives to types are
    the class [VersionLayout]. *)
From S2P Require Import Prelude Ordering RelationalValue Values ValueOrder BTreeMap CowMap HistoryBudget.

(** [std::mem::size_of] of the types the estimates name. *)
Class VersionLayout := {
  size_of_version_key : Z;
  size_of_value : Z;
  size_of_relational_key : Z;
  size_of_relational_value : Z;
  size_of_overflow_ref : Z;
  size_of_version_stamp : Z;
  size_of_version_write : Z;
}.
(** A key holds a vector of values and two strings; every size is a [usize]. *)
Class VersionLayoutLaws (L : VersionLayout) : Prop := {
  layout_key : 24 ≤ size_of_version_key < 2 ^ 16;
  layout_value : 0 ≤ size_of_value < 2 ^ 16;
  layout_rkey : 0 ≤ size_of_relational_key < 2 ^ 16;
  layout_rvalue : 0 ≤ size_of_relational_value < 2 ^ 16;
  layout_overflow : 0 ≤ size_of_overflow_ref < 2 ^ 16;
  layout_stamp : 1 ≤ size_of_version_stamp < 2 ^ 16;
  layout_write : 1 ≤ size_of_version_write < 2 ^ 16;
}.

Inductive AdjacencyDirection := Outgoing | Incoming.

Inductive VersionKey `{Chrono} :=
  | Database
  | Schema
  | ReadBarrier
  | ReadNodeDomain (label : option bytes)
  | ReadRelationshipDomain (rel_type : option bytes)
  | ReadRelationalTableDomain (table : bytes)
  | ReadNodeProperty (label property : bytes) (value : Value)
  | ReadRelationalIndexPrefix (table index : bytes) (prefix : RelationalKey)
  | GraphNode (id : Z)
  | GraphRelationship (id : Z)
  | GraphAdjacency (node_id : Z) (direction : AdjacencyDirection)
  | RelationalRow (table : bytes) (primary_key : RelationalKey)
  | RelationalIndex (table index : bytes) (key : RelationalKey)
  | ForeignKey (table : bytes) (key : RelationalKey)
  | AppendTable (table : bytes).

Definition MAX_NODE_PROPERTY_READ_KEY_BYTES : Z := 4096.
Definition MAX_RELATIONAL_INDEX_READ_KEY_BYTES : Z := 4096.

Inductive VersionDisposition := Live | Tombstone.
Record VersionStamp := { commit_epoch : Z; stamp_disposition : VersionDisposition }.
Record VersionWrite := { write_disposition : VersionDisposition }.

#[export] Instance disposition_dec : EqDecision VersionDisposition.
Proof. solve_decision. Defined.

(** ** Snapshot pins *)

Abbreviation pins := (list (Z * Z)).
Definition pins_pin (epoch : Z) (p : pins) : pins :=
  map_update Z.compare epoch (λ n, n + 1)
    (if map_contains Z.compare epoch p then p else (map_insert Z.compare epoch 0 p).2).
(** [Drop for VersionSnapshotPin]; [None] is its panic. *)
Definition pins_drop (epoch : Z) (p : pins) : option pins :=
  count ← map_get Z.compare epoch p;
  count ← checked_sub count 1;
  Some (if count =? 0 then (map_remove Z.compare epoch p).2 else map_update Z.compare epoch (λ _, count) p).
Definition oldest_epoch (p : pins) : option Z := fst <$> head p.

Section Version.
Context `{CO : ChronoOrd} `{L : VersionLayout}.
Implicit Types (k : VersionKey) (epoch : Z).

(** ** Keys *)

(** [derive(PartialOrd, Ord)] on [VersionKey]. *)
Definition version_key_rank k : Z :=
  match k with
  | Database => 0 | Schema => 1 | ReadBarrier => 2 | ReadNodeDomain _ => 3 | ReadRelationshipDomain _ => 4
  | ReadRelationalTableDomain _ => 5 | ReadNodeProperty _ _ _ => 6 | ReadRelationalIndexPrefix _ _ _ => 7
  | GraphNode _ => 8 | GraphRelationship _ => 9 | GraphAdjacency _ _ => 10 | RelationalRow _ _ => 11
  | RelationalIndex _ _ _ => 12 | ForeignKey _ _ => 13 | AppendTable _ => 14
  end.
Definition direction_rank (d : AdjacencyDirection) : Z := match d with Outgoing => 0 | Incoming => 1 end.
Abbreviation text_cmp := (list_cmp Z.compare).
Definition version_key_cmp (a b : VersionKey) : comparison :=
  cmp_then (version_key_rank a ?= version_key_rank b)
    match a, b with
    | ReadNodeDomain x, ReadNodeDomain y => option_cmp text_cmp x y
    | ReadRelationshipDomain x, ReadRelationshipDomain y => option_cmp text_cmp x y
    | ReadRelationalTableDomain x, ReadRelationalTableDomain y => text_cmp x y
    | ReadNodeProperty l p v, ReadNodeProperty l' p' v' =>
        cmp_then (text_cmp l l') (cmp_then (text_cmp p p') (Value_cmp v v'))
    | ReadRelationalIndexPrefix t i p, ReadRelationalIndexPrefix t' i' p' =>
        cmp_then (text_cmp t t') (cmp_then (text_cmp i i') (key_cmp p p'))
    | GraphNode x, GraphNode y | GraphRelationship x, GraphRelationship y => x ?= y
    | GraphAdjacency n d, GraphAdjacency n' d' => cmp_then (n ?= n') (direction_rank d ?= direction_rank d')
    | RelationalRow t p, RelationalRow t' p' => cmp_then (text_cmp t t') (key_cmp p p')
    | RelationalIndex t i p, RelationalIndex t' i' p' =>
        cmp_then (text_cmp t t') (cmp_then (text_cmp i i') (key_cmp p p'))
    | ForeignKey t p, ForeignKey t' p' => cmp_then (text_cmp t t') (key_cmp p p')
    | AppendTable x, AppendTable y => text_cmp x y
    | _, _ => Eq
    end.

Abbreviation sat := (saturating_add usize_max).

Definition relational_key_bytes (key : RelationalKey) : Z :=
  sat size_of_relational_key
    (foldl sat 0 ((λ v, sat size_of_relational_value (estimated_payload_bytes size_of_overflow_ref v)) <$> key)).
(** [CowPageWeight for Value]. *)
Definition value_page_bytes (v : Value) : Z := Z.min usize_max (estimated_value_bytes v).

Definition version_key_bytes k : Z :=
  let base := size_of_version_key in
  match k with
  | Database | Schema | ReadBarrier => base
  | ReadNodeDomain label | ReadRelationshipDomain label =>
      sat base (match label with Some l => zlen l | None => 0 end)
  | ReadRelationalTableDomain table => sat base (zlen table)
  | ReadNodeProperty label property value =>
      sat (sat (sat (sat base (zlen label)) (zlen property)) size_of_value) (value_page_bytes value)
  | ReadRelationalIndexPrefix table index prefix =>
      sat (sat (sat base (zlen table)) (zlen index)) (relational_key_bytes prefix)
  | GraphNode _ | GraphRelationship _ => base
  | GraphAdjacency _ _ => base
  | RelationalRow table primary_key => sat (sat base (zlen table)) (relational_key_bytes primary_key)
  | RelationalIndex table index key => sat (sat (sat base (zlen table)) (zlen index)) (relational_key_bytes key)
  | ForeignKey table key => sat (sat base (zlen table)) (relational_key_bytes key)
  | AppendTable table => sat base (zlen table)
  end.

Definition node_property_read_key (label property : bytes) (value : Value) : option VersionKey :=
  match value with
  | VList _ | VMap _ => None
  | _ =>
      let bytes := sat (sat (sat (sat size_of_version_key (zlen label)) (zlen property)) size_of_value)
                     (value_page_bytes value) in
      if bytes <=? MAX_NODE_PROPERTY_READ_KEY_BYTES then Some (ReadNodeProperty label property value) else None
  end.

(** Whether a value may be part of an exact index-prefix key. *)
Definition prefix_value_admitted (v : RelationalValue) : bool :=
  match v with
  | RBoolean _ | RBigInt _ | RDecimal _ | RText _ | RBytea _ | RUuid _ | RTimestamp _ | RTimestampTz _ => true
  | RNull | RDoublePrecision _ | RVector _ | ROverflow _ => false
  end.
Fixpoint prefix_bytes_loop (values : list RelationalValue) (count bytes : Z) : option Z :=
  match values with
  | [] => if 0 <? count then Some bytes else None
  | v :: values =>
      let count := count + 1 in
      if 32 <? count then None
      else if negb (prefix_value_admitted v) then None
      else
        let bytes := sat (sat bytes size_of_relational_value) (estimated_payload_bytes size_of_overflow_ref v) in
        if bytes >? MAX_RELATIONAL_INDEX_READ_KEY_BYTES then None
        else prefix_bytes_loop values count bytes
  end.
Definition relational_index_prefix_read_key_bytes (table index : bytes) (values : list RelationalValue) : option Z :=
  prefix_bytes_loop values 0
    (sat (sat (sat size_of_version_key (zlen table)) (zlen index)) size_of_relational_key).
Definition relational_index_prefix_read_key (table index : bytes) (values : list RelationalValue) : option VersionKey :=
  _ ← relational_index_prefix_read_key_bytes table index values;
  Some (ReadRelationalIndexPrefix table index values).

Definition is_read_summary_key k : bool :=
  match k with
  | ReadNodeDomain _ | ReadRelationshipDomain _ | ReadRelationalTableDomain _
  | ReadNodeProperty _ _ _ | ReadRelationalIndexPrefix _ _ _ => true
  | _ => false
  end.
Definition is_inline k : bool := match k with Database | ReadBarrier => true | _ => false end.

(** ** Write sets *)

Record VersionWriteSet := {
  writes : list (VersionKey * VersionWrite);
  max_entries : Z;
  max_bytes : Z;
  ws_estimated_bytes : Z;
}.
Inductive VersionWriteSetError :=
  | LimitExceeded (max_entries : Z)
  | ByteLimitExceeded (max_bytes : Z).

Definition with_limits (max_entries max_bytes : Z) : VersionWriteSet :=
  {| writes := []; max_entries := max_entries; max_bytes := max_bytes; ws_estimated_bytes := 0 |}.

Definition record_write k (d : VersionDisposition) (s : VersionWriteSet)
    : result VersionWriteSet VersionWriteSetError :=
  if map_contains version_key_cmp k (writes s) then
    Ok {| writes := map_update version_key_cmp k (λ _, {| write_disposition := d |}) (writes s);
          max_entries := max_entries s; max_bytes := max_bytes s; ws_estimated_bytes := ws_estimated_bytes s |}
  else if max_entries s <=? zlen (writes s) then Err (LimitExceeded (max_entries s))
  else
    match (bytes ← checked_add usize_max (version_key_bytes k) size_of_version_write;
           next ← checked_add usize_max (ws_estimated_bytes s) bytes;
           if next <=? max_bytes s then Some next else None) with
    | None => Err (ByteLimitExceeded (max_bytes s))
    | Some next_bytes =>
        Ok {| writes := (map_insert version_key_cmp k {| write_disposition := d |} (writes s)).2;
              max_entries := max_entries s; max_bytes := max_bytes s; ws_estimated_bytes := next_bytes |}
    end.
Definition record_live k := record_write k Live.
Definition record_tombstone k := record_write k Tombstone.
Definition ws_contains_key k (s : VersionWriteSet) : bool := map_contains version_key_cmp k (writes s).
(** [keys_from]: the keys from [start] on. *)
Definition keys_from (start : VersionKey) (s : VersionWriteSet) : list VersionKey :=
  fst <$> map_range version_key_cmp (Included start) Unbounded (writes s).
End Version.

(** ** Weights *)

Section Weights.
Context `{CO : ChronoOrd} `{L : VersionLayout} `{!VersionLayoutLaws L}.

Lemma sat_range a b : 0 ≤ a → 0 ≤ b → 0 ≤ saturating_add usize_max a b ≤ usize_max.
Proof. unfold saturating_add. assert (0 ≤ usize_max) by done. lia. Qed.
Lemma size_range a : 0 ≤ a < 2 ^ 16 → 0 ≤ a ≤ usize_max.
Proof. unfold usize_max, u64_max. lia. Qed.
Lemma value_page_nonneg v : 0 ≤ value_page_bytes v.
Proof. unfold value_page_bytes. pose proof (estimated_value_nonneg v). assert (0 ≤ usize_max) by done. lia. Qed.
Lemma payload_nonneg v : 0 ≤ estimated_payload_bytes size_of_overflow_ref v.
Proof. pose proof layout_overflow. destruct v; cbn; try apply zlen_nonneg; lia || done. Qed.
Lemma foldl_sat_nonneg l : Forall (λ z, 0 ≤ z) l → ∀ a, 0 ≤ a → 0 ≤ foldl (saturating_add usize_max) a l.
Proof. induction 1 as [|z l Hz _ IH]; intros a Ha; [done|]. cbn. apply IH. by apply sat_range. Qed.
Lemma relational_key_nonneg key : 0 ≤ relational_key_bytes key.
Proof.
  unfold relational_key_bytes. pose proof layout_rkey. pose proof layout_rvalue. apply sat_range; [lia|].
  apply foldl_sat_nonneg; [|done]. apply Forall_fmap, Forall_forall. intros v _. apply sat_range; [lia|apply payload_nonneg].
Qed.

Lemma version_key_range k : 24 ≤ version_key_bytes k ≤ usize_max.
Proof.
  pose proof layout_key as Hk. pose proof layout_value as Hv.
  assert (∀ a b, 24 ≤ a → 0 ≤ b → 24 ≤ saturating_add usize_max a b ≤ usize_max) as Hs.
  { unfold saturating_add. assert (24 ≤ usize_max) by done. lia. }
  assert (24 ≤ size_of_version_key ≤ usize_max) as Hb by (unfold usize_max, u64_max; lia).
  destruct k; cbn [version_key_bytes]; try exact Hb;
    repeat first [apply Hs|apply zlen_nonneg|apply relational_key_nonneg|apply value_page_nonneg|lia].
  all: destruct label || destruct rel_type; first [apply zlen_nonneg|done].
Qed.

#[export] Instance version_key_weight : CowPageWeight VersionKey.
Proof.
  refine {| cow_page_bytes := version_key_bytes; delta_pressure_bytes _ := 0 |}.
  - intros k. pose proof (version_key_range k). lia.
  - by intros _.
Defined.
#[export] Instance version_stamp_weight : CowPageWeight VersionStamp.
Proof.
  refine {| cow_page_bytes _ := size_of_version_stamp; delta_pressure_bytes _ := 0 |}.
  - intros _. pose proof layout_stamp. unfold usize_max, u64_max. lia.
  - by intros _.
Defined.
End Weights.

(** ** Pruning pages: cow/version_pages.rs *)

Inductive VersionPageRetention := Keep | Drop | Mixed.
#[export] Instance retention_dec : EqDecision VersionPageRetention.
Proof. solve_decision. Defined.

Section Index.
Context `{CO : ChronoOrd} `{L : VersionLayout} `{!VersionLayoutLaws L}.
Abbreviation version_page := (CowMapPage VersionKey VersionStamp).
Abbreviation version_map := (CowSegmentedMap VersionKey VersionStamp).
Implicit Types (k : VersionKey) (s : VersionStamp) (p : version_page) (m : version_map).

Definition epoch_range (l : list (VersionKey * VersionStamp)) : Z * Z :=
  foldl (λ '(mn, mx) e, (Z.min mn (commit_epoch e.2), Z.max mx (commit_epoch e.2))) (u64_max, 0) l.

(** What is to be done with a page, and the page with its range cached. *)
Definition page_retention (keep : VersionStamp → bool) (floor : option Z) p : VersionPageRetention * version_page :=
  match floor with
  | Some floor =>
      let '(mn, mx) := default (epoch_range (entries p)) (epoch_bounds p) in
      (if floor <=? mn then Keep else if mx <? floor then Drop else Mixed,
       mk_page (entries p) (page_bytes p) (Some (mn, mx)))
  | None =>
      (if forallb (λ e, keep e.2) (entries p) then Keep
       else if forallb (λ e, negb (keep e.2)) (entries p) then Drop
       else Mixed, p)
  end.
Definition version_retention_plan (keep : VersionStamp → bool) (floor : option Z) m
    : list VersionPageRetention * version_map :=
  let planned := page_retention keep floor <$> segments m in
  (planned.*1, mk_map planned.*2 (map_len m) (map_pressure m)).

(** What a page's lease gives back when the page goes. *)
Definition drop_lease (lease : option Z) (b : HistoryBudget) : option HistoryBudget :=
  match lease with Some bytes => lease_drop bytes b | None => Some b end.

(** What is kept of a page, with its lease.  A page that is shared stays with its
    other holders, lease included: it is edited as a clone, which has none.  [None]
    is a panic: of a page heavier than [usize], or of the budget. *)
Definition retain_page (shared : bool) (action : VersionPageRetention) (keep : VersionStamp → bool) p (lease : option Z)
    (b : HistoryBudget) : option (HistoryBudget * list (version_page * option Z)) :=
  match action with
  | Keep => Some (b, [(p, lease)])
  | Drop => b ← (if shared then Some b else drop_lease lease b); Some (b, [])
  | Mixed =>
      '(bytes, p) ← payload_bytes (page_from (List.filter (λ e, keep e.2) (entries p)));
      if bytes <=? usize_max then
        '(b, lease) ← match (if shared then None else lease) with
                      | Some credit => '(b, credit) ← lease_shrink bytes credit b; Some (b, Some credit)
                      | None => Some (b, None)
                      end;
        match entries p with
        | [] => b ← drop_lease lease b; Some (b, [])
        | _ => Some (b, [(p, lease)])
        end
      else None
  end.
Fixpoint retain_pages (shared : nat → bool) (plan : list VersionPageRetention) (keep : VersionStamp → bool) (ps : list version_page)
    (leases : list (option Z)) (i : nat) (b : HistoryBudget) : option (HistoryBudget * list (version_page * option Z)) :=
  match plan, ps, leases with
  | action :: plan, p :: ps, lease :: leases =>
      '(b, kept) ← retain_page (shared i) action keep p lease b;
      '(b, rest) ← retain_pages shared plan keep ps leases (S i) b;
      Some (b, kept ++ rest)
  | _, _, _ => Some (b, [])
  end.
Definition retain_version_pages (shared : nat → bool) (plan : list VersionPageRetention) (keep : VersionStamp → bool) m
    (leases : list (option Z)) (b : HistoryBudget) : option (HistoryBudget * version_map * list (option Z)) :=
  '(b, kept) ← retain_pages shared plan keep (segments m) leases 0 b;
  Some (b, mk_map kept.*1 (foldr (λ p n, zlen (entries p) + n) 0 kept.*1) (map_pressure m), kept.*2).

(** ** The index *)

Record VersionIndex := {
  history_floor : Z;
  database_barrier : option VersionStamp;
  read_barrier : option VersionStamp;
  stamps : version_map;
  (* the [history_lease] of each page of the map, in the order of the directory *)
  page_leases : list (option Z);
  vi_estimated_bytes : Z;
  max_estimated_bytes : Z;
}.
Record VersionConflict := { conflict_key : VersionKey; committed_epoch : Z }.

Definition DEFAULT_MAX_VERSION_INDEX_BYTES : Z := 64 * 1024 * 1024.

Definition version_stamp_bytes k : Z := saturating_add usize_max (version_key_bytes k) size_of_version_stamp.
Definition inline_barrier_bytes : Z := version_stamp_bytes Database + version_stamp_bytes ReadBarrier.

(** [with_history_limit], with its budget; [None] is its failed assertion. *)
Definition with_history_limit (max_estimated max_history : Z) : option (HistoryBudget * VersionIndex) :=
  if inline_barrier_bytes <=? max_estimated then
    Some (budget_new max_history,
          {| history_floor := 0; database_barrier := None; read_barrier := None; stamps := cow_default; page_leases := [];
             vi_estimated_bytes := inline_barrier_bytes; max_estimated_bytes := max_estimated |})
  else None.

Definition vi_stamp (idx : VersionIndex) k : option VersionStamp :=
  match k with
  | Database => database_barrier idx
  | ReadBarrier => read_barrier idx
  | _ => cow_get version_key_cmp k (stamps idx)
  end.

(** The leases after an insertion: the edited page is a clone, or one that was
    cloned before, and holds no lease; nor does the page split off from it. *)
Definition edited_leases k (before after : version_map) (leases : list (option Z)) : list (option Z) :=
  match segment_index version_key_cmp k before with
  | None => [None]
  | Some index =>
      take index leases ++ replicate (S (length (segments after)) - length (segments before)) None ++ drop (S index) leases
  end.
Definition insert_stamp k s (idx : VersionIndex) : option VersionIndex :=
  match k with
  | Database =>
      Some {| history_floor := history_floor idx; database_barrier := Some s; read_barrier := read_barrier idx;
              stamps := stamps idx; page_leases := page_leases idx; vi_estimated_bytes := vi_estimated_bytes idx;
              max_estimated_bytes := max_estimated_bytes idx |}
  | ReadBarrier =>
      Some {| history_floor := history_floor idx; database_barrier := database_barrier idx; read_barrier := Some s;
              stamps := stamps idx; page_leases := page_leases idx; vi_estimated_bytes := vi_estimated_bytes idx;
              max_estimated_bytes := max_estimated_bytes idx |}
  | _ =>
      let bytes := if cow_contains_key version_key_cmp k (stamps idx) then vi_estimated_bytes idx
                   else saturating_add usize_max (vi_estimated_bytes idx) (version_stamp_bytes k) in
      '(_, m) ← cow_insert version_key_cmp k s (stamps idx);
      Some {| history_floor := history_floor idx; database_barrier := database_barrier idx;
              read_barrier := read_barrier idx; stamps := m;
              page_leases := edited_leases k (stamps idx) m (page_leases idx); vi_estimated_bytes := bytes;
              max_estimated_bytes := max_estimated_bytes idx |}
  end.

Fixpoint apply_prepared (ws : list (VersionKey * VersionWrite)) (epoch : Z) (idx : VersionIndex)
    : option VersionIndex :=
  match ws with
  | [] => Some idx
  | (k, w) :: ws =>
      idx ← insert_stamp k {| commit_epoch := epoch; stamp_disposition := write_disposition w |} idx;
      apply_prepared ws epoch idx
  end.
Definition apply_database_barrier (epoch : Z) (idx : VersionIndex) : option VersionIndex :=
  insert_stamp Database {| commit_epoch := epoch; stamp_disposition := Live |} idx.

Definition read_baseline (epoch : Z) (idx : VersionIndex) : option VersionIndex :=
  let baseline := {| history_floor := epoch; database_barrier := None; read_barrier := None; stamps := cow_default;
                     page_leases := []; vi_estimated_bytes := inline_barrier_bytes; max_estimated_bytes := max_estimated_bytes idx |} in
  if 0 <? epoch then apply_database_barrier epoch baseline else Some baseline.

(** [admits]: the loop over the writes, and the final test. *)
Fixpoint admits_loop (ws : list (VersionKey * VersionWrite)) (bytes : Z) (idx : VersionIndex) : bool :=
  match ws with
  | [] => bytes <=? max_estimated_bytes idx
  | (k, _) :: ws =>
      let next := if negb (is_inline k) && negb (cow_contains_key version_key_cmp k (stamps idx))
                  then checked_add usize_max bytes (version_stamp_bytes k) else Some bytes in
      match next with
      | None => false
      | Some bytes => if bytes >? max_estimated_bytes idx then false else admits_loop ws bytes idx
      end
  end.
Definition admits (idx : VersionIndex) (ws : VersionWriteSet) : bool := admits_loop (writes ws) (vi_estimated_bytes idx) idx.

(** ** Reserving history *)

(** The budget, and which pages of the index are shared with other holders.  Pages
    are told apart by their place in the directory. *)
Record history_env := {
  shared : nat → bool;
  history_budget : HistoryBudget;
}.
Definition is_charged (lease : option Z) : bool := match lease with Some _ => true | None => false end.

(** The weight of a page in [version_page_layout]; [None] is its panic. *)
Definition page_weight p : option Z :=
  '(bytes, _) ← payload_bytes p; if bytes <=? usize_max then Some bytes else None.

(** The loop over the layout in [stage]: [Some None] is the refusal of an overflow. *)
Fixpoint charge_loop (touched : nat → bool) (ps : list version_page) (leases : list (option Z)) (i : nat) (bytes : Z)
    : option (option Z) :=
  match ps, leases with
  | p :: ps, lease :: leases =>
      payload ← page_weight p;
      match (bytes ← (if negb (is_charged lease) then checked_add usize_max bytes payload else Some bytes);
             if touched i then checked_add usize_max bytes payload else Some bytes) with
      | None => Some None
      | Some bytes => charge_loop touched ps leases (S i) bytes
      end
  | _, _ => Some (Some bytes)
  end.
Fixpoint new_bytes_loop (ws : list (VersionKey * VersionWrite)) (idx : VersionIndex) (bytes : Z) : option Z :=
  match ws with
  | [] => Some bytes
  | (k, _) :: ws =>
      bytes ← (if negb (is_inline k) && negb (cow_contains_key version_key_cmp k (stamps idx))
               then checked_add usize_max bytes (version_stamp_bytes k) else Some bytes);
      new_bytes_loop ws idx bytes
  end.
Definition touched_pages (ws : list (VersionKey * VersionWrite)) (idx : VersionIndex) (i : nat) : bool :=
  existsb (λ e, negb (is_inline e.1) && bool_decide (segment_index version_key_cmp e.1 (stamps idx) = Some i)) ws.
Definition stage_need (idx : VersionIndex) (ws : VersionWriteSet) : option (option Z) :=
  match new_bytes_loop (writes ws) idx 0 with
  | None => Some None
  | Some bytes => charge_loop (touched_pages (writes ws) idx) (segments (stamps idx)) (page_leases idx) 0 bytes
  end.
(** The reservation of what is needed, if anything is; [None] is a refusal. *)
Definition reserve_need (bytes : Z) (b : HistoryBudget) : option (HistoryBudget * option Z) :=
  if 0 <? bytes then '(b, lease) ← reserve bytes b; Some (b, Some lease) else Some (b, None).

(** [charge_version_pages]: each page without a lease is given its part of the
    reservation, a local of the caller.  [None] is a panic: a page heavier than
    [usize], no reservation, or one too small. *)
Fixpoint charge_version_pages (ps : list version_page) (leases : list (option Z)) (reservation : option Z)
    : option (list (option Z) * option Z) :=
  match ps, leases with
  | p :: ps, lease :: leases =>
      '(lease, reservation) ←
        match lease with
        | Some _ => Some (lease, reservation)
        | None =>
            bytes ← page_weight p;
            credit ← reservation;
            '(rest, lease) ← lease_split bytes credit;
            Some (Some lease, Some rest)
        end;
      '(leases, reservation) ← charge_version_pages ps leases reservation;
      Some (lease :: leases, reservation)
  | _, _ => Some ([], reservation)
  end.
Definition with_leases (leases : list (option Z)) (idx : VersionIndex) : VersionIndex :=
  {| history_floor := history_floor idx; database_barrier := database_barrier idx; read_barrier := read_barrier idx;
     stamps := stamps idx; page_leases := leases; vi_estimated_bytes := vi_estimated_bytes idx;
     max_estimated_bytes := max_estimated_bytes idx |}.

(** What a staging leaves: the budget, the index itself, whose pages may have been
    given leases, and the staged index, if it is not refused. *)
Abbreviation staging := (HistoryBudget * VersionIndex * option VersionIndex)%type.

(** [stage]; [None] is a panic.  What is left of the reservation is dropped at the
    end. *)
Definition stage (env : history_env) (idx : VersionIndex) (ws : VersionWriteSet) (epoch : Z) : option staging :=
  let refused := Some (history_budget env, idx, None) in
  if negb (admits idx ws) then refused
  else
    need ← stage_need idx ws;
    match need ≫= λ bytes, reserve_need bytes (history_budget env) with
    | None => refused
    | Some (b, reservation) =>
        '(leases, reservation) ← charge_version_pages (segments (stamps idx)) (page_leases idx) reservation;
        let idx := with_leases leases idx in
        staged ← apply_prepared (writes ws) epoch idx;
        '(leases, reservation) ← charge_version_pages (segments (stamps staged)) (page_leases staged) reservation;
        b ← drop_lease reservation b;
        Some (b, idx, Some (with_leases leases staged))
    end.

Fixpoint collapse_loop (keys : list VersionKey) (bytes : Z) : option Z :=
  match keys with
  | [] => Some bytes
  | k :: keys => bytes ← checked_add usize_max bytes (version_stamp_bytes k); collapse_loop keys bytes
  end.
Definition collapsed_write_bytes (idx : VersionIndex) (ws : VersionWriteSet) : option (Z * Z) :=
  retained_bytes ← collapse_loop
    (fst <$> List.filter (λ e, negb (is_read_summary_key e.1)) (cow_iter (stamps idx))) inline_barrier_bytes;
  bytes ← collapse_loop
    (fst <$> List.filter (λ e, negb (is_inline e.1) && negb (cow_contains_key version_key_cmp e.1 (stamps idx)))
               (writes ws)) retained_bytes;
  if bytes <=? max_estimated_bytes idx then Some (retained_bytes, bytes) else None.
Definition admits_after_read_summary_collapse (idx : VersionIndex) (ws : VersionWriteSet) : bool :=
  match collapsed_write_bytes idx ws with Some _ => true | None => false end.

Definition stage_with_read_barrier (env : history_env) (idx : VersionIndex) (ws : VersionWriteSet) (epoch : Z)
    : option staging :=
  let refused := Some (history_budget env, idx, None) in
  match collapsed_write_bytes idx ws with
  | None => refused
  | Some (retained_bytes, bytes) =>
      need ← charge_loop (λ _, false) (segments (stamps idx)) (page_leases idx) 0 (bytes - inline_barrier_bytes);
      match need ≫= λ bytes, reserve_need bytes (history_budget env) with
      | None => refused
      | Some (b, reservation) =>
          '(leases, reservation) ← charge_version_pages (segments (stamps idx)) (page_leases idx) reservation;
          let idx := with_leases leases idx in
          let retained := map_collect version_key_cmp
            (List.filter (λ e, negb (is_read_summary_key e.1)) (cow_iter (stamps idx))) in
          m ← from_ordered_entries version_key_cmp retained;
          let staged := {| history_floor := history_floor idx; database_barrier := database_barrier idx;
                           read_barrier := read_barrier idx; stamps := m;
                           page_leases := replicate (length (segments m)) None; vi_estimated_bytes := retained_bytes;
                           max_estimated_bytes := max_estimated_bytes idx |} in
          staged ← apply_prepared (writes ws) epoch staged;
          '(leases, reservation) ← charge_version_pages (segments (stamps staged)) (page_leases staged) reservation;
          staged ← insert_stamp ReadBarrier {| commit_epoch := epoch; stamp_disposition := Live |} (with_leases leases staged);
          b ← drop_lease reservation b;
          Some (b, idx, Some staged)
      end
  end.

(** [recount_bytes]; a page heavier than [usize] panics. *)
Fixpoint recount_loop (ps : list version_page) (bytes : Z) : option Z :=
  match ps with
  | [] => Some bytes
  | p :: ps =>
      '(payload, _) ← payload_bytes p;
      if payload <=? usize_max then recount_loop ps (saturating_add usize_max bytes payload) else None
  end.
Definition recount_bytes (idx : VersionIndex) : option VersionIndex :=
  bytes ← recount_loop (segments (stamps idx)) inline_barrier_bytes;
  Some {| history_floor := history_floor idx; database_barrier := database_barrier idx;
          read_barrier := read_barrier idx; stamps := stamps idx; page_leases := page_leases idx; vi_estimated_bytes := bytes;
          max_estimated_bytes := max_estimated_bytes idx |}.

Definition from_live_keys_at_epoch (keys : list VersionKey) (epoch : Z) : option VersionIndex :=
  let all := map_collect version_key_cmp
               ((λ k, (k, {| commit_epoch := epoch; stamp_disposition := Live |})) <$> keys) in
  let '(database, all) := map_remove version_key_cmp Database all in
  let '(read, all) := map_remove version_key_cmp ReadBarrier all in
  m ← from_ordered_entries version_key_cmp all;
  recount_bytes {| history_floor := 0; database_barrier := database; read_barrier := read; stamps := m;
                   page_leases := replicate (length (segments m)) None; vi_estimated_bytes := inline_barrier_bytes;
                   max_estimated_bytes := DEFAULT_MAX_VERSION_INDEX_BYTES |}.

Definition vi_len (idx : VersionIndex) : Z :=
  map_len (stamps idx) + (if database_barrier idx then 1 else 0) + (if read_barrier idx then 1 else 0).

(** [first_conflict]: the first key of the write set committed after the read. *)
Definition first_conflict (idx : VersionIndex) (ws : VersionWriteSet) (read_epoch : Z) : option VersionConflict :=
  if match writes ws with [] => false | _ => true end && (read_epoch <? history_floor idx) then
    Some {| conflict_key := Database; committed_epoch := history_floor idx |}
  else
    find_map (λ '(k, _),
      s ← vi_stamp idx k;
      if commit_epoch s >? read_epoch then Some {| conflict_key := k; committed_epoch := commit_epoch s |} else None)
      (writes ws).
Definition history_reclaimed_after (idx : VersionIndex) (read_epoch : Z) : bool := read_epoch <? history_floor idx.

(** The copy credit [prune_map] needs: the mixed pages that are shared. *)
Fixpoint mixed_bytes (env : history_env) (plan : list VersionPageRetention) (ps : list version_page) (i : nat) : option Z :=
  match plan, ps with
  | a :: plan, p :: ps =>
      payload ← page_weight p;
      rest ← mixed_bytes env plan ps (S i);
      if shared env i && bool_decide (a = Mixed) then checked_add usize_max payload rest else Some rest
  | _, _ => Some 0
  end.
Definition managed (leases : list (option Z)) : bool := existsb is_charged leases.

(** [prune_map]: without the credit, mixed pages stay. *)
Definition prune_map (keep : VersionStamp → bool) (floor : option Z) (env : history_env) (idx : VersionIndex)
    : option (HistoryBudget * VersionIndex) :=
  let '(plan, m) := version_retention_plan keep floor (stamps idx) in
  let with_map m leases := {| history_floor := history_floor idx; database_barrier := database_barrier idx;
                              read_barrier := read_barrier idx; stamps := m; page_leases := leases;
                              vi_estimated_bytes := vi_estimated_bytes idx;
                              max_estimated_bytes := max_estimated_bytes idx |} in
  if forallb (λ a, bool_decide (a = Keep)) plan then Some (history_budget env, with_map m (page_leases idx))
  else
    let managed := managed (page_leases idx) in
    bytes ← (if managed then mixed_bytes env plan (segments m) 0 else Some 0);
    let reserved := reserve_need bytes (history_budget env) in
    let refused := match reserved with None => true | Some _ => false end in
    let '(b, reservation) := default (history_budget env, None) reserved in
    let plan := if refused then (λ a, if bool_decide (a = Mixed) then Keep else a) <$> plan else plan in
    if refused && negb (existsb (λ a, bool_decide (a = Drop)) plan) then Some (b, with_map m (page_leases idx))
    else
      '(b, m, leases) ← retain_version_pages (shared env) plan keep m (page_leases idx) b;
      '(leases, reservation) ← (if managed then charge_version_pages (segments m) leases reservation else Some (leases, reservation));
      idx ← recount_bytes (with_map m leases);
      b ← drop_lease reservation b;
      Some (b, idx).

Definition prune_barrier (drop_it : VersionStamp → bool) (b : option VersionStamp) : option VersionStamp :=
  match b with Some s => if drop_it s then None else Some s | None => None end.

Definition prune_with (drop_it : VersionStamp → bool) (keep : VersionStamp → bool) (floor : option Z)
    (oldest_reader_epoch : Z) (env : history_env) (idx : VersionIndex) : option (HistoryBudget * VersionIndex) :=
  prune_map keep floor env
    {| history_floor := Z.max (history_floor idx) (saturating_sub oldest_reader_epoch 1);
       database_barrier := prune_barrier drop_it (database_barrier idx);
       read_barrier := prune_barrier drop_it (read_barrier idx);
       stamps := stamps idx; page_leases := page_leases idx; vi_estimated_bytes := vi_estimated_bytes idx;
       max_estimated_bytes := max_estimated_bytes idx |}.
Definition prune_tombstones_before (oldest_reader_epoch : Z) : history_env → VersionIndex → option (HistoryBudget * VersionIndex) :=
  prune_with (λ s, bool_decide (stamp_disposition s = Tombstone) && (commit_epoch s <? oldest_reader_epoch))
    (λ s, negb (bool_decide (stamp_disposition s = Tombstone)) || (oldest_reader_epoch <=? commit_epoch s))
    None oldest_reader_epoch.
Definition prune_before (oldest_reader_epoch : Z) : history_env → VersionIndex → option (HistoryBudget * VersionIndex) :=
  prune_with (λ s, commit_epoch s <? oldest_reader_epoch) (λ s, oldest_reader_epoch <=? commit_epoch s)
    (Some oldest_reader_epoch) oldest_reader_epoch.
End Index.
