(* ===== verification/VersionCredit.v ===== *)
(** The credit of history pages: what the version index of [Version] reserves
    before it edits pages is enough for the leases of the pages it leaves.

    A page without a lease is charged its weight.  [exposed] is what the pages
    may have to be charged: those without a lease, and those a write set is going
    to edit, each of which is cloned without its lease.  An insertion moves no
    key of the rest of the write set to another page ([route_replaced]), so the
    exposed weight grows by the new entry only ([insert_exposed]). *)
From S2P Require Import Prelude Ordering RelationalValue Values ValueOrder BTreeMap Pages CowMap CowMapSpec HistoryBudget Version.

(** ** The page of a key after an insertion *)

Lemma partition_point_app {A} (f : A → bool) l1 l2 :
  partition_point f (l1 ++ l2) = if forallb f l1 then (length l1 + partition_point f l2)%nat else partition_point f l1.
Proof. induction l1 as [|x l1 IH]; [done|]. cbn. destruct (f x); [|done]. cbn. rewrite IH. by destruct (forallb f l1). Qed.
Lemma partition_point_all {A} (f : A → bool) l : (partition_point f l ≤ length l)%nat ∧ (partition_point f l = length l ↔ forallb f l = true).
Proof. induction l as [|x l [IH1 IH2]]; [done|]. cbn. destruct (f x); cbn; [|lia]. split; [lia|]. rewrite <- IH2. lia. Qed.

Section Route.
Context {K V : Type} (cmp : K → K → comparison) `{!OrdLaws cmp} `{WK : CowPageWeight K, WV : CowPageWeight V}.
Context (bounds_of : list (K * V) → Z * Z).
Implicit Types (k : K) (v : V) (p : CowMapPage K V).

Definition ends_before k p : bool := last_key_is (λ last, key_ltb cmp last k) p.
Definition route k (ps : list (CowMapPage K V)) : nat := Nat.min (partition_point (ends_before k) ps) (length ps - 1).

Lemma segment_index_route k m : segments m ≠ [] → segment_index cmp k m = Some (route k (segments m)).
Proof. unfold segment_index. by destruct (segments m). Qed.

Lemma route_split k qs p rs ps : ps ≠ [] →
  (rs ≠ [] → forallb (ends_before k) ps = true → ends_before k p = true) →
  let j := route k (qs ++ ps ++ rs) in
  ((j < length qs)%nat → route k (qs ++ p :: rs) = j) ∧
  ((length qs + length ps ≤ j)%nat → (route k (qs ++ p :: rs) + length ps = S j)%nat).
Proof.
  intros Hne Hlast. cbv zeta. unfold route. rewrite !length_app. cbn [length]. rewrite !partition_point_app.
  destruct (partition_point_all (ends_before k) qs) as [Hq1 Hq2]. destruct (partition_point_all (ends_before k) ps) as [Hp1 Hp2].
  destruct (partition_point_all (ends_before k) rs) as [Hr1 _]. assert (length ps ≠ 0%nat) by (by destruct ps).
  destruct (forallb (ends_before k) qs); [|split; lia]. destruct (forallb (ends_before k) ps); [|split; [lia|]].
  - split; [lia|]. intros Hj. cbn [partition_point]. rewrite Hlast; [lia| |done]. intros ->. cbn in *. lia.
  - assert (partition_point (ends_before k) ps ≠ length ps) by (intros E; by apply Hp2 in E). lia.
Qed.

(** Keys stay below a bound when all pages end before it. *)
Lemma ends_before_all k ps e : key_sorted cmp (pages_iter ps) → forallb (ends_before k) ps = true → e ∈ pages_iter ps → cmp e.1 k = Lt.
Proof.
  intros Hs Hall (p & Hp & He)%elem_pages_iter. rewrite forallb_forall in Hall. specialize (Hall p ltac:(by apply list_elem_of_In)).
  unfold ends_before, last_key_is in Hall. destruct (last (entries p)) as [[kl vl]|] eqn:El; [|done]. apply (key_ltb_true cmp) in Hall.
  pose proof (sorted_le_last _ _ _ (elem_page_sorted cmp _ _ Hs Hp) El He) as Hle. cbn in Hle. by apply (ord_le_lt_trans cmp _ kl).
Qed.
Lemma inserted_key k v l e : key_sorted cmp l → e ∈ l → ∃ e', e' ∈ (map_insert cmp k v l).2 ∧ cmp e.1 e'.1 = Eq.
Proof.
  intros Hs He. cbn [map_insert snd]. pose proof (alter_sorted cmp _ k l (insert_keeps cmp k v) Hs) as Hs'.
  destruct (cmp k e.1) eqn:E.
  - pose proof (get_alter cmp _ k l (insert_keeps cmp k v) Hs) as Hg. destruct (insert_entry k v (get_key_value cmp k l)) as [e'|] eqn:Ei; [|done].
    apply (get_some cmp) in Hg as [He' Ee]; [|done]. exists e'. split; [done|]. by rewrite <- (ord_eq_l cmp k e.1 e'.1 E).
  - exists e. split; [|apply (ord_refl cmp)]. apply (get_some cmp e.1); [done|]. rewrite (get_alter_ne cmp) by (apply (insert_keeps cmp) || done || by rewrite E).
    apply (get_some cmp); [done|]. split; [done|apply (ord_refl cmp)].
  - exists e. split; [|apply (ord_refl cmp)]. apply (get_some cmp e.1); [done|]. rewrite (get_alter_ne cmp) by (apply (insert_keeps cmp) || done || by rewrite E).
    apply (get_some cmp); [done|]. split; [done|apply (ord_refl cmp)].
Qed.

(** No key moves to another page when a page is replaced by an insertion. *)
Lemma route_replaced k v k' qs p rs ps : key_sorted cmp (entries p) → entries p ≠ [] → ps ≠ [] →
  pages_iter ps = (map_insert cmp k v (entries p)).2 →
  let j := route k' (qs ++ ps ++ rs) in
  ((j < length qs)%nat → route k' (qs ++ p :: rs) = j) ∧
  ((length qs + length ps ≤ j)%nat → (route k' (qs ++ p :: rs) + length ps = S j)%nat).
Proof.
  intros Hs Hne Hps Ei. apply route_split; [done|]. intros _ Hall. unfold ends_before, last_key_is.
  destruct (last (entries p)) as [[kl vl]|] eqn:El; [|by apply last_None in El].
  apply (key_ltb_true cmp). destruct (inserted_key k v (entries p) (kl, vl) Hs) as (e' & He' & Ee).
  { apply last_Some in El as [l ->]. apply elem_of_app. right. apply list_elem_of_here. }
  rewrite (ord_eq_l cmp kl e'.1 k' Ee). apply (ends_before_all k' ps); [|done|by rewrite Ei].
  rewrite Ei. apply (alter_sorted cmp); [apply (insert_keeps cmp)|done].
Qed.
End Route.

(** ** The order of keys *)

Section Keys.
Context `{CO : ChronoOrd} `{!ChronoOrdLaws}.

Definition text_option_tree (o : option bytes) : tree := option_tree bytes_tree o.
Definition version_key_tree (k : VersionKey) : tree :=
  Node (Leaf (version_key_rank k) ::
    match k with
    | Database | Schema | ReadBarrier => []
    | ReadNodeDomain x | ReadRelationshipDomain x => [text_option_tree x]
    | ReadRelationalTableDomain x | AppendTable x => [bytes_tree x]
    | ReadNodeProperty l p v => [bytes_tree l; bytes_tree p; Value_tree v]
    | ReadRelationalIndexPrefix t i p | RelationalIndex t i p => [bytes_tree t; bytes_tree i; key_tree p]
    | GraphNode x | GraphRelationship x => [Leaf x]
    | GraphAdjacency n d => [Leaf n; Leaf (direction_rank d)]
    | RelationalRow t p | ForeignKey t p => [bytes_tree t; key_tree p]
    end).

Lemma version_key_cmp_tree a b : version_key_cmp a b = tree_cmp (version_key_tree a) (version_key_tree b).
Proof.
  assert (∀ x y, option_cmp (list_cmp Z.compare) x y = tree_cmp (text_option_tree x) (text_option_tree y)) as Ho
    by (intros x y; apply option_cmp_tree, bytes_cmp_tree).
  unfold version_key_cmp, version_key_tree. rewrite tree_cmp_cons, tree_cmp_leaf.
  destruct a, b; try reflexivity; f_equal;
    rewrite ?tree_cmp_cons, ?tree_cmp_leaf, <- ?Ho, <- ?bytes_cmp_tree, <- ?key_cmp_tree, <- ?Value_cmp_tree;
    change (tree_cmp (Node []) (Node [])) with Eq; by rewrite ?cmp_then_eq_r.
Qed.

#[export] Instance version_key_ord : OrdLaws version_key_cmp.
Proof. apply (ord_pullback tree_cmp version_key_tree); [apply _|apply version_key_cmp_tree]. Qed.

Lemma version_key_cmp_rank a b : version_key_cmp a b = Eq → version_key_rank a = version_key_rank b.
Proof.
  unfold version_key_cmp. destruct (Z.compare_spec (version_key_rank a) (version_key_rank b)); done.
Qed.
(** Equal keys are of the same family. *)
Lemma same_family a b : version_key_cmp a b = Eq →
  is_inline a = is_inline b ∧ is_read_summary_key a = is_read_summary_key b.
Proof. intros E%version_key_cmp_rank. by destruct a, b. Qed.
Lemma inline_eq a b : version_key_cmp a b = Eq → is_inline a = true → a = b.
Proof. intros E%version_key_cmp_rank. by destruct a, b. Qed.
End Keys.

(** ** Leases and weights *)

Section Credit.
Context `{CO : ChronoOrd} `{!ChronoOrdLaws} `{L : VersionLayout} `{!VersionLayoutLaws L}.
Abbreviation vpage := (CowMapPage VersionKey VersionStamp).
Abbreviation leases_of := (list (option Z)).
Implicit Types (p : vpage) (ps : list vpage) (leases : leases_of) (b : HistoryBudget).

(** The weight of the pages that [f] picks by their place and lease. *)
Fixpoint page_sum (f : nat → option Z → bool) ps leases (i : nat) : Z :=
  match ps, leases with
  | p :: ps, lease :: leases => (if f i lease then payload (entries p) else 0) + page_sum f ps leases (S i)
  | _, _ => 0
  end.
Definition uncharged ps leases : Z := page_sum (λ _ lease, negb (is_charged lease)) ps leases 0.
Definition exposed (touched : nat → bool) ps leases : Z := page_sum (λ i lease, negb (is_charged lease) || touched i) ps leases 0.
(** What the leases hold. *)
Definition held leases : Z := zsum (default 0 <$> leases).

(** A lease is of the weight of its page. *)
Definition lease_fits p (lease : option Z) : Prop := match lease with Some bytes => bytes = payload (entries p) | None => True end.

Lemma page_sum_nonneg f ps : ∀ leases i, 0 ≤ page_sum f ps leases i.
Proof.
  induction ps as [|p ps IH]; intros [|lease leases] i; cbn [page_sum]; [done..|]. specialize (IH leases (S i)).
  pose proof (payload_range (entries p)). destruct (f i lease); lia.
Qed.
Lemma page_sum_app f ps qs : ∀ leases leases' i, length ps = length leases →
  page_sum f (ps ++ qs) (leases ++ leases') i = page_sum f ps leases i + page_sum f qs leases' (i + length ps).
Proof.
  induction ps as [|p ps IH]; intros [|lease leases] leases' i Hl; try done; cbn [page_sum app length].
  - by rewrite Nat.add_0_r.
  - rewrite IH by (cbn in Hl; lia). rewrite Nat.add_succ_r. cbn. lia.
Qed.
Lemma page_sum_mono f g ps : ∀ leases i i', (∀ j lease, (j < length ps)%nat → f (i + j)%nat lease = true → g (i' + j)%nat lease = true) →
  page_sum f ps leases i ≤ page_sum g ps leases i'.
Proof.
  induction ps as [|p ps IH]; intros [|lease leases] i i' Hfg; cbn [page_sum]; [done..|].
  assert (page_sum f ps leases (S i) ≤ page_sum g ps leases (S i')).
  { apply IH. intros j l Hj. specialize (Hfg (S j) l). rewrite !Nat.add_succ_r in Hfg. apply Hfg. cbn. lia. }
  pose proof (payload_range (entries p)). specialize (Hfg O lease ltac:(cbn; lia)). rewrite !Nat.add_0_r in Hfg.
  destruct (f i lease); [rewrite Hfg by done|destruct (g i' lease)]; lia.
Qed.
Lemma page_sum_payload f ps : ∀ leases i, page_sum f ps leases i ≤ payload (pages_iter ps).
Proof.
  induction ps as [|p ps IH]; intros [|lease leases] i; cbn [page_sum]; try (apply payload_range).
  rewrite pages_iter_cons. unfold payload in *. rewrite fmap_app, zsum_app. specialize (IH leases (S i)).
  pose proof (payload_range (entries p)) as Hr. unfold payload in Hr. destruct (f i lease); lia.
Qed.
Lemma page_sum_shift (f : option Z → bool) ps : ∀ leases i j, page_sum (λ _, f) ps leases i = page_sum (λ _, f) ps leases j.
Proof. induction ps as [|p ps IH]; intros [|lease leases] i j; cbn [page_sum]; [done..|]. by rewrite (IH leases (S i) (S j)). Qed.
Lemma uncharged_cons p lease ps leases :
  uncharged (p :: ps) (lease :: leases) = (if is_charged lease then 0 else payload (entries p)) + uncharged ps leases.
Proof. unfold uncharged. cbn [page_sum]. rewrite (page_sum_shift _ ps leases 1 0). by destruct (is_charged lease). Qed.
Lemma uncharged_app ps qs leases leases' : length ps = length leases → uncharged (ps ++ qs) (leases ++ leases') = uncharged ps leases + uncharged qs leases'.
Proof. intros Hl. unfold uncharged. rewrite page_sum_app by done. f_equal. apply page_sum_shift. Qed.
Lemma uncharged_exposed touched ps leases : uncharged ps leases ≤ exposed touched ps leases.
Proof. apply page_sum_mono. by intros j lease _ ->. Qed.
(** With every page charged, only the edited ones are exposed. *)
Lemma exposed_charged touched ps leases leases' : length leases = length leases' → Forall is_Some leases →
  exposed touched ps leases = page_sum (λ i _, touched i) ps leases' 0.
Proof.
  unfold exposed. generalize O. revert leases leases'. induction ps as [|p ps IH]; intros [|lease leases] [|lease' leases'] i Hl HF; try done.
  apply Forall_cons in HF as [[bytes ->] HF]. cbn [page_sum is_charged negb orb]. cbn in Hl. rewrite (IH leases leases') by (done || lia). done.
Qed.
Lemma page_sum_all f ps : ∀ leases i, length ps = length leases → (∀ j lease, f j lease = true) →
  page_sum f ps leases i = payload (pages_iter ps).
Proof.
  induction ps as [|p ps IH]; intros [|lease leases] i Hl Hf; try done; cbn [page_sum].
  rewrite pages_iter_cons, Hf, IH by (cbn in Hl; lia || done). unfold payload. by rewrite fmap_app, zsum_app.
Qed.

(** ** Weights of pages *)

Abbreviation page_ok := (page_ok epoch_range).

Lemma payload_cons e (l : list (VersionKey * VersionStamp)) : payload (e :: l) = version_key_bytes e.1 + size_of_version_stamp + payload l.
Proof. done. Qed.
Lemma payload_length (l : list (VersionKey * VersionStamp)) : 25 * zlen l ≤ payload l.
Proof.
  induction l as [|e l IH]; [done|]. rewrite zlen_cons, payload_cons. pose proof (version_key_range e.1).
  pose proof layout_stamp. lia.
Qed.
(** Estimates that fit in [usize] bound the number of entries. *)
Lemma payload_fits (l : list (VersionKey * VersionStamp)) : payload l ≤ usize_max → zlen l + 1 < 2 ^ 62.
Proof. pose proof (payload_length l). unfold usize_max, u64_max. lia. Qed.
Lemma page_payload p : page_ok p → 0 < payload (entries p).
Proof.
  intros (Hne & _). pose proof (payload_length (entries p)). destruct (entries p) as [|e l]; [done|]. rewrite zlen_cons in *.
  pose proof (zlen_nonneg l). lia.
Qed.
Lemma page_weight_ok p : page_ok p → payload (entries p) ≤ usize_max → page_weight p = Some (payload (entries p)).
Proof.
  intros (_ & _ & Hc) Hle. unfold page_weight. destruct (payload_bytes_ok epoch_range p Hc) as (p' & -> & _ & _).
  - unfold fits. pose proof (payload_fits (entries p) Hle). lia.
  - cbn. by rewrite (proj2 (Z.leb_le _ _)).
Qed.
Lemma payload_pages_cons p ps : payload (pages_iter (p :: ps)) = payload (entries p) + payload (pages_iter ps).
Proof. rewrite pages_iter_cons. unfold payload. by rewrite fmap_app, zsum_app. Qed.
Lemma payload_pages_app ps qs : payload (pages_iter (ps ++ qs)) = payload (pages_iter ps) + payload (pages_iter qs).
Proof. rewrite pages_iter_app. unfold payload. by rewrite fmap_app, zsum_app. Qed.

(** ** Charging *)

(** What a preflight asks for, unless it overflows. *)
Lemma charge_loop_ok touched ps : Forall page_ok ps → payload (pages_iter ps) ≤ usize_max → ∀ leases i bytes,
  ∃ r, charge_loop touched ps leases i bytes = Some r ∧
    ∀ n, r = Some n → n = bytes + page_sum (λ _ lease, negb (is_charged lease)) ps leases i + page_sum (λ i _, touched i) ps leases i.
Proof.
  induction 1 as [|p ps Hp _ IH]; intros Hle leases i bytes; [exists (Some bytes); split; [done|]; intros n [= <-]; cbn; lia|].
  destruct leases as [|lease leases]; [exists (Some bytes); split; [done|]; intros n [= <-]; cbn; lia|].
  rewrite payload_pages_cons in Hle. pose proof (payload_range (entries p)). pose proof (payload_range (pages_iter ps)).
  cbn [charge_loop page_sum]. rewrite page_weight_ok by (done || lia). cbn [mbind option_bind].
  assert (∀ (c : bool) z, (if c then checked_add usize_max z (payload (entries p)) else Some z) =
    let z' := z + (if c then payload (entries p) else 0) in if c && (z' >? usize_max) then None else Some z') as Hadd.
  { intros [] z; cbv zeta; cbn [andb]; [|by rewrite Z.add_0_r]. unfold checked_add.
    destruct (Z.leb_spec (z + payload (entries p)) usize_max), (Z.gtb_spec (z + payload (entries p)) usize_max); done || lia. }
  rewrite Hadd. cbv zeta. destruct (_ && _); cbn [mbind option_bind]; [by exists None|]. rewrite Hadd. cbv zeta.
  destruct (_ && _); cbn [mbind option_bind]; [by exists None|].
  destruct (IH ltac:(lia) leases (S i) (bytes + (if negb (is_charged lease) then payload (entries p) else 0) + (if touched i then payload (entries p) else 0)))
    as (r & E & Hr). exists r. split; [done|]. intros n Hn. rewrite (Hr n Hn). lia.
Qed.

Lemma held_cons lease leases : held (lease :: leases) = default 0 lease + held leases.
Proof. done. Qed.
Lemma held_app leases leases' : held (leases ++ leases') = held leases + held leases'.
Proof. unfold held. by rewrite fmap_app, zsum_app. Qed.
Lemma held_nonneg ps leases : Forall2 lease_fits ps leases → 0 ≤ held leases.
Proof.
  induction 1 as [|p [bytes|] ps leases Hl _ IH]; [done|..]; rewrite held_cons; cbn in *; [|lia]. subst bytes.
  pose proof (payload_range (entries p)). lia.
Qed.

(** A reservation that covers the pages without a lease gives every page one. *)
Lemma charge_pages_ok ps leases reservation : Forall page_ok ps → payload (pages_iter ps) ≤ usize_max → Forall2 lease_fits ps leases →
  uncharged ps leases ≤ default 0 reservation →
  ∃ leases' reservation', charge_version_pages ps leases reservation = Some (leases', reservation') ∧
    Forall2 lease_fits ps leases' ∧ Forall is_Some leases' ∧ default 0 reservation' = default 0 reservation - uncharged ps leases ∧
    held leases' = held leases + uncharged ps leases.
Proof.
  unfold uncharged. generalize O as i. intros i HF Hle HL. revert i reservation Hle HF.
  induction HL as [|p lease ps leases Hl HL IH]; intros i reservation Hle HF Hr; cbn [charge_version_pages page_sum] in *.
  { exists [], reservation. split_and!; try done; cbn; lia. }
  apply Forall_cons in HF as [Hp HF]. rewrite payload_pages_cons in Hle.
  pose proof (page_payload p Hp). pose proof (payload_range (pages_iter ps)).
  pose proof (page_sum_nonneg (λ _ lease, negb (is_charged lease)) ps leases (S i)).
  destruct lease as [bytes|]; cbn [is_charged negb] in *.
  - cbn [mbind option_bind]. destruct (IH (S i) reservation ltac:(lia) HF ltac:(lia)) as (leases' & r' & -> & Hf & Hs & Hd & Hh).
    cbn [mbind option_bind]. exists (Some bytes :: leases'), r'. rewrite !held_cons. split_and!; [done|by constructor|by constructor|lia|lia].
  - rewrite page_weight_ok by (done || lia). cbn [mbind option_bind]. destruct reservation as [credit|]; cbn [default from_option id] in Hr; [|lia].
    cbn [mbind option_bind]. unfold lease_split. rewrite checked_sub_ok by lia. cbn [mbind option_bind].
    destruct (IH (S i) (Some (credit - payload (entries p)))) as (leases' & r' & -> & Hf & Hs & Hd & Hh);
      [lia|done|cbn [default from_option id]; lia|].
    cbn [mbind option_bind]. exists (Some (payload (entries p)) :: leases'), r'. rewrite !held_cons. cbn [default from_option id] in *.
    split_and!; [done|by constructor|constructor; [by eexists|done]|lia|lia].
Qed.

(** ** Insertions *)

Lemma replicate_fits ps : Forall2 lease_fits ps (replicate (length ps) None).
Proof. induction ps; by constructor. Qed.
Lemma held_replicate n : held (replicate n None) = 0.
Proof. induction n as [|n IH]; [done|]. cbn [replicate]. by rewrite held_cons, IH. Qed.

Lemma edited_leases_split k m m' leases qs p rs ps : segments m = qs ++ p :: rs → segment_index version_key_cmp k m = Some (length qs) →
  segments m' = qs ++ ps ++ rs → Forall2 lease_fits (segments m) leases →
  ∃ la lease lb, leases = la ++ lease :: lb ∧ Forall2 lease_fits qs la ∧ Forall2 lease_fits rs lb ∧ lease_fits p lease ∧
    edited_leases k m m' leases = la ++ replicate (length ps) None ++ lb.
Proof.
  intros Es Ei Es' HL. rewrite Es in HL. apply Forall2_app_inv_l in HL as (la & lb' & Ha & Hb & ->).
  apply Forall2_cons_inv_l in Hb as (lease & lb & Hl & Hb & ->). exists la, lease, lb. split_and!; try done.
  pose proof (Forall2_length _ _ _ Ha) as Hlen. unfold edited_leases. rewrite Ei, Es, Es', !length_app. cbn [length]. rewrite Hlen at 1.
  rewrite take_app_length, Hlen, drop_S_mid. do 3 f_equal. lia.
Qed.

(** The edited page was exposed by the key; what is exposed grows by the entry. *)
Lemma insert_exposed k s (w : VersionWrite) ws (idx idx' : VersionIndex) :
  cow_wf version_key_cmp epoch_range (stamps idx) → page_replaced version_key_cmp epoch_range k s (stamps idx) (stamps idx') →
  is_inline k = false → Forall2 lease_fits (segments (stamps idx)) (page_leases idx) →
  page_leases idx' = edited_leases k (stamps idx) (stamps idx') (page_leases idx) →
  Forall2 lease_fits (segments (stamps idx')) (page_leases idx') ∧ held (page_leases idx') ≤ held (page_leases idx) ∧
  exposed (touched_pages ws idx') (segments (stamps idx')) (page_leases idx') + payload (cow_iter (stamps idx)) ≤
  exposed (touched_pages ((k, w) :: ws) idx) (segments (stamps idx)) (page_leases idx) + payload (cow_iter (stamps idx')).
Proof.
  intros Hw [[Es Es']|(qs & p & rs & ps & Es & Ei & Es' & Eps & Hps & Hne & _)] Hk HL ->.
  - unfold edited_leases. rewrite segment_index_nil by done. rewrite Es, Es' in *. apply Forall2_nil_inv_l in HL as ->.
    split_and!; [by repeat constructor|done|]. unfold exposed, cow_iter. rewrite Es, Es'. cbn. lia.
  - destruct (edited_leases_split k _ _ _ qs p rs ps Es Ei Es' HL) as (la & lease & lb & El & Ha & Hb & Hl & ->). rewrite El, Es, Es'.
    rewrite Es in HL. split_and!.
    + apply Forall2_app; [done|]. apply Forall2_app; [apply replicate_fits|done].
    + rewrite !held_app, held_cons, held_replicate. pose proof (payload_range (entries p)). destruct lease; cbn in *; lia.
    + unfold cow_iter. rewrite Es, Es', !payload_pages_app, payload_pages_cons. unfold exposed.
      pose proof (Forall2_length _ _ _ Ha) as La. pose proof (Forall2_length _ _ _ Hb) as Lb.
      rewrite !page_sum_app by (done || by rewrite length_replicate). cbn [page_sum]. cbn [Nat.add].
      assert (touched_pages ((k, w) :: ws) idx (length qs) = true) as Ht.
      { unfold touched_pages. cbn [existsb fst]. rewrite Hk, Ei. by rewrite bool_decide_true. }
      rewrite Ht, orb_true_r. pose proof (page_sum_payload (λ i lease, negb (is_charged lease) || touched_pages ws idx' i) ps (replicate (length ps) None) (length qs)).
      assert (key_sorted version_key_cmp (entries p)) as Hsp.
      { apply (elem_page_sorted version_key_cmp p (segments (stamps idx))); [apply Hw|]. rewrite Es. apply elem_of_app. right. apply list_elem_of_here. }
      assert (entries p ≠ []) as Hpe.
      { pose proof (cw_pages _ _ _ Hw) as HF. rewrite Es in HF. apply Forall_app in HF as [_ [[? _] _]%Forall_cons]. done. }
      assert (∀ j, touched_pages ws idx' j = true → ∃ e, e ∈ ws ∧ is_inline e.1 = false ∧ route version_key_cmp e.1 (qs ++ ps ++ rs) = j) as Htouch.
      { intros j (e & He & [Hi Hj]%andb_true_iff)%existsb_exists. exists e. apply list_elem_of_In in He. apply negb_true_iff in Hi. split_and!; [done|done|].
        apply bool_decide_eq_true in Hj. rewrite segment_index_route, Es' in Hj; [congruence|]. rewrite Es'. by destruct qs, ps. }
      assert (∀ e j, e ∈ ws → is_inline e.1 = false → route version_key_cmp e.1 (qs ++ p :: rs) = j → touched_pages ((k, w) :: ws) idx j = true) as Hback.
      { intros e j He Hi Hj. unfold touched_pages. apply existsb_exists. exists e. split; [apply list_elem_of_In, elem_of_cons; by right|].
        rewrite Hi, segment_index_route, Es, Hj by (rewrite Es; by destruct qs). by rewrite bool_decide_true. }
      assert (page_sum (λ i lease, negb (is_charged lease) || touched_pages ws idx' i) qs la 0 ≤
        page_sum (λ i lease, negb (is_charged lease) || touched_pages ((k, w) :: ws) idx i) qs la 0).
      { apply page_sum_mono. intros j l Hj [->|(e & He & Hi & Hr)%Htouch]%orb_true_iff; [done|]. apply orb_true_iff. right. apply (Hback e); [done|done|].
        destruct (route_replaced version_key_cmp k s e.1 qs p rs ps Hsp Hpe Hne Eps) as [H1 _]. rewrite H1 by (rewrite Hr; cbn; lia). done. }
      assert (page_sum (λ i lease, negb (is_charged lease) || touched_pages ws idx' i) rs lb (length qs + length ps) ≤
        page_sum (λ i lease, negb (is_charged lease) || touched_pages ((k, w) :: ws) idx i) rs lb (S (length qs))).
      { apply page_sum_mono. intros j l Hj [->|(e & He & Hi & Hr)%Htouch]%orb_true_iff; [done|]. apply orb_true_iff. right. apply (Hback e); [done|done|].
        destruct (route_replaced version_key_cmp k s e.1 qs p rs ps Hsp Hpe Hne Eps) as [_ H2]. specialize (H2 ltac:(lia)). lia. }
      lia.
Qed.
End Credit.
