(* ===== verification/VersionSpec.v ===== *)
(** What the version index of [Version] promises.

    A history of commits is a list, newest first; [last_stamp] is the newest
    write of a key in it.  The index, whatever mixture of staged commits, read
    barriers and prunings produced it, finds the conflicts the full history has. *)
From S2P Require Import Prelude Ordering RelationalValue Values ValueOrder BTreeMap Pages CowMap CowMapSpec HistoryBudget Version VersionCredit.

Section Index.
Context `{CO : ChronoOrd} `{!ChronoOrdLaws} `{L : VersionLayout} `{!VersionLayoutLaws L}.
Abbreviation entries_of := (list (VersionKey * VersionStamp)).
Implicit Types (k j : VersionKey) (s : VersionStamp) (idx : VersionIndex) (l : entries_of).

(** ** The invariant *)

Record vi_ok idx : Prop := {
  vo_map : cow_wf version_key_cmp epoch_range (stamps idx);
  vo_keys : Forall (λ e, is_inline e.1 = false) (cow_iter (stamps idx));
  vo_bytes : vi_estimated_bytes idx = inline_barrier_bytes + payload (cow_iter (stamps idx));
  vo_bound : vi_estimated_bytes idx ≤ usize_max;
  vo_leases : Forall2 lease_fits (segments (stamps idx)) (page_leases idx);
}.
(** The pages all hold a lease, or none does. *)
Definition uniform idx : Prop := Forall (λ lease, lease = None) (page_leases idx) ∨ Forall is_Some (page_leases idx).
(** The leases of the pages, and what a write set may have to be charged for them. *)
Definition held_by idx : Z := held (page_leases idx).
Definition uncharged_of idx : Z := uncharged (segments (stamps idx)) (page_leases idx).
Definition exposed_by (ws : list (VersionKey * VersionWrite)) idx : Z :=
  exposed (touched_pages ws idx) (segments (stamps idx)) (page_leases idx).

Lemma inline_nonneg : 0 < inline_barrier_bytes < 2 ^ 20.
Proof.
  unfold inline_barrier_bytes, version_stamp_bytes. cbn [version_key_bytes]. unfold saturating_add, usize_max, u64_max.
  pose proof layout_key. pose proof layout_stamp. lia.
Qed.
Lemma vi_fits idx : vi_ok idx → 1 + zlen (cow_iter (stamps idx)) < 2 ^ 62.
Proof.
  intros Hw. pose proof (vo_bound _ Hw) as Hb. rewrite (vo_bytes _ Hw) in Hb. pose proof inline_nonneg.
  assert (zlen (cow_iter (stamps idx)) + 1 < 2 ^ 62) by (apply payload_fits; lia). lia.
Qed.

Lemma stamp_bytes_exact k : version_stamp_bytes k < usize_max →
  version_stamp_bytes k = version_key_bytes k + size_of_version_stamp.
Proof. unfold version_stamp_bytes, saturating_add. lia. Qed.

(** ** Looking up and inserting stamps *)

Lemma vi_stamp_spec idx k : vi_ok idx →
  vi_stamp idx k =
    match k with
    | Database => database_barrier idx
    | ReadBarrier => read_barrier idx
    | _ => map_get version_key_cmp k (cow_iter (stamps idx))
    end.
Proof. intros Hw. destruct k; cbn; try done; by apply (cow_get_ok _ _ _ _ (vo_map _ Hw)). Qed.

Lemma vi_stamp_map idx k : vi_ok idx → is_inline k = false →
  vi_stamp idx k = map_get version_key_cmp k (cow_iter (stamps idx)).
Proof. intros Hw Hk. rewrite vi_stamp_spec by done. by destruct k. Qed.

Lemma get_insert {V} k (v : V) j (l : list (VersionKey * V)) : key_sorted version_key_cmp l →
  map_get version_key_cmp j (map_insert version_key_cmp k v l).2 =
    if bool_decide (version_key_cmp k j = Eq) then Some v else map_get version_key_cmp j l.
Proof.
  intros Hs. unfold map_get, map_insert; cbn [snd]. case_bool_decide as E.
  - assert (∀ l' : list (VersionKey * V), key_sorted version_key_cmp l' → get_key_value version_key_cmp j l' = get_key_value version_key_cmp k l') as Hj.
    { induction l' as [|[k' v'] l' IH]; intros Hs'; [done|]. cbn. rewrite (ord_eq_l version_key_cmp k j k' E).
      apply key_sorted_cons in Hs' as [Hs' _]. by rewrite IH. }
    rewrite Hj by (apply (alter_sorted version_key_cmp); [apply (insert_keeps version_key_cmp)|done]).
    rewrite (get_alter version_key_cmp) by (apply (insert_keeps version_key_cmp) || done).
    by destruct (get_key_value version_key_cmp k l) as [[? ?]|].
  - by rewrite (get_alter_ne version_key_cmp) by (apply (insert_keeps version_key_cmp) || done).
Qed.

(** Whether a stamp takes new room in the map. *)
Definition takes_room idx k : bool :=
  negb (is_inline k) && negb (map_contains version_key_cmp k (cow_iter (stamps idx))).

Lemma contains_spec idx k : vi_ok idx →
  cow_contains_key version_key_cmp k (stamps idx) = map_contains version_key_cmp k (cow_iter (stamps idx)).
Proof. intros Hw. apply (contains_key_ok version_key_cmp epoch_range), Hw. Qed.

Lemma insert_stamp_ok k s idx : vi_ok idx →
  (takes_room idx k = true → vi_estimated_bytes idx + version_stamp_bytes k ≤ usize_max) →
  ∃ idx', insert_stamp k s idx = Some idx' ∧ vi_ok idx' ∧
    history_floor idx' = history_floor idx ∧ max_estimated_bytes idx' = max_estimated_bytes idx ∧
    vi_estimated_bytes idx' = vi_estimated_bytes idx + (if takes_room idx k then version_stamp_bytes k else 0) ∧
    (∀ j, vi_stamp idx' j = if bool_decide (version_key_cmp k j = Eq) then Some s else vi_stamp idx j) ∧
    (∀ j, takes_room idx' j = takes_room idx j && negb (bool_decide (version_key_cmp k j = Eq))) ∧
    held_by idx' ≤ held_by idx ∧
    (∀ w ws, exposed_by ws idx' ≤ exposed_by ((k, w) :: ws) idx + (if takes_room idx k then version_stamp_bytes k else 0)).
Proof.
  intros Hw Hroom. destruct (is_inline k) eqn:Ek.
  - assert (takes_room idx k = false) as Hno by (unfold takes_room; by rewrite Ek).
    assert (∀ j, version_key_cmp k j = Eq → takes_room idx j = false) as Hinl.
    { intros j E. unfold takes_room. by rewrite <- (proj1 (same_family _ _ E)), Ek. }
    assert (∀ w ws i, stamps i = stamps idx → page_leases i = page_leases idx → exposed_by ws i ≤ exposed_by ((k, w) :: ws) idx + 0) as Hexp.
    { intros w ws i Es El. unfold exposed_by. rewrite Es, El, Z.add_0_r. apply page_sum_mono. intros j lease _ [->|Hj]%orb_true_iff; [done|].
      apply orb_true_iff. right. unfold touched_pages in *. rewrite Es in Hj. cbn [existsb]. by rewrite Hj, orb_true_r. }
    destruct k; try done; (eexists; split_and!; [done|by destruct Hw; constructor|done|done|rewrite Hno; cbn; lia|..|done|intros w ws; rewrite Hno; by apply Hexp]);
      clear Hexp.
    all: intros j; case_bool_decide as E; [|rewrite ?andb_true_r].
    all: try (by rewrite (inline_eq _ _ E eq_refl) || rewrite <- (inline_eq _ _ E eq_refl)).
    all: try (by rewrite (Hinl j E)); try done.
    all: destruct j; try done; by destruct E.
  - assert (insert_stamp k s idx =
      '(_, m) ← cow_insert version_key_cmp k s (stamps idx);
      Some {| history_floor := history_floor idx; database_barrier := database_barrier idx;
              read_barrier := read_barrier idx; stamps := m;
              page_leases := edited_leases k (stamps idx) m (page_leases idx);
              vi_estimated_bytes := if cow_contains_key version_key_cmp k (stamps idx) then vi_estimated_bytes idx
                else saturating_add usize_max (vi_estimated_bytes idx) (version_stamp_bytes k);
              max_estimated_bytes := max_estimated_bytes idx |}) as Eins by (by destruct k).
    assert (fits ((k, s) :: cow_iter (stamps idx))) as Hf by (unfold fits; rewrite zlen_cons; apply vi_fits; done).
    destruct (cow_insert_pages version_key_cmp epoch_range k s (stamps idx) (vo_map _ Hw) Hf) as (m & Em & Hrep & Ei & Hm).
    rewrite Eins, Em, contains_spec by done. cbn [mbind option_bind]. clear Eins.
    assert (takes_room idx k = negb (map_contains version_key_cmp k (cow_iter (stamps idx)))) as Hk
      by (unfold takes_room; by rewrite Ek).
    set (bytes := if map_contains _ _ _ then _ else _).
    assert (bytes = vi_estimated_bytes idx + (if takes_room idx k then version_stamp_bytes k else 0)) as Hbytes.
    { unfold bytes. rewrite Hk in *. destruct (map_contains _ _ _); cbn [negb] in *; [lia|]. specialize (Hroom eq_refl).
      unfold saturating_add. lia. }
    assert (payload (map_insert version_key_cmp k s (cow_iter (stamps idx))).2 =
      payload (cow_iter (stamps idx)) + (if takes_room idx k then version_key_bytes k + size_of_version_stamp else 0)) as Hpay.
    { cbn. unfold payload. rewrite zsum_alter, Hk. unfold map_contains.
      destruct (get_key_value version_key_cmp k (cow_iter (stamps idx))) as [[k' v']|]; cbn; unfold entry_payload; cbn; lia. }
    eexists. split; [done|].
    match goal with |- vi_ok ?i ∧ _ => set (idx' := i) end.
    pose proof (λ w ws, insert_exposed k s w ws idx idx' (vo_map _ Hw) Hrep Ek (vo_leases _ Hw) eq_refl) as Hcredit.
    assert (takes_room idx k = true → version_stamp_bytes k = version_key_bytes k + size_of_version_stamp) as Hexact.
    { intros Et. apply stamp_bytes_exact. specialize (Hroom Et). rewrite (vo_bytes _ Hw) in Hroom.
      pose proof inline_nonneg. pose proof (payload_length (cow_iter (stamps idx))). zlen_lia. }
    assert (vi_ok idx') as Hok'.
    { constructor; cbn [stamps vi_estimated_bytes idx'].
      - done.
      - rewrite Ei. apply Forall_forall. intros e [He|(o & Ho & Ho')]%elem_of_alter.
        + exact (proj1 (Forall_forall _ _) (vo_keys _ Hw) e He).
        + pose proof (insert_keeps version_key_cmp k s o e Ho' Ho) as E. by rewrite <- (proj1 (same_family _ _ E)).
      - rewrite Ei, Hpay, Hbytes, (vo_bytes _ Hw). destruct (takes_room idx k) eqn:Et; [|lia].
        rewrite Hexact by done. lia.
      - rewrite Hbytes. destruct (takes_room idx k); [by apply Hroom|]. pose proof (vo_bound _ Hw). lia.
      - apply (Hcredit {| write_disposition := Live |} []). }
    split_and!; [done|done|done|done| | |apply (Hcredit {| write_disposition := Live |} [])|].
    + intros j. destruct (is_inline j) eqn:Ej.
      * rewrite bool_decide_false; [|intros E; apply same_family in E as [E _]; congruence]. by destruct j.
      * rewrite !vi_stamp_map by done. cbn [stamps idx']. rewrite Ei. apply get_insert, Hw.
    + intros j. unfold takes_room. cbn [stamps idx']. rewrite Ei. destruct (is_inline j); [done|]. cbn [negb andb].
      pose proof (get_insert k s j (cow_iter (stamps idx)) (cw_sorted _ _ _ (vo_map _ Hw))) as Hg.
      unfold map_get in Hg. unfold map_contains. case_bool_decide.
      * destruct (get_key_value version_key_cmp j (map_insert _ _ _ _).2); [by rewrite andb_false_r|done].
      * rewrite andb_true_r. by destruct (get_key_value version_key_cmp j (map_insert _ _ _ _).2),
          (get_key_value version_key_cmp j (cow_iter (stamps idx))).
    + intros w ws. destruct (Hcredit w ws) as (_ & _ & Hc). unfold exposed_by. cbn [stamps idx'] in Hc |- *. rewrite Ei, Hpay in Hc.
      destruct (takes_room idx k) eqn:Et; [rewrite Hexact by done|]; lia.
Qed.

(** ** Applying a write set *)

Abbreviation write_list := (list (VersionKey * VersionWrite)).
Implicit Types ws : write_list.

Definition stamp_of (epoch : Z) (w : VersionWrite) : VersionStamp :=
  {| commit_epoch := epoch; stamp_disposition := write_disposition w |}.
Definition room_bytes idx ws : Z :=
  zsum ((λ e, if takes_room idx e.1 then version_stamp_bytes e.1 else 0) <$> ws).

Lemma stamp_bytes_nonneg k : 0 ≤ version_stamp_bytes k.
Proof. unfold version_stamp_bytes. pose proof (version_key_range k). pose proof layout_stamp. apply sat_range; lia. Qed.
Lemma room_nonneg idx ws : 0 ≤ room_bytes idx ws.
Proof.
  apply zsum_nonneg, Forall_fmap, Forall_forall. intros e _. cbn. pose proof (stamp_bytes_nonneg e.1). by destruct (takes_room idx e.1).
Qed.

Lemma get_cons j k (w : VersionWrite) ws : key_sorted version_key_cmp ((k, w) :: ws) →
  map_get version_key_cmp j ((k, w) :: ws) =
    if bool_decide (version_key_cmp k j = Eq) then Some w else map_get version_key_cmp j ws.
Proof.
  intros [Hs Hlt]%key_sorted_cons. unfold map_get. cbn. rewrite (ord_opp version_key_cmp k j).
  destruct (version_key_cmp k j) eqn:E; cbn; [by rewrite bool_decide_true|by rewrite bool_decide_false|].
  rewrite bool_decide_false by done. rewrite (get_below version_key_cmp); [done|].
  intros b Hb. apply (ord_lt_trans version_key_cmp j k b.1); [by apply (ord_gt_lt version_key_cmp)|exact (Hlt _ Hb)].
Qed.

Lemma apply_prepared_ok epoch ws : ∀ idx, vi_ok idx → key_sorted version_key_cmp ws →
  vi_estimated_bytes idx + room_bytes idx ws ≤ usize_max →
  ∃ idx', apply_prepared ws epoch idx = Some idx' ∧ vi_ok idx' ∧
    history_floor idx' = history_floor idx ∧ max_estimated_bytes idx' = max_estimated_bytes idx ∧
    vi_estimated_bytes idx' = vi_estimated_bytes idx + room_bytes idx ws ∧
    (∀ j, vi_stamp idx' j = match map_get version_key_cmp j ws with
                            | Some w => Some (stamp_of epoch w)
                            | None => vi_stamp idx j
                            end) ∧
    held_by idx' ≤ held_by idx ∧ uncharged_of idx' ≤ exposed_by ws idx + room_bytes idx ws.
Proof.
  induction ws as [|[k w] ws IH]; intros idx Hw Hs Hb.
  { exists idx. pose proof (uncharged_exposed (touched_pages [] idx) (segments (stamps idx)) (page_leases idx)).
    split_and!; try done; cbn; [lia|]. unfold uncharged_of, exposed_by. lia. }
  pose proof Hs as [Hs' Hlt]%key_sorted_cons. cbn [apply_prepared]. unfold room_bytes in Hb; cbn in Hb.
  pose proof (room_nonneg idx ws) as Hnn. unfold room_bytes in Hnn.
  destruct (insert_stamp_ok k (stamp_of epoch w) idx Hw) as (idx1 & E1 & Hw1 & Hfl & Hmx & Hest & Hst & Hroom & Hheld & Hexp).
  { intros Ht. rewrite Ht in Hb. lia. }
  unfold stamp_of in E1 at 1. rewrite E1. cbn [mbind option_bind].
  assert (room_bytes idx1 ws = room_bytes idx ws) as Er.
  { unfold room_bytes. f_equal. apply list_fmap_ext. intros i [j w'] Hi. cbn. rewrite Hroom, bool_decide_false; [by rewrite andb_true_r|].
    intros E. apply list_elem_of_lookup_2 in Hi. specialize (Hlt _ Hi). cbn in Hlt. by rewrite E in Hlt. }
  destruct (IH idx1 Hw1 Hs') as (idx2 & E2 & Hw2 & Hfl2 & Hmx2 & Hest2 & Hst2 & Hheld2 & Hexp2).
  { rewrite Er, Hest. unfold room_bytes. lia. }
  exists idx2. rewrite E2. split_and!; try done; [congruence|congruence| | |lia|].
  - rewrite Hest2, Er, Hest. unfold room_bytes. cbn. lia.
  - intros j. rewrite Hst2, Hst, get_cons by done. case_bool_decide as E; [|done].
    destruct (map_get version_key_cmp j ws) as [w'|] eqn:Ej; [|done]. exfalso.
    unfold map_get in Ej. destruct (get_key_value version_key_cmp j ws) as [e|] eqn:Eg; [|done].
    apply (get_some version_key_cmp) in Eg as [He Ee]; [|done]. specialize (Hlt _ He). cbn in Hlt.
    rewrite (ord_eq_l version_key_cmp k j e.1 E), Ee in Hlt. done.
  - specialize (Hexp w ws). rewrite Er in Hexp2. unfold room_bytes in Hexp2 |- *. cbn. lia.
Qed.

Lemma admits_loop_spec idx ws : vi_ok idx → max_estimated_bytes idx ≤ usize_max → ∀ bytes,
  admits_loop ws bytes idx = (bytes + room_bytes idx ws <=? max_estimated_bytes idx).
Proof.
  intros Hw Hm. induction ws as [|[k w] ws IH]; intros bytes; cbn [admits_loop].
  { unfold room_bytes; cbn. by rewrite Z.add_0_r. }
  rewrite contains_spec by done. fold (takes_room idx k). pose proof (room_nonneg idx ws).
  pose proof (stamp_bytes_nonneg k).
  assert (room_bytes idx ((k, w) :: ws) = (if takes_room idx k then version_stamp_bytes k else 0) + room_bytes idx ws) as ->
    by done.
  destruct (takes_room idx k).
  - unfold checked_add. destruct (Z.leb_spec (bytes + version_stamp_bytes k) usize_max).
    + rewrite IH, Z.add_assoc. destruct (Z.gtb_spec (bytes + version_stamp_bytes k) (max_estimated_bytes idx)); [|done].
      symmetry. apply Z.leb_gt. lia.
    + symmetry. apply Z.leb_gt. lia.
  - rewrite IH, Z.add_0_l. destruct (Z.gtb_spec bytes (max_estimated_bytes idx)); [|done]. symmetry. apply Z.leb_gt. lia.
Qed.

(** ** Histories *)

(** Commits, newest first: the epoch and what was written at it. *)
Abbreviation history := (list (Z * write_list)).
Implicit Types h : history.

Fixpoint last_stamp h k : option VersionStamp :=
  match h with
  | [] => None
  | (epoch, ws) :: h =>
      match map_get version_key_cmp k ws with
      | Some w => Some (stamp_of epoch w)
      | None => last_stamp h k
      end
  end.

(** What the index knows of a history. *)
Record tracks h idx : Prop := {
  tr_ok : vi_ok idx;
  tr_uniform : uniform idx;
  tr_max : max_estimated_bytes idx ≤ usize_max;
  tr_floor : 0 ≤ history_floor idx;
  tr_epochs : Forall (λ c, 0 ≤ c.1) h;
  tr_found k s : vi_stamp idx k = Some s → last_stamp h k = Some s;
  tr_missing k s : vi_stamp idx k = None → last_stamp h k = Some s →
    commit_epoch s ≤ history_floor idx ∨
    (is_read_summary_key k = true ∧ ∃ b, last_stamp h ReadBarrier = Some b ∧ commit_epoch s ≤ commit_epoch b);
}.

(** Every commit of the history is before [epoch]. *)
Definition commits_before epoch h : Prop := 0 ≤ epoch ∧ Forall (λ c, c.1 < epoch) h.

Lemma last_stamp_epoch h k s : last_stamp h k = Some s → ∃ c, c ∈ h ∧ commit_epoch s = c.1.
Proof.
  induction h as [|[epoch ws] h IH]; [done|]. cbn. destruct (map_get version_key_cmp k ws).
  - intros [= <-]. exists (epoch, ws). split; [apply list_elem_of_here|done].
  - intros Hl. destruct (IH Hl) as (c & Hc & E). exists c. split; [by apply elem_of_cons; right|done].
Qed.
Lemma last_stamp_before epoch h k s : commits_before epoch h → last_stamp h k = Some s → commit_epoch s < epoch.
Proof. intros [_ HF] (c & Hc & ->)%last_stamp_epoch. exact (proj1 (Forall_forall _ _) HF c Hc). Qed.

(** One commit applied to a tracked index. *)
Lemma tracks_apply h idx ws epoch idx' :
  tracks h idx → commits_before epoch h → vi_ok idx' → uniform idx' →
  history_floor idx' = history_floor idx → max_estimated_bytes idx' = max_estimated_bytes idx →
  (∀ j, vi_stamp idx' j = match map_get version_key_cmp j ws with
                          | Some w => Some (stamp_of epoch w) | None => vi_stamp idx j end) →
  tracks ((epoch, ws) :: h) idx'.
Proof.
  intros [Hok _ Hm Hf HF Hfound Hmiss] Hep Hok' Hu' Efl Emx Hst. constructor; [done|done|by rewrite Emx|by rewrite Efl|constructor; [apply Hep|done]|..].
  - intros k s. rewrite Hst. cbn. destruct (map_get version_key_cmp k ws); [done|]. apply Hfound.
  - intros k s. rewrite Hst, Efl. cbn. destruct (map_get version_key_cmp k ws); [done|]. intros Hn Hs.
    destruct (Hmiss k s Hn Hs) as [Hle|(Hsum & b & Hb & Hle)]; [by left|]. right. split; [done|].
    destruct (map_get version_key_cmp ReadBarrier ws); [|by eauto]. eexists. split; [done|].
    pose proof (last_stamp_before _ _ _ _ Hep Hs). cbn. lia.
Qed.

(** ** Pruning

    [pruned keep l l']: entries that need not be kept were dropped from [l]. *)
Inductive pruned (keep : VersionStamp → bool) : entries_of → entries_of → Prop :=
  | pruned_nil : pruned keep [] []
  | pruned_stay e l l' : pruned keep l l' → pruned keep (e :: l) (e :: l')
  | pruned_gone e l l' : keep e.2 = false → pruned keep l l' → pruned keep (e :: l) l'.

Lemma pruned_refl keep l : pruned keep l l.
Proof. induction l; by constructor. Qed.
Lemma pruned_app keep l1 l1' l2 l2' : pruned keep l1 l1' → pruned keep l2 l2' → pruned keep (l1 ++ l2) (l1' ++ l2').
Proof. intros H1 H2. induction H1; cbn; [done|by constructor..]. Qed.
Lemma pruned_filter keep l : pruned keep l (List.filter (λ e, keep e.2) l).
Proof. induction l as [|e l IH]; cbn; [constructor|]. destruct (keep e.2) eqn:E; by constructor. Qed.
Lemma pruned_nothing keep l : (∀ e, e ∈ l → keep e.2 = false) → pruned keep l [].
Proof.
  induction l as [|e l IH]; intros Hl; [constructor|]. constructor; [apply Hl, list_elem_of_here|].
  apply IH. intros e' He'. apply Hl. by apply elem_of_cons; right.
Qed.

Lemma pruned_elem keep l l' e : pruned keep l l' → e ∈ l' → e ∈ l.
Proof.
  induction 1 as [|e' l l' _ IH|e' l l' _ _ IH]; [done| |].
  - rewrite !elem_of_cons. naive_solver.
  - rewrite elem_of_cons. naive_solver.
Qed.
Lemma pruned_kept keep l l' e : pruned keep l l' → e ∈ l → keep e.2 = true → e ∈ l'.
Proof.
  induction 1 as [|e' l l' _ IH|e' l l' Hk _ IH]; [done| |].
  - rewrite !elem_of_cons. naive_solver.
  - rewrite elem_of_cons. intros [-> | He] Hke; [congruence|naive_solver].
Qed.
Lemma pruned_sorted keep l l' : pruned keep l l' → key_sorted version_key_cmp l → key_sorted version_key_cmp l'.
Proof.
  induction 1 as [|e l l' Hp IH|e l l' _ Hp IH]; [done| |].
  - rewrite !key_sorted_cons. intros [Hs Hlt]. split; [by apply IH|]. intros b Hb. apply Hlt. by apply (pruned_elem keep l l').
  - rewrite key_sorted_cons. intros [Hs _]. by apply IH.
Qed.
Lemma pruned_payload keep l l' : pruned keep l l' → payload l' ≤ payload l.
Proof.
  induction 1 as [|e l l' _ IH|e l l' _ _ IH]; [done| |]; rewrite !payload_cons; [lia|].
  pose proof (version_key_range e.1). pose proof layout_stamp. lia.
Qed.

(** A stamp is found after pruning unless it could go. *)
Lemma pruned_get keep l l' k : pruned keep l l' → key_sorted version_key_cmp l →
  map_get version_key_cmp k l' = map_get version_key_cmp k l ∨
  (map_get version_key_cmp k l' = None ∧ ∃ s, map_get version_key_cmp k l = Some s ∧ keep s = false).
Proof.
  intros Hp Hs. pose proof (pruned_sorted _ _ _ Hp Hs) as Hs'. unfold map_get.
  destruct (get_key_value version_key_cmp k l) as [e|] eqn:E.
  - apply (get_some version_key_cmp) in E as [He Ee]; [|done]. destruct (keep e.2) eqn:Ek.
    + left. rewrite (proj2 (get_some version_key_cmp k l' e Hs')); [done|]. split; [|done]. by apply (pruned_kept keep l).
    + destruct (get_key_value version_key_cmp k l') as [e'|] eqn:E'; [|right; by eauto].
      left. apply (get_some version_key_cmp) in E' as [He' Ee']; [|done]. apply (pruned_elem _ _ _ _ Hp) in He'.
      rewrite <- (proj2 (get_some version_key_cmp k l e' Hs) (conj He' Ee')).
      by rewrite (proj2 (get_some version_key_cmp k l e Hs) (conj He Ee)).
  - left. destruct (get_key_value version_key_cmp k l') as [e'|] eqn:E'; [|done].
    apply (get_some version_key_cmp) in E' as [He' Ee']; [|done]. apply (pruned_elem _ _ _ _ Hp) in He'.
    by rewrite (proj2 (get_some version_key_cmp k l e' Hs) (conj He' Ee')) in E.
Qed.

Abbreviation page_ok := (page_ok epoch_range).
Abbreviation vpage := (CowMapPage VersionKey VersionStamp).

Lemma epoch_range_bounds l e : e ∈ l → (epoch_range l).1 ≤ commit_epoch e.2 ≤ (epoch_range l).2.
Proof.
  unfold epoch_range. assert (∀ l mn mx, (foldl (λ '(mn, mx) e, (Z.min mn (commit_epoch e.2), Z.max mx (commit_epoch e.2)))
      (mn, mx) l).1 ≤ mn ∧ mx ≤ (foldl (λ '(mn, mx) (e : VersionKey * VersionStamp),
      (Z.min mn (commit_epoch e.2), Z.max mx (commit_epoch e.2))) (mn, mx) l).2) as Hm.
  { clear. induction l as [|e l IH]; intros mn mx; cbn; [lia|].
    specialize (IH (Z.min mn (commit_epoch e.2)) (Z.max mx (commit_epoch e.2))). lia. }
  generalize u64_max, 0. induction l as [|e' l IH]; intros mn mx; [by intros ?%elem_of_nil|].
  intros [-> | He]%elem_of_cons; cbn; [|by apply IH].
  specialize (Hm l (Z.min mn (commit_epoch e'.2)) (Z.max mx (commit_epoch e'.2))). lia.
Qed.

(** What a plan says of the page it is for. *)
Definition action_ok (keep : VersionStamp → bool) (a : VersionPageRetention) (p : vpage) : Prop :=
  match a with
  | Keep => ∀ e, e ∈ entries p → keep e.2 = true
  | Drop => ∀ e, e ∈ entries p → keep e.2 = false
  | Mixed => True
  end.

Lemma page_retention_ok keep floor p : page_ok p → (∀ f, floor = Some f → ∀ s, keep s = (f <=? commit_epoch s)) →
  entries (page_retention keep floor p).2 = entries p ∧ page_ok (page_retention keep floor p).2 ∧
  action_ok keep (page_retention keep floor p).1 p.
Proof.
  intros (Hne & Hn & Hc) Hk. pose proof Hc as [Hcb Hce]. unfold page_retention. destruct floor as [f|].
  - specialize (Hk f eq_refl). assert (default (epoch_range (entries p)) (epoch_bounds p) = epoch_range (entries p)) as ->.
    { destruct (epoch_bounds p) eqn:E; [by apply Hce|done]. }
    pose proof (epoch_range_bounds (entries p)) as Hb. destruct (epoch_range (entries p)) as [mn mx] eqn:Er. cbn in *.
    split_and!; [done| |].
    + split_and!; [done|done|]. split; [exact Hcb|]. intros ? [= <-]. symmetry. exact Er.
    + destruct (Z.leb_spec f mn); cbn; [|destruct (Z.ltb_spec mx f); cbn; [|done]];
        intros e He; specialize (Hb e He); rewrite Hk; [apply Z.leb_le|apply Z.leb_gt]; lia.
  - cbn. split_and!; [done|by split_and!|].
    destruct (forallb _ (entries p)) eqn:E1; cbn.
    + intros e He. rewrite forallb_forall in E1. by apply E1, list_elem_of_In.
    + destruct (forallb (λ e, negb _) (entries p)) eqn:E2; cbn; [|done].
      intros e He. rewrite forallb_forall in E2. apply negb_true_iff, E2. by apply list_elem_of_In.
Qed.

(** Giving back a lease fails only if the budget does not hold it. *)
Lemma lease_drop_ok lease b : match lease_drop lease b with Some b' => used b' = used b - lease | None => used b < lease end.
Proof. unfold lease_drop, checked_sub. destruct (Z.leb_spec lease (used b)); [done|]. cbn. lia. Qed.
Lemma drop_lease_ok lease b : match drop_lease lease b with Some b' => used b' = used b - default 0 lease | None => used b < default 0 lease end.
Proof. destruct lease as [bytes|]; cbn [drop_lease default from_option id]; [apply lease_drop_ok|lia]. Qed.
Lemma lease_shrink_ok bytes lease b : bytes ≤ lease →
  match lease_shrink bytes lease b with
  | Some (b', lease') => lease' = bytes ∧ used b' = used b - (lease - bytes) ∧ 0 ≤ used b'
  | None => used b < lease - bytes
  end.
Proof.
  intros Hle. unfold lease_shrink. rewrite checked_sub_ok by lia. cbn [mbind option_bind]. unfold checked_sub.
  destruct (Z.leb_spec (lease - bytes) (used b)); cbn; lia.
Qed.

(** What is kept of a page; it panics only if the budget does not hold its lease. *)
Lemma retain_page_ok shared a keep p lease b : a = Keep ∨ action_ok keep a p → page_ok p → payload (entries p) ≤ usize_max → lease_fits p lease →
  match retain_page shared a keep p lease b with
  | Some (b', kept) => Forall page_ok kept.*1 ∧ pruned keep (entries p) (pages_iter kept.*1) ∧
      (action_ok keep a p → pages_iter kept.*1 = List.filter (λ e, keep e.2) (entries p)) ∧
      Forall2 lease_fits kept.*1 kept.*2 ∧ used b - default 0 lease ≤ used b' - held kept.*2 ∧
      (lease = None → Forall (λ lease, lease = None) kept.*2) ∧
      (is_Some lease → uncharged kept.*1 kept.*2 ≤ if shared && bool_decide (a = Mixed) then payload (entries p) else 0)
  | None => used b < default 0 lease
  end.
Proof.
  intros Ha Hp Hle Hl. pose proof (payload_range (entries p)) as Hpr.
  assert (0 ≤ default 0 lease) as Hl0 by (destruct lease; cbn in *; lia). destruct a; cbn [retain_page].
  - cbn [fmap list_fmap fst snd]. rewrite pages_iter_one. rewrite held_cons. unfold held. cbn [fmap list_fmap zsum]. split_and!.
    + by apply Forall_singleton.
    + apply pruned_refl.
    + intros Hk. by rewrite (filter_all _ (entries p) Hk).
    + by constructor.
    + lia.
    + intros ->. by constructor.
    + intros [bytes ->]. rewrite uncharged_cons. by destruct shared.
  - destruct Ha as [|Ha]; [done|]. assert (∀ b', used b - default 0 lease ≤ used b' →
      Forall page_ok ([] : list (vpage * option Z)).*1 ∧ pruned keep (entries p) (pages_iter ([] : list (vpage * option Z)).*1) ∧
      (action_ok keep Drop p → pages_iter ([] : list (vpage * option Z)).*1 = List.filter (λ e, keep e.2) (entries p)) ∧
      Forall2 lease_fits ([] : list (vpage * option Z)).*1 ([] : list (vpage * option Z)).*2 ∧
      used b - default 0 lease ≤ used b' - held ([] : list (vpage * option Z)).*2 ∧
      (lease = None → Forall (λ lease, lease = None) ([] : list (vpage * option Z)).*2) ∧
      (is_Some lease → uncharged ([] : list (vpage * option Z)).*1 ([] : list (vpage * option Z)).*2 ≤ if shared && bool_decide (Drop = Mixed) then payload (entries p) else 0)) as Hnil.
    { intros b' Hb. split_and!; try done; [by apply pruned_nothing|intros _; by rewrite (filter_nothing _ (entries p) Ha)|cbn; lia|].
      intros _. by destruct shared. }
    destruct shared; cbn [mbind option_bind]; [apply Hnil; lia|].
    pose proof (drop_lease_ok lease b) as Hd. destruct (drop_lease lease b); cbn [mbind option_bind]; [apply Hnil; lia|done].
  - set (l := List.filter (λ e, keep e.2) (entries p)). pose proof (pruned_filter keep (entries p)) as Hf.
    pose proof (pruned_payload _ _ _ Hf) as Hpl. fold l in Hf, Hpl. pose proof (payload_range l) as Hplr.
    destruct (payload_bytes_ok epoch_range (page_from l) (cache_ok_from _ _)) as (q & Eq & Eqe & Hqc).
    { unfold fits. change (entries (page_from l)) with l. assert (zlen l + 1 < 2 ^ 62) by (apply payload_fits; lia). lia. }
    change (entries (page_from l)) with l in *. rewrite Eq. cbn [mbind option_bind]. rewrite (proj2 (Z.leb_le _ _)) by lia.
    set (shrunk := match (if shared then None else lease) with Some _ => _ | None => _ end).
    assert (match shrunk with
      | Some (b', lease') => lease' = (if shared then None else (λ _, payload l) <$> lease) ∧
          used b - default 0 lease ≤ used b' - default 0 lease' ∧ (is_Some lease' → 0 ≤ used b')
      | None => used b < default 0 lease
      end) as Hs.
    { unfold shrunk. destruct shared; [split_and!; [done|cbn; lia|by intros [? ?]]|]. destruct lease as [bytes|]; [|split_and!; [done|lia|by intros [? ?]]].
      cbn in Hl. subst bytes. pose proof (lease_shrink_ok (payload l) (payload (entries p)) b Hpl) as Hsh.
      destruct (lease_shrink _ _ b) as [[b' lease']|]; cbn [mbind option_bind default from_option id fmap option_fmap option_map]; [|lia].
      destruct Hsh as (-> & Hu & Hn). split_and!; [done|lia|done]. }
    destruct shrunk as [[b' lease']|]; cbn [mbind option_bind]; [|done]. destruct Hs as (-> & Hu & Hn). rewrite Eqe.
    assert (length l ≤ length (entries p))%nat by (unfold l; apply List.filter_length_le).
    destruct l as [|e l'] eqn:El.
    + assert (default 0 (if shared then None else (λ _, payload (K := VersionKey) (V := VersionStamp) []) <$> lease) = 0) as Hz by (by destruct shared, lease).
      pose proof (drop_lease_ok (if shared then None else (λ _, payload (K := VersionKey) (V := VersionStamp) []) <$> lease) b') as Hd. rewrite Hz in Hd, Hu.
      destruct (drop_lease _ b') as [b2|] eqn:Ed; cbn [mbind option_bind].
      * split_and!; try done; [cbn; lia|]. intros _. change (uncharged (([] : list (vpage * option Z)).*1) (([] : list (vpage * option Z)).*2)) with 0.
        destruct (shared && _); lia.
      * exfalso. destruct shared; [done|]. destruct lease; [|done]. cbn in Hn. specialize (Hn ltac:(by eexists)). lia.
    + cbn [fmap list_fmap fst snd]. rewrite pages_iter_one, Eqe, held_cons. unfold held. cbn [fmap list_fmap zsum]. split_and!; try done.
      * apply Forall_singleton. destruct Hp as (_ & Hn' & _). split_and!; [by rewrite Eqe|rewrite Eqe; lia|done].
      * constructor; [|constructor]. destruct shared; [done|]. destruct lease; [|done]. cbn. by rewrite Eqe.
      * lia.
      * intros ->. constructor; [by destruct shared|constructor].
      * intros [bytes ->]. rewrite uncharged_cons, Eqe. change (uncharged ([] : list vpage) []) with 0.
        destruct shared; cbn [andb is_charged fmap option_fmap option_map]; [rewrite bool_decide_true by done|]; lia.
Qed.

Lemma retain_pages_ok env keep plan ps leases : Forall2 (λ a p, a = Keep ∨ action_ok keep a p) plan ps → Forall page_ok ps →
  payload (pages_iter ps) ≤ usize_max → Forall2 lease_fits ps leases → ∀ i b,
  match retain_pages (shared env) plan keep ps leases i b with
  | Some (b', kept) => Forall page_ok kept.*1 ∧ pruned keep (pages_iter ps) (pages_iter kept.*1) ∧
      (Forall2 (action_ok keep) plan ps → pages_iter kept.*1 = List.filter (λ e, keep e.2) (pages_iter ps)) ∧
      Forall2 lease_fits kept.*1 kept.*2 ∧ used b - held leases ≤ used b' - held kept.*2 ∧
      (Forall (λ lease, lease = None) leases → Forall (λ lease, lease = None) kept.*2) ∧
      (∀ n, mixed_bytes env plan ps i = Some n → Forall is_Some leases → uncharged kept.*1 kept.*2 ≤ n)
  | None => used b < held leases
  end.
Proof.
  intros HF. revert leases. induction HF as [|a p plan ps Ha HF IH]; intros leases Hok Hpay HL i b.
  { apply Forall2_nil_inv_l in HL as ->. cbn. split_and!; try done; [constructor|by intros n [= <-]]. }
  apply Forall2_cons_inv_l in HL as (lease & leases' & Hl & HL & ->). apply Forall_cons in Hok as [Hp Hok].
  rewrite payload_pages_cons in Hpay. pose proof (payload_range (entries p)). pose proof (payload_range (pages_iter ps)).
  assert (payload (entries p) ≤ usize_max) as Hpp by lia. assert (payload (pages_iter ps) ≤ usize_max) as Hpps by lia.
  pose proof (held_nonneg _ _ HL) as Hh0. rewrite held_cons. cbn [retain_pages].
  pose proof (retain_page_ok (shared env i) a keep p lease b Ha Hp Hpp Hl) as Hone.
  destruct (retain_page (shared env i) a keep p lease b) as [[b1 kept]|]; cbn [mbind option_bind]; [|lia].
  destruct Hone as (Hk1 & Hk2 & Hk3 & Hk4 & Hk5 & Hk6 & Hk7). specialize (IH leases' Hok Hpps HL (S i) b1).
  pose proof (held_nonneg _ _ Hk4) as Hhk.
  destruct (retain_pages _ plan keep ps leases' (S i) b1) as [[b2 rest]|]; cbn [mbind option_bind]; [|lia].
  destruct IH as (Hr1 & Hr2 & Hr3 & Hr4 & Hr5 & Hr6 & Hr7). rewrite !fmap_app, pages_iter_app, pages_iter_cons, held_app. split_and!.
  - by apply Forall_app.
  - by apply pruned_app.
  - intros HF2. inversion HF2; subst. rewrite List.filter_app, Hk3, Hr3 by done. done.
  - by apply Forall2_app.
  - lia.
  - intros [-> Hn]%Forall_cons. apply Forall_app. split; [by apply Hk6|by apply Hr6].
  - intros n Hn [Hs1 Hs2]%Forall_cons. cbn [mixed_bytes] in Hn. rewrite page_weight_ok in Hn by done. cbn [mbind option_bind] in Hn.
    destruct (mixed_bytes env plan ps (S i)) as [m|]; [|done]. specialize (Hr7 m eq_refl Hs2). specialize (Hk7 Hs1). cbn [mbind option_bind] in Hn.
    rewrite uncharged_app by (by rewrite !length_fmap). destruct (shared env i && bool_decide (a = Mixed)).
    + unfold checked_add in Hn. destruct (_ <=? _); [|done]. injection Hn as <-. lia.
    + injection Hn as <-. lia.
Qed.

Lemma plan_ok keep floor m : cow_wf version_key_cmp epoch_range m →
  (∀ f, floor = Some f → ∀ s, keep s = (f <=? commit_epoch s)) →
  ∀ plan m', version_retention_plan keep floor m = (plan, m') →
  Forall2 (action_ok keep) plan (segments m') ∧ cow_iter m' = cow_iter m ∧ cow_wf version_key_cmp epoch_range m'.
Proof.
  intros Hw Hk plan m' [= <- <-]. cbn [segments].
  assert (Forall2 (action_ok keep) (page_retention keep floor <$> segments m).*1 (page_retention keep floor <$> segments m).*2 ∧
    pages_iter (page_retention keep floor <$> segments m).*2 = pages_iter (segments m) ∧
    Forall page_ok (page_retention keep floor <$> segments m).*2) as (H1 & H2 & H3).
  { pose proof (cw_pages _ _ _ Hw) as HF. induction HF as [|p ps Hp HF IH]; [by split_and!|].
    destruct IH as (IH1 & IH2 & IH3). destruct (page_retention_ok keep floor p Hp Hk) as (Ee & Hp' & Ha).
    rewrite !fmap_cons. split_and!; [|by rewrite !pages_iter_cons, Ee, IH2|by constructor]. constructor; [|done].
    unfold action_ok in *. by rewrite Ee. }
  unfold cow_iter in *. cbn [segments]. split_and!; [done|done|].
  constructor; unfold cow_iter; cbn [segments map_len map_pressure]; rewrite ?H2; [apply Hw|done|apply Hw|apply Hw].
Qed.

Lemma plan_leases keep floor ps leases : Forall2 lease_fits ps leases → Forall2 lease_fits (page_retention keep floor <$> ps).*2 leases.
Proof.
  induction 1 as [|p lease ps leases Hl _ IH]; [constructor|]. rewrite !fmap_cons. constructor; [|done].
  unfold lease_fits, page_retention in *. destruct lease; [|done]. by destruct floor; [destruct (default _ _)|].
Qed.

Lemma recount_loop_ok ps : ∀ bytes, Forall page_ok ps → 0 ≤ bytes → bytes + payload (pages_iter ps) ≤ usize_max →
  recount_loop ps bytes = Some (bytes + payload (pages_iter ps)).
Proof.
  induction ps as [|p ps IH]; intros bytes HF Hb Hle; cbn [recount_loop]; [by rewrite Z.add_0_r|].
  apply Forall_cons in HF as [(_ & _ & Hc) HF]. rewrite pages_iter_cons in *.
  assert (payload (entries p ++ pages_iter ps) = payload (entries p) + payload (pages_iter ps)) as Ep
    by (unfold payload; by rewrite fmap_app, zsum_app). rewrite Ep in *.
  pose proof (payload_range (entries p)). pose proof (payload_range (pages_iter ps)).
  destruct (payload_bytes_ok epoch_range p Hc) as (p' & -> & _ & _).
  { unfold fits. assert (zlen (entries p) + 1 < 2 ^ 62) by (apply payload_fits; lia). lia. }
  cbn [mbind option_bind]. rewrite (proj2 (Z.leb_le _ _)) by lia. unfold saturating_add. rewrite Z.min_r by lia.
  rewrite IH by (done || lia). f_equal. lia.
Qed.

Lemma pressure_zero l : pressure_of l = 0.
Proof. unfold pressure_of. induction l as [|e l IH]; [done|]. cbn in *. lia. Qed.

Lemma pages_len ps : foldr (λ p n, zlen (entries p) + n) 0 ps = zlen (pages_iter (K := VersionKey) (V := VersionStamp) ps).
Proof. induction ps as [|p ps IH]; [done|]. rewrite pages_iter_cons, zlen_app, <- IH. done. Qed.

Definition with_stamps m leases bytes idx : VersionIndex :=
  {| history_floor := history_floor idx; database_barrier := database_barrier idx; read_barrier := read_barrier idx;
     stamps := m; page_leases := leases; vi_estimated_bytes := bytes; max_estimated_bytes := max_estimated_bytes idx |}.

(** Computing what to reserve does not panic. *)
Lemma mixed_bytes_ok env ps : Forall page_ok ps → payload (pages_iter ps) ≤ usize_max → ∀ plan i,
  ∃ b, mixed_bytes env plan ps i = Some b ∧ 0 ≤ b ≤ payload (pages_iter ps).
Proof.
  induction 1 as [|p ps Hp _ IH]; intros Hle plan i; destruct plan as [|a plan]; cbn [mixed_bytes];
    try (exists 0; split; [done|]; pose proof (payload_range (pages_iter (p :: ps))); lia).
  { by exists 0. }
  { by exists 0. }
  rewrite payload_pages_cons in *.
  pose proof (payload_range (entries p)). pose proof (payload_range (pages_iter ps)).
  rewrite page_weight_ok by (done || lia). cbn [mbind option_bind].
  destruct (IH ltac:(lia) plan (S i)) as (b & -> & Hb). cbn [mbind option_bind].
  destruct (shared env i && _); [|exists b; split; [done|lia]]. unfold checked_add. rewrite (proj2 (Z.leb_le _ _)) by lia.
  eexists. split; [done|lia].
Qed.

Lemma mixed_bytes_none env ps : Forall page_ok ps → payload (pages_iter ps) ≤ usize_max → ∀ plan i,
  Forall (λ a, a ≠ Mixed) plan → mixed_bytes env plan ps i = Some 0.
Proof.
  induction 1 as [|p ps Hp _ IH]; intros Hle plan i Hn; destruct Hn as [|a plan Ha Hn]; cbn [mixed_bytes]; [done..|].
  rewrite payload_pages_cons in Hle. pose proof (payload_range (entries p)). pose proof (payload_range (pages_iter ps)).
  rewrite page_weight_ok by (done || lia). cbn [mbind option_bind]. rewrite IH by (done || lia). cbn [mbind option_bind].
  by rewrite (bool_decide_false (a = Mixed)), andb_false_r by done.
Qed.

(** A reservation adds what it holds to the budget. *)
Lemma reserve_need_ok bytes b b' reservation : 0 ≤ bytes → reserve_need bytes b = Some (b', reservation) →
  default 0 reservation = bytes ∧ used b' = used b + bytes.
Proof.
  intros Hb. unfold reserve_need. destruct (Z.ltb_spec 0 bytes); [|intros [= <- <-]; cbn; lia].
  unfold reserve, checked_add. destruct (_ <=? _); cbn [mbind option_bind]; [|done]. destruct (_ >? _); [done|]. by intros [= <- <-].
Qed.

(** Whether a pruning is denied the credit it needs. *)
Definition prune_refused env keep floor idx : bool :=
  let '(plan, m) := version_retention_plan keep floor (stamps idx) in
  match (if managed (page_leases idx) then mixed_bytes env plan (segments m) 0 else Some 0) ≫= λ bytes, reserve_need bytes (history_budget env) with
  | Some _ => false
  | None => true
  end.

(** What a pruning does to the leases: the accounts of the index stay covered, and
    it panics only if they were not. *)
Definition covered env idx (b : HistoryBudget) idx' : Prop := used (history_budget env) - held_by idx ≤ used b - held_by idx'.

(** The pages retained under a plan, charged and recounted. *)
Lemma retained_ok keep env plan m idx b reservation n : vi_ok idx → uniform idx → cow_iter m = cow_iter (stamps idx) → cow_wf version_key_cmp epoch_range m →
  Forall2 lease_fits (segments m) (page_leases idx) → Forall2 (λ a p, a = Keep ∨ action_ok keep a p) plan (segments m) →
  mixed_bytes env plan (segments m) 0 = Some n → used b = used (history_budget env) + default 0 reservation →
  (if managed (page_leases idx) then n ≤ default 0 reservation else default 0 reservation = 0) →
  match
    ('(b, m, leases) ← retain_version_pages (shared env) plan keep m (page_leases idx) b;
     '(leases, reservation) ← (if managed (page_leases idx) then charge_version_pages (segments m) leases reservation else Some (leases, reservation));
     idx ← recount_bytes (with_stamps m leases (vi_estimated_bytes idx) idx);
     b ← drop_lease reservation b;
     Some (b, idx))
  with
  | Some (b, idx') => ∃ m' leases bytes, idx' = with_stamps m' leases bytes idx ∧ vi_ok idx' ∧ uniform idx' ∧
      pruned keep (cow_iter (stamps idx)) (cow_iter m') ∧ covered env idx b idx' ∧
      (Forall2 (action_ok keep) plan (segments m) → cow_iter m' = List.filter (λ e, keep e.2) (cow_iter (stamps idx)))
  | None => used (history_budget env) < held_by idx
  end.
Proof.
  intros Hw Hu Ei Hwm HL Hplan Hn Hb Hres. pose proof (vo_bytes _ Hw) as Hest. pose proof (vo_bound _ Hw) as Hbd. pose proof inline_nonneg as Hin.
  assert (payload (pages_iter (segments m)) ≤ usize_max) as Hpm by (change (pages_iter (segments m)) with (cow_iter m); rewrite Ei; lia).
  assert (0 ≤ n) as Hn0.
  { destruct (mixed_bytes_ok env (segments m) (cw_pages _ _ _ Hwm) Hpm plan 0) as (n' & E & Hn'). rewrite Hn in E. injection E as <-. lia. }
  pose proof (retain_pages_ok env keep plan (segments m) (page_leases idx) Hplan (cw_pages _ _ _ Hwm) Hpm HL 0 b) as Hret.
  unfold retain_version_pages, held_by, covered in *. destruct (retain_pages _ plan keep _ _ 0 b) as [[b1 kept]|]; cbn [mbind option_bind].
  2: { destruct (managed (page_leases idx)); lia. }
  destruct Hret as (Hpg & Hpr & Hex & Hfit & Hacc & Hnone & Hsome). specialize (Hsome n Hn).
  pose proof (pruned_payload _ _ _ Hpr) as Hpay. pose proof (payload_range (pages_iter kept.*1)) as Hkr. cbn [segments].
  set (charged := if managed (page_leases idx) then _ else _).
  assert (∃ leases' r', charged = Some (leases', r') ∧ Forall2 lease_fits kept.*1 leases' ∧
    (Forall (λ lease, lease = None) leases' ∨ Forall is_Some leases') ∧
    default 0 reservation - default 0 r' = held leases' - held kept.*2) as (leases' & r' & -> & Hfit' & Huni & Hcr).
  { unfold charged. destruct (managed (page_leases idx)) eqn:Em.
    - destruct Hu as [Hall|Hall].
      { exfalso. apply existsb_exists in Em as (lease & Hl & Hc). apply list_elem_of_In in Hl. rewrite Forall_forall in Hall. by rewrite (Hall lease Hl) in Hc. }
      destruct (charge_pages_ok kept.*1 kept.*2 reservation Hpg) as (leases' & r' & E & H1 & H2 & H3 & H4); [lia|done|specialize (Hsome Hall); lia|].
      exists leases', r'. split_and!; [done|done|by right|lia].
    - exists kept.*2, reservation. split_and!; [done|done| |lia]. destruct Hu as [Hall|Hall]; [left; by apply Hnone|]. left. apply Hnone.
      apply Forall_forall. intros lease Hl. destruct lease as [bytes|]; [|done]. exfalso.
      assert (managed (page_leases idx) = true) as Ht; [|congruence]. apply existsb_exists. exists (Some bytes). split; [by apply list_elem_of_In|done]. }
  cbn [mbind option_bind]. unfold recount_bytes. cbn [stamps with_stamps segments]. change (pages_iter (segments m)) with (cow_iter m) in *. rewrite Ei in *.
  rewrite recount_loop_ok by (done || lia). cbn [mbind option_bind]. pose proof (held_nonneg _ _ Hfit'). pose proof (held_nonneg _ _ Hfit).
  pose proof (drop_lease_ok r' b1) as Hd. destruct (drop_lease r' b1) as [b2|]; cbn [mbind option_bind].
  2: { lia. }
  exists (mk_map kept.*1 (foldr (λ p n, zlen (entries p) + n) 0 kept.*1) (map_pressure m)), leases', (inline_barrier_bytes + payload (pages_iter kept.*1)).
  split_and!; [done| |done|done|unfold held_by; cbn [page_leases with_stamps]; lia|done].
  rewrite pages_len. constructor; unfold cow_iter; cbn [stamps vi_estimated_bytes segments page_leases]; [|..|done|lia|done].
  - constructor; unfold cow_iter; cbn [segments map_len map_pressure]; [|done|done|].
    + apply (pruned_sorted _ _ _ Hpr). apply (vo_map _ Hw).
    + rewrite (cw_pressure _ _ _ Hwm), !pressure_zero. done.
  - apply Forall_forall. intros e He. apply (proj1 (Forall_forall _ _) (vo_keys _ Hw)). by apply (pruned_elem _ _ _ _ Hpr).
Qed.

Lemma prune_map_ok keep floor env idx : vi_ok idx → uniform idx → (∀ f, floor = Some f → ∀ s, keep s = (f <=? commit_epoch s)) →
  match prune_map keep floor env idx with
  | Some (b, idx') => ∃ m leases bytes, idx' = with_stamps m leases bytes idx ∧ vi_ok idx' ∧ uniform idx' ∧
      pruned keep (cow_iter (stamps idx)) (cow_iter m) ∧ covered env idx b idx' ∧
      (prune_refused env keep floor idx = false → cow_iter m = List.filter (λ e, keep e.2) (cow_iter (stamps idx)))
  | None => used (history_budget env) < held_by idx
  end.
Proof.
  intros Hw Hu Hk. unfold prune_map, prune_refused.
  destruct (version_retention_plan keep floor (stamps idx)) as [plan m1] eqn:Eplan.
  destruct (plan_ok keep floor _ (vo_map _ Hw) Hk _ _ Eplan) as (Hplan & Ei & Hw1).
  assert (Forall2 lease_fits (segments m1) (page_leases idx)) as HL1.
  { injection Eplan as _ <-. cbn [segments]. apply (plan_leases keep floor), Hw. }
  assert (vi_ok (with_stamps m1 (page_leases idx) (vi_estimated_bytes idx) idx)) as Hok1.
  { constructor; cbn [stamps vi_estimated_bytes with_stamps page_leases]; rewrite ?Ei; [done|apply Hw|apply Hw|apply Hw|done]. }
  assert (∀ P : Prop, (P → List.filter (λ e, keep e.2) (cow_iter (stamps idx)) = cow_iter m1) →
    ∃ m leases bytes, with_stamps m1 (page_leases idx) (vi_estimated_bytes idx) idx = with_stamps m leases bytes idx ∧
      vi_ok (with_stamps m1 (page_leases idx) (vi_estimated_bytes idx) idx) ∧ uniform (with_stamps m1 (page_leases idx) (vi_estimated_bytes idx) idx) ∧
      pruned keep (cow_iter (stamps idx)) (cow_iter m) ∧
      covered env idx (history_budget env) (with_stamps m1 (page_leases idx) (vi_estimated_bytes idx) idx) ∧
      (P → cow_iter m = List.filter (λ e, keep e.2) (cow_iter (stamps idx)))) as Hsame.
  { intros P HP. exists m1, (page_leases idx), (vi_estimated_bytes idx). split_and!; [done|done|done|rewrite Ei; apply pruned_refl|unfold covered, held_by; cbn [page_leases with_stamps]; lia|].
    intros H'. by rewrite HP. }
  destruct (forallb _ plan) eqn:Eall.
  { apply Hsame. intros _. rewrite <- Ei. unfold cow_iter. apply filter_all. intros e (p & Hp & He)%elem_pages_iter.
    apply list_elem_of_lookup in Hp as [i Hi]. destruct (Forall2_lookup_r _ _ _ _ _ Hplan Hi) as (a & Ha & Hact).
    rewrite forallb_forall in Eall. specialize (Eall a ltac:(by apply list_elem_of_In, (list_elem_of_lookup_2 _ i))).
    apply bool_decide_eq_true in Eall as ->. by apply Hact. }
  assert (payload (pages_iter (segments m1)) ≤ usize_max) as Hpm.
  { change (pages_iter (segments m1)) with (cow_iter m1). rewrite Ei. pose proof (vo_bytes _ Hw). pose proof (vo_bound _ Hw). pose proof inline_nonneg. lia. }
  destruct (mixed_bytes_ok env (segments m1) (cw_pages _ _ _ Hw1) Hpm plan 0) as (mixed & Emix & Hmix). rewrite Emix.
  set (bytes := if managed (page_leases idx) then mixed else 0).
  assert ((if managed (page_leases idx) then Some mixed else Some 0) = Some bytes) as -> by (unfold bytes; by destruct (managed _)).
  assert (0 ≤ bytes) as Hb0 by (unfold bytes; destruct (managed _); lia). cbn [mbind option_bind].
  destruct (reserve_need bytes (history_budget env)) as [[b reservation]|] eqn:Eres; cbn [default from_option id andb].
  - destruct (reserve_need_ok _ _ _ _ Hb0 Eres) as [Hr1 Hr2].
    pose proof (retained_ok keep env plan m1 idx b reservation mixed Hw Hu Ei Hw1 HL1) as Hret. unfold with_stamps in Hret at 1.
    match type of Hret with _ → _ → _ → _ → match ?x with _ => _ end => destruct x as [[b' idx']|] end.
    + destruct Hret as (m' & leases & bytes' & -> & H1 & H2 & H3 & H4 & H5); [|done|lia|unfold bytes in Hr1; destruct (managed _); lia|].
      { eapply Forall2_impl; [done|by right]. }
      exists m', leases, bytes'. split_and!; try done. intros _. by apply H5.
    + apply Hret; [|done|lia|unfold bytes in Hr1; destruct (managed _); lia]. eapply Forall2_impl; [done|by right].
  - set (plan' := _ <$> plan). destruct (negb (existsb _ plan')); [by apply Hsame|].
    assert (Forall2 (λ a p, a = Keep ∨ action_ok keep a p) plan' (segments m1)) as Hplan'.
    { apply Forall2_fmap_l. eapply Forall2_impl; [done|]. intros a p Ha. cbn. case_bool_decide; [by left|by right]. }
    pose proof (retained_ok keep env plan' m1 idx (history_budget env) None 0 Hw Hu Ei Hw1 HL1 Hplan') as Hret. unfold with_stamps in Hret at 1.
    assert (mixed_bytes env plan' (segments m1) 0 = Some 0) as Hm0.
    { apply mixed_bytes_none; [apply Hw1|done|]. apply Forall_fmap, Forall_forall. intros a _. cbn. by case_bool_decide. }
    match type of Hret with _ → _ → _ → match ?x with _ => _ end => destruct x as [[b' idx']|] end.
    + destruct Hret as (m' & leases & bytes' & -> & H1 & H2 & H3 & H4 & H5); [done|cbn; lia|by destruct (managed _)|].
      exists m', leases, bytes'. by split_and!.
    + apply Hret; [done|cbn; lia|by destruct (managed _)].
Qed.

Lemma prune_with_ok drop_it keep floor oldest env idx : vi_ok idx → uniform idx →
  (∀ f, floor = Some f → ∀ s, keep s = (f <=? commit_epoch s)) → (∀ s, keep s = negb (drop_it s)) →
  match prune_with drop_it keep floor oldest env idx with
  | Some (b, idx') => vi_ok idx' ∧ uniform idx' ∧ covered env idx b idx' ∧
      history_floor idx' = Z.max (history_floor idx) (saturating_sub oldest 1) ∧
      max_estimated_bytes idx' = max_estimated_bytes idx ∧
      (∀ k, vi_stamp idx' k = vi_stamp idx k ∨
        (vi_stamp idx' k = None ∧ ∃ s, vi_stamp idx k = Some s ∧ drop_it s = true)) ∧
      (prune_refused env keep floor idx = false → ∀ k, vi_stamp idx' k = s ← vi_stamp idx k; if drop_it s then None else Some s)
  | None => used (history_budget env) < held_by idx
  end.
Proof.
  intros Hw Hu Hf Hk. unfold prune_with.
  match goal with |- context [prune_map _ _ _ ?i] => set (idx0 := i) end.
  assert (vi_ok idx0) as Hw0 by (destruct Hw; by constructor).
  pose proof (prune_map_ok keep floor env idx0 Hw0 Hu Hf) as Hpm. destruct (prune_map keep floor env idx0) as [[b idx']|]; [|done].
  destruct Hpm as (m & leases & bytes & -> & Hok & Hu' & Hpr & Hcov & Hex).
  split_and!; [done|done|done|done|done| |].
  - intros k. rewrite (vi_stamp_spec _ k Hok), (vi_stamp_spec _ k Hw). cbn [stamps database_barrier read_barrier with_stamps idx0].
    assert (∀ b, prune_barrier drop_it b = b ∨ (prune_barrier drop_it b = None ∧ ∃ s, b = Some s ∧ drop_it s = true)) as Hbar.
    { intros [s|]; cbn; [|by left]. destruct (drop_it s) eqn:E; [right; by eauto|by left]. }
    assert (map_get version_key_cmp k (cow_iter m) = map_get version_key_cmp k (cow_iter (stamps idx)) ∨
      (map_get version_key_cmp k (cow_iter m) = None ∧
       ∃ s, map_get version_key_cmp k (cow_iter (stamps idx)) = Some s ∧ drop_it s = true)) as Hmap.
    { destruct (pruned_get _ _ _ k Hpr (cw_sorted _ _ _ (vo_map _ Hw))) as [E|(E & s & Es & Ek)]; [by left|].
      right. split; [done|]. exists s. split; [done|]. rewrite Hk in Ek. by apply negb_false_iff. }
    destruct k; try exact Hmap; apply Hbar.
  - intros Hg k. specialize (Hex Hg). rewrite (vi_stamp_spec _ k Hok), (vi_stamp_spec _ k Hw).
    cbn [stamps database_barrier read_barrier with_stamps idx0].
    assert (map_get version_key_cmp k (cow_iter m) =
      s ← map_get version_key_cmp k (cow_iter (stamps idx)); if drop_it s then None else Some s) as Hmap.
    { pose proof (cw_sorted _ _ _ (vo_map _ Hw)) as Hs. pose proof (pruned_sorted _ _ _ Hpr Hs) as Hs'.
      unfold map_get. destruct (get_key_value version_key_cmp k (cow_iter (stamps idx))) as [e|] eqn:E.
      - apply (get_some version_key_cmp) in E as [He Ee]; [|done]. cbn. specialize (Hk e.2). destruct (drop_it e.2) eqn:Ed.
        + destruct (get_key_value version_key_cmp k (cow_iter m)) as [e'|] eqn:E'; [|done].
          apply (get_some version_key_cmp) in E' as [He' Ee']; [|done]. pose proof (pruned_elem _ _ _ _ Hpr He') as Hin.
          pose proof (proj2 (get_some version_key_cmp k _ e Hs) (conj He Ee)) as E1.
          rewrite (proj2 (get_some version_key_cmp k _ e' Hs) (conj Hin Ee')) in E1. injection E1 as ->.
          rewrite Hex in He'. apply list_elem_of_In, List.filter_In in He' as [_ He']. by rewrite Hk in He'.
        + rewrite (proj2 (get_some version_key_cmp k (cow_iter m) e Hs')); [done|]. split; [|done].
          rewrite Hex. apply list_elem_of_In, List.filter_In. split; [by apply list_elem_of_In|done].
      - destruct (get_key_value version_key_cmp k (cow_iter m)) as [e'|] eqn:E'; [|done].
        apply (get_some version_key_cmp) in E' as [He' Ee']; [|done]. apply (pruned_elem _ _ _ _ Hpr) in He'.
        by rewrite (proj2 (get_some version_key_cmp k _ e' Hs) (conj He' Ee')) in E. }
    destruct k; try exact Hmap.
    + by destruct (database_barrier idx).
    + by destruct (read_barrier idx).
Qed.

Lemma tracks_prune drop_it keep floor oldest env h idx : tracks h idx →
  (∀ f, floor = Some f → ∀ s, keep s = (f <=? commit_epoch s)) → (∀ s, keep s = negb (drop_it s)) →
  (∀ s, drop_it s = true → commit_epoch s < oldest) →
  match prune_with drop_it keep floor oldest env idx with
  | Some (b, idx') => tracks h idx' ∧ covered env idx b idx'
  | None => used (history_budget env) < held_by idx
  end.
Proof.
  intros [Hok Hu Hm Hfl HF Hfound Hmiss] Hf Hk Hold. pose proof (prune_with_ok drop_it keep floor oldest env idx Hok Hu Hf Hk) as Hp.
  destruct (prune_with drop_it keep floor oldest env idx) as [[b idx']|]; [|done].
  destruct Hp as (Hok' & Hu' & Hcov & Efl & Emx & Hst & _). split; [|done].
  constructor; [done|done|by rewrite Emx|rewrite Efl; lia|done|..].
  - intros k s. destruct (Hst k) as [-> |(-> & _)]; [apply Hfound|done].
  - intros k s Hn Hs. destruct (Hst k) as [Heq|(_ & s0 & Hs0 & Hd)].
    + rewrite Heq in Hn. destruct (Hmiss k s Hn Hs) as [Hle|Hr]; [left; rewrite Efl; lia|by right].
    + left. apply Hfound in Hs0. rewrite Hs in Hs0. injection Hs0 as <-. specialize (Hold _ Hd). rewrite Efl.
      unfold saturating_sub. lia.
Qed.

(** ** Collapsing read summaries *)

Lemma collect_sorted {V} (l : list (VersionKey * V)) : key_sorted version_key_cmp l → map_collect version_key_cmp l = l.
Proof.
  unfold map_collect. induction l as [|[k v] l IH] using rev_ind; intros Hs; [done|].
  rewrite fold_left_app. apply key_sorted_app in Hs as (Hs & _ & Hlt). cbn [fold_left]. rewrite IH by done.
  apply (insert_last version_key_cmp). intros a Ha. apply (Hlt a (k, v) Ha), list_elem_of_here.
Qed.

Lemma collapse_loop_ok keys : ∀ bytes n, collapse_loop keys bytes = Some n →
  n = bytes + zsum (version_stamp_bytes <$> keys) ∧ (bytes ≤ usize_max → n ≤ usize_max).
Proof.
  induction keys as [|k keys IH]; intros bytes n; cbn [collapse_loop].
  { intros [= <-]. cbn. lia. }
  unfold checked_add. destruct (Z.leb_spec (bytes + version_stamp_bytes k) usize_max); cbn; [|done].
  intros [-> Hn]%IH. cbn. lia.
Qed.

Abbreviation non_summary := (λ e : VersionKey * VersionStamp, negb (is_read_summary_key e.1)).

Lemma payload_stamps l : inline_barrier_bytes + zsum (version_stamp_bytes <$> l.*1) ≤ usize_max →
  payload l = zsum (version_stamp_bytes <$> l.*1).
Proof.
  intros Hle. pose proof inline_nonneg. induction l as [|e l IH]; [done|]. rewrite payload_cons. cbn in *.
  assert (0 ≤ zsum (version_stamp_bytes <$> l.*1)).
  { apply zsum_nonneg. apply Forall_fmap, Forall_forall. intros k _. apply stamp_bytes_nonneg. }
  pose proof (stamp_bytes_nonneg e.1). rewrite IH by lia. rewrite stamp_bytes_exact by lia. lia.
Qed.

Lemma get_non_summary l k : key_sorted version_key_cmp l →
  get_key_value version_key_cmp k (List.filter non_summary l) =
    if is_read_summary_key k then None else get_key_value version_key_cmp k l.
Proof.
  intros Hs. pose proof (sorted_filter version_key_cmp non_summary l Hs) as Hs'.
  assert (∀ e, e ∈ List.filter non_summary l ↔ e ∈ l ∧ is_read_summary_key e.1 = false) as Hin.
  { intros e. by rewrite list_elem_of_In, List.filter_In, negb_true_iff, <- list_elem_of_In. }
  destruct (is_read_summary_key k) eqn:Ek.
  - apply (get_none version_key_cmp); [done|]. intros e [_ He]%Hin E. apply same_family in E as [_ E]. congruence.
  - destruct (get_key_value version_key_cmp k l) as [e|] eqn:E.
    + apply (get_some version_key_cmp) in E as [He Ee]; [|done]. apply (get_some version_key_cmp); [done|].
      split; [|done]. apply Hin. split; [done|]. apply same_family in Ee as [_ Ee]. congruence.
    + apply (get_none version_key_cmp); [done|]. intros e [He _]%Hin. by apply (proj1 (get_none version_key_cmp k l Hs) E).
Qed.

(** ** Leases of a staging *)

Lemma map_payload idx : vi_ok idx → payload (pages_iter (segments (stamps idx))) ≤ usize_max.
Proof.
  intros Hw. pose proof (vo_bound _ Hw) as Hb. rewrite (vo_bytes _ Hw) in Hb. pose proof inline_nonneg. unfold cow_iter in Hb. lia.
Qed.
Lemma uncharged_nonneg idx : 0 ≤ uncharged_of idx.
Proof. apply page_sum_nonneg. Qed.
Lemma ok_leases leases idx : vi_ok idx → Forall2 lease_fits (segments (stamps idx)) leases → vi_ok (with_leases leases idx).
Proof. intros [H1 H2 H3 H4 _] HL. by constructor. Qed.
Lemma tracks_leases h leases idx : tracks h idx → Forall2 lease_fits (segments (stamps idx)) leases → Forall is_Some leases →
  tracks h (with_leases leases idx).
Proof. intros [H1 _ H3 H4 H5 H6 H7] HL HS. constructor; [by apply ok_leases|by right|done..]. Qed.

(** The pages of the index are adopted, with [base] bytes of credit left. *)
Lemma adopt_ok env h idx base n b reservation : tracks h idx → 0 ≤ base → n = base + uncharged_of idx →
  reserve_need n (history_budget env) = Some (b, reservation) →
  ∃ leases r, charge_version_pages (segments (stamps idx)) (page_leases idx) reservation = Some (leases, r) ∧
    tracks h (with_leases leases idx) ∧ Forall is_Some leases ∧ length leases = length (page_leases idx) ∧ default 0 r = base ∧
    held leases = held_by idx + uncharged_of idx ∧ used b = used (history_budget env) + base + uncharged_of idx.
Proof.
  intros Ht Hb -> Er. pose proof (tr_ok _ _ Ht) as Hw. pose proof (uncharged_nonneg idx) as Hu.
  destruct (reserve_need_ok _ _ _ _ (Z.add_nonneg_nonneg _ _ Hb Hu) Er) as [Hd Hused]. unfold uncharged_of in *.
  destruct (charge_pages_ok _ _ reservation (cw_pages _ _ _ (vo_map _ Hw)) (map_payload idx Hw) (vo_leases _ Hw)) as (leases & r & E & H1 & H2 & H3 & H4); [lia|].
  exists leases, r. split_and!; [done|by apply tracks_leases|done| |lia|done|lia].
  apply Forall2_length in H1. pose proof (Forall2_length _ _ _ (vo_leases _ Hw)). lia.
Qed.
(** The pages of the staged index are charged, and what is left is given back. *)
Lemma settle_ok idx r b : vi_ok idx → uncharged_of idx ≤ default 0 r →
  ∃ leases r', charge_version_pages (segments (stamps idx)) (page_leases idx) r = Some (leases, r') ∧
    vi_ok (with_leases leases idx) ∧ Forall is_Some leases ∧ held leases = held_by idx + uncharged_of idx ∧
    match drop_lease r' b with
    | Some b' => used b' = used b - default 0 r + uncharged_of idx
    | None => used b < default 0 r - uncharged_of idx
    end.
Proof.
  intros Hw Hle. unfold uncharged_of in *.
  destruct (charge_pages_ok _ _ r (cw_pages _ _ _ (vo_map _ Hw)) (map_payload idx Hw) (vo_leases _ Hw) Hle) as (leases & r' & E & H1 & H2 & H3 & H4).
  exists leases, r'. split_and!; [done|by apply ok_leases|done|done|]. pose proof (drop_lease_ok r' b) as Hd. destruct (drop_lease r' b); lia.
Qed.

Lemma stage_collapse_ok env h idx (ws : VersionWriteSet) epoch : tracks h idx → commits_before epoch h →
  key_sorted version_key_cmp (writes ws) → Forall (λ e, is_read_summary_key e.1 = false) (writes ws) →
  match stage_with_read_barrier env idx ws epoch with
  | None => used (history_budget env) < held_by idx
  | Some (b, idx1, None) => b = history_budget env ∧ idx1 = idx
  | Some (b, idx1, Some idx') => tracks h idx1 ∧ covered env idx b idx1 ∧
      tracks ((epoch, (map_insert version_key_cmp ReadBarrier {| write_disposition := Live |} (writes ws)).2) :: h) idx' ∧
      covered env idx b idx' ∧ vi_estimated_bytes idx' ≤ max_estimated_bytes idx'
  end.
Proof.
  intros Ht Hep Hs Hns. pose proof (tr_ok _ _ Ht) as Hw. unfold stage_with_read_barrier.
  destruct (collapsed_write_bytes idx ws) as [[retained total]|] eqn:Ec; [|done].
  destruct (charge_loop_ok (λ _, false) (segments (stamps idx)) (cw_pages _ _ _ (vo_map _ Hw)) (map_payload idx Hw)
    (page_leases idx) 0 (total - inline_barrier_bytes)) as (need & -> & Hneed).
  cbn [mbind option_bind]. destruct need as [need|]; cbn [mbind option_bind]; [|done]. specialize (Hneed need eq_refl).
  destruct (reserve_need need (history_budget env)) as [[b reservation]|] eqn:Eres; [|done].
  assert (page_sum (λ _ _, false) (segments (stamps idx)) (page_leases idx) 0 = 0) as Hzero.
  { clear. generalize (page_leases idx), O. induction (segments (stamps idx)) as [|p ps IH]; intros [|lease leases] i; cbn [page_sum]; [done..|].
    by rewrite IH. }
  rewrite Hzero, Z.add_0_r in Hneed. clear Hzero.
  unfold collapsed_write_bytes in Ec. destruct (collapse_loop _ inline_barrier_bytes) as [n|] eqn:En; [|done]. cbn in Ec.
  destruct (collapse_loop _ n) as [n'|] eqn:En'; [|done]. cbn in Ec. destruct (Z.leb_spec n' (max_estimated_bytes idx)); [|done].
  injection Ec as <- <-. apply collapse_loop_ok in En as [En _]. apply collapse_loop_ok in En' as [En' _].
  pose proof inline_nonneg as Hin. pose proof (tr_max _ _ Ht) as Hmax.
  set (l0 := List.filter non_summary (cow_iter (stamps idx))) in *.
  assert (∀ ks, 0 ≤ zsum (version_stamp_bytes <$> ks)) as Hnn.
  { intros ks. apply zsum_nonneg, Forall_fmap, Forall_forall. intros k _. apply stamp_bytes_nonneg. }
  pose proof (cw_sorted _ _ _ (vo_map _ Hw)) as Hsi. pose proof (sorted_filter version_key_cmp non_summary _ Hsi) as Hs0. fold l0 in Hs0.
  pose proof (Hnn l0.*1) as Hnn0. match type of En' with _ = _ + zsum (_ <$> ?ks) => pose proof (Hnn ks) as Hnn1 end.
  assert (payload l0 = zsum (version_stamp_bytes <$> l0.*1)) as Hp0 by (apply payload_stamps; lia).
  destruct (from_ordered_ok version_key_cmp epoch_range l0 Hs0) as (m & Em & Ei & Hm).
  { unfold fits. assert (zlen l0 + 1 < 2 ^ 62) by (apply payload_fits; lia). lia. }
  destruct (adopt_ok env h idx (n' - inline_barrier_bytes) need b reservation Ht) as (leases & r & -> & Ht1 & _ & _ & Hr & Hheld & Hused); [lia|done|done|].
  cbn [mbind option_bind]. set (idx1 := with_leases leases idx) in *. change (stamps idx1) with (stamps idx). fold l0.
  rewrite (collect_sorted l0 Hs0), Em. cbn [mbind option_bind].
  match goal with |- context [apply_prepared _ _ ?i] => set (idx0 := i) end.
  assert (vi_ok idx0) as Hw0.
  { constructor; cbn [stamps vi_estimated_bytes page_leases idx0]; rewrite ?Ei; [done| |lia|lia|apply replicate_fits].
    apply Forall_forall. intros e [He _]%list_elem_of_In%List.filter_In. apply (proj1 (Forall_forall _ _) (vo_keys _ Hw)).
    by apply list_elem_of_In. }
  assert (∀ k, is_read_summary_key k = false → takes_room idx0 k = takes_room idx k) as Hroom.
  { intros k Ek. unfold takes_room, map_contains. cbn [stamps idx0]. rewrite Ei. unfold l0. rewrite get_non_summary by done.
    by rewrite Ek. }
  assert (room_bytes idx0 (writes ws) = n' - n) as Hrb.
  { assert (∀ l : write_list, Forall (λ e, is_read_summary_key e.1 = false) l → room_bytes idx0 l =
      zsum (version_stamp_bytes <$> (List.filter (λ e, negb (is_inline e.1) &&
        negb (cow_contains_key version_key_cmp e.1 (stamps idx))) l).*1)) as Hl; [|rewrite (Hl _ Hns); lia].
    intros l Hl. induction Hl as [|[k w] l Hk _ IH]; [done|]. unfold room_bytes in *. cbn [fst] in Hk.
    rewrite fmap_cons. cbn [List.filter fst zsum]. rewrite (Hroom k Hk), contains_spec, IH by done.
    fold (takes_room idx k). by destruct (takes_room idx k). }
  destruct (apply_prepared_ok epoch (writes ws) idx0 Hw0 Hs) as (idx2 & E2 & Hw2 & Hfl2 & Hmx2 & Hest2 & Hst2 & Hh2 & Hx2).
  { rewrite Hrb. cbn [vi_estimated_bytes idx0]. lia. }
  rewrite E2. cbn [mbind option_bind].
  assert (exposed_by (writes ws) idx0 ≤ payload l0) as Hexp by (rewrite <- Ei; apply page_sum_payload).
  assert (held_by idx0 = 0) as Hh0 by apply held_replicate.
  destruct (settle_ok idx2 r b Hw2) as (leases' & r' & -> & Hw3 & HS & Hheld' & Hdrop); [lia|]. cbn [mbind option_bind].
  set (live := {| commit_epoch := epoch; stamp_disposition := Live |}).
  destruct (insert_stamp_ok ReadBarrier live (with_leases leases' idx2) Hw3) as (idx4 & E4 & Hw4 & Hfl4 & Hmx4 & Hest4 & Hst4 & _); [done|].
  assert (page_leases idx4 = leases') as El4 by (by injection E4 as <-). rewrite E4. cbn [mbind option_bind].
  pose proof (held_nonneg _ _ (vo_leases _ Hw)) as Hhn. fold (held_by idx) in Hhn.
  pose proof (uncharged_nonneg idx) as Hun. pose proof (uncharged_nonneg idx2) as Hun2.
  destruct (drop_lease r' b) as [b'|]; cbn [mbind option_bind]; [|lia].
  change (takes_room (with_leases leases' idx2) ReadBarrier) with false in Hest4. cbn [vi_estimated_bytes max_estimated_bytes history_floor with_leases idx0] in *.
  assert (∀ j, vi_stamp (with_leases leases' idx2) j = vi_stamp idx2 j) as Hsame by done.
  split_and!; [done|unfold covered, held_by at 2; cbn [page_leases with_leases idx1]; lia| |unfold covered, held_by at 2; rewrite El4; lia|
    change (max_estimated_bytes idx1) with (max_estimated_bytes idx) in Hmx2; cbn iota in Hest4; lia].
  assert (∀ j, vi_stamp idx0 j = if is_read_summary_key j then None else vi_stamp idx j) as Hst0.
  { intros j. rewrite !vi_stamp_spec by done. cbn [stamps database_barrier read_barrier idx0]. rewrite Ei. unfold l0, map_get.
    rewrite get_non_summary by done. by destruct j. }
  constructor; [done|right; by rewrite El4|by rewrite Hmx4, Hmx2|rewrite Hfl4, Hfl2; apply Ht|constructor; [apply Hep|apply Ht]|..].
  - intros k s. rewrite Hst4, Hsame, Hst2, Hst0. cbn [last_stamp]. rewrite get_insert by done. case_bool_decide; [done|].
    destruct (map_get version_key_cmp k (writes ws)); [done|]. destruct (is_read_summary_key k); [done|]. apply (tr_found _ _ Ht).
  - intros k s. rewrite Hst4, Hsame, Hst2, Hst0, Hfl4, Hfl2. cbn [last_stamp]. rewrite !get_insert by done.
    rewrite (bool_decide_true (version_key_cmp ReadBarrier ReadBarrier = Eq)) by apply (ord_refl version_key_cmp).
    case_bool_decide; [done|]. destruct (map_get version_key_cmp k (writes ws)); [done|]. intros Hn Hl.
    pose proof (last_stamp_before _ _ _ _ Hep Hl). destruct (is_read_summary_key k) eqn:Ek.
    + right. split; [done|]. eexists. split; [done|]. cbn. lia.
    + destruct (tr_missing _ _ Ht k s Hn Hl) as [Hle|[Hs' _]]; [by left|congruence].
Qed.

(** ** Write sets *)

Record write_set_ok (ws : VersionWriteSet) : Prop := {
  wo_sorted : key_sorted version_key_cmp (writes ws);
  wo_entries : zlen (writes ws) ≤ Z.max 0 (max_entries ws);
  wo_bytes : ws_estimated_bytes ws = zsum ((λ e, version_key_bytes e.1 + size_of_version_write) <$> writes ws);
  wo_limit : 0 ≤ ws_estimated_bytes ws ≤ Z.max 0 (Z.min usize_max (max_bytes ws));
}.

Lemma with_limits_ok max_entries max_bytes : write_set_ok (with_limits max_entries max_bytes).
Proof. constructor; cbn; [apply Sorted.SSorted_nil|change (zlen []) with 0; lia|done|lia]. Qed.

Lemma record_ok k d (ws ws' : VersionWriteSet) : write_set_ok ws → record_write k d ws = Ok ws' → write_set_ok ws'.
Proof.
  intros Hw. unfold record_write. destruct (map_contains version_key_cmp k (writes ws)) eqn:Ec.
  - intros [= <-]. apply map_contains_get in Ec as [[k' w'] Ee]. constructor; cbn.
    + apply (alter_sorted version_key_cmp); [apply (update_keeps version_key_cmp)|apply Hw].
    + unfold map_update. rewrite (zlen_alter version_key_cmp), Ee. cbn. pose proof (wo_entries _ Hw). lia.
    + unfold map_update. rewrite (zsum_alter version_key_cmp), Ee. cbn. rewrite (wo_bytes _ Hw). lia.
    + apply Hw.
  - destruct (Z.leb_spec (max_entries ws) (zlen (writes ws))); [done|].
    unfold checked_add. destruct (Z.leb_spec (version_key_bytes k + size_of_version_write) usize_max); cbn; [|done].
    destruct (Z.leb_spec (ws_estimated_bytes ws + (version_key_bytes k + size_of_version_write)) usize_max); cbn; [|done].
    destruct (Z.leb_spec (ws_estimated_bytes ws + (version_key_bytes k + size_of_version_write)) (max_bytes ws)); cbn; [|done].
    intros [= <-]. assert (get_key_value version_key_cmp k (writes ws) = None) as Eg
      by (unfold map_contains in Ec; by destruct (get_key_value version_key_cmp k (writes ws))).
    pose proof (version_key_range k). pose proof layout_write. constructor; cbn.
    + apply (alter_sorted version_key_cmp); [apply (insert_keeps version_key_cmp)|apply Hw].
    + rewrite (zlen_alter version_key_cmp), Eg. cbn. pose proof (zlen_nonneg (writes ws)). lia.
    + rewrite (zsum_alter version_key_cmp), Eg. cbn. rewrite (wo_bytes _ Hw). lia.
    + pose proof (wo_limit _ Hw). lia.
Qed.

(** A transaction's write set is bounded and exact.  Recording a key either
    succeeds, and then the set maps that key to the new disposition and every
    other key as before, its entries and its estimate stay within the limits and
    the estimate is the sum over its keys; or it is refused, exactly when the key
    is new and the entry limit is reached, or else when its bytes would exceed
    the byte limit (or overflow), with the limit that refused it. *)
Theorem version_write_set k d (ws : VersionWriteSet) : write_set_ok ws → 0 ≤ max_bytes ws ≤ usize_max →
  match record_write k d ws with
  | Ok ws' =>
      write_set_ok ws' ∧
      ∀ j, map_get version_key_cmp j (writes ws') =
        if bool_decide (version_key_cmp k j = Eq) then Some {| write_disposition := d |}
        else map_get version_key_cmp j (writes ws)
  | Err (LimitExceeded n) =>
      ws_contains_key k ws = false ∧ n = max_entries ws ∧ max_entries ws ≤ zlen (writes ws)
  | Err (ByteLimitExceeded n) =>
      ws_contains_key k ws = false ∧ zlen (writes ws) < max_entries ws ∧ n = max_bytes ws ∧
      max_bytes ws < ws_estimated_bytes ws + version_key_bytes k + size_of_version_write
  end.
Proof.
  intros Hw Hmax. pose proof (record_ok k d ws) as Hok. unfold record_write in *. unfold ws_contains_key.
  destruct (map_contains version_key_cmp k (writes ws)) eqn:Ec.
  - split; [by apply Hok|]. intros j. cbn [writes]. rewrite <- (get_insert k _ j (writes ws) (wo_sorted _ Hw)). f_equal. cbn.
    unfold map_update. apply (alter_ext version_key_cmp). apply map_contains_get in Ec as [[k' w'] ->]. done.
  - destruct (Z.leb_spec (max_entries ws) (zlen (writes ws))); [done|]. pose proof (wo_limit _ Hw).
    unfold checked_add in *. destruct (Z.leb_spec (version_key_bytes k + size_of_version_write) usize_max); cbn in *; [|split_and!; done || lia].
    destruct (Z.leb_spec (ws_estimated_bytes ws + (version_key_bytes k + size_of_version_write)) usize_max); cbn in *; [|split_and!; done || lia].
    destruct (Z.leb_spec (ws_estimated_bytes ws + (version_key_bytes k + size_of_version_write)) (max_bytes ws)); cbn in *; [|split_and!; done || lia].
    split; [by apply Hok|]. intros j. apply (get_insert k _ j (writes ws) (wo_sorted _ Hw)).
Qed.

(** ** Reachable indexes *)

Definition live : VersionWrite := {| write_disposition := Live |}.

Inductive vi_reachable : history → VersionIndex → Prop :=
  | vr_new max limit b idx : max ≤ usize_max → with_history_limit max limit = Some (b, idx) → vi_reachable [] idx
  | vr_commit env (ws : VersionWriteSet) epoch h idx b idx1 idx' :
      vi_reachable h idx → commits_before epoch h → write_set_ok ws →
      stage env idx ws epoch = Some (b, idx1, Some idx') → vi_reachable ((epoch, writes ws) :: h) idx'
  | vr_collapse env (ws : VersionWriteSet) epoch h idx b idx1 idx' :
      vi_reachable h idx → commits_before epoch h → write_set_ok ws →
      Forall (λ e, is_read_summary_key e.1 = false) (writes ws) →
      stage_with_read_barrier env idx ws epoch = Some (b, idx1, Some idx') →
      vi_reachable ((epoch, (map_insert version_key_cmp ReadBarrier live (writes ws)).2) :: h) idx'
  | vr_barrier epoch h idx idx' :
      vi_reachable h idx → commits_before epoch h → apply_database_barrier epoch idx = Some idx' →
      vi_reachable ((epoch, [(Database, live)]) :: h) idx'
  | vr_prune oldest env h idx b idx' :
      vi_reachable h idx → prune_before oldest env idx = Some (b, idx') → vi_reachable h idx'
  | vr_prune_tombstones oldest env h idx b idx' :
      vi_reachable h idx → prune_tombstones_before oldest env idx = Some (b, idx') → vi_reachable h idx'
  (* a staging that is not published leaves the index with its pages leased *)
  | vr_staged env (ws : VersionWriteSet) epoch h idx b idx1 r :
      vi_reachable h idx → commits_before epoch h → write_set_ok ws →
      stage env idx ws epoch = Some (b, idx1, r) → vi_reachable h idx1
  | vr_collapsed env (ws : VersionWriteSet) epoch h idx b idx1 r :
      vi_reachable h idx → commits_before epoch h → write_set_ok ws →
      Forall (λ e, is_read_summary_key e.1 = false) (writes ws) →
      stage_with_read_barrier env idx ws epoch = Some (b, idx1, r) → vi_reachable h idx1.

(** Whether the history budget denies a staging. *)
Definition history_refuses env idx (ws : VersionWriteSet) : bool :=
  match stage_need idx ws with
  | Some need => match need ≫= λ bytes, reserve_need bytes (history_budget env) with Some _ => false | None => true end
  | None => false
  end.

Lemma new_bytes_loop_ok idx ws : vi_ok idx → ∀ bytes n, new_bytes_loop ws idx bytes = Some n → n = bytes + room_bytes idx ws.
Proof.
  intros Hw. induction ws as [|[k w] ws IH]; intros bytes n; cbn [new_bytes_loop]; [intros [= <-]; cbn; lia|].
  rewrite contains_spec by done. fold (takes_room idx k).
  assert (room_bytes idx ((k, w) :: ws) = (if takes_room idx k then version_stamp_bytes k else 0) + room_bytes idx ws) as -> by done.
  destruct (takes_room idx k); [|intros ->%IH; lia]. unfold checked_add. destruct (_ <=? _); cbn [mbind option_bind]; [|done]. intros ->%IH. lia.
Qed.
(** What a staging asks for: the new entries, the pages without a lease and, again,
    the pages it edits. *)
Lemma stage_need_ok idx (ws : VersionWriteSet) : vi_ok idx →
  ∃ need, stage_need idx ws = Some need ∧
    ∀ n, need = Some n → n = room_bytes idx (writes ws) +
      page_sum (λ i _, touched_pages (writes ws) idx i) (segments (stamps idx)) (page_leases idx) 0 + uncharged_of idx.
Proof.
  intros Hw. unfold stage_need. destruct (new_bytes_loop _ _ _) as [bytes|] eqn:E; [|by exists None].
  apply (new_bytes_loop_ok idx _ Hw) in E.
  destruct (charge_loop_ok (touched_pages (writes ws) idx) (segments (stamps idx)) (cw_pages _ _ _ (vo_map _ Hw)) (map_payload idx Hw)
    (page_leases idx) 0 bytes) as (need & -> & Hn). exists need. split; [done|]. intros n En. rewrite (Hn n En). unfold uncharged_of, uncharged. lia.
Qed.

Lemma stage_ok env h idx (ws : VersionWriteSet) epoch : tracks h idx → commits_before epoch h →
  key_sorted version_key_cmp (writes ws) →
  let refuses := max_estimated_bytes idx < vi_estimated_bytes idx + room_bytes idx (writes ws) ∨ history_refuses env idx ws = true in
  match stage env idx ws epoch with
  | None => used (history_budget env) < held_by idx
  | Some (b, idx1, None) => refuses ∧ b = history_budget env ∧ idx1 = idx
  | Some (b, idx1, Some idx') => ¬ refuses ∧ tracks h idx1 ∧ covered env idx b idx1 ∧ tracks ((epoch, writes ws) :: h) idx' ∧
      covered env idx b idx' ∧ Forall is_Some (page_leases idx') ∧
      vi_estimated_bytes idx' = vi_estimated_bytes idx + room_bytes idx (writes ws) ∧ vi_estimated_bytes idx' ≤ max_estimated_bytes idx'
  end.
Proof.
  intros Ht Hep Hs. pose proof (tr_ok _ _ Ht) as Hw. pose proof (tr_max _ _ Ht) as Hm. cbv zeta. unfold stage, admits, history_refuses.
  rewrite admits_loop_spec by done.
  destruct (Z.leb_spec (vi_estimated_bytes idx + room_bytes idx (writes ws)) (max_estimated_bytes idx)) as [Hle|Hgt]; cbn [negb].
  2: { split_and!; [left; lia|done|done]. }
  destruct (stage_need_ok idx ws Hw) as (need & -> & Hneed). cbn [mbind option_bind].
  destruct need as [need|]; cbn [mbind option_bind]; [|split_and!; [by right|done|done]]. specialize (Hneed need eq_refl).
  destruct (reserve_need need (history_budget env)) as [[b reservation]|] eqn:Eres; [|split_and!; [by right|done|done]].
  set (touched := page_sum (λ i _, touched_pages (writes ws) idx i) (segments (stamps idx)) (page_leases idx) 0) in *.
  assert (0 ≤ room_bytes idx (writes ws) + touched) as Hbase by (pose proof (room_nonneg idx (writes ws)); pose proof (page_sum_nonneg (λ i _, touched_pages (writes ws) idx i) (segments (stamps idx)) (page_leases idx) 0); unfold touched; lia).
  destruct (adopt_ok env h idx _ need b reservation Ht Hbase Hneed Eres) as (leases & r & -> & Ht1 & HS & Hlen & Hr & Hheld & Hused).
  cbn [mbind option_bind]. set (idx1 := with_leases leases idx) in *.
  destruct (apply_prepared_ok epoch (writes ws) idx1 (tr_ok _ _ Ht1) Hs) as (idx2 & -> & Hw2 & Hfl & Hmx & Hest & Hst & Hh2 & Hx2); [exact (Z.le_trans _ _ _ Hle Hm)|].
  cbn [mbind option_bind].
  assert (exposed_by (writes ws) idx1 = touched) as Hexp.
  { unfold exposed_by, touched. apply (exposed_charged (touched_pages (writes ws) idx1)); done. }
  change (room_bytes idx1 (writes ws)) with (room_bytes idx (writes ws)) in *. change (held_by idx1) with (held leases) in Hh2.
  destruct (settle_ok idx2 r b Hw2) as (leases' & r' & -> & Hw3 & HS' & Hheld' & Hdrop); [lia|]. cbn [mbind option_bind].
  pose proof (held_nonneg _ _ (vo_leases _ Hw)) as Hhn. fold (held_by idx) in Hhn.
  pose proof (uncharged_nonneg idx) as Hun. pose proof (uncharged_nonneg idx2) as Hun2.
  destruct (drop_lease r' b) as [b'|]; cbn [mbind option_bind]; [|lia].
  split_and!; [intros [|]; [lia|done]|done|unfold covered; change (held_by idx1) with (held leases); lia| | |done|done|].
  - apply (tracks_apply h idx (writes ws) epoch); try done. by right.
  - unfold covered. change (held_by (with_leases leases' idx2)) with (held leases'). lia.
  - cbn [with_leases vi_estimated_bytes max_estimated_bytes] in *. rewrite Hest, Hmx. exact Hle.
Qed.

Lemma prune_before_ok oldest env h idx : tracks h idx →
  match prune_before oldest env idx with
  | Some (b, idx') => tracks h idx' ∧ covered env idx b idx'
  | None => used (history_budget env) < held_by idx
  end.
Proof.
  intros Ht. apply tracks_prune; [done| | |].
  - by intros f [= <-] s.
  - intros s. destruct (Z.leb_spec oldest (commit_epoch s)), (Z.ltb_spec (commit_epoch s) oldest); done || lia.
  - intros s. apply Z.ltb_lt.
Qed.
Lemma prune_tombstones_ok oldest env h idx : tracks h idx →
  match prune_tombstones_before oldest env idx with
  | Some (b, idx') => tracks h idx' ∧ covered env idx b idx'
  | None => used (history_budget env) < held_by idx
  end.
Proof.
  intros Ht. apply tracks_prune; [done|done| |].
  - intros s. rewrite negb_andb. f_equal. destruct (Z.leb_spec oldest (commit_epoch s)), (Z.ltb_spec (commit_epoch s) oldest); done || lia.
  - intros s [_ E]%andb_true_iff. by apply Z.ltb_lt.
Qed.

Lemma reachable_tracks h idx : vi_reachable h idx → tracks h idx.
Proof.
  induction 1 as [max limit b idx Hm E|env ws epoch h idx b idx1 idx' _ IH Hep Hws E|env ws epoch h idx b idx1 idx' _ IH Hep Hws Hns E
    |epoch h idx idx' _ IH Hep E|oldest env h idx b idx' _ IH E|oldest env h idx b idx' _ IH E
    |env ws epoch h idx b idx1 r _ IH Hep Hws E|env ws epoch h idx b idx1 r _ IH Hep Hws Hns E].
  - unfold with_history_limit in E. destruct (Z.leb_spec inline_barrier_bytes max); [|done]. injection E as _ <-.
    pose proof inline_nonneg. constructor; cbn; [|by left; constructor|done|done|done| |done].
    + constructor; cbn; [|constructor|by rewrite Z.add_0_r|lia|constructor]. constructor; try done. apply Sorted.SSorted_nil.
    + intros k s Hs. by destruct k.
  - pose proof (stage_ok env h idx ws epoch IH Hep (wo_sorted _ Hws)) as Hst. cbv zeta in Hst. rewrite E in Hst. apply Hst.
  - pose proof (stage_collapse_ok env h idx ws epoch IH Hep (wo_sorted _ Hws) Hns) as Hst. rewrite E in Hst. apply Hst.
  - destruct (insert_stamp_ok Database (stamp_of epoch live) idx (tr_ok _ _ IH)) as (idx1 & E1 & Hw1 & Hfl & Hmx & _ & Hst & _); [done|].
    unfold apply_database_barrier in E. change {| commit_epoch := epoch; stamp_disposition := Live |} with (stamp_of epoch live) in E.
    rewrite E1 in E. injection E as <-. apply (tracks_apply h idx); try done.
    + injection E1 as <-. apply (tr_uniform _ _ IH).
    + intros j. rewrite Hst, get_cons; [by case_bool_decide|]. repeat constructor.
  - pose proof (prune_before_ok oldest env h idx IH) as Hp. rewrite E in Hp. apply Hp.
  - pose proof (prune_tombstones_ok oldest env h idx IH) as Hp. rewrite E in Hp. apply Hp.
  - pose proof (stage_ok env h idx ws epoch IH Hep (wo_sorted _ Hws)) as Hst. cbv zeta in Hst. rewrite E in Hst.
    destruct r as [idx'|]; [apply Hst|]. by destruct Hst as (_ & _ & ->).
  - pose proof (stage_collapse_ok env h idx ws epoch IH Hep (wo_sorted _ Hws) Hns) as Hst. rewrite E in Hst.
    destruct r as [idx'|]; [apply Hst|]. by destruct Hst as (_ & ->).
Qed.

(** ** Claims *)

(** The first key of a write set that a history committed after the read. *)
Definition history_conflict h (ws : VersionWriteSet) (read_epoch : Z) : option VersionConflict :=
  find_map (λ '(k, _),
    s ← last_stamp h k;
    if commit_epoch s >? read_epoch then Some {| conflict_key := k; committed_epoch := commit_epoch s |} else None)
    (writes ws).

Lemma find_map_ext {A B} (f g : A → option B) (l : list A) : (∀ x, x ∈ l → f x = g x) → find_map f l = find_map g l.
Proof.
  induction l as [|x l IH]; intros Hx; [done|]. cbn. rewrite (Hx x) by apply list_elem_of_here.
  destruct (g x); [done|]. apply IH. intros y Hy. apply Hx. by apply elem_of_cons; right.
Qed.

(** C6: First committer wins.  Whatever sequence of staged commits, collapsed read
    summaries, database barriers and prunings (with or without the history
    budget they ask for) led to an index, validating a transaction's write keys against it finds
    exactly the conflict that the full commit history has: the first written key
    committed after the transaction's read epoch, with the epoch of its latest
    commit, and none if there is none.  A transaction whose read epoch is older
    than the retained history is refused outright. *)
Theorem version_conflict_exact h idx (ws : VersionWriteSet) read_epoch :
  vi_reachable h idx → Forall (λ e, is_read_summary_key e.1 = false) (writes ws) →
  first_conflict idx ws read_epoch =
    if history_reclaimed_after idx read_epoch && negb (bool_decide (writes ws = []))
    then Some {| conflict_key := Database; committed_epoch := history_floor idx |}
    else history_conflict h ws read_epoch.
Proof.
  intros Ht%reachable_tracks Hns. unfold first_conflict, history_reclaimed_after, history_conflict.
  destruct (writes ws) as [|e0 l0] eqn:El; [by rewrite andb_false_r|]. rewrite bool_decide_false by done. rewrite andb_true_r.
  cbn [andb]. destruct (Z.ltb_spec read_epoch (history_floor idx)) as [|Hle]; [done|].
  apply find_map_ext. intros [k w] Hk. pose proof (proj1 (Forall_forall _ _) Hns _ Hk) as Hsum. cbn in Hsum.
  destruct (vi_stamp idx k) as [s|] eqn:Es; [by rewrite (tr_found _ _ Ht k s Es)|]. cbn.
  destruct (last_stamp h k) as [s|] eqn:Ls; [|done]. cbn.
  destruct (tr_missing _ _ Ht k s Es Ls) as [Hs|[Hs _]]; [|congruence].
  destruct (Z.gtb_spec (commit_epoch s) read_epoch); [lia|done].
Qed.

(** C36: No read invalidation is lost.  If a read summary was committed after an
    epoch the index still covers, the index shows it, through the stamp of that
    summary or through the read barrier that replaced it when summaries were
    collapsed to make room. *)
Theorem version_read_invalidation h idx k s read_epoch :
  vi_reachable h idx → last_stamp h k = Some s → history_floor idx ≤ read_epoch < commit_epoch s →
  (∃ s', vi_stamp idx k = Some s' ∧ read_epoch < commit_epoch s') ∨
  (∃ b, vi_stamp idx ReadBarrier = Some b ∧ read_epoch < commit_epoch b).
Proof.
  intros Ht%reachable_tracks Hl Hr. destruct (vi_stamp idx k) as [s'|] eqn:Es.
  - left. exists s'. split; [done|]. apply (tr_found _ _ Ht) in Es. rewrite Hl in Es. injection Es as <-. lia.
  - right. destruct (tr_missing _ _ Ht k s Es Hl) as [|(_ & b & Hb & Hle)]; [lia|].
    destruct (vi_stamp idx ReadBarrier) as [b'|] eqn:Eb.
    + exists b'. split; [done|]. apply (tr_found _ _ Ht) in Eb. rewrite Hb in Eb. injection Eb as <-. lia.
    + destruct (tr_missing _ _ Ht ReadBarrier b Eb Hb) as [|[? _]]; [lia|done].
Qed.


(** Pruning page by page is pruning stamp by stamp.  With the budget to copy
    mixed pages, [prune_before] leaves exactly the stamps at or after the oldest
    reader's epoch, whatever the layout and the cached epoch ranges of the pages;
    without it no such stamp is lost either, and in both cases every reader from
    the epoch before the oldest one on keeps its history. *)
Theorem version_prune_exact h idx oldest env : vi_reachable h idx → held_by idx ≤ used (history_budget env) →
  ∃ b idx', prune_before oldest env idx = Some (b, idx') ∧
    (prune_refused env (λ s, oldest <=? commit_epoch s) (Some oldest) idx = false → ∀ k, vi_stamp idx' k =
      s ← vi_stamp idx k; if commit_epoch s <? oldest then None else Some s) ∧
    (∀ k s, vi_stamp idx k = Some s → oldest ≤ commit_epoch s → vi_stamp idx' k = Some s) ∧
    (∀ r, oldest ≤ r + 1 → 0 ≤ r → history_reclaimed_after idx' r = history_reclaimed_after idx r).
Proof.
  intros Ht%reachable_tracks Hacc. unfold prune_before.
  pose proof (prune_with_ok (λ s, commit_epoch s <? oldest) (λ s, oldest <=? commit_epoch s) (Some oldest) oldest env idx
    (tr_ok _ _ Ht) (tr_uniform _ _ Ht)) as Hp.
  destruct (prune_with _ _ (Some oldest) oldest env idx) as [[b idx']|].
  2: { exfalso. assert (used (history_budget env) < held_by idx); [|lia]. apply Hp; [by intros f [= <-] s|].
       intros s. destruct (Z.leb_spec oldest (commit_epoch s)), (Z.ltb_spec (commit_epoch s) oldest); done || lia. }
  destruct Hp as (_ & _ & _ & Hfl & _ & Hst & Hex).
  { by intros f [= <-] s. }
  { intros s. destruct (Z.leb_spec oldest (commit_epoch s)), (Z.ltb_spec (commit_epoch s) oldest); done || lia. }
  exists b, idx'. split_and!; [done|done| |].
  - intros k s Hs Hle. destruct (Hst k) as [-> |(_ & s' & Hs' & Hd)]; [done|]. rewrite Hs in Hs'. injection Hs' as <-.
    apply Z.ltb_lt in Hd. lia.
  - intros r Ho Hr. unfold history_reclaimed_after. rewrite Hfl. unfold saturating_sub.
    destruct (Z.ltb_spec r (history_floor idx)), (Z.ltb_spec r (Z.max (history_floor idx) (Z.max 0 (oldest - 1)))); lia || done.
Qed.
End Index.

(** ** Snapshot pins *)

(** The pins of the open snapshots: how many there are at each epoch. *)
Definition pins_of (live_epochs : list Z) (p : list (Z * Z)) : Prop :=
  key_sorted Z.compare p ∧
  ∀ e, map_get Z.compare e p =
    match count_occ Z.eq_dec live_epochs e with O => None | S n => Some (Z.of_nat (S n)) end.

Lemma zget_alter f e j (p : list (Z * Z)) : keeps_key Z.compare e f → key_sorted Z.compare p →
  map_get Z.compare j (map_alter Z.compare f e p) =
    if bool_decide (e = j) then snd <$> f (get_key_value Z.compare e p) else map_get Z.compare j p.
Proof.
  intros Hf Hs. unfold map_get. case_bool_decide as E; [subst; by rewrite (get_alter Z.compare)|].
  rewrite (get_alter_ne Z.compare); [done|done|done|]. by intros ->%Z.compare_eq.
Qed.

Lemma pins_pin_ok epoch live_epochs p : pins_of live_epochs p → pins_of (epoch :: live_epochs) (pins_pin epoch p).
Proof.
  intros [Hs Hp]. unfold pins_pin. pose proof (Hp epoch) as He. set (p1 := if map_contains _ _ _ then _ else _).
  assert (key_sorted Z.compare p1 ∧ map_get Z.compare epoch p1 = Some (Z.of_nat (count_occ Z.eq_dec live_epochs epoch)) ∧
    ∀ j, epoch ≠ j → map_get Z.compare j p1 = map_get Z.compare j p) as (Hs1 & H1 & H2).
  { unfold p1, map_contains. unfold map_get in He. destruct (get_key_value Z.compare epoch p) as [[k n]|] eqn:Eg.
    - split_and!; [done| |done]. unfold map_get. rewrite Eg. cbn in *. by destruct (count_occ Z.eq_dec live_epochs epoch).
    - cbn [snd map_insert]. split_and!.
      + apply (alter_sorted Z.compare); [apply (insert_keeps Z.compare)|done].
      + rewrite zget_alter, Eg by (apply (insert_keeps Z.compare) || done). rewrite bool_decide_true by done. cbn.
        by destruct (count_occ Z.eq_dec live_epochs epoch).
      + intros j Hj. rewrite zget_alter by (apply (insert_keeps Z.compare) || done). by rewrite bool_decide_false. }
  clearbody p1. split.
  - apply (alter_sorted Z.compare); [apply (update_keeps Z.compare)|done].
  - intros e. unfold map_update. rewrite zget_alter by (apply (update_keeps Z.compare) || done). case_bool_decide as E.
    + subst. rewrite count_occ_cons_eq by done. unfold map_get in H1.
      destruct (get_key_value Z.compare e p1) as [[k n]|]; [|done]. cbn in *. injection H1 as ->. f_equal. lia.
    + rewrite count_occ_cons_neq, H2 by done. apply Hp.
Qed.

Lemma pins_drop_ok epoch live_epochs p : pins_of (epoch :: live_epochs) p →
  ∃ p', pins_drop epoch p = Some p' ∧ pins_of live_epochs p'.
Proof.
  intros [Hs Hp]. unfold pins_drop. pose proof (Hp epoch) as He. rewrite count_occ_cons_eq in He by done. rewrite He.
  remember (count_occ Z.eq_dec live_epochs epoch) as n eqn:En. cbn [mbind option_bind]. rewrite checked_sub_ok by lia.
  cbn [mbind option_bind]. replace (Z.of_nat (S n) - 1) with (Z.of_nat n) by lia. eexists. split; [done|].
  assert (∀ e, e ≠ epoch → map_get Z.compare e p =
    match count_occ Z.eq_dec live_epochs e with O => None | S n => Some (Z.of_nat (S n)) end) as Hother.
  { intros e Hne. rewrite Hp. by rewrite count_occ_cons_neq by done. }
  destruct (Z.eqb_spec (Z.of_nat n) 0) as [Hn|Hn]; cbn [snd map_remove]; split.
  - apply (alter_sorted Z.compare); [apply (remove_keeps Z.compare)|done].
  - intros e. rewrite zget_alter by (apply (remove_keeps Z.compare) || done). case_bool_decide as E; [|by apply Hother].
    rewrite <- E, <- En. cbn. by assert (n = O) as -> by lia.
  - apply (alter_sorted Z.compare); [apply (update_keeps Z.compare)|done].
  - intros e. unfold map_update. rewrite zget_alter by (apply (update_keeps Z.compare) || done).
    case_bool_decide as E; [|by apply Hother]. rewrite <- E, <- En. unfold map_get in He.
    destruct (get_key_value Z.compare epoch p) as [[k c]|]; [|done]. cbn. by destruct n.
Qed.

(** The pins of open snapshots count them.  Taking a pin adds one snapshot,
    dropping one that is held never panics and removes one, and the oldest pinned
    epoch is the least epoch of an open snapshot, and absent exactly when there is
    none. *)
Theorem version_pins live_epochs p : pins_of live_epochs p →
  (∀ epoch, pins_of (epoch :: live_epochs) (pins_pin epoch p)) ∧
  (∀ epoch rest, live_epochs ≡ₚ epoch :: rest → ∃ p', pins_drop epoch p = Some p' ∧ pins_of rest p') ∧
  match oldest_epoch p with
  | Some o => o ∈ live_epochs ∧ ∀ e, e ∈ live_epochs → o ≤ e
  | None => live_epochs = []
  end.
Proof.
  intros Hp. pose proof Hp as [Hs Hget]. split_and!.
  - intros epoch. by apply pins_pin_ok.
  - intros epoch rest Hperm. apply pins_drop_ok. split; [done|]. intros e. rewrite Hget.
    by rewrite (proj1 (Permutation_count_occ Z.eq_dec _ _) Hperm e).
  - assert (∀ e, e ∈ live_epochs ↔ is_Some (map_get Z.compare e p)) as Hin.
    { intros e. rewrite Hget, list_elem_of_In, (count_occ_In Z.eq_dec). destruct (count_occ Z.eq_dec live_epochs e); split;
        [lia|by intros []|by eexists|lia]. }
    destruct p as [|[o c] p]; cbn.
    + destruct live_epochs as [|e l]; [done|]. destruct (proj1 (Hin e) (list_elem_of_here _ _)) as [? ?]. done.
    + apply key_sorted_cons in Hs as [Hs Hlt]. split.
      * apply Hin. unfold map_get. cbn. rewrite Z.compare_refl. by eexists.
      * intros e [c' He]%Hin. unfold map_get in He. cbn in He. destruct (Z.compare_spec e o); [lia|done|lia].
Qed.

(** Concrete transactions. *)
Module VersionDemo.
Import Calendar CalendarOrder.
#[local] Instance layout : VersionLayout :=
  {| size_of_version_key := 80; size_of_value := 32; size_of_relational_key := 24; size_of_relational_value := 40;
     size_of_overflow_ref := 56; size_of_version_stamp := 16; size_of_version_write := 1 |}.
#[local] Instance layout_laws : VersionLayoutLaws layout.
Proof. by constructor. Qed.

Lemma version_pins_witness : oldest_epoch (pins_pin 3 (pins_pin 7 [])) = Some 3 ∧ pins_of [3; 7] (pins_pin 3 (pins_pin 7 [])).
Proof.
  assert (pins_of [] []) as H0 by (split; [apply Sorted.SSorted_nil|done]).
  split; [done|]. exact (proj1 (version_pins [7] (pins_pin 7 []) (proj1 (version_pins [] [] H0) 7)) 3).
Defined.

Definition node : VersionKey := GraphNode 1.
Definition domain : VersionKey := ReadNodeDomain None.
Definition empty : VersionWriteSet := with_limits 10 10000.
Definition ws1 : VersionWriteSet := match record_live node empty with Ok w => w | Err _ => empty end.
Definition ws2 : VersionWriteSet := match record_live domain ws1 with Ok w => w | Err _ => ws1 end.
Definition idx0 : VersionIndex :=
  {| history_floor := 0; database_barrier := None; read_barrier := None; stamps := cow_default;
     page_leases := []; vi_estimated_bytes := inline_barrier_bytes; max_estimated_bytes := 10000 |}.
(** A budget with room, and one that is full, with every page shared. *)
Definition open_env : history_env := {| shared _ := true; history_budget := {| used := 400; limit := 10000 |} |}.
Definition commit (i : VersionIndex) (ws : VersionWriteSet) (epoch : Z) : VersionIndex :=
  match stage open_env i ws epoch with Some (_, _, Some j) => j | _ => i end.
Definition idx1 : VersionIndex := commit idx0 ws2 5.

Lemma ws1_ok : write_set_ok ws1.
Proof. exact (record_ok node Live empty ws1 (with_limits_ok 10 10000) eq_refl). Qed.
Lemma ws2_ok : write_set_ok ws2.
Proof. exact (record_ok domain Live ws1 ws2 ws1_ok eq_refl). Qed.
Lemma idx0_reachable : vi_reachable [] idx0.
Proof. exact (vr_new 10000 10000 (budget_new 10000) idx0 ltac:(done) eq_refl). Qed.
Lemma before_nothing epoch : 0 ≤ epoch → commits_before epoch [].
Proof. by split. Qed.
Lemma idx1_reachable : vi_reachable [(5, writes ws2)] idx1.
Proof. exact (vr_commit open_env ws2 5 [] idx0 {| used := 592; limit := 10000 |} idx0 idx1 idx0_reachable (before_nothing 5 ltac:(done)) ws2_ok eq_refl). Qed.
Lemma ws1_plain : Forall (λ e, is_read_summary_key e.1 = false) (writes ws1).
Proof. by repeat constructor. Qed.

Lemma version_write_set_witness : write_set_ok ws2 ∧ map_get version_key_cmp node (writes ws2) = Some live.
Proof.
  pose proof (version_write_set domain Live ws1 ws1_ok ltac:(done)) as Hw. change (record_write domain Live ws1) with (Ok (E := VersionWriteSetError) ws2) in Hw.
  exact (conj (proj1 Hw) (proj2 Hw node)).
Defined.

Lemma version_conflict_exact_witness :
  first_conflict idx1 ws1 4 = Some {| conflict_key := node; committed_epoch := 5 |} ∧ first_conflict idx1 ws1 5 = None.
Proof.
  exact (conj (version_conflict_exact _ idx1 ws1 4 idx1_reachable ws1_plain)
    (version_conflict_exact _ idx1 ws1 5 idx1_reachable ws1_plain)).
Defined.

Lemma version_read_invalidation_witness :
  (∃ s, vi_stamp idx1 domain = Some s ∧ 4 < commit_epoch s) ∨ (∃ b, vi_stamp idx1 ReadBarrier = Some b ∧ 4 < commit_epoch b).
Proof.
  exact (version_read_invalidation _ idx1 domain {| commit_epoch := 5; stamp_disposition := Live |} 4 idx1_reachable
    eq_refl ltac:(done)).
Defined.


Lemma version_prune_exact_witness : ∃ b i, prune_before 6 open_env idx1 = Some (b, i) ∧ vi_stamp i node = None.
Proof.
  destruct (version_prune_exact _ idx1 6 open_env idx1_reachable ltac:(by vm_compute)) as (b & i & E & Hex & _).
  exists b, i. split; [exact E|]. exact (Hex eq_refl node).
Defined.
End VersionDemo.
