(* ===== verification/WalValue.v ===== *)
(** Property values in the WAL: the value messages of
    crates/storage/src/wal/binary.rs and wal/binary/value_decode.rs, and the
    limits crates/storage/src/canonical.rs checks before a value is written. *)
From stdpp Require Import sorting.
From S2P Require Import Prelude Ordering Wire Decimal DecimalOrder Values.

Definition MAX_VALUE_DEPTH : Z := 32.

Definition VALUE_FIELD_NULL : Z := 1.
Definition VALUE_FIELD_BOOL : Z := 2.
Definition VALUE_FIELD_INT : Z := 3.
Definition VALUE_FIELD_FLOAT : Z := 4.
Definition VALUE_FIELD_STRING : Z := 5.
Definition VALUE_FIELD_ELEMENT : Z := 6.
Definition VALUE_FIELD_MAP_ENTRY : Z := 7.
Definition VALUE_FIELD_BINARY : Z := 8.
Definition VALUE_FIELD_UUID : Z := 9.
Definition VALUE_FIELD_VECTOR : Z := 10.
Definition VALUE_FIELD_DATE : Z := 11.
Definition VALUE_FIELD_LOCAL_TIME : Z := 12.
Definition VALUE_FIELD_LOCAL_DATETIME : Z := 13.
Definition VALUE_FIELD_DATETIME : Z := 14.
Definition VALUE_FIELD_DURATION : Z := 15.
Definition VALUE_FIELD_DECIMAL : Z := 16.
Definition ENTRY_FIELD_KEY : Z := 1.
Definition ENTRY_FIELD_VALUE : Z := 2.

Definition temporal_value_field (k : TemporalValueKind) : Z :=
  match k with
  | KDate => VALUE_FIELD_DATE
  | KLocalTime => VALUE_FIELD_LOCAL_TIME
  | KLocalDateTime => VALUE_FIELD_LOCAL_DATETIME
  | KDateTime => VALUE_FIELD_DATETIME
  | KDuration => VALUE_FIELD_DURATION
  end.
Definition temporal_value_kind (field : Z) : option TemporalValueKind :=
  List.find (λ k, temporal_value_field k =? field) TemporalValueKind_ALL.

(** [BTreeMap::insert], on the entries in key order. *)
Fixpoint bmap_insert {V} (k : bytes) (v : V) (m : list (bytes * V)) : list (bytes * V) :=
  match m with
  | [] => [(k, v)]
  | (k', v') :: t =>
      match list_cmp Z.compare k k' with
      | Lt => (k, v) :: m
      | Eq => (k', v) :: t
      | Gt => (k', v') :: bmap_insert k v t
      end
  end.

Section Codec.
Context `{C : Chrono}.

(** ** Limits: canonical.rs *)

Definition ensure_depth (depth : Z) : Result () :=
  if MAX_VALUE_DEPTH <? depth then Err (Storage "canonical value nesting exceeds {MAX_VALUE_DEPTH}" []) else Ok ().
Definition u32_len (length : Z) : Result Z :=
  if length <=? u32_max then Ok length else Err (Storage "{name} length exceeds the storage format" []).
Definition u64_add (a b : Z) : Z := saturating_add u64_max a b.

Fixpoint encoded_value_len (v : Value) (depth : Z) : Result Z :=
  let? _ := ensure_depth depth in
  match v with
  | VNull => Ok 1
  | VBool _ => Ok 2
  | VInt _ | VFloat _ => Ok 9
  | VString s => let? _ := u32_len (zlen s) in Ok (1 + 4 + zlen s)
  | VBinary b => let? _ := u32_len (zlen b) in Ok (1 + 4 + zlen b)
  | VVector e => let? _ := u32_len (zlen e) in Ok (1 + 4 + zlen e)
  | VUuid _ => Ok 17
  | VDecimal _ => Ok 18
  | VDate _ | VLocalTime _ | VLocalDateTime _ _ | VDateTime _ _ _ | VDuration _ =>
      Ok (1 + match TemporalValueKind_of v with Some k => payload_len k | None => 0 end)
  | VList l =>
      let? _ := u32_len (zlen l) in
      (fix go (l : list Value) (total : Z) : Result Z :=
         match l with
         | [] => Ok total
         | x :: l => let? n := encoded_value_len x (saturating_add usize_max depth 1) in go l (u64_add total n)
         end) l (1 + 4)
  | VMap m =>
      let? _ := u32_len (zlen m) in
      (fix go (m : list (bytes * Value)) (total : Z) : Result Z :=
         match m with
         | [] => Ok total
         | (k, x) :: m =>
             let? _ := u32_len (zlen k) in
             let? n := encoded_value_len x (saturating_add usize_max depth 2) in
             go m (u64_add (u64_add total (4 + zlen k)) n)
         end) m (1 + 4)
  end.

Definition validate_property_value (v : Value) : Result () :=
  let? _ := encoded_value_len v 1 in Ok ().
Definition validate_wal_value (v : Value) : Result () :=
  map_err (λ _, Storage "WAL value violates canonical storage limits: {error}" []) (validate_property_value v).

(** ** Encoder *)

Fixpoint encode_value_message (v : Value) : bytes :=
  match v with
  | VNull => encode_varint_field VALUE_FIELD_NULL 0
  | VBool b => encode_varint_field VALUE_FIELD_BOOL (if b then 1 else 0)
  | VInt z => encode_varint_field VALUE_FIELD_INT (zigzag_encode_i64 z)
  | VFloat bits => encode_fixed64_field VALUE_FIELD_FLOAT bits
  | VString s => encode_string_field VALUE_FIELD_STRING s
  | VBinary b => encode_len_field VALUE_FIELD_BINARY b
  | VVector e => encode_len_field VALUE_FIELD_VECTOR e
  | VUuid u => encode_len_field VALUE_FIELD_UUID u
  | VDecimal d => encode_len_field VALUE_FIELD_DECIMAL (to_le_bytes d)
  | VDate _ | VLocalTime _ | VLocalDateTime _ _ | VDateTime _ _ _ | VDuration _ =>
      match encode_payload v with
      | Some (kind, payload) => encode_len_field (temporal_value_field kind) payload
      | None => []
      end
  | VList l =>
      List.flat_map (λ x, encode_len_field VALUE_FIELD_ELEMENT (encode_value_message x)) l ++
      match l with [] => encode_len_field VALUE_FIELD_ELEMENT [] | _ => [] end
  | VMap m =>
      List.flat_map (λ kv : bytes * Value,
        encode_len_field VALUE_FIELD_MAP_ENTRY
          (encode_string_field ENTRY_FIELD_KEY kv.1 ++
           encode_len_field ENTRY_FIELD_VALUE (encode_value_message kv.2))) m ++
      match m with [] => encode_len_field VALUE_FIELD_MAP_ENTRY [] | _ => [] end
  end.

(** ** Decoder: value_decode.rs

    The loops stop when the position reaches the end of the message.  Each
    round consumes a tag, and the body of a nested message is shorter than
    what is left, so the length of the message bounds all rounds
    ([decode_value_fuel_enough]). *)

Definition ensure_value_depth (depth : Z) : Result () :=
  if MAX_VALUE_DEPTH <? depth then Err (Storage "WAL value nesting exceeds {MAX_VALUE_DEPTH}" []) else Ok ().
Definition out_of_fuel : HawDBError := Storage "unreachable" [].

(** One field of a value message, given the decoders of nested messages. *)
Definition value_field (nested : bytes → Z → Result Value) (entry : bytes → Z → Result (bytes * Value))
    (bs : bytes) (depth field wire pos : Z) (acc : option Value) : Result (option Value * Z) :=
  let at_field f w := (field =? f) && (wire =? w) in
  if at_field VALUE_FIELD_NULL WIRE_TYPE_VARINT then
    let? (_, pos) := decode_varint_u64 bs pos in Ok (Some VNull, pos)
  else if at_field VALUE_FIELD_BOOL WIRE_TYPE_VARINT then
    let? (x, pos) := decode_varint_u64 bs pos in Ok (Some (VBool (negb (x =? 0))), pos)
  else if at_field VALUE_FIELD_INT WIRE_TYPE_VARINT then
    let? (x, pos) := decode_varint_u64 bs pos in Ok (Some (VInt (zigzag_decode_i64 x)), pos)
  else if at_field VALUE_FIELD_FLOAT WIRE_TYPE_FIXED64 then
    let? (x, pos) := decode_fixed64 bs pos in Ok (Some (VFloat x), pos)
  else if at_field VALUE_FIELD_STRING WIRE_TYPE_LEN then
    let? (s, pos) := decode_string_body bs pos in Ok (Some (VString s), pos)
  else if at_field VALUE_FIELD_BINARY WIRE_TYPE_LEN then
    let? (b, pos) := decode_len_body bs pos in Ok (Some (VBinary b), pos)
  else if at_field VALUE_FIELD_VECTOR WIRE_TYPE_LEN then
    let? (b, pos) := decode_len_body bs pos in
    let? e := validate_vector b in Ok (Some (VVector e), pos)
  else if at_field VALUE_FIELD_DECIMAL WIRE_TYPE_LEN then
    let? (b, pos) := decode_len_body bs pos in
    if negb (zlen b =? ENCODED_LEN) then Err (Storage "WAL Decimal value must contain 17 bytes" [])
    else let? d := map_err (λ _, Storage "{error}" []) (from_le_bytes b) in Ok (Some (VDecimal d), pos)
  else if at_field VALUE_FIELD_UUID WIRE_TYPE_LEN then
    let? (b, pos) := decode_len_body bs pos in
    if negb (zlen b =? 16) then Err (Storage "WAL UUID value must contain 16 bytes" [])
    else Ok (Some (VUuid b), pos)
  else match (if wire =? WIRE_TYPE_LEN then temporal_value_kind field else None) with
  | Some kind =>
      let? (b, pos) := decode_len_body bs pos in
      let? v := map_err (λ _, Storage "WAL {error}" []) (decode_payload kind b) in Ok (Some v, pos)
  | None =>
  if at_field VALUE_FIELD_ELEMENT WIRE_TYPE_LEN then
    let? (body, pos) := decode_len_body bs pos in
    let? l := match acc with
              | Some (VList values) =>
                  if bool_decide (body = []) then Ok values
                  else let? x := nested body (saturating_add usize_max depth 1) in Ok (values ++ [x])
              | _ =>
                  if bool_decide (body = []) then Ok []
                  else let? x := nested body (saturating_add usize_max depth 1) in Ok [x]
              end in
    Ok (Some (VList l), pos)
  else if at_field VALUE_FIELD_MAP_ENTRY WIRE_TYPE_LEN then
    let? (body, pos) := decode_len_body bs pos in
    let map := match acc with Some (VMap values) => values | _ => [] end in
    let? map := if bool_decide (body = []) then Ok map
                else let? (key, x) := entry body (saturating_add usize_max depth 2) in
                     Ok (bmap_insert key x map) in
    Ok (Some (VMap map), pos)
  else let? pos := skip_field bs pos wire in Ok (acc, pos)
  end.

Definition entry_field (nested : bytes → Z → Result Value) (bs : bytes) (depth field wire pos : Z)
    (acc : option bytes * option Value) : Result (option bytes * option Value * Z) :=
  if (field =? ENTRY_FIELD_KEY) && (wire =? WIRE_TYPE_LEN) then
    let? (s, pos) := decode_string_body bs pos in Ok (Some s, acc.2, pos)
  else if (field =? ENTRY_FIELD_VALUE) && (wire =? WIRE_TYPE_LEN) then
    let? (body, pos) := decode_len_body bs pos in
    let? v := nested body depth in Ok (acc.1, Some v, pos)
  else let? pos := skip_field bs pos wire in Ok (acc, pos).

Fixpoint value_loop (fuel : nat) (bs : bytes) (depth pos : Z) (acc : option Value) : Result Value :=
  match fuel with
  | O => Err out_of_fuel
  | S fuel =>
      if zlen bs <=? pos then ok_or acc (Storage "WAL value message is empty" [])
      else
        let nested body depth := let? _ := ensure_value_depth depth in value_loop fuel body depth 0 None in
        let? (field, wire, pos) := decode_tag bs pos in
        let? (acc, pos) := value_field nested (λ body depth, entry_loop fuel body depth 0 (None, None))
                             bs depth field wire pos acc in
        value_loop fuel bs depth pos acc
  end
with entry_loop (fuel : nat) (bs : bytes) (depth pos : Z) (acc : option bytes * option Value)
    : Result (bytes * Value) :=
  match fuel with
  | O => Err out_of_fuel
  | S fuel =>
      if zlen bs <=? pos then
        match acc with
        | (Some key, Some value) => Ok (key, value)
        | _ => Err (Storage "WAL map entry is missing its key or value" [])
        end
      else
        let nested body depth := let? _ := ensure_value_depth depth in value_loop fuel body depth 0 None in
        let? (field, wire, pos) := decode_tag bs pos in
        let? (acc, pos) := entry_field nested bs depth field wire pos acc in
        entry_loop fuel bs depth pos acc
  end.

Definition decode_value (bs : bytes) (depth : Z) : Result Value :=
  let? _ := ensure_value_depth depth in value_loop (S (length bs)) bs depth 0 None.
Definition decode_map_entry (bs : bytes) (value_depth : Z) : Result (bytes * Value) :=
  entry_loop (S (length bs)) bs value_depth 0 (None, None).
End Codec.

(** ** Limits that hold of a validated value *)

Section Limits.
Context `{C : Chrono}.

Lemma ensure_depth_ok depth : is_ok (ensure_depth depth) = true ↔ depth ≤ MAX_VALUE_DEPTH.
Proof. unfold ensure_depth. case_bool; cbn; split; intros; (done || lia). Qed.

Lemma encoded_len_depth v depth : is_ok (encoded_value_len v depth) = true → depth ≤ MAX_VALUE_DEPTH.
Proof. intros Hok. apply ensure_depth_ok. destruct v; cbn in Hok; by destruct (ensure_depth depth). Qed.

Lemma is_ok_bind {A B} (m : Result A) (k : A → Result B) :
  is_ok (result_bind m k) = true → ∃ a, m = Ok a ∧ is_ok (k a) = true.
Proof. destruct m as [a|]; [|done]. by exists a. Qed.

Lemma encoded_len_list l depth :
  is_ok (encoded_value_len (VList l) depth) = true → 0 ≤ depth →
  Forall (λ x, is_ok (encoded_value_len x (depth + 1)) = true) l.
Proof.
  intros Hok H0. pose proof (encoded_len_depth _ _ Hok) as Hd. unfold MAX_VALUE_DEPTH in Hd.
  cbn in Hok. apply is_ok_bind in Hok as (_ & _ & Hok). apply is_ok_bind in Hok as (_ & _ & Hok).
  revert Hok. generalize (1 + 4). assert (saturating_add usize_max depth 1 = depth + 1) as ->
    by (unfold saturating_add, usize_max, u64_max; lia).
  induction l as [|x l IH]; intros total Hok; constructor.
  - by apply is_ok_bind in Hok as (n & -> & _).
  - apply is_ok_bind in Hok as (n & _ & Hok). by apply IH in Hok.
Qed.

Lemma encoded_len_map m depth :
  is_ok (encoded_value_len (VMap m) depth) = true → 0 ≤ depth →
  Forall (λ kv, is_ok (encoded_value_len kv.2 (depth + 2)) = true) m.
Proof.
  intros Hok H0. pose proof (encoded_len_depth _ _ Hok) as Hd. unfold MAX_VALUE_DEPTH in Hd.
  cbn in Hok. apply is_ok_bind in Hok as (_ & _ & Hok). apply is_ok_bind in Hok as (_ & _ & Hok).
  revert Hok. generalize (1 + 4). assert (saturating_add usize_max depth 2 = depth + 2) as ->
    by (unfold saturating_add, usize_max, u64_max; lia).
  induction m as [|[k x] m IH]; intros total Hok; constructor.
  - cbn [snd]. apply is_ok_bind in Hok as (_ & _ & Hok). by apply is_ok_bind in Hok as (n & -> & _).
  - apply is_ok_bind in Hok as (_ & _ & Hok). apply is_ok_bind in Hok as (n & _ & Hok). by apply IH in Hok.
Qed.
End Limits.

(** ** Keys in order *)

Lemma bmap_insert_last {V} k (v : V) (m : list (bytes * V)) :
  Forall (λ kv, list_cmp Z.compare kv.1 k = Lt) m → bmap_insert k v m = m ++ [(k, v)].
Proof.
  induction 1 as [|[k' v'] m Hk _ IH]; [done|]. cbn in *.
  assert (list_cmp Z.compare k k' = Gt) as ->.
  { by apply (ord_gt_lt (list_cmp Z.compare)). }
  by rewrite IH.
Qed.

(** ** Reading back a message *)

Section Roundtrip.
Context `{C : Chrono} `{!ChronoLaws C}.

Definition nested_value (fuel : nat) (body : bytes) (depth : Z) : Result Value :=
  let? _ := ensure_value_depth depth in value_loop fuel body depth 0 None.
Definition nested_entry (fuel : nat) (body : bytes) (depth : Z) : Result (bytes * Value) :=
  entry_loop fuel body depth 0 (None, None).

(** A round of the value loop reads one field. *)
Lemma value_loop_step fuel bs depth pos acc f w rest acc' rest' :
  is_u32 f → 0 ≤ w < 8 → suffix_at bs pos (encode_tag f w ++ rest) →
  (∀ p, suffix_at bs p rest → ∃ p', suffix_at bs p' rest' ∧
     value_field (nested_value fuel) (nested_entry fuel) bs depth f w p acc = Ok (acc', p')) →
  ∃ p', suffix_at bs p' rest' ∧ value_loop (S fuel) bs depth pos acc = value_loop fuel bs depth p' acc'.
Proof.
  intros Hf Hw Hs Hfield. cbn [value_loop].
  rewrite (suffix_at_more _ _ _ Hs).
  2: { pose proof (encode_tag_nonempty f w (proj1 Hf) Hw). by destruct (encode_tag f w). }
  destruct (tag_at _ _ _ _ _ Hf Hw Hs) as (p & -> & Hp). cbn [result_bind].
  destruct (Hfield p Hp) as (p' & Hp' & E). unfold nested_value, nested_entry in E. rewrite E. by exists p'.
Qed.

Lemma value_loop_done fuel bs depth pos v :
  suffix_at bs pos [] → value_loop (S fuel) bs depth pos (Some v) = Ok v.
Proof. intros Hs. cbn [value_loop]. by rewrite (suffix_at_done _ _ Hs). Qed.

Lemma entry_loop_step fuel bs depth pos acc f w rest acc' rest' :
  is_u32 f → 0 ≤ w < 8 → suffix_at bs pos (encode_tag f w ++ rest) →
  (∀ p, suffix_at bs p rest → ∃ p', suffix_at bs p' rest' ∧
     entry_field (nested_value fuel) bs depth f w p acc = Ok (acc', p')) →
  ∃ p', suffix_at bs p' rest' ∧ entry_loop (S fuel) bs depth pos acc = entry_loop fuel bs depth p' acc'.
Proof.
  intros Hf Hw Hs Hfield. cbn [entry_loop].
  rewrite (suffix_at_more _ _ _ Hs).
  2: { pose proof (encode_tag_nonempty f w (proj1 Hf) Hw). by destruct (encode_tag f w). }
  destruct (tag_at _ _ _ _ _ Hf Hw Hs) as (p & -> & Hp). cbn [result_bind].
  destruct (Hfield p Hp) as (p' & Hp' & E). unfold nested_value in E. rewrite E. by exists p'.
Qed.

(** Messages of a single field. *)
Lemma single_field fuel depth f w body v :
  is_u32 f → 0 ≤ w < 8 → zlen (encode_tag f w ++ body) ≤ usize_max →
  (∀ bs p, suffix_at bs p body → ∃ p', suffix_at bs p' [] ∧
     value_field (nested_value (S fuel)) (nested_entry (S fuel)) bs depth f w p None = Ok (Some v, p')) →
  value_loop (S (S fuel)) (encode_tag f w ++ body) depth 0 None = Ok v.
Proof.
  intros Hf Hw Hl Hfield.
  destruct (value_loop_step (S fuel) (encode_tag f w ++ body) depth 0 None f w body (Some v) []) as (p & Hp & ->);
    [done|done|by apply suffix_at_start|by intros; apply Hfield|]. by apply value_loop_done.
Qed.

Lemma field_is_u32 f : 0 ≤ f ≤ 1000 → is_u32 f.
Proof. unfold is_u32. lia. Qed.

(** Evaluates the dispatch on a concrete field. *)
Ltac field_dispatch :=
  cbv beta iota zeta delta [value_field entry_field temporal_value_kind temporal_value_field
    TemporalValueKind_ALL List.find Z.eqb Pos.eqb andb WIRE_TYPE_VARINT WIRE_TYPE_FIXED64 WIRE_TYPE_LEN
    VALUE_FIELD_NULL VALUE_FIELD_BOOL VALUE_FIELD_INT VALUE_FIELD_FLOAT VALUE_FIELD_STRING VALUE_FIELD_ELEMENT
    VALUE_FIELD_MAP_ENTRY VALUE_FIELD_BINARY VALUE_FIELD_UUID VALUE_FIELD_VECTOR VALUE_FIELD_DATE
    VALUE_FIELD_LOCAL_TIME VALUE_FIELD_LOCAL_DATETIME VALUE_FIELD_DATETIME VALUE_FIELD_DURATION
    VALUE_FIELD_DECIMAL ENTRY_FIELD_KEY ENTRY_FIELD_VALUE].

Lemma varint_field_value fuel depth f x v :
  is_u32 f → is_u64 x → zlen (encode_varint_field f x) ≤ usize_max →
  (∀ bs p, value_field (nested_value (S fuel)) (nested_entry (S fuel)) bs depth f WIRE_TYPE_VARINT p None =
     let? (y, p) := decode_varint_u64 bs p in Ok (Some (v y), p)) →
  value_loop (S (S fuel)) (encode_varint_field f x) depth 0 None = Ok (v x).
Proof.
  intros Hf Hx Hl Hd. apply single_field; [done|done|done|]. intros bs p Hp.
  rewrite <- (app_nil_r (encode_varint_u64 x)) in Hp.
  destruct (varint_at _ _ _ _ Hx Hp) as (p' & E & Hp'). exists p'. split; [done|]. by rewrite Hd, E.
Qed.

Lemma len_field_value fuel depth f body v :
  is_u32 f → zlen (encode_len_field f body) ≤ usize_max →
  (∀ bs p p', decode_len_body bs p = Ok (body, p') →
     value_field (nested_value (S fuel)) (nested_entry (S fuel)) bs depth f WIRE_TYPE_LEN p None = Ok (Some v, p')) →
  value_loop (S (S fuel)) (encode_len_field f body) depth 0 None = Ok v.
Proof.
  intros Hf Hl Hd. apply single_field; [done|done|done|]. intros bs p Hp.
  rewrite <- (app_nil_r body) in Hp at 2.
  destruct (len_body_at _ _ _ _ Hp) as (p' & E & Hp'). exists p'. split; [done|]. by apply Hd.
Qed.

Definition is_scalar (v : Value) : Prop := (∀ l, v ≠ VList l) ∧ (∀ m, v ≠ VMap m).

Lemma encode_temporal v k payload :
  encode_payload v = Some (k, payload) →
  encode_value_message v = encode_len_field (temporal_value_field k) payload.
Proof. intros E. by destruct v; cbn in E; simplify_eq; cbn. Qed.

Lemma temporal_field_value fuel depth v k payload :
  value_wf v → encode_payload v = Some (k, payload) →
  zlen (encode_len_field (temporal_value_field k) payload) ≤ usize_max →
  value_loop (S (S fuel)) (encode_len_field (temporal_value_field k) payload) depth 0 None = Ok v.
Proof.
  intros Hwf He Hl. pose proof (decode_encode_payload v k payload Hwf He) as Hd.
  apply len_field_value; [by destruct k|done|]. intros bs p p' E.
  destruct k; field_dispatch; rewrite E; cbn [result_bind]; by rewrite Hd.
Qed.

Lemma scalar_roundtrip v depth fuel :
  is_scalar v → value_wf v → zlen (encode_value_message v) ≤ usize_max →
  value_loop (S (S fuel)) (encode_value_message v) depth 0 None = Ok v.
Proof.
  intros [Hnl Hnm] Hwf Hl. destruct (encode_payload v) as [[k payload]|] eqn:Ep.
  { rewrite (encode_temporal _ _ _ Ep) in *. by apply temporal_field_value. }
  destruct v; cbn [value_wf] in Hwf; try (by destruct (Hnl l)); try (by destruct (Hnm m)); try discriminate Ep;
    clear Ep; cbn [encode_value_message] in *.
  - by apply (varint_field_value fuel depth VALUE_FIELD_NULL 0 (λ _, VNull)).
  - assert (VBool b = VBool (negb ((if b then 1 else 0) =? 0))) as -> by by destruct b.
    apply (varint_field_value fuel depth VALUE_FIELD_BOOL _ (λ x, VBool (negb (x =? 0)))); [done| |done|done].
    destruct b; by split.
  - rewrite <- (zigzag_roundtrip z Hwf) at 2.
    apply (varint_field_value fuel depth VALUE_FIELD_INT _ (λ x, VInt (zigzag_decode_i64 x))); [done| |done|done].
    by apply zigzag_encode_range.
  - apply single_field; [done|done|done|]. intros bs p Hp. rewrite <- (app_nil_r (le_bytes 8 bits)) in Hp.
    destruct (fixed64_at _ _ _ _ Hwf Hp) as (p' & E & Hp'). exists p'. split; [done|]. field_dispatch. by rewrite E.
  - apply len_field_value; [done|done|]. intros bs p p' E. field_dispatch. rewrite E. cbn [result_bind].
    unfold ENCODED_LEN.
    assert (zlen (to_le_bytes d) = 17) as -> by (unfold to_le_bytes, i128_to_le_bytes; by rewrite zlen_app, zlen_le_bytes).
    by rewrite (from_to_le_bytes d Hwf).
  - apply len_field_value; [done|done|]. intros bs p p' E. field_dispatch.
    unfold decode_string_body. rewrite E. cbn [result_bind]. by rewrite Hwf.
  - apply len_field_value; [done|done|]. intros bs p p' E. field_dispatch. by rewrite E.
  - apply len_field_value; [done|done|]. intros bs p p' E. field_dispatch. rewrite E. cbn [result_bind].
    unfold validate_vector. by rewrite Hwf.
  - apply len_field_value; [done|done|]. intros bs p p' E. field_dispatch. rewrite E. cbn [result_bind].
    by rewrite Hwf.
Qed.

(** ** Lists and maps *)

Lemma length_len_field f body :
  0 ≤ f → (2 + length body ≤ length (encode_len_field f body))%nat.
Proof.
  intros Hf. pose proof (encode_tag_zlen f WIRE_TYPE_LEN Hf ltac:(done)).
  pose proof (encode_varint_zlen (zlen body) (zlen_nonneg body)).
  unfold encode_len_field, zlen in *. rewrite !length_app. lia.
Qed.

Lemma encode_nonempty v : encode_value_message v ≠ [].
Proof.
  assert (∀ f body, 0 ≤ f → encode_len_field f body ≠ []) as Hlen.
  { intros f body Hf E. pose proof (length_len_field f body Hf) as H. rewrite E in H. cbn in H. lia. }
  assert (∀ f w body, 0 ≤ f → 0 ≤ w < 8 → encode_tag f w ++ body ≠ []) as Htag.
  { intros f w body Hf Hw E. apply app_eq_nil in E as [E _]. by apply encode_tag_nonempty in E. }
  destruct v as [| | | | | | | | |l|m| | | | |]; try (by apply Htag); try (by apply Hlen).
  - destruct l as [|x l]; [by apply Hlen|]. cbn [encode_value_message List.flat_map]. intros E. apply app_eq_nil in E as [E _].
    apply app_eq_nil in E as [E _]. by apply Hlen in E.
  - destruct m as [|x m]; [by apply Hlen|]. cbn [encode_value_message List.flat_map]. intros E. apply app_eq_nil in E as [E _].
    apply app_eq_nil in E as [E _]. by apply Hlen in E.
Qed.

(** A nested message reads back at [depth] with any fuel above its length. *)
Definition reads_back (depth : Z) (x : Value) : Prop :=
  ∀ fuel, (length (encode_value_message x) < fuel)%nat →
    nested_value fuel (encode_value_message x) depth = Ok x.

Definition element_field (x : Value) : bytes := encode_len_field VALUE_FIELD_ELEMENT (encode_value_message x).

Lemma list_loop l : ∀ before fuel bs depth pos acc,
  0 ≤ depth ≤ MAX_VALUE_DEPTH → Forall (reads_back (depth + 1)) l →
  (acc = Some (VList before) ∨ (acc = None ∧ before = [] ∧ l ≠ [])) →
  suffix_at bs pos (List.flat_map element_field l) → (length (List.flat_map element_field l) < fuel)%nat →
  value_loop fuel bs depth pos acc = Ok (VList (before ++ l)).
Proof.
  induction l as [|x l IH]; intros before fuel bs depth pos acc Hd Hl Hacc Hs Hf.
  { destruct Hacc as [-> |(_ & _ & ?)]; [|done]. destruct fuel; [cbn in Hf; lia|].
    rewrite app_nil_r. by apply value_loop_done. }
  apply Forall_cons in Hl as [Hx Hl]. destruct fuel as [|fuel]; [lia|]. cbn [List.flat_map] in Hs, Hf.
  pose proof (length_len_field VALUE_FIELD_ELEMENT (encode_value_message x) ltac:(done)) as Hlen.
  fold (element_field x) in Hlen. rewrite length_app in Hf.
  unfold element_field at 1, encode_len_field in Hs. rewrite <- !app_assoc in Hs.
  destruct (value_loop_step fuel bs depth pos acc VALUE_FIELD_ELEMENT WIRE_TYPE_LEN _ (Some (VList (before ++ [x])))
              (List.flat_map element_field l) ltac:(done) ltac:(done) Hs) as (p & Hp & ->).
  - intros p Hp. destruct (len_body_at _ _ _ _ Hp) as (p' & E & Hp'). exists p'. split; [done|].
    field_dispatch. rewrite E. cbn [result_bind].
    rewrite (bool_decide_eq_false_2 (encode_value_message x = [])) by apply encode_nonempty.
    assert (saturating_add usize_max depth 1 = depth + 1) as ->.
    { unfold saturating_add, usize_max, u64_max, MAX_VALUE_DEPTH in *. lia. }
    rewrite (Hx fuel) by lia. by destruct Hacc as [-> |(-> & -> & _)].
  - rewrite (IH (before ++ [x])); [by rewrite <- app_assoc|done|done|by left|done|lia].
Qed.

Definition entry_body (kv : bytes * Value) : bytes :=
  encode_string_field ENTRY_FIELD_KEY kv.1 ++ encode_len_field ENTRY_FIELD_VALUE (encode_value_message kv.2).

Lemma entry_roundtrip k x depth fuel :
  utf8_valid k = true → reads_back depth x → zlen (entry_body (k, x)) ≤ usize_max →
  (length (entry_body (k, x)) < fuel)%nat →
  nested_entry fuel (entry_body (k, x)) depth = Ok (k, x).
Proof.
  intros Hk Hx Hz Hf. unfold nested_entry.
  pose proof (length_len_field ENTRY_FIELD_KEY k ltac:(done)) as Hl1.
  pose proof (length_len_field ENTRY_FIELD_VALUE (encode_value_message x) ltac:(done)) as Hl2.
  assert (length (entry_body (k, x)) = length (encode_len_field ENTRY_FIELD_KEY k) +
          length (encode_len_field ENTRY_FIELD_VALUE (encode_value_message x)))%nat as Hl by apply length_app.
  destruct fuel as [|[|[|fuel]]]; [lia..|]. pose proof (suffix_at_start _ Hz) as Hs. unfold entry_body at 2 in Hs.
  cbn [fst snd] in Hs. unfold encode_string_field, encode_len_field in Hs. rewrite <- !app_assoc in Hs.
  destruct (entry_loop_step (S (S fuel)) (entry_body (k, x)) depth 0 (None, None) ENTRY_FIELD_KEY WIRE_TYPE_LEN _
              (Some k, None) (encode_len_field ENTRY_FIELD_VALUE (encode_value_message x))
              ltac:(done) ltac:(done) Hs) as (p & Hp & ->).
  { intros p Hp. destruct (string_body_at _ _ _ _ Hk Hp) as (p' & E & Hp'). exists p'. split; [done|].
    field_dispatch. by rewrite E. }
  destruct (entry_loop_step (S fuel) (entry_body (k, x)) depth p (Some k, None) ENTRY_FIELD_VALUE WIRE_TYPE_LEN
              (encode_varint_u64 (zlen (encode_value_message x)) ++ encode_value_message x ++ [])
              (Some k, Some x) [] ltac:(done) ltac:(done)) as (p' & Hp' & ->).
  { by rewrite app_nil_r. }
  { intros p0 Hp0. destruct (len_body_at _ _ _ _ Hp0) as (p' & E & Hp'). exists p'. split; [done|].
    field_dispatch. rewrite E. cbn [result_bind]. rewrite (Hx (S fuel)) by lia. done. }
  cbn [entry_loop]. by rewrite (suffix_at_done _ _ Hp').
Qed.

Definition map_field (kv : bytes * Value) : bytes := encode_len_field VALUE_FIELD_MAP_ENTRY (entry_body kv).

Lemma map_loop m : ∀ before fuel bs depth pos acc,
  0 ≤ depth ≤ MAX_VALUE_DEPTH →
  Forall (λ kv, utf8_valid kv.1 = true ∧ reads_back (depth + 2) kv.2) m →
  StronglySorted key_before (before ++ m) →
  (acc = Some (VMap before) ∨ (acc = None ∧ before = [] ∧ m ≠ [])) →
  suffix_at bs pos (List.flat_map map_field m) → (length (List.flat_map map_field m) < fuel)%nat →
  value_loop fuel bs depth pos acc = Ok (VMap (before ++ m)).
Proof.
  induction m as [|[k x] m IH]; intros before fuel bs depth pos acc Hd Hm Hsort Hacc Hs Hf.
  { destruct Hacc as [-> |(_ & _ & ?)]; [|done]. destruct fuel; [cbn in Hf; lia|].
    rewrite app_nil_r. by apply value_loop_done. }
  apply Forall_cons in Hm as [[Hk Hx] Hm]. cbn [fst snd] in Hk, Hx. destruct fuel as [|fuel]; [lia|].
  cbn [List.flat_map] in Hs, Hf.
  pose proof (length_len_field VALUE_FIELD_MAP_ENTRY (entry_body (k, x)) ltac:(done)) as Hlen.
  fold (map_field (k, x)) in Hlen. rewrite length_app in Hf.
  assert (zlen (entry_body (k, x)) ≤ usize_max) as Hz.
  { destruct Hs as (pre & -> & _ & Hz). rewrite !zlen_app in Hz. unfold zlen in *. lia. }
  unfold map_field at 1, encode_len_field in Hs. rewrite <- !app_assoc in Hs.
  destruct (value_loop_step fuel bs depth pos acc VALUE_FIELD_MAP_ENTRY WIRE_TYPE_LEN _
              (Some (VMap (before ++ [(k, x)]))) (List.flat_map map_field m) ltac:(done) ltac:(done) Hs)
    as (p & Hp & ->).
  - intros p Hp. destruct (len_body_at _ _ _ _ Hp) as (p' & E & Hp'). exists p'. split; [done|].
    field_dispatch. rewrite E. cbn [result_bind].
    rewrite (bool_decide_eq_false_2 (entry_body (k, x) = [])).
    2: { intros Hnil. apply app_eq_nil in Hnil as [Hnil _].
         pose proof (length_len_field ENTRY_FIELD_KEY k ltac:(done)) as H. unfold encode_string_field in Hnil.
         cbn [fst] in Hnil. rewrite Hnil in H. cbn in H. lia. }
    assert (saturating_add usize_max depth 2 = depth + 2) as ->.
    { unfold saturating_add, usize_max, u64_max, MAX_VALUE_DEPTH in *. lia. }
    rewrite (entry_roundtrip k x (depth + 2) fuel) by (done || lia). cbn [result_bind].
    assert (bmap_insert k x before = before ++ [(k, x)]) as Hins.
    { apply bmap_insert_last. apply Forall_forall. intros kv Hkv.
      apply (StronglySorted_app_1_elem_of key_before before ((k, x) :: m) kv (k, x) Hsort Hkv). by left. }
    destruct Hacc as [-> |(-> & -> & _)]; by rewrite Hins.
  - rewrite (IH (before ++ [(k, x)])); [by rewrite <- app_assoc|done|done|by rewrite <- app_assoc|by left|done|lia].
Qed.

Lemma length_flat_map_elem {A} (f : A → bytes) x l :
  x ∈ l → (length (f x) ≤ length (List.flat_map f l))%nat.
Proof.
  induction l as [|y l IH]; [by intros ?%elem_of_nil|]. cbn. rewrite length_app.
  intros [-> | Hx]%elem_of_cons; [lia|]. specialize (IH Hx). lia.
Qed.

(** A well-formed value within the limits reads back from its message. *)
Lemma value_reads_back v depth :
  value_wf v → 0 ≤ depth → is_ok (encoded_value_len v depth) = true →
  zlen (encode_value_message v) ≤ usize_max → reads_back depth v.
Proof.
  revert depth. induction v as [v Hnl Hnm|l IH|m IH] using Value_ind'; intros depth Hwf H0 Hok Hz fuel Hf.
  all: pose proof (encoded_len_depth _ _ Hok) as Hd; unfold nested_value, ensure_value_depth;
    rewrite (proj2 (Z.ltb_ge _ _)) by done; cbn [result_bind].
  - pose proof (encode_nonempty v) as Hne. destruct fuel as [|[|fuel]]; [lia| |by apply scalar_roundtrip].
    destruct (encode_value_message v); [done|cbn in Hf; lia].
  - apply value_wf_list in Hwf. apply encoded_len_list in Hok; [|done].
    destruct l as [|x l].
    { destruct fuel as [|[|fuel]]; [lia| |].
      2: { apply (len_field_value fuel depth VALUE_FIELD_ELEMENT [] (VList [])); [done|done|].
           intros bs p p' E. field_dispatch. by rewrite E. }
      pose proof (encode_nonempty (VList [])). by destruct (encode_value_message (VList [])); [|cbn in Hf; lia]. }
    assert (encode_value_message (VList (x :: l)) = List.flat_map element_field (x :: l)) as E by apply app_nil_r.
    rewrite E in *. apply (list_loop (x :: l) []); [done| |by right|by apply suffix_at_start|done].
    apply Forall_forall. intros y Hy. rewrite Forall_forall in IH, Hwf, Hok. apply (IH y Hy); [by apply Hwf|lia|by apply Hok|].
    pose proof (length_flat_map_elem element_field y _ Hy) as Hl.
    pose proof (length_len_field VALUE_FIELD_ELEMENT (encode_value_message y) ltac:(done)).
    unfold element_field at 1 in Hl. unfold zlen in *. lia.
  - apply value_wf_map in Hwf as [Hsort Hwf]. apply encoded_len_map in Hok; [|done].
    destruct m as [|kv m].
    { destruct fuel as [|[|fuel]]; [lia| |].
      2: { apply (len_field_value fuel depth VALUE_FIELD_MAP_ENTRY [] (VMap [])); [done|done|].
           intros bs p p' E. field_dispatch. by rewrite E. }
      pose proof (encode_nonempty (VMap [])). by destruct (encode_value_message (VMap [])); [|cbn in Hf; lia]. }
    assert (encode_value_message (VMap (kv :: m)) = List.flat_map map_field (kv :: m)) as E by apply app_nil_r.
    rewrite E in *. apply (map_loop (kv :: m) []); [done| |done|by right|by apply suffix_at_start|done].
    apply Forall_forall. intros [k y] Hy. rewrite Forall_forall in IH, Hwf, Hok.
    destruct (Hwf _ Hy) as [Hk Hwy]. split; [done|]. apply (IH _ Hy); [done|lia|by apply (Hok _ Hy)|].
    pose proof (length_flat_map_elem map_field (k, y) _ Hy) as Hl.
    pose proof (length_len_field VALUE_FIELD_MAP_ENTRY (entry_body (k, y)) ltac:(done)) as H1.
    pose proof (length_len_field ENTRY_FIELD_VALUE (encode_value_message y) ltac:(done)) as H2.
    assert (length (encode_len_field ENTRY_FIELD_VALUE (encode_value_message y)) ≤ length (entry_body (k, y)))%nat as H3
      by (unfold entry_body; rewrite length_app; cbn [snd]; lia).
    fold (map_field (k, y)) in H1. cbn [snd]. unfold zlen in *. lia.
Qed.

Lemma decode_encode_value v :
  value_wf v → validate_property_value v = Ok () → zlen (encode_value_message v) ≤ usize_max →
  decode_value (encode_value_message v) 1 = Ok v.
Proof.
  intros Hwf Hv Hz. unfold validate_property_value in Hv. apply (value_reads_back v 1); [done|lia| |done|lia].
  by destruct (encoded_value_len v 1).
Qed.
End Roundtrip.

(** ** Termination: the length of a message is fuel enough *)

Section Fuel.
Context `{C : Chrono}.

Lemma decode_len_bounds bs p body p' :
  Forall is_byte bs → 0 ≤ p → decode_len_body bs p = Ok (body, p') →
  p < p' ≤ zlen bs ∧ zlen body ≤ zlen bs - p ∧ Forall is_byte body.
Proof.
  intros HF Hp. unfold decode_len_body. destruct (decode_varint_u64 bs p) as [[n q]|] eqn:E; [|done].
  apply decode_varint_bounds in E as (Hn & Hq & Hl); [|done]. unfold is_u64 in Hn. cbn [result_bind].
  destruct (checked_end bs q n) as [e|] eqn:Ee; [|done]. apply checked_end_Some in Ee as [-> He].
  cbn [ok_or result_bind]. intros [= <- <-]. split; [lia|]. split; [|by apply is_byte_zslice].
  rewrite zlen_zslice by lia. lia.
Qed.
Lemma decode_fixed64_bounds bs p v p' : decode_fixed64 bs p = Ok (v, p') → p' = p + 8 ∧ p' ≤ zlen bs.
Proof.
  unfold decode_fixed64. destruct (checked_end bs p 8) as [e|] eqn:Ee; [|done].
  apply checked_end_Some in Ee as [-> He]. by intros [= <- <-].
Qed.
Lemma decode_tag_bounds bs p f w p' :
  Forall is_byte bs → decode_tag bs p = Ok (f, w, p') → p < p' ≤ zlen bs.
Proof.
  intros HF. unfold decode_tag. destruct (decode_varint_u64 bs p) as [[n q]|] eqn:E; [|done].
  apply decode_varint_bounds in E as (_ & Hq & Hl); [|done]. cbn [result_bind]. case_bool; [|done].
  intros [= <- <- <-]. lia.
Qed.
Lemma skip_field_bounds bs p w p' :
  Forall is_byte bs → 0 ≤ p → skip_field bs p w = Ok p' → p < p' ≤ zlen bs.
Proof.
  intros HF Hp. unfold skip_field. repeat case_bool; [..|done].
  - destruct (decode_varint_u64 bs p) as [[x q]|] eqn:E; [|done].
    apply decode_varint_bounds in E as (_ & Hq & Hl); [|done]. intros [= <-]. lia.
  - destruct (decode_fixed64 bs p) as [[x q]|] eqn:E; [|done]. apply decode_fixed64_bounds in E. intros [= <-]. lia.
  - destruct (decode_len_body bs p) as [[x q]|] eqn:E; [|done]. apply decode_len_bounds in E; [|done..].
    intros [= <-]. lia.
Qed.

Lemma decode_string_bounds bs p body p' :
  Forall is_byte bs → 0 ≤ p → decode_string_body bs p = Ok (body, p') → p < p' ≤ zlen bs.
Proof.
  intros HF Hp. unfold decode_string_body. destruct (decode_len_body bs p) as [[b q]|] eqn:E; [|done].
  apply decode_len_bounds in E as (Hq & _); [|done..]. cbn [result_bind]. destruct (utf8_valid b); [|done].
  by intros [= _ <-].
Qed.

(** Fields call the nested decoders on shorter messages only. *)
Lemma value_field_ext n1 n2 e1 e2 bs depth f w p acc :
  Forall is_byte bs → 0 ≤ p →
  (∀ body d, Forall is_byte body → zlen body ≤ zlen bs - p → n1 body d = n2 body d) →
  (∀ body d, Forall is_byte body → zlen body ≤ zlen bs - p → e1 body d = e2 body d) →
  value_field n1 e1 bs depth f w p acc = value_field n2 e2 bs depth f w p acc.
Proof.
  intros HF Hp Hn He. unfold value_field. cbv zeta.
  do 9 (match goal with |- context [if ?b && ?c then _ else _] => destruct (b && c); [reflexivity|] end).
  destruct (if _ =? _ then temporal_value_kind f else None); [reflexivity|].
  match goal with |- context [if ?b && ?c then _ else _] => destruct (b && c) end.
  - destruct (decode_len_body bs p) as [[body q]|] eqn:E; [|done]. cbn [result_bind].
    apply decode_len_bounds in E as (_ & Hb & HFb); [|done..]. by rewrite !Hn by done.
  - match goal with |- context [if ?b && ?c then _ else _] => destruct (b && c) end; [|done].
    destruct (decode_len_body bs p) as [[body q]|] eqn:E; [|done]. cbn [result_bind].
    apply decode_len_bounds in E as (_ & Hb & HFb); [|done..]. by rewrite !He by done.
Qed.

Lemma value_field_moves n e bs depth f w p acc acc' p' :
  Forall is_byte bs → 0 ≤ p → value_field n e bs depth f w p acc = Ok (acc', p') → p ≤ p' ≤ zlen bs.
Proof.
  intros HF Hp. unfold value_field. cbv zeta.
  repeat match goal with
  | |- context [if ?b && ?c then _ else _] => destruct (b && c)
  | |- context [if _ =? _ then temporal_value_kind f else None] =>
      destruct (if _ =? _ then temporal_value_kind f else None)
  end.
  all: intros Hres; apply result_bind_ok in Hres as (r & E & Hres); repeat case_match; simplify_eq/=.
  all: repeat match goal with Hres : result_bind _ _ = Ok _ |- _ => apply result_bind_ok in Hres as (? & _ & Hres) end.
  all: simplify_eq/=.
  all: first [apply decode_varint_bounds in E; [lia|done] | apply decode_fixed64_bounds in E; lia
    | apply decode_string_bounds in E; [lia|done..] | apply decode_len_bounds in E; [lia|done..]
    | apply skip_field_bounds in E; [lia|done..]].
Qed.

Lemma entry_field_ext n1 n2 bs depth f w p acc :
  Forall is_byte bs → 0 ≤ p →
  (∀ body d, Forall is_byte body → zlen body ≤ zlen bs - p → n1 body d = n2 body d) →
  entry_field n1 bs depth f w p acc = entry_field n2 bs depth f w p acc.
Proof.
  intros HF Hp Hn. unfold entry_field. destruct (_ && _); [done|]. destruct (_ && _); [|done].
  destruct (decode_len_body bs p) as [[body q]|] eqn:E; [|done]. cbn [result_bind].
  apply decode_len_bounds in E as (_ & Hb & HFb); [|done..]. by rewrite Hn.
Qed.
Lemma entry_field_moves n bs depth f w p acc acc' p' :
  Forall is_byte bs → 0 ≤ p → entry_field n bs depth f w p acc = Ok (acc', p') → p ≤ p' ≤ zlen bs.
Proof.
  intros HF Hp. unfold entry_field. destruct (_ && _); [|destruct (_ && _)].
  all: intros Hres; apply result_bind_ok in Hres as (r & E & Hres); repeat case_match; simplify_eq/=.
  - apply decode_string_bounds in E; [lia|done..].
  - apply result_bind_ok in Hres as (v & _ & [= _ <-]). apply decode_len_bounds in E; [lia|done..].
  - apply skip_field_bounds in E; [lia|done..].
Qed.

(** Above the number of bytes left, the fuel does not matter. *)
Lemma value_fuel_enough f1 : ∀ f2 bs depth pos,
  Forall is_byte bs → 0 ≤ pos ≤ zlen bs → zlen bs - pos < Z.of_nat f1 → zlen bs - pos < Z.of_nat f2 →
  (∀ acc, value_loop f1 bs depth pos acc = value_loop f2 bs depth pos acc) ∧
  (∀ acc, entry_loop f1 bs depth pos acc = entry_loop f2 bs depth pos acc).
Proof.
  induction f1 as [|f1 IH]; intros f2 bs depth pos HF Hpos H1 H2.
  all: destruct f2 as [|f2].
  1-3: exfalso; lia.
  assert (∀ p body d, pos < p → Forall is_byte body → zlen body ≤ zlen bs - p →
    (let? _ := ensure_value_depth d in value_loop f1 body d 0 None) =
    (let? _ := ensure_value_depth d in value_loop f2 body d 0 None)) as Hn.
  { intros p body d Hp HFb Hb. destruct (ensure_value_depth d); [|done]. cbn. apply (IH f2 body d 0); [done|pose proof (zlen_nonneg body); lia..]. }
  split; intros acc; cbn [value_loop entry_loop]; (destruct (zlen bs <=? pos); [done|]);
    (destruct (decode_tag bs pos) as [[[f w] p]|] eqn:Et; [|done]); cbn [result_bind];
    pose proof (decode_tag_bounds _ _ _ _ _ HF Et) as Hp.
  - rewrite (value_field_ext _ (λ body depth0, let? _ := ensure_value_depth depth0 in value_loop f2 body depth0 0 None)
              _ (λ body depth0, entry_loop f2 body depth0 0 (None, None))).
    2,3: first [done|lia].
    2: { intros body d HFb Hb. apply (Hn p); [lia|done|lia]. }
    2: { intros body d HFb Hb. apply (IH f2 body d 0); [done|pose proof (zlen_nonneg body); lia..]. }
    destruct (value_field _ _ bs depth f w p acc) as [[acc' p']|] eqn:Ef; [|done]. cbn [result_bind].
    apply value_field_moves in Ef; [|done|lia]. apply (IH f2 bs depth p'); [done|lia..].
  - rewrite (entry_field_ext _ (λ body depth0, let? _ := ensure_value_depth depth0 in value_loop f2 body depth0 0 None)).
    2,3: first [done|lia].
    2: { intros body d HFb Hb. apply (Hn p); [lia|done|lia]. }
    destruct (entry_field _ bs depth f w p acc) as [[acc' p']|] eqn:Ef; [|done]. cbn [result_bind].
    apply entry_field_moves in Ef; [|done|lia]. apply (IH f2 bs depth p'); [done|lia..].
Qed.

(** The error of an exhausted fuel is none of the decoder's own errors. *)
Definition fueled {A} (m : Result A) : Prop := m ≠ Err out_of_fuel.

Lemma fueled_bind {A B} (m : Result A) (k : A → Result B) :
  fueled m → (∀ a, m = Ok a → fueled (k a)) → fueled (result_bind m k).
Proof. unfold fueled. destruct m; cbn; [auto|congruence]. Qed.
Lemma fueled_map_err {A E} (m : result A E) text args :
  text ≠ "unreachable"%string → fueled (map_err (λ _, Storage text args) m).
Proof. unfold fueled, out_of_fuel. by destruct m; cbn; congruence. Qed.
Lemma fueled_ok_or {A} (o : option A) text args :
  text ≠ "unreachable"%string → fueled (ok_or o (Storage text args)).
Proof. unfold fueled, out_of_fuel. by destruct o; cbn; congruence. Qed.

Lemma decode_varint_loop_fueled n bs p x y : fueled (decode_varint_loop n bs p x y).
Proof.
  revert p x y. induction n as [|n IH]; intros p x y; [done|]. cbn [decode_varint_loop].
  apply fueled_bind; [by apply fueled_ok_or|intros b _]. cbv zeta.
  destruct (_ && _); [done|]. destruct (_ =? _); [done|apply IH].
Qed.
Lemma decode_varint_fueled bs p : fueled (decode_varint_u64 bs p).
Proof. apply decode_varint_loop_fueled. Qed.
Lemma decode_tag_fueled bs p : fueled (decode_tag bs p).
Proof. apply fueled_bind; [apply decode_varint_fueled|intros [x q] _]. cbv zeta. by destruct (_ <=? _). Qed.
Lemma decode_fixed64_fueled bs p : fueled (decode_fixed64 bs p).
Proof. apply fueled_bind; [by apply fueled_ok_or|done]. Qed.
Lemma decode_len_fueled bs p : fueled (decode_len_body bs p).
Proof. apply fueled_bind; [apply decode_varint_fueled|intros [x q] _]. apply fueled_bind; [by apply fueled_ok_or|done]. Qed.
Lemma decode_string_fueled bs p : fueled (decode_string_body bs p).
Proof. apply fueled_bind; [apply decode_len_fueled|intros [x q] _]. by destruct (utf8_valid x). Qed.
Lemma skip_field_fueled bs p w : fueled (skip_field bs p w).
Proof.
  unfold skip_field. repeat case_bool; [..|done]; (apply fueled_bind; [|by intros [??] _]).
  - apply decode_varint_fueled.
  - apply decode_fixed64_fueled.
  - apply decode_len_fueled.
Qed.
Lemma validate_vector_fueled b : fueled (validate_vector b).
Proof. by apply fueled_map_err. Qed.
Lemma ensure_value_depth_fueled d : fueled (ensure_value_depth d).
Proof. unfold ensure_value_depth. by case_match. Qed.

#[local] Hint Resolve decode_varint_fueled decode_tag_fueled decode_fixed64_fueled decode_len_fueled decode_string_fueled
  skip_field_fueled validate_vector_fueled ensure_value_depth_fueled : fueled.

Lemma value_field_fueled n e bs depth f w p acc :
  Forall is_byte bs → 0 ≤ p →
  (∀ body d, Forall is_byte body → zlen body ≤ zlen bs - p → fueled (n body d)) →
  (∀ body d, Forall is_byte body → zlen body ≤ zlen bs - p → fueled (e body d)) →
  fueled (value_field n e bs depth f w p acc).
Proof.
  intros HF Hp Hn He. unfold value_field. cbv zeta.
  repeat match goal with
  | |- context [if ?b && ?c then _ else _] => destruct (b && c)
  | |- context [if _ =? _ then temporal_value_kind f else None] =>
      destruct (if _ =? _ then temporal_value_kind f else None)
  end.
  all: apply fueled_bind; [auto with fueled|intros r Hr].
  all: repeat case_match; subst; try done.
  all: apply fueled_bind; [|done]; auto with fueled; try by apply fueled_map_err.
  all: apply decode_len_bounds in Hr as (_ & Hb & HFb); [|done..].
  all: repeat case_match; try done; (apply fueled_bind; [by auto|]); by intros; repeat case_match.
Qed.
Lemma entry_field_fueled n bs depth f w p acc :
  Forall is_byte bs → 0 ≤ p →
  (∀ body d, Forall is_byte body → zlen body ≤ zlen bs - p → fueled (n body d)) →
  fueled (entry_field n bs depth f w p acc).
Proof.
  intros HF Hp Hn. unfold entry_field. destruct (_ && _); [|destruct (_ && _)].
  all: apply fueled_bind; [auto with fueled|intros r Hr]; repeat case_match; subst; try done.
  apply fueled_bind; [|done]. apply decode_len_bounds in Hr as (_ & Hb & HFb); [|done..]. by apply Hn.
Qed.

(** Above the number of bytes left, the loops return a result of their own. *)
Lemma loops_fueled fuel : ∀ bs depth pos,
  Forall is_byte bs → 0 ≤ pos ≤ zlen bs → zlen bs - pos < Z.of_nat fuel →
  (∀ acc, fueled (value_loop fuel bs depth pos acc)) ∧ (∀ acc, fueled (entry_loop fuel bs depth pos acc)).
Proof.
  induction fuel as [|fuel IH]; intros bs depth pos HF Hpos Hf; [lia|].
  assert (∀ p body d, pos < p → Forall is_byte body → zlen body ≤ zlen bs - p →
    fueled (let? _ := ensure_value_depth d in value_loop fuel body d 0 None) ∧
    fueled (entry_loop fuel body d 0 (None, None))) as Hn.
  { intros p body d Hp HFb Hb. pose proof (zlen_nonneg body). split; [apply fueled_bind; [auto with fueled|intros _ _]|];
      apply (IH body d 0); (done || lia). }
  split; intros acc; cbn [value_loop entry_loop]; (destruct (zlen bs <=? pos);
    [by first [apply fueled_ok_or | repeat case_match]|]);
    (apply fueled_bind; [auto with fueled|intros [[f w] p] Et]);
    pose proof (decode_tag_bounds _ _ _ _ _ HF Et) as Hp.
  - apply fueled_bind.
    + apply value_field_fueled; [done|lia|intros; apply (Hn p); (done || lia)..].
    + intros [acc' p'] Ef. apply value_field_moves in Ef; [|done|lia]. apply (IH bs depth p'); (done || lia).
  - apply fueled_bind.
    + apply entry_field_fueled; [done|lia|intros; apply (Hn p); (done || lia)].
    + intros [acc' p'] Ef. apply entry_field_moves in Ef; [|done|lia]. apply (IH bs depth p'); (done || lia).
Qed.

Lemma decode_value_fuel_enough bs depth fuel :
  Forall is_byte bs → zlen bs < Z.of_nat fuel →
  decode_value bs depth = let? _ := ensure_value_depth depth in value_loop fuel bs depth 0 None.
Proof.
  intros HF Hf. unfold decode_value. destruct (ensure_value_depth depth); [|done]. cbn [result_bind].
  apply value_fuel_enough; [done|pose proof (zlen_nonneg bs); lia|unfold zlen in *; lia|lia].
Qed.
End Fuel.

(** ** Properties *)

Section Claims.
Context `{C : Chrono} `{!ChronoLaws C}.

(** Property values survive the WAL.  A well-formed value that passes the
    validation before writing decodes from its value message to itself, nested
    lists and maps, temporal payloads and exact decimals included. *)
Theorem wal_value_roundtrip v :
  value_wf v → validate_wal_value v = Ok () → zlen (encode_value_message v) ≤ usize_max →
  decode_value (encode_value_message v) 1 = Ok v.
Proof.
  intros Hwf Hv. apply decode_encode_value; [done|]. unfold validate_wal_value in Hv.
  by destruct (validate_property_value v) as [[]|].
Qed.

(** Decoding a value terminates on every input.  Whatever bytes a message
    holds, valid or corrupt, the decoder's rounds and its nested calls are
    bounded by the length of the message: with that much fuel it returns a value
    or an error of its own, and more fuel does not change the result. *)
Theorem wal_value_total bs depth fuel :
  Forall is_byte bs → zlen bs < Z.of_nat fuel →
  (let? _ := ensure_value_depth depth in value_loop fuel bs depth 0 None) = decode_value bs depth ∧
  decode_value bs depth ≠ Err out_of_fuel.
Proof.
  intros HF Hf. split; [by rewrite (decode_value_fuel_enough bs depth fuel)|].
  apply fueled_bind; [apply ensure_value_depth_fueled|intros _ _].
  apply loops_fueled; [done|pose proof (zlen_nonneg bs); lia|unfold zlen; lia].
Qed.
End Claims.

Module ValueDemo.
Import Calendar.
Definition sample : Value :=
  VMap [([97], VList [VInt (-3); VNull; VList []]); ([98], VDecimal {| coefficient := -125; scale := 2 |})].

Lemma wal_value_roundtrip_witness : decode_value (encode_value_message sample) 1 = Ok sample.
Proof.
  apply (wal_value_roundtrip sample); [|by vm_compute|by vm_compute].
  cbn. split_and!; try done; [|by vm_compute..]. repeat constructor.
Defined.

Lemma wal_value_total_witness :
  (let? _ := ensure_value_depth 1 in value_loop 100 (encode_value_message sample) 1 0 None) =
  decode_value (encode_value_message sample) 1 ∧
  decode_value (encode_value_message sample) 1 ≠ Err out_of_fuel.
Proof.
  assert (Forall is_byte (encode_value_message sample)) as HF.
  { apply (bool_decide_unpack (Forall (λ z, 0 ≤ z < 256) _)). by vm_compute. }
  assert (zlen (encode_value_message sample) < Z.of_nat 100) as Hl by by vm_compute.
  exact (wal_value_total (encode_value_message sample) 1 100 HF Hl).
Defined.
End ValueDemo.
