(* ===== verification/TextCodec.v ===== *)
(** The text encoding of values and schema enums: crates/storage/src/text.rs
    and crates/storage/src/text/value_decode.rs, with the ordinary decoder.

    A UUID is printed and parsed by the uuid crate: [UuidText] names the two
    functions and [UuidTextLaws] what their documentation says. *)
From Stdlib Require Import Sorted.
From stdpp Require Import sorting.
From S2P Require Import Prelude Ordering Integrity Decimal DecimalText Text Values TemporalText DurationText WalValue.

Inductive TableKind := KindNode | KindRelationship.
Inductive PropertyType := PAny | PBool | PInt | PFloat | PString | PText | PListType | PVector (dimension : Z).
Inductive SchemaObjectState := DeleteOnly | WriteOnly | Backfill | Validating | Public | Gc.

Class UuidText := {
  (** [Display], hyphenated lower-case hexadecimal. *)
  uuid_to_string : bytes → bytes;
  Uuid_parse_str : bytes → option bytes;
}.
Class UuidTextLaws (U : UuidText) : Prop := {
  uuid_roundtrip u : zlen u = 16 → Forall is_byte u → Uuid_parse_str (uuid_to_string u) = Some u;
  uuid_chars u : zlen u = 16 → Forall is_byte u → Forall (λ b, is_digit b || ((97 <=? b) && (b <=? 102)) || (b =? 45) = true) (uuid_to_string u);
}.

(** ** Hexadecimal *)

Definition encode_bytes (input : bytes) : bytes := flat_map hex_byte input.
Definition encode_string (input : bytes) : bytes := encode_bytes input.

(** The loop over the offsets; a pair that is not on character boundaries has a
    byte that is no digit, and fails alike. *)
Fixpoint decode_bytes_loop (input : bytes) (offset : Z) : Result bytes :=
  match input with
  | hi :: lo :: rest =>
      let? byte := ok_or (u8_from_hex hi lo) (Storage "invalid hex string at byte offset {offset}" [offset]) in
      let? bs := decode_bytes_loop rest (offset + 2) in
      Ok (byte :: bs)
  | _ => Ok []
  end.
Definition decode_bytes (input : bytes) : Result bytes :=
  if zlen input mod 2 =? 0 then decode_bytes_loop input 0
  else Err (Storage "invalid hex string length: {}" [zlen input]).
Definition decode_string (input : bytes) : Result bytes :=
  let? bs := decode_bytes input in
  if utf8_valid bs then Ok bs else Err (Storage "{utf8 error}" []).

Definition decode_hex_digit (digit : Z) : Result Z :=
  if (48 <=? digit) && (digit <=? 57) then Ok (digit - 48)
  else if (97 <=? digit) && (digit <=? 102) then Ok (digit - 97 + 10)
  else if (65 <=? digit) && (digit <=? 70) then Ok (digit - 65 + 10)
  else Err (Storage "binary value contains invalid hex digit {:?}" [digit]).
Fixpoint decode_hex_pairs (input : bytes) : Result bytes :=
  match input with
  | hi :: lo :: rest =>
      let? high := decode_hex_digit hi in
      let? low := decode_hex_digit lo in
      let? bs := decode_hex_pairs rest in
      Ok (Z.lor (Z.shiftl high 4) low :: bs)
  | _ => Ok []
  end.
Definition decode_hex_bytes (input : bytes) : Result bytes :=
  if zlen input mod 2 =? 0 then decode_hex_pairs input
  else Err (Storage "binary value has an odd number of hex digits" []).

(** ** Integers *)

Definition parse_u64 (input : bytes) (name : string) : Result Z :=
  ok_or (parse_unsigned u64_max input) (Storage (String.app "invalid {name}: {input}" name) input).
Definition parse_u32 (input : bytes) (name : string) : Result Z :=
  ok_or (parse_unsigned u32_max input) (Storage (String.app "invalid {name}: {input}" name) input).
Definition parse_usize (input : bytes) (name : string) : Result Z :=
  ok_or (parse_unsigned usize_max input) (Storage (String.app "invalid {name}: {input}" name) input).
Definition parse_i64 (input : bytes) (name : string) : Result Z :=
  ok_or (parse_signed i64_min i64_max input) (Storage (String.app "invalid {name}: {input}" name) input).

(** ** Lists *)

(** [iter().map(f).collect::<Result<Vec<_>>>()]: the first error stops. *)
Fixpoint try_map {A B E} (f : A → result B E) (l : list A) : result (list B) E :=
  match l with
  | [] => Ok []
  | x :: l => let? y := f x in let? ys := try_map f l in Ok (y :: ys)
  end.

Definition encode_string_vec (values : list bytes) : bytes := join 58 (encode_string <$> values).
Definition decode_string_vec (input : bytes) : Result (list bytes) :=
  match input with [] => Ok [] | _ => try_map decode_string (split_on 58 input) end.

Definition encode_u64_vec (values : list Z) : bytes := join 44 (print_u128 <$> values).
Definition decode_u64_vec (input : bytes) (name : string) : Result (list Z) :=
  match input with [] => Ok [] | _ => try_map (λ value, parse_u64 value name) (split_on 44 input) end.

(** ** Values *)

Section Codec.
Context {C : Chrono} {F : ChronoFields C} {U : UuidText}.

Definition temporal_text_tag (value : Value) : option Z :=
  match value with
  | VDate _ => Some 68
  | VLocalTime _ => Some 84
  | VLocalDateTime _ _ => Some 76
  | VDateTime _ _ _ => Some 90
  | VDuration _ => Some 80
  | _ => None
  end.

(** [Display] of a temporal value (crates/core/src/value.rs). *)
Definition temporal_to_string (value : Value) : bytes :=
  match value with
  | VDate d => format_date d
  | VLocalTime t => format_local_time t
  | VLocalDateTime d t => format_local_datetime (d, t)
  | VDateTime d t o => format_datetime (d, t) o
  | VDuration d => write_duration d
  | _ => []
  end.

Fixpoint encode_value (value : Value) : bytes :=
  match value with
  | VNull => [110]
  | VBool b => [98; if b then 49 else 48]
  | VInt z => 105 :: print_signed z
  | VDecimal d => 100 :: Decimal_to_string d
  | VFloat bits => 102 :: print_u128 bits
  | VString s => 115 :: encode_string s
  | VUuid u => 117 :: uuid_to_string u
  | VDate _ | VLocalTime _ | VLocalDateTime _ _ | VDateTime _ _ _ | VDuration _ =>
      default 0 (temporal_text_tag value) :: temporal_to_string value
  | VVector e => 118 :: encode_bytes e
  | VBinary b => 120 :: encode_bytes b
  | VList values => 108 :: join 44 ((λ v, encode_string (encode_value v)) <$> values)
  | VMap values => 109 :: join 59 ((λ kv : bytes * Value, encode_string kv.1 ++ 61 :: encode_string (encode_value kv.2)) <$> values)
  end.

(** A [TemporalError] as a storage error; a panic is none. *)
Definition temporal_storage_error (e : TemporalFault) : HawDBError :=
  match e with
  | TemporalMessage message input => Storage (String.app "invalid encoded temporal value: " message) input
  | Panicked => Panic "byte index is not a char boundary"
  end.

Definition decode_temporal (kind : Z) (rest : bytes) : Result Value :=
  let? decoded :=
    map_err temporal_storage_error
      (if kind =? 68 then let? d := parse_date rest in Ok (VDate d)
       else if kind =? 84 then let? t := parse_local_time rest in Ok (VLocalTime t)
       else if kind =? 76 then let? (d, t) := parse_local_datetime rest in Ok (VLocalDateTime d t)
       else if kind =? 90 then let? (d, t, o) := parse_datetime rest in Ok (VDateTime d t o)
       else let? d := parse_duration rest in Ok (VDuration d)) in
  if bool_decide (temporal_to_string decoded = rest) then Ok decoded
  else Err (Storage "non-canonical encoded temporal value: {kind}{rest}" (kind :: rest)).

(** The map items in the order of the text, inserted into the map one by one. *)
Fixpoint decode_map_items (decode : bytes → Result Value) (items : list bytes) (values : list (bytes * Value))
    : Result (list (bytes * Value)) :=
  match items with
  | [] => Ok values
  | item :: items =>
      let? (key, encoded) := ok_or (split_once 61 item) (Storage "invalid encoded map item: {item}" item) in
      let? key := decode_string key in
      let? text := decode_string encoded in
      let? value := decode text in
      decode_map_items decode items (bmap_insert key value values)
  end.

Definition decode_list_items (decode : bytes → Result Value) (items : list bytes) : Result (list Value) :=
  try_map (λ item, let? text := decode_string item in decode text) items.

(** [value_decode::decode], its recursive calls being [decode]. *)
Definition decode_step (decode : bytes → Result Value) (input : bytes) : Result Value :=
  match input with
  | [] => Err (Storage "empty encoded value" [])
  | kind :: rest =>
      if negb (is_char_boundary input 1) then Err (Storage "invalid encoded value tag" [])
      else if (kind =? 110) && (zlen rest =? 0) then Ok VNull
      else if kind =? 98 then
        if bool_decide (rest = [48]) then Ok (VBool false)
        else if bool_decide (rest = [49]) then Ok (VBool true)
        else Err (Storage "invalid bool value: {input}" input)
      else if kind =? 105 then let? z := parse_i64 rest "integer value" in Ok (VInt z)
      else if kind =? 100 then
        let? d := map_err (λ _, Storage "{decimal error}" []) (Decimal_from_str rest) in Ok (VDecimal d)
      else if kind =? 102 then let? bits := parse_u64 rest "float value" in Ok (VFloat bits)
      else if kind =? 115 then let? s := decode_string rest in Ok (VString s)
      else if kind =? 117 then
        let? u := ok_or (Uuid_parse_str rest) (Storage "invalid UUID value: {error}" []) in Ok (VUuid u)
      else if kind =? 120 then let? b := decode_hex_bytes rest in Ok (VBinary b)
      else if kind =? 118 then
        let? b := decode_hex_bytes rest in let? e := validate_vector b in Ok (VVector e)
      else if one_of [68; 84; 76; 90; 80] kind then decode_temporal kind rest
      else if kind =? 108 then
        let? values := match rest with [] => Ok [] | _ => decode_list_items decode (split_on 44 rest) end in
        Ok (VList values)
      else if kind =? 109 then
        let? values := match rest with [] => Ok [] | _ => decode_map_items decode (split_on 59 rest) [] end in
        Ok (VMap values)
      else Err (Storage "invalid encoded value tag or payload: {kind:?}" [kind])
  end.
(** The depth of the recursion is bounded by [fuel]. *)
Fixpoint decode_fuel (fuel : nat) (input : bytes) : Result Value :=
  match fuel with
  | O => Err (Storage "recursion bound" [])
  | S fuel => decode_step (decode_fuel fuel) input
  end.
(** Each level halves the text. *)
Definition decode_depth (input : bytes) : nat := S (Nat.log2 (S (length input))).
Definition decode_value (input : bytes) : Result Value := decode_fuel (decode_depth input) input.

Definition encode_value_vec (values : list Value) : bytes := join 58 ((λ v, encode_string (encode_value v)) <$> values).
Definition decode_value_vec (input : bytes) : Result (list Value) :=
  match input with
  | [] => Ok []
  | _ => try_map (λ value, let? text := decode_string value in decode_value text) (split_on 58 input)
  end.

(** ** Properties *)

Definition encode_properties (properties : list (bytes * Value)) : bytes :=
  join 59 ((λ kv : bytes * Value, encode_string kv.1 ++ 61 :: encode_value kv.2) <$> properties).

(** The peek of the map continuation: what follows the first [=] starts with [6] or [7]. *)
Definition continues_map (next : bytes) : bool :=
  match split_once 61 next with Some (_, b :: _) => one_of [54; 55] b | _ => false end.
(** The pairs of the continuation and the rest. *)
Fixpoint take_continuation (pairs : list bytes) : list bytes * list bytes :=
  match pairs with
  | next :: pairs =>
      if continues_map next then let (taken, rest) := take_continuation pairs in (next :: taken, rest)
      else ([], next :: pairs)
  | [] => ([], [])
  end.
(** The loop over the pairs of [input.split(';')]; [input[value_start..value_end]]
    is the value of the pair and the pairs of its continuation, joined as they were. *)
Fixpoint decode_properties_loop (fuel : nat) (pairs : list bytes) (properties : list (bytes * Value))
    : Result (list (bytes * Value)) :=
  match fuel, pairs with
  | _, [] => Ok properties
  | O, _ => Err (Storage "loop bound" [])
  | S fuel, first :: pairs =>
      let? (key, value) := ok_or (split_once 61 first) (Storage "invalid property pair: {pair}" first) in
      let? key := decode_string key in
      let (taken, rest) := match value with c :: _ => if c =? 109 then take_continuation pairs else ([], pairs) | [] => ([], pairs) end in
      let? value := decode_value (join 59 (value :: taken)) in
      decode_properties_loop fuel rest (bmap_insert key value properties)
  end.
Definition decode_properties (input : bytes) : Result (list (bytes * Value)) :=
  match input with
  | [] => Ok []
  | _ => let pairs := split_on 59 input in decode_properties_loop (length pairs) pairs []
  end.
End Codec.

(** ** Schema enums *)

Definition encode_table_kind (kind : TableKind) : bytes :=
  match kind with KindNode => lit "node" | KindRelationship => lit "relationship" end.
Definition decode_table_kind (input : bytes) : Result TableKind :=
  if is_lit input "node" then Ok KindNode
  else if is_lit input "relationship" then Ok KindRelationship
  else Err (Storage "invalid table kind: {input}" input).

Definition encode_property_type (value_type : PropertyType) : bytes :=
  match value_type with
  | PAny => lit "any"
  | PBool => lit "bool"
  | PInt => lit "int"
  | PFloat => lit "float"
  | PString => lit "string"
  | PText => lit "text"
  | PListType => lit "list"
  | PVector dimension => lit "vector(" ++ print_u128 dimension ++ [41]
  end.
(** [strip_suffix(')')]. *)
Definition strip_suffix (c : Z) (s : bytes) : option bytes :=
  match reverse s with b :: t => if b =? c then Some (reverse t) else None | [] => None end.
Definition decode_property_type (input : bytes) : Result PropertyType :=
  match match strip_prefix (lit "vector(") input with Some value => strip_suffix 41 value | None => None end with
  | Some dimension =>
      match parse_unsigned u32_max dimension with
      | Some d =>
          if 1 <=? d then Ok (PVector d)
          else Err (Storage "invalid vector property dimension" [])
      | None => Err (Storage "invalid vector property dimension" [])
      end
  | None =>
      if is_lit input "any" then Ok PAny
      else if is_lit input "bool" then Ok PBool
      else if is_lit input "int" then Ok PInt
      else if is_lit input "float" then Ok PFloat
      else if is_lit input "string" then Ok PString
      else if is_lit input "text" then Ok PText
      else if is_lit input "list" then Ok PListType
      else Err (Storage "invalid property type: {input}" input)
  end.

Inductive IndexKind := Equality | Range | FullText.
Definition encode_index_kind (kind : IndexKind) : bytes :=
  match kind with Equality => lit "equality" | Range => lit "range" | FullText => lit "fulltext" end.
Definition decode_index_kind (input : bytes) : Result IndexKind :=
  if is_lit input "equality" then Ok Equality
  else if is_lit input "range" then Ok Range
  else if is_lit input "fulltext" then Ok FullText
  else Err (Storage "invalid index kind: {input}" input).

Definition encode_nullable (nullable : bool) : bytes := if nullable then lit "nullable" else lit "not_null".
Definition decode_nullable (input : bytes) : Result bool :=
  if is_lit input "nullable" then Ok true
  else if is_lit input "not_null" then Ok false
  else Err (Storage "invalid nullable flag: {input}" input).

Definition encode_bool (value : bool) : bytes := if value then lit "true" else lit "false".
Definition decode_bool (input : bytes) (name : string) : Result bool :=
  if is_lit input "true" then Ok true
  else if is_lit input "false" then Ok false
  else Err (Storage (String.app "invalid {name}: {input}" name) input).

Definition encode_schema_object_state (state : SchemaObjectState) : bytes :=
  match state with
  | DeleteOnly => lit "delete_only"
  | WriteOnly => lit "write_only"
  | Backfill => lit "backfill"
  | Validating => lit "validating"
  | Public => lit "public"
  | Gc => lit "gc"
  end.
Definition decode_schema_object_state (input : bytes) : Result SchemaObjectState :=
  if is_lit input "delete_only" then Ok DeleteOnly
  else if is_lit input "write_only" then Ok WriteOnly
  else if is_lit input "backfill" then Ok Backfill
  else if is_lit input "validating" then Ok Validating
  else if is_lit input "public" then Ok Public
  else if is_lit input "gc" then Ok Gc
  else Err (Storage "invalid schema object state: {input}" input).

(** ** Hexadecimal text *)

Definition hex_char (b : Z) : bool := is_digit b || ((97 <=? b) && (b <=? 102)).

Lemma hex_digit_value n : 0 ≤ n < 16 → hex_value (hex_digit n) = Some n ∧ decode_hex_digit (hex_digit n) = Ok n ∧
  hex_char (hex_digit n) = true ∧ hex_digit n ≠ 43.
Proof.
  intros Hn. assert (∃ k, n = Z.of_nat k ∧ (k < 16)%nat) as (k & -> & Hk) by (exists (Z.to_nat n); lia). clear Hn.
  do 16 (destruct k as [|k]; [by split_and!|]). lia.
Qed.

Lemma hex_byte_value b : is_byte b →
  ∃ hi lo, hex_byte b = [hi; lo] ∧ u8_from_hex hi lo = Some b ∧ hex_char hi = true ∧ hex_char lo = true ∧
    (let? high := decode_hex_digit hi in let? low := decode_hex_digit lo in Ok (Z.lor (Z.shiftl high 4) low)) = Ok b.
Proof.
  unfold is_byte. intros Hb. exists (hex_digit (b / 16)), (hex_digit (b mod 16)).
  destruct (hex_digit_value (b / 16)) as (Hv & Hd & Hc & Hne); [split; [apply Z.div_pos; lia|apply Z.div_lt_upper_bound; lia]|].
  destruct (hex_digit_value (b mod 16)) as (Hv' & Hd' & Hc' & _); [apply Z.mod_pos_bound; lia|].
  pose proof (Z.div_mod b 16 ltac:(lia)). pose proof (Z.mod_pos_bound b 16 ltac:(lia)).
  split_and!; try done.
  - unfold u8_from_hex. rewrite Hv, Hv'. case_bool; [done|]. f_equal. lia.
  - rewrite Hd, Hd'. cbn [result_bind]. f_equal. rewrite Z.lor_comm, lor_shiftl_add by lia. change (2 ^ 4) with 16. lia.
Qed.

Lemma encode_bytes_spec bs : Forall is_byte bs →
  Forall (λ b, hex_char b = true) (encode_bytes bs) ∧ zlen (encode_bytes bs) = 2 * zlen bs ∧
  decode_bytes (encode_bytes bs) = Ok bs ∧ decode_hex_bytes (encode_bytes bs) = Ok bs.
Proof.
  intros HF. assert (zlen (encode_bytes bs) = 2 * zlen bs) as Hl by apply zlen_hex.
  unfold decode_bytes, decode_hex_bytes. rewrite Hl, Z.mul_comm, Z.mod_mul by lia. cbn [Z.eqb].
  assert (∀ offset, Forall (λ b, hex_char b = true) (encode_bytes bs) ∧ decode_bytes_loop (encode_bytes bs) offset = Ok bs ∧
    decode_hex_pairs (encode_bytes bs) = Ok bs) as H; [|destruct (H 0) as (? & ? & ?); split_and!; [done|lia|done..]].
  clear Hl. induction HF as [|b bs Hb HF IH]; intros offset; [done|]. destruct (IH (offset + 2)) as (IHc & IHd & IHh).
  destruct (hex_byte_value b Hb) as (hi & lo & E & Hu & Hc & Hc' & Hd). unfold encode_bytes in *. cbn [flat_map]. rewrite E. cbn [app].
  split_and!; [by repeat constructor| |].
  - cbn [decode_bytes_loop]. rewrite Hu. cbn [ok_or result_bind]. by rewrite IHd.
  - cbn [decode_hex_pairs]. rewrite IHh. destruct (decode_hex_digit hi); [|done]. cbn [result_bind] in *.
    destruct (decode_hex_digit lo); [|done]. cbn [result_bind] in *. by injection Hd as ->.
Qed.

Lemma utf8_ascii s : Forall (λ b, 0 ≤ b < 128) s → utf8_valid s = true.
Proof. induction 1 as [|b s Hb _ IH]; [done|]. cbn [utf8_valid]. by assert ((0 <=? b) && (b <=? 127) = true) as -> by lia. Qed.
Lemma utf8_bytes s : utf8_valid s = true → Forall is_byte s.
Proof.
  induction s as [s IH] using (induction_ltof1 _ length). unfold ltof in IH. destruct s as [|b0 t]; [done|].
  cbn. unfold is_byte, utf8_cont in *. intros Hv.
  destruct ((0 <=? b0) && (b0 <=? 127)) eqn:E0; [constructor; [lia|]; apply IH; [cbn; lia|done]|].
  destruct ((194 <=? b0) && (b0 <=? 223)) eqn:E1.
  { destruct t as [|b1 t]; [done|]. apply andb_prop in Hv as [? Hv]. repeat (constructor; [lia|]). apply IH; [cbn; lia|done]. }
  destruct ((224 <=? b0) && (b0 <=? 239)) eqn:E2.
  { destruct t as [|b1 [|b2 t]]; try done. rewrite !andb_true_iff in Hv. destruct Hv as [[[? ?] ?] Hv].
    repeat (constructor; [destruct (b0 =? 224), (b0 =? 237); lia|]). apply IH; [cbn; lia|done]. }
  destruct ((240 <=? b0) && (b0 <=? 244)) eqn:E3; [|done].
  destruct t as [|b1 [|b2 [|b3 t]]]; try done. rewrite !andb_true_iff in Hv. destruct Hv as [[[[? ?] ?] ?] Hv].
  repeat (constructor; [destruct (b0 =? 240), (b0 =? 244); lia|]). apply IH; [cbn; lia|done].
Qed.
Lemma decode_encode_string s : utf8_valid s = true → decode_string (encode_string s) = Ok s.
Proof.
  intros Hs. unfold decode_string, encode_string. destruct (encode_bytes_spec s (utf8_bytes s Hs)) as (_ & _ & -> & _).
  cbn [result_bind]. by rewrite Hs.
Qed.

(** Decoding halves the length. *)
Lemma decode_string_length input s : decode_string input = Ok s → length input = (2 * length s)%nat.
Proof.
  unfold decode_string, decode_bytes. destruct (Z.eqb_spec (zlen input mod 2) 0) as [Hm|]; [|done].
  intros (bs & Hd & Hs)%result_bind_ok. destruct (utf8_valid bs); [|done]. injection Hs as <-.
  assert (∀ offset, decode_bytes_loop input offset = Ok bs → length input = (2 * length bs)%nat) as H; [|by eapply H].
  clear Hd. revert bs Hm. induction input as [input IH] using (induction_ltof1 _ length). unfold ltof in IH. intros bs Hm offset.
  destruct input as [|hi [|lo rest]]; cbn [decode_bytes_loop].
  - by intros [= <-].
  - by cbn in Hm.
  - intros (b & _ & (bs' & Hd & [= <-])%result_bind_ok)%result_bind_ok. cbn [length].
    rewrite (IH rest ltac:(cbn; lia) bs' ltac:(rewrite !zlen_cons in Hm; replace (1 + (1 + zlen rest)) with (zlen rest + 1 * 2) in Hm by lia;
      by rewrite Z.mod_add in Hm) _ Hd). lia.
Qed.

(** ** The recursion of the decoder *)

Section Depth.
Context {C : Chrono} {F : ChronoFields C} {U : UuidText}.

Lemma try_map_ext {A B E} (f g : A → result B E) l : Forall (λ x, f x = g x) l → try_map f l = try_map g l.
Proof. induction 1 as [|x l Hx _ IH]; [done|]. cbn [try_map]. by rewrite Hx, IH. Qed.

Lemma split_once_shorter c s a b : split_once c s = Some (a, b) → (length b < length s)%nat.
Proof.
  unfold split_once, split_at_first. destruct (span_to (is_char c) s) as [x y] eqn:E.
  assert (∀ s x y, span_to (is_char c) s = (x, y) → length s = (length x + length y)%nat) as Hlen.
  { clear. induction s as [|d s IH]; intros x y; cbn; [by intros [= <- <-]|]. destruct (is_char c d); [by intros [= <- <-]|].
    destruct (span_to _ s) as [x' y'] eqn:E. intros [= <- <-]. cbn. rewrite (IH x' y'); done. }
  apply Hlen in E. destruct y as [|d y]; [done|]. intros [= <- <-]. cbn in E. lia.
Qed.

Lemma decode_map_items_ext f g items values n :
  Forall (λ item : bytes, (length item ≤ n)%nat) items →
  (∀ text : bytes, (2 * length text ≤ n)%nat → f text = g text) →
  decode_map_items f items values = decode_map_items g items values.
Proof.
  intros HF Hfg. revert values. induction HF as [|item items Hi _ IH]; intros values; [done|]. cbn [decode_map_items].
  destruct (split_once 61 item) as [[key encoded]|] eqn:Es; [|done]. cbn [ok_or result_bind].
  destruct (decode_string key); [|done]. cbn [result_bind]. destruct (decode_string encoded) as [text|] eqn:Et; [|done]. cbn [result_bind].
  apply decode_string_length in Et. apply split_once_shorter in Es. rewrite Hfg by lia. destruct (g text); [|done]. cbn [result_bind]. apply IH.
Qed.
Lemma decode_list_items_ext f g items n :
  Forall (λ item : bytes, (length item ≤ n)%nat) items →
  (∀ text : bytes, (2 * length text ≤ n)%nat → f text = g text) →
  decode_list_items f items = decode_list_items g items.
Proof.
  intros HF Hfg. apply try_map_ext. eapply Forall_impl; [exact HF|]. intros item Hi.
  destruct (decode_string item) as [text|] eqn:Et; [|done]. cbn [result_bind]. apply decode_string_length in Et. apply Hfg. cbn in Hi. lia.
Qed.

Lemma decode_step_ext f g input :
  (∀ text : bytes, (2 * S (length text) ≤ S (length input))%nat → f text = g text) → decode_step f input = decode_step g input.
Proof.
  intros Hfg. unfold decode_step. destruct input as [|kind rest]; [done|].
  assert (∀ c, Forall (λ item : bytes, (length item ≤ length rest)%nat) (split_on c rest)) as Hlen.
  { intros c. eapply Forall_impl; [apply split_on_lengths|]. intros item. unfold zlen. cbn. lia. }
  assert (∀ text : bytes, (2 * length text ≤ length rest)%nat → f text = g text) as Hfg'.
  { intros text Ht. apply Hfg. cbn [length]. lia. }
  repeat (match goal with |- (if ?c then _ else _) = (if ?c then _ else _) => destruct c; [try done|] end).
  all: try done.
  - destruct rest; [done|]. by rewrite (decode_list_items_ext f g _ _ (Hlen 44) Hfg').
  - destruct rest; [done|]. by rewrite (decode_map_items_ext f g _ _ _ (Hlen 59) Hfg').
Qed.

(** Any bound of at least [decode_depth] gives the same result. *)
Lemma decode_fuel_enough fuel input : (decode_depth input ≤ fuel)%nat → decode_fuel fuel input = decode_value input.
Proof.
  unfold decode_value. assert (∀ n m (input : bytes), (decode_depth input ≤ n)%nat → (decode_depth input ≤ m)%nat →
    decode_fuel n input = decode_fuel m input) as H; [|intros; by apply H].
  clear fuel input. induction n as [|n IH]; intros m input Hn Hm; unfold decode_depth in *; [lia|].
  destruct m as [|m]; [lia|]. cbn [decode_fuel]. apply decode_step_ext. intros text Ht.
  assert (S (Nat.log2 (S (length text))) ≤ Nat.log2 (S (length input)))%nat.
  { rewrite <- Nat.log2_double by lia. apply Nat.log2_le_mono. lia. }
  apply IH; lia.
Qed.
Lemma decode_value_step input : decode_value input = decode_step decode_value input.
Proof.
  rewrite <- (decode_fuel_enough (S (decode_depth input)) input) by lia. cbn [decode_fuel].
  apply decode_step_ext. intros text Ht. apply decode_fuel_enough. unfold decode_depth.
  apply le_n_S. apply (Nat.le_trans _ (Nat.log2 (S (length input)))); [|lia]. apply Nat.log2_le_mono. lia.
Qed.
End Depth.

(** ** Encoded values read back *)

Section ValueText.
Context {C : Chrono} {F : ChronoFields C} {U : UuidText}.

(** The elements of a [Vec<u8>] are bytes. *)
Fixpoint bytes_ok (v : Value) : Prop :=
  match v with
  | VBinary b => Forall is_byte b
  | VVector e => Forall is_byte e
  | VUuid u => Forall is_byte u
  | VList l => (fix all (l : list Value) : Prop := match l with [] => True | x :: l => bytes_ok x ∧ all l end) l
  | VMap m => (fix all (m : list (bytes * Value)) : Prop := match m with [] => True | (_, x) :: m => bytes_ok x ∧ all m end) m
  | _ => True
  end.
(** The offsets of the zoned date-times are within the eighteen hours that the
    parser accepts. *)
Fixpoint offsets_ok (v : Value) : bool :=
  match v with
  | VDateTime _ _ o => Z.abs (local_minus_utc o) <=? 18 * 3600
  | VList l => forallb offsets_ok l
  | VMap m => forallb (λ kv, offsets_ok kv.2) m
  | _ => true
  end.
(** What the text carries. *)
Definition text_ok (v : Value) : Prop := bytes_ok v ∧ offsets_ok v = true.
Lemma forallb_Forall {A} (f : A → bool) l : forallb f l = true ↔ Forall (λ x, f x = true) l.
Proof. induction l as [|x l IH]; [by split|]. cbn [forallb]. by rewrite andb_true_iff, Forall_cons, IH. Qed.
Lemma bytes_ok_list l : bytes_ok (VList l) ↔ Forall bytes_ok l.
Proof. cbn. induction l as [|x l IH]; [by split; constructor|]. rewrite Forall_cons. tauto. Qed.
Lemma bytes_ok_map m : bytes_ok (VMap m) ↔ Forall (λ kv, bytes_ok kv.2) m.
Proof. cbn. induction m as [|[k x] m IH]; [by split; constructor|]. rewrite Forall_cons. cbn. tauto. Qed.
Lemma text_ok_list l : text_ok (VList l) ↔ Forall text_ok l.
Proof. unfold text_ok. rewrite bytes_ok_list, Forall_and. cbn [offsets_ok]. by rewrite forallb_Forall. Qed.
Lemma text_ok_map m : text_ok (VMap m) ↔ Forall (λ kv, text_ok kv.2) m.
Proof. unfold text_ok. rewrite bytes_ok_map, Forall_and. cbn [offsets_ok]. by rewrite forallb_Forall. Qed.

Context `{!ChronoLaws C} `{!ChronoFieldLaws C F} `{!UuidTextLaws U}.

(** A temporal value reads back from its own rendering. *)
Lemma decode_temporal_text v tag :
  temporal_text_tag v = Some tag → value_wf v → text_ok v → decode_temporal tag (temporal_to_string v) = Ok v.
Proof.
  intros Htag Hwf Hok. unfold decode_temporal.
  assert (map_err temporal_storage_error
      (if tag =? 68 then let? d := parse_date (temporal_to_string v) in Ok (VDate d)
       else if tag =? 84 then let? t := parse_local_time (temporal_to_string v) in Ok (VLocalTime t)
       else if tag =? 76 then let? (d, t) := parse_local_datetime (temporal_to_string v) in Ok (VLocalDateTime d t)
       else if tag =? 90 then let? (d, t, o) := parse_datetime (temporal_to_string v) in Ok (VDateTime d t o)
       else let? d := parse_duration (temporal_to_string v) in Ok (VDuration d)) = Ok v) as ->.
  2: { cbn [result_bind]. by rewrite bool_decide_eq_true_2. }
  destruct v; try done; injection Htag as <-; cbn [Z.eqb Pos.eqb temporal_to_string value_wf] in *.
  - unfold format_date. by rewrite parse_write_date.
  - unfold parse_local_time, format_local_time. destruct (write_time_spec t (write_time t) Hwf) as [Hc Hp].
    rewrite trim_graphic by chars. by rewrite Hp.
  - by rewrite parse_format_local_datetime.
  - destruct Hwf as [Ht Hs], Hok as [_ Hok]. cbn [offsets_ok] in Hok. rewrite parse_format_datetime by done. case_bool; [done|lia].
  - destruct Hwf as [Hm Hd]. by rewrite parse_write_duration.
Qed.

(** Encoded values are graphic ASCII. *)
Definition graphic_text (s : bytes) : Prop := Forall (λ b, graphic b = true) s.

Lemma digits_graphic s : Forall (λ b, is_digit b = true) s → graphic_text s.
Proof. intros HF. eapply Forall_impl; [exact HF|]. intros b. cbn. unfold is_digit, graphic. lia. Qed.
Lemma encode_string_graphic s : Forall is_byte s → graphic_text (encode_string s).
Proof.
  intros (HF & _)%encode_bytes_spec. eapply Forall_impl; [exact HF|]. intros b. cbn. unfold hex_char, is_digit, graphic. lia.
Qed.
Lemma print_signed_graphic z : graphic_text (print_signed z).
Proof. eapply Forall_impl; [apply print_signed_numeric|]. intros b. cbn. unfold numeric, is_digit, graphic. lia. Qed.
Lemma join_graphic c parts : graphic c = true → Forall graphic_text parts → graphic_text (join c parts).
Proof.
  intros Hc HF. induction HF as [|p parts Hp HF IH]; [constructor|]. destruct parts; [done|]. cbn [join].
  apply Forall_app. split; [done|]. by constructor.
Qed.
Lemma digits_iso s : Forall (λ b, is_digit b = true) s → Forall (λ b, iso_char b = true) s.
Proof. intros. chars. Qed.
Lemma decimal_iso d : wf d → Forall (λ b, iso_char b = true) (Decimal_to_string d).
Proof.
  intros [_ Hs]. unfold Decimal_to_string.
  assert (Forall (λ b, iso_char b = true) (if coefficient d <? 0 then [45] else [])) as Hsign by (case_bool; by repeat constructor).
  case_bool; apply Forall_app; split; try done; [by apply digits_iso, print_u128_digits; lia|].
  pose proof (Z.pow_pos_nonneg 10 (scale d) ltac:(lia) ltac:(lia)).
  apply Forall_app; split; [apply digits_iso, print_u128_digits, Z.div_pos; lia|]. constructor; [done|].
  apply digits_iso, padded_chars; [apply Z.mod_pos_bound; lia|lia].
Qed.
Lemma duration_iso d : Forall (λ b, iso_char b = true) (write_duration d).
Proof.
  rewrite write_duration_parts.
  assert (∀ s, Forall (λ b, part_char b = true) s → Forall (λ b, iso_char b = true) s) as Hp.
  { intros s HF. eapply Forall_impl; [exact HF|]. by intros b [? _]%andb_prop. }
  constructor; [done|]. apply Forall_app; split; [apply Hp, date_text_chars|].
  case_bool; [destruct (_ && _); by repeat constructor|]. constructor; [done|].
  unfold time_part. apply Hp, time_text_chars.
  - apply Z.div_pos; lia.
  - apply Z.mod_pos_bound; lia.
  - apply Z.mod_pos_bound; lia.
  - apply Z.mod_pos_bound; lia.
Qed.
Lemma temporal_iso v : value_wf v → Forall (λ b, iso_char b = true) (temporal_to_string v).
Proof.
  intros Hwf. destruct v; try (apply Forall_nil_2); cbn [temporal_to_string value_wf] in *.
  - pose proof (write_date_chars d). unfold format_date. chars.
  - destruct (write_time_spec t [] Hwf) as [Hc _]. unfold format_local_time. chars.
  - destruct (split_rendered d t [] [] "" Hwf ltac:(done)) as [Hg _]. by rewrite app_nil_r in Hg.
  - destruct Hwf as [Ht [[d' t'] Hadd]]. unfold format_datetime. rewrite (fields_local _ _ _ Hadd).
    pose proof (fields_nanos _ _ _ Hadd) as En. cbn in En.
    by destruct (split_rendered d' t' (write_offset o) [] "" ltac:(unfold time_regular in *; lia) (write_offset_chars o)) as [Hg _].
  - apply duration_iso.
Qed.
Lemma temporal_graphic v : value_wf v → graphic_text (temporal_to_string v).
Proof. intros. by apply iso_graphic, temporal_iso. Qed.

Lemma graphic_utf8 s : graphic_text s → utf8_valid s = true ∧ Forall is_byte s.
Proof.
  intros HF. assert (utf8_valid s = true); [|split; [done|by apply utf8_bytes]].
  apply utf8_ascii. eapply Forall_impl; [exact HF|]. intros b. cbn. unfold graphic. lia.
Qed.

Lemma encode_value_graphic v : value_wf v → bytes_ok v → graphic_text (encode_value v).
Proof.
  induction v as [v Hl Hm|l IH|m IH] using Value_ind'; intros Hwf Hok.
  - destruct v; cbn [encode_value value_wf bytes_ok] in *; try (by repeat constructor).
    + destruct b; by repeat constructor.
    + constructor; [done|apply print_signed_graphic].
    + constructor; [done|]. apply digits_graphic, print_u128_digits. unfold is_u64 in Hwf. lia.
    + constructor; [done|by apply iso_graphic, decimal_iso].
    + constructor; [done|]. by apply encode_string_graphic, utf8_bytes.
    + constructor; [done|by apply encode_string_graphic].
    + constructor; [done|by apply encode_string_graphic].
    + constructor; [done|]. eapply Forall_impl; [by apply uuid_chars|]. intros b. cbn. unfold is_digit, graphic. lia.
    + by destruct (Hl l).
    + by destruct (Hm m).
    + constructor; [done|]. exact (temporal_graphic (VDate d) Hwf).
    + constructor; [done|]. exact (temporal_graphic (VLocalTime t) Hwf).
    + constructor; [done|]. exact (temporal_graphic (VLocalDateTime d t) Hwf).
    + constructor; [done|]. exact (temporal_graphic (VDateTime d t o) Hwf).
    + constructor; [done|]. exact (temporal_graphic (VDuration d) Hwf).
  - apply value_wf_list in Hwf. apply bytes_ok_list in Hok. cbn [encode_value]. constructor; [done|].
    apply join_graphic; [done|]. apply Forall_fmap, Forall_forall. intros x Hx. rewrite Forall_forall in IH, Hwf, Hok.
    apply encode_string_graphic, graphic_utf8. by apply IH; [|apply Hwf|apply Hok].
  - apply value_wf_map in Hwf as [_ Hwf]. apply bytes_ok_map in Hok. cbn [encode_value]. constructor; [done|].
    apply join_graphic; [done|]. apply Forall_fmap, Forall_forall. intros [k x] Hx. rewrite Forall_forall in IH, Hwf, Hok.
    destruct (Hwf _ Hx) as [Hk Hx']. cbn in Hk, Hx'. apply Forall_app; split; [by apply encode_string_graphic, utf8_bytes|].
    constructor; [done|]. apply encode_string_graphic, graphic_utf8. by apply (IH _ Hx); [|apply (Hok _ Hx)].
Qed.

Lemma text_nonempty v : encode_value v ≠ [].
Proof. by destruct v. Qed.
Lemma hex_no c s : hex_char c = false → Forall is_byte s → no (is_char c) (encode_string s).
Proof.
  intros Hc (HF & _)%encode_bytes_spec. eapply Forall_impl; [exact HF|]. intros b Hb. cbn in Hb. unfold is_char. case_bool; [congruence|done].
Qed.
Lemma encode_string_nonempty s : s ≠ [] → encode_string s ≠ [].
Proof. by destruct s. Qed.

(** A nested value: hexadecimal of its text. *)
Definition nested_ok (c : Z) (v : Value) : Prop :=
  no (is_char c) (encode_string (encode_value v)) ∧ decode_string (encode_string (encode_value v)) = Ok (encode_value v).
Lemma nested_value c v : hex_char c = false → value_wf v → bytes_ok v → nested_ok c v.
Proof.
  intros Hc Hwf Hok. destruct (graphic_utf8 _ (encode_value_graphic v Hwf Hok)) as [Hu Hb].
  split; [by apply hex_no|by apply decode_encode_string].
Qed.

Lemma split_items {A} c (f : A → bytes) (g : A → bytes) l :
  l ≠ [] → Forall (λ x, no (is_char c) (f x) ∧ f x ≠ []) l →
  ∃ b t, join c (f <$> l) = b :: t ∧ split_on c (b :: t) = f <$> l.
Proof.
  intros Hne HF. destruct (join c (f <$> l)) as [|b t] eqn:E.
  - destruct HF as [|x l [_ Hx] HF]; [done|]. cbn in E. destruct (f <$> l); [done|]. by destruct (f x).
  - exists b, t. split; [done|]. rewrite <- E. apply split_on_join; [by destruct l|].
    apply Forall_fmap. eapply Forall_impl; [exact HF|]. by intros x [? _].
Qed.

(** A value reads back from its text, or the text is refused with an error. *)
Definition refused {A} (r : Result A) : Prop := ∃ message input, r = Err (Storage message input).
Definition reads_back (v : Value) (r : Result Value) : Prop := if offsets_ok v then r = Ok v else refused r.

Lemma decode_list_values l :
  Forall (nested_ok 44) l → Forall (λ v, reads_back v (decode_value (encode_value v))) l →
  let r := decode_list_items decode_value ((λ v, encode_string (encode_value v)) <$> l) in
  if forallb offsets_ok l then r = Ok l else refused r.
Proof.
  intros HF Hd. unfold decode_list_items. induction Hd as [|v l Hv _ IH]; [done|]. apply Forall_cons in HF as [[_ Hs] HF].
  cbn [fmap list_fmap try_map forallb]. rewrite Hs. cbn [result_bind]. unfold reads_back in Hv. destruct (offsets_ok v); cbn [andb].
  - rewrite Hv. cbn [result_bind]. specialize (IH HF). destruct (forallb offsets_ok l); [by rewrite IH|]. destruct IH as (m & i & ->). by eexists _, _.
  - destruct Hv as (m & i & ->). by eexists _, _.
Qed.

Definition map_item (kv : bytes * Value) : bytes := encode_string kv.1 ++ 61 :: encode_string (encode_value kv.2).

Lemma map_item_split kv : utf8_valid kv.1 = true → split_once 61 (map_item kv) = Some (encode_string kv.1, encode_string (encode_value kv.2)).
Proof. intros Hk. apply split_at_first_hit; [by apply hex_no, utf8_bytes|done]. Qed.

Lemma decode_map_values before m :
  StronglySorted key_before (before ++ m) → Forall (λ kv, utf8_valid kv.1 = true ∧ nested_ok 59 kv.2) m →
  Forall (λ kv, reads_back kv.2 (decode_value (encode_value kv.2))) m →
  let r := decode_map_items decode_value (map_item <$> m) before in
  if forallb (λ kv, offsets_ok kv.2) m then r = Ok (before ++ m) else refused r.
Proof.
  intros Hs HF Hd. revert before Hs. induction Hd as [|[k v] m Hv _ IH]; intros before Hs; [cbn; by rewrite app_nil_r|].
  apply Forall_cons in HF as [[Hk [_ Hn]] HF]. cbn [fst snd] in *. cbn [fmap list_fmap decode_map_items forallb snd].
  rewrite map_item_split by done. cbn [ok_or result_bind fst snd]. rewrite decode_encode_string by done. cbn [result_bind].
  rewrite Hn. cbn [result_bind]. unfold reads_back in Hv. destruct (offsets_ok v); cbn [andb].
  2: { destruct Hv as (m' & i & ->). by eexists _, _. }
  rewrite Hv. cbn [result_bind].
  assert (bmap_insert k v before = before ++ [(k, v)]) as ->.
  { apply bmap_insert_last. apply Forall_forall. intros kv Hkv.
    apply (StronglySorted_app_1_elem_of key_before before ((k, v) :: m) kv (k, v) Hs Hkv). by left. }
  specialize (IH HF (before ++ [(k, v)])). rewrite <- !app_assoc in IH. by apply IH.
Qed.

Lemma boundary_1 kind rest : graphic_text (kind :: rest) → is_char_boundary (kind :: rest) 1 = true.
Proof.
  intros HF. apply ascii_boundary; [|rewrite zlen_cons; pose proof (zlen_nonneg rest); lia].
  eapply Forall_impl; [exact HF|]. intros b. cbn. unfold graphic. lia.
Qed.

(** The rendering of a zoned date-time beyond eighteen hours is refused. *)
Lemma decode_datetime_text d t o : value_wf (VDateTime d t o) →
  reads_back (VDateTime d t o) (decode_temporal 90 (temporal_to_string (VDateTime d t o))).
Proof.
  intros Hwf. unfold reads_back. destruct (offsets_ok (VDateTime d t o)) eqn:Ho.
  - by apply decode_temporal_text.
  - destruct Hwf as [Hr Hs]. cbn [offsets_ok] in Ho. unfold decode_temporal. cbn [Z.eqb Pos.eqb temporal_to_string].
    rewrite parse_format_datetime by done. case_bool; [lia|]. by eexists _, _.
Qed.

Lemma decode_encode_exact v : value_wf v → bytes_ok v → reads_back v (decode_value (encode_value v)).
Proof.
  induction v as [v Hl Hm|l IH|m IH] using Value_ind'; intros Hwf Hok; rewrite decode_value_step.
  all: pose proof (encode_value_graphic _ Hwf Hok) as Hg.
  - destruct v; cbn [encode_value] in Hg |- *; unfold decode_step; rewrite boundary_1 by done.
    all: cbn [negb andb orb Z.eqb Pos.eqb one_of existsb default temporal_text_tag from_option id].
    all: try (by destruct (Hl l)); try (by destruct (Hm m)); try (by apply decode_datetime_text).
    all: unfold reads_back; cbn [offsets_ok]; cbn [value_wf bytes_ok] in Hwf, Hok.
    + done.
    + by destruct b.
    + unfold parse_i64. rewrite parse_signed_print by (unfold is_i64, i64_min, i64_max in *; lia). done.
    + unfold parse_u64. rewrite parse_unsigned_print by (unfold is_u64, u64_max in *; lia). done.
    + by rewrite decimal_text_roundtrip.
    + by rewrite decode_encode_string.
    + destruct (encode_bytes_spec b Hok) as (_ & _ & _ & ->). done.
    + destruct (encode_bytes_spec encoded Hok) as (_ & _ & _ & ->). cbn [result_bind]. unfold validate_vector. by rewrite Hwf.
    + by rewrite uuid_roundtrip.
    + by apply (decode_temporal_text (VDate d)).
    + by apply (decode_temporal_text (VLocalTime t)).
    + by apply (decode_temporal_text (VLocalDateTime d t)).
    + by apply (decode_temporal_text (VDuration d)).
  - apply value_wf_list in Hwf. apply bytes_ok_list in Hok. cbn [encode_value] in Hg |- *. unfold decode_step. rewrite boundary_1 by done.
    cbn [negb andb orb Z.eqb Pos.eqb one_of existsb]. destruct (decide (l = [])) as [->|Hne]; [done|].
    assert (Forall (nested_ok 44) l) as Hn.
    { apply Forall_forall. intros x Hx. rewrite Forall_forall in Hwf, Hok. by apply nested_value; [|apply Hwf|apply Hok]. }
    destruct (split_items 44 (λ v, encode_string (encode_value v)) (λ _, []) l Hne) as (b & t & -> & Hsp).
    { eapply Forall_impl; [exact Hn|]. intros x [Hx _]. split; [done|]. apply encode_string_nonempty, text_nonempty. }
    rewrite Hsp. unfold reads_back. cbn [offsets_ok].
    pose proof (decode_list_values l Hn) as Hd. cbv zeta in Hd. destruct (forallb offsets_ok l); [rewrite Hd; [done|]|destruct Hd as (? & ? & ->); [|by eexists _, _]];
      apply Forall_forall; intros x Hx; rewrite Forall_forall in IH, Hwf, Hok; by apply IH; [|apply Hwf|apply Hok].
  - apply value_wf_map in Hwf as [Hs Hwf]. apply bytes_ok_map in Hok. cbn [encode_value] in Hg |- *. unfold decode_step. rewrite boundary_1 by done.
    cbn [negb andb orb Z.eqb Pos.eqb one_of existsb]. destruct (decide (m = [])) as [->|Hne]; [done|]. rewrite Forall_forall in IH, Hwf, Hok.
    assert (Forall (λ kv, utf8_valid kv.1 = true ∧ nested_ok 59 kv.2) m) as Hn.
    { apply Forall_forall. intros kv Hx. destruct (Hwf kv Hx). split; [done|]. by apply nested_value; [| |apply Hok]. }
    change (λ kv : bytes * Value, encode_string kv.1 ++ 61 :: encode_string (encode_value kv.2)) with map_item.
    destruct (split_items 59 map_item (λ _, []) m Hne) as (b & t & -> & Hsp).
    { eapply Forall_impl; [exact Hn|]. intros kv [Hk [Hx _]]. split; [|by intros [_ ?]%app_nil].
      apply Forall_app; split; [by apply hex_no, utf8_bytes|]. by constructor. }
    rewrite Hsp. unfold reads_back. cbn [offsets_ok].
    pose proof (decode_map_values [] m Hs Hn) as Hd. cbv zeta in Hd.
    destruct (forallb _ m); [rewrite Hd; [done|]|destruct Hd as (? & ? & ->); [|by eexists _, _]];
      apply Forall_forall; intros kv Hx; destruct (Hwf kv Hx); by apply IH; [| |apply Hok].
Qed.
Lemma text_decode_encode v : value_wf v → text_ok v → decode_value (encode_value v) = Ok v.
Proof. intros Hwf [Hb Ho]. pose proof (decode_encode_exact v Hwf Hb) as H. unfold reads_back in H. by rewrite Ho in H. Qed.
End ValueText.

(** ** Properties and the continuation of maps *)

Section PropertiesText.
Context {C : Chrono} {F : ChronoFields C} {U : UuidText}.
Context `{!ChronoLaws C} `{!ChronoFieldLaws C F} `{!UuidTextLaws U}.

(** The entries of a map after its first are recognised by the first digit of
    their tag, which a temporal value's does not have. *)
Definition recognised (kv : bytes * Value) : Prop := temporal_text_tag kv.2 = None.
Definition continuation_ok (v : Value) : Prop :=
  match v with VMap (_ :: entries) => Forall recognised entries | _ => True end.
#[global] Instance recognised_dec kv : Decision (recognised kv).
Proof. unfold recognised. destruct (temporal_text_tag kv.2); [by right|by left]. Defined.

#[global] Instance continuation_ok_dec v : Decision (continuation_ok v).
Proof. destruct v as [| | | | | | | | | |[|e entries]| | | | |]; apply _. Defined.

(** What the text of properties carries. *)
Definition survives (v : Value) : Prop := offsets_ok v = true ∧ continuation_ok v.

(** The pairs between the semicolons of one encoded property. *)
Definition pairs_of (kv : bytes * Value) : list bytes :=
  match kv.2 with
  | VMap (e :: entries) => (encode_string kv.1 ++ 61 :: 109 :: map_item e) :: (map_item <$> entries)
  | v => [encode_string kv.1 ++ 61 :: encode_value v]
  end.

Lemma join_app c ps qs : ps ≠ [] → qs ≠ [] → join c (ps ++ qs) = join c ps ++ c :: join c qs.
Proof.
  intros Hp Hq. induction ps as [|p ps IH]; [done|]. destruct ps as [|q ps].
  - cbn [app join]. by destruct qs.
  - change (join c ((p :: q :: ps) ++ qs)) with (p ++ c :: join c ((q :: ps) ++ qs)). rewrite IH by done.
    change (join c (p :: q :: ps)) with (p ++ c :: join c (q :: ps)). by rewrite <- app_assoc.
Qed.
Lemma join_prefix c x p ps : x ++ join c (p :: ps) = join c ((x ++ p) :: ps).
Proof. destruct ps; cbn [join]; [done|]. by rewrite app_assoc. Qed.

Lemma pairs_of_join kv : join 59 (pairs_of kv) = encode_string kv.1 ++ 61 :: encode_value kv.2 ∧ pairs_of kv ≠ [].
Proof.
  unfold pairs_of. destruct kv as [k v]. cbn [fst snd]. destruct v as [| | | | | | | | | |[|e entries]| | | | |]; try done.
  split; [|done]. cbn [encode_value]. change (λ kv : bytes * Value, encode_string kv.1 ++ 61 :: encode_string (encode_value kv.2)) with map_item.
  cbn [fmap list_fmap]. change (61 :: 109 :: join 59 (map_item e :: (map_item <$> entries))) with ([61; 109] ++ join 59 (map_item e :: (map_item <$> entries))).
  rewrite !join_prefix. done.
Qed.
Lemma encode_properties_pairs p :
  p ≠ [] → encode_properties p = join 59 (flat_map pairs_of p) ∧ flat_map pairs_of p ≠ [].
Proof.
  intros Hne. unfold encode_properties. induction p as [|kv p IH]; [done|]. destruct (pairs_of_join kv) as [Hj Hn].
  destruct p as [|kv' p]; cbn [fmap list_fmap flat_map].
  - rewrite app_nil_r. by rewrite Hj.
  - destruct (IH ltac:(done)) as [IHe IHn]. cbn [flat_map] in IHe, IHn. split.
    + rewrite join_app, Hj by done. rewrite <- IHe. done.
    + by intros [? _]%app_nil.
Qed.

Lemma encode_properties_nonempty p : p ≠ [] → encode_properties p ≠ [].
Proof.
  unfold encode_properties. destruct p as [|kv p]; [done|]. intros _. cbn [fmap list_fmap].
  destruct ((λ kv : bytes * Value, encode_string kv.1 ++ 61 :: encode_value kv.2) <$> p); cbn [join]; [by intros [_ ?]%app_nil|].
  by intros [_ ?]%app_nil.
Qed.

(** Only a map has semicolons in its text. *)
Lemma flat_value_no v :
  value_wf v → bytes_ok v → (∀ m, v = VMap m → m = []) → no (is_char 59) (encode_value v).
Proof.
  intros Hwf Hok Hm.
  assert (∀ s (p : Z → bool), Forall (λ b, p b = true) s → p 59 = false → no (is_char 59) s) as Hno.
  { intros s p HF Hp. eapply Forall_impl; [exact HF|]. intros b Hb. cbn in Hb. unfold is_char. case_bool; [congruence|done]. }
  assert (∀ s, Forall (λ b, hex_char b = true) s → no (is_char 59) s) as Hhex by (intros; by eapply Hno).
  assert (∀ s, Forall (λ b, numeric b = true) s → no (is_char 59) s) as Hnum by (intros; by eapply Hno).
  pose proof (temporal_iso v Hwf) as Hiso. apply (Hno _ iso_char) in Hiso; [|done].
  destruct v; cbn [encode_value value_wf bytes_ok] in *; try (by constructor); try (constructor; [done|]).
  - destruct b; by repeat constructor.
  - apply Hnum, print_signed_numeric.
  - unfold is_u64 in Hwf. eapply Hno; [apply print_u128_digits; lia|done].
  - eapply Hno; [by apply decimal_iso|done].
  - apply Hhex. by apply encode_bytes_spec, utf8_bytes.
  - apply Hhex. by apply encode_bytes_spec.
  - apply Hhex. by apply encode_bytes_spec.
  - eapply (Hno _ (λ b, is_digit b || ((97 <=? b) && (b <=? 102)) || (b =? 45))); [by apply uuid_chars|done].
  - apply value_wf_list in Hwf. apply bytes_ok_list in Hok. clear Hiso.
    assert (Forall (nested_ok 59) l) as Hn.
    { apply Forall_forall. intros x Hx. rewrite Forall_forall in Hwf, Hok. by apply nested_value; [|apply Hwf|apply Hok]. }
    clear Hwf Hok Hm. induction Hn as [|x l [Hx _] Hn IH]; [constructor|]. destruct l; [done|].
    cbn [fmap list_fmap join] in *. apply Forall_app; split; [done|]. by constructor.
  - rewrite (Hm m eq_refl). constructor.
Qed.

Lemma map_item_no kv : utf8_valid kv.1 = true → value_wf kv.2 → bytes_ok kv.2 → no (is_char 59) (map_item kv).
Proof.
  intros Hk Hwf Hok. destruct (nested_value 59 kv.2 eq_refl Hwf Hok) as [Hn _].
  apply Forall_app; split; [by apply hex_no, utf8_bytes|]. by constructor.
Qed.
Lemma pairs_no k v : utf8_valid k = true → value_wf v → bytes_ok v → Forall (no (is_char 59)) (pairs_of (k, v)).
Proof.
  intros Hk Hwf Hok. assert (no (is_char 59) (encode_string k)) as Hkey by by apply hex_no, utf8_bytes.
  assert ((∀ m, v = VMap m → m = []) → Forall (no (is_char 59)) [encode_string k ++ 61 :: encode_value v]) as Hflat.
  { intros Hm. constructor; [|constructor]. apply Forall_app; split; [done|]. constructor; [done|by apply flat_value_no]. }
  unfold pairs_of. cbn [fst snd]. destruct v as [| | | | | | | | | |[|e entries]| | | | |]; try (apply Hflat; congruence).
  apply value_wf_map in Hwf as [_ Hwf]. apply bytes_ok_map in Hok. apply Forall_cons in Hwf as [[He Hwe] Hwf], Hok as [Hoe Hok].
  constructor.
  - apply Forall_app; split; [done|]. do 2 (constructor; [done|]). by apply map_item_no.
  - apply Forall_fmap, Forall_forall. rewrite Forall_forall in Hwf, Hok. intros kv Hkv. destruct (Hwf kv Hkv). by apply map_item_no; [| |apply Hok].
Qed.

Definition entry_ok (kv : bytes * Value) : Prop := utf8_valid kv.1 = true ∧ value_wf kv.2 ∧ bytes_ok kv.2.

Lemma pair_split k value :
  utf8_valid k = true → split_once 61 (encode_string k ++ 61 :: value) = Some (encode_string k, value).
Proof. intros Hk. apply split_at_first_hit; [by apply hex_no, utf8_bytes|done]. Qed.

(** The first digit of an entry's value. *)
Lemma continues_item kv : entry_ok kv → continues_map (map_item kv) = bool_decide (recognised kv).
Proof.
  intros (Hk & _ & _). unfold continues_map, map_item. rewrite pair_split by done.
  unfold recognised. destruct kv as [k v]. by destruct v.
Qed.
Lemma continues_pair kv p : utf8_valid kv.1 = true → ∃ first rest, pairs_of kv ++ p = first :: rest ∧ continues_map first = false.
Proof.
  intros Hk. unfold pairs_of. destruct kv as [k v]. cbn [fst snd] in *.
  destruct v as [| | | | | | | | | |[|e entries]| | | | |]; eexists _, _; (split; [reflexivity|]);
    unfold continues_map; rewrite pair_split by done; done.
Qed.
Lemma continues_bad kv : entry_ok kv → ¬ recognised kv → ∃ b t, encode_string (encode_value kv.2) = b :: t ∧ (b = 52 ∨ b = 53).
Proof.
  intros _ Hr. unfold recognised in Hr. destruct kv as [k v]. cbn [snd] in *. destruct v; try done; eexists _, _; (split; [reflexivity|]).
  all: vm_compute; tauto.
Qed.

Lemma decode_value_bad b t : b = 52 ∨ b = 53 → refused (decode_value (b :: t)).
Proof.
  intros Hb. rewrite decode_value_step. unfold decode_step. destruct (is_char_boundary _ _); [|by eexists _, _].
  destruct Hb as [-> | ->]; by eexists _, _.
Qed.

(** Where the continuation of a map stops: at the first entry that is not
    recognised, or after its last. *)
Lemma take_continuation_items entries tail :
  Forall entry_ok entries → (tail = [] ∨ ∃ first rest, tail = first :: rest ∧ continues_map first = false) →
  ∃ taken others, entries = taken ++ others ∧ Forall recognised taken ∧
    (others = [] ∨ ∃ kv rest, others = kv :: rest ∧ ¬ recognised kv) ∧
    take_continuation ((map_item <$> entries) ++ tail) = (map_item <$> taken, (map_item <$> others) ++ tail).
Proof.
  intros HF Htail. induction HF as [|kv entries Hkv HF IH]; cbn [fmap list_fmap app take_continuation].
  - exists [], []. split_and!; [done|done|by left|]. destruct Htail as [-> |(first & rest & -> & Hf)]; [done|]. cbn. by rewrite Hf.
  - rewrite continues_item by done. case_bool_decide as Hr.
    + destruct IH as (taken & others & -> & Ht & Ho & ->). exists (kv :: taken), others. split_and!; [done|by constructor|done|done].
    + exists [], (kv :: entries). split_and!; [done|done|right; by eexists _, _|done].
Qed.

Lemma value_head_m v : match encode_value v with c :: _ => c =? 109 | [] => false end = match v with VMap _ => true | _ => false end.
Proof. by destruct v. Qed.

Lemma take_continuation_stop tail :
  (tail = [] ∨ ∃ first rest, tail = first :: rest ∧ continues_map first = false) → take_continuation tail = ([], tail).
Proof. intros [-> |(first & rest & -> & Hf)]; [done|]. cbn. by rewrite Hf. Qed.

Lemma loop_step fuel k value pairs acc taken rest v :
  utf8_valid k = true →
  (match value with c :: _ => if c =? 109 then take_continuation pairs else ([], pairs) | [] => ([], pairs) end) = (taken, rest) →
  decode_value (join 59 (value :: taken)) = Ok v →
  decode_properties_loop (S fuel) ((encode_string k ++ 61 :: value) :: pairs) acc = decode_properties_loop fuel rest (bmap_insert k v acc).
Proof.
  intros Hk Ht Hv. cbn [decode_properties_loop]. rewrite pair_split by done. cbn [ok_or result_bind].
  rewrite decode_encode_string by done. cbn [result_bind]. rewrite Ht, Hv. done.
Qed.
(** A value that is refused stops the loop ... *)
Lemma loop_refused fuel k value pairs acc taken rest :
  utf8_valid k = true →
  (match value with c :: _ => if c =? 109 then take_continuation pairs else ([], pairs) | [] => ([], pairs) end) = (taken, rest) →
  refused (decode_value (join 59 (value :: taken))) →
  refused (decode_properties_loop (S fuel) ((encode_string k ++ 61 :: value) :: pairs) acc).
Proof.
  intros Hk Ht (m & i & Hv). exists m, i. cbn [decode_properties_loop]. rewrite pair_split by done. cbn [ok_or result_bind].
  rewrite decode_encode_string by done. cbn [result_bind]. by rewrite Ht, Hv.
Qed.
(** ... and so does a pair that no value starts. *)
Lemma loop_bad fuel kv pairs acc :
  entry_ok kv → ¬ recognised kv → refused (decode_properties_loop (S fuel) (map_item kv :: pairs) acc).
Proof.
  intros Hkv Hr. destruct (continues_bad kv Hkv Hr) as (b & t & E & Hb). destruct (decode_value_bad b t Hb) as (m & i & He).
  exists m, i. cbn [decode_properties_loop]. unfold map_item. destruct Hkv as (Hk & _). rewrite pair_split by done. cbn [ok_or result_bind].
  rewrite decode_encode_string by done. cbn [result_bind]. rewrite E.
  assert ((b =? 109) = false) as -> by lia. cbn [join]. by rewrite He.
Qed.

Lemma map_entries_ok (m : list (bytes * Value)) : value_wf (VMap m) → bytes_ok (VMap m) → Forall entry_ok m.
Proof.
  intros [_ Hwf]%value_wf_map Hok%bytes_ok_map. rewrite Forall_forall in *. intros kv Hkv. destruct (Hwf kv Hkv). split_and!; [done..|by apply Hok].
Qed.
Lemma map_prefix_ok (e : bytes * Value) taken others :
  value_wf (VMap (e :: taken ++ others)) → bytes_ok (VMap (e :: taken ++ others)) →
  value_wf (VMap (e :: taken)) ∧ bytes_ok (VMap (e :: taken)).
Proof.
  rewrite !value_wf_map, !bytes_ok_map, app_comm_cons, !Forall_app. intros [Hs [Hf _]] [Hf' _]. split; [|done]. split; [|done].
  by apply StronglySorted_app_1_l in Hs.
Qed.

Lemma decode_pairs p acc fuel :
  Forall entry_ok p → StronglySorted key_before (acc ++ p) → (length (flat_map pairs_of p) ≤ fuel)%nat →
  if decide (Forall (λ kv, survives kv.2) p)
  then decode_properties_loop fuel (flat_map pairs_of p) acc = Ok (acc ++ p)
  else refused (decode_properties_loop fuel (flat_map pairs_of p) acc).
Proof.
  revert acc fuel. induction p as [|[k v] p IH]; intros acc fuel HF Hs Hfuel.
  { rewrite decide_True by constructor. rewrite app_nil_r. by destruct fuel. }
  apply Forall_cons in HF as [(Hk & Hwf & Hok) HF]. cbn [fst snd] in *. cbn [flat_map] in *. set (tail := flat_map pairs_of p) in *.
  assert (tail = [] ∨ ∃ first rest, tail = first :: rest ∧ continues_map first = false) as Htail.
  { unfold tail. destruct HF as [|kv' p' (Hk' & _) _]; [by left|]. right. by apply continues_pair. }
  assert (bmap_insert k v acc = acc ++ [(k, v)]) as Hins.
  { apply bmap_insert_last. apply Forall_forall. intros kv Hkv.
    apply (StronglySorted_app_1_elem_of key_before acc ((k, v) :: p) kv (k, v) Hs Hkv). by left. }
  (* the rest of the properties, once this one is read *)
  assert (∀ fuel, (length tail ≤ fuel)%nat → survives v →
    if decide (Forall (λ kv, survives kv.2) ((k, v) :: p))
    then decode_properties_loop fuel tail (acc ++ [(k, v)]) = Ok (acc ++ (k, v) :: p)
    else refused (decode_properties_loop fuel tail (acc ++ [(k, v)]))) as Hrest.
  { clear Hfuel. intros fuel' Hf Hc. specialize (IH (acc ++ [(k, v)]) fuel' HF). rewrite <- app_assoc in IH. specialize (IH Hs Hf).
    destruct (decide (Forall _ p)) as [Hp|Hp].
    - rewrite decide_True by by constructor. done.
    - rewrite decide_False; [done|]. by intros [_ ?]%Forall_cons. }
  destruct fuel as [|fuel]; [destruct (continues_pair (k, v) tail Hk) as (f & r & E & _); rewrite E in Hfuel; cbn in Hfuel; lia|].
  pose proof (decode_encode_exact v Hwf Hok) as Hread.
  destruct (decide (pairs_of (k, v) = [encode_string k ++ 61 :: encode_value v] ∧ continuation_ok v)) as [[E Hc]|Hn].
  - rewrite E in Hfuel |- *. cbn [app length] in Hfuel |- *.
    assert (match encode_value v with c :: _ => if c =? 109 then take_continuation tail else ([], tail) | [] => ([], tail) end = ([], tail)) as Hstop.
    { destruct (encode_value v); [done|]. rewrite take_continuation_stop by done. by case_bool. }
    unfold reads_back in Hread. destruct (offsets_ok v) eqn:Ho.
    + rewrite (loop_step _ _ _ _ _ [] tail v), Hins by done. apply Hrest; [lia|by split].
    + rewrite decide_False by (intros [[Ho' _] _]%Forall_cons; cbn in Ho'; congruence). by eapply loop_refused.
  - destruct v as [| | | | | | | | | |[|e entries]| | | | |]; try (by destruct Hn; split). clear Hn Hread.
    assert (Forall entry_ok (e :: entries)) as Hent by by apply map_entries_ok. apply Forall_cons in Hent as [_ Hent].
    destruct (take_continuation_items entries tail Hent Htail) as (taken & others & -> & Ht & Ho & Htake).
    destruct (map_prefix_ok e taken others Hwf Hok) as [Hwf' Hok'].
    cbn [pairs_of fst snd app] in Hfuel |- *. cbn [length app] in Hfuel. rewrite length_app, fmap_app, length_app in Hfuel.
    pose proof (decode_encode_exact _ Hwf' Hok') as Hread.
    replace (encode_value (VMap (e :: taken))) with (join 59 ((109 :: map_item e) :: (map_item <$> taken))) in Hread
      by exact (eq_sym (join_prefix 59 [109] (map_item e) (map_item <$> taken))).
    unfold reads_back in Hread. destruct (offsets_ok (VMap (e :: taken))) eqn:Hoff.
    2: { rewrite decide_False; [by eapply loop_refused|]. intros [[Ho' _] _]%Forall_cons. cbn [snd offsets_ok] in Ho', Hoff.
         rewrite app_comm_cons, forallb_app in Ho'. by rewrite Hoff in Ho'. }
    rewrite (loop_step fuel k _ _ acc (map_item <$> taken) ((map_item <$> others) ++ tail) (VMap (e :: taken))); [|done|done|done].
    destruct Ho as [-> |(kv & rest & -> & Hbad)].
    + rewrite app_nil_r in *. rewrite Hins. apply Hrest; [cbn in *; lia|by split].
    + apply Forall_app in Hent as [_ Hent]. apply Forall_cons in Hent as [Hkv _].
      rewrite decide_False.
      2: { intros [[_ Hc] _]%Forall_cons. cbn in Hc. apply Forall_app in Hc as [_ Hc]. by apply Forall_cons in Hc as [? _]. }
      cbn [length fmap list_fmap] in Hfuel. destruct fuel as [|fuel]; [lia|]. by apply loop_bad.
Qed.
End PropertiesText.

(** ** UUIDs that satisfy the laws: hexadecimal with hyphens *)

Module HexUuid.
Fixpoint insert_hyphens (groups : list nat) (s : bytes) : bytes :=
  match groups with
  | [] => s
  | n :: groups => take n s ++ 45 :: insert_hyphens groups (drop n s)
  end.
#[export] Instance text : UuidText := {
  uuid_to_string u := insert_hyphens [8; 4; 4; 4]%nat (encode_bytes u);
  Uuid_parse_str s :=
    match decode_hex_bytes (List.filter (λ b, negb (b =? 45)) s) with
    | Ok u => if zlen u =? 16 then Some u else None
    | Err _ => None
    end;
}.

Lemma filter_hyphens groups s :
  Forall (λ b, hex_char b = true) s → List.filter (λ b, negb (b =? 45)) (insert_hyphens groups s) = s.
Proof.
  intros HF. revert s HF. induction groups as [|n groups IH]; intros s HF; cbn [insert_hyphens].
  - induction HF as [|b s Hb _ IH]; [done|]. cbn. unfold hex_char, is_digit in Hb. destruct (Z.eqb_spec b 45); [lia|]. cbn. by rewrite IH.
  - rewrite <- (take_drop n s) in HF. apply Forall_app in HF as [Ht Hd]. rewrite List.filter_app. cbn [List.filter Z.eqb Pos.eqb negb].
    rewrite IH by done. rewrite <- (take_drop n s) at 3. f_equal. clear - Ht.
    induction Ht as [|b t Hb _ IH]; [done|]. cbn. unfold hex_char, is_digit in Hb. destruct (Z.eqb_spec b 45); [lia|]. cbn. by rewrite IH.
Qed.
#[export] Instance laws : UuidTextLaws text.
Proof.
  constructor.
  - intros u Hl HF. destruct (encode_bytes_spec u HF) as (Hc & _ & _ & Hd). cbn [uuid_to_string Uuid_parse_str text].
    by rewrite filter_hyphens, Hd, Hl.
  - intros u Hl HF. destruct (encode_bytes_spec u HF) as (Hc & _). cbn [uuid_to_string text].
    assert (∀ groups s, Forall (λ b, hex_char b = true) s →
      Forall (λ b, is_digit b || ((97 <=? b) && (b <=? 102)) || (b =? 45) = true) (insert_hyphens groups s)) as H; [|by apply H].
    clear. induction groups as [|n groups IH]; intros s HF; cbn [insert_hyphens].
    + eapply Forall_impl; [exact HF|]. intros b. cbn. unfold hex_char. intros ->. done.
    + rewrite <- (take_drop n s) in HF. apply Forall_app in HF as [Ht Hd]. apply Forall_app; split; [|constructor; [done|by apply IH]].
      eapply Forall_impl; [exact Ht|]. intros b. cbn. unfold hex_char. intros ->. done.
Qed.
End HexUuid.

(** ** Theorems *)

Section Theorems.
Context {C : Chrono} {F : ChronoFields C} {U : UuidText}.

(** The depth of the text decoder.  Each nested value is hexadecimal inside
    its parent, so the recursion on a text of n bytes goes at most
    log2(n + 1) + 1 deep, whatever the text: any larger bound gives the same
    result, value or error. *)
Theorem text_decode_depth fuel input :
  (S (Nat.log2 (S (length input))) ≤ fuel)%nat → decode_fuel fuel input = decode_value input.
Proof. apply decode_fuel_enough. Qed.

Context `{!ChronoLaws C} `{!ChronoFieldLaws C F} `{!UuidTextLaws U}.

(** C30: which values read back from their text.  A well-formed value, nested to
    any depth, is written as graphic ASCII.  It decodes to itself (integers,
    decimals with their scale, floats bit for bit, strings, binaries, vectors,
    UUIDs, temporal values, lists and maps in key order) exactly when no zoned
    date-time in it has an offset of more than eighteen hours; otherwise its text
    is refused with a storage error. *)
Theorem text_value_roundtrip v :
  value_wf v → bytes_ok v →
  Forall (λ b, graphic b = true) (encode_value v) ∧
  (offsets_ok v = true → decode_value (encode_value v) = Ok v) ∧
  (offsets_ok v = false → ∃ message input, decode_value (encode_value v) = Err (Storage message input)).
Proof.
  intros Hwf Hok. split; [by apply encode_value_graphic|]. pose proof (decode_encode_exact v Hwf Hok) as H.
  unfold reads_back in H. by destruct (offsets_ok v).
Qed.

(** One temporal value has one text.  A temporal text that decodes is the
    rendering of the value it decodes to; and every well-formed temporal value
    decodes from its rendering, but a zoned date-time with an offset of more
    than eighteen hours, whose own rendering is refused. *)
Theorem temporal_text_canonical tag v :
  (∀ rest, decode_temporal tag rest = Ok v → temporal_to_string v = rest) ∧
  (temporal_text_tag v = Some tag → value_wf v →
   (offsets_ok v = true → decode_temporal tag (temporal_to_string v) = Ok v) ∧
   (offsets_ok v = false → ∃ message input, decode_temporal tag (temporal_to_string v) = Err (Storage message input))).
Proof.
  split.
  - intros rest. unfold decode_temporal. intros (d & _ & H)%result_bind_ok. case_bool_decide; [|done]. by injection H as <-.
  - intros Ht Hwf. split; [intros; apply decode_temporal_text; [done|done|]; split; by destruct v|]. intros Ho.
    destruct v; try done. injection Ht as <-. pose proof (decode_datetime_text _ _ _ Hwf) as H. unfold reads_back in H. by rewrite Ho in H.
Qed.

(** C28: which properties survive their text.  The properties of a record read
    back from their text exactly when no zoned date-time in them, at any depth,
    has an offset of more than eighteen hours, which the parser refuses, and no
    map among them has a temporal value after its first entry, which is not
    recognised as part of the map; otherwise the text is refused with a storage
    error. *)
Theorem properties_text_exact p :
  Forall entry_ok p → StronglySorted key_before p →
  (Forall (λ kv, survives kv.2) p → decode_properties (encode_properties p) = Ok p) ∧
  (¬ Forall (λ kv, survives kv.2) p → ∃ message input, decode_properties (encode_properties p) = Err (Storage message input)).
Proof.
  intros HF Hs. destruct (decide (p = [])) as [->|Hne]; [split; [done|]; intros []; constructor|].
  destruct (encode_properties_pairs p Hne) as [He Hn].
  assert (Forall (no (is_char 59)) (flat_map pairs_of p)) as Hno.
  { clear He Hn Hne Hs. induction HF as [|[k v] p (Hk & Hwf & Hok) _ IH]; [constructor|]. cbn [flat_map fst snd] in *. apply Forall_app; split; [|done].
    by apply pairs_no. }
  assert (decode_properties (encode_properties p) = decode_properties_loop (length (flat_map pairs_of p)) (flat_map pairs_of p) []) as ->.
  { pose proof (encode_properties_nonempty p Hne) as Hnil. unfold decode_properties. rewrite He in *.
    rewrite split_on_join by done. by destruct (join 59 (flat_map pairs_of p)). }
  pose proof (decode_pairs p [] _ HF Hs (le_n _)) as H. destruct (decide _); by split.
Qed.
End Theorems.

Module TextDemo.
Import Calendar Civil HexUuid TemporalDemo.

(** [{a: -5, b: [2026-10-30, null]}]. *)
Definition sample : Value := VMap [([97], VInt (-5)); ([98], VList [VDate day; VNull])].
Lemma sample_wf : value_wf sample ∧ bytes_ok sample.
Proof.
  split; [|by cbn]. apply value_wf_map. split.
  - constructor; [constructor; [constructor|constructor]|]. by repeat constructor.
  - constructor; [split; [done|cbn; unfold is_i64; lia]|]. constructor; [by split|constructor].
Qed.
Lemma text_value_roundtrip_witness :
  decode_value (encode_value sample) = Ok sample ∧ Forall (λ b, graphic b = true) (encode_value sample).
Proof. destruct sample_wf as [Hw Hb]. destruct (text_value_roundtrip sample Hw Hb) as (Hg & Hr & _). split; [by apply Hr|done]. Defined.

Lemma text_decode_depth_witness : decode_fuel 2 [110] = decode_value [110].
Proof. apply (text_decode_depth 2 [110]). cbn. lia. Defined.

Lemma temporal_text_canonical_witness : decode_temporal 68 (temporal_to_string (VDate day)) = Ok (VDate day).
Proof. apply (temporal_text_canonical 68 (VDate day)); done. Defined.

(** [{k: {a: null, b: 2026-10-30}}]. *)
Definition lost : list (bytes * Value) := [([107], VMap [([97], VNull); ([98], VDate day)])].
Lemma properties_text_exact_witness : ∃ message input, decode_properties (encode_properties lost) = Err (Storage message input).
Proof.
  apply (properties_text_exact lost).
  - constructor; [|constructor]. split; [done|]. split; [|by cbn]. apply value_wf_map. split.
    + constructor; [constructor; [constructor|constructor]|]. by repeat constructor.
    + by repeat constructor.
  - constructor; constructor.
  - intros [[_ H] _]%Forall_cons. cbn in H. by apply Forall_cons in H as [? _].
Defined.
End TextDemo.
