(* ===== verification/TextWellFormed.v ===== *)
(** What the text decoder accepts: every value it returns is well formed and can
    be written again.

    [ChronoParseLaws] and [UuidParseLaws] add to the laws of TemporalText.v and
    TextCodec.v what the constructors of the two crates say of their results. *)
From Stdlib Require Import Sorted.
From stdpp Require Import sorting.
From S2P Require Import Prelude Ordering Integrity Decimal DecimalArith DecimalText Text Values TemporalText DurationText WalValue TextCodec.

Class ChronoParseLaws (C : Chrono) (F : ChronoFields C) : Prop := {
  parsed_nanos h m s n t : from_hms_nano_opt h m s n = Some t → nanosecond t = n;
  min_nanos : nanosecond NaiveTime_MIN = 0;
  parsed_utc dt o dt' : and_local_timezone dt o = Some dt' → checked_add_offset dt' o = Some dt;
  parsed_offset z o : east_opt z = Some o → local_minus_utc o = z;
}.
Class UuidParseLaws (U : UuidText) : Prop := {
  parsed_uuid s u : Uuid_parse_str s = Some u → zlen u = 16 ∧ Forall is_byte u;
}.

(** ** Numbers *)

Lemma parse_digits_some s n : parse_digits s = Some n → 0 ≤ n < 10 ^ zlen s.
Proof.
  unfold parse_digits. destruct s as [|b t]; [done|]. destruct (forallb is_digit (b :: t)) eqn:E; [|done]. intros [= <-].
  assert (Forall digit ((λ b, b - 48) <$> b :: t)) as HF.
  { apply Forall_fmap, Forall_forall. intros x Hx. rewrite forallb_forall in E. apply list_elem_of_In, E in Hx.
    unfold is_digit, digit, compose in *. lia. }
  apply from_digits_bound in HF. unfold zlen in *. rewrite length_fmap in HF. done.
Qed.
Lemma parse_unsigned_some m s n : parse_unsigned m s = Some n → 0 ≤ n ≤ m.
Proof.
  unfold parse_unsigned. destruct (parse_digits _) as [z|] eqn:E; [|done]. apply parse_digits_some in E. case_bool; [|done]. intros [= <-]. lia.
Qed.
Lemma parse_signed_some lo hi s n : parse_signed lo hi s = Some n → lo ≤ n ≤ hi.
Proof.
  unfold parse_signed. destruct (match s with [] => _ | _ => _ end) as [z|]; [|done].
  destruct (Z.leb_spec lo z); [|done]. destruct (Z.leb_spec z hi); [|done]. intros [= <-]. lia.
Qed.
Lemma decimal_from_str_wf s d : Decimal_from_str s = Ok d → wf d.
Proof.
  unfold Decimal_from_str. intros ([[negative ds] sc] & Hp & Ha)%result_bind_ok. apply literal_parts_digits in Hp.
  pose proof (assemble_spec negative ds sc Hp) as H. rewrite Ha in H. apply H.
Qed.

Lemma decode_string_utf8 input s : decode_string input = Ok s → utf8_valid s = true.
Proof. unfold decode_string. intros (bs & _ & H)%result_bind_ok. destruct (utf8_valid bs) eqn:E; [|done]. by injection H as <-. Qed.
Lemma decode_hex_bytes_wf input bs : decode_hex_bytes input = Ok bs → Forall is_byte bs.
Proof.
  unfold decode_hex_bytes. case_bool; [|done]. clear. revert bs. induction input as [input IH] using (induction_ltof1 _ length).
  unfold ltof in IH. intros bs. destruct input as [|hi [|lo rest]]; cbn [decode_hex_pairs]; [by intros [= <-]; constructor..|].
  intros (h & Hh & (l & Hl & (bs' & Hb & [= <-])%result_bind_ok)%result_bind_ok)%result_bind_ok.
  constructor; [|apply (IH rest); [cbn; lia|done]].
  assert (∀ d n, decode_hex_digit d = Ok n → 0 ≤ n < 16) as Hr.
  { intros d n. unfold decode_hex_digit. repeat (case_bool; cbn [andb]; try done); intros [= <-]; lia. }
  apply Hr in Hh, Hl. rewrite Z.lor_comm, lor_shiftl_add by lia. unfold is_byte. change (2 ^ 4) with 16. lia.
Qed.

(** ** Maps *)

Lemma elem_of_bmap_insert {V} k (v : V) m e :
  e ∈ bmap_insert k v m → e ∈ m ∨ e.2 = v ∧ (e.1 = k ∨ ∃ w, (e.1, w) ∈ m ∧ list_cmp Z.compare k e.1 = Eq).
Proof.
  induction m as [|[k' v'] m IH]; cbn [bmap_insert].
  - intros ->%list_elem_of_singleton. right. by split; [|left].
  - destruct (list_cmp Z.compare k k') eqn:E; rewrite ?elem_of_cons.
    + intros [-> |?]; [|by left; right]. right. split; [done|]. right. exists v'. split; [by left|done].
    + intros [-> |?]; [right; by split; [|left]|by left].
    + intros [-> |[?|(? & [?|(w & ? & ?)])]%IH]; [by left; left|by left; right|right; by split; [|left]|].
      right. split; [done|]. right. exists w. split; [by right|done].
Qed.
Lemma bmap_insert_sorted {V} k (v : V) m :
  StronglySorted (λ a b : bytes * V, list_cmp Z.compare a.1 b.1 = Lt) m →
  StronglySorted (λ a b : bytes * V, list_cmp Z.compare a.1 b.1 = Lt) (bmap_insert k v m).
Proof.
  induction 1 as [|[k' v'] m Hs IH Hf]; cbn [bmap_insert]; [by repeat constructor|]. rewrite Forall_forall in Hf. cbn [fst] in Hf.
  destruct (list_cmp Z.compare k k') eqn:E.
  - constructor; [done|]. by apply Forall_forall.
  - constructor; [constructor; [done|by apply Forall_forall]|]. constructor; [done|]. apply Forall_forall. intros e He. cbn [fst].
    apply (ord_lt_le_trans (list_cmp Z.compare) _ k'); [done|]. by rewrite (Hf e He).
  - constructor; [done|]. apply Forall_forall. intros e [He|(_ & [-> |(w & Hw & _)])]%elem_of_bmap_insert; cbn [fst].
    + by apply Hf.
    + by apply (ord_gt_lt (list_cmp Z.compare)).
    + exact (Hf _ Hw).
Qed.

(** ** Temporal values *)

Section Temporal.
Context {C : Chrono} {F : ChronoFields C} `{!ChronoLaws C} `{!ChronoFieldLaws C F} `{!ChronoParseLaws C F}.

Lemma parse_fraction_range f input n : parse_fraction f input = Ok n → 0 ≤ n < 1000000000.
Proof.
  unfold parse_fraction. destruct (_ || _ || _) eqn:E; [done|]. intros (z & Hz & [= <-])%result_bind_ok.
  apply orb_false_elim in E as [E _]. apply orb_false_elim in E as [_ E]. unfold number in Hz.
  destruct (all_digits f) eqn:Ea; [|done]. unfold from_str_u32, parse_unsigned in Hz.
  assert (parse_digits f = Some z) as Hd.
  { destruct f as [|b t]; [done|]. cbn in Ea. apply andb_prop in Ea as [Hb _]. unfold is_digit in Hb.
    assert ((b =? 43) = false) as Hne by lia. rewrite Hne in Hz. destruct (parse_digits (b :: t)) as [n|]; [|done]. destruct (n <=? u32_max); [|done]. by injection Hz as ->. }
  apply parse_digits_some in Hd. rewrite iter_times_10. rewrite Z2Nat.id by lia. pose proof (zlen_nonneg f).
  assert (10 ^ zlen f * 10 ^ (9 - zlen f) = 1000000000) as Hp by (rewrite <- Z.pow_add_r by lia; by replace (zlen f + (9 - zlen f)) with 9 by lia).
  pose proof (Z.pow_pos_nonneg 10 (9 - zlen f)). nia.
Qed.

Lemma parse_time_regular text input t : parse_time_text text input = Ok t → time_regular t.
Proof.
  unfold parse_time_text. destruct (match split_at_first _ text with Some _ => _ | None => _ end) as [clock fraction].
  intros (fields & _ & H)%result_bind_ok. destruct (bad_fields fields); [done|]. destruct (match fraction with Some _ => _ | None => _ end); [done|].
  revert H. intros (h & _ & (m & _ & (s & _ & (n & Hn & H)%result_bind_ok)%result_bind_ok)%result_bind_ok)%result_bind_ok.
  destruct (59 <? s); [done|]. destruct (from_hms_nano_opt h m s n) eqn:E; [|done]. cbn in H. injection H as <-.
  apply parsed_nanos in E. unfold time_regular. rewrite E. destruct fraction; [apply parse_fraction_range in Hn; lia|]. injection Hn as <-. lia.
Qed.

(** An offset that parses is within eighteen hours. *)
Lemma offset_loop_range fields seconds input n :
  Forall (λ fs : bytes * Z, 0 ≤ fs.2) fields → 0 ≤ seconds → offset_loop fields seconds input = Ok n → 0 ≤ n.
Proof.
  intros HF. revert seconds. induction HF as [|[f scale] fields Hs _ IH]; intros seconds Hsec; cbn [offset_loop]; [by intros [= <-]|].
  intros (v & Hv & H)%result_bind_ok. destruct (_ || _); [done|]. apply IH in H; [done|]. cbn in Hs.
  unfold number in Hv. destruct (all_digits f) eqn:Ea; [|done]. destruct (from_str_i32 f) as [z|] eqn:E; [|done]. cbn in Hv. injection Hv as ->.
  assert (0 ≤ v); [|nia]. unfold from_str_i32, parse_signed in E. destruct f as [|b t]; [done|]. cbn in Ea. apply andb_prop in Ea as [Hb _].
  unfold is_digit in Hb. assert ((b =? 45) = false) as Hne by lia. assert ((b =? 43) = false) as Hne' by lia. rewrite Hne, Hne' in E.
  destruct (parse_digits (b :: t)) as [n'|] eqn:Ed; [|done]. apply parse_digits_some in Ed.
  destruct ((- 2 ^ 31 <=? n') && (n' <=? 2 ^ 31 - 1)); [|done]. injection E as <-. lia.
Qed.
Lemma parse_offset_range input o : parse_offset input = Ok o → Z.abs (local_minus_utc o) ≤ 18 * 3600.
Proof.
  unfold parse_offset. destruct (_ || _).
  { intros H. destruct (east_opt 0) eqn:E; [|done]. injection H as <-. rewrite (parsed_offset _ _ E). lia. }
  intros ([sign body] & Hsign & (fields & _ & H)%result_bind_ok)%result_bind_ok. destruct (bad_fields fields); [done|].
  revert H. intros (n & Hn & H)%result_bind_ok. destruct (Z.ltb_spec (18 * 3600) n); [done|].
  destruct (east_opt (sign * n)) eqn:E; [|done]. injection H as <-. rewrite (parsed_offset _ _ E).
  apply offset_loop_range in Hn; [| |lia].
  2: { apply Forall_forall. intros [fd sc] Hfc%elem_of_zip_r. cbn. rewrite !elem_of_cons in Hfc. destruct Hfc as [-> |[-> |[-> |Hfc]]]; [lia..|]. by apply elem_of_nil in Hfc. }
  assert (sign = 1 ∨ sign = -1) as [-> | ->]; [|lia..].
  destruct (trim input) as [|c t]; [done|]. destruct (c =? 43); [injection Hsign as <- <-; by left|].
  destruct (c =? 45); [injection Hsign as <- <-; by right|done].
Qed.

Lemma map_temporal_err_ok {A} f (r : TemporalResult A) a : map_temporal_err f r = Ok a → r = Ok a.
Proof. by destruct r as [|[]]. Qed.

Lemma parse_datetime_wf input d t o :
  parse_datetime input = Ok (d, t, o) → value_wf (VDateTime d t o) ∧ text_ok (VDateTime d t o).
Proof.
  unfold parse_datetime. destruct (existsb _ _); [done|].
  intros ([date time] & _ & (d0 & _ & ([t0 o0] & Hto & ([du tu] & Hu & [= <- <- <-])%result_bind_ok)%result_bind_ok)%result_bind_ok)%result_bind_ok.
  destruct (and_local_timezone (d0, t0) o0) as [dt|] eqn:E; [|done]. injection Hu as ->. apply parsed_utc in E.
  assert (time_regular t0 ∧ Z.abs (local_minus_utc o0) ≤ 18 * 3600) as [Hr Ho].
  { destruct time as [time|].
    - destruct (split_offset time) as [clock offset]. revert Hto.
      intros (o1 & Ho1 & (t1 & Ht1 & [= <- <-])%result_bind_ok)%result_bind_ok. apply map_temporal_err_ok in Ht1.
      split; [by eapply parse_time_regular|]. destruct offset as [x|].
      + apply map_temporal_err_ok in Ho1. by eapply parse_offset_range.
      + destruct (east_opt 0) eqn:E0; [|done]. injection Ho1 as <-. rewrite (parsed_offset _ _ E0). lia.
    - destruct (east_opt 0) eqn:E0; [|done]. cbn in Hto. injection Hto as <- <-. rewrite (parsed_offset _ _ E0).
      split; [unfold time_regular; rewrite min_nanos; lia|lia]. }
  pose proof (fields_nanos _ _ _ E) as Hn. cbn in Hn. cbn [value_wf]. unfold text_ok. cbn [bytes_ok offsets_ok]. split_and!; [|by eexists|done|lia].
  unfold time_regular in *. lia.
Qed.

Lemma parse_duration_wf input d : parse_duration input = Ok d → value_wf (VDuration d).
Proof.
  assert (∀ z n, i64_try_from z = Some n → is_i64 n) as Hi.
  { intros z n. unfold i64_try_from, is_i64, i64_min, i64_max. repeat (case_bool; cbn [andb]; try done). intros [= <-]. lia. }
  unfold parse_duration. destruct (match trim input with [] => _ | _ => _ end) as [negate text]. destruct (strip_char _ text) as [body|]; [|done].
  destruct (match split_at_first _ body with Some _ => _ | None => _ end) as [date time]. destruct (_ || _); [done|].
  intros (b & _ & (b' & _ & (d' & Hd & H)%result_bind_ok)%result_bind_ok)%result_bind_ok.
  assert (value_wf (VDuration d')) as Hwf.
  { unfold builder_finish in Hd. revert Hd. intros (da & _ & (na & _ & (mo & Hmo & (da' & Hda & Hf)%result_bind_ok)%result_bind_ok)%result_bind_ok)%result_bind_ok.
    destruct (i64_try_from _) eqn:E in Hmo; [|done]. injection Hmo as ->. destruct (i64_try_from da) eqn:E' in Hda; [|done]. injection Hda as ->.
    unfold from_parts in Hf. destruct (delta_from_nanos na); [|done]. injection Hf as <-. cbn. split; by eapply Hi. }
  destruct negate; [|by injection H as <-]. unfold Duration_checked_neg in H.
  destruct (i64_try_from (- d_months d')) eqn:E1; [|done]. destruct (i64_try_from (- d_days d')) eqn:E2; [|done].
  destruct (delta_from_nanos _); [|done]. injection H as <-. cbn. split; by eapply Hi.
Qed.

Lemma decode_temporal_wf kind rest v : decode_temporal kind rest = Ok v → value_wf v ∧ text_ok v.
Proof.
  unfold decode_temporal. intros (v' & Hv & H)%result_bind_ok. case_bool_decide; [|done]. injection H as <-.
  match type of Hv with map_err _ ?r = _ => destruct r as [w|] eqn:E; [|done] end. cbn in Hv. injection Hv as ->. revert E.
  repeat (case_bool; [|]).
  - by intros (d & _ & [= <-])%result_bind_ok.
  - intros (t & Ht & [= <-])%result_bind_ok. split; [|done]. unfold parse_local_time in Ht. by apply parse_time_regular in Ht.
  - intros ([d t] & Ht & [= <-])%result_bind_ok. split; [|done]. unfold parse_local_datetime in Ht.
    revert Ht. intros ([date time] & _ & (d0 & _ & (t0 & Ht & [= <- <-])%result_bind_ok)%result_bind_ok)%result_bind_ok.
    destruct time as [time|]; [apply map_temporal_err_ok in Ht; by apply parse_time_regular in Ht|]. injection Ht as <-.
    cbn. unfold time_regular. rewrite min_nanos. lia.
  - intros ([[d t] o] & Ht & [= <-])%result_bind_ok. by apply parse_datetime_wf in Ht.
  - intros (d & Hd & [= <-])%result_bind_ok. split; [|done]. by apply parse_duration_wf in Hd.
Qed.
End Temporal.

(** ** Values *)

Section Decoded.
Context {C : Chrono} {F : ChronoFields C} {U : UuidText}.
Context `{!ChronoLaws C} `{!ChronoFieldLaws C F} `{!ChronoParseLaws C F} `{!UuidParseLaws U}.

Definition writable (v : Value) : Prop := value_wf v ∧ text_ok v.

Lemma writable_list l : Forall writable l → writable (VList l).
Proof. intros HF. split; [apply value_wf_list|apply text_ok_list]; (eapply Forall_impl; [exact HF|]); by intros v []. Qed.
Lemma writable_map m :
  StronglySorted key_before m → Forall (λ kv, utf8_valid kv.1 = true ∧ writable kv.2) m → writable (VMap m).
Proof.
  intros Hs HF. split; [apply value_wf_map; split; [done|]|apply text_ok_map]; (eapply Forall_impl; [exact HF|]); by intros kv (? & ? & ?).
Qed.

Lemma decode_list_items_wf decode items l :
  (∀ text v, decode text = Ok v → writable v) → decode_list_items decode items = Ok l → Forall writable l.
Proof.
  intros Hd. unfold decode_list_items. revert l. induction items as [|item items IH]; intros l; cbn [try_map]; [by intros [= <-]|].
  intros (v & (text & _ & Hv)%result_bind_ok & (vs & Hvs & [= <-])%result_bind_ok)%result_bind_ok. constructor; [by eapply Hd|by apply IH].
Qed.
Lemma decode_map_items_wf decode items acc m :
  (∀ text v, decode text = Ok v → writable v) → decode_map_items decode items acc = Ok m →
  StronglySorted key_before acc → Forall (λ kv, utf8_valid kv.1 = true ∧ writable kv.2) acc →
  StronglySorted key_before m ∧ Forall (λ kv, utf8_valid kv.1 = true ∧ writable kv.2) m.
Proof.
  intros Hd. revert acc. induction items as [|item items IH]; intros acc; cbn [decode_map_items]; [by intros [= <-]|].
  intros ([key encoded] & _ & (k & Hk & (text & _ & (v & Hv & H)%result_bind_ok)%result_bind_ok)%result_bind_ok)%result_bind_ok Hs HF.
  apply (IH _ H); [by apply bmap_insert_sorted|]. apply Forall_forall. rewrite Forall_forall in HF.
  apply Hd in Hv. apply decode_string_utf8 in Hk.
  intros [k' v'] [He|(E & [E'|(w & Hw & _)])]%elem_of_bmap_insert; cbn [fst snd] in *.
  - exact (HF _ He).
  - by subst.
  - subst. split; [|done]. exact (proj1 (HF _ Hw)).
Qed.

Lemma decode_step_wf decode input v :
  (∀ text v, decode text = Ok v → writable v) → decode_step decode input = Ok v → writable v.
Proof.
  intros Hd. unfold decode_step. destruct input as [|kind rest]; [done|].
  repeat match goal with |- (if ?c then _ else _) = Ok _ → _ => destruct c end; try done.
  - by intros [= <-].
  - by intros [= <-].
  - by intros [= <-].
  - intros (z & Hz & [= <-])%result_bind_ok. unfold parse_i64 in Hz. destruct (parse_signed _ _ _) eqn:E; [|done]. injection Hz as <-.
    apply parse_signed_some in E. split; [|done]. cbn. unfold is_i64, i64_min, i64_max in *. lia.
  - intros (d & Hz & [= <-])%result_bind_ok. destruct (Decimal_from_str rest) eqn:E; [|done]. injection Hz as <-.
    split; [|done]. by apply decimal_from_str_wf in E.
  - intros (z & Hz & [= <-])%result_bind_ok. unfold parse_u64 in Hz. destruct (parse_unsigned _ _) eqn:E; [|done]. injection Hz as <-.
    apply parse_unsigned_some in E. split; [|done]. cbn. unfold is_u64, u64_max in *. lia.
  - intros (s & Hs & [= <-])%result_bind_ok. split; [|done]. by apply decode_string_utf8 in Hs.
  - intros (u & Hu & [= <-])%result_bind_ok. destruct (Uuid_parse_str rest) eqn:E; [|done]. injection Hu as <-. by apply parsed_uuid in E as [? ?].
  - intros (b & Hb & [= <-])%result_bind_ok. split; [done|]. apply decode_hex_bytes_wf in Hb. by split.
  - intros (b & Hb & (e & He & [= <-])%result_bind_ok)%result_bind_ok. unfold validate_vector in He.
    destruct (vector_from_encoded b) as [e'|] eqn:E; [|done]. injection He as <-. assert (e' = b) as ->.
    { revert E. unfold vector_from_encoded. repeat case_match; try done. by intros [= <-]. }
    split; [done|]. apply decode_hex_bytes_wf in Hb. by split.
  - intros H. by apply decode_temporal_wf in H.
  - intros (l & Hl & [= <-])%result_bind_ok. apply writable_list. destruct rest; [by injection Hl as <-|]. by eapply decode_list_items_wf.
  - intros (m & Hm & [= <-])%result_bind_ok. destruct rest; [injection Hm as <-; apply writable_map; constructor|].
    apply decode_map_items_wf in Hm as [Hs HF]; [by apply writable_map|done|constructor|constructor].
Qed.
Lemma decode_fuel_wf fuel input v : decode_fuel fuel input = Ok v → writable v.
Proof.
  revert input v. induction fuel as [|fuel IH]; intros input v; [done|]. cbn [decode_fuel]. by apply decode_step_wf.
Qed.

Context `{!UuidTextLaws U}.

(** C29: what the text decoder returns is a value of the model's types.  Whatever
    the text, a value it decodes to is well formed: integers and float bits in
    range, strings UTF-8, decimals and vectors valid, UUIDs of sixteen bytes,
    map keys in strict order, times of day regular and offsets within eighteen
    hours; so it can be written again, and what is written reads back as the
    same value. *)
Theorem text_decode_type input v :
  decode_value input = Ok v → writable v ∧ decode_value (encode_value v) = Ok v.
Proof. intros H. apply decode_fuel_wf in H as [Hwf Hok]. split; [done|]. by apply text_decode_encode. Qed.
End Decoded.

Module DecodedDemo.
Import Calendar Civil HexUuid.
#[local] Instance parse_laws : ChronoParseLaws chrono fields.
Proof.
  constructor.
  - intros h m s n t. change (from_hms_nano h m s n = Some t → (`t).2 = n). unfold from_hms_nano.
    destruct (_ && _); [|done]. intros E%bounded_some. by rewrite E.
  - done.
  - intros dt o dt' H. change (shift dt (- `o) = Some dt') in H. apply shift_back in H as [H _]. rewrite Z.opp_involutive in H. exact H.
  - intros z o H. exact (bounded_some _ _ _ H).
Qed.
#[local] Instance uuid_parse_laws : UuidParseLaws text.
Proof.
  constructor. intros s u. cbn [Uuid_parse_str text]. destruct (decode_hex_bytes _) as [b|] eqn:E; [|done].
  destruct (Z.eqb_spec (zlen b) 16); [|done]. intros [= <-]. split; [done|]. by apply decode_hex_bytes_wf in E.
Qed.

(** [l6e,692b35] is [[null, 5]] with the sign written. *)
Lemma text_decode_type_witness :
  writable (VList [VNull; VInt 5]) ∧ decode_value (encode_value (VList [VNull; VInt 5])) = Ok (VList [VNull; VInt 5]).
Proof. apply (text_decode_type (lit "l6e,692b35")). reflexivity. Defined.
End DecodedDemo.
