(* ===== verification/ProjectionPredicates.v ===== *)
(** Projected relationship predicates and their text: crates/storage/src/projection.rs
    and crates/storage/src/projection/predicate_decode.rs.

    The log and the checkpoints write the predicates of a projected graph with
    this codec. *)
From Stdlib Require Import Sorted.
From stdpp Require Import sorting.
From S2P Require Import Prelude Ordering Integrity Decimal DecimalText Text Values TemporalText DurationText WalValue TextCodec.

Inductive ProjectedRelationshipPredicate `{Chrono} : Type :=
  | PredAnd (predicates : list ProjectedRelationshipPredicate)
  | PredEq (property : bytes) (value : Value)
  | PredGte (property : bytes) (value : Value).

Section Predicates.
Context {C : Chrono} {F : ChronoFields C} {U : UuidText}.

Fixpoint projected_relationship_predicate_to_value (predicate : ProjectedRelationshipPredicate) : Value :=
  match predicate with
  | PredAnd predicates =>
      VList [VString (lit "and"); VList (projected_relationship_predicate_to_value <$> predicates)]
  | PredEq property value => VList [VString (lit "eq"); VString property; value]
  | PredGte property value => VList [VString (lit "gte"); VString property; value]
  end.

Definition predicate_error (operator : bytes) : HawDBError :=
  Storage "invalid projected relationship predicate operator or arity: {operator}" operator.

(** [predicate_decode::decode] with the ordinary decoder. *)
Fixpoint projected_relationship_predicate_from_value (value : Value) : Result ProjectedRelationshipPredicate :=
  match value with
  | VList [] => Err (Storage "projected relationship predicate is missing its operator" [])
  | VList (VString operator :: fields) =>
      if is_lit operator "and" && (zlen fields =? 1) then
        match fields with
        | VList (child :: children) :: _ =>
            let? first := projected_relationship_predicate_from_value child in
            let? rest :=
              (fix decode_children (children : list Value) : Result (list ProjectedRelationshipPredicate) :=
                 match children with
                 | [] => Ok []
                 | child :: children =>
                     let? p := projected_relationship_predicate_from_value child in
                     let? ps := decode_children children in
                     Ok (p :: ps)
                 end) children in
            Ok (PredAnd (first :: rest))
        | _ => Err (predicate_error operator)
        end
      else if (is_lit operator "eq" || is_lit operator "gte") && (zlen fields =? 2) then
        match fields with
        | VString property :: value :: _ =>
            Ok (if is_lit operator "eq" then PredEq property value else PredGte property value)
        | _ => Err (predicate_error operator)
        end
      else Err (predicate_error operator)
  | VList (_ :: _) => Err (Storage "projected relationship predicate operator must be a string" [])
  | _ => Err (Storage "projected relationship predicate must decode to a list" [])
  end.

(** [collect::<BTreeMap<_, _>>()]. *)
Definition bmap_collect {V} (entries : list (bytes * V)) : list (bytes * V) :=
  foldl (λ m kv, bmap_insert kv.1 kv.2 m) [] entries.

Definition encode_projected_relationship_predicates (predicates : list (bytes * ProjectedRelationshipPredicate)) : bytes :=
  encode_value (VMap (bmap_collect ((λ kv, (kv.1, projected_relationship_predicate_to_value kv.2)) <$> predicates))).

Definition decode_projected_relationship_predicates (encoded : bytes)
    : Result (list (bytes * ProjectedRelationshipPredicate)) :=
  match encoded with
  | [] => Ok []
  | _ =>
      let? value := decode_value encoded in
      match value with
      | VMap predicates =>
          let? entries :=
            try_map (λ kv, let? p := projected_relationship_predicate_from_value kv.2 in Ok (kv.1, p)) predicates in
          Ok (bmap_collect entries)
      | _ => Err (Storage "projected relationship predicates must decode to a map" [])
      end
  end.
End Predicates.

(** ** Induction on predicates *)

Section PredicateInd.
Context {C : Chrono} (P : ProjectedRelationshipPredicate → Prop).
Context (Pand : ∀ ps, Forall P ps → P (PredAnd ps)).
Context (Peq : ∀ property value, P (PredEq property value)).
Context (Pgte : ∀ property value, P (PredGte property value)).

Fixpoint predicate_ind' (p : ProjectedRelationshipPredicate) : P p :=
  match p with
  | PredAnd ps => Pand ps ((fix go ps := match ps return Forall P ps with
                            | [] => Forall_nil_2 _
                            | p :: ps => Forall_cons_2 _ _ _ (predicate_ind' p) (go ps) end) ps)
  | PredEq property value => Peq property value
  | PredGte property value => Pgte property value
  end.
End PredicateInd.

Section Roundtrip.
Context {C : Chrono} {F : ChronoFields C} {U : UuidText}.

(** The leaves of a predicate satisfy [P]. *)
Fixpoint leaves (P : bytes → Value → Prop) (p : ProjectedRelationshipPredicate) : Prop :=
  match p with
  | PredAnd ps => (fix all ps : Prop := match ps with [] => True | p :: ps => leaves P p ∧ all ps end) ps
  | PredEq property value | PredGte property value => P property value
  end.
Lemma leaves_and P ps : leaves P (PredAnd ps) ↔ Forall (leaves P) ps.
Proof. cbn. induction ps as [|p ps IH]; [by split; constructor|]. rewrite Forall_cons. tauto. Qed.
Definition leaf_ok (property : bytes) (value : Value) : Prop := utf8_valid property = true ∧ value_wf value ∧ text_ok value.

(** No conjunction of nothing, at any depth. *)
Fixpoint conjunctions_nonempty (p : ProjectedRelationshipPredicate) : bool :=
  match p with
  | PredAnd [] => false
  | PredAnd ps => forallb conjunctions_nonempty ps
  | _ => true
  end.

Lemma to_value_ok p : leaves leaf_ok p →
  value_wf (projected_relationship_predicate_to_value p) ∧ text_ok (projected_relationship_predicate_to_value p).
Proof.
  induction p as [ps IH|property value|property value] using predicate_ind'.
  - rewrite leaves_and. intros HF. cbn [projected_relationship_predicate_to_value]. rewrite !value_wf_list, !text_ok_list.
    assert (Forall value_wf (projected_relationship_predicate_to_value <$> ps) ∧ Forall text_ok (projected_relationship_predicate_to_value <$> ps)) as [H1 H2].
    { rewrite !Forall_fmap, !Forall_forall in *. split; intros p Hp; by apply IH, HF. }
    split; (constructor; [done|]; constructor; [|constructor]); [by apply value_wf_list|by apply text_ok_list].
  - intros (Hp & Hwf & Hb & Ho). unfold text_ok. cbn. rewrite Ho. split_and!; done.
  - intros (Hp & Hwf & Hb & Ho). unfold text_ok. cbn. rewrite Ho. split_and!; done.
Qed.

Lemma from_value_and ps :
  projected_relationship_predicate_from_value (projected_relationship_predicate_to_value (PredAnd ps)) =
  match ps with
  | [] => Err (predicate_error (lit "and"))
  | _ => let? qs := try_map (λ p, projected_relationship_predicate_from_value (projected_relationship_predicate_to_value p)) ps in Ok (PredAnd qs)
  end.
Proof.
  cbn [projected_relationship_predicate_to_value projected_relationship_predicate_from_value].
  change (is_lit (lit "and") "and") with true. cbn [andb zlen]. destruct ps as [|p ps]; [done|]. cbn [fmap list_fmap try_map].
  change (zlen _ =? 1) with true. cbn iota.
  destruct (projected_relationship_predicate_from_value (projected_relationship_predicate_to_value p)) as [q|]; [|done]. cbn [result_bind].
  match goal with |- context [?f (projected_relationship_predicate_to_value <$> ps)] => set (loop := f) end.
  assert (loop (projected_relationship_predicate_to_value <$> ps) =
    try_map (λ p, projected_relationship_predicate_from_value (projected_relationship_predicate_to_value p)) ps) as ->.
  { clear. induction ps as [|p ps IH]; [done|]. cbn [fmap list_fmap try_map]. rewrite <- IH. reflexivity. }
  by destruct (try_map _ ps).
Qed.

(** Reading back a predicate: exact, but for conjunctions of nothing. *)
Lemma from_to_value p :
  if conjunctions_nonempty p
  then projected_relationship_predicate_from_value (projected_relationship_predicate_to_value p) = Ok p
  else ∃ e, projected_relationship_predicate_from_value (projected_relationship_predicate_to_value p) = Err e.
Proof.
  induction p as [ps IH|property value|property value] using predicate_ind'; [|done..].
  rewrite from_value_and. destruct ps as [|p ps]; [by eexists|]. cbn [conjunctions_nonempty].
  set (f := λ p, projected_relationship_predicate_from_value _). change (conjunctions_nonempty p) with (conjunctions_nonempty p).
  assert (if forallb conjunctions_nonempty (p :: ps) then try_map f (p :: ps) = Ok (p :: ps) else ∃ e, try_map f (p :: ps) = Err e) as H.
  { induction IH as [|q qs Hq _ IHqs]; [done|]. cbn [forallb try_map]. change (f q) with (projected_relationship_predicate_from_value (projected_relationship_predicate_to_value q)).
    destruct (conjunctions_nonempty q); cbn [andb].
    - rewrite Hq. cbn [result_bind]. destruct (forallb conjunctions_nonempty qs); [by rewrite IHqs|]. destruct IHqs as [e ->]. by exists e.
    - destruct Hq as [e ->]. by exists e. }
  destruct (forallb conjunctions_nonempty (p :: ps)); [by rewrite H|]. destruct H as [e ->]. by exists e.
Qed.

Lemma bmap_collect_sorted {V} (l : list (bytes * V)) :
  StronglySorted (λ a b, list_cmp Z.compare a.1 b.1 = Lt) l → bmap_collect l = l.
Proof.
  unfold bmap_collect. change l with ([] ++ l) at 1 3. generalize (@nil (bytes * V)) as before. intros before. revert before.
  induction l as [|[k v] l IH]; intros before Hs; [by rewrite app_nil_r|]. cbn [foldl fst snd].
  rewrite bmap_insert_last.
  2: { apply Forall_forall. intros kv Hkv.
       apply (StronglySorted_app_1_elem_of _ before ((k, v) :: l) kv (k, v) Hs Hkv). by left. }
  rewrite IH; by rewrite <- app_assoc.
Qed.
End Roundtrip.

Section Theorems.
Context {C : Chrono} {F : ChronoFields C} {U : UuidText}.
Context `{!ChronoLaws C} `{!ChronoFieldLaws C F} `{!UuidTextLaws U}.

(** The predicates of a projected graph: keys in order, leaves the text can carry. *)
Record predicates_ok (ps : list (bytes * ProjectedRelationshipPredicate)) : Prop := {
  keys_sorted : StronglySorted (λ a b, list_cmp Z.compare a.1 b.1 = Lt) ps;
  keys_utf8 : Forall (λ kv, utf8_valid kv.1 = true) ps;
  leaves_ok : Forall (λ kv, leaves leaf_ok kv.2) ps;
}.
Definition all_nonempty (ps : list (bytes * ProjectedRelationshipPredicate)) : bool :=
  forallb (λ kv, conjunctions_nonempty kv.2) ps.
Definition value_entry (kv : bytes * ProjectedRelationshipPredicate) : bytes * Value :=
  (kv.1, projected_relationship_predicate_to_value kv.2).

Lemma encode_predicates_value ps :
  predicates_ok ps →
  encode_projected_relationship_predicates ps = encode_value (VMap (value_entry <$> ps)) ∧
  value_wf (VMap (value_entry <$> ps)) ∧ text_ok (VMap (value_entry <$> ps)).
Proof.
  intros [Hs Hk Hl].
  assert (StronglySorted (λ a b : bytes * Value, list_cmp Z.compare a.1 b.1 = Lt) (value_entry <$> ps)) as Hs'.
  { clear Hk Hl. induction Hs as [|kv ps Hs IH Hf]; [constructor|]. cbn [fmap list_fmap]. constructor; [done|]. by apply Forall_fmap. }
  split_and!.
  - unfold encode_projected_relationship_predicates. by rewrite bmap_collect_sorted.
  - apply value_wf_map. split; [done|]. apply Forall_fmap, Forall_forall. rewrite Forall_forall in Hk, Hl. intros kv Hkv.
    split; [by apply Hk|]. by apply to_value_ok, Hl.
  - apply text_ok_map. apply Forall_fmap. eapply Forall_impl; [exact Hl|]. intros kv H. by apply to_value_ok.
Qed.

Lemma decode_entries ps :
  let f := λ kv : bytes * Value, let? p := projected_relationship_predicate_from_value kv.2 in Ok (kv.1, p) in
  if all_nonempty ps then try_map f (value_entry <$> ps) = Ok ps else ∃ e, try_map f (value_entry <$> ps) = Err e.
Proof.
  intros f. induction ps as [|[k p] ps IH]; [done|]. cbn [all_nonempty forallb fmap list_fmap try_map snd].
  change (f (value_entry (k, p))) with (let? p := projected_relationship_predicate_from_value (projected_relationship_predicate_to_value p) in Ok (k, p)).
  pose proof (from_to_value p) as Hp. destruct (conjunctions_nonempty p); cbn [andb].
  - rewrite Hp. cbn [result_bind]. fold (all_nonempty ps). destruct (all_nonempty ps); [by rewrite IH|]. destruct IH as [e ->]. by exists e.
  - destruct Hp as [e ->]. by exists e.
Qed.

Lemma decode_encode_predicates ps :
  predicates_ok ps →
  if all_nonempty ps then decode_projected_relationship_predicates (encode_projected_relationship_predicates ps) = Ok ps
  else ∃ e, decode_projected_relationship_predicates (encode_projected_relationship_predicates ps) = Err e.
Proof.
  intros Hps. destruct (encode_predicates_value ps Hps) as (-> & Hwf & Hok). unfold decode_projected_relationship_predicates.
  destruct (encode_value (VMap (value_entry <$> ps))) eqn:E; [done|]. rewrite <- E, text_decode_encode by done. cbn [result_bind].
  pose proof (decode_entries ps) as H. cbv zeta in H. destruct (all_nonempty ps).
  - rewrite H. cbn [result_bind]. by rewrite (bmap_collect_sorted _ (keys_sorted _ Hps)).
  - destruct H as [e ->]. by exists e.
Qed.

(** The predicates of a projected graph survive their text exactly when they
    hold no conjunction of nothing: such a conjunction is written and then
    refused, anything else reads back, values of every kind in the leaves. *)
Theorem projection_predicates_exact ps :
  predicates_ok ps →
  (all_nonempty ps = true → decode_projected_relationship_predicates (encode_projected_relationship_predicates ps) = Ok ps) ∧
  (all_nonempty ps = false → ∃ e, decode_projected_relationship_predicates (encode_projected_relationship_predicates ps) = Err e).
Proof. intros Hps. pose proof (decode_encode_predicates ps Hps) as H. by destruct (all_nonempty ps). Qed.

(** The text of the predicates is text. *)
Lemma encode_predicates_text ps : predicates_ok ps → utf8_valid (encode_projected_relationship_predicates ps) = true.
Proof. intros Hps. destruct (encode_predicates_value ps Hps) as (-> & Hwf & Hb & _). by apply graphic_utf8, encode_value_graphic. Qed.
End Theorems.

Module PredicateDemo.
Import Calendar Civil HexUuid.

(** [{KNOWS: weight >= 3 and kind = "a"}]. *)
Definition sample : list (bytes * ProjectedRelationshipPredicate) :=
  [(lit "KNOWS", PredAnd [PredGte (lit "weight") (VInt 3); PredEq (lit "kind") (VString (lit "a"))])].
Lemma sample_ok : predicates_ok sample.
Proof.
  constructor.
  - by repeat constructor.
  - by repeat constructor.
  - by repeat constructor.
Qed.
Lemma projection_predicates_exact_witness :
  decode_projected_relationship_predicates (encode_projected_relationship_predicates sample) = Ok sample.
Proof. by apply (projection_predicates_exact sample sample_ok). Defined.
End PredicateDemo.
