(* ===== verification/WalOps.v ===== *)
(** WAL operations and their op bodies: [WalOp] and [validate_wal_op_values] of
    crates/storage/src/wal.rs, [encode_op_body] and [OpFields] of wal/binary.rs,
    and the dispatch of wal/binary/op_decode.rs.

    The predicates of a projected graph are written as text
    ([ProjectionPredicates]). *)
From stdpp Require Import sorting.
From S2P Require Import Prelude Ordering TemporalText TextCodec ProjectionPredicates Wire Decimal Values WalValue.

Inductive WalOp `{Chrono} : Type :=
  | CreateNodeLabel (label : bytes)
  | CreateRelationshipType (rel_type : bytes)
  | CreateNodeTable (name : bytes)
  | CreateRelationshipTable (name : bytes)
  | CreateProperty (table_kind : TableKind) (table property : bytes) (value_type : PropertyType) (nullable : bool)
  | AlterTableState (table_kind : TableKind) (table : bytes) (state : SchemaObjectState)
  | AlterPropertyState (table_kind : TableKind) (table property : bytes) (state : SchemaObjectState)
  | GcTableDescriptor (table_kind : TableKind) (table : bytes)
  | GcPropertyDescriptor (table_kind : TableKind) (table property : bytes)
  | CreateIndex (label property : bytes)
  | CreateCompositeIndex (label : bytes) (properties : list bytes)
  | CreateRangeIndex (label property : bytes)
  | CreateFullTextIndex (label property : bytes)
  | CreateUniqueConstraint (label property : bytes)
  | CreateNodePropertyExistsConstraint (label property : bytes)
  | CreateRelationshipUniqueConstraint (rel_type property : bytes)
  | CreateRelationshipPropertyExistsConstraint (rel_type property : bytes)
  | CreateNode (id : Z) (label : bytes) (properties : list (bytes * Value))
  | CreateRelationship (id source target : Z) (rel_type : bytes) (properties : list (bytes * Value))
  | SetNodeProperty (id : Z) (property : bytes) (value : Value)
  | SetRelationshipProperty (id : Z) (property : bytes) (value : Value)
  | DeleteNode (id : Z)
  | DeleteRelationship (id : Z)
  | ProjectGraph (name : bytes) (node_labels rel_types : list bytes)
      (relationship_predicates : list (bytes * ProjectedRelationshipPredicate))
  | MarkInitialImportSource (source_fingerprint : bytes)
  | Relational (record : bytes)
  | RelationalSnapshot (record : bytes)
  | AppendOp (record : bytes)
  | Batch (ops : list WalOp).

(** ** Enum codes *)

Definition table_kind_code (k : TableKind) : Z := match k with KindNode => 0 | KindRelationship => 1 end.
Definition decode_table_kind_code (code : Z) : Result TableKind :=
  if code =? 0 then Ok KindNode else if code =? 1 then Ok KindRelationship
  else Err (Storage "invalid table kind: {code}" [code]).

Definition property_type_code (t : PropertyType) : Z :=
  match t with
  | PAny => 0 | PBool => 1 | PInt => 2 | PFloat => 3 | PString => 4 | PListType => 5 | PText => 6
  | PVector dimension => Z.lor (Z.shiftl dimension 8) 7
  end.
Definition decode_property_type_code (code : Z) : Result PropertyType :=
  if code =? 0 then Ok PAny else if code =? 1 then Ok PBool else if code =? 2 then Ok PInt
  else if code =? 3 then Ok PFloat else if code =? 4 then Ok PString else if code =? 5 then Ok PListType
  else if code =? 6 then Ok PText
  else if Z.land code 0xff =? 7 then
    let dimension := Z.shiftr code 8 in
    if (dimension <=? u32_max) && negb (dimension =? 0) then Ok (PVector dimension)
    else Err (Storage "invalid vector property dimension" [])
  else Err (Storage "invalid property type: {code}" [code]).

Definition schema_object_state_code (s : SchemaObjectState) : Z :=
  match s with DeleteOnly => 0 | WriteOnly => 1 | Backfill => 2 | Validating => 3 | Public => 4 | Gc => 5 end.
Definition decode_schema_object_state_code (code : Z) : Result SchemaObjectState :=
  if code =? 0 then Ok DeleteOnly else if code =? 1 then Ok WriteOnly else if code =? 2 then Ok Backfill
  else if code =? 3 then Ok Validating else if code =? 4 then Ok Public else if code =? 5 then Ok Gc
  else Err (Storage "invalid schema object state: {code}" [code]).

Definition OP_CREATE_NODE_LABEL : Z := 1.
Definition OP_CREATE_RELATIONSHIP_TYPE : Z := 2.
Definition OP_CREATE_NODE_TABLE : Z := 3.
Definition OP_CREATE_RELATIONSHIP_TABLE : Z := 4.
Definition OP_CREATE_PROPERTY : Z := 5.
Definition OP_ALTER_TABLE_STATE : Z := 6.
Definition OP_ALTER_PROPERTY_STATE : Z := 7.
Definition OP_GC_TABLE_DESCRIPTOR : Z := 8.
Definition OP_GC_PROPERTY_DESCRIPTOR : Z := 9.
Definition OP_CREATE_INDEX : Z := 10.
Definition OP_CREATE_COMPOSITE_INDEX : Z := 11.
Definition OP_CREATE_RANGE_INDEX : Z := 12.
Definition OP_CREATE_FULL_TEXT_INDEX : Z := 13.
Definition OP_CREATE_UNIQUE_CONSTRAINT : Z := 14.
Definition OP_CREATE_NODE_PROPERTY_EXISTS_CONSTRAINT : Z := 15.
Definition OP_CREATE_RELATIONSHIP_UNIQUE_CONSTRAINT : Z := 16.
Definition OP_CREATE_RELATIONSHIP_PROPERTY_EXISTS_CONSTRAINT : Z := 17.
Definition OP_CREATE_NODE : Z := 18.
Definition OP_CREATE_RELATIONSHIP : Z := 19.
Definition OP_SET_NODE_PROPERTY : Z := 20.
Definition OP_SET_RELATIONSHIP_PROPERTY : Z := 21.
Definition OP_DELETE_NODE : Z := 22.
Definition OP_DELETE_RELATIONSHIP : Z := 23.
Definition OP_PROJECT_GRAPH : Z := 24.
Definition OP_MARK_INITIAL_IMPORT_SOURCE : Z := 25.
Definition OP_RELATIONAL : Z := 26.
Definition OP_RELATIONAL_SNAPSHOT : Z := 27.
Definition OP_APPEND : Z := 28.

(** ** Parsed fields of an op body *)

Record OpFields := {
  strings : list (Z * bytes);
  varints : list (Z * Z);
  messages : list (Z * bytes);
}.
Definition no_fields : OpFields := {| strings := []; varints := []; messages := [] |}.

Definition contains (ids : list Z) (id : Z) : bool := existsb (Z.eqb id) ids.

(** [OpFields::parse]; every round reads a tag, so the length of the body is
    fuel enough. *)
Fixpoint parse_loop (fuel : nat) (bs : bytes) (string_fields message_fields : list Z) (pos : Z) (fs : OpFields)
    : Result OpFields :=
  match fuel with
  | O => Err out_of_fuel
  | S fuel =>
      if zlen bs <=? pos then Ok fs
      else
        let? (field, wire, pos) := decode_tag bs pos in
        if wire =? WIRE_TYPE_VARINT then
          let? (v, pos) := decode_varint_u64 bs pos in
          parse_loop fuel bs string_fields message_fields pos
            {| strings := strings fs; varints := varints fs ++ [(field, v)]; messages := messages fs |}
        else if (wire =? WIRE_TYPE_LEN) && contains string_fields field then
          let? (s, pos) := decode_string_body bs pos in
          parse_loop fuel bs string_fields message_fields pos
            {| strings := strings fs ++ [(field, s)]; varints := varints fs; messages := messages fs |}
        else if (wire =? WIRE_TYPE_LEN) && contains message_fields field then
          let? (b, pos) := decode_len_body bs pos in
          parse_loop fuel bs string_fields message_fields pos
            {| strings := strings fs; varints := varints fs; messages := messages fs ++ [(field, b)] |}
        else
          let? pos := skip_field bs pos wire in
          parse_loop fuel bs string_fields message_fields pos fs
  end.
Definition parse (bs : bytes) (string_fields message_fields : list Z) : Result OpFields :=
  parse_loop (S (length bs)) bs string_fields message_fields 0 no_fields.

Fixpoint take_first {A} (id : Z) (l : list (Z * A)) : option (A * list (Z * A)) :=
  match l with
  | [] => None
  | (i, x) :: t =>
      if i =? id then Some (x, t)
      else match take_first id t with Some (y, t) => Some (y, (i, x) :: t) | None => None end
  end.

Definition required_string (id : Z) (fs : OpFields) : Result (bytes * OpFields) :=
  let? (s, rest) := ok_or (take_first id (strings fs)) (Storage "WAL op is missing {name}" [id]) in
  Ok (s, {| strings := rest; varints := varints fs; messages := messages fs |}).
Definition strings_for (id : Z) (fs : OpFields) : list bytes * OpFields :=
  (snd <$> filter (λ p : Z * bytes, p.1 =? id) (strings fs),
   {| strings := filter (λ p : Z * bytes, negb (p.1 =? id)) (strings fs);
      varints := varints fs; messages := messages fs |}).
Definition required_varint (id : Z) (fs : OpFields) : Result Z :=
  ok_or (snd <$> List.find (λ p : Z * Z, p.1 =? id) (varints fs)) (Storage "WAL op is missing {name}" [id]).
Definition required_message (id : Z) (fs : OpFields) : Result bytes :=
  ok_or (snd <$> List.find (λ p : Z * bytes, p.1 =? id) (messages fs)) (Storage "WAL op is missing {name}" [id]).

Section Ops.
Context {C : Chrono} {F : ChronoFields C} {U : UuidText}.

Fixpoint properties_loop (id : Z) (l : list (Z * bytes)) (props : list (bytes * Value))
    : Result (list (bytes * Value)) :=
  match l with
  | [] => Ok props
  | (i, body) :: l =>
      if i =? id then
        let? (key, v) := decode_map_entry body 1 in properties_loop id l (bmap_insert key v props)
      else properties_loop id l props
  end.
Definition properties_for (id : Z) (fs : OpFields) : Result (list (bytes * Value)) :=
  properties_loop id (messages fs) [].
Definition value_of (id : Z) (fs : OpFields) : Result Value :=
  let? body := required_message id fs in decode_value body 1.

Definition predicates (fs : OpFields)
    : Result (list (bytes * ProjectedRelationshipPredicate) * OpFields) :=
  let '(encoded, fs) := strings_for 4 fs in
  match encoded with
  | [] => Ok ([], fs)
  | [text] => let? p := decode_projected_relationship_predicates text in Ok (p, fs)
  | _ => Err (Storage "projected graph WAL has duplicate relationship predicate fields" [])
  end.

(** ** Encoding *)

Definition property_field (field_id : Z) (kv : bytes * Value) : bytes :=
  encode_len_field field_id
    (encode_string_field ENTRY_FIELD_KEY kv.1 ++ encode_len_field ENTRY_FIELD_VALUE (encode_value_message kv.2)).
Definition encode_properties_fields (field_id : Z) (props : list (bytes * Value)) : bytes :=
  List.flat_map (property_field field_id) props.

Definition encode_op_body (op : WalOp) : Result (Z * bytes) :=
  match op with
  | CreateNodeLabel label => Ok (OP_CREATE_NODE_LABEL, encode_string_field 1 label)
  | CreateRelationshipType rel_type => Ok (OP_CREATE_RELATIONSHIP_TYPE, encode_string_field 1 rel_type)
  | CreateNodeTable name => Ok (OP_CREATE_NODE_TABLE, encode_string_field 1 name)
  | CreateRelationshipTable name => Ok (OP_CREATE_RELATIONSHIP_TABLE, encode_string_field 1 name)
  | CreateProperty table_kind table property value_type nullable =>
      Ok (OP_CREATE_PROPERTY,
          encode_varint_field 1 (table_kind_code table_kind) ++ encode_string_field 2 table ++
          encode_string_field 3 property ++ encode_varint_field 4 (property_type_code value_type) ++
          encode_varint_field 5 (if nullable then 1 else 0))
  | AlterTableState table_kind table state =>
      Ok (OP_ALTER_TABLE_STATE,
          encode_varint_field 1 (table_kind_code table_kind) ++ encode_string_field 2 table ++
          encode_varint_field 3 (schema_object_state_code state))
  | AlterPropertyState table_kind table property state =>
      Ok (OP_ALTER_PROPERTY_STATE,
          encode_varint_field 1 (table_kind_code table_kind) ++ encode_string_field 2 table ++
          encode_string_field 3 property ++ encode_varint_field 4 (schema_object_state_code state))
  | GcTableDescriptor table_kind table =>
      Ok (OP_GC_TABLE_DESCRIPTOR, encode_varint_field 1 (table_kind_code table_kind) ++ encode_string_field 2 table)
  | GcPropertyDescriptor table_kind table property =>
      Ok (OP_GC_PROPERTY_DESCRIPTOR,
          encode_varint_field 1 (table_kind_code table_kind) ++ encode_string_field 2 table ++
          encode_string_field 3 property)
  | CreateIndex label property =>
      Ok (OP_CREATE_INDEX, encode_string_field 1 label ++ encode_string_field 2 property)
  | CreateCompositeIndex label properties =>
      Ok (OP_CREATE_COMPOSITE_INDEX,
          encode_string_field 1 label ++ List.flat_map (encode_string_field 2) properties)
  | CreateRangeIndex label property =>
      Ok (OP_CREATE_RANGE_INDEX, encode_string_field 1 label ++ encode_string_field 2 property)
  | CreateFullTextIndex label property =>
      Ok (OP_CREATE_FULL_TEXT_INDEX, encode_string_field 1 label ++ encode_string_field 2 property)
  | CreateUniqueConstraint label property =>
      Ok (OP_CREATE_UNIQUE_CONSTRAINT, encode_string_field 1 label ++ encode_string_field 2 property)
  | CreateNodePropertyExistsConstraint label property =>
      Ok (OP_CREATE_NODE_PROPERTY_EXISTS_CONSTRAINT, encode_string_field 1 label ++ encode_string_field 2 property)
  | CreateRelationshipUniqueConstraint rel_type property =>
      Ok (OP_CREATE_RELATIONSHIP_UNIQUE_CONSTRAINT, encode_string_field 1 rel_type ++ encode_string_field 2 property)
  | CreateRelationshipPropertyExistsConstraint rel_type property =>
      Ok (OP_CREATE_RELATIONSHIP_PROPERTY_EXISTS_CONSTRAINT,
          encode_string_field 1 rel_type ++ encode_string_field 2 property)
  | CreateNode id label properties =>
      Ok (OP_CREATE_NODE,
          encode_varint_field 1 id ++ encode_string_field 2 label ++ encode_properties_fields 3 properties)
  | CreateRelationship id source target rel_type properties =>
      Ok (OP_CREATE_RELATIONSHIP,
          encode_varint_field 1 id ++ encode_varint_field 2 source ++ encode_varint_field 3 target ++
          encode_string_field 4 rel_type ++ encode_properties_fields 5 properties)
  | SetNodeProperty id property value =>
      Ok (OP_SET_NODE_PROPERTY,
          encode_varint_field 1 id ++ encode_string_field 2 property ++
          encode_len_field 3 (encode_value_message value))
  | SetRelationshipProperty id property value =>
      Ok (OP_SET_RELATIONSHIP_PROPERTY,
          encode_varint_field 1 id ++ encode_string_field 2 property ++
          encode_len_field 3 (encode_value_message value))
  | DeleteNode id => Ok (OP_DELETE_NODE, encode_varint_field 1 id)
  | DeleteRelationship id => Ok (OP_DELETE_RELATIONSHIP, encode_varint_field 1 id)
  | ProjectGraph name node_labels rel_types relationship_predicates =>
      Ok (OP_PROJECT_GRAPH,
          encode_string_field 1 name ++ List.flat_map (encode_string_field 2) node_labels ++
          List.flat_map (encode_string_field 3) rel_types ++
          encode_string_field 4 (encode_projected_relationship_predicates relationship_predicates))
  | MarkInitialImportSource fingerprint => Ok (OP_MARK_INITIAL_IMPORT_SOURCE, encode_string_field 1 fingerprint)
  | Relational record => Ok (OP_RELATIONAL, encode_len_field 1 record)
  | RelationalSnapshot record => Ok (OP_RELATIONAL_SNAPSHOT, encode_len_field 1 record)
  | AppendOp record => Ok (OP_APPEND, encode_len_field 1 record)
  | Batch _ => Err (Storage "nested WAL batches cannot be encoded" [])
  end.

(** ** Decoding: op_decode.rs *)

Definition one_string (k : bytes → WalOp) (body : bytes) : Result WalOp :=
  let? fs := parse body [1] [] in
  let? (a, _) := required_string 1 fs in Ok (k a).
Definition two_strings (k : bytes → bytes → WalOp) (body : bytes) : Result WalOp :=
  let? fs := parse body [1; 2] [] in
  let? (a, fs) := required_string 1 fs in
  let? (b, _) := required_string 2 fs in Ok (k a b).
Definition one_id (k : Z → WalOp) (body : bytes) : Result WalOp :=
  let? fs := parse body [] [] in
  let? id := required_varint 1 fs in Ok (k id).
Definition one_record (k : bytes → WalOp) (body : bytes) : Result WalOp :=
  let? fs := parse body [] [1] in
  let? record := required_message 1 fs in Ok (k record).
Definition set_property (k : Z → bytes → Value → WalOp) (body : bytes) : Result WalOp :=
  let? fs := parse body [2] [3] in
  let? id := required_varint 1 fs in
  let? (property, fs) := required_string 2 fs in
  let? value := value_of 3 fs in Ok (k id property value).

Definition decode_op_body (op_code : Z) (body : bytes) : Result WalOp :=
  if op_code =? OP_CREATE_NODE_LABEL then one_string CreateNodeLabel body
  else if op_code =? OP_CREATE_RELATIONSHIP_TYPE then one_string CreateRelationshipType body
  else if op_code =? OP_CREATE_NODE_TABLE then one_string CreateNodeTable body
  else if op_code =? OP_CREATE_RELATIONSHIP_TABLE then one_string CreateRelationshipTable body
  else if op_code =? OP_CREATE_PROPERTY then
    let? fs := parse body [2; 3] [] in
    let? code := required_varint 1 fs in
    let? table_kind := decode_table_kind_code code in
    let? (table, fs) := required_string 2 fs in
    let? (property, fs) := required_string 3 fs in
    let? code := required_varint 4 fs in
    let? value_type := decode_property_type_code code in
    let? nullable := required_varint 5 fs in
    Ok (CreateProperty table_kind table property value_type (negb (nullable =? 0)))
  else if op_code =? OP_ALTER_TABLE_STATE then
    let? fs := parse body [2] [] in
    let? code := required_varint 1 fs in
    let? table_kind := decode_table_kind_code code in
    let? (table, fs) := required_string 2 fs in
    let? code := required_varint 3 fs in
    let? state := decode_schema_object_state_code code in
    Ok (AlterTableState table_kind table state)
  else if op_code =? OP_ALTER_PROPERTY_STATE then
    let? fs := parse body [2; 3] [] in
    let? code := required_varint 1 fs in
    let? table_kind := decode_table_kind_code code in
    let? (table, fs) := required_string 2 fs in
    let? (property, fs) := required_string 3 fs in
    let? code := required_varint 4 fs in
    let? state := decode_schema_object_state_code code in
    Ok (AlterPropertyState table_kind table property state)
  else if op_code =? OP_GC_TABLE_DESCRIPTOR then
    let? fs := parse body [2] [] in
    let? code := required_varint 1 fs in
    let? table_kind := decode_table_kind_code code in
    let? (table, _) := required_string 2 fs in
    Ok (GcTableDescriptor table_kind table)
  else if op_code =? OP_GC_PROPERTY_DESCRIPTOR then
    let? fs := parse body [2; 3] [] in
    let? code := required_varint 1 fs in
    let? table_kind := decode_table_kind_code code in
    let? (table, fs) := required_string 2 fs in
    let? (property, _) := required_string 3 fs in
    Ok (GcPropertyDescriptor table_kind table property)
  else if op_code =? OP_CREATE_INDEX then two_strings CreateIndex body
  else if op_code =? OP_CREATE_COMPOSITE_INDEX then
    let? fs := parse body [1; 2] [] in
    let? (label, fs) := required_string 1 fs in
    Ok (CreateCompositeIndex label (strings_for 2 fs).1)
  else if op_code =? OP_CREATE_RANGE_INDEX then two_strings CreateRangeIndex body
  else if op_code =? OP_CREATE_FULL_TEXT_INDEX then two_strings CreateFullTextIndex body
  else if op_code =? OP_CREATE_UNIQUE_CONSTRAINT then two_strings CreateUniqueConstraint body
  else if op_code =? OP_CREATE_NODE_PROPERTY_EXISTS_CONSTRAINT then
    two_strings CreateNodePropertyExistsConstraint body
  else if op_code =? OP_CREATE_RELATIONSHIP_UNIQUE_CONSTRAINT then
    two_strings CreateRelationshipUniqueConstraint body
  else if op_code =? OP_CREATE_RELATIONSHIP_PROPERTY_EXISTS_CONSTRAINT then
    two_strings CreateRelationshipPropertyExistsConstraint body
  else if op_code =? OP_CREATE_NODE then
    let? fs := parse body [2] [3] in
    let? id := required_varint 1 fs in
    let? (label, fs) := required_string 2 fs in
    let? properties := properties_for 3 fs in
    Ok (CreateNode id label properties)
  else if op_code =? OP_CREATE_RELATIONSHIP then
    let? fs := parse body [4] [5] in
    let? id := required_varint 1 fs in
    let? source := required_varint 2 fs in
    let? target := required_varint 3 fs in
    let? (rel_type, fs) := required_string 4 fs in
    let? properties := properties_for 5 fs in
    Ok (CreateRelationship id source target rel_type properties)
  else if op_code =? OP_SET_NODE_PROPERTY then set_property SetNodeProperty body
  else if op_code =? OP_SET_RELATIONSHIP_PROPERTY then set_property SetRelationshipProperty body
  else if op_code =? OP_DELETE_NODE then one_id DeleteNode body
  else if op_code =? OP_DELETE_RELATIONSHIP then one_id DeleteRelationship body
  else if op_code =? OP_PROJECT_GRAPH then
    let? fs := parse body [1; 2; 3; 4] [] in
    let? (relationship_predicates, fs) := predicates fs in
    let? (name, fs) := required_string 1 fs in
    let '(node_labels, fs) := strings_for 2 fs in
    let '(rel_types, _) := strings_for 3 fs in
    Ok (ProjectGraph name node_labels rel_types relationship_predicates)
  else if op_code =? OP_MARK_INITIAL_IMPORT_SOURCE then one_string MarkInitialImportSource body
  else if op_code =? OP_RELATIONAL then one_record Relational body
  else if op_code =? OP_RELATIONAL_SNAPSHOT then one_record RelationalSnapshot body
  else if op_code =? OP_APPEND then one_record AppendOp body
  else Err (Storage "unknown WAL op code {op_code}" [op_code]).

(** ** Validation before writing: wal.rs *)

Fixpoint validate_values (l : list Value) : Result () :=
  match l with
  | [] => Ok ()
  | v :: l => let? _ := validate_wal_value v in validate_values l
  end.

(** [validate_wal_op_values(ops)] is the loop below over [ops]. *)
Fixpoint validate_wal_op (op : WalOp) : Result () :=
  match op with
  | CreateNode _ _ properties | CreateRelationship _ _ _ _ properties => validate_values (snd <$> properties)
  | SetNodeProperty _ _ value | SetRelationshipProperty _ _ value => validate_wal_value value
  | Batch ops =>
      (fix go (ops : list WalOp) : Result () :=
         match ops with
         | [] => Ok ()
         | op :: ops => let? _ := validate_wal_op op in go ops
         end) ops
  | _ => Ok ()
  end.
Fixpoint validate_wal_op_values (ops : list WalOp) : Result () :=
  match ops with
  | [] => Ok ()
  | op :: ops => let? _ := validate_wal_op op in validate_wal_op_values ops
  end.
End Ops.

(** ** Bodies as lists of fields *)

Inductive wfield := FV (id v : Z) | FS (id : Z) (s : bytes) | FM (id : Z) (body : bytes).

Definition enc_field (f : wfield) : bytes :=
  match f with
  | FV id v => encode_varint_field id v
  | FS id s => encode_string_field id s
  | FM id body => encode_len_field id body
  end.
Definition add_field (fs : OpFields) (f : wfield) : OpFields :=
  match f with
  | FV id v => {| strings := strings fs; varints := varints fs ++ [(id, v)]; messages := messages fs |}
  | FS id s => {| strings := strings fs ++ [(id, s)]; varints := varints fs; messages := messages fs |}
  | FM id b => {| strings := strings fs; varints := varints fs; messages := messages fs ++ [(id, b)] |}
  end.
Definition field_ok (strs msgs : list Z) (f : wfield) : Prop :=
  match f with
  | FV id v => is_u32 id ∧ is_u64 v
  | FS id s => is_u32 id ∧ utf8_valid s = true ∧ contains strs id = true
  | FM id _ => is_u32 id ∧ contains strs id = false ∧ contains msgs id = true
  end.

Lemma enc_field_shape strs msgs f :
  field_ok strs msgs f → ∃ id w rest, is_u32 id ∧ 0 ≤ w < 8 ∧ enc_field f = encode_tag id w ++ rest.
Proof.
  destruct f as [id v|id s|id b]; intros [Hid _].
  - by eexists id, WIRE_TYPE_VARINT, _.
  - by eexists id, WIRE_TYPE_LEN, _.
  - by eexists id, WIRE_TYPE_LEN, _.
Qed.

Lemma parse_step strs msgs f fuel bs pos fs rest :
  field_ok strs msgs f → suffix_at bs pos (enc_field f ++ rest) →
  ∃ pos', suffix_at bs pos' rest ∧
    parse_loop (S fuel) bs strs msgs pos fs = parse_loop fuel bs strs msgs pos' (add_field fs f).
Proof.
  intros Hok Hs. cbn [parse_loop]. rewrite (suffix_at_more _ _ _ Hs).
  2: { destruct (enc_field_shape _ _ _ Hok) as (id & w & r & [Hid _] & Hw & ->).
       intros E. apply app_eq_nil in E as [E _]. apply app_eq_nil in E as [E _].
       by apply (encode_tag_nonempty id w Hid Hw) in E. }
  destruct f as [id v|id s|id b]; cbn [enc_field add_field] in *.
  - destruct Hok as [Hid Hv]. unfold encode_varint_field in Hs. rewrite <- app_assoc in Hs.
    destruct (tag_at _ _ _ WIRE_TYPE_VARINT _ Hid ltac:(done) Hs) as (p & -> & Hp). cbn [result_bind].
    change (WIRE_TYPE_VARINT =? WIRE_TYPE_VARINT) with true. cbv iota.
    destruct (varint_at _ _ _ _ Hv Hp) as (p' & -> & Hp'). by exists p'.
  - destruct Hok as (Hid & Hu & Hc). unfold encode_string_field, encode_len_field in Hs. rewrite <- !app_assoc in Hs.
    destruct (tag_at _ _ _ WIRE_TYPE_LEN _ Hid ltac:(done) Hs) as (p & -> & Hp). cbn [result_bind].
    change (WIRE_TYPE_LEN =? WIRE_TYPE_VARINT) with false. change (WIRE_TYPE_LEN =? WIRE_TYPE_LEN) with true.
    rewrite Hc. cbn [andb]. destruct (string_body_at _ _ _ _ Hu Hp) as (p' & -> & Hp'). by exists p'.
  - destruct Hok as (Hid & Hns & Hc). unfold encode_len_field in Hs. rewrite <- !app_assoc in Hs.
    destruct (tag_at _ _ _ WIRE_TYPE_LEN _ Hid ltac:(done) Hs) as (p & -> & Hp). cbn [result_bind].
    change (WIRE_TYPE_LEN =? WIRE_TYPE_VARINT) with false. change (WIRE_TYPE_LEN =? WIRE_TYPE_LEN) with true.
    rewrite Hns, Hc. cbn [andb]. destruct (len_body_at _ _ _ _ Hp) as (p' & -> & Hp'). by exists p'.
Qed.

Lemma length_enc_field strs msgs f : field_ok strs msgs f → (1 ≤ length (enc_field f))%nat.
Proof.
  intros (id & w & r & [Hid _] & Hw & ->)%enc_field_shape. rewrite length_app.
  pose proof (encode_tag_zlen id w Hid Hw). unfold zlen in *. lia.
Qed.

Lemma parse_fields_loop strs msgs l : ∀ fuel bs pos fs,
  Forall (field_ok strs msgs) l → suffix_at bs pos (List.flat_map enc_field l) →
  (length (List.flat_map enc_field l) < fuel)%nat →
  parse_loop fuel bs strs msgs pos fs = Ok (foldl add_field fs l).
Proof.
  induction l as [|f l IH]; intros fuel bs pos fs Hok Hs Hf; (destruct fuel as [|fuel]; [lia|]).
  - cbn [parse_loop]. by rewrite (suffix_at_done _ _ Hs).
  - apply Forall_cons in Hok as [Hof Hok]. cbn [List.flat_map] in Hs, Hf.
    destruct (parse_step strs msgs f fuel bs pos fs _ Hof Hs) as (p & Hp & ->).
    apply IH; [done|done|]. rewrite length_app in Hf. pose proof (length_enc_field _ _ _ Hof). lia.
Qed.

Lemma parse_fields strs msgs l body :
  body = List.flat_map enc_field l → Forall (field_ok strs msgs) l → zlen body ≤ usize_max →
  parse body strs msgs = Ok (foldl add_field no_fields l).
Proof.
  intros -> Hok Hz. apply parse_fields_loop; [done|by apply suffix_at_start|lia].
Qed.

(** Repeated fields. *)
Lemma add_strings id ss fs :
  foldl add_field fs (FS id <$> ss) =
  {| strings := strings fs ++ (pair id <$> ss); varints := varints fs; messages := messages fs |}.
Proof.
  revert fs; induction ss as [|s ss IH]; intros fs; cbn [fmap list_fmap foldl].
  - rewrite app_nil_r. by destruct fs.
  - rewrite IH. cbn. by rewrite <- app_assoc.
Qed.
Lemma add_messages id bs fs :
  foldl add_field fs (FM id <$> bs) =
  {| strings := strings fs; varints := varints fs; messages := messages fs ++ (pair id <$> bs) |}.
Proof.
  revert fs; induction bs as [|b bs IH]; intros fs; cbn [fmap list_fmap foldl].
  - rewrite app_nil_r. by destruct fs.
  - rewrite IH. cbn. by rewrite <- app_assoc.
Qed.
Lemma flat_map_fields {A} (g : A → wfield) (l : list A) :
  List.flat_map enc_field (g <$> l) = List.flat_map (λ x, enc_field (g x)) l.
Proof. induction l as [|x l IH]; [done|]. cbn. by rewrite IH. Qed.

Lemma select_pairs {A} k id (l : list A) :
  filter (λ p : Z * A, p.1 =? k) (pair id <$> l) = if id =? k then pair id <$> l else [].
Proof.
  induction l as [|x l IH]; cbn [fmap list_fmap]; [by destruct (id =? k)|].
  rewrite (filter_cons (λ p : Z * A, p.1 =? k)). cbn [fst]. rewrite IH. by destruct (id =? k).
Qed.
Lemma reject_pairs {A} k id (l : list A) :
  filter (λ p : Z * A, negb (p.1 =? k)) (pair id <$> l) = if id =? k then [] else pair id <$> l.
Proof.
  induction l as [|x l IH]; cbn [fmap list_fmap]; [by destruct (id =? k)|].
  rewrite (filter_cons (λ p : Z * A, negb (p.1 =? k))). cbn [fst]. rewrite IH. by destruct (id =? k).
Qed.
Lemma snd_pairs {A} (id : Z) (l : list A) : snd <$> (pair id <$> l) = l.
Proof. induction l as [|x l IH]; [done|]. cbn. by rewrite IH. Qed.

(** ** Codes *)

Lemma table_kind_roundtrip k : decode_table_kind_code (table_kind_code k) = Ok k.
Proof. by destruct k. Qed.
Lemma state_roundtrip s : decode_schema_object_state_code (schema_object_state_code s) = Ok s.
Proof. by destruct s. Qed.

Definition property_type_wf (t : PropertyType) : Prop :=
  match t with PVector d => 1 ≤ d ≤ u32_max | _ => True end.
Lemma vector_code d : 0 ≤ d → property_type_code (PVector d) = d * 256 + 7.
Proof.
  intros Hd. cbn. rewrite Z.lor_comm, lor_shiftl_add by done. change (2 ^ 8) with 256. lia.
Qed.
Lemma property_type_roundtrip t : property_type_wf t → decode_property_type_code (property_type_code t) = Ok t.
Proof.
  destruct t; try done. intros [H1 H2]. rewrite vector_code by lia. unfold decode_property_type_code.
  do 7 (rewrite (proj2 (Z.eqb_neq _ _)) by lia).
  change 0xff with (2 ^ 8 - 1). rewrite land_mask by done. change (2 ^ 8) with 256.
  rewrite Z.add_comm, Z.mod_add by lia. cbn [Z.eqb]. change (7 mod 256 =? 7) with true. cbv iota.
  rewrite shiftr_div by done. change (2 ^ 8) with 256. rewrite Z.div_add by lia. change (7 / 256) with 0.
  rewrite Z.add_0_l. rewrite (proj2 (Z.leb_le _ _)), (proj2 (Z.eqb_neq _ _)) by lia. done.
Qed.
Lemma property_type_code_u64 t : property_type_wf t → is_u64 (property_type_code t).
Proof.
  destruct t; try done. intros [H1 H2]. rewrite vector_code by lia. unfold is_u64, u32_max in *. lia.
Qed.

(** ** Reading back an op *)

Section OpRoundtrip.
Context {C : Chrono} {F : ChronoFields C} {U : UuidText}.
Context `{!ChronoLaws C} `{!ChronoFieldLaws C F} `{!UuidTextLaws U}.

Definition str (s : bytes) : Prop := utf8_valid s = true.
Definition props_wf (props : list (bytes * Value)) : Prop := value_wf (VMap props).

(** What the types of an operation guarantee; the predicates of a projected
    graph also have leaves their text can carry and no empty conjunction. *)
Definition op_wf (op : WalOp) : Prop :=
  match op with
  | CreateNodeLabel a | CreateRelationshipType a | CreateNodeTable a | CreateRelationshipTable a
  | MarkInitialImportSource a => str a
  | CreateProperty _ table property value_type _ => str table ∧ str property ∧ property_type_wf value_type
  | AlterTableState _ table _ | GcTableDescriptor _ table => str table
  | AlterPropertyState _ table property _ | GcPropertyDescriptor _ table property => str table ∧ str property
  | CreateIndex a b | CreateRangeIndex a b | CreateFullTextIndex a b | CreateUniqueConstraint a b
  | CreateNodePropertyExistsConstraint a b | CreateRelationshipUniqueConstraint a b
  | CreateRelationshipPropertyExistsConstraint a b => str a ∧ str b
  | CreateCompositeIndex a l => str a ∧ Forall str l
  | CreateNode id label props => is_u64 id ∧ str label ∧ props_wf props
  | CreateRelationship id source target rel_type props =>
      is_u64 id ∧ is_u64 source ∧ is_u64 target ∧ str rel_type ∧ props_wf props
  | SetNodeProperty id property value | SetRelationshipProperty id property value =>
      is_u64 id ∧ str property ∧ value_wf value
  | DeleteNode id | DeleteRelationship id => is_u64 id
  | ProjectGraph name labels types predicates =>
      str name ∧ Forall str labels ∧ Forall str types ∧ predicates_ok predicates ∧ all_nonempty predicates = true
  | Relational _ | RelationalSnapshot _ | AppendOp _ => True
  | Batch _ => False
  end.

(** The side condition of [parse_fields] on a concrete list of fields. *)
Ltac fields_ok := repeat (apply Forall_cons_2; [by split_and!|]); apply Forall_nil_2.

Lemma one_string_ok k a :
  str a → zlen (encode_string_field 1 a) ≤ usize_max → one_string k (encode_string_field 1 a) = Ok (k a).
Proof.
  intros Ha Hz. unfold one_string.
  rewrite (parse_fields [1] [] [FS 1 a]); [done|symmetry; apply app_nil_r| |done].
  fields_ok.
Qed.
Lemma two_strings_ok k a b :
  str a → str b → zlen (encode_string_field 1 a ++ encode_string_field 2 b) ≤ usize_max →
  two_strings k (encode_string_field 1 a ++ encode_string_field 2 b) = Ok (k a b).
Proof.
  intros Ha Hb Hz. unfold two_strings.
  rewrite (parse_fields [1; 2] [] [FS 1 a; FS 2 b]); [done| | |done].
  - cbn [List.flat_map enc_field]. by rewrite app_nil_r.
  - fields_ok.
Qed.
Lemma one_id_ok k id :
  is_u64 id → zlen (encode_varint_field 1 id) ≤ usize_max → one_id k (encode_varint_field 1 id) = Ok (k id).
Proof.
  intros Ha Hz. unfold one_id.
  rewrite (parse_fields [] [] [FV 1 id]); [done|symmetry; apply app_nil_r| |done]. fields_ok.
Qed.
Lemma one_record_ok k r :
  zlen (encode_len_field 1 r) ≤ usize_max → one_record k (encode_len_field 1 r) = Ok (k r).
Proof.
  intros Hz. unfold one_record.
  rewrite (parse_fields [] [1] [FM 1 r]); [done|symmetry; apply app_nil_r| |done]. fields_ok.
Qed.

Lemma validate_reads_back v :
  value_wf v → validate_wal_value v = Ok () → zlen (encode_value_message v) ≤ usize_max → reads_back 1 v.
Proof.
  intros Hwf Hv Hz. apply value_reads_back; [done|lia| |done].
  unfold validate_wal_value, validate_property_value in Hv. by destruct (encoded_value_len v 1).
Qed.

Lemma set_property_ok k id property value :
  is_u64 id → str property → value_wf value → validate_wal_value value = Ok () →
  let body := encode_varint_field 1 id ++ encode_string_field 2 property ++
              encode_len_field 3 (encode_value_message value) in
  zlen body ≤ usize_max → set_property k body = Ok (k id property value).
Proof.
  intros Hid Hp Hwf Hv body Hz. unfold set_property.
  rewrite (parse_fields [2] [3] [FV 1 id; FS 2 property; FM 3 (encode_value_message value)]); [| | |done].
  - cbn -[decode_value encode_value_message].
    rewrite decode_encode_value; [done|done| |].
    + unfold validate_wal_value in Hv. by destruct (validate_property_value value) as [[]|].
    + pose proof (length_len_field 3 (encode_value_message value) ltac:(done)). unfold body in Hz.
      rewrite !zlen_app in Hz. pose proof (zlen_nonneg (encode_varint_field 1 id)).
      pose proof (zlen_nonneg (encode_string_field 2 property)). unfold zlen in *. lia.
  - cbn [List.flat_map enc_field]. unfold body. by rewrite app_nil_r.
  - fields_ok.
Qed.

(** ** Properties *)

Lemma validate_values_Forall l : validate_values l = Ok () → Forall (λ v, validate_wal_value v = Ok ()) l.
Proof.
  induction l as [|v l IH]; cbn; [constructor|]. destruct (validate_wal_value v) as [[]|] eqn:E; [|done].
  cbn. intros H. constructor; auto.
Qed.

Lemma properties_loop_ok id props before :
  Forall (λ kv, decode_map_entry (entry_body kv) 1 = Ok kv) props →
  StronglySorted key_before (before ++ props) →
  properties_loop id (pair id <$> (entry_body <$> props)) before = Ok (before ++ props).
Proof.
  revert before; induction props as [|[k x] props IH]; intros before Hdec Hsort; cbn [fmap list_fmap properties_loop].
  { by rewrite app_nil_r. }
  apply Forall_cons in Hdec as [Hkx Hdec]. rewrite Z.eqb_refl, Hkx. cbn [result_bind].
  rewrite bmap_insert_last.
  - rewrite (IH (before ++ [(k, x)])); [by rewrite <- app_assoc|done|by rewrite <- app_assoc].
  - apply Forall_forall. intros kv Hkv.
    apply (StronglySorted_app_1_elem_of key_before before ((k, x) :: props) kv (k, x) Hsort Hkv). by left.
Qed.

Lemma properties_ok id props n :
  props_wf props → validate_values (snd <$> props) = Ok () →
  0 ≤ id → zlen (encode_properties_fields id props) ≤ n → n ≤ usize_max →
  properties_loop id (pair id <$> (entry_body <$> props)) [] = Ok props.
Proof.
  intros [Hsort Hwf]%value_wf_map Hv Hid Hz Hn. apply (properties_loop_ok id props []); [|done].
  apply validate_values_Forall in Hv. apply Forall_forall. intros [k x] Hkx.
  rewrite Forall_forall in Hwf. destruct (Hwf _ Hkx) as [Hk Hx].
  pose proof (length_flat_map_elem (property_field id) (k, x) props Hkx) as Hl.
  pose proof (length_len_field id (entry_body (k, x)) Hid) as H1.
  pose proof (length_len_field ENTRY_FIELD_VALUE (encode_value_message x) ltac:(done)) as H2.
  assert (length (encode_len_field ENTRY_FIELD_VALUE (encode_value_message x)) ≤ length (entry_body (k, x)))%nat as H3
    by (unfold entry_body; rewrite length_app; cbn [snd]; lia).
  change (encode_len_field id (entry_body (k, x))) with (property_field id (k, x)) in H1.
  fold (encode_properties_fields id props) in Hl.
  apply (entry_roundtrip k x 1 (S (length (entry_body (k, x))))); [done| |unfold zlen in *; lia|lia].
  apply validate_reads_back; [done| |unfold zlen in *; lia].
  rewrite Forall_forall in Hv. apply Hv. apply list_elem_of_fmap. by exists (k, x).
Qed.

Lemma add_properties fs id props :
  foldl add_field fs (FM id <$> (entry_body <$> props)) =
  {| strings := strings fs; varints := varints fs; messages := messages fs ++ (pair id <$> (entry_body <$> props)) |}.
Proof. apply add_messages. Qed.

Lemma encode_properties_eq id props :
  encode_properties_fields id props = List.flat_map enc_field (FM id <$> (entry_body <$> props)).
Proof. induction props as [|kv props IH]; [done|]. cbn. by rewrite <- IH. Qed.
Lemma encode_strings_eq id ss : List.flat_map (encode_string_field id) ss = List.flat_map enc_field (FS id <$> ss).
Proof. by rewrite flat_map_fields. Qed.
Lemma field_ok_strings strs msgs id ss :
  is_u32 id → contains strs id = true → Forall str ss → Forall (field_ok strs msgs) (FS id <$> ss).
Proof. intros Hid Hc Hs. apply Forall_fmap. eapply Forall_impl; [exact Hs|]. by intros s. Qed.
Lemma field_ok_messages strs msgs id bs :
  is_u32 id → contains strs id = false → contains msgs id = true → Forall (field_ok strs msgs) (FM id <$> bs).
Proof. intros Hid Hn Hc. apply Forall_fmap, Forall_true. by intros b. Qed.

(** Evaluates the dispatch on a concrete op code. *)
Ltac op_dispatch :=
  cbv beta iota delta [decode_op_body Z.eqb Pos.eqb OP_CREATE_NODE_LABEL OP_CREATE_RELATIONSHIP_TYPE
    OP_CREATE_NODE_TABLE OP_CREATE_RELATIONSHIP_TABLE OP_CREATE_PROPERTY OP_ALTER_TABLE_STATE
    OP_ALTER_PROPERTY_STATE OP_GC_TABLE_DESCRIPTOR OP_GC_PROPERTY_DESCRIPTOR OP_CREATE_INDEX
    OP_CREATE_COMPOSITE_INDEX OP_CREATE_RANGE_INDEX OP_CREATE_FULL_TEXT_INDEX OP_CREATE_UNIQUE_CONSTRAINT
    OP_CREATE_NODE_PROPERTY_EXISTS_CONSTRAINT OP_CREATE_RELATIONSHIP_UNIQUE_CONSTRAINT
    OP_CREATE_RELATIONSHIP_PROPERTY_EXISTS_CONSTRAINT OP_CREATE_NODE OP_CREATE_RELATIONSHIP
    OP_SET_NODE_PROPERTY OP_SET_RELATIONSHIP_PROPERTY OP_DELETE_NODE OP_DELETE_RELATIONSHIP OP_PROJECT_GRAPH
    OP_MARK_INITIAL_IMPORT_SOURCE OP_RELATIONAL OP_RELATIONAL_SNAPSHOT OP_APPEND].

Lemma create_node_ok id label props :
  is_u64 id → str label → props_wf props → validate_values (snd <$> props) = Ok () →
  let body := encode_varint_field 1 id ++ encode_string_field 2 label ++ encode_properties_fields 3 props in
  zlen body ≤ usize_max → decode_op_body OP_CREATE_NODE body = Ok (CreateNode id label props).
Proof.
  intros Hid Hl Hp Hv body Hz. op_dispatch.
  rewrite (parse_fields [2] [3] ([FV 1 id; FS 2 label] ++ (FM 3 <$> (entry_body <$> props)))); [| | |done].
  - rewrite foldl_app, add_properties. cbn -[properties_loop entry_body].
    unfold properties_for; cbn [messages]. rewrite (properties_ok 3 props usize_max); [done|done|done|done| |done].
    unfold body in Hz. rewrite !zlen_app in Hz. zlen_lia.
  - unfold body. rewrite encode_properties_eq, List.flat_map_app. cbn [List.flat_map enc_field].
    by rewrite app_nil_r, <- app_assoc.
  - apply Forall_app. split; [fields_ok|by apply field_ok_messages].
Qed.

Lemma create_relationship_ok id source target rel_type props :
  is_u64 id → is_u64 source → is_u64 target → str rel_type → props_wf props →
  validate_values (snd <$> props) = Ok () →
  let body := encode_varint_field 1 id ++ encode_varint_field 2 source ++ encode_varint_field 3 target ++
              encode_string_field 4 rel_type ++ encode_properties_fields 5 props in
  zlen body ≤ usize_max →
  decode_op_body OP_CREATE_RELATIONSHIP body = Ok (CreateRelationship id source target rel_type props).
Proof.
  intros Hid Hs Ht Hl Hp Hv body Hz. op_dispatch.
  rewrite (parse_fields [4] [5] ([FV 1 id; FV 2 source; FV 3 target; FS 4 rel_type] ++
                                 (FM 5 <$> (entry_body <$> props)))); [| | |done].
  - rewrite foldl_app, add_properties. cbn -[properties_loop entry_body].
    unfold properties_for; cbn [messages]. rewrite (properties_ok 5 props usize_max); [done|done|done|done| |done].
    unfold body in Hz. rewrite !zlen_app in Hz. zlen_lia.
  - unfold body. rewrite encode_properties_eq, List.flat_map_app. cbn [List.flat_map enc_field].
    by rewrite app_nil_r, <- !app_assoc.
  - apply Forall_app. split; [fields_ok|by apply field_ok_messages].
Qed.

Lemma composite_index_ok label props :
  str label → Forall str props →
  let body := encode_string_field 1 label ++ List.flat_map (encode_string_field 2) props in
  zlen body ≤ usize_max → decode_op_body OP_CREATE_COMPOSITE_INDEX body = Ok (CreateCompositeIndex label props).
Proof.
  intros Hl Hp body Hz. op_dispatch.
  rewrite (parse_fields [1; 2] [] ([FS 1 label] ++ (FS 2 <$> props))); [| | |done].
  - rewrite foldl_app, add_strings. cbn -[fmap filter list_fmap]. rewrite select_pairs. cbn [Z.eqb Pos.eqb].
    by rewrite snd_pairs.
  - unfold body. rewrite encode_strings_eq, List.flat_map_app. cbn [List.flat_map enc_field]. by rewrite app_nil_r.
  - apply Forall_app. split; [fields_ok|by apply field_ok_strings].
Qed.

Lemma project_graph_ok name labels types preds :
  str name → Forall str labels → Forall str types →
  str (encode_projected_relationship_predicates preds) →
  decode_projected_relationship_predicates (encode_projected_relationship_predicates preds) = Ok preds →
  let body := encode_string_field 1 name ++ List.flat_map (encode_string_field 2) labels ++
              List.flat_map (encode_string_field 3) types ++
              encode_string_field 4 (encode_projected_relationship_predicates preds) in
  zlen body ≤ usize_max → decode_op_body OP_PROJECT_GRAPH body = Ok (ProjectGraph name labels types preds).
Proof.
  intros Hn Hl Ht Hs Hd body Hz. set (text := encode_projected_relationship_predicates preds) in *.
  clearbody text. op_dispatch.
  rewrite (parse_fields [1; 2; 3; 4] [] ([FS 1 name] ++ (FS 2 <$> labels) ++ (FS 3 <$> types) ++ [FS 4 text]));
    [| | |done].
  - set (l1 := pair 1 <$> [name]). set (l4 := pair 4 <$> [text]).
    assert (foldl add_field no_fields ([FS 1 name] ++ (FS 2 <$> labels) ++ (FS 3 <$> types) ++ [FS 4 text]) =
      {| strings := l1 ++ (pair 2 <$> labels) ++ (pair 3 <$> types) ++ l4; varints := []; messages := [] |}) as ->.
    { rewrite !foldl_app, add_strings. cbn [foldl add_field no_fields strings varints messages app].
      rewrite add_strings. cbn [foldl add_field strings varints messages app]. f_equal.
      unfold l1, l4. cbn [fmap list_fmap app]. by rewrite <- !app_assoc. }
    cbn [result_bind]. unfold predicates, strings_for at 1. cbn [strings]. unfold l1, l4.
    rewrite !filter_app, !select_pairs, !reject_pairs. cbn [Z.eqb Pos.eqb app]. rewrite snd_pairs. cbv iota.
    rewrite Hd. cbn [result_bind]. unfold required_string. cbn [strings take_first fmap list_fmap app Z.eqb Pos.eqb].
    cbn [ok_or result_bind]. unfold strings_for. cbn [strings].
    rewrite !app_nil_r, !filter_app, !select_pairs, !reject_pairs. cbn [Z.eqb Pos.eqb app]. rewrite app_nil_r.
    rewrite filter_nil, select_pairs. cbn [Z.eqb Pos.eqb app]. by rewrite !snd_pairs.
  - unfold body. rewrite !encode_strings_eq, !List.flat_map_app. cbn [List.flat_map enc_field]. by rewrite !app_nil_r.
  - rewrite !Forall_app. split_and!; [fields_ok|by apply field_ok_strings..|fields_ok].
Qed.

Lemma code_u64 k : is_u64 (table_kind_code k).
Proof. by destruct k. Qed.
Lemma state_u64 k : is_u64 (schema_object_state_code k).
Proof. by destruct k. Qed.
Lemma bool_u64 (b : bool) : is_u64 (if b then 1 else 0).
Proof. by destruct b. Qed.
#[local] Hint Resolve code_u64 state_u64 bool_u64 property_type_code_u64 : hawdb.
Ltac descriptor_ok := repeat (apply Forall_cons_2; [by split_and!; auto with hawdb|]); apply Forall_nil_2.

(** Descriptor changes: an enum code beside one or two names. *)
Lemma descriptor_roundtrip op code body :
  op_wf op → encode_op_body op = Ok (code, body) → zlen body ≤ usize_max →
  (match op with
   | CreateProperty _ _ _ _ _ | AlterTableState _ _ _ | AlterPropertyState _ _ _ _
   | GcTableDescriptor _ _ | GcPropertyDescriptor _ _ _ => True
   | _ => False
   end) → decode_op_body code body = Ok op.
Proof.
  intros Hwf He Hz Hop. destruct op; try done; clear Hop; cbn [op_wf] in Hwf; injection He as <- <-; op_dispatch.
  - destruct Hwf as (Ht & Hp & Hv).
    rewrite (parse_fields [2; 3] [] [FV 1 (table_kind_code table_kind); FS 2 table; FS 3 property;
               FV 4 (property_type_code value_type); FV 5 (if nullable then 1 else 0)]); [| |descriptor_ok|done].
    + cbn -[decode_table_kind_code decode_property_type_code property_type_code table_kind_code].
      rewrite table_kind_roundtrip. cbn -[decode_property_type_code property_type_code].
      rewrite property_type_roundtrip by done. by destruct nullable.
    + cbn [List.flat_map enc_field]. by rewrite app_nil_r.
  - rewrite (parse_fields [2] [] [FV 1 (table_kind_code table_kind); FS 2 table; FV 3 (schema_object_state_code state)]);
      [| |descriptor_ok|done].
    + cbn -[decode_table_kind_code table_kind_code decode_schema_object_state_code schema_object_state_code].
      rewrite table_kind_roundtrip. cbn -[decode_schema_object_state_code schema_object_state_code].
      by rewrite state_roundtrip.
    + cbn [List.flat_map enc_field]. by rewrite app_nil_r.
  - destruct Hwf as (Ht & Hp).
    rewrite (parse_fields [2; 3] [] [FV 1 (table_kind_code table_kind); FS 2 table; FS 3 property;
               FV 4 (schema_object_state_code state)]); [| |descriptor_ok|done].
    + cbn -[decode_table_kind_code table_kind_code decode_schema_object_state_code schema_object_state_code].
      rewrite table_kind_roundtrip. cbn -[decode_schema_object_state_code schema_object_state_code].
      by rewrite state_roundtrip.
    + cbn [List.flat_map enc_field]. by rewrite app_nil_r.
  - rewrite (parse_fields [2] [] [FV 1 (table_kind_code table_kind); FS 2 table]); [| |descriptor_ok|done].
    + cbn -[decode_table_kind_code table_kind_code]. by rewrite table_kind_roundtrip.
    + cbn [List.flat_map enc_field]. by rewrite app_nil_r.
  - destruct Hwf as (Ht & Hp).
    rewrite (parse_fields [2; 3] [] [FV 1 (table_kind_code table_kind); FS 2 table; FS 3 property]);
      [| |descriptor_ok|done].
    + cbn -[decode_table_kind_code table_kind_code]. by rewrite table_kind_roundtrip.
    + cbn [List.flat_map enc_field]. by rewrite app_nil_r.
Qed.

(** An encoded op reads back, whatever its kind. *)
Lemma decode_encode_op op code body :
  op_wf op → validate_wal_op op = Ok () → encode_op_body op = Ok (code, body) → zlen body ≤ usize_max →
  decode_op_body code body = Ok op.
Proof.
  intros Hwf Hv He Hz. destruct op; cbn [op_wf validate_wal_op] in *.
  5-9: by eapply descriptor_roundtrip.
  all: cbn [encode_op_body] in He; try done; injection He as <- <-.
  all: lazymatch goal with
    | |- decode_op_body OP_CREATE_NODE _ = _ => destruct Hwf as (? & ? & ?); by apply create_node_ok
    | |- decode_op_body OP_CREATE_RELATIONSHIP _ = _ =>
        destruct Hwf as (? & ? & ? & ? & ?); by apply create_relationship_ok
    | |- decode_op_body OP_PROJECT_GRAPH _ = _ => destruct Hwf as (? & ? & ? & Hps & Hne);
        pose proof (decode_encode_predicates _ Hps) as Hd; rewrite Hne in Hd; apply project_graph_ok; try done; by apply encode_predicates_text
    | |- decode_op_body OP_CREATE_COMPOSITE_INDEX _ = _ => destruct Hwf; by apply composite_index_ok
    | |- _ => op_dispatch
    end.
  all: lazymatch goal with
    | |- one_string _ _ = _ => by apply one_string_ok
    | |- two_strings _ _ = _ => destruct Hwf; by apply two_strings_ok
    | |- set_property _ _ = _ => destruct Hwf as (? & ? & ?); by apply set_property_ok
    | |- one_id _ _ = _ => by apply one_id_ok
    | |- one_record _ _ = _ => by apply one_record_ok
    end.
Qed.

Lemma encode_op_body_ok op : op_wf op → ∃ code body, encode_op_body op = Ok (code, body) ∧ is_u64 code.
Proof. destruct op; try done; intros _; by eexists _, _. Qed.
End OpRoundtrip.
