(* ===== verification/WalRecord.v ===== *)
(** WAL records: the envelope of crates/storage/src/wal/binary.rs and
    wal/binary/record_decode.rs around op frames, the batches prepared before
    their position in the log is known, and the cursor of
    crates/storage/src/wal.rs that turns read events into entries. *)
From Stdlib Require Import Sorted.
From S2P Require Import Prelude Ordering Text TemporalText TextCodec ProjectionPredicates Wire Decimal Values WalValue WalOps.

Definition RECORD_KIND_SINGLE : Z := 0.
Definition RECORD_KIND_BATCH : Z := 1.

Record WalEntry `{Chrono} := { lsn : Z; op : WalOp }.

Inductive BinaryWalRecordDecode `{Chrono} :=
  | Entry (entry : WalEntry) (commit_epoch : Z)
  | CorruptRecord (reason : HawDBError).

Record PreparedWalBatch := { prepared_bytes : bytes; operation_count : Z }.

Section Records.
Context {C : Chrono} {F : ChronoFields C} {U : UuidText}.

(** ** Encoding *)

Definition encode_op_frame (op : WalOp) : Result bytes :=
  let? (op_code, body) := encode_op_body op in
  Ok (encode_varint_u64 op_code ++ encode_varint_u64 (zlen body) ++ body).

Fixpoint encode_op_frames (ops : list WalOp) : Result bytes :=
  match ops with
  | [] => Ok []
  | op :: ops =>
      let? frame := encode_op_frame op in
      let? frames := encode_op_frames ops in Ok (frame ++ frames)
  end.

(** [ops.len() as u32]. *)
Definition as_u32 (n : Z) : Z := n mod 2 ^ 32.

Definition encode_binary_wal_record (entry : WalEntry) (commit_epoch : Z) : Result bytes :=
  let? _ := validate_wal_op_values [op entry] in
  match op entry with
  | Batch ops =>
      let? frames := encode_op_frames ops in
      Ok (le_bytes 8 (lsn entry) ++ [RECORD_KIND_BATCH] ++ le_bytes 8 commit_epoch ++
          le_bytes 4 (as_u32 (zlen ops)) ++ frames)
  | single =>
      let? frame := encode_op_frame single in
      Ok (le_bytes 8 (lsn entry) ++ [RECORD_KIND_SINGLE] ++ le_bytes 8 commit_epoch ++ le_bytes 4 1 ++ frame)
  end.

Definition prepare (ops : list WalOp) : Result PreparedWalBatch :=
  let? _ := validate_wal_op_values ops in
  let? count := (if zlen ops <=? u32_max then Ok (zlen ops)
                 else Err (Storage "WAL operation count overflows u32" [])) in
  let? frames := encode_op_frames ops in
  Ok {| prepared_bytes := le_bytes 8 0 ++ [RECORD_KIND_BATCH] ++ le_bytes 8 0 ++ le_bytes 4 count ++ frames;
        operation_count := zlen ops |}.

(** [copy_from_slice] into the bytes [a..a + src.len()]. *)
Definition copy_at (bs : bytes) (a : Z) (src : bytes) : bytes :=
  take (Z.to_nat a) bs ++ src ++ drop (Z.to_nat (a + zlen src)) bs.
Definition bind (p : PreparedWalBatch) (lsn commit_epoch : Z) : bytes :=
  copy_at (copy_at (prepared_bytes p) 0 (le_bytes 8 lsn)) 9 (le_bytes 8 commit_epoch).

(** ** Decoding *)

Definition decode_frame (bs : bytes) (pos : Z) : Result (WalOp * Z) :=
  let? (code, pos) := decode_varint_u64 bs pos in
  let? (body, pos) := decode_len_body bs pos in
  let? op := decode_op_body code body in Ok (op, pos).

(** [for _ in 0..op_count]; a frame takes at least two bytes, so a record of
    [n] bytes holds fewer than [n] frames. *)
Fixpoint decode_frames (fuel : nat) (bs : bytes) (count pos : Z) : Result (list WalOp * Z) :=
  match fuel with
  | O => Err out_of_fuel
  | S fuel =>
      if count <=? 0 then Ok ([], pos)
      else
        let? (op, pos) := decode_frame bs pos in
        let? (ops, pos) := decode_frames fuel bs (count - 1) pos in
        Ok (op :: ops, pos)
  end.

Definition decode_record (bs : bytes) : Result BinaryWalRecordDecode :=
  if zlen bs <? 21 then Err (Storage "binary WAL record envelope is truncated" [])
  else
    let lsn := le_val (zslice bs 0 8) in
    let record_kind := default 0 (zget bs 8) in
    let commit_epoch := le_val (zslice bs 9 17) in
    let op_count := le_val (zslice bs 17 21) in
    let? (op, pos) :=
      (if record_kind =? RECORD_KIND_SINGLE then
         if negb (op_count =? 1) then Err (Storage "single-op WAL record declares op_count {op_count}" [op_count])
         else
           let? (op, pos) := decode_frame bs 21 in
           match op with
           | Batch _ => Err (Storage "single-op WAL record carries a batch envelope" [])
           | op => Ok (op, pos)
           end
       else if record_kind =? RECORD_KIND_BATCH then
         let? (ops, pos) := decode_frames (S (length bs)) bs op_count 21 in Ok (Batch ops, pos)
       else Err (Storage "unknown WAL record kind {kind}" [record_kind])) in
    if negb (pos =? zlen bs) then Err (Storage "binary WAL record has {} trailing bytes" [zlen bs - pos])
    else Ok (Entry {| lsn := lsn; op := op |} commit_epoch).

Definition decode_binary_wal_record (bs : bytes) : Result BinaryWalRecordDecode :=
  match decode_record bs with
  | Err (Storage reason args) => Ok (CorruptRecord (Storage reason args))
  | r => r
  end.
End Records.

(** ** Reading back records *)

Section RecordRoundtrip.
Context {C : Chrono} {F : ChronoFields C} {U : UuidText}.
Context `{!ChronoLaws C} `{!ChronoFieldLaws C F} `{!UuidTextLaws U}.

(** An op frame in a record. *)
Lemma frame_at bs pos op frame rest :
  op_wf op → validate_wal_op op = Ok () → encode_op_frame op = Ok frame → suffix_at bs pos (frame ++ rest) →
  ∃ pos', decode_frame bs pos = Ok (op, pos') ∧ suffix_at bs pos' rest.
Proof.
  intros Hwf Hv He Hs. destruct (encode_op_body_ok op Hwf) as (code & body & Eb & Hc).
  unfold encode_op_frame in He. rewrite Eb in He. injection He as <-. rewrite <- !app_assoc in Hs.
  unfold decode_frame. destruct (varint_at _ _ _ _ Hc Hs) as (p & -> & Hp). cbn [result_bind].
  destruct (len_body_at _ _ _ _ Hp) as (p' & -> & Hp'). cbn [result_bind].
  assert (zlen body ≤ usize_max) as Hz.
  { destruct Hs as (pre & -> & _ & Hz). rewrite !zlen_app in Hz. zlen_lia. }
  rewrite (decode_encode_op op code body Hwf Hv Eb Hz). by exists p'.
Qed.

Lemma frames_at ops : ∀ bs pos frames rest fuel,
  Forall op_wf ops → validate_wal_op_values ops = Ok () → encode_op_frames ops = Ok frames →
  suffix_at bs pos (frames ++ rest) → (length ops < fuel)%nat →
  ∃ pos', decode_frames fuel bs (zlen ops) pos = Ok (ops, pos') ∧ suffix_at bs pos' rest.
Proof.
  induction ops as [|op ops IH]; intros bs pos frames rest fuel Hwf Hv He Hs Hf; (destruct fuel as [|fuel]; [lia|]).
  { injection He as <-. by exists pos. }
  apply Forall_cons in Hwf as [Hwo Hwf]. cbn [validate_wal_op_values] in Hv.
  destruct (validate_wal_op op) as [[]|] eqn:Ev; [|done]. cbn [result_bind] in Hv.
  cbn [encode_op_frames] in He. destruct (encode_op_frame op) as [frame|] eqn:Ef; [|done].
  destruct (encode_op_frames ops) as [frames'|] eqn:Efs; [|done]. injection He as <-. rewrite <- app_assoc in Hs.
  cbn [decode_frames]. rewrite zlen_cons, (proj2 (Z.leb_gt _ _)) by zlen_lia.
  destruct (frame_at bs pos op frame _ Hwo Ev Ef Hs) as (p & -> & Hp). cbn [result_bind].
  replace (1 + zlen ops - 1) with (zlen ops) by lia.
  destruct (IH bs p frames' rest fuel Hwf Hv eq_refl Hp ltac:(cbn in Hf; lia)) as (p' & -> & Hp').
  by exists p'.
Qed.

Lemma length_frames ops frames :
  Forall op_wf ops → encode_op_frames ops = Ok frames → (length ops ≤ length frames)%nat.
Proof.
  revert frames; induction ops as [|op ops IH]; intros frames Hwf He; [cbn; lia|].
  apply Forall_cons in Hwf as [Hwo Hwf]. cbn [encode_op_frames] in He. unfold encode_op_frame in He.
  destruct (encode_op_body_ok op Hwo) as (code & body & Eb & Hc). rewrite Eb in He. cbn [result_bind] in He.
  destruct (encode_op_frames ops) as [frames'|] eqn:Efs; [|done]. injection He as <-.
  specialize (IH frames' Hwf eq_refl). pose proof (encode_varint_zlen code (proj1 Hc)). unfold zlen in *.
  rewrite !length_app. cbn [length]. lia.
Qed.

Definition envelope (l : Z) (kind : Z) (epoch count : Z) (frames : bytes) : bytes :=
  le_bytes 8 l ++ [kind] ++ le_bytes 8 epoch ++ le_bytes 4 count ++ frames.

Lemma envelope_fields l kind epoch count frames :
  is_u64 l → is_u64 epoch → 0 ≤ count < 2 ^ 32 → zlen (envelope l kind epoch count frames) ≤ usize_max →
  let bs := envelope l kind epoch count frames in
  (zlen bs <? 21) = false ∧ le_val (zslice bs 0 8) = l ∧ zget bs 8 = Some kind ∧
  le_val (zslice bs 9 17) = epoch ∧ le_val (zslice bs 17 21) = count ∧ suffix_at bs 21 frames.
Proof.
  intros Hl He Hc Hz bs. unfold is_u64 in *.
  assert (bs = (le_bytes 8 l ++ [kind]) ++ le_bytes 8 epoch ++ le_bytes 4 count ++ frames) as E1
    by (unfold bs, envelope; by rewrite <- app_assoc).
  assert (bs = (le_bytes 8 l ++ [kind] ++ le_bytes 8 epoch) ++ le_bytes 4 count ++ frames) as E2
    by (unfold bs, envelope; by rewrite <- !app_assoc).
  assert (bs = (le_bytes 8 l ++ [kind] ++ le_bytes 8 epoch ++ le_bytes 4 count) ++ frames) as E3
    by (unfold bs, envelope; by rewrite <- !app_assoc).
  split_and!.
  - apply Z.ltb_ge. rewrite E3. zlen_lia.
  - unfold bs, envelope. rewrite zslice_app_front by by rewrite zlen_le_bytes. by apply le_val_bytes_small.
  - unfold bs, envelope. cbn [app]. replace 8 with (zlen (le_bytes 8 l)) by by rewrite zlen_le_bytes. apply zget_app_mid.
  - rewrite E1. rewrite zslice_app_mid by (rewrite ?zlen_app, ?zlen_le_bytes; done). by apply le_val_bytes_small.
  - rewrite E2. rewrite zslice_app_mid by (rewrite ?zlen_app, ?zlen_le_bytes; done). by apply le_val_bytes_small.
  - exists (le_bytes 8 l ++ [kind] ++ le_bytes 8 epoch ++ le_bytes 4 count). split_and!; [done| |done].
    rewrite !zlen_app, !zlen_le_bytes. done.
Qed.

(** What the types guarantee of an entry ([op_wf]); a batch counts its
    operations in 32 bits and does not nest. *)
Definition entry_wf (e : WalEntry) : Prop :=
  is_u64 (lsn e) ∧
  match op e with
  | Batch ops => Forall op_wf ops ∧ zlen ops < 2 ^ 32
  | single => op_wf single
  end.

Lemma validate_batch ops : validate_wal_op (Batch ops) = validate_wal_op_values ops.
Proof.
  cbn. induction ops as [|o ops IH]; [done|]. cbn. destruct (validate_wal_op o); [|done]. apply IH.
Qed.
Lemma validate_singleton o : validate_wal_op_values [o] = validate_wal_op o.
Proof. cbn. by destruct (validate_wal_op o) as [[]|]. Qed.

Lemma decode_encode_batch l ops epoch bs :
  is_u64 l → is_u64 epoch → Forall op_wf ops → zlen ops < 2 ^ 32 →
  encode_binary_wal_record {| lsn := l; op := Batch ops |} epoch = Ok bs → zlen bs ≤ usize_max →
  decode_record bs = Ok (Entry {| lsn := l; op := Batch ops |} epoch).
Proof.
  intros Hl He Hops Hn Henc Hz. unfold encode_binary_wal_record in Henc. cbn [op lsn] in Henc.
  rewrite validate_singleton, validate_batch in Henc.
  destruct (validate_wal_op_values ops) as [[]|] eqn:Ev; [|done]. cbn [result_bind] in Henc.
  destruct (encode_op_frames ops) as [frames|] eqn:Ef; [|done]. cbn [result_bind] in Henc.
  assert (as_u32 (zlen ops) = zlen ops) as Hu by (apply Z.mod_small; zlen_lia). rewrite Hu in Henc.
  assert (bs = envelope l RECORD_KIND_BATCH epoch (zlen ops) frames) as -> by (injection Henc as <-; done). clear Henc.
  destruct (envelope_fields l RECORD_KIND_BATCH epoch (zlen ops) frames Hl He ltac:(zlen_lia) Hz)
    as (Hlen & Hlsn & Hk & Hep & Hcnt & Hs).
  unfold decode_record. rewrite Hlen, Hlsn, Hk, Hep, Hcnt.
  change (default 0 (Some RECORD_KIND_BATCH)) with RECORD_KIND_BATCH.
  change (RECORD_KIND_BATCH =? RECORD_KIND_SINGLE) with false. change (RECORD_KIND_BATCH =? RECORD_KIND_BATCH) with true.
  cbv iota. rewrite <- (app_nil_r frames) in Hs at 2.
  destruct (frames_at ops _ 21 frames [] (S (length (envelope l RECORD_KIND_BATCH epoch (zlen ops) frames)))
              Hops Ev Ef Hs) as (p & -> & Hp).
  { pose proof (length_frames ops frames Hops Ef). unfold envelope. rewrite !length_app. lia. }
  cbn [result_bind]. destruct Hp as (pre & Hpre & -> & _). rewrite app_nil_r in Hpre. rewrite <- Hpre.
  by rewrite Z.eqb_refl.
Qed.

Lemma encode_single l o epoch :
  op_wf o →
  encode_binary_wal_record {| lsn := l; op := o |} epoch =
    let? _ := validate_wal_op o in
    let? frame := encode_op_frame o in Ok (envelope l RECORD_KIND_SINGLE epoch 1 frame).
Proof.
  intros Ho. unfold encode_binary_wal_record. cbn [op lsn]. rewrite validate_singleton.
  destruct (validate_wal_op o); [|done]. by destruct o.
Qed.
Lemma single_not_batch o (p : Z) :
  op_wf o →
  (match o with
   | Batch _ => Err (Storage "single-op WAL record carries a batch envelope" [])
   | op => Ok (op, p)
   end) = Ok (E := HawDBError) (o, p).
Proof. by destruct o. Qed.

Lemma decode_encode_single l o epoch bs :
  is_u64 l → is_u64 epoch → op_wf o →
  encode_binary_wal_record {| lsn := l; op := o |} epoch = Ok bs → zlen bs ≤ usize_max →
  decode_record bs = Ok (Entry {| lsn := l; op := o |} epoch).
Proof.
  intros Hl He Ho Henc Hz. rewrite encode_single in Henc by done.
  destruct (validate_wal_op o) as [[]|] eqn:Ev; [|done]. cbn [result_bind] in Henc.
  destruct (encode_op_frame o) as [frame|] eqn:Ef; [|done]. injection Henc as <-.
  destruct (envelope_fields l RECORD_KIND_SINGLE epoch 1 frame Hl He ltac:(done) Hz)
    as (Hlen & Hlsn & Hk & Hep & Hcnt & Hs).
  unfold decode_record. rewrite Hlen, Hlsn, Hk, Hep, Hcnt.
  change (default 0 (Some RECORD_KIND_SINGLE)) with RECORD_KIND_SINGLE.
  change (RECORD_KIND_SINGLE =? RECORD_KIND_SINGLE) with true. change (negb (1 =? 1)) with false. cbv iota.
  rewrite <- (app_nil_r frame) in Hs at 2.
  destruct (frame_at _ 21 o frame [] Ho Ev Ef Hs) as (p & -> & Hp). cbn [result_bind].
  rewrite single_not_batch by done. cbn [result_bind].
  destruct Hp as (pre & Hpre & -> & _). rewrite app_nil_r in Hpre. rewrite <- Hpre. by rewrite Z.eqb_refl.
Qed.

Lemma decode_encode_record e epoch bs :
  entry_wf e → is_u64 epoch → encode_binary_wal_record e epoch = Ok bs → zlen bs ≤ usize_max →
  decode_binary_wal_record bs = Ok (Entry e epoch).
Proof.
  destruct e as [l o]. intros [Hl Ho] He Henc Hz. cbn [op lsn] in *. unfold decode_binary_wal_record.
  assert (decode_record bs = Ok (Entry {| lsn := l; op := o |} epoch)) as ->; [|done].
  destruct o; try (by eapply decode_encode_single). destruct Ho. by eapply decode_encode_batch.
Qed.

Lemma encode_frames_ok ops : Forall op_wf ops → ∃ frames, encode_op_frames ops = Ok frames.
Proof.
  induction 1 as [|o ops Ho _ [frames IH]]; [by exists []|]. cbn. unfold encode_op_frame.
  destruct (encode_op_body_ok o Ho) as (code & body & -> & _). cbn [result_bind]. rewrite IH. by eexists.
Qed.

Lemma encode_record_ok e epoch :
  entry_wf e → validate_wal_op (op e) = Ok () → ∃ bs, encode_binary_wal_record e epoch = Ok bs.
Proof.
  destruct e as [l o]. intros [_ Ho] Hv. cbn [op] in *.
  assert (op_wf o → ∃ bs, encode_binary_wal_record {| lsn := l; op := o |} epoch = Ok bs) as Hsingle.
  { intros Hw. rewrite encode_single, Hv by done. cbn [result_bind]. unfold encode_op_frame.
    destruct (encode_op_body_ok o Hw) as (code & body & -> & _). cbn [result_bind]. by eexists. }
  destruct o; try (by apply Hsingle). destruct Ho as [Hops _]. unfold encode_binary_wal_record. cbn [op lsn].
  rewrite validate_singleton, Hv. cbn [result_bind]. destruct (encode_frames_ok ops Hops) as [frames ->]. by eexists.
Qed.

Lemma copy_at_mid (pre old new rest : bytes) a :
  a = zlen pre → zlen old = zlen new → copy_at (pre ++ old ++ rest) a new = pre ++ new ++ rest.
Proof.
  intros -> Hl. unfold copy_at. rewrite take_zlen_app by done. do 2 f_equal.
  rewrite app_assoc. apply drop_zlen_app. rewrite zlen_app. lia.
Qed.

Lemma bind_prepared n frames count l epoch :
  bind {| prepared_bytes := envelope 0 RECORD_KIND_BATCH 0 count frames; operation_count := n |} l epoch =
  envelope l RECORD_KIND_BATCH epoch count frames.
Proof.
  unfold bind, envelope. cbn [prepared_bytes].
  pose proof (copy_at_mid [] (le_bytes 8 0) (le_bytes 8 l)
                ([RECORD_KIND_BATCH] ++ le_bytes 8 0 ++ le_bytes 4 count ++ frames) 0 eq_refl) as E1.
  cbn [app] in *. rewrite E1 by by rewrite !zlen_le_bytes.
  pose proof (copy_at_mid (le_bytes 8 l ++ [RECORD_KIND_BATCH]) (le_bytes 8 0) (le_bytes 8 epoch)
                (le_bytes 4 count ++ frames) 9) as E2.
  rewrite <- !app_assoc in E2. cbn [app] in E2. apply E2; by rewrite ?zlen_app, !zlen_le_bytes.
Qed.

Lemma prepare_bind ops p l epoch :
  prepare ops = Ok p →
  operation_count p = zlen ops ∧
  encode_binary_wal_record {| lsn := l; op := Batch ops |} epoch = Ok (bind p l epoch).
Proof.
  unfold prepare, encode_binary_wal_record. cbn [op lsn]. rewrite validate_singleton, validate_batch.
  destruct (validate_wal_op_values ops) as [[]|]; [|done]. cbn [result_bind].
  destruct (Z.leb_spec (zlen ops) u32_max); [|done]. cbn [result_bind].
  destruct (encode_op_frames ops) as [frames|]; [|done]. cbn [result_bind]. intros [= <-]. split; [done|].
  etrans; [|apply f_equal; symmetry; apply (bind_prepared (zlen ops) frames (zlen ops) l epoch)].
  assert (as_u32 (zlen ops) = zlen ops) as -> by (apply Z.mod_small; unfold u32_max in *; zlen_lia). done.
Qed.
End RecordRoundtrip.

(** ** Properties *)

Section Claims.
Context {C : Chrono} {F : ChronoFields C} {U : UuidText}.
Context `{!ChronoLaws C} `{!ChronoFieldLaws C F} `{!UuidTextLaws U}.

(** C5: WAL records survive.  An entry whose values pass validation is encoded,
    and the record, if its length fits in a [usize], decodes to the same LSN,
    commit epoch and operation, one operation and a batch of one staying
    distinct.  This holds for every kind of operation with valid UTF-8 names and
    well-formed values, for batches of fewer than 2^32 operations none of which
    is a batch, and for projected graphs whose predicates have no empty
    conjunction at any depth and no zoned date-time more than 18 hours from UTC
    (the text of other predicates is written but refused when read). *)
Theorem wal_record_roundtrip e epoch :
  entry_wf e → is_u64 epoch → validate_wal_op_values [op e] = Ok () →
  ∃ bs, encode_binary_wal_record e epoch = Ok bs ∧
    (zlen bs ≤ usize_max → decode_binary_wal_record bs = Ok (Entry e epoch)).
Proof.
  intros Hwf He Hv. rewrite validate_singleton in Hv.
  destruct (encode_record_ok e epoch Hwf Hv) as [bs Hbs]. exists bs. split; [done|].
  intros Hz. by apply decode_encode_record.
Qed.

(** Preparing a batch early changes nothing.  A batch encoded before its
    position is known and then bound to an LSN and an epoch is byte for byte the
    record encoded at once, and reports the number of its operations. *)
Theorem wal_prepared_batch_equiv ops p l epoch :
  prepare ops = Ok p →
  operation_count p = zlen ops ∧
  encode_binary_wal_record {| lsn := l; op := Batch ops |} epoch = Ok (bind p l epoch).
Proof. apply prepare_bind. Qed.
End Claims.

Module RecordDemo.
Import Calendar Civil HexUuid.
Definition ops : list WalOp :=
  [CreateNode 7 [65] [([107], VInt (-5)); ([108], VList [VBool true])]; DeleteNode 3;
   ProjectGraph [103] [[65]] [lit "KNOWS"] PredicateDemo.sample].
Definition entry : WalEntry := {| lsn := 12; op := Batch ops |}.

Lemma entry_demo_wf : entry_wf entry.
Proof.
  split; [done|]. cbn [op entry]. split; [|done].
  repeat apply Forall_cons_2; [| | |apply Forall_nil_2]; cbn [op_wf].
  - split_and!; [done..|]. apply value_wf_map. split.
    + apply SSorted_cons; [by repeat constructor|]. by repeat constructor.
    + repeat apply Forall_cons_2; [| |apply Forall_nil_2]; done.
  - done.
  - split_and!; [done|by repeat constructor|by repeat constructor|apply PredicateDemo.sample_ok|done].
Qed.

Lemma wal_record_roundtrip_witness :
  ∃ bs, encode_binary_wal_record entry 4 = Ok bs ∧ decode_binary_wal_record bs = Ok (Entry entry 4).
Proof.
  destruct (wal_record_roundtrip entry 4 entry_demo_wf) as (bs & Hbs & Hdec); [by vm_compute|by vm_compute|].
  exists bs. split; [exact Hbs|]. apply Hdec.
  assert (bs = match encode_binary_wal_record entry 4 with Ok b => b | Err _ => [] end) as -> by by rewrite Hbs.
  by vm_compute.
Defined.

Lemma wal_prepared_batch_equiv_witness :
  match prepare ops with
  | Ok p => encode_binary_wal_record entry 4 = Ok (bind p 12 4)
  | Err _ => False
  end.
Proof.
  destruct (prepare ops) as [p|] eqn:E; [|by vm_compute in E].
  apply (wal_prepared_batch_equiv ops p 12 4 E).
Defined.
End RecordDemo.
