(* ===== verification/WalCursor.v ===== *)
(** Opening and replaying a WAL file: [WalRecordCursor] of
    crates/storage/src/wal.rs, over the fragment reader of WalFrame and the
    record codec of WalRecord.  This is the path from the bytes on disk to the
    operations recovery applies. *)
From S2P Require Import Prelude Ordering Wire Integrity WalFrame WalScan WalLog WalRecovery.
From S2P Require Import TemporalText TextCodec ProjectionPredicates Decimal Values WalValue WalOps WalRecord.

Inductive WalCursorEvent `{Chrono} :=
  | CursorEntry (entry : WalEntry) (start_offset encoded_len payload_len : Z) (payload_sha256 : Sha256Digest)
  | CursorCorrupt (offset : Z) (why : HawDBError)
  | CursorTornTail (valid_prefix_len : Z) (why : HawDBError)
  | CursorEof.

Record WalRecordCursor (R : Type) := {
  cursor_generation : Z;
  cursor_start_lsn : Z;
  cursor_reader : BinaryWalReader R;
}.
Arguments cursor_generation {R} _.
Arguments cursor_start_lsn {R} _.
Arguments cursor_reader {R} _.

Inductive WalOpenOutcome (R : Type) :=
  | OpenedCursor (cursor : WalRecordCursor R)
  | MissingHeader
  | HeaderTorn
  | HeaderCorrupt (why : HawDBError).
Arguments OpenedCursor {R} cursor.
Arguments MissingHeader {R}.
Arguments HeaderTorn {R}.
Arguments HeaderCorrupt {R} why.

Section Cursor.
Context {C : Chrono} {F : ChronoFields C} {U : UuidText} `{Crc : Crc32cCrate} `{Sha : Sha256Crate}.
Context {R : Type} `{RD : Read R}.

(** The loop that fills the header buffer; a read that is not at the end of
    the file returns a byte, so one round per byte is enough. *)
Fixpoint fill_header (fuel : nat) (r : R) (header : bytes) : Result (bytes * R) :=
  match fuel with
  | O => Ok (header, r)
  | S fuel =>
      if zlen header <? WAL_BINARY_FILE_HEADER_BYTES then
        let? (bs, r) := read r (WAL_BINARY_FILE_HEADER_BYTES - zlen header) in
        match bs with
        | [] => Ok (header, r)
        | _ => fill_header fuel r (header ++ bs)
        end
      else Ok (header, r)
  end.

Definition read_header (r : R) (max_record_bytes : option Z) : Result (WalOpenOutcome R) :=
  let? (header, r) := fill_header (S (Z.to_nat WAL_BINARY_FILE_HEADER_BYTES)) r [] in
  if zlen header =? 0 then Ok MissingHeader
  else if zlen header <? WAL_BINARY_FILE_HEADER_BYTES then Ok HeaderTorn
  else match decode_binary_wal_header header with
       | Err e => Ok (HeaderCorrupt e)
       | Ok (generation, start_lsn) =>
           Ok (OpenedCursor {| cursor_generation := generation; cursor_start_lsn := start_lsn;
                               cursor_reader := BinaryWalReader_new r generation max_record_bytes |})
       end.

Definition next (fuel : nat) (c : WalRecordCursor R) : option (Result (WalCursorEvent * WalRecordCursor R)) :=
  match next_event fuel (cursor_reader c) with
  | None => None
  | Some (Err e) => Some (Err e)
  | Some (Ok (ev, reader)) =>
      let c := {| cursor_generation := cursor_generation c; cursor_start_lsn := cursor_start_lsn c;
                  cursor_reader := reader |} in
      match ev with
      | Record_ payload start_offset end_offset =>
          match decode_binary_wal_record payload with
          | Err e => Some (Err e)
          | Ok (Entry entry _) =>
              Some (Ok (CursorEntry entry start_offset (end_offset - start_offset) (zlen payload) (sha256 payload), c))
          | Ok (CorruptRecord why) => Some (Ok (CursorCorrupt start_offset why, c))
          end
      | TornTail n why => Some (Ok (CursorTornTail n (Storage why.1 why.2), c))
      | Corrupt offset why => Some (Ok (CursorCorrupt offset (Storage why.1 why.2), c))
      | Eof => Some (Ok (CursorEof, c))
      end
  end.

(** A caller that reads to the first event that is not an entry. *)
Fixpoint replay (rounds fuel : nat) (c : WalRecordCursor R) : option (list WalCursorEvent * Result WalCursorEvent) :=
  match rounds with
  | O => None
  | S rounds =>
      match next fuel c with
      | None => None
      | Some (Err e) => Some ([], Err e)
      | Some (Ok (CursorEntry e a l n h, c)) =>
          match replay rounds fuel c with
          | Some (evs, last) => Some (CursorEntry e a l n h :: evs, last)
          | None => None
          end
      | Some (Ok (ev, _)) => Some ([], Ok ev)
      end
  end.
End Cursor.

(** ** Opening *)

Section Open.
Context {R : Type} `{RL : ReadLaws R}.

Lemma fill_header_spec fuel (r : R) header h rest :
  h ++ rest = unread r → zlen header + zlen h = WAL_BINARY_FILE_HEADER_BYTES →
  zlen h < Z.of_nat fuel →
  ∃ r', fill_header fuel r header = Ok (header ++ h, r') ∧ unread r' = rest.
Proof.
  revert r header h; induction fuel as [|fuel IH]; intros r header h Hun Hlen Hf; [zlen_lia|].
  cbn [fill_header]. destruct (Z.ltb_spec (zlen header) WAL_BINARY_FILE_HEADER_BYTES) as [Hlt|Hge].
  2: { assert (h = []) as -> by (apply zlen_zero_inv; zlen_lia). exists r. by rewrite app_nil_r. }
  destruct (read_spec r (WAL_BINARY_FILE_HEADER_BYTES - zlen header) ltac:(lia)) as (bs & r' & -> & Hr & Hn & Hnil).
  cbn [result_bind]. destruct bs as [|b bs].
  { rewrite (Hnil eq_refl) in Hun. apply app_eq_nil in Hun as [-> _]. rewrite zlen_nil in Hlen. lia. }
  rewrite Hr in Hun. set (chunk := b :: bs) in *.
  assert (h = chunk ++ drop (length chunk) h) as Hh.
  { assert (take (length chunk) h = chunk) as Ht.
    { pose proof (f_equal (take (length chunk)) Hun) as Ht.
      rewrite take_app_length, take_app_le in Ht; [done|]. unfold zlen in *. lia. }
    rewrite <- Ht at 1. by rewrite take_drop. }
  assert (1 ≤ zlen chunk) as H1 by (unfold chunk; zlen_lia).
  destruct (IH r' (header ++ chunk) (drop (length chunk) h)) as (r'' & E & Hu).
  - rewrite Hh in Hun. rewrite <- app_assoc in Hun. by apply app_inv_head in Hun.
  - rewrite Hh in Hlen. rewrite zlen_app in *. lia.
  - rewrite Hh in Hf. rewrite zlen_app in Hf. lia.
  - exists r''. split; [|done]. rewrite E, <- app_assoc. by rewrite <- Hh.
Qed.
End Open.

(** ** Replaying *)

Section Replay.
Context {C : Chrono} {F : ChronoFields C} {U : UuidText}.
Context `{!ChronoLaws C} `{!ChronoFieldLaws C F} `{!UuidTextLaws U}.
Context `{Sha : Sha256Crate}.
Context `{CL : Crc32cLaws} {R : Type} `{RL : ReadLaws R}.

(** The event of an entry read back from the given span of the log. *)
Definition entry_event (e : WalEntry) (span : bytes * Z * Z) : WalCursorEvent :=
  let '(payload, start, end_) := span in
  CursorEntry e start (end_ - start) (zlen payload) (sha256 payload).

Definition final_event (ev : BinaryWalReadEvent) : WalCursorEvent :=
  match ev with
  | TornTail n why => CursorTornTail n (Storage why.1 why.2)
  | Corrupt offset why => CursorCorrupt offset (Storage why.1 why.2)
  | _ => CursorEof
  end.

Lemma replay_drain rounds fuel : ∀ (c : WalRecordCursor R) es spans ev,
  drain rounds fuel (cursor_reader c) = Some (spans, Ok ev) →
  Forall2 (λ e (span : bytes * Z * Z), ∃ epoch, decode_binary_wal_record span.1.1 = Ok (Entry e epoch)) es spans →
  replay rounds fuel c = Some (zip_with entry_event es spans, Ok (final_event ev)).
Proof.
  induction rounds as [|rounds IH]; intros c es spans ev Hd Hes; [done|].
  cbn [drain replay] in *. unfold next. destruct (next_event fuel (cursor_reader c)) as [[[ev0 s0]|e]|]; [|done..].
  destruct ev0 as [payload a b|n why|o why|]; try (by injection Hd as <- <-; inversion Hes).
  destruct (drain rounds fuel s0) as [[spans' ev']|] eqn:E; [|done]. injection Hd as <- ->.
  inversion Hes as [|e ? es' ? (epoch & Hdec) Hes']; subst. cbn [fst] in Hdec. rewrite Hdec.
  by rewrite (IH {| cursor_generation := cursor_generation c; cursor_start_lsn := cursor_start_lsn c;
                    cursor_reader := s0 |} es' spans' ev E Hes').
Qed.

Lemma decode_encode_header gen start_lsn :
  is_u64 gen → is_u64 start_lsn →
  decode_binary_wal_header (encode_binary_wal_header gen start_lsn) = Ok (gen, start_lsn).
Proof.
  intros Hg Hs. unfold encode_binary_wal_header. cbn zeta.
  destruct (header_body_fields gen start_lsn Hg Hs) as (Hlen & Hm & Hgen & Hlsn).
  set (body := WAL_BINARY_MAGIC ++ _) in *. clearbody body.
  rewrite <- (app_nil_r (le_bytes 4 _)), decode_header_body by (done || apply crc32c_append_u32).
  by rewrite Z.eqb_refl, Hgen, Hlsn.
Qed.

Lemma open_header (r : R) gen start_lsn limit rest :
  is_u64 gen → is_u64 start_lsn → unread r = encode_binary_wal_header gen start_lsn ++ rest →
  ∃ r', read_header r limit =
          Ok (OpenedCursor {| cursor_generation := gen; cursor_start_lsn := start_lsn;
                              cursor_reader := BinaryWalReader_new r' gen limit |}) ∧ unread r' = rest.
Proof.
  intros Hg Hs Hun. set (h := encode_binary_wal_header gen start_lsn) in *.
  assert (zlen h = WAL_BINARY_FILE_HEADER_BYTES) as Hlen.
  { unfold h, encode_binary_wal_header. cbn zeta. rewrite !zlen_app, !zlen_le_bytes. done. }
  destruct (fill_header_spec (S (Z.to_nat WAL_BINARY_FILE_HEADER_BYTES)) r [] h rest (eq_sym Hun)) as (r' & E & Hu).
  { rewrite zlen_nil. lia. }
  { rewrite Hlen. done. }
  exists r'. split; [|done]. unfold read_header. rewrite E. cbn [app result_bind]. rewrite Hlen.
  change (WAL_BINARY_FILE_HEADER_BYTES =? 0) with false.
  change (WAL_BINARY_FILE_HEADER_BYTES <? WAL_BINARY_FILE_HEADER_BYTES) with false. cbv iota.
  unfold h. by rewrite decode_encode_header.
Qed.

(** The records that lie within a prefix of the log are the first ones. *)
Lemma spans_within_prefix gen xs : ∀ p k,
  ∃ n, spans_within k (spans_from gen p xs) = take n (spans_from gen p xs).
Proof.
  induction xs as [|x xs IH]; intros p k; [by exists 0%nat|].
  cbn [spans_from]. set (e := p + zlen (frame_binary_wal_record gen x p)).
  destruct (decide (WAL_HDR + e ≤ WAL_HDR + k)) as [Hle|Hgt].
  - destruct (IH e k) as [n Hn]. exists (S n). cbn [take]. rewrite <- Hn.
    unfold spans_within. by rewrite filter_cons_True.
  - exists 0%nat. cbn [take]. unfold spans_within. rewrite filter_cons_False by done.
    apply filter_none. intros r Hr%spans_from_ends. unfold WAL_FRAGMENT_HEADER_BYTES in Hr. lia.
Qed.

Lemma spans_payloads gen xs p : (λ r : bytes * Z * Z, r.1.1) <$> spans_from gen p xs = xs.
Proof. revert p; induction xs as [|x xs IH]; intros p; [done|]. cbn. by rewrite IH. Qed.

(** A written entry: what the writer framed for it. *)
Definition written (e : WalEntry * Z) (record : bytes) : Prop :=
  entry_wf e.1 ∧ is_u64 e.2 ∧ encode_binary_wal_record e.1 e.2 = Ok record ∧ zlen record ≤ usize_max.

Lemma written_decodes gen p entries records :
  Forall2 written entries records →
  Forall2 (λ e (span : bytes * Z * Z), ∃ epoch, decode_binary_wal_record span.1.1 = Ok (Entry e epoch))
    (fst <$> entries) (spans_from gen p records).
Proof.
  intros Hw. revert p. induction Hw as [|[e epoch] rec entries records (Hwf & He & Henc & Hz) _ IH]; intros p;
    cbn [fmap list_fmap spans_from]; constructor; [|apply IH].
  exists epoch. by apply decode_encode_record.
Qed.

(** Replaying a file whose log was cut after [k] bytes. *)
Lemma replay_cut (r : R) gen start_lsn limit entries records k rounds fuel :
  is_u64 start_lsn → Forall2 written entries records → loggable gen limit records →
  unread r = encode_binary_wal_header gen start_lsn ++ take (Z.to_nat k) (log_from gen 0 records) →
  0 ≤ k ≤ zlen (log_from gen 0 records) → k < Z.of_nat fuel → (length records < rounds)%nat →
  ∃ c n ev, read_header r limit = Ok (OpenedCursor c) ∧
    cursor_generation c = gen ∧ cursor_start_lsn c = start_lsn ∧
    spans_within k (spans_from gen 0 records) = take n (spans_from gen 0 records) ∧
    replay rounds fuel c =
      Some (take n (zip_with entry_event (fst <$> entries) (spans_from gen 0 records)), Ok (final_event ev)) ∧
    clean_or_torn ev ∧ (k = zlen (log_from gen 0 records) → ev = Eof).
Proof.
  intros Hs Hw Hlog Hun Hk Hf Hr. destruct (Hlog) as (Hg & _).
  destruct (open_header r gen start_lsn limit _ Hg Hs Hun) as (r' & Ho & Hun').
  destruct (drain_cut_log gen limit r' records k rounds fuel Hlog Hun' Hk Hf Hr) as (ev & Hd & Hct & _ & Hfull & _).
  destruct (spans_within_prefix gen records 0 k) as [n Hn]. eexists _, n, ev. split; [exact Ho|].
  split_and!; [done|done|done| |done|done].
  rewrite (replay_drain rounds fuel _ (take n (fst <$> entries)) (take n (spans_from gen 0 records)) ev).
  - do 2 f_equal. by rewrite zip_with_take.
  - cbn [cursor_reader]. by rewrite Hd, Hn.
  - apply Forall2_take. by apply written_decodes.
Qed.
End Replay.

(** ** Properties *)

Section Claims.
Context {C : Chrono} {F : ChronoFields C} {U : UuidText}.
Context `{!ChronoLaws C} `{!ChronoFieldLaws C F} `{!UuidTextLaws U}.
Context `{Sha : Sha256Crate}.
Context `{CL : Crc32cLaws} {R : Type} `{RL : ReadLaws R}.

(** C2: recovery replays what was written.  A file that holds the header of a
    generation and the framed records of entries that were encoded, batches
    included, opens as that generation and replays exactly those entries, in
    order, with the offsets, lengths and digests of their records, and then ends.
    The entries have valid UTF-8 names and well-formed values; batches have fewer
    than 2^32 operations and do not nest; the predicates of projected graphs have
    no empty conjunction at any depth and no zoned date-time more than 18 hours
    from UTC; and the records fit the record limit of the reader. *)
Theorem wal_replay_roundtrip (r : R) gen start_lsn limit entries records rounds fuel :
  is_u64 start_lsn → Forall2 written entries records → loggable gen limit records →
  unread r = encode_binary_wal_header gen start_lsn ++ log_from gen 0 records →
  zlen (log_from gen 0 records) < Z.of_nat fuel → (length records < rounds)%nat →
  ∃ c, read_header r limit = Ok (OpenedCursor c) ∧
    cursor_generation c = gen ∧ cursor_start_lsn c = start_lsn ∧
    replay rounds fuel c =
      Some (zip_with entry_event (fst <$> entries) (spans_from gen 0 records), Ok CursorEof).
Proof.
  intros Hs Hw Hlog Hun Hf Hr. set (k := zlen (log_from gen 0 records)).
  destruct (replay_cut r gen start_lsn limit entries records k rounds fuel) as (c & n & ev & Ho & Hg & Hst & Hn & Hre & _ & Hfull);
    [done..|by rewrite take_ge_z|pose proof (zlen_nonneg (log_from gen 0 records)); lia|done|done|].
  exists c. split_and!; [done..|]. rewrite Hre, (Hfull eq_refl). do 2 f_equal. apply take_ge.
  pose proof (spans_within_all gen records 0 k (Z.le_refl _)) as Hall. rewrite Z.add_0_l, Hn in Hall.
  pose proof (f_equal length Hall) as Hl. rewrite length_take in Hl. rewrite length_zip_with. lia.
Qed.

(** C3: a crash loses only a suffix.  However many bytes of the log after its
    header reached the disk, the file opens and replays a prefix of the entries,
    exactly those whose records are complete on disk; it ends cleanly or in a
    torn tail, and is never reported as corrupt.  The entries are those of a log
    that can be replayed whole: valid UTF-8 names and well-formed values, batches
    of fewer than 2^32 operations that do not nest, predicates of projected graphs
    with no empty conjunction at any depth and no zoned date-time more than 18
    hours from UTC, and records within the record limit of the reader. *)
Theorem wal_replay_crash (r : R) gen start_lsn limit entries records k rounds fuel :
  is_u64 start_lsn → Forall2 written entries records → loggable gen limit records →
  unread r = encode_binary_wal_header gen start_lsn ++ take (Z.to_nat k) (log_from gen 0 records) →
  0 ≤ k ≤ zlen (log_from gen 0 records) → k < Z.of_nat fuel → (length records < rounds)%nat →
  ∃ c n last, read_header r limit = Ok (OpenedCursor c) ∧
    spans_within k (spans_from gen 0 records) = take n (spans_from gen 0 records) ∧
    replay rounds fuel c =
      Some (take n (zip_with entry_event (fst <$> entries) (spans_from gen 0 records)), Ok last) ∧
    (last = CursorEof ∨ ∃ valid why, last = CursorTornTail valid why).
Proof.
  intros Hs Hw Hlog Hun Hk Hf Hr.
  destruct (replay_cut r gen start_lsn limit entries records k rounds fuel Hs Hw Hlog Hun Hk Hf Hr)
    as (c & n & ev & Ho & _ & _ & Hn & Hre & Hct & _).
  exists c, n, (final_event ev). split_and!; [done..|].
  destruct Hct as [-> |(v & why & ->)]; [by left|right]. by eexists _, _.
Qed.
End Claims.

Module CursorDemo.
Import Calendar Civil HexUuid Castagnoli BufferSha RecordDemo.

Definition record_bytes : bytes := match encode_binary_wal_record entry 4 with Ok b => b | Err _ => [] end.
Definition file : bytes := encode_binary_wal_header 7 12 ++ log_from 7 0 [record_bytes].
Definition torn_file : bytes := encode_binary_wal_header 7 12 ++ take (Z.to_nat 30) (log_from 7 0 [record_bytes]).

Lemma demo_written : Forall2 written [(entry, 4)] [record_bytes].
Proof.
  constructor; [|constructor]. split; [apply entry_demo_wf|]. split; [done|].
  split; [|by vm_compute]. cbn [fst snd]. unfold record_bytes.
  destruct (encode_binary_wal_record entry 4) as [b|] eqn:E; [done|by vm_compute in E].
Qed.
Lemma demo_loggable : loggable 7 None [record_bytes].
Proof.
  split_and!; [done| |by repeat constructor]. constructor; [|constructor].
  apply (bool_decide_unpack (Forall (λ z, 0 ≤ z < 256) _)). by vm_compute.
Qed.

Lemma wal_replay_roundtrip_witness :
  ∃ c, read_header (file : ByteByByte) None = Ok (OpenedCursor c) ∧
    replay 2 900 c = Some (zip_with entry_event [entry] (spans_from 7 0 [record_bytes]), Ok CursorEof).
Proof.
  destruct (wal_replay_roundtrip (file : ByteByByte) 7 12 None [(entry, 4)] [record_bytes] 2 900)
    as (c & Ho & _ & _ & Hr); [done|apply demo_written|apply demo_loggable|done|by vm_compute|cbn; lia|].
  exists c. exact (conj Ho Hr).
Defined.

Lemma wal_replay_crash_witness :
  ∃ c n last, read_header (torn_file : ByteByByte) None = Ok (OpenedCursor c) ∧
    replay 2 900 c = Some (take n (zip_with entry_event [entry] (spans_from 7 0 [record_bytes])), Ok last).
Proof.
  destruct (wal_replay_crash (torn_file : ByteByByte) 7 12 None [(entry, 4)] [record_bytes] 30 2 900)
    as (c & n & last & Ho & _ & Hr & _);
    [done|apply demo_written|apply demo_loggable|done|by vm_compute|done|cbn; lia|].
  exists c, n, last. exact (conj Ho Hr).
Defined.
End CursorDemo.
